(* ===== verification/_CoqProject ===== *)
-Q . S2P
Prelude.v
Text.v
WireFrame.v
WireState.v
Scheduler.v
Framing.v
FunctionFs.v
FunctionFsControl.v
FunctionFsStream.v
Actor.v
DeviceSession.v
ShellProtocol.v
BundleError.v
Paths.v
Utf8.v
Rpc.v
SyncTransaction.v
BundleHeader.v
Cbor.v
UsbProbe.v
BundleModel.v
Verify.v
Authenticity.v
Builder.v
BuiltBundles.v
Activation.v
Broker.v
Files.v
InstallStore.v
InstallSafety.v
StoreRuns.v
StoreTrees.v
SafeRoot.v
SlotManifest.v
Watchdog.v
LauncherUpdate.v
LauncherSafety.v
CrashLoop.v
FileHandles.v
DeviceInstall.v
ImageSafety.v
Supervisor.v
Applications.v
StoreRecords.v
ApplicationSafety.v
ApplicationRuns.v
SyncStore.v
SyncPush.v
Pipeline.v
SyncStream.v
SyncResume.v
SyncPull.v
SyncListing.v
SyncSamples.v
SyncOperation.v
SyncClient.v
SyncHost.v
SyncHostRuns.v
SyncEndToEnd.v
SyncHostSamples.v
