(* ===== verification/Prelude.v ===== *)
(** * KindleBridge: a verification of its protocol, bundles, applications, file sync, USB and launcher

    KindleBridge connects a host computer to a Kindle.  The two speak the Kindle
    Bridge Protocol (KBP), streams of frames over TCP or USB; applications reach
    the device as signed bundle files (KBB), other files by resumable pushes and
    pulls; on the device a launcher runs the daemon from one of two slots and falls
    back to the other when an update does not work.  This library models the code of
    these parts, under src/, as executable definitions and proves what makes it correct.

    ** The program's parts and their files

    - KBP frames, src/crates/kindlebridge-wire/src/frame.rs: WireFrame.v.
      [header_encode], [header_decode], [validate], [frame_encode],
      [frame_decode], with CRC-32C as the code computes it.
    - Connection state, state.rs of the same crate: WireState.v.
      [SessionState] with [process], the check every frame passes in both
      directions.
    - Scheduler and transport registry, src/crates/kindlebridge-transport/src/lib.rs:
      Scheduler.v.  Panics are an explicit result.
    - Framing over byte streams, src/crates/kindlebridge-transport-tcp/src:
      Framing.v, for every instance of the interface [Read]/[Write].
    - The connection actor, src/crates/kindlebridge-transport/src/actor.rs:
      Actor.v, on top of WireState.v and Scheduler.v; one iteration of its
      thread takes what the channels and the clock yielded as input.
    - The device's handshake, src/device/kindlebridged/src/server.rs:
      DeviceSession.v, at the start of a connection and as the restart handler of the
      actor.
    - Shell packets, src/crates/kindlebridge-schema/src/shell_protocol.rs:
      ShellProtocol.v.
    - Sync and bundle paths, sync_path.rs of that crate and
      src/crates/kindlebridge-bundle/src/path.rs: Paths.v.
    - Bundles, src/crates/kindlebridge-bundle/src: BundleError.v (error.rs),
      BundleHeader.v (header.rs), Cbor.v (cbor.rs), BundleModel.v (model.rs),
      Verify.v (verify.rs), Builder.v (builder.rs), Activation.v (activation.rs and
      the names of generations of install.rs), InstallStore.v (install.rs).
      Authenticity.v and BuiltBundles.v hold the theorems about verification and about
      what the builder writes, InstallSafety.v, StoreRuns.v and
      StoreTrees.v those about the install store.  DeviceInstall.v (device_install.rs):
      a verified bundle becomes blocks of the store and an image that can be run;
      ImageSafety.v holds its theorems.
    - Applications on the device, src/device/kindlebridged/src: Supervisor.v (app.rs:
      the supervisor of the processes, whose calls of the system are the interface
      [Processes] with the laws [ProcessLaws], and the runner that restarts an
      application and caps its logs), Applications.v (application.rs and
      application/backend.rs: [ApplicationManager], every method of it, over the
      install store, the images and the supervisor on one disk), Rpc.v (the errors
      of src/crates/kindlebridge-schema/src/lib.rs).  StoreRecords.v tells which records
      a call of the store leaves behind, ApplicationSafety.v what each method
      preserves, ApplicationRuns.v what holds after any sequence of them.
    - Files.v: what the device code uses of [std::fs], under InstallStore.v and
      SafeRoot.v, with the triples of its system calls.  FileHandles.v: open files
      with a cursor, and what calls do when none fails ([evals]).
    - File sync, src/device/kindlebridged/src: SyncTransaction.v (the block-wise
      transactions of sync.rs), SyncStore.v ([SyncStore], [PushTransfer] and
      [PullTransfer] of sync.rs), Pipeline.v ([run_bounded_pipeline] of
      sync_stream.rs, its two threads as a step relation), SyncStream.v (the rest
      of sync_stream.rs: a stream from its request to its end; a pull's two
      threads are a step relation as well).  SyncPush.v holds what the methods of
      a push do to the disk, SyncResume.v, SyncPull.v and SyncListing.v the
      theorems, SyncSamples.v runs on a concrete store.
    - The host's side of it, src/host/kindlebridge-server/src: SyncClient.v
      (device_session/sync_client.rs with what it uses of device_session.rs: the
      client that pushes a file of the host and pulls one to it, on the host's
      files, a stream and an operation) and SyncOperation.v (the cancellation of
      sync_operation.rs, calls of several threads as a step relation).  SyncHost.v
      holds the triples and theorems for any device at the other end,
      SyncHostRuns.v what an undisturbed transfer does, SyncEndToEnd.v the theorems
      about a host and a device at the two ends of one stream, SyncHostSamples.v
      runs of both.
    - The launcher, src/device/kindlebridge-launcher/src: SafeRoot.v (fs_safe.rs
      and the errors of lib.rs), SlotManifest.v (manifest.rs), Watchdog.v
      (watchdog.rs), LauncherUpdate.v (update.rs and select-staged of main.rs).
      LauncherSafety.v and CrashLoop.v hold the theorems about them.
    - USB on the device, src/device/kindlebridge-functionfs/src: FunctionFs.v
      (descriptors.rs and event.rs), FunctionFsControl.v (the control endpoint of
      probe.rs, its monitor thread and the bulk endpoints; the calls of the kernel
      answer from a script, the threads are interleaved step by step),
      FunctionFsStream.v (the buffered reads, bounded writes and resynchronization of
      probe.rs, as an instance of the [FrameIo] that the actor drives) and UsbProbe.v
      (the probe session of probe.rs on the framing of Framing.v).
    - The privileged broker, src/device/kindlebridge-broker/src: Broker.v (its policy
      and what the program answers), with the generation names of Activation.v.
    - Prelude.v (this file): [result] for Rust's [Result], the state-and-error
      monad [M] for methods on [&mut self] with its crash triples [hoare],
      machine integers with their wrap-around, saturation and checks, byte
      strings.  Text.v: what the code uses of [str] on bytes; Utf8.v: between
      characters and bytes.

    ** How the code is modelled

    A [u8] to [u64] is an integer [Z] with its width's arithmetic written out; a
    fallible function returns [result]; a method that mutates is a function in
    [M], whose errors keep the mutations made before them.  A panic (a failed
    [expect], an index out of bounds, an overflowing [+]) is a result of its own
    and is proved not to happen.  A [HashMap] or [BTreeMap] is a finite map, or
    the list of its entries where its order shows.  The files of the launcher and
    of the install store are trees of nodes by path in which any system call may
    fail, so that a run covers I/O errors and a process that stops between two calls;
    a failed write leaves some of its bytes behind.  The effects of the calls made are
    kept in their order: what a power failure does to calls that were not yet
    synchronized is not modelled, and [sync_all] is a call that may fail and no more.
    A directory is read in any order ([DirOrder]); its mode is not part of the tree.

    Code that is not in the repository is a parameter: Unicode normalization,
    CRC-32C of the bundle header, BLAKE3, Ed25519, zstd, SemVer, serde's forms of
    the data types, byte streams, child processes, the clock, the disable flag, the
    answers of the connection to a sync stream.
    What is relied on is stated where it is used: serde yields values of the Rust
    types ([envelope_ok], [ids_sized]), tells generations apart ([identity_serialized]), reads
    transfer metadata, sync messages, generations and manifests back as they were written
    ([JsonLaws], [MessageLaws], [records_read_back], [manifests_read_back]), and a zstd frame decompresses to the size it declares ([zstd_honest]).  Collision
    resistance is never assumed: the theorems give the collision instead.

    ** What the theorems show

    - WireState.v: [process] refines a transition relation of the protocol
      ([process_refines_step]); a refused frame changes nothing; reachable states
      are well formed; bytes in flight never exceed the credit granted, per
      stream and per connection; stream IDs are fresh and streams go through
      their life cycle only.
    - WireFrame.v, Framing.v: headers and frames survive encoding and decoding,
      only one encoding is accepted, corruption of a byte is detected, truncation
      is reported, streams of frames are read back however the bytes arrive.
    - Scheduler.v: frames of a stream stay in order and the transport sees a
      queue per stream (a refinement), the oldest frame is not starved, [dequeue]
      returns within its 2560 visits; a frame beyond 2 MiB stalls.
    - Actor.v: the frames of each session, from one restart to the next, are numbered
      consecutively on each stream, but for a last GOAWAY; when the connection fails
      every waiting caller is answered.  DeviceSession.v: the sessions that the device
      begins are those it announced, and are what the theorem of Actor.v asks of a
      restart handler.
    - Paths.v, BundleHeader.v, Cbor.v: accepted paths stay below their root,
      trees are closed and their links resolve in 16 hops, headers and CBOR have
      one encoding, and the scanner accepts exactly the well-formed items.
    - Authenticity.v: [verify] never panics; a file it accepts is determined by
      its signed digest and its signatures; its files have the promised contents
      and its key descends from the first by signed rotations.  BuiltBundles.v: what the
      builder writes is accepted and holds the files it was given.  Activation.v:
      records cannot name foreign paths and are addressed by their content.
    - SafeRoot.v, LauncherSafety.v, CrashLoop.v: a file is replaced atomically
      whatever call fails; through any sequence of updates,
      selections, rollbacks and launcher steps the slot the device falls back to
      holds a daemon that passed its health check, unless an update was staged while
      a switch was pending; a daemon that keeps failing is
      started a bounded number of times; a jumping clock is forgiven.
    - InstallSafety.v, StoreRuns.v: through any sequence of calls on the install
      store, each cut short at any system call, the active pointer names a
      complete generation, generations never change, and a commit is an atomic
      compare-and-swap.  StoreTrees.v: blocks stay within the quota, and the
      recursive functions count and remove what they should.
    - ImageSafety.v: a materialization that is cut short anywhere leaves no image or a
      whole one.  Supervisor.v: as long as no stop fails, the processes that exist are
      exactly those of the managed applications.  ApplicationRuns.v: after any sequence
      of operations of the manager, each cut short at any system call, an application
      that the active generation names can be opened, and is the one that was
      installed ([installed_application_can_be_opened]); this composes verification,
      the install store, the images and the manager.
    - Pipeline.v: every interleaving of the two threads does what sequential writes
      would do; with finite reads it returns exactly when [must_drain] asks for no more
      acknowledgements than are owed.  SyncResume.v: a push that is interrupted anywhere, any
      number of times, leaves a beginning of the file in its staging file or the
      whole file in place; whatever a host sends, only a file of the announced size
      and digest is put in place; a stream that is not disturbed completes the push.
      SyncPull.v: what a pull sends is the file.  SyncHost.v: a pull puts nothing
      in place on the host but the file that was announced, a push sends the host's
      file and nothing else.  SyncEndToEnd.v: over a connection that delivers in
      order what was sent, a push or pull that the host reports as complete has
      arrived, but for a push under the ID of a transfer that was already recorded as
      complete, which changes nothing.  SyncOperation.v: hooks run exactly once under every interleaving.  SyncListing.v: following the
      cursors lists a directory exactly once.  SyncTransaction.v: a committed
      transaction is complete.
    - FunctionFs.v: the descriptor block is consistent (its lengths and counts agree
      with what a reader of the kernel's format walks over), waiting for the active
      state follows the events.  FunctionFsControl.v: an endpoint transfers only
      while the stretch of activity goes on that it was opened in, or the first one after
      it was opened, and a thread
      in [accept] is not left asleep under any interleaving.  FunctionFsStream.v: after
      resynchronization exactly the frames behind the junk are read, however the bytes
      arrive; requests to the kernel stay within 16 KiB.  UsbProbe.v: a completed probe
      made exactly the exchange that was agreed, and a whole exchange completes it.
    - Broker.v: the broker allows exactly what the policy permits, and a commit only on
      the canonical path of a generation.

    Theorems named in findings show where the code does less than it means to:
    [large_bulk_frame_stalls], [close_after_reset_is_refused],
    [late_reset_fails_connection], [Sample.staging_replaces_fallback],
    [SampleStore.interrupted_cleanup_blocks_recovery],
    [unrecorded_commit_strands_the_transfer], [staging_file_is_reachable],
    [host_commit_can_lose_the_destination],
    [SampleProcesses.failed_stop_orphans_the_process],
    [goaway_skips_dropped_frames].

    ** Fuel

    Loops of the code are structural recursions, or recursions with fuel that is
    proved or evidently enough: [dequeue] makes 2560 visits as the code does,
    [read_loop] is given its measure plus one, a CBOR scan of [n] bytes takes at
    most [n + 1] items, a range of [n] zero bytes at most [n] chunks, symbolic
    links are followed 17 times and temporary names tried 128 times as in the
    code, a binary search over [n] entries halves at most [n] times; the
    recursions of the install store over a directory are given the depth of the
    tree ([safe_remove_tree_removes], [block_quota_is_kept]), that of an image over its
    staging directory likewise; [walk_history] makes the 4096 rounds of the source; hashing [n] bytes takes
    at most [n] reads ([evals_hash_prefix]), a client that pages through a directory
    makes at most one call per entry ([pages_list_the_directory]); the host's client
    reads and sends at least a byte per round and takes one frame per round when it
    receives ([undisturbed_host_push_succeeds], [undisturbed_host_pull_succeeds]).
    Interrupted writes are retried as often as a stream interrupts ([write_all_loop_enough],
    [write_block_loop_enough]), resynchronization takes one round per read
    ([frames_are_found_behind_junk]).  [run_launcher] is the endless loop of the launcher for a given number of
    steps; the theorems about it are about its step.

    ** Not modelled

    Sockets, libusb transfers, terminals and the command lines do input and output
    only; the RPC schemas are serde declarations.  Of the applications, the exec of a
    process and the channel between the callers and the thread of the supervisor are
    left out: requests are answered one after the other.  Of file sync,
    panics of the worker threads and the Windows branches are left out, and a path of
    the host is taken as its names, without dot components.  Of the
    daemon's connection server the handshake is modelled, not the threads and services
    behind it; of the bundle tools the builder, not the project files.  The host's device
    registry and the composition of two endpoints of the protocol are not modelled. *)

From Stdlib Require Export ZArith Lia Init.Byte.
From Stdlib Require Strings.Byte.
From coqutil Require Word.LittleEndianList.
From coqutil Require Export Byte.
From stdpp Require Export base gmap list strings sorting.

#[export] Set Default Goal Selector "!".

Global Open Scope Z_scope.

(** ** Rust's [Result] *)

(** [result E A] is Rust's [Result<A, E>]. *)
Inductive result (E A : Type) : Type :=
| Ok (value : A)
| Err (error : E).
Arguments Ok {E A} value.
Arguments Err {E A} error.

Declare Scope kb_scope.
Delimit Scope kb_scope with kb.
Global Open Scope kb_scope.

(** The [?] operator on a pure [Result]. *)
Definition result_bind {E A B} (r : result E A) (k : A → result E B) : result E B :=
  match r with
  | Ok a => k a
  | Err e => Err e
  end.

Notation "'let?' x ':=' r 'in' k" := (result_bind r (λ x, k))
  (at level 10, x name, r at level 100, k at level 200) : kb_scope.
Notation "'check?' r 'in' k" := (result_bind r (λ _ : unit, k))
  (at level 10, r at level 100, k at level 200) : kb_scope.

Definition map_err {E F A} (f : E → F) (r : result E A) : result F A :=
  match r with
  | Ok a => Ok a
  | Err e => Err (f e)
  end.

(** [Option::ok_or]. *)
Definition ok_or {E A} (o : option A) (e : E) : result E A :=
  match o with
  | Some a => Ok a
  | None => Err e
  end.

(** [if c { return Err(e) }]. *)
Definition reject_if {E} (c : bool) (e : E) : result E unit :=
  if c then Err e else Ok tt.

Definition is_ok {E A} (r : result E A) : bool :=
  match r with
  | Ok _ => true
  | Err _ => false
  end.

#[export] Instance result_eq_dec {E A} `{EqDecision E, EqDecision A} :
  EqDecision (result E A).
Proof. solve_decision. Defined.

Lemma result_bind_ok {E A B} (r : result E A) (k : A → result E B) b :
  result_bind r k = Ok b ↔ ∃ a, r = Ok a ∧ k a = Ok b.
Proof. destruct r; simpl; naive_solver. Qed.

Lemma result_bind_err {E A B} (r : result E A) (k : A → result E B) e :
  result_bind r k = Err e ↔ r = Err e ∨ ∃ a, r = Ok a ∧ k a = Err e.
Proof. destruct r; simpl; naive_solver. Qed.

Lemma reject_if_ok {E} c (e : E) : reject_if c e = Ok tt ↔ c = false.
Proof. destruct c; simpl; naive_solver. Qed.

Lemma map_err_ok {E F A} (f : E → F) (r : result E A) a : map_err f r = Ok a ↔ r = Ok a.
Proof. destruct r; simpl; naive_solver. Qed.

Lemma ok_or_ok {E A} (o : option A) (e : E) a : ok_or o e = Ok a ↔ o = Some a.
Proof. destruct o; simpl; naive_solver. Qed.

(** ** Methods on [&mut self] that return a [Result]

    [M S E A] is a method of an object with state [S]: it returns the state it
    leaves behind and its result.  An [Err] keeps every mutation made before it
    was raised, as in Rust, so that "a failed call changes nothing" is a
    property to prove and not a feature of the model. *)
Definition M (S E A : Type) : Type := S → S * result E A.

Section state_error_monad.
Context {S E : Type}.

Definition mret {A} (a : A) : M S E A := λ s, (s, Ok a).
Definition mfail {A} (e : E) : M S E A := λ s, (s, Err e).
Definition mbnd {A B} (m : M S E A) (k : A → M S E B) : M S E B := λ s,
  match m s with
  | (s', Ok a) => k a s'
  | (s', Err e) => (s', Err e)
  end.
Definition mget : M S E S := λ s, (s, Ok s).
Definition mput (s' : S) : M S E unit := λ _, (s', Ok tt).
Definition mmodify (f : S → S) : M S E unit := λ s, (f s, Ok tt).
Definition mlift {A} (r : result E A) : M S E A := λ s, (s, r).
Definition mgets {A} (f : S → result E A) : M S E A := λ s, (s, f s).

(** [let result = m;]: the caller looks at the result itself. *)
Definition mtry {A} (m : M S E A) : M S E (result E A) := λ s,
  let '(s', r) := m s in (s', Ok r).

(** [for x in l { m(x)?; }]. *)
Fixpoint mforeach {A} (m : A → M S E unit) (l : list A) : M S E unit :=
  match l with
  | [] => mret tt
  | x :: l => mbnd (m x) (λ _, mforeach m l)
  end.
End state_error_monad.

Notation "'let!' x ':=' m 'in' k" := (mbnd m (λ x, k))
  (at level 10, x name, m at level 100, k at level 200) : kb_scope.
Notation "'do!' m 'in' k" := (mbnd m (λ _ : unit, k))
  (at level 10, m at level 100, k at level 200) : kb_scope.

(** Runs a method of a component [B] of [A]. *)
Definition zoom {A B E X} (get : A → B) (set : B → A → A) (m : M B E X) : M A E X :=
  λ a, let '(b, r) := m (get a) in (set b a, r).

(** The same with the component's errors converted by [map_err]. *)
Definition zoom_err {A B E F X} (get : A → B) (set : B → A → A) (f : E → F) (m : M B E X) :
    M A F X :=
  λ a, let '(b, r) := m (get a) in (set b a, map_err f r).

(** [m] never changes the state. *)
Definition read_only {S E A} (m : M S E A) : Prop := ∀ s, (m s).1 = s.

(** [m] changes the state only when it succeeds. *)
Definition atomic {S E A} (m : M S E A) : Prop :=
  ∀ s s' e, m s = (s', Err e) → s' = s.

(** [m] never raises an error. *)
Definition infallible {S E A} (m : M S E A) : Prop := ∀ s s' e, m s ≠ (s', Err e).

(** Every successful run of [m] from a state satisfying [I] ends in one. *)
Definition preserves {S E A} (I : S → Prop) (m : M S E A) : Prop :=
  ∀ s s' a, I s → m s = (s', Ok a) → I s'.

Create HintDb kb discriminated.

Section atomicity.
Context {S E : Type}.
Implicit Types s : S.

Lemma read_only_ret {A} (a : A) : read_only (mret a : M S E A).
Proof. done. Qed.
Lemma read_only_fail {A} (e : E) : read_only (mfail e : M S E A).
Proof. done. Qed.
Lemma read_only_get : read_only (mget : M S E S).
Proof. done. Qed.
Lemma read_only_lift {A} (r : result E A) : read_only (mlift r : M S E A).
Proof. done. Qed.
Lemma read_only_gets {A} (f : S → result E A) : read_only (mgets f).
Proof. done. Qed.
Lemma read_only_bind {A B} (m : M S E A) (k : A → M S E B) :
  read_only m → (∀ a, read_only (k a)) → read_only (mbnd m k).
Proof.
  intros Hm Hk s. unfold mbnd. specialize (Hm s).
  destruct (m s) as [s' [a|e]]; simpl in *; subst; [apply Hk|done].
Qed.

Lemma atomic_read_only {A} (m : M S E A) : read_only m → atomic m.
Proof. intros Hm s s' e Hs. specialize (Hm s). by rewrite Hs in Hm. Qed.
Lemma atomic_infallible {A} (m : M S E A) : infallible m → atomic m.
Proof. intros Hm s s' e Hs. by apply Hm in Hs. Qed.

(** Checks first, then one atomic action. *)
Lemma atomic_bind {A B} (m : M S E A) (k : A → M S E B) :
  read_only m → (∀ a, atomic (k a)) → atomic (mbnd m k).
Proof.
  intros Hm Hk s s' e. unfold mbnd. specialize (Hm s).
  destruct (m s) as [s1 [a|e1]]; simpl in *; subst.
  - apply Hk.
  - intros [=]; by subst.
Qed.

(** An atomic action, then updates that cannot fail. *)
Lemma atomic_then {A B} (m : M S E A) (k : A → M S E B) :
  atomic m → (∀ a, infallible (k a)) → atomic (mbnd m k).
Proof.
  intros Hm Hk s s' e. unfold mbnd.
  destruct (m s) as [s1 [a|e1]] eqn:Hs.
  - intros Hk'. by apply Hk in Hk'.
  - intros [=]; subst. by eapply Hm.
Qed.

Lemma infallible_ret {A} (a : A) : infallible (mret a : M S E A).
Proof. intros s s' e. unfold mret. congruence. Qed.
Lemma infallible_modify (f : S → S) : infallible (mmodify f : M S E unit).
Proof. intros s s' e. unfold mmodify. congruence. Qed.
Lemma infallible_put (t : S) : infallible (mput t : M S E unit).
Proof. intros s s' e. unfold mput. congruence. Qed.
Lemma infallible_bind {A B} (m : M S E A) (k : A → M S E B) :
  infallible m → (∀ a, infallible (k a)) → infallible (mbnd m k).
Proof.
  intros Hm Hk s s' e. unfold mbnd.
  destruct (m s) as [s1 [a|e1]] eqn:Hs; [apply Hk|by apply Hm in Hs].
Qed.

Lemma infallible_get : infallible (mget : M S E S).
Proof. intros s s' e. unfold mget. congruence. Qed.
Lemma infallible_foreach {A} (m : A → M S E unit) l :
  (∀ x, infallible (m x)) → infallible (mforeach m l).
Proof.
  intros Hm. induction l as [|x l IH]; simpl; [apply infallible_ret|].
  by apply infallible_bind.
Qed.

Lemma preserves_bind {A B} (I : S → Prop) (m : M S E A) (k : A → M S E B) :
  preserves I m → (∀ a, preserves I (k a)) → preserves I (mbnd m k).
Proof.
  intros Hm Hk s s' b HI. unfold mbnd.
  destruct (m s) as [s1 [a|e1]] eqn:Hs; [|done].
  intros Hrun. eapply (Hk a); [|exact Hrun]. by eapply Hm.
Qed.
Lemma preserves_read_only {A} (I : S → Prop) (m : M S E A) :
  read_only m → preserves I m.
Proof. intros Hm s s' a HI Hs. specialize (Hm s). rewrite Hs in Hm. by subst. Qed.
End atomicity.

#[export] Hint Resolve read_only_ret read_only_fail read_only_get read_only_lift
  read_only_gets read_only_bind : kb.
#[export] Hint Resolve infallible_ret infallible_modify infallible_put
  infallible_get infallible_bind infallible_foreach : kb.

(** Runs of a method, decomposed. *)
Lemma mbnd_ok {S E A B} (m : M S E A) (k : A → M S E B) s s' b :
  mbnd m k s = (s', Ok b) ↔ ∃ s1 a, m s = (s1, Ok a) ∧ k a s1 = (s', Ok b).
Proof.
  unfold mbnd. destruct (m s) as [s1 [a|e]].
  - naive_solver.
  - split; [done|]. intros (?&?&?&?). simplify_eq.
Qed.

Lemma pair_second {A B} (p : A * B) b : p.2 = b → p = (p.1, b).
Proof. intros <-. apply surjective_pairing. Qed.

(** A run whose first step succeeds. *)
Lemma mbnd_run {S E A B} (m : M S E A) (k : A → M S E B) s s' a :
  m s = (s', Ok a) → mbnd m k s = k a s'.
Proof. intros Hm. unfold mbnd. by rewrite Hm. Qed.

(** ** Triples with a crash condition

    [hoare P m Q C]: from a state with [P], a run of [m] that succeeds with [a]
    ends in a state with [Q a], and a run that fails, at whatever point, leaves
    a state with [C] behind. *)
Definition hoare {S E A} (P : S → Prop) (m : M S E A) (Q : A → S → Prop) (C : S → Prop) : Prop :=
  ∀ s, P s → match m s with
             | (s', Ok a) => Q a s'
             | (s', Err _) => C s'
             end.

Section hoare_rules.
Context {S E : Type}.
Implicit Types (P C : S → Prop).

Lemma hoare_bind {A B} P (m : M S E A) (k : A → M S E B) Q R C :
  hoare P m Q C → (∀ a, hoare (Q a) (k a) R C) → hoare P (mbnd m k) R C.
Proof.
  intros Hm Hk s Hs. specialize (Hm s Hs). unfold mbnd.
  destruct (m s) as [s' [a|e]]; [by apply Hk|done].
Qed.

Lemma hoare_conseq {A} P P' (m : M S E A) Q Q' C C' :
  hoare P' m Q' C' → (∀ s, P s → P' s) → (∀ a s, Q' a s → Q a s) → (∀ s, C' s → C s) →
  hoare P m Q C.
Proof.
  intros Hm HP HQ HC s Hs. specialize (Hm s (HP s Hs)).
  destruct (m s) as [s' [a|e]]; auto.
Qed.

Lemma hoare_pre {A} P P' (m : M S E A) Q C :
  (∀ s, P s → P' s) → hoare P' m Q C → hoare P m Q C.
Proof. intros HP Hm s Hs. by apply Hm, HP. Qed.

Lemma hoare_ext {A} P (m m' : M S E A) Q C :
  (∀ s, m s = m' s) → hoare P m' Q C → hoare P m Q C.
Proof. intros Heq Hm s Hs. rewrite Heq. by apply Hm. Qed.

Lemma hoare_ret {A} P (a : A) Q C : (∀ s, P s → Q a s) → hoare P (mret a : M S E A) Q C.
Proof. intros H s Hs. by apply H. Qed.
Lemma hoare_fail {A} P (e : E) (Q : A → S → Prop) C :
  (∀ s, P s → C s) → hoare P (mfail e) Q C.
Proof. intros H s Hs. by apply H. Qed.
Lemma hoare_get P Q C : (∀ s, P s → Q s s) → hoare P (mget : M S E S) Q C.
Proof. intros H s Hs. by apply H. Qed.
Lemma hoare_modify P (f : S → S) Q C :
  (∀ s, P s → Q tt (f s)) → hoare P (mmodify f : M S E unit) Q C.
Proof. intros H s Hs. by apply H. Qed.
Lemma hoare_lift {A} P (r : result E A) Q C :
  (∀ a s, r = Ok a → P s → Q a s) → (∀ s, P s → C s) → hoare P (mlift r) Q C.
Proof. intros HQ HC s Hs. unfold mlift. destruct r; auto. Qed.
Lemma hoare_try {A} P (m : M S E A) Q C :
  hoare P m (λ a, Q (Ok a)) (λ s, ∀ e, Q (Err e) s) → hoare P (mtry m) Q C.
Proof.
  intros Hm s Hs. specialize (Hm s Hs). unfold mtry. by destruct (m s) as [s' [a|e]].
Qed.
Lemma hoare_foreach {A} (I : S → Prop) (m : A → M S E unit) l :
  (∀ x, x ∈ l → hoare I (m x) (λ _, I) I) → hoare I (mforeach m l) (λ _, I) I.
Proof.
  induction l as [|x l IH]; intros Hm; simpl; [by apply hoare_ret|].
  eapply hoare_bind; [apply Hm; by left|]. intros []. apply IH. intros y Hy. apply Hm. by right.
Qed.
(** The invariant depends on what has been done. *)
Lemma hoare_foreach_done {A} (I : list A → S → Prop) (m : A → M S E unit) C l :
  (∀ l1 x l2, l = l1 ++ x :: l2 → hoare (I l1) (m x) (λ _, I (l1 ++ [x])) C) →
  hoare (I []) (mforeach m l) (λ _, I l) C.
Proof.
  intros Hm. enough (Hgo : ∀ l2 l1, l = l1 ++ l2 → hoare (I l1) (mforeach m l2) (λ _, I l) C)
    by by apply Hgo.
  induction l2 as [|x l2 IH]; intros l1 Hl; cbn [mforeach].
  - rewrite app_nil_r in Hl. subst. by apply hoare_ret.
  - eapply hoare_bind; [by eapply Hm|]. intros []. apply IH. by rewrite <-app_assoc.
Qed.
Lemma hoare_pure {A} (φ : Prop) P (m : M S E A) Q C :
  (φ → hoare P m Q C) → hoare (λ s, φ ∧ P s) m Q C.
Proof. intros Hm s [Hφ Hs]. by apply Hm. Qed.
Lemma hoare_any {A} P (m : M S E A) Q C :
  (∀ s0, P s0 → hoare (λ s, s = s0) m Q C) → hoare P m Q C.
Proof. intros Hm s Hs. by apply (Hm s Hs). Qed.
Lemma hoare_get_at {A} s0 (k : S → M S E A) Q C :
  hoare (λ s, s = s0) (k s0) Q C → hoare (λ s, s = s0) (mbnd mget k) Q C.
Proof. intros Hk s ->. by apply Hk. Qed.
Lemma hoare_lift_at {A B} P (r : result E A) (k : A → M S E B) Q C :
  (∀ s, P s → C s) → (∀ a, r = Ok a → hoare P (k a) Q C) → hoare P (mbnd (mlift r) k) Q C.
Proof. intros HC Hk s Hs. unfold mbnd, mlift. destruct r; [by apply Hk|auto]. Qed.
Lemma hoare_modify_at {A} s0 (f : S → S) (k : unit → M S E A) Q C :
  hoare (λ s, s = f s0) (k tt) Q C → hoare (λ s, s = s0) (mbnd (mmodify f) k) Q C.
Proof. intros Hk s ->. by apply Hk. Qed.
Lemma hoare_assoc {A B D} P (m : M S E A) (k : A → M S E B) (k' : B → M S E D) Q C :
  hoare P (mbnd (mbnd m k) k') Q C → hoare P (mbnd m (λ a, mbnd (k a) k')) Q C.
Proof. apply hoare_ext. intros s. unfold mbnd. by destruct (m s) as [s' [a|e]]. Qed.
(** A call that fails in a state allowed by [C]. *)
Lemma hoare_step {A B} (m : M S E A) (k : A → M S E B) P Q' C' Q C :
  hoare P m Q' C' → (∀ s, C' s → C s) → (∀ a, hoare (Q' a) (k a) Q C) → hoare P (mbnd m k) Q C.
Proof.
  intros Hm HC Hk. eapply hoare_bind; [|exact Hk].
  eapply hoare_conseq; [exact Hm|done|by intros a s|exact HC].
Qed.

End hoare_rules.

(** ** Machine integers

    A [w]-bit unsigned integer is a [Z] below [2 ^ w]. *)
Definition u8_max : Z := 255.
Definition u16_max : Z := 65535.
Definition u32_max : Z := 4294967295.
Definition u64_max : Z := 18446744073709551615.

Definition in_range (max z : Z) : Prop := 0 ≤ z ≤ max.
Abbreviation u16 := (in_range u16_max).
Abbreviation u32 := (in_range u32_max).
Abbreviation u64 := (in_range u64_max).

#[export] Instance in_range_dec max z : Decision (in_range max z).
Proof. unfold in_range. apply _. Defined.

(** [checked_add], [saturating_add] and [saturating_mul] at the width whose
    largest value is [max]; [saturating_sub] stops at zero at every width. *)
Definition checked_add (max a b : Z) : option Z :=
  if a + b <=? max then Some (a + b) else None.
Definition saturating_add (max a b : Z) : Z := Z.min max (a + b).
Definition saturating_mul (max a b : Z) : Z := Z.min max (a * b).
Definition saturating_sub (a b : Z) : Z := Z.max 0 (a - b).

Lemma checked_add_Some max a b c :
  checked_add max a b = Some c ↔ c = a + b ∧ a + b ≤ max.
Proof. unfold checked_add. case_match eqn:H; [|naive_solver lia]. naive_solver lia. Qed.

Lemma checked_add_None max a b : checked_add max a b = None ↔ max < a + b.
Proof. unfold checked_add. case_match eqn:H; naive_solver lia. Qed.

(** The width of [usize]: 32 bits on the Kindle (ARM hard-float), 64 bits on
    the supported hosts.  Code that does checked or saturating arithmetic on
    [usize] is modelled for both. *)
Class PointerWidth := {
  usize_max : Z;
  usize_max_lb : u32_max ≤ usize_max;
  usize_max_ub : usize_max ≤ u64_max;
}.
#[export] Instance arm32 : PointerWidth | 20 :=
  {| usize_max := u32_max; usize_max_lb := ltac:(unfold u32_max; lia);
     usize_max_ub := ltac:(unfold u32_max, u64_max; lia) |}.
#[export] Instance host64 : PointerWidth | 10 :=
  {| usize_max := u64_max; usize_max_lb := ltac:(unfold u32_max, u64_max; lia);
     usize_max_ub := ltac:(unfold u64_max; lia) |}.

(** ** Byte strings

    [Vec<u8>], [&[u8]] and [[u8; N]] are lists of [byte]. *)
Abbreviation bytes := (list byte).

(** [Vec::len], as the integer the code computes with. *)
Definition len {A} (l : list A) : Z := Z.of_nat (length l).

Lemma len_nonneg {A} (l : list A) : 0 ≤ len l.
Proof. unfold len. lia. Qed.
Lemma len_app {A} (l k : list A) : len (l ++ k) = len l + len k.
Proof. unfold len. rewrite length_app. lia. Qed.

(** [&bs[lo..hi]]. *)
Definition slice {A} (lo hi : nat) (bs : list A) : list A := take (hi - lo) (drop lo bs).

(** [bs[off..off + data.len()].copy_from_slice(data)]. *)
Definition splice {A} (off : nat) (data bs : list A) : list A :=
  take off bs ++ data ++ drop (off + length data) bs.

(** [to_le_bytes] at [n] bytes, [from_le_bytes], and their big-endian forms. *)
Definition to_le_bytes (n : nat) (z : Z) : bytes := LittleEndianList.le_split n z.
Definition from_le_bytes (bs : bytes) : Z := LittleEndianList.le_combine bs.
Definition to_be_bytes (n : nat) (z : Z) : bytes := reverse (to_le_bytes n z).
Definition from_be_bytes (bs : bytes) : Z := from_le_bytes (reverse bs).

#[export] Instance byte_eq_dec : EqDecision byte := Byte.byte_eq_dec.
#[export] Instance byte_countable : Countable byte :=
  inj_countable Strings.Byte.to_N Strings.Byte.of_N Strings.Byte.of_to_N.

Section byte_strings.
Implicit Types bs data : bytes.

Lemma length_splice {A} off (data bs : list A) :
  (off + length data ≤ length bs)%nat → length (splice off data bs) = length bs.
Proof. intros H. unfold splice. rewrite !length_app, length_take, length_drop. lia. Qed.

Lemma length_slice {A} lo hi (bs : list A) :
  (lo ≤ hi ≤ length bs)%nat → length (slice lo hi bs) = (hi - lo)%nat.
Proof. intros H. unfold slice. rewrite length_take, length_drop. lia. Qed.

(** Reading back what was just written. *)
Lemma slice_splice_same {A} lo hi (data bs : list A) :
  hi = (lo + length data)%nat → (hi ≤ length bs)%nat →
  slice lo hi (splice lo data bs) = data.
Proof.
  intros -> H. unfold slice, splice.
  rewrite drop_app_length' by (rewrite length_take; lia).
  by rewrite take_app_length' by lia.
Qed.

(** A write leaves the slices before it and after it alone. *)
Lemma slice_splice_before {A} lo hi off (data bs : list A) :
  (hi ≤ off)%nat → (off ≤ length bs)%nat →
  slice lo hi (splice off data bs) = slice lo hi bs.
Proof.
  intros H1 H2. unfold slice, splice.
  rewrite !take_drop_commute.
  destruct (decide (lo ≤ hi)%nat).
  - replace (lo + (hi - lo))%nat with hi by lia.
    rewrite take_app_le by (rewrite length_take; lia).
    rewrite take_take. by replace (hi `min` off)%nat with hi by lia.
  - replace (lo + (hi - lo))%nat with lo by lia.
    rewrite !drop_ge; [done|rewrite length_take; lia..].
Qed.

Lemma slice_splice_after {A} lo hi off (data bs : list A) :
  (off + length data ≤ lo)%nat → (off + length data ≤ length bs)%nat →
  slice lo hi (splice off data bs) = slice lo hi bs.
Proof.
  intros H1 H2. unfold slice, splice. f_equal.
  rewrite drop_app_ge by (rewrite length_take; lia).
  rewrite drop_app_ge by (rewrite length_take; lia).
  rewrite drop_drop. f_equal. rewrite length_take. lia.
Qed.

Lemma length_to_le_bytes n z : length (to_le_bytes n z) = n.
Proof. apply LittleEndianList.length_le_split. Qed.

Lemma from_to_le_bytes n z :
  0 ≤ z < 2 ^ (Z.of_nat n * 8) → from_le_bytes (to_le_bytes n z) = z.
Proof.
  intros H. unfold from_le_bytes, to_le_bytes.
  rewrite LittleEndianList.le_combine_split. by apply Z.mod_small.
Qed.

Lemma to_from_le_bytes n bs : length bs = n → to_le_bytes n (from_le_bytes bs) = bs.
Proof. apply LittleEndianList.split_le_combine'. Qed.

Lemma from_le_bytes_range bs : 0 ≤ from_le_bytes bs < 2 ^ (8 * len bs).
Proof. apply LittleEndianList.le_combine_bound. Qed.

Lemma from_le_bytes_inj bs data :
  length bs = length data → from_le_bytes bs = from_le_bytes data → bs = data.
Proof. apply LittleEndianList.le_combine_inj. Qed.
End byte_strings.

Lemma from_to_le_u16 z : u16 z → from_le_bytes (to_le_bytes 2 z) = z.
Proof. intros [??]. apply from_to_le_bytes. unfold u16_max in *. simpl. lia. Qed.
Lemma from_to_le_u32 z : u32 z → from_le_bytes (to_le_bytes 4 z) = z.
Proof. intros [??]. apply from_to_le_bytes. unfold u32_max in *. simpl. lia. Qed.
Lemma from_to_le_u64 z : u64 z → from_le_bytes (to_le_bytes 8 z) = z.
Proof. intros [??]. apply from_to_le_bytes. unfold u64_max in *. simpl. lia. Qed.

Lemma from_le_u16 bs : length bs = 2%nat → u16 (from_le_bytes bs).
Proof.
  intros H. pose proof (from_le_bytes_range bs) as Hr. unfold len in Hr.
  rewrite H in Hr. simpl in Hr. unfold in_range, u16_max. lia.
Qed.
Lemma from_le_u32 bs : length bs = 4%nat → u32 (from_le_bytes bs).
Proof.
  intros H. pose proof (from_le_bytes_range bs) as Hr. unfold len in Hr.
  rewrite H in Hr. simpl in Hr. unfold in_range, u32_max. lia.
Qed.
Lemma from_le_u64 bs : length bs = 8%nat → u64 (from_le_bytes bs).
Proof.
  intros H. pose proof (from_le_bytes_range bs) as Hr. unfold len in Hr.
  rewrite H in Hr. simpl in Hr. unfold in_range, u64_max. lia.
Qed.

Create Rewrite HintDb kb_len.
#[export] Hint Rewrite @length_splice using (rewrite ?length_to_le_bytes; simpl; lia) : kb_len.
#[export] Hint Rewrite length_to_le_bytes @length_app @length_take @length_drop
  @length_replicate : kb_len.

(** Solves length side conditions of byte layouts. *)
Ltac solve_len := autorewrite with kb_len; simpl; lia.

(** Decomposes a successful run of [?]-style checks into its facts. *)
Ltac result_inv :=
  repeat match goal with
  | H : result_bind _ _ = Ok _ |- _ => apply result_bind_ok in H as (?&?&?)
  | H : reject_if _ _ = Ok _ |- _ => apply reject_if_ok in H
  | H : map_err _ _ = Ok _ |- _ => apply map_err_ok in H
  | H : ok_or _ _ = Ok _ |- _ => apply ok_or_ok in H
  | H : Ok _ = Ok _ |- _ => injection H as H; subst
  | H : Err _ = Ok _ |- _ => discriminate H
  | u : unit |- _ => destruct u
  end.

(** More byte-layout lemmas. *)
Lemma slice_app_l {A} lo hi (l k : list A) :
  (hi ≤ length l)%nat → slice lo hi (l ++ k) = slice lo hi l.
Proof.
  intros H. unfold slice. destruct (decide (lo ≤ hi)%nat).
  - rewrite drop_app_le by lia. apply take_app_le. rewrite length_drop. lia.
  - by replace (hi - lo)%nat with 0%nat by lia.
Qed.

Lemma splice_splice {A} off (d1 d2 bs : list A) :
  length d1 = length d2 → (off + length d2 ≤ length bs)%nat →
  splice off d1 (splice off d2 bs) = splice off d1 bs.
Proof.
  intros Hd H. unfold splice. rewrite Hd. f_equal.
  { rewrite take_app_le by (rewrite length_take; lia).
    rewrite take_take. f_equal. lia. }
  f_equal. rewrite drop_app_ge by (rewrite length_take; lia).
  rewrite drop_app_ge by (rewrite length_take; lia).
  rewrite drop_drop. f_equal. rewrite length_take. lia.
Qed.

(** Overwriting a slice with itself. *)
Lemma splice_slice_id {A} off n (bs : list A) :
  (off + n ≤ length bs)%nat → splice off (slice off (off + n) bs) bs = bs.
Proof.
  intros H. unfold splice. rewrite length_slice by lia.
  replace (off + (off + n - off))%nat with (off + n)%nat by lia.
  unfold slice. replace (off + n - off)%nat with n by lia.
  rewrite <-(drop_drop bs), take_drop. apply take_drop.
Qed.

Lemma splice_app_l {A} off (d l k : list A) :
  (off + length d ≤ length l)%nat → splice off d (l ++ k) = splice off d l ++ k.
Proof.
  intros H. unfold splice. rewrite take_app_le, drop_app_le by lia.
  by rewrite <-!app_assoc.
Qed.

Lemma splice_app_r {A} off (d l k : list A) :
  (length l ≤ off)%nat → splice off d (l ++ k) = l ++ splice (off - length l) d k.
Proof.
  intros H. unfold splice. rewrite take_app_ge, drop_app_ge by lia.
  rewrite <-app_assoc. do 3 f_equal. f_equal. lia.
Qed.

Lemma slice_app_r {A} lo hi (l k : list A) :
  (length l ≤ lo)%nat → slice lo hi (l ++ k) = slice (lo - length l) (hi - length l) k.
Proof.
  intros H. unfold slice. rewrite drop_app_ge by lia.
  f_equal. lia.
Qed.

(** A byte string is what surrounds a slice and the slice. *)
Lemma splice_parts {A} off n (bs : list A) :
  (off + n ≤ length bs)%nat →
  bs = take off bs ++ slice off (off + n) bs ++ drop (off + n) bs.
Proof.
  intros H. rewrite <-(splice_slice_id off n bs) at 1 by done.
  unfold splice. rewrite length_slice by lia. do 3 f_equal. lia.
Qed.

(** Proves [atomic m] for a method that runs read-only checks before its
    updates. *)
Ltac solve_atomic :=
  repeat match goal with
  | |- atomic (match ?x with _ => _ end) => destruct x
  | |- atomic (if ?x then _ else _) => destruct x
  | |- atomic (mret _) => apply atomic_infallible, infallible_ret
  | |- atomic (mmodify _) => apply atomic_infallible, infallible_modify
  | |- atomic (mlift _) => apply atomic_read_only, read_only_lift
  | |- atomic (mbnd (mmodify _) _) =>
      apply atomic_infallible; auto with kb
  | |- atomic (mbnd (mlift _) _) => apply atomic_bind; [apply read_only_lift|intros]
  | |- atomic (mbnd mget _) => apply atomic_bind; [apply read_only_get|intros]
  | |- atomic (mbnd _ _) => apply atomic_then; [|intros; auto with kb]
  | |- atomic (let x := _ in _) => cbv zeta
  end.

(** Decomposes a successful run of a method. *)
Ltac run_inv :=
  repeat match goal with
  | H : mbnd _ _ _ = (_, Ok _) |- _ => apply mbnd_ok in H as (? & ? & ? & ?)
  | H : mlift _ _ = (_, Ok _) |- _ => unfold mlift in H
  | H : mget _ = (_, Ok _) |- _ => unfold mget in H
  | H : mmodify _ _ = (_, Ok _) |- _ => unfold mmodify in H
  | H : mret _ _ = (_, Ok _) |- _ => unfold mret in H
  | H : (_, _) = (_, _) |- _ => injection H as H; subst
  | H : (_, _) = (_, _) |- _ => injection H as ? ?; subst
  | H : reject_if _ _ = Ok _ |- _ => apply reject_if_ok in H
  | H : map_err _ _ = Ok _ |- _ => apply map_err_ok in H
  | H : ok_or _ _ = Ok _ |- _ => apply ok_or_ok in H
  | H : Ok _ = Ok _ |- _ => injection H as H; subst
  | H : Err _ = Ok _ |- _ => discriminate H
  | H : negb _ = false |- _ => apply negb_false_iff in H
  | H : bool_decide _ = true |- _ => apply bool_decide_eq_true in H
  | H : bool_decide _ = false |- _ => apply bool_decide_eq_false in H
  | u : unit |- _ => destruct u
  end.

(** Evaluates a read of a header field through the writes around it. *)
Ltac layout :=
  repeat first
    [ rewrite slice_splice_same by solve_len
    | rewrite slice_splice_before by solve_len
    | rewrite slice_splice_after by solve_len ].

(** A list of known length, spelled out. *)
Ltac spell_out bs :=
  repeat match goal with
  | H : (S _ ≤ length bs)%nat |- _ =>
      destruct bs as [|? bs]; [exfalso; simpl in H; lia|];
      simpl in H; apply le_S_n in H
  end.
