(* ===== verification/Text.v ===== *)
(** * Text as bytes

    What the components use of Rust's [str] on byte strings: UTF-8 validity,
    lines, prefixes, integers in decimal.  A [str] is its UTF-8 bytes here; the
    separators are ASCII, so that splitting bytes is splitting characters. *)

From S2P Require Import Prelude.

(** ** UTF-8 ([std::str::from_utf8]) *)

Definition in_span (lo hi : Z) (b : byte) : bool :=
  (lo <=? byte.unsigned b) && (byte.unsigned b <=? hi).

Fixpoint utf8_valid (bs : bytes) : bool :=
  match bs with
  | [] => true
  | a :: bs1 =>
      if in_span 0 0x7f a then utf8_valid bs1 else
      match bs1 with
      | b :: bs2 =>
          if in_span 0xc2 0xdf a then in_span 0x80 0xbf b && utf8_valid bs2 else
          match bs2 with
          | c :: bs3 =>
              if in_span 0xe0 0xe0 a
              then in_span 0xa0 0xbf b && in_span 0x80 0xbf c && utf8_valid bs3
              else if in_span 0xed 0xed a
              then in_span 0x80 0x9f b && in_span 0x80 0xbf c && utf8_valid bs3
              else if in_span 0xe1 0xef a
              then in_span 0x80 0xbf b && in_span 0x80 0xbf c && utf8_valid bs3
              else
              match bs3 with
              | d :: bs4 =>
                  (if in_span 0xf0 0xf0 a then in_span 0x90 0xbf b
                   else if in_span 0xf1 0xf3 a then in_span 0x80 0xbf b
                   else in_span 0xf4 0xf4 a && in_span 0x80 0x8f b)
                  && in_span 0x80 0xbf c && in_span 0x80 0xbf d && utf8_valid bs4
              | [] => false
              end
          | [] => false
          end
      | [] => false
      end
  end.

(** ** Literals and lines *)

(** A string literal, [b"..."] or ["..."]. *)
Definition text (s : string) : bytes := String.list_byte_of_string s.

Definition LF : byte := x0a.
Definition CR : byte := x0d.

(** [strip_suffix] and [ends_with] for one character; [strip_prefix]. *)
Definition strip_last (c : byte) (bs : bytes) : option bytes :=
  match last bs with
  | Some b => if bool_decide (b = c) then Some (take (length bs - 1) bs) else None
  | None => None
  end.
Definition ends_in (c : byte) (bs : bytes) : bool := bool_decide (last bs = Some c).
Definition strip_prefix (prefix bs : bytes) : option bytes :=
  if bool_decide (take (length prefix) bs = prefix) then Some (drop (length prefix) bs) else None.
Definition starts_with_text (prefix bs : bytes) : bool := bool_decide (is_Some (strip_prefix prefix bs)).
Definition contains_byte (c : byte) (bs : bytes) : bool := existsb (λ b, bool_decide (b = c)) bs.

(** [str::lines]: a line ends in LF or CRLF; the last one may lack its end. *)
Fixpoint lines_from (line bs : bytes) : list bytes :=
  match bs with
  | [] => match line with [] => [] | _ => [line] end
  | b :: bs =>
      if bool_decide (b = LF)
      then default line (strip_last CR line) :: lines_from [] bs
      else lines_from (line ++ [b]) bs
  end.
Definition lines (bs : bytes) : list bytes := lines_from [] bs.

(** [str::split_once]. *)
Fixpoint split_once (c : byte) (bs : bytes) : option (bytes * bytes) :=
  match bs with
  | [] => None
  | b :: bs =>
      if bool_decide (b = c) then Some ([], bs)
      else match split_once c bs with
           | Some (l, r) => Some (b :: l, r)
           | None => None
           end
  end.

(** [str::split] for one character. *)
Fixpoint split_text (c : byte) (bs : bytes) : list bytes :=
  match bs with
  | [] => [[]]
  | b :: bs =>
      if bool_decide (b = c) then [] :: split_text c bs
      else match split_text c bs with
           | l :: ls => (b :: l) :: ls
           | [] => [[b]]
           end
  end.

(** ** Integers in decimal *)

Definition digit_of (z : Z) : byte := byte.of_Z (48 + z).
Definition digit_value (b : byte) : option Z :=
  if in_span 48 57 b then Some (byte.unsigned b - 48) else None.

(** [Display] of an unsigned integer of at most [n] digits. *)
Fixpoint show_digits (n : nat) (z : Z) : bytes :=
  match n with
  | O => []
  | S n => if z <? 10 then [digit_of z] else show_digits n (z / 10) ++ [digit_of (z mod 10)]
  end.
(** Twenty digits hold every [u64]. *)
Definition show_unsigned (z : Z) : bytes := show_digits 20 z.

Fixpoint parse_digits (max value : Z) (bs : bytes) : option Z :=
  match bs with
  | [] => Some value
  | b :: bs =>
      d ← digit_value b;
      if value * 10 + d <=? max then parse_digits max (value * 10 + d) bs else None
  end.
(** [str::parse] of the unsigned integer type with largest value [max]. *)
Definition parse_unsigned (max : Z) (bs : bytes) : option Z :=
  match bs with
  | [] => None
  | [b] => if bool_decide (b = x2b) then None else parse_digits max 0 [b]
  | b :: bs' => if bool_decide (b = x2b) then parse_digits max 0 bs' else parse_digits max 0 bs
  end.

(** [{:016x}] of an unsigned 64-bit integer. *)
Definition hex_digit (z : Z) : byte := if z <? 10 then digit_of z else byte.of_Z (87 + z).
Fixpoint show_hex (n : nat) (z : Z) : bytes :=
  match n with
  | O => []
  | S n => show_hex n (z / 16) ++ [hex_digit (z mod 16)]
  end.
(** Bytes in lower-case hexadecimal. *)
Definition byte_hex (b : byte) : bytes :=
  [hex_digit (byte.unsigned b / 16); hex_digit (byte.unsigned b mod 16)].
Definition bytes_hex (bs : bytes) : bytes := bs ≫= byte_hex.

(** ** Facts *)

Lemma strip_prefix_app prefix bs : strip_prefix prefix (prefix ++ bs) = Some bs.
Proof.
  unfold strip_prefix. rewrite take_app_length, drop_app_length.
  by rewrite bool_decide_eq_true_2.
Qed.

(** Splitting takes the text up to the separator, and is undone by joining. *)
Lemma split_text_head c a b : c ∉ a → split_text c (a ++ c :: b) = a :: split_text c b.
Proof.
  induction a as [|x a IH]; intros Hc; simpl.
  - by rewrite bool_decide_eq_true_2.
  - rewrite not_elem_of_cons in Hc. destruct Hc as [Hx Ha].
    rewrite bool_decide_eq_false_2 by congruence. by rewrite IH.
Qed.

Lemma split_text_whole c a : c ∉ a → split_text c a = [a].
Proof.
  induction a as [|x a IH]; intros Hc; simpl; [done|].
  rewrite not_elem_of_cons in Hc. destruct Hc as [Hx Ha].
  rewrite bool_decide_eq_false_2 by congruence. by rewrite IH.
Qed.

Fixpoint join_text (c : byte) (parts : list bytes) : bytes :=
  match parts with
  | [] => []
  | [l] => l
  | l :: parts => l ++ c :: join_text c parts
  end.
Lemma join_split_text c bs : join_text c (split_text c bs) = bs.
Proof.
  induction bs as [|b bs IH]; simpl; [done|]. case_bool_decide as Hb.
  - subst b. destruct (split_text c bs) as [|l ls] eqn:Hs; [by destruct bs; simpl in Hs; repeat case_match|].
    change (join_text c ([] :: l :: ls)) with (c :: join_text c (l :: ls)). by rewrite IH.
  - destruct (split_text c bs) as [|l [|l' ls]]; rewrite <-IH; done.
Qed.
Lemma split_text_inj c a b : split_text c a = split_text c b → a = b.
Proof. intros Heq. by rewrite <-(join_split_text c a), Heq, join_split_text. Qed.

Lemma strip_last_snoc c bs : strip_last c (bs ++ [c]) = Some bs.
Proof.
  unfold strip_last. rewrite last_snoc, bool_decide_eq_true_2, length_app by done. simpl.
  by rewrite Nat.add_sub, take_app_length.
Qed.

(** Lines that were written are read back. *)
Definition clean_line (l : bytes) : Prop := (LF ∉ l) ∧ strip_last CR l = None.

Lemma lines_from_line line l bs :
  LF ∉ l → lines_from line (l ++ LF :: bs) =
  default (line ++ l) (strip_last CR (line ++ l)) :: lines_from [] bs.
Proof.
  revert line. induction l as [|b l IH]; intros line Hl; simpl.
  - by rewrite app_nil_r.
  - rewrite not_elem_of_cons in Hl. destruct Hl as [Hb Hl].
    rewrite bool_decide_eq_false_2 by done. by rewrite IH, <-app_assoc by done.
Qed.

Lemma lines_written ls :
  Forall clean_line ls → lines (concat (fmap (λ l, l ++ [LF]) ls)) = ls.
Proof.
  unfold lines. induction 1 as [|l ls [Hl Hcr] _ IH]; [done|].
  cbn [fmap list_fmap concat]. rewrite <-app_assoc. simpl.
  rewrite lines_from_line by done. rewrite app_nil_l, Hcr. simpl. by rewrite IH.
Qed.

Lemma digit_value_of z : 0 ≤ z < 10 → digit_value (digit_of z) = Some z.
Proof.
  intros Hz. unfold digit_value, digit_of, in_span. rewrite byte.unsigned_of_Z.
  unfold byte.wrap. rewrite Z.mod_small by (change (2 ^ 8) with 256; lia).
  destruct (Z.leb_spec 48 (48 + z)), (Z.leb_spec (48 + z) 57); [|lia..].
  cbn [andb]. f_equal. lia.
Qed.

Lemma parse_digits_app max value a b :
  parse_digits max value (a ++ b) = (v ← parse_digits max value a; parse_digits max v b).
Proof.
  revert value. induction a as [|x a IH]; intros value; simpl; [done|].
  destruct (digit_value x); simpl; [|done]. case_match; [apply IH|done].
Qed.

Lemma parse_show_digits max n z :
  0 ≤ z ≤ max → z < 10 ^ Z.of_nat n → parse_digits max 0 (show_digits n z) = Some z.
Proof.
  revert z. induction n as [|n IH]; intros z Hz Hn; [simpl in *; f_equal; lia|].
  cbn [show_digits]. destruct (z <? 10) eqn:H10.
  - cbn [parse_digits]. rewrite digit_value_of by lia. cbn [mbind option_bind].
    replace (0 * 10 + z) with z by lia. by destruct (Z.leb_spec z max); [|lia].
  - pose proof (Z.div_mod z 10 ltac:(lia)) as Hdm. pose proof (Z.mod_pos_bound z 10 ltac:(lia)) as Hm.
    rewrite parse_digits_app, IH; cbn [mbind option_bind parse_digits].
    + rewrite digit_value_of by lia. cbn [mbind option_bind].
      replace (z / 10 * 10 + z mod 10) with z by lia. by destruct (Z.leb_spec z max); [|lia].
    + lia.
    + rewrite Nat2Z.inj_succ, Z.pow_succ_r in Hn by lia.
      apply Z.div_lt_upper_bound; lia.
Qed.

Lemma show_digits_digits n z :
  0 ≤ z → (0 < n)%nat → show_digits n z ≠ [] ∧
  Forall (λ b, is_Some (digit_value b)) (show_digits n z).
Proof.
  revert z. induction n as [|n IH]; intros z Hz Hn; [lia|]. cbn [show_digits].
  assert (Hd : ∀ d, 0 ≤ d < 10 → is_Some (digit_value (digit_of d)))
    by (intros d Hd; rewrite digit_value_of by done; eauto).
  destruct (z <? 10) eqn:H10.
  - split; [done|]. apply Forall_singleton, Hd. lia.
  - pose proof (Z.mod_pos_bound z 10 ltac:(lia)).
    split; [by destruct (show_digits n (z / 10))|].
    apply Forall_app. split; [|by apply Forall_singleton, Hd].
    destruct n as [|n]; [constructor|]. apply IH; [|lia]. by apply Z.div_pos.
Qed.

(** A number that is printed is read back as itself. *)
Lemma parse_show_unsigned max z :
  0 ≤ z ≤ max → max ≤ u64_max → parse_unsigned max (show_unsigned z) = Some z.
Proof.
  intros Hz Hmax. unfold u64_max in Hmax.
  pose proof (parse_show_digits max 20 z Hz ltac:(change (10 ^ Z.of_nat 20) with 100000000000000000000; lia)) as Hp.
  destruct (show_digits_digits 20 z ltac:(lia) ltac:(lia)) as [Hne Hd].
  unfold show_unsigned, parse_unsigned in *.
  destruct (show_digits 20 z) as [|b bs]; [done|]. apply Forall_cons in Hd as [Hb _].
  assert (b ≠ x2b) by (intros ->; by destruct Hb).
  rewrite bool_decide_eq_false_2 by done. by destruct bs.
Qed.

(** ASCII text is UTF-8. *)
Lemma utf8_ascii bs : Forall (λ b, in_span 0 0x7f b = true) bs → utf8_valid bs = true.
Proof. induction 1 as [|b bs Hb _ IH]; [done|]. simpl. by rewrite Hb. Qed.

Lemma digit_ascii b : is_Some (digit_value b) → in_span 0 0x7f b = true.
Proof.
  unfold digit_value. destruct (in_span 48 57 b) eqn:Hb; [|by intros []].
  unfold in_span in *. apply andb_prop in Hb as [Hlo Hhi]. intros _.
  apply andb_true_intro. split; lia.
Qed.

Lemma show_unsigned_digits z :
  0 ≤ z → show_unsigned z ≠ [] ∧ Forall (λ b, is_Some (digit_value b)) (show_unsigned z).
Proof. intros Hz. apply show_digits_digits; [done|lia]. Qed.

Lemma strip_last_None c bs : last bs ≠ Some c → strip_last c bs = None.
Proof.
  unfold strip_last. destruct (last bs) as [b|]; [|done]. intros Hb.
  by rewrite bool_decide_eq_false_2 by congruence.
Qed.

Lemma last_app_r {A} (l k : list A) : k ≠ [] → last (l ++ k) = last k.
Proof. destruct k as [|x k _] using rev_ind; [done|]. intros _. by rewrite app_assoc, !last_snoc. Qed.

(** A line that ends in a number. *)
Lemma clean_number prefix z : LF ∉ prefix → 0 ≤ z → clean_line (prefix ++ show_unsigned z).
Proof.
  intros Hp Hz. destruct (show_unsigned_digits z Hz) as [Hne Hd]. split.
  - rewrite elem_of_app. intros [|Hin]; [done|]. rewrite Forall_forall in Hd.
    apply Hd in Hin. by destruct Hin.
  - apply strip_last_None. rewrite last_app_r by done. intros Hl.
    rewrite Forall_forall in Hd. apply last_Some_elem_of in Hl. apply Hd in Hl. by destruct Hl.
Qed.

Lemma ascii_number z : 0 ≤ z → Forall (λ b, in_span 0 0x7f b = true) (show_unsigned z).
Proof.
  intros Hz. eapply Forall_impl; [by apply show_unsigned_digits|]. apply digit_ascii.
Qed.
