(* ===== verification/WireFrame.v ===== *)
(** * KBP frames: src/crates/kindlebridge-wire/src/frame.rs

    The fixed 40-byte header with its CRC-32C, the stateless header rules of
    [Header::validate], and complete frames. *)

From S2P Require Import Prelude.

(** ** Constants *)

Definition MAGIC : bytes := [x4b; x42; x50; x31].
Definition HEADER_LEN : nat := 40.
Definition PROTOCOL_MAJOR : Z := 1.
Definition PROTOCOL_MINOR : Z := 0.
Definition FLAG_END_STREAM : Z := 0x00000001.
Definition FLAG_URGENT : Z := 0x00010000.
Definition CRITICAL_FLAG_MASK : Z := 0x0000ffff.
Definition KNOWN_CRITICAL_FLAGS : Z := FLAG_END_STREAM.

(** ** Commands *)

Module Command.

Inductive Command : Type :=
| Hello
| PairingFinish
| Open
| Accept
| Reject
| Data
| Credit
| Close
| Reset
| Ping
| Pong
| GoAway
| Error.

End Command.
Abbreviation Command := Command.Command.

#[export] Instance Command_eq_dec : EqDecision Command.
Proof. solve_decision. Defined.

(** [command as u16]. *)
Definition command_code (c : Command) : Z :=
  match c with
  | Command.Hello => 1
  | Command.PairingFinish => 2
  | Command.Open => 3
  | Command.Accept => 4
  | Command.Reject => 5
  | Command.Data => 6
  | Command.Credit => 7
  | Command.Close => 8
  | Command.Reset => 9
  | Command.Ping => 10
  | Command.Pong => 11
  | Command.GoAway => 12
  | Command.Error => 13
  end.

(** ** Errors *)

Module WireError.

Inductive WireError : Type :=
| HeaderTooShort (actual : Z)
| FrameLengthMismatch (expected actual : Z)
| InvalidMagic (magic : bytes)
| InvalidHeaderSize (size : Z)
| UnsupportedMajor (major : Z)
| UnknownCommand (command : Z)
| HeaderCrcMismatch (expected actual : Z)
| PayloadTooLarge (length maximum : Z)
| CreditTooLarge (delta maximum : Z)
| CreditPayloadNotEmpty (length : Z)
| InvalidCreditDelta (delta : Z)
| UnexpectedCreditDelta (command : Command) (delta : Z)
| UnknownCriticalFlags (flags : Z)
| EndStreamOnNonData (command : Command)
| InvalidStreamForCommand (command : Command) (stream_id : Z)
| ReservedNotZero (value : Z)
| PayloadLengthOverflow (length : Z).

End WireError.
Abbreviation WireError := WireError.WireError.

#[export] Instance WireError_eq_dec : EqDecision WireError.
Proof. solve_decision. Defined.

(** [Command::try_from(u16)]. *)
Definition command_try_from (value : Z) : result WireError Command :=
  match value with
  | 1 => Ok Command.Hello
  | 2 => Ok Command.PairingFinish
  | 3 => Ok Command.Open
  | 4 => Ok Command.Accept
  | 5 => Ok Command.Reject
  | 6 => Ok Command.Data
  | 7 => Ok Command.Credit
  | 8 => Ok Command.Close
  | 9 => Ok Command.Reset
  | 10 => Ok Command.Ping
  | 11 => Ok Command.Pong
  | 12 => Ok Command.GoAway
  | 13 => Ok Command.Error
  | other => Err (WireError.UnknownCommand other)
  end.

Definition allows_stream_zero (c : Command) : bool :=
  match c with
  | Command.Hello | Command.PairingFinish | Command.Credit | Command.Ping
  | Command.Pong | Command.GoAway | Command.Error => true
  | _ => false
  end.

Definition allows_nonzero_stream (c : Command) : bool :=
  match c with
  | Command.Open | Command.Accept | Command.Reject | Command.Data
  | Command.Credit | Command.Close | Command.Reset => true
  | _ => false
  end.

(** ** Limits and headers *)

Record DecodeLimits : Type := {
  max_payload : Z;
  max_window : Z;
}.

Definition default_limits : DecodeLimits :=
  {| max_payload := 16 * 1024 * 1024; max_window := 16 * 1024 * 1024 |}.

Record Header : Type := {
  major : Z;
  minor : Z;
  command : Command;
  flags : Z;
  stream_id : Z;
  sequence : Z;
  payload_length : Z;
  credit_delta : Z;
  reserved : Z;
}.

#[export] Instance Header_eq_dec : EqDecision Header.
Proof. solve_decision. Defined.

(** [Header::new]. *)
Definition header_new (c : Command) (stream_id sequence : Z) : Header :=
  {| major := PROTOCOL_MAJOR;
     minor := PROTOCOL_MINOR;
     command := c;
     flags := 0;
     stream_id := stream_id;
     sequence := sequence;
     payload_length := 0;
     credit_delta := 0;
     reserved := 0 |}.

(** The values a [Header] can hold in Rust: each field fits its width. *)
Record header_ok (h : Header) : Prop := {
  ok_major : u16 (major h);
  ok_minor : u16 (minor h);
  ok_flags : u32 (flags h);
  ok_stream_id : u32 (stream_id h);
  ok_sequence : u32 (sequence h);
  ok_payload_length : u32 (payload_length h);
  ok_credit_delta : u32 (credit_delta h);
  ok_reserved : u32 (reserved h);
}.

(** [self.flags & CRITICAL_FLAG_MASK & !KNOWN_CRITICAL_FLAGS]. *)
Definition unknown_critical (h : Header) : Z :=
  Z.land (Z.land (flags h) CRITICAL_FLAG_MASK) (Z.lxor u32_max KNOWN_CRITICAL_FLAGS).

(** [flags & FLAG_END_STREAM != 0]. *)
Definition has_end_stream (h : Header) : bool :=
  negb (Z.land (flags h) FLAG_END_STREAM =? 0).

(** The CREDIT rules of [Header::validate]. *)
Definition validate_credit (h : Header) (limits : DecodeLimits) : result WireError unit :=
  if decide (command h = Command.Credit) then
    check? reject_if (negb (payload_length h =? 0))
             (WireError.CreditPayloadNotEmpty (payload_length h)) in
    check? reject_if (credit_delta h =? 0) (WireError.InvalidCreditDelta 0) in
    reject_if (max_window limits <? credit_delta h)
      (WireError.CreditTooLarge (credit_delta h) (max_window limits))
  else
    reject_if (negb (credit_delta h =? 0))
      (WireError.UnexpectedCreditDelta (command h) (credit_delta h)).

Definition stream_is_valid (h : Header) : bool :=
  if stream_id h =? 0 then allows_stream_zero (command h)
  else allows_nonzero_stream (command h).

Definition validate (h : Header) (limits : DecodeLimits) : result WireError unit :=
  check? reject_if (negb (major h =? PROTOCOL_MAJOR))
           (WireError.UnsupportedMajor (major h)) in
  check? reject_if (max_payload limits <? payload_length h)
           (WireError.PayloadTooLarge (payload_length h) (max_payload limits)) in
  check? reject_if (negb (reserved h =? 0)) (WireError.ReservedNotZero (reserved h)) in
  check? reject_if (negb (unknown_critical h =? 0))
           (WireError.UnknownCriticalFlags (unknown_critical h)) in
  check? reject_if (has_end_stream h && negb (bool_decide (command h = Command.Data)))
           (WireError.EndStreamOnNonData (command h)) in
  check? validate_credit h limits in
  reject_if (negb (stream_is_valid h))
    (WireError.InvalidStreamForCommand (command h) (stream_id h)).

(** ** CRC-32C *)

Definition wrapping_sub_u32 (a b : Z) : Z := (a - b) mod 2 ^ 32.

(** One iteration of the inner loop of [crc32c]. *)
Definition crc_bit (crc : Z) : Z :=
  let mask := wrapping_sub_u32 0 (Z.land crc 1) in
  Z.lxor (Z.shiftr crc 1) (Z.land 0x82f63b78 mask).

(** One iteration of the outer loop: [crc ^= byte], then eight bit steps. *)
Definition crc_byte (crc : Z) (b : byte) : Z :=
  Nat.iter 8 crc_bit (Z.lxor crc (byte.unsigned b)).

Definition crc32c (bs : bytes) : Z :=
  Z.lxor u32_max (foldl crc_byte u32_max bs).

(** ** Encoding and decoding *)

Definition get_u16 (bs : bytes) (offset : nat) : Z :=
  from_le_bytes (slice offset (offset + 2) bs).
Definition get_u32 (bs : bytes) (offset : nat) : Z :=
  from_le_bytes (slice offset (offset + 4) bs).
Definition put_u16 (offset : nat) (value : Z) (bs : bytes) : bytes :=
  splice offset (to_le_bytes 2 value) bs.
Definition put_u32 (offset : nat) (value : Z) (bs : bytes) : bytes :=
  splice offset (to_le_bytes 4 value) bs.

(** The header bytes with a zero checksum. *)
Definition encode_fields (h : Header) : bytes :=
  put_u32 36 (reserved h)
  (put_u32 32 0
  (put_u32 28 (credit_delta h)
  (put_u32 24 (payload_length h)
  (put_u32 20 (sequence h)
  (put_u32 16 (stream_id h)
  (put_u32 12 (flags h)
  (put_u16 10 (command_code (command h))
  (put_u16 8 (Z.of_nat HEADER_LEN)
  (put_u16 6 (minor h)
  (put_u16 4 (major h)
  (splice 0 MAGIC (replicate HEADER_LEN x00)))))))))))).

(** [Header::encode]. *)
Definition header_encode (h : Header) (limits : DecodeLimits) : result WireError bytes :=
  check? validate h limits in
  let bs := encode_fields h in
  Ok (put_u32 32 (crc32c bs) bs).

(** [Header::decode]. *)
Definition header_decode (bs : bytes) (limits : DecodeLimits) : result WireError Header :=
  check? reject_if (len bs <? Z.of_nat HEADER_LEN) (WireError.HeaderTooShort (len bs)) in
  let magic := slice 0 4 bs in
  check? reject_if (negb (bool_decide (magic = MAGIC))) (WireError.InvalidMagic magic) in
  let header_size := get_u16 bs 8 in
  check? reject_if (negb (header_size =? Z.of_nat HEADER_LEN))
           (WireError.InvalidHeaderSize header_size) in
  let actual_crc := get_u32 bs 32 in
  let canonical := put_u32 32 0 (take HEADER_LEN bs) in
  let expected_crc := crc32c canonical in
  check? reject_if (negb (actual_crc =? expected_crc))
           (WireError.HeaderCrcMismatch expected_crc actual_crc) in
  let? command := command_try_from (get_u16 bs 10) in
  let header :=
    {| major := get_u16 bs 4;
       minor := get_u16 bs 6;
       command := command;
       flags := get_u32 bs 12;
       stream_id := get_u32 bs 16;
       sequence := get_u32 bs 20;
       payload_length := get_u32 bs 24;
       credit_delta := get_u32 bs 28;
       reserved := get_u32 bs 36 |} in
  check? validate header limits in
  Ok header.

(** ** Frames *)

Record Frame : Type := {
  header : Header;
  payload : bytes;
}.

(** [u32::try_from(usize)]. *)
Definition u32_try_from (n : Z) : option Z := if n <=? u32_max then Some n else None.

Definition with_payload_length (n : Z) (h : Header) : Header :=
  {| major := major h; minor := minor h; command := command h; flags := flags h;
     stream_id := stream_id h; sequence := sequence h; payload_length := n;
     credit_delta := credit_delta h; reserved := reserved h |}.

(** [Frame::new]. *)
Definition frame_new (h : Header) (payload : bytes) : result WireError Frame :=
  let? n := ok_or (u32_try_from (len payload))
              (WireError.PayloadLengthOverflow (len payload)) in
  Ok {| header := with_payload_length n h; payload := payload |}.

(** [Frame::encode]. *)
Definition frame_encode (f : Frame) (limits : DecodeLimits) : result WireError bytes :=
  let? actual := ok_or (u32_try_from (len (payload f)))
                   (WireError.PayloadLengthOverflow (len (payload f))) in
  check? reject_if (negb (actual =? payload_length (header f)))
           (WireError.FrameLengthMismatch
              (Z.of_nat HEADER_LEN + payload_length (header f))
              (Z.of_nat HEADER_LEN + len (payload f))) in
  let? h := header_encode (header f) limits in
  Ok (h ++ payload f).

(** [Frame::decode]. *)
Definition frame_decode (bs : bytes) (limits : DecodeLimits) : result WireError Frame :=
  let? h := header_decode bs limits in
  let expected := Z.of_nat HEADER_LEN + payload_length h in
  check? reject_if (negb (len bs =? expected))
           (WireError.FrameLengthMismatch expected (len bs)) in
  Ok {| header := h; payload := drop HEADER_LEN bs |}.

(** ** Commands round trip *)

Lemma command_code_range c : u16 (command_code c).
Proof. destruct c; unfold in_range, u16_max; simpl; lia. Qed.

Lemma command_try_from_code c : command_try_from (command_code c) = Ok c.
Proof. by destruct c. Qed.

Lemma command_try_from_ok z c : command_try_from z = Ok c → z = command_code c.
Proof.
  intros H. unfold command_try_from in H.
  repeat case_match; simplify_eq; reflexivity.
Qed.

(** ** Header layout *)

Lemma length_put_u16 off z bs :
  (off + 2 ≤ length bs)%nat → length (put_u16 off z bs) = length bs.
Proof. intros. apply length_splice. by rewrite length_to_le_bytes. Qed.
Lemma length_put_u32 off z bs :
  (off + 4 ≤ length bs)%nat → length (put_u32 off z bs) = length bs.
Proof. intros. apply length_splice. by rewrite length_to_le_bytes. Qed.

#[export] Hint Rewrite length_put_u16 length_put_u32 using solve_len : kb_len.


Lemma length_encode_fields h : length (encode_fields h) = HEADER_LEN.
Proof.
  assert (∀ off z bs, length bs = HEADER_LEN → (off + 4 ≤ 40)%nat →
    length (put_u32 off z bs) = HEADER_LEN) as H32.
  { unfold HEADER_LEN. intros. rewrite length_put_u32; lia. }
  assert (∀ off z bs, length bs = HEADER_LEN → (off + 2 ≤ 40)%nat →
    length (put_u16 off z bs) = HEADER_LEN) as H16.
  { unfold HEADER_LEN. intros. rewrite length_put_u16; lia. }
  unfold encode_fields. repeat (apply H32 || apply H16); try lia. done.
Qed.


Lemma length_with_crc crc h : length (put_u32 32 crc (encode_fields h)) = HEADER_LEN.
Proof. rewrite length_put_u32; rewrite length_encode_fields; [done|]. unfold HEADER_LEN. lia. Qed.

(** What a decoder reads from a 40-byte header holding [h] and checksum [crc]. *)
Section encoded_fields.
Variable (h : Header) (crc : Z) (rest : bytes).
Hypothesis (Hh : header_ok h).
Let bs : bytes := put_u32 32 crc (encode_fields h) ++ rest.

Lemma length_encoded : (HEADER_LEN ≤ length bs)%nat.
Proof. subst bs. rewrite length_app, length_with_crc. lia. Qed.

Lemma slice_encoded lo hi :
  (hi ≤ HEADER_LEN)%nat →
  slice lo hi bs = slice lo hi (put_u32 32 crc (encode_fields h)).
Proof. intros. subst bs. apply slice_app_l. by rewrite length_with_crc. Qed.

Local Ltac read_slice :=
  unfold get_u16, get_u32; rewrite slice_encoded by (unfold HEADER_LEN; lia);
  unfold encode_fields, put_u16, put_u32; layout.
Local Ltac read_field :=
  read_slice; (apply from_to_le_u16 || apply from_to_le_u32); destruct Hh; assumption.

Lemma read_magic : slice 0 4 bs = MAGIC.
Proof. by read_slice. Qed.
Lemma read_major : get_u16 bs 4 = major h.
Proof. read_field. Qed.
Lemma read_minor : get_u16 bs 6 = minor h.
Proof. read_field. Qed.
Lemma read_header_size : get_u16 bs 8 = Z.of_nat HEADER_LEN.
Proof. by read_slice. Qed.
Lemma read_command : get_u16 bs 10 = command_code (command h).
Proof. read_slice. apply from_to_le_u16, command_code_range. Qed.
Lemma read_flags : get_u32 bs 12 = flags h.
Proof. read_field. Qed.
Lemma read_stream_id : get_u32 bs 16 = stream_id h.
Proof. read_field. Qed.
Lemma read_sequence : get_u32 bs 20 = sequence h.
Proof. read_field. Qed.
Lemma read_payload_length : get_u32 bs 24 = payload_length h.
Proof. read_field. Qed.
Lemma read_credit_delta : get_u32 bs 28 = credit_delta h.
Proof. read_field. Qed.
Lemma read_reserved : get_u32 bs 36 = reserved h.
Proof. read_field. Qed.
Lemma read_crc : u32 crc → get_u32 bs 32 = crc.
Proof. intros Hcrc. read_slice. by apply from_to_le_u32. Qed.

(** Clearing the checksum gives back the bytes it was computed over. *)
Lemma canonical_encoded : put_u32 32 0 (take HEADER_LEN bs) = encode_fields h.
Proof.
  subst bs. rewrite take_app_length' by (by rewrite length_with_crc).
  unfold put_u32 at 1 2. rewrite splice_splice
    by (rewrite ?length_encode_fields, ?length_to_le_bytes; unfold HEADER_LEN; lia).
  assert (to_le_bytes 4 0 = slice 32 (32 + 4) (encode_fields h)) as ->.
  { unfold encode_fields, put_u16, put_u32. by layout. }
  apply splice_slice_id. rewrite length_encode_fields. unfold HEADER_LEN. lia.
Qed.
End encoded_fields.

(** ** CRC-32C as an injective register *)

Lemma lxor_u32 a b : u32 a → u32 b → u32 (Z.lxor a b).
Proof.
  intros [Ha Ha'] [Hb Hb']. unfold in_range, u32_max in *.
  assert (0 ≤ Z.lxor a b) by (apply Z.lxor_nonneg; lia).
  split; [done|]. apply Z.lt_succ_r.
  destruct (decide (Z.lxor a b = 0)) as [->|Hnz]; [done|].
  change (Z.succ 4294967295) with (2 ^ 32). apply Z.log2_lt_pow2; [lia|].
  eapply Z.le_lt_trans; [apply Z.log2_lxor; lia|].
  apply Z.max_lub_lt; (eapply Z.le_lt_trans; [apply (Z.log2_le_mono _ 4294967295); lia|done]).
Qed.

Lemma byte_u32 b : u32 (byte.unsigned b).
Proof. pose proof (byte.unsigned_range b). unfold in_range, u32_max. lia. Qed.

(** [crc_bit], without the mask trick. *)
Lemma crc_bit_eq crc :
  crc_bit crc = Z.lxor (Z.shiftr crc 1) (if Z.odd crc then 0x82f63b78 else 0).
Proof.
  unfold crc_bit, wrapping_sub_u32. f_equal.
  change 1 with (Z.ones 1) at 1. rewrite Z.land_ones by lia.
  change (2 ^ 1) with 2. rewrite Zmod_odd.
  by destruct (Z.odd crc).
Qed.

Lemma crc_bit_u32 crc : u32 crc → u32 (crc_bit crc).
Proof.
  intros H. rewrite crc_bit_eq. apply lxor_u32.
  - unfold in_range in *. rewrite Z.shiftr_div_pow2 by lia. change (2 ^ 1) with 2.
    pose proof (Z.div_le_upper_bound crc 2 u32_max). split; [apply Z.div_pos; lia|].
    unfold u32_max in *. lia.
  - unfold in_range, u32_max. destruct (Z.odd crc); lia.
Qed.

(** The top bit of the result tells which branch was taken, and the rest of the
    register is recovered by undoing it. *)
Lemma crc_bit_inj a b : u32 a → u32 b → crc_bit a = crc_bit b → a = b.
Proof.
  intros Ha Hb. rewrite !crc_bit_eq. intros Heq.
  assert (∀ z, u32 z → Z.testbit (Z.shiftr z 1) 31 = false) as Htop.
  { intros z [??]. rewrite Z.shiftr_spec by lia.
    destruct (decide (z = 0)) as [->|]; [by rewrite Z.testbit_0_l|].
    apply Z.bits_above_log2; [lia|].
    eapply Z.le_lt_trans; [apply (Z.log2_le_mono _ 4294967295)|done].
    unfold u32_max in *. lia. }
  assert (Z.odd a = Z.odd b) as Hodd.
  { apply (f_equal (λ z, Z.testbit z 31)) in Heq.
    rewrite !Z.lxor_spec, !Htop in Heq by done.
    by destruct (Z.odd a), (Z.odd b). }
  rewrite <-Hodd in Heq.
  apply (f_equal (λ z, Z.lxor z (if Z.odd a then 0x82f63b78 else 0))) in Heq.
  rewrite !Z.lxor_assoc, !Z.lxor_nilpotent, !Z.lxor_0_r in Heq.
  rewrite <-!Z.div2_spec in Heq.
  rewrite (Z.div2_odd a), (Z.div2_odd b). by rewrite Heq, Hodd.
Qed.

Lemma crc_bits_u32 n crc : u32 crc → u32 (Nat.iter n crc_bit crc).
Proof. intros H. induction n; simpl; [done|by apply crc_bit_u32]. Qed.

Lemma crc_bits_inj n a b :
  u32 a → u32 b → Nat.iter n crc_bit a = Nat.iter n crc_bit b → a = b.
Proof.
  intros Ha Hb. induction n as [|n IH]; simpl; [done|].
  intros Heq. apply IH, crc_bit_inj, Heq; by apply crc_bits_u32.
Qed.

Lemma crc_byte_u32 crc b : u32 crc → u32 (crc_byte crc b).
Proof. intros H. apply crc_bits_u32, lxor_u32; [done|apply byte_u32]. Qed.

Lemma crc_byte_inj_state a b c : u32 a → u32 b → crc_byte a c = crc_byte b c → a = b.
Proof.
  unfold crc_byte. intros Ha Hb Heq.
  apply (crc_bits_inj 8) in Heq; [|by apply lxor_u32, byte_u32..].
  apply (f_equal (λ z, Z.lxor z (byte.unsigned c))) in Heq.
  by rewrite !Z.lxor_assoc, !Z.lxor_nilpotent, !Z.lxor_0_r in Heq.
Qed.

Lemma crc_byte_inj_byte a b c : u32 a → crc_byte a b = crc_byte a c → b = c.
Proof.
  unfold crc_byte. intros Ha Heq.
  apply (crc_bits_inj 8) in Heq; [|by apply lxor_u32, byte_u32..].
  apply (f_equal (Z.lxor a)) in Heq.
  rewrite <-!Z.lxor_assoc, !Z.lxor_nilpotent, !Z.lxor_0_l in Heq.
  by apply byte.unsigned_inj.
Qed.

Lemma crc_fold_u32 bs crc : u32 crc → u32 (foldl crc_byte crc bs).
Proof. revert crc. induction bs; simpl; auto using crc_byte_u32. Qed.

Lemma crc_fold_inj bs a b :
  u32 a → u32 b → foldl crc_byte a bs = foldl crc_byte b bs → a = b.
Proof.
  revert a b. induction bs as [|c bs IH]; simpl; [done|].
  intros a b Ha Hb Heq. apply IH in Heq; [|by apply crc_byte_u32..].
  by eapply crc_byte_inj_state.
Qed.

Lemma u32_max_u32 : u32 u32_max.
Proof. unfold in_range, u32_max. lia. Qed.

Lemma crc32c_u32 bs : u32 (crc32c bs).
Proof. apply lxor_u32; [|apply crc_fold_u32]; apply u32_max_u32. Qed.

(** Replacing one byte always changes the checksum. *)
Lemma crc32c_one_byte pre suf b c :
  crc32c (pre ++ b :: suf) = crc32c (pre ++ c :: suf) → b = c.
Proof.
  unfold crc32c. intros Heq.
  apply (f_equal (Z.lxor u32_max)) in Heq.
  rewrite <-!Z.lxor_assoc, !Z.lxor_nilpotent, !Z.lxor_0_l in Heq.
  rewrite !foldl_app in Heq. simpl in Heq.
  assert (u32 (foldl crc_byte u32_max pre)) by apply crc_fold_u32, u32_max_u32.
  apply crc_fold_inj in Heq; [|by apply crc_byte_u32..].
  by eapply crc_byte_inj_byte.
Qed.

(** ** Round trips *)

Lemma header_encode_inv h limits bs :
  header_encode h limits = Ok bs →
  validate h limits = Ok tt ∧
  bs = put_u32 32 (crc32c (encode_fields h)) (encode_fields h) ∧ length bs = HEADER_LEN.
Proof.
  unfold header_encode. intros Henc. result_inv. by rewrite length_with_crc.
Qed.

Lemma header_decode_encode h limits bs rest :
  header_ok h → header_encode h limits = Ok bs →
  header_decode (bs ++ rest) limits = Ok h.
Proof.
  intros Hok (Hval & -> & _)%header_encode_inv.
  pose proof (length_encoded h (crc32c (encode_fields h)) rest) as Hlen.
  unfold header_decode.
  rewrite read_magic, read_header_size by assumption.
  rewrite read_crc by apply crc32c_u32. rewrite canonical_encoded, read_command,
    command_try_from_code.
  rewrite read_major, read_minor, read_flags, read_stream_id, read_sequence,
    read_payload_length, read_credit_delta, read_reserved by assumption.
  assert ((len (put_u32 32 (crc32c (encode_fields h)) (encode_fields h) ++ rest)
            <? Z.of_nat HEADER_LEN) = false) as ->.
  { unfold len. lia. }
  rewrite bool_decide_true by done. rewrite !Z.eqb_refl. simpl.
  destruct h; simpl in *. by rewrite Hval.
Qed.

(** Decoding an encoded header gives the header back, whatever follows it
    in the buffer.  The only hypotheses are that the header's fields fit their
    Rust types and that [Header::encode] accepted it. *)
Theorem header_roundtrip h limits bs rest :
  header_ok h → header_encode h limits = Ok bs →
  header_decode (bs ++ rest) limits = Ok h.
Proof. apply header_decode_encode. Qed.

(** The stateless checks of [Header::decode], as facts about the buffer. *)
Lemma header_decode_inv bs limits h :
  header_decode bs limits = Ok h →
  (HEADER_LEN ≤ length bs)%nat ∧ slice 0 4 bs = MAGIC ∧
  get_u16 bs 8 = Z.of_nat HEADER_LEN ∧
  get_u32 bs 32 = crc32c (put_u32 32 0 (take HEADER_LEN bs)) ∧
  get_u16 bs 10 = command_code (command h) ∧ validate h limits = Ok tt ∧
  h = {| major := get_u16 bs 4; minor := get_u16 bs 6; command := command h;
         flags := get_u32 bs 12; stream_id := get_u32 bs 16;
         sequence := get_u32 bs 20; payload_length := get_u32 bs 24;
         credit_delta := get_u32 bs 28; reserved := get_u32 bs 36 |}.
Proof.
  intros Hdec. unfold header_decode in Hdec. result_inv.
  match goal with H : command_try_from _ = Ok _ |- _ => apply command_try_from_ok in H end.
  match goal with H : negb (bool_decide _) = false |- _ =>
    apply negb_false_iff, bool_decide_eq_true in H end.
  unfold len in *. split_and!; try done; try lia.
Qed.

Lemma header_decode_ok bs limits h : header_decode bs limits = Ok h → header_ok h.
Proof.
  intros (Hlen & _ & _ & _ & _ & _ & ->)%header_decode_inv. unfold HEADER_LEN in Hlen.
  split; simpl; (apply from_le_u16 || apply from_le_u32); rewrite length_slice; lia.
Qed.

(** The fields a decoder reads, written back, are the bytes it read them from. *)
Lemma encode_fields_read bs h :
  length bs = HEADER_LEN → slice 0 4 bs = MAGIC → get_u16 bs 8 = Z.of_nat HEADER_LEN →
  get_u16 bs 10 = command_code (command h) →
  h = {| major := get_u16 bs 4; minor := get_u16 bs 6; command := command h;
         flags := get_u32 bs 12; stream_id := get_u32 bs 16;
         sequence := get_u32 bs 20; payload_length := get_u32 bs 24;
         credit_delta := get_u32 bs 28; reserved := get_u32 bs 36 |} →
  encode_fields h = put_u32 32 0 bs.
Proof.
  intros Hlen Hmagic Hsize Hcmd Hh. unfold encode_fields.
  rewrite <-Hmagic, <-Hsize, <-Hcmd, Hh. clear Hmagic Hsize Hcmd Hh.
  cbn [major minor flags stream_id sequence payload_length credit_delta reserved].
  unfold get_u16, get_u32, put_u16, put_u32.
  rewrite !to_from_le_bytes by (rewrite length_slice; unfold HEADER_LEN in Hlen; lia).
  unfold HEADER_LEN in *.
  assert (40 ≤ length bs)%nat as Hge by lia. spell_out bs.
  simpl in Hlen. destruct bs; [|simpl in Hlen; lia]. reflexivity.
Qed.

Lemma header_encode_decode bs limits h :
  header_decode bs limits = Ok h →
  header_encode h limits = Ok (take HEADER_LEN bs).
Proof.
  intros Hdec. pose proof Hdec as (Hlen & Hmagic & Hsize & Hcrc & Hcmd & Hval & Hh)%header_decode_inv.
  assert (length (take HEADER_LEN bs) = HEADER_LEN) as Hlen' by (rewrite length_take; lia).
  assert (∀ lo hi, (hi ≤ HEADER_LEN)%nat → slice lo hi bs = slice lo hi (take HEADER_LEN bs))
    as Hslice.
  { intros lo hi Hhi. rewrite <-(take_drop HEADER_LEN bs) at 1. apply slice_app_l. lia. }
  unfold HEADER_LEN in Hlen. unfold get_u16, get_u32 in *.
  rewrite !Hslice in * by (unfold HEADER_LEN; lia).
  unfold header_encode. rewrite Hval. simpl. f_equal.
  rewrite (encode_fields_read (take HEADER_LEN bs) h) by done.
  rewrite <-Hcrc. unfold put_u32.
  rewrite to_from_le_bytes by (rewrite length_slice; unfold HEADER_LEN in *; lia).
  rewrite splice_splice
    by (rewrite ?length_slice, ?length_to_le_bytes, ?Hlen'; unfold HEADER_LEN in *; lia).
  apply (splice_slice_id 32 4). rewrite Hlen'. unfold HEADER_LEN. lia.
Qed.

(** Every buffer the decoder accepts starts with the one encoding of the
    header it returns: the wire format is canonical, no two byte strings decode
    to the same header. *)
Theorem header_canonical bs limits h :
  header_decode bs limits = Ok h →
  header_encode h limits = Ok (take HEADER_LEN bs).
Proof. apply header_encode_decode. Qed.

(** ** Corruption *)

Section one_byte.
Variable (pre suf : bytes) (b c : byte).
Hypothesis (Hne : b ≠ c) (Hlen : length (pre ++ b :: suf) = HEADER_LEN).
Let crc_slice (bs : bytes) : bytes := slice 32 36 bs.
Let zeroed (bs : bytes) : bytes := put_u32 32 0 bs.

Let cons_app (x : byte) : pre ++ x :: suf = (pre ++ [x]) ++ suf.
Proof. by rewrite <-app_assoc. Qed.

(** Outside the checksum: the checksum bytes agree, the covered bytes do not. *)
Lemma one_byte_covered :
  ¬ (32 ≤ length pre < 36)%nat →
  crc_slice (pre ++ b :: suf) = crc_slice (pre ++ c :: suf) ∧
  crc32c (zeroed (pre ++ b :: suf)) ≠ crc32c (zeroed (pre ++ c :: suf)).
Proof.
  intros Hout. subst crc_slice zeroed. unfold put_u32. cbv beta.
  destruct (decide (length pre < 32)%nat).
  - rewrite !cons_app. rewrite !slice_app_r, !splice_app_r
      by (rewrite length_app; simpl; lia).
    rewrite !length_app. split; [done|].
    rewrite <-!app_assoc. intros Heq. by apply Hne, (crc32c_one_byte _ _ _ _ Heq).
  - rewrite !slice_app_l, !splice_app_l by (rewrite ?length_to_le_bytes; lia).
    split; [done|]. intros Heq. by apply Hne, (crc32c_one_byte _ _ _ _ Heq).
Qed.

(** Inside the checksum: the covered bytes agree, the checksum bytes do not. *)
Lemma one_byte_checksum :
  (32 ≤ length pre < 36)%nat →
  zeroed (pre ++ b :: suf) = zeroed (pre ++ c :: suf) ∧
  crc_slice (pre ++ b :: suf) ≠ crc_slice (pre ++ c :: suf).
Proof.
  intros Hin. assert (∀ x, take 32 (pre ++ x :: suf) = take 32 pre) as Htake.
  { intros. by rewrite take_app_le by lia. }
  assert (∀ x, drop 36 (pre ++ x :: suf) = drop (36 - length pre - 1) suf) as Hdrop.
  { intros. rewrite cons_app, drop_app_ge by (rewrite length_app; simpl; lia).
    f_equal. rewrite length_app. simpl. lia. }
  split.
  - subst zeroed. unfold put_u32, splice. cbv beta.
    rewrite !length_to_le_bytes. by rewrite !Htake, !Hdrop.
  - intros Heq. apply Hne.
    assert (∀ x, pre ++ x :: suf = take 32 pre ++ crc_slice (pre ++ x :: suf) ++
              drop (36 - length pre - 1) suf) as Hparts.
    { intros x. rewrite <-(Htake x), <-(Hdrop x). apply (splice_parts 32 4).
      revert Hlen. rewrite !length_app. unfold HEADER_LEN. simpl. lia. }
    pose proof (Hparts b) as Hb. rewrite Heq, <-Hparts in Hb.
    by simplify_list_eq.
Qed.
End one_byte.

(** A header whose transmission changed any single byte is rejected: the
    decoder returns an error for every replacement of every byte of an encoded
    header, the four checksum bytes included. *)
Theorem header_one_byte_corruption_detected h limits pre b c suf rest :
  header_ok h → header_encode h limits = Ok (pre ++ b :: suf) → b ≠ c →
  ∃ e, header_decode ((pre ++ c :: suf) ++ rest) limits = Err e.
Proof.
  intros Hok Henc Hne.
  destruct (header_decode _ _) as [h'|e] eqn:Hdec'; [exfalso|by eauto].
  pose proof (header_decode_encode _ _ _ [] Hok Henc) as Hdec. rewrite app_nil_r in Hdec.
  assert (length (pre ++ b :: suf) = HEADER_LEN) as Hlen.
  { by apply header_encode_inv in Henc as (_ & -> & ?). }
  assert (length (pre ++ c :: suf) = HEADER_LEN) as Hlen'.
  { revert Hlen. by rewrite !length_app. }
  apply header_decode_inv in Hdec as (_&_&_&Hcrc&_).
  apply header_decode_inv in Hdec' as (_&_&_&Hcrc'&_).
  rewrite take_ge in Hcrc by lia. rewrite take_app_length' in Hcrc' by lia.
  unfold get_u32 in *. rewrite slice_app_l in Hcrc' by (rewrite Hlen'; unfold HEADER_LEN; lia).
  destruct (decide (32 ≤ length pre < 36)%nat) as [Hin|Hout].
  - destruct (one_byte_checksum _ _ _ _ Hne Hlen Hin) as [Hz Hs]. apply Hs.
    apply from_le_bytes_inj; [rewrite !length_slice; unfold HEADER_LEN in *; lia|].
    simpl in *. congruence.
  - destruct (one_byte_covered _ _ _ _ Hne Hlen Hout) as [Hs Hz]. apply Hz.
    simpl in *. congruence.
Qed.

(** ** The stateless rules, declaratively *)

(** What a valid header is, clause by clause: the only critical flag that may
    be set is END_STREAM, and only on DATA; CREDIT and nothing else carries a
    delta; connection commands live on stream zero, stream commands elsewhere. *)
Record header_valid (h : Header) (limits : DecodeLimits) : Prop := {
  valid_major : major h = PROTOCOL_MAJOR;
  valid_payload : payload_length h ≤ max_payload limits;
  valid_reserved : reserved h = 0;
  valid_flags : ∀ i, 0 ≤ i < 16 → Z.testbit (flags h) i = true →
    i = 0 ∧ command h = Command.Data;
  valid_credit : command h = Command.Credit →
    payload_length h = 0 ∧ credit_delta h ≠ 0 ∧ credit_delta h ≤ max_window limits;
  valid_no_credit : command h ≠ Command.Credit → credit_delta h = 0;
  valid_stream : if decide (stream_id h = 0) then allows_stream_zero (command h)
                 else allows_nonzero_stream (command h);
}.

Lemma unknown_critical_zero h :
  unknown_critical h = 0 ↔ ∀ i, 1 ≤ i < 16 → Z.testbit (flags h) i = false.
Proof.
  unfold unknown_critical. change (Z.lxor _ _) with 4294967294.
  change CRITICAL_FLAG_MASK with 65535.
  assert (∀ i, 1 ≤ i < 16 → Z.testbit 65535 i = true ∧ Z.testbit 4294967294 i = true) as Hc.
  { assert (Forall (λ i, Z.testbit 65535 i = true ∧ Z.testbit 4294967294 i = true)
      (seqZ 1 15)) as Hall by by repeat constructor.
    intros i Hi. rewrite Forall_forall in Hall. apply Hall, elem_of_seqZ. lia. }
  split.
  - intros H0 i Hi. apply (f_equal (λ z, Z.testbit z i)) in H0. destruct (Hc i Hi) as [H1 H2].
    by rewrite !Z.land_spec, H1, H2, Z.testbit_0_l, !andb_true_r in H0.
  - intros Hbits. apply Z.bits_inj'. intros i Hi. rewrite !Z.land_spec, Z.testbit_0_l.
    destruct (decide (i = 0)) as [->|]; [by rewrite andb_false_r|].
    destruct (decide (i < 16)); [by rewrite Hbits by lia|].
    rewrite (Z.bits_above_log2 65535) by (simpl; lia). by rewrite andb_false_r.
Qed.

Lemma has_end_stream_bit h : has_end_stream h = Z.testbit (flags h) 0.
Proof.
  unfold has_end_stream, FLAG_END_STREAM. change 1 with (Z.ones 1).
  rewrite Z.land_ones by lia. change (2 ^ 1) with 2. rewrite Zmod_odd, <-Z.bit0_odd.
  by destruct (Z.testbit _ 0).
Qed.

Lemma validate_credit_ok h limits :
  validate_credit h limits = Ok tt ↔
  (command h = Command.Credit →
     payload_length h = 0 ∧ credit_delta h ≠ 0 ∧ credit_delta h ≤ max_window limits) ∧
  (command h ≠ Command.Credit → credit_delta h = 0).
Proof.
  unfold validate_credit. case_decide as Hc.
  - split.
    + intros Hv. result_inv. split; [intros _; lia|done].
    + intros [H _]. destruct (H Hc) as (Hp & Hd & Hw). rewrite Hp. simpl.
      rewrite (proj2 (Z.eqb_neq _ _) Hd). simpl. apply reject_if_ok. lia.
  - rewrite reject_if_ok. split; [intros; split; [done|lia]|]. intros [_ H].
    rewrite H by done. done.
Qed.

Lemma validate_ok_iff h limits : validate h limits = Ok tt ↔ header_valid h limits.
Proof.
  unfold validate. split.
  - intros Hv.
    apply result_bind_ok in Hv as ([] & Hmaj%reject_if_ok & Hv).
    apply result_bind_ok in Hv as ([] & Hpay%reject_if_ok & Hv).
    apply result_bind_ok in Hv as ([] & Hres%reject_if_ok & Hv).
    apply result_bind_ok in Hv as ([] & Hunk%reject_if_ok & Hv).
    apply result_bind_ok in Hv as ([] & Hend%reject_if_ok & Hv).
    apply result_bind_ok in Hv as ([] & [Hc1 Hc2]%validate_credit_ok & Hs%reject_if_ok).
    apply negb_false_iff in Hs.
    assert (unknown_critical h = 0) as Hbits by lia.
    rewrite unknown_critical_zero in Hbits. rewrite has_end_stream_bit in Hend.
    split; try (done || lia).
    + intros i Hi Hbit. destruct (decide (i = 0)) as [->|]; [|by rewrite Hbits in Hbit by lia].
      rewrite Hbit in Hend. split; [done|].
      by apply negb_false_iff, bool_decide_eq_true in Hend.
    + unfold stream_is_valid in Hs.
      destruct (decide (stream_id h = 0)) as [H0|H0];
        [rewrite (proj2 (Z.eqb_eq _ _) H0) in Hs
        |rewrite (proj2 (Z.eqb_neq _ _) H0) in Hs]; by rewrite Hs.
  - intros [Hmaj Hpay Hres Hflags Hc Hnc Hs].
    rewrite Hmaj, Hres. simpl.
    rewrite (proj2 (Z.ltb_ge _ _)) by done. simpl.
    rewrite (proj2 (unknown_critical_zero h)); cycle 1.
    { intros i Hi. destruct (Z.testbit (flags h) i) eqn:Hb; [|done].
      apply Hflags in Hb; lia. }
    simpl. rewrite has_end_stream_bit.
    assert (Z.testbit (flags h) 0 && negb (bool_decide (command h = Command.Data)) = false) as ->.
    { destruct (Z.testbit _ 0) eqn:Hb; [|done].
      apply Hflags in Hb as [_ Hb]; [|lia]. by rewrite bool_decide_true. }
    simpl. rewrite (proj2 (validate_credit_ok h limits)) by done. simpl.
    apply reject_if_ok, negb_false_iff. unfold stream_is_valid.
    destruct (decide (stream_id h = 0)) as [H0|H0];
      [rewrite (proj2 (Z.eqb_eq _ _) H0)|rewrite (proj2 (Z.eqb_neq _ _) H0)];
      by apply Is_true_true.
Qed.

(** [Header::validate] accepts exactly the valid headers. *)
Theorem validate_spec h limits : validate h limits = Ok tt ↔ header_valid h limits.
Proof. apply validate_ok_iff. Qed.

(** ** Frames *)

Lemma u32_try_from_Some n m : u32_try_from n = Some m ↔ m = n ∧ n ≤ u32_max.
Proof. unfold u32_try_from. case_match; naive_solver lia. Qed.

(** The values a [Frame] can hold in Rust. *)
Definition frame_ok (f : Frame) : Prop := header_ok (header f).

Lemma frame_encode_inv f limits bs :
  frame_encode f limits = Ok bs →
  len (payload f) = payload_length (header f) ∧
  ∃ h, header_encode (header f) limits = Ok h ∧ bs = h ++ payload f.
Proof.
  unfold frame_encode. intros Henc.
  apply result_bind_ok in Henc as (n & Hn%ok_or_ok & Henc).
  apply u32_try_from_Some in Hn as [-> _].
  apply result_bind_ok in Henc as ([] & Hl%reject_if_ok & Henc).
  apply result_bind_ok in Henc as (h & Hh & [= <-]). split; [lia|eauto].
Qed.

(** A frame survives encoding and decoding: the decoder returns exactly the
    frame that was encoded. *)
Theorem frame_roundtrip f limits bs :
  frame_ok f → frame_encode f limits = Ok bs → frame_decode bs limits = Ok f.
Proof.
  intros Hok (Hlen & h & Henc & ->)%frame_encode_inv.
  unfold frame_decode. rewrite (header_decode_encode _ _ _ _ Hok Henc). simpl.
  apply header_encode_inv in Henc as (_ & _ & Hh).
  rewrite len_app, Hlen. unfold len at 1. rewrite Hh, Z.eqb_refl. simpl.
  rewrite drop_app_length' by done. by destruct f.
Qed.

(** A byte string decodes to a frame only if it is that frame's encoding,
    to the last byte: nothing may follow the declared payload. *)
Theorem frame_canonical bs limits f :
  frame_decode bs limits = Ok f → frame_encode f limits = Ok bs.
Proof.
  intros Hdec. unfold frame_decode in Hdec.
  apply result_bind_ok in Hdec as (h & Hh & Hdec).
  apply result_bind_ok in Hdec as ([] & Hl%reject_if_ok & [= <-]).
  pose proof (header_decode_inv _ _ _ Hh) as (Hge & _).
  pose proof (ok_payload_length _ (header_decode_ok _ _ _ Hh)) as [_ Hu32].
  assert (len (drop HEADER_LEN bs) = payload_length h) as Hp.
  { unfold len in *. rewrite length_drop. lia. }
  unfold frame_encode. cbn [header payload]. rewrite Hp.
  rewrite (proj2 (u32_try_from_Some _ _) (conj eq_refl Hu32)).
  cbn [result_bind ok_or]. rewrite Z.eqb_refl. cbn [result_bind reject_if negb].
  rewrite (header_encode_decode _ _ _ Hh). simpl. by rewrite take_drop.
Qed.

(** A truncated or extended frame is refused: dropping payload bytes or
    appending any makes the exact-length check fail, with the two lengths
    reported. *)
Theorem frame_decode_exact_length f limits bs rest n :
  frame_ok f → frame_encode f limits = Ok bs → (n < length (payload f))%nat →
  rest ≠ [] →
  frame_decode (bs ++ rest) limits
    = Err (WireError.FrameLengthMismatch (len bs) (len bs + len rest)) ∧
  frame_decode (take (HEADER_LEN + n) bs) limits
    = Err (WireError.FrameLengthMismatch (len bs) (Z.of_nat HEADER_LEN + Z.of_nat n)).
Proof.
  intros Hok (Hlen & h & Henc & ->)%frame_encode_inv Hn Hrest.
  pose proof (header_encode_inv _ _ _ Henc) as (_ & _ & Hh).
  assert (0 < len rest) by (destruct rest; [done|unfold len; simpl; lia]).
  assert (Z.of_nat HEADER_LEN + payload_length (header f) = len (h ++ payload f)) as Hexp.
  { rewrite len_app. unfold len at 1. rewrite Hh. lia. }
  unfold frame_decode. split.
  - rewrite <-app_assoc, (header_decode_encode _ _ _ _ Hok Henc). simpl.
    rewrite Hexp, app_assoc, len_app.
    rewrite (proj2 (Z.eqb_neq _ _)) by lia. done.
  - rewrite take_app_ge by (rewrite Hh; lia). rewrite Hh.
    replace (HEADER_LEN + n - HEADER_LEN)%nat with n by lia.
    rewrite (header_decode_encode _ _ _ _ Hok Henc). simpl. rewrite Hexp.
    assert (len (h ++ take n (payload f)) = Z.of_nat HEADER_LEN + Z.of_nat n) as ->.
    { rewrite len_app. unfold len. rewrite Hh, length_take. lia. }
    rewrite (proj2 (Z.eqb_neq _ _)); [done|].
    rewrite <-Hexp, <-Hlen. unfold len. lia.
Qed.

(** ** Concrete runs *)

(** The CRC-32C check value of the ISCSI catalogue, as tested in tests.rs. *)
Example crc32c_check_value :
  crc32c [x31; x32; x33; x34; x35; x36; x37; x38; x39] = 0xe3069283.
Proof. vm_compute. reflexivity. Qed.

Definition sample_header : Header :=
  {| major := 1; minor := 0; command := Command.Data;
     flags := Z.lor FLAG_END_STREAM FLAG_URGENT; stream_id := 7; sequence := 258;
     payload_length := 3; credit_delta := 0; reserved := 0 |}.
Definition sample_frame : Frame := {| header := sample_header; payload := [x61; x62; x63] |}.
Definition sample_header_bytes : bytes := Eval vm_compute in
  match header_encode sample_header default_limits with Ok bs => bs | Err _ => [] end.
Definition sample_frame_bytes : bytes := Eval vm_compute in
  match frame_encode sample_frame default_limits with Ok bs => bs | Err _ => [] end.

Lemma sample_header_ok : header_ok sample_header.
Proof. split; apply (bool_decide_unpack _); by vm_compute. Qed.

Lemma header_roundtrip_witness :
  header_decode (sample_header_bytes ++ [x00; xff]) default_limits = Ok sample_header.
Proof.
  apply (header_roundtrip sample_header default_limits sample_header_bytes [x00; xff]).
  - exact sample_header_ok.
  - vm_compute. reflexivity.
Defined.

Lemma header_canonical_witness :
  header_encode sample_header default_limits = Ok (take HEADER_LEN sample_header_bytes).
Proof.
  apply (header_canonical sample_header_bytes default_limits sample_header).
  vm_compute. reflexivity.
Defined.

Lemma header_one_byte_corruption_detected_witness :
  ∃ e, header_decode ((take 20 sample_header_bytes ++ x03 :: drop 21 sample_header_bytes) ++ [])
         default_limits = Err e.
Proof.
  apply (header_one_byte_corruption_detected sample_header default_limits
    (take 20 sample_header_bytes) x02 x03 (drop 21 sample_header_bytes) []).
  - exact sample_header_ok.
  - vm_compute. reflexivity.
  - discriminate.
Defined.

Lemma frame_roundtrip_witness :
  frame_decode sample_frame_bytes default_limits = Ok sample_frame.
Proof.
  apply (frame_roundtrip sample_frame default_limits sample_frame_bytes).
  - exact sample_header_ok.
  - vm_compute. reflexivity.
Defined.

Lemma frame_canonical_witness :
  frame_encode sample_frame default_limits = Ok sample_frame_bytes.
Proof.
  apply (frame_canonical sample_frame_bytes default_limits sample_frame).
  vm_compute. reflexivity.
Defined.

Lemma frame_decode_exact_length_witness :
  frame_decode (sample_frame_bytes ++ [x00]) default_limits
    = Err (WireError.FrameLengthMismatch 43 44) ∧
  frame_decode (take (HEADER_LEN + 2) sample_frame_bytes) default_limits
    = Err (WireError.FrameLengthMismatch 43 42).
Proof.
  apply (frame_decode_exact_length sample_frame default_limits sample_frame_bytes [x00] 2).
  - exact sample_header_ok.
  - vm_compute. reflexivity.
  - simpl. lia.
  - discriminate.
Defined.
