(* ===== verification/WireState.v ===== *)
(** * KBP connection state: src/crates/kindlebridge-wire/src/state.rs

    [SessionState] validates every frame an endpoint sends or receives: the
    HELLO exchange, per-stream sequence numbers, stream parity and life cycle,
    and credit-based flow control at stream and at connection level. *)

From S2P Require Import Prelude WireFrame.

(** ** Enumerations *)

Module EndpointRole.

Inductive EndpointRole : Type := Host | Device.

End EndpointRole.
Abbreviation EndpointRole := EndpointRole.EndpointRole.

Definition local_streams_are_odd (r : EndpointRole) : bool :=
  match r with
  | EndpointRole.Host => true
  | EndpointRole.Device => false
  end.

Module Direction.

Inductive Direction : Type := Inbound | Outbound.

End Direction.
Abbreviation Direction := Direction.Direction.

#[export] Instance Direction_eq_dec : EqDecision Direction.
Proof. solve_decision. Defined.

Definition sender_is_local (d : Direction) : bool :=
  match d with
  | Direction.Outbound => true
  | Direction.Inbound => false
  end.

Module SessionPhase.

Inductive SessionPhase : Type := HelloExchange | Online | GoingAway | Closed.

End SessionPhase.
Abbreviation SessionPhase := SessionPhase.SessionPhase.

#[export] Instance SessionPhase_eq_dec : EqDecision SessionPhase.
Proof. solve_decision. Defined.

(** [SessionPhase::name]. *)
Definition phase_name (p : SessionPhase) : string :=
  match p with
  | SessionPhase.HelloExchange => "HELLO_EXCHANGE"
  | SessionPhase.Online => "ONLINE"
  | SessionPhase.GoingAway => "GOAWAY"
  | SessionPhase.Closed => "CLOSED"
  end.

Module StreamPhase.

Inductive StreamPhase : Type := Opening | Accepted | Rejected | Closed | Reset.

End StreamPhase.
Abbreviation StreamPhase := StreamPhase.StreamPhase.

#[export] Instance StreamPhase_eq_dec : EqDecision StreamPhase.
Proof. solve_decision. Defined.

(** ** Errors *)

Module ProtocolError.

Inductive ProtocolError : Type :=
| Wire (error : WireError)
| UnexpectedCommand (phase : string) (command : Command) (stream_id : Z)
| Sequence (stream_id expected actual : Z)
| SequenceExhausted (stream_id : Z)
| WrongStreamParity (stream_id : Z) (expected_odd : bool)
| StreamAlreadyUsed (stream_id : Z)
| UnknownStream (stream_id : Z)
| StreamNotOpening (stream_id : Z)
| StreamNotAccepted (stream_id : Z)
| WrongOpeningResponder (stream_id : Z)
| CloseByInitiator (stream_id : Z)
| DataAfterEnd (stream_id : Z)
| SendCreditExceeded (stream_id needed available : Z)
| ReceiveCreditExceeded (stream_id needed available : Z)
| ConnectionSendCreditExceeded (needed available : Z)
| ConnectionReceiveCreditExceeded (needed available : Z)
| CreditOverflow (stream_id current delta maximum : Z)
| MissingConnectionWindow
| MissingStreamWindow (stream_id : Z)
| UnexpectedConnectionWindow (command : Command)
| UnexpectedStreamWindow (command : Command)
| InvalidWindow (window maximum : Z)
| PairingFinishOnRegularSession
| DuplicateHello
| DuplicatePairingFinish
| StreamIdExhausted.

End ProtocolError.
Abbreviation ProtocolError := ProtocolError.ProtocolError.

(** ** Data *)

Record FrameContext : Type := {
  initial_connection_window : option Z;
  initial_stream_window : option Z;
}.

(** [FrameContext::default], [FrameContext::hello] and [FrameContext::accept]. *)
Definition context_default : FrameContext :=
  {| initial_connection_window := None; initial_stream_window := None |}.
Definition context_hello (window : Z) : FrameContext :=
  {| initial_connection_window := Some window; initial_stream_window := None |}.
Definition context_accept (window : Z) : FrameContext :=
  {| initial_connection_window := None; initial_stream_window := Some window |}.

Record SessionConfig : Type := {
  role : EndpointRole;
  pairing_session : bool;
  limits : DecodeLimits;
}.

Definition session_config_new (r : EndpointRole) (l : DecodeLimits) : SessionConfig :=
  {| role := r; pairing_session := false; limits := l |}.
Definition session_config_pairing (enabled : bool) (c : SessionConfig) : SessionConfig :=
  {| role := role c; pairing_session := enabled; limits := limits c |}.

Module StreamState.

Record StreamState : Type := {
  phase : StreamPhase;
  initiated_by_local : bool;
  local_end_stream : bool;
  peer_end_stream : bool;
  send_credit : Z;
  send_limit : Z;
  receive_credit : Z;
  receive_limit : Z;
}.

(** [StreamState::opening]. *)
Definition opening (initiated_by_local : bool) : StreamState :=
  {| phase := StreamPhase.Opening;
     initiated_by_local := initiated_by_local;
     local_end_stream := false;
     peer_end_stream := false;
     send_credit := 0;
     send_limit := 0;
     receive_credit := 0;
     receive_limit := 0 |}.

(** Field updates. *)
Definition set_phase (p : StreamPhase) (s : StreamState) : StreamState :=
  {| phase := p; initiated_by_local := initiated_by_local s;
     local_end_stream := local_end_stream s; peer_end_stream := peer_end_stream s;
     send_credit := send_credit s; send_limit := send_limit s;
     receive_credit := receive_credit s; receive_limit := receive_limit s |}.
Definition set_ends (l p : bool) (s : StreamState) : StreamState :=
  {| phase := phase s; initiated_by_local := initiated_by_local s;
     local_end_stream := l; peer_end_stream := p;
     send_credit := send_credit s; send_limit := send_limit s;
     receive_credit := receive_credit s; receive_limit := receive_limit s |}.
Definition set_send_credit (c : Z) (s : StreamState) : StreamState :=
  {| phase := phase s; initiated_by_local := initiated_by_local s;
     local_end_stream := local_end_stream s; peer_end_stream := peer_end_stream s;
     send_credit := c; send_limit := send_limit s;
     receive_credit := receive_credit s; receive_limit := receive_limit s |}.
Definition set_receive_credit (c : Z) (s : StreamState) : StreamState :=
  {| phase := phase s; initiated_by_local := initiated_by_local s;
     local_end_stream := local_end_stream s; peer_end_stream := peer_end_stream s;
     send_credit := send_credit s; send_limit := send_limit s;
     receive_credit := c; receive_limit := receive_limit s |}.
Definition set_limits (l : Z) (s : StreamState) : StreamState :=
  {| phase := phase s; initiated_by_local := initiated_by_local s;
     local_end_stream := local_end_stream s; peer_end_stream := peer_end_stream s;
     send_credit := send_credit s; send_limit := l;
     receive_credit := receive_credit s; receive_limit := l |}.

End StreamState.
Abbreviation StreamState := StreamState.StreamState.

Record SessionState : Type := {
  config : SessionConfig;
  phase : SessionPhase;
  local_hello : bool;
  peer_hello : bool;
  local_pairing_finish : bool;
  peer_pairing_finish : bool;
  next_local_stream_id : option Z;
  inbound_sequences : gmap Z Z;
  outbound_sequences : gmap Z Z;
  streams : gmap Z StreamState;
  connection_send_credit : Z;
  connection_send_limit : Z;
  connection_receive_credit : Z;
  connection_receive_limit : Z;
}.

(** [SessionState::new]. *)
Definition session_new (c : SessionConfig) : SessionState :=
  {| config := c;
     phase := SessionPhase.HelloExchange;
     local_hello := false;
     peer_hello := false;
     local_pairing_finish := false;
     peer_pairing_finish := false;
     next_local_stream_id := Some (if local_streams_are_odd (role c) then 1 else 2);
     inbound_sequences := ∅;
     outbound_sequences := ∅;
     streams := ∅;
     connection_send_credit := 0;
     connection_send_limit := 0;
     connection_receive_credit := 0;
     connection_receive_limit := 0 |}.

(** The snapshots of [SessionState::snapshot] and [SessionState::stream] are
    the fields themselves. *)
Definition stream (s : SessionState) (id : Z) : option StreamState := streams s !! id.

(** Field updates. *)
Definition set_phase (p : SessionPhase) (s : SessionState) : SessionState :=
  {| config := config s; phase := p; local_hello := local_hello s;
     peer_hello := peer_hello s; local_pairing_finish := local_pairing_finish s;
     peer_pairing_finish := peer_pairing_finish s;
     next_local_stream_id := next_local_stream_id s;
     inbound_sequences := inbound_sequences s; outbound_sequences := outbound_sequences s;
     streams := streams s; connection_send_credit := connection_send_credit s;
     connection_send_limit := connection_send_limit s;
     connection_receive_credit := connection_receive_credit s;
     connection_receive_limit := connection_receive_limit s |}.
Definition set_local_hello (w : Z) (s : SessionState) : SessionState :=
  {| config := config s; phase := phase s; local_hello := true;
     peer_hello := peer_hello s; local_pairing_finish := local_pairing_finish s;
     peer_pairing_finish := peer_pairing_finish s;
     next_local_stream_id := next_local_stream_id s;
     inbound_sequences := inbound_sequences s; outbound_sequences := outbound_sequences s;
     streams := streams s; connection_send_credit := connection_send_credit s;
     connection_send_limit := connection_send_limit s;
     connection_receive_credit := w; connection_receive_limit := w |}.
Definition set_peer_hello (w : Z) (s : SessionState) : SessionState :=
  {| config := config s; phase := phase s; local_hello := local_hello s;
     peer_hello := true; local_pairing_finish := local_pairing_finish s;
     peer_pairing_finish := peer_pairing_finish s;
     next_local_stream_id := next_local_stream_id s;
     inbound_sequences := inbound_sequences s; outbound_sequences := outbound_sequences s;
     streams := streams s; connection_send_credit := w; connection_send_limit := w;
     connection_receive_credit := connection_receive_credit s;
     connection_receive_limit := connection_receive_limit s |}.
Definition set_pairing_finish (d : Direction) (s : SessionState) : SessionState :=
  {| config := config s; phase := phase s; local_hello := local_hello s;
     peer_hello := peer_hello s;
     local_pairing_finish := sender_is_local d || local_pairing_finish s;
     peer_pairing_finish := negb (sender_is_local d) || peer_pairing_finish s;
     next_local_stream_id := next_local_stream_id s;
     inbound_sequences := inbound_sequences s; outbound_sequences := outbound_sequences s;
     streams := streams s; connection_send_credit := connection_send_credit s;
     connection_send_limit := connection_send_limit s;
     connection_receive_credit := connection_receive_credit s;
     connection_receive_limit := connection_receive_limit s |}.
Definition set_next_local_stream_id (n : option Z) (s : SessionState) : SessionState :=
  {| config := config s; phase := phase s; local_hello := local_hello s;
     peer_hello := peer_hello s; local_pairing_finish := local_pairing_finish s;
     peer_pairing_finish := peer_pairing_finish s; next_local_stream_id := n;
     inbound_sequences := inbound_sequences s; outbound_sequences := outbound_sequences s;
     streams := streams s; connection_send_credit := connection_send_credit s;
     connection_send_limit := connection_send_limit s;
     connection_receive_credit := connection_receive_credit s;
     connection_receive_limit := connection_receive_limit s |}.
Definition set_sequences (d : Direction) (m : gmap Z Z) (s : SessionState) : SessionState :=
  {| config := config s; phase := phase s; local_hello := local_hello s;
     peer_hello := peer_hello s; local_pairing_finish := local_pairing_finish s;
     peer_pairing_finish := peer_pairing_finish s;
     next_local_stream_id := next_local_stream_id s;
     inbound_sequences :=
       match d with Direction.Inbound => m | Direction.Outbound => inbound_sequences s end;
     outbound_sequences :=
       match d with Direction.Inbound => outbound_sequences s | Direction.Outbound => m end;
     streams := streams s; connection_send_credit := connection_send_credit s;
     connection_send_limit := connection_send_limit s;
     connection_receive_credit := connection_receive_credit s;
     connection_receive_limit := connection_receive_limit s |}.
Definition set_streams (m : gmap Z StreamState) (s : SessionState) : SessionState :=
  {| config := config s; phase := phase s; local_hello := local_hello s;
     peer_hello := peer_hello s; local_pairing_finish := local_pairing_finish s;
     peer_pairing_finish := peer_pairing_finish s;
     next_local_stream_id := next_local_stream_id s;
     inbound_sequences := inbound_sequences s; outbound_sequences := outbound_sequences s;
     streams := m; connection_send_credit := connection_send_credit s;
     connection_send_limit := connection_send_limit s;
     connection_receive_credit := connection_receive_credit s;
     connection_receive_limit := connection_receive_limit s |}.
Definition set_connection_send_credit (c : Z) (s : SessionState) : SessionState :=
  {| config := config s; phase := phase s; local_hello := local_hello s;
     peer_hello := peer_hello s; local_pairing_finish := local_pairing_finish s;
     peer_pairing_finish := peer_pairing_finish s;
     next_local_stream_id := next_local_stream_id s;
     inbound_sequences := inbound_sequences s; outbound_sequences := outbound_sequences s;
     streams := streams s; connection_send_credit := c;
     connection_send_limit := connection_send_limit s;
     connection_receive_credit := connection_receive_credit s;
     connection_receive_limit := connection_receive_limit s |}.
Definition set_connection_receive_credit (c : Z) (s : SessionState) : SessionState :=
  {| config := config s; phase := phase s; local_hello := local_hello s;
     peer_hello := peer_hello s; local_pairing_finish := local_pairing_finish s;
     peer_pairing_finish := peer_pairing_finish s;
     next_local_stream_id := next_local_stream_id s;
     inbound_sequences := inbound_sequences s; outbound_sequences := outbound_sequences s;
     streams := streams s; connection_send_credit := connection_send_credit s;
     connection_send_limit := connection_send_limit s;
     connection_receive_credit := c;
     connection_receive_limit := connection_receive_limit s |}.

Definition put_stream (id : Z) (st : StreamState) (s : SessionState) : SessionState :=
  set_streams (<[id := st]> (streams s)) s.

(** ** Operations *)

(** A method of [SessionState] taking [&mut self]. *)
Abbreviation session_op A := (M SessionState ProtocolError A).

(** [allocate_stream_id]. *)
Definition allocate_stream_id : session_op Z :=
  let! self := mget in
  let! id := mlift (ok_or (next_local_stream_id self) ProtocolError.StreamIdExhausted) in
  do! mmodify (set_next_local_stream_id (checked_add u32_max id 2)) in
  mret id.

Definition unexpected (self : SessionState) (h : Header) : ProtocolError :=
  ProtocolError.UnexpectedCommand (phase_name (phase self)) (command h) (stream_id h).

Definition require_online_or_going (self : SessionState) (h : Header)
    : result ProtocolError unit :=
  match phase self with
  | SessionPhase.Online | SessionPhase.GoingAway => Ok tt
  | _ => Err (unexpected self h)
  end.

Definition validate_window (self : SessionState) (window : Z) : result ProtocolError unit :=
  reject_if ((window =? 0) || (max_window (limits (config self)) <? window))
    (ProtocolError.InvalidWindow window (max_window (limits (config self)))).

Definition validate_context (self : SessionState) (h : Header) (context : FrameContext)
    : result ProtocolError unit :=
  match command h with
  | Command.Hello =>
      check? reject_if (bool_decide (is_Some (initial_stream_window context)))
               (ProtocolError.UnexpectedStreamWindow (command h)) in
      let? window := ok_or (initial_connection_window context)
                       ProtocolError.MissingConnectionWindow in
      validate_window self window
  | Command.Accept =>
      check? reject_if (bool_decide (is_Some (initial_connection_window context)))
               (ProtocolError.UnexpectedConnectionWindow (command h)) in
      let? window := ok_or (initial_stream_window context)
                       (ProtocolError.MissingStreamWindow (stream_id h)) in
      validate_window self window
  | c =>
      check? reject_if (bool_decide (is_Some (initial_connection_window context)))
               (ProtocolError.UnexpectedConnectionWindow c) in
      reject_if (bool_decide (is_Some (initial_stream_window context)))
        (ProtocolError.UnexpectedStreamWindow c)
  end.

Definition sequences_of (self : SessionState) (d : Direction) : gmap Z Z :=
  match d with
  | Direction.Inbound => inbound_sequences self
  | Direction.Outbound => outbound_sequences self
  end.

(** The sequence number the next frame of a stream must carry. *)
Definition expected_sequence (self : SessionState) (d : Direction) (id : Z) : Z :=
  default 0 (sequences_of self d !! id).

Definition validate_sequence (self : SessionState) (d : Direction) (h : Header)
    : result ProtocolError unit :=
  let expected := expected_sequence self d (stream_id h) in
  check? reject_if (negb (sequence h =? expected))
           (ProtocolError.Sequence (stream_id h) expected (sequence h)) in
  reject_if ((sequence h =? u32_max) && negb (bool_decide (command h = Command.Reset)))
    (ProtocolError.SequenceExhausted (stream_id h)).

Definition advance_sequence (d : Direction) (h : Header) : session_op unit :=
  mmodify (λ self,
    if sequence h =? u32_max then self
    else set_sequences d (<[stream_id h := sequence h + 1]> (sequences_of self d)) self).

Definition checked_credit (stream_id current delta maximum : Z) : result ProtocolError Z :=
  match checked_add u32_max current delta with
  | Some value =>
      if value <=? maximum then Ok value
      else Err (ProtocolError.CreditOverflow stream_id current delta maximum)
  | None => Err (ProtocolError.CreditOverflow stream_id current delta maximum)
  end.

Definition apply_hello (d : Direction) (context : FrameContext) : session_op unit :=
  let! self := mget in
  do! mlift (reject_if (negb (bool_decide (phase self = SessionPhase.HelloExchange)))
               ProtocolError.DuplicateHello) in
  let! window := mlift (ok_or (initial_connection_window context)
                          ProtocolError.MissingConnectionWindow) in
  do! match d with
      | Direction.Outbound =>
          do! mlift (reject_if (local_hello self) ProtocolError.DuplicateHello) in
          mmodify (set_local_hello window)
      | Direction.Inbound =>
          do! mlift (reject_if (peer_hello self) ProtocolError.DuplicateHello) in
          mmodify (set_peer_hello window)
      end in
  mmodify (λ self,
    if local_hello self && peer_hello self then set_phase SessionPhase.Online self else self).

Definition apply_pairing_finish (d : Direction) : session_op unit :=
  let! self := mget in
  do! mlift (reject_if (negb (pairing_session (config self)))
               ProtocolError.PairingFinishOnRegularSession) in
  do! mlift (reject_if (negb (bool_decide (phase self = SessionPhase.HelloExchange)))
               ProtocolError.DuplicatePairingFinish) in
  let seen := match d with
              | Direction.Outbound => local_pairing_finish self
              | Direction.Inbound => peer_pairing_finish self
              end in
  do! mlift (reject_if seen ProtocolError.DuplicatePairingFinish) in
  mmodify (set_pairing_finish d).

Definition apply_control (d : Direction) (h : Header) (context : FrameContext)
    : session_op unit :=
  let! self := mget in
  match command h with
  | Command.Hello => apply_hello d context
  | Command.PairingFinish => apply_pairing_finish d
  | Command.Credit =>
      do! mlift (require_online_or_going self h) in
      match d with
      | Direction.Inbound =>
          let! c := mlift (checked_credit 0 (connection_send_credit self)
                             (credit_delta h) (connection_send_limit self)) in
          mmodify (set_connection_send_credit c)
      | Direction.Outbound =>
          let! c := mlift (checked_credit 0 (connection_receive_credit self)
                             (credit_delta h) (connection_receive_limit self)) in
          mmodify (set_connection_receive_credit c)
      end
  | Command.Ping | Command.Pong => mlift (require_online_or_going self h)
  | Command.GoAway =>
      do! mlift (require_online_or_going self h) in
      mmodify (set_phase SessionPhase.GoingAway)
  | Command.Error => mmodify (set_phase SessionPhase.Closed)
  | _ => mlift (Err (unexpected self h))
  end.

(** [header.stream_id % 2 == 1]. *)
Definition is_odd (id : Z) : bool := id mod 2 =? 1.

(** The parity of the stream IDs the sender of a frame may open. *)
Definition expected_odd (self : SessionState) (d : Direction) : bool :=
  match d with
  | Direction.Outbound => local_streams_are_odd (role (config self))
  | Direction.Inbound => negb (local_streams_are_odd (role (config self)))
  end.

Definition apply_open (d : Direction) (h : Header) : session_op unit :=
  let! self := mget in
  do! mlift (reject_if (negb (bool_decide (phase self = SessionPhase.Online)))
               (unexpected self h)) in
  do! mlift (reject_if (negb (eqb (is_odd (stream_id h)) (expected_odd self d)))
               (ProtocolError.WrongStreamParity (stream_id h) (expected_odd self d))) in
  do! mlift (reject_if (bool_decide (is_Some (streams self !! stream_id h)))
               (ProtocolError.StreamAlreadyUsed (stream_id h))) in
  do! mmodify (put_stream (stream_id h) (StreamState.opening (sender_is_local d))) in
  mmodify (λ self,
    match d, next_local_stream_id self with
    | Direction.Outbound, Some next =>
        if next <=? stream_id h
        then set_next_local_stream_id (checked_add u32_max (stream_id h) 2) self
        else self
    | _, _ => self
    end).

(** The methods below start with [self.streams.get_mut(..).expect(..)] on the
    stream whose existence [apply_stream] has just checked; they take that
    stream as the argument [st]. *)
Definition apply_open_response (st : StreamState) (d : Direction) (h : Header)
    (context : FrameContext) : session_op unit :=
  let responder_is_local := negb (StreamState.initiated_by_local st) in
  do! mlift (reject_if (negb (eqb (sender_is_local d) responder_is_local))
               (ProtocolError.WrongOpeningResponder (stream_id h))) in
  if decide (command h = Command.Reject) then
    mmodify (put_stream (stream_id h) (StreamState.set_phase StreamPhase.Rejected st))
  else
    let! window := mlift (ok_or (initial_stream_window context)
                            (ProtocolError.MissingStreamWindow (stream_id h))) in
    let st := StreamState.set_limits window (StreamState.set_phase StreamPhase.Accepted st) in
    mmodify (put_stream (stream_id h)
      match d with
      | Direction.Inbound => StreamState.set_send_credit window st
      | Direction.Outbound => StreamState.set_receive_credit window st
      end).

Definition apply_data (st : StreamState) (d : Direction) (h : Header) : session_op unit :=
  let! self := mget in
  let length := payload_length h in
  match d with
  | Direction.Outbound =>
      do! mlift (reject_if (StreamState.local_end_stream st)
                   (ProtocolError.DataAfterEnd (stream_id h))) in
      do! mlift (reject_if (StreamState.send_credit st <? length)
                   (ProtocolError.SendCreditExceeded (stream_id h) length
                      (StreamState.send_credit st))) in
      do! mlift (reject_if (connection_send_credit self <? length)
                   (ProtocolError.ConnectionSendCreditExceeded length
                      (connection_send_credit self))) in
      do! mmodify (put_stream (stream_id h)
            (StreamState.set_ends (has_end_stream h || StreamState.local_end_stream st)
               (StreamState.peer_end_stream st)
               (StreamState.set_send_credit (StreamState.send_credit st - length) st))) in
      mmodify (set_connection_send_credit (connection_send_credit self - length))
  | Direction.Inbound =>
      do! mlift (reject_if (StreamState.peer_end_stream st)
                   (ProtocolError.DataAfterEnd (stream_id h))) in
      do! mlift (reject_if (StreamState.receive_credit st <? length)
                   (ProtocolError.ReceiveCreditExceeded (stream_id h) length
                      (StreamState.receive_credit st))) in
      do! mlift (reject_if (connection_receive_credit self <? length)
                   (ProtocolError.ConnectionReceiveCreditExceeded length
                      (connection_receive_credit self))) in
      do! mmodify (put_stream (stream_id h)
            (StreamState.set_ends (StreamState.local_end_stream st)
               (has_end_stream h || StreamState.peer_end_stream st)
               (StreamState.set_receive_credit (StreamState.receive_credit st - length) st))) in
      mmodify (set_connection_receive_credit (connection_receive_credit self - length))
  end.

Definition apply_discarded_inbound_data (st : StreamState) (h : Header) : session_op unit :=
  let! self := mget in
  let length := payload_length h in
  do! mlift (reject_if (StreamState.receive_credit st <? length)
               (ProtocolError.ReceiveCreditExceeded (stream_id h) length
                  (StreamState.receive_credit st))) in
  do! mlift (reject_if (connection_receive_credit self <? length)
               (ProtocolError.ConnectionReceiveCreditExceeded length
                  (connection_receive_credit self))) in
  do! mmodify (put_stream (stream_id h)
        (StreamState.set_receive_credit (StreamState.receive_credit st - length) st)) in
  mmodify (set_connection_receive_credit (connection_receive_credit self - length)).

Definition apply_stream_credit (st : StreamState) (d : Direction) (h : Header)
    : session_op unit :=
  match d with
  | Direction.Inbound =>
      let! c := mlift (checked_credit (stream_id h) (StreamState.send_credit st)
                         (credit_delta h) (StreamState.send_limit st)) in
      mmodify (put_stream (stream_id h) (StreamState.set_send_credit c st))
  | Direction.Outbound =>
      let! c := mlift (checked_credit (stream_id h) (StreamState.receive_credit st)
                         (credit_delta h) (StreamState.receive_limit st)) in
      mmodify (put_stream (stream_id h) (StreamState.set_receive_credit c st))
  end.

Definition apply_close (st : StreamState) (d : Direction) (id : Z) : session_op unit :=
  let responder_is_local := negb (StreamState.initiated_by_local st) in
  do! mlift (reject_if (negb (eqb (sender_is_local d) responder_is_local))
               (ProtocolError.CloseByInitiator id)) in
  mmodify (put_stream id
    (StreamState.set_phase StreamPhase.Closed (StreamState.set_ends true true st))).

(** [matches!(phase, StreamPhase::Closed | StreamPhase::Reset)]. *)
Definition is_terminal (p : StreamPhase) : bool :=
  match p with
  | StreamPhase.Closed | StreamPhase.Reset => true
  | _ => false
  end.

(** The arm of [apply_stream] for DATA, CREDIT, CLOSE and RESET on a stream
    that must be accepted. *)
Definition apply_accepted (st : StreamState) (d : Direction) (h : Header) : session_op unit :=
  do! mlift (reject_if (negb (bool_decide (StreamState.phase st = StreamPhase.Accepted)))
               (ProtocolError.StreamNotAccepted (stream_id h))) in
  match command h with
  | Command.Data => apply_data st d h
  | Command.Credit => apply_stream_credit st d h
  | Command.Close => apply_close st d (stream_id h)
  | _ => mmodify (put_stream (stream_id h) (StreamState.set_phase StreamPhase.Reset st))
  end.

Definition apply_stream (d : Direction) (h : Header) (context : FrameContext)
    : session_op unit :=
  let! self := mget in
  let! st := mlift (ok_or (streams self !! stream_id h)
                      (ProtocolError.UnknownStream (stream_id h))) in
  let terminal := is_terminal (StreamState.phase st) in
  match command h with
  | Command.Accept | Command.Reject =>
      do! mlift (reject_if (negb (bool_decide (StreamState.phase st = StreamPhase.Opening)))
                   (ProtocolError.StreamNotOpening (stream_id h))) in
      apply_open_response st d h context
  | Command.Credit => if terminal then mret tt else apply_accepted st d h
  | Command.Reset => if terminal then mret tt else apply_accepted st d h
  | Command.Data =>
      if bool_decide (d = Direction.Inbound) && terminal
      then apply_discarded_inbound_data st h
      else apply_accepted st d h
  | Command.Close => apply_accepted st d h
  | _ => mlift (Err (unexpected self h))
  end.

(** [process]; [process_inbound] and [process_outbound] fix the direction. *)
Definition process (d : Direction) (h : Header) (context : FrameContext) : session_op unit :=
  let! self := mget in
  do! mlift (map_err ProtocolError.Wire (validate h (limits (config self)))) in
  do! mlift (validate_context self h context) in
  do! mlift (reject_if (bool_decide (phase self = SessionPhase.Closed)) (unexpected self h)) in
  do! mlift (validate_sequence self d h) in
  do! (if stream_id h =? 0 then apply_control d h context
       else if decide (command h = Command.Open) then apply_open d h
       else apply_stream d h context) in
  advance_sequence d h.

Definition process_inbound (h : Header) (context : FrameContext) : session_op unit :=
  process Direction.Inbound h context.
Definition process_outbound (h : Header) (context : FrameContext) : session_op unit :=
  process Direction.Outbound h context.

(** ** A refused frame changes nothing *)

Section atomicity.
Lemma apply_hello_atomic d ctx : atomic (apply_hello d ctx).
Proof. unfold apply_hello. solve_atomic. Qed.
Lemma apply_pairing_finish_atomic d : atomic (apply_pairing_finish d).
Proof. unfold apply_pairing_finish. solve_atomic. Qed.
Lemma apply_control_atomic d h ctx : atomic (apply_control d h ctx).
Proof.
  unfold apply_control. apply atomic_bind; [apply read_only_get|intros self].
  destruct (command h); auto using apply_hello_atomic, apply_pairing_finish_atomic;
    solve_atomic.
Qed.
Lemma apply_open_atomic d h : atomic (apply_open d h).
Proof. unfold apply_open. solve_atomic. Qed.
Lemma apply_open_response_atomic st d h ctx : atomic (apply_open_response st d h ctx).
Proof. unfold apply_open_response. solve_atomic. Qed.
Lemma apply_accepted_atomic st d h : atomic (apply_accepted st d h).
Proof.
  unfold apply_accepted, apply_data, apply_stream_credit, apply_close. solve_atomic.
Qed.
Lemma apply_stream_atomic d h ctx : atomic (apply_stream d h ctx).
Proof.
  unfold apply_stream. apply atomic_bind; [apply read_only_get|intros self].
  apply atomic_bind; [apply read_only_lift|intros st]. cbv zeta.
  destruct (command h); try (case_match; auto using apply_accepted_atomic);
    auto using apply_accepted_atomic; unfold apply_discarded_inbound_data; solve_atomic;
    apply apply_open_response_atomic.
Qed.
End atomicity.

Lemma process_atomic d h ctx : atomic (process d h ctx).
Proof.
  unfold process.
  apply atomic_bind; [apply read_only_get|intros self].
  do 4 (apply atomic_bind; [apply read_only_lift|intros _]).
  apply atomic_then; [|intros _; apply infallible_modify].
  destruct (_ =? 0); [apply apply_control_atomic|].
  case_decide; [apply apply_open_atomic|apply apply_stream_atomic].
Qed.

(** A frame that the session refuses, for whatever reason and in either
    direction, leaves the session exactly as it was: sequence counters, credit,
    phases and the stream table do not move. *)
Theorem process_error_leaves_state s d h ctx s' e :
  process d h ctx s = (s', Err e) → s' = s.
Proof. apply process_atomic. Qed.

(** ** The protocol as a transition relation

    One rule per kind of accepted frame; [effect d h ctx s s'] is what an
    accepted frame does to the session, apart from its sequence number. *)

Definition online_or_going (s : SessionState) : Prop :=
  phase s = SessionPhase.Online ∨ phase s = SessionPhase.GoingAway.

Definition go_online (s : SessionState) : SessionState :=
  if local_hello s && peer_hello s then set_phase SessionPhase.Online s else s.

Definition claim_local_id (d : Direction) (id : Z) (s : SessionState) : SessionState :=
  match d, next_local_stream_id s with
  | Direction.Outbound, Some next =>
      if next <=? id then set_next_local_stream_id (checked_add u32_max id 2) s else s
  | _, _ => s
  end.

(** The credit of a stream, and of the connection, that frames sent in
    direction [d] spend. *)
Definition stream_credit (d : Direction) (st : StreamState) : Z :=
  match d with
  | Direction.Outbound => StreamState.send_credit st
  | Direction.Inbound => StreamState.receive_credit st
  end.
Definition stream_limit (d : Direction) (st : StreamState) : Z :=
  match d with
  | Direction.Outbound => StreamState.send_limit st
  | Direction.Inbound => StreamState.receive_limit st
  end.
Definition set_stream_credit (d : Direction) (c : Z) (st : StreamState) : StreamState :=
  match d with
  | Direction.Outbound => StreamState.set_send_credit c st
  | Direction.Inbound => StreamState.set_receive_credit c st
  end.
Definition connection_credit (d : Direction) (s : SessionState) : Z :=
  match d with
  | Direction.Outbound => connection_send_credit s
  | Direction.Inbound => connection_receive_credit s
  end.
Definition connection_limit (d : Direction) (s : SessionState) : Z :=
  match d with
  | Direction.Outbound => connection_send_limit s
  | Direction.Inbound => connection_receive_limit s
  end.
Definition set_connection_credit (d : Direction) (c : Z) (s : SessionState) : SessionState :=
  match d with
  | Direction.Outbound => set_connection_send_credit c s
  | Direction.Inbound => set_connection_receive_credit c s
  end.
Definition sender_ended (d : Direction) (st : StreamState) : bool :=
  match d with
  | Direction.Outbound => StreamState.local_end_stream st
  | Direction.Inbound => StreamState.peer_end_stream st
  end.
Definition end_sender (d : Direction) (e : bool) (st : StreamState) : StreamState :=
  match d with
  | Direction.Outbound =>
      StreamState.set_ends (e || StreamState.local_end_stream st)
        (StreamState.peer_end_stream st) st
  | Direction.Inbound =>
      StreamState.set_ends (StreamState.local_end_stream st)
        (e || StreamState.peer_end_stream st) st
  end.
Definition opposite (d : Direction) : Direction :=
  match d with
  | Direction.Outbound => Direction.Inbound
  | Direction.Inbound => Direction.Outbound
  end.
Definition hello_seen (d : Direction) (s : SessionState) : bool :=
  match d with
  | Direction.Outbound => local_hello s
  | Direction.Inbound => peer_hello s
  end.
Definition pairing_seen (d : Direction) (s : SessionState) : bool :=
  match d with
  | Direction.Outbound => local_pairing_finish s
  | Direction.Inbound => peer_pairing_finish s
  end.
Definition set_hello (d : Direction) (w : Z) (s : SessionState) : SessionState :=
  match d with
  | Direction.Outbound => set_local_hello w s
  | Direction.Inbound => set_peer_hello w s
  end.

Inductive effect (d : Direction) (h : Header) (ctx : FrameContext) (s : SessionState)
    : SessionState → Prop :=
| effect_hello w :
    command h = Command.Hello → phase s = SessionPhase.HelloExchange →
    initial_connection_window ctx = Some w → hello_seen d s = false →
    effect d h ctx s (go_online (set_hello d w s))
| effect_pairing :
    command h = Command.PairingFinish → phase s = SessionPhase.HelloExchange →
    pairing_session (config s) = true → pairing_seen d s = false →
    effect d h ctx s (set_pairing_finish d s)
| effect_connection_credit :
    command h = Command.Credit → stream_id h = 0 → online_or_going s →
    connection_credit (opposite d) s + credit_delta h ≤ connection_limit (opposite d) s →
    connection_credit (opposite d) s + credit_delta h ≤ u32_max →
    effect d h ctx s
      (set_connection_credit (opposite d)
         (connection_credit (opposite d) s + credit_delta h) s)
| effect_ping :
    command h = Command.Ping ∨ command h = Command.Pong → online_or_going s →
    effect d h ctx s s
| effect_goaway :
    command h = Command.GoAway → online_or_going s →
    effect d h ctx s (set_phase SessionPhase.GoingAway s)
| effect_error :
    command h = Command.Error → effect d h ctx s (set_phase SessionPhase.Closed s)
| effect_open :
    command h = Command.Open → stream_id h ≠ 0 → phase s = SessionPhase.Online →
    is_odd (stream_id h) = expected_odd s d → streams s !! stream_id h = None →
    effect d h ctx s
      (claim_local_id d (stream_id h)
         (put_stream (stream_id h) (StreamState.opening (sender_is_local d)) s))
| effect_reject st :
    command h = Command.Reject → stream_id h ≠ 0 → streams s !! stream_id h = Some st →
    StreamState.phase st = StreamPhase.Opening →
    sender_is_local d = negb (StreamState.initiated_by_local st) →
    effect d h ctx s
      (put_stream (stream_id h) (StreamState.set_phase StreamPhase.Rejected st) s)
| effect_accept st w :
    command h = Command.Accept → stream_id h ≠ 0 → streams s !! stream_id h = Some st →
    StreamState.phase st = StreamPhase.Opening →
    sender_is_local d = negb (StreamState.initiated_by_local st) →
    initial_stream_window ctx = Some w →
    effect d h ctx s
      (put_stream (stream_id h)
         (set_stream_credit (opposite d) w
            (StreamState.set_limits w (StreamState.set_phase StreamPhase.Accepted st))) s)
| effect_late st :
    command h = Command.Credit ∨ command h = Command.Reset → stream_id h ≠ 0 →
    streams s !! stream_id h = Some st → is_terminal (StreamState.phase st) = true →
    effect d h ctx s s
| effect_discard st :
    command h = Command.Data → stream_id h ≠ 0 → d = Direction.Inbound →
    streams s !! stream_id h = Some st → is_terminal (StreamState.phase st) = true →
    payload_length h ≤ stream_credit d st → payload_length h ≤ connection_credit d s →
    effect d h ctx s
      (set_connection_credit d (connection_credit d s - payload_length h)
         (put_stream (stream_id h)
            (set_stream_credit d (stream_credit d st - payload_length h) st) s))
| effect_data st :
    command h = Command.Data → stream_id h ≠ 0 →
    streams s !! stream_id h = Some st → StreamState.phase st = StreamPhase.Accepted →
    sender_ended d st = false →
    payload_length h ≤ stream_credit d st → payload_length h ≤ connection_credit d s →
    effect d h ctx s
      (set_connection_credit d (connection_credit d s - payload_length h)
         (put_stream (stream_id h)
            (end_sender d (has_end_stream h)
               (set_stream_credit d (stream_credit d st - payload_length h) st)) s))
| effect_stream_credit st :
    command h = Command.Credit → stream_id h ≠ 0 →
    streams s !! stream_id h = Some st → StreamState.phase st = StreamPhase.Accepted →
    stream_credit (opposite d) st + credit_delta h ≤ stream_limit (opposite d) st →
    stream_credit (opposite d) st + credit_delta h ≤ u32_max →
    effect d h ctx s
      (put_stream (stream_id h)
         (set_stream_credit (opposite d)
            (stream_credit (opposite d) st + credit_delta h) st) s)
| effect_close st :
    command h = Command.Close → stream_id h ≠ 0 →
    streams s !! stream_id h = Some st → StreamState.phase st = StreamPhase.Accepted →
    sender_is_local d = negb (StreamState.initiated_by_local st) →
    effect d h ctx s
      (put_stream (stream_id h)
         (StreamState.set_phase StreamPhase.Closed (StreamState.set_ends true true st)) s)
| effect_reset st :
    command h = Command.Reset → stream_id h ≠ 0 →
    streams s !! stream_id h = Some st → StreamState.phase st = StreamPhase.Accepted →
    effect d h ctx s
      (put_stream (stream_id h) (StreamState.set_phase StreamPhase.Reset st) s).

(** The sequence bookkeeping around it. *)
Definition sequenced (d : Direction) (h : Header) (s : SessionState) : Prop :=
  sequence h = expected_sequence s d (stream_id h) ∧
  (sequence h = u32_max → command h = Command.Reset).

Definition advance (d : Direction) (h : Header) (s : SessionState) : SessionState :=
  if sequence h =? u32_max then s
  else set_sequences d (<[stream_id h := sequence h + 1]> (sequences_of s d)) s.

(** A frame the session accepts, and what it does. *)
Inductive step (d : Direction) (h : Header) (ctx : FrameContext) (s : SessionState)
    : SessionState → Prop :=
| step_frame s1 :
    validate h (limits (config s)) = Ok tt → validate_context s h ctx = Ok tt →
    phase s ≠ SessionPhase.Closed → sequenced d h s → effect d h ctx s s1 →
    step d h ctx s (advance d h s1).

Lemma checked_credit_ok id c delta m v :
  checked_credit id c delta m = Ok v ↔ v = c + delta ∧ c + delta ≤ m ∧ c + delta ≤ u32_max.
Proof.
  unfold checked_credit, checked_add.
  destruct (c + delta <=? u32_max) eqn:H1; [destruct (c + delta <=? m) eqn:H2|];
    (split; [intros [=]; lia|intros (-> & ? & ?)]); (done || lia).
Qed.

Lemma require_online_ok s h : require_online_or_going s h = Ok tt ↔ online_or_going s.
Proof. unfold require_online_or_going, online_or_going. destruct (phase s); naive_solver. Qed.

(** Where a valid header sends its frame. *)
Lemma valid_control h l :
  validate h l = Ok tt → stream_id h = 0 → allows_stream_zero (command h) = true.
Proof. intros [_ _ _ _ _ _ H]%validate_ok_iff H0. rewrite decide_True in H by done. by apply Is_true_true. Qed.
Lemma valid_nonzero h l :
  validate h l = Ok tt → stream_id h ≠ 0 → allows_nonzero_stream (command h) = true.
Proof. intros [_ _ _ _ _ _ H]%validate_ok_iff H0. rewrite decide_False in H by done. by apply Is_true_true. Qed.

Lemma apply_control_effect d h ctx s s1 :
  stream_id h = 0 → apply_control d h ctx s = (s1, Ok tt) → effect d h ctx s s1.
Proof.
  intros H0 Hrun. unfold apply_control in Hrun. run_inv.
  destruct (command h) eqn:Hc; run_inv;
    try match goal with H : require_online_or_going _ _ = Ok _ |- _ =>
      apply require_online_ok in H end.
  - unfold apply_hello in *. run_inv. destruct d; run_inv; by apply effect_hello.
  - unfold apply_pairing_finish in *. run_inv. by apply effect_pairing; destruct d.
  - destruct d; run_inv;
      match goal with H : checked_credit _ _ _ _ = Ok _ |- _ =>
        apply checked_credit_ok in H as (-> & ? & ?) end; first [by apply (effect_connection_credit Direction.Inbound)
            |by apply (effect_connection_credit Direction.Outbound)].
  - apply effect_ping; auto.
  - apply effect_ping; auto.
  - apply effect_goaway; auto.
  - apply effect_error; auto.
Qed.

Lemma apply_open_effect d h ctx s s1 :
  stream_id h ≠ 0 → command h = Command.Open →
  apply_open d h s = (s1, Ok tt) → effect d h ctx s s1.
Proof.
  intros H0 Hc Hrun. unfold apply_open in Hrun. run_inv.
  apply effect_open; try done.
  - by apply eqb_prop.
  - by apply eq_None_not_Some.
Qed.

(** Applies the rule [R] of [effect] to the stream [st]. *)
Ltac stream_rule R st :=
  match goal with |- effect ?d ?h ?c ?s _ => apply (R d h c s st) end.

Lemma apply_stream_effect d h ctx s s1 :
  stream_id h ≠ 0 → apply_stream d h ctx s = (s1, Ok tt) → effect d h ctx s s1.
Proof.
  intros H0 Hrun. unfold apply_stream in Hrun. run_inv.
  match goal with H : streams _ !! _ = Some ?x |- _ => rename x into st; rename H into Hst end.
  destruct (command h) eqn:Hc; run_inv.
  - (* ACCEPT *) unfold apply_open_response in *. rewrite Hc in *. run_inv.
    rewrite decide_False in * by done. run_inv.
    destruct d; by stream_rule effect_accept st; try apply eqb_prop.
  - (* REJECT *) unfold apply_open_response in *. rewrite Hc in *. run_inv.
    rewrite decide_True in * by done. run_inv.
    by stream_rule effect_reject st; try apply eqb_prop.
  - (* DATA *) destruct (bool_decide (d = Direction.Inbound) && _) eqn:Hd.
    + apply andb_prop in Hd as [Hd%bool_decide_eq_true Ht]. subst d.
      unfold apply_discarded_inbound_data in *. run_inv.
      stream_rule effect_discard st; (done || simpl; lia).
    + unfold apply_accepted in *. rewrite Hc in *. run_inv.
      unfold apply_data in *. run_inv.
      destruct d; run_inv; stream_rule effect_data st; (done || simpl; lia).
  - (* CREDIT *) destruct (is_terminal _) eqn:Ht; run_inv; [by eapply effect_late; eauto|].
    unfold apply_accepted in *. rewrite Hc in *. run_inv. unfold apply_stream_credit in *.
    destruct d; run_inv;
      match goal with H : checked_credit _ _ _ _ = Ok _ |- _ =>
        apply checked_credit_ok in H as (-> & ? & ?) end;
      by stream_rule effect_stream_credit st.
  - (* CLOSE *) unfold apply_accepted in *. rewrite Hc in *. run_inv.
    unfold apply_close in *. run_inv. by stream_rule effect_close st; try apply eqb_prop.
  - (* RESET *) destruct (is_terminal _) eqn:Ht; run_inv; [by eapply effect_late; eauto|].
    unfold apply_accepted in *. rewrite Hc in *. run_inv.
    by stream_rule effect_reset st.
Qed.

(** ** Executable checks and transition relation agree *)

Lemma mbnd_lift_ok {S E A B} (r : result E A) (k : A → M S E B) s a :
  r = Ok a → mbnd (mlift r) k s = k a s.
Proof. intros ->. done. Qed.
Lemma mbnd_get {S E B} (k : S → M S E B) s : mbnd mget k s = k s s.
Proof. done. Qed.

(** Runs the checks of a method whose outcome the context determines. *)
Ltac run_checks :=
  repeat first
    [ rewrite mbnd_get
    | erewrite mbnd_lift_ok;
      [|first [ reflexivity | apply reject_if_ok; first [assumption|lia]
              | apply ok_or_ok; eassumption
              | apply checked_credit_ok; split_and!; [reflexivity|assumption|assumption]
              | apply require_online_ok; assumption ]] ].

Lemma apply_control_complete d h ctx s s1 :
  allows_stream_zero (command h) = true → stream_id h = 0 →
  effect d h ctx s s1 → apply_control d h ctx s = (s1, Ok tt).
Proof.
  intros Hz H0 Heff. unfold apply_control. rewrite mbnd_get.
  destruct Heff; try done;
    try (match goal with H : command h = _ |- _ => rewrite H in Hz |- * end); try done.
  - unfold apply_hello. rewrite mbnd_get. rewrite bool_decide_true by done.
    match goal with H : initial_connection_window _ = _ |- _ => rewrite H end.
    destruct d; simpl in *;
      match goal with H : _ = false |- _ => by rewrite H end.
  - unfold apply_pairing_finish. rewrite mbnd_get. rewrite bool_decide_true by done.
    match goal with H : pairing_session _ = _ |- _ => rewrite H end.
    destruct d; simpl in *; run_checks; done.
  - run_checks. destruct d; simpl in *; by run_checks.
  - destruct H as [H|H]; rewrite H; by apply (f_equal (pair s)), require_online_ok.
  - by run_checks.
Qed.

Lemma apply_open_complete d h ctx s s1 :
  command h = Command.Open → effect d h ctx s s1 → apply_open d h s = (s1, Ok tt).
Proof.
  intros Hc Heff. destruct Heff; try congruence; try (destruct H; congruence).
  unfold apply_open. rewrite mbnd_get. rewrite bool_decide_true by done.
  match goal with H : is_odd _ = _ |- _ => rewrite H end. rewrite eqb_reflx.
  match goal with H : streams _ !! _ = None |- _ => rewrite H end.
  rewrite bool_decide_false by (by intros [??]). done.
Qed.

Lemma apply_stream_complete d h ctx s s1 :
  stream_id h ≠ 0 → command h ≠ Command.Open → allows_nonzero_stream (command h) = true →
  effect d h ctx s s1 → apply_stream d h ctx s = (s1, Ok tt).
Proof.
  intros H0 Hopen Hnz Heff. unfold apply_stream. rewrite mbnd_get.
  destruct Heff; try congruence;
    try (match goal with H : command h = _ |- _ => rewrite H in Hnz end; done);
    try (match goal with H : _ ∨ _ |- _ => destruct H as [H|H]; rewrite H in Hnz; done end);
    match goal with H : streams _ !! _ = Some _ |- _ => rewrite H end;
    erewrite mbnd_lift_ok by reflexivity; cbv zeta.
  - match goal with H : command h = _ |- _ => rewrite H end.
    match goal with H : StreamState.phase _ = _ |- _ => rewrite H end.
    unfold apply_open_response. rewrite H, decide_True by done.
    match goal with H : sender_is_local _ = _ |- _ => rewrite H end. by rewrite eqb_reflx.
  - match goal with H : command h = _ |- _ => rewrite H end.
    match goal with H : StreamState.phase _ = _ |- _ => rewrite H end.
    unfold apply_open_response. rewrite H, decide_False by done.
    match goal with H : sender_is_local _ = _ |- _ => rewrite H end. rewrite eqb_reflx.
    match goal with H : initial_stream_window _ = _ |- _ => rewrite H end. by destruct d.
  - match goal with H : is_terminal _ = _ |- _ => rewrite H end.
    by destruct H as [->| ->].
  - subst d. match goal with H : is_terminal _ = _ |- _ => rewrite H end.
    match goal with H : command h = _ |- _ => rewrite H end. simpl in *.
    unfold apply_discarded_inbound_data. by run_checks.
  - match goal with H : command h = _ |- _ => rewrite H end.
    match goal with H : StreamState.phase _ = _ |- _ => rewrite H; rename H into Hp end.
    rewrite andb_false_r. unfold apply_accepted. rewrite Hp, H. simpl.
    unfold apply_data. destruct d; simpl in *; by run_checks.
  - match goal with H : command h = _ |- _ => rewrite H end.
    match goal with H : StreamState.phase _ = _ |- _ => rewrite H; rename H into Hp end.
    unfold apply_accepted. rewrite Hp, H. simpl. unfold apply_stream_credit.
    destruct d; simpl in *; by run_checks.
  - match goal with H : command h = _ |- _ => rewrite H end.
    match goal with H : StreamState.phase _ = _ |- _ => rename H into Hp end.
    unfold apply_accepted. rewrite Hp, H. simpl. unfold apply_close.
    match goal with H : sender_is_local _ = _ |- _ => rewrite H end. by rewrite eqb_reflx.
  - match goal with H : command h = _ |- _ => rewrite H end.
    match goal with H : StreamState.phase _ = _ |- _ => rewrite H; rename H into Hp end.
    unfold apply_accepted. by rewrite Hp, H.
Qed.

Lemma validate_sequence_ok s d h :
  validate_sequence s d h = Ok tt ↔ sequenced d h s.
Proof.
  unfold validate_sequence, sequenced. split.
  - intros Hv. apply result_bind_ok in Hv as ([] & Hs%reject_if_ok & Hm%reject_if_ok).
    split; [lia|]. intros Hmax. rewrite Hmax, Z.eqb_refl in Hm. simpl in Hm.
    by apply negb_false_iff, bool_decide_eq_true in Hm.
  - intros [Hs Hm]. rewrite <-Hs, Z.eqb_refl. simpl. apply reject_if_ok.
    destruct (sequence h =? u32_max) eqn:Heq; [|done].
    by rewrite bool_decide_true by (apply Hm; lia).
Qed.

Lemma sequence_control d h ctx s s1 :
  validate h (limits (config s)) = Ok tt →
  (if stream_id h =? 0 then apply_control d h ctx
   else if decide (command h = Command.Open) then apply_open d h
   else apply_stream d h ctx) s = (s1, Ok tt) ↔ effect d h ctx s s1.
Proof.
  intros Hv. destruct (stream_id h =? 0) eqn:H0.
  - apply Z.eqb_eq in H0. split; [by apply apply_control_effect|].
    apply apply_control_complete; [by eapply valid_control|done].
  - apply Z.eqb_neq in H0. case_decide as Hc.
    + split; [by apply apply_open_effect|by apply apply_open_complete].
    + split; [by apply apply_stream_effect|].
      apply apply_stream_complete; [done..|by eapply valid_nonzero].
Qed.

Lemma process_step d h ctx s s' :
  process d h ctx s = (s', Ok tt) ↔ step d h ctx s s'.
Proof.
  unfold process. split.
  - intros Hrun. rewrite mbnd_get in Hrun.
    apply mbnd_ok in Hrun as (? & [] & [= <- Hv%map_err_ok] & Hrun).
    apply mbnd_ok in Hrun as (? & [] & [= <- Hctx] & Hrun).
    apply mbnd_ok in Hrun as (? & [] & [= <- Hp%reject_if_ok] & Hrun).
    apply mbnd_ok in Hrun as (? & [] & [= <- Hseq%validate_sequence_ok] & Hrun).
    apply mbnd_ok in Hrun as (s1 & [] & Heff%sequence_control & [= <-]); [|done].
    apply bool_decide_eq_false in Hp. by apply step_frame.
  - intros [s1 Hv Hctx Hp Hseq%validate_sequence_ok Heff].
    rewrite mbnd_get. erewrite mbnd_lift_ok by (by apply map_err_ok).
    rewrite (mbnd_lift_ok _ _ _ tt) by done.
    rewrite (mbnd_lift_ok _ _ _ tt) by (by apply reject_if_ok, bool_decide_eq_false).
    rewrite (mbnd_lift_ok _ _ _ tt) by done.
    apply (sequence_control _ _ _ _ _ Hv) in Heff. unfold mbnd. by rewrite Heff.
Qed.

(** C1: The executable validator and the transition relation of the protocol
    agree: [process] accepts a frame and leaves [s'] exactly when [step] has a
    rule for it leading to [s'].  The checks, their order and the early returns
    of the code implement the protocol, no frame more and no frame less. *)
Theorem process_refines_step d h ctx s s' :
  process d h ctx s = (s', Ok tt) ↔ step d h ctx s s'.
Proof. apply process_step. Qed.

(** ** Frame conditions *)

(** Fields an accepted frame cannot touch. *)
Lemma effect_frame d h ctx s s1 :
  effect d h ctx s s1 →
  config s1 = config s ∧ inbound_sequences s1 = inbound_sequences s ∧
  outbound_sequences s1 = outbound_sequences s.
Proof.
  destruct 1; try done; destruct d; try done; unfold go_online, claim_local_id;
    repeat case_match; done.
Qed.

Lemma step_config d h ctx s s' : step d h ctx s s' → config s' = config s.
Proof.
  intros [s1 _ _ _ _ (Hc & _)%effect_frame]. rewrite <-Hc.
  unfold advance. by case_match.
Qed.

Lemma process_expected_sequence d h ctx s s' :
  process d h ctx s = (s', Ok tt) →
  sequence h = expected_sequence s d (stream_id h) ∧
  (sequence h = u32_max → command h = Command.Reset) ∧
  expected_sequence s' d (stream_id h)
    = (if decide (sequence h = u32_max) then u32_max else sequence h + 1) ∧
  (∀ id, id ≠ stream_id h → expected_sequence s' d id = expected_sequence s d id) ∧
  (∀ id, expected_sequence s' (opposite d) id = expected_sequence s (opposite d) id).
Proof.
  intros [s1 _ _ _ [Hseq Hmax] (_ & Hin & Hout)%effect_frame]%process_step.
  assert (∀ d' id, expected_sequence s1 d' id = expected_sequence s d' id) as Hs1.
  { intros d' id. unfold expected_sequence. destruct d'; simpl; by rewrite ?Hin, ?Hout. }
  split_and!; [done..| | |].
  - unfold advance. case_decide as Hd.
    + rewrite Hd, Z.eqb_refl, Hs1. congruence.
    + rewrite (proj2 (Z.eqb_neq _ _)) by done.
      unfold expected_sequence. destruct d; simpl; by rewrite lookup_insert_eq.
  - intros id Hid. unfold advance. case_match; [by rewrite Hs1|].
    rewrite <-Hs1. unfold expected_sequence.
    destruct d; simpl; by rewrite lookup_insert_ne.
  - intros id. unfold advance. case_match; [by rewrite Hs1|].
    rewrite <-Hs1. by destruct d.
Qed.

(** Sequence discipline.  An accepted frame carries exactly the number the
    session expected for its stream and direction; afterwards the session
    expects the next one (at [u32::MAX], which only RESET may use, the counter
    stays); no other stream's counter and no counter of the other direction
    moves. *)
Theorem process_sequence d h ctx s s' :
  process d h ctx s = (s', Ok tt) →
  sequence h = expected_sequence s d (stream_id h) ∧
  (sequence h = u32_max → command h = Command.Reset) ∧
  expected_sequence s' d (stream_id h)
    = (if decide (sequence h = u32_max) then u32_max else sequence h + 1) ∧
  (∀ id, id ≠ stream_id h → expected_sequence s' d id = expected_sequence s d id) ∧
  (∀ id, expected_sequence s' (opposite d) id = expected_sequence s (opposite d) id).
Proof. apply process_expected_sequence. Qed.

(** ** The session invariant *)

(** [0 <= credit <= limit <= max_window]. *)
Definition window_ok (c : SessionConfig) (credit limit : Z) : Prop :=
  0 ≤ credit ≤ limit ∧ limit ≤ max_window (limits c).

Record stream_wf (c : SessionConfig) (id : Z) (st : StreamState) : Prop := {
  stream_id_range : 0 < id ≤ u32_max;
  (** Odd IDs belong to the host, even IDs to the device. *)
  stream_parity : is_odd id =
    eqb (StreamState.initiated_by_local st) (local_streams_are_odd (role c));
  stream_send_window : window_ok c (StreamState.send_credit st) (StreamState.send_limit st);
  stream_receive_window :
    window_ok c (StreamState.receive_credit st) (StreamState.receive_limit st);
  (** Nothing is granted before ACCEPT. *)
  stream_ungranted :
    StreamState.phase st = StreamPhase.Opening ∨ StreamState.phase st = StreamPhase.Rejected →
    StreamState.send_limit st = 0 ∧ StreamState.receive_limit st = 0;
}.

Record session_wf (s : SessionState) : Prop := {
  wf_max_window : u32 (max_window (limits (config s)));
  wf_send : window_ok (config s) (connection_send_credit s) (connection_send_limit s);
  wf_receive :
    window_ok (config s) (connection_receive_credit s) (connection_receive_limit s);
  wf_hello_phase : phase s = SessionPhase.HelloExchange →
    local_hello s && peer_hello s = false ∧ streams s = ∅;
  wf_online_phase : online_or_going s → local_hello s = true ∧ peer_hello s = true;
  wf_streams : map_Forall (stream_wf (config s)) (streams s);
  (** The allocator never hands out an ID at or below one already opened here. *)
  wf_next : ∀ n, next_local_stream_id s = Some n →
    0 < n ≤ u32_max ∧ is_odd n = local_streams_are_odd (role (config s)) ∧
    ∀ id st, streams s !! id = Some st → StreamState.initiated_by_local st = true → id < n;
  wf_sequences : ∀ d id n, sequences_of s d !! id = Some n → 1 ≤ n ≤ u32_max;
}.

(** Metadata decoded from a payload: both windows are [u32] in Rust. *)
Record context_ok (ctx : FrameContext) : Prop := {
  context_connection : ∀ w, initial_connection_window ctx = Some w → u32 w;
  context_stream : ∀ w, initial_stream_window ctx = Some w → u32 w;
}.

Lemma session_new_wf c : u32 (max_window (limits c)) → session_wf (session_new c).
Proof.
  intros Hw. split; simpl; try done.
  - unfold window_ok. destruct Hw. lia.
  - unfold window_ok. destruct Hw. lia.
  - unfold online_or_going. simpl. naive_solver.
  - intros n [= <-]. unfold u32_max. split_and!; try by destruct (role c).
  - intros [] id n; simpl; rewrite lookup_empty; done.
Qed.

Lemma is_odd_add_2 n : is_odd (n + 2) = is_odd n.
Proof. unfold is_odd. by rewrite (Z.add_mod n 2 2), Z.mod_same, Z.add_0_r, Z.mod_mod by lia. Qed.

(** Updating one stream. *)
Lemma put_stream_wf s id st st' :
  session_wf s → streams s !! id = Some st → stream_wf (config s) id st' →
  StreamState.initiated_by_local st' = StreamState.initiated_by_local st →
  session_wf (put_stream id st' s).
Proof.
  intros [Hmax Hsend Hrecv Hhello Honl Hstr Hnext Hseq] Hid Hst' Hinit.
  split; simpl; try done.
  - intros Hp. destruct (Hhello Hp) as [_ Hempty]. rewrite Hempty in Hid. done.
  - by apply map_Forall_insert_2.
  - intros n Hn. destruct (Hnext n Hn) as (?&?&Hlt). split_and!; try lia; [done|].
    intros id' st'' [[-> ->]|[Hne Hid']]%lookup_insert_Some Hloc; [|by eauto].
    eapply Hlt; [done|congruence].
Qed.

Lemma set_connection_credit_wf d c s :
  session_wf s → 0 ≤ c ≤ connection_limit d s → session_wf (set_connection_credit d c s).
Proof.
  intros [Hmax Hsend Hrecv Hhello Honl Hstr Hnext Hseq] Hc.
  unfold window_ok in *. destruct d; simpl in *; split; simpl; try done; unfold window_ok; lia.
Qed.

Lemma connection_window_ok d s :
  session_wf s → 0 ≤ connection_credit d s ≤ connection_limit d s.
Proof. intros [? [??] [??] _ _ _ _ _]. by destruct d. Qed.

Lemma stream_window_ok d c id st :
  stream_wf c id st → window_ok c (stream_credit d st) (stream_limit d st).
Proof. intros []. by destruct d. Qed.

(** Changing the credit of an accepted stream within its limit. *)
Lemma set_stream_credit_wf d n c id st :
  stream_wf c id st → 0 ≤ n ≤ stream_limit d st → stream_wf c id (set_stream_credit d n st).
Proof.
  intros [Hid Hpar [??] [??] Hun] Hn.
  destruct d; split; simpl in *; try done; unfold window_ok; lia.
Qed.

Lemma set_phase_wf p c id st :
  stream_wf c id st → p ≠ StreamPhase.Opening → p ≠ StreamPhase.Rejected →
  stream_wf c id (StreamState.set_phase p st).
Proof. intros []. intros ??. split; simpl; try done. naive_solver. Qed.

Lemma end_sender_wf d e c id st : stream_wf c id st → stream_wf c id (end_sender d e st).
Proof. intros []. destruct d; by split. Qed.
Lemma set_ends_wf l p c id st : stream_wf c id st → stream_wf c id (StreamState.set_ends l p st).
Proof. intros []. by split. Qed.

#[local] Hint Resolve set_stream_credit_wf set_phase_wf end_sender_wf set_ends_wf : kb.

(** Opening a stream. *)
Lemma open_wf d id s :
  session_wf s → 0 < id ≤ u32_max → phase s = SessionPhase.Online →
  is_odd id = expected_odd s d → streams s !! id = None →
  session_wf (claim_local_id d id
    (put_stream id (StreamState.opening (sender_is_local d)) s)).
Proof.
  intros [Hmax Hsend Hrecv Hhello Honl Hstr Hnext Hseq] Hid Hp Hodd Hfresh.
  assert (0 ≤ max_window (limits (config s))) by (by destruct Hmax).
  assert (map_Forall (stream_wf (config s))
    (<[id := StreamState.opening (sender_is_local d)]> (streams s))) as Hstr'.
  { apply map_Forall_insert_2; [|done]. split; simpl; try done; try (unfold window_ok; lia).
    unfold expected_odd in Hodd. by destruct d, (local_streams_are_odd _). }
  assert (∀ id' st, <[id := StreamState.opening (sender_is_local d)]> (streams s) !! id' = Some st →
    StreamState.initiated_by_local st = true →
    id' = id ∧ d = Direction.Outbound ∨ streams s !! id' = Some st) as Hlook.
  { intros id' st [[-> <-]|[_ ?]]%lookup_insert_Some Hloc; [left|by right].
    split; [done|]. by destruct d. }
  unfold claim_local_id. simpl.
  destruct d; [|destruct (next_local_stream_id s) as [next|] eqn:Hn;
    [destruct (next <=? id) eqn:Hle|]]; split; simpl; try done;
    try (intros Hp'; congruence).
  - intros n Hn. destruct (Hnext n Hn) as (?&?&Hlt). split_and!; try lia; [done|].
    intros id' st Hl Hloc. destruct (Hlook _ _ Hl Hloc) as [[_ ?]|?]; [done|by eauto].
  - destruct (Hnext next eq_refl) as (?&?&Hlt).
    intros n [-> Hle']%checked_add_Some. split_and!; try lia; [by rewrite is_odd_add_2|].
    intros id' st Hl Hloc. destruct (Hlook _ _ Hl Hloc) as [[-> _]|Hin]; [lia|].
    pose proof (Hlt _ _ Hin Hloc). lia.
  - destruct (Hnext next eq_refl) as (?&?&Hlt).
    intros n Hn'. rewrite Hn in Hn'. injection Hn' as <-. split_and!; try lia; [done|].
    intros id' st Hl Hloc. destruct (Hlook _ _ Hl Hloc) as [[-> _]|Hin]; [lia|by eauto].
Qed.

Lemma context_window s h ctx w :
  context_ok ctx → validate_context s h ctx = Ok tt →
  (command h = Command.Hello ∧ initial_connection_window ctx = Some w ∨
   command h = Command.Accept ∧ initial_stream_window ctx = Some w) →
  0 < w ≤ max_window (limits (config s)).
Proof.
  intros [Hc Hs] Hv [[Hcmd Hw]|[Hcmd Hw]]; unfold validate_context in Hv; rewrite Hcmd in Hv;
    apply result_bind_ok in Hv as ([] & _ & Hv); rewrite Hw in Hv; simpl in Hv;
    unfold validate_window in Hv; apply reject_if_ok, orb_false_elim in Hv as [??];
    [destruct (Hc _ Hw)|destruct (Hs _ Hw)]; lia.
Qed.

Lemma hello_wf d w s :
  session_wf s → 0 < w ≤ max_window (limits (config s)) →
  phase s = SessionPhase.HelloExchange → session_wf (go_online (set_hello d w s)).
Proof.
  intros [Hmax Hsend Hrecv Hhello Honl Hstr Hnext Hseq] Hw Hp.
  destruct (Hhello Hp) as [Hboth Hempty]. unfold go_online.
  destruct d; simpl; repeat case_match; split; simpl; try done; unfold window_ok in *;
    try lia; try (intros [?|?]; simpl in *; congruence);
    try (intros _; split; [apply andb_true_iff in H as [??]|]; done);
    try (intros _; by apply andb_true_iff).
Qed.

Lemma effect_wf d h ctx s s1 :
  header_ok h → context_ok ctx → validate h (limits (config s)) = Ok tt →
  validate_context s h ctx = Ok tt → session_wf s → effect d h ctx s s1 → session_wf s1.
Proof.
  intros Hh Hctx Hval Hv Hwf Heff.
  pose proof (ok_stream_id _ Hh) as [Hid0 Hid1].
  pose proof (ok_payload_length _ Hh) as [Hlen _].
  pose proof (ok_credit_delta _ Hh) as [Hdelta _].
  destruct Heff; try done;
    try (match goal with H : streams s !! _ = Some ?x |- _ =>
      pose proof (wf_streams _ Hwf _ _ H) as Hst end).
  - eapply hello_wf; [done| |done]. eapply context_window; eauto.
  - destruct Hwf. destruct d; by split.
  - pose proof (connection_window_ok (opposite d) s Hwf).
    apply set_connection_credit_wf; [done|lia].
  - destruct Hwf as [? ? ? ? Honl]. split; try done. intros _. by apply Honl.
  - destruct Hwf. split; try done. intros [?|?]; done.
  - apply open_wf; (done || lia).
  - eapply put_stream_wf; try done. destruct Hst as [? ? ? ? Hun]. split; try done.
    intros _. apply Hun. by left.
  - eapply put_stream_wf; try done; [|by destruct d].
    pose proof (context_window s h ctx w Hctx Hv ltac:(by right)) as Hw.
    destruct Hst as [? ? [??] [??] Hun]. unfold window_ok in *.
    destruct (Hun ltac:(by left)) as [Hs0 Hr0].
    destruct d; split; simpl; try done; unfold window_ok; try lia; naive_solver.
  - pose proof (connection_window_ok d s Hwf). pose proof (stream_window_ok d _ _ _ Hst) as [??].
    apply set_connection_credit_wf; [|destruct d; simpl in *; lia].
    eapply put_stream_wf; eauto; [|by destruct d]. apply set_stream_credit_wf; [done|lia].
  - pose proof (connection_window_ok d s Hwf). pose proof (stream_window_ok d _ _ _ Hst) as [??].
    apply set_connection_credit_wf; [|destruct d; simpl in *; lia].
    eapply put_stream_wf; eauto; [|by destruct d].
    apply end_sender_wf, set_stream_credit_wf; [done|lia].
  - pose proof (stream_window_ok (opposite d) _ _ _ Hst) as [??].
    eapply put_stream_wf; eauto; [|by destruct d]. apply set_stream_credit_wf; [done|lia].
  - eapply put_stream_wf; eauto. auto with kb.
  - eapply put_stream_wf; eauto. auto with kb.
Qed.

Lemma advance_wf d h s :
  header_ok h → session_wf s → session_wf (advance d h s).
Proof.
  intros Hh [Hmax Hsend Hrecv Hhello Honl Hstr Hnext Hseq].
  pose proof (ok_sequence _ Hh) as [Hs0 Hs1].
  unfold advance. case_match eqn:Hm; [by split|]. split; try done.
  assert (∀ id n (m : gmap Z Z), (∀ id n, m !! id = Some n → 1 ≤ n ≤ u32_max) →
    <[stream_id h := sequence h + 1]> m !! id = Some n → 1 ≤ n ≤ u32_max) as Hins.
  { intros id n m Hold [[_ <-]|[_ ?]]%lookup_insert_Some; [lia|by eauto]. }
  intros d' id n. destruct d, d'; simpl;
    try apply (Hseq Direction.Inbound); try apply (Hseq Direction.Outbound);
    apply Hins; [apply (Hseq Direction.Inbound)|apply (Hseq Direction.Outbound)].
Qed.

Lemma step_wf d h ctx s s' :
  header_ok h → context_ok ctx → session_wf s → step d h ctx s s' → session_wf s'.
Proof.
  intros Hh Hctx Hwf [s1 Hv Hc _ _ Heff]. apply advance_wf; [done|]. by eapply effect_wf.
Qed.

(** The states a session goes through: frames of both directions, accepted or
    refused, and stream ID allocations, in any order. *)
Inductive reachable (c : SessionConfig) : SessionState → Prop :=
| reachable_new : reachable c (session_new c)
| reachable_process s d h ctx s' r :
    reachable c s → header_ok h → context_ok ctx → process d h ctx s = (s', r) →
    reachable c s'
| reachable_allocate s s' r :
    reachable c s → allocate_stream_id s = (s', r) → reachable c s'.

Lemma allocate_inv s s' r :
  allocate_stream_id s = (s', r) →
  (∃ id, r = Ok id ∧ next_local_stream_id s = Some id ∧
     s' = set_next_local_stream_id (checked_add u32_max id 2) s) ∨
  (r = Err ProtocolError.StreamIdExhausted ∧ next_local_stream_id s = None ∧ s' = s).
Proof.
  unfold allocate_stream_id. rewrite mbnd_get.
  destruct (next_local_stream_id s) as [id|]; intros [= <- <-]; [left; eauto|by right].
Qed.

Lemma allocate_wf s s' r : allocate_stream_id s = (s', r) → session_wf s → session_wf s'.
Proof.
  intros [(id & _ & Hid & ->)|(_ & _ & ->)]%allocate_inv Hwf; [|done].
  destruct Hwf as [Hmax Hsend Hrecv Hhello Honl Hstr Hnext Hseq]. split; try done. simpl.
  destruct (Hnext id Hid) as (?&?&Hlt). intros n [-> Hle]%checked_add_Some.
  split_and!; try lia; [by rewrite is_odd_add_2|].
  intros id' st Hl Hloc. pose proof (Hlt _ _ Hl Hloc). lia.
Qed.

Lemma reachable_invariant c s :
  u32 (max_window (limits c)) → reachable c s → session_wf s ∧ config s = c.
Proof.
  intros Hw Hr. induction Hr as [|s d h ctx s' r Hr [IH Hcfg] Hh Hctx Hrun|s s' r Hr [IH Hcfg] Hrun].
  - split; [by apply session_new_wf|done].
  - destruct r as [[]|e].
    + apply process_step in Hrun. split; [by eapply step_wf|].
      rewrite <-Hcfg. by eapply step_config.
    + apply process_atomic in Hrun as ->. done.
  - split; [by eapply allocate_wf|].
    by apply allocate_inv in Hrun as [(?&_&_& ->)|(_&_& ->)].
Qed.

(** C27: Every state a session can reach is well formed: credit never exceeds
    its advertised window or goes negative, at connection and at stream level;
    nothing is granted before ACCEPT; streams exist only after both HELLOs; odd
    stream IDs belong to the host and even ones to the device. *)
Theorem reachable_wf c s :
  u32 (max_window (limits c)) → reachable c s → session_wf s ∧ config s = c.
Proof. apply reachable_invariant. Qed.

(** ** Stream life cycle *)

Definition phase_of (s : SessionState) (id : Z) : option StreamPhase :=
  StreamState.phase <$> streams s !! id.

(** OPEN creates a stream, ACCEPT or REJECT answers it, CLOSE or RESET ends an
    accepted one.  There is no way back, and no way out of the table. *)
Inductive phase_step : option StreamPhase → option StreamPhase → Prop :=
| phase_same p : phase_step p p
| phase_open : phase_step None (Some StreamPhase.Opening)
| phase_accept : phase_step (Some StreamPhase.Opening) (Some StreamPhase.Accepted)
| phase_reject : phase_step (Some StreamPhase.Opening) (Some StreamPhase.Rejected)
| phase_close : phase_step (Some StreamPhase.Accepted) (Some StreamPhase.Closed)
| phase_reset : phase_step (Some StreamPhase.Accepted) (Some StreamPhase.Reset).

#[local] Hint Constructors phase_step : kb.

Lemma streams_advance d h s : streams (advance d h s) = streams s.
Proof. unfold advance. by case_match. Qed.
Lemma streams_set_connection_credit d c s : streams (set_connection_credit d c s) = streams s.
Proof. by destruct d. Qed.
Lemma streams_claim d id s : streams (claim_local_id d id s) = streams s.
Proof. unfold claim_local_id. by repeat case_match. Qed.
Lemma streams_hello d w s : streams (go_online (set_hello d w s)) = streams s.
Proof. unfold go_online. destruct d; by case_match. Qed.
Lemma streams_put id st s : streams (put_stream id st s) = <[id := st]> (streams s).
Proof. done. Qed.

Create Rewrite HintDb kb_streams.
#[local] Hint Rewrite streams_advance streams_set_connection_credit streams_claim
  streams_hello streams_put : kb_streams.

Lemma stream_updates_phase d c e st :
  StreamState.phase (set_stream_credit d c st) = StreamState.phase st ∧
  StreamState.phase (end_sender d e st) = StreamState.phase st.
Proof. by destruct d. Qed.

(** An accepted frame touches only its own stream, and moves it along the life
    cycle. *)
Lemma effect_streams d h ctx s s1 :
  effect d h ctx s s1 →
  (∀ id, id ≠ stream_id h → streams s1 !! id = streams s !! id) ∧
  phase_step (phase_of s (stream_id h)) (phase_of s1 (stream_id h)).
Proof.
  unfold phase_of. destruct 1; autorewrite with kb_streams; simpl;
    (split; [intros id Hid; by rewrite ?lookup_insert_ne by done|]);
    try (by auto with kb);
    rewrite lookup_insert_eq; simpl;
    match goal with H : streams _ !! _ = _ |- _ => rewrite H end; simpl;
    rewrite ?(proj1 (stream_updates_phase _ _ true _)), ?(proj2 (stream_updates_phase _ 0 _ _)),
      ?(proj1 (stream_updates_phase _ _ true _));
    try match goal with H : StreamState.phase _ = _ |- _ => rewrite H end; auto with kb.
Qed.

Lemma step_streams d h ctx s s' :
  step d h ctx s s' →
  (∀ id, id ≠ stream_id h → streams s' !! id = streams s !! id) ∧
  phase_step (phase_of s (stream_id h)) (phase_of s' (stream_id h)).
Proof.
  intros [s1 _ _ _ _ Heff%effect_streams]. unfold phase_of in *.
  by rewrite !streams_advance.
Qed.

(** Stream life cycle.  An accepted frame changes no stream but its own, and
    moves that one along OPEN, then ACCEPT or REJECT, then CLOSE or RESET; a
    stream never leaves the table, so an ID is never used twice. *)
Theorem process_stream_lifecycle d h ctx s s' :
  process d h ctx s = (s', Ok tt) →
  (∀ id, id ≠ stream_id h → streams s' !! id = streams s !! id) ∧
  phase_step (phase_of s (stream_id h)) (phase_of s' (stream_id h)).
Proof. intros Hstep%process_step. by eapply step_streams. Qed.

(** A freshly allocated stream ID has never been used on this connection,
    by either endpoint, and has the parity of the local role; opening it is
    accepted while the session is online. *)
Theorem allocated_stream_id_is_fresh c s s' id :
  u32 (max_window (limits c)) → reachable c s → allocate_stream_id s = (s', Ok id) →
  streams s' !! id = None ∧ 0 < id ≤ u32_max ∧
  is_odd id = local_streams_are_odd (role c) ∧
  (phase s = SessionPhase.Online →
   ∃ s'', apply_open Direction.Outbound (header_new Command.Open id 0) s' = (s'', Ok tt)).
Proof.
  intros Hw Hr Hrun.
  assert (session_wf s ∧ config s = c) as [Hwf Hcfg].
  { by apply reachable_invariant. }
  apply allocate_inv in Hrun as [(? & [= <-] & Hn & ->)|(? & _)]; [|done].
  destruct (wf_next _ Hwf _ Hn) as (Hrange & Hodd & Hlt). simpl.
  assert (streams s !! id = None) as Hfresh.
  { destruct (streams s !! id) as [st|] eqn:Hid; [exfalso|done].
    pose proof (stream_parity _ _ _ (wf_streams _ Hwf _ _ Hid)) as Hpar.
    rewrite Hodd in Hpar. destruct (StreamState.initiated_by_local st) eqn:Hloc.
    - pose proof (Hlt _ _ Hid Hloc). lia.
    - by destruct (local_streams_are_odd _). }
  rewrite Hcfg in Hodd. split_and!; try done; try lia.
  intros Hon. eexists. eapply (apply_open_complete _ _ context_default); [done|].
  apply effect_open; simpl; try done; [lia|]. by rewrite Hodd, Hcfg.
Qed.

(** ** Flow control *)

(** A frame with its direction and decoded metadata. *)
Record traffic : Type := {
  t_dir : Direction;
  t_header : Header;
  t_context : FrameContext;
}.
Definition traffic_ok (t : traffic) : Prop := header_ok (t_header t) ∧ context_ok (t_context t).

(** Consecutive accepted frames. *)
Inductive run : list traffic → SessionState → SessionState → Prop :=
| run_nil s : run [] s s
| run_cons t l s s1 s' :
    process (t_dir t) (t_header t) (t_context t) s = (s1, Ok tt) → run l s1 s' →
    run (t :: l) s s'.

(** Payload bytes sent in direction [d], on the connection or on stream [id],
    and credit granted to that direction by its receiver. *)
Definition spent (d : Direction) (t : traffic) : Z :=
  if decide (t_dir t = d ∧ command (t_header t) = Command.Data)
  then payload_length (t_header t) else 0.
Definition granted (d : Direction) (id : Z) (t : traffic) : Z :=
  if decide (t_dir t = opposite d ∧ command (t_header t) = Command.Credit ∧
             stream_id (t_header t) = id)
  then credit_delta (t_header t) else 0.
Definition spent_on (d : Direction) (id : Z) (t : traffic) : Z :=
  if decide (stream_id (t_header t) = id) then spent d t else 0.
Definition total (f : traffic → Z) (l : list traffic) : Z := foldr (λ t n, f t + n) 0 l.

Lemma direction_cases (d d' : Direction) : d' = d ∨ d' = opposite d.
Proof. destruct d, d'; auto. Qed.
Lemma opposite_opposite d : opposite (opposite d) = d.
Proof. by destruct d. Qed.
Lemma opposite_ne d : opposite d ≠ d.
Proof. by destruct d. Qed.

(** Reading one direction's credit after an update of another. *)
Lemma connection_credit_set d d' c s :
  connection_credit d (set_connection_credit d' c s)
    = if decide (d' = d) then c else connection_credit d s.
Proof. by destruct d, d'. Qed.
Lemma connection_limit_set d d' c s :
  connection_limit d (set_connection_credit d' c s) = connection_limit d s.
Proof. by destruct d, d'. Qed.
Lemma stream_credit_set d d' c st :
  stream_credit d (set_stream_credit d' c st) = if decide (d' = d) then c else stream_credit d st.
Proof. by destruct d, d'. Qed.
Lemma stream_credit_end d d' e st : stream_credit d (end_sender d' e st) = stream_credit d st.
Proof. by destruct d, d'. Qed.
Lemma connection_credit_advance d d' h s :
  connection_credit d (advance d' h s) = connection_credit d s ∧
  connection_limit d (advance d' h s) = connection_limit d s ∧
  phase (advance d' h s) = phase s.
Proof. unfold advance. case_match; by destruct d, d'. Qed.
Lemma connection_credit_claim d d' id s :
  connection_credit d (claim_local_id d' id s) = connection_credit d s ∧
  connection_limit d (claim_local_id d' id s) = connection_limit d s ∧
  phase (claim_local_id d' id s) = phase s.
Proof. unfold claim_local_id. repeat case_match; by destruct d. Qed.
Lemma connection_credit_put d id st s :
  connection_credit d (put_stream id st s) = connection_credit d s ∧
  connection_limit d (put_stream id st s) = connection_limit d s.
Proof. by destruct d. Qed.

(** Refutes a guard that names another command or another direction. *)
Ltac other_frame :=
  let H := fresh in
  intros H; destruct_and?; destruct_or?;
  first [ congruence
        | match goal with
          | H : ?d = opposite ?d |- _ => by destruct d
          | H : opposite ?d = ?d |- _ => by destruct d
          end ].

(** After the HELLO exchange, an accepted frame moves a direction's connection
    credit by what it spends and what it grants, and its limit not at all. *)
Lemma effect_connection_credit_balance d d' h ctx s s1 :
  effect d' h ctx s s1 → phase s ≠ SessionPhase.HelloExchange →
  let t := {| t_dir := d'; t_header := h; t_context := ctx |} in
  connection_credit d s1 = connection_credit d s + granted d 0 t - spent d t ∧
  connection_limit d s1 = connection_limit d s ∧
  phase s1 ≠ SessionPhase.HelloExchange.
Proof.
  intros Heff Hp t. unfold granted, spent. subst t; simpl.
  destruct Heff; try (by exfalso; apply Hp);
    rewrite ?(proj1 (connection_credit_claim _ _ _ _)), ?connection_credit_set,
      ?connection_limit_set, ?(proj1 (proj2 (connection_credit_claim _ _ _ _))),
      ?(proj2 (proj2 (connection_credit_claim d _ _ _))),
      ?(proj1 (connection_credit_put _ _ _ _)), ?(proj2 (connection_credit_put _ _ _ _)).
  - (* connection CREDIT *)
    rewrite (decide_False (P := _ ∧ command h = Command.Data)) by other_frame.
    destruct (direction_cases d d') as [-> | ->]; rewrite ?opposite_opposite.
    + rewrite !decide_False by other_frame.
      split_and!; [lia|done|by destruct d].
    + rewrite !decide_True by done. split_and!; [lia|done|by destruct d].
  - rewrite !decide_False by other_frame. split_and!; [lia|done..].
  - rewrite !decide_False by other_frame. split_and!; [by destruct d; simpl; lia|by destruct d|done].
  - rewrite !decide_False by other_frame. split_and!; [by destruct d; simpl; lia|by destruct d|done].
  - rewrite !decide_False by other_frame. split_and!; [lia|done|by simpl; congruence].
  - rewrite !decide_False by other_frame. split_and!; [lia|done..].
  - rewrite !decide_False by other_frame. split_and!; [lia|done..].
  - rewrite !decide_False by other_frame. split_and!; [lia|done..].
  - (* discarded DATA *)
    rewrite (decide_False (P := _ ∧ _ ∧ _)) by other_frame.
    split_and!; [|done|by destruct d'].
    destruct (decide (d' = d)) as [->|];
      [rewrite decide_True by done; lia|rewrite decide_False by other_frame; lia].
  - (* DATA *)
    rewrite (decide_False (P := _ ∧ _ ∧ _)) by other_frame.
    split_and!; [|done|by destruct d'].
    destruct (decide (d' = d)) as [->|];
      [rewrite decide_True by done; lia|rewrite decide_False by other_frame; lia].
  - rewrite !decide_False by other_frame. split_and!; [lia|done..].
  - rewrite !decide_False by other_frame. split_and!; [lia|done..].
  - rewrite !decide_False by other_frame. split_and!; [lia|done..].
Qed.

Lemma step_connection_credit_balance d t s s1 :
  step (t_dir t) (t_header t) (t_context t) s s1 → phase s ≠ SessionPhase.HelloExchange →
  connection_credit d s1 = connection_credit d s + granted d 0 t - spent d t ∧
  connection_limit d s1 = connection_limit d s ∧
  phase s1 ≠ SessionPhase.HelloExchange.
Proof.
  destruct t as [d' h ctx]; simpl.
  intros [s' _ _ _ _ Heff] Hp.
  apply (effect_connection_credit_balance d) in Heff; [|done].
  by rewrite !(proj1 (connection_credit_advance _ _ _ _)),
    !(proj1 (proj2 (connection_credit_advance _ _ _ _))),
    (proj2 (proj2 (connection_credit_advance d _ _ _))).
Qed.

(** C12: Connection-level flow control, over any exchange.  Once the HELLOs have
    been exchanged, the connection credit of either direction is what it was,
    plus what its receiver granted, minus every payload byte sent in that
    direction, late data for dead streams included; so the bytes sent never
    exceed the credit granted, and unspent credit never exceeds the window the
    receiver advertised. *)
Theorem connection_flow_control d l s s' :
  session_wf s → phase s ≠ SessionPhase.HelloExchange → Forall traffic_ok l →
  run l s s' →
  connection_credit d s' = connection_credit d s + total (granted d 0) l - total (spent d) l ∧
  total (spent d) l ≤ connection_credit d s + total (granted d 0) l ∧
  connection_credit d s + total (granted d 0) l - total (spent d) l ≤ connection_limit d s.
Proof.
  intros Hwf Hp Hok Hrun.
  enough (session_wf s' ∧ connection_limit d s' = connection_limit d s ∧
    connection_credit d s' = connection_credit d s + total (granted d 0) l - total (spent d) l)
    as (Hwf' & Hlim & Heq).
  { pose proof (connection_window_ok d s' Hwf'). lia. }
  induction Hrun as [s|t l s s1 s' Hstep%process_step Hrun IH]; [simpl; split_and!; (done || lia)|].
  apply Forall_cons in Hok as [[Hh Hc] Hok].
  pose proof (step_wf _ _ _ _ _ Hh Hc Hwf Hstep) as Hwf1.
  apply (step_connection_credit_balance d) in Hstep as (Heq1 & Hlim1 & Hp1); [|done].
  destruct (IH Hwf1 Hp1 Hok) as (? & ? & ?). simpl. split_and!; (done || lia).
Qed.

(** The same at stream level.  Credit that arrives after the stream ended is
    ignored, hence the inequality. *)
Lemma effect_stream_credit_balance d id d' h ctx s s1 st :
  effect d' h ctx s s1 → header_ok h → id ≠ 0 → streams s !! id = Some st →
  StreamState.phase st ≠ StreamPhase.Opening →
  let t := {| t_dir := d'; t_header := h; t_context := ctx |} in
  ∃ st', streams s1 !! id = Some st' ∧ StreamState.phase st' ≠ StreamPhase.Opening ∧
    stream_credit d st' ≤ stream_credit d st + granted d id t - spent_on d id t.
Proof.
  intros Heff Hh Hid Hst Hp t. pose proof (ok_credit_delta _ Hh) as [Hdelta _].
  unfold granted, spent_on, spent. subst t; simpl.
  destruct (decide (stream_id h = id)) as [<-|Hne]; cycle 1.
  { exists st. rewrite (proj1 (effect_streams _ _ _ _ _ Heff)), (decide_False (P := _ ∧ _))
      by naive_solver. split_and!; [done..|lia]. }
  destruct Heff; autorewrite with kb_streams; simplify_eq; try rewrite lookup_insert_eq;
    try (eexists; split; [done|]); try congruence;
    try (destruct_or?; rewrite !decide_False by other_frame; split; [done|lia]);
    try (rewrite !decide_False by other_frame; split; [done|by destruct d; simpl; lia]).
  - (* late CREDIT or RESET *)
    split; [done|]. rewrite (decide_False (P := _ ∧ command h = Command.Data)) by other_frame.
    case_decide; lia.
  - (* discarded DATA *)
    split; [by destruct d|]. rewrite (decide_False (P := _ ∧ _ ∧ _)) by other_frame.
    rewrite stream_credit_set. destruct (decide (Direction.Inbound = d)) as [<-|];
      [rewrite decide_True by done; lia|rewrite decide_False by naive_solver; lia].
  - (* DATA *)
    rewrite stream_credit_end. split; [by destruct d'|]. rewrite (decide_False (P := _ ∧ _ ∧ _)) by other_frame.
    rewrite stream_credit_set. destruct (decide (d' = d)) as [->|];
      [rewrite decide_True by done; lia|rewrite decide_False by naive_solver; lia].
  - (* CREDIT *)
    split; [by destruct d'|].
    rewrite (decide_False (P := _ ∧ command h = Command.Data)) by other_frame.
    rewrite stream_credit_set. destruct (direction_cases d d') as [-> | ->].
    + rewrite !decide_False by other_frame. lia.
    + rewrite opposite_opposite, !decide_True by done. lia.
Qed.

Lemma step_stream_credit_balance d id t s s1 st :
  step (t_dir t) (t_header t) (t_context t) s s1 → traffic_ok t → id ≠ 0 →
  streams s !! id = Some st → StreamState.phase st ≠ StreamPhase.Opening →
  ∃ st', streams s1 !! id = Some st' ∧ StreamState.phase st' ≠ StreamPhase.Opening ∧
    stream_credit d st' ≤ stream_credit d st + granted d id t - spent_on d id t.
Proof.
  destruct t as [d' h ctx]; simpl. intros [s' _ _ _ _ Heff] [Hh _] Hid Hst Hp.
  rewrite streams_advance. by eapply effect_stream_credit_balance.
Qed.

(** C13: Stream-level flow control, over any exchange.  On a stream that has been
    answered, the payload bytes sent in one direction never exceed the credit
    that direction had plus the credit its receiver granted since, whatever
    else the connection carried in between. *)
Theorem stream_flow_control d id l s s' st :
  session_wf s → Forall traffic_ok l → run l s s' →
  streams s !! id = Some st → StreamState.phase st ≠ StreamPhase.Opening →
  total (spent_on d id) l ≤ stream_credit d st + total (granted d id) l.
Proof.
  intros Hwf Hok Hrun Hst Hp.
  enough (∃ st', session_wf s' ∧ streams s' !! id = Some st' ∧
    stream_credit d st' ≤ stream_credit d st + total (granted d id) l - total (spent_on d id) l)
    as (st' & Hwf' & Hst' & Hle).
  { pose proof (stream_window_ok d _ _ _ (wf_streams _ Hwf' _ _ Hst')) as [[??] _]. lia. }
  assert (id ≠ 0) as Hid.
  { pose proof (stream_id_range _ _ _ (wf_streams _ Hwf _ _ Hst)). lia. }
  revert st Hst Hp. induction Hrun as [s|t l s s1 s' Hstep%process_step Hrun IH]; intros st Hst Hp.
  { exists st. simpl. split_and!; (done || lia). }
  apply Forall_cons in Hok as [[Hh Hc] Hok].
  pose proof (step_wf _ _ _ _ _ Hh Hc Hwf Hstep) as Hwf1.
  destruct (step_stream_credit_balance d id _ _ _ _ Hstep (conj Hh Hc) Hid Hst Hp)
    as (st1 & Hst1 & Hp1 & Hle1).
  destruct (IH Hwf1 Hok st1 Hst1 Hp1) as (st' & ? & ? & ?).
  exists st'. simpl. split_and!; (done || lia).
Qed.

(** ** RESET crossing CLOSE *)

(** Once an endpoint has reset a stream, a CLOSE from its peer on that
    stream is refused with [StreamNotAccepted], although the peer may well have
    sent it before the RESET reached it; the mirror race, RESET after CLOSE, is
    accepted and ignored. *)
Theorem close_after_reset_is_refused h ctx s st :
  validate h (limits (config s)) = Ok tt → validate_context s h ctx = Ok tt →
  phase s ≠ SessionPhase.Closed → sequenced Direction.Inbound h s →
  stream_id h ≠ 0 → streams s !! stream_id h = Some st →
  (command h = Command.Close → StreamState.phase st = StreamPhase.Reset →
   process_inbound h ctx s = (s, Err (ProtocolError.StreamNotAccepted (stream_id h)))) ∧
  (command h = Command.Reset → StreamState.phase st = StreamPhase.Closed →
   ∃ s', process_inbound h ctx s = (s', Ok tt) ∧ streams s' = streams s).
Proof.
  intros Hv Hc Hp Hseq H0 Hst. split.
  - intros Hcmd Hph. unfold process_inbound, process. rewrite mbnd_get.
    erewrite mbnd_lift_ok by (by apply map_err_ok).
    rewrite (mbnd_lift_ok _ _ _ tt) by done.
    rewrite (mbnd_lift_ok _ _ _ tt) by (by apply reject_if_ok, bool_decide_eq_false).
    rewrite (mbnd_lift_ok _ _ _ tt) by (by apply validate_sequence_ok).
    rewrite (proj2 (Z.eqb_neq _ _) H0). rewrite decide_False by congruence.
    unfold mbnd at 1, apply_stream. rewrite mbnd_get, (mbnd_lift_ok _ _ _ st)
      by (by apply ok_or_ok).
    rewrite Hcmd. unfold apply_accepted. by rewrite Hph.
  - intros Hcmd Hph. exists (advance Direction.Inbound h s). rewrite streams_advance.
    split; [|done]. apply process_step, step_frame; try done.
    eapply effect_late; [by right|done..|]. by rewrite Hph.
Qed.

(** ** Concrete runs *)

(** [online_host] of tests.rs: both HELLOs exchanged, windows 1000 and 2000. *)
Definition exec (l : list traffic) (s : SessionState) : SessionState :=
  foldl (λ s t, (process (t_dir t) (t_header t) (t_context t) s).1) s l.
Definition out (c : Command) (id seq : Z) (ctx : FrameContext) : traffic :=
  {| t_dir := Direction.Outbound; t_header := header_new c id seq; t_context := ctx |}.
Definition inb (c : Command) (id seq : Z) (ctx : FrameContext) : traffic :=
  {| t_dir := Direction.Inbound; t_header := header_new c id seq; t_context := ctx |}.
Definition sample_config : SessionConfig :=
  session_config_new EndpointRole.Host {| max_payload := 4096; max_window := 4096 |}.
Definition sample_online : SessionState :=
  exec [out Command.Hello 0 0 (context_hello 1000); inb Command.Hello 0 0 (context_hello 2000)]
    (session_new sample_config).
(** Stream 1 opened here and accepted by the peer with window 512. *)
Definition sample_stream : SessionState :=
  exec [out Command.Open 1 0 context_default; inb Command.Accept 1 0 (context_accept 512)]
    sample_online.
(** 300 bytes sent, 200 bytes of stream credit and 100 of connection credit back. *)
Definition sample_traffic : list traffic :=
  [ {| t_dir := Direction.Outbound;
       t_header := with_payload_length 300 (header_new Command.Data 1 1);
       t_context := context_default |};
    {| t_dir := Direction.Inbound;
       t_header := {| major := 1; minor := 0; command := Command.Credit; flags := 0;
                      stream_id := 1; sequence := 1; payload_length := 0;
                      credit_delta := 200; reserved := 0 |};
       t_context := context_default |};
    {| t_dir := Direction.Inbound;
       t_header := {| major := 1; minor := 0; command := Command.Credit; flags := 0;
                      stream_id := 0; sequence := 1; payload_length := 0;
                      credit_delta := 100; reserved := 0 |};
       t_context := context_default |} ].

Ltac header_ok_by_compute := split; apply (bool_decide_unpack _); by vm_compute.
Lemma context_default_ok : context_ok context_default.
Proof. by split. Qed.

Lemma process_error_leaves_state_witness :
  (process Direction.Outbound (header_new Command.Open 2 0) context_default sample_online).1
    = sample_online.
Proof.
  apply (process_error_leaves_state sample_online Direction.Outbound
    (header_new Command.Open 2 0) context_default _ (ProtocolError.WrongStreamParity 2 true)).
  vm_compute. reflexivity.
Defined.

Lemma process_sequence_witness :
  expected_sequence sample_stream Direction.Inbound 1 = 1.
Proof.
  pose proof (process_sequence Direction.Inbound (header_new Command.Accept 1 0)
    (context_accept 512) (exec [out Command.Open 1 0 context_default] sample_online)
    sample_stream ltac:(vm_compute; reflexivity)) as (_ & _ & H & _).
  exact H.
Defined.

Lemma sample_online_reachable : reachable sample_config sample_online.
Proof.
  eapply (reachable_process _ _ Direction.Inbound (header_new Command.Hello 0 0)
    (context_hello 2000)).
  - eapply (reachable_process _ _ Direction.Outbound (header_new Command.Hello 0 0)
      (context_hello 1000)); [apply reachable_new|header_ok_by_compute| |reflexivity].
    split; [|done]. intros w [= <-]. apply (bool_decide_unpack _). by vm_compute.
  - header_ok_by_compute.
  - split; [|done]. intros w [= <-]. apply (bool_decide_unpack _). by vm_compute.
  - unfold sample_online, exec. cbn [foldl t_dir t_header t_context out inb].
    apply surjective_pairing.
Qed.

Lemma sample_stream_reachable : reachable sample_config sample_stream.
Proof.
  eapply (reachable_process _ _ Direction.Inbound (header_new Command.Accept 1 0)
    (context_accept 512)).
  - eapply (reachable_process _ _ Direction.Outbound (header_new Command.Open 1 0)
      context_default); [apply sample_online_reachable|header_ok_by_compute|by split|reflexivity].
  - header_ok_by_compute.
  - split; [done|]. intros w [= <-]. apply (bool_decide_unpack _). by vm_compute.
  - unfold sample_stream, exec. cbn [foldl t_dir t_header t_context out inb].
    apply surjective_pairing.
Qed.

Lemma reachable_wf_witness : session_wf sample_stream ∧ config sample_stream = sample_config.
Proof.
  apply (reachable_wf sample_config sample_stream).
  - apply (bool_decide_unpack _). by vm_compute.
  - exact sample_stream_reachable.
Defined.

Lemma process_stream_lifecycle_witness :
  phase_step (Some StreamPhase.Opening) (Some StreamPhase.Accepted).
Proof.
  exact (proj2 (process_stream_lifecycle Direction.Inbound (header_new Command.Accept 1 0)
    (context_accept 512) (exec [out Command.Open 1 0 context_default] sample_online)
    sample_stream ltac:(vm_compute; reflexivity))).
Defined.

Lemma allocated_stream_id_is_fresh_witness :
  streams (allocate_stream_id sample_stream).1 !! 3 = None.
Proof.
  refine (proj1 (allocated_stream_id_is_fresh sample_config sample_stream
    (allocate_stream_id sample_stream).1 3 _ sample_stream_reachable _)).
  - apply (bool_decide_unpack _). by vm_compute.
  - vm_compute. reflexivity.
Defined.

Lemma sample_traffic_ok : Forall traffic_ok sample_traffic.
Proof.
  repeat (constructor; [split; [header_ok_by_compute|apply context_default_ok]|]). constructor.
Qed.
Lemma sample_traffic_run : run sample_traffic sample_stream (exec sample_traffic sample_stream).
Proof.
  unfold exec, sample_traffic. cbn [foldl].
  do 3 (eapply run_cons; [vm_compute; reflexivity|]). vm_compute. constructor.
Qed.
Lemma sample_stream_wf : session_wf sample_stream.
Proof.
  apply (reachable_invariant sample_config sample_stream);
    [apply (bool_decide_unpack _); by vm_compute|exact sample_stream_reachable].
Qed.

Lemma connection_flow_control_witness :
  connection_credit Direction.Outbound (exec sample_traffic sample_stream) = 2000 + 100 - 300.
Proof.
  refine (proj1 (connection_flow_control Direction.Outbound sample_traffic sample_stream
    (exec sample_traffic sample_stream) sample_stream_wf _ sample_traffic_ok
    sample_traffic_run)).
  vm_compute. discriminate.
Defined.

Definition sample_stream_1 : StreamState := Eval vm_compute in
  default (StreamState.opening true) (streams sample_stream !! 1).

Lemma stream_flow_control_witness :
  total (spent_on Direction.Outbound 1) sample_traffic = 300 ∧
  total (spent_on Direction.Outbound 1) sample_traffic
    ≤ stream_credit Direction.Outbound sample_stream_1
      + total (granted Direction.Outbound 1) sample_traffic.
Proof.
  split; [vm_compute; reflexivity|].
  apply (stream_flow_control Direction.Outbound 1 sample_traffic sample_stream
    (exec sample_traffic sample_stream) sample_stream_1 sample_stream_wf sample_traffic_ok
    sample_traffic_run).
  - vm_compute. reflexivity.
  - vm_compute. discriminate.
Defined.

(** The host resets stream 1 while the device's CLOSE is on its way. *)
Lemma close_after_reset_is_refused_witness :
  process_inbound (header_new Command.Close 1 1) context_default
    (exec [out Command.Reset 1 1 context_default] sample_stream)
  = (exec [out Command.Reset 1 1 context_default] sample_stream,
     Err (ProtocolError.StreamNotAccepted 1)).
Proof.
  pose (s := exec [out Command.Reset 1 1 context_default] sample_stream).
  refine (proj1 (close_after_reset_is_refused (header_new Command.Close 1 1) context_default s
    (default (StreamState.opening true) (streams s !! 1)) _ _ _ _ _ _) _ _).
  - vm_compute. reflexivity.
  - vm_compute. reflexivity.
  - vm_compute. discriminate.
  - split; [vm_compute; reflexivity|vm_compute; discriminate].
  - vm_compute. discriminate.
  - vm_compute. reflexivity.
  - vm_compute. reflexivity.
  - vm_compute. reflexivity.
Defined.
