(* ===== verification/Scheduler.v ===== *)
(** * The outbound frame scheduler and the transport registry

    src/crates/kindlebridge-transport/src/lib.rs.  [FrameScheduler] is a bounded
    deficit-round-robin queue over five traffic classes that never lets a frame
    overtake an earlier frame of its own stream; [TransportRegistry] remembers
    the transports of each device and picks one per traffic class.

    A Rust panic (an index out of bounds, an [expect] on [None], a subtraction
    that underflows, a failed [debug_assert_eq]) is the result [None]. *)

From S2P Require Import Prelude WireFrame.

(** ** Data *)

Definition CLASS_COUNT : nat := 5.
Definition DEFAULT_QUANTA : list Z := [65536; 32768; 16384; 8192; 4096].

Module TrafficClass.

Inductive TrafficClass : Type := Control | Interactive | Events | Forwarding | Bulk.

End TrafficClass.
Abbreviation TrafficClass := TrafficClass.TrafficClass.

#[export] Instance TrafficClass_eq_dec : EqDecision TrafficClass.
Proof. solve_decision. Defined.

(** [class as usize]. *)
Definition class_index (c : TrafficClass) : nat :=
  match c with
  | TrafficClass.Control => 0
  | TrafficClass.Interactive => 1
  | TrafficClass.Events => 2
  | TrafficClass.Forwarding => 3
  | TrafficClass.Bulk => 4
  end.

Definition for_command (c : Command) : TrafficClass :=
  match c with
  | Command.Hello | Command.PairingFinish | Command.Accept | Command.Reject
  | Command.Credit | Command.Close | Command.Reset | Command.Ping | Command.Pong
  | Command.GoAway | Command.Error => TrafficClass.Control
  | Command.Open | Command.Data => TrafficClass.Bulk
  end.

Record ScheduledFrame : Type := {
  class : TrafficClass;
  frame : Frame;
}.

Module SchedulerError.

Inductive SchedulerError : Type := QueueFull.

End SchedulerError.
Abbreviation SchedulerError := SchedulerError.SchedulerError.

(** Arrays of length [CLASS_COUNT] are lists of that length. *)
Record FrameScheduler : Type := {
  queues : list (list ScheduledFrame);
  stream_classes : gmap Z (list nat);
  deficits : list Z;
  quanta : list Z;
  cursor : nat;
  queued_bytes : Z;
  max_queued_bytes : Z;
}.

Definition item_stream (item : ScheduledFrame) : Z := stream_id (header (frame item)).

(** [Iterator::position]. *)
Definition position {A} (p : A → bool) (l : list A) : option nat :=
  fst <$> list_find (λ x, p x = true) l.

Section operations.
Context `{PointerWidth}.

(** [ScheduledFrame::wire_len]. *)
Definition wire_len (item : ScheduledFrame) : Z :=
  saturating_add usize_max (Z.of_nat HEADER_LEN) (len (payload (frame item))).

(** [FrameScheduler::new]. *)
Definition scheduler_new (max_queued_bytes : Z) : FrameScheduler :=
  {| queues := replicate CLASS_COUNT [];
     stream_classes := ∅;
     deficits := replicate CLASS_COUNT 0;
     quanta := DEFAULT_QUANTA;
     cursor := 0;
     queued_bytes := 0;
     max_queued_bytes := max_queued_bytes |}.

(** [FrameScheduler::enqueue]. *)
Definition enqueue (item : ScheduledFrame) : M FrameScheduler SchedulerError unit := λ s,
  match checked_add usize_max (queued_bytes s) (wire_len item) with
  | None => (s, Err SchedulerError.QueueFull)
  | Some next =>
      if next >? max_queued_bytes s then (s, Err SchedulerError.QueueFull) else
      let index := class_index (class item) in
      let classes := default [] (stream_classes s !! item_stream item) in
      ({| queues := alter (λ queue, queue ++ [item]) index (queues s);
          stream_classes :=
            <[item_stream item := classes ++ [index]]> (stream_classes s);
          deficits := deficits s;
          quanta := quanta s;
          cursor := cursor s;
          queued_bytes := next;
          max_queued_bytes := max_queued_bytes s |}, Ok tt)
  end.

(** [FrameScheduler::advance]. *)
Definition advance (s : FrameScheduler) : FrameScheduler :=
  {| queues := queues s; stream_classes := stream_classes s; deficits := deficits s;
     quanta := quanta s; cursor := (cursor s + 1) mod CLASS_COUNT;
     queued_bytes := queued_bytes s; max_queued_bytes := max_queued_bytes s |}.

(** [self.deficits[index] = value]. *)
Definition set_deficit (index : nat) (value : Z) (s : FrameScheduler) : FrameScheduler :=
  {| queues := queues s; stream_classes := stream_classes s;
     deficits := <[index := value]> (deficits s); quanta := quanta s; cursor := cursor s;
     queued_bytes := queued_bytes s; max_queued_bytes := max_queued_bytes s |}.

(** The closure given to [position] in [FrameScheduler::dequeue]: the item's
    stream expects its next frame from the class [index]. *)
Definition eligible (s : FrameScheduler) (index : nat) (item : ScheduledFrame) : bool :=
  match stream_classes s !! item_stream item with
  | Some (c :: _) => bool_decide (c = index)
  | _ => false
  end.

(** The end of an iteration of [FrameScheduler::dequeue] that returns the item
    at [position] of the queue [index] (lines 131 to 149). *)
Definition take_item (index pos : nat) (queue : list ScheduledFrame) (deficit : Z)
    (s : FrameScheduler) : option (FrameScheduler * option ScheduledFrame) :=
  item ← queue !! pos;
  let cost := wire_len item in
  match stream_classes s !! item_stream item with
  | Some (scheduled_class :: classes) =>
      if bool_decide (scheduled_class ≠ index) then None else
      if queued_bytes s <? cost then None else
      let stream_classes' :=
        match classes with
        | [] => delete (item_stream item) (stream_classes s)
        | _ => <[item_stream item := classes]> (stream_classes s)
        end in
      Some (advance
        {| queues := <[index := delete pos queue]> (queues s);
           stream_classes := stream_classes';
           deficits := <[index := deficit - cost]> (deficits s);
           quanta := quanta s;
           cursor := cursor s;
           queued_bytes := queued_bytes s - cost;
           max_queued_bytes := max_queued_bytes s |}, Some item)
  | _ => None
  end.

(** One iteration of the loop of [FrameScheduler::dequeue]: [(s, None)] is
    [continue], [(s, Some item)] is [return Some(item)]. *)
Definition visit (s : FrameScheduler) : option (FrameScheduler * option ScheduledFrame) :=
  let index := cursor s in
  queue ← queues s !! index;
  match position (eligible s index) queue with
  | None => Some (advance (set_deficit index 0 s), None)
  | Some pos =>
      item ← queue !! pos;
      deficit ← deficits s !! index;
      quantum ← quanta s !! index;
      let cost := wire_len item in
      let deficit :=
        if deficit <? cost then saturating_add usize_max deficit quantum else deficit in
      if deficit <? cost then Some (advance (set_deficit index deficit s), None)
      else take_item index pos queue deficit s
  end.

Fixpoint dequeue_loop (attempts : nat) (s : FrameScheduler) :
    option (FrameScheduler * option ScheduledFrame) :=
  match attempts with
  | O => Some (s, None)
  | S attempts =>
      '(s, o) ← visit s;
      match o with
      | Some item => Some (s, Some item)
      | None => dequeue_loop attempts s
      end
  end.

(** [CLASS_COUNT.saturating_mul(512)]. *)
Definition dequeue_attempts : nat := (CLASS_COUNT * 512)%nat.

(** [FrameScheduler::dequeue]. *)
Definition dequeue (s : FrameScheduler) : option (FrameScheduler * option ScheduledFrame) :=
  if queued_bytes s =? 0 then Some (s, None) else dequeue_loop dequeue_attempts s.

(** [FrameScheduler::is_empty]. *)
Definition is_empty (s : FrameScheduler) : bool := queued_bytes s =? 0.

(** ** The queue a scheduler represents

    The specification is one list [q] of frames in arrival order: the class
    queues and the per-stream class lists are two projections of it. *)

Definition of_class (c : TrafficClass) (q : list ScheduledFrame) : list ScheduledFrame :=
  filter (λ x, class x = c) q.
Definition of_stream (sid : Z) (q : list ScheduledFrame) : list ScheduledFrame :=
  filter (λ x, item_stream x = sid) q.
Definition total_bytes (q : list ScheduledFrame) : Z :=
  foldr (λ item n, wire_len item + n) 0 q.

Record represents (s : FrameScheduler) (q : list ScheduledFrame) : Prop := {
  rep_len : length (queues s) = CLASS_COUNT;
  rep_queues : ∀ c, queues s !! class_index c = Some (of_class c q);
  rep_classes : ∀ sid, default [] (stream_classes s !! sid) =
    class_index ∘ class <$> of_stream sid q;
  rep_no_empty : ∀ sid, stream_classes s !! sid ≠ Some [];
  rep_deficits : length (deficits s) = CLASS_COUNT;
  rep_quanta : quanta s = DEFAULT_QUANTA;
  rep_cursor : (cursor s < CLASS_COUNT)%nat;
  rep_bytes : queued_bytes s = total_bytes q;
  rep_bound : queued_bytes s ≤ max_queued_bytes s ≤ usize_max;
}.

(** ** Lemmas *)

Lemma wire_len_range item : 0 < wire_len item ≤ usize_max.
Proof.
  pose proof usize_max_lb. pose proof (len_nonneg (payload (frame item))).
  unfold wire_len, saturating_add, HEADER_LEN, u32_max in *. lia.
Qed.

Lemma class_index_lt c : (class_index c < CLASS_COUNT)%nat.
Proof. unfold CLASS_COUNT. destruct c; simpl; lia. Qed.
Lemma class_index_inj c c' : class_index c = class_index c' → c = c'.
Proof. by destruct c, c'. Qed.
Lemma class_index_surj i : (i < CLASS_COUNT)%nat → ∃ c, i = class_index c.
Proof.
  unfold CLASS_COUNT. intros Hi.
  destruct i as [|[|[|[|[|i]]]]]; [exists TrafficClass.Control|exists TrafficClass.Interactive
    |exists TrafficClass.Events|exists TrafficClass.Forwarding|exists TrafficClass.Bulk|lia]; done.
Qed.

Lemma total_bytes_app q q' : total_bytes (q ++ q') = total_bytes q + total_bytes q'.
Proof. induction q as [|x q IH]; simpl; lia. Qed.
Lemma total_bytes_nonneg q : 0 ≤ total_bytes q.
Proof. induction q as [|x q IH]; simpl; [lia|]. pose proof (wire_len_range x). lia. Qed.
Lemma total_bytes_zero q : total_bytes q = 0 ↔ q = [].
Proof.
  split; [|by intros ->]. destruct q as [|x q]; [done|]. simpl.
  pose proof (wire_len_range x). pose proof (total_bytes_nonneg q). lia.
Qed.

(** An element of a filtered list splits the list it comes from. *)
Lemma lookup_filter_split {A} (P : A → Prop) `{∀ x, Decision (P x)} (l : list A) i x :
  filter P l !! i = Some x →
  ∃ l1 l2, l = l1 ++ x :: l2 ∧ P x ∧ i = length (filter P l1).
Proof.
  revert i. induction l as [|y l IH]; intros i Hi; [done|].
  rewrite filter_cons in Hi. destruct (decide (P y)) as [Hy|Hy].
  - destruct i as [|i]; simpl in Hi.
    + simplify_eq. by exists [], l.
    + apply IH in Hi as (l1 & l2 & -> & Hx & ->). exists (y :: l1), l2.
      by rewrite filter_cons_True.
  - apply IH in Hi as (l1 & l2 & -> & Hx & ->). exists (y :: l1), l2.
    by rewrite filter_cons_False.
Qed.

Lemma position_Some {A} (p : A → bool) l i :
  position p l = Some i ↔
  ∃ x, l !! i = Some x ∧ p x = true ∧ ∀ j y, l !! j = Some y → (j < i)%nat → p y = false.
Proof.
  unfold position. rewrite fmap_Some. split.
  - intros ([j x] & Hf & ->). apply list_find_Some in Hf as (?&?&Hj). simpl in *.
    exists x. repeat split; try done. intros j' y ? ?. apply not_true_is_false. eauto.
  - intros (x & ? & ? & Hj). exists (i, x). split; [|done]. apply list_find_Some.
    repeat split; try done. intros j' y ? ?. rewrite (Hj j' y); [done|done|done].
Qed.

Lemma position_None {A} (p : A → bool) l :
  position p l = None ↔ ∀ x, x ∈ l → p x = false.
Proof.
  unfold position. rewrite fmap_None, list_find_None, Forall_forall.
  split; intros Hx x Hin; specialize (Hx x Hin); [by apply not_true_is_false|by rewrite Hx].
Qed.

(** What [eligible] means of the represented queue. *)
Lemma eligible_spec s q index item :
  represents s q →
  eligible s index item = true ↔
  ∃ x l, of_stream (item_stream item) q = x :: l ∧ class_index (class x) = index.
Proof.
  intros Hr. unfold eligible. pose proof (rep_classes _ _ Hr (item_stream item)) as Hc.
  pose proof (rep_no_empty _ _ Hr (item_stream item)) as Hn.
  destruct (stream_classes s !! item_stream item) as [[|c cs]|]; simpl in Hc.
  - done.
  - destruct (of_stream _ q) as [|x l]; [done|]. simplify_list_eq.
    rewrite bool_decide_eq_true. naive_solver.
  - destruct (of_stream _ q); naive_solver.
Qed.

(** The frame that [position] finds is the first of its stream. *)
Lemma position_eligible s q c pos :
  represents s q → position (eligible s (class_index c)) (of_class c q) = Some pos →
  ∃ l item r, q = l ++ item :: r ∧ of_stream (item_stream item) l = [] ∧ class item = c ∧
    pos = length (of_class c l).
Proof.
  intros Hr (item & Hpos & He & Hmin)%position_Some.
  apply lookup_filter_split in Hpos as (l & r & -> & Hc & ->).
  exists l, item, r. repeat split; try done.
  apply (eligible_spec _ _ _ _ Hr) in He as (x & k & Hx & Hxc).
  destruct (of_stream (item_stream item) l) as [|y l'] eqn:Hl; [done|exfalso].
  assert (y ∈ of_stream (item_stream item) l) as Hy by (rewrite Hl; left).
  apply list_elem_of_filter in Hy as [Hys Hy].
  unfold of_stream in Hx, Hl. rewrite filter_app, Hl in Hx. simpl in Hx. injection Hx as <- Hk.
  apply class_index_inj in Hxc.
  assert (y ∈ of_class c l) as Hyc by (by apply list_elem_of_filter).
  apply list_elem_of_lookup in Hyc as [j Hj].
  assert (eligible s (class_index c) y = false) as Hf.
  { apply (Hmin j).
    - unfold of_class in *. rewrite filter_app. by apply lookup_app_l_Some.
    - by eapply lookup_lt_Some. }
  apply not_true_iff_false in Hf. apply Hf, (eligible_spec _ _ _ _ Hr).
  exists y, k. split; [|by rewrite Hxc]. unfold of_stream. rewrite Hys, filter_app, Hl.
  simpl. by rewrite Hk.
Qed.

Lemma represents_new m : 0 ≤ m ≤ usize_max → represents (scheduler_new m) [].
Proof. intros Hm. split; try done; [by intros []|simpl; unfold CLASS_COUNT; lia]. Qed.

(** Only deficits and the cursor move: the queue stays. *)
Lemma represents_advance s q : represents s q → represents (advance s) q.
Proof.
  intros []. split; try done. cbn [advance cursor]. by apply Nat.mod_upper_bound.
Qed.
Lemma represents_set_deficit s q i d : represents s q → represents (set_deficit i d s) q.
Proof. intros []. split; try done. simpl. by rewrite length_insert. Qed.

(** ** [enqueue] appends to the queue or refuses *)
Lemma represents_enqueue s q item :
  represents s q →
  (enqueue item s = (s, Err SchedulerError.QueueFull) ∧
     max_queued_bytes s < total_bytes q + wire_len item) ∨
  ∃ s', enqueue item s = (s', Ok tt) ∧ represents s' (q ++ [item]) ∧
    total_bytes q + wire_len item ≤ max_queued_bytes s ∧
    deficits s' = deficits s ∧ cursor s' = cursor s ∧
    max_queued_bytes s' = max_queued_bytes s.
Proof.
  intros Hr. pose proof Hr as []. unfold enqueue.
  destruct (checked_add _ _ _) as [n|] eqn:Hn.
  2:{ apply checked_add_None in Hn. left. split; [done|lia]. }
  apply checked_add_Some in Hn as [-> Hn].
  destruct (queued_bytes s + wire_len item >? max_queued_bytes s) eqn:Hgt.
  { left. split; [done|lia]. }
  right. eexists. split; [done|]. split; [|simpl; repeat split; lia]. split; simpl; try done.
  - by rewrite length_alter.
  - intros c. unfold of_class. rewrite filter_app, filter_cons, filter_nil.
    destruct (decide (class item = c)) as [<-|Hc].
    + by rewrite list_lookup_alter, decide_True, rep_queues0 by done.
    + rewrite list_lookup_alter_ne by (intros ?%class_index_inj; done).
      by rewrite app_nil_r.
  - intros sid. unfold of_stream. rewrite filter_app, filter_cons, filter_nil, fmap_app.
    destruct (decide (item_stream item = sid)) as [<-|Hs].
    + by rewrite lookup_insert, decide_True, rep_classes0 by done.
    + rewrite lookup_insert_ne by done. by rewrite app_nil_r, rep_classes0.
  - intros sid. destruct (decide (item_stream item = sid)) as [<-|Hs].
    + rewrite lookup_insert, decide_True by done. by destruct (default _ _).
    + by rewrite lookup_insert_ne.
  - rewrite total_bytes_app. simpl. lia.
  - lia.
Qed.

(** ** [dequeue] removes the first frame of some stream *)

Lemma represents_take s l item r pos queue d :
  represents s (l ++ item :: r) → of_stream (item_stream item) l = [] →
  pos = length (of_class (class item) l) →
  queue = of_class (class item) (l ++ item :: r) →
  ∃ s', take_item (class_index (class item)) pos queue d s = Some (s', Some item) ∧
    represents s' (l ++ r) ∧
    deficits s' = <[class_index (class item) := d - wire_len item]> (deficits s) ∧
    cursor s' = ((cursor s + 1) mod CLASS_COUNT)%nat ∧
    max_queued_bytes s' = max_queued_bytes s.
Proof.
  intros Hr Hl -> ->. pose proof Hr as []. unfold take_item, of_class.
  rewrite filter_app, filter_cons_True, list_lookup_middle by done. simpl.
  pose proof (rep_classes0 (item_stream item)) as Hc.
  unfold of_stream in Hc, Hl. rewrite filter_app, filter_cons_True, Hl in Hc by done. simpl in Hc.
  destruct (stream_classes s !! item_stream item) as [[|c cs]|] eqn:Hsc; [done| |done].
  simpl in Hc. injection Hc as -> ->. rewrite bool_decide_eq_false_2 by (intros []; done).
  assert (wire_len item + total_bytes (l ++ r) = queued_bytes s) as Htot.
  { rewrite rep_bytes0, !total_bytes_app. simpl. lia. }
  pose proof (total_bytes_nonneg (l ++ r)). pose proof (wire_len_range item).
  destruct (queued_bytes s <? wire_len item) eqn:Hlt; [lia|].
  eexists. split; [done|]. split; [|done]. apply represents_advance. split; cbn; try done.
  - by rewrite length_insert.
  - intros c. destruct (decide (class item = c)) as [<-|Hne].
    + rewrite list_lookup_insert, decide_True.
      * rewrite delete_middle. unfold of_class. by rewrite filter_app.
      * split; [done|]. rewrite rep_len0. apply class_index_lt.
    + rewrite list_lookup_insert_ne by (intros ?%class_index_inj; done).
      rewrite rep_queues0. unfold of_class. by rewrite !filter_app, filter_cons_False.
  - intros sid. unfold of_stream. rewrite filter_app, fmap_app.
    destruct (decide (item_stream item = sid)) as [<-|Hne].
    + rewrite Hl. simpl. destruct (filter _ r) as [|y r']; simpl.
      * by rewrite lookup_delete, decide_True.
      * by rewrite lookup_insert, decide_True.
    + transitivity (default [] (stream_classes s !! sid)).
      { case_match; [by rewrite lookup_delete_ne|by rewrite lookup_insert_ne]. }
      rewrite rep_classes0. unfold of_stream.
      by rewrite filter_app, filter_cons_False, fmap_app by done.
  - intros sid. destruct (decide (item_stream item = sid)) as [<-|Hne].
    + case_match.
      * by rewrite lookup_delete, decide_True.
      * by rewrite lookup_insert, decide_True.
    + case_match; [rewrite lookup_delete_ne by done|rewrite lookup_insert_ne by done]; done.
  - by rewrite length_insert.
  - lia.
  - lia.
Qed.

(** The deficit of the visited class before it is compared with the cost. *)
Definition topped_up (s : FrameScheduler) (c : TrafficClass) (cost : Z) : Z :=
  let d := deficits s !!! class_index c in
  if d <? cost
  then saturating_add usize_max d (DEFAULT_QUANTA !!! class_index c) else d.

(** Every case of an iteration: nothing is eligible in the visited class, its
    first eligible frame is too costly, or that frame is returned. *)
Inductive visited (s : FrameScheduler) (q : list ScheduledFrame) (c : TrafficClass) :
    FrameScheduler → option ScheduledFrame → list ScheduledFrame → Prop :=
| visited_idle :
    (∀ item, item ∈ q → class item = c → eligible s (class_index c) item = false) →
    visited s q c (advance (set_deficit (class_index c) 0 s)) None q
| visited_poor l item r :
    q = l ++ item :: r → of_stream (item_stream item) l = [] → class item = c →
    (∀ x, x ∈ l → class x = c → eligible s (class_index c) x = false) →
    topped_up s c (wire_len item) < wire_len item →
    visited s q c
      (advance (set_deficit (class_index c) (topped_up s c (wire_len item)) s)) None q
| visited_take l item r s' :
    q = l ++ item :: r → of_stream (item_stream item) l = [] → class item = c →
    (∀ x, x ∈ l → class x = c → eligible s (class_index c) x = false) →
    wire_len item ≤ topped_up s c (wire_len item) →
    represents s' (l ++ r) →
    deficits s' =
      <[class_index c := topped_up s c (wire_len item) - wire_len item]> (deficits s) →
    cursor s' = ((cursor s + 1) mod CLASS_COUNT)%nat →
    max_queued_bytes s' = max_queued_bytes s →
    visited s q c s' (Some item) (l ++ r).

Lemma visit_cases s q c :
  represents s q → cursor s = class_index c →
  ∃ s' o q', visit s = Some (s', o) ∧ visited s q c s' o q' ∧ represents s' q' ∧
    max_queued_bytes s' = max_queued_bytes s.
Proof.
  intros Hr Hcur. pose proof Hr as []. unfold visit. rewrite Hcur, rep_queues0. simpl.
  destruct (position _ _) as [pos|] eqn:Hpos.
  2:{ rewrite position_None in Hpos. eexists _, _, _. split; [done|]. split; [|split; [|done]].
      - apply visited_idle. intros item Hin Hc. apply Hpos. by apply list_elem_of_filter.
      - by apply represents_advance, represents_set_deficit. }
  pose proof (proj1 (position_Some _ _ _) Hpos) as (x & Hx & _ & Hmin).
  apply (position_eligible _ _ _ _ Hr) in Hpos as (l & item & r & -> & Hl & <- & ->).
  assert (x = item) as ->.
  { unfold of_class in Hx. rewrite filter_app, filter_cons_True, list_lookup_middle in Hx by done.
    by injection Hx. }
  assert (∀ x, x ∈ l → class x = class item → eligible s (class_index (class item)) x = false)
    as Hearly.
  { intros y Hy Hyc. assert (y ∈ of_class (class item) l) as Hin by (by apply list_elem_of_filter).
    apply list_elem_of_lookup in Hin as [j Hj]. apply (Hmin j).
    - unfold of_class in *. rewrite filter_app. by apply lookup_app_l_Some.
    - by eapply lookup_lt_Some. }
  rewrite Hx. simpl. pose proof (class_index_lt (class item)) as Hlt.
  rewrite (list_lookup_lookup_total_lt (deficits s)) by lia. simpl. rewrite rep_quanta0.
  rewrite (list_lookup_lookup_total_lt DEFAULT_QUANTA) by done. simpl.
  fold (topped_up s (class item) (wire_len item)).
  destruct (topped_up s (class item) (wire_len item) <? wire_len item) eqn:Hd.
  - eexists _, _, _. split; [done|]. split; [|split; [|done]].
    + apply (visited_poor _ _ _ l item r); [done..|]. lia.
    + by apply represents_advance, represents_set_deficit.
  - destruct (represents_take s l item r _ _ (topped_up s (class item) (wire_len item)) Hr Hl
      eq_refl eq_refl) as (s' & Hs' & Hr' & Hd' & Hc' & Hm').
    exists s', (Some item), (l ++ r). split; [done|]. split; [|done].
    apply (visited_take _ _ _ l item r); try done. lia.
Qed.

(** What one iteration or one call of [dequeue] does to the queue. *)
Definition removes (q : list ScheduledFrame) (o : option ScheduledFrame)
    (q' : list ScheduledFrame) : Prop :=
  match o with
  | None => q' = q
  | Some item =>
      ∃ l r, q = l ++ item :: r ∧ q' = l ++ r ∧ of_stream (item_stream item) l = []
  end.

Lemma visited_removes s q c s' o q' : visited s q c s' o q' → removes q o q'.
Proof. destruct 1; simpl; eauto. Qed.

Lemma represents_loop n s q :
  represents s q →
  ∃ s' o q', dequeue_loop n s = Some (s', o) ∧ removes q o q' ∧ represents s' q' ∧
    max_queued_bytes s' = max_queued_bytes s.
Proof.
  revert s. induction n as [|n IH]; intros s Hr; simpl; [by eexists _, _, _|].
  destruct (class_index_surj (cursor s)) as [c Hc]; [apply (rep_cursor _ _ Hr)|].
  destruct (visit_cases s q c Hr Hc) as (s1 & o & q1 & -> & Hv & Hr1 & Hm1). simpl.
  apply visited_removes in Hv. destruct o as [item|]; simpl in Hv.
  - by eexists _, _, _.
  - subst q1. destruct (IH s1 Hr1) as (s2 & o & q2 & -> & Hq2 & Hr2 & Hm2).
    eexists _, _, _. split; [done|]. split; [done|]. split; [done|]. congruence.
Qed.

Lemma represents_dequeue s q :
  represents s q →
  ∃ s' o q', dequeue s = Some (s', o) ∧ removes q o q' ∧ represents s' q' ∧
    max_queued_bytes s' = max_queued_bytes s.
Proof.
  intros Hr. unfold dequeue. case_match; [by eexists _, _, _|]. by apply represents_loop.
Qed.

(** ** Progress towards the oldest frame

    [patience s f] bounds the iterations after which the oldest frame [f] has
    left: the rounds its class still has to save up for, and the distance of the
    cursor from that class. *)
Definition quantum_of (c : TrafficClass) : Z := DEFAULT_QUANTA !!! class_index c.
Definition rounds_for (c : TrafficClass) (bytes : Z) : Z :=
  Z.max 1 ((bytes + quantum_of c - 1) / quantum_of c).
Definition cursor_distance (s : FrameScheduler) (c : TrafficClass) : Z :=
  (Z.of_nat (class_index c) - Z.of_nat (cursor s)) mod 5.
Definition patience (s : FrameScheduler) (f : ScheduledFrame) : Z :=
  5 * (rounds_for (class f) (wire_len f - deficits s !!! class_index (class f)) - 1)
  + cursor_distance s (class f) + 1.

Lemma quantum_pos c : 0 < quantum_of c.
Proof. by destruct c. Qed.

Lemma cursor_distance_range s c : 0 ≤ cursor_distance s c < 5.
Proof. apply Z.mod_pos_bound. lia. Qed.

Lemma patience_pos s f : 1 ≤ patience s f.
Proof.
  pose proof (cursor_distance_range s (class f)). unfold patience, rounds_for. lia.
Qed.

Lemma cursor_distance_next s s' c :
  (cursor s < CLASS_COUNT)%nat → cursor s' = ((cursor s + 1) mod CLASS_COUNT)%nat →
  cursor_distance s' c =
  if decide (cursor s = class_index c) then 4 else cursor_distance s c - 1.
Proof.
  unfold cursor_distance. intros Hlt ->.
  apply class_index_surj in Hlt as [c' ->]. by destruct c, c'.
Qed.

Lemma cursor_distance_here s c : cursor s = class_index c → cursor_distance s c = 0.
Proof. unfold cursor_distance. intros ->. by rewrite Z.sub_diag. Qed.

(** Another frame's turn costs the oldest frame one step of patience. *)
Lemma patience_other s s' f :
  (cursor s < CLASS_COUNT)%nat → cursor s ≠ class_index (class f) →
  cursor s' = ((cursor s + 1) mod CLASS_COUNT)%nat →
  deficits s' !!! class_index (class f) = deficits s !!! class_index (class f) →
  patience s' f = patience s f - 1.
Proof.
  intros Hlt Hne Hc Hd. unfold patience. rewrite Hd.
  rewrite (cursor_distance_next s s') by done. rewrite decide_False by done. lia.
Qed.

(** A turn of its own class that it cannot afford costs it one too. *)
Lemma patience_poor s f :
  (cursor s < CLASS_COUNT)%nat → cursor s = class_index (class f) →
  length (deficits s) = CLASS_COUNT →
  topped_up s (class f) (wire_len f) < wire_len f →
  patience (advance (set_deficit (class_index (class f))
    (topped_up s (class f) (wire_len f)) s)) f = patience s f - 1.
Proof.
  intros Hlt Hc Hd Htop. unfold patience.
  rewrite (cursor_distance_next s) by done. rewrite decide_True by done.
  rewrite (cursor_distance_here s) by done. cbn [advance set_deficit deficits].
  rewrite list_lookup_total_insert, decide_True by (rewrite Hd; auto using class_index_lt).
  revert Htop. unfold topped_up. fold (quantum_of (class f)).
  generalize (deficits s !!! class_index (class f)) as d. intros d.
  pose proof (wire_len_range f). pose proof (quantum_pos (class f)) as Hq.
  destruct (d <? wire_len f) eqn:Hdl; [|lia]. unfold saturating_add. intros Htop.
  assert (usize_max `min` (d + quantum_of (class f)) = d + quantum_of (class f)) as Hmin by lia.
  rewrite Hmin in *. unfold rounds_for.
  replace (wire_len f - d + quantum_of (class f) - 1) with
    ((wire_len f - (d + quantum_of (class f)) + quantum_of (class f) - 1)
     + 1 * quantum_of (class f)) by lia.
  rewrite Z.div_add by lia.
  assert (1 ≤ (wire_len f - (d + quantum_of (class f)) + quantum_of (class f) - 1)
              / quantum_of (class f)) by (apply Z.div_le_lower_bound; lia). lia.
Qed.

Lemma head_eligible s f q :
  represents s (f :: q) → eligible s (class_index (class f)) f = true.
Proof.
  intros Hr. apply (eligible_spec _ _ _ _ Hr). exists f, (of_stream (item_stream f) q).
  split; [|done]. unfold of_stream. by rewrite filter_cons_True.
Qed.

Lemma patience_last s f :
  cursor s = class_index (class f) → wire_len f ≤ topped_up s (class f) (wire_len f) →
  patience s f = 1.
Proof.
  intros Hc Htop. unfold patience, rounds_for. rewrite (cursor_distance_here s) by done.
  pose proof (quantum_pos (class f)) as Hq.
  assert ((wire_len f - deficits s !!! class_index (class f) + quantum_of (class f) - 1)
    / quantum_of (class f) < 2); [|lia].
  apply Z.div_lt_upper_bound; [done|]. revert Htop. unfold topped_up, saturating_add.
  fold (quantum_of (class f)). case_match; lia.
Qed.

(** An iteration returns the oldest frame or uses up one step of its patience;
    it returns that frame in the last step and in no other. *)
Lemma visit_oldest s f q :
  represents s (f :: q) →
  ∃ s' o, visit s = Some (s', o) ∧
    ((o = Some f ∧ represents s' q ∧ patience s f = 1) ∨
     (1 < patience s f ∧ patience s' f = patience s f - 1 ∧
      ∃ q', represents s' (f :: q') ∧ (q = [] → o = None ∧ q' = []))).
Proof.
  intros Hr. pose proof (rep_cursor _ _ Hr) as Hlt.
  destruct (class_index_surj (cursor s) Hlt) as [c Hc].
  destruct (visit_cases s _ c Hr Hc) as (s' & o & q' & Hv & Hcase & Hr' & _).
  exists s', o. split; [done|].
  assert (∀ s1, patience s1 f = patience s f - 1 → 1 < patience s f) as Hgt.
  { intros s1 H1. pose proof (patience_pos s1 f). lia. }
  destruct (decide (class f = c)) as [<-|Hne].
  - destruct Hcase as [Hi|l item r Hq Hl Hic He Hp|l item r s' Hq Hl Hic He Hp Hr1 Hd Hc' Hm].
    + specialize (Hi f). rewrite (head_eligible _ _ _ Hr) in Hi.
      discriminate Hi; [left|done].
    + destruct l as [|x l]; simplify_list_eq.
      * right. split; [eapply Hgt|split]; [apply patience_poor..|by eauto];
          [try done; apply (rep_deficits _ _ Hr)..].
      * specialize (He x). rewrite (head_eligible _ _ _ Hr) in He.
        discriminate He; [left|done].
    + destruct l as [|x l]; simplify_list_eq; [left; auto using patience_last|].
      specialize (He x). rewrite (head_eligible _ _ _ Hr) in He.
      discriminate He; [left|done].
  - assert (cursor s ≠ class_index (class f)) as Hcne.
    { rewrite Hc. intros Heq%class_index_inj. congruence. }
    assert (patience s' f = patience s f - 1) as Hpat.
    { apply patience_other; [done..| |].
      - by destruct Hcase.
      - destruct Hcase as [| |? ? ? ? ? ? ? ? ? ? Hd]; [..|rewrite Hd];
          (apply list_lookup_total_insert_ne; intros Heq%class_index_inj; congruence). }
    right. split; [by eapply Hgt|]. split; [done|].
    destruct Hcase as [| |l item r s' Hq Hl Hic]; [by eauto..|].
    destruct l as [|x l]; simplify_list_eq. exists (l ++ r). split; [done|].
    intros Hnil. by apply app_nil in Hnil as [_ ?].
Qed.

(** With enough iterations for the oldest frame the loop returns a frame. *)
Lemma dequeue_loop_returns n s f q :
  represents s (f :: q) → patience s f ≤ Z.of_nat n →
  ∃ s' item, dequeue_loop n s = Some (s', Some item).
Proof.
  revert s q. induction n as [|n IH]; intros s q Hr Hn.
  { pose proof (patience_pos s f). lia. }
  simpl. destruct (visit_oldest s f q Hr) as (s' & o & -> & Hcase). simpl.
  destruct o as [item|]; [by eexists _, _|].
  destruct Hcase as [[? _]|(H1 & H2 & q' & Hr' & _)]; [done|]. apply (IH s' q' Hr'). lia.
Qed.

Lemma patience_bound s f q :
  represents s (f :: q) → 0 ≤ deficits s !!! class_index (class f) →
  patience s f ≤ 5 * rounds_for (class f) (wire_len f).
Proof.
  intros Hr Hd. pose proof (cursor_distance_range s (class f)).
  pose proof (quantum_pos (class f)). unfold patience, rounds_for.
  assert ((wire_len f - deficits s !!! class_index (class f) + quantum_of (class f) - 1)
    / quantum_of (class f) ≤ (wire_len f + quantum_of (class f) - 1) / quantum_of (class f))
    by (apply Z.div_le_mono; lia).
  lia.
Qed.

(** One [dequeue] with the oldest frame waiting. *)
Lemma dequeue_loop_oldest n s f q :
  represents s (f :: q) →
  ∃ s' o, dequeue_loop n s = Some (s', o) ∧
    (o = Some f ∨ ∃ q', represents s' (f :: q') ∧
       patience s' f ≤ patience s f - Z.min 1 (Z.of_nat n)).
Proof.
  revert s q. induction n as [|n IH]; intros s q Hr; simpl.
  { eexists _, _. split; [done|]. right. exists q. split; [done|lia]. }
  destruct (visit_oldest s f q Hr) as (s' & o & -> & Hcase). simpl.
  destruct Hcase as [[-> _]|(H1 & H2 & q' & Hr' & _)]; [eauto|]. destruct o as [item|].
  - eexists _, _. split; [done|]. right. exists q'. split; [done|lia].
  - destruct (IH s' q' Hr') as (s2 & o & -> & [->|(q2 & Hr2 & H3)]); eexists _, _;
      (split; [done|]); [by left|]. right. exists q2. split; [done|lia].
Qed.

Lemma dequeue_oldest s f q :
  represents s (f :: q) →
  ∃ s' o, dequeue s = Some (s', o) ∧
    (o = Some f ∨ ∃ q', represents s' (f :: q') ∧ patience s' f ≤ patience s f - 1).
Proof.
  intros Hr. unfold dequeue. rewrite (rep_bytes _ _ Hr).
  destruct (total_bytes (f :: q) =? 0) eqn:Hz.
  { apply Z.eqb_eq, total_bytes_zero in Hz. done. }
  exact (dequeue_loop_oldest dequeue_attempts s f q Hr).
Qed.

(** Deficits never go below zero. *)
Definition solvent (s : FrameScheduler) : Prop := Forall (λ d, 0 ≤ d) (deficits s).

Lemma solvent_lookup s c : solvent s → 0 ≤ deficits s !!! class_index c.
Proof.
  unfold solvent. rewrite Forall_lookup, list_lookup_total_alt. intros Hd.
  destruct (deficits s !! class_index c) eqn:Hc; simpl; [by eapply Hd|done].
Qed.

Lemma topped_up_nonneg s c cost : solvent s → 0 ≤ topped_up s c cost.
Proof.
  intros Hs%(solvent_lookup _ c). unfold topped_up, saturating_add.
  pose proof usize_max_lb. pose proof (quantum_pos c). unfold quantum_of, u32_max in *.
  case_match; lia.
Qed.

Lemma visit_solvent s q s' o :
  represents s q → solvent s → visit s = Some (s', o) → solvent s'.
Proof.
  intros Hr Hs Hv. destruct (class_index_surj _ (rep_cursor _ _ Hr)) as [c Hc].
  destruct (visit_cases s q c Hr Hc) as (s1 & o1 & q1 & Hv1 & Hcase & _).
  rewrite Hv in Hv1. injection Hv1 as <- <-. unfold solvent in *.
  pose proof (topped_up_nonneg s c). destruct Hcase as [| |? ? ? ? ? ? ? ? ? ? Hd];
    cbn [advance set_deficit deficits]; [..|rewrite Hd];
    apply Forall_insert; try done; [by apply topped_up_nonneg|lia].
Qed.

Lemma dequeue_loop_solvent n s q s' o :
  represents s q → solvent s → dequeue_loop n s = Some (s', o) → solvent s'.
Proof.
  revert s q. induction n as [|n IH]; intros s q Hr Hs Hl; simpl in Hl; [by simplify_eq|].
  destruct (class_index_surj _ (rep_cursor _ _ Hr)) as [c Hc].
  destruct (visit_cases s q c Hr Hc) as (s1 & o1 & q1 & Hv & Hcase & Hr1 & _).
  pose proof (visit_solvent _ _ _ _ Hr Hs Hv) as Hs1. rewrite Hv in Hl. simpl in Hl.
  destruct o1 as [item|]; [by simplify_eq|]. by eapply IH.
Qed.

Lemma dequeue_solvent s q s' o :
  represents s q → solvent s → dequeue s = Some (s', o) → solvent s'.
Proof.
  intros Hr Hs. unfold dequeue. case_match; [intros; by simplify_eq|].
  by eapply dequeue_loop_solvent.
Qed.

Lemma enqueue_solvent s item s' r : solvent s → enqueue item s = (s', r) → solvent s'.
Proof.
  unfold enqueue, solvent. intros Hs He. repeat case_match; simplify_eq; done.
Qed.

(** ** Runs

    A run interleaves [enqueue] and [dequeue] calls; it yields the frames that
    were accepted and the frames that were returned, each in order. *)
Inductive scheduler_op : Type :=
| Enqueue (item : ScheduledFrame)
| Dequeue.

Fixpoint run (ops : list scheduler_op) (s : FrameScheduler) :
    option (FrameScheduler * list ScheduledFrame * list ScheduledFrame) :=
  match ops with
  | [] => Some (s, [], [])
  | Enqueue item :: ops =>
      let '(s1, r) := enqueue item s in
      '(s2, accepted, sent) ← run ops s1;
      Some (s2, match r with Ok _ => item :: accepted | Err _ => accepted end, sent)
  | Dequeue :: ops =>
      '(s1, o) ← dequeue s;
      '(s2, accepted, sent) ← run ops s1;
      Some (s2, accepted, match o with Some item => item :: sent | None => sent end)
  end.

Fixpoint dequeues (ops : list scheduler_op) : Z :=
  match ops with
  | [] => 0
  | Dequeue :: ops => 1 + dequeues ops
  | Enqueue _ :: ops => dequeues ops
  end.

Lemma of_stream_app sid q q' : of_stream sid (q ++ q') = of_stream sid q ++ of_stream sid q'.
Proof. apply filter_app. Qed.

(** A returned frame was the first of its stream, whatever the stream. *)
Lemma removes_of_stream q item q' sid :
  removes q (Some item) q' →
  of_stream sid q = of_stream sid [item] ++ of_stream sid q'.
Proof.
  intros (l & r & -> & -> & Hl). rewrite (cons_middle item), !of_stream_app.
  destruct (decide (item_stream item = sid)) as [<-|Hne]; [by rewrite Hl|].
  unfold of_stream at 2 4. by rewrite filter_cons_False.
Qed.

(** A run never panics, and moves the accepted frames through the queue. *)
Lemma run_represents ops s q :
  represents s q → solvent s →
  ∃ s' accepted sent q', run ops s = Some (s', accepted, sent) ∧ represents s' q' ∧
    solvent s' ∧ max_queued_bytes s' = max_queued_bytes s ∧ q ++ accepted ≡ₚ sent ++ q' ∧
    ∀ sid, of_stream sid (q ++ accepted) = of_stream sid (sent ++ q').
Proof.
  revert s q. induction ops as [|[item|] ops IH]; intros s q Hr Hs; simpl.
  - exists s, [], [], q. by rewrite app_nil_r.
  - destruct (represents_enqueue s q item Hr) as [[He _]|(s1 & He & Hr1 & _ & _ & _ & Hm)];
      pose proof (enqueue_solvent _ _ _ _ Hs He) as Hs1; rewrite He;
      [destruct (IH s q Hr Hs) as (s2 & a & b & q2 & -> & Hr2 & Hs2 & Hm2 & Hp & Hf)
      |destruct (IH s1 _ Hr1 Hs1) as (s2 & a & b & q2 & -> & Hr2 & Hs2 & Hm2 & Hp & Hf)];
      simpl; eexists _, _, _, q2; (split; [done|]); [done|].
    rewrite <-(app_assoc q [item] a) in Hp, Hf.
    repeat (split; [done||congruence|]); done.
  - destruct (represents_dequeue s q Hr) as (s1 & o & q1 & Hd & Hrem & Hr1 & Hm).
    pose proof (dequeue_solvent _ _ _ _ Hr Hs Hd) as Hs1. rewrite Hd. simpl.
    destruct (IH s1 q1 Hr1 Hs1) as (s2 & a & b & q2 & -> & Hr2 & Hs2 & Hm2 & Hp & Hf). simpl.
    eexists _, _, _, q2. split; [done|]. split; [done|]. split; [done|]. split; [congruence|].
    destruct o as [item|]; [|simpl in Hrem; by subst]. split.
    + destruct Hrem as (l & r & -> & -> & _). simpl. rewrite <-Hp.
      by rewrite <-Permutation_middle, app_comm_cons.
    + intros sid. rewrite of_stream_app, (removes_of_stream _ _ _ sid Hrem), <-app_assoc,
        <-of_stream_app, Hf. by rewrite <-of_stream_app.
Qed.

Lemma run_oldest ops s f q s' accepted sent :
  represents s (f :: q) → solvent s → run ops s = Some (s', accepted, sent) →
  patience s f ≤ dequeues ops → f ∈ sent.
Proof.
  revert s q accepted sent. induction ops as [|[item|] ops IH]; intros s q a b Hr Hs Hrun Hn;
    simpl in Hrun, Hn.
  - pose proof (patience_pos s f). lia.
  - assert (∃ s1 r q1, enqueue item s = (s1, r) ∧ represents s1 (f :: q1) ∧
      patience s1 f = patience s f) as (s1 & r & q1 & He & Hr1 & Hp).
    { destruct (represents_enqueue s _ item Hr) as [[He _]|(s1 & He & Hr1 & _ & Hd & Hc & _)].
      - by eexists _, _, _.
      - eexists _, _, _. split; [done|]. split; [done|]. unfold patience, cursor_distance.
        by rewrite Hd, Hc. }
    pose proof (enqueue_solvent _ _ _ _ Hs He) as Hs1. rewrite He in Hrun.
    destruct (run ops s1) as [[[s2 a2] b2]|] eqn:Hr2; [|done]. simpl in Hrun.
    injection Hrun as <- <- <-. eapply IH; [done..|]. lia.
  - destruct (dequeue_oldest s f q Hr) as (s1 & o & Hd & Hcase).
    pose proof (dequeue_solvent _ _ _ _ Hr Hs Hd) as Hs1. rewrite Hd in Hrun. simpl in Hrun.
    destruct (run ops s1) as [[[s2 a2] b2]|] eqn:Hr2; [|done]. simpl in Hrun.
    injection Hrun as <- <- <-. destruct Hcase as [->|(q1 & Hr1 & Hp)]; [left|].
    assert (f ∈ b2) by (eapply IH; [done..|lia]). destruct o; [by right|done].
Qed.

(** ** Theorems *)

(** C11: Frames leave the scheduler in the order of their stream.  Over any
    interleaving of [enqueue] and [dequeue] calls on a new scheduler, no call
    panics; the frames of a stream that were returned, followed by those still
    queued, are exactly the accepted frames of that stream in their order;
    nothing is lost or duplicated; and the bytes queued, which
    [queued_bytes] reports, never exceed the bound given to
    [FrameScheduler::new]. *)
Theorem scheduler_keeps_stream_order max ops :
  0 ≤ max ≤ usize_max →
  ∃ s accepted sent queued,
    run ops (scheduler_new max) = Some (s, accepted, sent) ∧
    represents s queued ∧
    accepted ≡ₚ sent ++ queued ∧
    (∀ sid, of_stream sid accepted = of_stream sid sent ++ of_stream sid queued) ∧
    queued_bytes s = total_bytes queued ∧ total_bytes queued ≤ max.
Proof.
  intros Hmax. destruct (run_represents ops (scheduler_new max) [])
    as (s & a & b & q & Hrun & Hr & _ & Hm & Hp & Hf).
  { by apply represents_new. }
  { by apply Forall_replicate. }
  exists s, a, b, q. repeat (split; [done|]). split.
  { intros sid. by rewrite <-of_stream_app, <-Hf. }
  pose proof (rep_bytes _ _ Hr). pose proof (rep_bound _ _ Hr). rewrite Hm in *. simpl in *. lia.
Qed.

(** [enqueue] accepts a frame exactly when it fits below the byte bound,
    appending it to the queue; otherwise it reports [QueueFull] and changes
    nothing. *)
Theorem enqueue_iff_room s q item :
  represents s q →
  if bool_decide (total_bytes q + wire_len item ≤ max_queued_bytes s)
  then ∃ s', enqueue item s = (s', Ok tt) ∧ represents s' (q ++ [item])
  else enqueue item s = (s, Err SchedulerError.QueueFull).
Proof.
  intros Hr. destruct (represents_enqueue s q item Hr) as [[-> ?]|(s' & -> & ? & ? & _)].
  - rewrite bool_decide_eq_false_2 by lia. done.
  - rewrite bool_decide_eq_true_2 by lia. eauto.
Qed.

(** A non-empty scheduler whose oldest frame costs at most 512 quanta of
    its class (2 MiB for bulk traffic) returns a frame on every call of
    [dequeue]: the loop's 2560 visits are enough. *)
Theorem dequeue_returns_a_frame s f q :
  represents s (f :: q) → solvent s → wire_len f ≤ 512 * quantum_of (class f) →
  ∃ s' item, dequeue s = Some (s', Some item).
Proof.
  intros Hr Hs Hlen. unfold dequeue. rewrite (rep_bytes _ _ Hr).
  destruct (total_bytes (f :: q) =? 0) eqn:Hz.
  { apply Z.eqb_eq, total_bytes_zero in Hz. done. }
  apply (dequeue_loop_returns _ s f q Hr).
  pose proof (patience_bound s f q Hr (solvent_lookup _ _ Hs)) as Hp.
  pose proof (quantum_pos (class f)) as Hq.
  assert (rounds_for (class f) (wire_len f) ≤ 512) as Hrounds.
  { apply Z.max_lub; [lia|].
    assert ((wire_len f + quantum_of (class f) - 1) / quantum_of (class f) < 513); [|lia].
    apply Z.div_lt_upper_bound; lia. }
  change (Z.of_nat dequeue_attempts) with 2560. lia.
Qed.

(** C34: No frame starves.  Whatever else is enqueued meanwhile, the oldest
    frame has been returned after five [dequeue] calls per quantum of its
    cost. *)
Theorem oldest_frame_is_not_starved ops s f q s' accepted sent :
  represents s (f :: q) → solvent s →
  run ops s = Some (s', accepted, sent) →
  5 * rounds_for (class f) (wire_len f) ≤ dequeues ops →
  f ∈ sent.
Proof.
  intros Hr Hs Hrun Hn. eapply run_oldest; [done..|].
  pose proof (patience_bound s f q Hr (solvent_lookup _ _ Hs)). lia.
Qed.

(** A lone frame that needs more iterations than it gets stays. *)
Lemma dequeue_loop_stalls n s f :
  represents s [f] → Z.of_nat n < patience s f →
  ∃ s', dequeue_loop n s = Some (s', None) ∧ represents s' [f].
Proof.
  revert s. induction n as [|n IH]; intros s Hr Hn; simpl; [by eexists|].
  destruct (visit_oldest s f [] Hr) as (s' & o & -> & [(_ & _ & ?)|(_ & Hp & q' & Hr' & Hq)]);
    [lia|].
  destruct Hq as [-> ->]; [done|]. simpl. apply IH; [done|lia].
Qed.

(** 2560 visits do not let every class save up for a maximum-sized frame: a
    bulk frame of more than 512 quanta (2 MiB, while frames may have 16 MiB)
    makes one call of [dequeue] return [None] although the queue is not
    empty. *)
Theorem large_bulk_frame_stalls max f :
  0 ≤ max ≤ usize_max → class f = TrafficClass.Bulk →
  512 * 4096 < wire_len f ≤ max →
  ∃ s s', enqueue f (scheduler_new max) = (s, Ok tt) ∧
    dequeue s = Some (s', None) ∧ is_empty s' = false ∧ represents s' [f].
Proof.
  intros Hmax Hc Hlen.
  destruct (represents_enqueue _ [] f (represents_new max Hmax))
    as [[_ ?]|(s & He & Hr & _ & Hd & Hcur & _)]; [simpl in *; lia|].
  assert (2560 < patience s f) as Hp.
  { unfold patience, rounds_for, cursor_distance. rewrite Hd, Hcur, Hc.
    change (2560 < 5 * (1 `max` ((wire_len f - 0 + 4096 - 1) / 4096) - 1) + 4 + 1).
    assert (513 ≤ (wire_len f - 0 + 4096 - 1) / 4096); [|lia].
    apply Z.div_le_lower_bound; lia. }
  destruct (dequeue_loop_stalls dequeue_attempts s f Hr Hp) as (s' & Hs' & Hr').
  assert (total_bytes [f] ≠ 0) as Hne by (by rewrite total_bytes_zero).
  exists s, s'. split; [done|]. unfold dequeue, is_empty.
  rewrite (rep_bytes _ _ Hr), (rep_bytes _ _ Hr'). cbn [app].
  rewrite (proj2 (Z.eqb_neq _ _) Hne). split; [exact Hs'|done].
Qed.
End operations.

(** ** What the scheduler promises to a connection

    A bounded queue of frames that keeps the order of every stream.  The
    connection actor is verified against this interface. *)
Class FrameQueue (Q : Type) := {
  queue_new : Z → Q;
  queue_enqueue : ScheduledFrame → M Q SchedulerError unit;
  queue_dequeue : Q → Q * option ScheduledFrame;
  queue_is_empty : Q → bool;
  holds : Q → list ScheduledFrame → Prop;
  queue_new_holds max : 0 ≤ max ≤ u32_max → holds (queue_new max) [];
  queue_enqueue_holds s q item s' r :
    holds s q → queue_enqueue item s = (s', r) →
    (r = Ok tt ∧ holds s' (q ++ [item])) ∨ (r = Err SchedulerError.QueueFull ∧ s' = s);
  queue_dequeue_holds s q s' o :
    holds s q → queue_dequeue s = (s', o) → ∃ q', holds s' q' ∧ removes q o q';
  queue_is_empty_holds s q : holds s q → queue_is_empty s = bool_decide (q = []);
}.

#[export, refine] Instance scheduler_frame_queue `{PointerWidth} : FrameQueue FrameScheduler := {|
  queue_new := scheduler_new;
  queue_enqueue := enqueue;
  queue_dequeue s := default (s, None) (dequeue s);
  queue_is_empty := is_empty;
  holds := represents;
|}.
Proof.
  - intros max Hmax. apply represents_new. pose proof usize_max_lb. lia.
  - intros s q item s' r Hr. destruct (represents_enqueue s q item Hr) as [[-> _]|(s1 & -> & ? & _)];
      intros [= <- <-]; auto.
  - intros s q s' o Hr. destruct (represents_dequeue s q Hr) as (s1 & o1 & q1 & -> & ? & ? & _).
    simpl. intros [= <- <-]. eauto.
  - intros s q Hr. unfold is_empty. rewrite (rep_bytes _ _ Hr).
    case_bool_decide as Hq; [by apply Z.eqb_eq, total_bytes_zero|].
    apply Z.eqb_neq. by rewrite total_bytes_zero.
Defined.

(** ** The transport registry *)

Module TransportKind.

Inductive TransportKind : Type := UsbBulk | Tcp.

End TransportKind.
Abbreviation TransportKind := TransportKind.TransportKind.

#[export] Instance TransportKind_eq_dec : EqDecision TransportKind.
Proof. solve_decision. Defined.

Record TransportCandidate : Type := {
  id : string;
  kind : TransportKind;
  online : bool;
  round_trip_micros : Z;
  estimated_bytes_per_second : Z;
}.

(** [BTreeMap<String, Vec<TransportCandidate>>]. *)
Abbreviation TransportRegistry := (gmap string (list TransportCandidate)).

(** [iter_mut().find(p)] followed by an assignment through the reference:
    the first element that satisfies [p] is replaced by [f] of it. *)
Fixpoint update_first {A} (p : A → bool) (f : A → A) (l : list A) : list A :=
  match l with
  | [] => []
  | x :: l => if p x then f x :: l else x :: update_first p f l
  end.

Definition same_id (transport_id : string) (c : TransportCandidate) : bool :=
  bool_decide (id c = transport_id).

(** [TransportRegistry::register]. *)
Definition register (serial : string) (candidate : TransportCandidate)
    (r : TransportRegistry) : TransportRegistry :=
  let candidates := default [] (r !! serial) in
  <[serial := if existsb (same_id (id candidate)) candidates
              then update_first (same_id (id candidate)) (λ _, candidate) candidates
              else candidates ++ [candidate]]> r.

(** The key of [min_by_key] in [TransportRegistry::select]; tuples compare
    lexicographically and [false] is below [true]. *)
Definition select_key (c : TrafficClass) (t : TransportCandidate) : bool * Z :=
  match c with
  | TrafficClass.Bulk =>
      (bool_decide (kind t ≠ TransportKind.UsbBulk),
       saturating_sub u64_max (estimated_bytes_per_second t))
  | _ => (false, round_trip_micros t)
  end.

Definition key_lt (a b : bool * Z) : bool :=
  match a.1, b.1 with
  | false, true => true
  | true, false => false
  | _, _ => a.2 <? b.2
  end.

(** [Iterator::min_by_key]: the first of the least elements. *)
Fixpoint min_by_key {A} (key : A → bool * Z) (l : list A) : option A :=
  match l with
  | [] => None
  | x :: l =>
      match min_by_key key l with
      | None => Some x
      | Some y => if key_lt (key y) (key x) then Some y else Some x
      end
  end.

(** [TransportRegistry::select]. *)
Definition select (serial : string) (c : TrafficClass) (r : TransportRegistry) :
    option TransportCandidate :=
  candidates ← r !! serial;
  min_by_key (select_key c) (filter (λ t, online t = true) candidates).

Definition set_offline (t : TransportCandidate) : TransportCandidate :=
  {| id := id t; kind := kind t; online := false;
     round_trip_micros := round_trip_micros t;
     estimated_bytes_per_second := estimated_bytes_per_second t |}.

(** [TransportRegistry::mark_offline]. *)
Definition mark_offline (serial transport_id : string) (r : TransportRegistry) :
    TransportRegistry :=
  alter (update_first (same_id transport_id) set_offline) serial r.

(** No device lists two candidates with one id. *)
Definition registry_wf (r : TransportRegistry) : Prop :=
  ∀ serial candidates, r !! serial = Some candidates → NoDup (id <$> candidates).

Inductive registry_op : Type :=
| Register (serial : string) (candidate : TransportCandidate)
| MarkOffline (serial transport_id : string).

Definition registry_step (r : TransportRegistry) (op : registry_op) : TransportRegistry :=
  match op with
  | Register serial candidate => register serial candidate r
  | MarkOffline serial transport_id => mark_offline serial transport_id r
  end.

Definition registry_run (ops : list registry_op) : TransportRegistry :=
  foldl registry_step ∅ ops.

(** The last word on a transport: what was last registered under its id, off
    line when it was marked so since. *)
Definition report (serial transport_id : string) (op : registry_op)
    (o : option TransportCandidate) : option TransportCandidate :=
  match op with
  | Register serial' candidate =>
      if bool_decide (serial' = serial ∧ id candidate = transport_id) then Some candidate else o
  | MarkOffline serial' transport_id' =>
      if bool_decide (serial' = serial ∧ transport_id' = transport_id)
      then set_offline <$> o else o
  end.

Definition last_report (serial transport_id : string) (ops : list registry_op) :
    option TransportCandidate :=
  foldl (λ o op, report serial transport_id op o) None ops.

Lemma update_first_ids tid f l :
  (∀ x, id x = tid → id (f x) = tid) →
  id <$> update_first (same_id tid) f l = id <$> l.
Proof.
  intros Hf. induction l as [|x l IH]; [done|]. cbn [update_first]. unfold same_id at 1.
  case_bool_decide as Hx; rewrite !fmap_cons; [|by rewrite IH]. by rewrite (Hf x Hx), Hx.
Qed.

Lemma elem_of_update_first tid f l t :
  NoDup (id <$> l) → (∀ x, id x = tid → id (f x) = tid) →
  t ∈ update_first (same_id tid) f l ↔
  (id t ≠ tid ∧ t ∈ l) ∨ ∃ x, x ∈ l ∧ id x = tid ∧ t = f x.
Proof.
  intros Hnd Hf. induction l as [|x l IH]; simpl; [set_solver|].
  rewrite fmap_cons in Hnd. apply NoDup_cons in Hnd as [Hx Hnd]. specialize (IH Hnd).
  rewrite list_elem_of_fmap in Hx. unfold same_id at 1. case_bool_decide as Hid.
  - assert (∀ y, y ∈ l → id y ≠ tid) as Hl by (intros y ? ?; apply Hx; exists y; by subst).
    set_solver.
  - set_solver.
Qed.

(** The registry records exactly the last report on every transport. *)
Definition registry_records (ops : list registry_op) (r : TransportRegistry) : Prop :=
  registry_wf r ∧
  ∀ serial tid t, t ∈ default [] (r !! serial) ∧ id t = tid ↔
    last_report serial tid ops = Some t.

Lemma registry_wf_default r serial : registry_wf r → NoDup (id <$> default [] (r !! serial)).
Proof. intros Hwf. destruct (r !! serial) eqn:Hr; simpl; [eauto|constructor]. Qed.

Lemma existsb_same_id tid l : existsb (same_id tid) l = true ↔ tid ∈ id <$> l.
Proof.
  rewrite existsb_exists, list_elem_of_fmap. unfold same_id.
  setoid_rewrite bool_decide_eq_true. setoid_rewrite <-list_elem_of_In. naive_solver.
Qed.

Lemma register_records ops r serial c :
  registry_records ops r → registry_records (ops ++ [Register serial c]) (register serial c r).
Proof.
  intros [Hwf Hrec]. pose proof (registry_wf_default r serial Hwf) as Hnd. unfold register.
  assert (∀ x, id x = id c → id c = id c) as Hid by done. split.
  - intros serial' cs. destruct (decide (serial = serial')) as [<-|Hne].
    2:{ rewrite lookup_insert_ne by done. apply Hwf. }
    rewrite lookup_insert, decide_True by done. intros [= <-].
    destruct (existsb _ _) eqn:Hex; [by rewrite update_first_ids|].
    rewrite fmap_app. apply NoDup_app. split; [done|]. split; [|apply NoDup_singleton].
    intros t Ht Htc. apply list_elem_of_singleton in Htc as ->.
    apply existsb_same_id in Ht. congruence.
  - intros serial' tid t. unfold last_report. rewrite foldl_snoc. unfold report at 1.
    fold (last_report serial' tid ops). specialize (Hrec serial' tid t).
    destruct (decide (serial = serial')) as [<-|Hne].
    2:{ rewrite lookup_insert_ne by done. by rewrite bool_decide_eq_false_2 by naive_solver. }
    rewrite lookup_insert, decide_True by done. simpl.
    destruct (existsb _ _) eqn:Hex.
    + rewrite elem_of_update_first by done. apply existsb_same_id in Hex.
      apply list_elem_of_fmap in Hex as (x & Hx1 & Hx2).
      case_bool_decide as Hid'; naive_solver.
    + assert (∀ x, x ∈ default [] (r !! serial) → id x ≠ id c) as Hno.
      { intros x Hx Hxc. apply not_true_iff_false in Hex. apply Hex, existsb_same_id.
        rewrite <-Hxc. by apply list_elem_of_fmap_2. }
      rewrite elem_of_app, list_elem_of_singleton. case_bool_decide as Hid'; naive_solver.
Qed.

Lemma mark_offline_records ops r serial tid :
  registry_records ops r →
  registry_records (ops ++ [MarkOffline serial tid]) (mark_offline serial tid r).
Proof.
  intros [Hwf Hrec]. unfold mark_offline.
  assert (∀ x, id x = tid → id (set_offline x) = tid) as Hid by done. split.
  - intros serial' cs. destruct (decide (serial = serial')) as [<-|Hne].
    2:{ rewrite lookup_alter_ne by done. apply Hwf. }
    rewrite lookup_alter, decide_True by done. destruct (r !! serial) eqn:Hr; [|done].
    intros [= <-]. rewrite update_first_ids by done. by eapply Hwf.
  - intros serial' tid' t. unfold last_report. rewrite foldl_snoc. unfold report at 1.
    fold (last_report serial' tid' ops). pose proof (Hrec serial' tid') as Hrec'.
    pose proof (registry_wf_default r serial' Hwf) as Hnd.
    destruct (decide (serial = serial')) as [<-|Hne].
    2:{ rewrite lookup_alter_ne by done. by rewrite bool_decide_eq_false_2 by naive_solver. }
    rewrite lookup_alter, decide_True by done.
    assert (default [] (update_first (same_id tid) set_offline <$> r !! serial) =
      update_first (same_id tid) set_offline (default [] (r !! serial))) as ->
      by (by destruct (r !! serial)).
    rewrite elem_of_update_first by done.
    case_bool_decide as Hid'.
    + destruct Hid' as [_ <-]. rewrite fmap_Some. setoid_rewrite <-Hrec'. naive_solver.
    + rewrite <-Hrec'. naive_solver.
Qed.

Lemma registry_run_records ops : registry_records ops (registry_run ops).
Proof.
  induction ops as [|op ops IH] using rev_ind.
  { split; [done|]. intros. unfold registry_run. simpl. rewrite lookup_empty. set_solver. }
  unfold registry_run. rewrite foldl_snoc. fold (registry_run ops).
  destruct op; [by apply register_records|by apply mark_offline_records].
Qed.

Lemma key_lt_trans a b c : key_lt b a = false → key_lt c b = false → key_lt c a = false.
Proof. destruct a as [[] ?], b as [[] ?], c as [[] ?]; unfold key_lt; simpl; lia. Qed.
Lemma key_lt_asym a b : key_lt a b = true → key_lt b a = false.
Proof. destruct a as [[] ?], b as [[] ?]; unfold key_lt; simpl; lia. Qed.

Lemma key_lt_irrefl a : key_lt a a = false.
Proof. destruct a as [[] ?]; unfold key_lt; simpl; lia. Qed.

Lemma min_by_key_spec {A} (key : A → bool * Z) l :
  match min_by_key key l with
  | None => l = []
  | Some x => x ∈ l ∧ ∀ y, y ∈ l → key_lt (key y) (key x) = false
  end.
Proof.
  induction l as [|x l IH]; simpl; [done|].
  destruct (min_by_key key l) as [y|].
  - destruct IH as [Hin Hmin]. destruct (key_lt (key y) (key x)) eqn:Hlt.
    + split; [by right|]. intros z [->|Hz]%elem_of_cons; [by apply key_lt_asym|eauto].
    + split; [by left|]. intros z [->|Hz]%elem_of_cons; [apply key_lt_irrefl|].
      eapply key_lt_trans; [exact Hlt|]. eauto.
  - subst l. split; [by left|]. intros z [->|[]%not_elem_of_nil]%elem_of_cons.
    apply key_lt_irrefl.
Qed.

(** [select] returns the best transport of a device.  After any sequence
    of registrations and losses of transports, the selected one is on line in
    the last report on it and no transport that is on line ranks strictly
    before it: for bulk traffic USB before TCP and then the higher throughput,
    for other traffic the lower round trip.  Nothing is selected only if no
    transport of the device is on line. *)
Theorem select_picks_best serial c ops :
  match select serial c (registry_run ops) with
  | Some t =>
      last_report serial (id t) ops = Some t ∧ online t = true ∧
      ∀ tid t', last_report serial tid ops = Some t' → online t' = true →
        key_lt (select_key c t') (select_key c t) = false
  | None => ∀ tid t', last_report serial tid ops = Some t' → online t' = false
  end.
Proof.
  destruct (registry_run_records ops) as [_ Hrec]. unfold select.
  specialize (Hrec serial). destruct (registry_run ops !! serial) as [l|]; simpl in *.
  2:{ by intros ?? [?%not_elem_of_nil _]%Hrec. }
  pose proof (min_by_key_spec (select_key c) (filter (λ t, online t = true) l)) as Hmin.
  destruct (min_by_key _ _) as [t|].
  - destruct Hmin as [Ht Hmin]. apply list_elem_of_filter in Ht as [Hon Hin].
    split; [by apply Hrec|]. split; [done|]. intros tid t' [Ht' _]%Hrec Hon'. apply Hmin.
    by apply list_elem_of_filter.
  - intros tid t' [Ht' _]%Hrec. apply not_true_is_false. intros Hon.
    assert (t' ∈ filter (λ t, online t = true) l) as Hf by (by apply list_elem_of_filter).
    rewrite Hmin in Hf. by apply not_elem_of_nil in Hf.
Qed.

(** ** Witnesses *)

Definition sample_item (c : TrafficClass) (sid seq : Z) : ScheduledFrame :=
  {| class := c; frame := {| header := header_new Command.Data sid seq; payload := [x00; x01] |} |}.

(** Data, then a CLOSE-class frame of the same stream, then another stream. *)
Definition sample_ops : list scheduler_op :=
  [Enqueue (sample_item TrafficClass.Bulk 1 0); Enqueue (sample_item TrafficClass.Control 1 1);
   Enqueue (sample_item TrafficClass.Control 3 0); Dequeue; Dequeue].

Lemma scheduler_keeps_stream_order_witness :
  0 ≤ 1000 ≤ u64_max ∧
  (snd <$> run sample_ops (scheduler_new 1000)) =
    Some [sample_item TrafficClass.Control 3 0; sample_item TrafficClass.Bulk 1 0] ∧
  ∃ s accepted sent queued,
    run sample_ops (scheduler_new 1000) = Some (s, accepted, sent) ∧
    represents s queued ∧ accepted ≡ₚ sent ++ queued ∧
    (∀ sid, of_stream sid accepted = of_stream sid sent ++ of_stream sid queued) ∧
    queued_bytes s = total_bytes queued ∧ total_bytes queued ≤ 1000.
Proof.
  split; [by unfold u64_max|]. split; [by vm_compute|].
  apply (scheduler_keeps_stream_order 1000 sample_ops). by unfold usize_max, host64, u64_max.
Defined.

Lemma enqueue_iff_room_witness :
  if bool_decide (total_bytes [] + wire_len (sample_item TrafficClass.Bulk 1 0) ≤ 41)
  then ∃ s', enqueue (sample_item TrafficClass.Bulk 1 0) (scheduler_new 41) = (s', Ok tt) ∧
         represents s' ([] ++ [sample_item TrafficClass.Bulk 1 0])
  else enqueue (sample_item TrafficClass.Bulk 1 0) (scheduler_new 41) =
         (scheduler_new 41, Err SchedulerError.QueueFull).
Proof.
  apply (enqueue_iff_room (scheduler_new 41) [] (sample_item TrafficClass.Bulk 1 0)).
  by apply represents_new.
Defined.

Lemma sample_represents :
  represents (enqueue (sample_item TrafficClass.Bulk 1 0) (scheduler_new 1000)).1
    [sample_item TrafficClass.Bulk 1 0].
Proof.
  destruct (represents_enqueue (scheduler_new 1000) [] (sample_item TrafficClass.Bulk 1 0))
    as [[He _]|(s & -> & Hr & _)]; [by apply represents_new| |done].
  by vm_compute in He.
Qed.

Lemma dequeue_returns_a_frame_witness :
  ∃ s' item,
    dequeue (enqueue (sample_item TrafficClass.Bulk 1 0) (scheduler_new 1000)).1 =
    Some (s', Some item).
Proof.
  apply (dequeue_returns_a_frame _ _ [] sample_represents); [|by vm_compute].
  by apply (Forall_replicate (λ d, 0 ≤ d)).
Defined.

Lemma oldest_frame_is_not_starved_witness :
  ∃ sent,
    snd <$> run (replicate 5 Dequeue)
      (enqueue (sample_item TrafficClass.Bulk 1 0) (scheduler_new 1000)).1 = Some sent ∧
    sample_item TrafficClass.Bulk 1 0 ∈ sent.
Proof.
  eexists. split; [vm_compute; reflexivity|].
  eapply (oldest_frame_is_not_starved (replicate 5 Dequeue) _ _ [] _ _ _ sample_represents);
    [by apply (Forall_replicate (λ d, 0 ≤ d))|vm_compute; reflexivity|by vm_compute].
Defined.

Definition large_item : ScheduledFrame :=
  {| class := TrafficClass.Bulk;
     frame := {| header := header_new Command.Data 1 0;
                 payload := replicate (Z.to_nat 2097152) x00 |} |}.

Lemma large_bulk_frame_stalls_witness :
  ∃ s s', enqueue large_item (scheduler_new 4194304) = (s, Ok tt) ∧
    dequeue s = Some (s', None) ∧ is_empty s' = false ∧ represents s' [large_item].
Proof.
  apply (large_bulk_frame_stalls 4194304 large_item); [by unfold usize_max, host64, u64_max|done|].
  unfold wire_len, saturating_add, len, large_item, HEADER_LEN, usize_max, host64, u64_max.
  cbn [frame payload]. rewrite length_replicate, Z2Nat.id by done. done.
Defined.
