(* ===== verification/Framing.v ===== *)
(** * Framing over byte streams: src/crates/kindlebridge-transport-tcp/src

    [config.rs], [error.rs] and [framing.rs]: frames are read from and written
    to any byte stream (TCP, USB bulk, FunctionFS).  The stream is the
    interface [Read]/[Write], the traits of the Rust standard library as far as
    the code uses them; the theorems hold for every instance, and [Script] is
    an instance that delivers bytes in arbitrary chunks with interruptions and
    failures. *)

From S2P Require Import Prelude WireFrame.

(** ** Errors *)

Module IoOperation.

Inductive IoOperation : Type :=
| Bind | Accept | Connect | Configure | ReadHeader | ReadPayload | WriteHeader
| WritePayload | Flush | Shutdown | Address.

End IoOperation.
Abbreviation IoOperation := IoOperation.IoOperation.

Module ErrorClass.

Inductive ErrorClass : Type :=
| CleanEof | Timeout | Truncated | Protocol | ResourceLimit | Configuration | Io.

End ErrorClass.
Abbreviation ErrorClass := ErrorClass.ErrorClass.

(** [std::io::ErrorKind], as far as the crates look at it; an [io::Error] is its kind, and
    [OtherKind] is an error of the operating system whose number no kind stands for. *)
Module ErrorKind.

Inductive ErrorKind : Type :=
| Interrupted | TimedOut | WouldBlock | WriteZero
| UnexpectedEof | InvalidData | BrokenPipe | ConnectionAborted | ConnectionReset | NotConnected
| OtherKind (code : Z).

End ErrorKind.
Abbreviation ErrorKind := ErrorKind.ErrorKind.

Module TransportError.

Inductive TransportError : Type :=
| EndOfStream
| TruncatedHeader (received : Z)
| TruncatedPayload (expected received : Z)
| Wire (error : WireError)
| ConfiguredPayloadLimitTooLarge (configured hard_limit : Z)
| PayloadExceedsHardLimit (length hard_limit : Z)
| PayloadAllocation (length : Z)
| FrameLengthMismatch (declared actual : Z)
| ZeroTimeout (name : string)
| Io (operation : IoOperation) (source : ErrorKind).

End TransportError.
Abbreviation TransportError := TransportError.TransportError.

(** [TransportError::class]. *)
Definition error_class (e : TransportError) : ErrorClass :=
  match e with
  | TransportError.EndOfStream => ErrorClass.CleanEof
  | TransportError.TruncatedHeader _ | TransportError.TruncatedPayload _ _ =>
      ErrorClass.Truncated
  | TransportError.Wire (WireError.PayloadTooLarge _ _)
  | TransportError.Wire (WireError.CreditTooLarge _ _)
  | TransportError.PayloadExceedsHardLimit _ _
  | TransportError.PayloadAllocation _ => ErrorClass.ResourceLimit
  | TransportError.Wire _ | TransportError.FrameLengthMismatch _ _ => ErrorClass.Protocol
  | TransportError.ConfiguredPayloadLimitTooLarge _ _ | TransportError.ZeroTimeout _ =>
      ErrorClass.Configuration
  | TransportError.Io _ (ErrorKind.TimedOut | ErrorKind.WouldBlock) => ErrorClass.Timeout
  | TransportError.Io _ _ => ErrorClass.Io
  end.

(** [TransportError::operation]. *)
Definition error_operation (e : TransportError) : option IoOperation :=
  match e with
  | TransportError.Io operation _ => Some operation
  | _ => None
  end.

(** ** Configuration: a [Duration] is its number of nanoseconds. *)

Definition DEFAULT_MAX_PAYLOAD : Z := 16 * 1024 * 1024.
Definition HARD_MAX_PAYLOAD : Z := 64 * 1024 * 1024.
Definition DEFAULT_CONNECT_TIMEOUT : Z := 5 * 10 ^ 9.
Definition DEFAULT_IO_TIMEOUT : Z := 30 * 10 ^ 9.

Record TransportConfig : Type := {
  limits : DecodeLimits;
  connect_timeout : Z;
  read_timeout : option Z;
  write_timeout : option Z;
  nodelay : bool;
}.

(** [TransportConfig::new]. *)
Definition transport_config_new (limits : DecodeLimits) : TransportConfig :=
  {| limits := limits;
     connect_timeout := DEFAULT_CONNECT_TIMEOUT;
     read_timeout := Some DEFAULT_IO_TIMEOUT;
     write_timeout := Some DEFAULT_IO_TIMEOUT;
     nodelay := true |}.

(** [TransportConfig::default]. *)
Definition default_config : TransportConfig :=
  transport_config_new
    {| max_payload := DEFAULT_MAX_PAYLOAD; max_window := DEFAULT_MAX_PAYLOAD |}.

(** [option.is_some_and(|timeout| timeout.is_zero())]. *)
Definition is_zero_timeout (t : option Z) : bool :=
  match t with
  | Some t => t =? 0
  | None => false
  end.

(** [TransportConfig::validate]. *)
Definition config_validate (c : TransportConfig) : result TransportError TransportConfig :=
  check? reject_if (max_payload (limits c) >? HARD_MAX_PAYLOAD)
           (TransportError.ConfiguredPayloadLimitTooLarge
              (max_payload (limits c)) HARD_MAX_PAYLOAD) in
  check? reject_if (connect_timeout c =? 0) (TransportError.ZeroTimeout "connect") in
  check? reject_if (is_zero_timeout (read_timeout c)) (TransportError.ZeroTimeout "read") in
  check? reject_if (is_zero_timeout (write_timeout c)) (TransportError.ZeroTimeout "write") in
  Ok c.

(** ** Byte streams

    [Read::read] fills at most [n] bytes.  [read_measure] bounds the reads left
    before the stream ends or fails, so that a loop of reads has a bound;
    [delivers r bs] says that the stream holds exactly [bs] before its end and
    that only interruptions disturb its delivery. *)
Class Read (R : Type) := {
  read : nat → R → R * result ErrorKind bytes;
  read_measure : R → nat;
  delivers : R → bytes → Prop;
  read_fits n r r' bs : read n r = (r', Ok bs) → (length bs ≤ n)%nat;
  read_decreases n r r' res :
    read n r = (r', res) → (0 < n)%nat →
    res = Err ErrorKind.Interrupted ∨ (∃ b bs, res = Ok (b :: bs)) →
    (read_measure r' < read_measure r)%nat;
  read_delivers n r r' res bs :
    delivers r bs → read n r = (r', res) → (0 < n)%nat →
    (res = Err ErrorKind.Interrupted ∧ delivers r' bs) ∨
    ∃ chunk rest, res = Ok chunk ∧ bs = chunk ++ rest ∧ delivers r' rest ∧
      (chunk = [] → bs = []);
}.

(** [Write::write_all] appends the bytes, or fails after a prefix of them;
    [flush] writes nothing new. *)
Class Write (W : Type) := {
  write_all : bytes → W → W * result ErrorKind unit;
  flush_stream : W → W * result ErrorKind unit;
  written : W → bytes;
  write_all_ok bs w w' : write_all bs w = (w', Ok tt) → written w' = written w ++ bs;
  write_all_err bs w w' e : write_all bs w = (w', Err e) →
    ∃ n, written w' = written w ++ take n bs;
  flush_written w : written (flush_stream w).1 = written w;
}.

Section reading.
Context {R : Type} `{Read R}.

(** [read_exact_counted]: the bytes received are the prefix of the buffer that
    was filled.  [attempts] bounds the iterations of the [while] loop. *)
Fixpoint read_loop (attempts : nat) (received : bytes) (wanted : nat)
    (operation : IoOperation) (r : R) : R * result TransportError bytes :=
  match attempts with
  | O => (r, Ok received)
  | S attempts =>
      if (length received <? wanted)%nat then
        match read (wanted - length received) r with
        | (r, Ok []) => (r, Ok received)
        | (r, Ok chunk) => read_loop attempts (received ++ chunk) wanted operation r
        | (r, Err ErrorKind.Interrupted) => read_loop attempts received wanted operation r
        | (r, Err e) => (r, Err (TransportError.Io operation e))
        end
      else (r, Ok received)
  end.

Definition read_exact_counted (wanted : nat) (operation : IoOperation) (r : R) :
    R * result TransportError bytes :=
  read_loop (S (read_measure r)) [] wanted operation r.

(** [Vec::try_reserve_exact] asks the allocator, which may refuse. *)
Variable can_reserve : Z → bool.

(** [read_frame_from]. *)
Definition read_frame_from (config : TransportConfig) : M R TransportError Frame :=
  let! header_bytes := read_exact_counted HEADER_LEN IoOperation.ReadHeader in
  let received := len header_bytes in
  do! mlift (reject_if (received =? 0) TransportError.EndOfStream) in
  do! mlift (reject_if (negb (received =? Z.of_nat HEADER_LEN))
               (TransportError.TruncatedHeader received)) in
  let! header := mlift (map_err TransportError.Wire
                          (header_decode header_bytes (limits config))) in
  do! mlift (reject_if (payload_length header >? HARD_MAX_PAYLOAD)
               (TransportError.PayloadExceedsHardLimit
                  (payload_length header) HARD_MAX_PAYLOAD)) in
  let payload_len := payload_length header in
  do! mlift (reject_if (negb (can_reserve payload_len))
               (TransportError.PayloadAllocation payload_len)) in
  let! payload := read_exact_counted (Z.to_nat payload_len) IoOperation.ReadPayload in
  do! mlift (reject_if (negb (len payload =? payload_len))
               (TransportError.TruncatedPayload payload_len (len payload))) in
  mret {| header := header; payload := payload |}.
End reading.

(** [encode_header_for_write]. *)
Definition encode_header_for_write (f : Frame) (config : TransportConfig) :
    result TransportError bytes :=
  check? reject_if (payload_length (header f) >? HARD_MAX_PAYLOAD)
           (TransportError.PayloadExceedsHardLimit
              (payload_length (header f)) HARD_MAX_PAYLOAD) in
  check? reject_if (negb (payload_length (header f) =? len (payload f)))
           (TransportError.FrameLengthMismatch
              (payload_length (header f)) (len (payload f))) in
  map_err TransportError.Wire (header_encode (header f) (limits config)).

(** [encode_frame_for_write]. *)
Definition encode_frame_for_write (f : Frame) (config : TransportConfig) :
    result TransportError bytes :=
  let? h := encode_header_for_write f config in
  Ok (h ++ payload f).

Section writing.
Context {W : Type} `{Write W}.

(** [writer.write_all(bs).map_err(|error| TransportError::io(operation, error))]. *)
Definition write_all_as (operation : IoOperation) (bs : bytes) : M W TransportError unit :=
  λ w, let '(w, r) := write_all bs w in (w, map_err (TransportError.Io operation) r).

(** [write_frame_to]. *)
Definition write_frame_to (f : Frame) (config : TransportConfig) : M W TransportError unit :=
  let! encoded_header := mlift (encode_header_for_write f config) in
  do! write_all_as IoOperation.WriteHeader encoded_header in
  write_all_as IoOperation.WritePayload (payload f).

(** [FrameWriter::write_frame_contiguous]. *)
Definition write_frame_contiguous (f : Frame) (config : TransportConfig) :
    M W TransportError unit :=
  let! encoded := mlift (encode_frame_for_write f config) in
  write_all_as IoOperation.WritePayload encoded.

(** [FrameWriter::flush], [FramedStream::flush]. *)
Definition flush : M W TransportError unit :=
  λ w, let '(w, r) := flush_stream w in (w, map_err (TransportError.Io IoOperation.Flush) r).
End writing.

(** ** The framed adapters and the [FrameIo] trait *)

Record FrameReader (R : Type) : Type := { fr_reader : R; fr_config : TransportConfig }.
Arguments fr_reader {R}. Arguments fr_config {R}.
Record FrameWriter (W : Type) : Type := { fw_writer : W; fw_config : TransportConfig }.
Arguments fw_writer {W}. Arguments fw_config {W}.
Record SplitFrameStream (R W : Type) : Type :=
  { sp_reader : FrameReader R; sp_writer : FrameWriter W }.
Arguments sp_reader {R W}. Arguments sp_writer {R W}.
Record FramedStream (S : Type) : Type := { fs_stream : S; fs_config : TransportConfig }.
Arguments fs_stream {S}. Arguments fs_config {S}.

(** [FrameReader::new], [FrameWriter::new], [FramedStream::new] and
    [SplitFrameStream::new]. *)
Definition frame_reader_new {R} (r : R) (c : TransportConfig) :
    result TransportError (FrameReader R) :=
  let? c := config_validate c in Ok {| fr_reader := r; fr_config := c |}.
Definition frame_writer_new {W} (w : W) (c : TransportConfig) :
    result TransportError (FrameWriter W) :=
  let? c := config_validate c in Ok {| fw_writer := w; fw_config := c |}.
Definition framed_stream_new {S} (s : S) (c : TransportConfig) :
    result TransportError (FramedStream S) :=
  let? c := config_validate c in Ok {| fs_stream := s; fs_config := c |}.
Definition split_frame_stream_new {R W} (r : R) (w : W) (c : TransportConfig) :
    result TransportError (SplitFrameStream R W) :=
  let? reader := frame_reader_new r c in
  let? writer := frame_writer_new w c in
  Ok {| sp_reader := reader; sp_writer := writer |}.

(** The trait [FrameIo]. *)
Class FrameIo (T : Type) := {
  read_frame : M T TransportError Frame;
  write_frame : Frame → M T TransportError unit;
  flush_frames : M T TransportError unit;
  resynchronize : M T TransportError unit;
}.

Section adapters.
Variable can_reserve : Z → bool.

(** [FrameReader::read_frame]. *)
Definition reader_read_frame {R} `{Read R} : M (FrameReader R) TransportError Frame := λ s,
  zoom fr_reader (λ r s, {| fr_reader := r; fr_config := fr_config s |})
    (read_frame_from can_reserve (fr_config s)) s.
(** [FrameWriter::write_frame]. *)
Definition writer_write_frame {W} `{Write W} (f : Frame) :
    M (FrameWriter W) TransportError unit := λ s,
  zoom fw_writer (λ w s, {| fw_writer := w; fw_config := fw_config s |})
    (write_frame_to f (fw_config s)) s.
(** [FrameWriter::flush]. *)
Definition writer_flush {W} `{Write W} : M (FrameWriter W) TransportError unit :=
  zoom fw_writer (λ w s, {| fw_writer := w; fw_config := fw_config s |}) flush.

(** [impl FrameIo for SplitFrameStream]; [resynchronize] is the trait's default. *)
Definition split_frame_io {R W} `{Read R, Write W} : FrameIo (SplitFrameStream R W) := {|
  read_frame := zoom sp_reader (λ r s, {| sp_reader := r; sp_writer := sp_writer s |})
    reader_read_frame;
  write_frame f := zoom sp_writer (λ w s, {| sp_reader := sp_reader s; sp_writer := w |})
    (writer_write_frame f);
  flush_frames := zoom sp_writer (λ w s, {| sp_reader := sp_reader s; sp_writer := w |})
    writer_flush;
  resynchronize := mret tt;
|}.

(** [impl FrameIo for FramedStream]. *)
Definition set_stream {S} (s : S) (f : FramedStream S) : FramedStream S :=
  {| fs_stream := s; fs_config := fs_config f |}.
Definition framed_frame_io {S} `{Read S, Write S} : FrameIo (FramedStream S) := {|
  read_frame s := zoom fs_stream set_stream (read_frame_from can_reserve (fs_config s)) s;
  write_frame f s := zoom fs_stream set_stream (write_frame_to f (fs_config s)) s;
  flush_frames := zoom fs_stream set_stream flush;
  resynchronize := mret tt;
|}.
End adapters.

(** ** Reading does not depend on the chunks a stream comes in *)

Section reading_lemmas.
Context {R : Type} `{Read R}.
Implicit Types r : R.

Lemma read_loop_delivers attempts received wanted operation r bs :
  delivers r bs → (length received ≤ wanted)%nat → (read_measure r < attempts)%nat →
  ∃ r', read_loop attempts received wanted operation r =
          (r', Ok (received ++ take (wanted - length received) bs)) ∧
        delivers r' (drop (wanted - length received) bs).
Proof.
  revert received r bs. induction attempts as [|n IH]; intros received r bs Hd Hle Hm; [lia|].
  simpl. destruct (Nat.ltb_spec (length received) wanted) as [Hlt|Hge].
  2:{ replace (wanted - length received)%nat with 0%nat by lia. exists r.
      by rewrite take_0, app_nil_r, drop_0. }
  destruct (read (wanted - length received) r) as [r1 res] eqn:Hread.
  pose proof (read_decreases _ _ _ _ Hread) as Hdec.
  destruct (read_delivers _ _ _ _ _ Hd Hread) as [[-> Hd1]|(chunk & rest & -> & -> & Hd1 & Hnil)];
    [lia| |].
  { apply IH; [done|done|]. specialize (Hdec ltac:(lia) (or_introl eq_refl)). lia. }
  pose proof (read_fits _ _ _ _ Hread) as Hfit. destruct chunk as [|b chunk].
  { specialize (Hnil eq_refl). simpl in *. subst rest. exists r1.
    by rewrite take_nil, app_nil_r, drop_nil. }
  specialize (Hdec ltac:(lia) ltac:(eauto)).
  destruct (IH (received ++ b :: chunk) r1 rest Hd1) as (r' & Hloop & Hd').
  { rewrite length_app. lia. }
  { lia. }
  exists r'. rewrite Hloop. rewrite length_app in *.
  rewrite take_app_ge, drop_app_ge, <-app_assoc by lia.
  by replace (wanted - length received - length (b :: chunk))%nat
    with (wanted - (length received + length (b :: chunk)))%nat by lia.
Qed.

Lemma read_exact_delivers wanted operation r bs :
  delivers r bs →
  ∃ r', read_exact_counted wanted operation r = (r', Ok (take wanted bs)) ∧
        delivers r' (drop wanted bs).
Proof.
  intros Hd. destruct (read_loop_delivers (S (read_measure r)) [] wanted operation r bs Hd)
    as (r' & Hl & Hd'); [simpl; lia..|].
  exists r'. cbn [length app] in Hl, Hd'. by rewrite Nat.sub_0_r in Hl, Hd'.
Qed.

(** What [read_frame_from] makes of the bytes a stream delivers: the result and
    the number of bytes taken. *)
Definition parse_stream (can_reserve : Z → bool) (config : TransportConfig) (bs : bytes) :
    result TransportError Frame * nat :=
  if bool_decide (bs = []) then (Err TransportError.EndOfStream, HEADER_LEN) else
  if (length bs <? HEADER_LEN)%nat
  then (Err (TransportError.TruncatedHeader (len bs)), HEADER_LEN) else
  match header_decode (take HEADER_LEN bs) (limits config) with
  | Err e => (Err (TransportError.Wire e), HEADER_LEN)
  | Ok h =>
      let n := Z.to_nat (payload_length h) in
      let available := slice HEADER_LEN (HEADER_LEN + n) bs in
      if payload_length h >? HARD_MAX_PAYLOAD
      then (Err (TransportError.PayloadExceedsHardLimit
                   (payload_length h) HARD_MAX_PAYLOAD), HEADER_LEN) else
      if negb (can_reserve (payload_length h))
      then (Err (TransportError.PayloadAllocation (payload_length h)), HEADER_LEN) else
      (if len available =? payload_length h
       then Ok {| header := h; payload := available |}
       else Err (TransportError.TruncatedPayload (payload_length h) (len available)),
       (HEADER_LEN + n)%nat)
  end.

Lemma read_frame_parses can_reserve config r bs :
  delivers r bs →
  ∃ r', read_frame_from can_reserve config r = (r', (parse_stream can_reserve config bs).1) ∧
        delivers r' (drop (parse_stream can_reserve config bs).2 bs).
Proof.
  intros Hd. unfold read_frame_from, mbnd at 1.
  destruct (read_exact_delivers HEADER_LEN IoOperation.ReadHeader r bs Hd) as (r1 & -> & Hd1).
  unfold parse_stream. case_bool_decide as Hnil.
  { subst bs. exists r1. done. }
  assert (0 < len bs) by (destruct bs; [done|unfold len; simpl; lia]).
  assert (len (take HEADER_LEN bs) = Z.min (Z.of_nat HEADER_LEN) (len bs)) as Hlen.
  { unfold len. rewrite length_take. lia. }
  rewrite Hlen. unfold mbnd at 1, mlift at 1.
  rewrite (proj2 (Z.eqb_neq (Z.min _ _) 0)) by (unfold HEADER_LEN; lia). cbn [reject_if].
  unfold mbnd at 1, mlift at 1.
  destruct (Nat.ltb_spec (length bs) HEADER_LEN) as [Hlt|Hge].
  { rewrite (proj2 (Z.eqb_neq (Z.min _ _) _)) by (unfold len; lia). cbn [negb reject_if].
    exists r1. by rewrite Z.min_r by (unfold len; lia). }
  rewrite (proj2 (Z.eqb_eq (Z.min _ _) _)) by (unfold len; lia). cbn [negb reject_if].
  unfold mbnd at 1, mlift at 1.
  destruct (header_decode (take HEADER_LEN bs) (limits config)) as [h|e]; cbn [map_err];
    [|by exists r1].
  unfold mbnd at 1, mlift at 1.
  destruct (payload_length h >? HARD_MAX_PAYLOAD); cbn [reject_if]; [by exists r1|].
  unfold mbnd at 1, mlift at 1.
  destruct (negb (can_reserve _)); cbn [reject_if]; [by exists r1|].
  unfold mbnd at 1.
  destruct (read_exact_delivers (Z.to_nat (payload_length h)) IoOperation.ReadPayload r1 _ Hd1)
    as (r2 & -> & Hd2).
  assert (take (Z.to_nat (payload_length h)) (drop HEADER_LEN bs) =
    slice HEADER_LEN (HEADER_LEN + Z.to_nat (payload_length h)) bs) as ->.
  { unfold slice. f_equal. lia. }
  unfold mbnd, mlift. exists r2. rewrite drop_drop in Hd2.
  by destruct (_ =? payload_length h).
Qed.
End reading_lemmas.

(** ** What is written *)

Lemma encode_frame_for_write_inv f config enc :
  encode_frame_for_write f config = Ok enc →
  payload_length (header f) ≤ HARD_MAX_PAYLOAD ∧ payload_length (header f) = len (payload f) ∧
  ∃ h, header_encode (header f) (limits config) = Ok h ∧ enc = h ++ payload f.
Proof.
  unfold encode_frame_for_write, encode_header_for_write. intros Henc. result_inv.
  rewrite negb_false_iff in *. split; [lia|]. split; [lia|]. eauto.
Qed.

(** The two checks before the header is encoded make the encoding that of
    [Frame::encode]. *)
Lemma encode_frame_for_write_frame_encode f config enc :
  encode_frame_for_write f config = Ok enc ↔
  payload_length (header f) ≤ HARD_MAX_PAYLOAD ∧ frame_encode f (limits config) = Ok enc.
Proof.
  split.
  - intros (Hmax & Hlen & h & Hh & ->)%encode_frame_for_write_inv. split; [done|].
    unfold frame_encode. rewrite <-Hlen.
    rewrite (proj2 (u32_try_from_Some (payload_length (header f)) (payload_length (header f))))
      by (unfold HARD_MAX_PAYLOAD, u32_max in *; lia).
    cbn [ok_or result_bind]. rewrite Z.eqb_refl. cbn [negb reject_if result_bind].
    by rewrite Hh.
  - intros [Hmax (Hlen & h & Hh & ->)%frame_encode_inv].
    unfold encode_frame_for_write, encode_header_for_write. rewrite Hlen, Z.eqb_refl.
    destruct (payload_length (header f) >? HARD_MAX_PAYLOAD) eqn:?; [lia|].
    cbn [negb reject_if result_bind]. by rewrite Hh.
Qed.

Lemma parse_encoded can_reserve f config enc rest :
  frame_ok f → encode_frame_for_write f config = Ok enc →
  can_reserve (payload_length (header f)) = true →
  parse_stream can_reserve config (enc ++ rest) = (Ok f, length enc).
Proof.
  intros Hok (Hmax & Hlen & h & Hh & ->)%encode_frame_for_write_inv Hcan.
  pose proof (header_encode_inv _ _ _ Hh) as (_ & _ & Hlh).
  unfold parse_stream. rewrite bool_decide_eq_false_2.
  2:{ intros Hnil. apply (f_equal length) in Hnil. rewrite !length_app in Hnil.
      unfold HEADER_LEN in *. simpl in Hnil. lia. }
  destruct (Nat.ltb_spec (length ((h ++ payload f) ++ rest)) HEADER_LEN) as [Hlt|Hge].
  { rewrite !length_app in Hlt. lia. }
  rewrite <-app_assoc, take_app_length' by done.
  pose proof (header_decode_encode _ _ _ [] Hok Hh) as Hdec. rewrite app_nil_r in Hdec.
  rewrite Hdec. destruct (payload_length (header f) >? HARD_MAX_PAYLOAD) eqn:?; [lia|].
  rewrite Hcan. cbn [negb]. rewrite slice_app_r, Hlh by lia.
  rewrite Nat.sub_diag. replace (HEADER_LEN + _ - HEADER_LEN)%nat
    with (length (payload f)) by (unfold len in *; lia).
  unfold slice. rewrite drop_0, Nat.sub_0_r, take_app_length. rewrite <-Hlen, Z.eqb_refl.
  rewrite length_app, Hlh. destruct f; simpl. f_equal. unfold len in *. simpl in *. lia.
Qed.

Section streams.
Context {R W : Type} `{Read R, Write W}.
Variable can_reserve : Z → bool.
Variable config : TransportConfig.

(** A session that writes frames one after another, and one that reads them. *)
Fixpoint write_frames (fs : list Frame) : M W TransportError unit :=
  match fs with
  | [] => mret tt
  | f :: fs => do! write_frame_to f config in write_frames fs
  end.
Fixpoint read_frames (n : nat) : M R TransportError (list Frame) :=
  match n with
  | O => mret []
  | S n =>
      let! f := read_frame_from can_reserve config in
      let! fs := read_frames n in
      mret (f :: fs)
  end.

Lemma write_frame_ok f (w w' : W) :
  write_frame_to f config w = (w', Ok tt) →
  ∃ enc, encode_frame_for_write f config = Ok enc ∧ written w' = written w ++ enc.
Proof.
  unfold write_frame_to, encode_frame_for_write, write_all_as. intros Hw.
  apply mbnd_ok in Hw as (s1 & h & Hh & Hw). unfold mlift in Hh. injection Hh as -> Hh.
  apply mbnd_ok in Hw as (s2 & [] & Hw1 & Hw2).
  destruct (write_all h s1) as [w1 r1] eqn:E1. injection Hw1 as -> Hr1%map_err_ok. subst r1.
  destruct (write_all (payload f) s2) as [w2 r2] eqn:E2.
  injection Hw2 as -> Hr2%map_err_ok. subst r2.
  apply write_all_ok in E1, E2. rewrite Hh. eexists. split; [done|].
  by rewrite E2, E1, app_assoc.
Qed.

Lemma write_frames_ok fs (w w' : W) :
  write_frames fs w = (w', Ok tt) →
  ∃ encs, Forall2 (λ f enc, encode_frame_for_write f config = Ok enc) fs encs ∧
    written w' = written w ++ concat encs.
Proof.
  revert w. induction fs as [|f fs IH]; intros w Hw; simpl in Hw.
  { injection Hw as <-. exists []. by rewrite app_nil_r. }
  apply mbnd_ok in Hw as (w1 & [] & H1 & H2).
  apply write_frame_ok in H1 as (enc & Henc & Hw1).
  apply IH in H2 as (encs & Hencs & ->). exists (enc :: encs). split; [by constructor|].
  by rewrite Hw1, <-app_assoc.
Qed.

Lemma read_frames_encoded fs encs (r : R) rest :
  Forall2 (λ f enc, encode_frame_for_write f config = Ok enc) fs encs →
  Forall frame_ok fs → (∀ n, n ≤ HARD_MAX_PAYLOAD → can_reserve n = true) →
  delivers r (concat encs ++ rest) →
  ∃ r', read_frames (length fs) r = (r', Ok fs) ∧ delivers r' rest.
Proof.
  intros Hencs Hok Hcan. revert r. induction Hencs as [|f enc fs encs Henc Hencs IH];
    intros r Hd; simpl in *; [by exists r|].
  apply Forall_cons in Hok as [Hf Hok]. rewrite <-app_assoc in Hd.
  destruct (read_frame_parses can_reserve config r _ Hd) as (r1 & Hr1 & Hd1).
  rewrite (parse_encoded can_reserve f config enc _ Hf Henc) in Hr1, Hd1
    by (apply Hcan; apply encode_frame_for_write_inv in Henc; tauto).
  simpl in Hr1, Hd1. rewrite drop_app_length in Hd1. unfold mbnd at 1. rewrite Hr1.
  destruct (IH Hok r1 Hd1) as (r2 & Hr2 & Hd2). unfold mbnd. rewrite Hr2. by exists r2.
Qed.

(** C37: Frames cross a byte stream unchanged.  Whatever sequence of frames was
    written without an error, a reader on a stream that delivers those bytes,
    cut into chunks and interrupted in any way, reads exactly those frames in
    order and then a clean end of stream. *)
Theorem framed_stream_roundtrip fs (w w' : W) (r : R) :
  written w = [] → Forall frame_ok fs →
  (∀ n, n ≤ HARD_MAX_PAYLOAD → can_reserve n = true) →
  write_frames fs w = (w', Ok tt) → delivers r (written w') →
  ∃ r1 r2, read_frames (length fs) r = (r1, Ok fs) ∧
    read_frame_from can_reserve config r1 = (r2, Err TransportError.EndOfStream).
Proof.
  intros Hw Hok Hcan (encs & Hencs & ->)%write_frames_ok Hd. rewrite Hw in Hd. simpl in Hd.
  rewrite <-(app_nil_r (concat encs)) in Hd.
  destruct (read_frames_encoded fs encs r [] Hencs Hok Hcan Hd) as (r1 & Hr1 & Hd1).
  destruct (read_frame_parses can_reserve config r1 [] Hd1) as (r2 & Hr2 & _). eauto.
Qed.

(** A frame is read only from its exact encoding: the bytes consumed are
    the encoding of the frame returned, its payload is within the configured
    and the hard limit, and the stream goes on right behind it. *)
Theorem read_frame_consumes_encoding (r r' : R) bs f :
  delivers r bs → read_frame_from can_reserve config r = (r', Ok f) →
  ∃ enc rest, bs = enc ++ rest ∧ delivers r' rest ∧
    frame_encode f (limits config) = Ok enc ∧ frame_ok f ∧
    len (payload f) ≤ Z.min HARD_MAX_PAYLOAD (max_payload (limits config)).
Proof.
  intros Hd Hread. destruct (read_frame_parses can_reserve config r bs Hd) as (r1 & Hr1 & Hd1).
  rewrite Hread in Hr1. injection Hr1 as <- Hp. revert Hp Hd1. unfold parse_stream.
  case_bool_decide; [done|]. destruct (Nat.ltb_spec (length bs) HEADER_LEN) as [|Hge]; [done|].
  destruct (header_decode _ _) as [h|e] eqn:Hdec; [|done].
  destruct (_ >? HARD_MAX_PAYLOAD) eqn:Hmax; [done|]. destruct (can_reserve _); [|done]. simpl.
  set (n := Z.to_nat (payload_length h)).
  destruct (_ =? payload_length h) eqn:Hlen; [|done]. intros [= ->] Hd1.
  pose proof (header_decode_ok _ _ _ Hdec) as Hok.
  pose proof (header_encode_decode _ _ _ Hdec) as Henc.
  rewrite take_take, Nat.min_id in Henc.
  exists (take (HEADER_LEN + n) bs), (drop (HEADER_LEN + n) bs).
  split; [by rewrite take_drop|]. split; [exact Hd1|].
  assert (take (HEADER_LEN + n) bs =
    take HEADER_LEN bs ++ slice HEADER_LEN (HEADER_LEN + n) bs) as Hsplit.
  { unfold slice. replace (HEADER_LEN + n - HEADER_LEN)%nat with n by lia.
    by rewrite take_take_drop. }
  apply Z.eqb_eq in Hlen. split; [|split; [exact Hok|]].
  - refine (proj2 (proj1 (encode_frame_for_write_frame_encode _ config _) _)).
    unfold encode_frame_for_write, encode_header_for_write. cbn [header payload].
    rewrite Hmax, Hlen, Z.eqb_refl. cbn [negb reject_if result_bind]. rewrite Henc. cbn [map_err result_bind].
    by rewrite Hsplit.
  - cbn [payload]. rewrite Hlen.
    pose proof (header_encode_inv _ _ _ Henc) as (Hv & _). apply validate_ok_iff in Hv as [].
    lia.
Qed.

(** A stream that ends inside a frame is told apart from one that ends
    between frames: after [n] bytes of an encoding the reader reports a clean
    end for [n = 0], otherwise a truncated header or payload with the number of
    bytes it received. *)
Theorem truncated_stream_is_reported (r : R) f enc n :
  frame_ok f → encode_frame_for_write f config = Ok enc →
  can_reserve (payload_length (header f)) = true →
  (n < length enc)%nat → delivers r (take n enc) →
  ∃ r', read_frame_from can_reserve config r = (r', Err (
    if decide (n = 0%nat) then TransportError.EndOfStream
    else if decide (n < HEADER_LEN)%nat then TransportError.TruncatedHeader (Z.of_nat n)
    else TransportError.TruncatedPayload (payload_length (header f))
           (Z.of_nat n - Z.of_nat HEADER_LEN))).
Proof.
  intros Hok Henc Hcan Hn Hd.
  destruct (read_frame_parses can_reserve config r _ Hd) as (r' & Hr' & _).
  exists r'. rewrite Hr'. f_equal. clear Hr' Hd.
  apply encode_frame_for_write_inv in Henc as (Hmax & Hlen & h & Hh & ->).
  pose proof (header_encode_inv _ _ _ Hh) as (_ & _ & Hlh).
  assert (length (take n (h ++ payload f)) = n) as Htn by (rewrite length_take; lia).
  unfold parse_stream. destruct (decide (n = 0%nat)) as [->|Hn0].
  { by rewrite bool_decide_eq_true_2 by by rewrite take_0. }
  rewrite bool_decide_eq_false_2 by (intros Hnil; rewrite Hnil in Htn; simpl in Htn; lia).
  rewrite Htn. destruct (Nat.ltb_spec n HEADER_LEN) as [Hlt|Hge].
  { rewrite decide_True by done. unfold len. by rewrite Htn. }
  rewrite decide_False by lia. rewrite take_take, Nat.min_l by done.
  rewrite take_app_length' by done.
  pose proof (header_decode_encode _ _ _ [] Hok Hh) as Hdec. rewrite app_nil_r in Hdec.
  rewrite Hdec. destruct (payload_length (header f) >? HARD_MAX_PAYLOAD) eqn:?; [lia|].
  rewrite Hcan. cbn [negb fst]. rewrite length_app in Hn.
  assert (len (slice HEADER_LEN (HEADER_LEN + Z.to_nat (payload_length (header f)))
    (take n (h ++ payload f))) = Z.of_nat n - Z.of_nat HEADER_LEN) as ->.
  { unfold slice, len in *. rewrite length_take, length_drop, Htn. lia. }
  rewrite (proj2 (Z.eqb_neq _ _)); [done|]. unfold len in *. lia.
Qed.

(** [write_frame] writes the frame's encoding, a prefix of it when the
    stream fails, and not a single byte when the frame itself is refused. *)
Theorem write_frame_writes_encoding (w w' : W) f res :
  write_frame_to f config w = (w', res) →
  match encode_frame_for_write f config with
  | Err e => res = Err e ∧ w' = w
  | Ok enc =>
      (res = Ok tt ∧ written w' = written w ++ enc) ∨
      ∃ operation kind n, res = Err (TransportError.Io operation kind) ∧
        written w' = written w ++ take n enc
  end.
Proof.
  unfold write_frame_to, encode_frame_for_write, mbnd at 1, mlift at 1.
  destruct (encode_header_for_write f config) as [h|e]; cbn [result_bind].
  2:{ by intros [= <- <-]. }
  unfold mbnd, write_all_as. destruct (write_all h w) as [w1 [[]|e1]] eqn:E1; cbn [map_err].
  - apply write_all_ok in E1.
    destruct (write_all (payload f) w1) as [w2 [[]|e2]] eqn:E2; intros [= <- <-]; cbn [map_err].
    + left. split; [done|]. apply write_all_ok in E2. by rewrite E2, E1, app_assoc.
    + right. apply write_all_err in E2 as [n Hn]. exists IoOperation.WritePayload, e2.
      exists (length h + n)%nat. split; [done|].
      rewrite Hn, E1, take_app_ge by lia. rewrite <-app_assoc. do 3 f_equal. lia.
  - intros [= <- <-]. right. apply write_all_err in E1 as [n Hn].
    exists IoOperation.WriteHeader, e1, (min n (length h)). split; [done|].
    rewrite Hn, take_app_le by lia. by rewrite <-take_take, firstn_all.
Qed.
End streams.

(** ** Instances *)

(** A stream as the sequence of results of its reads: a chunk (cut when the
    caller asks for less), an interruption, a failure. *)
Inductive read_event : Type :=
| Chunk (bs : bytes)
| Interrupt
| Failure (kind : ErrorKind).

Abbreviation Script := (list read_event).

Definition script_read (n : nat) (s : Script) : Script * result ErrorKind bytes :=
  match s with
  | [] => ([], Ok [])
  | Chunk bs :: s =>
      if (length bs <=? n)%nat then (s, Ok bs) else (Chunk (drop n bs) :: s, Ok (take n bs))
  | Interrupt :: s => (s, Err ErrorKind.Interrupted)
  | Failure kind :: s => (s, Err kind)
  end.

Fixpoint script_size (s : Script) : nat :=
  match s with
  | [] => 0
  | Chunk bs :: s => S (length bs + script_size s)
  | _ :: s => S (script_size s)
  end.

(** No failures, and no empty chunk, which would be an end of stream. *)
Fixpoint script_delivers (s : Script) (bs : bytes) : Prop :=
  match s with
  | [] => bs = []
  | Chunk c :: s => c ≠ [] ∧ ∃ rest, bs = c ++ rest ∧ script_delivers s rest
  | Interrupt :: s => script_delivers s bs
  | Failure _ :: _ => False
  end.

#[export, refine] Instance script_stream : Read Script := {|
  read := script_read;
  read_measure := script_size;
  delivers := script_delivers;
|}.
Proof.
  - intros n [|[bs| |k] s] s' out; simpl; [intros [= <- <-]; simpl; lia| |done|done].
    destruct (Nat.leb_spec (length bs) n); intros [= <- <-]; [done|]. rewrite length_take. lia.
  - intros n [|[bs| |k] s] s' res; simpl; [naive_solver| |intros [= <- <-]; lia..].
    destruct (Nat.leb_spec (length bs) n); intros [= <- <-] Hn _; [lia|]. simpl.
    rewrite length_drop. lia.
  - intros n [|[bs| |k] s] s' res out; simpl.
    + intros -> [= <- <-] _. right. by exists [], [].
    + intros (Hne & rest & -> & Hd) Hread Hn. right.
      destruct (Nat.leb_spec (length bs) n) as [Hle|Hgt]; injection Hread as <- <-.
      * by exists bs, rest.
      * exists (take n bs), (drop n bs ++ rest). split; [done|].
        split; [by rewrite app_assoc, take_drop|]. split.
        { simpl. split; [|eauto]. intros Hnil%(f_equal length). rewrite length_drop in Hnil.
          simpl in Hnil. lia. }
        intros Hnil%(f_equal length). rewrite length_take in Hnil. simpl in Hnil. lia.
    + intros Hd [= <- <-] _. by left.
    + done.
Defined.

(** A sink that takes at most [room] bytes and then fails. *)
Record Sink : Type := { sink_bytes : bytes; room : nat }.

Definition sink_write_all (bs : bytes) (w : Sink) : Sink * result ErrorKind unit :=
  if (length bs <=? room w)%nat
  then ({| sink_bytes := sink_bytes w ++ bs; room := room w - length bs |}, Ok tt)
  else ({| sink_bytes := sink_bytes w ++ take (room w) bs; room := 0 |},
        Err ErrorKind.WriteZero).

#[export, refine] Instance sink_stream : Write Sink := {|
  write_all := sink_write_all;
  flush_stream w := (w, Ok tt);
  written := sink_bytes;
|}.
Proof.
  - intros bs w w'. unfold sink_write_all. case_match; [by intros [= <-]|done].
  - intros bs w w' e. unfold sink_write_all. case_match; intros [= <-]. simpl. eauto.
  - done.
Defined.

(** ** Concrete streams *)

Definition empty_sink : Sink := {| sink_bytes := []; room := 1000 |}.
Definition full_sink : Sink := {| sink_bytes := []; room := 41 |}.
Definition always (_ : Z) : bool := true.

(** The bytes of a frame, cut and interrupted. *)
Definition cut_script (bs : bytes) : Script :=
  [Chunk (take 3 bs); Interrupt; Chunk (slice 3 42 bs); Interrupt; Interrupt; Chunk (drop 42 bs)].

Lemma sample_frame_ok : frame_ok sample_frame.
Proof. exact sample_header_ok. Qed.

Definition two_frame_bytes : bytes := Eval vm_compute in (sample_frame_bytes ++ sample_frame_bytes).

Lemma framed_stream_roundtrip_witness :
  ∃ r1 r2,
    read_frames always default_config 2 (cut_script two_frame_bytes) =
      (r1, Ok [sample_frame; sample_frame]) ∧
    read_frame_from always default_config r1 = (r2, Err TransportError.EndOfStream).
Proof.
  eapply (framed_stream_roundtrip (R := Script) (W := Sink) always default_config
    [sample_frame; sample_frame] empty_sink).
  - reflexivity.
  - repeat constructor; apply sample_frame_ok.
  - done.
  - vm_compute. reflexivity.
  - simpl. repeat (split; [done|]; eexists; split; [reflexivity|]). done.
Defined.

Lemma read_frame_consumes_encoding_witness :
  ∃ enc rest, two_frame_bytes = enc ++ rest ∧
    delivers (read_frame_from always default_config (cut_script two_frame_bytes)).1 rest ∧
    frame_encode sample_frame (limits default_config) = Ok enc ∧ frame_ok sample_frame ∧
    len (payload sample_frame) ≤ Z.min HARD_MAX_PAYLOAD (max_payload (limits default_config)).
Proof.
  refine (read_frame_consumes_encoding (R := Script) always default_config
    (cut_script two_frame_bytes)
    (read_frame_from always default_config (cut_script two_frame_bytes)).1
    two_frame_bytes sample_frame _ _).
  - simpl. repeat (split; [done|]; eexists; split; [reflexivity|]). done.
  - vm_compute. reflexivity.
Defined.

Lemma truncated_stream_is_reported_witness :
  ∃ r', read_frame_from always default_config [Chunk (take 41 sample_frame_bytes)] =
    (r', Err (TransportError.TruncatedPayload 3 1)).
Proof.
  refine (truncated_stream_is_reported (R := Script) always default_config
    [Chunk (take 41 sample_frame_bytes)] sample_frame sample_frame_bytes 41
    sample_frame_ok _ _ _ _).
  - vm_compute. reflexivity.
  - reflexivity.
  - vm_compute. lia.
  - simpl. split; [done|]. by exists [].
Defined.

Lemma write_frame_writes_encoding_witness :
  (write_frame_to sample_frame default_config full_sink).2 =
    Err (TransportError.Io IoOperation.WritePayload ErrorKind.WriteZero) ∧
  match encode_frame_for_write sample_frame default_config with
  | Err e => (write_frame_to sample_frame default_config full_sink).2 = Err e ∧
      (write_frame_to sample_frame default_config full_sink).1 = full_sink
  | Ok enc =>
      ((write_frame_to sample_frame default_config full_sink).2 = Ok tt ∧
       written (write_frame_to sample_frame default_config full_sink).1 =
         written full_sink ++ enc) ∨
      ∃ operation kind n,
        (write_frame_to sample_frame default_config full_sink).2 =
          Err (TransportError.Io operation kind) ∧
        written (write_frame_to sample_frame default_config full_sink).1 =
          written full_sink ++ take n enc
  end.
Proof.
  split; [vm_compute; reflexivity|].
  refine (write_frame_writes_encoding (W := Sink) default_config full_sink
    (write_frame_to sample_frame default_config full_sink).1 sample_frame
    (write_frame_to sample_frame default_config full_sink).2 _).
  vm_compute. reflexivity.
Defined.
