(* ===== verification/FunctionFs.v ===== *)
(** * FunctionFS descriptors and events: src/device/kindlebridge-functionfs/src

    [descriptors.rs] and [event.rs]: the two blocks the daemon writes to endpoint 0 before
    anything else, and the fixed-size events it reads from there.  Endpoint 0 is any byte
    stream, an instance of [Read] of [Framing.v]. *)

From S2P Require Import Prelude Text WireFrame Framing.

(** ** Descriptors *)

Definition FUNCTIONFS_DESCRIPTORS_MAGIC_V2 : Z := 3.
Definition FUNCTIONFS_STRINGS_MAGIC : Z := 2.
Definition FUNCTIONFS_HAS_FS_DESC : Z := 1.
Definition FUNCTIONFS_HAS_HS_DESC : Z := 2.
Definition FUNCTIONFS_HAS_MS_OS_DESC : Z := 8.
Definition USB_DT_INTERFACE : Z := 0x04.
Definition USB_DT_ENDPOINT : Z := 0x05.
Definition USB_CLASS_VENDOR_SPEC : Z := 0xff.
Definition USB_ENDPOINT_XFER_BULK : Z := 0x02.
Definition INTERFACE_STRING : bytes := text "KindleBridge" ++ [x00].
Definition DEVICE_INTERFACE_GUID_PROPERTY : bytes := text "DeviceInterfaceGUIDs" ++ [x00].
Definition DEVICE_INTERFACE_GUID_VALUE : bytes :=
  text "{3F5EC011-3CD6-4E0D-819C-387BED7DB3B5}" ++ [x00; x00].
Definition DEVICE_INTERFACE_GUID : bytes := text "{3F5EC011-3CD6-4E0D-819C-387BED7DB3B5}".
Definition DESCRIPTOR_LENGTH : nat := 191.
Definition STRING_LENGTH : nat := 31.

(** The array and the offset that the [push] functions advance; a write behind the end of
    the array panics. *)
Record Filling : Type := { output : bytes; offset : nat }.
Inductive Panic : Type := OutOfRange.

Definition push_bytes (value : bytes) : M Filling Panic unit := λ s,
  let end_ := (offset s + length value)%nat in
  if (end_ <=? length (output s))%nat
  then ({| output := splice (offset s) value (output s); offset := end_ |}, Ok tt)
  else (s, Err OutOfRange).
Definition push_u8 (value : Z) : M Filling Panic unit := λ s,
  if (offset s <? length (output s))%nat
  then ({| output := <[offset s := byte.of_Z value]> (output s); offset := S (offset s) |}, Ok tt)
  else (s, Err OutOfRange).
Definition push_u16 (value : Z) : M Filling Panic unit := push_bytes (to_le_bytes 2 value).
Definition push_u32 (value : Z) : M Filling Panic unit := push_bytes (to_le_bytes 4 value).

Definition push_interface : M Filling Panic unit :=
  push_bytes (byte.of_Z <$>
    [9; USB_DT_INTERFACE; 0; 0; 2; USB_CLASS_VENDOR_SPEC; 0x4b; 0x01; 1]).
Definition push_endpoint (address packet_size : Z) : M Filling Panic unit :=
  do! push_u8 7 in
  do! push_u8 USB_DT_ENDPOINT in
  do! push_u8 address in
  do! push_u8 USB_ENDPOINT_XFER_BULK in
  do! push_u16 packet_size in
  push_u8 0.

Definition push_descriptors : M Filling Panic unit :=
  do! push_u32 FUNCTIONFS_DESCRIPTORS_MAGIC_V2 in
  do! push_u32 (Z.of_nat DESCRIPTOR_LENGTH) in
  do! push_u32 (Z.lor (Z.lor FUNCTIONFS_HAS_FS_DESC FUNCTIONFS_HAS_HS_DESC)
                  FUNCTIONFS_HAS_MS_OS_DESC) in
  do! push_u32 3 in
  do! push_u32 3 in
  do! push_u32 2 in
  do! push_interface in
  do! push_endpoint 0x01 64 in
  do! push_endpoint 0x82 64 in
  do! push_interface in
  do! push_endpoint 0x01 512 in
  do! push_endpoint 0x82 512 in
  do! push_u8 0 in
  do! push_u32 35 in
  do! push_u16 1 in
  do! push_u16 4 in
  do! push_u8 1 in
  do! push_u8 0 in
  do! push_u8 0 in
  do! push_u8 1 in
  do! push_bytes (text "WINUSB" ++ [x00; x00]) in
  do! push_bytes (replicate 8 x00) in
  do! push_bytes (replicate 6 x00) in
  do! push_u8 0 in
  do! push_u32 86 in
  do! push_u16 1 in
  do! push_u16 5 in
  do! push_u16 1 in
  do! push_u32 75 in
  do! push_u32 7 in
  do! push_u16 (len DEVICE_INTERFACE_GUID_PROPERTY) in
  do! push_bytes DEVICE_INTERFACE_GUID_PROPERTY in
  do! push_u32 (len DEVICE_INTERFACE_GUID_VALUE) in
  push_bytes DEVICE_INTERFACE_GUID_VALUE.

Definition push_strings : M Filling Panic unit :=
  do! push_u32 FUNCTIONFS_STRINGS_MAGIC in
  do! push_u32 (Z.of_nat STRING_LENGTH) in
  do! push_u32 1 in
  do! push_u32 1 in
  do! push_u16 0x0409 in
  push_bytes INTERFACE_STRING.

(** The array a run of pushes fills, with the [debug_assert_eq!] at its end. *)
Definition fill (length : nat) (pushes : M Filling Panic unit) : result Panic bytes :=
  let '(s, r) := pushes {| output := replicate length x00; offset := 0 |} in
  check? r in
  if bool_decide (offset s = length) then Ok (output s) else Err OutOfRange.

Definition descriptor_bytes : result Panic bytes := fill DESCRIPTOR_LENGTH push_descriptors.
Definition string_bytes : result Panic bytes := fill STRING_LENGTH push_strings.

(** ** Events *)

Definition EVENT_SIZE : nat := 12.
Definition MAX_EVENTS_BEFORE_ACTIVE : Z := 4096.

Module EventKind.

Inductive EventKind : Type := Bind | Unbind | Enable | Disable | Setup | Suspend | Resume.

End EventKind.
Abbreviation EventKind := EventKind.EventKind.

#[export] Instance EventKind_eq_dec : EqDecision EventKind.
Proof. solve_decision. Defined.

Record SetupPacket : Type := {
  request_type : Z;
  request : Z;
  setup_value : Z;
  setup_index : Z;
  setup_length : Z;
}.

Record Event : Type := { event_kind : EventKind; setup : SetupPacket }.

Module WaitOutcome.

Inductive WaitOutcome : Type := Active | Disconnected.

End WaitOutcome.
Abbreviation WaitOutcome := WaitOutcome.WaitOutcome.

Module EventError.

Inductive EventError : Type :=
| Io (error : ErrorKind)
| WrongSize (size : Z)
| UnknownType (kind : Z)
| UnsupportedSetup (setup : SetupPacket)
| StallSetup (setup : SetupPacket) (source : ErrorKind)
| EventLimit (limit : Z).

End EventError.
Abbreviation EventError := EventError.EventError.

(** [EventKind::try_from] and the discriminants. *)
Definition event_kind_try_from (value : Z) : result EventError EventKind :=
  match value with
  | 0 => Ok EventKind.Bind
  | 1 => Ok EventKind.Unbind
  | 2 => Ok EventKind.Enable
  | 3 => Ok EventKind.Disable
  | 4 => Ok EventKind.Setup
  | 5 => Ok EventKind.Suspend
  | 6 => Ok EventKind.Resume
  | other => Err (EventError.UnknownType other)
  end.
Definition event_kind_code (kind : EventKind) : Z :=
  match kind with
  | EventKind.Bind => 0
  | EventKind.Unbind => 1
  | EventKind.Enable => 2
  | EventKind.Disable => 3
  | EventKind.Setup => 4
  | EventKind.Suspend => 5
  | EventKind.Resume => 6
  end.

(** [bytes[i]], for an index that exists. *)
Definition byte_at (bs : bytes) (i : nat) : Z := byte.unsigned (default x00 (bs !! i)).

(** [Event::parse]. *)
Definition event_parse (bs : bytes) : result EventError Event :=
  if negb (length bs =? EVENT_SIZE)%nat then Err (EventError.WrongSize (len bs)) else
  let? kind := event_kind_try_from (byte_at bs 8) in
  Ok {| event_kind := kind;
        setup := {| request_type := byte_at bs 0;
                    request := byte_at bs 1;
                    setup_value := from_le_bytes (slice 2 4 bs);
                    setup_index := from_le_bytes (slice 4 6 bs);
                    setup_length := from_le_bytes (slice 6 8 bs) |} |}.

Section events.
Context {R : Type} `{Read R}.

(** [Read::read_exact] of the standard library: interrupted reads are repeated, and a stream
    that ends before the buffer is full is an error. *)
Definition read_exact (wanted : nat) (r : R) : R * result ErrorKind bytes :=
  match read_exact_counted wanted IoOperation.ReadHeader r with
  | (r, Ok bs) =>
      (r, if (length bs <? wanted)%nat then Err ErrorKind.UnexpectedEof else Ok bs)
  | (r, Err (TransportError.Io _ e)) => (r, Err e)
  | (r, Err _) => (r, Err ErrorKind.InvalidData)
  end.

(** [read_event]. *)
Definition read_event (r : R) : R * result EventError (option Event) :=
  match read_exact EVENT_SIZE r with
  | (r, Ok bs) => (r, let? event := event_parse bs in Ok (Some event))
  | (r, Err ErrorKind.UnexpectedEof) => (r, Ok None)
  | (r, Err e) => (r, Err (EventError.Io e))
  end.

(** [wait_for_active_bounded] and [wait_for_active]: the loop runs [n] more times. *)
Fixpoint wait_events (max_events : Z) (n : nat) : M R EventError WaitOutcome :=
  match n with
  | O => mfail (EventError.EventLimit max_events)
  | S n =>
      let! event := read_event in
      match event with
      | None => mret WaitOutcome.Disconnected
      | Some event =>
          match event_kind event with
          | EventKind.Enable | EventKind.Resume => mret WaitOutcome.Active
          | EventKind.Unbind => mret WaitOutcome.Disconnected
          | EventKind.Setup => mfail (EventError.UnsupportedSetup (setup event))
          | EventKind.Bind | EventKind.Disable | EventKind.Suspend => wait_events max_events n
          end
      end
  end.
Definition wait_for_active_bounded (max_events : Z) : M R EventError WaitOutcome :=
  wait_events max_events (Z.to_nat max_events).
Definition wait_for_active : M R EventError WaitOutcome :=
  wait_for_active_bounded MAX_EVENTS_BEFORE_ACTIVE.
End events.

(** ** The blocks *)

(** The blocks come out without a panic and exactly as long as they announce. *)
Lemma blocks_fill_their_arrays :
  is_ok descriptor_bytes = true ∧ is_ok string_bytes = true.
Proof. by vm_compute. Qed.

(** A run of USB descriptors of one speed, taken apart by their length bytes: the types. *)
Fixpoint descriptor_types (count : nat) (bs : bytes) : option (list Z * bytes) :=
  match count with
  | O => Some ([], bs)
  | S count =>
      let size := Z.to_nat (byte_at bs 0) in
      if (size <=? length bs)%nat && (2 <=? size)%nat then
        '(types, rest) ← descriptor_types count (drop size bs);
        Some (byte_at bs 1 :: types, rest)
      else None
  end.

(** A run of OS feature descriptors, taken apart by their [dwLength]: the indices. *)
Fixpoint os_indices (count : nat) (bs : bytes) : option (list Z * bytes) :=
  match count with
  | O => Some ([], bs)
  | S count =>
      let size := Z.to_nat (from_le_bytes (slice 1 5 bs)) in
      if (size <=? length bs)%nat && (11 <=? size)%nat then
        '(indices, rest) ← os_indices count (drop size bs);
        Some (from_le_bytes (slice 7 9 bs) :: indices, rest)
      else None
  end.

(** How the kernel walks the block: the header's own length, then as many descriptors of
    each kind as the header counts, and nothing behind them. *)
Definition walk_descriptors (bs : bytes) : option (list Z * list Z * list Z) :=
  let word i := from_le_bytes (slice (4 * i) (4 * i + 4) bs) in
  if bool_decide (word 0%nat = FUNCTIONFS_DESCRIPTORS_MAGIC_V2) &&
     bool_decide (word 1%nat = len bs) then
    '(fs, rest) ← descriptor_types (Z.to_nat (word 3%nat)) (drop 24 bs);
    '(hs, rest) ← descriptor_types (Z.to_nat (word 4%nat)) rest;
    '(os, rest) ← os_indices (Z.to_nat (word 5%nat)) rest;
    if bool_decide (rest = []) then Some (fs, hs, os) else None
  else None.

(** The descriptor block agrees with itself: its counts and lengths lead exactly to its end,
    past one interface and two endpoints for each speed and the two Windows descriptors. *)
Theorem descriptor_block_is_consistent :
  ∃ bs, descriptor_bytes = Ok bs ∧
    walk_descriptors bs =
      Some ([USB_DT_INTERFACE; USB_DT_ENDPOINT; USB_DT_ENDPOINT],
            [USB_DT_INTERFACE; USB_DT_ENDPOINT; USB_DT_ENDPOINT], [4; 5]).
Proof. eexists. split; vm_compute; reflexivity. Qed.

(** ** Events as the kernel writes them *)

(** [struct usb_functionfs_event]: the setup packet, the type, three bytes of padding. *)
Definition event_bytes (e : Event) (pad : bytes) : bytes :=
  [byte.of_Z (request_type (setup e)); byte.of_Z (request (setup e))] ++
  to_le_bytes 2 (setup_value (setup e)) ++ to_le_bytes 2 (setup_index (setup e)) ++
  to_le_bytes 2 (setup_length (setup e)) ++
  [byte.of_Z (event_kind_code (event_kind e))] ++ pad.

Definition setup_ok (p : SetupPacket) : Prop :=
  in_range u8_max (request_type p) ∧ in_range u8_max (request p) ∧
  u16 (setup_value p) ∧ u16 (setup_index p) ∧ u16 (setup_length p).

Lemma of_Z_u8 z : in_range u8_max z → byte.unsigned (byte.of_Z z) = z.
Proof.
  intros [? ?]. unfold u8_max in *. rewrite byte.unsigned_of_Z. unfold byte.wrap.
  apply Z.mod_small. change (2 ^ 8) with 256. lia.
Qed.

Lemma event_kind_try_from_code kind : event_kind_try_from (event_kind_code kind) = Ok kind.
Proof. by destruct kind. Qed.
Lemma event_kind_try_from_inv z kind :
  event_kind_try_from z = Ok kind → z = event_kind_code kind.
Proof.
  unfold event_kind_try_from. destruct z as [|p|p]; [by intros [= <-]| |done].
  destruct p as [[[?|?|]|[?|?|]|]|[[?|?|]|[?|?|]|]|]; try done; by intros [= <-].
Qed.

Lemma length_two (bs : bytes) : length bs = 2%nat → ∃ a b, bs = [a; b].
Proof. destruct bs as [|a [|b [|]]]; try done. eauto. Qed.

Lemma event_parse_bytes e pad :
  setup_ok (setup e) → length pad = 3%nat → event_parse (event_bytes e pad) = Ok e.
Proof.
  destruct e as [kind [ty rq v i l]]. intros (Ht & Hr & Hv & Hi & Hl) Hpad. simpl in *.
  unfold event_bytes.
  cbn [setup event_kind request_type request setup_value setup_index setup_length app].
  destruct (length_two (to_le_bytes 2 v)) as (v0 & v1 & Ev); [apply length_to_le_bytes|].
  destruct (length_two (to_le_bytes 2 i)) as (i0 & i1 & Ei); [apply length_to_le_bytes|].
  destruct (length_two (to_le_bytes 2 l)) as (l0 & l1 & El); [apply length_to_le_bytes|].
  rewrite Ev, Ei, El. cbn [app]. destruct pad as [|p0 [|p1 [|p2 [|]]]]; try done.
  unfold event_parse, byte_at, slice.
  cbn [length Nat.eqb EVENT_SIZE negb lookup list_lookup default id drop take Nat.sub].
  rewrite <-Ev, <-Ei, <-El, !from_to_le_u16, (of_Z_u8 ty), (of_Z_u8 rq) by done.
  rewrite of_Z_u8 by (unfold u8_max; destruct kind; simpl; split; lia).
  by rewrite event_kind_try_from_code.
Qed.

Lemma event_parse_inv bs e :
  event_parse bs = Ok e → setup_ok (setup e) ∧
  ∃ pad, length pad = 3%nat ∧ bs = event_bytes e pad.
Proof.
  unfold event_parse. destruct (Nat.eqb_spec (length bs) EVENT_SIZE) as [Hlen|]; [|done].
  do 12 (destruct bs as [|? bs]; [done|]). destruct bs; [|done]. clear Hlen. cbn [negb].
  intros (kind & Hk & [= <-])%result_bind_ok. apply event_kind_try_from_inv in Hk.
  unfold byte_at in *. unfold slice in *.
  cbn [lookup list_lookup default id drop take Nat.sub] in *.
  assert (∀ a, in_range u8_max (byte.unsigned a)) as Hu8.
  { intros a. pose proof (byte.unsigned_range a). unfold in_range, u8_max.
    change (2 ^ 8) with 256 in *. lia. }
  split; [split_and!; simpl; auto using from_le_u16|].
  unfold event_bytes.
  cbn [setup event_kind request_type request setup_value setup_index setup_length app].
  rewrite !byte.of_Z_unsigned, <-Hk, !byte.of_Z_unsigned.
  rewrite !to_from_le_bytes by done. eexists [_; _; _]. done.
Qed.

(** What [wait_for_active_bounded] makes of the events that come, the last of them followed
    by the end of the stream. *)
Fixpoint wait_outcome (max_events : Z) (n : nat) (events : list Event) :
    result EventError WaitOutcome :=
  match n, events with
  | O, _ => Err (EventError.EventLimit max_events)
  | S _, [] => Ok WaitOutcome.Disconnected
  | S n, e :: events =>
      match event_kind e with
      | EventKind.Enable | EventKind.Resume => Ok WaitOutcome.Active
      | EventKind.Unbind => Ok WaitOutcome.Disconnected
      | EventKind.Setup => Err (EventError.UnsupportedSetup (setup e))
      | EventKind.Bind | EventKind.Disable | EventKind.Suspend =>
          wait_outcome max_events n events
      end
  end.

(** The records of a sequence of events. *)
Inductive event_records : list Event → bytes → Prop :=
| no_records (tail : bytes) : (length tail < EVENT_SIZE)%nat → event_records [] tail
| one_record (e : Event) (pad : bytes) (es : list Event) (bs : bytes) :
    setup_ok (setup e) → length pad = 3%nat → event_records es bs →
    event_records (e :: es) (event_bytes e pad ++ bs).

Section event_lemmas.
Context {R : Type} `{Read R}.
Implicit Types r : R.

Lemma read_exact_delivered wanted r bs :
  delivers r bs →
  ∃ r', read_exact wanted r =
      (r', if (length bs <? wanted)%nat then Err ErrorKind.UnexpectedEof else Ok (take wanted bs)) ∧
    delivers r' (drop wanted bs).
Proof.
  intros Hd. unfold read_exact.
  destruct (read_exact_delivers wanted IoOperation.ReadHeader r bs Hd) as (r' & -> & Hd').
  exists r'. split; [|done]. rewrite length_take.
  destruct (Nat.ltb_spec (wanted `min` length bs) wanted), (Nat.ltb_spec (length bs) wanted);
    try done; lia.
Qed.

Lemma length_event_bytes e pad : length pad = 3%nat → length (event_bytes e pad) = EVENT_SIZE.
Proof. intros Hp. unfold event_bytes. rewrite !length_app, !length_to_le_bytes, Hp. done. Qed.

Lemma read_event_record e pad bs r :
  setup_ok (setup e) → length pad = 3%nat → delivers r (event_bytes e pad ++ bs) →
  ∃ r', read_event r = (r', Ok (Some e)) ∧ delivers r' bs.
Proof.
  intros Hok Hpad Hd. pose proof (length_event_bytes e pad Hpad) as Hlen. unfold read_event.
  destruct (read_exact_delivered EVENT_SIZE r _ Hd) as (r' & -> & Hd').
  rewrite <-Hlen, drop_app_length in Hd'. exists r'. split; [|done].
  rewrite length_app, Hlen. destruct (Nat.ltb_spec (EVENT_SIZE + length bs) EVENT_SIZE); [lia|].
  rewrite <-Hlen, take_app_length. by rewrite event_parse_bytes.
Qed.

Lemma read_event_end tail r :
  (length tail < EVENT_SIZE)%nat → delivers r tail → ∃ r', read_event r = (r', Ok None).
Proof.
  intros Hlt Hd. unfold read_event.
  destruct (read_exact_delivered EVENT_SIZE r _ Hd) as (r' & -> & _). exists r'.
  by destruct (Nat.ltb_spec (length tail) EVENT_SIZE); [|lia].
Qed.

(** The wait for an active configuration depends on the events alone, however their
    records are cut and interrupted, and never takes more than the records it may. *)
Theorem wait_for_active_follows_the_events max_events events bs r :
  event_records events bs → delivers r bs →
  (wait_for_active_bounded max_events r).2 =
    wait_outcome max_events (Z.to_nat max_events) events.
Proof.
  intros Hrec Hd. unfold wait_for_active_bounded. generalize (Z.to_nat max_events) as n.
  intros n. revert n r Hd. induction Hrec as [tail Htail|e pad es bs Hok Hpad Hrec IH];
    intros [|n] r Hd; try done; cbn [wait_events wait_outcome]; unfold mbnd.
  - by destruct (read_event_end _ _ Htail Hd) as (r' & ->).
  - destruct (read_event_record _ _ _ _ Hok Hpad Hd) as (r' & -> & Hd').
    destruct (event_kind e); try done; by apply IH.
Qed.
End event_lemmas.
