(* ===== verification/FunctionFsControl.v ===== *)
(** * FunctionFS control state: src/device/kindlebridge-functionfs/src/probe.rs

    The state that the events of endpoint 0 drive ([FunctionFsControl]), the thread that
    follows them, the wait of [accept], and the bulk endpoints, which use the state to notice
    that the configuration they were opened in is gone.

    Endpoint 0 is an instance of [Ep0].  The thread of [start_monitor], a thread in [accept]
    and the threads that use the bulk endpoints run concurrently: a call on a bulk endpoint
    takes a schedule that says how far the monitor gets before each of its steps, and the
    wait of [accept] is a step relation. *)

From S2P Require Import Prelude Text WireFrame Framing FunctionFs.

Module ControlState.

Inductive ControlState : Type := Inactive | Active | Disconnected.

End ControlState.
Abbreviation ControlState := ControlState.ControlState.

Module ControlTransition.

Inductive ControlTransition : Type := NoChange | Active | Inactive | Disconnected.

End ControlTransition.
Abbreviation ControlTransition := ControlTransition.ControlTransition.

Module ControlAction.

Inductive ControlAction : Type := Active | Inactive | Disconnected | Stall (setup : SetupPacket).

End ControlAction.
Abbreviation ControlAction := ControlAction.ControlAction.

#[export] Instance ControlState_eq_dec : EqDecision ControlState.
Proof. solve_decision. Defined.

Definition classify_control_event (event : Event) : ControlAction :=
  match event_kind event with
  | EventKind.Enable | EventKind.Resume => ControlAction.Active
  | EventKind.Bind | EventKind.Disable | EventKind.Suspend => ControlAction.Inactive
  | EventKind.Unbind => ControlAction.Disconnected
  | EventKind.Setup => ControlAction.Stall (setup event)
  end.

Module FunctionFsError.

Inductive FunctionFsError : Type :=
| OpenEndpoint (path : string) (source : ErrorKind)
| ControlWrite (block : string) (source : ErrorKind)
| PartialControlWrite (block : string) (expected actual : Z)
| Event (error : EventError)
| Transport (error : TransportError)
| UnexpectedFrame (expected command : Command) (stream_id sequence : Z)
| InvalidHello (reason : string)
| MismatchedPayload (mode : string) (sequence expected actual : Z)
| FrameLimit (limit : Z).

End FunctionFsError.
Abbreviation FunctionFsError := FunctionFsError.FunctionFsError.

(** [rustix::io::Errno], as far as the stall looks at it. *)
Inductive Errno : Type := L2HLT | IDRM | OtherErrno (kind : ErrorKind).
Definition errno_kind (e : Errno) : ErrorKind :=
  match e with
  | L2HLT => ErrorKind.OtherKind 51
  | IDRM => ErrorKind.OtherKind 43
  | OtherErrno kind => kind
  end.

(** ** Endpoint 0

    Besides reading events: [write] consumes a control block, [empty_read] and [empty_write]
    are the zero-length transfers that stall a request.  Interruptions are finite. *)
Class Ep0 (E : Type) `{Read E} := {
  ep_write : bytes → E → E * result ErrorKind Z;
  ep_interruptions : E → nat;
  empty_read : E → E * result Errno unit;
  empty_write : E → E * result Errno unit;
  ep_write_interrupted bs e e' :
    ep_write bs e = (e', Err ErrorKind.Interrupted) → (ep_interruptions e' < ep_interruptions e)%nat;
}.

Section control.
Context {E : Type} `{Ep0 E}.

(** [write_control_block]: [attempts] bounds the writes that are interrupted. *)
Fixpoint write_block_loop (attempts : nat) (block : string) (bs : bytes) (e : E) :
    E * result FunctionFsError Z :=
  match attempts with
  | O => (e, Err (FunctionFsError.ControlWrite block ErrorKind.Interrupted))
  | S attempts =>
      match ep_write bs e with
      | (e, Ok actual) => (e, Ok actual)
      | (e, Err ErrorKind.Interrupted) => write_block_loop attempts block bs e
      | (e, Err source) => (e, Err (FunctionFsError.ControlWrite block source))
      end
  end.
Definition write_control_block (block : string) (bs : bytes) : M E FunctionFsError unit := λ e,
  (let! actual := write_block_loop (S (ep_interruptions e)) block bs in
   mlift (reject_if (negb (actual =? len bs))
            (FunctionFsError.PartialControlWrite block (len bs) actual))) e.

(** [stall_unsupported_setup]. *)
Definition USB_DIR_IN : Z := 0x80.
Definition stall_unsupported_setup (p : SetupPacket) (e : E) : E * result ErrorKind unit :=
  let '(e, r) := if negb (Z.land (request_type p) USB_DIR_IN =? 0)
                 then empty_read e else empty_write e in
  (e, match r with
      | Ok tt => Ok tt
      | Err (L2HLT | IDRM) => Ok tt
      | Err error => Err (errno_kind error)
      end).

(** ** The control state

    The two mutexes are here as whether a panic has poisoned them. *)
Record FunctionFsControl : Type := {
  ep0 : E;
  ep0_poisoned : bool;
  state : ControlState;
  endpoint_generation : Z;
  monitor_started : bool;
  wait_poisoned : bool;
}.

(** [FunctionFsControl::new]. *)
Definition control_new (e : E) : FunctionFsControl :=
  {| ep0 := e; ep0_poisoned := false; state := ControlState.Inactive;
     endpoint_generation := 0; monitor_started := false; wait_poisoned := false |}.

Definition with_ep0 (e : E) (c : FunctionFsControl) : FunctionFsControl :=
  {| ep0 := e; ep0_poisoned := ep0_poisoned c; state := state c;
     endpoint_generation := endpoint_generation c;
     monitor_started := monitor_started c; wait_poisoned := wait_poisoned c |}.
Definition store_state (s : ControlState) (c : FunctionFsControl) : FunctionFsControl :=
  {| ep0 := ep0 c; ep0_poisoned := ep0_poisoned c; state := s;
     endpoint_generation := endpoint_generation c;
     monitor_started := monitor_started c; wait_poisoned := wait_poisoned c |}.
(** [fetch_add(1)] on the [AtomicU64] wraps around. *)
Definition bump_generation (c : FunctionFsControl) : FunctionFsControl :=
  {| ep0 := ep0 c; ep0_poisoned := ep0_poisoned c; state := state c;
     endpoint_generation := (endpoint_generation c + 1) mod 2 ^ 64;
     monitor_started := monitor_started c; wait_poisoned := wait_poisoned c |}.
Definition set_monitor_started (c : FunctionFsControl) : FunctionFsControl :=
  {| ep0 := ep0 c; ep0_poisoned := ep0_poisoned c; state := state c;
     endpoint_generation := endpoint_generation c;
     monitor_started := true; wait_poisoned := wait_poisoned c |}.

(** [FunctionFsControl::set_state]. *)
Definition set_state (s : ControlState) (c : FunctionFsControl) : FunctionFsControl :=
  if wait_poisoned c then store_state ControlState.Disconnected c else
  let previous := state c in
  let c := store_state s c in
  if bool_decide (previous = ControlState.Active) && bool_decide (s ≠ ControlState.Active)
  then bump_generation c else c.

(** [endpoint_generation_is_current]. *)
Definition endpoint_generation_is_current (generation : Z) (c : FunctionFsControl) : bool :=
  endpoint_generation c =? generation.

(** [FunctionFsControl::lock]. *)
Definition lock_ep0 (c : FunctionFsControl) : result ErrorKind unit :=
  reject_if (ep0_poisoned c) (ErrorKind.OtherKind 0).

(** [FunctionFsControl::consume_event], on the locked endpoint 0. *)
Definition apply_action (action : ControlAction) : M FunctionFsControl EventError ControlTransition :=
  match action with
  | ControlAction.Active =>
      do! mmodify (set_state ControlState.Active) in mret ControlTransition.Active
  | ControlAction.Inactive =>
      do! mmodify (set_state ControlState.Inactive) in mret ControlTransition.Inactive
  | ControlAction.Disconnected =>
      do! mmodify (set_state ControlState.Disconnected) in mret ControlTransition.Disconnected
  | ControlAction.Stall setup =>
      do! zoom_err ep0 with_ep0 (EventError.StallSetup setup) (stall_unsupported_setup setup) in
      mret ControlTransition.NoChange
  end.
Definition consume_event : M FunctionFsControl EventError ControlTransition :=
  let! event := zoom ep0 with_ep0 read_event in
  match event with
  | None =>
      do! mmodify (store_state ControlState.Disconnected) in
      mret ControlTransition.Disconnected
  | Some event => apply_action (classify_control_event event)
  end.

(** What both branches of [wait_for_active] make of the state; [None] goes on waiting. *)
Definition settled (c : FunctionFsControl) : option WaitOutcome :=
  match state c with
  | ControlState.Active => Some WaitOutcome.Active
  | ControlState.Disconnected => Some WaitOutcome.Disconnected
  | ControlState.Inactive => None
  end.

(** [FunctionFsControl::wait_for_active] before the monitor runs: this thread reads the
    events itself. *)
Fixpoint consume_until_active (n : nat) : M FunctionFsControl EventError WaitOutcome :=
  match n with
  | O => mfail (EventError.EventLimit MAX_EVENTS_BEFORE_ACTIVE)
  | S n =>
      let! transition := consume_event in
      match transition with
      | ControlTransition.Active => mret WaitOutcome.Active
      | ControlTransition.Disconnected => mret WaitOutcome.Disconnected
      | ControlTransition.NoChange | ControlTransition.Inactive => consume_until_active n
      end
  end.
Definition control_wait_for_active : M FunctionFsControl EventError WaitOutcome :=
  let! c := mget in
  match settled c with
  | Some outcome => mret outcome
  | None =>
      do! mlift (map_err EventError.Io (lock_ep0 c)) in
      consume_until_active (Z.to_nat MAX_EVENTS_BEFORE_ACTIVE)
  end.

(** ** The monitor: [start_monitor] spawns it at most once; an iteration of its loop, and
    whether it goes on. *)

Definition start_monitor (c : FunctionFsControl) : FunctionFsControl * bool :=
  if monitor_started c then (c, false) else (set_monitor_started c, true).

Definition monitor_iteration (c : FunctionFsControl) : FunctionFsControl * bool :=
  let '(c, transition) :=
    (do! mgets (λ c, map_err EventError.Io (lock_ep0 c)) in consume_event) c in
  match transition with
  | Ok ControlTransition.Disconnected | Err _ => (set_state ControlState.Disconnected c, false)
  | Ok (ControlTransition.NoChange | ControlTransition.Active | ControlTransition.Inactive) =>
      (c, true)
  end.

(** The control state and whether the monitor still runs, after [n] more iterations. *)
Fixpoint monitor_runs (n : nat) (s : FunctionFsControl * bool) : FunctionFsControl * bool :=
  match n with
  | O => s
  | S n => if s.2 then monitor_runs n (monitor_iteration s.1) else s
  end.

(** ** The bulk endpoints *)

(** [ensure_control_active] loads the generation and then the state, without a lock: [c] is
    the control state at the first load and [later] at the second. *)
Definition ensure_control_active (generation : Z) (c later : FunctionFsControl) :
    result ErrorKind unit :=
  if negb (endpoint_generation_is_current generation c) then Err ErrorKind.ConnectionAborted else
  match state later with
  | ControlState.Active => Ok tt
  | ControlState.Inactive => Err ErrorKind.ConnectionAborted
  | ControlState.Disconnected => Err ErrorKind.ConnectionAborted
  end.

(** The flags that [poll] returns; [ready] is the expected one, [broken] any of [ERR], [HUP]
    and [NVAL]. *)
Record PollFlags : Type := { broken : bool; ready : bool }.

(** One step of a thread on an endpoint: the monitor gets [before] iterations ahead before
    the check, [during] between its two loads and [between] between the check and the system
    call, and the call returns [io], or [polled] when it is a [poll] ([None] is its
    time-out). *)
Record moment (A : Type) : Type := {
  before : nat;
  during : nat;
  between : nat;
  io : result ErrorKind A;
  polled : result ErrorKind (option PollFlags);
}.
Arguments before {A}. Arguments during {A}. Arguments between {A}. Arguments io {A}. Arguments polled {A}.

Inductive phase : Type := Operating | Waiting.

(** [retry_after_would_block] with [ensure_control_active] and [File::read] or [File::write]
    as its operation and [wait_until_ready] as its wait.  The result comes with the number of
    transfers that were tried; no result: the schedule ended while the thread was still at
    it. *)
Fixpoint endpoint_io {A} (generation : Z) (p : phase) (schedule : list (moment A))
    (s : FunctionFsControl * bool) :
    (FunctionFsControl * bool) * nat * option (result ErrorKind A) :=
  match schedule with
  | [] => (s, 0%nat, None)
  | m :: schedule =>
      let loaded := monitor_runs (before m) s in
      let s := monitor_runs (during m) loaded in
      match ensure_control_active generation loaded.1 s.1 with
      | Err e => (s, 0%nat, Some (Err e))
      | Ok tt =>
          let s := monitor_runs (between m) s in
          match p with
          | Operating =>
              match io m with
              | Err ErrorKind.WouldBlock =>
                  let '(s, tried, r) := endpoint_io generation Waiting schedule s in
                  (s, S tried, r)
              | outcome => (s, 1%nat, Some outcome)
              end
          | Waiting =>
              match polled m with
              | Ok None => endpoint_io generation Waiting schedule s
              | Ok (Some flags) =>
                  if broken flags then (s, 0%nat, Some (Err ErrorKind.ConnectionAborted)) else
                  if ready flags then endpoint_io generation Operating schedule s
                  else endpoint_io generation Waiting schedule s
              | Err ErrorKind.Interrupted => endpoint_io generation Waiting schedule s
              | Err e => (s, 0%nat, Some (Err e))
              end
          end
      end
  end.

(** ** The device *)

(** [open_read_endpoint] and [open_write_endpoint]: the file is opened, then the generation
    is read, by which time the monitor may have gone on. *)
Definition open_endpoint (path : string) (opened : result ErrorKind unit) (ahead : nat)
    (s : FunctionFsControl * bool) : (FunctionFsControl * bool) * result FunctionFsError Z :=
  match opened with
  | Err source => (s, Err (FunctionFsError.OpenEndpoint path source))
  | Ok tt => let s := monitor_runs ahead s in (s, Ok (endpoint_generation s.1))
  end.

(** [FunctionFsDevice::accept], the first time: [opened_out] and [opened_in] are what opening
    the two files gives, [ahead_out] and [ahead_in] how far the monitor gets meanwhile.  The
    generations of the two endpoints; [None] is an unbound gadget. *)
Definition accept (opened_out opened_in : result ErrorKind unit) (ahead_out ahead_in : nat)
    (c : FunctionFsControl) :
    (FunctionFsControl * bool) * result FunctionFsError (option (Z * Z)) :=
  match control_wait_for_active c with
  | (c, Err e) => ((c, false), Err (FunctionFsError.Event e))
  | (c, Ok WaitOutcome.Disconnected) => ((c, false), Ok None)
  | (c, Ok WaitOutcome.Active) =>
      let s := start_monitor c in
      match open_endpoint "ep1" opened_out ahead_out s with
      | (s, Err e) => (s, Err e)
      | (s, Ok out_generation) =>
          match open_endpoint "ep2" opened_in ahead_in s with
          | (s, Err e) => (s, Err e)
          | (s, Ok in_generation) => (s, Ok (Some (out_generation, in_generation)))
          end
      end
  end.

(** [FunctionFsDevice::open]. *)
Definition device_open (opened : result ErrorKind E) :
    option E * result FunctionFsError FunctionFsControl :=
  match opened with
  | Err source => (None, Err (FunctionFsError.OpenEndpoint "ep0" source))
  | Ok e =>
      let '(e, r) :=
        (do! write_control_block "descriptor" (match descriptor_bytes with Ok bs => bs | Err _ => [] end) in
         write_control_block "string" (match string_bytes with Ok bs => bs | Err _ => [] end)) e in
      (Some e, check? r in Ok (control_new e))
  end.
End control.
Arguments FunctionFsControl E : clear implicits.
Arguments before {A}. Arguments during {A}. Arguments between {A}. Arguments io {A}. Arguments polled {A}.

(** ** Properties *)

Section control_lemmas.
Context {E : Type} `{Ep0 E}.
Implicit Types (c : FunctionFsControl E) (s : FunctionFsControl E * bool).

(** The bound on interrupted writes is enough: more attempts change nothing. *)
Lemma write_block_loop_enough a b block bs (e : E) :
  (ep_interruptions e < a)%nat → (ep_interruptions e < b)%nat →
  write_block_loop a block bs e = write_block_loop b block bs e.
Proof.
  revert b e. induction a as [|a IH]; intros [|b] e Ha Hb; try lia. simpl.
  destruct (ep_write bs e) as [e1 [n|kind]] eqn:Hw; [done|].
  destruct kind; try done. apply ep_write_interrupted in Hw. apply IH; lia.
Qed.

(** A control block is never continued: it went out in one write, of which endpoint 0 took
    every byte, or the call fails. *)
Lemma write_control_block_is_one_write block bs (e e' : E) :
  write_control_block block bs e = (e', Ok tt) → ∃ e1, ep_write bs e1 = (e', Ok (len bs)).
Proof.
  unfold write_control_block. intros (e1 & n & Hloop & Hn)%mbnd_ok.
  unfold mlift in Hn. injection Hn as -> Hn%reject_if_ok.
  apply negb_false_iff, Z.eqb_eq in Hn as ->.
  revert Hloop. generalize (S (ep_interruptions e)) as a. intros a. revert e.
  induction a as [|a IH]; intros e; simpl; [done|].
  destruct (ep_write bs e) as [e2 [n|kind]] eqn:Hw; [intros [= -> ->]; eauto|].
  destruct kind; try done. apply IH.
Qed.

(** Nothing can make the configuration active again. *)
Definition dead s : Prop :=
  state s.1 = ControlState.Disconnected ∧ (s.2 = false ∨ wait_poisoned s.1 = true).

(** What an iteration of the monitor does to the state and the generation: the state stays
    active or was not active, it stops being active and the generation moves on, or it is
    gone for good. *)
Inductive monitor_effect c : FunctionFsControl E * bool → Prop :=
| effect_keeps s : endpoint_generation s.1 = endpoint_generation c →
    (state c = ControlState.Active → state s.1 = ControlState.Active) → monitor_effect c s
| effect_deactivates s : state c = ControlState.Active → state s.1 ≠ ControlState.Active →
    endpoint_generation s.1 = (endpoint_generation c + 1) mod 2 ^ 64 → monitor_effect c s
| effect_dead s : dead s → monitor_effect c s.

Lemma set_state_effect t c run :
  monitor_effect c (set_state t c, run) ∧ wait_poisoned (set_state t c) = wait_poisoned c.
Proof.
  unfold set_state. destruct (wait_poisoned c) eqn:Hp.
  { split; [|done]. apply effect_dead. split; [done|by right]. }
  case_bool_decide as Hprev; [case_bool_decide as Ht|]; simpl; (split; [|done]).
  - by apply effect_deactivates.
  - apply effect_keeps; [done|]. intros _. simpl. by destruct (decide (t = ControlState.Active)).
  - by apply effect_keeps.
Qed.

Lemma set_state_twice t c : set_state t (set_state t c) = set_state t c.
Proof.
  unfold set_state. destruct (wait_poisoned c) eqn:Hp; simpl; [by rewrite Hp|].
  case_bool_decide as Hprev; [case_bool_decide as Ht|]; simpl; rewrite Hp; simpl;
    repeat case_bool_decide; try done; naive_solver.
Qed.

Lemma monitor_effect_ep0 e c s : monitor_effect (with_ep0 e c) s → monitor_effect c s.
Proof.
  intros [s' H1 H2|s' H1 H2 H3|s' H1]; [by apply effect_keeps|by apply effect_deactivates|by apply effect_dead].
Qed.

Lemma monitor_iteration_effect c : monitor_effect c (monitor_iteration c).
Proof.
  unfold monitor_iteration, mbnd at 1, mgets, lock_ep0.
  destruct (ep0_poisoned c); cbn [reject_if map_err]; [apply set_state_effect|].
  unfold consume_event, mbnd at 1, zoom. destruct (read_event (ep0 c)) as [e [[event|]|error]].
  2:{ apply effect_dead. unfold mbnd, mmodify, mret, set_state. cbn.
      destruct (wait_poisoned c) eqn:Hp; (split; [done|by left]). }
  2:{ eapply monitor_effect_ep0, set_state_effect. }
  apply (monitor_effect_ep0 e).
  destruct (classify_control_event event) as [| | |p]; unfold apply_action, mbnd, mmodify, mret;
    cbn [fst snd]; [apply set_state_effect..| |].
  { rewrite set_state_twice. apply set_state_effect. }
  unfold zoom_err. destruct (stall_unsupported_setup p (ep0 (with_ep0 e c))) as [e2 [[]|error]].
  - by apply effect_keeps.
  - cbn [map_err]. eapply monitor_effect_ep0, set_state_effect.
Qed.

Lemma apply_action_poisoned a c c' r :
  apply_action a c = (c', r) → wait_poisoned c' = wait_poisoned c ∧
  (wait_poisoned c = true → state c = ControlState.Disconnected → state c' = ControlState.Disconnected).
Proof.
  destruct a as [| | |p]; unfold apply_action, mbnd, mmodify, mret; simpl.
  1-3: intros [= <- <-]; split; [apply (set_state_effect _ _ true)|];
    intros Hp _; unfold set_state; by rewrite Hp.
  unfold zoom_err. destruct (stall_unsupported_setup p (ep0 c)) as [e [[]|?]]; intros [= <- <-];
    by split.
Qed.

Lemma dead_iteration c :
  dead (c, true) → dead (monitor_iteration c).
Proof.
  intros [Hs [?|Hp]]; [done|]. simpl in *.
  assert (∀ c', wait_poisoned c' = true →
    dead (set_state ControlState.Disconnected c', false)) as Hset.
  { intros c' Hp'. unfold set_state. rewrite Hp'. split; [done|by left]. }
  unfold monitor_iteration, mbnd at 1, mgets, lock_ep0.
  destruct (ep0_poisoned c); cbn [reject_if map_err]; [by apply Hset|].
  unfold consume_event, mbnd at 1, zoom. destruct (read_event (ep0 c)) as [e [[event|]|error]].
  - destruct (apply_action _ (with_ep0 e c)) as [c' r] eqn:Ha.
    apply apply_action_poisoned in Ha as [Hp' Hs']. simpl in *.
    rewrite Hp in Hp'. specialize (Hs' Hp Hs).
    destruct r as [[| | |]|]; try (by apply Hset); (split; [done|by right]).
  - by apply Hset.
  - by apply Hset.
Qed.

Lemma monitor_runs_dead n s : dead s → dead (monitor_runs n s).
Proof.
  revert s. induction n as [|n IH]; intros [c run] Hd; [done|]. simpl.
  destruct run; [|done]. by apply IH, dead_iteration.
Qed.

Lemma monitor_runs_S n s :
  monitor_runs (S n) s =
    if (monitor_runs n s).2 then monitor_iteration (monitor_runs n s).1 else monitor_runs n s.
Proof.
  revert s. induction n as [|n IH]; intros [c run]; [by destruct run|].
  change (monitor_runs (S (S n)) (c, run)) with
    (if run then monitor_runs (S n) (monitor_iteration c) else (c, run)).
  destruct run; [by rewrite IH|]. simpl. done.
Qed.

Lemma monitor_runs_add n m s : monitor_runs (n + m) s = monitor_runs m (monitor_runs n s).
Proof.
  revert s. induction n as [|n IH]; intros [c run]; [done|]. simpl. destruct run; [apply IH|].
  by destruct m.
Qed.

(** In the [n] iterations from [s] the state did not stop being active. *)
Definition steady n s : Prop :=
  ∀ i k, (i ≤ k ≤ n)%nat → state (monitor_runs i s).1 = ControlState.Active →
    state (monitor_runs k s).1 = ControlState.Active.

Lemma steady_S n s :
  steady n s → (state (monitor_runs n s).1 = ControlState.Active →
    state (monitor_runs (S n) s).1 = ControlState.Active) → steady (S n) s.
Proof.
  intros Hs Hlast i k [Hi Hk] Ha. destruct (decide (k = S n)) as [->|]; [|apply (Hs i); [lia|done]].
  destruct (decide (i = S n)) as [->|]; [done|]. apply Hlast, (Hs i); [lia|done].
Qed.

Lemma steady_less m n s : (m ≤ n)%nat → steady n s → steady m s.
Proof. intros Hm Hs i k Hk. apply Hs. lia. Qed.

(** The generation tells whether the state stopped being active since it was read in [s],
    unless the gadget is gone for good. *)
Lemma monitor_runs_generation n s :
  (steady n s ∧ endpoint_generation (monitor_runs n s).1 = endpoint_generation s.1) ∨
  (¬ steady n s ∧ ∃ d, 1 ≤ d ≤ Z.of_nat n ∧
     endpoint_generation (monitor_runs n s).1 = (endpoint_generation s.1 + d) mod 2 ^ 64) ∨
  dead (monitor_runs n s).
Proof.
  induction n as [|n IH].
  { left. split; [|done]. intros i k Hk. by replace i with k by lia. }
  rewrite monitor_runs_S. destruct (monitor_runs n s) as [c run] eqn:Hn.
  pose proof (monitor_runs_S n s) as HS. rewrite Hn in HS. cbn [fst snd] in *.
  destruct IH as [[Hall Hgen]|[[Hnot (d & Hd & Hgen)]|Hdead]].
  - pose proof (steady_S n s Hall) as HstS. rewrite Hn, HS in HstS. cbn [fst] in HstS.
    destruct run; [|left; auto].
    destruct (monitor_iteration_effect c) as [s' Hkeep Hst|s' Ha Hst Hbump|s' Hdead]; [| |auto].
    + left. split; [auto|]. by rewrite Hkeep.
    + right; left. split; [|exists 1; split; [lia|by rewrite Hbump, Hgen]].
      intros Hall'. apply Hst. rewrite <-HS. apply (Hall' n); [lia|by rewrite Hn].
  - assert (HnotS : ¬ steady (S n) s) by (intros Hs; apply Hnot; eapply steady_less; [|done]; lia).
    destruct run; [|right; left; split; [done|]; exists d; split; [lia|done]].
    destruct (monitor_iteration_effect c) as [s' Hkeep _|s' _ _ Hbump|s' Hdead]; [| |auto];
      right; left; (split; [done|]).
    + exists d. split; [lia|]. by rewrite Hkeep.
    + exists (d + 1). split; [lia|]. rewrite Hbump, Hgen, Zplus_mod_idemp_l. f_equal. lia.
  - right; right. destruct run; [by apply dead_iteration|done].
Qed.

(** A generation that moved on fewer than 2^64 times is a different one. *)
Lemma generation_moved g d : u64 g → 1 ≤ d < 2 ^ 64 → (g + d) mod 2 ^ 64 ≠ g.
Proof.
  unfold in_range, u64_max. intros Hg Hd Heq.
  assert (Hmod : d mod 2 ^ 64 = 0).
  { replace d with (g + d - g) by lia.
    rewrite Zminus_mod, Heq, (Z.mod_small g) by lia. by rewrite Z.sub_diag. }
  rewrite Z.mod_small in Hmod by lia. lia.
Qed.

(** The check in front of a transfer: the generation is loaded [n] iterations later and the
    state [w] iterations after that. *)
Lemma ensure_active_iff n w s :
  u64 (endpoint_generation s.1) → Z.of_nat n < 2 ^ 64 →
  ensure_control_active (endpoint_generation s.1) (monitor_runs n s).1 (monitor_runs (n + w) s).1 = Ok tt ↔
  steady n s ∧ state (monitor_runs (n + w) s).1 = ControlState.Active.
Proof.
  intros Hg Hn. unfold ensure_control_active, endpoint_generation_is_current.
  destruct (monitor_runs_generation n s) as [[Hall Hgen]|[[Hnot (d & Hd & Hgen)]|Hdead]].
  - rewrite Hgen, Z.eqb_refl. cbn [negb]. destruct (state (monitor_runs (n + w) s).1); naive_solver.
  - rewrite Hgen. destruct (Z.eqb_spec ((endpoint_generation s.1 + d) mod 2 ^ 64) (endpoint_generation s.1)).
    + exfalso. by apply (generation_moved (endpoint_generation s.1) d); [|lia|].
    + cbn [negb]. naive_solver.
  - apply (monitor_runs_dead w) in Hdead as [Hst _]. rewrite <-monitor_runs_add in Hst. rewrite Hst.
    destruct (negb _); naive_solver.
Qed.

Lemma ensure_control_active_err g c later e :
  ensure_control_active g c later = Err e → e = ErrorKind.ConnectionAborted.
Proof.
  unfold ensure_control_active. destruct (negb _); [by intros [= <-]|].
  destruct (state later); by intros [= <-].
Qed.

(** C16: A bulk endpoint serves at most one stretch of activity of the USB configuration: the
    one it was opened in or, opened while the configuration was not active, the next one.
    The endpoint is opened in any state, and however far the event thread gets, the check
    that precedes every transfer passes if and only if the state it loads is active and,
    from the opening to when it loaded the generation, the state did not stop being active.
    Once the state has stopped being active, every read or write on the endpoint ends with
    [ConnectionAborted] before any system call, whatever the event thread, the file and
    [poll] do from then on.  So a configuration that went away and came back is not mistaken
    for the old one, short of 2^64 of them. *)
Theorem endpoint_is_usable_while_active {A} path ahead s0 s g n w p (m : moment A) schedule :
  open_endpoint path (Ok tt) ahead s0 = (s, Ok g) → u64 g →
  Z.of_nat (n + before m) < 2 ^ 64 →
  (ensure_control_active g (monitor_runs n s).1 (monitor_runs (n + w) s).1 = Ok tt ↔
   (∀ i k, (i ≤ k ≤ n)%nat → state (monitor_runs i s).1 = ControlState.Active →
      state (monitor_runs k s).1 = ControlState.Active) ∧
   state (monitor_runs (n + w) s).1 = ControlState.Active) ∧
  ((∃ i k, (i ≤ k ≤ n)%nat ∧ state (monitor_runs i s).1 = ControlState.Active ∧
      state (monitor_runs k s).1 ≠ ControlState.Active) →
   let '(_, tried, r) := endpoint_io g p (m :: schedule) (monitor_runs n s) in
   tried = 0%nat ∧ r = Some (Err ErrorKind.ConnectionAborted)).
Proof.
  intros Hopen Hg Hlt. cbn in Hopen. injection Hopen as -> <-.
  split; [apply ensure_active_iff; [done|lia]|].
  intros (i & k & Hk & Ha & Hbreak). cbn [endpoint_io]. rewrite <-!monitor_runs_add.
  destruct (ensure_control_active _ _ _) as [[]|e] eqn:Hcheck.
  { exfalso. apply Hbreak. apply (ensure_active_iff _ _ _ Hg Hlt) in Hcheck as [Hs _].
    apply (Hs i); [lia|done]. }
  split; [done|]. by rewrite (ensure_control_active_err _ _ _ _ Hcheck).
Qed.
End control_lemmas.

(** ** The wait of [accept] while the monitor runs

    The branch of [wait_for_active] for a running monitor, and the monitor's loop, in steps
    that other threads cannot divide.  [state_wait] is held from [Loading] until the thread
    sleeps or returns, and [set_state] needs it; the store at the end of endpoint 0 and the
    load do not. *)
Section waiting.
Context {E : Type} `{Ep0 E}.

Inductive monitor_pc : Type := Reading | Applying (action : ControlAction) | Disconnecting | Ended.
Inductive waiter_pc : Type :=
| Locking | Loading | Deciding | Sleeping | Returned (r : result EventError WaitOutcome).

Record waiting : Type := {
  control : FunctionFsControl E;
  monitor : monitor_pc;
  waiter : waiter_pc;
}.

Definition holds_lock (w : waiter_pc) : bool :=
  match w with
  | Loading | Deciding => true
  | _ => false
  end.
(** [Condvar::notify_all]. *)
Definition notify (w : waiter_pc) : waiter_pc :=
  match w with
  | Sleeping => Locking
  | w => w
  end.
Definition poisoned_error : EventError := EventError.Io (ErrorKind.OtherKind 0).

Inductive wait_step : waiting → waiting → Prop :=
| monitor_lock_fails c w :
    ep0_poisoned c = true →
    wait_step {| control := c; monitor := Reading; waiter := w |}
              {| control := c; monitor := Disconnecting; waiter := w |}
| monitor_read_fails c w e error :
    ep0_poisoned c = false → read_event (ep0 c) = (e, Err error) →
    wait_step {| control := c; monitor := Reading; waiter := w |}
              {| control := with_ep0 e c; monitor := Disconnecting; waiter := w |}
| monitor_reads_end c w e :
    ep0_poisoned c = false → read_event (ep0 c) = (e, Ok None) →
    wait_step {| control := c; monitor := Reading; waiter := w |}
              {| control := store_state ControlState.Disconnected (with_ep0 e c);
                 monitor := Disconnecting; waiter := w |}
| monitor_reads_event c w e event :
    ep0_poisoned c = false → read_event (ep0 c) = (e, Ok (Some event)) →
    wait_step {| control := c; monitor := Reading; waiter := w |}
              {| control := with_ep0 e c;
                 monitor := Applying (classify_control_event event); waiter := w |}
| monitor_stalls c w p e r :
    stall_unsupported_setup p (ep0 c) = (e, r) →
    wait_step {| control := c; monitor := Applying (ControlAction.Stall p); waiter := w |}
              {| control := with_ep0 e c;
                 monitor := if is_ok r then Reading else Disconnecting; waiter := w |}
| monitor_activates c w :
    holds_lock w = false →
    wait_step {| control := c; monitor := Applying ControlAction.Active; waiter := w |}
              {| control := set_state ControlState.Active c; monitor := Reading;
                 waiter := notify w |}
| monitor_deactivates c w :
    holds_lock w = false →
    wait_step {| control := c; monitor := Applying ControlAction.Inactive; waiter := w |}
              {| control := set_state ControlState.Inactive c; monitor := Reading;
                 waiter := notify w |}
| monitor_unbinds c w :
    holds_lock w = false →
    wait_step {| control := c; monitor := Applying ControlAction.Disconnected; waiter := w |}
              {| control := set_state ControlState.Disconnected c; monitor := Disconnecting;
                 waiter := notify w |}
| monitor_ends c w :
    holds_lock w = false →
    wait_step {| control := c; monitor := Disconnecting; waiter := w |}
              {| control := set_state ControlState.Disconnected c; monitor := Ended;
                 waiter := notify w |}
| waiter_locks c m :
    wait_poisoned c = false →
    wait_step {| control := c; monitor := m; waiter := Locking |}
              {| control := c; monitor := m; waiter := Loading |}
| waiter_finds_poison c m :
    wait_poisoned c = true →
    wait_step {| control := c; monitor := m; waiter := Locking |}
              {| control := c; monitor := m; waiter := Returned (Err poisoned_error) |}
| waiter_loads c m :
    wait_step {| control := c; monitor := m; waiter := Loading |}
              {| control := c; monitor := m;
                 waiter := match settled c with
                           | Some outcome => Returned (Ok outcome)
                           | None => Deciding
                           end |}
| waiter_sleeps c m :
    wait_step {| control := c; monitor := m; waiter := Deciding |}
              {| control := c; monitor := m; waiter := Sleeping |}
| waiter_wakes_spuriously c m :
    wait_step {| control := c; monitor := m; waiter := Sleeping |}
              {| control := c; monitor := m; waiter := Locking |}
| waiter_calls_again c m r :
    wait_step {| control := c; monitor := m; waiter := Returned r |}
              {| control := c; monitor := m; waiter := Locking |}.

(** The monitor has just been spawned; the waiter is in its next call of [accept]. *)
Definition waits_from (c : FunctionFsControl E) : waiting :=
  {| control := c; monitor := Reading; waiter := Locking |}.

Definition attentive (s : waiting) : Prop :=
  (waiter s = Deciding ∨ waiter s = Sleeping →
   state (control s) = ControlState.Inactive ∨ monitor s = Disconnecting) ∧
  (monitor s = Ended → state (control s) = ControlState.Disconnected).

Lemma notify_not_waiting w : holds_lock w = false → notify w ≠ Deciding ∧ notify w ≠ Sleeping.
Proof. by destruct w. Qed.

Lemma set_disconnected c :
  state (set_state (E := E) ControlState.Disconnected c) = ControlState.Disconnected.
Proof. unfold set_state. repeat case_match; done. Qed.

Lemma wait_step_attentive s s' : attentive s → wait_step s s' → attentive s'.
Proof.
  intros [Hi He] Hstep.
  destruct Hstep as [| | | | |c w Hl|c w Hl|c w Hl|c w Hl| | | | | |];
    unfold attentive in *; simpl in *; try naive_solver.
  - destruct (is_ok r); naive_solver.
  - apply notify_not_waiting in Hl. naive_solver.
  - apply notify_not_waiting in Hl. naive_solver.
  - apply notify_not_waiting in Hl. rewrite set_disconnected. naive_solver.
  - unfold settled. destruct (state c) eqn:Hs; naive_solver.
Qed.

(** C17: [accept] does not miss a wake-up, although the end of endpoint 0 is stored without
    the lock and without a notification: in every interleaving with the event thread, a call
    that sleeps does so while the configuration is inactive, or the event thread is just
    about to announce the disconnection under the lock; and it never sleeps once the event
    thread has ended. *)
Theorem accept_is_not_left_asleep c s :
  rtc wait_step (waits_from c) s → waiter s = Sleeping →
  monitor s ≠ Ended ∧
  (state (control s) = ControlState.Inactive ∨
   (monitor s = Disconnecting ∧
    ∃ s', wait_step s s' ∧ waiter s' = Locking ∧
      state (control s') = ControlState.Disconnected)).
Proof.
  intros Hrun Hsleep.
  assert (attentive s) as [Hi He].
  { assert (attentive (waits_from c)) as Hinit by (split; simpl; naive_solver).
    induction Hrun; eauto using wait_step_attentive. }
  destruct s as [d m w]. simpl in *. subst w. specialize (Hi (or_intror eq_refl)).
  split; [intros Hm; specialize (He Hm); subst m; destruct Hi; congruence|].
  destruct Hi as [Hi|Hm]; [by left|]. right. split; [done|]. subst m.
  eexists. split; [by apply monitor_ends|]. split; [done|]. apply set_disconnected.
Qed.

(** The iterations of [monitor_iteration] are such steps. *)
Lemma monitor_iteration_steps c c' run w :
  holds_lock w = false → monitor_iteration c = (c', run) →
  ∃ w', rtc wait_step {| control := c; monitor := Reading; waiter := w |}
    {| control := c'; monitor := if run then Reading else Ended; waiter := w' |}.
Proof.
  intros Hl. unfold monitor_iteration, mbnd at 1, mgets, lock_ep0.
  assert (holds_lock (notify w) = false) as Hl' by by destruct w.
  destruct (ep0_poisoned c) eqn:Hp; cbn [reject_if map_err].
  { intros [= <- <-]. eexists. eapply rtc_l; [by apply monitor_lock_fails|].
    eapply rtc_once. by apply monitor_ends. }
  unfold consume_event, mbnd at 1, zoom.
  destruct (read_event (ep0 c)) as [e [[event|]|error]] eqn:Hr.
  2:{ unfold mbnd, mmodify, mret. intros [= <- <-]. eexists.
      eapply rtc_l; [by apply monitor_reads_end|]. eapply rtc_once. by apply monitor_ends. }
  2:{ intros [= <- <-]. eexists. eapply rtc_l; [by eapply monitor_read_fails|].
      eapply rtc_once. by apply monitor_ends. }
  pose proof (monitor_reads_event c w e event Hp Hr) as Hread.
  destruct (classify_control_event event) as [| | |p]; unfold apply_action, mbnd, mmodify, mret.
  - intros [= <- <-]. eexists. eapply rtc_l; [exact Hread|]. eapply rtc_once.
    by apply monitor_activates.
  - intros [= <- <-]. eexists. eapply rtc_l; [exact Hread|]. eapply rtc_once.
    by apply monitor_deactivates.
  - intros [= <- <-]. eexists. eapply rtc_l; [exact Hread|].
    eapply rtc_l; [by apply monitor_unbinds|]. eapply rtc_once. by apply monitor_ends.
  - unfold zoom_err.
    destruct (stall_unsupported_setup p (ep0 (with_ep0 e c))) as [e2 r] eqn:Hst.
    pose proof (monitor_stalls _ w _ _ _ Hst) as Hstall.
    destruct r as [[]|error]; cbn [map_err is_ok] in *; intros [= <- <-]; eexists.
    + eapply rtc_l; [exact Hread|]. by eapply rtc_once.
    + eapply rtc_l; [exact Hread|]. eapply rtc_l; [exact Hstall|]. eapply rtc_once.
      by apply monitor_ends.
Qed.
End waiting.
Arguments waiting E : clear implicits.

(** ** Concrete runs *)

(** Endpoint 0 as a script of its reads: writes are accepted whole, stalls are confirmed the
    way the kernel does. *)
#[export, refine] Instance script_ep0 : Ep0 Script := {|
  ep_write bs s := (s, Ok (len bs));
  ep_interruptions _ := 0%nat;
  empty_read s := (s, Err L2HLT);
  empty_write s := (s, Err L2HLT);
|}.
Proof. done. Defined.

Definition no_setup : SetupPacket :=
  {| request_type := 0; request := 0; setup_value := 0; setup_index := 0; setup_length := 0 |}.
Definition plain_event (kind : EventKind) : Event := {| event_kind := kind; setup := no_setup |}.
Definition records (kinds : list EventKind) : bytes :=
  kinds ≫= λ kind, event_bytes (plain_event kind) [x00; x00; x00].

(** The gadget was enabled; then it is suspended and resumed. *)
Definition suspended_gadget : FunctionFsControl Script * bool :=
  (set_state ControlState.Active
     (control_new [Chunk (records [EventKind.Suspend; EventKind.Resume])]), true).

Definition idle_moment : moment bytes :=
  {| before := 0; during := 0; between := 0; io := Ok [x01]; polled := Ok None |}.

Lemma endpoint_is_usable_while_active_witness :
  (ensure_control_active 0 (monitor_runs 2 suspended_gadget).1 (monitor_runs (2 + 0) suspended_gadget).1
     = Ok tt ↔
   (∀ i k, (i ≤ k ≤ 2)%nat → state (monitor_runs i suspended_gadget).1 = ControlState.Active →
      state (monitor_runs k suspended_gadget).1 = ControlState.Active) ∧
   state (monitor_runs (2 + 0) suspended_gadget).1 = ControlState.Active) ∧
  let '(_, tried, r) := endpoint_io 0 Operating [idle_moment] (monitor_runs 2 suspended_gadget) in
  tried = 0%nat ∧ r = Some (Err ErrorKind.ConnectionAborted).
Proof.
  destruct (endpoint_is_usable_while_active "ep1" 0 suspended_gadget suspended_gadget 0 2 0 Operating
    idle_moment []) as [Hiff Hio]; [reflexivity|vm_compute; split; congruence|simpl; lia|].
  split; [exact Hiff|]. apply Hio. exists 0%nat, 1%nat. split; [lia|]. by vm_compute.
Defined.

(** An endpoint opened while the gadget is suspended becomes usable when it resumes. *)
Example opened_while_suspended :
  let s := monitor_runs 1 suspended_gadget in
  let '(s, r) := open_endpoint "ep1" (Ok tt) 0 s in
  state s.1 = ControlState.Inactive ∧ r = Ok 1 ∧
  ensure_control_active 1 (monitor_runs 1 s).1 (monitor_runs 1 s).1 = Ok tt.
Proof. by vm_compute. Qed.

(** The state after those events is active again, so that only the generation tells. *)
Example suspended_gadget_is_active_again :
  state (monitor_runs 2 suspended_gadget).1 = ControlState.Active.
Proof. by vm_compute. Qed.

Definition silent_gadget : FunctionFsControl Script := control_new [].
Definition asleep : waiting Script :=
  {| control := silent_gadget; monitor := Reading; waiter := Sleeping |}.

Lemma silent_gadget_sleeps : rtc wait_step (waits_from silent_gadget) asleep.
Proof.
  eapply rtc_l; [by apply waiter_locks|]. eapply rtc_l; [apply waiter_loads|].
  eapply rtc_once. apply waiter_sleeps.
Qed.

Lemma accept_is_not_left_asleep_witness :
  monitor asleep ≠ Ended ∧
  (state (control asleep) = ControlState.Inactive ∨
   (monitor asleep = Disconnecting ∧
    ∃ s', wait_step asleep s' ∧ waiter s' = Locking ∧
      state (control s') = ControlState.Disconnected)).
Proof.
  apply (accept_is_not_left_asleep silent_gadget asleep silent_gadget_sleeps). reflexivity.
Defined.

(** [accept] on a gadget that is bound, gets a request it stalls, and is enabled. *)
Example accept_opens_both_endpoints :
  (accept (Ok tt) (Ok tt) 0 0
     (control_new (E := Script)
        [Chunk (records [EventKind.Bind; EventKind.Setup]); Interrupt;
         Chunk (records [EventKind.Enable])])).2 = Ok (Some (0, 0)).
Proof. by vm_compute. Qed.

(** An unbound gadget is reported, not waited for. *)
Example unbound_gadget_is_not_accepted :
  (accept (Ok tt) (Ok tt) 0 0
     (control_new (E := Script) [Chunk (records [EventKind.Bind; EventKind.Unbind])])).2 =
    Ok None.
Proof. by vm_compute. Qed.
