(* ===== verification/FunctionFsStream.v ===== *)
(** * FunctionFS byte streams: src/device/kindlebridge-functionfs/src/probe.rs

    The layers between a bulk endpoint and the framing: the buffer of the standard library,
    [FunctionFsIo], which keeps every request to the kernel small, and
    [ResynchronizingReader], which finds the next frame behind what a cancelled transfer has
    left in the endpoint.  Each layer is an instance of the streams of [Framing.v], so that
    what is proved there of frames holds on top of them. *)

From S2P Require Import Prelude Text WireFrame Framing.

Definition MAX_FUNCTIONFS_IO : nat := Z.to_nat (16 * 1024).
Definition MAX_RESYNCHRONIZE_BYTES : Z := 16 * 1024 * 1024.

(** ** [BufRead]: [fill_buf] shows what is buffered, reading when nothing is, and [consume]
    takes a part of what was shown. *)
Class BufRead (R : Type) `{Read R} := {
  fill_buf : R → R * result ErrorKind bytes;
  consume : nat → R → R;
  fill_delivers r r' res bs :
    delivers r bs → fill_buf r = (r', res) →
    (res = Err ErrorKind.Interrupted ∧ delivers r' bs) ∨
    ∃ chunk rest, res = Ok chunk ∧ bs = chunk ++ rest ∧ (chunk = [] → bs = []) ∧
      ∀ k, (k ≤ length chunk)%nat → delivers (consume k r') (drop k bs);
  fill_decreases r r' chunk k :
    fill_buf r = (r', Ok chunk) → (0 < k ≤ length chunk)%nat →
    (read_measure (consume k r') < read_measure r)%nat;
}.

(** ** [std::io::BufReader] of capacity [MAX_FUNCTIONFS_IO] ([buffer_functionfs_reader]) *)

Record BufReader (R : Type) : Type := { br_inner : R; br_buffer : bytes }.
Arguments br_inner {R}. Arguments br_buffer {R}.

Definition buffer_functionfs_reader {R} (r : R) : BufReader R :=
  {| br_inner := r; br_buffer := [] |}.

Section buf_reader.
Context {R : Type} `{Read R}.
Implicit Types b : BufReader R.

Definition buf_fill (b : BufReader R) : BufReader R * result ErrorKind bytes :=
  match br_buffer b with
  | [] =>
      match read MAX_FUNCTIONFS_IO (br_inner b) with
      | (r, Ok chunk) => ({| br_inner := r; br_buffer := chunk |}, Ok chunk)
      | (r, Err e) => ({| br_inner := r; br_buffer := [] |}, Err e)
      end
  | buffer => (b, Ok buffer)
  end.
Definition buf_consume (n : nat) (b : BufReader R) : BufReader R :=
  {| br_inner := br_inner b; br_buffer := drop n (br_buffer b) |}.

(** A read of at least the capacity bypasses an empty buffer. *)
Definition buf_read (n : nat) (b : BufReader R) : BufReader R * result ErrorKind bytes :=
  if bool_decide (br_buffer b = []) && (MAX_FUNCTIONFS_IO <=? n)%nat then
    let '(r, res) := read n (br_inner b) in ({| br_inner := r; br_buffer := [] |}, res)
  else
    match buf_fill b with
    | (b, Ok available) => (buf_consume n b, Ok (take n available))
    | (b, Err e) => (b, Err e)
    end.

Definition buf_delivers b (bs : bytes) : Prop :=
  ∃ rest, bs = br_buffer b ++ rest ∧ delivers (br_inner b) rest.
Definition buf_measure b : nat :=
  (S MAX_FUNCTIONFS_IO * read_measure (br_inner b) + length (br_buffer b))%nat.

Lemma capacity_positive : (0 < MAX_FUNCTIONFS_IO)%nat.
Proof. unfold MAX_FUNCTIONFS_IO. lia. Qed.
Local Opaque MAX_FUNCTIONFS_IO.

Lemma buf_fill_delivers b b' res bs :
  buf_delivers b bs → buf_fill b = (b', res) →
  (res = Err ErrorKind.Interrupted ∧ buf_delivers b' bs) ∨
  ∃ chunk rest, res = Ok chunk ∧ bs = chunk ++ rest ∧ (chunk = [] → bs = []) ∧
    br_buffer b' = chunk ∧ delivers (br_inner b') rest.
Proof.
  intros (rest & -> & Hd). unfold buf_fill. destruct (br_buffer b) as [|x buffer] eqn:Hb.
  - destruct (read MAX_FUNCTIONFS_IO (br_inner b)) as [r out] eqn:Hr.
    destruct (read_delivers _ _ _ _ _ Hd Hr capacity_positive)
      as [[-> Hd']|(chunk & more & -> & -> & Hd' & Hnil)]; intros [= <- <-].
    + left. split; [done|]. by exists rest.
    + right. exists chunk, more. done.
  - intros [= <- <-]. right. exists (x :: buffer), rest. done.
Qed.

Lemma buf_fill_buffer b b' chunk : buf_fill b = (b', Ok chunk) → br_buffer b' = chunk.
Proof.
  unfold buf_fill. destruct (br_buffer b) as [|x buffer] eqn:Hb; [|by intros [= <- <-]].
  destruct (read MAX_FUNCTIONFS_IO (br_inner b)) as [r [out|e]]; by intros [= <- <-].
Qed.

Lemma buf_fill_measure b b' x chunk k :
  buf_fill b = (b', Ok (x :: chunk)) → (0 < k)%nat →
  (buf_measure (buf_consume k b') < buf_measure b)%nat.
Proof.
  unfold buf_fill, buf_measure, buf_consume. intros Hf Hk. cbn [br_inner br_buffer].
  rewrite length_drop. destruct (br_buffer b) as [|y buffer] eqn:Hb.
  - destruct (read MAX_FUNCTIONFS_IO (br_inner b)) as [r [out|e]] eqn:Hr; [|done].
    injection Hf as <- ->. cbn [br_inner br_buffer].
    pose proof (read_fits _ _ _ _ Hr). pose proof capacity_positive.
    assert (read_measure r < read_measure (br_inner b))%nat
      by (eapply read_decreases; [exact Hr|lia|eauto]).
    cbn [length] in *. nia.
  - injection Hf as <- <- <-. rewrite Hb. cbn [length]. lia.
Qed.

Lemma buf_fill_interrupted b b' :
  buf_fill b = (b', Err ErrorKind.Interrupted) → (buf_measure b' < buf_measure b)%nat.
Proof.
  unfold buf_fill, buf_measure. destruct (br_buffer b) as [|y buffer] eqn:Hb; [|done].
  destruct (read MAX_FUNCTIONFS_IO (br_inner b)) as [r [out|e]] eqn:Hr; [done|].
  intros [= <- ->]. cbn [br_inner br_buffer length].
  assert (read_measure r < read_measure (br_inner b))%nat
    by (eapply read_decreases; [exact Hr|apply capacity_positive|eauto]).
  pose proof capacity_positive. nia.
Qed.

Lemma buf_read_fits n b b' bs : buf_read n b = (b', Ok bs) → (length bs ≤ n)%nat.
Proof.
  unfold buf_read. destruct (_ && _).
  - destruct (read n (br_inner b)) as [r res] eqn:Hr. intros [= <- ->]. by eapply read_fits.
  - destruct (buf_fill b) as [b1 [out|e]]; intros [= <- <-]. rewrite length_take. lia.
Qed.

Lemma buf_read_decreases n b b' res :
  buf_read n b = (b', res) → (0 < n)%nat →
  res = Err ErrorKind.Interrupted ∨ (∃ x bs, res = Ok (x :: bs)) →
  (buf_measure b' < buf_measure b)%nat.
Proof.
  intros Hread Hn Hres. unfold buf_read in Hread.
  destruct (bool_decide (br_buffer b = [])) eqn:Hb; [destruct (MAX_FUNCTIONFS_IO <=? n)%nat|];
    cbn [andb] in Hread.
  1:{ destruct (read n (br_inner b)) as [r out] eqn:Hr. injection Hread as <- <-.
      apply bool_decide_eq_true in Hb. unfold buf_measure. rewrite Hb. cbn [br_inner br_buffer].
      pose proof (read_decreases _ _ _ _ Hr Hn Hres). pose proof capacity_positive. nia. }
  all: destruct (buf_fill b) as [b1 [out|e]] eqn:Hf; injection Hread as <- <-;
    [|destruct Hres as [[= ->]|(?&?&?)]; [by apply buf_fill_interrupted|done]];
    destruct Hres as [|(x & bs & [= Htake])]; [done|];
    destruct out as [|y out]; [by rewrite take_nil in Htake|]; by eapply buf_fill_measure.
Qed.

Lemma buf_read_delivers n b b' res bs :
  buf_delivers b bs → buf_read n b = (b', res) → (0 < n)%nat →
  (res = Err ErrorKind.Interrupted ∧ buf_delivers b' bs) ∨
  ∃ chunk rest, res = Ok chunk ∧ bs = chunk ++ rest ∧ buf_delivers b' rest ∧
    (chunk = [] → bs = []).
Proof.
  intros Hd Hread Hn. unfold buf_read in Hread.
  destruct (bool_decide (br_buffer b = [])) eqn:Hb; [destruct (MAX_FUNCTIONFS_IO <=? n)%nat|];
    cbn [andb] in Hread.
  1:{ destruct (read n (br_inner b)) as [r out] eqn:Hr. injection Hread as <- <-.
      apply bool_decide_eq_true in Hb. destruct Hd as (rest & -> & Hd). rewrite Hb.
      destruct (read_delivers _ _ _ _ _ Hd Hr Hn)
        as [[-> Hd']|(chunk & more & -> & -> & Hd' & Hnil)].
      - left. split; [done|]. by exists rest.
      - right. exists chunk, more. split_and!; try done. by exists more. }
  all: destruct (buf_fill b) as [b1 out] eqn:Hf;
    destruct (buf_fill_delivers _ _ _ _ Hd Hf)
      as [[-> Hd']|(chunk & more & -> & -> & Hnil & Hbuf & Hd')];
    injection Hread as <- <-; [by left|right];
    exists (take n chunk), (drop n chunk ++ more);
    (split; [done|]); (split; [by rewrite app_assoc, take_drop|]);
    (split; [exists more; simpl; by rewrite Hbuf|]);
    intros Htake; apply Hnil; destruct chunk, n; simpl in *; try done; lia.
Qed.

#[export] Instance buf_reader_stream : Read (BufReader R) := {|
  read := buf_read;
  read_measure := buf_measure;
  delivers := buf_delivers;
  read_fits := buf_read_fits;
  read_decreases := buf_read_decreases;
  read_delivers := buf_read_delivers;
|}.

#[export, refine] Instance buf_reader_buf_read : BufRead (BufReader R) := {|
  fill_buf := buf_fill;
  consume := buf_consume;
|}.
Proof.
  - intros b b' res bs Hd Hf.
    destruct (buf_fill_delivers _ _ _ _ Hd Hf)
      as [[-> Hd']|(chunk & more & -> & -> & Hnil & Hbuf & Hd')]; [by left|right].
    exists chunk, more. split_and!; try done. intros k Hk. exists more. simpl.
    by rewrite Hbuf, drop_app_le.
  - intros b b' [|x chunk] k Hf Hk; [simpl in Hk; lia|]. eapply buf_fill_measure; [done|lia].
Defined.
End buf_reader.

(** ** [FunctionFsIo] *)

Record FunctionFsIo (T : Type) : Type := { fio : T }.
Arguments fio {T}. Arguments Build_FunctionFsIo {T}.

Section functionfs_io.
Context {T : Type} `{BufRead T}.

Definition fio_read (n : nat) (s : FunctionFsIo T) : FunctionFsIo T * result ErrorKind bytes :=
  let '(t, res) := read (n `min` MAX_FUNCTIONFS_IO) (fio s) in ({| fio := t |}, res).
Definition fio_fill_buf (s : FunctionFsIo T) : FunctionFsIo T * result ErrorKind bytes :=
  match fill_buf (fio s) with
  | (t, Ok buffer) => ({| fio := t |}, Ok (take (length buffer `min` MAX_FUNCTIONFS_IO) buffer))
  | (t, Err e) => ({| fio := t |}, Err e)
  end.
Definition fio_consume (amount : nat) (s : FunctionFsIo T) : FunctionFsIo T :=
  {| fio := consume amount (fio s) |}.

#[export, refine] Instance functionfs_io_stream : Read (FunctionFsIo T) := {|
  read := fio_read;
  read_measure s := read_measure (fio s);
  delivers s := delivers (fio s);
|}.
Proof.
  - intros n s s' bs. unfold fio_read. destruct (read _ (fio s)) as [t res] eqn:Hr.
    intros [= <- ->]. apply read_fits in Hr. lia.
  - intros n s s' res. unfold fio_read. destruct (read _ (fio s)) as [t out] eqn:Hr.
    intros [= <- <-] Hn. eapply read_decreases; [exact Hr|]. pose proof capacity_positive. lia.
  - intros n s s' res bs Hd. unfold fio_read. destruct (read _ (fio s)) as [t out] eqn:Hr.
    intros [= <- <-] Hn. apply (read_delivers _ (fio s) _ _ _ Hd Hr). pose proof capacity_positive. lia.
Defined.

#[export, refine] Instance functionfs_io_buf_read : BufRead (FunctionFsIo T) := {|
  fill_buf := fio_fill_buf;
  consume := fio_consume;
|}.
Proof.
  - intros s s' res bs Hd. unfold fio_fill_buf.
    destruct (fill_buf (fio s)) as [t out] eqn:Hf.
    destruct (fill_delivers (fio s) _ _ _ Hd Hf) as [[-> Hd']|(chunk & rest & -> & -> & Hnil & Hk)];
      intros [= <- <-]; [by left|right].
    set (n := (length chunk `min` MAX_FUNCTIONFS_IO)%nat).
    exists (take n chunk), (drop n chunk ++ rest). split; [done|].
    split; [by rewrite app_assoc, take_drop|]. split.
    + intros Htake%(f_equal length). apply Hnil. apply nil_length_inv.
      rewrite length_take in Htake. simpl in Htake. pose proof capacity_positive. lia.
    + intros k Hle. apply Hk. rewrite length_take in Hle. lia.
  - intros s s' chunk k. unfold fio_fill_buf. destruct (fill_buf (fio s)) as [t [out|e]] eqn:Hf;
      intros [= <- <-] Hk. apply (fill_decreases (fio s) t out k Hf). rewrite length_take in Hk. lia.
Defined.
End functionfs_io.

(** ** [ResynchronizingReader] *)

Record ResynchronizingReader (R : Type) : Type := { rs_inner : R; magic_offset : nat }.
Arguments rs_inner {R}. Arguments magic_offset {R}.

Definition resynchronizing_new {R} (r : R) : ResynchronizingReader R :=
  {| rs_inner := r; magic_offset := length MAGIC |}.

(** The [for] loop over what is available: the bytes consumed, the bytes of the magic matched
    and whether it was found. *)
Fixpoint scan (matched : nat) (available : bytes) : nat * nat * bool :=
  match available with
  | [] => (0%nat, matched, false)
  | b :: available =>
      if bool_decide (MAGIC !! matched = Some b) then
        if (S matched =? length MAGIC)%nat then (1%nat, S matched, true)
        else let '(consumed, matched, found) := scan (S matched) available in
             (S consumed, matched, found)
      else
        let '(consumed, matched, found) :=
          scan (if bool_decide (MAGIC !! 0%nat = Some b) then 1 else 0) available in
        (S consumed, matched, found)
  end.

Section resynchronizing.
Context {R : Type} `{BufRead R}.
Implicit Types s : ResynchronizingReader R.

(** The [while] loop of [resynchronize]; [attempts] bounds its iterations. *)
Fixpoint resynchronize_loop (attempts matched : nat) (scanned : Z) (r : R) :
    R * result ErrorKind unit :=
  match attempts with
  | O => (r, Err ErrorKind.InvalidData)
  | S attempts =>
      if scanned <? MAX_RESYNCHRONIZE_BYTES then
        match fill_buf r with
        | (r, Err e) => (r, Err e)
        | (r, Ok []) => (r, Err ErrorKind.UnexpectedEof)
        | (r, Ok available) =>
            let length := Z.min (len available) (MAX_RESYNCHRONIZE_BYTES - scanned) in
            let '(consumed, matched, found) := scan matched (take (Z.to_nat length) available) in
            let r := consume consumed r in
            if found then (r, Ok tt)
            else resynchronize_loop attempts matched (scanned + Z.of_nat consumed) r
        end
      else (r, Err ErrorKind.InvalidData)
  end.

(** [ResynchronizingReader::resynchronize]. *)
Definition reader_resynchronize (s : ResynchronizingReader R) :
    ResynchronizingReader R * result ErrorKind unit :=
  match resynchronize_loop (S (read_measure (rs_inner s))) 0 0 (rs_inner s) with
  | (r, Ok tt) => ({| rs_inner := r; magic_offset := 0 |}, Ok tt)
  | (r, Err e) => ({| rs_inner := r; magic_offset := length MAGIC |}, Err e)
  end.

(** [impl Read for ResynchronizingReader]. *)
Definition resynchronizing_read (n : nat) (s : ResynchronizingReader R) :
    ResynchronizingReader R * result ErrorKind bytes :=
  if (n =? 0)%nat then (s, Ok []) else
  if (magic_offset s <? length MAGIC)%nat then
    let count := (n `min` (length MAGIC - magic_offset s))%nat in
    ({| rs_inner := rs_inner s; magic_offset := magic_offset s + count |},
     Ok (slice (magic_offset s) (magic_offset s + count) MAGIC))
  else
    let '(r, res) := read n (rs_inner s) in
    ({| rs_inner := r; magic_offset := magic_offset s |}, res).

#[export, refine] Instance resynchronizing_stream : Read (ResynchronizingReader R) := {|
  read := resynchronizing_read;
  read_measure s := (length MAGIC - magic_offset s + read_measure (rs_inner s))%nat;
  delivers s bs := ∃ rest, bs = drop (magic_offset s) MAGIC ++ rest ∧ delivers (rs_inner s) rest;
|}.
Proof.
  - intros n s s' bs. unfold resynchronizing_read.
    destruct (Nat.eqb_spec n 0); [intros [= <- <-]; simpl; lia|].
    destruct (Nat.ltb_spec (magic_offset s) (length MAGIC)).
    + intros [= <- <-]. unfold slice. rewrite length_take. lia.
    + destruct (read n (rs_inner s)) as [r res] eqn:Hr. intros [= <- ->]. by eapply read_fits.
  - intros n s s' res Hread Hn Hres. revert Hread. unfold resynchronizing_read.
    destruct (Nat.eqb_spec n 0); [lia|].
    destruct (Nat.ltb_spec (magic_offset s) (length MAGIC)).
    + intros [= <- <-]. cbn [magic_offset rs_inner]. change (length MAGIC) with 4%nat in *. lia.
    + destruct (read n (rs_inner s)) as [r out] eqn:Hr. intros [= <- <-].
      cbn [magic_offset rs_inner]. pose proof (read_decreases _ _ _ _ Hr Hn Hres). lia.
  - intros n s s' res bs (rest & -> & Hd) Hread Hn. revert Hread. unfold resynchronizing_read.
    destruct (Nat.eqb_spec n 0); [lia|].
    destruct (Nat.ltb_spec (magic_offset s) (length MAGIC)) as [Hlt|Hge].
    + intros [= <- <-]. right. set (count := (n `min` (length MAGIC - magic_offset s))%nat).
      exists (slice (magic_offset s) (magic_offset s + count) MAGIC),
        (drop (magic_offset s + count) MAGIC ++ rest).
      split; [done|]. split.
      * unfold slice. replace (magic_offset s + count - magic_offset s)%nat with count by lia.
        rewrite app_assoc. f_equal. by rewrite <-drop_drop, take_drop.
      * split; [by exists rest|]. intros Hnil%(f_equal length). unfold slice in Hnil.
        rewrite length_take, length_drop in Hnil. unfold count in Hnil. simpl in *. lia.
    + destruct (read n (rs_inner s)) as [r out] eqn:Hr. intros [= <- <-].
      cbn [magic_offset rs_inner]. rewrite drop_ge by done. cbn [app].
      destruct (read_delivers _ _ _ _ _ Hd Hr Hn)
        as [[-> Hd']|(chunk & more & -> & -> & Hd' & Hnil)]; [left; eauto|].
      right. exists chunk, more. split_and!; eauto.
Defined.
End resynchronizing.

(** ** Finding the next frame *)

(** Reference: the number of bytes in front of the first magic. *)
Fixpoint first_magic (bs : bytes) : option nat :=
  if bool_decide (take (length MAGIC) bs = MAGIC) then Some 0%nat
  else match bs with
       | [] => None
       | _ :: bs => S <$> first_magic bs
       end.

Lemma first_magic_skip b bs :
  take (length MAGIC) (b :: bs) ≠ MAGIC → first_magic (b :: bs) = S <$> first_magic bs.
Proof. intros Hne. cbn [first_magic]. by rewrite bool_decide_eq_false_2. Qed.

(** The bytes of the magic differ from each other, so that after a mismatch only the last
    byte can begin it. *)
Lemma first_magic_mismatch matched b bs :
  (matched < length MAGIC)%nat → MAGIC !! matched ≠ Some b →
  let m0 := if bool_decide (MAGIC !! 0%nat = Some b) then 1%nat else 0%nat in
  first_magic (take matched MAGIC ++ b :: bs) =
    Nat.add (matched + 1 - m0) <$> first_magic (take m0 MAGIC ++ bs).
Proof.
  intros Hm Hne m0.
  assert (first_magic (take matched MAGIC ++ b :: bs) = Nat.add matched <$> first_magic (b :: bs))
    as ->.
  { destruct matched as [|[|[|[|n]]]]; [| | | |simpl in Hm; lia];
      cbn [take app MAGIC]; [by destruct (first_magic (b :: bs))|..].
    all: rewrite !(first_magic_skip _ (_ :: _)) by (intros [=]; subst; by apply Hne).
    all: by destruct (first_magic (b :: bs)). }
  unfold m0. case_bool_decide as H0.
  - injection H0 as <-. change (take 1 MAGIC ++ bs) with (x4b :: bs).
    destruct (first_magic (x4b :: bs)); simpl; [|done]. f_equal. lia.
  - rewrite first_magic_skip by (intros [=]; subst; by apply H0).
    change (take 0 MAGIC ++ bs) with bs.
    destruct (first_magic bs); simpl; [|done]. f_equal. lia.
Qed.

Lemma take_magic_S matched b bs :
  MAGIC !! matched = Some b → take matched MAGIC ++ b :: bs = take (S matched) MAGIC ++ bs.
Proof. intros Hb. by rewrite (take_S_r _ _ _ Hb), <-app_assoc. Qed.

(** A scan that began with [matched] bytes of the magic behind it. *)
Lemma scan_correct bs matched consumed matched' found more :
  (matched < length MAGIC)%nat → scan matched bs = (consumed, matched', found) →
  (consumed ≤ length bs)%nat ∧
  if found
  then (length MAGIC ≤ matched + consumed)%nat ∧
       first_magic (take matched MAGIC ++ bs ++ more) =
         Some (matched + consumed - length MAGIC)%nat
  else consumed = length bs ∧ (matched' < length MAGIC)%nat ∧
       (matched' ≤ matched + length bs)%nat ∧
       first_magic (take matched MAGIC ++ bs ++ more) =
         Nat.add (matched + length bs - matched') <$> first_magic (take matched' MAGIC ++ more).
Proof.
  revert matched consumed. induction bs as [|b bs IH]; intros matched consumed Hm; cbn [scan].
  { intros [= <- <- <-]. simpl. split; [lia|]. split; [done|]. split; [done|]. split; [lia|].
    replace (matched + 0 - matched)%nat with 0%nat by lia.
    by destruct (first_magic _). }
  case_bool_decide as Hb.
  - destruct (Nat.eqb_spec (S matched) (length MAGIC)) as [Hlast|Hmore].
    + intros [= <- <- <-]. cbn [length app]. split; [lia|]. split; [lia|].
      rewrite (take_magic_S _ _ _ Hb), Hlast, firstn_all.
      replace (matched + 1 - length MAGIC)%nat with 0%nat by lia. done.
    + destruct (scan (S matched) bs) as [[c m'] f] eqn:Hs. intros [= <- <- <-].
      cbn [app]. rewrite (take_magic_S _ _ _ Hb).
      destruct (IH (S matched) c ltac:(lia) Hs) as [Hc Hf]. cbn [length]. split; [lia|].
      destruct f.
      * destruct Hf as [Hle ->]. split; [lia|]. f_equal. lia.
      * destruct Hf as (-> & Hm' & Hle & ->). split_and!; try lia. f_equal. f_equal. lia.
  - destruct (scan _ bs) as [[c m'] f] eqn:Hs. intros [= <- <- <-]. cbn [app].
    rewrite first_magic_mismatch by done.
    set (m0 := if bool_decide (MAGIC !! 0%nat = Some b) then 1%nat else 0%nat) in *.
    assert (m0 ≤ 1 ∧ m0 ≤ matched)%nat as [Hm0 Hm1].
    { unfold m0. case_bool_decide; [|lia]. destruct matched; [done|lia]. }
    destruct (IH m0 c) as [Hc Hf]; [simpl; lia|exact Hs|]. cbn [length]. split; [lia|].
    destruct f.
    + destruct Hf as [Hle ->]. split; [lia|]. cbn. f_equal. simpl in *. lia.
    + destruct Hf as (-> & Hm' & Hle & ->). split_and!; try lia.
      rewrite <-option_fmap_compose. apply option_fmap_ext. intros i. simpl. lia.
Qed.

Lemma first_magic_short bs : (length bs < length MAGIC)%nat → first_magic bs = None.
Proof.
  induction bs as [|b bs IH]; intros Hlt; [done|]. rewrite first_magic_skip.
  - cbn [length] in Hlt. by rewrite IH by lia.
  - intros Heq%(f_equal length). rewrite length_take in Heq. lia.
Qed.

(** The scan of the first [c] bytes of [bs], of which [budget] may be scanned in all. *)
Lemma scan_within c budget bs matched consumed matched' found :
  (matched < length MAGIC)%nat → (c ≤ length bs)%nat → (c ≤ budget)%nat →
  scan matched (take c bs) = (consumed, matched', found) →
  (consumed ≤ c)%nat ∧
  if found
  then (length MAGIC ≤ matched + consumed)%nat ∧
       first_magic (take matched MAGIC ++ take budget bs) =
         Some (matched + consumed - length MAGIC)%nat
  else consumed = c ∧ (matched' < length MAGIC)%nat ∧ (matched' ≤ matched + c)%nat ∧
       first_magic (take matched MAGIC ++ take budget bs) =
         Nat.add (matched + c - matched') <$>
           first_magic (take matched' MAGIC ++ take (budget - c) (drop c bs)).
Proof.
  intros Hm Hc Hb Hs. assert (length (take c bs) = c) as Hlen by (rewrite length_take; lia).
  assert (take budget bs = take c bs ++ take (budget - c) (drop c bs)) as ->.
  { rewrite <-(take_drop c bs) at 1. rewrite take_app_ge by lia. by rewrite Hlen. }
  pose proof (scan_correct _ _ _ _ _ (take (budget - c) (drop c bs)) Hm Hs) as Hscan.
  by rewrite Hlen in Hscan.
Qed.

(** ** Interrupted system calls *)
Section interruption.
Context {R : Type} `{BufRead R}.

(** A piece of what the reader has buffered is taken. *)
Definition takes (r r' : R) : Prop :=
  ∃ r1 chunk k, fill_buf r = (r1, Ok chunk) ∧ (0 < k ≤ length chunk)%nat ∧ r' = consume k r1.

(** After some pieces, the next attempt to fill the buffer is interrupted. *)
Definition interrupts (r : R) : Prop :=
  ∃ r1 r2, rtc takes r r1 ∧ fill_buf r1 = (r2, Err ErrorKind.Interrupted).

Lemma interrupts_now r r' : fill_buf r = (r', Err ErrorKind.Interrupted) → interrupts r.
Proof. intros Hf. exists r, r'. split; [apply rtc_refl|done]. Qed.

Lemma interrupts_later r r' : takes r r' → interrupts r' → interrupts r.
Proof. intros Ht (r1 & r2 & Hr & Hf). exists r1, r2. split; [by eapply rtc_l|done]. Qed.
End interruption.

Section resynchronization.
Context {R : Type} `{BufRead R}.
Implicit Types r : R.

Lemma resynchronize_loop_correct attempts matched scanned r bs :
  delivers r bs → (matched < length MAGIC)%nat → 0 ≤ scanned ≤ MAX_RESYNCHRONIZE_BYTES →
  (read_measure r < attempts)%nat →
  ∃ r' res, resynchronize_loop attempts matched scanned r = (r', res) ∧
    (interrupts r ∧ res = Err ErrorKind.Interrupted ∨
     match first_magic (take matched MAGIC ++
                        take (Z.to_nat (MAX_RESYNCHRONIZE_BYTES - scanned)) bs) with
     | Some i => res = Ok tt ∧ delivers r' (drop (i + length MAGIC - matched) bs)
     | None => res = Err (if len bs <? MAX_RESYNCHRONIZE_BYTES - scanned
                          then ErrorKind.UnexpectedEof else ErrorKind.InvalidData)
     end).
Proof.
  revert matched scanned r bs.
  induction attempts as [|attempts IH]; intros matched scanned r bs Hd Hm Hsc Hme; [lia|].
  cbn [resynchronize_loop].
  assert (length (take matched MAGIC) < length MAGIC)%nat as Hshort by (rewrite length_take; lia).
  destruct (Z.ltb_spec scanned MAX_RESYNCHRONIZE_BYTES) as [Hlt|Hge].
  2:{ eexists _, _. split; [done|]. right. replace scanned with MAX_RESYNCHRONIZE_BYTES by lia.
      rewrite Z.sub_diag, take_0, app_nil_r, first_magic_short by done.
      by destruct (Z.ltb_spec (len bs) 0); [pose proof (len_nonneg bs); lia|]. }
  destruct (fill_buf r) as [r1 res] eqn:Hf.
  destruct (fill_delivers _ _ _ _ Hd Hf) as [[-> _]|(chunk & rest & -> & Hbs & Hnil & Hk)].
  { eexists _, _. split; [done|]. left. by split; [eapply interrupts_now|]. }
  destruct chunk as [|b chunk].
  { rewrite Hnil by done. eexists _, _. split; [done|]. right.
    rewrite take_nil, app_nil_r, first_magic_short by done.
    by destruct (Z.ltb_spec (len (@nil byte)) (MAX_RESYNCHRONIZE_BYTES - scanned));
      [|unfold len in *; simpl in *; lia]. }
  set (available := b :: chunk) in *.
  set (c := Z.to_nat (Z.min (len available) (MAX_RESYNCHRONIZE_BYTES - scanned))).
  assert (c ≤ length available)%nat as Hc by (unfold c, len; lia).
  assert (0 < c)%nat as Hc0 by (unfold c, len, available; cbn [length]; lia).
  assert (Z.of_nat c ≤ MAX_RESYNCHRONIZE_BYTES - scanned) as Hcb by (unfold c, len; lia).
  assert (take c available = take c bs) as Htake by by rewrite Hbs, take_app_le.
  assert (c ≤ length bs)%nat as Hcl by (rewrite Hbs, length_app; lia).
  rewrite Htake. destruct (scan matched (take c bs)) as [[consumed m'] found] eqn:Hs.
  set (budget := Z.to_nat (MAX_RESYNCHRONIZE_BYTES - scanned)).
  destruct (scan_within c budget bs matched _ _ _ Hm Hcl ltac:(unfold budget; lia) Hs)
    as [Hle Hfound]. destruct found.
  { destruct Hfound as [Hge ->]. eexists _, _. split; [done|]. right. split; [done|].
    replace (matched + consumed - length MAGIC + length MAGIC - matched)%nat with consumed by lia.
    apply Hk. lia. }
  destruct Hfound as (-> & Hm' & Hback & ->).
  destruct (IH m' (scanned + Z.of_nat c) (consume c r1) (drop c bs)) as (r' & res & Hrun & Hres).
  { apply Hk. lia. }
  { done. }
  { lia. }
  { pose proof (fill_decreases _ _ _ c Hf ltac:(lia)). lia. }
  exists r', res. split; [exact Hrun|]. destruct Hres as [[Hint Hres]|Hres]; [left|right].
  { split; [|done]. eapply interrupts_later; [|exact Hint]. exists r1, available, c.
    split; [done|]. split; [lia|done]. }
  replace (Z.to_nat (MAX_RESYNCHRONIZE_BYTES - (scanned + Z.of_nat c))) with (budget - c)%nat in Hres
    by (unfold budget; lia).
  destruct (first_magic (take m' MAGIC ++ take (budget - c) (drop c bs))) as [i|];
    cbn [fmap option_fmap option_map].
  - destruct Hres as [-> Hd']. split; [done|]. rewrite drop_drop in Hd'.
    replace (matched + c - m' + i + length MAGIC - matched)%nat
      with (c + (i + length MAGIC - m'))%nat by lia. done.
  - rewrite Hres. f_equal. unfold len. rewrite length_drop.
    destruct (Z.ltb_spec (Z.of_nat (length bs - c)) (MAX_RESYNCHRONIZE_BYTES - (scanned + Z.of_nat c))),
      (Z.ltb_spec (Z.of_nat (length bs)) (MAX_RESYNCHRONIZE_BYTES - scanned)); try done; lia.
Qed.
End resynchronization.

Lemma first_magic_at bs i : first_magic bs = Some i → take (length MAGIC) (drop i bs) = MAGIC.
Proof.
  revert i. induction bs as [|b bs IH]; intros i; cbn [first_magic]; case_bool_decide as Hm; try done.
  - by intros [= <-].
  - destruct (first_magic bs) as [j|]; [|done]. intros [= <-]. by apply IH.
Qed.

Lemma first_magic_app bs more i : first_magic bs = Some i → first_magic (bs ++ more) = Some i.
Proof.
  revert i. induction bs as [|b bs IH]; intros i Hi.
  { by rewrite first_magic_short in Hi by (simpl; lia). }
  destruct (decide (take (length MAGIC) (b :: bs) = MAGIC)) as [Hm|Hm].
  - cbn [first_magic app] in *. rewrite bool_decide_eq_true_2 in Hi by done.
    rewrite bool_decide_eq_true_2; [done|].
    assert (length MAGIC ≤ length (b :: bs))%nat as Hlen.
    { rewrite <-Hm at 1. rewrite length_take. lia. }
    change (b :: bs ++ more) with ((b :: bs) ++ more). by rewrite take_app_le.
  - rewrite first_magic_skip in Hi by done.
    destruct (first_magic bs) as [j|] eqn:Hj; [|done]. injection Hi as <-.
    destruct (decide (take (length MAGIC) (b :: bs ++ more) = MAGIC)) as [Hm'|Hm'].
    + exfalso. pose proof (first_magic_at _ _ Hj) as Hat.
      assert (length MAGIC ≤ length bs)%nat as Hlen.
      { rewrite <-Hat at 1. rewrite length_take, length_drop. lia. }
      apply Hm. change (b :: bs ++ more) with ((b :: bs) ++ more) in Hm'.
      rewrite take_app_le in Hm'; [done|]. simpl in *. lia.
    + cbn [app]. rewrite first_magic_skip by done. by rewrite (IH j).
Qed.

(** The whole run of [resynchronize] on a stream that delivers [bs]. *)
Lemma resynchronize_delivers {R} `{BufRead R} (s : ResynchronizingReader R) bs :
  delivers (rs_inner s) bs →
  ∃ s' res, reader_resynchronize s = (s', res) ∧
    (interrupts (rs_inner s) ∧ res = Err ErrorKind.Interrupted ∨
     match first_magic (take (Z.to_nat MAX_RESYNCHRONIZE_BYTES) bs) with
     | Some i => res = Ok tt ∧ delivers s' (drop i bs)
     | None => res = Err (if len bs <? MAX_RESYNCHRONIZE_BYTES
                          then ErrorKind.UnexpectedEof else ErrorKind.InvalidData)
     end).
Proof.
  intros Hd. unfold reader_resynchronize.
  destruct (resynchronize_loop_correct (S (read_measure (rs_inner s))) 0 0 (rs_inner s) bs Hd)
    as (r' & res & -> & Hres); [simpl; lia|unfold MAX_RESYNCHRONIZE_BYTES; lia|lia|].
  rewrite Z.sub_0_r, take_0, app_nil_l in Hres.
  destruct res as [[]|e]; eexists _, _; (split; [done|]); (destruct Hres as [[Hint Hres]|Hres]; [by left|right]).
  2:{ revert Hres. destruct (first_magic _); [by intros []|done]. }
  destruct (first_magic _) as [i|] eqn:Hi; [|done]. destruct Hres as [_ Hd']. split; [done|].
  rewrite Nat.sub_0_r, <-drop_drop in Hd'. exists (drop (length MAGIC) (drop i bs)). split; [|done].
  apply (first_magic_app _ (drop (Z.to_nat MAX_RESYNCHRONIZE_BYTES) bs)) in Hi.
  rewrite take_drop in Hi. apply first_magic_at in Hi.
  cbn [magic_offset]. rewrite drop_0, <-Hi at 1. by rewrite take_drop.
Qed.

(** ** Writing

    [Write::write] takes a part of the bytes; interruptions are finite. *)
Class WriteSome (W : Type) := {
  write_some : bytes → W → W * result ErrorKind nat;
  some_flush : W → W * result ErrorKind unit;
  some_written : W → bytes;
  write_patience : W → nat;
  write_some_ok bs w w' n : write_some bs w = (w', Ok n) →
    (n ≤ length bs)%nat ∧ some_written w' = some_written w ++ take n bs ∧
    (write_patience w' ≤ write_patience w)%nat;
  write_some_err bs w w' e : write_some bs w = (w', Err e) →
    some_written w' = some_written w ∧
    (e = ErrorKind.Interrupted → (write_patience w' < write_patience w)%nat);
  some_flush_written w : some_written (some_flush w).1 = some_written w;
}.

(** [Write::write_all] of the standard library over one [write]; [attempts] bounds its
    iterations. *)
Fixpoint write_all_loop {W} (write : bytes → W → W * result ErrorKind nat) (attempts : nat)
    (bs : bytes) (w : W) : W * result ErrorKind unit :=
  match attempts, bs with
  | _, [] => (w, Ok tt)
  | O, _ => (w, Err ErrorKind.WriteZero)
  | S attempts, _ =>
      match write bs w with
      | (w, Ok O) => (w, Err ErrorKind.WriteZero)
      | (w, Ok n) => write_all_loop write attempts (drop n bs) w
      | (w, Err ErrorKind.Interrupted) => write_all_loop write attempts bs w
      | (w, Err e) => (w, Err e)
      end
  end.

(** [impl Write for FunctionFsIo], over the endpoint's own [write]. *)
Definition fio_write {W} (write : bytes → W → W * result ErrorKind nat) (bs : bytes)
    (s : FunctionFsIo W) : FunctionFsIo W * result ErrorKind nat :=
  let '(w, r) := write (take (length bs `min` MAX_FUNCTIONFS_IO) bs) (fio s) in ({| fio := w |}, r).

Section writing_some.
Context {W : Type} `{WriteSome W}.

Definition fio_write_all (bs : bytes) (s : FunctionFsIo W) :
    FunctionFsIo W * result ErrorKind unit :=
  write_all_loop (fio_write write_some) (length bs + write_patience (fio s)) bs s.
Definition fio_flush (s : FunctionFsIo W) : FunctionFsIo W * result ErrorKind unit :=
  let '(w, r) := some_flush (fio s) in ({| fio := w |}, r).

Lemma fio_write_ok bs (s s' : FunctionFsIo W) n :
  fio_write write_some bs s = (s', Ok n) →
  (n ≤ length bs)%nat ∧ some_written (fio s') = some_written (fio s) ++ take n bs ∧
  (write_patience (fio s') ≤ write_patience (fio s))%nat.
Proof.
  unfold fio_write. destruct (write_some _ (fio s)) as [w r] eqn:Hw. intros [= <- ->].
  apply write_some_ok in Hw as (Hn & Hwr & Hp). rewrite length_take in Hn.
  split; [lia|]. split; [|done]. cbn [fio]. rewrite Hwr. f_equal. rewrite take_take. f_equal. lia.
Qed.

Lemma write_all_loop_ok attempts bs (s s' : FunctionFsIo W) :
  write_all_loop (fio_write write_some) attempts bs s = (s', Ok tt) →
  some_written (fio s') = some_written (fio s) ++ bs.
Proof.
  revert bs s. induction attempts as [|attempts IH]; intros [|b bs] s; cbn [write_all_loop];
    try (intros [= <-]; by rewrite app_nil_r).
  destruct (fio_write write_some (b :: bs) s) as [s1 [[|n]|e]] eqn:Hw; [done| |].
  - intros ->%IH. apply fio_write_ok in Hw as (_ & -> & _).
    by rewrite <-app_assoc, take_drop.
  - destruct e; try done. intros ->%IH. unfold fio_write in Hw.
    destruct (write_some _ (fio s)) as [w r] eqn:Hws. injection Hw as <- ->.
    cbn [fio]. by apply write_some_err in Hws as [-> _].
Qed.

Lemma write_all_loop_err attempts bs (s s' : FunctionFsIo W) e :
  write_all_loop (fio_write write_some) attempts bs s = (s', Err e) →
  ∃ n, some_written (fio s') = some_written (fio s) ++ take n bs.
Proof.
  revert bs s. induction attempts as [|attempts IH]; intros [|b bs] s; cbn [write_all_loop]; try done.
  { intros [= <- _]. exists 0%nat. by rewrite take_0, app_nil_r. }
  destruct (fio_write write_some (b :: bs) s) as [s1 [n|k]] eqn:Hw.
  - apply fio_write_ok in Hw as (Hn & Hwr & _). destruct n as [|n].
    { intros [= <- _]. exists 0%nat. by rewrite Hwr, take_0. }
    intros (m & ->)%IH. exists (S n + m)%nat. rewrite Hwr, <-app_assoc. f_equal.
    rewrite <-(take_drop (S n) (b :: bs)) at 3. rewrite take_app_ge by (rewrite length_take; lia).
    f_equal. f_equal. rewrite length_take. lia.
  - unfold fio_write in Hw. destruct (write_some _ (fio s)) as [w r] eqn:Hws.
    injection Hw as <- ->. apply write_some_err in Hws as [Hwr _].
    assert (∃ n, some_written (fio {| fio := w |}) = some_written (fio s) ++ take n (b :: bs)) as Hnone.
    { exists 0%nat. by rewrite take_0, app_nil_r. }
    destruct k; try (intros [= <- _]; exact Hnone). intros (m & ->)%IH. exists m. cbn [fio]. by rewrite Hwr.
Qed.

#[export, refine] Instance functionfs_io_write : Write (FunctionFsIo W) := {|
  write_all := fio_write_all;
  flush_stream := fio_flush;
  written s := some_written (fio s);
|}.
Proof.
  - intros bs w w'. apply write_all_loop_ok.
  - intros bs w w' e. apply write_all_loop_err.
  - intros w. unfold fio_flush. pose proof (some_flush_written (fio w)).
    by destruct (some_flush (fio w)).
Defined.
End writing_some.

(** The attempts are enough: more of them change nothing. *)
Lemma write_all_loop_enough {W} `{WriteSome W} a b bs (s : FunctionFsIo W) :
  (length bs + write_patience (fio s) ≤ a)%nat → (length bs + write_patience (fio s) ≤ b)%nat →
  write_all_loop (fio_write write_some) a bs s = write_all_loop (fio_write write_some) b bs s.
Proof.
  revert b bs s. induction a as [|a IH]; intros [|b] [|x bs] s Ha Hb; try done;
    [simpl in *; lia..|].
  cbn [write_all_loop]. destruct (fio_write write_some (x :: bs) s) as [s1 [[|n]|e]] eqn:Hw; [done| |].
  - apply fio_write_ok in Hw as (Hn & _ & Hp). cbn [length] in *.
    apply IH; rewrite length_drop; cbn [length]; lia.
  - destruct e; try done. unfold fio_write in Hw.
    destruct (write_some _ (fio s)) as [w r] eqn:Hws. injection Hw as <- ->.
    apply write_some_err in Hws as [_ Hp]. specialize (Hp eq_refl). apply IH; cbn [fio]; lia.
Qed.

(** No request to the kernel is longer than [MAX_FUNCTIONFS_IO]: what [write_all] does with an
    endpoint depends only on how the endpoint answers such requests. *)
Lemma write_requests_are_bounded {W} (f g : bytes → W → W * result ErrorKind nat) attempts bs s :
  (∀ bs w, (length bs ≤ MAX_FUNCTIONFS_IO)%nat → f bs w = g bs w) →
  write_all_loop (fio_write f) attempts bs s = write_all_loop (fio_write g) attempts bs s.
Proof.
  intros Hfg. assert (∀ bs s, fio_write f bs s = fio_write g bs s) as Hw.
  { intros bs' s'. unfold fio_write. rewrite Hfg; [done|]. rewrite length_take. lia. }
  revert bs s. induction attempts as [|attempts IH]; intros [|b bs] s; cbn [write_all_loop]; try done.
  rewrite Hw. destruct (fio_write g (b :: bs) s) as [s1 [[|n]|[]]]; auto.
Qed.

(** Every read request is for exactly that many bytes, whatever the protocol asks for. *)
Lemma read_requests_are_whole_buffers {R} `{Read R} n (b : BufReader R) :
  fio_read n {| fio := b |} =
    match br_buffer b with
    | [] =>
        let '(r, res) := read MAX_FUNCTIONFS_IO (br_inner b) in
        match res with
        | Ok chunk => ({| fio := {| br_inner := r; br_buffer := drop (n `min` MAX_FUNCTIONFS_IO) chunk |} |},
                       Ok (take (n `min` MAX_FUNCTIONFS_IO) chunk))
        | Err e => ({| fio := {| br_inner := r; br_buffer := [] |} |}, Err e)
        end
    | buffer => ({| fio := buf_consume (n `min` MAX_FUNCTIONFS_IO) b |},
                 Ok (take (n `min` MAX_FUNCTIONFS_IO) buffer))
    end.
Proof.
  unfold fio_read. cbn [fio]. set (k := (n `min` MAX_FUNCTIONFS_IO)%nat).
  change (read k b) with (buf_read k b). unfold buf_read, buf_fill.
  destruct (br_buffer b) as [|x buffer] eqn:Hb; [|done].
  rewrite bool_decide_eq_true_2 by done. cbn [andb].
  destruct (Nat.leb_spec MAX_FUNCTIONFS_IO k) as [Hle|Hlt].
  - assert (k = MAX_FUNCTIONFS_IO) as -> by lia.
    destruct (read MAX_FUNCTIONFS_IO (br_inner b)) as [r [chunk|e]] eqn:Hr; [|done].
    apply read_fits in Hr. by rewrite drop_ge, take_ge by lia.
  - by destruct (read MAX_FUNCTIONFS_IO (br_inner b)) as [r [chunk|e]].
Qed.

(** ** [FunctionFsFrameStream] *)

Record FunctionFsFrameStream (R W : Type) : Type := {
  ff_reader : FrameReader (ResynchronizingReader (FunctionFsIo (BufReader R)));
  ff_writer : FrameWriter (FunctionFsIo W);
}.
Arguments ff_reader {R W}. Arguments ff_writer {R W}.

(** [FunctionFsFrameStream::new] on the endpoints that [accept] opened. *)
Definition frame_stream_new {R W} (bulk_out : R) (bulk_in : W) (config : TransportConfig) :
    result TransportError (FunctionFsFrameStream R W) :=
  let? reader := frame_reader_new
                   (resynchronizing_new {| fio := buffer_functionfs_reader bulk_out |}) config in
  let? writer := frame_writer_new {| fio := bulk_in |} config in
  Ok {| ff_reader := reader; ff_writer := writer |}.

Section frame_stream.
Context {R W : Type} `{Read R} `{WriteSome W}.
Variable can_reserve : Z → bool.

Definition set_ff_reader r (s : FunctionFsFrameStream R W) : FunctionFsFrameStream R W :=
  {| ff_reader := r; ff_writer := ff_writer s |}.
Definition set_ff_writer w (s : FunctionFsFrameStream R W) : FunctionFsFrameStream R W :=
  {| ff_reader := ff_reader s; ff_writer := w |}.

(** [FunctionFsFrameReader::resynchronize]. *)
Definition frame_reader_resynchronize :
    M (FrameReader (ResynchronizingReader (FunctionFsIo (BufReader R)))) TransportError unit :=
  zoom_err fr_reader (λ r s, {| fr_reader := r; fr_config := fr_config s |})
    (TransportError.Io IoOperation.ReadHeader) reader_resynchronize.

(** [FunctionFsFrameWriter::write_frame]. *)
Definition writer_write_contiguous (f : Frame) : M (FrameWriter (FunctionFsIo W)) TransportError unit :=
  λ s, zoom fw_writer (λ w s, {| fw_writer := w; fw_config := fw_config s |})
         (write_frame_contiguous f (fw_config s)) s.

(** [impl FrameIo for FunctionFsFrameStream]. *)
Definition functionfs_frame_io : FrameIo (FunctionFsFrameStream R W) := {|
  read_frame := zoom ff_reader set_ff_reader (reader_read_frame can_reserve);
  write_frame f := zoom ff_writer set_ff_writer (writer_write_contiguous f);
  flush_frames := zoom ff_writer set_ff_writer writer_flush;
  resynchronize := zoom ff_reader set_ff_reader frame_reader_resynchronize;
|}.
End frame_stream.

(** ** Frames behind what a cancelled transfer left *)

Lemma encoding_begins_with_magic f config enc :
  frame_ok f → encode_frame_for_write f config = Ok enc → ∃ tail, enc = MAGIC ++ tail.
Proof.
  intros Hok (_ & _ & h & Hh & ->)%encode_frame_for_write_inv.
  pose proof (header_decode_encode _ _ _ [] Hok Hh) as Hdec. rewrite app_nil_r in Hdec.
  unfold header_decode in Hdec. apply result_bind_ok in Hdec as ([] & _ & Hdec).
  apply result_bind_ok in Hdec as ([] & Hmagic & _).
  apply reject_if_ok, negb_false_iff, bool_decide_eq_true in Hmagic.
  unfold slice in Hmagic. rewrite drop_0 in Hmagic. change (4 - 0)%nat with 4%nat in Hmagic.
  exists (drop 4 h ++ payload f). by rewrite app_assoc, <-Hmagic, take_drop.
Qed.

Section recovery.
Context {R W : Type} `{Read R} `{WriteSome W}.
Variable can_reserve : Z → bool.

(** C18: After a cancelled transfer the daemon finds the next host.  The endpoint still holds
    the tail of the old transfer, [junk], in front of the new host's frames, of which there is
    at least one; if the magic does not begin within the tail, the tail is within the recovery
    limit and memory for a payload can be had, then [resynchronize] stops right in front of
    the first new frame, however the bytes arrive in pieces, and the frames are then read back
    exactly, with the stream standing behind the last one.  The only other outcome is that
    the endpoint's reads were interrupted on the way, which is reported, not retried. *)
Theorem frames_are_found_behind_junk (s : FunctionFsFrameStream R W) junk fs encs rest :
  let config := fr_config (ff_reader s) in
  fs ≠ [] → Forall frame_ok fs →
  Forall2 (λ f enc, encode_frame_for_write f config = Ok enc) fs encs →
  (∀ n, n ≤ HARD_MAX_PAYLOAD → can_reserve n = true) →
  first_magic (junk ++ MAGIC) = Some (length junk) →
  len junk + len MAGIC ≤ MAX_RESYNCHRONIZE_BYTES →
  delivers (rs_inner (fr_reader (ff_reader s))) (junk ++ concat encs ++ rest) →
  ∃ s' res, @resynchronize _ (functionfs_frame_io can_reserve) s = (s', res) ∧
    ((interrupts (rs_inner (fr_reader (ff_reader s))) ∧
      res = Err (TransportError.Io IoOperation.ReadHeader ErrorKind.Interrupted)) ∨
     (res = Ok tt ∧
      ∃ r', read_frames can_reserve config (length fs) (fr_reader (ff_reader s')) = (r', Ok fs) ∧
        delivers r' rest)).
Proof.
  intros config Hne Hok Hencs Hcan Hjunk Hlimit Hd.
  destruct (resynchronize_delivers (fr_reader (ff_reader s)) _ Hd) as (r' & res & Hr & Hres).
  cbn [resynchronize functionfs_frame_io]. unfold zoom, frame_reader_resynchronize, zoom_err.
  rewrite Hr. eexists _, _. split; [done|]. destruct Hres as [[Hint ->]|Hres]; [by left|].
  assert (first_magic (take (Z.to_nat MAX_RESYNCHRONIZE_BYTES) (junk ++ concat encs ++ rest)) =
    Some (length junk)) as Hfirst.
  { destruct Hencs as [|f enc fs encs Henc Hencs]; [done|]. apply Forall_cons in Hok as [Hf _].
    destruct (encoding_begins_with_magic _ _ _ Hf Henc) as [tail ->]. cbn [concat].
    rewrite <-!app_assoc, (app_assoc junk MAGIC).
    rewrite take_app_ge by (unfold len in *; rewrite length_app; lia).
    by apply first_magic_app. }
  rewrite Hfirst in Hres. destruct Hres as [-> Hd']. rewrite drop_app_length in Hd'.
  right. split; [done|]. by eapply read_frames_encoded.
Qed.
End recovery.

(** ** A concrete stream *)

#[export, refine] Instance sink_write_some : WriteSome Sink := {|
  write_some bs w :=
    let n := (length bs `min` room w)%nat in
    ({| sink_bytes := sink_bytes w ++ take n bs; room := room w - n |}, Ok n);
  some_flush w := (w, Ok tt);
  some_written := sink_bytes;
  write_patience _ := 0%nat;
|}.
Proof.
  - intros bs w w' n [= <- <-]. split_and!; [lia|done|done].
  - done.
  - done.
Defined.

(** The tail of a payload, with the beginning of a magic at its very end. *)
Definition junk_bytes : bytes := text "KBK-old payload KBP".

Definition interrupted_stream : FunctionFsFrameStream Script Sink :=
  {| ff_reader := {| fr_reader := resynchronizing_new {| fio := buffer_functionfs_reader
       [Chunk (take 18 junk_bytes); Chunk (drop 18 junk_bytes ++ take 2 two_frame_bytes);
        Chunk (drop 2 two_frame_bytes)] |};
       fr_config := default_config |};
     ff_writer := {| fw_writer := {| fio := empty_sink |}; fw_config := default_config |} |}.

Lemma frames_are_found_behind_junk_witness :
  ∃ s', @resynchronize _ (functionfs_frame_io always) interrupted_stream = (s', Ok tt) ∧
    ∃ r', read_frames always default_config 2 (fr_reader (ff_reader s')) =
            (r', Ok [sample_frame; sample_frame]) ∧ delivers r' [].
Proof.
  assert (Hok : (@resynchronize _ (functionfs_frame_io always) interrupted_stream).2 = Ok tt)
    by (by vm_compute).
  destruct (frames_are_found_behind_junk always interrupted_stream junk_bytes
    [sample_frame; sample_frame] [sample_frame_bytes; sample_frame_bytes] [])
    as (s' & res & Hrun & [[_ Hres]|[Hres Hread]]).
  - done.
  - repeat constructor; apply sample_frame_ok.
  - repeat constructor; by vm_compute.
  - done.
  - by vm_compute.
  - by vm_compute.
  - exists (junk_bytes ++ two_frame_bytes). split; [by vm_compute|].
    simpl. split; [done|]. eexists. split; [reflexivity|]. split; [done|]. eexists.
    split; [reflexivity|]. split; [done|]. by eexists.
  - exfalso. rewrite Hrun in Hok. cbn [snd] in Hok. congruence.
  - exists s'. split; [|exact Hread]. by rewrite Hrun, Hres.
Defined.
