(* ===== verification/Actor.v ===== *)
(** * The connection actor: src/crates/kindlebridge-transport/src/actor.rs

    [Actor] owns one connection: it validates every frame with [SessionState],
    numbers and queues outbound frames, matches answers with the callers that
    wait for them, and feeds consumed credit back to the peer.  Its thread loops
    over commands of [Connection]/[Stream] handles and frames of the reader
    thread; here the loop is [iterate], one call per iteration, with what the
    channels and the clock yielded as its input.

    A response channel ([SyncSender]) is a number, and what is sent to it is
    appended to [replies].  Text of error messages is kept as the value that was
    formatted.  Iteration over a [HashMap] is in the order of [map_to_list]
    except where the order matters ([flush_pending]), where it is a parameter. *)

From S2P Require Import Prelude WireFrame WireState Scheduler.

Definition COMMAND_QUEUE_DEPTH : Z := 64.
Definition INBOUND_QUEUE_DEPTH : Z := 64.
Definition INCOMING_STREAM_DEPTH : Z := 16.
Definition MAX_PENDING_PINGS : Z := 64.
Definition MAX_SCHEDULED_BYTES : Z := 16 * 1024 * 1024.

(** The text of an error message, as the value it was formatted from. *)
Inductive Message : Type :=
| Text (s : string)
| OfProtocol (e : ProtocolError)
| OfWire (e : WireError)
| InboundRefused (c : Command) (stream_id : Z) (e : ProtocolError)
| OutboundRefused (c : Command) (stream_id : Z) (e : ProtocolError)
| UnexpectedAfterHandshake (c : Command).

Module ConnectionError.

Inductive ConnectionError : Type :=
| Disconnected
| Rejected (reason : bytes)
| Protocol (message : Message)
| Transport (message : string)
| UnknownStream (stream_id : Z)
| ReceivePending (stream_id : Z)
| SendPending (stream_id : Z)
| QueueFull
| PingTimedOut
| GoAwayTimedOut
| InvalidService (message : string).

End ConnectionError.
Abbreviation ConnectionError := ConnectionError.ConnectionError.

Definition protocol_error (e : ProtocolError) : ConnectionError :=
  ConnectionError.Protocol (OfProtocol e).
Definition wire_error (e : WireError) : ConnectionError :=
  ConnectionError.Protocol (OfWire e).

(** A response channel, and what can be sent to one. *)
Abbreviation handle := nat.

Inductive reply : Type :=
| UnitReply (r : result ConnectionError unit)
| IdReply (r : result ConnectionError Z)
| FrameReply (r : result ConnectionError Frame).

Record ConnectionInner : Type := {
  terminal_error : option ConnectionError;
  shared_generation : Z;
}.

Record IncomingStream : Type := {
  service : string;
  incoming_stream_id : Z;
  incoming_generation : Z;
}.

Record RestartedSession : Type := {
  restarted_state : SessionState;
  hello_response : Frame;
}.

Module InboundEvent.

Inductive InboundEvent : Type := Frame (frame : WireFrame.Frame) | Failed (message : string).

End InboundEvent.
Abbreviation InboundEvent := InboundEvent.InboundEvent.

Module ActorCommand.

Inductive ActorCommand : Type :=
| Ping (generation timeout : Z) (response : handle)
| Open (generation : Z) (service : string) (receive_window : Z) (class : TrafficClass)
    (response : handle)
| Accept (generation stream_id receive_window : Z) (class : TrafficClass) (response : handle)
| Reject (generation stream_id : Z) (reason : bytes) (response : handle)
| SendData (generation stream_id : Z) (payload : bytes) (end_stream : bool) (response : handle)
| Receive (generation stream_id : Z) (response : handle)
| Close (generation stream_id : Z) (response : handle)
| Reset (generation stream_id : Z) (reason : bytes) (response : handle)
| CancelReceive (generation stream_id : Z) (response : handle)
| GoAway (generation : Z) (response : handle)
| Shutdown.

End ActorCommand.
Abbreviation ActorCommand := ActorCommand.ActorCommand.

(** [ActorCommand::generation]. *)
Definition command_generation (c : ActorCommand) : option Z :=
  match c with
  | ActorCommand.Ping g _ _ | ActorCommand.Open g _ _ _ _ | ActorCommand.Accept g _ _ _ _
  | ActorCommand.Reject g _ _ _ | ActorCommand.SendData g _ _ _ _ | ActorCommand.Receive g _ _
  | ActorCommand.Close g _ _ | ActorCommand.Reset g _ _ _ | ActorCommand.CancelReceive g _ _
  | ActorCommand.GoAway g _ => Some g
  | ActorCommand.Shutdown => None
  end.

(** [ActorCommand::respond_error]: the reply it sends. *)
Definition error_reply (c : ActorCommand) (e : ConnectionError) : option (handle * reply) :=
  match c with
  | ActorCommand.Ping _ _ h => Some (h, UnitReply (Err e))
  | ActorCommand.Open _ _ _ _ h => Some (h, IdReply (Err e))
  | ActorCommand.Accept _ _ _ _ h | ActorCommand.Reject _ _ _ h
  | ActorCommand.SendData _ _ _ _ h | ActorCommand.Close _ _ h | ActorCommand.Reset _ _ _ h
  | ActorCommand.CancelReceive _ _ h | ActorCommand.GoAway _ h => Some (h, UnitReply (Err e))
  | ActorCommand.Receive _ _ h => Some (h, FrameReply (Err e))
  | ActorCommand.Shutdown => None
  end.

Record PendingSend : Type := {
  pending_payload : bytes;
  pending_end_stream : bool;
  pending_response : handle;
}.

Record PendingPing : Type := {
  deadline : Z;
  ping_response : handle;
}.

Record StreamEntry : Type := {
  entry_class : TrafficClass;
  receive_window : Z;
  inbox : list Frame;
  inbox_bytes : Z;
  receiver : option handle;
  opener : option handle;
  pending_send : option PendingSend;
}.

(** [StreamEntry::new]. *)
Definition entry_new (class : TrafficClass) (receive_window : Z) : StreamEntry :=
  {| entry_class := class; receive_window := receive_window; inbox := []; inbox_bytes := 0;
     receiver := None; opener := None; pending_send := None |}.

(** Field updates. *)
Definition set_entry_config (class : TrafficClass) (window : Z) (e : StreamEntry) : StreamEntry :=
  {| entry_class := class; receive_window := window; inbox := inbox e;
     inbox_bytes := inbox_bytes e; receiver := receiver e; opener := opener e;
     pending_send := pending_send e |}.
Definition set_inbox (l : list Frame) (n : Z) (e : StreamEntry) : StreamEntry :=
  {| entry_class := entry_class e; receive_window := receive_window e; inbox := l;
     inbox_bytes := n; receiver := receiver e; opener := opener e;
     pending_send := pending_send e |}.
Definition set_receiver (h : option handle) (e : StreamEntry) : StreamEntry :=
  {| entry_class := entry_class e; receive_window := receive_window e; inbox := inbox e;
     inbox_bytes := inbox_bytes e; receiver := h; opener := opener e;
     pending_send := pending_send e |}.
Definition set_opener (h : option handle) (e : StreamEntry) : StreamEntry :=
  {| entry_class := entry_class e; receive_window := receive_window e; inbox := inbox e;
     inbox_bytes := inbox_bytes e; receiver := receiver e; opener := h;
     pending_send := pending_send e |}.
Definition set_pending_send (p : option PendingSend) (e : StreamEntry) : StreamEntry :=
  {| entry_class := entry_class e; receive_window := receive_window e; inbox := inbox e;
     inbox_bytes := inbox_bytes e; receiver := receiver e; opener := opener e;
     pending_send := p |}.

(** The trait [FrameSink], with the frames it has put on the wire: those whose write returned
    [Ok].  A write that fails may have put a part of its frame on the wire; such a part is no
    frame (the peer's decoder finds it truncated, Framing.v) and is not in [on_wire], and
    after it the actor writes only if its restart handler begins a new session. *)
Class FrameSink (W : Type) := {
  sink_write : Frame → W → W * result string unit;
  sink_flush : W → W * result string unit;
  on_wire : W → list Frame;
  sink_write_on_wire f w w' r : sink_write f w = (w', r) →
    on_wire w' = on_wire w ++ match r with Ok _ => [f] | Err _ => [] end;
  sink_flush_on_wire w w' r : sink_flush w = (w', r) → on_wire w' = on_wire w;
}.

(** The JSON of [ServiceOpen] and [ServiceAccept] (serde_json). *)
Class ServiceJson := {
  open_to_vec : string → bytes;
  open_from_slice : bytes → result string string;
  accept_to_vec : Z → bytes;
  accept_from_slice : bytes → result string Z;
}.

(** [try_recv] and [recv_timeout] on a channel. *)
Inductive received (A : Type) : Type :=
| Received (a : A)
| NothingYet
| SenderGone.
Arguments Received {A} a.
Arguments NothingYet {A}.
Arguments SenderGone {A}.

(** What the clock and the channels yield during one iteration. *)
Record loop_input : Type := {
  now : Z;
  from_commands : received ActorCommand;
  from_reader : received InboundEvent;
  from_idle : received ActorCommand;
}.

Section actor.
Context {W Q H : Type} `{FrameSink W, FrameQueue Q, ServiceJson}.

(** The restart handler, an [FnMut] closure with its own state. *)
Context (call_restart : H → Frame → H * result ConnectionError RestartedSession).
(** The order of [HashMap::keys]. *)
Context (hash_keys : gmap Z StreamEntry → list Z).
(** The largest [Instant] and [usize] of the platform. *)
Context (instant_max : Z) `{PointerWidth}.

Record Actor : Type := {
  session : SessionState;
  sink : W;
  connection : option ConnectionInner;
  incoming : list (result ConnectionError IncomingStream);
  incoming_open : bool;
  actor_streams : gmap Z StreamEntry;
  sequences : gmap Z Z;
  write_waiters : gmap (Z * Z) handle;
  pending_pings : gmap bytes PendingPing;
  pending_goaway : option handle;
  next_ping_id : Z;
  control_sequence : Z;
  scheduler : Q;
  restart : option H;
  awaiting_restart : bool;
  generation : Z;
  replies : list (handle * reply);
}.

(** Field updates. *)
Definition set_session (x : SessionState) (a : Actor) : Actor :=
  {| session := x; sink := sink a; connection := connection a; incoming := incoming a;
     incoming_open := incoming_open a; actor_streams := actor_streams a;
     sequences := sequences a; write_waiters := write_waiters a;
     pending_pings := pending_pings a; pending_goaway := pending_goaway a;
     next_ping_id := next_ping_id a; control_sequence := control_sequence a;
     scheduler := scheduler a; restart := restart a;
     awaiting_restart := awaiting_restart a; generation := generation a;
     replies := replies a |}.
Definition set_sink (x : W) (a : Actor) : Actor :=
  {| session := session a; sink := x; connection := connection a; incoming := incoming a;
     incoming_open := incoming_open a; actor_streams := actor_streams a;
     sequences := sequences a; write_waiters := write_waiters a;
     pending_pings := pending_pings a; pending_goaway := pending_goaway a;
     next_ping_id := next_ping_id a; control_sequence := control_sequence a;
     scheduler := scheduler a; restart := restart a;
     awaiting_restart := awaiting_restart a; generation := generation a;
     replies := replies a |}.
Definition set_connection (x : option ConnectionInner) (a : Actor) : Actor :=
  {| session := session a; sink := sink a; connection := x; incoming := incoming a;
     incoming_open := incoming_open a; actor_streams := actor_streams a;
     sequences := sequences a; write_waiters := write_waiters a;
     pending_pings := pending_pings a; pending_goaway := pending_goaway a;
     next_ping_id := next_ping_id a; control_sequence := control_sequence a;
     scheduler := scheduler a; restart := restart a;
     awaiting_restart := awaiting_restart a; generation := generation a;
     replies := replies a |}.
Definition set_incoming (x : list (result ConnectionError IncomingStream)) (a : Actor) : Actor :=
  {| session := session a; sink := sink a; connection := connection a; incoming := x;
     incoming_open := incoming_open a; actor_streams := actor_streams a;
     sequences := sequences a; write_waiters := write_waiters a;
     pending_pings := pending_pings a; pending_goaway := pending_goaway a;
     next_ping_id := next_ping_id a; control_sequence := control_sequence a;
     scheduler := scheduler a; restart := restart a;
     awaiting_restart := awaiting_restart a; generation := generation a;
     replies := replies a |}.
Definition set_actor_streams (x : gmap Z StreamEntry) (a : Actor) : Actor :=
  {| session := session a; sink := sink a; connection := connection a;
     incoming := incoming a; incoming_open := incoming_open a; actor_streams := x;
     sequences := sequences a; write_waiters := write_waiters a;
     pending_pings := pending_pings a; pending_goaway := pending_goaway a;
     next_ping_id := next_ping_id a; control_sequence := control_sequence a;
     scheduler := scheduler a; restart := restart a;
     awaiting_restart := awaiting_restart a; generation := generation a;
     replies := replies a |}.
Definition set_sequences (x : gmap Z Z) (a : Actor) : Actor :=
  {| session := session a; sink := sink a; connection := connection a;
     incoming := incoming a; incoming_open := incoming_open a;
     actor_streams := actor_streams a; sequences := x; write_waiters := write_waiters a;
     pending_pings := pending_pings a; pending_goaway := pending_goaway a;
     next_ping_id := next_ping_id a; control_sequence := control_sequence a;
     scheduler := scheduler a; restart := restart a;
     awaiting_restart := awaiting_restart a; generation := generation a;
     replies := replies a |}.
Definition set_write_waiters (x : gmap (Z * Z) handle) (a : Actor) : Actor :=
  {| session := session a; sink := sink a; connection := connection a;
     incoming := incoming a; incoming_open := incoming_open a;
     actor_streams := actor_streams a; sequences := sequences a; write_waiters := x;
     pending_pings := pending_pings a; pending_goaway := pending_goaway a;
     next_ping_id := next_ping_id a; control_sequence := control_sequence a;
     scheduler := scheduler a; restart := restart a;
     awaiting_restart := awaiting_restart a; generation := generation a;
     replies := replies a |}.
Definition set_pending_pings (x : gmap bytes PendingPing) (a : Actor) : Actor :=
  {| session := session a; sink := sink a; connection := connection a;
     incoming := incoming a; incoming_open := incoming_open a;
     actor_streams := actor_streams a; sequences := sequences a;
     write_waiters := write_waiters a; pending_pings := x;
     pending_goaway := pending_goaway a; next_ping_id := next_ping_id a;
     control_sequence := control_sequence a; scheduler := scheduler a;
     restart := restart a; awaiting_restart := awaiting_restart a;
     generation := generation a; replies := replies a |}.
Definition set_pending_goaway (x : option handle) (a : Actor) : Actor :=
  {| session := session a; sink := sink a; connection := connection a;
     incoming := incoming a; incoming_open := incoming_open a;
     actor_streams := actor_streams a; sequences := sequences a;
     write_waiters := write_waiters a; pending_pings := pending_pings a;
     pending_goaway := x; next_ping_id := next_ping_id a;
     control_sequence := control_sequence a; scheduler := scheduler a;
     restart := restart a; awaiting_restart := awaiting_restart a;
     generation := generation a; replies := replies a |}.
Definition set_next_ping_id (x : Z) (a : Actor) : Actor :=
  {| session := session a; sink := sink a; connection := connection a;
     incoming := incoming a; incoming_open := incoming_open a;
     actor_streams := actor_streams a; sequences := sequences a;
     write_waiters := write_waiters a; pending_pings := pending_pings a;
     pending_goaway := pending_goaway a; next_ping_id := x;
     control_sequence := control_sequence a; scheduler := scheduler a;
     restart := restart a; awaiting_restart := awaiting_restart a;
     generation := generation a; replies := replies a |}.
Definition set_control_sequence (x : Z) (a : Actor) : Actor :=
  {| session := session a; sink := sink a; connection := connection a;
     incoming := incoming a; incoming_open := incoming_open a;
     actor_streams := actor_streams a; sequences := sequences a;
     write_waiters := write_waiters a; pending_pings := pending_pings a;
     pending_goaway := pending_goaway a; next_ping_id := next_ping_id a;
     control_sequence := x; scheduler := scheduler a; restart := restart a;
     awaiting_restart := awaiting_restart a; generation := generation a;
     replies := replies a |}.
Definition set_scheduler (x : Q) (a : Actor) : Actor :=
  {| session := session a; sink := sink a; connection := connection a;
     incoming := incoming a; incoming_open := incoming_open a;
     actor_streams := actor_streams a; sequences := sequences a;
     write_waiters := write_waiters a; pending_pings := pending_pings a;
     pending_goaway := pending_goaway a; next_ping_id := next_ping_id a;
     control_sequence := control_sequence a; scheduler := x; restart := restart a;
     awaiting_restart := awaiting_restart a; generation := generation a;
     replies := replies a |}.
Definition set_restart (x : option H) (a : Actor) : Actor :=
  {| session := session a; sink := sink a; connection := connection a;
     incoming := incoming a; incoming_open := incoming_open a;
     actor_streams := actor_streams a; sequences := sequences a;
     write_waiters := write_waiters a; pending_pings := pending_pings a;
     pending_goaway := pending_goaway a; next_ping_id := next_ping_id a;
     control_sequence := control_sequence a; scheduler := scheduler a; restart := x;
     awaiting_restart := awaiting_restart a; generation := generation a;
     replies := replies a |}.
Definition set_awaiting_restart (x : bool) (a : Actor) : Actor :=
  {| session := session a; sink := sink a; connection := connection a;
     incoming := incoming a; incoming_open := incoming_open a;
     actor_streams := actor_streams a; sequences := sequences a;
     write_waiters := write_waiters a; pending_pings := pending_pings a;
     pending_goaway := pending_goaway a; next_ping_id := next_ping_id a;
     control_sequence := control_sequence a; scheduler := scheduler a;
     restart := restart a; awaiting_restart := x; generation := generation a;
     replies := replies a |}.
Definition set_generation (x : Z) (a : Actor) : Actor :=
  {| session := session a; sink := sink a; connection := connection a;
     incoming := incoming a; incoming_open := incoming_open a;
     actor_streams := actor_streams a; sequences := sequences a;
     write_waiters := write_waiters a; pending_pings := pending_pings a;
     pending_goaway := pending_goaway a; next_ping_id := next_ping_id a;
     control_sequence := control_sequence a; scheduler := scheduler a;
     restart := restart a; awaiting_restart := awaiting_restart a; generation := x;
     replies := replies a |}.
Definition set_replies (x : list (handle * reply)) (a : Actor) : Actor :=
  {| session := session a; sink := sink a; connection := connection a;
     incoming := incoming a; incoming_open := incoming_open a;
     actor_streams := actor_streams a; sequences := sequences a;
     write_waiters := write_waiters a; pending_pings := pending_pings a;
     pending_goaway := pending_goaway a; next_ping_id := next_ping_id a;
     control_sequence := control_sequence a; scheduler := scheduler a;
     restart := restart a; awaiting_restart := awaiting_restart a;
     generation := generation a; replies := x |}.

Abbreviation actor_op A := (M Actor ConnectionError A).

(** [let _ = response.send(r);]. *)
Definition respond (h : handle) (r : reply) : actor_op unit :=
  mmodify (λ a, set_replies (replies a ++ [(h, r)]) a).
Definition respond_opt (o : option handle) (r : reply) : actor_op unit :=
  match o with
  | Some h => respond h r
  | None => mret tt
  end.

Definition put_entry (stream_id : Z) (e : StreamEntry) : actor_op unit :=
  mmodify (λ a, set_actor_streams (<[stream_id := e]> (actor_streams a)) a).

(** ** Outbound frames *)

(** [take_sequence]. *)
Definition take_sequence (stream_id : Z) : actor_op Z :=
  let! self := mget in
  let current :=
    if stream_id =? 0 then control_sequence self
    else default 0 (sequences self !! stream_id) in
  do! (if stream_id =? 0 then mret tt
       else mmodify (λ a, set_sequences (<[stream_id := current]> (sequences a)) a)) in
  let! next := mlift (ok_or (checked_add u32_max current 1)
                        (ConnectionError.Protocol (Text "sequence exhausted"))) in
  do! mmodify (λ a,
        if stream_id =? 0 then set_control_sequence next a
        else set_sequences (<[stream_id := next]> (sequences a)) a) in
  mret current.

(** [next_sequence_for]. *)
Definition next_sequence_for (self : Actor) (stream_id : Z) : Z :=
  if stream_id =? 0 then control_sequence self
  else default 0 (sequences self !! stream_id).

(** [self.state.process_outbound(..)], [self.scheduler.enqueue(..)]. *)
Definition session_outbound (h : Header) (context : FrameContext) : actor_op unit :=
  zoom_err session set_session
    (λ e, ConnectionError.Protocol (OutboundRefused (command h) (stream_id h) e))
    (process_outbound h context).
Definition schedule (item : ScheduledFrame) : actor_op unit :=
  zoom_err scheduler set_scheduler (λ _, ConnectionError.QueueFull) (queue_enqueue item).

Definition with_credit_delta (delta : Z) (h : Header) : Header :=
  {| major := major h; minor := minor h; command := command h; flags := flags h;
     stream_id := stream_id h; sequence := sequence h; payload_length := payload_length h;
     credit_delta := delta; reserved := reserved h |}.
Definition with_end_stream (h : Header) : Header :=
  {| major := major h; minor := minor h; command := command h;
     flags := Z.lor (flags h) FLAG_END_STREAM; stream_id := stream_id h;
     sequence := sequence h; payload_length := payload_length h;
     credit_delta := credit_delta h; reserved := reserved h |}.

(** [queue_credit]. *)
Definition queue_credit (stream_id delta : Z) : actor_op unit :=
  let! sequence := take_sequence stream_id in
  let header := with_credit_delta delta (header_new Command.Credit stream_id sequence) in
  let! f := mlift (map_err wire_error (frame_new header [])) in
  do! session_outbound (WireFrame.header f) context_default in
  schedule {| class := TrafficClass.Control; frame := f |}.

(** [queue_frame]. *)
Definition queue_frame (c : Command) (stream_id : Z) (payload : bytes) (end_stream : bool)
    (class : TrafficClass) (context : FrameContext) : actor_op unit :=
  let! sequence := take_sequence stream_id in
  let header := header_new c stream_id sequence in
  let header := if end_stream then with_end_stream header else header in
  let! f := mlift (map_err wire_error (frame_new header payload)) in
  do! session_outbound (WireFrame.header f) context in
  let class := if decide (for_command c = TrafficClass.Control)
               then TrafficClass.Control else class in
  schedule {| Scheduler.class := class; frame := f |}.

(** [has_send_credit]. *)
Definition has_send_credit (self : Actor) (stream_id needed : Z) : bool :=
  match stream (session self) stream_id with
  | Some st => needed <=? StreamState.send_credit st
  | None => false
  end && (needed <=? connection_send_credit (session self)).

(** [restore_consumed_credit]. *)
Definition restore_consumed_credit (f : Frame) : actor_op unit :=
  let h := header f in
  if negb (bool_decide (command h = Command.Data)) || (payload_length h =? 0) then mret tt else
  let! self := mget in
  do! (if negb (has_end_stream h) &&
          match stream (session self) (stream_id h) with
          | Some st => bool_decide (StreamState.phase st = StreamPhase.Accepted)
          | None => false
          end
       then queue_credit (stream_id h) (payload_length h) else mret tt) in
  queue_credit 0 (payload_length h).

(** ** Streams *)

(** The handles of an entry, as [retire_stream], [fail_all] and [fail_streams]
    take and answer them. *)
Definition fail_entry (e : StreamEntry) (error : ConnectionError) : actor_op unit :=
  do! respond_opt (opener e) (IdReply (Err error)) in
  do! respond_opt (receiver e) (FrameReply (Err error)) in
  respond_opt (pending_response <$> pending_send e) (UnitReply (Err error)).

Definition drained (e : StreamEntry) : StreamEntry :=
  set_opener None (set_receiver None (set_pending_send None e)).

(** [retire_stream]. *)
Definition retire_stream (stream_id : Z) (error : ConnectionError) : actor_op unit :=
  let! self := mget in
  do! match actor_streams self !! stream_id with
      | Some entry =>
          do! mmodify (λ a, set_actor_streams (delete stream_id (actor_streams a)) a) in
          fail_entry entry error
      | None => mret tt
      end in
  let waiting := filter (λ kv, kv.1.1 = stream_id) (map_to_list (write_waiters self)) in
  mforeach (λ '(key, response),
    do! mmodify (λ a, set_write_waiters (delete key (write_waiters a)) a) in
    respond response (UnitReply (Err error))) waiting.

(** [deliver]. *)
Definition is_terminal_command (c : Command) : bool :=
  match c with
  | Command.Close | Command.Reset => true
  | _ => false
  end.

Definition deliver (f : Frame) : actor_op unit :=
  let id := stream_id (header f) in
  let terminal := is_terminal_command (command (header f)) in
  let! self := mget in
  let! entry := mlift (ok_or (actor_streams self !! id) (ConnectionError.UnknownStream id)) in
  do! put_entry id (set_receiver None entry) in
  match receiver entry with
  | Some receiver =>
      do! restore_consumed_credit f in
      do! respond receiver (FrameReply (Ok f)) in
      if terminal then retire_stream id ConnectionError.Disconnected else mret tt
  | None =>
      let! n := mlift (ok_or (checked_add usize_max (inbox_bytes entry) (len (payload f)))
                         ConnectionError.QueueFull) in
      do! put_entry id (set_inbox (inbox entry) n entry) in
      do! mlift (reject_if (n >? receive_window entry) ConnectionError.QueueFull) in
      put_entry id (set_inbox (inbox entry ++ [f]) n entry)
  end.

(** [receive_or_wait]. *)
Definition receive_or_wait (stream_id : Z) (response : handle) : actor_op unit :=
  let! self := mget in
  let! entry := mlift (ok_or (actor_streams self !! stream_id)
                         (ConnectionError.UnknownStream stream_id)) in
  match receiver entry with
  | Some _ =>
      let error := ConnectionError.ReceivePending stream_id in
      do! respond response (FrameReply (Err error)) in
      mfail error
  | None =>
      match inbox entry with
      | [] => put_entry stream_id (set_receiver (Some response) entry)
      | f :: rest =>
          do! put_entry stream_id
                (set_inbox rest (saturating_sub (inbox_bytes entry) (len (payload f))) entry) in
          do! restore_consumed_credit f in
          do! respond response (FrameReply (Ok f)) in
          if is_terminal_command (command (header f))
          then retire_stream stream_id ConnectionError.Disconnected else mret tt
      end
  end.

(** The DATA frame of a send whose credit is there, and its waiter. *)
Definition queue_data (stream_id : Z) (payload : bytes) (end_stream : bool)
    (class : TrafficClass) (response : handle) : actor_op unit :=
  let! self := mget in
  let sequence := next_sequence_for self stream_id in
  let! r := mtry (queue_frame Command.Data stream_id payload end_stream class
                    context_default) in
  match r with
  | Ok _ =>
      mmodify (λ a, set_write_waiters (<[(stream_id, sequence) := response]> (write_waiters a)) a)
  | Err error => do! respond response (UnitReply (Err error)) in mfail error
  end.

(** [send_or_wait]. *)
Definition send_or_wait (stream_id : Z) (payload : bytes) (end_stream : bool)
    (response : handle) : actor_op unit :=
  let! self := mget in
  let! entry := mlift (ok_or (actor_streams self !! stream_id)
                         (ConnectionError.UnknownStream stream_id)) in
  if bool_decide (is_Some (pending_send entry)) ||
     existsb (λ kv, bool_decide (kv.1.1 = stream_id)) (map_to_list (write_waiters self))
  then
    let error := ConnectionError.SendPending stream_id in
    do! respond response (UnitReply (Err error)) in
    mfail error
  else
  let! needed := mlift (ok_or (u32_try_from (len payload))
                          (ConnectionError.Protocol (Text "DATA payload is too large"))) in
  if has_send_credit self stream_id needed
  then queue_data stream_id payload end_stream (entry_class entry) response
  else put_entry stream_id (set_pending_send
         (Some {| pending_payload := payload; pending_end_stream := end_stream;
                  pending_response := response |}) entry).

(** [flush_pending] on a stream. *)
Definition flush_stream_pending (stream_id : Z) : actor_op unit :=
  let! self := mget in
  match actor_streams self !! stream_id with
  | Some entry =>
      match pending_send entry with
      | Some pending =>
          do! put_entry stream_id (set_pending_send None entry) in
          let! needed :=
            mlift (ok_or (u32_try_from (len (pending_payload pending)))
                     (ConnectionError.Protocol (Text "DATA payload is too large"))) in
          if negb (has_send_credit self stream_id needed)
          then put_entry stream_id (set_pending_send (Some pending) entry)
          else queue_data stream_id (pending_payload pending) (pending_end_stream pending)
                 (entry_class entry) (pending_response pending)
      | None => mret tt
      end
  | None => mret tt
  end.

(** [flush_pending]: stream zero stands for every stream. *)
Definition flush_pending (stream_id : Z) : actor_op unit :=
  if stream_id =? 0 then
    let! self := mget in
    mforeach flush_stream_pending (hash_keys (actor_streams self))
  else flush_stream_pending stream_id.

(** [accept_incoming_open]. *)
Definition accept_incoming_open (f : Frame) : actor_op unit :=
  let! name := mlift (map_err ConnectionError.InvalidService (open_from_slice (payload f))) in
  let id := stream_id (header f) in
  do! put_entry id (entry_new TrafficClass.Bulk 0) in
  let! self := mget in
  do! mlift (reject_if (bool_decide (connection self = None)) ConnectionError.Disconnected) in
  do! mlift (reject_if (negb (incoming_open self)) ConnectionError.Disconnected) in
  mmodify (λ a, set_incoming
    (incoming a ++ [Ok {| service := name; incoming_stream_id := id;
                          incoming_generation := generation a |}]) a).

(** [complete_open]. *)
Definition complete_open (stream_id : Z) : actor_op unit :=
  let! self := mget in
  let! entry := mlift (ok_or (actor_streams self !! stream_id)
                         (ConnectionError.UnknownStream stream_id)) in
  do! queue_credit stream_id (receive_window entry) in
  do! put_entry stream_id (set_opener None entry) in
  respond_opt (opener entry) (IdReply (Ok stream_id)).

(** [reject_open]. *)
Definition reject_open (f : Frame) : actor_op unit :=
  let id := stream_id (header f) in
  let! self := mget in
  do! match actor_streams self !! id with
      | Some entry =>
          respond_opt (opener entry) (IdReply (Err (ConnectionError.Rejected (payload f))))
      | None => mret tt
      end in
  mmodify (λ a, set_actor_streams (delete id (actor_streams a)) a).

(** ** Failure and restart *)

Definition fail_waiters (error : ConnectionError) : actor_op unit :=
  let! self := mget in
  do! mmodify (set_write_waiters ∅) in
  do! mforeach (λ '(_, response), respond response (UnitReply (Err error)))
        (map_to_list (write_waiters self)) in
  do! mmodify (set_pending_pings ∅) in
  mforeach (λ '(_, pending), respond (ping_response pending) (UnitReply (Err error)))
    (map_to_list (pending_pings self)).

Definition fail_entries (error : ConnectionError) : actor_op unit :=
  let! self := mget in
  do! mmodify (set_actor_streams (drained <$> actor_streams self)) in
  mforeach (λ '(_, entry), fail_entry entry error) (map_to_list (actor_streams self)).

(** [fail_all]. *)
Definition record_terminal_error (error : ConnectionError) (c : ConnectionInner) :
    ConnectionInner :=
  match terminal_error c with
  | None => {| terminal_error := Some error; shared_generation := shared_generation c |}
  | Some _ => c
  end.

Definition fail_all (error : ConnectionError) : actor_op unit :=
  do! mmodify (λ a, set_connection (record_terminal_error error <$> connection a) a) in
  do! fail_entries error in
  do! fail_waiters error in
  let! self := mget in
  do! mmodify (set_pending_goaway None) in
  do! respond_opt (pending_goaway self) (UnitReply (Err error)) in
  mmodify (λ a,
    if incoming_open a && (len (incoming a) <? INCOMING_STREAM_DEPTH)
    then set_incoming (incoming a ++ [Err error]) a else a).

(** [fail_streams]. *)
Definition fail_streams (error : ConnectionError) : actor_op unit :=
  do! fail_entries error in
  do! mmodify (set_actor_streams ∅) in
  do! mmodify (set_sequences ∅) in
  do! fail_waiters error in
  do! mmodify (set_control_sequence 1) in
  do! mmodify (set_next_ping_id 0) in
  mmodify (set_scheduler (queue_new MAX_SCHEDULED_BYTES)).

(** [begin_restart]: whether a restart was begun. *)
Definition begin_restart (error : ConnectionError) : actor_op bool :=
  let! self := mget in
  match restart self with
  | None => mret false
  | Some _ =>
      do! fail_streams error in
      do! mmodify (set_awaiting_restart true) in
      mret true
  end.

(** [self.sink.write_frame(&frame).and_then(|()| self.sink.flush())]. *)
Definition write_and_flush (f : Frame) : actor_op (result string unit) := λ a,
  match sink_write f (sink a) with
  | (w, Ok _) => let '(w, r) := sink_flush w in (set_sink w a, Ok r)
  | (w, Err e) => (set_sink w a, Ok (Err e))
  end.

(** [restart_session]. *)
Definition restart_session (hello : Frame) : actor_op unit :=
  let! self := mget in
  match restart self with
  | None => mret tt
  | Some handler =>
      let '(handler, r) := call_restart handler hello in
      do! mmodify (set_restart (Some handler)) in
      let! restarted := mlift r in
      let! next := mlift (ok_or (checked_add u64_max (generation self) 1)
                     (ConnectionError.Protocol (Text "session generation exhausted"))) in
      do! mmodify (set_generation next) in
      do! mmodify (λ a, set_connection
            ((λ c, {| terminal_error := terminal_error c; shared_generation := next |})
               <$> connection a) a) in
      do! fail_streams ConnectionError.Disconnected in
      do! mmodify (set_session (restarted_state restarted)) in
      do! mmodify (set_awaiting_restart false) in
      let! written := write_and_flush (hello_response restarted) in
      match written with
      | Ok _ => mret tt
      | Err error =>
          do! mmodify (set_awaiting_restart true) in
          fail_streams (ConnectionError.Transport error)
      end
  end.

(** [expire_pings]. *)
Definition expire_pings (now : Z) : actor_op unit :=
  let! self := mget in
  do! mmodify (set_pending_pings (filter (λ kv, ¬ deadline kv.2 ≤ now) (pending_pings self))) in
  mforeach (λ '(_, pending),
      respond (ping_response pending) (UnitReply (Err ConnectionError.PingTimedOut)))
    (filter (λ kv, deadline kv.2 ≤ now) (map_to_list (pending_pings self))).

(** ** Commands *)

(** [let _ = response.send(result.clone()); result]. *)
Definition respond_result (response : handle) (m : actor_op unit) : actor_op unit :=
  let! r := mtry m in
  do! respond response (UnitReply r) in
  mlift r.

(** The guard of the commands on a stream:
    [if !self.streams.contains_key(&stream_id) { send(Err(Disconnected)); return Ok(()) }]. *)
Definition with_entry (stream_id : Z) (refusal : handle * reply)
    (k : StreamEntry → actor_op unit) : actor_op unit :=
  let! self := mget in
  match actor_streams self !! stream_id with
  | None => respond refusal.1 refusal.2
  | Some entry => k entry
  end.

Definition refused (response : handle) : handle * reply :=
  (response, UnitReply (Err ConnectionError.Disconnected)).

(** [handle_command] on [Ping]. *)
Definition handle_ping (now generation timeout : Z) (response : handle) : actor_op unit :=
  let! self := mget in
  if MAX_PENDING_PINGS <=? Z.of_nat (size (pending_pings self))
  then respond response (UnitReply (Err ConnectionError.QueueFull)) else
  let ping_id := next_ping_id self in
  let! next := mlift (ok_or (checked_add u64_max ping_id 1)
                        (ConnectionError.Protocol (Text "ping id exhausted"))) in
  do! mmodify (set_next_ping_id next) in
  let payload := to_le_bytes 8 generation ++ to_le_bytes 8 ping_id in
  match checked_add instant_max now timeout with
  | None =>
      respond response
        (UnitReply (Err (ConnectionError.Protocol (Text "ping timeout is too large"))))
  | Some deadline =>
      let! r := mtry (queue_frame Command.Ping 0 payload false TrafficClass.Control
                        context_default) in
      match r with
      | Err error => do! respond response (UnitReply (Err error)) in mfail error
      | Ok _ =>
          mmodify (λ a, set_pending_pings
            (<[payload := {| deadline := deadline; ping_response := response |}]>
               (pending_pings a)) a)
      end
  end.

(** [handle_command] on [Open]. *)
Definition handle_open (name : string) (window : Z) (class : TrafficClass)
    (response : handle) : actor_op unit :=
  let! id := zoom_err session set_session protocol_error allocate_stream_id in
  do! put_entry id (set_opener (Some response) (entry_new class window)) in
  queue_frame Command.Open id (open_to_vec name) false class context_default.

(** [handle_command]. *)
Definition handle_command (now : Z) (c : ActorCommand) : actor_op unit :=
  match c with
  | ActorCommand.Ping generation timeout response =>
      handle_ping now generation timeout response
  | ActorCommand.Open _ name window class response => handle_open name window class response
  | ActorCommand.Accept _ id window class response =>
      with_entry id (refused response) (λ entry,
        do! put_entry id (set_entry_config class window entry) in
        respond_result response
          (queue_frame Command.Accept id (accept_to_vec window) false TrafficClass.Control
             (context_accept window)))
  | ActorCommand.Reject _ id reason response =>
      with_entry id (refused response) (λ _,
        respond_result response
          (queue_frame Command.Reject id reason false TrafficClass.Control context_default))
  | ActorCommand.SendData _ id payload end_stream response =>
      with_entry id (refused response) (λ _, send_or_wait id payload end_stream response)
  | ActorCommand.Receive _ id response =>
      with_entry id (response, FrameReply (Err ConnectionError.Disconnected))
        (λ _, receive_or_wait id response)
  | ActorCommand.Close _ id response =>
      with_entry id (refused response) (λ _,
        respond_result response
          (queue_frame Command.Close id [] false TrafficClass.Control context_default))
  | ActorCommand.Reset _ id reason response =>
      with_entry id (refused response) (λ _,
        respond_result response
          (queue_frame Command.Reset id reason false TrafficClass.Control context_default))
  | ActorCommand.CancelReceive _ id response =>
      with_entry id (refused response) (λ entry,
        do! put_entry id (set_receiver None entry) in
        do! respond_opt (receiver entry) (FrameReply (Err ConnectionError.Disconnected)) in
        respond response (UnitReply (Ok tt)))
  | ActorCommand.GoAway _ response =>
      let! self := mget in
      match pending_goaway self with
      | Some _ => respond response (UnitReply (Err ConnectionError.QueueFull))
      | None =>
          do! queue_frame Command.GoAway 0 [] false TrafficClass.Control context_default in
          mmodify (set_pending_goaway (Some response))
      end
  | ActorCommand.Shutdown => mret tt
  end.

(** [command.respond_error(error)]. *)
Definition respond_error (c : ActorCommand) (error : ConnectionError) : actor_op unit :=
  match error_reply c error with
  | Some (h, r) => respond h r
  | None => mret tt
  end.

Definition is_shutdown (c : ActorCommand) : bool :=
  match c with
  | ActorCommand.Shutdown => true
  | _ => false
  end.

(** [handle_current_command]. *)
Definition handle_current_command (now : Z) (c : ActorCommand) : actor_op unit :=
  let! self := mget in
  if awaiting_restart self && negb (is_shutdown c)
  then respond_error c ConnectionError.Disconnected else
  match command_generation c with
  | Some g =>
      if negb (g =? generation self) then respond_error c ConnectionError.Disconnected
      else handle_command now c
  | None => handle_command now c
  end.

(** ** Inbound frames *)

Definition session_inbound (h : Header) (context : FrameContext) : actor_op unit :=
  zoom_err session set_session
    (λ e, ConnectionError.Protocol (InboundRefused (command h) (stream_id h) e))
    (process_inbound h context).

(** The [GOAWAY] arm of [handle_inbound]. *)
Definition handle_goaway : actor_op unit :=
  let! self := mget in
  match pending_goaway self, restart self with
  | Some response, _ =>
      do! mmodify (set_pending_goaway None) in
      do! respond response (UnitReply (Ok tt)) in
      mfail ConnectionError.Disconnected
  | None, Some _ =>
      do! fail_streams ConnectionError.Disconnected in
      do! mmodify (set_control_sequence (control_sequence self)) in
      do! mmodify (set_awaiting_restart true) in
      queue_frame Command.GoAway 0 [] false TrafficClass.Control context_default
  | None, None => mfail ConnectionError.Disconnected
  end.

(** The last [match] of [handle_inbound]. *)
Definition dispatch (f : Frame) : actor_op unit :=
  match command (header f) with
  | Command.Open => accept_incoming_open f
  | Command.Accept => complete_open (stream_id (header f))
  | Command.Reject => reject_open f
  | Command.Credit => flush_pending (stream_id (header f))
  | Command.Data | Command.Close | Command.Reset => deliver f
  | Command.Ping =>
      queue_frame Command.Pong 0 (payload f) false TrafficClass.Control context_default
  | Command.Pong =>
      let! self := mget in
      match pending_pings self !! payload f with
      | Some pending =>
          do! mmodify (set_pending_pings (delete (payload f) (pending_pings self))) in
          respond (ping_response pending) (UnitReply (Ok tt))
      | None => mret tt
      end
  | Command.GoAway => handle_goaway
  | Command.Error => mfail ConnectionError.Disconnected
  | c => mfail (ConnectionError.Protocol (UnexpectedAfterHandshake c))
  end.

(** [handle_inbound]. *)
Definition handle_inbound (f : Frame) : actor_op unit :=
  let h := header f in
  let! self := mget in
  let hello := bool_decide (command h = Command.Hello) && (stream_id h =? 0) in
  if hello && bool_decide (is_Some (restart self)) then restart_session f else
  if negb hello && awaiting_restart self then mret tt else
  let discard_terminal_data :=
    bool_decide (command h = Command.Data) &&
    match stream (session self) (stream_id h) with
    | Some st => is_terminal (StreamState.phase st)
    | None => false
    end in
  let! context :=
    (if decide (command h = Command.Accept) then
       let! window :=
         mlift (map_err ConnectionError.InvalidService (accept_from_slice (payload f))) in
       mret (context_accept window)
     else mret context_default) in
  do! session_inbound h context in
  if discard_terminal_data then restore_consumed_credit f else dispatch f.

(** ** The loop of the actor thread *)

(** [if let Err(error) = m { if !self.begin_restart(error.clone()) {
    self.fail_all(error); break; } }]: whether the loop goes on. *)
Definition recover (error : ConnectionError) (a : Actor) : Actor * bool :=
  match begin_restart error a with
  | (a, Ok true) => (a, true)
  | (a, _) => ((fail_all error a).1, false)
  end.

Definition attempt (m : actor_op unit) (a : Actor) : Actor * bool :=
  match m a with
  | (a, Ok _) => (a, true)
  | (a, Err error) => recover error a
  end.

(** Runs [k] unless the loop was left. *)
Definition unless_left (r : Actor * bool) (k : Actor → Actor * bool) : Actor * bool :=
  match r with
  | (a, true) => k a
  | (a, false) => (a, false)
  end.

Definition take_command (now : Z) (r : received ActorCommand) (a : Actor) : Actor * bool :=
  match r with
  | Received ActorCommand.Shutdown | SenderGone => (a, false)
  | Received c => attempt (handle_current_command now c) a
  | NothingYet => (a, true)
  end.

Definition take_inbound (r : received InboundEvent) (a : Actor) : Actor * bool :=
  match r with
  | Received (InboundEvent.Frame f) => attempt (handle_inbound f) a
  | Received (InboundEvent.Failed error) =>
      ((fail_all (ConnectionError.Transport error) a).1, false)
  | SenderGone => ((fail_all ConnectionError.Disconnected a).1, false)
  | NothingYet => (a, true)
  end.

(** The scheduled frame at the end of an iteration. *)
Definition write_next (a : Actor) : Actor * bool :=
  match queue_dequeue (scheduler a) with
  | (q, None) => (set_scheduler q a, true)
  | (q, Some item) =>
      let a := set_scheduler q a in
      let h := header (frame item) in
      let key := (stream_id h, sequence h) in
      let r :=
        match write_and_flush (frame item) a with
        | (a, Ok (Ok _)) =>
            match write_waiters a !! key with
            | Some response =>
                ((respond response (UnitReply (Ok tt))
                    (set_write_waiters (delete key (write_waiters a)) a)).1, true)
            | None => (a, true)
            end
        | (a, Ok (Err error)) => recover (ConnectionError.Transport error) a
        | (a, Err error) => recover error a
        end in
      unless_left r (λ a,
        if is_terminal_command (command h)
        then ((retire_stream (stream_id h) ConnectionError.Disconnected a).1, true)
        else (a, true))
  end.

Definition progressed (i : loop_input) : bool :=
  match from_commands i with Received _ => true | _ => false end ||
  match from_reader i with Received _ => true | _ => false end.

(** One iteration of [run]; [false] is [break]. *)
Definition iterate (i : loop_input) (a : Actor) : Actor * bool :=
  let a := (expire_pings (now i) a).1 in
  unless_left (take_command (now i) (from_commands i) a) (λ a,
  unless_left (take_inbound (from_reader i) a) (λ a,
  unless_left
    (if negb (progressed i) && queue_is_empty (scheduler a)
     then take_command (now i) (from_idle i) a else (a, true)) write_next)).

(** [run]: the iterations the inputs allow; [true] while the thread lives. *)
Fixpoint run_actor (inputs : list loop_input) (a : Actor) : Actor * bool :=
  match inputs with
  | [] => (a, true)
  | i :: inputs =>
      match iterate i a with
      | (a, true) => run_actor inputs a
      | (a, false) => ((fail_all ConnectionError.Disconnected a).1, false)
      end
  end.

(** [Actor::new]. *)
Definition actor_new (state : SessionState) (w : W) (c : option ConnectionInner)
    (r : option H) : Actor :=
  {| session := state; sink := w; connection := c; incoming := []; incoming_open := true;
     actor_streams := ∅; sequences := ∅; write_waiters := ∅; pending_pings := ∅;
     pending_goaway := None; next_ping_id := 0; control_sequence := 1;
     scheduler := queue_new MAX_SCHEDULED_BYTES; restart := r; awaiting_restart := false;
     generation := 0; replies := [] |}.

(** ** Frames go out numbered in the order of their stream

    [ordered a] relates the three places that number frames: the counters of
    the actor, the session's expected sequence numbers, and the frames of the
    present session that are on the wire or queued for it.  A restart begins a
    new session; [prior] is what was on the wire before it. *)

Definition start_sequence (id : Z) : Z := if id =? 0 then 1 else 0.

Definition frames_of (id : Z) (l : list Frame) : list Frame :=
  filter (λ f, stream_id (header f) = id) l.

(** [l] is numbered [start], [start + 1], ... *)
Definition consecutive (start : Z) (l : list Frame) : Prop :=
  ∀ i f, l !! i = Some f → sequence (header f) = start + Z.of_nat i.

Section one_session.
Context (prior : list Frame).

(** What the present session has put on the wire. *)
Definition sent (a : Actor) : list Frame := drop (length prior) (on_wire (sink a)).

Definition numbered (a : Actor) (q : list ScheduledFrame) (id : Z) : Prop :=
  consecutive (start_sequence id) (frames_of id (sent a ++ (frame <$> q))) ∧
  next_sequence_for a id =
    start_sequence id + len (frames_of id (sent a ++ (frame <$> q))).

Record ordered (a : Actor) : Prop := {
  ord_live : awaiting_restart a = false;
  ord_prior : prior `prefix_of` on_wire (sink a);
  ord_queue : ∃ q, holds (scheduler a) q ∧ ∀ id, numbered a q id;
  ord_session : ∀ id,
    expected_sequence (session a) Direction.Outbound id = next_sequence_for a id;
}.

(** The part of the state that [ordered] depends on. *)
Definition core (a : Actor) : W * option H * bool * Q * gmap Z Z * Z * gmap Z Z :=
  (sink a, restart a, awaiting_restart a, scheduler a, sequences a, control_sequence a,
   outbound_sequences (session a)).

Lemma ordered_core a b : core a = core b → ordered a → ordered b.
Proof.
  unfold core. intros [= Hs Hr Hw Hq Hseq Hc Ho] [H0' H1' (q & H2' & H3') H4']. split.
  - congruence.
  - by rewrite <-Hs.
  - exists q. split; [congruence|]. intros id. specialize (H3' id).
    unfold numbered, sent, next_sequence_for in *. by rewrite <-Hs, <-Hseq, <-Hc.
  - intros id. specialize (H4' id). unfold expected_sequence, next_sequence_for in *. simpl in *.
    by rewrite <-Ho, <-Hseq, <-Hc.
Qed.

(** [sound m]: a call writes nothing itself and, if it succeeds, keeps the
    numbering; [failing m]: a call that writes nothing and fails. *)
Definition sound {A} (m : actor_op A) : Prop :=
  ∀ a a' r, ordered a → m a = (a', r) →
    sink a' = sink a ∧ restart a' = restart a ∧ (is_ok r = true → ordered a').
Definition failing {A} (m : actor_op A) : Prop :=
  ∀ a a' r, m a = (a', r) → sink a' = sink a ∧ restart a' = restart a ∧ is_ok r = false.

Lemma sound_lift {A} (r : result ConnectionError A) : sound (mlift r).
Proof. intros a a' r' Ho [= <- <-]. auto. Qed.
Lemma sound_ret {A} (x : A) : sound (mret x).
Proof. apply (sound_lift (Ok x)). Qed.
Lemma sound_fail {A} e : sound (mfail e : actor_op A).
Proof. apply (sound_lift (Err e)). Qed.
Lemma sound_get : sound mget.
Proof. intros a a' r' Ho [= <- <-]. auto. Qed.

Lemma sound_modify f : (∀ a, core (f a) = core a) → sound (mmodify f).
Proof.
  intros Hf a a' r' Ho [= <- <-]. pose proof (Hf a) as Hc. split_and!.
  - unfold core in Hc. congruence.
  - unfold core in Hc. congruence.
  - intros _. by apply (ordered_core a).
Qed.

Lemma sound_bind {A B} (m : actor_op A) (k : A → actor_op B) :
  sound m → (∀ x, sound (k x)) → sound (mbnd m k).
Proof.
  intros Hm Hk a a' r Ho. unfold mbnd. destruct (m a) as [a1 [x|e]] eqn:Hma;
    destruct (Hm _ _ _ Ho Hma) as (Hs & Hr & Ho1).
  - intros Hka. destruct (Hk x _ _ _ (Ho1 eq_refl) Hka) as (? & ? & ?). split_and!; [congruence..|done].
  - intros [= <- <-]. done.
Qed.

(** A result the caller looks at: it must pass an error on. *)
Lemma sound_try {A B} (m : actor_op A) (k : result ConnectionError A → actor_op B) :
  sound m → (∀ x, sound (k (Ok x))) → (∀ e, failing (k (Err e))) → sound (mbnd (mtry m) k).
Proof.
  intros Hm Hok Herr a a' r Ho. unfold mbnd, mtry.
  destruct (m a) as [a1 [x|e]] eqn:Hma; destruct (Hm _ _ _ Ho Hma) as (Hs & Hr & Ho1); intros Hk.
  - destruct (Hok x _ _ _ (Ho1 eq_refl) Hk) as (? & ? & ?). split_and!; [congruence..|done].
  - destruct (Herr e _ _ _ Hk) as (? & ? & Hf). split_and!; [congruence..|]. by rewrite Hf.
Qed.

Lemma failing_respond {A} h r (m : actor_op A) : failing m → failing (mbnd (respond h r) (λ _, m)).
Proof. intros Hm a a' r' Hrun. by apply (Hm (set_replies (replies a ++ [(h, r)]) a)). Qed.
Lemma failing_lift {A} e : failing (mlift (Err e : result ConnectionError A)).
Proof. by intros a a' r' [= <- <-]. Qed.

Lemma sound_foreach {A} (m : A → actor_op unit) l : (∀ x, sound (m x)) → sound (mforeach m l).
Proof.
  intros Hm. induction l as [|x l IH]; simpl; [apply sound_ret|]. by apply sound_bind.
Qed.

Lemma sound_respond h r : sound (respond h r).
Proof. by apply sound_modify. Qed.
Lemma sound_respond_opt o r : sound (respond_opt o r).
Proof. destruct o; [apply sound_respond|apply sound_ret]. Qed.
Lemma sound_put_entry id e : sound (put_entry id e).
Proof. by apply sound_modify. Qed.

Lemma sound_inbound h ctx : sound (session_inbound h ctx).
Proof.
  intros a a' r Ho. unfold session_inbound, zoom_err.
  destruct (process_inbound h ctx (session a)) as [s' [[]|e]] eqn:Hp; intros [= <- <-].
  - split_and!; [done..|]. intros _. destruct Ho as [H0' H1' H2' H3']. split; [done..|].
    apply process_expected_sequence in Hp as (_ & _ & _ & _ & Hout).
    intros id. specialize (Hout id). simpl in Hout. simpl. rewrite Hout. apply H3'.
  - done.
Qed.

Lemma sound_allocate : sound (zoom_err session set_session protocol_error allocate_stream_id).
Proof.
  intros a a' r Ho. unfold zoom_err.
  destruct (allocate_stream_id (session a)) as [s' r'] eqn:Ha. intros [= <- <-].
  split_and!; [done..|]. intros _. apply (ordered_core a); [|done]. unfold core. simpl.
  apply allocate_inv in Ha as [(id & _ & _ & ->)|(_ & _ & ->)]; done.
Qed.

(** The shared tail of [queue_credit] and [queue_frame]. *)
Definition queue_header (id : Z) (mk : Z → Header) (payload : bytes) (context : FrameContext)
    (class : TrafficClass) : actor_op unit :=
  let! sequence := take_sequence id in
  let! f := mlift (map_err wire_error (frame_new (mk sequence) payload)) in
  do! session_outbound (header f) context in
  schedule {| Scheduler.class := class; frame := f |}.

(** [a] after [take_sequence] of the number [n]. *)
Definition took (id n : Z) (a : Actor) : Actor :=
  if id =? 0 then set_control_sequence (n + 1) a
  else set_sequences (<[id := n + 1]> (<[id := n]> (sequences a))) a.

Lemma take_sequence_run id a :
  let n := next_sequence_for a id in
  (∃ a', take_sequence id a =
     (a', Err (ConnectionError.Protocol (Text "sequence exhausted"))) ∧
     sink a' = sink a ∧ restart a' = restart a) ∨
  (n < u32_max ∧ take_sequence id a = (took id n a, Ok n)).
Proof.
  unfold take_sequence, next_sequence_for, took, mbnd, mget, mret, mmodify, mlift.
  destruct (id =? 0); (destruct (checked_add u32_max _ 1) as [n|] eqn:Hn;
    [apply checked_add_Some in Hn as [-> Hn]; right; split; [lia|done]
    |left; eexists; split; [reflexivity|done]]).
Qed.

Lemma next_sequence_took id n a id' :
  next_sequence_for (took id n a) id' =
  if decide (id' = id) then n + 1 else next_sequence_for a id'.
Proof.
  unfold next_sequence_for, took. destruct (Z.eqb_spec id 0) as [->|Hid]; simpl.
  - case_decide; [by subst|]. by rewrite (proj2 (Z.eqb_neq id' 0)).
  - case_decide as Hd.
    + subst. rewrite (proj2 (Z.eqb_neq _ _)) by done. cbn. by rewrite lookup_insert, decide_True.
    + destruct (id' =? 0); [done|]. cbn. by rewrite !lookup_insert_ne by congruence.
Qed.

Lemma took_frame id n a :
  sink (took id n a) = sink a ∧ restart (took id n a) = restart a ∧
  scheduler (took id n a) = scheduler a ∧ session (took id n a) = session a ∧
  awaiting_restart (took id n a) = awaiting_restart a.
Proof. unfold took. by case_match. Qed.

Lemma frames_of_app id l k : frames_of id (l ++ k) = frames_of id l ++ frames_of id k.
Proof. apply filter_app. Qed.

Lemma consecutive_snoc start l f :
  consecutive start l → sequence (header f) = start + len l → consecutive start (l ++ [f]).
Proof.
  intros Hl Hf i x Hi. apply lookup_app_Some in Hi as [Hi|[Hge Hi]]; [by apply Hl|].
  apply list_lookup_singleton_Some in Hi as [Hi <-]. rewrite Hf. unfold len. lia.
Qed.

(** A frame with the next number of its stream extends the numbering. *)
Lemma numbered_snoc a a' q item id :
  sink a' = sink a → sequence (header (frame item)) = next_sequence_for a (item_stream item) →
  next_sequence_for a' id =
    (if decide (id = item_stream item) then next_sequence_for a id + 1
     else next_sequence_for a id) →
  numbered a q id → numbered a' (q ++ [item]) id.
Proof.
  intros Hs Hseq Hnext [Hcons Hlen]. unfold numbered, sent in *.
  rewrite Hs, Hnext, fmap_app, app_assoc, frames_of_app. unfold item_stream in *.
  cbn [fmap list_fmap]. case_decide as Hd.
  - subst id. unfold frames_of at 2 4. rewrite filter_cons_True, filter_nil by done.
    rewrite len_app. change (len [frame item]) with 1. split; [|lia].
    apply consecutive_snoc; [done|lia].
  - unfold frames_of at 2 4. rewrite filter_cons_False, filter_nil, app_nil_r by congruence. done.
Qed.

Lemma sound_queue_header id mk payload ctx class :
  (∀ n, stream_id (mk n) = id) → (∀ n, sequence (mk n) = n) →
  sound (queue_header id mk payload ctx class).
Proof.
  intros Hid Hseq a a' r Ho. pose proof Ho as [Hres Hpri (q & Hq & Hnum) Hses].
  unfold queue_header, mbnd at 1.
  destruct (take_sequence_run id a) as [(a1 & -> & Hs1 & Hr1)|[Hn ->]].
  { intros [= <- <-]. split_and!; [congruence..|done]. }
  set (n := next_sequence_for a id) in *.
  destruct (took_frame id n a) as (Hs & Hr & Hq1 & Hses1 & Haw).
  unfold mbnd at 1, mlift, frame_new.
  destruct (u32_try_from (len payload)) as [m|]; simpl.
  2:{ intros [= <- <-]. split_and!; [congruence..|done]. }
  set (h := with_payload_length m (mk n)).
  assert (stream_id h = id) as Hh1 by apply Hid.
  assert (sequence h = n) as Hh2 by apply Hseq.
  unfold mbnd, session_outbound, schedule, zoom_err.
  destruct (process_outbound h ctx (session (took id n a))) as [s' [[]|e]] eqn:Hp; simpl.
  2:{ intros [= <- <-]. split_and!; simpl; [congruence..|done]. }
  rewrite Hq1. set (item := {| Scheduler.class := class;
    frame := {| header := h; WireFrame.payload := payload |} |}).
  destruct (queue_enqueue item (scheduler a)) as [sch' r'] eqn:He.
  intros [= <- <-]. split_and!; simpl; [congruence..|].
  destruct (queue_enqueue_holds _ _ _ _ _ Hq He) as [[-> Hq']|[-> _]]; simpl; [|done]. intros _.
  assert (∀ id', next_sequence_for (set_scheduler sch' (set_session s' (took id n a))) id' =
    if decide (id' = id) then n + 1 else next_sequence_for a id') as Hnext.
  { intros id'. rewrite <-next_sequence_took. unfold took. by destruct (id =? 0). }
  split; [simpl; congruence|simpl; by rewrite Hs| |].
  - exists (q ++ [item]). split; [done|]. intros id'. apply (numbered_snoc a); [done| | |done].
    + change (sequence h = next_sequence_for a (stream_id h)). by rewrite Hh1.
    + rewrite Hnext. change (item_stream item) with (stream_id h). rewrite Hh1.
      case_decide as Hd; [by rewrite Hd|done].
  - intros id'. rewrite Hnext. cbn [session set_scheduler set_session]. rewrite Hses1 in Hp.
    apply process_expected_sequence in Hp as (_ & _ & Hp1 & Hp2 & _).
    rewrite Hh1, Hh2 in Hp1. rewrite Hh1 in Hp2.
    destruct (decide (id' = id)) as [Hd|Hd].
    + rewrite Hd, Hp1, decide_False by lia. done.
    + rewrite Hp2 by done. apply Hses.
Qed.

Lemma sound_queue_credit id delta : sound (queue_credit id delta).
Proof.
  apply (sound_queue_header id (λ n, with_credit_delta delta (header_new Command.Credit id n))
    [] context_default TrafficClass.Control); done.
Qed.

Lemma sound_queue_frame c id payload fin class ctx :
  sound (queue_frame c id payload fin class ctx).
Proof.
  apply (sound_queue_header id
    (λ n, if fin then with_end_stream (header_new c id n) else header_new c id n) payload ctx
    (if decide (for_command c = TrafficClass.Control) then TrafficClass.Control else class));
    by destruct fin.
Qed.

Create HintDb actor.

(** Proves [sound] of a method by its structure. *)
Ltac solve_sound :=
  repeat match goal with
  | |- sound (mbnd (mtry _) _) => apply sound_try; intros
  | |- sound (mbnd _ _) => apply sound_bind; intros
  | |- sound (mret _) => apply sound_ret
  | |- sound (mfail _) => apply sound_fail
  | |- sound mget => apply sound_get
  | |- sound (mlift _) => apply sound_lift
  | |- sound (respond _ _) => apply sound_respond
  | |- sound (respond_opt _ _) => apply sound_respond_opt
  | |- sound (put_entry _ _) => apply sound_put_entry
  | |- sound (mmodify _) => apply sound_modify; done
  | |- sound (mforeach _ _) => apply sound_foreach; intros
  | |- sound (queue_credit _ _) => apply sound_queue_credit
  | |- sound (queue_frame _ _ _ _ _ _) => apply sound_queue_frame
  | |- sound (session_inbound _ _) => apply sound_inbound
  | |- sound (zoom_err session set_session protocol_error allocate_stream_id) =>
      apply sound_allocate
  | |- failing (mbnd (respond _ _) _) => apply failing_respond
  | |- failing (mlift (Err _)) => apply failing_lift
  | |- failing (mfail ?e) => apply (failing_lift e)
  | |- sound (match ?x with _ => _ end) => destruct x
  | |- sound (let x := _ in _) => cbv zeta
  | H : sound ?m |- sound ?m => exact H
  | |- sound _ => progress auto with actor
  end.

Lemma sound_restore_credit f : sound (restore_consumed_credit f).
Proof. unfold restore_consumed_credit. solve_sound. Qed.
Lemma sound_fail_entry e error : sound (fail_entry e error).
Proof. unfold fail_entry. solve_sound. Qed.
#[local] Hint Resolve sound_restore_credit sound_fail_entry : actor.

Lemma sound_retire_stream id error : sound (retire_stream id error).
Proof. unfold retire_stream. solve_sound. Qed.
#[local] Hint Resolve sound_retire_stream : actor.

Lemma sound_deliver f : sound (deliver f).
Proof. unfold deliver. solve_sound. Qed.
Lemma sound_receive_or_wait id h : sound (receive_or_wait id h).
Proof. unfold receive_or_wait. solve_sound. Qed.
Lemma sound_queue_data id payload fin class h : sound (queue_data id payload fin class h).
Proof. unfold queue_data. solve_sound. Qed.
#[local] Hint Resolve sound_deliver sound_receive_or_wait sound_queue_data : actor.

Lemma sound_send_or_wait id payload fin h : sound (send_or_wait id payload fin h).
Proof. unfold send_or_wait. solve_sound. Qed.
Lemma sound_flush_pending id : sound (flush_pending id).
Proof. unfold flush_pending, flush_stream_pending. solve_sound. Qed.
Lemma sound_accept_incoming_open f : sound (accept_incoming_open f).
Proof. unfold accept_incoming_open. solve_sound. Qed.
Lemma sound_complete_open id : sound (complete_open id).
Proof. unfold complete_open. solve_sound. Qed.
Lemma sound_reject_open f : sound (reject_open f).
Proof. unfold reject_open. solve_sound. Qed.
#[local] Hint Resolve sound_send_or_wait sound_flush_pending sound_accept_incoming_open
  sound_complete_open sound_reject_open : actor.

Lemma sound_with_entry id refusal k : (∀ e, sound (k e)) → sound (with_entry id refusal k).
Proof. intros Hk. unfold with_entry. solve_sound. Qed.
Lemma sound_respond_result h m : sound m → sound (respond_result h m).
Proof. intros Hm. unfold respond_result. solve_sound. Qed.

Lemma sound_handle_command now c : sound (handle_command now c).
Proof.
  destruct c; cbn [handle_command]; unfold handle_ping, handle_open;
    try (apply sound_with_entry; intros);
    solve_sound;
    match goal with |- sound (respond_result _ _) => apply sound_respond_result end;
    solve_sound.
Qed.

Lemma sound_handle_current_command now c : sound (handle_current_command now c).
Proof.
  unfold handle_current_command, respond_error. pose proof (sound_handle_command now c).
  solve_sound.
Qed.

Lemma sound_expire_pings now : sound (expire_pings now).
Proof. unfold expire_pings. solve_sound. Qed.

Lemma sound_dispatch f : command (header f) ≠ Command.GoAway → sound (dispatch f).
Proof. intros Hc. unfold dispatch. destruct (command (header f)); try done; solve_sound. Qed.

(** [handle_inbound] after its two guards. *)
Definition handle_frame (f : Frame) : actor_op unit :=
  let h := header f in
  let! self := mget in
  let discard_terminal_data :=
    bool_decide (command h = Command.Data) &&
    match stream (session self) (stream_id h) with
    | Some st => is_terminal (StreamState.phase st)
    | None => false
    end in
  let! context :=
    (if decide (command h = Command.Accept) then
       let! window :=
         mlift (map_err ConnectionError.InvalidService (accept_from_slice (payload f))) in
       mret (context_accept window)
     else mret context_default) in
  do! session_inbound h context in
  if discard_terminal_data then restore_consumed_credit f else dispatch f.

Lemma handle_inbound_guards f a :
  handle_inbound f a =
    let hello := bool_decide (command (header f) = Command.Hello) && (stream_id (header f) =? 0) in
    if hello && bool_decide (is_Some (restart a)) then restart_session f a
    else if negb hello && awaiting_restart a then (a, Ok tt) else handle_frame f a.
Proof.
  unfold handle_inbound, handle_frame. unfold mbnd at 1, mget at 1. cbv zeta.
  destruct (_ && bool_decide (is_Some _)); [done|]. by destruct (_ && awaiting_restart a).
Qed.

Lemma sound_handle_frame f : command (header f) ≠ Command.GoAway → sound (handle_frame f).
Proof. intros Hc. pose proof (sound_dispatch f Hc). unfold handle_frame. solve_sound. Qed.

Lemma handle_frame_goaway f a :
  command (header f) = Command.GoAway →
  handle_frame f a = mbnd (session_inbound (header f) context_default) (λ _, handle_goaway) a.
Proof.
  intros Hc. unfold handle_frame, dispatch. rewrite Hc. unfold mbnd at 1, mget. cbv zeta.
  rewrite bool_decide_eq_false_2 by done. cbn [andb]. by rewrite decide_False by done.
Qed.

(** What queueing a frame does, whatever the state. *)
Lemma queue_header_run id mk payload ctx class a a' r :
  queue_header id mk payload ctx class a = (a', r) →
  sink a' = sink a ∧ restart a' = restart a ∧
  (is_ok r = true → awaiting_restart a' = awaiting_restart a ∧
     ∃ item m u, queue_enqueue item (scheduler a) = (scheduler a', Ok u) ∧
       header (frame item) = with_payload_length m (mk (next_sequence_for a id))).
Proof.
  unfold queue_header, mbnd at 1.
  destruct (take_sequence_run id a) as [(a1 & -> & Hs1 & Hr1)|[Hn ->]].
  { intros [= <- <-]. split_and!; [congruence..|done]. }
  set (n := next_sequence_for a id) in *.
  destruct (took_frame id n a) as (Hs & Hr & Hq1 & Hses1 & Haw).
  unfold mbnd at 1, mlift, frame_new.
  destruct (u32_try_from (len payload)) as [m|]; simpl.
  2:{ intros [= <- <-]. split_and!; [congruence..|done]. }
  unfold mbnd, session_outbound, schedule, zoom_err.
  destruct (process_outbound _ ctx (session (took id n a))) as [s' [[]|e]]; simpl.
  2:{ intros [= <- <-]. split_and!; simpl; [congruence..|done]. }
  rewrite Hq1. set (item := {| Scheduler.class := class;
    frame := {| header := with_payload_length m (mk n); WireFrame.payload := payload |} |}).
  destruct (queue_enqueue item (scheduler a)) as [sch' [u|e]] eqn:He.
  - intros [= <- <-]. split_and!; simpl; [congruence..|]. intros _. split; [congruence|].
    by exists item, m, u.
  - intros [= <- <-]. split_and!; simpl; [congruence..|done].
Qed.
End one_session.

(** ** The loop *)

(** A call that leaves alone what the numbering depends on. *)
Definition same_core {A} (m : actor_op A) : Prop := ∀ a, core (m a).1 = core a.

Lemma same_core_bind {A B} (m : actor_op A) (k : A → actor_op B) :
  same_core m → (∀ x, same_core (k x)) → same_core (mbnd m k).
Proof.
  intros Hm Hk a. unfold mbnd. specialize (Hm a). destruct (m a) as [a1 [x|e]]; cbn [fst] in *; [|done].
  by rewrite Hk.
Qed.
Lemma same_core_foreach {A} (m : A → actor_op unit) l :
  (∀ x, same_core (m x)) → same_core (mforeach m l).
Proof. intros Hm. induction l as [|x l IH]; simpl; [done|]. by apply same_core_bind. Qed.
Lemma same_core_respond_opt o r : same_core (respond_opt o r).
Proof. by destruct o. Qed.

Ltac solve_same :=
  repeat match goal with
  | |- same_core (mbnd _ _) => apply same_core_bind; intros
  | |- same_core (mforeach _ _) => apply same_core_foreach; intros
  | |- same_core (respond_opt _ _) => apply same_core_respond_opt
  | |- same_core (mmodify _) => intros ?; cbn; try done; by case_match
  | |- same_core (match ?x with _ => _ end) => destruct x
  | |- same_core _ => done
  end.

Lemma same_core_fail_entries error : same_core (fail_entries error).
Proof. unfold fail_entries, fail_entry. solve_same. Qed.
Lemma same_core_fail_waiters error : same_core (fail_waiters error).
Proof. unfold fail_waiters. solve_same. Qed.
Lemma same_core_fail_all error : same_core (fail_all error).
Proof. unfold fail_all, fail_entries, fail_waiters, fail_entry. solve_same. Qed.
Lemma same_core_expire_pings now : same_core (expire_pings now).
Proof. unfold expire_pings. solve_same. Qed.
Lemma same_core_respond_error c error : same_core (respond_error c error).
Proof. unfold respond_error. solve_same. Qed.
Lemma same_core_retire_stream id error : same_core (retire_stream id error).
Proof. unfold retire_stream, fail_entry. solve_same. Qed.

Lemma core_wire a b :
  core a = core b → sink a = sink b ∧ restart a = restart b ∧ awaiting_restart a = awaiting_restart b ∧
    scheduler a = scheduler b.
Proof. by intros [= -> -> -> -> _ _ _]. Qed.

(** [m] succeeds whatever the state. *)
Lemma infallible_run (m : actor_op unit) a : infallible m → m a = ((m a).1, Ok tt).
Proof. intros Hm. destruct (m a) as [a' [[]|e]] eqn:Hma; [done|]. by apply Hm in Hma. Qed.

Lemma infallible_respond_opt o r : infallible (respond_opt o r).
Proof. destruct o; [apply infallible_modify|apply infallible_ret]. Qed.
Lemma infallible_fail_entry e error : infallible (fail_entry e error).
Proof. unfold fail_entry. auto using infallible_respond_opt, infallible_bind with kb. Qed.
Lemma infallible_respond_error c error : infallible (respond_error c error).
Proof. unfold respond_error. destruct (error_reply c error) as [[h r]|]; [apply infallible_modify|apply infallible_ret]. Qed.

Lemma infallible_fail_entries error : infallible (fail_entries error).
Proof.
  unfold fail_entries. apply infallible_bind; [apply infallible_get|intros self].
  apply infallible_bind; [apply infallible_modify|intros _]. apply infallible_foreach.
  intros [id e]. apply infallible_fail_entry.
Qed.
Lemma infallible_fail_waiters error : infallible (fail_waiters error).
Proof.
  unfold fail_waiters. apply infallible_bind; [apply infallible_get|intros self].
  apply infallible_bind; [apply infallible_modify|intros _].
  apply infallible_bind; [apply infallible_foreach; intros [k h]; apply infallible_modify|intros _].
  apply infallible_bind; [apply infallible_modify|intros _].
  apply infallible_foreach. intros [k h]. apply infallible_modify.
Qed.

(** [fail_streams] empties the queue and resets the counters. *)
Lemma fail_streams_run error a :
  ∃ a', fail_streams error a = (a', Ok tt) ∧
    sink a' = sink a ∧ restart a' = restart a ∧ awaiting_restart a' = awaiting_restart a ∧
    scheduler a' = queue_new MAX_SCHEDULED_BYTES ∧ sequences a' = ∅ ∧ control_sequence a' = 1.
Proof.
  unfold fail_streams. unfold mbnd at 1.
  pose proof (core_wire _ _ (same_core_fail_entries error a)) as (H1' & H2' & H3' & _).
  rewrite (infallible_run _ a (infallible_fail_entries error)). set (a1 := (fail_entries error a).1) in *.
  unfold mbnd at 1, mmodify at 1. unfold mbnd at 1, mmodify at 1. unfold mbnd at 1.
  set (a2 := set_sequences ∅ (set_actor_streams ∅ a1)).
  pose proof (core_wire _ _ (same_core_fail_waiters error a2)) as (H4' & H5' & H6' & _).
  pose proof (same_core_fail_waiters error a2) as Hc.
  rewrite (infallible_run _ a2 (infallible_fail_waiters error)). set (a3 := (fail_waiters error a2).1) in *.
  eexists. split; [reflexivity|]. cbn. split_and!.
  - by rewrite H4'.
  - by rewrite H5'.
  - by rewrite H6'.
  - done.
  - by injection Hc.
  - done.
Qed.

(** A session's frames: numbered without a gap, but that the GOAWAY which answers
    the peer's GOAWAY, the last frame of the session, may skip the numbers of
    control frames that were still queued. *)
Definition goaway_after (body : list Frame) (f : Frame) : Prop :=
  command (header f) = Command.GoAway ∧ stream_id (header f) = 0 ∧
  start_sequence 0 + len (frames_of 0 body) ≤ sequence (header f).
Definition session_frames (l : list Frame) : Prop :=
  ∃ body tail, l = body ++ tail ∧ (∀ id, consecutive (start_sequence id) (frames_of id body)) ∧
    (tail = [] ∨ ∃ f, tail = [f] ∧ goaway_after body f).

(** A HELLO response that the restart handler has made. *)
Definition restart_hello (hello : Frame) : Prop :=
  ∃ h f h' restarted, call_restart h f = (h', Ok restarted) ∧ hello = hello_response restarted.

(** Everything the actor puts on the wire: the frames of the first session, and
    after every restart the HELLO response and the frames of the new session. *)
Inductive session_wire : list Frame → Prop :=
| first_session l : session_frames l → session_wire l
| next_session l hello l' :
    session_wire l → restart_hello hello → session_frames l' → session_wire (l ++ hello :: l').

(** What is on the wire when a session begins. *)
Definition sessions (prior : list Frame) : Prop :=
  prior = [] ∨ ∃ l hello, prior = l ++ [hello] ∧ session_wire l ∧ restart_hello hello.

Lemma consecutive_prefix start l k : consecutive start (l ++ k) → consecutive start l.
Proof. intros Hc i f Hi. apply Hc. by apply lookup_app_l_Some. Qed.
Lemma frames_of_prefix id start l k :
  consecutive start (frames_of id (l ++ k)) → consecutive start (frames_of id l).
Proof. rewrite frames_of_app. apply consecutive_prefix. Qed.

Lemma session_frames_consecutive l :
  (∀ id, consecutive (start_sequence id) (frames_of id l)) → session_frames l.
Proof. intros Hl. exists l, []. rewrite app_nil_r. auto. Qed.
Lemma session_frames_prefix l k : session_frames (l ++ k) → session_frames l.
Proof.
  intros (body & tail & Heq & Hc & Ht). destruct k as [|x k _] using rev_ind.
  { rewrite app_nil_r in Heq. subst l. by exists body, tail. }
  rewrite app_assoc in Heq. destruct Ht as [->|(f & -> & Hf)].
  - rewrite app_nil_r in Heq. subst body. apply session_frames_consecutive. intros id.
    eapply (frames_of_prefix _ _ _ k), (frames_of_prefix _ _ _ [x]), Hc.
  - apply app_inj_tail in Heq as [<- _]. apply session_frames_consecutive. intros id.
    eapply frames_of_prefix, Hc.
Qed.

Lemma sessions_wire prior l : sessions prior → session_frames l → session_wire (prior ++ l).
Proof.
  intros [->|(k & hello & -> & Hk & Hh)] Hl; [by apply first_session|].
  rewrite <-app_assoc. by apply next_session.
Qed.

(** A session right after the HELLO exchange: one outbound frame was sent. *)
Definition handshaken (s : SessionState) : Prop :=
  ∀ id, expected_sequence s Direction.Outbound id = start_sequence id.

(** What the actor relies on of its restart handler. *)
Definition restart_handshakes : Prop :=
  ∀ h f h' restarted, call_restart h f = (h', Ok restarted) → handshaken (restarted_state restarted).

Definition restartable (a : Actor) : bool :=
  match restart a with
  | Some _ => true
  | None => false
  end.

Lemma recover_none error a :
  restart a = None → recover error a = ((fail_all error a).1, false).
Proof. intros Hr. unfold recover, begin_restart, mbnd, mget. by rewrite Hr. Qed.

Section the_loop.
(** Whether the connection has a restart handler. *)
Context (b : bool) (handshakes : b = true → restart_handshakes).

Record wire_at (prior : list Frame) (a : Actor) : Prop := {
  at_restart : restartable a = b;
  at_prior : sessions prior;
  at_session : ∃ l, on_wire (sink a) = prior ++ l ∧ session_frames l;
  at_plain : b = false → ∀ id, consecutive (start_sequence id) (frames_of id (on_wire (sink a)));
}.
Definition wire_ok (a : Actor) : Prop :=
  session_wire (on_wire (sink a)) ∧
  (b = false → ∀ id, consecutive (start_sequence id) (frames_of id (on_wire (sink a)))).

(** The actor waits for a HELLO: at most the GOAWAY is left to write. *)
Record waiting_at (prior : list Frame) (a : Actor) : Prop := {
  wait_flag : awaiting_restart a = true;
  wait_restart : b = true;
  wait_wire : ∃ l q, on_wire (sink a) = prior ++ l ∧ holds (scheduler a) q ∧ (length q ≤ 1)%nat ∧
    session_frames (l ++ (frame <$> q));
}.
Record in_session (prior : list Frame) (a : Actor) : Prop := {
  in_restart : restartable a = b;
  in_prior : sessions prior;
  in_plain : b = false → prior = [];
  in_state : ordered prior a ∨ waiting_at prior a;
}.
Definition loop_ok (r : Actor * bool) : Prop :=
  wire_ok r.1 ∧ (r.2 = true → ∃ prior, in_session prior r.1).

Lemma ordered_sent prior a : ordered prior a → on_wire (sink a) = prior ++ sent prior a.
Proof. intros Ho. destruct (ord_prior _ _ Ho) as [l Hl]. unfold sent. by rewrite Hl, drop_app_length. Qed.
Lemma ordered_consecutive prior a id :
  ordered prior a → consecutive (start_sequence id) (frames_of id (sent prior a)).
Proof. intros [_ _ (q & _ & Hq) _]. destruct (Hq id) as [Hc _]. by eapply frames_of_prefix. Qed.

Lemma in_session_wire prior a : in_session prior a → wire_at prior a.
Proof.
  intros [Hr Hp Hpl [Ho|[_ Hb (l & q & Hl & _ & _ & Hf)]]]; (split; [done..| |]).
  - exists (sent prior a). split; [by apply ordered_sent|]. apply session_frames_consecutive.
    intros id. by apply ordered_consecutive.
  - intros Hb id. pose proof (ordered_consecutive prior a id Ho) as Hc. rewrite (Hpl Hb) in Hc. exact Hc.
  - exists l. split; [done|]. by eapply session_frames_prefix.
  - congruence.
Qed.
Lemma wire_at_ok prior a : wire_at prior a → wire_ok a.
Proof. intros [_ Hp (l & Hl & Hf) Hpl]. split; [rewrite Hl; by apply sessions_wire|done]. Qed.
Lemma wire_at_same prior a a' :
  sink a' = sink a → restartable a' = restartable a → wire_at prior a → wire_at prior a'.
Proof. intros Hs Hr [H1' H2' H3' H4']. split; [congruence|done|by rewrite Hs..]. Qed.
Lemma restartable_same a a' : restart a' = restart a → restartable a' = restartable a.
Proof. unfold restartable. by intros ->. Qed.

Lemma in_session_core prior a a' : core a' = core a → in_session prior a → in_session prior a'.
Proof.
  intros Hc [Hr Hp Hpl Hst]. pose proof (core_wire _ _ Hc) as (Hs & Hre & Haw & Hsc).
  split; [by rewrite (restartable_same _ _ Hre)|done|done|].
  destruct Hst as [Ho|[Hf Hb Hw]]; [left; by eapply ordered_core, Ho|right].
  split; [congruence|done|]. by rewrite Hs, Hsc.
Qed.

Lemma loop_ok_true prior a : in_session prior a → loop_ok (a, true).
Proof. intros Ha. split; [by eapply wire_at_ok, in_session_wire|]. intros _. by exists prior. Qed.
Lemma loop_ok_false prior a : wire_at prior a → loop_ok (a, false).
Proof. intros Ha. split; [by eapply wire_at_ok|done]. Qed.
Lemma loop_ok_fail prior a error : wire_at prior a → loop_ok ((fail_all error a).1, false).
Proof.
  intros Ha. pose proof (core_wire _ _ (same_core_fail_all error a)) as (Hs & Hr & _).
  eapply loop_ok_false, wire_at_same; [exact Hs|by apply restartable_same|done].
Qed.

(** A queue that was emptied, with everything on the wire. *)
Lemma waiting_empty prior a :
  wire_at prior a → b = true → awaiting_restart a = true → scheduler a = queue_new MAX_SCHEDULED_BYTES →
  in_session prior a.
Proof.
  intros [Hr Hp (l & Hl & Hf) _] Hb Haw Hsc. split; [done|done|congruence|right].
  split; [done|done|]. exists l, []. rewrite app_nil_r, Hsc. split_and!; [done| |simpl; lia|done].
  apply queue_new_holds. unfold MAX_SCHEDULED_BYTES, u32_max. lia.
Qed.

Lemma recover_ok prior error a : wire_at prior a → loop_ok (recover error a).
Proof.
  intros Ha. unfold recover, begin_restart, mbnd, mget, mmodify, mret.
  destruct (restart a) as [h|] eqn:Hre; [|by eapply loop_ok_fail].
  destruct (fail_streams_run error a) as (a' & -> & Hs & Hr & _ & Hsc & _).
  eapply (loop_ok_true prior), waiting_empty; [|by rewrite <-(at_restart _ _ Ha); unfold restartable; rewrite Hre|done|done].
  eapply wire_at_same; [| |exact Ha]; [done|]. by apply restartable_same.
Qed.

Lemma attempt_ok {prior m a} : sound prior m → in_session prior a → ordered prior a → loop_ok (attempt m a).
Proof.
  intros Hm Ha Ho. unfold attempt. destruct (m a) as [a1 [x|e]] eqn:Hma;
    destruct (Hm _ _ _ Ho Hma) as (Hs & Hr & Ho1).
  - apply (loop_ok_true prior). destruct Ha as [H1' H2' H3' _]. split; [|done|done|left; by apply Ho1].
    by rewrite (restartable_same _ _ Hr).
  - apply (recover_ok prior). eapply wire_at_same; [exact Hs|by apply restartable_same|by apply in_session_wire].
Qed.
Lemma attempt_same {prior m a} : same_core m → infallible m → in_session prior a → loop_ok (attempt m a).
Proof.
  intros Hc Hm Ha. unfold attempt. rewrite (infallible_run m a Hm).
  apply (loop_ok_true prior). eapply in_session_core; [apply Hc|done].
Qed.

Lemma unless_left_ok r k :
  loop_ok r → (∀ prior a, in_session prior a → loop_ok (k a)) → loop_ok (unless_left r k).
Proof. destruct r as [a []]; intros [Hw Ho] Hk; simpl; [|done]. destruct (Ho eq_refl) as [prior Ha]. by eapply Hk. Qed.

Lemma take_command_ok prior now r a : in_session prior a → loop_ok (take_command now r a).
Proof.
  intros Ha. pose proof (in_session_wire _ _ Ha) as Hw.
  assert (Hcmd : ∀ c, is_shutdown c = false → loop_ok (attempt (handle_current_command now c) a)).
  { intros c Hc. destruct (in_state _ _ Ha) as [Ho|Hwt].
    - eapply attempt_ok; [apply sound_handle_current_command|done|done].
    - assert (attempt (handle_current_command now c) a =
        attempt (respond_error c ConnectionError.Disconnected) a) as ->.
      { unfold attempt, handle_current_command. unfold mbnd at 1, mget at 1.
        by rewrite (wait_flag _ _ Hwt), Hc. }
      eapply attempt_same; [apply same_core_respond_error|apply infallible_respond_error|done]. }
  destruct r as [c| |]; cbn [take_command];
    [|by apply (loop_ok_true prior)|by apply (loop_ok_false prior)].
  destruct c; try (by apply Hcmd). by apply (loop_ok_false prior).
Qed.

(** The answer to the peer's GOAWAY. *)
Lemma handle_goaway_run prior a a' r :
  ordered prior a → handle_goaway a = (a', r) →
  sink a' = sink a ∧ restart a' = restart a ∧
  (is_ok r = true → awaiting_restart a' = true ∧ restart a ≠ None ∧
     ∃ item, holds (scheduler a') [item] ∧ goaway_after (sent prior a) (frame item)).
Proof.
  intros Ho. unfold handle_goaway. unfold mbnd at 1, mget at 1.
  destruct (pending_goaway a) as [response|]; [by intros [= <- <-]|].
  destruct (restart a) as [h|] eqn:Hre; [|intros [= <- <-]; by rewrite Hre].
  unfold mbnd at 1. destruct (fail_streams_run ConnectionError.Disconnected a) as (a1 & -> & Hs & Hr & _ & Hsc & _ & _).
  unfold mbnd at 1, mmodify at 1. unfold mbnd at 1, mmodify at 1.
  set (a2 := set_awaiting_restart true (set_control_sequence (control_sequence a) a1)).
  change (queue_frame Command.GoAway 0 [] false TrafficClass.Control context_default a2) with
    (queue_header 0 (λ n, header_new Command.GoAway 0 n) [] context_default TrafficClass.Control a2).
  intros Hq. destruct (queue_header_run _ _ _ _ _ _ _ _ Hq) as (Hs' & Hr' & Hok).
  split; [by rewrite Hs'|]. split; [rewrite Hr'; simpl; congruence|]. intros Hr0. destruct (Hok Hr0) as (Haw & item & m & u & He & Hh).
  split; [by rewrite Haw|]. split; [done|]. exists item. split.
  - change (scheduler a2) with (scheduler a1) in He. rewrite Hsc in He.
    assert (Hnew : holds (queue_new MAX_SCHEDULED_BYTES) []).
    { apply queue_new_holds. unfold MAX_SCHEDULED_BYTES, u32_max. lia. }
    by destruct (queue_enqueue_holds _ _ _ _ _ Hnew He) as [[_ ?]|[? _]].
  - unfold goaway_after. rewrite Hh. split; [done|]. split; [done|].
    change (start_sequence 0 + len (frames_of 0 (sent prior a)) ≤ control_sequence a).
    destruct (ord_queue _ _ Ho) as (q & _ & Hnum). destruct (Hnum 0) as [_ Hn].
    unfold next_sequence_for in Hn. simpl in Hn. rewrite Hn, frames_of_app, len_app.
    pose proof (len_nonneg (frames_of 0 (frame <$> q))). change (start_sequence 0) with 1. lia.
Qed.

Lemma handle_frame_ok prior f a :
  in_session prior a → ordered prior a → loop_ok (attempt (handle_frame f) a).
Proof.
  intros Ha Ho. destruct (decide (command (header f) = Command.GoAway)) as [Hc|Hc].
  2:{ eapply attempt_ok; [by apply sound_handle_frame|done|done]. }
  pose proof (in_session_wire _ _ Ha) as Hw. unfold attempt. rewrite (handle_frame_goaway f a Hc).
  unfold mbnd. destruct (session_inbound (header f) context_default a) as [a1 [[]|e]] eqn:Hi;
    destruct (sound_inbound prior _ _ _ _ _ Ho Hi) as (Hs & Hr & Ho1).
  2:{ apply (recover_ok prior). eapply wire_at_same; [exact Hs|by apply restartable_same|done]. }
  specialize (Ho1 eq_refl). destruct (handle_goaway a1) as [a2 [[]|e]] eqn:Hg;
    destruct (handle_goaway_run prior _ _ _ Ho1 Hg) as (Hs2 & Hr2 & Hok).
  2:{ apply (recover_ok prior). eapply wire_at_same; [by rewrite Hs2|apply restartable_same; by rewrite Hr2|done]. }
  destruct (Hok eq_refl) as (Haw & Hne & item & Hq & Hga). destruct Ha as [H1' H2' H3' _].
  assert (Hre : restartable a2 = true).
  { unfold restartable. rewrite Hr2. by destruct (restart a1). }
  assert (Hb : b = true) by (rewrite <-H1'; rewrite <-Hre; symmetry; apply restartable_same; by rewrite Hr2).
  apply (loop_ok_true prior). split; [congruence|done|done|right]. split; [done|done|].
  exists (sent prior a1), [item]. split; [rewrite Hs2; by apply ordered_sent|]. split; [done|]. split; [simpl; lia|].
  exists (sent prior a1), [frame item]. split; [done|]. split; [intros id; by apply ordered_consecutive|]. eauto.
Qed.

(** A session right after its HELLO exchange. *)
Lemma fresh_ordered prior a :
  awaiting_restart a = false → on_wire (sink a) = prior → scheduler a = queue_new MAX_SCHEDULED_BYTES →
  sequences a = ∅ → control_sequence a = 1 → handshaken (session a) → ordered prior a.
Proof.
  intros Haw Hw Hsc Hseq Hctl Hs.
  assert (Hnext : ∀ id, next_sequence_for a id = start_sequence id).
  { intros id. unfold next_sequence_for, start_sequence. rewrite Hseq, Hctl.
    case_match; [done|]. by rewrite lookup_empty. }
  split; [done|by rewrite Hw| |by intros id; rewrite Hs, Hnext].
  exists []. split; [rewrite Hsc; apply queue_new_holds; unfold MAX_SCHEDULED_BYTES, u32_max; lia|].
  intros id. unfold numbered, sent. rewrite Hw, drop_all, Hnext. split; [by intros i f Hi|].
  unfold len. simpl. lia.
Qed.

Lemma restart_session_ok prior f a h :
  restart a = Some h → in_session prior a → loop_ok (attempt (restart_session f) a).
Proof.
  intros Hre Ha%in_session_wire.
  assert (Hb : b = true) by (rewrite <-(at_restart _ _ Ha); unfold restartable; by rewrite Hre).
  unfold attempt, restart_session. unfold mbnd at 1, mget at 1. rewrite Hre.
  destruct (call_restart h f) as [h' [restarted|e]] eqn:Hcall; unfold mbnd at 1, mmodify at 1; unfold mbnd at 1, mlift at 1.
  2:{ apply (recover_ok prior). eapply wire_at_same; [| |exact Ha]; [done|]. unfold restartable. by rewrite Hre. }
  unfold mbnd at 1, mlift at 1. destruct (checked_add u64_max (generation a) 1) as [next|]; cbn [ok_or].
  2:{ apply (recover_ok prior). eapply wire_at_same; [| |exact Ha]; [done|]. unfold restartable. by rewrite Hre. }
  unfold mbnd at 1, mmodify at 1. unfold mbnd at 1, mmodify at 1. unfold mbnd at 1.
  match goal with |- context [fail_streams ConnectionError.Disconnected ?x] => set (a1 := x) end.
  destruct (fail_streams_run ConnectionError.Disconnected a1) as (a2 & -> & Hs & Hr & _ & Hsc & Hseq & Hctl).
  unfold mbnd at 1, mmodify at 1. unfold mbnd at 1, mmodify at 1. unfold mbnd at 1.
  set (a3 := set_awaiting_restart false (set_session (restarted_state restarted) a2)).
  assert (Ha3 : wire_at prior a3).
  { eapply wire_at_same; [| |exact Ha]; [done|]. unfold restartable. simpl. rewrite Hr, Hre. done. }
  set (hello := hello_response restarted).
  assert (Hsess : sessions (on_wire (sink a3) ++ [hello])).
  { right. exists (on_wire (sink a3)), hello. split; [done|]. split; [apply (wire_at_ok _ _ Ha3)|].
    by exists h, f, h', restarted. }
  assert (Hafter : ∀ w error, (∃ prior', wire_at prior' (set_sink w a3)) →
    loop_ok (match mbnd (mmodify (set_awaiting_restart true)) (λ _, fail_streams error) (set_sink w a3) with
             | (a, Ok _) => (a, true) | (a, Err e) => recover e a end)).
  { intros w error [prior' Hw']. unfold mbnd, mmodify.
    destruct (fail_streams_run error (set_awaiting_restart true (set_sink w a3))) as (a4 & -> & Hs4 & Hr4 & Haw4 & Hsc4 & _).
    eapply (loop_ok_true prior'), waiting_empty; [|done|by rewrite Haw4|done].
    eapply wire_at_same; [| |exact Hw']; [by rewrite Hs4|]. apply restartable_same. by rewrite Hr4. }
  assert (Hnew : ∀ w, on_wire w = on_wire (sink a3) ++ [hello] → wire_at (on_wire w) (set_sink w a3)).
  { intros w Hw. split; [apply Ha3|by rewrite Hw| |congruence].
    exists []. split; [simpl; by rewrite app_nil_r|]. apply session_frames_consecutive. by intros id i x. }
  unfold write_and_flush. destruct (sink_write hello (sink a3)) as [w [[]|e]] eqn:Hw; apply sink_write_on_wire in Hw.
  - destruct (sink_flush w) as [w2 r2] eqn:Hf. apply sink_flush_on_wire in Hf. rewrite <-Hf in Hw.
    destruct r2 as [[]|e]; [|apply Hafter; by eexists; apply Hnew].
    apply (loop_ok_true (on_wire w2)). split; [apply Ha3|by rewrite Hw|congruence|left].
    apply fresh_ordered; try done. by eapply handshakes.
  - rewrite app_nil_r in Hw. apply Hafter. exists prior.
    destruct Ha3 as [H1' H2' H3' H4']. split; [done|done| |congruence]. simpl. by rewrite Hw.
Qed.

Lemma take_inbound_ok prior r a : in_session prior a → loop_ok (take_inbound r a).
Proof.
  intros Ha. pose proof (in_session_wire _ _ Ha) as Hw.
  destruct r as [[f|error]| |]; cbn [take_inbound];
    [|by eapply loop_ok_fail|by eapply loop_ok_true|by eapply loop_ok_fail].
  set (hello := bool_decide (command (header f) = Command.Hello) && (stream_id (header f) =? 0)).
  assert (Hcase : (∃ h, restart a = Some h ∧ attempt (handle_inbound f) a = attempt (restart_session f) a) ∨
    attempt (handle_inbound f) a = (a, true) ∨
    (attempt (handle_inbound f) a = attempt (handle_frame f) a ∧ (hello = true → restart a = None) ∧
     (hello = false → awaiting_restart a = false))).
  { unfold attempt. rewrite (handle_inbound_guards f a). cbv zeta. fold hello.
    destruct hello; cbn [andb negb].
    - destruct (restart a) as [h|] eqn:Hre.
      + rewrite bool_decide_eq_true_2 by done. left. by exists h.
      + rewrite bool_decide_eq_false_2 by (by intros [? ?]). right; right. done.
    - destruct (awaiting_restart a); [by right; left|by right; right]. }
  destruct Hcase as [(h & Hre & ->)|[->|(-> & Hh & Hn)]]; [by eapply restart_session_ok|by eapply loop_ok_true|].
  eapply handle_frame_ok; [exact Ha|]. destruct (in_state _ _ Ha) as [Ho|Hwt]; [done|exfalso].
  destruct hello; [|specialize (Hn eq_refl); rewrite (wait_flag _ _ Hwt) in Hn; done].
  pose proof (in_restart _ _ Ha) as Hr. unfold restartable in Hr. rewrite Hh, (wait_restart _ _ Hwt) in Hr by done. done.
Qed.

(** Writing the frame the queue hands out extends the wire in stream order. *)
Lemma frames_of_removes q item q' id :
  removes q (Some item) q' →
  frames_of id (frame <$> q) = frames_of id [frame item] ++ frames_of id (frame <$> q').
Proof.
  intros Hrem. pose proof (removes_of_stream q item q' id Hrem) as Hs.
  assert (∀ l, frames_of id (frame <$> l) = frame <$> of_stream id l) as Hmap.
  { intros l. unfold frames_of, of_stream, item_stream. induction l as [|x l IH]; [done|].
    rewrite fmap_cons, !filter_cons, IH. by case_decide. }
  change [frame item] with (frame <$> [item]). by rewrite !Hmap, Hs, fmap_app.
Qed.

Lemma ordered_written prior a q' sch' w item q :
  ordered prior a → holds (scheduler a) q → (∀ id, numbered prior a q id) → removes q (Some item) q' →
  holds sch' q' → on_wire w = on_wire (sink a) ++ [frame item] →
  ordered prior (set_sink w (set_scheduler sch' a)).
Proof.
  intros Ho Hq Hnum Hrem Hq' Hw.
  assert (Hsent : sent prior (set_sink w (set_scheduler sch' a)) = sent prior a ++ [frame item]).
  { unfold sent. simpl. rewrite Hw, drop_app_le; [done|]. by apply prefix_length, ord_prior. }
  split; [apply (ord_live _ _ Ho)| | |apply (ord_session _ _ Ho)].
  - simpl. rewrite Hw. by apply prefix_app_r, ord_prior.
  - exists q'. split; [done|]. intros id. specialize (Hnum id). unfold numbered in *. rewrite Hsent.
    rewrite <-app_assoc, !frames_of_app in *. by rewrite (frames_of_removes _ _ _ id Hrem) in Hnum.
Qed.

(** The state once the queue has handed out [o]: before the write, and after it. *)
Lemma dequeue_ok prior a sch' o :
  in_session prior a → queue_dequeue (scheduler a) = (sch', o) →
  match o with
  | None => in_session prior (set_scheduler sch' a)
  | Some item =>
      ∀ w, on_wire w = on_wire (sink a) ++ [frame item] → in_session prior (set_sink w (set_scheduler sch' a))
  end.
Proof.
  intros [Hr Hp Hpl Hst] Hd. destruct Hst as [Ho|[Hf Hb (l & q & Hl & Hq & Hlen & Hs)]].
  - destruct (ord_queue _ _ Ho) as (q & Hq & Hnum).
    destruct (queue_dequeue_holds _ _ _ _ Hq Hd) as (q' & Hq' & Hrem). destruct o as [item|]; simpl in Hrem.
    + intros w Hw. split; [done..|left]. by eapply ordered_written.
    + subst q'. split; [done..|left]. destruct Ho as [H1' H2' _ H4']. split; [done|done| |done]. by exists q.
  - destruct (queue_dequeue_holds _ _ _ _ Hq Hd) as (q' & Hq' & Hrem). destruct o as [item|].
    + intros w Hw. split; [done..|right]. split; [done|done|]. exists (l ++ [frame item]), q'.
      pose proof Hrem as (l1 & l2 & -> & -> & _). rewrite length_app in Hlen. simpl in Hlen.
      assert (l1 = [] ∧ l2 = []) as [-> ->] by (split; apply nil_length_inv; lia).
      simpl. rewrite Hw, Hl, app_nil_r, <-app_assoc. split_and!; [done..|lia|]. exact Hs.
    + simpl in Hrem. subst q'. split; [done..|right]. split; [done|done|]. by exists l, q.
Qed.

Lemma write_next_ok prior a : in_session prior a → loop_ok (write_next a).
Proof.
  intros Ha. pose proof (in_session_wire _ _ Ha) as Hwa. unfold write_next.
  destruct (queue_dequeue (scheduler a)) as [sch' o] eqn:Hd.
  pose proof (dequeue_ok _ _ _ _ Ha Hd) as Hdq. destruct o as [item|]; [|by apply (loop_ok_true prior)].
  apply unless_left_ok.
  - unfold write_and_flush. cbn [sink set_scheduler].
    destruct (sink_write (frame item) (sink a)) as [w [[]|e]] eqn:Hw; apply sink_write_on_wire in Hw.
    + destruct (sink_flush w) as [w2 r] eqn:Hf. apply sink_flush_on_wire in Hf. rewrite <-Hf in Hw.
      specialize (Hdq w2 Hw). destruct r as [[]|e].
      * case_match; apply (loop_ok_true prior); [|done]. by eapply in_session_core, Hdq.
      * by eapply (recover_ok prior), in_session_wire.
    + rewrite app_nil_r in Hw. apply (recover_ok prior).
      destruct Hwa as [H1' H2' H3' H4']. split; [done|done|simpl; by rewrite Hw..].
  - intros prior1 a1 Ha1. case_match; apply (loop_ok_true prior1); [|done].
    eapply in_session_core; [apply same_core_retire_stream|done].
Qed.

Lemma iterate_ok prior i a : in_session prior a → loop_ok (iterate i a).
Proof.
  intros Ha. unfold iterate. cbv zeta.
  assert (in_session prior (expire_pings (now i) a).1) as Ha0
    by (eapply in_session_core; [apply same_core_expire_pings|done]).
  apply unless_left_ok; [by eapply take_command_ok|]. intros prior1 a1 Ha1.
  apply unless_left_ok; [by eapply take_inbound_ok|]. intros prior2 a2 Ha2.
  apply unless_left_ok; [|apply write_next_ok].
  case_match; [by eapply take_command_ok|by eapply loop_ok_true].
Qed.

Lemma run_actor_ok prior inputs a : in_session prior a → loop_ok (run_actor inputs a).
Proof.
  revert prior a. induction inputs as [|i inputs IH]; intros prior a Ha; simpl; [by eapply loop_ok_true|].
  pose proof (iterate_ok prior i a Ha) as [Hw Hc]. destruct (iterate i a) as [a1 []]; simpl in *.
  - destruct (Hc eq_refl) as [prior1 Ha1]. by eapply IH.
  - pose proof (core_wire _ _ (same_core_fail_all ConnectionError.Disconnected a1)) as (Hs & _).
    split; [|done]. unfold wire_ok in *. simpl. by rewrite Hs.
Qed.
End the_loop.

(** C19: Frames reach the wire numbered without gaps, session by session.
    Whatever commands, inbound frames, ticks, transport failures and restarts
    the actor of a fresh connection meets, with or without a restart handler:
    what it has put on the wire is the frames of its first session, followed,
    for every restart, by the handler's HELLO response and the frames of the
    new session; and the frames of a session carry, for every stream, the
    consecutive sequence numbers a peer's session insists on (from 0, from 1 on
    stream zero, whose HELLO came before), except that the last frame of a
    session may be a GOAWAY with a later number.  Without a restart handler
    there is one session and no such exception.  While the thread lives and is
    not waiting for a HELLO, its counters agree with the session's. *)
Theorem wire_is_numbered_consecutively s w c r inputs :
  (is_Some r → restart_handshakes) → handshaken s → on_wire w = [] →
  let '(a, alive) := run_actor inputs (actor_new s w c r) in
  session_wire (on_wire (sink a)) ∧
  (r = None → ∀ id, consecutive (start_sequence id) (frames_of id (on_wire (sink a)))) ∧
  (alive = true → awaiting_restart a = false → ∀ id,
     expected_sequence (session a) Direction.Outbound id = next_sequence_for a id).
Proof.
  intros Hh Hs Hw. set (b := match r with Some _ => true | None => false end).
  assert (Hb : b = true → restart_handshakes) by (intros Hb; apply Hh; by destruct r).
  assert (Ha : in_session b [] (actor_new s w c r)).
  { split; [done|by left|done|left]. by apply fresh_ordered. }
  pose proof (run_actor_ok b Hb [] inputs _ Ha) as [[Hws Hpl] Hal].
  destruct (run_actor inputs _) as [a alive]. cbn [fst snd] in *. split; [done|]. split.
  - intros ->. by apply Hpl.
  - intros Halive Haw. destruct (Hal Halive) as (prior & [_ _ _ [Ho|[Hf _ _]]]); [apply (ord_session _ _ Ho)|congruence].
Qed.

(** ** Callers that wait *)

(** The response channels the actor holds. *)
Definition entry_handles (e : StreamEntry) : list handle :=
  option_list (opener e) ++ option_list (receiver e) ++
  option_list (pending_response <$> pending_send e).

Definition held (a : Actor) : list handle :=
  ((map_to_list (actor_streams a)) ≫= (λ kv, entry_handles kv.2)) ++
  (snd <$> map_to_list (write_waiters a)) ++
  ((λ kv, ping_response kv.2) <$> map_to_list (pending_pings a)) ++
  option_list (pending_goaway a).

Definition is_failure (error : ConnectionError) (r : reply) : Prop :=
  r = UnitReply (Err error) ∨ r = IdReply (Err error) ∨ r = FrameReply (Err error).

(** A method that only sends replies. *)
Definition only_replies (m : actor_op unit) (new : list (handle * reply)) : Prop :=
  ∀ a, m a = (set_replies (replies a ++ new) a, Ok tt).

Lemma set_replies_same a : set_replies (replies a ++ []) a = a.
Proof. destruct a. unfold set_replies. simpl. by rewrite app_nil_r. Qed.

Lemma only_replies_ret : only_replies (mret tt) [].
Proof. intros a. by rewrite set_replies_same. Qed.
Lemma only_replies_bind m k l l' :
  only_replies m l → only_replies k l' → only_replies (mbnd m (λ _, k)) (l ++ l').
Proof. intros Hm Hk a. unfold mbnd. by rewrite Hm, Hk, app_assoc. Qed.
Lemma only_replies_foreach {A} (m : A → actor_op unit) (g : A → list (handle * reply)) l :
  (∀ x, only_replies (m x) (g x)) → only_replies (mforeach m l) (l ≫= g).
Proof.
  intros Hm. induction l as [|x l IH]; simpl; [apply only_replies_ret|].
  by apply only_replies_bind.
Qed.
Lemma only_replies_opt o r : only_replies (respond_opt o r) ((λ h, (h, r)) <$> option_list o).
Proof. destruct o; [done|apply only_replies_ret]. Qed.

(** What [fail_entry] sends. *)
Definition entry_failures (error : ConnectionError) (e : StreamEntry) : list (handle * reply) :=
  ((λ h, (h, IdReply (Err error))) <$> option_list (opener e)) ++
  ((λ h, (h, FrameReply (Err error))) <$> option_list (receiver e)) ++
  ((λ h, (h, UnitReply (Err error))) <$> option_list (pending_response <$> pending_send e)).

Lemma only_replies_fail_entry e error :
  only_replies (fail_entry e error) (entry_failures error e).
Proof.
  unfold fail_entry, entry_failures. repeat apply only_replies_bind; apply only_replies_opt.
Qed.

Definition failures (error : ConnectionError) (a : Actor) : list (handle * reply) :=
  ((map_to_list (actor_streams a)) ≫= (λ kv, entry_failures error kv.2)) ++
  ((map_to_list (write_waiters a)) ≫= (λ kv, [(kv.2, UnitReply (Err error))])) ++
  ((map_to_list (pending_pings a)) ≫= (λ kv, [(ping_response kv.2, UnitReply (Err error))])) ++
  ((λ h, (h, UnitReply (Err error))) <$> option_list (pending_goaway a)).

Lemma fail_entries_run error a :
  fail_entries error a =
  (set_replies (replies a ++ (map_to_list (actor_streams a) ≫= (λ kv, entry_failures error kv.2)))
     (set_actor_streams (drained <$> actor_streams a) a), Ok tt).
Proof.
  unfold fail_entries, mbnd, mget, mmodify.
  rewrite (only_replies_foreach _ (λ kv, entry_failures error kv.2)); [done|].
  intros [k e]. apply only_replies_fail_entry.
Qed.

Lemma fail_waiters_run error a :
  fail_waiters error a =
  (set_replies (replies a ++
       (map_to_list (write_waiters a) ≫= (λ kv, [(kv.2, UnitReply (Err error))])) ++
       (map_to_list (pending_pings a) ≫= (λ kv, [(ping_response kv.2, UnitReply (Err error))])))
     (set_pending_pings ∅ (set_write_waiters ∅ a)), Ok tt).
Proof.
  unfold fail_waiters, mbnd, mget, mmodify.
  rewrite (only_replies_foreach _ (λ kv, [(kv.2, UnitReply (Err error))])) by (by intros []).
  rewrite (only_replies_foreach _ (λ kv, [(ping_response kv.2, UnitReply (Err error))]))
    by (by intros []).
  by rewrite app_assoc.
Qed.

Lemma fail_all_run error a :
  replies (fail_all error a).1 = replies a ++ failures error a ∧
  actor_streams (fail_all error a).1 = drained <$> actor_streams a ∧
  write_waiters (fail_all error a).1 = ∅ ∧ pending_pings (fail_all error a).1 = ∅ ∧
  pending_goaway (fail_all error a).1 = None ∧
  connection (fail_all error a).1 = record_terminal_error error <$> connection a.
Proof.
  destruct (fail_all error a) as [a' r] eqn:Hrun. revert Hrun.
  unfold fail_all, mbnd at 1, mmodify at 1. unfold mbnd at 1. rewrite fail_entries_run.
  unfold mbnd at 1. rewrite fail_waiters_run. unfold mbnd, mget, mmodify.
  rewrite (only_replies_opt (pending_goaway _)). unfold failures. cbn.
  intros [= <- <-]. case_match; cbn; by rewrite <-!app_assoc.
Qed.

Lemma failures_fst error a : (failures error a).*1 = held a.
Proof.
  unfold failures, held. rewrite !fmap_app. f_equal; [|f_equal; [|f_equal]].
  - induction (map_to_list (actor_streams a)) as [|[k e] l IH]; [done|].
    rewrite !bind_cons, fmap_app, IH. f_equal. unfold entry_failures, entry_handles. rewrite !fmap_app.
    by rewrite <-!list_fmap_compose, !list_fmap_id.
  - induction (map_to_list (write_waiters a)) as [|[k e] l IH]; [done|].
    by rewrite bind_cons, fmap_app, fmap_cons, IH.
  - induction (map_to_list (pending_pings a)) as [|[k e] l IH]; [done|].
    by rewrite bind_cons, fmap_app, fmap_cons, IH.
  - by rewrite <-list_fmap_compose, list_fmap_id.
Qed.

Lemma failures_all error a : Forall (λ hr, is_failure error hr.2) (failures error a).
Proof.
  unfold failures, entry_failures. rewrite Forall_forall. intros [h r] Hin. simpl.
  unfold is_failure. set_solver.
Qed.

Lemma held_drained a :
  write_waiters a = ∅ → pending_pings a = ∅ → pending_goaway a = None →
  (∃ m, actor_streams a = drained <$> m) → held a = [].
Proof.
  intros Hw Hp Hg [m Hm]. unfold held. rewrite Hw, Hp, Hg, Hm, map_to_list_fmap. simpl.
  rewrite !map_to_list_empty. simpl. rewrite app_nil_r.
  by induction (map_to_list m) as [|[k e] l IH]; simpl.
Qed.

(** C32: A failing connection leaves nobody waiting.  [fail_all] sends one
    error to every response channel the actor holds (opens, receives, parked
    and queued sends, pings, the graceful shutdown) and to no other, keeps
    none, and records the first terminal error; so a thread that has ended
    holds no channel. *)
Theorem failed_connection_answers_everyone error a inputs b :
  (held (fail_all error a).1 = [] ∧
   ∃ sent, replies (fail_all error a).1 = replies a ++ sent ∧ sent.*1 = held a ∧
     Forall (λ hr, is_failure error hr.2) sent) ∧
  connection (fail_all error a).1 = record_terminal_error error <$> connection a ∧
  (run_actor inputs a = (b, false) → held b = []).
Proof.
  assert (∀ error a, held (fail_all error a).1 = []) as Hheld.
  { intros error' a'. destruct (fail_all_run error' a') as (_ & Hs & Hw & Hp & Hg & _).
    apply held_drained; eauto. }
  destruct (fail_all_run error a) as (Hr & _ & _ & _ & _ & Hc).
  split_and!; [apply Hheld| |done|].
  - exists (failures error a). auto using failures_fst, failures_all.
  - revert a Hr Hc. induction inputs as [|i inputs IH]; intros a _ _ Hrun; simpl in Hrun; [done|].
    destruct (iterate i a) as [a1 []]; [|by injection Hrun as <-].
    destruct (fail_all_run error a1) as (Hr1 & _ & _ & _ & _ & Hc1). by eapply IH.
Qed.

(** A RESET that crosses a CLOSE takes the whole connection down.  The
    session accepts and ignores a late RESET on a stream that is already
    closed, but once the CLOSE has been written the actor has retired the
    stream, [deliver] does not find it, and a connection without a restart
    handler fails for all its streams with [UnknownStream]. *)
Theorem late_reset_fails_connection f a s' :
  command (header f) = Command.Reset → restart a = None → awaiting_restart a = false →
  actor_streams a !! stream_id (header f) = None →
  process_inbound (header f) context_default (session a) = (s', Ok tt) →
  attempt (handle_inbound f) a =
    ((fail_all (ConnectionError.UnknownStream (stream_id (header f)))
        (set_session s' a)).1, false).
Proof.
  intros Hc Hr Haw Hs Hp. unfold attempt, handle_inbound, mbnd at 1, mget.
  rewrite Hr, Haw, Hc, andb_false_r. cbn [bool_decide andb negb].
  rewrite !bool_decide_eq_false_2 by done. cbn [andb negb].
  destruct (decide (Command.Reset = Command.Accept)) as [Heq|_]; [done|].
  unfold mbnd, mret, session_inbound, zoom_err. rewrite Hp. cbn [map_err].
  unfold dispatch, deliver, mbnd, mget, mlift. rewrite Hc. cbn [actor_streams set_session].
  rewrite Hs. cbn [ok_or]. by rewrite recover_none.
Qed.
End actor.
Arguments Actor : clear implicits.

(** ** Concrete runs *)

(** A sink that keeps the frames, and a small codec for the service records. *)
#[export, refine] Instance log_sink : FrameSink (list Frame) := {|
  sink_write f w := (w ++ [f], Ok tt);
  sink_flush w := (w, Ok tt);
  on_wire w := w;
|}.
Proof.
  - by intros f w w' r [= <- <-].
  - by intros w w' r [= <- <-].
Defined.

#[export] Instance sample_json : ServiceJson := {|
  open_to_vec := String.list_byte_of_string;
  open_from_slice bs := Ok (String.string_of_list_byte bs);
  accept_to_vec := to_le_bytes 4;
  accept_from_slice bs :=
    if (length bs =? 4)%nat then Ok (from_le_bytes bs) else Err "length";
|}.

Abbreviation LogActor := (Actor (list Frame) FrameScheduler unit).
Definition no_restart (u : unit) (_ : Frame) :
    unit * result ConnectionError RestartedSession := (u, Err ConnectionError.Disconnected).
Definition sample_keys (m : gmap Z StreamEntry) : list Z := (map_to_list m).*1.
Abbreviation run_log := (run_actor (W := list Frame) no_restart sample_keys u64_max).

Definition sample_inner : ConnectionInner := {| terminal_error := None; shared_generation := 0 |}.
Definition sample_actor : LogActor := actor_new sample_online [] (Some sample_inner) None.

Definition quiet : loop_input :=
  {| now := 0; from_commands := NothingYet; from_reader := NothingYet; from_idle := NothingYet |}.
Definition command_input (c : ActorCommand) : loop_input :=
  {| now := 0; from_commands := Received c; from_reader := NothingYet; from_idle := NothingYet |}.
Definition frame_input (f : Frame) : loop_input :=
  {| now := 0; from_commands := NothingYet; from_reader := Received (InboundEvent.Frame f);
     from_idle := NothingYet |}.
Definition plain_frame (c : Command) (id seq : Z) (p : bytes) : Frame :=
  {| header := with_payload_length (len p) (header_new c id seq); payload := p |}.

(** The peer opens stream 2; it is accepted, and closed from here. *)
Definition close_inputs : list loop_input :=
  [frame_input (plain_frame Command.Open 2 0 [x78]);
   command_input (ActorCommand.Accept 0 2 512 TrafficClass.Bulk 1);
   command_input (ActorCommand.Close 0 2 2)].

(** A device that accepts every HELLO. *)
Definition device_online : SessionState :=
  exec [inb Command.Hello 0 0 (context_hello 1000); out Command.Hello 0 0 (context_hello 2000)]
    (session_new (session_config_new EndpointRole.Device {| max_payload := 4096; max_window := 4096 |})).
Lemma device_handshaken : handshaken device_online.
Proof.
  intros id. unfold expected_sequence, start_sequence. simpl.
  destruct (Z.eqb_spec id 0) as [->|Hid]; [by vm_compute|].
  change (outbound_sequences device_online) with ({[0 := 1]} : gmap Z Z).
  by rewrite lookup_singleton_ne by congruence.
Qed.
Definition hello_frame : Frame := plain_frame Command.Hello 0 0 [].
Definition any_restart (n : nat) (_ : Frame) : nat * result ConnectionError RestartedSession :=
  (S n, Ok {| restarted_state := device_online; hello_response := hello_frame |}).
Abbreviation run_device := (run_actor (W := list Frame) any_restart sample_keys u64_max).
Definition device_actor : Actor (list Frame) FrameScheduler nat :=
  actor_new device_online [] (Some sample_inner) (Some 0%nat).

(** A PING is answered while another is sent; the host says GOAWAY before both are
    written, and the next host says HELLO and sends a PING. *)
Definition device_inputs : list loop_input :=
  [{| now := 0; from_commands := Received (ActorCommand.Ping 0 9 1);
      from_reader := Received (InboundEvent.Frame (plain_frame Command.Ping 0 1 [x78]));
      from_idle := NothingYet |};
   frame_input (plain_frame Command.GoAway 0 2 []);
   frame_input hello_frame;
   frame_input (plain_frame Command.Ping 0 1 [x78])].

Definition wire_summary (l : list Frame) : list (Command * Z * Z) :=
  (λ f, (command (header f), stream_id (header f), sequence (header f))) <$> l.

Lemma wire_is_numbered_consecutively_witness :
  wire_summary (sink (run_device device_inputs device_actor).1) =
    [(Command.Ping, 0, 1); (Command.GoAway, 0, 3); (Command.Hello, 0, 0); (Command.Pong, 0, 1)] ∧
  let '(a, alive) := run_device device_inputs device_actor in
  session_wire any_restart (on_wire (sink a)) ∧
  (Some 0%nat = None → ∀ id, consecutive (start_sequence id) (frames_of id (on_wire (sink a)))) ∧
  (alive = true → awaiting_restart a = false → ∀ id,
     expected_sequence (session a) Direction.Outbound id = next_sequence_for a id).
Proof.
  split; [vm_compute; reflexivity|].
  apply (wire_is_numbered_consecutively (W := list Frame) (Q := FrameScheduler) any_restart
    sample_keys u64_max device_online [] (Some sample_inner) (Some 0%nat) device_inputs).
  - intros _ h f h' restarted [= _ <-]. exact device_handshaken.
  - exact device_handshaken.
  - reflexivity.
Defined.

(** The GOAWAY with which a restartable connection answers the host's skips the
    numbers of control frames that were dropped from the queue (here the PONG,
    number 2), and the session of a host that has received everything up to then
    refuses it. *)
Theorem goaway_skips_dropped_frames :
  wire_summary (sink (run_device (take 2 device_inputs) device_actor).1) =
    [(Command.Ping, 0, 1); (Command.GoAway, 0, 3)] ∧
  let host := process_inbound (header_new Command.Ping 0 1) context_default sample_online in
  is_ok host.2 = true ∧
  is_ok (process_inbound (header_new Command.GoAway 0 3) context_default host.1).2 = false ∧
  is_ok (process_inbound (header_new Command.GoAway 0 2) context_default host.1).2 = true.
Proof. vm_compute. by repeat split. Qed.

Definition closed_actor : LogActor := (run_log close_inputs sample_actor).1.

(** The peer's RESET of stream 2, sent before it saw the CLOSE. *)
Lemma late_reset_fails_connection_witness :
  (stream closed_actor.(session) 2 ≫= λ st, Some (StreamState.phase st)) =
    Some StreamPhase.Closed ∧
  (attempt (handle_inbound no_restart sample_keys
     (plain_frame Command.Reset 2 1 [])) closed_actor).2 = false.
Proof.
  split; [vm_compute; reflexivity|].
  rewrite (late_reset_fails_connection (W := list Frame) no_restart sample_keys
    (plain_frame Command.Reset 2 1 []) closed_actor
    (process_inbound (header (plain_frame Command.Reset 2 1 [])) context_default
       (session closed_actor)).1); [reflexivity|reflexivity|vm_compute; reflexivity..].
Defined.
