(* ===== verification/DeviceSession.v ===== *)
(** * The device's end of the handshake: src/device/kindlebridged/src/server.rs

    How the device answers a HELLO, at the start of a connection
    ([negotiate_actor_session], [negotiate_usb_actor_session]) and in place, as the restart
    handler of the connection actor ([serve_actor_connection]).  Every session that comes out
    of it is one the actor of [Actor.v] can number from: this discharges what its theorems ask
    of a restart handler.  The JSON of the two HELLO messages is the class [HelloJson]. *)

From S2P Require Import Prelude Text WireFrame WireState Framing Scheduler Actor.

Definition PROTOCOL_VERSION : Z := 3.
Definition SESSION_ID_HEX_LENGTH : Z := 32.

Record HostHello : Type := {
  host_protocol_version : Z;
  host_session_id : bytes;
  host_client_name : bytes;
  host_initial_connection_window : Z;
}.
Record DeviceHello : Type := {
  device_protocol_version : Z;
  device_session_id : bytes;
  hello_serial : bytes;
  hello_model : bytes;
  hello_firmware : bytes;
  hello_target : bytes;
  hello_features : list bytes;
  device_initial_connection_window : Z;
}.

(** [is_valid_session_id]. *)
Definition is_valid_session_id (value : bytes) : bool :=
  (len value =? SESSION_ID_HEX_LENGTH) &&
  forallb (λ b, let n := Z.of_N (Byte.to_N b) in
                ((48 <=? n) && (n <=? 57)) || ((97 <=? n) && (n <=? 102))) value.

(** The fields of [ServerConfig] that the handshake reads. *)
Record ServerConfig : Type := {
  config_serial : bytes;
  config_model : bytes;
  config_firmware : bytes;
  config_target : bytes;
  connection_window : Z;
}.
Definition config_limits (c : ServerConfig) : DecodeLimits :=
  {| max_payload := connection_window c; max_window := connection_window c |}.

Definition DEVICE_RUNTIME_FEATURES : list bytes :=
  text <$> ["app.install.v1"; "app.list.v1"; "app.log.v2"; "app.restart.v1"; "app.rollback.v1";
            "app.start.v1"; "app.stop.v1"; "app.uninstall.v1"; "exec.v1"; "log.tail.v1";
            "process.list.v1"; "process.signal.v1"; "shell.v2"; "sync.v1"; "sync.tree.v1"]%string.

Class HelloJson := {
  decode_host_hello : bytes → option HostHello;
  encode_device_hello : DeviceHello → option bytes;
}.

(** [ServerError], as far as the handshake meets it. *)
Module NegotiationError.

Inductive NegotiationError : Type :=
| Transport (error : TransportError)
| Protocol (error : ProtocolError)
| Wire (error : WireError)
| Json
| InvalidPayload (label : string)
| InvalidHello
| FreshHello (frame : Frame)
| UnexpectedFrame (message : string).

End NegotiationError.
Abbreviation NegotiationError := NegotiationError.NegotiationError.

Section handshake.
Context `{HelloJson}.

Definition is_fresh_hello (f : Frame) : bool :=
  bool_decide (command (header f) = Command.Hello) && (stream_id (header f) =? 0).

Definition expect (f : Frame) (c : Command) (id : Z) : result NegotiationError unit :=
  if bool_decide (command (header f) = c) && (stream_id (header f) =? id) then Ok tt
  else if is_fresh_hello f then Err (NegotiationError.FreshHello f)
  else Err (NegotiationError.UnexpectedFrame "unexpected command or stream identifier").

Definition validate_hello (hello : HostHello) (c : ServerConfig) : result NegotiationError unit :=
  reject_if
    (negb (host_protocol_version hello =? PROTOCOL_VERSION) ||
     negb (is_valid_session_id (host_session_id hello)) ||
     bool_decide (host_client_name hello = []) ||
     (host_initial_connection_window hello =? 0) ||
     (connection_window c <? host_initial_connection_window hello))
    NegotiationError.InvalidHello.

Definition device_hello (hello : HostHello) (c : ServerConfig) : DeviceHello :=
  {| device_protocol_version := PROTOCOL_VERSION; device_session_id := host_session_id hello;
     hello_serial := config_serial c; hello_model := config_model c;
     hello_firmware := config_firmware c; hello_target := config_target c;
     hello_features := DEVICE_RUNTIME_FEATURES;
     device_initial_connection_window := connection_window c |}.

(** [prepare_actor_session]. *)
Definition prepare_actor_session (f : Frame) (c : ServerConfig) :
    result NegotiationError RestartedSession :=
  check? expect f Command.Hello 0 in
  let? hello := ok_or (decode_host_hello (payload f)) (NegotiationError.InvalidPayload "host HELLO") in
  check? validate_hello hello c in
  let state := session_new (session_config_new EndpointRole.Device (config_limits c)) in
  let '(state, r) := process_inbound (header f) (context_hello (host_initial_connection_window hello)) state in
  check? map_err NegotiationError.Protocol r in
  let? encoded := ok_or (encode_device_hello (device_hello hello c)) NegotiationError.Json in
  let? response := map_err NegotiationError.Wire (frame_new (header_new Command.Hello 0 0) encoded) in
  let '(state, r) := process_outbound (header response) (context_hello (connection_window c)) state in
  check? map_err NegotiationError.Protocol r in
  Ok {| restarted_state := state; hello_response := response |}.

(** The closure that [serve_actor_connection] gives to [Connection::start_restartable];
    [show] is [to_string] of the error. *)
Definition restart_handler (show : NegotiationError → string) (c : ServerConfig) (u : unit) (f : Frame) :
    unit * result ConnectionError RestartedSession :=
  (u, map_err (λ e, ConnectionError.Protocol (Actor.Text (show e))) (prepare_actor_session f c)).

(** ** At the start of a connection *)

(** [?] on a transport error. *)
Definition on_transport {T A} (m : M T TransportError A) : M T NegotiationError A :=
  zoom_err (λ t, t) (λ t _, t) NegotiationError.Transport m.

(** [negotiate_actor_session]. *)
Definition negotiate_actor_session {T} `{FrameIo T} (c : ServerConfig) :
    M T NegotiationError SessionState :=
  let! f := on_transport read_frame in
  let! session := mlift (prepare_actor_session f c) in
  do! on_transport (write_frame (hello_response session)) in
  do! on_transport flush_frames in
  mret (restarted_state session).

(** [transport_error_allows_in_place_restart]. *)
Definition transport_error_allows_in_place_restart (e : TransportError) : bool :=
  match e with
  | TransportError.Io _ ErrorKind.ConnectionAborted => false
  | _ =>
      match error_class e with
      | ErrorClass.Timeout | ErrorClass.Io | ErrorClass.Truncated | ErrorClass.Protocol => true
      | _ => false
      end
  end.

(** [server_error_allows_in_place_restart]. *)
Definition server_error_allows_in_place_restart (e : NegotiationError) : bool :=
  match e with
  | NegotiationError.Transport error => transport_error_allows_in_place_restart error
  | NegotiationError.Protocol _ | NegotiationError.InvalidPayload _
  | NegotiationError.UnexpectedFrame _ => true
  | _ => false
  end.

(** [recover_frame_boundary]: a loop without a bound; [None] after [rounds] of it. *)
Fixpoint recover_frame_boundary {T} `{FrameIo T} (rounds : nat) : M T NegotiationError (option unit) :=
  match rounds with
  | O => mret None
  | S rounds =>
      let! r := on_transport (mtry resynchronize) in
      match r with
      | Ok tt => mret (Some tt)
      | Err error =>
          if transport_error_allows_in_place_restart error then recover_frame_boundary rounds
          else mfail (NegotiationError.Transport error)
      end
  end.

(** [negotiate_usb_actor_session]: it discards what is left of the last host until a HELLO
    comes that is answered; [None] after [rounds] of the loop. *)
Fixpoint negotiate_usb_actor_session {T} `{FrameIo T} (rounds : nat) (c : ServerConfig) :
    M T NegotiationError (option SessionState) :=
  match rounds with
  | O => mret None
  | S rounds =>
      let again := negotiate_usb_actor_session rounds c in
      let recover := let! o := recover_frame_boundary rounds in
                     match o with
                     | None => mret None
                     | Some tt => again
                     end in
      let! r := on_transport (mtry read_frame) in
      match r with
      | Err error =>
          if transport_error_allows_in_place_restart error then recover
          else mfail (NegotiationError.Transport error)
      | Ok f =>
          if negb (is_fresh_hello f) then again else
          match prepare_actor_session f c with
          | Err error =>
              if server_error_allows_in_place_restart error then again else mfail error
          | Ok session =>
              let! r := on_transport (mtry (do! write_frame (hello_response session) in flush_frames)) in
              match r with
              | Ok tt => mret (Some (restarted_state session))
              | Err error =>
                  if transport_error_allows_in_place_restart error then recover
                  else mfail (NegotiationError.Transport error)
              end
          end
      end
  end.

(** ** Properties *)

(** What [prepare_actor_session] has checked and made. *)
Lemma prepare_inv f c session :
  prepare_actor_session f c = Ok session →
  ∃ hello s1, is_fresh_hello f = true ∧ decode_host_hello (payload f) = Some hello ∧
    validate_hello hello c = Ok tt ∧
    process_inbound (header f) (context_hello (host_initial_connection_window hello))
      (session_new (session_config_new EndpointRole.Device (config_limits c))) = (s1, Ok tt) ∧
    process_outbound (header (hello_response session)) (context_hello (connection_window c)) s1 =
      (restarted_state session, Ok tt) ∧
    command (header (hello_response session)) = Command.Hello ∧
    stream_id (header (hello_response session)) = 0 ∧ sequence (header (hello_response session)) = 0 ∧
    Some (payload (hello_response session)) = encode_device_hello (device_hello hello c).
Proof.
  unfold prepare_actor_session. intros Hp.
  apply result_bind_ok in Hp as ([] & He & Hp). apply result_bind_ok in Hp as (hello & Hd%ok_or_ok & Hp).
  apply result_bind_ok in Hp as ([] & Hv & Hp).
  destruct (process_inbound _ _ _) as [s1 r1] eqn:Hin. apply result_bind_ok in Hp as ([] & ->%map_err_ok & Hp).
  apply result_bind_ok in Hp as (bs & Hbs%ok_or_ok & Hp). apply result_bind_ok in Hp as (response & Hr%map_err_ok & Hp).
  destruct (process_outbound _ _ _) as [s2 r2] eqn:Hout. apply result_bind_ok in Hp as ([] & ->%map_err_ok & Hp).
  injection Hp as <-. unfold frame_new in Hr. apply result_bind_ok in Hr as (n & _ & [= <-]).
  exists hello, s1. split_and!; try done.
  unfold expect in He. fold (is_fresh_hello f) in He. by destruct (is_fresh_hello f).
Qed.

Lemma prepared_is_handshaken f c session :
  prepare_actor_session f c = Ok session → handshaken (restarted_state session).
Proof.
  intros (hello & s1 & _ & _ & _ & Hin & Hout & _ & Hid & Hseq & _)%prepare_inv.
  apply process_expected_sequence in Hin as (_ & _ & _ & _ & Hin).
  apply process_expected_sequence in Hout as (_ & _ & Hown & Hother & _). rewrite Hid, Hseq in *.
  intros id. unfold start_sequence. destruct (Z.eqb_spec id 0) as [->|Hne]; [rewrite Hown; by vm_compute|].
  rewrite Hother by done. specialize (Hin id). cbn [opposite] in Hin. rewrite Hin.
  unfold expected_sequence. simpl. by rewrite lookup_empty.
Qed.

(** The device's restart handler keeps what [wire_is_numbered_consecutively] asks of one. *)
Theorem device_restart_handshakes show c : restart_handshakes (restart_handler show c).
Proof.
  intros u f u' restarted [= _ Hp%map_err_ok]. by eapply prepared_is_handshaken.
Qed.

(** A session that [negotiate_usb_actor_session] returns was prepared for a HELLO it has read,
    and its answer was written and flushed. *)
Theorem negotiated_session_was_announced {T} `{FrameIo T} rounds c (t t' : T) state :
  negotiate_usb_actor_session rounds c t = (t', Ok (Some state)) →
  handshaken state ∧
  ∃ f session t1, prepare_actor_session f c = Ok session ∧ state = restarted_state session ∧
    (do! write_frame (hello_response session) in flush_frames) t1 = (t', Ok tt).
Proof.
  revert t. induction rounds as [|rounds IH]; intros t; [done|]. cbn [negotiate_usb_actor_session].
  assert (Hrec : ∀ t, (let! o := recover_frame_boundary rounds in
      match o with None => mret None | Some tt => negotiate_usb_actor_session rounds c end) t =
      (t', Ok (Some state)) → handshaken state ∧
    ∃ f session t1, prepare_actor_session f c = Ok session ∧ state = restarted_state session ∧
      (do! write_frame (hello_response session) in flush_frames) t1 = (t', Ok tt)).
  { intros t0 (t1 & [[]|] & _ & Hr)%mbnd_ok; [by eapply IH|done]. }
  intros (t1 & r & _ & Hr)%mbnd_ok. destruct r as [f|error]; [|case_match; [by eapply Hrec|done]].
  destruct (is_fresh_hello f); cbn [negb] in Hr; [|by eapply IH].
  destruct (prepare_actor_session f c) as [session|e] eqn:Hp; [|case_match; [by eapply IH|done]].
  apply mbnd_ok in Hr as (t2 & r & Hw & Hr). destruct r as [[]|error]; [|case_match; [by eapply Hrec|done]].
  injection Hr as -> <-. split; [by eapply prepared_is_handshaken|]. exists f, session, t1.
  split; [done|]. split; [done|]. unfold on_transport, zoom_err, mtry in Hw. cbv beta in Hw.
  destruct ((do! _ in flush_frames) t1) as [t3 r3]. injection Hw as -> Hw. cbn in Hw. congruence.
Qed.
End handshake.

(** ** A HELLO that is answered *)
Module SampleHello.

Definition any_hello : HostHello :=
  {| host_protocol_version := 3; host_session_id := replicate 32 x61; host_client_name := text "kb";
     host_initial_connection_window := 1000 |}.
#[local] Instance hello_json : HelloJson :=
  {| decode_host_hello bs := if bool_decide (bs = text "hello") then Some any_hello else None;
     encode_device_hello _ := Some (text "device") |}.
Definition server_config : ServerConfig :=
  {| config_serial := []; config_model := []; config_firmware := []; config_target := [];
     connection_window := 4096 |}.
Definition hello (seq : Z) : Frame := plain_frame Command.Hello 0 seq (text "hello").

Example hello_is_answered :
  is_ok (prepare_actor_session (hello 0) server_config) = true ∧
  is_ok (prepare_actor_session (hello 1) server_config) = false ∧
  is_ok (prepare_actor_session (plain_frame Command.Ping 0 0 []) server_config) = false.
Proof. by vm_compute. Qed.

End SampleHello.
