(* ===== verification/ShellProtocol.v ===== *)
(** * Shell packets: src/crates/kindlebridge-schema/src/shell_protocol.rs

    The packets of a [shell.v2] stream, one per DATA frame, their encoding, and
    [ShellStreamState], the order in which they may appear. *)

From S2P Require Import Prelude WireFrame.

Definition MAX_SHELL_PACKET_PAYLOAD : Z := 16 * 1024.
Definition HEADER_LENGTH : nat := 5.
Definition USB_ALIGNED_SHELL_PACKET_PAYLOAD : Z :=
  16 * 1024 - Z.of_nat HEADER_LEN - Z.of_nat HEADER_LENGTH.

Module PacketSource.

Inductive PacketSource : Type := Host | Device.

End PacketSource.
Abbreviation PacketSource := PacketSource.PacketSource.

(** device_protocol.rs. *)
Module ShellMode.

Inductive ShellMode : Type := Pty | Raw.

End ShellMode.
Abbreviation ShellMode := ShellMode.ShellMode.

#[export] Instance ShellMode_eq_dec : EqDecision ShellMode.
Proof. solve_decision. Defined.

Record TerminalSize : Type := {
  rows : Z;
  columns : Z;
  pixel_width : Z;
  pixel_height : Z;
}.

(** [TerminalSize::is_valid]. *)
Definition terminal_size_is_valid (s : TerminalSize) : bool :=
  negb (rows s =? 0) && negb (columns s =? 0).

Record ShellExit : Type := {
  exit_code : Z;
  signal : Z;
}.

Module ShellPacket.

Inductive ShellPacket : Type :=
| Stdin (data : bytes)
| Stdout (data : bytes)
| Stderr (data : bytes)
| Exit (status : ShellExit)
| CloseStdin
| Resize (size : TerminalSize).

End ShellPacket.
Abbreviation ShellPacket := ShellPacket.ShellPacket.

Module ShellPacketError.

Inductive ShellPacketError : Type :=
| HeaderTooShort (actual : Z)
| UnknownKind (kind : Z)
| InvalidDirection (kind : Z)
| LengthMismatch (declared actual : Z)
| PayloadTooLarge (length maximum : Z)
| InvalidPayloadLength (kind expected actual : Z)
| InvalidTerminalSize.

End ShellPacketError.
Abbreviation ShellPacketError := ShellPacketError.ShellPacketError.

Module ShellStreamError.

Inductive ShellStreamError : Type := InputClosed | AfterExit | StderrForPty | ResizeForRaw.

End ShellStreamError.
Abbreviation ShellStreamError := ShellStreamError.ShellStreamError.

(** ** Encoding *)

(** [i32::to_le_bytes] and [i32::from_le_bytes]: two's complement. *)
Definition i32_to_le_bytes (z : Z) : bytes := to_le_bytes 4 (z mod 2 ^ 32).
Definition i32_from_le_bytes (bs : bytes) : Z :=
  let v := from_le_bytes bs in if v <? 2 ^ 31 then v else v - 2 ^ 32.
Definition i32 (z : Z) : Prop := - 2 ^ 31 ≤ z < 2 ^ 31.

Definition validate_direction (kind : Z) (source : PacketSource) :
    result ShellPacketError unit :=
  let valid :=
    match source with
    | PacketSource.Host => (kind =? 0) || (kind =? 4) || (kind =? 5)
    | PacketSource.Device => (1 <=? kind) && (kind <=? 3)
    end in
  reject_if (negb valid) (ShellPacketError.InvalidDirection kind).

Definition validate_payload_length (length : Z) : result ShellPacketError unit :=
  reject_if (negb (length <=? MAX_SHELL_PACKET_PAYLOAD))
    (ShellPacketError.PayloadTooLarge length MAX_SHELL_PACKET_PAYLOAD).

Definition require_length (kind : Z) (payload : bytes) (expected : Z) :
    result ShellPacketError unit :=
  reject_if (negb (len payload =? expected))
    (ShellPacketError.InvalidPayloadLength kind expected (len payload)).

Definition validate_terminal_size (size : TerminalSize) : result ShellPacketError unit :=
  reject_if (negb (terminal_size_is_valid size)) ShellPacketError.InvalidTerminalSize.

(** The kind byte and payload of a packet. *)
Definition packet_parts (p : ShellPacket) : result ShellPacketError (Z * bytes) :=
  match p with
  | ShellPacket.Stdin data => Ok (0, data)
  | ShellPacket.Stdout data => Ok (1, data)
  | ShellPacket.Stderr data => Ok (2, data)
  | ShellPacket.Exit status =>
      Ok (3, i32_to_le_bytes (exit_code status) ++ to_le_bytes 4 (signal status))
  | ShellPacket.CloseStdin => Ok (4, [])
  | ShellPacket.Resize size =>
      check? validate_terminal_size size in
      Ok (5, to_le_bytes 2 (rows size) ++ to_le_bytes 2 (columns size) ++
             to_le_bytes 2 (pixel_width size) ++ to_le_bytes 2 (pixel_height size))
  end.

(** [ShellPacket::encode]. *)
Definition packet_encode (p : ShellPacket) : result ShellPacketError bytes :=
  let? parts := packet_parts p in
  let '(kind, payload) := parts in
  check? validate_payload_length (len payload) in
  Ok (byte.of_Z kind :: to_le_bytes 4 (len payload) ++ payload).

(** The [match kind] of [ShellPacket::decode]. *)
Definition decode_body (kind : Z) (payload : bytes) : result ShellPacketError ShellPacket :=
  match kind with
  | 0 => Ok (ShellPacket.Stdin payload)
  | 1 => Ok (ShellPacket.Stdout payload)
  | 2 => Ok (ShellPacket.Stderr payload)
  | 3 =>
      check? require_length kind payload 8 in
      Ok (ShellPacket.Exit
            {| exit_code := i32_from_le_bytes (slice 0 4 payload);
               signal := from_le_bytes (slice 4 8 payload) |})
  | 4 =>
      check? require_length kind payload 0 in
      Ok ShellPacket.CloseStdin
  | _ =>
      check? require_length kind payload 8 in
      let size := {| rows := from_le_bytes (slice 0 2 payload);
                     columns := from_le_bytes (slice 2 4 payload);
                     pixel_width := from_le_bytes (slice 4 6 payload);
                     pixel_height := from_le_bytes (slice 6 8 payload) |} in
      check? validate_terminal_size size in
      Ok (ShellPacket.Resize size)
  end.

(** [ShellPacket::decode]. *)
Definition packet_decode (encoded : bytes) (source : PacketSource) :
    result ShellPacketError ShellPacket :=
  check? reject_if (len encoded <? Z.of_nat HEADER_LENGTH)
           (ShellPacketError.HeaderTooShort (len encoded)) in
  let kind := byte.unsigned (hd x00 encoded) in
  check? reject_if (kind >? 5) (ShellPacketError.UnknownKind kind) in
  check? validate_direction kind source in
  let declared := from_le_bytes (slice 1 5 encoded) in
  check? validate_payload_length declared in
  let payload := drop HEADER_LENGTH encoded in
  check? reject_if (negb (declared =? len payload))
           (ShellPacketError.LengthMismatch declared (len payload)) in
  decode_body kind payload.

(** ** The stream *)

Record ShellStreamState : Type := {
  mode : ShellMode;
  input_open : bool;
  exit : option ShellExit;
}.

(** [ShellStreamState::new]. *)
Definition shell_stream_new (m : ShellMode) : ShellStreamState :=
  {| mode := m; input_open := true; exit := None |}.

(** [ShellStreamState::accept]. *)
Definition accept (packet : ShellPacket) : M ShellStreamState ShellStreamError unit := λ self,
  match exit self with
  | Some _ => (self, Err ShellStreamError.AfterExit)
  | None =>
      match packet with
      | ShellPacket.Stdin _ =>
          if negb (input_open self) then (self, Err ShellStreamError.InputClosed) else (self, Ok tt)
      | ShellPacket.CloseStdin =>
          if negb (input_open self) then (self, Err ShellStreamError.InputClosed)
          else ({| mode := mode self; input_open := false; exit := exit self |}, Ok tt)
      | ShellPacket.Stderr _ =>
          if bool_decide (mode self = ShellMode.Pty)
          then (self, Err ShellStreamError.StderrForPty) else (self, Ok tt)
      | ShellPacket.Resize _ =>
          if bool_decide (mode self = ShellMode.Raw)
          then (self, Err ShellStreamError.ResizeForRaw) else (self, Ok tt)
      | ShellPacket.Exit status =>
          ({| mode := mode self; input_open := input_open self; exit := Some status |}, Ok tt)
      | _ => (self, Ok tt)
      end
  end.

(** ** Packets round trip *)

(** The values a packet can hold in Rust. *)
Definition packet_ok (p : ShellPacket) : Prop :=
  match p with
  | ShellPacket.Exit status => i32 (exit_code status) ∧ u32 (signal status)
  | ShellPacket.Resize size =>
      u16 (rows size) ∧ u16 (columns size) ∧ u16 (pixel_width size) ∧ u16 (pixel_height size)
  | _ => True
  end.

(** Which endpoint may send a packet. *)
Definition may_send (source : PacketSource) (p : ShellPacket) : bool :=
  match source, p with
  | PacketSource.Host, (ShellPacket.Stdin _ | ShellPacket.CloseStdin | ShellPacket.Resize _) =>
      true
  | PacketSource.Device, (ShellPacket.Stdout _ | ShellPacket.Stderr _ | ShellPacket.Exit _) =>
      true
  | _, _ => false
  end.

Lemma i32_roundtrip z : i32 z → i32_from_le_bytes (i32_to_le_bytes z) = z.
Proof.
  intros Hz. unfold i32 in Hz. unfold i32_from_le_bytes, i32_to_le_bytes.
  rewrite from_to_le_bytes by (apply Z.mod_pos_bound; done).
  destruct (decide (0 ≤ z)).
  - rewrite Z.mod_small by lia. case_match eqn:Hlt; lia.
  - rewrite <-(Z.mod_unique z (2 ^ 32) (-1) (z + 2 ^ 32)) by lia. case_match eqn:Hlt; lia.
Qed.

Lemma i32_from_range bs : length bs = 4%nat → i32 (i32_from_le_bytes bs).
Proof.
  intros Hl. pose proof (from_le_u32 bs Hl) as [H1 H2]. unfold u32_max in H2.
  unfold i32, i32_from_le_bytes. case_match eqn:Hlt; lia.
Qed.

Lemma i32_to_from bs : length bs = 4%nat → i32_to_le_bytes (i32_from_le_bytes bs) = bs.
Proof.
  intros Hl. pose proof (from_le_u32 bs Hl) as [H1 H2]. unfold u32_max in H2.
  unfold i32_to_le_bytes, i32_from_le_bytes.
  assert ((if from_le_bytes bs <? 2 ^ 31 then from_le_bytes bs else from_le_bytes bs - 2 ^ 32)
    mod 2 ^ 32 = from_le_bytes bs) as ->.
  { case_match; [by apply Z.mod_small; lia|].
    symmetry. apply (Z.mod_unique _ _ (-1)); lia. }
  by apply to_from_le_bytes.
Qed.

(** Fixed-width fields, byte by byte. *)
Lemma le_bytes_2 z : u16 z → ∃ a b, to_le_bytes 2 z = [a; b] ∧ from_le_bytes [a; b] = z.
Proof.
  intros Hz. pose proof (length_to_le_bytes 2 z) as Hl. pose proof (from_to_le_u16 z Hz) as Hf.
  destruct (to_le_bytes 2 z) as [|a [|b [|]]]; [done..|eauto|done].
Qed.
Lemma le_bytes_4 z : u32 z → ∃ a b c d,
  to_le_bytes 4 z = [a; b; c; d] ∧ from_le_bytes [a; b; c; d] = z.
Proof.
  intros Hz. pose proof (length_to_le_bytes 4 z) as Hl. pose proof (from_to_le_u32 z Hz) as Hf.
  destruct (to_le_bytes 4 z) as [|a [|b [|c [|d [|]]]]]; [done..|eauto 10|done].
Qed.
Lemma le_bytes_i32 z : i32 z → ∃ a b c d,
  i32_to_le_bytes z = [a; b; c; d] ∧ i32_from_le_bytes [a; b; c; d] = z.
Proof.
  intros Hz. pose proof (length_to_le_bytes 4 (z mod 2 ^ 32)) as Hl.
  pose proof (i32_roundtrip z Hz) as Hf. unfold i32_to_le_bytes in *.
  destruct (to_le_bytes 4 _) as [|a [|b [|c [|d [|]]]]]; [done..|eauto 10|done].
Qed.

(** The packets without their framing. *)
Lemma body_roundtrip p kind payload :
  packet_ok p → packet_parts p = Ok (kind, payload) →
  decode_body kind payload = Ok p ∧ 0 ≤ kind ≤ 5 ∧
  ∀ source, validate_direction kind source =
    if may_send source p then Ok tt else Err (ShellPacketError.InvalidDirection kind).
Proof.
  intros Hok Hp.
  assert (0 ≤ kind ≤ 5 ∧ ∀ source, validate_direction kind source =
    if may_send source p then Ok tt else Err (ShellPacketError.InvalidDirection kind)) as Hdir.
  { destruct p; simpl in Hp; result_inv; simplify_eq; (split; [lia|by intros []]). }
  split; [|exact Hdir].
  destruct p as [d|d|d|[code sig]| |[r c w h]]; cbn [packet_parts] in Hp;
    [by simplify_eq..| |by simplify_eq|].
  - destruct Hok as [Hcode Hsig]. cbn [exit_code signal] in *.
    assert (kind = 3) as -> by congruence.
    assert (payload = i32_to_le_bytes code ++ to_le_bytes 4 sig) as -> by congruence.
    destruct (le_bytes_i32 _ Hcode) as (? & ? & ? & ? & -> & Hf1).
    destruct (le_bytes_4 _ Hsig) as (? & ? & ? & ? & -> & Hf2).
    unfold decode_body. cbn. by rewrite Hf1, Hf2.
  - apply result_bind_ok in Hp as ([] & Hv & Hp).
    cbn [rows columns pixel_width pixel_height] in *. destruct Hok as (Hr & Hc & Hw & Hh).
    cbn [rows columns pixel_width pixel_height] in *.
    assert (kind = 5) as -> by congruence.
    assert (payload = to_le_bytes 2 r ++ to_le_bytes 2 c ++ to_le_bytes 2 w ++ to_le_bytes 2 h)
      as -> by congruence.
    destruct (le_bytes_2 _ Hr) as (? & ? & -> & Hf1).
    destruct (le_bytes_2 _ Hc) as (? & ? & -> & Hf2).
    destruct (le_bytes_2 _ Hw) as (? & ? & -> & Hf3).
    destruct (le_bytes_2 _ Hh) as (? & ? & -> & Hf4).
    unfold decode_body. cbn [app require_length reject_if len length result_bind negb
      slice take drop Nat.sub].
    change (Z.of_nat 8 =? 8) with true. cbn [negb reject_if result_bind].
    by rewrite Hf1, Hf2, Hf3, Hf4, Hv.
Qed.

Lemma unsigned_of_Z_small z : 0 ≤ z < 256 → byte.unsigned (byte.of_Z z) = z.
Proof. intros Hz. rewrite byte.unsigned_of_Z. apply Z.mod_small. lia. Qed.

(** What surrounds a body. *)
Lemma decode_framed kind payload source :
  0 ≤ kind ≤ 5 → len payload ≤ MAX_SHELL_PACKET_PAYLOAD →
  packet_decode (byte.of_Z kind :: to_le_bytes 4 (len payload) ++ payload) source =
  check? validate_direction kind source in decode_body kind payload.
Proof.
  intros Hk Hlen. pose proof (len_nonneg payload).
  unfold packet_decode. cbn [hd]. rewrite (unsigned_of_Z_small kind) by lia.
  destruct (le_bytes_4 (len payload)) as (a & b & c & d & -> & Hf).
  { unfold MAX_SHELL_PACKET_PAYLOAD, in_range, u32_max in *. lia. }
  destruct (_ <? Z.of_nat HEADER_LENGTH) eqn:Hshort.
  { unfold len, HEADER_LENGTH in Hshort. cbn [app length] in Hshort. apply Z.ltb_lt in Hshort. lia. }
  cbn [reject_if result_bind]. destruct (kind >? 5) eqn:?; [lia|]. cbn [reject_if result_bind].
  change (slice 1 5 (byte.of_Z kind :: [a; b; c; d] ++ payload)) with [a; b; c; d].
  change (drop HEADER_LENGTH (byte.of_Z kind :: [a; b; c; d] ++ payload)) with payload.
  rewrite Hf.
  unfold validate_payload_length at 1. rewrite (proj2 (Z.leb_le _ _)) by done.
  rewrite Z.eqb_refl. by cbn [negb reject_if result_bind].
Qed.

Lemma packet_encode_inv p bs :
  packet_encode p = Ok bs ↔
  ∃ kind payload, packet_parts p = Ok (kind, payload) ∧
    len payload ≤ MAX_SHELL_PACKET_PAYLOAD ∧
    bs = byte.of_Z kind :: to_le_bytes 4 (len payload) ++ payload.
Proof.
  unfold packet_encode. rewrite result_bind_ok. split.
  - intros ([kind payload] & Hp & Henc). apply result_bind_ok in Henc as ([] & Hl & Henc).
    unfold validate_payload_length in Hl. apply reject_if_ok, negb_false_iff in Hl.
    exists kind, payload. split_and!; [done|lia|congruence].
  - intros (kind & payload & Hp & Hl & ->). exists (kind, payload). split; [done|].
    unfold validate_payload_length. by rewrite (proj2 (Z.leb_le _ _)).
Qed.

Lemma packet_decode_encoded p bs source :
  packet_ok p → packet_encode p = Ok bs →
  packet_decode bs source =
    if may_send source p then Ok p
    else Err (ShellPacketError.InvalidDirection (byte.unsigned (hd x00 bs))).
Proof.
  intros Hok (kind & payload & Hp & Hl & ->)%packet_encode_inv.
  destruct (body_roundtrip p kind payload Hok Hp) as (Hb & Hk & Hd).
  rewrite decode_framed, Hd by done. cbn [hd].
  rewrite (unsigned_of_Z_small kind) by lia.
  destruct (may_send source p); [exact Hb|done].
Qed.

Lemma require_length_ok kind payload n :
  require_length kind payload (Z.of_nat n) = Ok tt → length payload = n.
Proof. unfold require_length. rewrite reject_if_ok, negb_false_iff. unfold len. lia. Qed.

Lemma body_canonical kind payload p :
  0 ≤ kind ≤ 5 → decode_body kind payload = Ok p →
  packet_parts p = Ok (kind, payload) ∧ packet_ok p.
Proof.
  intros Hk Hb.
  assert (kind = 0 ∨ kind = 1 ∨ kind = 2 ∨ kind = 3 ∨ kind = 4 ∨ kind = 5) as Hc by lia.
  destruct Hc as [->|[->|[->|[->|[->| ->]]]]]; cbn [decode_body] in Hb;
    try (injection Hb as <-; done).
  - apply result_bind_ok in Hb as ([] & Hl%(require_length_ok _ _ 8) & Hb).
    destruct payload as [|a [|b [|c [|d [|e [|f [|g [|h [|]]]]]]]]]; try done.
    change (slice 0 4 [a; b; c; d; e; f; g; h]) with [a; b; c; d] in Hb.
    change (slice 4 8 [a; b; c; d; e; f; g; h]) with [e; f; g; h] in Hb.
    assert (p = ShellPacket.Exit {| exit_code := i32_from_le_bytes [a; b; c; d];
      signal := from_le_bytes [e; f; g; h] |}) as -> by congruence.
    cbn [packet_parts packet_ok exit_code signal].
    rewrite i32_to_from, (to_from_le_bytes 4) by done. split; [done|].
    split; [by apply i32_from_range|by apply from_le_u32].
  - apply result_bind_ok in Hb as ([] & Hl%(require_length_ok _ _ 0) & Hb).
    destruct payload; [|done]. by injection Hb as <-.
  - apply result_bind_ok in Hb as ([] & Hl%(require_length_ok _ _ 8) & Hb).
    destruct payload as [|a [|b [|c [|d [|e [|f [|g [|h [|]]]]]]]]]; try done.
    change (slice 0 2 [a; b; c; d; e; f; g; h]) with [a; b] in Hb.
    change (slice 2 4 [a; b; c; d; e; f; g; h]) with [c; d] in Hb.
    change (slice 4 6 [a; b; c; d; e; f; g; h]) with [e; f] in Hb.
    change (slice 6 8 [a; b; c; d; e; f; g; h]) with [g; h] in Hb. cbv zeta in Hb.
    apply result_bind_ok in Hb as ([] & Hv & Hb).
    assert (p = ShellPacket.Resize {| rows := from_le_bytes [a; b];
      columns := from_le_bytes [c; d]; pixel_width := from_le_bytes [e; f];
      pixel_height := from_le_bytes [g; h] |}) as -> by congruence.
    cbn [packet_parts]. rewrite Hv. cbn [result_bind rows columns pixel_width pixel_height].
    rewrite !(to_from_le_bytes 2) by done. split; [done|].
    repeat split; by apply from_le_u16.
Qed.

Lemma validate_direction_may_send kind payload p source :
  packet_parts p = Ok (kind, payload) → validate_direction kind source = Ok tt →
  may_send source p = true.
Proof.
  destruct p; cbn [packet_parts]; intros Hp; result_inv; intros Hd;
    simplify_eq; by destruct source.
Qed.

Lemma packet_encode_decoded bs source p :
  packet_decode bs source = Ok p →
  packet_encode p = Ok bs ∧ packet_ok p ∧ may_send source p = true.
Proof.
  unfold packet_decode. intros Hd.
  apply result_bind_ok in Hd as ([] & Hshort%reject_if_ok & Hd).
  apply result_bind_ok in Hd as ([] & Hk%reject_if_ok & Hd).
  apply result_bind_ok in Hd as ([] & Hdir & Hd).
  apply result_bind_ok in Hd as ([] & Hmax & Hd).
  apply result_bind_ok in Hd as ([] & Hlen%reject_if_ok & Hd).
  unfold validate_payload_length in Hmax. apply reject_if_ok in Hmax.
  rewrite negb_false_iff in Hlen, Hmax.
  destruct bs as [|k [|a [|b [|c [|d payload]]]]]; try (by unfold len in Hshort).
  change (slice 1 5 (k :: a :: b :: c :: d :: payload)) with [a; b; c; d] in *.
  change (drop HEADER_LENGTH (k :: a :: b :: c :: d :: payload)) with payload in *.
  cbn [hd] in *. pose proof (byte.unsigned_range k) as Hr.
  apply body_canonical in Hd as [Hp Hok]; [|lia]. split_and!.
  - apply packet_encode_inv. exists (byte.unsigned k), payload. split_and!; [done|lia|].
    assert (len payload = from_le_bytes [a; b; c; d]) as -> by lia.
    rewrite (to_from_le_bytes 4) by done. by rewrite byte.of_Z_unsigned.
  - done.
  - by eapply validate_direction_may_send.
Qed.

(** Shell packets have one encoding.  A byte string decodes to a packet
    exactly when it is that packet's encoding and the packet may come from that
    endpoint; an encoded packet that comes from the wrong endpoint is refused
    with its kind. *)
Theorem shell_packet_roundtrip p bs source :
  packet_ok p →
  (packet_decode bs source = Ok p ↔ packet_encode p = Ok bs ∧ may_send source p = true) ∧
  (packet_encode p = Ok bs → may_send source p = false →
   packet_decode bs source =
     Err (ShellPacketError.InvalidDirection (byte.unsigned (hd x00 bs)))).
Proof.
  intros Hok. split; [split|].
  - intros (? & _ & ?)%packet_encode_decoded. done.
  - intros [Henc Hs]. rewrite (packet_decode_encoded _ _ _ Hok Henc). by rewrite Hs.
  - intros Henc Hs. rewrite (packet_decode_encoded _ _ _ Hok Henc). by rewrite Hs.
Qed.

(** ** The order of packets *)

Fixpoint accept_all (ps : list ShellPacket) : M ShellStreamState ShellStreamError unit :=
  match ps with
  | [] => mret tt
  | p :: ps => do! accept p in accept_all ps
  end.

Definition is_exit (p : ShellPacket) : Prop := match p with ShellPacket.Exit _ => True | _ => False end.
#[export] Instance is_exit_dec p : Decision (is_exit p).
Proof. destruct p; simpl; apply _. Defined.
Definition is_stdin (p : ShellPacket) : Prop :=
  match p with ShellPacket.Stdin _ | ShellPacket.CloseStdin => True | _ => False end.
Definition allowed_in (m : ShellMode) (p : ShellPacket) : Prop :=
  match m, p with
  | ShellMode.Pty, ShellPacket.Stderr _ => False
  | ShellMode.Raw, ShellPacket.Resize _ => False
  | _, _ => True
  end.

(** A conversation: nothing follows the exit, no input follows the end of
    input, and every packet fits the mode. *)
Definition well_ordered (m : ShellMode) (ps : list ShellPacket) : Prop :=
  Forall (allowed_in m) ps ∧
  (∀ l p r, ps = l ++ p :: r → is_exit p → r = []) ∧
  (∀ l r, ps = l ++ ShellPacket.CloseStdin :: r → Forall (λ p, ¬ is_stdin p) r).

(** The state a conversation ends in. *)
Definition ending (m : ShellMode) (ps : list ShellPacket) : ShellStreamState :=
  {| mode := m;
     input_open := forallb (λ p, match p with ShellPacket.CloseStdin => false | _ => true end) ps;
     exit := match last ps with Some (ShellPacket.Exit status) => Some status | _ => None end |}.

Lemma well_ordered_snoc m ps p :
  well_ordered m (ps ++ [p]) ↔
  well_ordered m ps ∧ allowed_in m p ∧ Forall (λ x, ¬ is_exit x) ps ∧
  (is_stdin p → ShellPacket.CloseStdin ∉ ps).
Proof.
  unfold well_ordered. rewrite Forall_app, Forall_singleton. split.
  - intros ([Hps Hp] & Hexit & Hclose). split_and!; try done.
    + intros l x r -> Hx. specialize (Hexit l x (r ++ [p])).
      rewrite <-app_assoc in Hexit. specialize (Hexit eq_refl Hx). by destruct r.
    + intros l r ->. specialize (Hclose l (r ++ [p])). rewrite <-app_assoc in Hclose.
      specialize (Hclose eq_refl). by apply Forall_app in Hclose as [? _].
    + apply Forall_forall. intros x Hx Hexitx. apply list_elem_of_split in Hx as (l & r & ->).
      specialize (Hexit l x (r ++ [p])). rewrite <-app_assoc in Hexit.
      specialize (Hexit eq_refl Hexitx). by destruct r.
    + intros Hstdin Hin. apply list_elem_of_split in Hin as (l & r & ->).
      specialize (Hclose l (r ++ [p])). rewrite <-app_assoc in Hclose.
      specialize (Hclose eq_refl). apply Forall_app in Hclose as [_ Hc].
      rewrite Forall_singleton in Hc. exact (Hc Hstdin).
  - intros ((Hps & Hexit & Hclose) & Hp & Hno & Hstdin). split_and!; try done.
    + intros l x r Heq Hx. destruct r as [|y r _] using rev_ind; [done|exfalso].
      rewrite app_comm_cons, app_assoc in Heq. apply app_inj_tail in Heq as [-> _].
      rewrite Forall_forall in Hno. apply (Hno x); [set_solver|done].
    + intros l r Heq. destruct r as [|y r _] using rev_ind; [done|].
      rewrite app_comm_cons, app_assoc in Heq. apply app_inj_tail in Heq as [-> ->].
      apply Forall_app. split; [by eapply Hclose|]. rewrite Forall_singleton.
      intros Hy. apply Hstdin; [done|]. set_solver.
Qed.

Lemma forallb_open ps :
  forallb (λ p, match p with ShellPacket.CloseStdin => false | _ => true end) ps = true ↔
  ShellPacket.CloseStdin ∉ ps.
Proof.
  induction ps as [|p ps IH]; simpl; [set_solver|].
  rewrite andb_true_iff, IH, not_elem_of_cons. destruct p; naive_solver.
Qed.

Lemma ending_no_exit m ps : Forall (λ x, ¬ is_exit x) ps → exit (ending m ps) = None.
Proof.
  intros Hno. unfold ending. simpl. destruct (last ps) as [p|] eqn:Hl; [|done].
  apply last_Some in Hl as [l ->]. rewrite Forall_app, Forall_singleton in Hno.
  destruct Hno as [_ Hno]. by destruct p.
Qed.

Lemma ending_exit m ps :
  well_ordered m ps → ¬ Forall (λ x, ¬ is_exit x) ps → is_Some (exit (ending m ps)).
Proof.
  intros (_ & Hexit & _) Hno. apply not_Forall_Exists in Hno; [|apply _].
  apply Exists_exists in Hno as (p & Hin & Hp). apply list_elem_of_split in Hin as (l & r & ->).
  assert (is_exit p) as Hpe by (destruct p; simpl in *; tauto).
  rewrite (Hexit l p r eq_refl Hpe). unfold ending. simpl. rewrite last_snoc.
  by destruct p.
Qed.

(** One more packet of a conversation. *)
Lemma accept_ending m ps p :
  well_ordered m ps →
  (well_ordered m (ps ++ [p]) ∧ accept p (ending m ps) = (ending m (ps ++ [p]), Ok tt)) ∨
  (¬ well_ordered m (ps ++ [p]) ∧ ∃ e, accept p (ending m ps) = (ending m ps, Err e)).
Proof.
  intros Hwf. rewrite well_ordered_snoc. unfold accept.
  destruct (decide (Forall (λ x, ¬ is_exit x) ps)) as [Hno|Hex].
  2:{ right. split; [tauto|]. destruct (ending_exit m ps Hwf Hex) as [st ->]. eauto. }
  pose proof (ending_no_exit m ps Hno) as Hne. pose proof (forallb_open ps) as Hopen.
  unfold ending in *. rewrite forallb_app, last_snoc.
  cbn [forallb andb input_open mode exit] in *. rewrite Hne.
  destruct p as [d|d|d|st| |sz]; cbn [allowed_in is_stdin];
    rewrite ?andb_true_r, ?andb_false_r.
  - destruct (forallb _ ps); cbn [negb]; [left|right].
    + split; [|done]. split_and!; try done; [by destruct m|]. intros _. by apply Hopen.
    + split; [|by eexists]. intros (_ & _ & _ & Hin). by apply Hopen in Hin.
  - left. split; [|done]. split_and!; try done. by destruct m.
  - destruct m; [right|left].
    + split; [by intros (_ & ? & _)|by eexists].
    + split; [|done]. by split_and!.
  - left. split; [|done]. split_and!; try done. by destruct m.
  - destruct (forallb _ ps); cbn [negb]; [left|right].
    + split; [|done]. split_and!; try done; [by destruct m|]. intros _. by apply Hopen.
    + split; [|by eexists]. intros (_ & _ & _ & Hin). by apply Hopen in Hin.
  - destruct m; [left|right].
    + split; [|done]. by split_and!.
    + split; [by intros (_ & ? & _)|by eexists].
Qed.

Lemma well_ordered_nil m : well_ordered m [].
Proof. split_and!; [done|by intros [] ? ?|by intros [] ?]. Qed.

Lemma accept_all_app ps p s :
  accept_all (ps ++ [p]) s = (do! accept_all ps in accept p) s.
Proof.
  revert s. induction ps as [|x ps IH]; intros s; simpl; unfold mbnd, mret.
  - by destruct (accept p s) as [s' [[]|e]].
  - destruct (accept x s) as [s' [[]|e]]; [|done]. rewrite IH. done.
Qed.

(** C38: [ShellStreamState] admits exactly the well-ordered conversations:
    checking the packets of a stream one by one succeeds if and only if nothing
    follows the exit packet, no input follows the end of input, and no packet
    is foreign to the mode (stderr under a PTY, a resize without one); the
    state then tells whether the input is open and how the shell exited. *)
Theorem shell_stream_language m ps :
  (is_ok (accept_all ps (shell_stream_new m)).2 = true ↔ well_ordered m ps) ∧
  (well_ordered m ps → accept_all ps (shell_stream_new m) = (ending m ps, Ok tt)).
Proof.
  assert (∀ ps, (well_ordered m ps ∧ accept_all ps (shell_stream_new m) = (ending m ps, Ok tt)) ∨
    (¬ well_ordered m ps ∧ is_ok (accept_all ps (shell_stream_new m)).2 = false)) as Hcase.
  { clear ps. intros ps. induction ps as [|p ps IH] using rev_ind.
    { left. split; [apply well_ordered_nil|done]. }
    rewrite accept_all_app. unfold mbnd. destruct IH as [[Hwf ->]|[Hwf Hbad]].
    - destruct (accept_ending m ps p Hwf) as [[? ->]|[? [e ->]]]; auto.
    - right. split; [intros [? _]%well_ordered_snoc; done|].
      by destruct (accept_all ps _) as [s [[]|e]]. }
  destruct (Hcase ps) as [[Hwf Hrun]|[Hwf Hbad]].
  - rewrite Hrun. done.
  - rewrite Hbad. split; [done|]. intros ?. done.
Qed.

Definition sample_packet : ShellPacket :=
  ShellPacket.Exit {| exit_code := -9; signal := 15 |}.

Lemma shell_packet_roundtrip_witness :
  packet_decode (match packet_encode sample_packet with Ok bs => bs | Err _ => [] end)
    PacketSource.Device = Ok sample_packet.
Proof.
  apply (shell_packet_roundtrip sample_packet); [|vm_compute; done].
  split; [unfold i32; simpl; lia|]. apply (bool_decide_unpack _). by vm_compute.
Defined.
