(* ===== verification/BundleError.v ===== *)
(** * Errors of the bundle crate: src/crates/kindlebridge-bundle/src/error.rs *)

From S2P Require Import Prelude.

Module ErrorCode.

Inductive ErrorCode : Type :=
| Io | Header | Bounds | CanonicalCbor | Schema | ProfilePolicy | Path | Tree | Block
| Signature | Publisher | Target | Activation | Quota | Conflict | Recovery.

End ErrorCode.
Abbreviation ErrorCode := ErrorCode.ErrorCode.

#[export] Instance ErrorCode_eq_dec : EqDecision ErrorCode.
Proof. solve_decision. Defined.

(** [Error] without its [source], an [io::Error] kept for display. *)
Record BundleError : Type := {
  code : ErrorCode;
  message : string;
}.

(** [Error::new]. *)
Definition error_new (c : ErrorCode) (m : string) : BundleError := {| code := c; message := m |}.

(** [crate::error::Result]. *)
Abbreviation bundle_result A := (result BundleError A).
