(* ===== verification/Paths.v ===== *)
(** * Path rules: src/crates/kindlebridge-schema/src/sync_path.rs and
      src/crates/kindlebridge-bundle/src/path.rs

    [LogicalSyncPath] names a file below the sync root; bundle paths name the
    files of an application bundle, whose symbolic links must stay inside it.

    A Rust [str] is the list of its characters (Unicode scalar values); its
    [len] is the number of its UTF-8 bytes.  Unicode normalization is the crate
    unicode_normalization: the function [nfc] is a parameter. *)

From S2P Require Import Prelude BundleError.
From stdpp Require Import pretty.
Local Open Scope Z_scope.

(** ** Strings *)

Abbreviation str := (list Z).

(** A string literal. *)
Definition lit (s : string) : str :=
  (λ a, Z.of_N (Ascii.N_of_ascii a)) <$> String.list_ascii_of_string s.

Definition SLASH : Z := 47.
Definition BACKSLASH : Z := 92.
Definition DOT : Z := 46.
Definition DASH : Z := 45.
Definition SPACE : Z := 32.

(** [char::len_utf8] and [str::len]. *)
Definition len_utf8 (c : Z) : Z :=
  if c <? 0x80 then 1 else if c <? 0x800 then 2 else if c <? 0x10000 then 3 else 4.
Definition str_len (s : str) : Z := foldr (λ c n, len_utf8 c + n) 0 s.

(** [char::encode_utf8] and [str::as_bytes]. *)
Definition encode_utf8 (c : Z) : list Z :=
  if c <? 0x80 then [c]
  else if c <? 0x800 then [0xc0 + c / 64; 0x80 + c mod 64]
  else if c <? 0x10000 then [0xe0 + c / 4096; 0x80 + (c / 64) mod 64; 0x80 + c mod 64]
  else [0xf0 + c / 262144; 0x80 + (c / 4096) mod 64; 0x80 + (c / 64) mod 64; 0x80 + c mod 64].
Definition as_bytes (s : str) : list Z := s ≫= encode_utf8.

(** Lexicographic order of byte strings. *)
Fixpoint bytes_lt (a b : list Z) : bool :=
  match a, b with
  | _, [] => false
  | [], _ :: _ => true
  | x :: a, y :: b => (x <? y) || ((x =? y) && bytes_lt a b)
  end.

(** [char::is_control]: the category Cc. *)
Definition is_control (c : Z) : bool :=
  ((0 <=? c) && (c <=? 0x1f)) || ((0x7f <=? c) && (c <=? 0x9f)).

Definition contains (c : Z) (s : str) : bool := existsb (Z.eqb c) s.
Definition starts_with (c : Z) (s : str) : bool :=
  match s with x :: _ => x =? c | [] => false end.
Definition ends_with (c : Z) (s : str) : bool :=
  match last s with Some x => x =? c | None => false end.

(** [str::split] on a character. *)
Fixpoint split (sep : Z) (s : str) : list str :=
  match s with
  | [] => [[]]
  | c :: s =>
      if c =? sep then [] :: split sep s
      else match split sep s with
           | [] => [[c]]
           | first :: rest => (c :: first) :: rest
           end
  end.

(** [[&str]::join]. *)
Fixpoint join (sep : Z) (l : list str) : str :=
  match l with
  | [] => []
  | [s] => s
  | s :: l => s ++ sep :: join sep l
  end.

(** [str::rsplit_once], the part before the last separator. *)
Definition rsplit_once_parent (sep : Z) (s : str) : option str :=
  match reverse (split sep s) with
  | _ :: ((_ :: _) as parts) => Some (join sep (reverse parts))
  | _ => None
  end.

(** [u8::is_ascii_lowercase], [is_ascii_uppercase], [is_ascii_digit]. *)
Definition is_ascii_lowercase (c : Z) : bool := (97 <=? c) && (c <=? 122).
Definition is_ascii_uppercase (c : Z) : bool := (65 <=? c) && (c <=? 90).
Definition is_ascii_digit (c : Z) : bool := (48 <=? c) && (c <=? 57).

(** [str::to_ascii_lowercase] and [str::to_ascii_uppercase]. *)
Definition to_ascii_lowercase (s : str) : str :=
  (λ c, if is_ascii_uppercase c then c + 32 else c) <$> s.
Definition to_ascii_uppercase (s : str) : str :=
  (λ c, if is_ascii_lowercase c then c - 32 else c) <$> s.

(** [matches!(component, "." | "..")]. *)
Definition is_dots (component : str) : bool :=
  bool_decide (component = lit ".") || bool_decide (component = lit "..").

(** model.rs: [FileType] and [FileEntry]. *)
Module FileType.

Inductive FileType : Type := Directory | Regular | SymlinkRelative.

End FileType.
Abbreviation FileType := FileType.FileType.

#[export] Instance FileType_eq_dec : EqDecision FileType.
Proof. solve_decision. Defined.

(** A [Digest] is 32 bytes. *)
Abbreviation Digest := bytes.

Record FileEntry : Type := {
  path : str;
  file_type : FileType;
  mode : option Z;
  size : option Z;
  file_digest : option Digest;
  block_refs : option (list (Digest * Z));
  target : option str;
}.

Section paths.
(** [UnicodeNormalization::nfc]. *)
Context (nfc : str → str).

(** ** Logical sync paths *)

Definition MAX_PATH_BYTES : Z := 1024.
Definition MAX_COMPONENT_BYTES : Z := 255.

Inductive LogicalSyncPathError : Type :=
| NotRelative | TooLong | ComponentTooLong | InvalidComponent | ControlCharacter | NotNfc.

(** The loop over the components of [LogicalSyncPath::parse]. *)
Fixpoint check_components (l : list str) : result LogicalSyncPathError unit :=
  match l with
  | [] => Ok tt
  | component :: l =>
      check? reject_if (bool_decide (component = []) || is_dots component) InvalidComponent in
      check? reject_if (str_len component >? MAX_COMPONENT_BYTES) ComponentTooLong in
      check_components l
  end.

(** [LogicalSyncPath::parse]. *)
Definition parse_sync_path (value : str) : result LogicalSyncPathError str :=
  check? reject_if (bool_decide (value = []) || starts_with SLASH value
                    || contains BACKSLASH value) NotRelative in
  check? reject_if (str_len value >? MAX_PATH_BYTES) TooLong in
  check? reject_if (existsb is_control value) ControlCharacter in
  check? reject_if (negb (bool_decide (nfc value = value))) NotNfc in
  check? check_components (split SLASH value) in
  Ok value.

(** [LogicalSyncPath::ascii_case_fold_key]. *)
Definition ascii_case_fold_key (path : str) : str := to_ascii_lowercase path.

(** ** Bundle paths *)

Definition path_error {A} (m : string) : bundle_result A := Err (error_new ErrorCode.Path m).

(** [validate_nfc_text]. *)
Definition validate_nfc_text (value : str) (min max : Z) (label : string) :
    bundle_result unit :=
  check? reject_if (negb ((min <=? str_len value) && (str_len value <=? max)))
           (error_new ErrorCode.Path
              (label +:+ " length is outside " +:+ pretty min +:+ "..=" +:+ pretty max
               +:+ " bytes")%string) in
  reject_if (negb (bool_decide (nfc value = value)))
    (error_new ErrorCode.Path (label +:+ " is not NFC-normalized")%string).

(** [validate_component]. *)
Definition is_device_name (component : str) : bool :=
  let basename := hd [] (split DOT component) in
  let upper := to_ascii_uppercase basename in
  let numbered_device :=
    (str_len upper =? 4) &&
    (bool_decide (take 3 upper = lit "COM") || bool_decide (take 3 upper = lit "LPT")) &&
    match drop 3 upper with
    | c :: _ => (49 <=? c) && (c <=? 57)
    | [] => false
    end in
  bool_decide (upper = lit "CON") || bool_decide (upper = lit "PRN") ||
  bool_decide (upper = lit "AUX") || bool_decide (upper = lit "NUL") || numbered_device.

Definition validate_component (component : str) (allow_dot : bool) : bundle_result unit :=
  if bool_decide (component = [])
     || (negb allow_dot && is_dots component)
     || (str_len component >? 255)
     || ends_with SPACE component
     || (ends_with DOT component && negb allow_dot)
     || existsb is_control component
  then path_error "invalid path component"
  else if allow_dot && is_dots component then Ok tt
  else if is_device_name component then path_error "Windows device basename is forbidden"
  else Ok tt.

Fixpoint validate_components (l : list str) (allow_dot : bool) : bundle_result unit :=
  match l with
  | [] => Ok tt
  | component :: l =>
      check? validate_component component allow_dot in
      validate_components l allow_dot
  end.

(** [validate_bundle_path] and [validate_symlink_target]. *)
Definition validate_bundle_path (path : str) : bundle_result unit :=
  check? validate_nfc_text path 1 1024 "path" in
  if starts_with SLASH path || ends_with SLASH path || contains BACKSLASH path
  then path_error "path must be relative, slash-separated, and have no trailing slash"
  else validate_components (split SLASH path) false.

Definition validate_symlink_target (target : str) : bundle_result unit :=
  check? validate_nfc_text target 1 1024 "symlink target" in
  if starts_with SLASH target || ends_with SLASH target || contains BACKSLASH target
  then path_error "symlink target must be relative and slash-separated"
  else validate_components (split SLASH target) true.

(** [validate_logical_id]. *)
Definition is_segment_char (c : Z) : bool := is_ascii_lowercase c || is_ascii_digit c.

Definition segment_is_bad (segment : str) : bool :=
  match segment, last segment with
  | first :: _, Some final =>
      negb (is_segment_char first) || negb (is_segment_char final) ||
      negb (forallb (λ c, is_segment_char c || (c =? DASH)) segment)
  | _, _ => true
  end.

Definition has_prefix (prefix s : str) : bool := bool_decide (take (length prefix) s = prefix).

Definition validate_logical_id (id : str) : bundle_result unit :=
  check? reject_if (negb ((3 <=? str_len id) && (str_len id <=? 255))
                    || negb (forallb (λ c, c <? 128) id) || negb (contains DOT id))
           (error_new ErrorCode.Schema
              "logical ID must be 3..255 ASCII bytes and contain a dot") in
  check? reject_if (has_prefix (lit "com.amazon.") id || has_prefix (lit "com.lab126.") id
                    || has_prefix (lit "org.kindlebridge.system.") id)
           (error_new ErrorCode.Publisher
              "reserved logical ID requires a built-in trust root") in
  reject_if (existsb segment_is_bad (split DOT id))
    (error_new ErrorCode.Schema "logical ID is not lowercase reverse-DNS syntax").

(** [validate_channel]. *)
Definition validate_channel (channel : str) : bundle_result unit :=
  match channel with
  | [] => Err (error_new ErrorCode.Schema "invalid channel")
  | first :: _ =>
      reject_if ((str_len channel >? 32) || negb (is_segment_char first)
                 || negb (forallb (λ c, is_segment_char c || (c =? DOT) || (c =? 95)
                                        || (c =? DASH)) channel))
        (error_new ErrorCode.Schema "invalid channel")
  end.

(** The loop of [validate_tree_paths], with what it has seen. *)
Fixpoint check_tree_paths (previous : option str) (folded : gset str)
    (types : gmap str FileType) (entries : list FileEntry) : bundle_result unit :=
  match entries with
  | [] => Ok tt
  | entry :: entries =>
      check? validate_bundle_path (path entry) in
      if match previous with
         | Some value => negb (bytes_lt (as_bytes value) (as_bytes (path entry)))
         | None => false
         end
      then path_error "tree entries are not in strict UTF-8 byte order" else
      let ascii_folded := to_ascii_lowercase (path entry) in
      if bool_decide (ascii_folded ∈ folded)
      then path_error "tree contains an ASCII case-fold collision" else
      check? match rsplit_once_parent SLASH (path entry) with
             | Some parent =>
                 match types !! parent with
                 | Some FileType.Directory => Ok tt
                 | Some _ => path_error "an entry has a non-directory parent"
                 | None => path_error "an entry's parent directory is not declared"
                 end
             | None => Ok tt
             end in
      check_tree_paths (Some (path entry)) ({[ascii_folded]} ∪ folded)
        (<[path entry := file_type entry]> types) entries
  end.

(** [validate_tree_paths]. *)
Definition validate_tree_paths (entries : list FileEntry) : bundle_result unit :=
  check_tree_paths None ∅ ∅ entries.

(** [resolve_target]. *)
Fixpoint apply_components (parts : list str) (components : list str) :
    bundle_result (list str) :=
  match components with
  | [] => Ok parts
  | component :: components =>
      if bool_decide (component = lit ".") then apply_components parts components
      else if bool_decide (component = lit "..") then
        match reverse parts with
        | [] => path_error "symlink target escapes the bundle root"
        | _ :: rest => apply_components (reverse rest) components
        end
      else apply_components (parts ++ [component]) components
  end.

Definition resolve_target (link_path target : str) : bundle_result str :=
  let parts := reverse (tail (reverse (split SLASH link_path))) in
  let? parts := apply_components parts (split SLASH target) in
  if bool_decide (parts = []) then path_error "symlink may not resolve to the implicit root"
  else Ok (join SLASH parts).

(** The inner loop of [validate_symlinks]; [n] iterations of [0..=16] are left. *)
Fixpoint follow_symlinks (by_path : gmap str FileEntry) (n : nat) (seen : gset str)
    (current : FileEntry) : bundle_result FileEntry :=
  match n with
  | O => Ok current
  | S n =>
      if negb (bool_decide (file_type current = FileType.SymlinkRelative)) then Ok current else
      if bool_decide (path current ∈ seen) then path_error "symlink loop" else
      let seen := {[path current]} ∪ seen in
      if (16 <? base.size seen)%nat then path_error "symlink chain exceeds 16 hops" else
      let? target := ok_or (target current)
                       (error_new ErrorCode.Tree "symlink entry has no target") in
      check? validate_symlink_target target in
      let? resolved := resolve_target (path current) target in
      let? next := ok_or (by_path !! resolved) (error_new ErrorCode.Path "dangling symlink") in
      follow_symlinks by_path n seen next
  end.

(** [validate_symlinks]. *)
Definition entries_by_path (entries : list FileEntry) : gmap str FileEntry :=
  foldl (λ m entry, <[path entry := entry]> m) ∅ entries.

Fixpoint check_symlinks (by_path : gmap str FileEntry) (entries : list FileEntry) :
    bundle_result unit :=
  match entries with
  | [] => Ok tt
  | entry :: entries =>
      if negb (bool_decide (file_type entry = FileType.SymlinkRelative))
      then check_symlinks by_path entries
      else
        let? _final := follow_symlinks by_path 17 ∅ entry in
        check_symlinks by_path entries
  end.

Definition validate_symlinks (entries : list FileEntry) : bundle_result unit :=
  check_symlinks (entries_by_path entries) entries.
End paths.

(** ** Splitting and joining *)

Lemma split_not_nil sep s : split sep s ≠ [].
Proof. destruct s as [|c s]; simpl; [done|]. repeat case_match; done. Qed.

Lemma join_cons sep s l : l ≠ [] → join sep (s :: l) = s ++ sep :: join sep l.
Proof. by destruct l. Qed.

Lemma join_split sep s : join sep (split sep s) = s.
Proof.
  induction s as [|c s IH]; [done|]. cbn [split]. destruct (Z.eqb_spec c sep) as [->|Hc].
  - rewrite join_cons by apply split_not_nil. simpl. by rewrite IH.
  - destruct (split sep s) as [|first rest] eqn:Hs; [by apply split_not_nil in Hs|].
    destruct rest; simpl in *; by rewrite IH.
Qed.

Lemma split_no_sep sep s : Forall (λ c, sep ∉ c) (split sep s).
Proof.
  induction s as [|c s IH]; cbn [split].
  - constructor; [set_solver|done].
  - destruct (Z.eqb_spec c sep) as [->|Hc]; [constructor; [set_solver|done]|].
    destruct (split sep s) as [|first rest]; [repeat constructor; set_solver|].
    apply Forall_cons in IH as [Hf Hr]. constructor; [set_solver|done].
Qed.

(** ** Lexical resolution, as a file system does it *)

Definition descend_one (cwd : list str) (component : str) : list str :=
  if bool_decide (component = []) || bool_decide (component = lit ".") then cwd
  else if bool_decide (component = lit "..") then reverse (tail (reverse cwd))
  else cwd ++ [component].
Definition descend (cwd components : list str) : list str := foldl descend_one cwd components.

(** A component that names an entry of a directory and nothing else. *)
Record safe_component (component : str) : Prop := {
  safe_nonempty : component ≠ [];
  safe_dot : component ≠ lit ".";
  safe_dotdot : component ≠ lit "..";
  safe_slash : SLASH ∉ component;
}.

Lemma descend_safe cwd l : Forall safe_component l → descend cwd l = cwd ++ l.
Proof.
  revert cwd. induction l as [|c l IH]; intros cwd Hl; simpl; [by rewrite app_nil_r|].
  apply Forall_cons in Hl as [[H1 H2 H3 _] Hl].
  assert (descend_one cwd c = cwd ++ [c]) as Hone
    by (unfold descend_one; by rewrite !bool_decide_eq_false_2 by done).
  unfold descend. cbn [foldl]. rewrite Hone. fold (descend (cwd ++ [c]) l).
  by rewrite (IH _ Hl), <-app_assoc.
Qed.

Lemma is_dots_false c : is_dots c = false → c ≠ lit "." ∧ c ≠ lit "..".
Proof.
  unfold is_dots. rewrite orb_false_iff, !bool_decide_eq_false. done.
Qed.

Lemma check_components_ok l :
  check_components l = Ok tt ↔
  Forall (λ c, c ≠ [] ∧ is_dots c = false ∧ str_len c ≤ MAX_COMPONENT_BYTES) l.
Proof.
  induction l as [|c l IH]; [done|]. cbn [check_components].
  rewrite result_bind_ok, Forall_cons, <-IH. split.
  - intros ([] & H1 & H2). result_inv.
    rewrite orb_false_iff, bool_decide_eq_false in *. split; [|done]. split_and!; [tauto..|lia].
  - intros ((Hne & Hd & Hl) & Hrest). exists tt. rewrite Hd, bool_decide_eq_false_2 by done.
    split; [done|]. destruct (str_len c >? MAX_COMPONENT_BYTES) eqn:?; [lia|]. done.
Qed.

Section path_theorems.
Context (nfc : str → str).

Lemma parse_sync_path_inv value p :
  parse_sync_path nfc value = Ok p →
  p = value ∧ value ≠ [] ∧ str_len value ≤ MAX_PATH_BYTES ∧ existsb is_control value = false ∧
  contains BACKSLASH value = false ∧ nfc value = value ∧
  Forall (λ c, safe_component c ∧ str_len c ≤ MAX_COMPONENT_BYTES) (split SLASH value).
Proof.
  unfold parse_sync_path. intros Hp. result_inv. rewrite !orb_false_iff in *.
  rewrite negb_false_iff in *. rewrite bool_decide_eq_false, bool_decide_eq_true in *.
  split_and!; try tauto; [lia|].
  match goal with H : check_components _ = Ok _ |- _ =>
    apply check_components_ok in H; rewrite Forall_forall in H; rename H into Hall end.
  pose proof (split_no_sep SLASH p) as Hsep. rewrite Forall_forall in Hsep.
  apply Forall_forall. intros c Hc. destruct (Hall c Hc) as (Hne & [? ?]%is_dots_false & Hl).
  split; [split; auto|done].
Qed.

(** A logical sync path cannot leave the sync root: an accepted path is
    returned unchanged, its slash-separated components are all proper file
    names, and walking them from any directory, as a file system resolves them,
    appends exactly those components, so that nothing outside is reached. *)
Theorem sync_path_stays_below_root value p root :
  parse_sync_path nfc value = Ok p →
  p = value ∧ join SLASH (split SLASH p) = p ∧
  Forall safe_component (split SLASH p) ∧
  descend root (split SLASH p) = root ++ split SLASH p ∧
  str_len p ≤ MAX_PATH_BYTES ∧ nfc p = p.
Proof.
  intros (-> & Hne & Hlen & _ & _ & Hnfc & Hc)%parse_sync_path_inv.
  assert (Forall safe_component (split SLASH value)) as Hs
    by (eapply Forall_impl; [exact Hc|naive_solver]).
  split_and!; auto using join_split, descend_safe.
Qed.

(** ** Bundle trees *)

Lemma bytes_lt_irrefl a : bytes_lt a a = false.
Proof. induction a as [|x a IH]; simpl; [done|]. rewrite IH, andb_false_r. lia. Qed.
Lemma bytes_lt_trans a b c : bytes_lt a b = true → bytes_lt b c = true → bytes_lt a c = true.
Proof.
  revert b c. induction a as [|x a IH]; intros [|y b] [|z c]; simpl; try done.
  rewrite !orb_true_iff, !andb_true_iff. intros [?|[? ?]] [?|[? ?]]; [left; lia..|].
  right. split; [lia|]. by eapply IH.
Qed.

Definition path_lt (a b : FileEntry) : Prop :=
  bytes_lt (as_bytes (path a)) (as_bytes (path b)) = true.

(** The entry's parent directory is declared among [entries]. *)
Definition parent_declared (entries : list FileEntry) (e : FileEntry) : Prop :=
  ∀ parent, rsplit_once_parent SLASH (path e) = Some parent →
  ∃ d, d ∈ entries ∧ path d = parent ∧ file_type d = FileType.Directory.

(** What the loop has established of the entries before it. *)
Record tree_seen (before : list FileEntry) (previous : option str) (folded : gset str)
    (types : gmap str FileType) : Prop := {
  seen_previous : previous = path <$> last before;
  seen_sorted : StronglySorted path_lt before;
  seen_folded : ∀ s, s ∈ folded ↔ s ∈ (λ e, to_ascii_lowercase (path e)) <$> before;
  seen_nodup : NoDup ((λ e, to_ascii_lowercase (path e)) <$> before);
  seen_types : ∀ s t, types !! s = Some t → ∃ d, d ∈ before ∧ path d = s ∧ file_type d = t;
  seen_valid : Forall (λ e, validate_bundle_path nfc (path e) = Ok tt) before;
  seen_parents : Forall (parent_declared before) before;
}.

Lemma sorted_snoc l e :
  StronglySorted path_lt l → (∀ x, last l = Some x → path_lt x e) →
  StronglySorted path_lt (l ++ [e]).
Proof.
  induction 1 as [|x l Hs IH Hx]; intros He; [repeat constructor|].
  simpl. constructor.
  - apply IH. intros y Hy. apply He. rewrite last_cons, Hy. done.
  - apply Forall_app. split; [done|]. constructor; [|done].
    destruct (last l) as [y|] eqn:Hl.
    + apply (bytes_lt_trans _ (as_bytes (path y))).
      * rewrite Forall_forall in Hx. apply Hx. apply last_Some in Hl as [k ->]. set_solver.
      * apply He. by rewrite last_cons, Hl.
    + apply He. by rewrite last_cons, Hl.
Qed.

Lemma parent_declared_mono l k e : l ⊆ k → parent_declared l e → parent_declared k e.
Proof. intros Hsub Hp parent Hpar. destruct (Hp parent Hpar) as (d & ? & ? & ?). eauto. Qed.

Lemma tree_seen_step before previous folded types e :
  tree_seen before previous folded types →
  validate_bundle_path nfc (path e) = Ok tt →
  (∀ value, previous = Some value →
     bytes_lt (as_bytes value) (as_bytes (path e)) = true) →
  to_ascii_lowercase (path e) ∉ folded →
  (∀ parent, rsplit_once_parent SLASH (path e) = Some parent →
     types !! parent = Some FileType.Directory) →
  tree_seen (before ++ [e]) (Some (path e)) ({[to_ascii_lowercase (path e)]} ∪ folded)
    (<[path e := file_type e]> types).
Proof.
  intros [Hprev Hsort Hfold Hnd Htypes Hvalid Hpar] Hv Hlt Hnew Hparent. split.
  - by rewrite last_snoc.
  - apply sorted_snoc; [done|]. intros x Hx. apply Hlt. by rewrite Hprev, Hx.
  - intros s. rewrite elem_of_union, elem_of_singleton, Hfold, fmap_app, elem_of_app.
    change (_ <$> [e]) with [to_ascii_lowercase (path e)]. rewrite list_elem_of_singleton. tauto.
  - rewrite fmap_app. apply NoDup_app. split; [done|]. split; [|apply NoDup_singleton].
    intros s Hs Hin. apply list_elem_of_singleton in Hin as ->. by apply Hnew, Hfold.
  - intros s t. rewrite lookup_insert. case_decide as Hd.
    + intros [= <-]. exists e. split; [set_solver|done].
    + intros (d & ? & ? & ?)%Htypes. exists d. split; [set_solver|done].
  - apply Forall_app. split; [done|]. by constructor.
  - apply Forall_app. split.
    + eapply Forall_impl; [exact Hpar|]. intros x. apply parent_declared_mono. set_solver.
    + constructor; [|done]. intros parent Hp.
      destruct (Htypes parent _ (Hparent parent Hp)) as (d & ? & ? & ?).
      exists d. split; [set_solver|done].
Qed.

Lemma check_tree_paths_seen before previous folded types entries :
  tree_seen before previous folded types →
  check_tree_paths nfc previous folded types entries = Ok tt →
  ∃ previous' folded' types', tree_seen (before ++ entries) previous' folded' types'.
Proof.
  revert before previous folded types.
  induction entries as [|e entries IH]; intros before previous folded types Hseen Hc.
  { rewrite app_nil_r. eauto. }
  cbn [check_tree_paths] in Hc. apply result_bind_ok in Hc as ([] & Hv & Hc).
  destruct (match previous with Some _ => _ | None => false end) eqn:Hp; [done|].
  case_bool_decide as Hfold; [done|]. apply result_bind_ok in Hc as ([] & Hpar & Hc).
  rewrite (cons_middle e before entries), app_assoc. eapply (IH (before ++ [e])); [|exact Hc].
  apply (tree_seen_step before previous folded types); try done.
  - intros value ->. by apply negb_false_iff in Hp.
  - intros parent Hparent. rewrite Hparent in Hpar. repeat case_match; done.
Qed.

Lemma tree_seen_nil : tree_seen [] None ∅ ∅.
Proof.
  split; try done; [constructor| |constructor].
  intros s. rewrite elem_of_empty. simpl. by rewrite elem_of_nil.
Qed.

(** A validated tree is a tree: its paths are strictly sorted by their
    bytes, so no path occurs twice; no two paths coincide on a file system that
    ignores ASCII case; every path is a valid bundle path; and the parent of
    every entry is itself an entry, and a directory. *)
Theorem validated_tree_is_closed entries :
  validate_tree_paths nfc entries = Ok tt →
  StronglySorted path_lt entries ∧
  NoDup ((λ e, to_ascii_lowercase (path e)) <$> entries) ∧
  Forall (λ e, validate_bundle_path nfc (path e) = Ok tt) entries ∧
  Forall (parent_declared entries) entries.
Proof.
  intros Hv. destruct (check_tree_paths_seen [] None ∅ ∅ entries tree_seen_nil Hv)
    as (? & ? & ? & []). done.
Qed.

(** ** Symbolic links *)

(** One hop of a link to another entry of the tree. *)
Definition hop (entries : list FileEntry) (a b : FileEntry) : Prop :=
  file_type a = FileType.SymlinkRelative ∧
  ∃ t resolved, target a = Some t ∧ validate_symlink_target nfc t = Ok tt ∧
    resolve_target (path a) t = Ok resolved ∧ b ∈ entries ∧ path b = resolved.

Inductive hops (entries : list FileEntry) : nat → FileEntry → FileEntry → Prop :=
| hops_O a : hops entries 0 a a
| hops_S n a b c : hop entries a b → hops entries n b c → hops entries (S n) a c.

Lemma entries_by_path_lookup entries s e :
  entries_by_path entries !! s = Some e → e ∈ entries ∧ path e = s.
Proof.
  unfold entries_by_path. revert e. induction entries as [|x l IH] using rev_ind; intros e.
  { simpl. by rewrite lookup_empty. }
  rewrite foldl_snoc, lookup_insert. case_decide as Hd.
  - intros [= <-]. split; [set_solver|done].
  - intros [??]%IH. split; [set_solver|done].
Qed.

Lemma follow_symlinks_ok entries n seen e final :
  follow_symlinks nfc (entries_by_path entries) n seen e = Ok final →
  e ∈ entries → (17 ≤ n + base.size seen)%nat → (base.size seen ≤ 16)%nat →
  ∃ k, hops entries k e final ∧ (k + base.size seen ≤ 16)%nat ∧ final ∈ entries ∧
    file_type final ≠ FileType.SymlinkRelative.
Proof.
  revert seen e. induction n as [|n IH]; intros seen e Hf Hin Hn Hmax;
    cbn [follow_symlinks] in Hf.
  { lia. }
  case_bool_decide as Hty; cbn [negb] in Hf.
  2:{ injection Hf as <-. exists 0%nat. split_and!; [constructor| |done|done]. lia. }
  case_bool_decide as Hseen; [done|].
  destruct (16 <? base.size ({[path e]} ∪ seen))%nat eqn:Hsize; [done|].
  apply Nat.ltb_ge in Hsize.
  assert (base.size ({[path e]} ∪ seen) = S (base.size seen)) as Hs.
  { rewrite size_union by set_solver. by rewrite size_singleton. }
  apply result_bind_ok in Hf as (t & Ht%ok_or_ok & Hf).
  apply result_bind_ok in Hf as ([] & Hv & Hf).
  apply result_bind_ok in Hf as (resolved & Hr & Hf).
  apply result_bind_ok in Hf as (next & Hnext%ok_or_ok & Hf).
  apply entries_by_path_lookup in Hnext as [Hnin Hnp].
  destruct (IH _ _ Hf Hnin) as (k & Hk & Hle & Hfin & Hnot); [lia..|].
  exists (S k). split_and!; [|lia|done|done]. econstructor; [|done]. split; [done|]. eauto 10.
Qed.

Lemma check_symlinks_ok entries l e :
  check_symlinks nfc (entries_by_path entries) l = Ok tt →
  e ∈ l → file_type e = FileType.SymlinkRelative →
  ∃ final, follow_symlinks nfc (entries_by_path entries) 17 ∅ e = Ok final.
Proof.
  induction l as [|x l IH]; [by intros _ ?%not_elem_of_nil|].
  intros Hc [->|Hin]%elem_of_cons Hty; cbn [check_symlinks] in Hc; case_bool_decide as Hx;
    cbn [negb] in Hc; try done.
  - apply result_bind_ok in Hc as (final & Hf & _). eauto.
  - apply result_bind_ok in Hc as (final & _ & Hc). eauto.
  - eauto.
Qed.

(** Symbolic links of a validated bundle stay inside it: following any link
    reaches, within sixteen hops, an entry of the tree that is not a link; each
    hop goes to the entry its relative target resolves to. *)
Theorem symlinks_resolve_in_tree entries e :
  validate_symlinks nfc entries = Ok tt →
  e ∈ entries → file_type e = FileType.SymlinkRelative →
  ∃ n final, (0 < n ≤ 16)%nat ∧ hops entries n e final ∧ final ∈ entries ∧
    file_type final ≠ FileType.SymlinkRelative.
Proof.
  intros Hv Hin Hty. destruct (check_symlinks_ok entries entries e Hv Hin Hty) as [final Hf].
  destruct (follow_symlinks_ok entries 17 ∅ e final Hf Hin) as (n & Hn & Hle & Hfin & Hnot);
    [rewrite size_empty; lia..|].
  exists n, final. split_and!; try done; [|rewrite size_empty in Hle; lia].
  destruct Hn; [done|lia].
Qed.

End path_theorems.

(** ** Logical IDs *)

Lemma elem_of_join sep l c : c ∈ join sep l → c = sep ∨ ∃ s, s ∈ l ∧ c ∈ s.
Proof.
  induction l as [|s l IH]; [by intros ?%not_elem_of_nil|]. intros Hc.
  destruct l as [|s' l]; [right; exists s; split; [left|done]|].
  rewrite join_cons in Hc by done. apply elem_of_app in Hc as [Hc|Hc].
  - right. exists s. split; [left|done].
  - apply elem_of_cons in Hc as [->|Hc]; [by left|].
    destruct (IH Hc) as [->|(x & Hx & Hcx)]; [by left|]. right. exists x. split; [by right|done].
Qed.

Lemma segment_chars segment c :
  segment_is_bad segment = false → c ∈ segment → is_segment_char c || (c =? DASH) = true.
Proof.
  unfold segment_is_bad. destruct segment as [|f s]; [done|].
  destruct (last (f :: s)); [|done]. rewrite !orb_false_iff, !negb_false_iff.
  intros [_ Hall] Hc. rewrite forallb_forall in Hall. apply Hall. by apply list_elem_of_In.
Qed.

Lemma validate_logical_id_ok id :
  validate_logical_id id = Ok tt →
  safe_component id ∧ str_len id ≤ 255 ∧
  Forall (λ c, is_segment_char c = true ∨ c = DASH ∨ c = DOT) id ∧
  has_prefix (lit "com.amazon.") id = false ∧ has_prefix (lit "com.lab126.") id = false.
Proof.
  unfold validate_logical_id. intros Hv. result_inv.
  rewrite !orb_false_iff, !negb_false_iff, andb_true_iff in *.
  match goal with H : existsb _ _ = false |- _ => rename H into Hseg end.
  assert (∀ s, s ∈ split DOT id → segment_is_bad s = false) as Hall.
  { intros s Hs. apply not_true_is_false. intros Hbad. apply not_true_iff_false in Hseg.
    apply Hseg, existsb_exists. exists s. split; [by apply list_elem_of_In|done]. }
  assert (Forall (λ c, is_segment_char c = true ∨ c = DASH ∨ c = DOT) id) as Hchars.
  { apply Forall_forall. intros c Hc. rewrite <-(join_split DOT id) in Hc.
    apply elem_of_join in Hc as [->|(s & Hs & Hc)]; [auto|].
    apply (segment_chars s c) in Hc; [|auto]. apply orb_true_iff in Hc as [?|?]; [auto|].
    right. left. lia. }
  split_and!; try tauto; [|lia]. split.
  - intros ->. by vm_compute in Hseg.
  - intros ->. by vm_compute in Hseg.
  - intros ->. by vm_compute in Hseg.
  - intros Hin. rewrite Forall_forall in Hchars. specialize (Hchars _ Hin).
    by vm_compute in Hchars; destruct Hchars as [?|[?|?]].
Qed.

(** A logical ID can name a directory: a valid ID is a single safe path
    component of at most 255 bytes, made of lowercase letters, digits, dots and
    dashes, and lies outside the reserved name spaces. *)
Theorem logical_id_is_safe_component id :
  validate_logical_id id = Ok tt →
  safe_component id ∧ str_len id ≤ 255 ∧
  Forall (λ c, is_segment_char c = true ∨ c = DASH ∨ c = DOT) id ∧
  has_prefix (lit "com.amazon.") id = false ∧ has_prefix (lit "com.lab126.") id = false.
Proof. apply validate_logical_id_ok. Qed.

(** ** Concrete paths *)

Definition same (s : str) : str := s.

Lemma sync_path_stays_below_root_witness :
  parse_sync_path same (lit "books/../../etc/passwd") = Err InvalidComponent ∧
  descend (split SLASH (lit "mnt/us/sync")) (split SLASH (lit "books/a.txt")) =
    split SLASH (lit "mnt/us/sync/books/a.txt").
Proof.
  split; [vm_compute; reflexivity|].
  destruct (sync_path_stays_below_root same (lit "books/a.txt") (lit "books/a.txt")
    (split SLASH (lit "mnt/us/sync"))) as (_ & _ & _ & -> & _).
  - vm_compute. reflexivity.
  - vm_compute. reflexivity.
Defined.

Definition entry_of (p : string) (t : FileType) (to : option string) : FileEntry :=
  {| path := lit p; file_type := t; mode := Some 0; size := None; file_digest := None;
     block_refs := None; target := lit <$> to |}.
Definition sample_tree : list FileEntry :=
  [entry_of "bin" FileType.Directory None; entry_of "bin/run" FileType.Regular None;
   entry_of "current" FileType.SymlinkRelative (Some "other");
   entry_of "other" FileType.SymlinkRelative (Some "./bin/../bin/run")].

Lemma validated_tree_is_closed_witness :
  NoDup ((λ e, to_ascii_lowercase (path e)) <$> sample_tree) ∧
  Forall (parent_declared sample_tree) sample_tree.
Proof.
  destruct (validated_tree_is_closed same sample_tree) as (_ & ? & _ & ?); [|done].
  vm_compute. reflexivity.
Defined.

Lemma symlinks_resolve_in_tree_witness :
  ∃ n final, (0 < n ≤ 16)%nat ∧
    hops same sample_tree n (entry_of "current" FileType.SymlinkRelative (Some "other")) final ∧
    final ∈ sample_tree ∧ file_type final ≠ FileType.SymlinkRelative.
Proof.
  apply (symlinks_resolve_in_tree same sample_tree).
  - vm_compute. reflexivity.
  - right. right. left.
  - reflexivity.
Defined.

Lemma logical_id_is_safe_component_witness : safe_component (lit "org.example.my-app").
Proof.
  apply (logical_id_is_safe_component (lit "org.example.my-app")). vm_compute. reflexivity.
Defined.
