(* ===== verification/Utf8.v ===== *)
(** * Strings and their UTF-8 bytes

    File names are bytes ([OsString]); paths are parsed as strings of characters.
    [utf8] and [from_utf8] convert between the two ([str::as_bytes],
    [OsString::into_string], [String::from_utf8]). *)

From S2P Require Import Prelude Text BundleError Paths.
Local Open Scope Z_scope.

Definition utf8 (s : str) : bytes := byte.of_Z <$> as_bytes s.

(** A [char] is a Unicode scalar value. *)
Definition scalar (c : Z) : Prop := 0 ≤ c < 0xd800 ∨ 0xe000 ≤ c < 0x110000.

(** The first character of a byte string and what follows it. *)
Definition next_char (bs : bytes) : option (Z * bytes) :=
  match bs with
  | [] => None
  | a :: bs1 =>
      if in_span 0 0x7f a then Some (byte.unsigned a, bs1) else
      match bs1 with
      | [] => None
      | b :: bs2 =>
          let b' := byte.unsigned b - 0x80 in
          if in_span 0xc2 0xdf a
          then if in_span 0x80 0xbf b then Some ((byte.unsigned a - 0xc0) * 64 + b', bs2) else None
          else
          match bs2 with
          | [] => None
          | c :: bs3 =>
              let c' := byte.unsigned c - 0x80 in
              let three := ((byte.unsigned a - 0xe0) * 4096 + b' * 64 + c', bs3) in
              if in_span 0xe0 0xe0 a
              then if in_span 0xa0 0xbf b && in_span 0x80 0xbf c then Some three else None
              else if in_span 0xed 0xed a
              then if in_span 0x80 0x9f b && in_span 0x80 0xbf c then Some three else None
              else if in_span 0xe1 0xef a
              then if in_span 0x80 0xbf b && in_span 0x80 0xbf c then Some three else None
              else
              match bs3 with
              | [] => None
              | d :: bs4 =>
                  if (if in_span 0xf0 0xf0 a then in_span 0x90 0xbf b
                      else if in_span 0xf1 0xf3 a then in_span 0x80 0xbf b
                      else in_span 0xf4 0xf4 a && in_span 0x80 0x8f b)
                     && in_span 0x80 0xbf c && in_span 0x80 0xbf d
                  then Some ((byte.unsigned a - 0xf0) * 262144 + b' * 4096 + c' * 64
                             + (byte.unsigned d - 0x80), bs4)
                  else None
              end
          end
      end
  end.

(** [n] characters at most; a string has no more characters than bytes. *)
Fixpoint read_chars (n : nat) (bs : bytes) : option str :=
  match bs with
  | [] => Some []
  | _ =>
      match n with
      | O => None
      | S n =>
          '(c, rest) ← next_char bs;
          s ← read_chars n rest;
          Some (c :: s)
      end
  end.
Definition from_utf8 (bs : bytes) : option str := read_chars (length bs) bs.

(** ** Lemmas *)

Lemma in_span_true lo hi b : in_span lo hi b = true ↔ lo ≤ byte.unsigned b ≤ hi.
Proof. unfold in_span. rewrite andb_true_iff, !Z.leb_le. lia. Qed.
Lemma in_span_false lo hi b : in_span lo hi b = false ↔ byte.unsigned b < lo ∨ hi < byte.unsigned b.
Proof. unfold in_span. rewrite andb_false_iff, !Z.leb_gt. lia. Qed.

Lemma unsigned_of_Z z : 0 ≤ z < 256 → byte.unsigned (byte.of_Z z) = z.
Proof. intros Hz. rewrite byte.unsigned_of_Z. unfold byte.wrap. by apply Z.mod_small. Qed.

Ltac span_facts :=
  repeat match goal with
  | H : in_span _ _ _ = true |- _ => apply in_span_true in H
  | H : in_span _ _ _ = false |- _ => apply in_span_false in H
  | H : _ && _ = true |- _ => apply andb_true_iff in H as [? ?]
  end.

Lemma of_Z_eq b z : byte.unsigned b = z → byte.of_Z z = b.
Proof. intros <-. apply byte.of_Z_unsigned. Qed.

(** The continuation bytes of a character. *)
Lemma low_bits q b n : 0 ≤ b < n → 0 < n → (q * n + b) mod n = b.
Proof. intros Hb Hn. rewrite Z.add_comm, Z.mod_add by lia. by apply Z.mod_small. Qed.
Lemma high_bits q b n : 0 ≤ b < n → 0 < n → (q * n + b) / n = q.
Proof. intros Hb Hn. rewrite Z.add_comm, Z.div_add, Z.div_small by lia. lia. Qed.

(** The characters of two, three and four bytes. *)
Lemma encode_two a b :
  2 ≤ a < 32 → 0 ≤ b < 64 → encode_utf8 (a * 64 + b) = [0xc0 + a; 0x80 + b].
Proof.
  intros Ha Hb. unfold encode_utf8. rewrite (proj2 (Z.ltb_ge _ _)), (proj2 (Z.ltb_lt _ _)) by lia.
  by rewrite high_bits, low_bits by lia.
Qed.
Lemma encode_three a b c :
  let x := a * 4096 + b * 64 + c in
  0 ≤ b < 64 → 0 ≤ c < 64 → 0x800 ≤ x < 0x10000 →
  encode_utf8 x = [0xe0 + a; 0x80 + b; 0x80 + c].
Proof.
  intros x Hb Hc Hx. unfold encode_utf8.
  rewrite !(proj2 (Z.ltb_ge x _)), (proj2 (Z.ltb_lt x _)) by lia.
  replace (x / 64) with (a * 64 + b) by
    (unfold x; replace (a * 4096 + b * 64 + c) with ((a * 64 + b) * 64 + c) by lia;
     by rewrite high_bits by lia).
  replace (x mod 64) with c by
    (unfold x; replace (a * 4096 + b * 64 + c) with ((a * 64 + b) * 64 + c) by lia;
     by rewrite low_bits by lia).
  replace (x / 4096) with a by (unfold x; rewrite <-Z.add_assoc; by rewrite high_bits by lia).
  by rewrite low_bits by lia.
Qed.
Lemma encode_four a b c d :
  let x := a * 262144 + b * 4096 + c * 64 + d in
  0 ≤ b < 64 → 0 ≤ c < 64 → 0 ≤ d < 64 → 0x10000 ≤ x →
  encode_utf8 x = [0xf0 + a; 0x80 + b; 0x80 + c; 0x80 + d].
Proof.
  intros x Hb Hc Hd Hx. unfold encode_utf8. rewrite !(proj2 (Z.ltb_ge x _)) by lia.
  assert (H64 : x = ((a * 64 + b) * 64 + c) * 64 + d) by lia.
  assert (H4096 : x = (a * 64 + b) * 4096 + (c * 64 + d)) by lia.
  assert (H262144 : x = a * 262144 + (b * 4096 + c * 64 + d)) by lia.
  replace (x mod 64) with d by (rewrite H64; by rewrite low_bits by lia).
  replace (x / 64) with ((a * 64 + b) * 64 + c) by (rewrite H64; by rewrite high_bits by lia).
  replace (x / 4096) with (a * 64 + b) by (rewrite H4096; by rewrite high_bits by lia).
  replace (x / 262144) with a by (rewrite H262144; by rewrite high_bits by lia).
  by rewrite !low_bits by lia.
Qed.

Lemma next_char_decode bs c rest :
  next_char bs = Some (c, rest) → bs = (byte.of_Z <$> encode_utf8 c) ++ rest ∧ scalar c.
Proof.
  unfold next_char, scalar. intros Hn. pose proof byte.unsigned_range as Hrange.
  repeat case_match; simplify_eq; span_facts.
  1: { unfold encode_utf8. pose proof (Hrange b). rewrite (proj2 (Z.ltb_lt _ _)) by lia. simpl.
       split; [|lia]. by rewrite byte.of_Z_unsigned. }
  1: { rewrite encode_two by lia. split; [|lia]. simpl.
       by rewrite !Zplus_minus, !byte.of_Z_unsigned. }
  1-3: rewrite encode_three by lia; split; [|lia]; simpl;
       by rewrite !Zplus_minus, !byte.of_Z_unsigned.
  all: rewrite encode_four by lia; split; [|lia]; simpl;
       by rewrite !Zplus_minus, !byte.of_Z_unsigned.
Qed.

Lemma in_span_of_Z lo hi z :
  0 ≤ z < 256 → in_span lo hi (byte.of_Z z) = (lo <=? z) && (z <=? hi).
Proof. intros Hz. unfold in_span. by rewrite unsigned_of_Z. Qed.

Ltac decide_spans :=
  rewrite ?in_span_of_Z by lia;
  repeat match goal with
  | |- context [?x <=? ?y] =>
      first [rewrite (proj2 (Z.leb_le x y)) by lia | rewrite (proj2 (Z.leb_gt x y)) by lia]
  end; cbn [andb].

Lemma next_char_encode c rest :
  scalar c → next_char ((byte.of_Z <$> encode_utf8 c) ++ rest) = Some (c, rest).
Proof.
  unfold scalar. intros Hc.
  destruct (decide (c < 0x80)).
  { unfold encode_utf8. rewrite (proj2 (Z.ltb_lt _ _)) by lia. simpl. decide_spans.
    by rewrite unsigned_of_Z by lia. }
  pose proof (Z.div_mod c 64 ltac:(done)) as H0. pose proof (Z.mod_pos_bound c 64 ltac:(done)) as Hm0.
  set (b0 := c mod 64) in *. set (q0 := c / 64) in *. clearbody b0 q0.
  destruct (decide (c < 0x800)).
  { replace c with (q0 * 64 + b0) by lia. rewrite encode_two by lia. simpl. decide_spans.
    by rewrite !unsigned_of_Z, !Z.add_simpl_l by lia. }
  pose proof (Z.div_mod q0 64 ltac:(done)) as H1. pose proof (Z.mod_pos_bound q0 64 ltac:(done)) as Hm1.
  set (b1 := q0 mod 64) in *. set (q1 := q0 / 64) in *. clearbody b1 q1.
  destruct (decide (c < 0x10000)).
  { replace c with (q1 * 4096 + b1 * 64 + b0) by lia. rewrite encode_three by lia. simpl.
    destruct (decide (q1 = 0)) as [->|]; [|destruct (decide (q1 = 13)) as [->|];
      [|destruct (decide (q1 < 13))]]; decide_spans;
      rewrite !unsigned_of_Z by lia; do 2 f_equal; lia. }
  pose proof (Z.div_mod q1 64 ltac:(done)) as H2. pose proof (Z.mod_pos_bound q1 64 ltac:(done)) as Hm2.
  set (b2 := q1 mod 64) in *. set (q2 := q1 / 64) in *. clearbody b2 q2.
  replace c with (q2 * 262144 + b2 * 4096 + b1 * 64 + b0) by lia. rewrite encode_four by lia. simpl.
  destruct (decide (q2 = 0)) as [->|]; [|destruct (decide (q2 = 4)) as [->|]]; decide_spans;
    rewrite !unsigned_of_Z by lia; do 2 f_equal; lia.
Qed.

Lemma encode_utf8_nonempty c : encode_utf8 c ≠ [].
Proof. unfold encode_utf8. by repeat case_match. Qed.
Lemma next_char_shorter bs c rest : next_char bs = Some (c, rest) → (length rest < length bs)%nat.
Proof.
  intros [-> _]%next_char_decode. rewrite length_app, length_fmap.
  pose proof (encode_utf8_nonempty c). destruct (encode_utf8 c); simpl; [done|lia].
Qed.

Lemma utf8_cons c s : utf8 (c :: s) = (byte.of_Z <$> encode_utf8 c) ++ utf8 s.
Proof. unfold utf8, as_bytes. simpl. by rewrite fmap_app. Qed.

Lemma read_chars_cons n bs :
  bs ≠ [] → read_chars (S n) bs = ('(c, rest) ← next_char bs; s ← read_chars n rest; Some (c :: s)).
Proof. by destruct bs. Qed.

Lemma read_chars_utf8 n s :
  Forall scalar s → (length (utf8 s) ≤ n)%nat → read_chars n (utf8 s) = Some s.
Proof.
  revert n. induction s as [|c s IH]; intros n Hs Hn; [by destruct n|].
  apply Forall_cons in Hs as [Hc Hs]. pose proof (next_char_encode c (utf8 s) Hc) as Hnext.
  rewrite <-utf8_cons in Hnext. pose proof (next_char_shorter _ _ _ Hnext).
  destruct n as [|n]; [lia|]. rewrite read_chars_cons by (intros He; by rewrite He in Hnext).
  rewrite Hnext. simpl. by rewrite IH by (done || lia).
Qed.

(** Reading the bytes of a string gives the string back. *)
Lemma from_utf8_utf8 s : Forall scalar s → from_utf8 (utf8 s) = Some s.
Proof. intros Hs. by apply read_chars_utf8. Qed.

Lemma read_chars_Some n bs s : read_chars n bs = Some s → bs = utf8 s ∧ Forall scalar s.
Proof.
  revert bs s. induction n as [|n IH]; intros bs s.
  { destruct bs; [|done]. by intros [= <-]. }
  destruct bs as [|b bs]; [by intros [= <-]|]. rewrite read_chars_cons by done.
  intros ([c rest] & Hn & (s' & Hs' & [= <-])%bind_Some)%bind_Some.
  apply next_char_decode in Hn as [-> Hc]. apply IH in Hs' as [-> Hs'].
  rewrite utf8_cons. split; [done|]. by constructor.
Qed.
Lemma from_utf8_Some bs s : from_utf8 bs = Some s → bs = utf8 s ∧ Forall scalar s.
Proof. apply read_chars_Some. Qed.

Lemma from_utf8_inj bs bs' s : from_utf8 bs = Some s → from_utf8 bs' = Some s → bs = bs'.
Proof. intros [-> _]%from_utf8_Some [-> _]%from_utf8_Some. done. Qed.

Lemma utf8_inj s s' : Forall scalar s → Forall scalar s' → utf8 s = utf8 s' → s = s'.
Proof.
  intros Hs Hs' Heq. apply from_utf8_utf8 in Hs, Hs'. rewrite Heq in Hs. congruence.
Qed.

(** [from_utf8] succeeds on the bytes that [str::from_utf8] accepts. *)
Lemma utf8_valid_next bs :
  bs ≠ [] → utf8_valid bs = match next_char bs with Some (_, rest) => utf8_valid rest | None => false end.
Proof.
  destruct bs as [|a bs1]; [done|]. intros _. simpl.
  destruct bs1 as [|b [|c [|d bs4]]];
    repeat (match goal with |- context [in_span ?lo ?hi ?x] => destruct (in_span lo hi x) end;
            cbn [andb]; try done).
Qed.

Lemma read_chars_valid n bs : (length bs ≤ n)%nat → utf8_valid bs = true ↔ is_Some (read_chars n bs).
Proof.
  revert bs. induction n as [|n IH]; intros bs Hn; destruct bs as [|b bs].
  - simpl. split; [by eexists|done].
  - simpl in Hn. lia.
  - simpl. split; [by eexists|done].
  - rewrite utf8_valid_next, read_chars_cons by done.
    destruct (next_char (b :: bs)) as [[c rest]|] eqn:Hnext; simpl.
    + apply next_char_shorter in Hnext. rewrite IH by lia.
      destruct (read_chars n rest); simpl; split; intros [x Hx]; (done || by eexists).
    + split; [done|]. by intros [x Hx].
Qed.
Lemma from_utf8_valid bs : utf8_valid bs = true ↔ is_Some (from_utf8 bs).
Proof. by apply read_chars_valid. Qed.

(** *** Order

    [str] is ordered by its bytes; the order is total on strings. *)
Lemma bytes_lt_total a b : bytes_lt a b = false → bytes_lt b a = false → a = b.
Proof.
  revert b. induction a as [|x a IH]; intros [|y b]; simpl; try done.
  rewrite !orb_false_iff, !andb_false_iff, !Z.ltb_ge, !Z.eqb_neq. intros [Hxy Ha] [Hyx Hb].
  assert (x = y) as -> by lia. f_equal. apply IH; [by destruct Ha|by destruct Hb].
Qed.

Lemma encode_utf8_bytes c : scalar c → Forall (λ z, 0 ≤ z < 256) (encode_utf8 c).
Proof.
  unfold scalar, encode_utf8. intros Hc.
  pose proof (Z.mod_pos_bound c 64 ltac:(done)).
  pose proof (Z.mod_pos_bound (c / 64) 64 ltac:(done)).
  pose proof (Z.mod_pos_bound (c / 4096) 64 ltac:(done)).
  pose proof (Z.mul_div_le c 64 ltac:(done)). pose proof (Z.mul_div_le c 4096 ltac:(done)).
  pose proof (Z.mul_div_le c 262144 ltac:(done)).
  assert (0 ≤ c / 64 ∧ 0 ≤ c / 4096 ∧ 0 ≤ c / 262144) by (repeat split; apply Z.div_pos; lia).
  repeat case_match; repeat constructor; lia.
Qed.
Lemma as_bytes_utf8 s : Forall scalar s → as_bytes s = byte.unsigned <$> utf8 s.
Proof.
  intros Hs. unfold utf8. rewrite <-list_fmap_compose. rewrite <-(list_fmap_id (as_bytes s)) at 1.
  apply list_fmap_ext. intros i z Hz. simpl. apply list_elem_of_lookup_2 in Hz.
  unfold as_bytes in Hz. apply list_elem_of_bind in Hz as (c & Hz & Hc).
  rewrite Forall_forall in Hs. specialize (Hs c Hc). apply encode_utf8_bytes in Hs.
  rewrite Forall_forall in Hs. symmetry. by apply unsigned_of_Z, Hs.
Qed.
Lemma as_bytes_inj s s' : Forall scalar s → Forall scalar s' → as_bytes s = as_bytes s' → s = s'.
Proof. intros Hs Hs' Heq. apply utf8_inj; [done..|]. unfold utf8. by rewrite Heq. Qed.
