(* ===== verification/Rpc.v ===== *)
(** * Errors of the remote calls: [RpcError] of src/crates/kindlebridge-schema/src/lib.rs *)

From S2P Require Import Prelude Text.

Module error_codes.
Definition INVALID_PARAMS : Z := -32602.
Definition INTERNAL_ERROR : Z := -32603.
Definition INVALID_STATE : Z := -32010.
Definition CHECKSUM_MISMATCH : Z := -32011.
Definition TRANSFER_NOT_FOUND : Z := -32012.
Definition FILE_NOT_FOUND : Z := -32013.
Definition APP_NOT_FOUND : Z := -32020.
Definition NO_ROLLBACK_AVAILABLE : Z := -32021.
Definition APP_INSTALL_FAILED : Z := -32022.
End error_codes.

(** [RpcError]; its data is an object with text fields. *)
Record RpcError : Type := {
  code : Z;
  message : bytes;
  data : option (list (bytes * bytes));
}.
Definition rpc_new (code : Z) (message : string) : RpcError :=
  {| code := code; message := text message; data := None |}.
Definition with_fields (fields : list (string * bytes)) (e : RpcError) : RpcError :=
  {| code := code e; message := message e;
     data := Some ((λ f, (text f.1, f.2)) <$> fields) |}.
Definition with_data (field : string) (value : bytes) (e : RpcError) : RpcError :=
  with_fields [(field, value)] e.
Definition invalid_params (detail : bytes) : RpcError :=
  with_data "detail" detail (rpc_new error_codes.INVALID_PARAMS "Invalid params").
Definition internal_error : RpcError := rpc_new error_codes.INTERNAL_ERROR "Internal error".
