(* ===== verification/SyncTransaction.v ===== *)
(** * Sync transactions: src/device/kindlebridged/src/sync.rs, first part

    [SyncTransaction] tracks which blocks of which files of one transaction have
    arrived.  It does no I/O: blocks and files are named by their digests.  Every
    method is a [M SyncTransaction SyncError unit]; a [BTreeMap] is a [gmap], whose
    order no method looks at. *)

From S2P Require Import Prelude BundleError Paths.
Local Open Scope Z_scope.

(** ** Data *)

Definition SYNC_BLOCK_SIZE : Z := 65536.

Record SyncFileSpec : Type := {
  spec_path : str;
  spec_size : Z;
  spec_digest : bytes;
}.

Record SyncFileState : Type := {
  file_spec : SyncFileSpec;
  received : gmap Z bytes;
  verified : bool;
}.

Module SyncPhase.
Inductive SyncPhase : Type := Receiving | ReadyToCommit | Committed | Aborted.
#[export] Instance SyncPhase_eq_dec : EqDecision SyncPhase.
Proof. solve_decision. Defined.
End SyncPhase.
Import (hints) SyncPhase.
Abbreviation SyncPhase := SyncPhase.SyncPhase.

Record SyncTransaction : Type := {
  transaction_id : str;
  phase : SyncPhase;
  files : gmap str SyncFileState;
}.

Inductive SyncError : Type :=
| InvalidTransactionId
| DuplicatePath (path : str)
| CaseCollision (first second : str)
| UnknownPath (path : str)
| InvalidBlockIndex (index : Z)
| InvalidBlockLength (expected actual : Z)
| ConflictingResumeBlock (index : Z)
| MissingBlocks
| FileDigestMismatch
| NotReceiving
| NotReadyToCommit
| TerminalTransaction.

Definition set_received (r : gmap Z bytes) (f : SyncFileState) : SyncFileState :=
  {| file_spec := file_spec f; received := r; verified := verified f |}.
Definition set_verified (f : SyncFileState) : SyncFileState :=
  {| file_spec := file_spec f; received := received f; verified := true |}.
Definition set_sync_phase (p : SyncPhase) (t : SyncTransaction) : SyncTransaction :=
  {| transaction_id := transaction_id t; phase := p; files := files t |}.
Definition set_file (path : str) (f : SyncFileState) (t : SyncTransaction) : SyncTransaction :=
  {| transaction_id := transaction_id t; phase := phase t; files := <[path := f]> (files t) |}.

(** ** [SyncFileState] *)

(** [size.div_ceil(SYNC_BLOCK_SIZE)] as a [u32], or [u32::MAX]. *)
Definition block_count (f : SyncFileState) : Z :=
  let blocks := (spec_size (file_spec f) + (SYNC_BLOCK_SIZE - 1)) / SYNC_BLOCK_SIZE in
  if blocks <=? u32_max then blocks else u32_max.

Definition expected_block_len (f : SyncFileState) (index : Z) : option Z :=
  let count := block_count f in
  if count <=? index then None
  else if index + 1 <? count then Some SYNC_BLOCK_SIZE
  else Some (spec_size (file_spec f) - index * SYNC_BLOCK_SIZE).

Definition complete (f : SyncFileState) : bool :=
  verified f && (Z.of_nat (base.size (received f)) =? block_count f).

(** ** [SyncTransaction] *)

Abbreviation sync_op A := (M SyncTransaction SyncError A).

(** The loop of [SyncTransaction::new] over the specifications. *)
Fixpoint insert_specs (specs : list SyncFileSpec) (files : gmap str SyncFileState)
    (folded_paths : gmap str str) : result SyncError (gmap str SyncFileState) :=
  match specs with
  | [] => Ok files
  | spec :: specs =>
      let folded := ascii_case_fold_key (spec_path spec) in
      match folded_paths !! folded with
      | Some previous => Err (CaseCollision previous (spec_path spec))
      | None =>
          match files !! spec_path spec with
          | Some _ => Err (DuplicatePath (spec_path spec))
          | None =>
              insert_specs specs
                (<[spec_path spec := {| file_spec := spec; received := ∅; verified := false |}]> files)
                (<[folded := spec_path spec]> folded_paths)
          end
      end
  end.

Definition transaction_new (id : str) (specs : list SyncFileSpec) :
    result SyncError SyncTransaction :=
  check? reject_if (bool_decide (id = []) || (128 <? str_len id)) InvalidTransactionId in
  let? files := insert_specs specs ∅ ∅ in
  Ok {| transaction_id := id; phase := SyncPhase.Receiving; files := files |}.

Definition require_receiving : sync_op unit :=
  let! t := mget in
  mlift (reject_if (bool_decide (phase t ≠ SyncPhase.Receiving)) NotReceiving).

(** [self.files.get_mut(path)]. *)
Definition get_file (path : str) : sync_op SyncFileState :=
  let! t := mget in
  mlift (ok_or (files t !! path) (UnknownPath path)).

(** [file.received.insert(index, digest)], which returns what was there. *)
Definition insert_block (path : str) (f : SyncFileState) (index : Z) (digest : bytes) :
    sync_op (option bytes) :=
  do! mmodify (set_file path (set_received (<[index := digest]> (received f)) f)) in
  mret (received f !! index).

Definition record_block (path : str) (index raw_len : Z) (digest : bytes) : sync_op unit :=
  do! require_receiving in
  let! file := get_file path in
  let! expected := mlift (ok_or (expected_block_len file index) (InvalidBlockIndex index)) in
  do! mlift (reject_if (negb (raw_len =? expected)) (InvalidBlockLength expected raw_len)) in
  let! previous := insert_block path file index digest in
  match previous with
  | Some previous =>
      if bool_decide (previous ≠ digest) then
        let! file := get_file path in
        let! _ := insert_block path file index previous in
        mfail (ConflictingResumeBlock index)
      else mret tt
  | None => mret tt
  end.

Definition all_complete (t : SyncTransaction) : bool :=
  forallb (λ e, complete e.2) (map_to_list (files t)).

Definition verify_file (path : str) (actual_digest : bytes) : sync_op unit :=
  do! require_receiving in
  let! file := get_file path in
  do! mlift (reject_if (negb (Z.of_nat (base.size (received file)) =? block_count file)) MissingBlocks) in
  do! mlift (reject_if (bool_decide (actual_digest ≠ spec_digest (file_spec file)))
               FileDigestMismatch) in
  do! mmodify (set_file path (set_verified file)) in
  let! t := mget in
  if all_complete t then mmodify (set_sync_phase SyncPhase.ReadyToCommit) else mret tt.

Definition commit : sync_op unit :=
  let! t := mget in
  do! mlift (reject_if (bool_decide (phase t ≠ SyncPhase.ReadyToCommit)) NotReadyToCommit) in
  mmodify (set_sync_phase SyncPhase.Committed).

Definition abort : sync_op unit :=
  let! t := mget in
  do! mlift (reject_if (bool_decide (phase t = SyncPhase.Committed) || bool_decide (phase t = SyncPhase.Aborted))
               TerminalTransaction) in
  mmodify (set_sync_phase SyncPhase.Aborted).

(** ** Runs

    The calls the owner of a transaction makes, in order; a call that fails is
    followed by the next. *)
Inductive SyncCall : Type :=
| RecordBlock (path : str) (index raw_len : Z) (digest : bytes)
| VerifyFile (path : str) (digest : bytes)
| Commit
| Abort.

Definition sync_call (c : SyncCall) : sync_op unit :=
  match c with
  | RecordBlock path index raw_len digest => record_block path index raw_len digest
  | VerifyFile path digest => verify_file path digest
  | Commit => commit
  | Abort => abort
  end.

Definition sync_run (calls : list SyncCall) (t : SyncTransaction) : SyncTransaction :=
  foldl (λ t c, (sync_call c t).1) t calls.

(** The values of the machine types. *)
Definition spec_typed (s : SyncFileSpec) : Prop := u64 (spec_size s).
Definition call_typed (c : SyncCall) : Prop :=
  match c with
  | RecordBlock _ index raw_len _ => u32 index ∧ u64 raw_len
  | _ => True
  end.

(** ** The blocks of a file *)

Definition fresh_file (s : SyncFileSpec) : SyncFileState :=
  {| file_spec := s; received := ∅; verified := false |}.

Lemma block_count_spec f g : file_spec f = file_spec g → block_count f = block_count g.
Proof. unfold block_count. by intros ->. Qed.
Lemma expected_block_len_spec f g i :
  file_spec f = file_spec g → expected_block_len f i = expected_block_len g i.
Proof. intros Hs. unfold expected_block_len. by rewrite (block_count_spec f g Hs), Hs. Qed.

(** The number of blocks before it is cut to a [u32]. *)
Lemma blocks_bounds s :
  0 ≤ s →
  let q := (s + (SYNC_BLOCK_SIZE - 1)) / SYNC_BLOCK_SIZE in
  0 ≤ q ∧ s ≤ q * SYNC_BLOCK_SIZE < s + SYNC_BLOCK_SIZE.
Proof.
  intros Hs q. subst q. unfold SYNC_BLOCK_SIZE.
  pose proof (Z.div_mod (s + (65536 - 1)) 65536 ltac:(done)) as Hd.
  pose proof (Z.mod_pos_bound (s + (65536 - 1)) 65536 ltac:(done)) as Hm.
  generalize dependent ((s + (65536 - 1)) / 65536). generalize dependent ((s + (65536 - 1)) mod 65536).
  intros. lia.
Qed.

(** [block_count], by its defining property. *)
Lemma block_count_cases f :
  spec_typed (file_spec f) →
  0 ≤ block_count f ≤ u32_max ∧
  (block_count f - 1) * SYNC_BLOCK_SIZE < spec_size (file_spec f) ∧
  (block_count f = u32_max ∨ spec_size (file_spec f) ≤ block_count f * SYNC_BLOCK_SIZE).
Proof.
  intros [Hs _]. unfold block_count. pose proof (blocks_bounds (spec_size (file_spec f)) Hs) as Hb.
  cbv zeta in Hb. generalize dependent ((spec_size (file_spec f) + (SYNC_BLOCK_SIZE - 1)) / SYNC_BLOCK_SIZE).
  intros q [Hq Hb]. cbv zeta. unfold SYNC_BLOCK_SIZE, u32_max in *. case_match eqn:Hc; lia.
Qed.

Lemma expected_block_len_Some f i n :
  expected_block_len f i = Some n → i < block_count f.
Proof. unfold expected_block_len. case_match; [done|]. intros _. lia. Qed.

(** All blocks but the last are full, and the last one is not empty. *)
Lemma expected_block_len_pos f i n :
  spec_typed (file_spec f) → 0 ≤ i → expected_block_len f i = Some n → 0 < n.
Proof.
  intros Hs Hi. pose proof (block_count_cases f Hs) as (_ & Hlt & _). unfold expected_block_len.
  case_match eqn:Hc; [done|]. case_match eqn:Hl; intros [= <-]; [done|].
  unfold SYNC_BLOCK_SIZE in *. lia.
Qed.

(** The lengths of the first [n] blocks. *)
Definition blocks_len (f : SyncFileState) (n : nat) : Z :=
  foldr Z.add 0 (default 0 ∘ expected_block_len f <$> seqZ 0 (Z.of_nat n)).

Lemma foldr_add_snoc l x : foldr Z.add 0 (l ++ [x]) = foldr Z.add 0 l + x.
Proof. induction l as [|y l IH]; simpl; lia. Qed.

Lemma blocks_len_S f n :
  blocks_len f (S n) = blocks_len f n + default 0 (expected_block_len f (Z.of_nat n)).
Proof.
  unfold blocks_len. rewrite seqZ_S, fmap_app. simpl.
  by rewrite foldr_add_snoc.
Qed.

Lemma blocks_len_full f n :
  Z.of_nat n < block_count f → blocks_len f n = Z.of_nat n * SYNC_BLOCK_SIZE.
Proof.
  induction n as [|n IH]; intros Hn; [done|]. rewrite blocks_len_S, IH by lia.
  unfold expected_block_len. rewrite (proj2 (Z.leb_gt _ _)), (proj2 (Z.ltb_lt _ _)) by lia.
  simpl. lia.
Qed.

(** The blocks cover the file, whatever its size: a file of more than
    [u32::MAX] blocks has a longer last block. *)
Lemma blocks_cover_file f :
  spec_typed (file_spec f) → blocks_len f (Z.to_nat (block_count f)) = spec_size (file_spec f).
Proof.
  intros Hs. pose proof (block_count_cases f Hs) as (Hr & _ & Hhi). destruct Hs as [Hs _].
  destruct (Z.to_nat (block_count f)) as [|n] eqn:Hn.
  - unfold blocks_len. simpl. unfold u32_max, SYNC_BLOCK_SIZE in *. lia.
  - rewrite blocks_len_S, blocks_len_full by lia. unfold expected_block_len.
    rewrite (proj2 (Z.leb_gt _ _)), (proj2 (Z.ltb_ge _ _)) by lia. simpl. lia.
Qed.

(** ** What the calls do *)

Lemma set_file_same t path f : files t !! path = Some f → set_file path f t = t.
Proof. intros Hf. unfold set_file. rewrite insert_id by done. by destruct t. Qed.

(** The checks of [record_block]. *)
Definition admits_block (t : SyncTransaction) (path : str) (index raw_len : Z) (f : SyncFileState) :
    Prop :=
  phase t = SyncPhase.Receiving ∧ files t !! path = Some f ∧
  expected_block_len f index = Some raw_len.

(** A block is recorded once; the same digest may come again, another may not. *)
Lemma record_block_cases path index raw_len digest t :
  match record_block path index raw_len digest t with
  | (t', Ok tt) =>
      ∃ f, admits_block t path index raw_len f ∧
           (received f !! index = None ∧
            t' = set_file path (set_received (<[index := digest]> (received f)) f) t ∨
            received f !! index = Some digest ∧ t' = t)
  | (t', Err _) => t' = t
  end.
Proof.
  unfold record_block, require_receiving, get_file, insert_block, mbnd, admits_block. simpl.
  case_bool_decide as Hphase; simpl; [done|].
  destruct (files t !! path) as [f|] eqn:Hf; simpl; [|done].
  destruct (expected_block_len f index) as [n|] eqn:Hn; simpl; [|done].
  destruct (Z.eqb_spec raw_len n) as [<-|Hne]; simpl; [|done].
  destruct (received f !! index) as [previous|] eqn:Hp; simpl; [|by exists f; eauto 6].
  assert (Hback : set_received (<[index := previous]> (received f)) f = f)
    by (unfold set_received; rewrite insert_id by done; by destruct f).
  destruct (decide (previous = digest)) as [<-|Hd].
  - rewrite bool_decide_eq_false_2 by auto. simpl. exists f.
    rewrite Hback, set_file_same by done. eauto 6.
  - rewrite bool_decide_eq_true_2 by done. simpl. rewrite lookup_insert, decide_True by done. simpl.
    unfold set_file. simpl. rewrite insert_insert_eq. simpl.
    unfold set_received at 1. simpl. rewrite insert_insert_eq.
    change (set_file path (set_received (<[index := previous]> (received f)) f) t = t).
    by rewrite Hback, set_file_same.
Qed.

Lemma verify_file_cases path digest t :
  match verify_file path digest t with
  | (t', Ok tt) =>
      ∃ f, phase t = SyncPhase.Receiving ∧ files t !! path = Some f ∧
           Z.of_nat (base.size (received f)) = block_count f ∧ digest = spec_digest (file_spec f) ∧
           let t1 := set_file path (set_verified f) t in
           t' = if all_complete t1 then set_sync_phase SyncPhase.ReadyToCommit t1 else t1
  | (t', Err _) => t' = t
  end.
Proof.
  unfold verify_file, require_receiving, get_file, mbnd. simpl.
  case_bool_decide as Hphase; simpl; [done|].
  destruct (files t !! path) as [f|] eqn:Hf; simpl; [|done].
  destruct (Z.eqb_spec (Z.of_nat (base.size (received f))) (block_count f)); simpl; [|done].
  destruct (decide (digest = spec_digest (file_spec f))) as [->|Hd];
    [rewrite bool_decide_eq_false_2 by auto|by rewrite bool_decide_eq_true_2]. simpl.
  destruct (all_complete _) eqn:Hall; simpl; exists f; by rewrite Hall.
Qed.

Lemma commit_cases t :
  match commit t with
  | (t', Ok tt) => phase t = SyncPhase.ReadyToCommit ∧ t' = set_sync_phase SyncPhase.Committed t
  | (t', Err _) => t' = t
  end.
Proof. unfold commit, mbnd. simpl. by case_bool_decide; simpl. Qed.

Lemma abort_cases t :
  match abort t with
  | (t', Ok tt) => phase t ≠ SyncPhase.Committed ∧ t' = set_sync_phase SyncPhase.Aborted t
  | (t', Err _) => t' = t
  end.
Proof. unfold abort, mbnd. simpl. by repeat case_bool_decide; simpl. Qed.

(** A call that fails changes nothing, a conflicting block put back included. *)
Lemma sync_call_atomic c : atomic (sync_call c).
Proof.
  intros t t' e Hrun. destruct c as [path index raw_len digest|path digest| |]; simpl in Hrun.
  - pose proof (record_block_cases path index raw_len digest t) as H. by rewrite Hrun in H.
  - pose proof (verify_file_cases path digest t) as H. by rewrite Hrun in H.
  - pose proof (commit_cases t) as H. by rewrite Hrun in H.
  - pose proof (abort_cases t) as H. by rewrite Hrun in H.
Qed.

(** ** The invariant

    What the state says about the calls made so far. *)

(** Every block of [s] was recorded, with its length. *)
Definition delivered (calls : list SyncCall) (s : SyncFileSpec) : Prop :=
  ∀ index, 0 ≤ index < block_count (fresh_file s) →
    ∃ n digest, expected_block_len (fresh_file s) index = Some n ∧
                RecordBlock (spec_path s) index n digest ∈ calls.
(** They were, and the file was then found to have the digest announced for it. *)
Definition confirmed (calls : list SyncCall) (s : SyncFileSpec) : Prop :=
  ∃ before after, calls = before ++ VerifyFile (spec_path s) (spec_digest s) :: after ∧
                  delivered before s.

Record file_traced (calls : list SyncCall) (path : str) (f : SyncFileState) : Prop := {
  traced_path : spec_path (file_spec f) = path;
  traced_block : ∀ index digest, received f !! index = Some digest →
    0 ≤ index ∧ ∃ n, expected_block_len f index = Some n ∧ RecordBlock path index n digest ∈ calls;
  traced_verified : verified f = true → confirmed calls (file_spec f);
}.

Record traced (specs : list SyncFileSpec) (calls : list SyncCall) (t : SyncTransaction) : Prop := {
  traced_specs : ∀ s, s ∈ specs → ∃ f, files t !! spec_path s = Some f ∧ file_spec f = s;
  traced_files : ∀ path f, files t !! path = Some f → file_traced calls path f;
  traced_ready : phase t = SyncPhase.ReadyToCommit ∨ phase t = SyncPhase.Committed →
    ∀ path f, files t !! path = Some f → verified f = true;
}.

Lemma delivered_app calls calls' s : delivered calls s → delivered (calls ++ calls') s.
Proof.
  intros Hd index Hi. destruct (Hd index Hi) as (n & d & Hn & Hc). exists n, d.
  split; [done|]. apply elem_of_app. by left.
Qed.
Lemma confirmed_app calls calls' s : confirmed calls s → confirmed (calls ++ calls') s.
Proof.
  intros (before & after & -> & Hd). exists before, (after ++ calls').
  by rewrite <-app_assoc.
Qed.
Lemma file_traced_app calls calls' path f : file_traced calls path f → file_traced (calls ++ calls') path f.
Proof.
  intros [Hp Hb Hv]. split; [done| |].
  - intros index digest Hr. destruct (Hb index digest Hr) as (Hi & n & Hn & Hc).
    split; [done|]. exists n. split; [done|]. apply elem_of_app. by left.
  - intros. by apply confirmed_app, Hv.
Qed.
Lemma traced_app specs calls calls' t : traced specs calls t → traced specs (calls ++ calls') t.
Proof.
  intros [Hs Hf Hr]. split; [done| |done]. intros path f Hp. by apply file_traced_app, Hf.
Qed.

(** As many blocks as the file has: all of them. *)
Lemma all_blocks_delivered calls path f :
  file_traced calls path f → Z.of_nat (base.size (received f)) = block_count f →
  delivered calls (file_spec f).
Proof.
  intros Hf Hsize index Hi.
  rewrite (block_count_spec _ f) in Hi by done.
  assert (Hdom : dom (received f) = list_to_set (seqZ 0 (block_count f))).
  { apply set_subseteq_size_eq.
    - intros i [digest Hd]%elem_of_dom. apply (traced_block _ _ _ Hf) in Hd as (Hi0 & n & Hn & _).
      apply expected_block_len_Some in Hn. apply elem_of_list_to_set, elem_of_seqZ. lia.
    - rewrite size_list_to_set, length_seqZ by apply NoDup_seqZ. rewrite size_dom. lia. }
  assert (Hin : index ∈ dom (received f)) by (rewrite Hdom; apply elem_of_list_to_set, elem_of_seqZ; lia).
  apply elem_of_dom in Hin as [digest Hd]. destruct (traced_block _ _ _ Hf _ _ Hd) as (_ & n & Hn & Hc).
  exists n, digest. rewrite (expected_block_len_spec _ f) by done. by rewrite (traced_path _ _ _ Hf).
Qed.

Lemma all_complete_spec t :
  all_complete t = true → ∀ path f, files t !! path = Some f → verified f = true.
Proof.
  unfold all_complete. intros Hall path f Hf. rewrite forallb_forall in Hall.
  apply elem_of_map_to_list, list_elem_of_In, Hall, andb_true_iff in Hf as [Hv _]. done.
Qed.

(** One file of the transaction changes. *)
Lemma traced_set_file specs calls t path f g :
  traced specs calls t → phase t = SyncPhase.Receiving → files t !! path = Some f →
  file_spec g = file_spec f → file_traced calls path g → traced specs calls (set_file path g t).
Proof.
  intros [Hs Hf Hr] Hphase Hpath Hspec Hg. split; simpl.
  - intros s Hin. destruct (Hs s Hin) as (h & Hh & <-).
    destruct (decide (path = spec_path (file_spec h))) as [->|Hne].
    + rewrite lookup_insert, decide_True by done. exists g. split; [done|]. congruence.
    + rewrite lookup_insert_ne by done. eauto.
  - intros path' h. destruct (decide (path = path')) as [->|Hne].
    + rewrite lookup_insert, decide_True by done. by intros [= <-].
    + rewrite lookup_insert_ne by done. apply Hf.
  - intros Hph. destruct Hph; congruence.
Qed.

Lemma traced_phase specs calls t p :
  traced specs calls t → p = SyncPhase.Receiving ∨ p = SyncPhase.Aborted →
  traced specs calls (set_sync_phase p t).
Proof. intros [Hs Hf _] Hp. split; [done..|]. simpl. intros [->| ->]; by destruct Hp. Qed.

Lemma traced_record specs calls t path index raw_len digest :
  traced specs calls t → call_typed (RecordBlock path index raw_len digest) →
  traced specs (calls ++ [RecordBlock path index raw_len digest])
    (record_block path index raw_len digest t).1.
Proof.
  intros Ht [[Hi _] _]. pose proof (record_block_cases path index raw_len digest t) as Hc.
  apply (traced_app _ _ [RecordBlock path index raw_len digest]) in Ht.
  destruct (record_block path index raw_len digest t) as [t' [[]|e]]; simpl; [|by subst].
  destruct Hc as (f & (Hphase & Hpath & Hn) & [[Hr ->]|[Hr ->]]); [|done].
  eapply traced_set_file; [done..|].
  destruct (traced_files _ _ _ Ht _ _ Hpath) as [Hp Hb Hv]. split; [done| |done]. simpl.
  intros index' digest'. destruct (decide (index = index')) as [<-|Hne].
  - rewrite lookup_insert_eq. intros [= <-]. split; [done|]. exists raw_len. split; [done|].
    apply elem_of_app. right. by left.
  - rewrite lookup_insert_ne by done. apply Hb.
Qed.

Lemma traced_verify specs calls t path digest :
  traced specs calls t →
  traced specs (calls ++ [VerifyFile path digest]) (verify_file path digest t).1.
Proof.
  intros Ht. pose proof (verify_file_cases path digest t) as Hc.
  destruct (verify_file path digest t) as [t' [[]|e]]; simpl; [|subst; by apply traced_app].
  destruct Hc as (f & Hphase & Hpath & Hsize & -> & Ht').
  pose proof (traced_files _ _ _ Ht _ _ Hpath) as Hf.
  assert (Hconf : confirmed (calls ++ [VerifyFile path (spec_digest (file_spec f))]) (file_spec f)).
  { exists calls, []. split; [by rewrite (traced_path _ _ _ Hf)|]. by eapply all_blocks_delivered. }
  apply (traced_app _ _ [VerifyFile path (spec_digest (file_spec f))]) in Ht.
  apply (traced_set_file _ _ _ path f (set_verified f)) in Ht; [|done..|].
  - rewrite Ht'. destruct (all_complete _) eqn:Hall; [|done]. destruct Ht as [Hs Hfs _].
    split; [done..|]. intros _. by apply all_complete_spec.
  - destruct (file_traced_app _ [VerifyFile path (spec_digest (file_spec f))] _ _ Hf) as [Hp Hb _].
    by split.
Qed.

Lemma traced_call specs calls t c :
  traced specs calls t → call_typed c → traced specs (calls ++ [c]) (sync_call c t).1.
Proof.
  intros Ht Hc. destruct c as [path index raw_len digest|path digest| |]; simpl.
  - by apply traced_record.
  - by apply traced_verify.
  - pose proof (commit_cases t) as Hcases. apply (traced_app _ _ [Commit]) in Ht.
    destruct (commit t) as [t' [[]|e]]; simpl; [|by subst]. destruct Hcases as [Hphase ->].
    destruct Ht as [Hs Hf Hr]. split; [done..|]. intros _. apply Hr. by left.
  - pose proof (abort_cases t) as Hcases. apply (traced_app _ _ [Abort]) in Ht.
    destruct (abort t) as [t' [[]|e]]; simpl; [|by subst]. destruct Hcases as [_ ->].
    apply traced_phase; auto.
Qed.

Lemma traced_run specs before calls t :
  traced specs before t → Forall call_typed calls → traced specs (before ++ calls) (sync_run calls t).
Proof.
  revert before t. induction calls as [|c calls IH]; intros before t Ht Hc; simpl.
  - by rewrite app_nil_r.
  - apply Forall_cons in Hc as [Hc Hcs]. rewrite cons_middle, app_assoc. apply IH; [|done].
    by apply traced_call.
Qed.

(** *** The first state *)

Lemma insert_specs_inv specs fs folded fs' :
  insert_specs specs fs folded = Ok fs' →
  (∀ path f, fs !! path = Some f → folded !! ascii_case_fold_key path = Some path) →
  (∀ path f, fs !! path = Some f → fs' !! path = Some f) ∧
  (∀ s, s ∈ specs → fs' !! spec_path s = Some (fresh_file s)) ∧
  (∀ path f, fs' !! path = Some f → fs !! path = Some f ∨ ∃ s, f = fresh_file s ∧ spec_path s = path).
Proof.
  revert fs folded. induction specs as [|s specs IH]; intros fs folded; simpl.
  - intros [= ->] Hfold. split; [done|]. split; [|by left]. intros s Hs. by apply elem_of_nil in Hs.
  - destruct (folded !! _) eqn:Hk; [done|]. destruct (fs !! spec_path s) eqn:Hp; [done|].
    intros Hrun Hfold. apply IH in Hrun as (Hold & Hnew & Hall).
    + split; [|split].
      * intros path f Hf. apply Hold. rewrite lookup_insert_ne; [done|]. congruence.
      * intros s' [->|Hs']%elem_of_cons; [|by apply Hnew]. apply Hold. by rewrite lookup_insert_eq.
      * intros path f [Hf|Hf]%Hall; [|by right].
        destruct (decide (spec_path s = path)) as [<-|Hne].
        -- rewrite lookup_insert_eq in Hf. injection Hf as <-. right. by exists s.
        -- rewrite lookup_insert_ne in Hf by done. by left.
    + intros path f. destruct (decide (spec_path s = path)) as [<-|Hne].
      * by rewrite !lookup_insert_eq.
      * rewrite lookup_insert_ne by done. intros Hf%Hfold.
        rewrite lookup_insert_ne; [done|]. intros Heq. rewrite <-Heq in Hf. congruence.
Qed.

Lemma transaction_new_traced id specs t : transaction_new id specs = Ok t → traced specs [] t.
Proof.
  unfold transaction_new. intros Hnew. result_inv.
  match goal with H : insert_specs _ _ _ = Ok _ |- _ =>
    apply insert_specs_inv in H as (_ & Hspecs & Hfiles); [|by intros path f]
  end.
  split; simpl.
  - intros s Hs%Hspecs. by eexists.
  - intros path f [Hf|(s & -> & <-)]%Hfiles; [done|]. by split.
  - by intros [?|?].
Qed.

(** Two files whose paths differ in ASCII case only are refused, and so is a path
    given twice: [DuplicatePath] is never returned. *)
Lemma case_collision_is_refused id specs t s s' i j :
  transaction_new id specs = Ok t → specs !! i = Some s → specs !! j = Some s' → i ≠ j →
  ascii_case_fold_key (spec_path s) ≠ ascii_case_fold_key (spec_path s').
Proof.
  unfold transaction_new. intros Hnew. result_inv. rename select (insert_specs _ _ _ = Ok _) into Hrun.
  assert (Hfresh : ∀ specs fs folded fs' k n u,
    insert_specs specs fs folded = Ok fs' → is_Some (folded !! k) → specs !! n = Some u →
    ascii_case_fold_key (spec_path u) ≠ k).
  { clear. induction specs as [|s specs IH]; intros fs folded fs' k n u; simpl; [done|].
    destruct (folded !! ascii_case_fold_key (spec_path s)) eqn:Hk; [done|].
    destruct (fs !! _); [done|]. intros Hrun [x Hx] Hn.
    destruct n as [|n]; simpl in Hn; [injection Hn as <-; congruence|].
    eapply IH; [exact Hrun| |exact Hn]. rewrite lookup_insert_ne by congruence. by exists x. }
  clear -Hrun Hfresh. generalize dependent x0. generalize (∅ : gmap str SyncFileState), (∅ : gmap str str).
  revert i j. induction specs as [|s0 specs IH]; intros i j fs folded fs' Hrun Hi Hj Hij; simpl in *; [done|].
  destruct (folded !! _); [done|]. destruct (fs !! _); [done|].
  destruct i as [|i], j as [|j]; simpl in *; simplify_eq.
  - apply not_eq_sym. eapply Hfresh; [exact Hrun|by rewrite lookup_insert_eq|exact Hj].
  - eapply Hfresh; [exact Hrun|by rewrite lookup_insert_eq|exact Hi].
  - eapply IH; eauto.
Qed.

(** ** The property *)

(** A sync transaction is committed only when it is complete: after any
    sequence of calls on a new transaction, in any order and with any of them
    failing, if the phase is [Committed] then for every file announced the calls
    recorded each of its blocks with the length that block must have (the lengths add
    up to the size announced), and after that [verify_file] was called with the digest
    announced for it. *)
Theorem committed_transaction_is_complete id specs t calls :
  transaction_new id specs = Ok t → Forall spec_typed specs → Forall call_typed calls →
  phase (sync_run calls t) = SyncPhase.Committed →
  ∀ s, s ∈ specs →
    blocks_len (fresh_file s) (Z.to_nat (block_count (fresh_file s))) = spec_size s ∧
    ∃ before after, calls = before ++ VerifyFile (spec_path s) (spec_digest s) :: after ∧
      ∀ index, 0 ≤ index < block_count (fresh_file s) →
        ∃ n digest, expected_block_len (fresh_file s) index = Some n ∧
                    RecordBlock (spec_path s) index n digest ∈ before.
Proof.
  intros Hnew Hspecs Hcalls Hphase s Hs. split.
  - apply (blocks_cover_file (fresh_file s)). by eapply Forall_forall in Hspecs.
  - apply transaction_new_traced, (traced_run _ _ calls) in Hnew as [Hin Hf Hr]; [|done].
    destruct (Hin s Hs) as (f & Hfile & <-).
    apply (traced_verified _ _ _ (Hf _ _ Hfile)). eapply Hr; [by right|done].
Qed.

Module SampleTransaction.
Definition sample_digest : bytes := replicate 32 x09.
Definition sample_spec : SyncFileSpec :=
  {| spec_path := lit "bin/app"; spec_size := SYNC_BLOCK_SIZE + 1; spec_digest := sample_digest |}.
Definition block (index raw_len : Z) (b : byte) : SyncCall :=
  RecordBlock (lit "bin/app") index raw_len (replicate 32 b).
(** Blocks come twice, in any order, and once with another digest. *)
Definition sample_calls : list SyncCall :=
  [block 1 1 x03; VerifyFile (lit "bin/app") sample_digest; block 0 SYNC_BLOCK_SIZE x01;
   block 0 SYNC_BLOCK_SIZE x01; block 0 SYNC_BLOCK_SIZE x02; Commit;
   VerifyFile (lit "bin/app") sample_digest; Commit].
Definition sample_transaction : SyncTransaction :=
  {| transaction_id := lit "tx-1"; phase := SyncPhase.Receiving;
     files := {[lit "bin/app" := fresh_file sample_spec]} |}.

Lemma committed_transaction_is_complete_witness :
  ∃ before after, sample_calls = before ++ VerifyFile (lit "bin/app") sample_digest :: after ∧
    ∀ index, 0 ≤ index < 2 →
      ∃ n digest, expected_block_len (fresh_file sample_spec) index = Some n ∧
                  RecordBlock (lit "bin/app") index n digest ∈ before.
Proof.
  refine (proj2 (committed_transaction_is_complete (lit "tx-1") [sample_spec] sample_transaction
    sample_calls _ _ _ _ sample_spec _)).
  - reflexivity.
  - constructor; [done|constructor].
  - repeat constructor; done.
  - vm_compute. reflexivity.
  - by left.
Defined.
End SampleTransaction.
