(* ===== verification/BundleHeader.v ===== *)
(** * The header of a bundle file: src/crates/kindlebridge-bundle/src/header.rs

    A KBB file is a 128-byte header, a CBOR envelope, a signature block and the
    payload, each section at the one offset the header may give.  The checksum
    is the crate crc32c: the function is a parameter. *)

From S2P Require Import Prelude WireFrame BundleError.

Definition HEADER_SIZE : nat := 128.
Definition MAGIC : bytes := [x4b; x42; x42; x31; x0d; x0a; x1a; x0a].
Definition FORMAT_MAJOR : Z := 1.
Definition FORMAT_MINOR : Z := 0.
Definition MAX_ENVELOPE_LENGTH : Z := 16 * 1024 * 1024.
Definition MAX_SIGNATURE_LENGTH : Z := 1024 * 1024.
Definition MAX_PAYLOAD_LENGTH : Z := 8 * 1024 * 1024 * 1024.

Record Header : Type := {
  envelope_length : Z;
  signature_offset : Z;
  signature_length : Z;
  payload_offset : Z;
  payload_length : Z;
  bundle_root : bytes;
}.

(** The values a [Header] can hold in Rust. *)
Record header_ok (h : Header) : Prop := {
  ok_envelope_length : u64 (envelope_length h);
  ok_signature_offset : u64 (signature_offset h);
  ok_signature_length : u64 (signature_length h);
  ok_payload_offset : u64 (payload_offset h);
  ok_payload_length : u64 (payload_length h);
  ok_bundle_root : length (bundle_root h) = 32%nat;
}.

Definition header_error {A} (m : string) : bundle_result A := Err (error_new ErrorCode.Header m).

(** [rounded & !7] on [u64]. *)
Definition mask8 (z : Z) : Z := Z.land z (Z.lxor u64_max 7).

Definition align8 (value : Z) : bundle_result Z :=
  ok_or (mask8 <$> checked_add u64_max value 7)
    (error_new ErrorCode.Bounds "8-byte alignment overflow").

Definition read_u16 (bs : bytes) (offset : nat) : Z :=
  from_le_bytes (slice offset (offset + 2) bs).
Definition read_u32 (bs : bytes) (offset : nat) : Z :=
  from_le_bytes (slice offset (offset + 4) bs).
Definition read_u64 (bs : bytes) (offset : nat) : Z :=
  from_le_bytes (slice offset (offset + 8) bs).
Definition put_u16 (offset : nat) (value : Z) (bs : bytes) : bytes :=
  splice offset (to_le_bytes 2 value) bs.
Definition put_u32 (offset : nat) (value : Z) (bs : bytes) : bytes :=
  splice offset (to_le_bytes 4 value) bs.
Definition put_u64 (offset : nat) (value : Z) (bs : bytes) : bytes :=
  splice offset (to_le_bytes 8 value) bs.

(** The header before its checksum is written. *)
Definition encode_sections (h : Header) : bytes :=
  let bs := replicate HEADER_SIZE x00 in
  let bs := splice 0 MAGIC bs in
  let bs := put_u16 8 FORMAT_MAJOR bs in
  let bs := put_u16 10 FORMAT_MINOR bs in
  let bs := put_u16 12 (Z.of_nat HEADER_SIZE) bs in
  let bs := put_u64 16 (Z.of_nat HEADER_SIZE) bs in
  let bs := put_u64 24 (envelope_length h) bs in
  let bs := put_u64 32 (signature_offset h) bs in
  let bs := put_u64 40 (signature_length h) bs in
  let bs := put_u64 48 (payload_offset h) bs in
  let bs := put_u64 56 (payload_length h) bs in
  splice 64 (bundle_root h) bs.

(** [(1..=max).contains(&value)]. *)
Definition within (max value : Z) : bool := (1 <=? value) && (value <=? max).

(** The checks of [Header::decode] on the section table. *)
Definition check_sections (h : Header) (file_length : Z) : bundle_result unit :=
  check? reject_if (negb (within MAX_ENVELOPE_LENGTH (envelope_length h))
                    || negb (within MAX_SIGNATURE_LENGTH (signature_length h))
                    || (payload_length h >? MAX_PAYLOAD_LENGTH))
           (error_new ErrorCode.Bounds "KBB section exceeds a static limit") in
  let? envelope_end := ok_or (checked_add u64_max (Z.of_nat HEADER_SIZE) (envelope_length h))
                         (error_new ErrorCode.Bounds "envelope end overflow") in
  let? canonical_signature := align8 envelope_end in
  let? signature_end := ok_or (checked_add u64_max (signature_offset h) (signature_length h))
                          (error_new ErrorCode.Bounds "signature end overflow") in
  let? canonical_payload := align8 signature_end in
  let? canonical_file_length :=
    ok_or (checked_add u64_max (payload_offset h) (payload_length h))
      (error_new ErrorCode.Bounds "payload end overflow") in
  reject_if (negb (signature_offset h =? canonical_signature)
             || negb (payload_offset h =? canonical_payload)
             || negb (file_length =? canonical_file_length))
    (error_new ErrorCode.Header "non-canonical section offsets or file length").

Section header.
Context (crc32c : bytes → Z).

(** [Header::encode]. *)
Definition encode (h : Header) : bundle_result bytes :=
  let bs := encode_sections h in
  Ok (put_u32 96 (crc32c bs) bs).

(** [Header::decode]; [bs] is an array of [HEADER_SIZE] bytes. *)
Definition decode (bs : bytes) (file_length : Z) : bundle_result Header :=
  check? reject_if (negb (bool_decide (slice 0 8 bs = MAGIC)))
           (error_new ErrorCode.Header "bad KBB magic") in
  check? reject_if (negb (read_u16 bs 8 =? FORMAT_MAJOR)
                    || negb (read_u16 bs 10 =? FORMAT_MINOR)
                    || negb (read_u16 bs 12 =? Z.of_nat HEADER_SIZE)
                    || negb (read_u16 bs 14 =? 0)
                    || negb (read_u64 bs 16 =? Z.of_nat HEADER_SIZE))
           (error_new ErrorCode.Header
              "unsupported version, header size, flags, or envelope offset") in
  check? reject_if (existsb (λ b, negb (byte.unsigned b =? 0)) (drop 100 bs))
           (error_new ErrorCode.Header "reserved header bytes are non-zero") in
  let h := {| envelope_length := read_u64 bs 24;
              signature_offset := read_u64 bs 32;
              signature_length := read_u64 bs 40;
              payload_offset := read_u64 bs 48;
              payload_length := read_u64 bs 56;
              bundle_root := slice 64 96 bs |} in
  check? check_sections h file_length in
  let expected_crc := read_u32 bs 96 in
  let crc_input := splice 96 (replicate 4 x00) bs in
  check? reject_if (negb (crc32c crc_input =? expected_crc))
           (error_new ErrorCode.Header "header CRC32C mismatch") in
  Ok h.
End header.

(** ** Alignment *)

Lemma mask8_eq z : 0 ≤ z ≤ u64_max → mask8 z = 8 * (z / 8).
Proof.
  intros Hz. unfold mask8. transitivity (Z.ldiff z (Z.ones 3)).
  - apply Z.bits_inj'. intros i Hi. change (Z.ones 3) with 7.
    rewrite Z.land_spec, Z.ldiff_spec, Z.lxor_spec.
    destruct (decide (i < 64)) as [Hlt|Hge].
    + change u64_max with (Z.ones 64). rewrite Z.ones_spec_low by lia. done.
    + rewrite (Z.bits_above_log2 z); [done|lia|].
      destruct (decide (z = 0)) as [->|Hne]; [simpl; lia|].
      apply Z.log2_lt_pow2; [lia|]. apply (Z.lt_le_trans _ (2 ^ 64)); [unfold u64_max in *; lia|].
      apply Z.pow_le_mono_r; lia.
  - rewrite Z.ldiff_ones_r by lia. rewrite Z.shiftl_mul_pow2, Z.shiftr_div_pow2 by lia.
    change (2 ^ 3) with 8. lia.
Qed.

Lemma align8_ok v a : 0 ≤ v → align8 v = Ok a → v ≤ a < v + 8 ∧ a mod 8 = 0 ∧ a ≤ u64_max.
Proof.
  intros Hv. unfold align8. intros Ha%ok_or_ok.
  destruct (checked_add u64_max v 7) as [r|] eqn:Hr; [|done].
  apply checked_add_Some in Hr as [-> Hr]. injection Ha as <-.
  rewrite mask8_eq by lia. pose proof (Z.div_mod (v + 7) 8). pose proof (Z.mod_pos_bound (v + 7) 8).
  split_and!; [lia..| |lia]. rewrite Z.mul_comm. by apply Z.mod_mul.
Qed.

(** ** The section table *)

Record sections_ok (h : Header) (file_length : Z) : Prop := {
  sec_envelope : 0 < envelope_length h ≤ MAX_ENVELOPE_LENGTH;
  sec_signature : 0 < signature_length h ≤ MAX_SIGNATURE_LENGTH;
  sec_payload : payload_length h ≤ MAX_PAYLOAD_LENGTH;
  (** The envelope, the signatures and the payload follow each other, each
      aligned to eight bytes with the least padding, and fill the file. *)
  sec_order1 : Z.of_nat HEADER_SIZE + envelope_length h ≤ signature_offset h
               < Z.of_nat HEADER_SIZE + envelope_length h + 8;
  sec_order2 : signature_offset h + signature_length h ≤ payload_offset h
               < signature_offset h + signature_length h + 8;
  sec_order3 : payload_offset h + payload_length h = file_length;
  sec_aligned : signature_offset h mod 8 = 0 ∧ payload_offset h mod 8 = 0;
}.

Lemma check_sections_ok h file_length :
  header_ok h → check_sections h file_length = Ok tt → sections_ok h file_length.
Proof.
  intros [He Hso Hsl Hpo Hpl _] Hc. unfold check_sections in Hc. unfold in_range in *.
  apply result_bind_ok in Hc as ([] & H1%reject_if_ok & Hc).
  apply result_bind_ok in Hc as (ee & Hee%ok_or_ok & Hc).
  apply result_bind_ok in Hc as (cs & Hcs & Hc).
  apply result_bind_ok in Hc as (se & Hse%ok_or_ok & Hc).
  apply result_bind_ok in Hc as (cp & Hcp & Hc).
  apply result_bind_ok in Hc as (fl & Hfl%ok_or_ok & Hc).
  apply reject_if_ok in Hc. rewrite !orb_false_iff, !negb_false_iff in *. unfold within in H1.
  rewrite !andb_true_iff in H1.
  apply checked_add_Some in Hee as [-> _], Hse as [-> _], Hfl as [-> _].
  apply align8_ok in Hcs as (Hcs1 & Hcs2 & _); [|unfold HEADER_SIZE; lia].
  apply align8_ok in Hcp as (Hcp1 & Hcp2 & _); [|lia].
  destruct Hc as [[Hc1%Z.eqb_eq Hc2%Z.eqb_eq] Hc3%Z.eqb_eq]. subst cs cp. split; try lia.
Qed.

(** ** Round trip *)

Lemma length_encode_sections h :
  length (bundle_root h) = 32%nat → length (encode_sections h) = HEADER_SIZE.
Proof.
  intros Hr. unfold encode_sections, put_u16, put_u64, HEADER_SIZE.
  repeat (rewrite length_splice; [|autorewrite with kb_len; simpl; lia]). done.
Qed.

Section round_trip.
Context (crc32c : bytes → Z) (Hcrc : ∀ bs, u32 (crc32c bs)).

(** Reads of an encoded header. *)
Section reads.
Variable (h : Header) (crc : Z).
Hypothesis (Hh : header_ok h).
Let bs : bytes := put_u32 96 crc (encode_sections h).

Local Ltac read_section :=
  unfold read_u16, read_u32, read_u64; subst bs; pose proof (ok_bundle_root _ Hh) as Hroot;
  unfold encode_sections, put_u16, put_u32, put_u64, HEADER_SIZE; layout.

Lemma read_constants :
  slice 0 8 bs = MAGIC ∧ read_u16 bs 8 = FORMAT_MAJOR ∧ read_u16 bs 10 = FORMAT_MINOR ∧
  read_u16 bs 12 = Z.of_nat HEADER_SIZE ∧ read_u64 bs 16 = Z.of_nat HEADER_SIZE.
Proof. split_and!; by read_section. Qed.
Lemma read_lengths :
  read_u64 bs 24 = envelope_length h ∧ read_u64 bs 40 = signature_length h ∧
  read_u64 bs 56 = payload_length h.
Proof. split_and!; read_section; apply from_to_le_u64; by destruct Hh. Qed.
Lemma read_offsets :
  read_u64 bs 32 = signature_offset h ∧ read_u64 bs 48 = payload_offset h.
Proof. split_and!; read_section; apply from_to_le_u64; by destruct Hh. Qed.
Lemma read_root : slice 64 96 bs = bundle_root h.
Proof. by read_section. Qed.
Lemma bundle_read_flags : read_u16 bs 14 = 0.
Proof. by read_section. Qed.
Lemma read_checksum : u32 crc → read_u32 bs 96 = crc.
Proof. intros Hc. read_section. by apply from_to_le_u32. Qed.

Lemma length_bs : length bs = HEADER_SIZE.
Proof.
  subst bs. unfold put_u32. pose proof (length_encode_sections h (ok_bundle_root _ Hh)) as Hl.
  rewrite length_splice; [done|]. rewrite Hl, length_to_le_bytes. unfold HEADER_SIZE. lia.
Qed.

Lemma bundle_read_reserved : drop 100 bs = replicate 28 x00.
Proof.
  assert (drop 100 bs = slice 100 128 bs) as ->.
  { unfold slice. rewrite take_ge; [done|]. rewrite length_drop, length_bs. unfold HEADER_SIZE.
    lia. }
  by read_section.
Qed.

Lemma clear_checksum : splice 96 (replicate 4 x00) bs = encode_sections h.
Proof.
  pose proof (length_encode_sections h (ok_bundle_root _ Hh)) as Hl.
  unfold bs, put_u32. rewrite splice_splice
    by (rewrite ?Hl, ?length_to_le_bytes; unfold HEADER_SIZE; simpl; lia).
  assert (replicate 4 x00 = slice 96 (96 + 4) (encode_sections h)) as ->.
  { pose proof (ok_bundle_root _ Hh). unfold encode_sections, put_u16, put_u64, HEADER_SIZE.
    by layout. }
  apply splice_slice_id. rewrite Hl. unfold HEADER_SIZE. lia.
Qed.
End reads.

(** A bundle header survives encoding: decoding the bytes of a header whose
    section table is canonical for the file returns that header. *)
Theorem bundle_header_roundtrip h bs file_length :
  header_ok h → check_sections h file_length = Ok tt → encode crc32c h = Ok bs →
  decode crc32c bs file_length = Ok h.
Proof.
  intros Hh Hs Henc. unfold encode in Henc. injection Henc as <-. unfold decode.
  set (crc := crc32c (encode_sections h)).
  destruct (read_constants h crc Hh) as (-> & -> & -> & -> & ->).
  destruct (read_lengths h crc Hh) as (-> & -> & ->).
  destruct (read_offsets h crc Hh) as (-> & ->).
  rewrite (read_root h crc Hh), (bundle_read_flags h crc Hh), (bundle_read_reserved h crc Hh).
  rewrite (clear_checksum h crc Hh), (read_checksum h crc Hh) by apply Hcrc.
  rewrite bool_decide_eq_true_2, !Z.eqb_refl by done.
  cbn [negb orb reject_if result_bind].
  change (existsb _ (replicate 28 x00)) with false. cbn [reject_if result_bind].
  replace {| envelope_length := envelope_length h; signature_offset := signature_offset h;
    signature_length := signature_length h; payload_offset := payload_offset h;
    payload_length := payload_length h; bundle_root := bundle_root h |} with h
    by (by destruct h).
  by rewrite Hs.
Qed.

Lemma decode_inv bs file_length h :
  decode crc32c bs file_length = Ok h →
  slice 0 8 bs = MAGIC ∧ read_u16 bs 8 = FORMAT_MAJOR ∧ read_u16 bs 10 = FORMAT_MINOR ∧
  read_u16 bs 12 = Z.of_nat HEADER_SIZE ∧ read_u16 bs 14 = 0 ∧
  read_u64 bs 16 = Z.of_nat HEADER_SIZE ∧
  existsb (λ b, negb (byte.unsigned b =? 0)) (drop 100 bs) = false ∧
  check_sections h file_length = Ok tt ∧
  crc32c (splice 96 (replicate 4 x00) bs) = read_u32 bs 96 ∧
  h = {| envelope_length := read_u64 bs 24; signature_offset := read_u64 bs 32;
         signature_length := read_u64 bs 40; payload_offset := read_u64 bs 48;
         payload_length := read_u64 bs 56; bundle_root := slice 64 96 bs |}.
Proof.
  unfold decode. intros Hd.
  apply result_bind_ok in Hd as ([] & H1%reject_if_ok & Hd).
  apply result_bind_ok in Hd as ([] & H2%reject_if_ok & Hd).
  apply result_bind_ok in Hd as ([] & H3%reject_if_ok & Hd).
  apply result_bind_ok in Hd as ([] & H4 & Hd).
  apply result_bind_ok in Hd as ([] & H5%reject_if_ok & Hd).
  rewrite !orb_false_iff, !negb_false_iff, !Z.eqb_eq in *.
  apply bool_decide_eq_true in H1.
  assert (h = {| envelope_length := read_u64 bs 24; signature_offset := read_u64 bs 32;
         signature_length := read_u64 bs 40; payload_offset := read_u64 bs 48;
         payload_length := read_u64 bs 56; bundle_root := slice 64 96 bs |}) as -> by congruence.
  tauto.
Qed.

Lemma decode_header_ok bs file_length h :
  length bs = HEADER_SIZE → decode crc32c bs file_length = Ok h → header_ok h.
Proof.
  intros Hl (_ & _ & _ & _ & _ & _ & _ & _ & _ & ->)%decode_inv. unfold HEADER_SIZE in Hl.
  split; cbn [envelope_length signature_offset signature_length payload_offset payload_length
    bundle_root]; unfold read_u64; [apply from_le_u64; rewrite length_slice; lia..|].
  rewrite length_slice; lia.
Qed.

Lemma zero_byte b : byte.unsigned b = 0 → b = x00.
Proof. intros Hb. apply byte.unsigned_inj. by rewrite Hb. Qed.

Lemma no_nonzero bs :
  existsb (λ b, negb (byte.unsigned b =? 0)) bs = false → bs = replicate (length bs) x00.
Proof.
  induction bs as [|b bs IH]; simpl; [done|].
  rewrite orb_false_iff, negb_false_iff, Z.eqb_eq. intros [->%zero_byte H]. by rewrite <-IH.
Qed.

(** The header a decoder reads, written back, is the bytes it read. *)
Lemma encode_sections_read bs file_length h :
  length bs = HEADER_SIZE → decode crc32c bs file_length = Ok h →
  encode_sections h = splice 96 (replicate 4 x00) bs.
Proof.
  intros Hl (Hmagic & Hmajor & Hminor & Hsize & Hflags & Hoff & Hres & _ & _ & ->)%decode_inv.
  apply no_nonzero in Hres. unfold encode_sections.
  rewrite <-Hmagic, <-Hmajor, <-Hminor.
  assert (put_u16 12 (Z.of_nat HEADER_SIZE) = put_u16 12 (read_u16 bs 12)) as -> by congruence.
  assert (put_u64 16 (Z.of_nat HEADER_SIZE) = put_u64 16 (read_u64 bs 16)) as -> by congruence.
  assert (slice 14 16 bs = [x00; x00]) as Hzero.
  { apply from_le_bytes_inj; [rewrite length_slice; unfold HEADER_SIZE in Hl; simpl; lia|].
    exact Hflags. }
  clear Hmagic Hmajor Hminor Hsize Hflags Hoff.
  cbn [envelope_length signature_offset signature_length payload_offset payload_length
    bundle_root].
  unfold read_u16, read_u64, put_u16, put_u64.
  rewrite !to_from_le_bytes by (rewrite length_slice; unfold HEADER_SIZE in Hl; lia).
  unfold HEADER_SIZE in *. assert (128 ≤ length bs)%nat as Hge by lia. spell_out bs.
  simpl in Hl. destruct bs; [|simpl in Hl; lia].
  cbn in Hzero, Hres. injection Hzero as -> ->. simplify_list_eq. reflexivity.
Qed.

Lemma decode_canonical bs file_length h :
  length bs = HEADER_SIZE → decode crc32c bs file_length = Ok h →
  encode crc32c h = Ok bs ∧ sections_ok h file_length.
Proof.
  intros Hl Hd. pose proof (decode_header_ok _ _ _ Hl Hd) as Hok.
  pose proof (encode_sections_read _ _ _ Hl Hd) as Henc.
  pose proof (decode_inv _ _ _ Hd) as (_ & _ & _ & _ & _ & _ & _ & Hs & Hc & _).
  split; [|by apply check_sections_ok]. unfold encode. rewrite Henc, Hc. f_equal.
  unfold put_u32, read_u32.
  rewrite to_from_le_bytes by (rewrite length_slice; unfold HEADER_SIZE in Hl; lia).
  rewrite splice_splice
    by (rewrite ?length_slice, ?Hl; unfold HEADER_SIZE in *; simpl; lia).
  apply (splice_slice_id 96 4). rewrite Hl. unfold HEADER_SIZE. lia.
Qed.

(** The decoder accepts one encoding per header: the 128 bytes it accepts
    are exactly the encoding of the header it returns, and that header's
    sections follow each other without overlap inside the file, aligned and
    within their limits. *)
Theorem bundle_header_canonical bs file_length h :
  length bs = HEADER_SIZE → decode crc32c bs file_length = Ok h →
  encode crc32c h = Ok bs ∧ sections_ok h file_length.
Proof. apply decode_canonical. Qed.
End round_trip.

(** ** A concrete header *)

Definition sample_bundle : Header :=
  {| envelope_length := 100; signature_offset := 232; signature_length := 64;
     payload_offset := 296; payload_length := 7; bundle_root := replicate 32 x5a |}.
Definition sample_bundle_bytes : bytes := Eval vm_compute in
  match encode crc32c sample_bundle with Ok bs => bs | Err _ => [] end.

Lemma sample_bundle_ok : header_ok sample_bundle.
Proof. split; apply (bool_decide_unpack _); by vm_compute. Qed.

Lemma bundle_header_roundtrip_witness :
  decode crc32c sample_bundle_bytes 303 = Ok sample_bundle.
Proof.
  apply (bundle_header_roundtrip crc32c crc32c_u32 sample_bundle).
  - exact sample_bundle_ok.
  - vm_compute. reflexivity.
  - vm_compute. reflexivity.
Defined.

Lemma bundle_header_canonical_witness :
  encode crc32c sample_bundle = Ok sample_bundle_bytes ∧ sections_ok sample_bundle 303.
Proof.
  apply (bundle_header_canonical crc32c sample_bundle_bytes).
  - reflexivity.
  - vm_compute. reflexivity.
Defined.
