(* ===== verification/Cbor.v ===== *)
(** * Deterministic CBOR: src/crates/kindlebridge-bundle/src/cbor.rs

    Envelopes and signature blocks are written in one canonical CBOR encoding
    ([encode_value]) and scanned ([scan_item]) before they are deserialized.
    [Value] is the data type of the crate serde_cbor; (de)serialization of the
    crate's own types is a parameter of [from_canonical_slice]. *)

From S2P Require Import Prelude Text BundleError.

Definition MAX_DEPTH : nat := 32.

(** [serde_cbor::Value]; a text is its UTF-8 bytes, a map its entries in the
    order of the [BTreeMap]. *)
Module Value.

Inductive Value : Type :=
| Null
| Bool (b : bool)
| Integer (z : Z)
| Float (bits : Z)
| Bytes (bs : bytes)
| Text (bs : bytes)
| Array (items : list Value)
| Map (entries : list (Value * Value))
| Tag (tag : Z) (value : Value).

End Value.
Abbreviation Value := Value.Value.

(** ** Encoding *)

(** [usize_u64]. *)
Definition usize_u64 (value : Z) : bundle_result Z :=
  if value <=? u64_max then Ok value
  else Err (error_new ErrorCode.Bounds "length exceeds uint64").

(** [encode_argument]. *)
Definition encode_argument (major argument : Z) : bytes :=
  let prefix := Z.shiftl major 5 in
  if argument <=? 23 then [byte.of_Z (Z.lor prefix argument)]
  else if argument <=? 0xff then [byte.of_Z (Z.lor prefix 24); byte.of_Z argument]
  else if argument <=? 0xffff then byte.of_Z (Z.lor prefix 25) :: to_be_bytes 2 argument
  else if argument <=? 0xffffffff then byte.of_Z (Z.lor prefix 26) :: to_be_bytes 4 argument
  else byte.of_Z (Z.lor prefix 27) :: to_be_bytes 8 argument.

(** Lexicographic order of byte strings, and the order of encoded keys. *)
Fixpoint bytes_le (a b : bytes) : bool :=
  match a, b with
  | [], _ => true
  | _ :: _, [] => false
  | x :: a, y :: b =>
      (byte.unsigned x <? byte.unsigned y) ||
      ((byte.unsigned x =? byte.unsigned y) && bytes_le a b)
  end.
Definition key_le (a b : bytes) : bool :=
  (len a <? len b) || ((len a =? len b) && bytes_le a b).

(** [Vec::sort_by] on the encoded keys: stable insertion. *)
Fixpoint insert_entry {A} (x : bytes * A) (l : list (bytes * A)) : list (bytes * A) :=
  match l with
  | [] => [x]
  | y :: l => if key_le x.1 y.1 then x :: y :: l else y :: insert_entry x l
  end.
Definition sort_entries {A} (l : list (bytes * A)) : list (bytes * A) := foldr insert_entry [] l.

(** Appends the outputs of a sequence of encodings, up to the first error. *)
Fixpoint concat_results (l : list (bundle_result bytes)) : bundle_result bytes :=
  match l with
  | [] => Ok []
  | r :: l => let? a := r in let? b := concat_results l in Ok (a ++ b)
  end.

(** The keys of a map, encoded; the values still to be. *)
Fixpoint keyed_entries (l : list (bundle_result bytes * bundle_result bytes)) :
    bundle_result (list (bytes * bundle_result bytes)) :=
  match l with
  | [] => Ok []
  | (key, value) :: l =>
      let? k := key in
      let? rest := keyed_entries l in
      Ok ((k, value) :: rest)
  end.

(** [u64::try_from(i128)]. *)
Definition u64_try_from (z : Z) : option Z :=
  if (0 <=? z) && (z <=? u64_max) then Some z else None.

(** [encode_value]: the bytes it appends to the output. *)
Fixpoint encode_value (v : Value) : bundle_result bytes :=
  match v with
  | Value.Null => Ok [xf6]
  | Value.Bool false => Ok [xf4]
  | Value.Bool true => Ok [xf5]
  | Value.Integer integer =>
      if 0 <=? integer then
        let? value := ok_or (u64_try_from integer)
                        (error_new ErrorCode.Schema "CBOR integer exceeds uint64") in
        Ok (encode_argument 0 value)
      else
        let? value := ok_or (u64_try_from (-1 - integer))
                        (error_new ErrorCode.Schema
                           "CBOR integer is below int64 encoding range") in
        Ok (encode_argument 1 value)
  | Value.Bytes bs =>
      let? n := usize_u64 (len bs) in
      Ok (encode_argument 2 n ++ bs)
  | Value.Text bs =>
      let? n := usize_u64 (len bs) in
      Ok (encode_argument 3 n ++ bs)
  | Value.Array items =>
      let? n := usize_u64 (len items) in
      let? body := concat_results (map encode_value items) in
      Ok (encode_argument 4 n ++ body)
  | Value.Map map_entries =>
      let? entries := keyed_entries
        (map (λ kv, (encode_value (fst kv), encode_value (snd kv))) map_entries) in
      let? n := usize_u64 (len entries) in
      let? body := concat_results
        (map (λ kv, let? value := snd kv in Ok (fst kv ++ value)) (sort_entries entries)) in
      Ok (encode_argument 5 n ++ body)
  | Value.Tag _ _ | Value.Float _ =>
      Err (error_new ErrorCode.Schema "tags and floating point values are forbidden by KBB v1")
  end.

(** ** Scanning *)

Section scanning.
Context `{PointerWidth}.

Definition canonical_error {A} (m : string) : bundle_result A :=
  Err (error_new ErrorCode.CanonicalCbor m).
Definition non_minimal {A} : bundle_result A :=
  canonical_error "non-minimal CBOR integer/length encoding".

(** [input.get(lo..hi)]. *)
Definition get_range (input : bytes) (lo hi : Z) : option bytes :=
  if (lo <=? hi) && (hi <=? len input) then Some (slice (Z.to_nat lo) (Z.to_nat hi) input) else None.

(** [read_array::<N>]. *)
Definition read_array (n : Z) (input : bytes) (offset : Z) : bundle_result bytes :=
  ok_or (bs ← get_range input offset (saturating_add usize_max offset n);
         if len bs =? n then Some bs else None)
    (error_new ErrorCode.CanonicalCbor "truncated CBOR argument").

(** [decode_argument]. *)
Definition decode_argument (input : bytes) (offset additional : Z) : bundle_result (Z * Z) :=
  if additional <=? 23 then Ok (additional, 0) else
  if additional =? 24 then
    let? b := ok_or (input !! Z.to_nat offset)
                (error_new ErrorCode.CanonicalCbor "truncated CBOR uint8 argument") in
    let value := byte.unsigned b in
    if value <? 24 then non_minimal else Ok (value, 1)
  else if additional =? 25 then
    let? bs := read_array 2 input offset in
    let value := from_be_bytes bs in
    if value <=? 0xff then non_minimal else Ok (value, 2)
  else if additional =? 26 then
    let? bs := read_array 4 input offset in
    let value := from_be_bytes bs in
    if value <=? 0xffff then non_minimal else Ok (value, 4)
  else if additional =? 27 then
    let? bs := read_array 8 input offset in
    let value := from_be_bytes bs in
    if value <=? 0xffffffff then non_minimal else Ok (value, 8)
  else if additional =? 31 then canonical_error "indefinite-length CBOR is forbidden"
  else canonical_error "reserved CBOR additional information".

(** [for _ in 0..count { position = step(position)?; }].  Every item takes at
    least one byte, so that an input of [n] bytes ends the loop within [n + 1]
    iterations ([repeat_scan_attempts] below): the last case is not reached. *)
Fixpoint repeat_scan (step : Z → bundle_result Z) (attempts : nat) (count position : Z) :
    bundle_result Z :=
  match attempts with
  | O => canonical_error "truncated CBOR initial byte"
  | S attempts =>
      if count <=? 0 then Ok position
      else let? position := step position in repeat_scan step attempts (count - 1) position
  end.

(** [scan_item]; [levels] is [MAX_DEPTH - depth]. *)
Fixpoint scan_item (levels : nat) (input : bytes) (offset : Z) : bundle_result Z :=
  match levels with
  | O => canonical_error "CBOR nesting exceeds 32 levels"
  | S levels =>
      let? b := ok_or (input !! Z.to_nat offset)
                  (error_new ErrorCode.CanonicalCbor "truncated CBOR initial byte") in
      let initial := byte.unsigned b in
      let major := Z.shiftr initial 5 in
      let additional := Z.land initial 0x1f in
      let? argument := decode_argument input (offset + 1) additional in
      let? position := ok_or (checked_add usize_max offset (1 + argument.2))
                         (error_new ErrorCode.Bounds "CBOR offset overflow") in
      if major <=? 1 then Ok position else
      if major <=? 3 then
        let? length := (if argument.1 <=? usize_max then Ok argument.1
                        else Err (error_new ErrorCode.Bounds
                                    "CBOR string length exceeds usize")) in
        let? stop := ok_or (checked_add usize_max position length)
                       (error_new ErrorCode.Bounds "CBOR string end overflow") in
        let? bs := ok_or (get_range input position stop)
                     (error_new ErrorCode.CanonicalCbor "truncated CBOR string") in
        check? (if (major =? 3) && negb (utf8_valid bs)
                then canonical_error "invalid UTF-8 in CBOR text" else Ok tt) in
        Ok stop
      else if major =? 4 then
        repeat_scan (scan_item levels input) (S (length input)) argument.1 position
      else if major =? 5 then
        repeat_scan (λ position,
            let? position := scan_item levels input position in
            scan_item levels input position)
          (S (length input)) argument.1 position
      else if major =? 6 then canonical_error "CBOR tags are forbidden"
      else if (0xf4 <=? initial) && (initial <=? 0xf6) then Ok position
      else canonical_error "only false, true, and null CBOR simple values are allowed"
  end.

(** [from_canonical_slice] and [to_canonical_vec] for a type [T] that serde can
    turn into a [Value] and read from CBOR. *)
Context {T : Type} (to_value : T → bundle_result Value) (from_slice : bytes → bundle_result T).

Definition to_canonical_vec (x : T) : bundle_result bytes :=
  let? v := to_value x in encode_value v.

Definition from_canonical_slice (bs : bytes) : bundle_result T :=
  let? consumed := scan_item MAX_DEPTH bs 0 in
  check? (if negb (consumed =? len bs)
          then canonical_error "trailing bytes after the top-level CBOR item" else Ok tt) in
  let? x := from_slice bs in
  let? canonical := to_canonical_vec x in
  if bool_decide (canonical ≠ bs)
  then canonical_error
         "CBOR is not in deterministic encoding or contains duplicate/unknown fields"
  else Ok x.

(** What is read was read by serde. *)
Lemma from_canonical_slice_read bs x : from_canonical_slice bs = Ok x → from_slice bs = Ok x.
Proof.
  unfold from_canonical_slice. intros Hx.
  apply result_bind_ok in Hx as (n & _ & Hx). apply result_bind_ok in Hx as ([] & _ & Hx).
  apply result_bind_ok in Hx as (y & Hy & Hx). apply result_bind_ok in Hx as (c & _ & Hx).
  destruct (bool_decide _); [done|]. by injection Hx as <-.
Qed.
End scanning.

(** ** The heads of items *)

Lemma byte_halves b :
  b = byte.of_Z (Z.lor (Z.shiftl (Z.shiftr (byte.unsigned b) 5) 5) (Z.land (byte.unsigned b) 31)) ∧
  0 ≤ Z.shiftr (byte.unsigned b) 5 < 8 ∧ 0 ≤ Z.land (byte.unsigned b) 31 < 32.
Proof. by destruct b. Qed.

Lemma halves_byte m k :
  0 ≤ m < 8 → 0 ≤ k < 32 → byte.unsigned (byte.of_Z (Z.lor (Z.shiftl m 5) k)) = 32 * m + k.
Proof.
  intros Hm Hk.
  assert (Hall : Forall (λ m, Forall (λ k,
    byte.unsigned (byte.of_Z (Z.lor (Z.shiftl m 5) k)) = 32 * m + k) (seqZ 0 32)) (seqZ 0 8)).
  { apply (bool_decide_unpack _). by vm_compute. }
  rewrite Forall_forall in Hall. specialize (Hall m).
  rewrite elem_of_seqZ, Forall_forall in Hall. specialize (Hall ltac:(lia) k).
  rewrite elem_of_seqZ in Hall. apply Hall. lia.
Qed.

Lemma head_major m k :
  0 ≤ m < 8 → 0 ≤ k < 32 →
  Z.shiftr (byte.unsigned (byte.of_Z (Z.lor (Z.shiftl m 5) k))) 5 = m ∧
  Z.land (byte.unsigned (byte.of_Z (Z.lor (Z.shiftl m 5) k))) 31 = k.
Proof.
  intros Hm Hk. rewrite halves_byte by done. split.
  - rewrite Z.shiftr_div_pow2 by lia. symmetry. by apply (Z.div_unique _ _ _ k); [left|].
  - change 31 with (Z.ones 5). rewrite Z.land_ones by lia. symmetry.
    by apply (Z.mod_unique _ _ m); [left|].
Qed.

Lemma length_to_be_bytes n z : length (to_be_bytes n z) = n.
Proof. unfold to_be_bytes. by rewrite length_reverse, length_to_le_bytes. Qed.
Lemma from_to_be_bytes n z :
  0 ≤ z < 2 ^ (Z.of_nat n * 8) → from_be_bytes (to_be_bytes n z) = z.
Proof. unfold from_be_bytes, to_be_bytes. rewrite reverse_involutive. apply from_to_le_bytes. Qed.
Lemma to_from_be_bytes n bs : length bs = n → to_be_bytes n (from_be_bytes bs) = bs.
Proof.
  intros Hn. unfold from_be_bytes, to_be_bytes.
  rewrite to_from_le_bytes by by rewrite length_reverse. apply reverse_involutive.
Qed.
Lemma from_be_bytes_range bs : 0 ≤ from_be_bytes bs < 2 ^ (8 * len bs).
Proof.
  unfold from_be_bytes. pose proof (from_le_bytes_range (reverse bs)) as H.
  unfold len in *. by rewrite length_reverse in H.
Qed.

(** An encoded argument is a head byte and a payload. *)
Definition argument_info (a : Z) : Z :=
  if a <=? 23 then a else if a <=? 0xff then 24 else if a <=? 0xffff then 25
  else if a <=? 0xffffffff then 26 else 27.
Definition argument_payload (a : Z) : bytes :=
  if a <=? 23 then [] else if a <=? 0xff then [byte.of_Z a]
  else if a <=? 0xffff then to_be_bytes 2 a
  else if a <=? 0xffffffff then to_be_bytes 4 a else to_be_bytes 8 a.

Lemma encode_argument_split m a :
  encode_argument m a =
  byte.of_Z (Z.lor (Z.shiftl m 5) (argument_info a)) :: argument_payload a.
Proof. unfold encode_argument, argument_info, argument_payload. by repeat case_match. Qed.

Lemma argument_info_range a : 0 ≤ a → 0 ≤ argument_info a < 32.
Proof. intros Ha. unfold argument_info. repeat case_match; lia. Qed.

Lemma len_encode_argument m a : 1 ≤ len (encode_argument m a) ≤ 9.
Proof.
  unfold encode_argument, len. repeat case_match; simpl; rewrite ?length_to_be_bytes; lia.
Qed.

Section scanning_facts.
Context `{PointerWidth}.
Implicit Types input pre bs suf : bytes.

Lemma get_range_app pre bs suf lo hi :
  lo = len pre → hi = len pre + len bs → get_range (pre ++ bs ++ suf) lo hi = Some bs.
Proof.
  intros -> ->. unfold get_range. pose proof (len_nonneg pre). pose proof (len_nonneg bs).
  pose proof (len_nonneg suf).
  rewrite !len_app. destruct (_ <=? _) eqn:Hle; [|lia].
  destruct (len pre + len bs <=? _) eqn:Hhi; [|lia]. simpl. f_equal.
  rewrite slice_app_r by (unfold len; lia). unfold slice.
  replace (Z.to_nat (len pre) - length pre)%nat with O by (unfold len; lia). rewrite drop_0.
  apply take_app_length'. unfold len. lia.
Qed.

Lemma get_range_inv input lo hi bs :
  0 ≤ lo → get_range input lo hi = Some bs →
  ∃ pre suf, input = pre ++ bs ++ suf ∧ lo = len pre ∧ hi = len pre + len bs.
Proof.
  unfold get_range. intros Hlo Hg. destruct (lo <=? hi) eqn:Hle; [|done].
  destruct (hi <=? len input) eqn:Hhi; [|done]. simplify_eq/=.
  unfold len in *.
  exists (take (Z.to_nat lo) input), (drop (Z.to_nat hi) input).
  rewrite length_slice, length_take by lia. repeat split; [|lia..].
  pose proof (splice_parts (Z.to_nat lo) (Z.to_nat hi - Z.to_nat lo) input) as Hp.
  replace (Z.to_nat lo + (Z.to_nat hi - Z.to_nat lo))%nat with (Z.to_nat hi) in Hp by lia.
  apply Hp. lia.
Qed.

Lemma read_array_app n pre bs suf :
  len bs = n → len (pre ++ bs ++ suf) ≤ usize_max →
  read_array n (pre ++ bs ++ suf) (len pre) = Ok bs.
Proof.
  intros <- Hl. rewrite !len_app in Hl. pose proof (len_nonneg suf).
  unfold read_array, saturating_add. rewrite Z.min_r by lia.
  rewrite get_range_app by done. simpl. by rewrite Z.eqb_refl.
Qed.

Lemma read_array_inv n input offset bs :
  0 ≤ offset → read_array n input offset = Ok bs →
  ∃ pre suf, input = pre ++ bs ++ suf ∧ offset = len pre ∧ len bs = n.
Proof.
  intros Ho Hr. unfold read_array in Hr. result_inv.
  apply bind_Some in Hr as (bs' & Hg & Hn).
  destruct (len bs' =? n) eqn:Hl; [|done]. simplify_eq.
  apply get_range_inv in Hg as (pre & suf & -> & -> & ?); [|done].
  exists pre, suf. repeat split. lia.
Qed.


(** Decoding the payload of an encoded argument. *)
Lemma decode_payload a pre suf :
  u64 a → len (pre ++ argument_payload a ++ suf) ≤ usize_max →
  decode_argument (pre ++ argument_payload a ++ suf) (len pre) (argument_info a)
  = Ok (a, len (argument_payload a)).
Proof.
  intros [Ha1 Ha2]. unfold argument_payload, argument_info, decode_argument, u64_max in *.
  destruct (a <=? 23) eqn:H23; [by rewrite H23|].
  destruct (a <=? 0xff) eqn:Hff; simpl Z.leb; simpl Z.eqb; cbv iota; intros Hl.
  { replace (Z.to_nat (len pre)) with (length pre) by (unfold len; lia).
    rewrite lookup_app_r, Nat.sub_diag by lia. cbn [lookup app list_lookup ok_or result_bind].
    rewrite byte.unsigned_of_Z. unfold byte.wrap.
    rewrite Z.mod_small by (change (2 ^ 8) with 256; lia).
    by destruct (a <? 24) eqn:?; [lia|]. }
  destruct (a <=? 0xffff) eqn:Hffff; simpl Z.leb; simpl Z.eqb; cbv iota; [|
  destruct (a <=? 0xffffffff) eqn:Hf8; simpl Z.leb; simpl Z.eqb; cbv iota];
  (rewrite read_array_app by (done || (unfold len; by rewrite length_to_be_bytes));
   unfold result_bind; rewrite from_to_be_bytes by (simpl; lia);
   unfold len; rewrite length_to_be_bytes).
  - by rewrite Hff.
  - by rewrite Hffff.
  - by rewrite Hf8.
Qed.

(** An argument that is decoded was encoded in the one way there is. *)
Lemma decode_argument_inv pre rest k a n :
  0 ≤ k < 32 → decode_argument (pre ++ rest) (len pre) k = Ok (a, n) →
  u64 a ∧ k = argument_info a ∧ n = len (argument_payload a) ∧
  ∃ suf, rest = argument_payload a ++ suf.
Proof.
  intros Hk. unfold decode_argument, canonical_error, non_minimal, canonical_error.
  destruct (k <=? 23) eqn:H23.
  { intros [= <- <-]. unfold argument_info, argument_payload, in_range, u64_max. rewrite H23.
    repeat split; [lia..|]. by exists rest. }
  destruct (Z.eqb_spec k 24) as [->|].
  { intros Hd. result_inv. rename x into b.
    replace (Z.to_nat (len pre)) with (length pre) in * by (unfold len; lia).
    match goal with H : _ !! _ = Some _ |- _ =>
      rewrite lookup_app_r, Nat.sub_diag in H by lia; rename H into Hb end.
    destruct rest as [|b' rest]; [done|]. simpl in Hb. simplify_eq.
    pose proof (byte.unsigned_range b) as Hr. change (2 ^ 8) with 256 in Hr.
    match goal with H : (if _ then _ else _) = _ |- _ => rename H into Hd end.
    destruct (byte.unsigned b <? 24) eqn:Hmin; [done|]. injection Hd as <- <-.
    unfold argument_info, argument_payload, in_range, u64_max.
    destruct (byte.unsigned b <=? 23) eqn:?; [lia|].
    destruct (byte.unsigned b <=? 255) eqn:?; [|lia].
    repeat split; [lia..|]. exists rest. by rewrite byte.of_Z_unsigned. }
  assert (Harr : ∀ m bs, read_array m (pre ++ rest) (len pre) = Ok bs →
    len bs = m ∧ 0 ≤ from_be_bytes bs < 2 ^ (8 * m) ∧ 
    to_be_bytes (Z.to_nat m) (from_be_bytes bs) = bs ∧ ∃ suf, rest = bs ++ suf).
  { intros m bs Hr. apply read_array_inv in Hr as (pre' & suf & Heq & Hpre & <-); [|apply len_nonneg].
    split; [done|]. split; [apply from_be_bytes_range|]. split.
    - apply to_from_be_bytes. unfold len. lia.
    - exists suf. apply app_inj_1 in Heq as [_ ?]; [done|]. unfold len in Hpre. lia. }
  destruct (Z.eqb_spec k 25) as [->|]; [|destruct (Z.eqb_spec k 26) as [->|];
    [|destruct (Z.eqb_spec k 27) as [->|]; [|by destruct (k =? 31)]]];
  (intros Hd; apply result_bind_ok in Hd as (bs & Hr & Hd); cbv zeta in Hd;
   apply Harr in Hr as (Hl & Hrange & Hbe & Hsuf); 
   match type of Hd with (if ?c then _ else _) = _ => destruct c eqn:Hmin; [done|] end;
   simplify_eq; revert Hbe; unfold argument_info, argument_payload, in_range, u64_max;
   match type of Hrange with _ ≤ _ < ?p => let p' := eval compute in p in change p with p' in Hrange end;
   repeat match goal with |- context [?x <=? ?y] =>
     (destruct (x <=? y) eqn:?; [lia|]) || (destruct (x <=? y) eqn:?; [|lia]) end;
   intros Hbe;
   match type of Hbe with context [Z.to_nat ?x] =>
     let n := eval compute in (Z.to_nat x) in change (Z.to_nat x) with n in Hbe end;
   rewrite Hbe, Hl; repeat split; [lia..|done]).
Qed.

(** ** The language of the scanner *)

(** One entry of a map: a key and its value. *)
Definition pair_of (P : bytes → Prop) (bs : bytes) : Prop :=
  ∃ key value, bs = key ++ value ∧ P key ∧ P value.

(** The byte strings of one CBOR item nested at most [levels] deep: every
    length and integer in its shortest form, definite lengths, texts in UTF-8,
    no tags, no floating point. *)
Fixpoint item (levels : nat) (bs : bytes) : Prop :=
  match levels with
  | O => False
  | S levels =>
      (∃ major argument, 0 ≤ major ≤ 1 ∧ u64 argument ∧ bs = encode_argument major argument) ∨
      (∃ major s, (major = 2 ∨ major = 3 ∧ utf8_valid s = true) ∧
         bs = encode_argument major (len s) ++ s) ∨
      (∃ items, Forall (item levels) items ∧ bs = encode_argument 4 (len items) ++ concat items) ∨
      (∃ entries, Forall (pair_of (item levels)) entries ∧
         bs = encode_argument 5 (len entries) ++ concat entries) ∨
      bs ∈ [[xf4]; [xf5]; [xf6]]
  end.

(** A step that reads one [P] at a position of [input]. *)
Definition reads (input : bytes) (P : bytes → Prop) (step : Z → bundle_result Z) : Prop :=
  (∀ pre rest p, input = pre ++ rest → step (len pre) = Ok p →
     ∃ bs suf, rest = bs ++ suf ∧ P bs ∧ p = len pre + len bs) ∧
  (∀ pre bs suf, input = pre ++ bs ++ suf → P bs → step (len pre) = Ok (len pre + len bs)).

Lemma repeat_scan_sound input P step attempts :
  reads input P step → ∀ count pre rest p,
  0 ≤ count → input = pre ++ rest → repeat_scan step attempts count (len pre) = Ok p →
  ∃ items suf, rest = concat items ++ suf ∧ Forall P items ∧ len items = count ∧
    p = len pre + len (concat items).
Proof.
  intros [Hstep _]. induction attempts as [|n IH]; intros count pre rest p Hc Hin Hr; [done|].
  simpl in Hr. destruct (count <=? 0) eqn:Hle.
  - simplify_eq. exists [], rest. repeat split; [constructor|..]; unfold len; simpl; lia.
  - apply result_bind_ok in Hr as (q & Hq & Hr).
    destruct (Hstep _ _ _ Hin Hq) as (bs & suf & -> & HP & ->).
    rewrite <-len_app in Hr.
    apply (IH (count - 1) (pre ++ bs) suf) in Hr as (items & suf' & -> & Hall & Hl & ->);
      [|lia|by rewrite <-app_assoc].
    exists (bs :: items), suf'. simpl. rewrite !len_app, <-app_assoc.
    repeat split; [by constructor|unfold len in *; simpl; lia|lia].
Qed.

Lemma repeat_scan_complete input P step attempts :
  reads input P step → ∀ items pre suf,
  Forall P items → input = pre ++ concat items ++ suf → (length items < attempts)%nat →
  repeat_scan step attempts (len items) (len pre) = Ok (len pre + len (concat items)).
Proof.
  intros [_ Hstep]. induction attempts as [|n IH]; intros items pre suf Hall Hin Hn; [lia|].
  cbn [repeat_scan]. destruct items as [|bs items]; cbn [length concat] in *.
  - f_equal. unfold len. simpl. lia.
  - apply Forall_cons in Hall as [HP Hall]. rewrite <-app_assoc in Hin.
    destruct (len (bs :: items) <=? 0) eqn:Hle; [unfold len in Hle; apply Z.leb_le in Hle; cbn [length] in Hle; lia|].
    rewrite (Hstep _ _ _ Hin HP). cbn [result_bind].
    replace (len (bs :: items) - 1) with (len items) by (unfold len; simpl; lia).
    rewrite <-len_app. rewrite (IH items (pre ++ bs) suf); [|done|by rewrite <-app_assoc|lia].
    f_equal. rewrite !len_app. lia.
Qed.

(** A number of iterations above the number of bytes left is as good as any
    other: the loop ends with its last item or at the end of the input. *)
Lemma repeat_scan_attempts input P step n m :
  reads input P step → (∀ bs, P bs → 1 ≤ len bs) → ∀ count pre rest,
  input = pre ++ rest → (length rest < n)%nat → (length rest < m)%nat →
  repeat_scan step n count (len pre) = repeat_scan step m count (len pre).
Proof.
  intros Hreads HP. revert m. induction n as [|n IH]; intros m count pre rest Hin Hn Hm; [lia|].
  destruct m as [|m]; [lia|]. simpl. destruct (count <=? 0); [done|].
  destruct (step (len pre)) as [q|e] eqn:Hq; [|done]. simpl.
  destruct (proj1 Hreads _ _ _ Hin Hq) as (bs & suf & -> & Hbs & ->).
  apply HP in Hbs. unfold len in Hbs. rewrite length_app in *.
  rewrite <-len_app. apply (IH m (count - 1) (pre ++ bs) suf); [by rewrite <-app_assoc|lia..].
Qed.

Lemma reads_pair input P step :
  reads input P step →
  reads input (pair_of P) (λ position, let? position := step position in step position).
Proof.
  intros [Hs Hc]. split.
  - intros pre rest p Hin Hr. apply result_bind_ok in Hr as (q & Hq & Hr).
    destruct (Hs _ _ _ Hin Hq) as (key & suf & -> & Hk & ->). rewrite <-len_app in Hr.
    apply (Hs (pre ++ key) suf) in Hr as (value & suf' & -> & Hv & ->); [|by rewrite <-app_assoc].
    exists (key ++ value), suf'. rewrite <-app_assoc, !len_app.
    repeat split; [by exists key, value|lia].
  - intros pre bs suf Hin (key & value & -> & Hk & Hv). rewrite <-app_assoc in Hin.
    rewrite (Hc _ _ _ Hin Hk). cbn [result_bind]. rewrite <-len_app.
    rewrite (Hc (pre ++ key) value suf); [|by rewrite <-app_assoc|done].
    f_equal. rewrite !len_app. lia.
Qed.

Lemma item_len levels bs : item levels bs → 1 ≤ len bs.
Proof.
  destruct levels as [|levels]; [done|]. simpl.
  assert (Hh : ∀ m a (x : bytes), 1 ≤ len (encode_argument m a ++ x)).
  { intros m a x. rewrite len_app. pose proof (len_encode_argument m a).
    pose proof (len_nonneg x). lia. }
  intros [(m & a & _ & _ & ->)|[(m & s & _ & ->)|[(l & _ & ->)|[(l & _ & ->)|Hs]]]];
    [apply len_encode_argument|apply Hh..|].
  rewrite !elem_of_cons in Hs. by destruct Hs as [->|[->|[->|Hs%elem_of_nil]]].
Qed.

(** What the scanner does with an item whose head has been read. *)
Definition scan_body levels input (major argument position initial : Z) : bundle_result Z :=
  if major <=? 1 then Ok position else
  if major <=? 3 then
    let? length := (if argument <=? usize_max then Ok argument
                    else Err (error_new ErrorCode.Bounds "CBOR string length exceeds usize")) in
    let? stop := ok_or (checked_add usize_max position length)
                   (error_new ErrorCode.Bounds "CBOR string end overflow") in
    let? bs := ok_or (get_range input position stop)
                 (error_new ErrorCode.CanonicalCbor "truncated CBOR string") in
    check? (if (major =? 3) && negb (utf8_valid bs)
            then canonical_error "invalid UTF-8 in CBOR text" else Ok tt) in
    Ok stop
  else if major =? 4 then
    repeat_scan (scan_item levels input) (S (length input)) argument position
  else if major =? 5 then
    repeat_scan (λ position,
        let? position := scan_item levels input position in
        scan_item levels input position)
      (S (length input)) argument position
  else if major =? 6 then canonical_error "CBOR tags are forbidden"
  else if (0xf4 <=? initial) && (initial <=? 0xf6) then Ok position
  else canonical_error "only false, true, and null CBOR simple values are allowed".

(** The head of an accepted item. *)
Lemma scan_item_head levels pre rest p :
  scan_item (S levels) (pre ++ rest) (len pre) = Ok p →
  ∃ major argument suf, 0 ≤ major < 8 ∧ u64 argument ∧
    rest = encode_argument major argument ++ suf ∧
    scan_body levels (pre ++ rest) major argument (len (pre ++ encode_argument major argument))
      (32 * major + argument_info argument) = Ok p.
Proof.
  intros Hs. cbn [scan_item] in Hs. apply result_bind_ok in Hs as (b & Hb & Hs).
  apply ok_or_ok in Hb. replace (Z.to_nat (len pre)) with (length pre) in Hb by (unfold len; lia).
  rewrite lookup_app_r, Nat.sub_diag in Hb by lia.
  destruct rest as [|b' rest]; [done|]. cbn in Hb. injection Hb as ->.
  apply result_bind_ok in Hs as ([a n] & Hd & Hs). cbn [fst snd] in Hs.
  destruct (byte_halves b) as (Hbyte & Hm & Hk).
  assert (Hd' : decode_argument ((pre ++ [b]) ++ rest) (len (pre ++ [b]))
                  (Z.land (byte.unsigned b) 31) = Ok (a, n))
    by (by rewrite <-app_assoc, len_app).
  apply decode_argument_inv in Hd' as (Ha & Hinfo & -> & suf & ->); [|done].
  exists (Z.shiftr (byte.unsigned b) 5), a, suf. split; [done|]. split; [done|].
  rewrite encode_argument_split, <-Hinfo, <-Hbyte. split; [done|].
  assert (Hun : byte.unsigned b = 32 * Z.shiftr (byte.unsigned b) 5 + Z.land (byte.unsigned b) 31)
    by (rewrite Hbyte at 1; by apply halves_byte).
  apply result_bind_ok in Hs as (position & Hp & Hs). apply ok_or_ok, checked_add_Some in Hp as [-> _].
  rewrite <-Hun.
  replace (len (pre ++ b :: argument_payload a)) with (len pre + (1 + len (argument_payload a)))
    by (rewrite len_app; unfold len; simpl; lia).
  exact Hs.
Qed.

Lemma scan_item_body levels pre suf major argument :
  0 ≤ major < 8 → u64 argument → len (pre ++ encode_argument major argument ++ suf) ≤ usize_max →
  scan_item (S levels) (pre ++ encode_argument major argument ++ suf) (len pre) =
  scan_body levels (pre ++ encode_argument major argument ++ suf) major argument
    (len (pre ++ encode_argument major argument)) (32 * major + argument_info argument).
Proof.
  intros Hm Ha Hl. cbn [scan_item].
  replace (Z.to_nat (len pre)) with (length pre) by (unfold len; lia).
  rewrite lookup_app_r, Nat.sub_diag by lia.
  pose proof (argument_info_range argument (proj1 Ha)) as Hi.
  rewrite encode_argument_split in *. cbn [app lookup list_lookup ok_or result_bind].
  set (b := byte.of_Z _) in *.
  destruct (head_major major (argument_info argument) Hm Hi) as [Hmaj Hinf]. fold b in Hmaj, Hinf.
  rewrite Hmaj, Hinf.
  replace (pre ++ b :: argument_payload argument ++ suf)
    with ((pre ++ [b]) ++ argument_payload argument ++ suf) in * by (by rewrite <-app_assoc).
  replace (len pre + 1) with (len (pre ++ [b])) by (by rewrite len_app).
  rewrite decode_payload; [|done|by rewrite <-app_assoc in *].
  cbn [result_bind fst snd].
  replace (len (pre ++ b :: argument_payload argument))
    with (len pre + (1 + len (argument_payload argument)))
    by (rewrite len_app; unfold len; simpl; lia).
  assert (Hadd : checked_add usize_max (len pre) (1 + len (argument_payload argument))
    = Some (len pre + (1 + len (argument_payload argument)))).
  { apply checked_add_Some. split; [done|]. revert Hl. rewrite !len_app.
    pose proof (len_nonneg suf). unfold len. simpl. lia. }
  rewrite Hadd. cbn [ok_or result_bind]. unfold b. rewrite halves_byte by done. reflexivity.
Qed.

(** The scanner with [S levels] left accepts exactly the items of that depth,
    given that it does so one level below. *)
Lemma scan_body_sound levels pre head rest major argument p :
  0 ≤ major < 8 → u64 argument → head = encode_argument major argument →
  reads (pre ++ head ++ rest) (item levels) (scan_item levels (pre ++ head ++ rest)) →
  scan_body levels (pre ++ head ++ rest) major argument (len (pre ++ head))
    (32 * major + argument_info argument) = Ok p →
  ∃ bs suf, head ++ rest = bs ++ suf ∧ item (S levels) bs ∧ p = len pre + len bs.
Proof.
  intros Hm Ha Hhead Hreads. unfold scan_body.
  assert (Hin : pre ++ head ++ rest = (pre ++ head) ++ rest) by (by rewrite app_assoc).
  destruct (major <=? 1) eqn:H1.
  { intros [= <-]. exists head, rest. split; [done|]. split; [|apply len_app].
    left. exists major, argument. repeat split; [lia..|exact (proj1 Ha)|exact (proj2 Ha)|done]. }
  destruct (major <=? 3) eqn:H3.
  { destruct (argument <=? usize_max); [|done]. cbn [result_bind]. intros Hb.
    apply result_bind_ok in Hb as (stop & Hadd & Hb).
    apply ok_or_ok, checked_add_Some in Hadd as [-> _].
    apply result_bind_ok in Hb as (s & Hg & Hb). apply ok_or_ok in Hg.
    apply result_bind_ok in Hb as ([] & Hutf & Hb). injection Hb as <-.
    apply get_range_inv in Hg as (pre' & suf & Heq & Hlen & Hstop); [|apply len_nonneg].
    rewrite Hin in Heq. apply app_inj_1 in Heq as [_ ->]; [|unfold len in Hlen; lia].
    assert (argument = len s) as -> by lia.
    exists (head ++ s), suf. rewrite app_assoc, !len_app. split; [done|]. split; [|lia].
    right; left. exists major, s. split; [|by rewrite Hhead].
    destruct (Z.eqb_spec major 3) as [->|]; [right|left; lia].
    split; [done|]. by destruct (utf8_valid s). }
  destruct Ha as [Ha _].
  destruct (Z.eqb_spec major 4) as [->|].
  { intros Hb. apply (repeat_scan_sound _ _ _ _ Hreads _ _ rest) in Hb
      as (items & suf & -> & Hall & Hlen & ->); [|done|exact Hin].
    exists (head ++ concat items), suf. rewrite app_assoc, !len_app. split; [done|]. split; [|lia].
    right; right; left. exists items. by rewrite Hlen, Hhead. }
  destruct (Z.eqb_spec major 5) as [->|].
  { intros Hb. apply (repeat_scan_sound _ _ _ _ (reads_pair _ _ _ Hreads) _ _ rest) in Hb
      as (items & suf & -> & Hall & Hlen & ->); [|done|exact Hin].
    exists (head ++ concat items), suf. rewrite app_assoc, !len_app. split; [done|]. split; [|lia].
    right; right; right; left. exists items. by rewrite Hlen, Hhead. }
  destruct (Z.eqb_spec major 6) as [->|]; [done|]. assert (major = 7) as -> by lia.
  destruct (_ && _) eqn:Hr; [|done]. intros [= <-].
  apply andb_prop in Hr as [Hlo Hhi]. apply Z.leb_le in Hlo, Hhi.
  assert (Hi : 20 ≤ argument_info argument ≤ 22) by lia.
  assert (Hv : argument_info argument = argument)
    by (revert Hi; unfold argument_info; repeat case_match; lia).
  exists head, rest. split; [done|]. split; [|apply len_app].
  do 4 right. rewrite Hhead. assert (argument = 20 ∨ argument = 21 ∨ argument = 22) as [->|[->| ->]] by lia;
    vm_compute; set_solver.
Qed.

Lemma scan_body_complete levels pre suf bs :
  reads (pre ++ bs ++ suf) (item levels) (scan_item levels (pre ++ bs ++ suf)) →
  len (pre ++ bs ++ suf) ≤ usize_max → item (S levels) bs →
  scan_item (S levels) (pre ++ bs ++ suf) (len pre) = Ok (len pre + len bs).
Proof.
  intros Hreads Hl Hitem.
  assert (Hcount : ∀ l : list bytes, Forall (λ x, 1 ≤ len x) l →
    len l ≤ len (concat l)).
  { induction 1 as [|x l Hx _ IH]; [done|]. cbn [concat]. rewrite len_app.
    unfold len in *. cbn [length]. lia. }
  pose proof usize_max_ub as Hub. pose proof (len_nonneg pre) as Hp. pose proof (len_nonneg suf) as Hs.
  assert (Hsmall : len bs ≤ u64_max) by (rewrite !len_app in Hl; lia).
  destruct Hitem as [(m & a & Hm & Ha & ->)|[(m & s & Hm & ->)|[(l & Hall & ->)|[(l & Hall & ->)|Hsimple]]]].
  - rewrite scan_item_body by (done || lia). unfold scan_body.
    destruct (m <=? 1) eqn:?; [|lia]. by rewrite len_app.
  - pose proof (len_encode_argument m (len s)) as Hh. pose proof (len_nonneg s) as Hns.
    rewrite len_app in Hsmall. rewrite <-app_assoc in *.
    rewrite scan_item_body by (done || lia || (split; lia)).
    unfold scan_body. destruct (m <=? 1) eqn:?; [lia|]. destruct (m <=? 3) eqn:?; [|lia].
    rewrite !len_app in Hl. destruct (len s <=? usize_max) eqn:?; [|lia]. cbn [result_bind].
    rewrite (proj2 (checked_add_Some _ _ _ (len (pre ++ encode_argument m (len s)) + len s)))
      by (split; [done|rewrite len_app; lia]).
    cbn [ok_or result_bind]. rewrite (app_assoc pre), get_range_app by done. cbn [ok_or result_bind].
    assert (Hu : (m =? 3) && negb (utf8_valid s) = false).
    { destruct Hm as [->|[-> ->]]; [done|]. by destruct (_ =? _). }
    rewrite Hu. cbn [result_bind]. f_equal. rewrite !len_app. lia.
  - pose proof (len_encode_argument 4 (len l)) as Hh. rewrite <-app_assoc in *.
    specialize (Hcount l (Forall_impl _ _ _ Hall (λ x, item_len _ _))).
    rewrite len_app in Hsmall. pose proof (len_nonneg l).
    rewrite scan_item_body by (done || lia || (split; lia)).
    unfold scan_body. cbn [Z.leb Z.eqb Z.compare Pos.compare Pos.compare_cont Pos.eqb].
    rewrite (repeat_scan_complete _ _ _ _ Hreads l _ suf); [|done|by rewrite <-!app_assoc|].
    + f_equal. rewrite !len_app. lia.
    + unfold len in *. rewrite !length_app. lia.
  - pose proof (len_encode_argument 5 (len l)) as Hh. rewrite <-app_assoc in *.
    assert (Hne : Forall (λ x : bytes, 1 ≤ len x) l).
    { eapply Forall_impl; [exact Hall|]. intros x (k & v & -> & Hk & Hv).
      rewrite len_app. apply item_len in Hk, Hv. lia. }
    specialize (Hcount l Hne). rewrite len_app in Hsmall. pose proof (len_nonneg l).
    rewrite scan_item_body by (done || lia || (split; lia)).
    unfold scan_body. cbn [Z.leb Z.eqb Z.compare Pos.compare Pos.compare_cont Pos.eqb].
    rewrite (repeat_scan_complete _ _ _ _ (reads_pair _ _ _ Hreads) l _ suf);
      [|done|by rewrite <-!app_assoc|].
    + f_equal. rewrite !len_app. lia.
    + unfold len in *. rewrite !length_app. lia.
  - assert (∃ a, 20 ≤ a ≤ 22 ∧ bs = encode_argument 7 a) as (a & Ha & ->).
    { rewrite !elem_of_cons, elem_of_nil in Hsimple.
      destruct Hsimple as [->|[->|[->|[]]]]; [exists 20|exists 21|exists 22]; done. }
    rewrite scan_item_body by (done || lia || (split; unfold u64_max; lia)).
    assert (a = 20 ∨ a = 21 ∨ a = 22) as [->|[->| ->]] by lia; unfold scan_body; simpl; by rewrite len_app.
Qed.

Lemma scan_item_reads levels input :
  len input ≤ usize_max → reads input (item levels) (scan_item levels input).
Proof.
  intros Hl. induction levels as [|levels IH]; [by split|]. split.
  - intros pre rest p -> Hs.
    apply scan_item_head in Hs as (m & a & suf & Hm & Ha & -> & Hs).
    by eapply scan_body_sound.
  - intros pre bs suf ->. by apply scan_body_complete.
Qed.

(** ** What the encoder writes *)

Lemma concat_results_ok l body :
  concat_results l = Ok body →
  ∃ parts, Forall2 (λ r part, r = Ok part) l parts ∧ body = concat parts.
Proof.
  revert body. induction l as [|r l IH]; intros body Hc; simpl in Hc.
  - simplify_eq. by exists [].
  - apply result_bind_ok in Hc as (a & -> & Hc). apply result_bind_ok in Hc as (b & Hb & Hc).
    injection Hc as <-. apply IH in Hb as (parts & Hparts & ->).
    exists (a :: parts). split; [by constructor|done].
Qed.

Lemma keyed_entries_ok l entries :
  keyed_entries l = Ok entries → Forall2 (λ kv e, kv = (Ok e.1, e.2)) l entries.
Proof.
  revert entries. induction l as [|[k v] l IH]; intros entries Hk; simpl in Hk.
  - simplify_eq. constructor.
  - apply result_bind_ok in Hk as (a & -> & Hk). apply result_bind_ok in Hk as (b & Hb & Hk).
    injection Hk as <-. constructor; [done|]. by apply IH.
Qed.

Lemma insert_entry_perm {A} (x : bytes * A) l : insert_entry x l ≡ₚ x :: l.
Proof.
  induction l as [|y l IH]; simpl; [done|]. case_match; [done|]. rewrite IH. by constructor.
Qed.
Lemma sort_entries_perm {A} (l : list (bytes * A)) : sort_entries l ≡ₚ l.
Proof. induction l as [|x l IH]; simpl; [done|]. by rewrite insert_entry_perm, IH. Qed.

(** The values KBB can carry: nested at most [levels] deep, texts in UTF-8
    (which a Rust [String] always is). *)
Fixpoint fits (levels : nat) (v : Value) : bool :=
  match levels with
  | O => false
  | S levels =>
      match v with
      | Value.Text bs => utf8_valid bs
      | Value.Array items => forallb (fits levels) items
      | Value.Map entries => forallb (λ kv, fits levels kv.1 && fits levels kv.2) entries
      | _ => true
      end
  end.

Lemma u64_try_from_Some z n : u64_try_from z = Some n ↔ n = z ∧ u64 z.
Proof.
  unfold u64_try_from, in_range.
  destruct (0 <=? z) eqn:?, (z <=? u64_max) eqn:?; simpl; naive_solver lia.
Qed.

Lemma usize_u64_ok n m : usize_u64 n = Ok m → m = n.
Proof. unfold usize_u64. by case_match; intros [=]. Qed.

(** Every encoding is an item: arrays and maps, given their parts. *)
Definition encodes_items (levels : nat) : Prop :=
  ∀ v bs, fits levels v = true → encode_value v = Ok bs → item levels bs.

Lemma encode_array_item levels items bs :
  encodes_items levels → fits (S levels) (Value.Array items) = true →
  encode_value (Value.Array items) = Ok bs → item (S levels) bs.
Proof.
  intros IH Hf He. cbn [encode_value fits] in Hf, He.
  apply result_bind_ok in He as (n & ->%usize_u64_ok & He).
  apply result_bind_ok in He as (body & Hb & He). injection He as <-.
  apply concat_results_ok in Hb as (parts & Hparts & ->).
  right; right; left. exists parts.
  rewrite Forall2_fmap_l in Hparts. pose proof (Forall2_length _ _ _ Hparts) as Hlen.
  split; [|by unfold len; rewrite Hlen].
  clear Hlen. induction Hparts as [|v part items parts Hv _ IHp]; [constructor|].
  cbn [forallb] in Hf. apply andb_prop in Hf as [Hfv Hf].
  constructor; [by apply (IH v)|by apply IHp].
Qed.

Lemma encoded_keys_items levels entries keyed :
  encodes_items levels → fits (S levels) (Value.Map entries) = true →
  keyed_entries (map (λ kv, (encode_value (fst kv), encode_value (snd kv))) entries) = Ok keyed →
  Forall (λ e : bytes * bundle_result bytes,
    item levels e.1 ∧ ∀ part, e.2 = Ok part → item levels part) keyed.
Proof.
  intros IH Hf Hk. apply keyed_entries_ok in Hk. rewrite Forall2_fmap_l in Hk.
  cbn [fits] in Hf. induction Hk as [|[k v] [ek ev] entries keyed He _ IHk]; [constructor|].
  cbn [forallb fst snd] in Hf, He. apply andb_prop in Hf as [Hkv Hf].
  apply andb_prop in Hkv as [Hfk Hfv]. injection He as Hek Hev.
  constructor; [|by apply IHk]. cbn [fst snd] in *.
  split; [by apply (IH k)|]. intros part Hp. apply (IH v); [done|]. by rewrite Hev.
Qed.

Lemma encode_map_item levels entries bs :
  encodes_items levels → fits (S levels) (Value.Map entries) = true →
  encode_value (Value.Map entries) = Ok bs → item (S levels) bs.
Proof.
  intros IH Hf He. cbn [encode_value] in He.
  apply result_bind_ok in He as (keyed & Hk & He).
  apply result_bind_ok in He as (n & ->%usize_u64_ok & He).
  apply result_bind_ok in He as (body & Hb & He). injection He as <-.
  apply encoded_keys_items with (levels := levels) in Hk; [|done..].
  apply concat_results_ok in Hb as (parts & Hparts & ->).
  right; right; right; left. exists parts. rewrite Forall2_fmap_l in Hparts.
  pose proof (Forall2_length _ _ _ Hparts) as Hlen.
  rewrite (Permutation_length (sort_entries_perm keyed)) in Hlen.
  split; [|by unfold len; rewrite Hlen].
  rewrite <-(sort_entries_perm keyed) in Hk. clear Hlen Hf.
  induction Hparts as [|e part es parts Hp _ IHp]; [constructor|].
  apply Forall_cons in Hk as [[Hek Hev] Hk]. constructor; [|by apply IHp].
  apply result_bind_ok in Hp as (value & Hv & Hp). injection Hp as <-.
  exists e.1, value. repeat split; [done|]. by apply Hev.
Qed.

Lemma encode_value_item levels : encodes_items levels.
Proof.
  induction levels as [|levels IH]; intros v bs Hf He; [done|].
  destruct v as [|[]|z|?|s|s|items|entries|]; cbn [encode_value] in He.
  1-3: injection He as <-; do 4 right; set_solver.
  - left. destruct (0 <=? z) eqn:Hz; apply result_bind_ok in He as (n & Hn & He);
      apply ok_or_ok, u64_try_from_Some in Hn as [-> Hu]; injection He as <-.
    + by exists 0, z.
    + by exists 1, (-1 - z).
  - done.
  - apply result_bind_ok in He as (n & ->%usize_u64_ok & He). injection He as <-.
    right; left. exists 2, s. by split; [left|].
  - apply result_bind_ok in He as (n & ->%usize_u64_ok & He). injection He as <-.
    right; left. exists 3, s. by split; [right|].
  - by eapply encode_array_item.
  - by eapply encode_map_item.
  - done.
Qed.

(** C33: the scanner that runs before any CBOR is deserialized accepts a
    well-formed item of the KBB profile and nothing else: shortest integers and
    lengths, definite lengths, UTF-8 texts, no tags or floats, nesting within
    the limit; and it returns the position right after that item. *)
Theorem scanner_accepts_exactly_items levels input offset p :
  len input ≤ usize_max → 0 ≤ offset →
  scan_item levels input offset = Ok p ↔
  ∃ pre bs suf, input = pre ++ bs ++ suf ∧ offset = len pre ∧ p = len pre + len bs ∧
    item levels bs.
Proof.
  intros Hl Ho. destruct (scan_item_reads levels input Hl) as [Hs Hc]. split.
  - intros Hr. destruct (decide (offset ≤ len input)) as [Hin|Hout].
    + unfold len in Hin.
      assert (Hpre : offset = len (take (Z.to_nat offset) input))
        by (unfold len; rewrite length_take; lia).
      rewrite Hpre in Hr. apply Hs with (rest := drop (Z.to_nat offset) input) in Hr
        as (bs & suf & Heq & Hitem & ->); [|by rewrite take_drop].
      exists (take (Z.to_nat offset) input), bs, suf. by rewrite <-Heq, take_drop.
    + exfalso. destruct levels as [|levels]; [done|]. cbn [scan_item] in Hr.
      unfold len in Hout. by rewrite lookup_ge_None_2 in Hr by lia.
  - intros (pre & bs & suf & Hin & -> & -> & Hitem). by apply (Hc pre bs suf).
Qed.

Section canonical.
Context {T : Type} (to_value : T → bundle_result Value) (from_slice : bytes → bundle_result T).

(** A value that is written in the canonical encoding is read back from it,
    and no other byte string is read as that value; [from_slice] is the
    deserializer, which reads back what the serializer's value encodes to. *)
Theorem canonical_cbor_roundtrip x v bs :
  to_value x = Ok v → fits MAX_DEPTH v = true → encode_value v = Ok bs → len bs ≤ usize_max →
  from_slice bs = Ok x →
  from_canonical_slice to_value from_slice bs = Ok x ∧
  ∀ bs', from_canonical_slice to_value from_slice bs' = Ok x → bs' = bs.
Proof.
  intros Hv Hf He Hl Hfrom. unfold from_canonical_slice, to_canonical_vec. split.
  - pose proof (proj2 (scan_item_reads MAX_DEPTH bs Hl) [] bs []) as Hscan.
    change (len (@nil byte)) with 0 in Hscan. rewrite Z.add_0_l in Hscan.
    rewrite (Hscan (eq_sym (app_nil_r _)) (encode_value_item _ _ _ Hf He)).
    cbn [result_bind]. rewrite Z.eqb_refl. cbn [negb result_bind].
    rewrite Hfrom. cbn [result_bind]. rewrite Hv. cbn [result_bind]. rewrite He. cbn [result_bind].
    by rewrite bool_decide_eq_false_2 by (intros Hn; by apply Hn).
  - intros bs' Hr. apply result_bind_ok in Hr as (n & _ & Hr).
    apply result_bind_ok in Hr as ([] & _ & Hr). apply result_bind_ok in Hr as (x' & _ & Hr).
    apply result_bind_ok in Hr as (bs'' & Hc & Hr).
    destruct (bool_decide_reflect (bs'' ≠ bs')) as [|Heq]; [done|]. injection Hr as ->.
    rewrite Hv in Hc. cbn [result_bind] in Hc. apply dec_stable in Heq. congruence.
Qed.
End canonical.
End scanning_facts.

(** A map whose second entry sorts before the first. *)
Definition sample_value : Value :=
  Value.Map [(Value.Text [x62; x62], Value.Array [Value.Null; Value.Integer (-300)]);
             (Value.Text [x61], Value.Bool true)].

Lemma scanner_accepts_exactly_items_witness :
  scan_item 2 [x00; x82; xf6; x18; x64; xff] 1 = Ok 5.
Proof.
  refine (proj2 (scanner_accepts_exactly_items 2 [x00; x82; xf6; x18; x64; xff] 1 5 _ _) _).
  - apply (bool_decide_unpack _). by vm_compute.
  - lia.
  - exists [x00], [x82; xf6; x18; x64], [xff]. split; [reflexivity|].
    split; [reflexivity|]. split; [reflexivity|].
    right; right; left. exists [[xf6]; [x18; x64]]. split; [|reflexivity].
    apply Forall_cons; split; [do 4 right; set_solver|].
    apply Forall_cons; split; [|constructor].
    left. exists 0, 100. unfold in_range, u64_max. split; [lia|]. split; [lia|reflexivity].
Defined.

Definition sample_bytes : bytes :=
  [xa2; x61; x61; xf5; x62; x62; x62; x82; xf6; x39; x01; x2b].
Definition sample_from_slice (bs : bytes) : bundle_result Value :=
  if bool_decide (bs = sample_bytes) then Ok sample_value
  else Err (error_new ErrorCode.Schema "CBOR does not match the expected schema").

Lemma canonical_cbor_roundtrip_witness :
  from_canonical_slice Ok sample_from_slice sample_bytes = Ok sample_value.
Proof.
  refine (proj1 (canonical_cbor_roundtrip Ok sample_from_slice sample_value sample_value
    sample_bytes eq_refl eq_refl eq_refl _ eq_refl)).
  apply (bool_decide_unpack _). by vm_compute.
Defined.
