(* ===== verification/UsbProbe.v ===== *)
(** * The FunctionFS throughput probe: src/device/kindlebridge-functionfs/src/probe.rs

    [run_probe_session]: the host announces a mode, a payload size and a number of rounds in
    its HELLO; after the device's HELLO come that many PING/PONG pairs and a GOAWAY each way.
    The theorems say that a session completes only after the whole exchange, and that it
    does complete when the host sends it. *)

From S2P Require Import Prelude Text Cbor WireFrame Framing FunctionFs FunctionFsControl FunctionFsStream.

Definition MAX_PAYLOAD : Z := 1024 * 1024.
Definition MAX_FRAME_COUNT : Z := 100000.
Definition MAX_ROUNDS : Z := 99998.

Module ProbeMode.

Inductive ProbeMode : Type := Duplex | HostToDevice | DeviceToHost.

End ProbeMode.
Abbreviation ProbeMode := ProbeMode.ProbeMode.

#[export] Instance ProbeMode_eq_dec : EqDecision ProbeMode.
Proof. solve_decision. Defined.

(** [ProbeMode::name] and [ProbeMode::parse]. *)
Definition mode_name (mode : ProbeMode) : string :=
  match mode with
  | ProbeMode.Duplex => "duplex"
  | ProbeMode.HostToDevice => "host-to-device"
  | ProbeMode.DeviceToHost => "device-to-host"
  end.
Definition mode_parse (value : bytes) : option ProbeMode :=
  if bool_decide (value = text "duplex") then Some ProbeMode.Duplex else
  if bool_decide (value = text "host-to-device") then Some ProbeMode.HostToDevice else
  if bool_decide (value = text "device-to-host") then Some ProbeMode.DeviceToHost else None.

Record ProbeSessionConfig : Type := { mode : ProbeMode; payload_size : Z; rounds : Z }.

Module SessionOutcome.

Inductive SessionOutcome : Type := Completed | Disconnected.

End SessionOutcome.
Abbreviation SessionOutcome := SessionOutcome.SessionOutcome.

(** ** The host's HELLO *)

(** [parse_field]: the next field, without [name=]. *)
Definition parse_field (fields : list bytes) (name : string) : list bytes * option bytes :=
  match fields with
  | [] => ([], None)
  | field :: fields => (fields, value ← strip_prefix (text name) field; strip_prefix (text "=") value)
  end.

(** [value.parse::<u32>().ok().filter(|value| (1..=max).contains(value))]. *)
Definition parse_count (max : Z) (value : bytes) : option Z :=
  n ← parse_unsigned u32_max value;
  if (1 <=? n) && (n <=? max) then Some n else None.

(** [parse_hello]. *)
Definition invalid_hello {A} (reason : string) : result FunctionFsError A :=
  Err (FunctionFsError.InvalidHello reason).
Definition parse_hello (payload : bytes) : result FunctionFsError ProbeSessionConfig :=
  if negb (utf8_valid payload) then invalid_hello "payload is not UTF-8" else
  match split_text x3b payload with
  | [] => invalid_hello "unsupported probe protocol version"
  | version :: fields =>
      if negb (bool_decide (version = text "kindlebridge-usb-bench/0.2"))
      then invalid_hello "unsupported probe protocol version" else
      let '(fields, value) := parse_field fields "mode" in
      let? mode := ok_or (value ≫= mode_parse) (FunctionFsError.InvalidHello "invalid mode") in
      let '(fields, value) := parse_field fields "payload" in
      let? payload_size := ok_or (value ≫= parse_count MAX_PAYLOAD)
                             (FunctionFsError.InvalidHello "invalid payload size") in
      let '(fields, value) := parse_field fields "rounds" in
      let? rounds := ok_or (value ≫= parse_count MAX_ROUNDS)
                       (FunctionFsError.InvalidHello "invalid round count") in
      match fields with
      | [] => Ok {| mode := mode; payload_size := payload_size; rounds := rounds |}
      | _ => invalid_hello "unexpected field"
      end
  end.

(** [test_payload]. *)
Definition test_payload (length : nat) : bytes :=
  (λ index, byte.of_Z (Z.of_nat index mod 251)) <$> seq 0 length.

(** ** The device's HELLO: a CBOR map whose keys are sorted by length, then bytewise *)

(** [cbor_head]; the [as] casts keep the low bytes, which the cases make the whole value. *)
Definition cbor_head (major value : Z) : bytes :=
  let prefix := Z.shiftl major 5 in
  if value <=? 23 then [byte.of_Z (Z.lor prefix value)] else
  if value <=? 0xff then [byte.of_Z (Z.lor prefix 24); byte.of_Z value] else
  if value <=? 0xffff then byte.of_Z (Z.lor prefix 25) :: to_be_bytes 2 value else
  if value <=? 0xffffffff then byte.of_Z (Z.lor prefix 26) :: to_be_bytes 4 value else
  byte.of_Z (Z.lor prefix 27) :: to_be_bytes 8 value.
Definition cbor_text (value : string) : bytes := cbor_head 3 (len (text value)) ++ text value.
Definition cbor_bytes (value : bytes) : bytes := cbor_head 2 (len value) ++ value.
Definition cbor_uint (value : Z) : bytes := cbor_head 0 value.
Definition cbor_entry (key : string) (value : bytes) : bytes * bytes := (cbor_text key, value).

(** The order of [sort_by]: length first, then [Ord] on byte strings. *)
Definition entry_le (l r : bytes * bytes) : bool :=
  (length l.1 <? length r.1)%nat || ((length l.1 =? length r.1)%nat && bytes_le l.1 r.1).
(** [sort_by] is stable. *)
Fixpoint insert_entry (e : bytes * bytes) (l : list (bytes * bytes)) : list (bytes * bytes) :=
  match l with
  | [] => [e]
  | x :: l' => if entry_le e x then e :: l else x :: insert_entry e l'
  end.
Fixpoint sort_entries (l : list (bytes * bytes)) : list (bytes * bytes) :=
  match l with
  | [] => []
  | e :: l => insert_entry e (sort_entries l)
  end.

Definition hello_entries : list (bytes * bytes) :=
  [cbor_entry "abi" (cbor_text "arm-kindlehf-linux-gnueabihf");
   cbor_entry "clock_monotonic_ns" (cbor_uint 0);
   cbor_entry "clock_wall_ns" (cbor_uint 0);
   cbor_entry "features" [x80];
   cbor_entry "firmware" (cbor_text "probe");
   cbor_entry "identity_fingerprint" (cbor_bytes (replicate 32 x00));
   cbor_entry "initial_connection_window" (cbor_uint MAX_PAYLOAD);
   cbor_entry "kernel" (cbor_text "linux");
   cbor_entry "limits" [xa0];
   cbor_entry "max_frame" (cbor_uint MAX_PAYLOAD);
   cbor_entry "model" (cbor_text "kindlehf");
   cbor_entry "protocol_max" (cbor_uint 1);
   cbor_entry "protocol_min" (cbor_uint 1);
   cbor_entry "serial" (cbor_text "ffs-probe")].
Definition hello_payload : bytes :=
  cbor_head 5 (len hello_entries) ++
  concat ((λ e : bytes * bytes, e.1 ++ e.2) <$> sort_entries hello_entries).

(** ** The session *)

(** [transport_disconnected]: 5, 19 and 108 are [EIO], [ENODEV] and [ESHUTDOWN]. *)
Definition transport_disconnected (error : TransportError) : bool :=
  match error with
  | TransportError.EndOfStream => true
  | TransportError.Io _ source =>
      match source with
      | ErrorKind.BrokenPipe | ErrorKind.ConnectionAborted | ErrorKind.ConnectionReset
      | ErrorKind.NotConnected | ErrorKind.UnexpectedEof => true
      | ErrorKind.OtherKind code => (code =? 5) || (code =? 19) || (code =? 108)
      | _ => false
      end
  | _ => false
  end.

Section session.
Context {R W : Type} `{Read R} `{WriteSome W}.
Variable can_reserve : Z → bool.

Record Session : Type := {
  reader : FrameReader (FunctionFsIo R);
  writer : FrameWriter (FunctionFsIo W);
  received : Z;
}.
Definition set_reader r (s : Session) : Session :=
  {| reader := r; writer := writer s; received := received s |}.
Definition set_writer w (s : Session) : Session :=
  {| reader := reader s; writer := w; received := received s |}.
Definition count_received (s : Session) : Session :=
  {| reader := reader s; writer := writer s; received := received s + 1 |}.

(** [receive_expected]; [None] is a host that is gone. *)
Definition receive_expected (expected : Command) (expected_stream expected_sequence : Z) :
    M Session FunctionFsError (option Frame) :=
  let! s := mget in
  do! mlift (reject_if (received s >=? MAX_FRAME_COUNT) (FunctionFsError.FrameLimit MAX_FRAME_COUNT)) in
  let! frame := λ s,
    let '(r, res) := reader_read_frame can_reserve (reader s) in
    (set_reader r s,
     match res with
     | Ok frame => Ok (Some frame)
     | Err error =>
         if transport_disconnected error then Ok None else Err (FunctionFsError.Transport error)
     end) in
  match frame with
  | None => mret None
  | Some frame =>
      do! mmodify count_received in
      if negb (bool_decide (command (header frame) = expected))
         || negb (stream_id (header frame) =? expected_stream)
         || negb (sequence (header frame) =? expected_sequence)
      then mfail (FunctionFsError.UnexpectedFrame expected (command (header frame))
                    (stream_id (header frame)) (sequence (header frame)))
      else mret (Some frame)
  end.

(** [send_frame]. *)
Definition send_outcome (r : result TransportError unit) : result FunctionFsError SessionOutcome :=
  match r with
  | Ok tt => Ok SessionOutcome.Completed
  | Err error =>
      if transport_disconnected error then Ok SessionOutcome.Disconnected
      else Err (FunctionFsError.Transport error)
  end.
Definition send_frame (frame : Frame) : M Session FunctionFsError SessionOutcome := λ s,
  match writer_write_frame frame (writer s) with
  | (w, Err error) => (set_writer w s, send_outcome (Err error))
  | (w, Ok tt) => let '(w, r) := writer_flush w in (set_writer w s, send_outcome r)
  end.

(** [Frame::new(Header::new(command, 0, sequence), payload)?]. *)
Definition probe_frame (c : Command) (sequence : Z) (payload : bytes) :
    result FunctionFsError Frame :=
  map_err (λ e, FunctionFsError.Transport (TransportError.Wire e))
    (frame_new (header_new c 0 sequence) payload).
Definition with_sequence (sequence : Z) (f : Frame) : Frame :=
  {| header := {| major := major (header f); minor := minor (header f);
                  command := command (header f); flags := flags (header f);
                  stream_id := stream_id (header f); sequence := sequence;
                  payload_length := payload_length (header f);
                  credit_delta := credit_delta (header f); reserved := reserved (header f) |};
     payload := payload f |}.

(** The payloads of PING and of PONG in each mode. *)
Definition expected_host_payload (session : ProbeSessionConfig) : bytes :=
  if bool_decide (mode session = ProbeMode.DeviceToHost) then []
  else test_payload (Z.to_nat (payload_size session)).

(** The loop [for sequence in 1..=rounds]: [n] rounds are left, [next] is the first of them.
    [true]: all of them were made. *)
Fixpoint probe_rounds (session : ProbeSessionConfig) (generated_pong : Frame) (n : nat) (next : Z) :
    M Session FunctionFsError bool :=
  match n with
  | O => mret true
  | S n =>
      let! ping := receive_expected Command.Ping 0 next in
      match ping with
      | None => mret false
      | Some ping =>
          do! mlift (reject_if (negb (bool_decide (payload ping = expected_host_payload session)))
                 (FunctionFsError.MismatchedPayload (mode_name (mode session)) next
                    (len (expected_host_payload session)) (len (payload ping)))) in
          let! outcome :=
            if bool_decide (mode session = ProbeMode.Duplex) then
              let! response := mlift (probe_frame Command.Pong next (payload ping)) in
              send_frame response
            else send_frame (with_sequence next generated_pong) in
          match outcome with
          | SessionOutcome.Disconnected => mret false
          | SessionOutcome.Completed => probe_rounds session generated_pong n (next + 1)
          end
      end
  end.

(** [run_probe_session], behind the construction of the adapters. *)
Definition probe_session : M Session FunctionFsError SessionOutcome :=
  let! host_hello := receive_expected Command.Hello 0 0 in
  match host_hello with
  | None => mret SessionOutcome.Disconnected
  | Some host_hello =>
      let! session := mlift (parse_hello (payload host_hello)) in
      let! hello := mlift (probe_frame Command.Hello 0 hello_payload) in
      let! outcome := send_frame hello in
      match outcome with
      | SessionOutcome.Disconnected => mret SessionOutcome.Disconnected
      | SessionOutcome.Completed =>
          let! generated_pong := mlift (probe_frame Command.Pong 1
            (if bool_decide (mode session = ProbeMode.DeviceToHost)
             then test_payload (Z.to_nat (payload_size session)) else [])) in
          let! all := probe_rounds session generated_pong (Z.to_nat (rounds session)) 1 in
          if negb all then mret SessionOutcome.Disconnected else
          let goaway_sequence := rounds session + 1 in
          let! goaway := receive_expected Command.GoAway 0 goaway_sequence in
          match goaway with
          | None => mret SessionOutcome.Disconnected
          | Some goaway =>
              do! mlift (reject_if (negb (bool_decide (payload goaway = [])))
                     (FunctionFsError.MismatchedPayload (mode_name (mode session)) goaway_sequence
                        0 (len (payload goaway)))) in
              let! response := mlift (probe_frame Command.GoAway goaway_sequence []) in
              send_frame response
          end
      end
  end.

Definition probe_config : TransportConfig :=
  transport_config_new {| max_payload := MAX_PAYLOAD; max_window := MAX_PAYLOAD |}.

(** [run_probe_session]. *)
Definition run_probe_session (bulk_out : R) (bulk_in : W) :
    result FunctionFsError (Session * result FunctionFsError SessionOutcome) :=
  let? reader := map_err FunctionFsError.Transport (frame_reader_new {| fio := bulk_out |} probe_config) in
  let? writer := map_err FunctionFsError.Transport (frame_writer_new {| fio := bulk_in |} probe_config) in
  Ok (probe_session {| reader := reader; writer := writer; received := 0 |}).
End session.
Arguments Session R W : clear implicits.

(** ** What a session exchanges *)

Definition the_frame (c : Command) (seq : Z) (data : bytes) : Frame :=
  {| header := with_payload_length (len data) (header_new c 0 seq); payload := data |}.

(** A PONG carries what the PING carried, or what the device generates. *)
Definition pong_payload (session : ProbeSessionConfig) : bytes :=
  if bool_decide (mode session = ProbeMode.HostToDevice) then []
  else test_payload (Z.to_nat (payload_size session)).

(** What the host has to send, and what the device answers: [n] rounds from [next] on. *)
Fixpoint ping_script (session : ProbeSessionConfig) (n : nat) (next : Z) : list (Command * Z * bytes) :=
  match n with
  | O => []
  | S n => (Command.Ping, next, expected_host_payload session) :: ping_script session n (next + 1)
  end.
Fixpoint pong_frames (session : ProbeSessionConfig) (n : nat) (next : Z) : list Frame :=
  match n with
  | O => []
  | S n => the_frame Command.Pong next (pong_payload session) :: pong_frames session n (next + 1)
  end.
Definition host_script (session : ProbeSessionConfig) (hello : bytes) : list (Command * Z * bytes) :=
  (Command.Hello, 0, hello) :: ping_script session (Z.to_nat (rounds session)) 1 ++
  [(Command.GoAway, rounds session + 1, [])].
Definition device_frames (session : ProbeSessionConfig) : list Frame :=
  the_frame Command.Hello 0 hello_payload :: pong_frames session (Z.to_nat (rounds session)) 1 ++
  [the_frame Command.GoAway (rounds session + 1) []].

(** The header may carry a minor version and flags that the session does not look at. *)
Definition is_request (f : Frame) (request : Command * Z * bytes) : Prop :=
  let '(c, seq, data) := request in
  command (header f) = c ∧ stream_id (header f) = 0 ∧ sequence (header f) = seq ∧ payload f = data.

Section exchange.
Context {R W : Type} `{Read R} `{WriteSome W}.
Variable can_reserve : Z → bool.
Implicit Types s : Session R W.

Definition pending s (bs : bytes) : Prop := delivers (fr_reader (reader s)) bs.
Definition sent s : bytes := written (fw_writer (writer s)).
Definition probe_configured s : Prop :=
  fr_config (reader s) = probe_config ∧ fw_config (writer s) = probe_config.

Lemma mlift_ok {S E A} (r : result E A) (s s' : S) a :
  mlift r s = (s', Ok a) → s' = s ∧ r = Ok a.
Proof. unfold mlift. by intros [= <- ->]. Qed.

(** [fs] were taken from the stream. *)
Definition took s s' (fs : list Frame) : Prop :=
  ∀ bs, pending s bs → ∃ encs rest,
    Forall2 (λ f enc, frame_encode f (limits probe_config) = Ok enc) fs encs ∧
    bs = concat encs ++ rest ∧ pending s' rest.
(** [fs] were sent. *)
Definition gave s s' (fs : list Frame) : Prop :=
  ∃ encs, Forall2 (λ f enc, encode_frame_for_write f probe_config = Ok enc) fs encs ∧
    sent s' = sent s ++ concat encs.
Definition exchanged s s' (ins outs : list Frame) : Prop :=
  probe_configured s' ∧ took s s' ins ∧ gave s s' outs.

Lemma exchanged_nil s : probe_configured s → exchanged s s [] [].
Proof.
  intros Hc. split; [done|]. split; [|by exists []; rewrite app_nil_r].
  intros bs Hbs. by exists [], bs.
Qed.

Lemma exchanged_app s1 s2 s3 ins ins' outs outs' :
  exchanged s1 s2 ins outs → exchanged s2 s3 ins' outs' →
  exchanged s1 s3 (ins ++ ins') (outs ++ outs').
Proof.
  intros (_ & Ht1 & encs1 & He1 & Hs1) (Hc & Ht2 & encs2 & He2 & Hs2). split; [done|]. split.
  - intros bs (e1 & r1 & Hf1 & -> & (e2 & r2 & Hf2 & -> & Hp)%Ht2)%Ht1.
    exists (e1 ++ e2), r2. rewrite concat_app, <-app_assoc. auto using Forall2_app.
  - exists (encs1 ++ encs2). split; [by apply Forall2_app|].
    by rewrite Hs2, Hs1, concat_app, <-app_assoc.
Qed.

Lemma receive_exchanged c stream seq s s' f :
  probe_configured s → receive_expected can_reserve c stream seq s = (s', Ok (Some f)) →
  command (header f) = c ∧ stream_id (header f) = stream ∧ sequence (header f) = seq ∧
  exchanged s s' [f] [].
Proof.
  intros [Hr Hw]. unfold receive_expected.
  intros (s0 & ? & [= <- <-] & Hrun)%mbnd_ok. apply mbnd_ok in Hrun as (s1 & [] & Hlim & Hrun).
  unfold mlift in Hlim. injection Hlim as <- _.
  apply mbnd_ok in Hrun as (s2 & frame & Hread & Hrun).
  destruct (reader_read_frame can_reserve (reader s)) as [r res] eqn:Hrf.
  injection Hread as <- Hres. destruct frame as [frame|]; [|done].
  destruct res as [frame'|error]; [|by destruct (transport_disconnected error)].
  injection Hres as ->. apply mbnd_ok in Hrun as (s3 & [] & [= <-] & Hrun).
  destruct (_ || _) eqn:Hcond; [done|]. injection Hrun as <- <-.
  rewrite !orb_false_iff, !negb_false_iff, bool_decide_eq_true, !Z.eqb_eq in Hcond.
  destruct Hcond as [[Hc Hst] Hsq]. split_and!; try done.
  unfold reader_read_frame, zoom in Hrf.
  destruct (read_frame_from can_reserve (fr_config (reader s)) (fr_reader (reader s)))
    as [r1 res1] eqn:Hrff. injection Hrf as <- ->. split; [done|].
  split; [|exists []; by rewrite app_nil_r]. intros bs Hbs.
  destruct (read_frame_consumes_encoding _ _ _ _ _ _ Hbs Hrff) as (enc & rest & -> & Hd & Henc & _).
  exists [enc], rest. rewrite Hr in Henc. cbn [concat]. rewrite app_nil_r. by repeat constructor.
Qed.

Lemma send_exchanged f s s' :
  probe_configured s → send_frame f s = (s', Ok SessionOutcome.Completed) → exchanged s s' [] [f].
Proof.
  intros [Hr Hw]. unfold send_frame, writer_write_frame, zoom.
  destruct (write_frame_to f (fw_config (writer s)) (fw_writer (writer s))) as [w1 [[]|e]] eqn:Hwf.
  2:{ intros [= <- He]. simpl in He. by destruct (transport_disconnected e). }
  unfold writer_flush, zoom, flush. cbn [fw_writer].
  destruct (flush_stream w1) as [w2 fl] eqn:Hfl. intros [= <- _].
  split; [done|]. split.
  { intros bs Hbs. exists [], bs. done. }
  apply write_frame_ok in Hwf as (enc & Henc & Hwr). rewrite Hw in Henc.
  exists [enc]. split; [by repeat constructor|]. cbn [concat]. rewrite app_nil_r.
  unfold sent in *. cbn [writer set_writer fw_writer].
  pose proof (flush_written w1) as Hf. rewrite Hfl in Hf. cbn [fst] in Hf. by rewrite Hf.
Qed.

Lemma probe_frame_ok c seq data f :
  probe_frame c seq data = Ok f → f = the_frame c seq data.
Proof.
  unfold probe_frame, frame_new. intros (n & Hn%ok_or_ok & [= <-])%map_err_ok%result_bind_ok.
  by apply u32_try_from_Some in Hn as [-> _].
Qed.

(** Outside the duplex mode the same PONG is sent again and again, with a new sequence. *)
Lemma generated_pong_frame session pong :
  pong = the_frame Command.Pong 1
    (if bool_decide (mode session = ProbeMode.DeviceToHost)
     then test_payload (Z.to_nat (payload_size session)) else []) →
  mode session ≠ ProbeMode.Duplex →
  ∀ seq, with_sequence seq pong = the_frame Command.Pong seq (pong_payload session).
Proof. intros -> Hd seq. unfold pong_payload. by destruct (mode session). Qed.

Lemma probe_rounds_exchanged session pong n next s s' :
  probe_configured s →
  (mode session ≠ ProbeMode.Duplex →
   ∀ seq, with_sequence seq pong = the_frame Command.Pong seq (pong_payload session)) →
  probe_rounds can_reserve session pong n next s = (s', Ok true) →
  ∃ fs, Forall2 is_request fs (ping_script session n next) ∧
    exchanged s s' fs (pong_frames session n next).
Proof.
  intros Hc Hpong. revert next s Hc. induction n as [|n IH]; intros next s Hc Hrun.
  { injection Hrun as <-. exists []. split; [constructor|]. by apply exchanged_nil. }
  cbn [probe_rounds] in Hrun. apply mbnd_ok in Hrun as (s1 & [ping|] & Hrecv & Hrun); [|done].
  apply receive_exchanged in Hrecv as (Hcmd & Hst & Hsq & Hex1); [|done].
  apply mbnd_ok in Hrun as (s1' & [] & Hpay & Hrun). unfold mlift in Hpay.
  injection Hpay as <- Hpay%reject_if_ok. apply negb_false_iff, bool_decide_eq_true in Hpay.
  apply mbnd_ok in Hrun as (s2 & [|] & Hsend & Hrun); [|done].
  assert (exchanged s1 s2 [] [the_frame Command.Pong next (pong_payload session)]) as Hex2.
  { destruct Hex1 as [Hc1 _]. case_bool_decide as Hdup.
    - apply mbnd_ok in Hsend as (s1'' & f & Hf & Hsend). unfold mlift in Hf.
      injection Hf as <- Hf%probe_frame_ok. apply send_exchanged in Hsend; [|done].
      rewrite Hf, Hpay in Hsend. unfold expected_host_payload in Hsend. unfold pong_payload.
      rewrite Hdup in *. by rewrite !bool_decide_eq_false_2 in * by done.
    - rewrite Hpong in Hsend by done. by apply send_exchanged. }
  pose proof (exchanged_app _ _ _ _ _ _ _ Hex1 Hex2) as Hex.
  destruct (IH (next + 1) s2) as (fs & Hfs & Hex3); [by destruct Hex|done|].
  exists (ping :: fs). split; [by constructor|].
  exact (exchanged_app _ _ _ _ _ _ _ Hex Hex3).
Qed.

(** The probe reports a completed session only for a whole exchange.  From the host's
    bytes it took a HELLO it understands, the announced number of PINGs in sequence with the
    payload of the mode, and an empty GOAWAY, and nothing behind it; and what it sent is its
    HELLO, one PONG per PING with the right sequence and payload, and its GOAWAY. *)
Theorem completed_probe_made_the_exchange s s' bs :
  probe_configured s → pending s bs →
  probe_session can_reserve s = (s', Ok SessionOutcome.Completed) →
  ∃ session hello fs encs rest outs,
    parse_hello hello = Ok session ∧ Forall2 is_request fs (host_script session hello) ∧
    Forall2 (λ f enc, frame_encode f (limits probe_config) = Ok enc) fs encs ∧
    bs = concat encs ++ rest ∧ pending s' rest ∧
    Forall2 (λ f enc, encode_frame_for_write f probe_config = Ok enc) (device_frames session) outs ∧
    sent s' = sent s ++ concat outs.
Proof.
  intros Hc Hbs Hrun. unfold probe_session in Hrun.
  apply mbnd_ok in Hrun as (s1 & [hello|] & Hrecv & Hrun); [|done].
  apply receive_exchanged in Hrecv as (Hcmd & Hst & Hsq & Hex1); [|done].
  apply mbnd_ok in Hrun as (? & session & Hsession & Hrun). apply mlift_ok in Hsession as [-> Hsession].
  apply mbnd_ok in Hrun as (? & f & Hf & Hrun). apply mlift_ok in Hf as [-> ->%probe_frame_ok].
  apply mbnd_ok in Hrun as (s2 & [|] & Hsend & Hrun); [|done].
  apply send_exchanged in Hsend; [|by destruct Hex1].
  pose proof (exchanged_app _ _ _ _ _ _ _ Hex1 Hsend) as Hex2.
  apply mbnd_ok in Hrun as (? & pong & Hpong & Hrun). apply mlift_ok in Hpong as [-> Hpong%probe_frame_ok].
  apply mbnd_ok in Hrun as (s3 & [|] & Hrounds & Hrun); [|done]. cbn [negb] in Hrun.
  destruct (probe_rounds_exchanged _ _ _ _ _ _ (proj1 Hex2) (generated_pong_frame _ _ Hpong) Hrounds)
    as (fs & Hfs & Hex3).
  pose proof (exchanged_app _ _ _ _ _ _ _ Hex2 Hex3) as Hex4.
  apply mbnd_ok in Hrun as (s4 & [goaway|] & Hrecv & Hrun); [|done].
  apply receive_exchanged in Hrecv as (Hcmd' & Hst' & Hsq' & Hex5); [|by destruct Hex4].
  apply mbnd_ok in Hrun as (? & [] & Hempty & Hrun).
  apply mlift_ok in Hempty as [-> Hempty%reject_if_ok%negb_false_iff%bool_decide_eq_true].
  apply mbnd_ok in Hrun as (? & f & Hf & Hsend'). apply mlift_ok in Hf as [-> ->%probe_frame_ok].
  apply send_exchanged in Hsend'; [|by destruct Hex5].
  pose proof (exchanged_app _ _ _ _ _ _ _ Hex4 (exchanged_app _ _ _ _ _ _ _ Hex5 Hsend')) as Hex.
  destruct Hex as (_ & Htook & outs & Houts & Hsent).
  destruct (Htook bs Hbs) as (encs & rest & Hencs & -> & Hrest).
  exists session, (payload hello), (hello :: fs ++ [goaway]), encs, rest, outs.
  split; [done|]. split; [constructor; [done|]; apply Forall2_app; [done|by repeat constructor]|].
  done.
Qed.

(** The session is at [bs] and has received [n] frames. *)
Definition ready s (bs : bytes) (n : Z) : Prop :=
  probe_configured s ∧ pending s bs ∧ received s = n.

Lemma receive_ready f enc c seq data s rest n :
  ready s (enc ++ rest) n → n < MAX_FRAME_COUNT → is_request f (c, seq, data) → frame_ok f →
  encode_frame_for_write f probe_config = Ok enc →
  can_reserve (payload_length (header f)) = true →
  ∃ s', receive_expected can_reserve c 0 seq s = (s', Ok (Some f)) ∧ ready s' rest (n + 1).
Proof.
  intros ([Hr Hw] & Hp & <-) Hn (Hc & Hst & Hsq & Hpay) Hok Henc Hcan. unfold receive_expected.
  unfold mbnd at 1, mget. unfold mbnd at 1, mlift at 1.
  destruct (Z.geb_spec (received s) MAX_FRAME_COUNT); [lia|]. cbn [reject_if].
  destruct (read_frame_parses can_reserve probe_config _ _ Hp) as (r1 & Hr1 & Hd1).
  rewrite (parse_encoded can_reserve f probe_config enc _ Hok Henc Hcan) in Hr1, Hd1.
  cbn [fst snd] in Hr1, Hd1. rewrite drop_app_length in Hd1.
  unfold reader_read_frame, zoom. unfold mbnd at 1. rewrite Hr, Hr1.
  unfold mbnd, mmodify.
  rewrite bool_decide_eq_true_2, Hst, Hsq, !Z.eqb_refl by done. cbn [negb orb].
  eexists. split; [reflexivity|]. done.
Qed.

Hypothesis writes_succeed : ∀ bs (w : FunctionFsIo W), (write_all bs w).2 = Ok tt.
Hypothesis flushes_succeed : ∀ w : FunctionFsIo W, (flush_stream w).2 = Ok tt.

Lemma send_ready f enc s bs n :
  ready s bs n → encode_frame_for_write f probe_config = Ok enc →
  ∃ s', send_frame f s = (s', Ok SessionOutcome.Completed) ∧ ready s' bs n.
Proof.
  intros ([Hr Hw] & Hp & Hn) Henc. unfold send_frame, writer_write_frame, zoom.
  unfold encode_frame_for_write in Henc. apply result_bind_ok in Henc as (h & Hh & _).
  unfold write_frame_to, mbnd, mlift, write_all_as. rewrite Hw, Hh.
  destruct (write_all h _) as [w1 r1] eqn:E1.
  pose proof (writes_succeed h (fw_writer (writer s))) as Hs1. rewrite E1 in Hs1. simpl in Hs1. subst r1.
  cbn [map_err]. destruct (write_all (payload f) w1) as [w2 r2] eqn:E2.
  pose proof (writes_succeed (payload f) w1) as Hs2. rewrite E2 in Hs2. simpl in Hs2. subst r2.
  cbn [map_err]. unfold writer_flush, zoom, flush. cbn [fw_writer].
  destruct (flush_stream w2) as [w3 r3] eqn:E3.
  pose proof (flushes_succeed w2) as Hs3. rewrite E3 in Hs3. simpl in Hs3. subst r3.
  eexists. split; [reflexivity|]. done.
Qed.

Lemma the_frame_encodes c seq data :
  allows_stream_zero c = true → c ≠ Command.Credit → len data ≤ MAX_PAYLOAD →
  probe_frame c seq data = Ok (the_frame c seq data) ∧
  ∃ enc, encode_frame_for_write (the_frame c seq data) probe_config = Ok enc.
Proof.
  intros Hz Hcredit Hlen. unfold MAX_PAYLOAD in Hlen. split.
  - unfold probe_frame, frame_new.
    rewrite (proj2 (u32_try_from_Some (len data) (len data))) by (unfold u32_max; lia). done.
  - unfold encode_frame_for_write, encode_header_for_write.
    change (payload_length (header (the_frame c seq data))) with (len data).
    change (payload (the_frame c seq data)) with data.
    rewrite (proj2 (reject_if_ok _ _)) by (unfold HARD_MAX_PAYLOAD; lia). cbn [result_bind].
    rewrite (proj2 (reject_if_ok _ _)) by by rewrite Z.eqb_refl. cbn [result_bind].
    unfold header_encode. rewrite (proj2 (validate_ok_iff _ _)); [eauto|].
    split; cbn; try done.
    + intros i Hi. by rewrite Z.testbit_0_l.
    + by rewrite Hz.
Qed.

Lemma len_test_payload n : len (test_payload n) = Z.of_nat n.
Proof. unfold len, test_payload. by rewrite length_fmap, length_seq. Qed.

Lemma pong_payload_fits session : 1 ≤ payload_size session ≤ MAX_PAYLOAD →
  len (pong_payload session) ≤ MAX_PAYLOAD.
Proof.
  intros Hs. unfold pong_payload. case_bool_decide; [unfold len, MAX_PAYLOAD; simpl; lia|].
  rewrite len_test_payload. lia.
Qed.

Hypothesis can_always_reserve : ∀ n, n ≤ HARD_MAX_PAYLOAD → can_reserve n = true.

Lemma encoded_fits f enc :
  encode_frame_for_write f probe_config = Ok enc → can_reserve (payload_length (header f)) = true.
Proof. intros (Hmax & _)%encode_frame_for_write_inv. by apply can_always_reserve. Qed.

Lemma probe_rounds_ready session pong n next s fs encs rest count :
  1 ≤ payload_size session ≤ MAX_PAYLOAD →
  (mode session ≠ ProbeMode.Duplex →
   ∀ seq, with_sequence seq pong = the_frame Command.Pong seq (pong_payload session)) →
  Forall2 is_request fs (ping_script session n next) → Forall frame_ok fs →
  Forall2 (λ f enc, encode_frame_for_write f probe_config = Ok enc) fs encs →
  ready s (concat encs ++ rest) count → count + Z.of_nat n ≤ MAX_FRAME_COUNT →
  ∃ s', probe_rounds can_reserve session pong n next s = (s', Ok true) ∧
    ready s' rest (count + Z.of_nat n).
Proof.
  intros Hsize Hpong. revert next s fs encs count.
  induction n as [|n IH]; intros next s fs encs count Hreq Hok Henc Hready Hcount.
  { inversion Hreq; subst. inversion Henc; subst. exists s. split; [done|].
    by replace (count + Z.of_nat 0) with count by lia. }
  cbn [ping_script] in Hreq. apply Forall2_cons_inv_r in Hreq as (f & fs' & Hf & Hreq & ->).
  apply Forall2_cons_inv_l in Henc as (enc & encs' & He & Henc & ->).
  apply Forall_cons in Hok as [Hok1 Hok]. cbn [concat] in Hready. rewrite <-app_assoc in Hready.
  destruct (receive_ready f enc _ _ _ s _ count Hready ltac:(lia) Hf Hok1 He (encoded_fits _ _ He))
    as (s1 & Hrecv & Hready1).
  cbn [probe_rounds]. rewrite (mbnd_run _ _ _ _ _ Hrecv).
  destruct Hf as (_ & _ & _ & Hpay). unfold mbnd at 1, mlift at 1.
  rewrite Hpay, bool_decide_eq_true_2 by done. cbn [negb reject_if].
  destruct (the_frame_encodes Command.Pong next (pong_payload session)) as (Hnew & penc & Hpenc);
    [done|done|by apply pong_payload_fits|].
  destruct (send_ready _ _ _ _ _ Hready1 Hpenc) as (s2 & Hsend & Hready2).
  destruct (IH (next + 1) s2 fs' encs' (count + 1) Hreq Hok Henc Hready2) as (s3 & Hrun & Hready3);
    [lia|].
  exists s3. split; [|by replace (count + Z.of_nat (S n)) with (count + 1 + Z.of_nat n) by lia].
  rewrite (mbnd_run _ _ _ s2 SessionOutcome.Completed); [done|].
  case_bool_decide as Hdup; [|by rewrite Hpong].
  assert (expected_host_payload session = pong_payload session) as ->.
  { unfold expected_host_payload, pong_payload. by rewrite Hdup. }
  unfold mbnd, mlift. by rewrite Hnew.
Qed.

Lemma parse_hello_bounds hello session :
  parse_hello hello = Ok session →
  1 ≤ payload_size session ≤ MAX_PAYLOAD ∧ 1 ≤ rounds session ≤ MAX_ROUNDS.
Proof.
  assert (∀ max (v : option bytes) n, v ≫= parse_count max = Some n → 1 ≤ n ≤ max) as Hcount.
  { intros max [v|] n; [|done]. cbn. unfold parse_count. destruct (parse_unsigned _ v); [|done].
    cbn. destruct (Z.leb_spec 1 z), (Z.leb_spec z max); intros [= <-]; lia. }
  unfold parse_hello. destruct (negb (utf8_valid hello)); [done|].
  destruct (split_text x3b hello) as [|version fields]; [done|]. destruct (negb _); [done|].
  destruct (parse_field fields "mode") as [f1 v1].
  intros (m & _ & Hp)%result_bind_ok. destruct (parse_field f1 "payload") as [f2 v2].
  apply result_bind_ok in Hp as (size & Hsize%ok_or_ok & Hp).
  destruct (parse_field f2 "rounds") as [f3 v3].
  apply result_bind_ok in Hp as (count & Hround%ok_or_ok & Hp).
  destruct f3; [|done]. injection Hp as <-. eauto.
Qed.

Lemma hello_frame_encodes :
  probe_frame Command.Hello 0 hello_payload = Ok (the_frame Command.Hello 0 hello_payload) ∧
  ∃ enc, encode_frame_for_write (the_frame Command.Hello 0 hello_payload) probe_config = Ok enc.
Proof. apply the_frame_encodes; by vm_compute. Qed.

(** The probe completes when the host does its part: whatever parameters its HELLO
    announces within the limits, if the endpoint delivers the frames of that exchange, in
    pieces of any size and with any interruptions, and takes what is written, then the
    session ends as completed; the limit on the number of frames is never in the way. *)
Theorem whole_exchange_completes_the_probe session hello fs encs rest s :
  probe_configured s → received s = 0 → parse_hello hello = Ok session →
  Forall2 is_request fs (host_script session hello) → Forall frame_ok fs →
  Forall2 (λ f enc, encode_frame_for_write f probe_config = Ok enc) fs encs →
  pending s (concat encs ++ rest) →
  ∃ s', probe_session can_reserve s = (s', Ok SessionOutcome.Completed) ∧ pending s' rest.
Proof.
  intros Hc Hzero Hhello Hreq Hok Henc Hp. assert (ready s (concat encs ++ rest) 0) as Hready by done.
  destruct (parse_hello_bounds _ _ Hhello) as [Hsize Hrounds]. unfold MAX_ROUNDS in Hrounds.
  apply Forall2_cons_inv_r in Hreq as (f & fs' & Hf & Hreq & ->).
  apply Forall2_cons_inv_l in Henc as (enc & encs' & He & Henc & ->).
  apply Forall_cons in Hok as [Hok1 Hok]. cbn [concat] in Hready. rewrite <-app_assoc in Hready.
  destruct (receive_ready f enc _ _ _ s _ 0 Hready ltac:(done) Hf Hok1 He (encoded_fits _ _ He))
    as (s1 & Hrecv & Hready1). destruct Hf as (_ & _ & _ & Hpay).
  destruct hello_frame_encodes as (Hnew & henc & Hhenc).
  destruct (send_ready _ _ _ _ _ Hready1 Hhenc) as (s2 & Hsend & Hready2).
  apply Forall2_app_inv_r in Hreq as (pings & goaways & Hpings & Hgo & ->).
  apply Forall2_cons_inv_r in Hgo as (g & gs & Hg & Hgo & ->). inversion Hgo; subst gs. clear Hgo.
  apply Forall2_app_inv_l in Henc as (pencs & gencs & Hpenc & Hgenc & ->).
  apply Forall2_cons_inv_l in Hgenc as (genc & gencs' & Hge & Hgenc & ->).
  inversion Hgenc; subst gencs'. clear Hgenc. rewrite Forall_app, Forall_singleton in Hok.
  destruct Hok as [Hok Hgok]. rewrite concat_app, <-app_assoc in Hready2. cbn [concat] in Hready2.
  rewrite app_nil_r in Hready2.
  set (data := if bool_decide (mode session = ProbeMode.DeviceToHost)
    then test_payload (Z.to_nat (payload_size session)) else []).
  destruct (the_frame_encodes Command.Pong 1 data) as (Hpong & _); [done|done| |].
  { unfold data. case_bool_decide; [|unfold len, MAX_PAYLOAD; simpl; lia].
    rewrite len_test_payload. lia. }
  destruct (probe_rounds_ready session _ _ _ s2 pings pencs _ 1 Hsize
    (generated_pong_frame session (the_frame Command.Pong 1 data) eq_refl) Hpings Hok Hpenc Hready2)
    as (s3 & Hrun & Hready3); [unfold MAX_FRAME_COUNT; lia|].
  destruct (receive_ready g genc _ _ _ s3 _ _ Hready3 ltac:(unfold MAX_FRAME_COUNT; lia) Hg Hgok Hge
    (encoded_fits _ _ Hge)) as (s4 & Hrecv' & Hready4). destruct Hg as (_ & _ & _ & Hgpay).
  destruct (the_frame_encodes Command.GoAway (rounds session + 1) []) as (Hgnew & oenc & Hoenc);
    [by vm_compute..|].
  destruct (send_ready _ _ _ _ _ Hready4 Hoenc) as (s5 & Hsend' & Hready5).
  exists s5. split; [|by destruct Hready5 as (_ & ? & _)]. unfold probe_session.
  rewrite (mbnd_run _ _ _ _ _ Hrecv), Hpay. unfold mbnd at 1, mlift at 1. rewrite Hhello.
  unfold mbnd at 1, mlift at 1. rewrite Hnew, (mbnd_run _ _ _ _ _ Hsend).
  fold data. unfold mbnd at 1, mlift at 1. rewrite Hpong, (mbnd_run _ _ _ _ _ Hrun). cbn [negb].
  rewrite (mbnd_run _ _ _ _ _ Hrecv'), Hgpay. unfold mbnd at 1, mlift at 1.
  rewrite bool_decide_eq_true_2 by done. cbn [negb reject_if].
  unfold mbnd, mlift. by rewrite Hgnew.
Qed.
End exchange.

(** The device's HELLO is one item of canonical CBOR, by the scanner that the bundles use. *)
Lemma hello_payload_is_cbor : scan_item 2 hello_payload 0 = Ok (len hello_payload).
Proof. by vm_compute. Qed.

(** ** A concrete session *)

(** A vector takes everything that is written to it. *)
Record Vector : Type := { contents : bytes }.
#[export, refine] Instance vector_write_some : WriteSome Vector := {|
  write_some bs w := ({| contents := contents w ++ bs |}, Ok (length bs));
  some_flush w := (w, Ok tt);
  some_written := contents;
  write_patience _ := 0%nat;
|}.
Proof.
  - intros bs w w' n [= <- <-]. rewrite firstn_all. split_and!; [lia|done|lia].
  - done.
  - done.
Defined.

Lemma vector_writes_succeed bs (w : FunctionFsIo Vector) : (write_all bs w).2 = Ok tt.
Proof.
  cbn [write_all functionfs_io_write]. unfold fio_write_all. cbn [write_patience vector_write_some].
  rewrite Nat.add_0_r. generalize (Nat.le_refl (length bs)). generalize (length bs) at 2 3.
  intros n. revert bs w. induction n as [|n IH]; intros [|b bs] w Hn; cbn [write_all_loop]; try done.
  { simpl in Hn. lia. }
  unfold fio_write at 1. cbn [write_some vector_write_some].
  pose proof capacity_positive as Hcap.
  destruct (length (take (length (b :: bs) `min` MAX_FUNCTIONFS_IO) (b :: bs))) as [|k] eqn:Hk.
  { rewrite length_take in Hk. cbn [length] in Hk. lia. }
  apply IH. rewrite length_drop. cbn [length] in *. lia.
Qed.

Definition probe_hello_bytes : bytes :=
  text "kindlebridge-usb-bench/0.2;mode=duplex;payload=3;rounds=2".
Definition probe_parameters : ProbeSessionConfig :=
  {| mode := ProbeMode.Duplex; payload_size := 3; rounds := 2 |}.
Definition host_frames : list Frame :=
  [the_frame Command.Hello 0 probe_hello_bytes;
   the_frame Command.Ping 1 [x00; x01; x02]; the_frame Command.Ping 2 [x00; x01; x02];
   the_frame Command.GoAway 3 []].
Definition host_encodings : list bytes := Eval vm_compute in
  (λ f, match encode_frame_for_write f probe_config with Ok enc => enc | Err _ => [] end) <$> host_frames.

Definition sample_session : Session Script Vector :=
  {| reader := {| fr_reader := {| fio := [Chunk (take 50 (concat host_encodings)); Interrupt;
                                         Chunk (drop 50 (concat host_encodings))] |};
                  fr_config := probe_config |};
     writer := {| fw_writer := {| fio := {| contents := [] |} |}; fw_config := probe_config |};
     received := 0 |}.

Lemma sample_session_pending : pending sample_session (concat host_encodings ++ []).
Proof.
  rewrite app_nil_r. unfold pending. cbn. split; [done|]. eexists. split; [reflexivity|].
  split; [done|]. by eexists.
Qed.

Lemma sample_hello_parses : parse_hello probe_hello_bytes = Ok probe_parameters.
Proof. by vm_compute. Qed.

Lemma sample_requests : Forall2 is_request host_frames (host_script probe_parameters probe_hello_bytes).
Proof. by repeat constructor. Qed.

Lemma whole_exchange_completes_the_probe_witness :
  ∃ s', probe_session always sample_session = (s', Ok SessionOutcome.Completed) ∧ pending s' [].
Proof.
  apply (whole_exchange_completes_the_probe always vector_writes_succeed (λ _, eq_refl)
    (λ _ _, eq_refl) probe_parameters probe_hello_bytes host_frames host_encodings []
    sample_session).
  - done.
  - done.
  - exact sample_hello_parses.
  - exact sample_requests.
  - repeat constructor; by vm_compute.
  - repeat constructor; by vm_compute.
  - exact sample_session_pending.
Defined.

Definition finished_session : Session Script Vector := (probe_session always sample_session).1.

Lemma completed_probe_made_the_exchange_witness :
  ∃ session hello fs encs rest outs,
    parse_hello hello = Ok session ∧ Forall2 is_request fs (host_script session hello) ∧
    Forall2 (λ f enc, frame_encode f (limits probe_config) = Ok enc) fs encs ∧
    concat host_encodings ++ [] = concat encs ++ rest ∧ pending finished_session rest ∧
    Forall2 (λ f enc, encode_frame_for_write f probe_config = Ok enc) (device_frames session) outs ∧
    sent finished_session = sent sample_session ++ concat outs.
Proof.
  apply (completed_probe_made_the_exchange always sample_session).
  - done.
  - exact sample_session_pending.
  - vm_compute. reflexivity.
Defined.
