(* ===== verification/BundleModel.v ===== *)
(** * The data model of bundles: src/crates/kindlebridge-bundle/src/model.rs

    The envelope of a bundle as deserialization yields it.  [FileEntry] and
    [FileType] are in Paths.v.  A [BTreeMap] is the list of its entries in the
    order of its keys, the order in which the code goes through it. *)

From S2P Require Import Prelude BundleError Paths Cbor.

Definition PROFILE : str := lit "kindlebridge.bundle.v1".
Definition BLOCK_SIZE : Z := 65536.

Module BundleKind.

Inductive BundleKind : Type := Application | Runtime | Agent | Tool | Daemon | DeviceProfile.

(** [BundleKind::as_str]. *)
Definition as_str (k : BundleKind) : str :=
  match k with
  | Application => lit "application"
  | Runtime => lit "runtime"
  | Agent => lit "agent"
  | Tool => lit "tool"
  | Daemon => lit "daemon"
  | DeviceProfile => lit "device-profile"
  end.

End BundleKind.
Abbreviation BundleKind := BundleKind.BundleKind.

#[export] Instance BundleKind_eq_dec : EqDecision BundleKind.
Proof. solve_decision. Defined.

Record Publisher : Type := {
  publisher_algorithm : Z;
  public_key : bytes;
  publisher_key_id : Digest;
  publisher_name : option str;
}.

Record Variant : Type := {
  variant_target : str;
  os : str;
  arch : str;
  abi : str;
  firmware_min : option (list Z);
  firmware_max_exclusive : option (list Z);
  required_features : list str;
  optional_features : list str;
  variant_tree : Digest;
  entrypoints : list (str * str);
}.

Record Tree : Type := {
  tree_root : Digest;
  entries : list FileEntry;
}.

Record BlockDescriptor : Type := {
  block_digest : Digest;
  raw_size : Z;
  codec : Z;
  stored_size : Z;
  stored_digest : Digest;
  block_offset : Z;
}.

Record Permissions : Type := {
  requested : list str;
  optional : list str;
}.

Module RestartPolicy.

Inductive RestartPolicy : Type := Never | OnFailure.

End RestartPolicy.
Abbreviation RestartPolicy := RestartPolicy.RestartPolicy.

Record ProcessPolicy : Type := {
  restart : RestartPolicy;
  stop_timeout_ms : Z;
  working_dir : option str;
  environment : option (list (str * str));
}.

Module DataPolicyKind.

Inductive DataPolicyKind : Type := Preserve | ReplaceEmpty | Ephemeral.

End DataPolicyKind.
Abbreviation DataPolicyKind := DataPolicyKind.DataPolicyKind.

#[export] Instance DataPolicyKind_eq_dec : EqDecision DataPolicyKind.
Proof. solve_decision. Defined.

Record DataPolicy : Type := {
  policy : DataPolicyKind;
  data_schema : Z;
  quota_bytes : option Z;
}.

Record SignaturePolicy : Type := {
  publisher_threshold : Z;
  publisher_algorithms : list Z;
  distributor_required : bool;
  distributor_threshold : Z;
  distributor_key_ids : list Digest;
}.

#[export] Instance SignaturePolicy_eq_dec : EqDecision SignaturePolicy.
Proof. solve_decision. Defined.

(** [SignaturePolicy::default]. *)
Definition default_signature_policy : SignaturePolicy :=
  {| publisher_threshold := 1; publisher_algorithms := [1]; distributor_required := false;
     distributor_threshold := 0; distributor_key_ids := [] |}.

Record RotationProofSignedData : Type := {
  signed_schema : Z;
  app_id : str;
  signed_channel : str;
  from_algorithm : Z;
  from_public_key : bytes;
  to_algorithm : Z;
  to_public_key : bytes;
  valid_from_release : Z;
  previous_proof_digest : Digest;
  proof_flags : Z;
}.

Record RotationProof : Type := {
  signed : RotationProofSignedData;
  proof_signature : bytes;
}.

Record Envelope : Type := {
  envelope_schema : Z;
  profile : str;
  bundle_kind : BundleKind;
  bundle_id : str;
  version : str;
  release : Z;
  channel : str;
  publisher : Publisher;
  variants : list Variant;
  trees : list Tree;
  blocks : list BlockDescriptor;
  permissions : Permissions;
  process : option ProcessPolicy;
  data : DataPolicy;
  dependencies : list Value;
  migrations : list Value;
  signature_policy : SignaturePolicy;
  rotation : list RotationProof;
  annotations : option (list (str * str));
}.

Record SignatureEntry : Type := {
  role : Z;
  signature_algorithm : Z;
  signature_key_id : Digest;
  signature : bytes;
}.
