(* ===== verification/Verify.v ===== *)
(** * Bundle verification: src/crates/kindlebridge-bundle/src/verify.rs

    [inspect] reads the sections of a bundle file and checks everything the
    envelope says; [verify] then checks the target, the publisher's signature,
    the chain of key rotations and every byte of the payload.

    The reader is a [Cursor] over the bytes of the file, as in [verify_bytes]:
    a read fails only at the end of the file.  BLAKE3, Ed25519, zstd, SemVer and
    serde are crates: parameters, classes here.  A failed [expect], an index out
    of bounds or an addition that overflows is the fault [Panic]. *)

From S2P Require Import Prelude Text BundleError Paths BundleHeader Cbor BundleModel.

(** ** Faults *)

Inductive Fault : Type :=
| Panic
| Failed (error : BundleError).
Abbreviation outcome A := (result Fault A).

Definition raise {A} (c : ErrorCode) (m : string) : outcome A := Err (Failed (error_new c m)).
Definition attempt {A} (r : bundle_result A) : outcome A := map_err Failed r.
(** [ResultExt::context], on an error given by its [Display] form. *)
Definition context {A} (r : result string A) (c : ErrorCode) (m : string) : outcome A :=
  map_err (λ e, Failed (error_new c (m +:+ ": " +:+ e))) r.
(** [Option::expect], indexing, and [+] on [u64]. *)
Definition expect {A} (o : option A) : outcome A := ok_or o Panic.
Definition plus (a b : Z) : outcome Z := expect (checked_add u64_max a b).

Definition schema_error {A} (m : string) : outcome A := raise ErrorCode.Schema m.
Definition profile_error {A} (m : string) : outcome A := raise ErrorCode.ProfilePolicy m.
Definition tree_error {A} (m : string) : outcome A := raise ErrorCode.Tree m.
Definition block_error {A} (m : string) : outcome A := raise ErrorCode.Block m.

(** ** The crates *)

Class Serde (T : Type) := {
  to_value : T → bundle_result Value;
  from_slice : bytes → bundle_result T;
}.
Class Ed25519 := {
  VerifyingKey : Type;
  key_eq_dec :: EqDecision VerifyingKey;
  key_from_bytes : bytes → result string VerifyingKey;
  Signature : Type;
  signature_from_slice : bytes → result string Signature;
  key_verify : VerifyingKey → bytes → Signature → result string unit;
}.
Class Zstd := {
  find_frame_compressed_size : bytes → result string Z;
  get_frame_content_size : bytes → result string (option Z);
  get_dict_id_from_frame : bytes → option Z;
  decompress : bytes → Z → result string bytes;
}.
Class Semver := {
  Version : Type;
  version_parse : str → result string Version;
  version_to_string : Version → str;
}.

(** ** Orders and searches *)

Definition str_lt (a b : str) : bool := bytes_lt (Paths.as_bytes a) (Paths.as_bytes b).

(** A [str] in a message. *)
Definition show_str (s : str) : string :=
  String.string_of_list_ascii ((λ b, Ascii.ascii_of_N (Z.to_N b)) <$> Paths.as_bytes s).

(** [strictly_sorted], for an order [lt]. *)
Fixpoint strictly_sorted {A} (lt : A → A → bool) (l : list A) : bool :=
  match l with
  | a :: (b :: _) as rest => lt a b && strictly_sorted lt rest
  | _ => true
  end.

(** The order of [(Digest, u64)]. *)
Definition key_lt (a b : Digest * Z) : bool :=
  if bool_decide (a.1 = b.1) then a.2 <? b.2 else bytes_le a.1 b.1.

(** [slice::binary_search_by] on [compare], which gives the place of an element
    relative to what is searched: the base moves up as long as the middle is not
    beyond it. *)
Fixpoint search_base {A} (compare : A → comparison) (l : list A) (fuel : nat) (base size : nat) :
    nat :=
  match fuel with
  | O => base
  | S fuel =>
      if (size <=? 1)%nat then base else
      let half := (size / 2)%nat in
      let mid := (base + half)%nat in
      let base := match l !! mid with
                  | Some x => if bool_decide (compare x = Gt) then base else mid
                  | None => base
                  end in
      search_base compare l fuel base (size - half)
  end.
Definition binary_search_by {A} (compare : A → comparison) (l : list A) : option A :=
  let base := search_base compare l (length l) 0 (length l) in
  match l !! base with
  | Some x => if bool_decide (compare x = Eq) then Some x else None
  | None => None
  end.

(** [str::cmp]. *)
Definition str_cmp (a b : str) : comparison :=
  if str_lt a b then Lt else if str_lt b a then Gt else Eq.
Definition find_entry (entries : list FileEntry) (path : str) : option FileEntry :=
  binary_search_by (λ e, str_cmp (Paths.path e) path) entries.

(** ** Firmware versions *)

Definition compare_firmware (left right : list Z) : comparison :=
  foldr (λ index rest,
      match (default 0 (left !! index)) ?= (default 0 (right !! index)) with
      | Eq => rest
      | c => c
      end) Eq (seq 0 (Nat.max (length left) (length right))).

Definition validate_firmware_bound (bound : option (list Z)) : outcome unit :=
  match bound with
  | None => Ok tt
  | Some bound =>
      if bool_decide (bound = []) || (len bound >? 8) ||
         existsb (λ component, component >? 0xffff) bound ||
         ((len bound >? 1) && bool_decide (head bound = Some 0))
      then schema_error "invalid firmware bound" else Ok tt
  end.

Fixpoint parse_numbers (l : list bytes) : option (list Z) :=
  match l with
  | [] => Some []
  | s :: l => n ← parse_unsigned u64_max s; rest ← parse_numbers l; Some (n :: rest)
  end.
Definition parse_firmware (value : bytes) : outcome (list Z) :=
  let? components := match parse_numbers (split_text x2e value) with
                     | Some components => Ok components
                     | None => raise ErrorCode.Target "device firmware version is invalid"
                     end in
  check? validate_firmware_bound (Some components) in
  Ok components.

(** ** Constants *)

Definition MAX_ENTRIES : Z := 65535.
Definition MAX_BLOCKS : Z := 65535.
Definition MAX_BLOCK_REFS : Z := 131072.
Definition MAX_ANNOTATIONS : Z := 128.
Definition KNOWN_PERMISSIONS : list str :=
  lit <$> ["bundle.install"; "bundle.publish.dev"; "debug.native"; "device.admin"; "device.read";
           "fs.app"; "fs.user"; "network.forward"; "perf.read"; "process.app"; "shell.root";
           "shell.user"; "ui.capture"; "ui.inject"; "ui.inspect"].

Record Inspection : Type := {
  inspected_header : Header;
  envelope : Envelope;
  signatures : list SignatureEntry;
  file_length : Z;
}.

Section verify.
Context `{PointerWidth, Ed25519, Zstd, Semver}.
Context `{Serde Envelope, Serde (list SignatureEntry), Serde (list FileEntry),
          Serde RotationProofSignedData}.
Context (blake3 : bytes → bytes) (crc32c : bytes → Z) (nfc : str → str).

Record VerifyOptions : Type := {
  expected_publisher : option VerifyingKey;
  option_target : option str;
  firmware : option bytes;
}.

(** ** Digests *)

Definition compute_key_id (key : bytes) : Digest :=
  blake3 (text "KBB-KEY-ID-V1" ++ [x00] ++ to_le_bytes 2 1 ++ key).
Definition compute_tree_root (entries : list FileEntry) : bundle_result Digest :=
  let? encoded := to_canonical_vec to_value entries in
  Ok (blake3 (text "KBB-TREE-V1" ++ [x00] ++ encoded)).
Definition signature_input (root : Digest) : bytes :=
  text "KBB-SIGNATURE-V1" ++ [x00] ++ to_le_bytes 2 FORMAT_MAJOR ++ to_le_bytes 2 FORMAT_MINOR ++
  root.
Definition rotation_proof_digest (proof : RotationProof) : bundle_result Digest :=
  let? encoded := to_canonical_vec to_value (signed proof) in
  Ok (blake3 (text "KBB-ROTATION-PROOF-V1" ++ [x00] ++ encoded ++ proof_signature proof)).

(** ** The reader *)

(** [seek(Start(offset))] and [read_exact] of [n] bytes. *)
Definition read_exact (file : bytes) (offset n : Z) : result string bytes :=
  if (n =? 0) || (offset + n <=? len file)
  then Ok (slice (Z.to_nat offset) (Z.to_nat (offset + n)) file)
  else Err "failed to fill whole buffer"%string.
Definition read_io (file : bytes) (offset n : Z) : outcome bytes :=
  map_err (λ e, Failed (error_new ErrorCode.Io e)) (read_exact file offset n).

Definition read_section (file : bytes) (offset length : Z) : outcome bytes :=
  if length >? usize_max then raise ErrorCode.Bounds "section length exceeds host usize" else
  read_io file offset length.

Definition is_zero (b : byte) : bool := byte.unsigned b =? 0.
Fixpoint zero_chunks (file : bytes) (chunks : nat) (position remaining : Z) : outcome unit :=
  match chunks with
  | O => Ok tt
  | S chunks =>
      if remaining =? 0 then Ok tt else
      let chunk := Z.min remaining 4096 in
      let? buffer := read_io file position chunk in
      if existsb (λ b, negb (is_zero b)) buffer
      then raise ErrorCode.Header "alignment padding is non-zero"
      else zero_chunks file chunks (position + chunk) (remaining - chunk)
  end.
(** A range of [n] bytes takes at most [n] rounds. *)
Definition check_zero_range (file : bytes) (start stop : Z) : outcome unit :=
  if stop <? start then raise ErrorCode.Bounds "padding range is reversed" else
  zero_chunks file (Z.to_nat (stop - start)) start (stop - start).

(** ** The envelope *)

Definition validate_publisher (e : Envelope) : outcome unit :=
  let p := publisher e in
  if negb (publisher_algorithm p =? 1) || negb (len (public_key p) =? 32)
  then profile_error "publisher must use a 32-byte Ed25519 key" else
  if bool_decide (compute_key_id (public_key p) ≠ publisher_key_id p)
  then raise ErrorCode.Publisher "publisher key ID mismatch" else
  Ok tt.

(** The blocks of a regular file: all but the last are full. *)
Fixpoint sum_blocks (refs : list (Digest * Z)) (sum : Z) : outcome Z :=
  match refs with
  | [] => Ok sum
  | (_, raw) :: rest =>
      if (raw =? 0) || (raw >? BLOCK_SIZE) ||
         (bool_decide (rest ≠ []) && negb (raw =? BLOCK_SIZE))
      then tree_error "regular file violates fixed 64 KiB chunking" else
      let? sum := (match checked_add u64_max sum raw with
                   | Some sum => Ok sum
                   | None => raise ErrorCode.Bounds "file block size sum overflow"
                   end) in
      sum_blocks rest sum
  end.

Definition validate_file_entry (entry : FileEntry) : outcome unit :=
  match file_type entry with
  | FileType.Directory =>
      if bool_decide (mode entry ≠ Some 0) || bool_decide (size entry ≠ None) ||
         bool_decide (file_digest entry ≠ None) || bool_decide (block_refs entry ≠ None) ||
         bool_decide (target entry ≠ None)
      then tree_error "directory has non-canonical fields" else Ok tt
  | FileType.Regular =>
      if negb (bool_decide (mode entry = Some 0) || bool_decide (mode entry = Some 1)) ||
         bool_decide (size entry = None) || bool_decide (file_digest entry = None) ||
         bool_decide (block_refs entry = None) || bool_decide (target entry ≠ None)
      then tree_error "regular file has non-canonical fields" else
      let? size := expect (size entry) in
      let? refs := expect (block_refs entry) in
      check? (if size =? 0 then
                if bool_decide (refs ≠ []) || bool_decide (file_digest entry ≠ Some (blake3 []))
                then tree_error "empty regular file has invalid digest or block refs" else Ok tt
              else if bool_decide (refs = [])
              then tree_error "non-empty regular file has no blocks" else Ok tt) in
      let? sum := sum_blocks refs 0 in
      if negb (sum =? size)
      then tree_error "file block size sum does not equal file size" else Ok tt
  | FileType.SymlinkRelative =>
      if bool_decide (mode entry ≠ None) || bool_decide (size entry ≠ None) ||
         bool_decide (file_digest entry ≠ None) || bool_decide (block_refs entry ≠ None) ||
         bool_decide (target entry = None)
      then tree_error "symlink has non-canonical fields" else
      let? target := expect (target entry) in
      attempt (validate_symlink_target nfc target)
  end.

Fixpoint validate_entries (l : list FileEntry) (total_refs : Z) : outcome Z :=
  match l with
  | [] => Ok total_refs
  | entry :: l =>
      check? validate_file_entry entry in
      let? total_refs := match block_refs entry with
                         | Some refs =>
                             match checked_add usize_max total_refs (len refs) with
                             | Some n => Ok n
                             | None => raise ErrorCode.Bounds "block reference count overflow"
                             end
                         | None => Ok total_refs
                         end in
      validate_entries l total_refs
  end.

Fixpoint validate_entrypoints (entries : list FileEntry) (l : list (str * str)) : outcome unit :=
  match l with
  | [] => Ok tt
  | (name, path) :: l =>
      if bool_decide (name = []) || (str_len name >? 64)
      then schema_error "invalid entrypoint name" else
      check? attempt (validate_bundle_path nfc path) in
      let? entry := match find_entry entries path with
                    | Some entry => Ok entry
                    | None => raise ErrorCode.Tree "entrypoint path does not exist"
                    end in
      if bool_decide (file_type entry ≠ FileType.Regular) || bool_decide (mode entry ≠ Some 1)
      then raise ErrorCode.Tree "entrypoint must be an executable regular file"
      else validate_entrypoints entries l
  end.

Definition validate_variant_and_tree (e : Envelope) : outcome unit :=
  let? variant := expect (head (variants e)) in
  if negb (bool_decide (variant_target variant = lit "kindlehf") ||
           bool_decide (variant_target variant = lit "kindlepw2"))
  then raise ErrorCode.Target "unknown KBB v1 target" else
  if bool_decide (os variant = []) || bool_decide (arch variant = []) ||
     bool_decide (abi variant = [])
  then schema_error "variant os/arch/abi may not be empty" else
  check? validate_firmware_bound (firmware_min variant) in
  check? validate_firmware_bound (firmware_max_exclusive variant) in
  check? (match firmware_min variant, firmware_max_exclusive variant with
          | Some min, Some max =>
              if bool_decide (compare_firmware min max ≠ Lt)
              then schema_error "firmware_min must be below firmware_max_exclusive" else Ok tt
          | _, _ => Ok tt
          end) in
  if negb (strictly_sorted str_lt (required_features variant)) ||
     negb (strictly_sorted str_lt (optional_features variant))
  then schema_error "variant feature arrays must be strictly sorted" else
  check? (if negb (len (trees e) =? 1)
          then profile_error "single variant must reference the sole tree" else
          let? tree := expect (head (trees e)) in
          if bool_decide (tree_root tree ≠ variant_tree variant)
          then profile_error "single variant must reference the sole tree" else Ok tt) in
  let? tree := expect (head (trees e)) in
  if len (entries tree) >? MAX_ENTRIES
  then raise ErrorCode.Bounds "tree entry count exceeds 65,535" else
  check? attempt (validate_tree_paths nfc (entries tree)) in
  let? total_refs := validate_entries (entries tree) 0 in
  if total_refs >? MAX_BLOCK_REFS
  then raise ErrorCode.Bounds "block reference count exceeds 131,072" else
  check? attempt (validate_symlinks nfc (entries tree)) in
  let? root := attempt (compute_tree_root (entries tree)) in
  if bool_decide (root ≠ tree_root tree)
  then raise ErrorCode.Tree "semantic tree root mismatch" else
  if bool_decide (bundle_kind e = BundleKind.Application) &&
     negb (existsb (λ kv, bool_decide (kv.1 = lit "main")) (entrypoints variant))
  then schema_error "application requires a main entrypoint" else
  validate_entrypoints (entries tree) (entrypoints variant).

(** The block table: sorted, and laid out without gaps but for alignment. *)
Definition referenced_blocks (entries : list FileEntry) : gset (Digest * Z) :=
  foldr (λ entry set,
      match block_refs entry with
      | Some refs => list_to_set refs ∪ set
      | None => set
      end) ∅ entries.
Definition block_key (d : BlockDescriptor) : Digest * Z := (block_digest d, raw_size d).

Fixpoint check_blocks (previous : option (Digest * Z)) (offset : Z) (keys : gset (Digest * Z))
    (l : list BlockDescriptor) : outcome (Z * gset (Digest * Z)) :=
  match l with
  | [] => Ok (offset, keys)
  | d :: l =>
      let key := block_key d in
      if match previous with Some previous => negb (key_lt previous key) | None => false end
      then block_error "block descriptors are not strictly sorted" else
      if negb (within BLOCK_SIZE (raw_size d)) || (stored_size d =? 0) ||
         (stored_size d >? BLOCK_SIZE) || negb ((codec d =? 0) || (codec d =? 1))
      then block_error "invalid block size or codec" else
      if (codec d =? 0) && (negb (stored_size d =? raw_size d) ||
                            bool_decide (stored_digest d ≠ block_digest d))
      then block_error "none codec descriptor is inconsistent" else
      if (codec d =? 1) && (stored_size d >=? raw_size d)
      then block_error "zstd block is not smaller than its raw block" else
      let? expected := attempt (align8 offset) in
      if negb (block_offset d =? expected)
      then block_error "non-canonical block payload offset" else
      let? offset := (match checked_add u64_max expected (stored_size d) with
                      | Some offset => Ok offset
                      | None => raise ErrorCode.Bounds "block payload end overflow"
                      end) in
      check_blocks (Some key) offset ({[key]} ∪ keys) l
  end.

Definition validate_blocks (e : Envelope) (h : Header) : outcome unit :=
  if len (blocks e) >? MAX_BLOCKS
  then raise ErrorCode.Bounds "block count exceeds 65,535" else
  let? tree := expect (head (trees e)) in
  let referenced := referenced_blocks (entries tree) in
  let? table := check_blocks None 0 ∅ (blocks e) in
  let? expected := (if bool_decide (blocks e = []) then Ok 0 else attempt (align8 table.1)) in
  if negb (payload_length h =? expected)
  then block_error "payload length is not canonical for its block table" else
  if bool_decide (table.2 ≠ referenced)
  then block_error "block table has a missing or unused descriptor" else
  Ok tt.

Definition valid_environment_key (key : str) : bool :=
  let bs := Paths.as_bytes key in
  match bs with
  | [] => false
  | first :: _ =>
      (len bs <=? 64) && (is_ascii_uppercase first || (first =? 95)) &&
      forallb (λ b, is_ascii_uppercase b || is_ascii_digit b || (b =? 95)) bs
  end.
Definition environment_is_bad (kv : str * str) : bool :=
  negb (valid_environment_key kv.1) || has_prefix (lit "KINDLEBRIDGE_") kv.1 ||
  has_prefix (lit "LD_") kv.1 || contains 0 kv.2.

Definition validate_process (entries : list FileEntry) (process : ProcessPolicy) : outcome unit :=
  if stop_timeout_ms process >? 30000
  then schema_error "process stop timeout exceeds 30 seconds" else
  check? (match working_dir process with
          | Some path =>
              check? attempt (validate_bundle_path nfc path) in
              match find_entry entries path with
              | Some entry =>
                  if bool_decide (file_type entry ≠ FileType.Directory)
                  then raise ErrorCode.Tree "process working directory is not a directory"
                  else Ok tt
              | None => raise ErrorCode.Tree "process working directory does not exist"
              end
          | None => Ok tt
          end) in
  match environment process with
  | Some environment =>
      if existsb environment_is_bad environment
      then schema_error "invalid or reserved process environment variable" else Ok tt
  | None => Ok tt
  end.

(** What a device profile may not have. *)
Definition profile_is_executable (e : Envelope) (variant : Variant) (tree : Tree) : bool :=
  bool_decide (entrypoints variant ≠ []) || bool_decide (requested (permissions e) ≠ []) ||
  bool_decide (optional (permissions e) ≠ []) ||
  match process e with Some _ => true | None => false end ||
  bool_decide (policy (data e) ≠ DataPolicyKind.Ephemeral) ||
  existsb (λ entry, bool_decide (file_type entry = FileType.Regular) &&
                    bool_decide (mode entry ≠ Some 0)) (entries tree).

Definition validate_permissions_and_policy (e : Envelope) : outcome unit :=
  let p := permissions e in
  if negb (strictly_sorted str_lt (requested p)) || negb (strictly_sorted str_lt (optional p))
  then schema_error "permission arrays must be strictly sorted" else
  if existsb (λ permission, negb (bool_decide (permission ∈ KNOWN_PERMISSIONS))) (requested p)
  then schema_error "unknown requested permission" else
  if existsb (λ permission,
         bool_decide (is_Some (binary_search_by (λ x, str_cmp x permission) (optional p))))
       (requested p)
  then schema_error "permission cannot be both requested and optional" else
  check? (match process e with
          | Some process =>
              let? tree := expect (head (trees e)) in
              validate_process (entries tree) process
          | None => Ok tt
          end) in
  if bool_decide (bundle_kind e = BundleKind.DeviceProfile) then
    let? variant := expect (head (variants e)) in
    let? tree := expect (head (trees e)) in
    if profile_is_executable e variant tree
    then profile_error "device-profile violates its non-executable policy" else Ok tt
  else Ok tt.

Definition validate_signature_shape (e : Envelope) (signatures : list SignatureEntry) :
    outcome unit :=
  let? s := expect (head signatures) in
  if negb (role s =? 1) || negb (signature_algorithm s =? 1) ||
     bool_decide (signature_key_id s ≠ publisher_key_id (publisher e)) ||
     negb (len (signature s) =? 64)
  then profile_error "invalid single Ed25519 publisher signature entry" else Ok tt.

Definition validate_metadata (e : Envelope) (signatures : list SignatureEntry) (h : Header) :
    outcome unit :=
  if negb (envelope_schema e =? 1) || bool_decide (profile e ≠ PROFILE)
  then profile_error "unknown envelope schema or profile" else
  if negb (len (variants e) =? 1) || negb (len (dependencies e) =? 0) ||
     negb (len (migrations e) =? 0) ||
     bool_decide (signature_policy e ≠ default_signature_policy) || negb (len signatures =? 1)
  then profile_error
    "kindlebridge.bundle.v1 requires one variant, empty dependencies/migrations, and one publisher"
  else
  check? attempt (validate_logical_id (bundle_id e)) in
  if str_len (version e) >? 64 then schema_error "version exceeds 64 bytes" else
  let? v := context (version_parse (version e)) ErrorCode.Schema "version is not SemVer 2.0.0" in
  if bool_decide (version_to_string v ≠ version e) || (release e =? 0)
  then schema_error "version is not canonical SemVer or release is zero" else
  check? attempt (validate_channel (channel e)) in
  check? validate_publisher e in
  check? validate_variant_and_tree e in
  check? validate_blocks e h in
  check? validate_permissions_and_policy e in
  check? validate_signature_shape e signatures in
  if len (rotation e) >? 16 then raise ErrorCode.Bounds "rotation depth exceeds 16" else
  match annotations e with
  | Some annotations =>
      if (len annotations >? MAX_ANNOTATIONS) ||
         existsb (λ kv, (str_len kv.1 >? 256) || (str_len kv.2 >? 4096)) annotations
      then raise ErrorCode.Bounds "annotations exceed static limits" else Ok tt
  | None => Ok tt
  end.

(** ** [inspect] *)

Definition inspect (file : bytes) : outcome Inspection :=
  let file_length := len file in
  let? header_bytes :=
    map_err (λ e, Failed (error_new ErrorCode.Header ("cannot read fixed KBB header: " +:+ e)))
      (read_exact file 0 (Z.of_nat HEADER_SIZE)) in
  let? h := attempt (BundleHeader.decode crc32c header_bytes file_length) in
  let? envelope_bytes := read_section file (Z.of_nat HEADER_SIZE) (envelope_length h) in
  if bool_decide (blake3 envelope_bytes ≠ bundle_root h)
  then raise ErrorCode.Header "envelope BLAKE3 root mismatch" else
  let? envelope_end := plus (Z.of_nat HEADER_SIZE) (envelope_length h) in
  check? check_zero_range file envelope_end (signature_offset h) in
  let? signature_bytes := read_section file (signature_offset h) (signature_length h) in
  let? signature_end := plus (signature_offset h) (signature_length h) in
  check? check_zero_range file signature_end (payload_offset h) in
  let? envelope := attempt (from_canonical_slice to_value from_slice envelope_bytes) in
  let? signatures := attempt (from_canonical_slice to_value from_slice signature_bytes) in
  check? validate_metadata envelope signatures h in
  Ok {| inspected_header := h; envelope := envelope; signatures := signatures;
        file_length := file_length |}.

(** ** Signatures *)

Definition verify_publisher (i : Inspection) (expected : option VerifyingKey) : outcome unit :=
  let? key_bytes := expect (let key := public_key (publisher (envelope i)) in
                            if len key =? 32 then Some key else None) in
  let? key := context (key_from_bytes key_bytes) ErrorCode.Publisher
                "invalid Ed25519 publisher key" in
  if match expected with Some expected => bool_decide (expected ≠ key) | None => false end
  then raise ErrorCode.Publisher "publisher does not match the expected key" else
  let? s := expect (head (signatures i)) in
  let? sig := context (signature_from_slice (signature s)) ErrorCode.Signature
                "invalid Ed25519 signature encoding" in
  context (key_verify key (signature_input (bundle_root (inspected_header i))) sig)
    ErrorCode.Signature "publisher signature verification failed".

Definition validate_rotation_fields (proof : RotationProof) (e : Envelope) : outcome unit :=
  let d := signed proof in
  if negb (signed_schema d =? 1) || bool_decide (app_id d ≠ bundle_id e) ||
     bool_decide (signed_channel d ≠ channel e) || negb (from_algorithm d =? 1) ||
     negb (to_algorithm d =? 1) || negb (len (from_public_key d) =? 32) ||
     negb (len (to_public_key d) =? 32) || negb (proof_flags d =? 0) ||
     negb (len (proof_signature proof) =? 64)
  then raise ErrorCode.Publisher "rotation proof fields violate KBB v1" else Ok tt.

(** The variables of the loop of [verify_rotation]. *)
Record RotationState : Type := {
  index : nat;
  last_proof_digest : option Digest;
  previous_to_key : option bytes;
  previous_release : Z;
  seen_keys : gset bytes;
}.
Definition rotation_start : RotationState :=
  {| index := 0; last_proof_digest := None; previous_to_key := None; previous_release := 0;
     seen_keys := ∅ |}.

Definition rotation_step (e : Envelope) (s : RotationState) (proof : RotationProof) :
    outcome RotationState :=
  let d := signed proof in
  check? validate_rotation_fields proof e in
  let? seen := (if (index s =? 0)%nat then Ok ({[from_public_key d]} ∪ seen_keys s)
                else if bool_decide (previous_to_key s ≠ Some (from_public_key d)) ||
                        bool_decide (last_proof_digest s ≠ Some (previous_proof_digest d))
                then raise ErrorCode.Publisher "rotation proof chain is discontinuous"
                else Ok (seen_keys s)) in
  if (valid_from_release d <=? previous_release s) || (valid_from_release d >? release e) ||
     bool_decide (to_public_key d ∈ seen)
  then raise ErrorCode.Publisher "rotation release order or key lineage is invalid" else
  let? from := expect (if len (from_public_key d) =? 32 then Some (from_public_key d) else None) in
  let? key := context (key_from_bytes from) ErrorCode.Publisher "invalid rotation Ed25519 key" in
  let? encoded := attempt (to_canonical_vec to_value d) in
  let? sig := context (signature_from_slice (proof_signature proof)) ErrorCode.Signature
                "invalid rotation signature encoding" in
  check? context (key_verify key (text "KBB-ROTATION-V1" ++ [x00] ++ encoded) sig)
           ErrorCode.Signature "rotation signature verification failed" in
  let? digest := attempt (rotation_proof_digest proof) in
  Ok {| index := S (index s); last_proof_digest := Some digest;
        previous_to_key := Some (to_public_key d); previous_release := valid_from_release d;
        seen_keys := {[to_public_key d]} ∪ seen |}.

Fixpoint rotation_loop (e : Envelope) (s : RotationState) (l : list RotationProof) :
    outcome RotationState :=
  match l with
  | [] => Ok s
  | proof :: l => let? s := rotation_step e s proof in rotation_loop e s l
  end.

Definition verify_rotation (e : Envelope) : outcome unit :=
  let? s := rotation_loop e rotation_start (rotation e) in
  match previous_to_key s with
  | Some terminal_key =>
      if bool_decide (terminal_key ≠ public_key (publisher e))
      then raise ErrorCode.Publisher "rotation terminal key is not the bundle publisher"
      else Ok tt
  | None => Ok tt
  end.

(** ** The payload *)

Definition read_raw_block (file : bytes) (section_offset : Z) (d : BlockDescriptor) :
    outcome bytes :=
  let? offset := (match checked_add u64_max section_offset (block_offset d) with
                  | Some offset => Ok offset
                  | None => raise ErrorCode.Bounds "absolute block offset overflow"
                  end) in
  let? stored := read_section file offset (stored_size d) in
  if bool_decide (blake3 stored ≠ stored_digest d)
  then block_error "stored block digest mismatch" else
  if codec d =? 0 then Ok stored else
  let? frame_size := context (find_frame_compressed_size stored) ErrorCode.Block
                       "invalid zstd frame" in
  if negb (frame_size =? len stored)
  then block_error "zstd block contains trailing data or multiple frames" else
  let? content_size := context (get_frame_content_size stored) ErrorCode.Block
                         "cannot read zstd frame content size" in
  if bool_decide (content_size ≠ Some (raw_size d))
  then block_error "zstd frame omits or misstates content size" else
  if bool_decide (is_Some (get_dict_id_from_frame stored))
  then block_error "zstd dictionaries are forbidden" else
  if raw_size d >? usize_max
  then raise ErrorCode.Bounds "raw block exceeds host usize" else
  context (decompress stored (raw_size d)) ErrorCode.Block "zstd block decompression failed".

Fixpoint check_payload_blocks (file : bytes) (section_offset previous_end : Z)
    (l : list BlockDescriptor) : outcome Z :=
  match l with
  | [] => Ok previous_end
  | d :: l =>
      let? start := plus section_offset previous_end in
      let? stop := plus section_offset (block_offset d) in
      check? check_zero_range file start stop in
      let? raw := read_raw_block file section_offset d in
      if bool_decide (blake3 raw ≠ block_digest d)
      then block_error "raw block digest mismatch" else
      let? previous_end := plus (block_offset d) (stored_size d) in
      check_payload_blocks file section_offset previous_end l
  end.

(** [descriptor_index]: the last descriptor with the key, as [collect] keeps it. *)
Definition descriptor_index (l : list BlockDescriptor) : gmap (Digest * Z) BlockDescriptor :=
  foldl (λ m d, <[block_key d := d]> m) ∅ l.

Fixpoint read_file_blocks (file : bytes) (section_offset : Z)
    (by_key : gmap (Digest * Z) BlockDescriptor) (refs : list (Digest * Z)) : outcome bytes :=
  match refs with
  | [] => Ok []
  | r :: refs =>
      let? d := expect (by_key !! r) in
      let? raw := read_raw_block file section_offset d in
      let? rest := read_file_blocks file section_offset by_key refs in
      Ok (raw ++ rest)
  end.

Fixpoint check_files (file : bytes) (section_offset : Z)
    (by_key : gmap (Digest * Z) BlockDescriptor) (l : list FileEntry) : outcome unit :=
  match l with
  | [] => Ok tt
  | entry :: l =>
      check? (if bool_decide (file_type entry ≠ FileType.Regular) then Ok tt else
              let? refs := expect (block_refs entry) in
              let? content := read_file_blocks file section_offset by_key refs in
              let? digest := expect (file_digest entry) in
              if bool_decide (blake3 content ≠ digest)
              then tree_error "regular file digest mismatch" else Ok tt) in
      check_files file section_offset by_key l
  end.

Definition verify_payload (file : bytes) (i : Inspection) : outcome unit :=
  let h := inspected_header i in
  let e := envelope i in
  let? previous_end := check_payload_blocks file (payload_offset h) 0 (blocks e) in
  let? start := plus (payload_offset h) previous_end in
  let? stop := plus (payload_offset h) (payload_length h) in
  check? check_zero_range file start stop in
  let? tree := expect (head (trees e)) in
  check_files file (payload_offset h) (descriptor_index (blocks e)) (entries tree).

(** ** [verify] *)

Definition check_firmware (e : Envelope) (value : bytes) : outcome unit :=
  let? firmware := parse_firmware value in
  let? variant := expect (head (variants e)) in
  if match firmware_min variant with
     | Some minimum => bool_decide (compare_firmware firmware minimum = Lt)
     | None => false
     end ||
     match firmware_max_exclusive variant with
     | Some maximum => negb (bool_decide (compare_firmware firmware maximum = Lt))
     | None => false
     end
  then raise ErrorCode.Target "bundle does not support this firmware version" else Ok tt.

Definition verify (file : bytes) (options : VerifyOptions) : outcome Inspection :=
  let? i := inspect file in
  check? (match option_target options with
          | Some target =>
              let? variant := expect (head (variants (envelope i))) in
              if bool_decide (variant_target variant ≠ target)
              then raise ErrorCode.Target ("bundle target does not match " +:+ show_str target) else Ok tt
          | None => Ok tt
          end) in
  check? (match firmware options with
          | Some value => check_firmware (envelope i) value
          | None => Ok tt
          end) in
  check? verify_publisher i (expected_publisher options) in
  check? verify_rotation (envelope i) in
  check? verify_payload file i in
  Ok i.
End verify.
