(* ===== verification/Authenticity.v ===== *)
(** * What a verified bundle guarantees

    Facts about [verify] (Verify.v): it never panics; a file it accepts is
    determined, to the last byte, by its signed digest and its signatures as long
    as no two byte strings with the same BLAKE3 digest are at hand; its files
    have the contents the envelope promises, its publisher's key signed the
    envelope, and that key descends from the first one by signed rotations. *)

From S2P Require Import Prelude Text BundleError Paths BundleHeader Cbor BundleModel Verify.
From S2P Require WireFrame.

(** ** Spans of a file *)

Definition span (file : bytes) (a b : Z) : bytes := slice (Z.to_nat a) (Z.to_nat b) file.

Lemma span_app f a b c : 0 ≤ a ≤ b → b ≤ c → span f a c = span f a b ++ span f b c.
Proof.
  intros Hab Hbc. unfold span, slice.
  replace (Z.to_nat c - Z.to_nat a)%nat
    with ((Z.to_nat b - Z.to_nat a) + (Z.to_nat c - Z.to_nat b))%nat by lia.
  rewrite <-take_take_drop. f_equal. rewrite drop_drop. do 2 f_equal. lia.
Qed.
Lemma span_all f : span f 0 (len f) = f.
Proof. unfold span, slice, len. rewrite drop_0, take_ge; [done|lia]. Qed.
Lemma len_span f a b : 0 ≤ a ≤ b → b ≤ len f → len (span f a b) = b - a.
Proof. intros Hab Hb. unfold span, len in *. rewrite length_slice; lia. Qed.
Lemma span_empty f a : span f a a = [].
Proof. unfold span, slice. by rewrite Nat.sub_diag. Qed.

(** Two files that agree on a range. *)
Definition agree (f g : bytes) (a b : Z) : Prop := span f a b = span g a b.

Lemma agree_app f g a b c :
  0 ≤ a ≤ b → b ≤ c → agree f g a b → agree f g b c → agree f g a c.
Proof. intros Hab Hbc H1 H2. unfold agree in *. by rewrite !(span_app _ a b c), H1, H2. Qed.
Lemma agree_all f g : len f = len g → agree f g 0 (len f) → f = g.
Proof. intros Hl Ha. unfold agree in Ha. by rewrite span_all, Hl, span_all in Ha. Qed.

(** ** Reading *)

Lemma read_exact_ok f a n bs :
  read_exact f a n = Ok bs → 0 ≤ a → 0 ≤ n →
  bs = span f a (a + n) ∧ len bs = n ∧ (n = 0 ∨ a + n ≤ len f).
Proof.
  unfold read_exact. intros Hr Ha Hn.
  destruct ((n =? 0) || (a + n <=? len f)) eqn:Hc; [|done]. injection Hr as <-.
  apply orb_prop in Hc as [Hc%Z.eqb_eq|Hc%Z.leb_le].
  - subst n. rewrite Z.add_0_r. fold (span f a a). rewrite span_empty. auto.
  - split; [done|]. fold (span f a (a + n)). rewrite len_span by lia. lia.
Qed.

Lemma read_section_ok `{PointerWidth} f a n bs :
  read_section f a n = Ok bs → 0 ≤ a → 0 ≤ n →
  bs = span f a (a + n) ∧ len bs = n ∧ (n = 0 ∨ a + n ≤ len f).
Proof.
  unfold read_section, raise, read_io. intros Hr Ha Hn.
  destruct (n >? usize_max); [done|]. apply map_err_ok in Hr. by apply read_exact_ok.
Qed.

Lemma zeros bs : existsb (λ b, negb (is_zero b)) bs = false → bs = replicate (length bs) x00.
Proof.
  induction bs as [|b bs IH]; [done|]. simpl. intros [Hb Hbs]%orb_false_iff.
  apply negb_false_iff, Z.eqb_eq, zero_byte in Hb. rewrite Hb. f_equal. by apply IH.
Qed.

Lemma zero_chunks_ok f n a r :
  zero_chunks f n a r = Ok tt → 0 ≤ a → 0 ≤ r ≤ Z.of_nat n →
  span f a (a + r) = replicate (Z.to_nat r) x00.
Proof.
  revert a r. induction n as [|n IH]; intros a r Hz Ha Hr; simpl in Hz.
  - assert (r = 0) as -> by lia. by rewrite Z.add_0_r, span_empty.
  - destruct (r =? 0) eqn:Hr0; [apply Z.eqb_eq in Hr0; subst; by rewrite Z.add_0_r, span_empty|].
    apply Z.eqb_neq in Hr0. apply result_bind_ok in Hz as (bs & Hbs & Hz).
    unfold read_io in Hbs. apply map_err_ok in Hbs.
    apply read_exact_ok in Hbs as (-> & Hlen & _); [|lia..].
    destruct (existsb _ _) eqn:He; [done|]. apply zeros in He. apply IH in Hz; [|lia..].
    rewrite (span_app f a (a + Z.min r 4096) (a + r)) by lia.
    replace (a + r) with (a + Z.min r 4096 + (r - Z.min r 4096)) by lia.
    rewrite He, Hz, <-replicate_add. f_equal. unfold len in Hlen. lia.
Qed.

Lemma check_zero_range_ok f a b :
  check_zero_range f a b = Ok tt → 0 ≤ a →
  a ≤ b ∧ span f a b = replicate (Z.to_nat (b - a)) x00.
Proof.
  unfold check_zero_range, raise. intros Hc Ha. destruct (b <? a) eqn:Hb; [done|].
  apply Z.ltb_ge in Hb. split; [done|]. apply zero_chunks_ok in Hc; [|lia..].
  by rewrite Zplus_minus in Hc.
Qed.

(** ** The block table *)

(** The values a [BlockDescriptor] can hold in Rust. *)
Definition descriptor_ok (d : BlockDescriptor) : Prop :=
  u64 (raw_size d) ∧ u64 (stored_size d) ∧ u64 (block_offset d).

(** Where a block lies, and what its descriptor may say. *)
Record placed (lo hi : Z) (d : BlockDescriptor) : Prop := {
  placed_start : lo ≤ block_offset d;
  placed_end : block_offset d + stored_size d ≤ hi;
  placed_raw : 0 < raw_size d ≤ BLOCK_SIZE;
  placed_stored : 0 < stored_size d ≤ BLOCK_SIZE;
  placed_codec : (codec d = 0 ∧ stored_size d = raw_size d ∧ stored_digest d = block_digest d) ∨
                 codec d = 1;
}.

Lemma placed_mono lo lo' hi hi' d : lo' ≤ lo → hi ≤ hi' → placed lo hi d → placed lo' hi' d.
Proof. intros ? ? [? ? ? ? ?]. split; lia || done. Qed.

Lemma check_blocks_ok previous off keys l off' keys' :
  check_blocks previous off keys l = Ok (off', keys') → Forall descriptor_ok l →
  0 ≤ off ≤ u64_max →
  off ≤ off' ≤ u64_max ∧ keys' = list_to_set (block_key <$> l) ∪ keys ∧
  Forall (placed off off') l.
Proof.
  revert previous off keys. induction l as [|d l IH]; intros previous off keys Hc Hl Hoff.
  - injection Hc as <- <-. split; [lia|]. split; [set_solver|constructor].
  - apply Forall_cons in Hl as [(Hraw & Hsto & Hofs) Hl]. unfold in_range in *. simpl in Hc.
    unfold block_error, raise in Hc.
    destruct (match previous with Some _ => _ | None => _ end); [done|].
    destruct (negb (within _ _) || _ || _ || _) eqn:Hsize; [done|].
    destruct ((codec d =? 0) && _) eqn:Hnone; [done|].
    destruct ((codec d =? 1) && _) eqn:Hzstd; [done|].
    apply result_bind_ok in Hc as (ex & Hex & Hc). apply map_err_ok, align8_ok in Hex as (Hex & _ & _); [|lia].
    destruct (negb (block_offset d =? ex)) eqn:Heq; [done|].
    apply negb_false_iff, Z.eqb_eq in Heq.
    apply result_bind_ok in Hc as (off1 & Hoff1 & Hc).
    destruct (checked_add u64_max ex (stored_size d)) as [n|] eqn:Hadd; [|done].
    injection Hoff1 as <-. apply checked_add_Some in Hadd as [-> Hmax].
    unfold within in Hsize. apply IH in Hc as (Hle & -> & Hplaced); [|done|lia].
    split; [lia|]. split; [rewrite fmap_cons, list_to_set_cons; set_solver|].
    constructor; [|eapply Forall_impl; [exact Hplaced|]; intros x; apply placed_mono; lia].
    rewrite !orb_false_iff, !negb_false_iff, andb_true_iff, orb_true_iff in Hsize.
    destruct Hsize as [[[Hs1 Hs2] Hs3] Hs4].
    split; [lia..|]. destruct Hs4 as [Hs4|Hs4]; [left|right; lia].
    rewrite Hs4 in Hnone. cbn [andb] in Hnone. apply orb_false_iff in Hnone as [Hn1 Hn2].
    apply bool_decide_eq_false, dec_stable in Hn2. split; [lia|]. split; [lia|done].
Qed.

Section facts.
Context `{PointerWidth, Ed25519, Zstd, Semver}.
Context `{Serde Envelope, Serde (list SignatureEntry), Serde (list FileEntry),
          Serde RotationProofSignedData}.
Context (blake3 : bytes → bytes) (crc32c : bytes → Z) (nfc : str → str).

(** ** The payload *)

(** Two byte strings with one digest. *)
Definition collision : Prop := ∃ x y, x ≠ y ∧ blake3 x = blake3 y.

Lemma same_digest x y : blake3 x = blake3 y → x = y ∨ collision.
Proof. intros Heq. destruct (decide (x = y)); [by left|right; by exists x, y]. Qed.

Lemma read_raw_block_stored f o d raw :
  read_raw_block blake3 f o d = Ok raw → 0 ≤ o → 0 ≤ block_offset d → 0 ≤ stored_size d →
  blake3 (span f (o + block_offset d) (o + block_offset d + stored_size d)) = stored_digest d ∧
  (codec d = 0 → raw = span f (o + block_offset d) (o + block_offset d + stored_size d)).
Proof.
  unfold read_raw_block, block_error, raise. intros Hr Ho Hb Hs.
  apply result_bind_ok in Hr as (at_ & Hat & Hr).
  destruct (checked_add u64_max o (block_offset d)) as [n|] eqn:Hadd; [|done]. injection Hat as <-.
  apply checked_add_Some in Hadd as [-> _].
  apply result_bind_ok in Hr as (stored & Hst & Hr).
  apply read_section_ok in Hst as (Hst & _ & _); [|lia..].
  destruct (bool_decide (blake3 stored ≠ stored_digest d)) eqn:Hd; [done|].
  apply bool_decide_eq_false, dec_stable in Hd. rewrite <-Hst. split; [done|].
  intros Hc. rewrite Hc in Hr. by injection Hr.
Qed.

(** The checks of the payload fix its bytes. *)
Lemma payload_determined f g o start l e1 e2 :
  check_payload_blocks blake3 f o start l = Ok e1 →
  check_payload_blocks blake3 g o start l = Ok e2 →
  0 ≤ o → 0 ≤ start → Forall (λ d, 0 ≤ stored_size d) l →
  e1 = e2 ∧ start ≤ e1 ∧ (agree f g (o + start) (o + e1) ∨ collision).
Proof.
  revert start. induction l as [|d l IH]; intros start Hf Hg Ho Hs Hl.
  - injection Hf as <-. injection Hg as <-. split; [done|]. split; [lia|]. left.
    unfold agree. by rewrite !span_empty.
  - apply Forall_cons in Hl as [Hd Hl].
    assert (Hstep : ∀ file e, check_payload_blocks blake3 file o start (d :: l) = Ok e →
      start ≤ block_offset d ∧
      span file (o + start) (o + block_offset d) = replicate (Z.to_nat (block_offset d - start)) x00 ∧
      blake3 (span file (o + block_offset d) (o + block_offset d + stored_size d)) = stored_digest d ∧
      check_payload_blocks blake3 file o (block_offset d + stored_size d) l = Ok e).
    { intros file e Hc. cbn [check_payload_blocks] in Hc. unfold plus, expect, block_error, raise in Hc.
      apply result_bind_ok in Hc as (a & Ha & Hc). apply ok_or_ok, checked_add_Some in Ha as [-> _].
      apply result_bind_ok in Hc as (b & Hb & Hc). apply ok_or_ok, checked_add_Some in Hb as [-> _].
      apply result_bind_ok in Hc as ([] & Hz & Hc). apply check_zero_range_ok in Hz as [Hle Hz]; [|lia].
      apply result_bind_ok in Hc as (raw & Hraw & Hc).
      destruct (bool_decide _); [done|].
      apply result_bind_ok in Hc as (pe & Hpe & Hc). apply ok_or_ok, checked_add_Some in Hpe as [-> _].
      apply read_raw_block_stored in Hraw as [Hst _]; [|lia..].
      split; [lia|]. split; [|done]. rewrite Hz. f_equal. lia. }
    apply Hstep in Hf as (Hle & Hzf & Hsf & Hf). apply Hstep in Hg as (_ & Hzg & Hsg & Hg).
    destruct (IH _ Hf Hg Ho ltac:(lia) Hl) as (-> & Hend & Hrest).
    split; [done|]. split; [lia|]. destruct Hrest as [Hrest|]; [|by right].
    destruct (same_digest _ _ (eq_trans Hsf (eq_sym Hsg))) as [Hsame|]; [left|by right].
    apply (agree_app f g _ (o + block_offset d)); [lia..|unfold agree; by rewrite Hzf, Hzg|].
    apply (agree_app f g _ (o + block_offset d + stored_size d)); [lia..|done|].
    by rewrite <-!Z.add_assoc.
Qed.

(** ** [inspect] *)

Definition envelope_span (f : bytes) (h : Header) : bytes :=
  span f (Z.of_nat HEADER_SIZE) (Z.of_nat HEADER_SIZE + envelope_length h).
Definition signature_span (f : bytes) (h : Header) : bytes :=
  span f (signature_offset h) (signature_offset h + signature_length h).

Abbreviation read_envelope := (from_canonical_slice (T := Envelope) to_value from_slice).
Abbreviation read_signatures := (from_canonical_slice (T := list SignatureEntry) to_value from_slice).

Record inspected (f : bytes) (i : Inspection) : Prop := {
  inspected_length : Z.of_nat HEADER_SIZE ≤ len f;
  inspected_decode : BundleHeader.decode crc32c (span f 0 (Z.of_nat HEADER_SIZE)) (len f)
                     = Ok (inspected_header i);
  inspected_sections : sections_ok (inspected_header i) (len f);
  inspected_values : header_ok (inspected_header i);
  inspected_root : blake3 (envelope_span f (inspected_header i)) = bundle_root (inspected_header i);
  inspected_gap1 : span f (Z.of_nat HEADER_SIZE + envelope_length (inspected_header i))
                     (signature_offset (inspected_header i)) =
    replicate (Z.to_nat (signature_offset (inspected_header i) -
      (Z.of_nat HEADER_SIZE + envelope_length (inspected_header i)))) x00;
  inspected_gap2 : span f (signature_offset (inspected_header i) + signature_length (inspected_header i))
                     (payload_offset (inspected_header i)) =
    replicate (Z.to_nat (payload_offset (inspected_header i) -
      (signature_offset (inspected_header i) + signature_length (inspected_header i)))) x00;
  inspected_envelope : read_envelope (envelope_span f (inspected_header i)) = Ok (envelope i);
  inspected_signatures : read_signatures (signature_span f (inspected_header i)) = Ok (signatures i);
  inspected_metadata : validate_metadata blake3 nfc (envelope i) (signatures i) (inspected_header i)
                       = Ok tt;
}.

Lemma header_span f : Z.of_nat HEADER_SIZE ≤ len f → length (span f 0 (Z.of_nat HEADER_SIZE)) = HEADER_SIZE.
Proof. intros Hl. unfold span, len, HEADER_SIZE in *. rewrite length_slice; lia. Qed.

Lemma inspect_inv f i : inspect blake3 crc32c nfc f = Ok i → inspected f i.
Proof.
  unfold inspect, plus, expect, raise, attempt. intros Hi. cbv zeta in Hi.
  apply result_bind_ok in Hi as (hb & Hhb & Hi). apply map_err_ok in Hhb.
  apply read_exact_ok in Hhb as (Hhb & _ & Hlen); [|done|unfold HEADER_SIZE; lia].
  assert (Hl : Z.of_nat HEADER_SIZE ≤ len f) by (destruct Hlen; [done|lia]).
  rewrite Z.add_0_l in Hhb. subst hb.
  apply result_bind_ok in Hi as (h & Hh%map_err_ok & Hi).
  pose proof (decode_header_ok _ _ _ _ (header_span _ Hl) Hh) as Hok.
  assert (Hsec : sections_ok h (len f)).
  { apply check_sections_ok; [done|]. by apply decode_inv in Hh as (_ & _ & _ & _ & _ & _ & _ & Hs & _). }
  pose proof Hok as [He Hso Hsl Hpo Hpl _]. unfold in_range in *.
  apply result_bind_ok in Hi as (eb & Heb & Hi).
  apply read_section_ok in Heb as (Heb & _ & _); [|unfold HEADER_SIZE; lia|lia].
  destruct (bool_decide (blake3 eb ≠ bundle_root h)) eqn:Hroot; [done|].
  apply bool_decide_eq_false, dec_stable in Hroot.
  apply result_bind_ok in Hi as (ee & Hee & Hi). apply ok_or_ok, checked_add_Some in Hee as [-> _].
  apply result_bind_ok in Hi as ([] & Hz1 & Hi).
  apply check_zero_range_ok in Hz1 as [_ Hz1]; [|unfold HEADER_SIZE; lia].
  apply result_bind_ok in Hi as (sb & Hsb & Hi). apply read_section_ok in Hsb as (Hsb & _ & _); [|lia..].
  apply result_bind_ok in Hi as (se & Hse & Hi). apply ok_or_ok, checked_add_Some in Hse as [-> _].
  apply result_bind_ok in Hi as ([] & Hz2 & Hi). apply check_zero_range_ok in Hz2 as [_ Hz2]; [|lia].
  apply result_bind_ok in Hi as (e & Hen%map_err_ok & Hi).
  apply result_bind_ok in Hi as (ss & Hss%map_err_ok & Hi).
  apply result_bind_ok in Hi as ([] & Hm & Hi). injection Hi as <-.
  subst eb sb. by split.
Qed.

(** ** Two files with the same digest and signatures *)

Lemma same_padding a a' b : b ≤ a < b + 8 → b ≤ a' < b + 8 → a mod 8 = 0 → a' mod 8 = 0 → a = a'.
Proof. intros. Z.to_euclidean_division_equations. lia. Qed.

(** The length of the payload is fixed by the block table. *)
Definition table_length (l : list BlockDescriptor) : option Z :=
  match check_blocks None 0 ∅ l with
  | Ok (off, _) =>
      if bool_decide (l = []) then Some 0
      else match align8 off with Ok n => Some n | Err _ => None end
  | Err _ => None
  end.

Lemma validate_blocks_inv e h :
  validate_blocks e h = Ok tt →
  table_length (blocks e) = Some (payload_length h) ∧
  ∃ off keys tree, check_blocks None 0 ∅ (blocks e) = Ok (off, keys) ∧ head (trees e) = Some tree ∧
    keys = referenced_blocks (entries tree).
Proof.
  unfold validate_blocks, raise, block_error, expect, attempt. intros Hv.
  destruct (len (blocks e) >? MAX_BLOCKS); [done|].
  apply result_bind_ok in Hv as (tree & Htree%ok_or_ok & Hv).
  apply result_bind_ok in Hv as ([off keys] & Ht & Hv). cbv zeta in Hv. cbn [fst snd] in Hv.
  apply result_bind_ok in Hv as (ex & Hex & Hv).
  destruct (negb (payload_length h =? ex)) eqn:Heq; [done|]. apply negb_false_iff, Z.eqb_eq in Heq.
  destruct (bool_decide (keys ≠ _)) eqn:Hk; [done|]. apply bool_decide_eq_false, dec_stable in Hk.
  split; [|by exists off, keys, tree]. unfold table_length. rewrite Ht, Heq.
  destruct (bool_decide (blocks e = [])); [congruence|]. apply map_err_ok in Hex. by rewrite Hex.
Qed.

Lemma length_one {A} (l : list A) : negb (len l =? 1) = false → ∃ x, l = [x].
Proof.
  intros Hl%negb_false_iff%Z.eqb_eq. unfold len in Hl.
  destruct l as [|x [|y l]]; simpl in Hl; [lia|by exists x|lia].
Qed.

(** The parts of the metadata the later checks rely on. *)
Record metadata_ok (e : Envelope) (ss : list SignatureEntry) (h : Header) : Prop := {
  meta_variant : ∃ v, variants e = [v];
  meta_signature : ∃ s, ss = [s];
  meta_publisher : validate_publisher blake3 e = Ok tt;
  meta_tree : validate_variant_and_tree blake3 nfc e = Ok tt;
  meta_blocks : validate_blocks e h = Ok tt;
  meta_policy : validate_permissions_and_policy nfc e = Ok tt;
  meta_shape : validate_signature_shape e ss = Ok tt;
}.

Lemma validate_metadata_inv e ss h :
  validate_metadata blake3 nfc e ss h = Ok tt → metadata_ok e ss h.
Proof.
  unfold validate_metadata, profile_error, schema_error, raise. intros Hm.
  destruct (negb (envelope_schema e =? 1) || _); [done|].
  destruct (negb (len (variants e) =? 1) || _ || _ || _ || _) eqn:Hone; [done|].
  rewrite !orb_false_iff in Hone. destruct Hone as [[[[Hv _] _] _] Hs].
  apply result_bind_ok in Hm as ([] & _ & Hm).
  destruct (str_len (version e) >? 64); [done|].
  apply result_bind_ok in Hm as (v & _ & Hm). destruct (bool_decide _ || _); [done|].
  apply result_bind_ok in Hm as ([] & _ & Hm).
  apply result_bind_ok in Hm as ([] & Hp & Hm).
  apply result_bind_ok in Hm as ([] & Ht & Hm).
  apply result_bind_ok in Hm as ([] & Hb & Hm).
  apply result_bind_ok in Hm as ([] & Hpp & Hm).
  apply result_bind_ok in Hm as ([] & Hsh & _).
  split; [by apply length_one|by apply length_one|done..].
Qed.

(** What [verify] went through. *)
Record verified (f : bytes) (o : VerifyOptions) (i : Inspection) : Prop := {
  verified_inspect : inspect blake3 crc32c nfc f = Ok i;
  verified_publisher : verify_publisher i (expected_publisher o) = Ok tt;
  verified_rotation : verify_rotation blake3 (envelope i) = Ok tt;
  verified_payload : verify_payload blake3 f i = Ok tt;
}.

Lemma verify_inv f o i : verify blake3 crc32c nfc f o = Ok i → verified f o i.
Proof.
  unfold verify. intros Hv.
  apply result_bind_ok in Hv as (j & Hj & Hv). apply result_bind_ok in Hv as ([] & _ & Hv).
  apply result_bind_ok in Hv as ([] & _ & Hv). apply result_bind_ok in Hv as ([] & Hp & Hv).
  apply result_bind_ok in Hv as ([] & Hr & Hv). apply result_bind_ok in Hv as ([] & Hy & Hv).
  injection Hv as <-. by split.
Qed.

Lemma verify_payload_inv f i :
  verify_payload blake3 f i = Ok tt → 0 ≤ payload_offset (inspected_header i) →
  ∃ e tree, check_payload_blocks blake3 f (payload_offset (inspected_header i)) 0 (blocks (envelope i)) = Ok e ∧
    (0 ≤ e → e ≤ payload_length (inspected_header i) ∧
     span f (payload_offset (inspected_header i) + e)
       (payload_offset (inspected_header i) + payload_length (inspected_header i)) =
     replicate (Z.to_nat (payload_length (inspected_header i) - e)) x00) ∧
    head (trees (envelope i)) = Some tree ∧
    check_files blake3 f (payload_offset (inspected_header i)) (descriptor_index (blocks (envelope i)))
      (entries tree) = Ok tt.
Proof.
  unfold verify_payload, plus, expect. intros Hv Ho. cbv zeta in Hv.
  apply result_bind_ok in Hv as (e & He & Hv).
  apply result_bind_ok in Hv as (a & Ha & Hv). apply ok_or_ok, checked_add_Some in Ha as [-> _].
  apply result_bind_ok in Hv as (b & Hb & Hv). apply ok_or_ok, checked_add_Some in Hb as [-> _].
  apply result_bind_ok in Hv as ([] & Hz & Hv).
  apply result_bind_ok in Hv as (tree & Ht%ok_or_ok & Hv).
  exists e, tree. split; [done|]. split; [|done]. intros H0e.
  apply check_zero_range_ok in Hz as [Hle Hz]; [|lia]. split; [lia|]. rewrite Hz. f_equal. lia.
Qed.

(** What deserialization yields is of the Rust types. *)
Definition envelope_ok (e : Envelope) : Prop := Forall descriptor_ok (blocks e).

(** The header of a file is fixed by the lengths of its sections. *)
Lemma same_header h k lh lk :
  sections_ok h lh → sections_ok k lk → bundle_root h = bundle_root k →
  envelope_length h = envelope_length k → signature_length h = signature_length k →
  payload_length h = payload_length k → h = k.
Proof.
  intros [_ _ _ Ho1 Ho2 _ [Ha1 Ha2]] [_ _ _ Ko1 Ko2 _ [Kb1 Kb2]] Hr He Hs Hp.
  assert (Hso : signature_offset h = signature_offset k)
    by (eapply same_padding; [exact Ho1|rewrite He; exact Ko1|done|done]).
  assert (Hpo : payload_offset h = payload_offset k)
    by (eapply same_padding; [exact Ho2|rewrite Hso, Hs; exact Ko2|done|done]).
  destruct h, k. simpl in *. congruence.
Qed.

Lemma section_bounds h l :
  sections_ok h l → header_ok h →
  0 ≤ Z.of_nat HEADER_SIZE ≤ Z.of_nat HEADER_SIZE + envelope_length h ∧
  Z.of_nat HEADER_SIZE + envelope_length h ≤ signature_offset h ∧
  signature_offset h ≤ signature_offset h + signature_length h ∧
  signature_offset h + signature_length h ≤ payload_offset h ∧
  payload_offset h ≤ l ∧ 0 ≤ payload_length h.
Proof. intros [] [] . unfold in_range in *. lia. Qed.

(** The sections of two files with the same header. *)
Lemma same_sections f g i j :
  inspected f i → inspected g j → inspected_header i = inspected_header j →
  envelope_span f (inspected_header i) = envelope_span g (inspected_header j) →
  signature_span f (inspected_header i) = signature_span g (inspected_header j) →
  agree f g 0 (payload_offset (inspected_header i)).
Proof.
  intros [Lf Df Sf Vf _ G1f G2f _ _ _] [Lg Dg Sg Vg _ G1g G2g _ _ _] Hh He Hs.
  pose proof (section_bounds _ _ Sf Vf) as (B1 & B2 & B3 & B4 & B5 & B6).
  apply decode_canonical in Df as [Ef _], Dg as [Eg _]; [|by apply header_span..].
  rewrite Hh in *. set (h := inspected_header j) in *.
  apply (agree_app f g _ (Z.of_nat HEADER_SIZE)); [lia..|unfold agree; congruence|].
  apply (agree_app f g _ (Z.of_nat HEADER_SIZE + envelope_length h)); [lia..|exact He|].
  apply (agree_app f g _ (signature_offset h)); [lia..|unfold agree; congruence|].
  apply (agree_app f g _ (signature_offset h + signature_length h)); [lia..|exact Hs|].
  unfold agree. congruence.
Qed.

Lemma section_lengths f i :
  inspected f i →
  len (envelope_span f (inspected_header i)) = envelope_length (inspected_header i) ∧
  len (signature_span f (inspected_header i)) = signature_length (inspected_header i).
Proof.
  intros [_ _ S V _ _ _ _ _ _].
  pose proof (section_bounds _ _ S V) as (B1 & B2 & B3 & B4 & B5 & B6).
  unfold envelope_span, signature_span. rewrite !len_span; lia.
Qed.

(** The payloads of two files with the same header and envelope. *)
Lemma same_payload f g i j :
  inspected f i → inspected g j → inspected_header i = inspected_header j →
  envelope i = envelope j → envelope_ok (envelope i) →
  verify_payload blake3 f i = Ok tt → verify_payload blake3 g j = Ok tt →
  agree f g (payload_offset (inspected_header i)) (len f) ∨ collision.
Proof.
  intros If Ig Hh He Hok Hf Hg.
  pose proof (inspected_values _ _ If) as Vf. pose proof (inspected_sections _ _ If) as Sf.
  pose proof (section_bounds _ _ Sf Vf) as (B1 & B2 & B3 & B4 & B5 & B6).
  apply verify_payload_inv in Hf as (e1 & _ & Cf & Zf & _); [|lia].
  apply verify_payload_inv in Hg as (e2 & _ & Cg & Zg & _); [|rewrite <-Hh; lia].
  rewrite <-Hh, <-He in Cg. rewrite <-Hh in Zg. set (h := inspected_header i) in *.
  assert (Hst : Forall (λ d, 0 ≤ stored_size d) (blocks (envelope i)))
    by (eapply Forall_impl; [exact Hok|]; intros d (_ & [Hd _] & _); exact Hd).
  destruct (payload_determined f g _ _ _ _ _ Cf Cg ltac:(lia) ltac:(lia) Hst) as (<- & Hge & Ha).
  destruct Ha as [Ha|]; [left|by right]. rewrite Z.add_0_r in Ha.
  destruct (Zf Hge) as [Hle Zf']. destruct (Zg Hge) as [_ Zg'].
  rewrite <-(sec_order3 _ _ Sf). fold h.
  apply (agree_app f g _ (payload_offset h + e1)); [lia..|exact Ha|unfold agree; congruence].
Qed.

(** The digest that is signed determines the envelope. *)
Lemma same_envelope f g i j :
  inspected f i → inspected g j → bundle_root (inspected_header i) = bundle_root (inspected_header j) →
  envelope_span f (inspected_header i) = envelope_span g (inspected_header j) ∧ envelope i = envelope j ∨ collision.
Proof.
  intros If Ig Hroot.
  assert (Hd : blake3 (envelope_span f (inspected_header i)) = blake3 (envelope_span g (inspected_header j)))
    by (by rewrite (inspected_root _ _ If), (inspected_root _ _ Ig)).
  destruct (same_digest _ _ Hd) as [Henv|]; [left|by right]. split; [done|].
  pose proof (inspected_envelope _ _ If) as E1. pose proof (inspected_envelope _ _ Ig) as E2.
  rewrite Henv in E1. congruence.
Qed.

(** C8: a verified bundle file is determined by its signed digest and its
    signature section: two accepted files that agree in both are equal, byte for
    byte, or two different byte strings with the same BLAKE3 digest are at hand. *)
Theorem verified_file_is_determined f g o o' i j :
  (∀ bs e, read_envelope bs = Ok e → envelope_ok e) →
  verify blake3 crc32c nfc f o = Ok i → verify blake3 crc32c nfc g o' = Ok j →
  bundle_root (inspected_header i) = bundle_root (inspected_header j) →
  signature_span f (inspected_header i) = signature_span g (inspected_header j) →
  f = g ∨ collision.
Proof.
  intros Htyped Hf Hg Hroot Hsig.
  apply verify_inv in Hf as [If%inspect_inv _ _ Pf]. apply verify_inv in Hg as [Ig%inspect_inv _ _ Pg].
  destruct (same_envelope _ _ _ _ If Ig Hroot) as [[Henv He]|]; [|by right].
  destruct (section_lengths _ _ If) as [L1 L2]. destruct (section_lengths _ _ Ig) as [L3 L4].
  pose proof (validate_metadata_inv _ _ _ (inspected_metadata _ _ If)) as Mf.
  pose proof (validate_metadata_inv _ _ _ (inspected_metadata _ _ Ig)) as Mg.
  destruct (validate_blocks_inv _ _ (meta_blocks _ _ _ Mf)) as [T1 _].
  destruct (validate_blocks_inv _ _ (meta_blocks _ _ _ Mg)) as [T2 _].
  assert (Hh : inspected_header i = inspected_header j).
  { eapply same_header; [apply If|apply Ig|done|congruence..]. }
  destruct (same_payload f g i j If Ig Hh He) as [Hp|]; [|done..| |by right].
  { eapply Htyped, (inspected_envelope _ _ If). }
  left. apply agree_all.
  - rewrite <-(sec_order3 _ _ (inspected_sections _ _ If)), <-(sec_order3 _ _ (inspected_sections _ _ Ig)).
    by rewrite Hh.
  - pose proof (section_bounds _ _ (inspected_sections _ _ If) (inspected_values _ _ If)).
    eapply agree_app; [| |by apply (same_sections f g i j)|exact Hp]; lia.
Qed.

(** ** The contents of the files *)

Lemma descriptor_index_app l d : descriptor_index (l ++ [d]) = <[block_key d := d]> (descriptor_index l).
Proof. unfold descriptor_index. by rewrite foldl_app. Qed.
Lemma descriptor_index_lookup l r d :
  descriptor_index l !! r = Some d → d ∈ l ∧ block_key d = r.
Proof.
  induction l as [|d' l IH] using rev_ind; [done|]. rewrite descriptor_index_app.
  destruct (decide (block_key d' = r)) as [Heq|Hne].
  - rewrite Heq, lookup_insert, decide_True by done. intros [= ->]. set_solver.
  - rewrite lookup_insert_ne by done. intros Hd. destruct (IH Hd). set_solver.
Qed.
Lemma descriptor_index_defined l r :
  r ∈ block_key <$> l → is_Some (descriptor_index l !! r).
Proof.
  induction l as [|d' l IH] using rev_ind; [set_solver|]. rewrite fmap_app, descriptor_index_app.
  intros Hr. destruct (decide (block_key d' = r)) as [<-|Hne].
  - rewrite lookup_insert, decide_True by done. eauto.
  - rewrite lookup_insert_ne by done. apply IH. set_solver.
Qed.

Lemma validate_entries_inv l n m entry :
  validate_entries blake3 nfc l n = Ok m → entry ∈ l → validate_file_entry blake3 nfc entry = Ok tt.
Proof.
  revert n. induction l as [|x l IH]; intros n Hv Hin; [set_solver|]. simpl in Hv.
  apply result_bind_ok in Hv as ([] & Hx & Hv). apply result_bind_ok in Hv as (k & _ & Hv).
  apply elem_of_cons in Hin as [->|Hin]; [done|by eapply IH].
Qed.

Lemma validate_tree_inv e :
  validate_variant_and_tree blake3 nfc e = Ok tt →
  ∃ tree, trees e = [tree] ∧ validate_tree_paths nfc (entries tree) = Ok tt ∧
    validate_symlinks nfc (entries tree) = Ok tt ∧
    ∀ entry, entry ∈ entries tree → validate_file_entry blake3 nfc entry = Ok tt.
Proof.
  unfold validate_variant_and_tree, schema_error, profile_error, raise, expect, attempt. intros Hv.
  apply result_bind_ok in Hv as (v & _ & Hv). destruct (negb _); [done|].
  destruct (_ || _ || _); [done|]. apply result_bind_ok in Hv as ([] & _ & Hv).
  apply result_bind_ok in Hv as ([] & _ & Hv). apply result_bind_ok in Hv as ([] & _ & Hv).
  destruct (negb (strictly_sorted _ _) || _); [done|].
  apply result_bind_ok in Hv as ([] & Htree & Hv).
  destruct (negb (len (trees e) =? 1)) eqn:Hone; [done|]. apply length_one in Hone as [tree Htr].
  rewrite Htr in Hv. cbn [head ok_or result_bind] in Hv.
  destruct (len (entries tree) >? MAX_ENTRIES); [done|].
  apply result_bind_ok in Hv as ([] & Hpaths%map_err_ok & Hv).
  apply result_bind_ok in Hv as (n & Hentries & Hv). destruct (n >? MAX_BLOCK_REFS); [done|].
  apply result_bind_ok in Hv as ([] & Hlinks%map_err_ok & _).
  exists tree. split; [done|]. split; [done|]. split; [done|]. intros entry. by eapply validate_entries_inv.
Qed.

Definition refs_size (refs : list (Digest * Z)) : Z := foldr (λ r n, r.2 + n) 0 refs.
Lemma sum_blocks_ok refs n m : sum_blocks refs n = Ok m → m = n + refs_size refs.
Proof.
  revert n. induction refs as [|[d raw] refs IH]; intros n Hs; simpl in Hs.
  - injection Hs as <-. simpl. lia.
  - unfold tree_error, raise in Hs. destruct (_ || _ || _); [done|].
    apply result_bind_ok in Hs as (k & Hk & Hs).
    destruct (checked_add u64_max n raw) eqn:Hadd; [|done]. injection Hk as <-.
    apply checked_add_Some in Hadd as [-> _]. apply IH in Hs. simpl. lia.
Qed.

Lemma regular_entry_inv entry :
  validate_file_entry blake3 nfc entry = Ok tt → file_type entry = FileType.Regular →
  ∃ refs digest, block_refs entry = Some refs ∧ file_digest entry = Some digest ∧
    size entry = Some (refs_size refs).
Proof.
  unfold validate_file_entry, tree_error, raise, expect. intros Hv Ht. rewrite Ht in Hv.
  destruct (_ || _ || _ || _ || _) eqn:Hshape; [done|].
  apply result_bind_ok in Hv as (n & Hn%ok_or_ok & Hv).
  apply result_bind_ok in Hv as (refs & Hrefs%ok_or_ok & Hv).
  apply result_bind_ok in Hv as ([] & _ & Hv). apply result_bind_ok in Hv as (m & Hm & Hv).
  destruct (negb (m =? n)) eqn:Heq; [done|]. apply negb_false_iff, Z.eqb_eq in Heq. subst m.
  apply sum_blocks_ok in Hm. rewrite !orb_false_iff in Hshape.
  destruct Hshape as [[[[_ _] Hd] _] _]. apply bool_decide_eq_false in Hd.
  destruct (file_digest entry) as [digest|]; [|done].
  exists refs, digest. rewrite Hn. split; [done|]. split; [done|]. f_equal. lia.
Qed.

(** A frame decompresses to the size it declares. *)
Definition zstd_honest : Prop := ∀ stored n raw,
  get_frame_content_size stored = Ok (Some n) → decompress stored n = Ok raw → len raw = n.

Lemma len_raw_block f o d raw lo hi :
  zstd_honest → read_raw_block blake3 f o d = Ok raw → 0 ≤ o → 0 ≤ lo → placed lo hi d →
  len raw = raw_size d.
Proof.
  intros Hz Hr Ho Hlo [Hs _ _ Hst Hc]. unfold read_raw_block, block_error, raise in Hr.
  apply result_bind_ok in Hr as (at_ & Hat & Hr).
  destruct (checked_add u64_max o (block_offset d)) as [n|] eqn:Hadd; [|done]. injection Hat as <-.
  apply checked_add_Some in Hadd as [-> _].
  apply result_bind_ok in Hr as (stored & Hst' & Hr).
  apply read_section_ok in Hst' as (_ & Hlen & _); [|lia..].
  destruct (bool_decide (blake3 stored ≠ stored_digest d)); [done|].
  destruct Hc as [(Hc & Hsize & _)|Hc]; rewrite Hc in Hr; cbn [Z.eqb] in Hr.
  - injection Hr as <-. lia.
  - apply result_bind_ok in Hr as (fs & _ & Hr). destruct (negb (fs =? len stored)); [done|].
    apply result_bind_ok in Hr as (cs & Hcs%map_err_ok & Hr).
    destruct (bool_decide (cs ≠ Some (raw_size d))) eqn:Heq; [done|].
    apply bool_decide_eq_false, dec_stable in Heq. subst cs.
    destruct (bool_decide _); [done|]. destruct (raw_size d >? usize_max); [done|].
    apply map_err_ok in Hr. by eapply Hz.
Qed.

Lemma read_file_blocks_size f o l refs content off :
  zstd_honest → 0 ≤ o → Forall (placed 0 off) l →
  read_file_blocks blake3 f o (descriptor_index l) refs = Ok content → len content = refs_size refs.
Proof.
  intros Hz Ho Hl. revert content. induction refs as [|r refs IH]; intros content Hc; simpl in Hc.
  - by injection Hc as <-.
  - unfold expect in Hc. apply result_bind_ok in Hc as (d & Hd%ok_or_ok & Hc).
    apply descriptor_index_lookup in Hd as [Hin Hkey].
    apply result_bind_ok in Hc as (raw & Hraw & Hc). apply result_bind_ok in Hc as (rest & Hrest & Hc).
    injection Hc as <-. rewrite len_app, (IH _ Hrest). simpl. f_equal.
    rewrite Forall_forall in Hl.
    rewrite (len_raw_block f o d raw 0 off Hz Hraw Ho ltac:(lia) (Hl d Hin)), <-Hkey. done.
Qed.

Lemma check_files_inv f o by_key l entry :
  check_files blake3 f o by_key l = Ok tt → entry ∈ l → file_type entry = FileType.Regular →
  ∃ refs content digest, block_refs entry = Some refs ∧
    read_file_blocks blake3 f o by_key refs = Ok content ∧
    file_digest entry = Some digest ∧ blake3 content = digest.
Proof.
  induction l as [|x l IH]; intros Hc Hin Ht; [set_solver|]. simpl in Hc.
  apply result_bind_ok in Hc as ([] & Hx & Hc).
  apply elem_of_cons in Hin as [->|Hin]; [|by apply IH].
  rewrite bool_decide_eq_false_2 in Hx by (intros Hn; by apply Hn). unfold expect, tree_error, raise in Hx.
  apply result_bind_ok in Hx as (refs & Hrefs%ok_or_ok & Hx).
  apply result_bind_ok in Hx as (content & Hcont & Hx).
  apply result_bind_ok in Hx as (digest & Hd%ok_or_ok & Hx).
  destruct (bool_decide _) eqn:Heq; [done|]. apply bool_decide_eq_false, dec_stable in Heq.
  by exists refs, content, digest.
Qed.

(** The publisher's signature over the digest of the envelope. *)
Definition signed_by_publisher (i : Inspection) (expected : option VerifyingKey) : Prop :=
  ∃ key entry sig,
    key_from_bytes (public_key (publisher (envelope i))) = Ok key ∧
    (∀ k, expected = Some k → k = key) ∧
    signatures i = [entry] ∧ signature_from_slice (signature entry) = Ok sig ∧
    key_verify key (signature_input (bundle_root (inspected_header i))) sig = Ok tt.

Lemma verify_publisher_inv i expected entry :
  signatures i = [entry] → verify_publisher i expected = Ok tt → signed_by_publisher i expected.
Proof.
  unfold verify_publisher, raise, expect, context. intros Hs Hv. rewrite Hs in Hv.
  apply result_bind_ok in Hv as (kb & Hkb%ok_or_ok & Hv). cbv zeta in Hkb.
  destruct (len _ =? 32); [|done]. injection Hkb as <-.
  apply result_bind_ok in Hv as (key & Hkey%map_err_ok & Hv).
  destruct (match expected with Some _ => _ | None => _ end) eqn:Hexp; [done|].
  cbn [head ok_or result_bind] in Hv. apply result_bind_ok in Hv as (sig & Hsig%map_err_ok & Hv).
  apply map_err_ok in Hv. exists key, entry, sig. split; [done|]. split; [|done].
  intros k ->. by apply bool_decide_eq_false, dec_stable in Hexp.
Qed.

(** C28: in a verified bundle the publisher's key (the expected one, if one is
    expected) signed the digest of the envelope, the envelope is what that digest
    is of, and every regular file of its tree, put together from the blocks of
    the payload, has the size and the digest the envelope gives. *)
Theorem verified_bundle_is_authentic f o i :
  (∀ bs e, read_envelope bs = Ok e → envelope_ok e) → zstd_honest →
  verify blake3 crc32c nfc f o = Ok i →
  signed_by_publisher i (expected_publisher o) ∧
  blake3 (envelope_span f (inspected_header i)) = bundle_root (inspected_header i) ∧
  read_envelope (envelope_span f (inspected_header i)) = Ok (envelope i) ∧
  ∃ tree, trees (envelope i) = [tree] ∧
    ∀ entry, entry ∈ entries tree → file_type entry = FileType.Regular →
      ∃ refs content, block_refs entry = Some refs ∧
        read_file_blocks blake3 f (payload_offset (inspected_header i))
          (descriptor_index (blocks (envelope i))) refs = Ok content ∧
        size entry = Some (len content) ∧ file_digest entry = Some (blake3 content).
Proof.
  intros Htyped Hz Hv. apply verify_inv in Hv as [Hi%inspect_inv Hp _ Hpay].
  pose proof (validate_metadata_inv _ _ _ (inspected_metadata _ _ Hi)) as Hm.
  destruct (meta_signature _ _ _ Hm) as [s Hs].
  split; [by eapply verify_publisher_inv|]. split; [apply Hi|]. split; [apply Hi|].
  destruct (validate_tree_inv _ (meta_tree _ _ _ Hm)) as (tree & Htree & _ & _ & Hentries).
  exists tree. split; [done|]. intros entry Hin Ht.
  pose proof (section_bounds _ _ (inspected_sections _ _ Hi) (inspected_values _ _ Hi)) as Hb.
  apply verify_payload_inv in Hpay as (e & tree' & _ & _ & Htree' & Hfiles); [|lia].
  rewrite Htree in Htree'. injection Htree' as <-.
  destruct (check_files_inv _ _ _ _ _ Hfiles Hin Ht) as (refs & content & digest & Hr & Hc & Hd & <-).
  destruct (regular_entry_inv _ (Hentries _ Hin) Ht) as (refs' & digest' & Hr' & Hd' & Hsize).
  assert (refs' = refs) as -> by congruence.
  exists refs, content. split; [done|]. split; [done|]. split; [|done]. rewrite Hsize. f_equal.
  destruct (validate_blocks_inv _ _ (meta_blocks _ _ _ Hm)) as (_ & off & keys & _ & Hblocks & _).
  apply check_blocks_ok in Hblocks as (_ & _ & Hplaced);
    [|eapply Htyped, Hi|unfold u64_max; lia].
  refine (eq_sym (read_file_blocks_size f _ _ refs content off Hz _ Hplaced Hc)). lia.
Qed.

End facts.

(** ** No panic *)

Definition calm {A} (r : outcome A) : Prop := r ≠ Err Panic.

Lemma calm_bind {A B} (r : outcome A) (k : A → outcome B) :
  calm r → (∀ a, r = Ok a → calm (k a)) → calm (result_bind r k).
Proof.
  intros Hr Hk. destruct r as [a|e]; [by apply Hk|]. unfold calm in *. simpl. congruence.
Qed.
Lemma calm_attempt {A} (r : bundle_result A) : calm (attempt r).
Proof. by destruct r. Qed.
Lemma calm_context {A} (r : result string A) c m : calm (context r c m).
Proof. by destruct r. Qed.
Lemma calm_io {A} (r : result string A) g : calm (map_err (λ e, Failed (g e)) r).
Proof. by destruct r. Qed.
Lemma calm_raise {A} c m : calm (raise c m : outcome A).
Proof. done. Qed.
Lemma calm_ok {A} (a : A) : calm (Ok a).
Proof. done. Qed.
Lemma calm_expect {A} (o : option A) a : o = Some a → calm (expect o).
Proof. by intros ->. Qed.
Lemma calm_plus a b : a + b ≤ u64_max → calm (plus a b).
Proof. intros Hab. unfold plus, checked_add. destruct (Z.leb_spec (a + b) u64_max); [done|lia]. Qed.

Create HintDb calm.
#[export] Hint Resolve calm_attempt calm_context calm_io calm_raise calm_ok calm_plus : calm.
(** Goes through a computation, leaving what may panic. *)
Ltac calm_step :=
  match goal with
  | |- calm (result_bind _ _) => apply calm_bind; [|let H := fresh "Hr" in intros ? H]
  | |- calm (if ?c then _ else _) => destruct c eqn:?
  | |- calm (match ?o with Some _ => _ | None => _ end) => destruct o eqn:?
  | |- calm (let _ := _ in _) => cbv zeta
  | |- calm _ => solve [eauto with calm]
  end.
Ltac calm := repeat calm_step.

Section no_panic.
Context `{PointerWidth, Ed25519, Zstd, Semver}.
Context `{Serde Envelope, Serde (list SignatureEntry), Serde (list FileEntry),
          Serde RotationProofSignedData}.
Context (blake3 : bytes → bytes) (crc32c : bytes → Z) (nfc : str → str).

Abbreviation read_envelope := (from_canonical_slice (T := Envelope) to_value from_slice).

Lemma calm_zero_chunks f n a r : calm (zero_chunks f n a r).
Proof. revert a r. induction n as [|n IH]; intros a r; simpl; [done|]. calm. Qed.
Lemma calm_zero_range f a b : calm (check_zero_range f a b).
Proof. pose proof calm_zero_chunks. unfold check_zero_range. calm. Qed.
Lemma calm_section f a n : calm (read_section f a n).
Proof. unfold read_section, read_io. calm. Qed.
Local Hint Resolve calm_zero_range calm_section : calm.

Lemma calm_firmware_bound b : calm (validate_firmware_bound b).
Proof. unfold validate_firmware_bound, schema_error. calm. Qed.
Local Hint Resolve calm_firmware_bound : calm.
Lemma calm_sum_blocks refs n : calm (sum_blocks refs n).
Proof.
  revert n. induction refs as [|[d raw] refs IH]; intros n; simpl; [done|].
  unfold tree_error. calm.
Qed.
Local Hint Resolve calm_sum_blocks : calm.
Lemma calm_file_entry entry : calm (validate_file_entry blake3 nfc entry).
Proof.
  unfold validate_file_entry, tree_error. destruct (file_type entry); [by calm|..].
  - destruct (_ || _ || _ || _ || _) eqn:Hc; [done|]. rewrite !orb_false_iff in Hc.
    destruct Hc as [[[[_ Hs] _] Hb] _]. apply bool_decide_eq_false in Hs, Hb.
    destruct (size entry), (block_refs entry); try done. cbn [expect ok_or result_bind]. calm.
  - destruct (_ || _ || _ || _ || _) eqn:Hc; [done|]. rewrite !orb_false_iff in Hc.
    destruct Hc as [_ Ht]. apply bool_decide_eq_false in Ht.
    destruct (target entry); [|done]. cbn [expect ok_or result_bind]. calm.
Qed.
Local Hint Resolve calm_file_entry : calm.
Lemma calm_entries l n : calm (validate_entries blake3 nfc l n).
Proof. revert n. induction l as [|x l IH]; intros n; simpl; [done|]. calm. Qed.
Lemma calm_entrypoints entries l : calm (validate_entrypoints nfc entries l).
Proof. induction l as [|[name path] l IH]; simpl; [done|]. unfold schema_error. calm. Qed.
Local Hint Resolve calm_entries calm_entrypoints : calm.

Lemma calm_variant_and_tree e v : variants e = [v] → calm (validate_variant_and_tree blake3 nfc e).
Proof.
  intros Hv. unfold validate_variant_and_tree, schema_error, profile_error. rewrite Hv.
  cbn [head expect ok_or result_bind]. destruct (negb _); [done|]. destruct (_ || _ || _); [done|].
  apply calm_bind; [calm|intros [] _]. apply calm_bind; [calm|intros [] _].
  apply calm_bind; [destruct (firmware_min v), (firmware_max_exclusive v); calm|intros [] _].
  destruct (_ || _); [done|].
  destruct (negb (len (trees e) =? 1)) eqn:Hone; [done|]. apply length_one in Hone as [tree Htr].
  rewrite Htr. cbn [head expect ok_or result_bind]. calm.
Qed.

Lemma calm_check_blocks previous off keys l : calm (check_blocks previous off keys l).
Proof.
  revert previous off keys. induction l as [|d l IH]; intros previous off keys; simpl; [done|].
  unfold block_error. destruct (match previous with Some _ => _ | None => _ end); [done|]. calm.
Qed.
Lemma calm_blocks e h tree : trees e = [tree] → calm (validate_blocks e h).
Proof.
  intros Ht. unfold validate_blocks, block_error. rewrite Ht. cbn [head expect ok_or result_bind].
  pose proof calm_check_blocks. calm.
Qed.
Lemma calm_policy e v tree :
  variants e = [v] → trees e = [tree] → calm (validate_permissions_and_policy nfc e).
Proof.
  intros Hv Ht. unfold validate_permissions_and_policy, validate_process, schema_error, profile_error.
  rewrite Hv, Ht. cbn [head expect ok_or result_bind]. calm.
Qed.
Lemma calm_shape e s : calm (validate_signature_shape e [s]).
Proof. unfold validate_signature_shape, profile_error. cbn [head expect ok_or result_bind]. calm. Qed.

Lemma calm_metadata e ss h : calm (validate_metadata blake3 nfc e ss h).
Proof.
  unfold validate_metadata, profile_error, schema_error. destruct (_ || _); [done|].
  destruct (negb (len (variants e) =? 1) || _ || _ || _ || _) eqn:Hone; [done|].
  rewrite !orb_false_iff in Hone. destruct Hone as [[[[Hv _] _] _] Hs].
  apply length_one in Hv as [v Hv], Hs as [s ->].
  apply calm_bind; [calm|intros [] _]. destruct (_ >? _); [done|].
  apply calm_bind; [calm|intros ver _]. destruct (_ || _); [done|].
  apply calm_bind; [calm|intros [] _].
  apply calm_bind; [unfold validate_publisher, profile_error; calm|intros [] _].
  apply calm_bind; [by eapply calm_variant_and_tree|intros [] Ht].
  destruct (validate_tree_inv _ _ _ Ht) as (tree & Htree & _).
  apply calm_bind; [by eapply calm_blocks|intros [] _].
  apply calm_bind; [by eapply calm_policy|intros [] _].
  apply calm_bind; [apply calm_shape|intros [] _]. calm.
Qed.

Lemma check_sections_fits h l : check_sections h l = Ok tt → l ≤ u64_max.
Proof.
  unfold check_sections. intros Hc.
  apply result_bind_ok in Hc as ([] & _ & Hc). apply result_bind_ok in Hc as (ee & _ & Hc).
  apply result_bind_ok in Hc as (cs & _ & Hc). apply result_bind_ok in Hc as (se & _ & Hc).
  apply result_bind_ok in Hc as (cp & _ & Hc).
  apply result_bind_ok in Hc as (fl & Hfl%ok_or_ok & Hc). apply checked_add_Some in Hfl as [-> Hle].
  apply reject_if_ok in Hc. rewrite !orb_false_iff, !negb_false_iff in Hc. lia.
Qed.

Lemma calm_inspect f : calm (inspect blake3 crc32c nfc f).
Proof.
  unfold inspect. cbv zeta. apply calm_bind; [apply calm_io|intros hb Hhb].
  apply map_err_ok, read_exact_ok in Hhb as (Hhb & _ & Hlen); [|done|unfold HEADER_SIZE; lia].
  rewrite Z.add_0_l in Hhb. subst hb.
  assert (Hl : Z.of_nat HEADER_SIZE ≤ len f) by (destruct Hlen; [done|lia]).
  apply calm_bind; [calm|intros h Hh%map_err_ok].
  pose proof (decode_header_ok _ _ _ _ (header_span _ Hl) Hh) as Hok.
  apply decode_inv in Hh as (_ & _ & _ & _ & _ & _ & _ & Hs & _).
  pose proof (check_sections_fits _ _ Hs) as Hfits. apply check_sections_ok in Hs; [|done].
  pose proof (section_bounds _ _ Hs Hok) as Hb. pose proof calm_metadata.
  apply calm_bind; [calm|intros eb _]. destruct (bool_decide _); [done|].
  apply calm_bind; [apply calm_plus; lia|intros ee _]. apply calm_bind; [calm|intros [] _].
  apply calm_bind; [calm|intros sb _]. apply calm_bind; [apply calm_plus; lia|intros se _].
  calm.
Qed.

Lemma calm_publisher i expected :
  metadata_ok blake3 nfc (envelope i) (signatures i) (inspected_header i) →
  calm (verify_publisher i expected).
Proof.
  intros Hm. destruct (meta_signature _ _ _ _ _ Hm) as [s Hs].
  pose proof (meta_publisher _ _ _ _ _ Hm) as Hp. unfold validate_publisher, profile_error, raise in Hp.
  destruct (_ || _) eqn:Hc; [done|]. apply orb_false_iff in Hc as [_ Hc%negb_false_iff].
  unfold verify_publisher. cbv zeta. rewrite Hc, Hs. cbn [head expect ok_or result_bind].
  apply calm_bind; [calm|intros key _].
  destruct (match expected with Some _ => _ | None => _ end); [done|]. calm.
Qed.

Lemma calm_rotation e : calm (verify_rotation blake3 e).
Proof.
  assert (Hstep : ∀ s proof, calm (rotation_step blake3 e s proof)).
  { intros s proof. unfold rotation_step. cbv zeta.
    apply calm_bind; [unfold validate_rotation_fields; cbv zeta; calm|intros [] Hf].
    unfold validate_rotation_fields, raise in Hf. cbv zeta in Hf.
    destruct (_ || _ || _ || _ || _ || _ || _ || _ || _) eqn:Hc; [done|].
    rewrite !orb_false_iff, !negb_false_iff in Hc. destruct Hc as [[[[_ Hlen] _] _] _].
    apply calm_bind; [calm|intros seen _]. destruct (_ || _ || _); [done|].
    rewrite Hlen. cbn [expect ok_or result_bind]. calm. }
  assert (Hloop : ∀ l s, calm (rotation_loop blake3 e s l)).
  { induction l as [|proof l IH]; intros s; simpl; [done|]. apply calm_bind; [apply Hstep|auto]. }
  unfold verify_rotation. apply calm_bind; [apply Hloop|intros s _]. calm.
Qed.

Lemma calm_raw_block f o d : calm (read_raw_block blake3 f o d).
Proof. unfold read_raw_block, block_error. calm. Qed.
Local Hint Resolve calm_raw_block : calm.

Lemma calm_payload_blocks f o start l hi :
  Forall (placed 0 hi) l → start ≤ hi → o + hi ≤ u64_max → 0 ≤ o →
  calm (check_payload_blocks blake3 f o start l) ∧
  (∀ e, check_payload_blocks blake3 f o start l = Ok e → e ≤ hi).
Proof.
  intros Hl. revert start. induction Hl as [|d l [Hd1 Hd2 _ Hd3 _] _ IH]; intros start Hs Ho H0o.
  - split; [done|]. by intros e [= <-].
  - cbn [check_payload_blocks]. split.
    + unfold block_error. apply calm_bind; [apply calm_plus; lia|intros a _].
      apply calm_bind; [apply calm_plus; lia|intros b _]. apply calm_bind; [calm|intros [] _].
      apply calm_bind; [calm|intros raw _]. destruct (bool_decide _); [done|].
      apply calm_bind; [apply calm_plus; lia|intros pe Hpe].
      apply ok_or_ok, checked_add_Some in Hpe as [-> _]. by apply IH; lia.
    + intros e He. unfold block_error, raise in He.
      apply result_bind_ok in He as (a & _ & He). apply result_bind_ok in He as (b & _ & He).
      apply result_bind_ok in He as ([] & _ & He). apply result_bind_ok in He as (raw & _ & He).
      destruct (bool_decide _); [done|]. apply result_bind_ok in He as (pe & Hpe & He).
      apply ok_or_ok, checked_add_Some in Hpe as [-> _]. by eapply IH; [..|exact He]; lia.
Qed.

Lemma calm_file_blocks f o l refs :
  (∀ r, r ∈ refs → r ∈ block_key <$> l) →
  calm (read_file_blocks blake3 f o (descriptor_index l) refs).
Proof.
  induction refs as [|r refs IH]; intros Hr; simpl; [done|].
  destruct (descriptor_index_defined l r) as [d Hd]; [apply Hr; set_solver|].
  rewrite Hd. cbn [expect ok_or result_bind].
  apply calm_bind; [calm|intros raw _]. apply calm_bind; [apply IH; set_solver|intros rest _; calm].
Qed.

Lemma elem_of_referenced entries entry refs r :
  entry ∈ entries → block_refs entry = Some refs → r ∈ refs → r ∈ referenced_blocks entries.
Proof.
  induction entries as [|x entries IH]; [set_solver|]. intros Hin Hrefs Hr. simpl.
  apply elem_of_cons in Hin as [<-|Hin].
  - rewrite Hrefs. set_solver.
  - destruct (block_refs x); set_solver.
Qed.

Lemma calm_files f o l entries :
  (∀ entry, entry ∈ entries → validate_file_entry blake3 nfc entry = Ok tt) →
  referenced_blocks entries ⊆ list_to_set (block_key <$> l) →
  calm (check_files blake3 f o (descriptor_index l) entries).
Proof.
  intros Hv Hkeys.
  assert (Hall : ∀ rest, rest ⊆ entries → calm (check_files blake3 f o (descriptor_index l) rest));
    [|by apply Hall].
  induction rest as [|entry rest IH]; intros Hsub; simpl; [done|].
  apply calm_bind; [|intros [] _; apply IH; set_solver]. case_bool_decide as Ht; [done|].
  destruct (regular_entry_inv _ _ entry (Hv entry ltac:(set_solver)) Ht) as (refs & digest & Hr & Hd & _).
  rewrite Hr, Hd. cbn [expect ok_or result_bind]. apply calm_bind; [|intros content _; unfold tree_error; calm].
  apply calm_file_blocks. intros r Hin. apply (elem_of_list_to_set (C := gset _)), Hkeys.
  eapply elem_of_referenced; [|exact Hr|done]. set_solver.
Qed.

Lemma table_fits l off keys n :
  check_blocks None 0 ∅ l = Ok (off, keys) → table_length l = Some n → 0 ≤ off → off ≤ n.
Proof.
  unfold table_length. intros Hc Ht Hoff. rewrite Hc in Ht. case_bool_decide as Hnil.
  - subst l. injection Hc as <- _. by injection Ht as <-.
  - destruct (align8 off) as [k|] eqn:Ha; [|done]. injection Ht as <-.
    apply align8_ok in Ha; lia.
Qed.

Lemma calm_payload f i :
  inspected blake3 crc32c nfc f i → envelope_ok (envelope i) → calm (verify_payload blake3 f i).
Proof.
  intros Hi Hok. pose proof (validate_metadata_inv _ _ _ _ _ (inspected_metadata _ _ _ _ _ Hi)) as Hm.
  destruct (validate_tree_inv _ _ _ (meta_tree _ _ _ _ _ Hm)) as (tree & Htree & _ & _ & Hentries).
  destruct (validate_blocks_inv _ _ (meta_blocks _ _ _ _ _ Hm)) as (Hlen & off & keys & tree' & Hc & Htree' & Hkeys).
  rewrite Htree in Htree'. injection Htree' as <-.
  pose proof (check_blocks_ok _ _ _ _ _ _ Hc Hok ltac:(unfold u64_max; lia)) as (Hoff & Hset & Hpl).
  pose proof (table_fits _ _ _ _ Hc Hlen ltac:(lia)) as Hfit.
  pose proof (section_bounds _ _ (inspected_sections _ _ _ _ _ Hi) (inspected_values _ _ _ _ _ Hi)) as Hb.
  pose proof (inspected_decode _ _ _ _ _ Hi) as Hd.
  apply decode_inv in Hd as (_ & _ & _ & _ & _ & _ & _ & Hs & _). apply check_sections_fits in Hs.
  pose proof (sec_order3 _ _ (inspected_sections _ _ _ _ _ Hi)) as Hend.
  destruct (calm_payload_blocks f (payload_offset (inspected_header i)) 0 _ off Hpl
    ltac:(lia) ltac:(lia) ltac:(lia)) as [Hcalm Hle].
  unfold verify_payload. cbv zeta. apply calm_bind; [exact Hcalm|intros e He%Hle].
  apply calm_bind; [apply calm_plus; lia|intros a _]. apply calm_bind; [apply calm_plus; lia|intros b _].
  apply calm_bind; [calm|intros [] _]. rewrite Htree. cbn [head expect ok_or result_bind].
  apply calm_files; [done|]. rewrite <-Hkeys, Hset. set_solver.
Qed.

(** C14: [verify] never panics, whatever the file: no index is out of bounds, no
    [expect] fails and no addition of offsets overflows. *)
Theorem verify_never_panics f o :
  (∀ bs e, read_envelope bs = Ok e → envelope_ok e) →
  verify blake3 crc32c nfc f o ≠ Err Panic.
Proof.
  intros Htyped. fold (calm (verify blake3 crc32c nfc f o)). unfold verify.
  apply calm_bind; [apply calm_inspect|intros i Hi%inspect_inv].
  pose proof (validate_metadata_inv _ _ _ _ _ (inspected_metadata _ _ _ _ _ Hi)) as Hm.
  destruct (meta_variant _ _ _ _ _ Hm) as [v Hv]. unfold check_firmware, parse_firmware. rewrite Hv.
  cbn [head expect ok_or result_bind].
  apply calm_bind; [calm|intros [] _]. apply calm_bind; [|intros [] _].
  { destruct (firmware o); [|done]. apply calm_bind; [calm|intros components _].
    destruct (_ || _); calm. }
  apply calm_bind; [by apply calm_publisher|intros [] _]. apply calm_bind; [apply calm_rotation|intros [] _].
  apply calm_bind; [apply calm_payload; [done|eapply Htyped, Hi]|intros [] _]. calm.
Qed.
End no_panic.

(** ** Key rotation *)

Section rotation.
Context `{PointerWidth, Ed25519, Serde RotationProofSignedData}.
Context (blake3 : bytes → bytes) (e : Envelope).

Definition from_key (p : RotationProof) : bytes := from_public_key (signed p).
Definition to_key (p : RotationProof) : bytes := to_public_key (signed p).
Definition proof_release (p : RotationProof) : Z := valid_from_release (signed p).

(** A proof by itself: it is about this application and channel, and the old key
    signed it. *)
Record proof_ok (p : RotationProof) : Prop := {
  proof_fields : validate_rotation_fields p e = Ok tt;
  proof_signed : ∃ key encoded sig,
    key_from_bytes (from_key p) = Ok key ∧ to_canonical_vec to_value (signed p) = Ok encoded ∧
    signature_from_slice (proof_signature p) = Ok sig ∧
    key_verify key (text "KBB-ROTATION-V1" ++ [x00] ++ encoded) sig = Ok tt;
}.

(** The keys of a chain, from the first to the last. *)
Definition lineage (l : list RotationProof) : list bytes :=
  match l with
  | [] => []
  | p :: _ => from_key p :: (to_key <$> l)
  end.

(** A proof after the chain [l]: it starts from the last key, names the last
    proof, takes effect later but not after this release, and leads to a key that
    was not used before. *)
Record follows (l : list RotationProof) (p : RotationProof) : Prop := {
  follows_link : ∀ q, last l = Some q →
    to_key q = from_key p ∧ rotation_proof_digest blake3 q = Ok (previous_proof_digest (signed p)) ∧
    proof_release q < proof_release p;
  follows_release : 0 < proof_release p ≤ release e;
  follows_fresh : to_key p ≠ from_key p ∧ to_key p ∉ lineage l;
}.

Inductive chain : list RotationProof → Prop :=
| chain_nil : chain []
| chain_snoc l p : chain l → proof_ok p → follows l p → chain (l ++ [p]).

(** What the variables of the loop hold after the chain [l]. *)
Record state_for (l : list RotationProof) (s : RotationState) : Prop := {
  state_index : index s = length l;
  state_digest : ∀ q, last l = Some q →
    ∃ d, rotation_proof_digest blake3 q = Ok d ∧ last_proof_digest s = Some d;
  state_key : previous_to_key s = to_key <$> last l;
  state_release : previous_release s = default 0 (proof_release <$> last l);
  state_seen : seen_keys s = list_to_set (lineage l);
}.

Lemma lineage_snoc l p : from_key p ∈ lineage l ∨ l = [] →
  (list_to_set (lineage (l ++ [p])) : gset bytes) = {[to_key p; from_key p]} ∪ list_to_set (lineage l).
Proof.
  intros Hl. destruct l as [|q l]; [simpl; set_solver|]. destruct Hl as [Hl|]; [|done].
  cbn [lineage app]. rewrite fmap_cons, fmap_app. cbn [lineage] in Hl. set_solver.
Qed.
Lemma last_in_lineage l q : last l = Some q → to_key q ∈ lineage l.
Proof.
  intros Hl. apply last_Some_elem_of in Hl. destruct l as [|p l]; [set_solver|].
  cbn [lineage]. apply elem_of_cons. right. apply list_elem_of_fmap. eauto.
Qed.

Lemma state_seen_before l s p :
  state_for l s → (l ≠ [] → ∀ q, last l = Some q → to_key q = from_key p) →
  (if (index s =? 0)%nat then {[from_key p]} ∪ seen_keys s else seen_keys s) =
    {[from_key p]} ∪ list_to_set (lineage l).
Proof.
  intros [Hi _ _ _ ->] Hl. destruct l as [|x l] using rev_ind; [by rewrite Hi|clear IHl].
  rewrite Hi, length_app. cbn [length]. rewrite Nat.add_comm. cbn [Nat.eqb Nat.add].
  assert (Hin : from_key p ∈ lineage (l ++ [x])); [|set_solver].
  rewrite <-(Hl ltac:(by destruct l) x ltac:(by rewrite last_snoc)).
  apply last_in_lineage, last_snoc.
Qed.

Lemma rotation_step_sound l s p s' :
  chain l → state_for l s → rotation_step blake3 e s p = Ok s' →
  proof_ok p ∧ follows l p ∧ state_for (l ++ [p]) s'.
Proof.
  intros Hchain Hs Hstep. pose proof Hs as [Hi Hdig Hkey Hrel Hseen].
  unfold rotation_step, raise, expect, context, attempt in Hstep. cbv zeta in Hstep.
  apply result_bind_ok in Hstep as ([] & Hfields & Hstep).
  apply result_bind_ok in Hstep as (seen & Hse & Hstep).
  assert (Hlink : ∀ q, last l = Some q →
    to_key q = from_key p ∧ rotation_proof_digest blake3 q = Ok (previous_proof_digest (signed p))).
  { intros q Hq. destruct l as [|x l]; [done|]. rewrite Hi in Hse. cbn [length Nat.eqb] in Hse.
    destruct (_ || _) eqn:Hc; [done|]. apply orb_false_iff in Hc as [Hc1 Hc2].
    apply bool_decide_eq_false, dec_stable in Hc1, Hc2. rewrite Hkey, Hq in Hc1.
    injection Hc1 as Hc1. destruct (Hdig q Hq) as (d & Hd & Hd'). by split; [|congruence]. }
  assert (seen = {[from_key p]} ∪ list_to_set (lineage l)) as ->.
  { rewrite <-(state_seen_before l s p Hs) by (intros _ q Hq; by apply Hlink).
    destruct (index s =? 0)%nat; [by injection Hse|]. destruct (_ || _); [done|by injection Hse]. }
  destruct (_ || _ || _) eqn:Hc; [done|]. rewrite !orb_false_iff in Hc. destruct Hc as [[Hc1 Hc2] Hc3].
  apply bool_decide_eq_false in Hc3.
  apply result_bind_ok in Hstep as (from & Hfrom%ok_or_ok & Hstep).
  destruct (len (from_public_key (signed p)) =? 32); [|done]. injection Hfrom as <-.
  apply result_bind_ok in Hstep as (key & Hk%map_err_ok & Hstep).
  apply result_bind_ok in Hstep as (enc & Henc%map_err_ok & Hstep).
  apply result_bind_ok in Hstep as (sig & Hsig%map_err_ok & Hstep).
  apply result_bind_ok in Hstep as ([] & Hver%map_err_ok & Hstep).
  apply result_bind_ok in Hstep as (d & Hd%map_err_ok & Hstep). injection Hstep as <-.
  split; [split; [done|by exists key, enc, sig]|].
  assert (Hrange : previous_release s < proof_release p ≤ release e) by (unfold proof_release; lia).
  split.
  - split.
    + intros q Hq. destruct (Hlink q Hq) as [Hl1 Hl2]. split; [done|]. split; [done|].
      rewrite Hrel, Hq in Hrange. apply Hrange.
    + split; [|apply Hrange]. rewrite Hrel in Hrange.
      destruct (last l) as [q|] eqn:Hq; [|apply Hrange]. simpl in Hrange.
      assert (0 < proof_release q); [|lia]. clear -Hchain Hq.
      destruct Hchain as [|l q' _ _ Hf]; [done|]. rewrite last_snoc in Hq. injection Hq as ->.
      apply Hf.
    + unfold to_key. set_solver.
  - split; cbn.
    + rewrite length_app. simpl. lia.
    + intros q. rewrite last_snoc. intros [= <-]. by exists d.
    + by rewrite last_snoc.
    + by rewrite last_snoc.
    + rewrite lineage_snoc; [unfold to_key, from_key; set_solver|].
      destruct (last l) as [q|] eqn:Hq; [left|right; by apply last_None].
      destruct (Hlink q eq_refl) as [<- _]. by apply last_in_lineage.
Qed.

Lemma rotation_step_complete l s p :
  state_for l s → proof_ok p → follows l p → ∃ s', rotation_step blake3 e s p = Ok s'.
Proof.
  intros Hs [Hfields (key & enc & sig & Hk & Henc & Hsig & Hver)] [Hlink Hrel Hfresh].
  pose proof Hs as [Hi Hdig Hkey Hr Hseen]. unfold rotation_step. cbv zeta. rewrite Hfields.
  cbn [result_bind].
  set (seen := {[from_key p]} ∪ list_to_set (lineage l) : gset bytes).
  assert (Hse : (if (index s =? 0)%nat then Ok ({[from_public_key (signed p)]} ∪ seen_keys s)
    else if bool_decide (previous_to_key s ≠ Some (from_public_key (signed p))) ||
            bool_decide (last_proof_digest s ≠ Some (previous_proof_digest (signed p)))
    then raise ErrorCode.Publisher "rotation proof chain is discontinuous"
    else Ok (seen_keys s)) = Ok seen).
  { unfold seen. rewrite <-(state_seen_before l s p Hs) by (intros _ q Hq; by apply Hlink).
    destruct (index s =? 0)%nat eqn:Hzero; [done|]. rewrite Hi in Hzero.
    destruct (last l) as [q|] eqn:Hq; [|apply last_None in Hq; by subst].
    destruct (Hlink q eq_refl) as (Hl1 & Hl2 & _). destruct (Hdig q eq_refl) as (d & Hd & Hd').
    rewrite !bool_decide_eq_false_2; [done|..]; intros Hn; apply Hn; [congruence|].
    rewrite Hkey. simpl. by f_equal. }
  rewrite Hse. cbn [result_bind].
  assert (Hprev : previous_release s < proof_release p).
  { rewrite Hr. destruct (last l) as [q|] eqn:Hq; simpl; [by apply Hlink|lia]. }
  assert (Hc : (valid_from_release (signed p) <=? previous_release s) ||
    (valid_from_release (signed p) >? release e) || bool_decide (to_public_key (signed p) ∈ seen) = false).
  { fold (proof_release p). rewrite !orb_false_iff. split; [lia|]. apply bool_decide_eq_false.
    unfold seen. fold (to_key p). set_solver. }
  rewrite Hc. unfold validate_rotation_fields, raise in Hfields. cbv zeta in Hfields.
  destruct (_ || _ || _ || _ || _ || _ || _ || _ || _) eqn:Hf; [done|].
  rewrite !orb_false_iff, !negb_false_iff in Hf. destruct Hf as [[[[_ Hlen] _] _] _].
  rewrite Hlen. cbn [expect ok_or result_bind]. unfold from_key in Hk. rewrite Hk. cbn [context map_err result_bind].
  unfold rotation_proof_digest. rewrite Henc. cbn [attempt map_err result_bind].
  rewrite Hsig. cbn [context map_err result_bind]. rewrite Hver. cbn [context map_err result_bind]. eauto.
Qed.

Lemma rotation_loop_iff l rest s :
  chain l → state_for l s →
  ((∃ s', rotation_loop blake3 e s rest = Ok s' ∧ state_for (l ++ rest) s') ↔ chain (l ++ rest)) ∧
  (∀ s', rotation_loop blake3 e s rest = Ok s' → state_for (l ++ rest) s').
Proof.
  revert l s. induction rest as [|p rest IH]; intros l s Hl Hs.
  - rewrite app_nil_r. cbn [rotation_loop]. split; [split; [done|by eexists]|]. by intros s' [= <-].
  - cbn [rotation_loop]. replace (l ++ p :: rest) with ((l ++ [p]) ++ rest) by (by rewrite <-app_assoc).
    destruct (rotation_step blake3 e s p) as [s1|err] eqn:Hstep; cbn [result_bind].
    + destruct (rotation_step_sound _ _ _ _ Hl Hs Hstep) as (Hp & Hf & Hs1).
      apply IH; [by constructor|done].
    + split; [|done]. split; [by intros (s' & ? & _)|]. intros Hch. exfalso.
      assert (Hpre : ∀ k, chain k → ∀ a b, k = a ++ b → chain a).
      { clear. induction 1 as [|k q Hk IHk Hq Hf]; intros a b Hab.
        - symmetry in Hab. apply app_eq_nil in Hab as [-> _]. constructor.
        - destruct b as [|x b] using rev_ind; [rewrite app_nil_r in Hab; subst; by constructor|clear IHb].
          rewrite app_assoc in Hab. apply app_inj_tail in Hab as [-> _]. by eapply IHk. }
      apply Hpre with (a := l ++ [p]) (b := rest) in Hch; [|done].
      inversion Hch as [Hnil|l' p' Hl' Hp Hf Heq]; [by destruct l|].
      apply app_inj_tail in Heq as [-> ->].
      destruct (rotation_step_complete l s p Hs Hp Hf) as [s' Hs']. congruence.
Qed.

(** C29: [verify_rotation] accepts exactly the chains of rotation proofs: each
    signed by the key it starts from, which is the key the proof before it leads
    to, each naming that proof, with growing releases up to the bundle's own and
    no key used twice, the last one leading to the bundle's publisher. *)
Theorem rotation_accepts_exactly_chains :
  verify_rotation blake3 e = Ok tt ↔
  chain (rotation e) ∧ ∀ p, last (rotation e) = Some p → to_key p = public_key (publisher e).
Proof.
  assert (Hstart : state_for [] rotation_start) by (by split).
  destruct (rotation_loop_iff [] (rotation e) rotation_start chain_nil Hstart) as [Hiff Hst]. simpl in *.
  rewrite <-Hiff. unfold verify_rotation, raise.
  destruct (rotation_loop blake3 e rotation_start (rotation e)) as [s|err] eqn:Hloop; cbn [result_bind].
  - specialize (Hst s eq_refl). rewrite (state_key _ _ Hst).
    destruct (last (rotation e)) as [p|]; simpl.
    + case_bool_decide as Hne; split; [done|intros [_ Hp]; by destruct Hne; apply Hp|..].
      * intros _. split; [by exists s|]. by intros q [= <-].
      * done.
    + split; [|done]. intros _. by split; [exists s|].
  - split; [done|]. by intros [(s' & Hs' & _) _].
Qed.
End rotation.

(** ** A bundle *)

Module SampleBundle.

(** Stand-ins for the crates: the number a byte string spells as its digest, a
    signature that is the message's digest twice, no compression, and one value
    of each serialized type. *)
Definition hash (bs : bytes) : bytes := to_le_bytes 32 (from_le_bytes bs mod 2 ^ 255).
#[local] Instance ed25519 : Ed25519 :=
  {| VerifyingKey := bytes; key_eq_dec := _; key_from_bytes bs := Ok bs; Signature := bytes;
     signature_from_slice bs := Ok bs;
     key_verify key m sig := if bool_decide (sig = hash m ++ hash m) then Ok tt else Err "bad"%string |}.
#[local] Instance zstd : Zstd :=
  {| find_frame_compressed_size _ := Err "no"%string; get_frame_content_size _ := Err "no"%string;
     get_dict_id_from_frame _ := None; decompress _ _ := Err "no"%string |}.
#[local] Instance semver : Semver :=
  {| Version := str; version_parse s := Ok s; version_to_string s := s |}.

Definition as_text {T} (name : string) (x : T) : Serde T :=
  {| to_value _ := Ok (Value.Text (text name));
     from_slice bs := if utf8_valid bs then Ok x
                      else Err (error_new ErrorCode.CanonicalCbor "other value") |}.

Definition key : bytes := replicate 32 x07.
Definition block : bytes := text "hi".
Definition tree_entries : list FileEntry :=
  [{| Paths.path := lit "main"; file_type := FileType.Regular; mode := Some 1; size := Some 2;
      file_digest := Some (hash block); block_refs := Some [(hash block, 2)]; target := None |}].
#[local] Instance entries_serde : Serde (list FileEntry) := as_text "T" tree_entries.
Definition root : Digest :=
  match compute_tree_root hash tree_entries with Ok d => d | Err _ => [] end.
Definition sample_envelope : Envelope :=
  {| envelope_schema := 1; profile := PROFILE; bundle_kind := BundleKind.Application;
     bundle_id := lit "org.example.app"; version := lit "1.0.0"; release := 1; channel := lit "dev";
     publisher := {| publisher_algorithm := 1; public_key := key;
                     publisher_key_id := compute_key_id hash key; publisher_name := None |};
     variants := [{| variant_target := lit "kindlehf"; os := lit "linux"; arch := lit "arm";
                     abi := lit "hf"; firmware_min := Some [5; 16; 3]; firmware_max_exclusive := None;
                     required_features := []; optional_features := []; variant_tree := root;
                     entrypoints := [(lit "main", lit "main")] |}];
     trees := [{| tree_root := root; entries := tree_entries |}];
     blocks := [{| block_digest := hash block; raw_size := 2; codec := 0; stored_size := 2;
                   stored_digest := hash block; block_offset := 0 |}];
     permissions := {| requested := []; optional := [] |}; process := None;
     data := {| policy := DataPolicyKind.Preserve; data_schema := 1; quota_bytes := None |};
     dependencies := []; migrations := []; signature_policy := default_signature_policy;
     rotation := []; annotations := None |}.
#[local] Instance envelope_serde : Serde Envelope := as_text "E" sample_envelope.

Definition envelope_bytes : bytes := Eval vm_compute in
  match encode_value (Value.Text (text "E")) with Ok bs => bs | Err _ => [] end.
Definition sample_header : Header :=
  {| envelope_length := 2; signature_offset := 136; signature_length := 2; payload_offset := 144;
     payload_length := 8; bundle_root := hash envelope_bytes |}.
Definition sample_signatures : list SignatureEntry :=
  [{| role := 1; signature_algorithm := 1; signature_key_id := compute_key_id hash key;
      signature := let d := hash (signature_input (hash envelope_bytes)) in d ++ d |}].
#[local] Instance signatures_serde : Serde (list SignatureEntry) := as_text "S" sample_signatures.
#[local] Instance proofs_serde : Serde RotationProofSignedData :=
  {| to_value _ := Ok (Value.Text []); from_slice _ := Err (error_new ErrorCode.CanonicalCbor "none") |}.

Definition sample_file : bytes := Eval vm_compute in
  match BundleHeader.encode WireFrame.crc32c sample_header with Ok bs => bs | Err _ => [] end ++
  envelope_bytes ++ replicate 6 x00 ++ [x61; x53] ++ replicate 6 x00 ++ block ++ replicate 6 x00.
Definition sample_options : VerifyOptions :=
  {| expected_publisher := Some key; option_target := Some (lit "kindlehf");
     firmware := Some (text "5.17.1") |}.
Definition sample_inspection : Inspection :=
  {| inspected_header := sample_header; envelope := sample_envelope;
     signatures := sample_signatures; file_length := 152 |}.
Definition unchanged (s : str) : str := s.

Lemma sample_typed bs e :
  from_canonical_slice (T := Envelope) to_value from_slice bs = Ok e → envelope_ok e.
Proof.
  unfold from_canonical_slice. intros He. apply result_bind_ok in He as (n & _ & He).
  apply result_bind_ok in He as ([] & _ & He). apply result_bind_ok in He as (x & Hx & He).
  apply result_bind_ok in He as (c & _ & He). destruct (bool_decide _); [done|]. injection He as <-.
  cbn [from_slice envelope_serde as_text] in Hx. destruct (utf8_valid _); [|done]. injection Hx as <-.
  repeat constructor; cbn; unfold u64_max; lia.
Qed.
Lemma sample_verified :
  verify hash WireFrame.crc32c unchanged sample_file sample_options = Ok sample_inspection.
Proof. vm_compute. reflexivity. Qed.

Lemma verify_never_panics_witness :
  verify hash WireFrame.crc32c unchanged sample_file sample_options ≠ Err Panic.
Proof.
  exact (verify_never_panics hash WireFrame.crc32c unchanged sample_file sample_options sample_typed).
Defined.

Lemma verified_file_is_determined_witness : sample_file = sample_file ∨ collision hash.
Proof.
  exact (verified_file_is_determined hash WireFrame.crc32c unchanged sample_file sample_file
    sample_options sample_options sample_inspection sample_inspection sample_typed sample_verified
    sample_verified eq_refl eq_refl).
Defined.

Lemma verified_bundle_is_authentic_witness :
  signed_by_publisher sample_inspection (Some key).
Proof.
  refine (proj1 (verified_bundle_is_authentic hash WireFrame.crc32c unchanged sample_file
    sample_options sample_inspection sample_typed _ sample_verified)).
  intros stored n raw Hn. done.
Defined.

End SampleBundle.
