(* ===== verification/Builder.v ===== *)
(** * Building bundles: src/crates/kindlebridge-bundle/src/builder.rs

    [BundleBuilder] collects files and writes them as one signed bundle file: files are cut
    into blocks that are stored once each, the envelope describes them, and the header, the
    envelope, the signature and the payload follow each other at aligned offsets.  At the end
    the builder verifies what it wrote.  BuiltBundles.v shows that this check succeeds. *)

From S2P Require Import Prelude Text BundleError Paths BundleHeader Cbor BundleModel Verify.

Module CompressionPolicy.

Inductive CompressionPolicy : Type := Never | ZstdWhenSmaller.

End CompressionPolicy.
Abbreviation CompressionPolicy := CompressionPolicy.CompressionPolicy.

Record BuildConfig : Type := {
  config_kind : BundleKind;
  config_id : str;
  config_version : str;
  config_release : Z;
  config_channel : str;
  config_target : str;
  config_os : str;
  config_arch : str;
  config_abi : str;
  config_firmware_min : option (list Z);
  config_firmware_max : option (list Z);
  config_required : list str;
  config_optional : list str;
  config_entrypoints : list (str * str);
  config_permissions : Permissions;
  config_process : option ProcessPolicy;
  config_data : DataPolicy;
  config_annotations : option (list (str * str));
  config_publisher : option str;
  compression : CompressionPolicy;
}.

(** [BuildConfig::new]. *)
Definition config_new (kind : BundleKind) (id version : str) (release : Z) (target : str) : BuildConfig :=
  {| config_kind := kind; config_id := id; config_version := version; config_release := release;
     config_channel := lit "dev"; config_target := target; config_os := lit "linux"; config_arch := lit "arm";
     config_abi := lit "gnueabihf"; config_firmware_min := None; config_firmware_max := None;
     config_required := []; config_optional := []; config_entrypoints := [];
     config_permissions := {| requested := []; optional := [] |}; config_process := None;
     config_data := {| policy := DataPolicyKind.Preserve; data_schema := 1; quota_bytes := None |};
     config_annotations := None; config_publisher := None; compression := CompressionPolicy.ZstdWhenSmaller |}.

Module InputEntry.

Inductive InputEntry : Type :=
| Directory
| Regular (contents : bytes) (executable : bool)
| Symlink (target : str).

End InputEntry.
Abbreviation InputEntry := InputEntry.InputEntry.

Record StoredBlock : Type := {
  block_raw : bytes;
  block_stored : bytes;
  block_codec : Z;
}.

Record BundleBuilder : Type := {
  config : BuildConfig;
  inputs : gmap str InputEntry;
}.
Definition set_inputs (m : gmap str InputEntry) (b : BundleBuilder) : BundleBuilder :=
  {| config := config b; inputs := m |}.
Definition builder_new (c : BuildConfig) : BundleBuilder := {| config := c; inputs := ∅ |}.

(** The entries of a [BTreeMap], in the order of the keys. *)
Fixpoint insert_sorted {K A} (lt : K → K → bool) (x : K * A) (l : list (K * A)) : list (K * A) :=
  match l with
  | [] => [x]
  | y :: l => if lt y.1 x.1 then y :: insert_sorted lt x l else x :: y :: l
  end.
Definition in_order {K A} (lt : K → K → bool) (l : list (K * A)) : list (K * A) :=
  foldr (insert_sorted lt) [] l.

(** [slice::chunks]. *)
Fixpoint chunks_of (fuel n : nat) (bs : bytes) : list bytes :=
  match fuel, bs with
  | S fuel, _ :: _ => take n bs :: chunks_of fuel n (drop n bs)
  | _, _ => []
  end.
Definition file_chunks (bs : bytes) : list bytes := chunks_of (length bs) (Z.to_nat BLOCK_SIZE) bs.

(** [u64::try_from] of a length. *)
Definition u64_len (m : string) (n : Z) : outcome Z :=
  if n <=? u64_max then Ok n else raise ErrorCode.Bounds m.

(** [BTreeSet::from_iter]. *)
Fixpoint insert_unique (s : str) (l : list str) : list str :=
  match l with
  | [] => [s]
  | x :: l => if bool_decide (s = x) then x :: l else if str_lt s x then s :: x :: l else x :: insert_unique s l
  end.
Definition sorted_unique (values : list str) : outcome (list str) :=
  let set := foldr insert_unique [] values in
  if negb (len set =? len values) then raise ErrorCode.Schema "array contains duplicate values" else Ok set.

(** [FileEntry::directory]. *)
Definition directory_entry (p : str) : FileEntry :=
  {| Paths.path := p; file_type := FileType.Directory; mode := Some 0; size := None; file_digest := None;
     block_refs := None; target := None |}.

(** ** The methods *)

Section inputs.
Context (nfc : str → str).

Abbreviation builder_op A := (M BundleBuilder BundleError A).

Fixpoint ensure_parents_of (parent : str) (components : list str) : builder_op unit :=
  match components with
  | [] => mret tt
  | component :: components =>
      let parent := (if bool_decide (parent = []) then [] else parent ++ [SLASH]) ++ component in
      let! b := mget in
      do! (match inputs b !! parent with
           | Some InputEntry.Directory => mret tt
           | Some _ => mlift (path_error "a parent path is already a non-directory entry")
           | None => mmodify (set_inputs (<[parent := InputEntry.Directory]> (inputs b)))
           end) in
      ensure_parents_of parent components
  end.
Definition ensure_parents (p : str) : builder_op unit :=
  let components := split SLASH p in ensure_parents_of [] (take (length components - 1) components).

(** [insert] replaces the entry before it complains. *)
Definition insert_input (p : str) (entry : InputEntry) : builder_op unit :=
  let! b := mget in
  do! mmodify (set_inputs (<[p := entry]> (inputs b))) in
  match inputs b !! p with
  | Some _ => mlift (path_error ("duplicate builder path " +:+ show_str p))
  | None => mret tt
  end.

Definition add_directory (p : str) : builder_op unit :=
  do! mlift (validate_bundle_path nfc p) in
  do! ensure_parents p in
  insert_input p InputEntry.Directory.
Definition add_file (p : str) (contents : bytes) (executable : bool) : builder_op unit :=
  do! mlift (validate_bundle_path nfc p) in
  do! ensure_parents p in
  insert_input p (InputEntry.Regular contents executable).
Definition add_symlink (p target : str) : builder_op unit :=
  do! mlift (validate_bundle_path nfc p) in
  do! mlift (validate_symlink_target nfc target) in
  do! ensure_parents p in
  insert_input p (InputEntry.Symlink target).
End inputs.

(** ** Writing *)

(** [Vec::resize] to an offset. *)
Definition pad_to_offset `{PointerWidth} (bs : bytes) (offset : Z) : outcome bytes :=
  if offset >? usize_max then raise ErrorCode.Bounds "offset exceeds host usize" else
  if offset <? len bs then raise ErrorCode.Bounds "padding target precedes current data" else
  Ok (bs ++ replicate (Z.to_nat (offset - len bs)) x00).
Definition pad_to_8 `{PointerWidth} (bs : bytes) : outcome bytes :=
  let? n := u64_len "buffer exceeds uint64" (len bs) in
  let? target := attempt (align8 n) in
  pad_to_offset bs target.

(** The keys of ed25519_dalek that sign, and the compression of zstd. *)
Class Signer `{Ed25519} := {
  SigningKey : Type;
  verifying_key : SigningKey → VerifyingKey;
  key_to_bytes : VerifyingKey → bytes;
  sign : SigningKey → bytes → bytes;
}.
Class Compressor := { compress : bytes → result string bytes }.

Section build.
Context `{PointerWidth, Ed25519, !Signer, Zstd, Compressor, Semver}.
Context `{Serde Envelope, Serde (list SignatureEntry), Serde (list FileEntry), Serde RotationProofSignedData}.
Context (blake3 : bytes → bytes) (crc32c : bytes → Z) (nfc : str → str).

Definition store_block (c : BuildConfig) (raw : bytes) : outcome StoredBlock :=
  let plain := {| block_raw := raw; block_stored := raw; block_codec := 0 |} in
  match compression c with
  | CompressionPolicy.ZstdWhenSmaller =>
      let? compressed := context (compress raw) ErrorCode.Block "zstd-1 compression failed" in
      Ok (if saturating_mul usize_max (len compressed) 100 <=? saturating_mul usize_max (len raw) 95
          then {| block_raw := raw; block_stored := compressed; block_codec := 1 |} else plain)
  | CompressionPolicy.Never => Ok plain
  end.

Abbreviation block_map := (gmap (Digest * Z) StoredBlock).

(** The blocks of one file. *)
Fixpoint add_blocks (c : BuildConfig) (blocks : block_map) (l : list bytes) :
    outcome (block_map * list (Digest * Z)) :=
  match l with
  | [] => Ok (blocks, [])
  | raw :: l =>
      let? raw_size := u64_len "block length exceeds uint64" (len raw) in
      let key := (blake3 raw, raw_size) in
      let? blocks := (match blocks !! key with
                      | Some existing =>
                          if bool_decide (block_raw existing ≠ raw)
                          then block_error "BLAKE3 collision for unequal block content" else Ok blocks
                      | None => let? block := store_block c raw in Ok (<[key := block]> blocks)
                      end) in
      let? rest := add_blocks c blocks l in
      Ok (rest.1, key :: rest.2)
  end.

(** The entries of the tree. *)
Fixpoint collect (c : BuildConfig) (blocks : block_map) (l : list (str * InputEntry)) :
    outcome (block_map * list FileEntry) :=
  match l with
  | [] => Ok (blocks, [])
  | (p, entry) :: l =>
      let? r := (match entry with
                 | InputEntry.Directory => Ok (blocks, directory_entry p)
                 | InputEntry.Symlink to =>
                     Ok (blocks, {| Paths.path := p; file_type := FileType.SymlinkRelative; mode := None;
                                    size := None; file_digest := None; block_refs := None; target := Some to |})
                 | InputEntry.Regular contents executable =>
                     let? added := add_blocks c blocks (file_chunks contents) in
                     let? n := u64_len "file length exceeds uint64" (len contents) in
                     Ok (added.1, {| Paths.path := p; file_type := FileType.Regular;
                                     mode := Some (if executable : bool then 1 else 0); size := Some n;
                                     file_digest := Some (blake3 contents); block_refs := Some added.2;
                                     target := None |})
                 end) in
      let? rest := collect c r.1 l in
      Ok (rest.1, r.2 :: rest.2)
  end.

(** The payload, and where each block lies in it. *)
Fixpoint lay_out (payload : bytes) (l : list ((Digest * Z) * StoredBlock)) :
    outcome (bytes * list BlockDescriptor) :=
  match l with
  | [] => Ok (payload, [])
  | (key, block) :: l =>
      let? payload := pad_to_8 payload in
      let? offset := u64_len "payload exceeds uint64" (len payload) in
      let? stored := u64_len "stored block exceeds uint64" (len (block_stored block)) in
      let d := {| block_digest := key.1; raw_size := key.2; codec := block_codec block; stored_size := stored;
                  stored_digest := blake3 (block_stored block); block_offset := offset |} in
      let? rest := lay_out (payload ++ block_stored block) l in
      Ok (rest.1, d :: rest.2)
  end.

Definition key_bytes (key : SigningKey) : bytes := key_to_bytes (verifying_key key).

Definition make_envelope (c : BuildConfig) (key : SigningKey) (root : Digest) (tree : list FileEntry)
    (descriptors : list BlockDescriptor) : outcome Envelope :=
  let? required := sorted_unique (config_required c) in
  let? optional_ := sorted_unique (config_optional c) in
  let? requested_ := sorted_unique (requested (config_permissions c)) in
  let? optional_permissions := sorted_unique (optional (config_permissions c)) in
  Ok {| envelope_schema := 1; profile := PROFILE; bundle_kind := config_kind c; bundle_id := config_id c;
        version := config_version c; release := config_release c; channel := config_channel c;
        publisher := {| publisher_algorithm := 1; public_key := key_bytes key;
                        publisher_key_id := compute_key_id blake3 (key_bytes key);
                        publisher_name := config_publisher c |};
        variants := [{| variant_target := config_target c; os := config_os c; arch := config_arch c;
                        abi := config_abi c; firmware_min := config_firmware_min c;
                        firmware_max_exclusive := config_firmware_max c; required_features := required;
                        optional_features := optional_; variant_tree := root;
                        entrypoints := config_entrypoints c |}];
        trees := [{| tree_root := root; entries := tree |}]; blocks := descriptors;
        permissions := {| requested := requested_; optional := optional_permissions |};
        process := config_process c; data := config_data c; dependencies := []; migrations := [];
        signature_policy := default_signature_policy; rotation := []; annotations := config_annotations c |}.

(** The envelope of a builder, and the payload. *)
Definition describe (b : BundleBuilder) (key : SigningKey) : outcome (Envelope * bytes) :=
  let? collected := collect (config b) ∅ (in_order str_lt (map_to_list (inputs b))) in
  let? root := attempt (compute_tree_root blake3 collected.2) in
  let? laid := lay_out [] (in_order key_lt (map_to_list collected.1)) in
  let? payload := pad_to_8 laid.1 in
  let? e := make_envelope (config b) key root collected.2 laid.2 in
  Ok (e, payload).

Definition signature_entries (key : SigningKey) (root : Digest) : list SignatureEntry :=
  [{| role := 1; signature_algorithm := 1; signature_key_id := compute_key_id blake3 (key_bytes key);
      signature := sign key (signature_input root) |}].

(** The sections one after the other. *)
Definition seal (key : SigningKey) (e : Envelope) (payload : bytes) : outcome bytes :=
  let? envelope_bytes := attempt (to_canonical_vec to_value e) in
  let root := blake3 envelope_bytes in
  let? signature_bytes := attempt (to_canonical_vec to_value (signature_entries key root)) in
  let? envelope_length := u64_len "envelope exceeds uint64" (len envelope_bytes) in
  let? envelope_end := plus (Z.of_nat HEADER_SIZE) envelope_length in
  let? signature_offset := attempt (align8 envelope_end) in
  let? signature_length := u64_len "signature section exceeds uint64" (len signature_bytes) in
  let? signature_end := plus signature_offset signature_length in
  let? payload_offset := attempt (align8 signature_end) in
  let? payload_length := u64_len "payload exceeds uint64" (len payload) in
  let h := {| envelope_length := envelope_length; signature_offset := signature_offset;
              signature_length := signature_length; payload_offset := payload_offset;
              payload_length := payload_length; bundle_root := root |} in
  check? (if (payload_offset >? usize_max) || bool_decide (checked_add usize_max payload_offset (len payload) = None)
          then raise ErrorCode.Bounds "bundle exceeds host usize" else Ok tt) in
  let? header := attempt (BundleHeader.encode crc32c h) in
  let? output := pad_to_offset (header ++ envelope_bytes) signature_offset in
  let? output := pad_to_offset (output ++ signature_bytes) payload_offset in
  Ok (output ++ payload).

Definition build_options (b : BundleBuilder) (key : SigningKey) : VerifyOptions :=
  {| expected_publisher := Some (verifying_key key); option_target := Some (config_target (config b));
     firmware := None |}.
Definition build (b : BundleBuilder) (key : SigningKey) : outcome bytes :=
  let? described := describe b key in
  let? output := seal key described.1 described.2 in
  let? _ := verify blake3 crc32c nfc output (build_options b key) in
  Ok output.
End build.
