(* ===== verification/BuiltBundles.v ===== *)
(** * What is built is verified, and holds the files

    The bundle that [build] (Builder.v) writes passes [verify] (Verify.v), so that the check
    at the end of [build] is never the reason to fail, and the files read from it are those
    that were given to the builder. *)

From S2P Require Import Prelude Text BundleError Paths BundleHeader Cbor BundleModel Verify Authenticity Builder.
From S2P Require WireFrame.

(** ** The order of the maps *)

Section order.
Context {K A : Type} (lt : K → K → bool).
Hypothesis lt_total : ∀ a b, a ≠ b → lt a b = false → lt b a = true.
Implicit Types (x : K * A) (l : list (K * A)).

Definition precedes (o : option K) (k : K) : Prop := match o with Some p => lt p k = true | None => True end.
Fixpoint ordered (o : option K) l : Prop :=
  match l with
  | [] => True
  | x :: l => precedes o x.1 ∧ ordered (Some x.1) l
  end.

Lemma insert_sorted_perm x l : insert_sorted lt x l ≡ₚ x :: l.
Proof.
  induction l as [|y l IH]; [done|]. cbn [insert_sorted]. destruct (lt y.1 x.1); [|done].
  rewrite IH. apply Permutation_swap.
Qed.
Lemma in_order_perm l : in_order lt l ≡ₚ l.
Proof. induction l as [|x l IH]; [done|]. cbn. by rewrite insert_sorted_perm, IH. Qed.

Lemma insert_sorted_ordered o x l :
  ordered o l → precedes o x.1 → x.1 ∉ l.*1 → ordered o (insert_sorted lt x l).
Proof.
  revert o. induction l as [|y l IH]; intros o Hl Ho Hx; [done|]. cbn [insert_sorted]. destruct Hl as [Hy Hl].
  rewrite fmap_cons, not_elem_of_cons in Hx. destruct Hx as [Hne Hx].
  destruct (lt y.1 x.1) eqn:Hlt; [split; [done|by apply IH]|].
  split; [done|]. split; [|done]. by apply lt_total.
Qed.
Lemma in_order_ordered l : NoDup l.*1 → ordered None (in_order lt l).
Proof.
  induction l as [|x l IH]; [done|]. rewrite fmap_cons. intros [Hx Hl]%NoDup_cons.
  change (in_order lt (x :: l)) with (insert_sorted lt x (in_order lt l)).
  apply insert_sorted_ordered; [by apply IH|done|]. by rewrite in_order_perm.
Qed.
End order.

Lemma bytes_le_total a b : bytes_le a b = false → bytes_le b a = true.
Proof.
  revert b. induction a as [|x a IH]; intros [|y b]; [done..|]. cbn. intros H.
  apply orb_false_iff in H as [H1 H2]. apply andb_false_iff in H2 as [H2|H2]; [lia|]. rewrite (IH _ H2). lia.
Qed.
Lemma key_lt_total a b : a ≠ b → key_lt a b = false → key_lt b a = true.
Proof.
  destruct a as [d n], b as [d' n']. unfold key_lt. cbn [fst snd]. intros Hne.
  case_bool_decide as Hd; [subst d'; rewrite bool_decide_eq_true_2 by done; intros; assert (n ≠ n') by congruence; lia|].
  rewrite bool_decide_eq_false_2 by done. apply bytes_le_total.
Qed.

(** ** Spans of concatenations *)

Lemma span_mid a b c : span (a ++ b ++ c) (len a) (len a + len b) = b.
Proof.
  unfold span, len. rewrite slice_app_r, slice_app_l by lia. unfold slice.
  replace (Z.to_nat (Z.of_nat (length a)) - length a)%nat with 0%nat by lia. rewrite drop_0. apply take_ge. lia.
Qed.
Lemma span_shift a f lo hi : 0 ≤ lo ≤ hi → span (a ++ f) (len a + lo) (len a + hi) = span f lo hi.
Proof.
  intros Hlo. unfold span, len. rewrite slice_app_r by lia. f_equal; lia.
Qed.
Lemma span_prefix f g lo hi : f `prefix_of` g → hi ≤ len f → span g lo hi = span f lo hi.
Proof. intros [k ->] Hhi. unfold span, len in *. apply slice_app_l. lia. Qed.

(** ** Chunks *)

Definition chunk_ok (raw : bytes) : Prop := 0 < len raw ≤ BLOCK_SIZE.

Lemma chunks_concat fuel n bs : (0 < n)%nat → (length bs ≤ fuel)%nat → concat (chunks_of fuel n bs) = bs.
Proof.
  intros Hn. revert bs. induction fuel as [|fuel IH]; intros [|b bs] Hl; [done|cbn in Hl; lia|done|].
  cbn [chunks_of concat]. rewrite IH; [apply take_drop|]. rewrite length_drop. cbn [length] in *. lia.
Qed.
Lemma file_chunks_concat bs : concat (file_chunks bs) = bs.
Proof. apply chunks_concat; [unfold BLOCK_SIZE|]; lia. Qed.
Lemma chunks_sized fuel n bs : (0 < n)%nat → Forall (λ raw, 0 < len raw ≤ Z.of_nat n) (chunks_of fuel n bs).
Proof.
  intros Hn. revert bs. induction fuel as [|fuel IH]; intros [|b bs]; [constructor..|]. cbn [chunks_of].
  constructor; [|apply IH]. unfold len. rewrite length_take. cbn [length]. lia.
Qed.
Lemma file_chunks_ok bs : Forall chunk_ok (file_chunks bs).
Proof.
  eapply Forall_impl; [apply chunks_sized; unfold BLOCK_SIZE; lia|]. intros raw. unfold chunk_ok. by rewrite Z2Nat.id.
Qed.

(** ** What is relied on *)

(** A signature of a key is accepted by it, and the keys and signatures have their sizes. *)
Class SignerLaws `{Signer} : Prop := {
  key_bytes_length : ∀ k, len (key_bytes k) = 32;
  key_bytes_decode : ∀ k, key_from_bytes (key_bytes k) = Ok (verifying_key k);
  signature_length_64 : ∀ k m, len (sign k m) = 64;
  signature_accepted : ∀ k m, ∃ s,
    signature_from_slice (sign k m) = Ok s ∧ key_verify (verifying_key k) m s = Ok tt;
}.
(** A compressed block is one frame that states its size and decompresses to the block. *)
Class CompressorLaws `{Zstd, Compressor} : Prop := {
  compressed_frame : ∀ raw c, compress raw = Ok c →
    0 < len c ∧ find_frame_compressed_size c = Ok (len c) ∧ get_frame_content_size c = Ok (Some (len raw)) ∧
    get_dict_id_from_frame c = None ∧ decompress c (len raw) = Ok raw;
}.

Section built.
Context `{PointerWidth, Ed25519, !Signer, Zstd, Compressor, Semver}.
Context `{Serde Envelope, Serde (list SignatureEntry), Serde (list FileEntry), Serde RotationProofSignedData}.
Context (blake3 : bytes → bytes) (crc32c : bytes → Z) (nfc : str → str).
Implicit Types (bm : gmap (Digest * Z) StoredBlock) (c : BuildConfig).

(** ** The blocks that were collected *)

(** A block under its key, stored as it is or compressed to less. *)
Record block_ok (k : Digest * Z) (b : StoredBlock) : Prop := {
  block_key_of : k = (blake3 (block_raw b), len (block_raw b));
  block_sized : chunk_ok (block_raw b);
  block_form : (block_codec b = 0 ∧ block_stored b = block_raw b) ∨
               (block_codec b = 1 ∧ compress (block_raw b) = Ok (block_stored b) ∧
                len (block_stored b) < len (block_raw b));
}.
Definition blocks_ok bm : Prop := ∀ k b, bm !! k = Some b → block_ok k b.
(** The block under a key holds a chunk. *)
Definition holds bm (raw : bytes) (k : Digest * Z) : Prop := ∃ b, bm !! k = Some b ∧ block_raw b = raw.

Lemma holds_mono bm bm' raw k : bm ⊆ bm' → holds bm raw k → holds bm' raw k.
Proof. intros Hsub (b & Hb & Hraw). exists b. split; [by eapply lookup_weaken|done]. Qed.

Lemma store_block_ok c raw b :
  chunk_ok raw → store_block c raw = Ok b → block_raw b = raw ∧ block_ok (blake3 raw, len raw) b.
Proof.
  unfold store_block, chunk_ok, BLOCK_SIZE. intros Hraw Hb.
  destruct (compression c); [injection Hb as <-; split; [done|split; [done|done|by left]]|].
  apply result_bind_ok in Hb as (z & Hz%map_err_ok & Hb). injection Hb as <-. pose proof usize_max_lb.
  destruct (_ <=? _) eqn:Hle; (split; [done|split; [done|done|]]); [right|by left].
  split; [done|]. split; [done|]. cbn. apply Z.leb_le in Hle. unfold saturating_mul, u32_max in *. lia.
Qed.

Lemma add_blocks_ok c bm l bm' refs :
  add_blocks blake3 c bm l = Ok (bm', refs) → Forall chunk_ok l → blocks_ok bm →
  blocks_ok bm' ∧ bm ⊆ bm' ∧ (∀ k, k ∈ dom bm' ↔ k ∈ dom bm ∨ k ∈ refs) ∧ Forall2 (holds bm') l refs.
Proof.
  revert bm bm' refs. induction l as [|raw l IH]; intros bm bm' refs Ha Hl Hbm; cbn [add_blocks] in Ha.
  { injection Ha as <- <-. split_and!; [done|done|set_solver|constructor]. }
  apply Forall_cons in Hl as [Hraw Hl]. unfold u64_len, block_error, raise in Ha.
  destruct (len raw <=? u64_max); [|done]. cbn [result_bind] in Ha.
  apply result_bind_ok in Ha as (bm1 & Hb1 & Ha). apply result_bind_ok in Ha as ([bm2 refs'] & Hrest & Ha).
  injection Ha as <- <-. cbn [fst snd]. set (k := (blake3 raw, len raw)) in *.
  assert (Hstep : blocks_ok bm1 ∧ bm ⊆ bm1 ∧ dom bm1 = {[k]} ∪ dom bm ∧ holds bm1 raw k).
  { destruct (bm !! k) as [b|] eqn:Hk.
    - destruct (decide (block_raw b = raw)) as [Hraw'|Hne]; [|by rewrite bool_decide_eq_true_2 in Hb1].
      rewrite bool_decide_eq_false_2 in Hb1 by naive_solver. injection Hb1 as <-.
      split_and!; [done|done| |by exists b].
      assert (k ∈ dom bm) by (apply elem_of_dom; eauto). set_solver.
    - apply result_bind_ok in Hb1 as (b & Hb & Hb1). injection Hb1 as <-.
      destruct (store_block_ok c raw b Hraw Hb) as [Hr Hok]. split_and!.
      + intros k' b' [[<- <-]|[_ Hb']]%lookup_insert_Some; [done|by apply Hbm].
      + by apply insert_subseteq.
      + by rewrite dom_insert_L.
      + exists b. by rewrite lookup_insert_eq. }
  destruct Hstep as (Hok1 & Hsub1 & Hdom1 & Hk). destruct (IH bm1 bm2 refs' Hrest Hl Hok1) as (Hok2 & Hsub2 & Hdom2 & Hall).
  split_and!; [done|by etrans| |].
  - intros k'. rewrite Hdom2, Hdom1, elem_of_cons. set_solver.
  - constructor; [by eapply holds_mono|done].
Qed.

(** ** The entries of the tree *)

Definition entry_for bm (x : str * InputEntry) (e : FileEntry) : Prop :=
  Paths.path e = x.1 ∧
  match x.2 with
  | InputEntry.Directory => file_type e = FileType.Directory ∧ block_refs e = None
  | InputEntry.Symlink to => file_type e = FileType.SymlinkRelative ∧ block_refs e = None ∧ target e = Some to
  | InputEntry.Regular contents executable =>
      file_type e = FileType.Regular ∧ mode e = Some (if executable then 1 else 0) ∧
      file_digest e = Some (blake3 contents) ∧
      ∃ refs, block_refs e = Some refs ∧ Forall2 (holds bm) (file_chunks contents) refs
  end.
Lemma entry_for_mono bm bm' x e : bm ⊆ bm' → entry_for bm x e → entry_for bm' x e.
Proof.
  intros Hsub [Hp He]. split; [done|]. destruct x.2; [done| |done].
  destruct He as (? & ? & ? & refs & Hrefs & Hall). split_and!; [done..|]. exists refs. split; [done|].
  eapply Forall2_impl; [exact Hall|]. intros raw k. by apply holds_mono.
Qed.

Lemma collect_ok c bm l bm' es :
  collect blake3 c bm l = Ok (bm', es) → blocks_ok bm →
  blocks_ok bm' ∧ bm ⊆ bm' ∧ dom bm' = dom bm ∪ referenced_blocks es ∧ Forall2 (entry_for bm') l es.
Proof.
  revert bm bm' es. induction l as [|[p x] l IH]; intros bm bm' es Hc Hbm; cbn [collect] in Hc.
  { injection Hc as <- <-. split_and!; [done|done|set_solver|constructor]. }
  apply result_bind_ok in Hc as ([bm1 e] & Hx & Hc). apply result_bind_ok in Hc as ([bm2 es'] & Hrest & Hc).
  injection Hc as <- <-. cbn [fst snd] in *.
  assert (Hstep : blocks_ok bm1 ∧ bm ⊆ bm1 ∧ dom bm1 = dom bm ∪ default ∅ (list_to_set <$> block_refs e) ∧ entry_for bm1 (p, x) e).
  { destruct x as [|contents executable|to].
    - injection Hx as <- <-. split_and!; [done|done|set_solver|done].
    - apply result_bind_ok in Hx as ([bm3 refs] & Ha & Hx). apply result_bind_ok in Hx as (n & _ & Hx).
      injection Hx as <- <-. cbn [fst snd].
      destruct (add_blocks_ok c bm _ bm3 refs Ha (file_chunks_ok contents) Hbm) as (Hok & Hsub & Hdom & Hall).
      split_and!; [done|done| |split; [done|]; split_and!; [done..|by exists refs]].
      apply set_eq. intros k. cbn. rewrite Hdom, elem_of_union, elem_of_list_to_set. done.
    - injection Hx as <- <-. split_and!; [done|done|set_solver|done]. }
  destruct Hstep as (Hok1 & Hsub1 & Hdom1 & He). destruct (IH bm1 bm2 es' Hrest Hok1) as (Hok2 & Hsub2 & Hdom2 & Hall).
  split_and!; [done|by etrans| |constructor; [by eapply entry_for_mono|done]].
  rewrite Hdom2, Hdom1. cbn. destruct (block_refs e); set_solver.
Qed.

(** ** The payload *)

Definition zeros (n : Z) : bytes := replicate (Z.to_nat n) x00.
Lemma len_zeros n : 0 ≤ n → len (zeros n) = n.
Proof. intros. unfold zeros, len. rewrite length_replicate. lia. Qed.

(** The descriptor of a block. *)
Record describes (k : Digest * Z) (b : StoredBlock) (d : BlockDescriptor) : Prop := {
  described_key : block_key d = k;
  described_codec : codec d = block_codec b;
  described_size : stored_size d = len (block_stored b);
  described_digest : stored_digest d = blake3 (block_stored b);
}.
(** The blocks lie in [f] from [a] to [z], each behind the least padding. *)
Inductive laid (f : bytes) : Z → list ((Digest * Z) * StoredBlock) → list BlockDescriptor → Z → Prop :=
| laid_nil a : laid f a [] [] a
| laid_cons a k b d l ds z :
    describes k b d → align8 a = Ok (block_offset d) →
    span f a (block_offset d) = zeros (block_offset d - a) →
    span f (block_offset d) (block_offset d + stored_size d) = block_stored b →
    laid f (block_offset d + stored_size d) l ds z → laid f a ((k, b) :: l) (d :: ds) z.

Lemma pad_to_8_ok bs bs' :
  pad_to_8 bs = Ok bs' → ∃ a, align8 (len bs) = Ok a ∧ len bs ≤ a ∧ bs' = bs ++ zeros (a - len bs) ∧ len bs' = a.
Proof.
  unfold pad_to_8, pad_to_offset, u64_len, raise. pose proof (len_nonneg bs).
  destruct (len bs <=? u64_max); [|done]. cbn [result_bind]. intros (a & Ha%map_err_ok & Hp)%result_bind_ok.
  destruct (a >? usize_max); [done|]. destruct (a <? len bs) eqn:Hlt; [done|]. injection Hp as <-.
  exists a. split_and!; [done|lia|done|]. rewrite len_app. fold (zeros (a - len bs)). rewrite len_zeros by lia. lia.
Qed.

Lemma lay_out_laid l payload payload' ds :
  lay_out blake3 payload l = Ok (payload', ds) →
  payload `prefix_of` payload' ∧ laid payload' (len payload) l ds (len payload').
Proof.
  revert payload ds. induction l as [|[k b] l IH]; intros payload ds Hl; cbn [lay_out] in Hl.
  { injection Hl as <- <-. split; [done|constructor]. }
  apply result_bind_ok in Hl as (p1 & (a & Ha & Hle & -> & Hlen)%pad_to_8_ok & Hl). unfold u64_len, raise in Hl.
  destruct (len (payload ++ _) <=? u64_max); [|done]. destruct (len (block_stored b) <=? u64_max); [|done].
  cbn [result_bind] in Hl. apply result_bind_ok in Hl as ([p2 ds'] & Hrest & Hl). injection Hl as <- <-.
  destruct (IH _ _ Hrest) as [Hpre Hlaid]. rewrite Hlen in *. rewrite len_app, Hlen in Hlaid.
  pose proof (len_nonneg payload). pose proof (len_nonneg (block_stored b)).
  split; [etrans; [|exact Hpre]; rewrite <-app_assoc; by eexists|].
  assert (Hb : len ((payload ++ zeros (a - len payload)) ++ block_stored b) = a + len (block_stored b)) by (rewrite len_app; lia).
  destruct k as [dg n]. eapply laid_cons with (d := {| block_offset := a |}); cbn; [by split|done| | |exact Hlaid].
  - rewrite (span_prefix _ _ _ _ Hpre), <-app_assoc by lia.
    pose proof (span_mid payload (zeros (a - len payload)) (block_stored b)) as Hm.
    rewrite len_zeros in Hm by lia. by rewrite Zplus_minus in Hm.
  - rewrite (span_prefix _ _ _ _ Hpre) by lia.
    pose proof (span_mid (payload ++ zeros (a - len payload)) (block_stored b) []) as Hm. by rewrite app_nil_r, Hlen in Hm.
Qed.

Lemma laid_bounds f a l ds z : laid f a l ds z → 0 ≤ a → a ≤ z.
Proof.
  induction 1 as [|a k b d l ds z [_ _ Hs _] Ha _ _ _ IH]; [done|]. intros Hpos.
  apply align8_ok in Ha as (Ha & _ & _); [|done]. pose proof (len_nonneg (block_stored b)). lia.
Qed.
Lemma laid_keys f a l ds z : laid f a l ds z → block_key <$> ds = l.*1.
Proof. induction 1 as [|a k b d l ds z [Hk _ _ _] _ _ _ _ IH]; [done|]. cbn. by rewrite Hk, IH. Qed.

(** The block table is accepted. *)
Lemma block_ok_sizes `{!CompressorLaws} k b :
  block_ok k b → 0 < len (block_stored b) ≤ BLOCK_SIZE.
Proof.
  intros [_ [Hpos Hmax] [[_ ->]|(_ & Hz & Hlt)]]; [done|]. apply compressed_frame in Hz as (? & _). lia.
Qed.
Lemma laid_check_blocks `{!CompressorLaws} f o a l ds z keys :
  laid f a l ds z → ordered key_lt o l → Forall (λ x, block_ok x.1 x.2) l → 0 ≤ a → z ≤ u64_max →
  check_blocks o a keys ds = Ok (z, list_to_set (block_key <$> ds) ∪ keys).
Proof.
  intros Hlaid. revert o keys. induction Hlaid as [a|a k b d l ds z [Hk Hcodec Hs Hdig] Ha _ _ Hlaid IH];
    intros o keys Hord Hok Hpos Hz; [cbn [check_blocks]; do 2 f_equal; set_solver|].
  destruct Hord as [Ho Hord]. apply Forall_cons in Hok as [Hb Hok]. cbn [fst snd] in *.
  pose proof (align8_ok _ _ Hpos Ha) as (Hge & _ & _). pose proof (block_ok_sizes k b Hb) as Hsize.
  pose proof (laid_bounds _ _ _ _ _ Hlaid ltac:(lia)) as Hend.
  destruct Hb as [Heq [Hraw Hmax] Hform]. rewrite <-Hk in *. injection Heq as Hd Hr.
  pose proof (IH (Some (block_key d)) ({[block_key d]} ∪ keys) Hord Hok ltac:(lia) Hz) as Hrest.
  cbn [check_blocks]. cbv zeta.
  replace (match o with Some _ => _ | None => _ end) with false by (destruct o as [q|]; [cbn in Ho; by rewrite Ho|done]).
  unfold within. rewrite Hs in *. rewrite Hcodec, Hdig, Hr.
  replace (negb _ || _ || _ || _) with false by (destruct Hform as [[-> _]|[-> _]]; cbn; lia).
  replace ((block_codec b =? 0) && _) with false
    by (destruct Hform as [[-> ->]|[-> _]]; cbn; [rewrite Z.eqb_refl, Hd, bool_decide_eq_false_2 by naive_solver; done|done]).
  replace ((block_codec b =? 1) && _) with false by (destruct Hform as [[-> ->]|(-> & _ & ?)]; cbn; lia).
  rewrite Ha. cbn [attempt map_err result_bind]. rewrite Z.eqb_refl. cbn [negb].
  unfold checked_add. replace (block_offset d + len (block_stored b) <=? u64_max) with true by lia.
  cbn [result_bind]. rewrite Hrest. do 2 f_equal. rewrite fmap_cons, list_to_set_cons. set_solver.
Qed.

(** ** Reading the file *)

Lemma read_exact_span f a n : 0 ≤ a → 0 ≤ n → a + n ≤ len f → read_exact f a n = Ok (span f a (a + n)).
Proof. intros Ha Hn Hl. unfold read_exact. by replace (a + n <=? len f) with true by lia; rewrite orb_true_r. Qed.
Lemma read_section_span f a n :
  0 ≤ a → 0 ≤ n ≤ usize_max → a + n ≤ len f → read_section f a n = Ok (span f a (a + n)).
Proof.
  intros Ha Hn Hl. unfold read_section. replace (n >? usize_max) with false by lia.
  unfold read_io. rewrite read_exact_span by lia. done.
Qed.
Lemma zeros_zero n : existsb (λ x, negb (is_zero x)) (zeros n) = false.
Proof. unfold zeros. by induction (Z.to_nat n). Qed.
Lemma zero_chunks_zeros n f a r :
  0 ≤ a → 0 ≤ r → a + r ≤ len f → span f a (a + r) = zeros r → zero_chunks f n a r = Ok tt.
Proof.
  revert a r. induction n as [|n IH]; intros a r Ha Hr Hl Hz; [done|]. cbn [zero_chunks].
  destruct (r =? 0) eqn:Hr0; [done|]. cbv zeta. unfold read_io. rewrite read_exact_span by lia. cbn [map_err result_bind].
  set (m := Z.min r 4096) in *. assert (Hm : 0 < m ≤ r) by lia.
  rewrite (span_app f a (a + m) (a + r)) in Hz by lia.
  assert (Hsplit : zeros r = zeros m ++ zeros (r - m)) by (unfold zeros; rewrite <-replicate_add; f_equal; lia).
  rewrite Hsplit in Hz. apply app_inj_1 in Hz as [Hz1 Hz2].
  - rewrite Hz1, zeros_zero. apply IH; [lia..|]. by rewrite <-Z.add_assoc, Zplus_minus.
  - pose proof (len_span f a (a + m) ltac:(lia) ltac:(lia)). pose proof (len_zeros m ltac:(lia)). unfold len in *. lia.
Qed.
Lemma check_zeros f a b : 0 ≤ a ≤ b → b ≤ len f → span f a b = zeros (b - a) → check_zero_range f a b = Ok tt.
Proof.
  intros Ha Hb Hz. unfold check_zero_range. replace (b <? a) with false by lia.
  apply zero_chunks_zeros; [lia..|]. by rewrite Zplus_minus.
Qed.

(** The blocks of a file whose payload starts behind [pre]. *)
Lemma raw_block_read `{!CompressorLaws} pre payload k b d :
  describes k b d → block_ok k b → 0 ≤ block_offset d → block_offset d + stored_size d ≤ len payload →
  span payload (block_offset d) (block_offset d + stored_size d) = block_stored b →
  len pre + len payload ≤ u64_max →
  read_raw_block blake3 (pre ++ payload) (len pre) d = Ok (block_raw b).
Proof.
  intros [Hk Hc Hs Hd] Hb Hpos Hend Hspan Hmax. pose proof (block_ok_sizes k b Hb) as Hsize.
  destruct Hb as [-> [Hraw Hle] Hform]. injection Hk as _ Hr. pose proof (len_nonneg pre). pose proof usize_max_lb.
  unfold BLOCK_SIZE, u32_max in *. unfold read_raw_block, checked_add.
  replace (len pre + block_offset d <=? u64_max) with true by lia. cbn [result_bind].
  rewrite read_section_span by (rewrite ?len_app; lia). cbn [result_bind].
  rewrite <-Z.add_assoc, span_shift, Hspan by lia. rewrite Hd, bool_decide_eq_false_2 by naive_solver. rewrite Hc, Hr.
  destruct Hform as [[-> ->]|(-> & Hz & _)]; [done|]. cbn [Z.eqb].
  destruct (compressed_frame _ _ Hz) as (_ & -> & -> & -> & ->). cbn [context map_err result_bind].
  rewrite Z.eqb_refl, !bool_decide_eq_false_2 by naive_solver. cbn [negb].
  by replace (len (block_raw b) >? usize_max) with false by lia.
Qed.

Lemma laid_payload `{!CompressorLaws} pre payload a l ds z :
  laid payload a l ds z → Forall (λ x, block_ok x.1 x.2) l → 0 ≤ a → z ≤ len payload →
  len pre + len payload ≤ u64_max →
  check_payload_blocks blake3 (pre ++ payload) (len pre) a ds = Ok z ∧
  ∀ d, d ∈ ds → ∃ b, (block_key d, b) ∈ l ∧ read_raw_block blake3 (pre ++ payload) (len pre) d = Ok (block_raw b).
Proof.
  intros Hlaid. induction Hlaid as [a|a k b d l ds z Hdes Ha Hgap Hspan Hlaid IH]; intros Hok Hpos Hz Hmax.
  { split; [done|]. intros d Hd. by apply elem_of_nil in Hd. }
  apply Forall_cons in Hok as [Hb Hok]. cbn [fst snd] in *. pose proof (align8_ok _ _ Hpos Ha) as (Hge & _ & _).
  pose proof (block_ok_sizes k b Hb) as Hsize. pose proof Hdes as [Hk _ Hs _].
  pose proof (laid_bounds _ _ _ _ _ Hlaid ltac:(lia)) as Hend. pose proof (len_nonneg pre).
  pose proof (raw_block_read pre payload k b d Hdes Hb ltac:(lia) ltac:(lia) Hspan Hmax) as Hraw.
  destruct (IH Hok ltac:(lia) Hz Hmax) as [Hrest Hall]. split.
  - cbn [check_payload_blocks]. unfold plus, expect, checked_add.
    replace (len pre + a <=? u64_max) with true by lia. replace (len pre + block_offset d <=? u64_max) with true by lia.
    cbn [ok_or result_bind]. rewrite check_zeros; [|lia|rewrite len_app; lia|rewrite span_shift by lia; rewrite Hgap; f_equal; lia].
    cbn [result_bind]. rewrite Hraw. cbn [result_bind]. destruct Hb as [-> _ _]. injection Hk as -> _.
    rewrite bool_decide_eq_false_2 by naive_solver. replace (block_offset d + stored_size d <=? u64_max) with true by lia.
    cbn [ok_or result_bind]. exact Hrest.
  - intros d' [->|Hd']%elem_of_cons; [exists b; rewrite Hk; set_solver|].
    destruct (Hall d' Hd') as (b' & Hin & Hr). exists b'. set_solver.
Qed.

(** Files. *)
Lemma read_files f o bm ds raws refs :
  (∀ d, d ∈ ds → ∃ b, bm !! block_key d = Some b ∧ read_raw_block blake3 f o d = Ok (block_raw b)) →
  (∀ k, k ∈ dom bm → k ∈ block_key <$> ds) → Forall2 (holds bm) raws refs →
  read_file_blocks blake3 f o (descriptor_index ds) refs = Ok (concat raws).
Proof.
  intros Hread Hkeys Hall. induction Hall as [|raw k raws refs (b & Hb & <-) _ IH]; [done|]. cbn [read_file_blocks concat].
  destruct (descriptor_index_defined ds k) as [d Hd]; [apply Hkeys, elem_of_dom; eauto|].
  unfold expect. rewrite Hd. cbn [ok_or result_bind].
  apply descriptor_index_lookup in Hd as [Hin Hk]. destruct (Hread d Hin) as (b' & Hb' & ->).
  cbn [result_bind]. rewrite IH. cbn [result_bind]. rewrite Hk in Hb'. congruence.
Qed.
Lemma check_all_files f o bm ds inputs es :
  (∀ raws refs, Forall2 (holds bm) raws refs → read_file_blocks blake3 f o (descriptor_index ds) refs = Ok (concat raws)) →
  Forall2 (entry_for bm) inputs es → check_files blake3 f o (descriptor_index ds) es = Ok tt.
Proof.
  intros Hread Hall. induction Hall as [|x e inputs es [Hp He] _ IH]; [done|]. cbn [check_files].
  destruct x.2 as [|contents executable|to].
  - destruct He as [-> _]. done.
  - destruct He as (-> & _ & -> & refs & -> & Hrefs). rewrite bool_decide_eq_false_2 by naive_solver.
    cbn [expect ok_or result_bind]. rewrite (Hread _ _ Hrefs), file_chunks_concat. cbn [result_bind].
    rewrite bool_decide_eq_false_2 by naive_solver. exact IH.
  - destruct He as (-> & _). done.
Qed.

(** ** The sections *)

Lemma align8_some v : 0 ≤ v → v + 7 ≤ u64_max → ∃ a, align8 v = Ok a ∧ v ≤ a < v + 8 ∧ a mod 8 = 0.
Proof.
  intros Hv Hmax. assert (Ha : ∃ a, align8 v = Ok a).
  { unfold align8, checked_add. replace (v + 7 <=? u64_max) with true by lia. by eexists. }
  destruct Ha as [a Ha]. exists a. apply align8_ok in Ha as Hok; [|done]. naive_solver.
Qed.
Lemma pad_to_offset_some bs n : len bs ≤ n ≤ usize_max → pad_to_offset bs n = Ok (bs ++ zeros (n - len bs)).
Proof.
  intros Hn. unfold pad_to_offset. replace (n >? usize_max) with false by lia. by replace (n <? len bs) with false by lia.
Qed.

(** The sections are within the limits of the format and of the machine. *)
Record sizes_ok (eb sb payload : bytes) : Prop := {
  size_envelope : 0 < len eb ≤ MAX_ENVELOPE_LENGTH;
  size_signatures : 0 < len sb ≤ MAX_SIGNATURE_LENGTH;
  size_payload : len payload ≤ MAX_PAYLOAD_LENGTH;
  size_file : Z.of_nat HEADER_SIZE + len eb + len sb + len payload + 16 ≤ usize_max;
}.
(** The file [f] with the header [h]. *)
Record sealed (f : bytes) (h : Header) (eb sb payload : bytes) : Prop := {
  sealed_file : ∃ hdr, encode crc32c h = Ok hdr ∧ len hdr = Z.of_nat HEADER_SIZE ∧
    f = hdr ++ eb ++ zeros (signature_offset h - (Z.of_nat HEADER_SIZE + len eb)) ++ sb ++
        zeros (payload_offset h - (signature_offset h + len sb)) ++ payload;
  sealed_header : header_ok h;
  sealed_sections : check_sections h (len f) = Ok tt;
  sealed_envelope : envelope_length h = len eb;
  sealed_signatures : signature_length h = len sb;
  sealed_payload : payload_length h = len payload;
  sealed_root : bundle_root h = blake3 eb;
  sealed_order : Z.of_nat HEADER_SIZE + len eb ≤ signature_offset h ∧ signature_offset h + len sb ≤ payload_offset h ∧
    payload_offset h + len payload = len f ∧ len f ≤ usize_max;
}.

Lemma seal_sealed key e payload eb sb :
  (∀ bs, length (blake3 bs) = 32%nat) →
  to_canonical_vec to_value e = Ok eb →
  to_canonical_vec to_value (signature_entries blake3 key (blake3 eb)) = Ok sb → sizes_ok eb sb payload →
  ∃ f h, seal blake3 crc32c key e payload = Ok f ∧ sealed f h eb sb payload.
Proof.
  intros Hhash Heb Hsb [He Hs Hp Hf]. pose proof usize_max_ub. pose proof (len_nonneg payload).
  unfold MAX_ENVELOPE_LENGTH, MAX_SIGNATURE_LENGTH, MAX_PAYLOAD_LENGTH, HEADER_SIZE, u64_max in *.
  destruct (align8_some (128 + len eb)) as (so & Hso & Hso1 & Hso2); [lia|unfold u64_max; lia|].
  destruct (align8_some (so + len sb)) as (po & Hpo & Hpo1 & Hpo2); [lia|unfold u64_max; lia|].
  set (h := {| envelope_length := len eb; signature_offset := so; signature_length := len sb; payload_offset := po;
               payload_length := len payload; bundle_root := blake3 eb |}).
  assert (Hh : header_ok h) by (split; cbn; unfold in_range, u64_max; first [apply Hhash|lia]).
  set (hdr := put_u32 96 (crc32c (encode_sections h)) (encode_sections h)).
  assert (Hhdr : len hdr = 128) by (unfold len, hdr; by rewrite (length_bs h (crc32c (encode_sections h)) Hh)).
  set (f := hdr ++ eb ++ zeros (so - (128 + len eb)) ++ sb ++ zeros (po - (so + len sb)) ++ payload).
  assert (Hlen : len f = po + len payload) by (unfold f; rewrite !len_app, !len_zeros by lia; lia).
  exists f, h. split.
  - unfold seal. rewrite Heb. cbn [attempt map_err result_bind]. rewrite Hsb. cbn [attempt map_err result_bind].
    unfold u64_len, plus, expect, checked_add, HEADER_SIZE, u64_max.
    replace (len eb <=? _) with true by lia. cbn [result_bind ok_or]. change (Z.of_nat 128) with 128.
    replace (128 + len eb <=? _) with true by lia. cbn [result_bind ok_or]. rewrite Hso. cbn [attempt map_err result_bind].
    replace (len sb <=? _) with true by lia. cbn [result_bind]. replace (so + len sb <=? _) with true by lia.
    cbn [result_bind ok_or]. rewrite Hpo. cbn [attempt map_err result_bind]. replace (len payload <=? _) with true by lia.
    cbn [result_bind]. replace (po >? usize_max) with false by lia. replace (po + len payload <=? usize_max) with true by lia.
    rewrite bool_decide_eq_false_2 by done. cbn [orb result_bind encode attempt map_err].
    fold h hdr. rewrite pad_to_offset_some by (rewrite len_app; lia). cbn [result_bind].
    rewrite pad_to_offset_some by (rewrite !len_app, len_zeros; rewrite ?len_app; lia). cbn [result_bind]. f_equal.
    unfold f. rewrite <-!app_assoc. rewrite !len_app, Hhdr, len_zeros by lia. do 5 f_equal. f_equal. lia.
  - split; cbn [envelope_length signature_length payload_length signature_offset payload_offset bundle_root h]; try done;
      [by exists hdr| |rewrite Hlen; change (Z.of_nat HEADER_SIZE) with 128; lia].
    unfold check_sections, within, checked_add, MAX_ENVELOPE_LENGTH, MAX_SIGNATURE_LENGTH, MAX_PAYLOAD_LENGTH, HEADER_SIZE, u64_max.
    cbn [envelope_length signature_length payload_length signature_offset payload_offset h].
    change (Z.of_nat 128) with 128. replace (_ || _ || _) with false by lia. cbn [reject_if result_bind].
    replace (128 + len eb <=? _) with true by lia. cbn [ok_or result_bind]. rewrite Hso. cbn [result_bind].
    replace (so + len sb <=? _) with true by lia. cbn [ok_or result_bind]. rewrite Hpo. cbn [result_bind].
    replace (po + len payload <=? _) with true by lia. cbn [ok_or result_bind]. rewrite Hlen, !Z.eqb_refl. done.
Qed.

Lemma sealed_spans f h eb sb payload :
  sealed f h eb sb payload →
  envelope_span f h = eb ∧ signature_span f h = sb ∧
  span f (Z.of_nat HEADER_SIZE + len eb) (signature_offset h) = zeros (signature_offset h - (Z.of_nat HEADER_SIZE + len eb)) ∧
  span f (signature_offset h + len sb) (payload_offset h) = zeros (payload_offset h - (signature_offset h + len sb)) ∧
  ∃ pre, f = pre ++ payload ∧ len pre = payload_offset h.
Proof.
  intros [(hdr & _ & Hhdr & ->) _ _ He Hs _ _ (Ho1 & Ho2 & _)].
  set (z1 := zeros (signature_offset h - _)). set (z2 := zeros (payload_offset h - _)).
  assert (Hz1 : len z1 = signature_offset h - (Z.of_nat HEADER_SIZE + len eb)) by (apply len_zeros; lia).
  assert (Hz2 : len z2 = payload_offset h - (signature_offset h + len sb)) by (apply len_zeros; lia).
  unfold envelope_span, signature_span. rewrite He, Hs. split_and!.
  - pose proof (span_mid hdr eb (z1 ++ sb ++ z2 ++ payload)) as Hm. by rewrite Hhdr in Hm.
  - pose proof (span_mid (hdr ++ eb ++ z1) sb (z2 ++ payload)) as Hm. rewrite <-!app_assoc in Hm.
    by replace (len (hdr ++ eb ++ z1)) with (signature_offset h) in Hm by (rewrite !len_app; lia).
  - pose proof (span_mid (hdr ++ eb) z1 (sb ++ z2 ++ payload)) as Hm. rewrite <-!app_assoc in Hm.
    replace (len (hdr ++ eb)) with (Z.of_nat HEADER_SIZE + len eb) in Hm by (rewrite !len_app; lia).
    by replace (_ + len z1) with (signature_offset h) in Hm by lia.
  - pose proof (span_mid (hdr ++ eb ++ z1 ++ sb) z2 payload) as Hm. rewrite <-!app_assoc in Hm.
    replace (len (hdr ++ eb ++ z1 ++ sb)) with (signature_offset h + len sb) in Hm by (rewrite !len_app; lia).
    by replace (_ + len z2) with (payload_offset h) in Hm by lia.
  - exists (hdr ++ eb ++ z1 ++ sb ++ z2). split; [by rewrite <-!app_assoc|]. rewrite !len_app. lia.
Qed.

Lemma inspect_sealed f h eb sb payload e ss :
  (∀ bs, u32 (crc32c bs)) → sealed f h eb sb payload →
  from_canonical_slice to_value from_slice eb = Ok e → from_canonical_slice to_value from_slice sb = Ok ss →
  validate_metadata blake3 nfc e ss h = Ok tt →
  inspect blake3 crc32c nfc f = Ok {| inspected_header := h; envelope := e; signatures := ss; file_length := len f |}.
Proof.
  intros Hcrc Hf He Hs Hm. destruct (sealed_spans f h eb sb payload Hf) as (Heb & Hsb & Hz1 & Hz2 & _).
  destruct Hf as [(hdr & Hhdr & Hlen & Hfile) Hok Hsec Hel Hsl Hpl Hroot (Ho1 & Ho2 & Ho3 & Hmax)].
  unfold envelope_span, signature_span in *. rewrite Hel in Heb. rewrite Hsl in Hsb.
  pose proof (len_nonneg eb). pose proof (len_nonneg sb). pose proof (len_nonneg payload). pose proof usize_max_ub.
  unfold inspect. cbv zeta. rewrite read_exact_span by (unfold HEADER_SIZE in *; lia). cbn [map_err result_bind].
  assert (span f 0 (0 + Z.of_nat HEADER_SIZE) = hdr) as ->.
  { rewrite Hfile, <-Hlen. pose proof (span_mid [] hdr) as Hsp. cbn [app] in Hsp. apply Hsp. }
  rewrite (bundle_header_roundtrip crc32c Hcrc h hdr (len f) Hok Hsec Hhdr). cbn [attempt map_err result_bind].
  rewrite Hel, Hsl. rewrite read_section_span, Heb by (unfold HEADER_SIZE in *; lia). cbn [result_bind].
  rewrite Hroot, bool_decide_eq_false_2 by naive_solver. unfold plus, expect, checked_add.
  replace (Z.of_nat HEADER_SIZE + len eb <=? u64_max) with true by lia. cbn [ok_or result_bind].
  rewrite check_zeros by (done || unfold HEADER_SIZE in *; lia). cbn [result_bind].
  rewrite read_section_span, Hsb by (unfold HEADER_SIZE in *; lia). cbn [result_bind].
  replace (signature_offset h + len sb <=? u64_max) with true by lia. cbn [ok_or result_bind].
  rewrite check_zeros by (done || unfold HEADER_SIZE in *; lia). cbn [result_bind].
  rewrite He, Hs. cbn [attempt map_err result_bind]. by rewrite Hm.
Qed.

(** ** The envelope *)

(** What the envelope must satisfy that the configuration and the paths decide: the checks of
    [validate_metadata] but for those of the publisher, the blocks and the signatures. *)
Record admissible (e : Envelope) : Prop := {
  admissible_id : validate_logical_id (bundle_id e) = Ok tt;
  admissible_version : str_len (version e) ≤ 64 ∧
    ∃ v, version_parse (version e) = Ok v ∧ version_to_string v = version e;
  admissible_release : release e ≠ 0;
  admissible_channel : validate_channel (channel e) = Ok tt;
  admissible_tree : validate_variant_and_tree blake3 nfc e = Ok tt;
  admissible_policy : validate_permissions_and_policy nfc e = Ok tt;
  admissible_blocks : len (blocks e) ≤ MAX_BLOCKS;
  admissible_annotations : ∀ l, annotations e = Some l →
    len l ≤ MAX_ANNOTATIONS ∧ existsb (λ kv, (str_len kv.1 >? 256) || (str_len kv.2 >? 4096)) l = false;
}.

(** What [describe] has put together. *)
Record described (b : BundleBuilder) (key : SigningKey) (e : Envelope) (payload : bytes) : Prop := {
  described_parts : ∃ bm es p0 a ds,
    blocks_ok bm ∧ dom bm = referenced_blocks es ∧ Forall2 (entry_for bm) (in_order str_lt (map_to_list (inputs b))) es ∧
    laid p0 0 (in_order key_lt (map_to_list bm)) ds (len p0) ∧
    align8 (len p0) = Ok a ∧ len p0 ≤ a ∧ payload = p0 ++ zeros (a - len p0) ∧ len payload = a ∧
    (∃ tree, trees e = [tree] ∧ entries tree = es) ∧ blocks e = ds;
  described_fixed : envelope_schema e = 1 ∧ profile e = PROFILE ∧ dependencies e = [] ∧ migrations e = [] ∧
    signature_policy e = default_signature_policy ∧ rotation e = [] ∧
    ∃ v, variants e = [v] ∧ variant_target v = config_target (config b);
  described_publisher : publisher_algorithm (publisher e) = 1 ∧ public_key (publisher e) = key_bytes key ∧
    publisher_key_id (publisher e) = compute_key_id blake3 (key_bytes key);
}.
Lemma describe_described b key e payload : describe blake3 b key = Ok (e, payload) → described b key e payload.
Proof.
  unfold describe. intros Hd. apply result_bind_ok in Hd as ([bm es] & Hc & Hd).
  apply result_bind_ok in Hd as (root & _ & Hd). apply result_bind_ok in Hd as ([p0 ds] & Hl & Hd).
  apply result_bind_ok in Hd as (p1 & Hp & Hd). apply result_bind_ok in Hd as (e' & He & Hd).
  injection Hd as <- <-. cbn [fst snd] in *.
  unfold make_envelope in He. do 4 (apply result_bind_ok in He as (? & _ & He)). injection He as <-.
  split; [|cbn; by split_and!; [..|eexists]|done].
  apply collect_ok in Hc as (Hok & _ & Hdom & Hall); [|intros k b'; by rewrite lookup_empty].
  apply lay_out_laid in Hl as [_ Hl]. apply pad_to_8_ok in Hp as (a & Ha & Hle & -> & Hlen).
  exists bm, es, p0, a, ds. rewrite dom_empty_L, (left_id_L ∅ (∪)) in Hdom.
  split_and!; [done..|by eexists|done].
Qed.

Section success.
Context `{!SignerLaws, !CompressorLaws}.

Lemma map_blocks_ok bm : blocks_ok bm → Forall (λ x, block_ok x.1 x.2) (in_order key_lt (map_to_list bm)).
Proof. intros Hok. rewrite in_order_perm. apply Forall_forall. intros [k b] Hkb%elem_of_map_to_list. by apply Hok. Qed.
Lemma map_keys_ordered bm : ordered key_lt None (in_order key_lt (map_to_list bm)).
Proof. apply in_order_ordered; [apply key_lt_total|apply NoDup_fst_map_to_list]. Qed.

Lemma laid_length f a l ds z : laid f a l ds z → ds = [] → l = [] ∧ z = a.
Proof. by intros [] ?. Qed.

Lemma blocks_valid b key e payload h :
  described b key e payload → len (blocks e) ≤ MAX_BLOCKS → payload_length h = len payload → len payload ≤ u64_max →
  validate_blocks e h = Ok tt.
Proof.
  intros [(bm & es & p0 & a & ds & Hok & Hdom & _ & Hlaid & Ha & Hle & _ & Hlen & (tree & Htree & <-) & Hds) _ _] Hmax Hh Hu64.
  unfold validate_blocks. rewrite Hds in *. replace (len ds >? MAX_BLOCKS) with false by lia. rewrite Htree. cbn [head expect ok_or result_bind].
  pose proof (laid_check_blocks _ None _ _ _ _ ∅ Hlaid (map_keys_ordered bm) (map_blocks_ok bm Hok) ltac:(lia) ltac:(lia)) as Hc.
  rewrite Hc. cbn [result_bind fst snd]. cbv zeta.
  assert (Hexp : (if bool_decide (ds = []) then Ok 0 else attempt (align8 (len p0))) = Ok (payload_length h)).
  { rewrite Hh, Hlen, Ha. case_bool_decide as Hnil; [|done]. destruct (laid_length _ _ _ _ _ Hlaid Hnil) as [_ Hz].
    rewrite Hz in Ha. by injection Ha as <-. }
  rewrite Hexp. cbn [result_bind]. rewrite Z.eqb_refl. cbn [negb].
  rewrite bool_decide_eq_false_2; [done|]. intros Hne. apply Hne. rewrite <-Hdom, (right_id_L ∅ (∪)), (laid_keys _ _ _ _ _ Hlaid).
  rewrite in_order_perm. by rewrite <-dom_list_to_map_L, list_to_map_to_list.
Qed.

Lemma metadata_valid b key e payload h root :
  described b key e payload → admissible e → payload_length h = len payload → len payload ≤ u64_max →
  validate_metadata blake3 nfc e (signature_entries blake3 key root) h = Ok tt.
Proof.
  intros Hd [Hid [Hv (v & Hparse & Hshow)] Hrel Hch Htree Hpol Hmax Hann] Hh Hu64.
  pose proof (blocks_valid b key e payload h Hd Hmax Hh Hu64) as Hblocks.
  destruct Hd as [_ (Hsch & Hprof & Hdep & Hmig & Hsig & Hrot & (var & Hvar & _)) (Halg & Hkey & Hkid)].
  unfold validate_metadata. rewrite Hsch, Hprof, Hvar, Hdep, Hmig, Hsig, Hrot, Hid.
  change (len [var]) with 1. change (len (signature_entries blake3 key root)) with 1. change (len (@nil Value)) with 0.
  rewrite !bool_decide_eq_false_2 by naive_solver. cbn [Z.eqb Pos.eqb negb orb attempt map_err result_bind].
  replace (str_len (version e) >? 64) with false by lia. rewrite Hparse. cbn [context map_err result_bind].
  rewrite bool_decide_eq_false_2 by naive_solver. replace (release e =? 0) with false by lia. cbn [orb].
  rewrite Hch. cbn [attempt map_err result_bind]. unfold validate_publisher. rewrite Halg, Hkey, Hkid, key_bytes_length.
  rewrite bool_decide_eq_false_2 by naive_solver. cbn [Z.eqb Pos.eqb negb orb result_bind]. rewrite Htree. cbn [result_bind].
  rewrite Hblocks. cbn [result_bind]. rewrite Hpol. cbn [result_bind].
  assert (validate_signature_shape e (signature_entries blake3 key root) = Ok tt) as ->.
  { unfold validate_signature_shape, signature_entries. cbn [head expect ok_or result_bind role signature_algorithm signature_key_id signature].
    by rewrite Hkid, signature_length_64, bool_decide_eq_false_2 by naive_solver. }
  cbn [result_bind]. change (len (@nil RotationProof) >? 16) with false. cbv iota.
  destruct (annotations e) as [l|]; [|done]. destruct (Hann l eq_refl) as [Hl Hex].
  replace (len l >? MAX_ANNOTATIONS) with false by lia. by rewrite Hex.
Qed.

(** Padding behind the blocks does not move them. *)
Lemma laid_prefix f g a l ds z : laid f a l ds z → f `prefix_of` g → 0 ≤ a → z ≤ len f → laid g a l ds z.
Proof.
  intros Hlaid Hpre. induction Hlaid as [|a k b d l ds z Hdes Ha Hgap Hspan Hlaid IH]; intros Hpos Hz; [constructor|].
  pose proof (align8_ok _ _ Hpos Ha) as (Hge & _ & _). pose proof Hdes as [_ _ Hs _].
  pose proof (len_nonneg (block_stored b)). pose proof (laid_bounds _ _ _ _ _ Hlaid ltac:(lia)).
  econstructor; [done|done| | |apply IH; lia]; by rewrite (span_prefix _ _ _ _ Hpre) by lia.
Qed.

Lemma publisher_verified b key e payload h root n :
  described b key e payload → bundle_root h = root →
  verify_publisher {| inspected_header := h; envelope := e; signatures := signature_entries blake3 key root; file_length := n |}
    (Some (verifying_key key)) = Ok tt.
Proof.
  intros [_ _ (_ & Hkey & _)] Hroot. unfold verify_publisher. cbn [envelope signatures inspected_header].
  rewrite Hkey, key_bytes_length, Hroot. cbn [Z.eqb Pos.eqb expect ok_or result_bind]. rewrite key_bytes_decode.
  cbn [context map_err result_bind]. rewrite bool_decide_eq_false_2 by naive_solver. cbn [head signature_entries expect ok_or result_bind signature].
  destruct (signature_accepted key (signature_input root)) as (s & -> & Hs). cbn [context map_err result_bind]. by rewrite Hs.
Qed.

(** The blocks and the files of a sealed file are what [describe] was given. *)
Lemma payload_verified b key e payload f h eb sb ss :
  described b key e payload → sealed f h eb sb payload →
  verify_payload blake3 f {| inspected_header := h; envelope := e; signatures := ss; file_length := len f |} = Ok tt ∧
  ∃ tree, trees e = [tree] ∧
    Forall2 (λ x entry, Paths.path entry = x.1 ∧
      match x.2 with
      | InputEntry.Directory => file_type entry = FileType.Directory
      | InputEntry.Symlink to => file_type entry = FileType.SymlinkRelative ∧ target entry = Some to
      | InputEntry.Regular contents executable =>
          file_type entry = FileType.Regular ∧ mode entry = Some (if executable then 1 else 0) ∧
          ∃ refs, block_refs entry = Some refs ∧
            read_file_blocks blake3 f (payload_offset h) (descriptor_index (blocks e)) refs = Ok contents
      end) (in_order str_lt (map_to_list (inputs b))) (entries tree).
Proof.
  intros [(bm & es & p0 & a & ds & Hok & Hdom & Hent & Hlaid & Ha & Hle & Hpay & Hlen & (tree & Htree & Hes) & Hds) _ _] Hf.
  destruct (sealed_spans f h eb sb payload Hf) as (_ & _ & _ & _ & pre & Hpre & Hlpre).
  destruct Hf as [_ _ _ _ _ Hpl _ (_ & _ & Hend & Hmax)]. pose proof usize_max_ub. pose proof (len_nonneg p0). pose proof (len_nonneg pre).
  apply (laid_prefix _ payload) in Hlaid; [|rewrite Hpay; by eexists|lia..].
  destruct (laid_payload pre payload _ _ _ _ Hlaid (map_blocks_ok bm Hok)) as [Hcheck Hread]; [lia..|].
  rewrite <-Hpre, Hlpre in Hcheck, Hread.
  assert (Hfiles : ∀ raws refs, Forall2 (holds bm) raws refs →
            read_file_blocks blake3 f (payload_offset h) (descriptor_index ds) refs = Ok (concat raws)).
  { intros raws refs. apply read_files.
    - intros d Hd. destruct (Hread d Hd) as (b' & Hin & Hr). rewrite in_order_perm, elem_of_map_to_list in Hin. eauto.
    - intros k Hk. rewrite (laid_keys _ _ _ _ _ Hlaid), in_order_perm. apply elem_of_dom in Hk as [b' Hb'].
      apply list_elem_of_fmap. exists (k, b'). by rewrite elem_of_map_to_list. }
  split.
  - unfold verify_payload. cbv zeta. cbn [inspected_header envelope]. rewrite Hds, Hcheck, Hpl, Htree. unfold plus, expect, checked_add.
    cbn [result_bind]. replace (payload_offset h + len p0 <=? u64_max) with true by lia.
    replace (payload_offset h + len payload <=? u64_max) with true by lia. cbn [ok_or result_bind head].
    rewrite check_zeros; [|lia..|]; [cbn [result_bind]; rewrite Hes; by eapply check_all_files|].
    rewrite Hpre, <-Hlpre, span_shift by lia. rewrite Hlen, Hpay, Z.add_add_simpl_l_l.
    pose proof (span_mid p0 (zeros (a - len p0)) []) as Hm. rewrite app_nil_r, len_zeros, Zplus_minus in Hm by lia. exact Hm.
  - exists tree. split; [done|]. rewrite Hes, Hds. eapply Forall2_impl; [exact Hent|]. intros x entry [Hp Hx]. split; [done|].
    destruct x.2 as [|contents executable|to]; [naive_solver| |naive_solver].
    destruct Hx as (? & ? & _ & refs & Hrefs & Hall). split_and!; [done..|]. exists refs. split; [done|].
    by rewrite (Hfiles _ _ Hall), file_chunks_concat.
Qed.

(** A builder whose envelope is admissible builds a bundle that is accepted with the builder's
    key and target: [build] does not fail at the check at its end.  The bundle has the envelope
    that was described, and its tree lists the inputs in order; the blocks of a file yield the
    contents that were added.  The round trips of serde are those of the two documents that
    are written. *)
Theorem built_bundle_is_verified b key e payload eb sb :
  (∀ bs, length (blake3 bs) = 32%nat) → (∀ bs, u32 (crc32c bs)) →
  describe blake3 b key = Ok (e, payload) → admissible e →
  to_canonical_vec to_value e = Ok eb →
  to_canonical_vec to_value (signature_entries blake3 key (blake3 eb)) = Ok sb →
  from_canonical_slice to_value from_slice eb = Ok e →
  from_canonical_slice to_value from_slice sb = Ok (signature_entries blake3 key (blake3 eb)) →
  sizes_ok eb sb payload →
  ∃ f i tree, build blake3 crc32c nfc b key = Ok f ∧
    verify blake3 crc32c nfc f (build_options b key) = Ok i ∧ envelope i = e ∧ trees e = [tree] ∧
    Forall2 (λ x entry, Paths.path entry = x.1 ∧
      match x.2 with
      | InputEntry.Directory => file_type entry = FileType.Directory
      | InputEntry.Symlink to => file_type entry = FileType.SymlinkRelative ∧ target entry = Some to
      | InputEntry.Regular contents executable =>
          file_type entry = FileType.Regular ∧ mode entry = Some (if executable then 1 else 0) ∧
          ∃ refs, block_refs entry = Some refs ∧
            read_file_blocks blake3 f (payload_offset (inspected_header i)) (descriptor_index (blocks e)) refs = Ok contents
      end) (in_order str_lt (map_to_list (inputs b))) (entries tree).
Proof.
  intros Hhash Hcrc Hdesc Hadm Heb Hsb Hreb Hrsb Hsizes. pose proof (describe_described b key e payload Hdesc) as Hd.
  destruct (seal_sealed key e payload eb sb Hhash Heb Hsb Hsizes) as (f & h & Hseal & Hf).
  destruct (payload_verified b key e payload f h eb sb (signature_entries blake3 key (blake3 eb)) Hd Hf) as (Hpay & tree & Htree & Hall).
  set (i := {| inspected_header := h; envelope := e; signatures := signature_entries blake3 key (blake3 eb); file_length := len f |}) in *.
  assert (Hv : verify blake3 crc32c nfc f (build_options b key) = Ok i).
  { unfold verify. rewrite (inspect_sealed f h eb sb payload e _ Hcrc Hf Hreb Hrsb).
    - cbn [result_bind build_options option_target firmware expected_publisher]. fold i.
      destruct Hd as [Hparts (? & ? & ? & ? & ? & Hrot & (v & Hvar & Htgt)) Hpub]. cbn [envelope i]. rewrite Hvar.
      cbn [head expect ok_or result_bind]. rewrite bool_decide_eq_false_2 by naive_solver. cbn [result_bind].
      unfold i. rewrite (publisher_verified b key e payload); [|by split; eauto 20|by destruct Hf]. cbn [result_bind].
      unfold verify_rotation. rewrite Hrot. cbn [rotation_loop result_bind rotation_start previous_to_key]. fold i. by rewrite Hpay.
    - destruct Hf as [_ _ _ _ _ Hpl _ (_ & _ & Hend & Hmax)]. pose proof usize_max_ub. destruct Hsizes as [_ _ Hp _].
      eapply metadata_valid; [done|done|done|]. unfold MAX_PAYLOAD_LENGTH, u64_max in *. lia. }
  exists f, i, tree. split; [|by split_and!]. unfold build. rewrite Hdesc. cbn [result_bind fst snd]. rewrite Hseal. cbn [result_bind].
  by rewrite Hv.
Qed.
End success.
End built.

Module SampleBuild.

(** The stand-ins of [SampleBundle]; a compressed block is the block behind one byte. *)
Definition hash := SampleBundle.hash.
#[local] Existing Instance SampleBundle.ed25519.
#[local] Existing Instance SampleBundle.semver.
#[local] Existing Instance SampleBundle.proofs_serde.
#[local] Instance signer : Signer :=
  {| SigningKey := unit; verifying_key _ := SampleBundle.key; key_to_bytes k := k; sign _ m := hash m ++ hash m |}.
#[local] Instance zstd : Zstd :=
  {| find_frame_compressed_size c := Ok (len c); get_frame_content_size c := Ok (Some (len c - 1));
     get_dict_id_from_frame _ := None; decompress c _ := Ok (tail c) |}.
#[local] Instance compressor : Compressor := {| compress raw := Ok (x01 :: raw) |}.
Definition signing_key : @SigningKey SampleBundle.ed25519 signer := tt.
Lemma hash_length bs : length (hash bs) = 32%nat.
Proof. apply length_to_le_bytes. Qed.
#[local] Instance signer_laws : SignerLaws.
Proof.
  split; [done..| |].
  - intros k m. unfold len. cbn [sign signer]. by rewrite length_app, !hash_length.
  - intros k m. exists (hash m ++ hash m). split; [done|]. cbn. by rewrite bool_decide_eq_true_2.
Qed.
#[local] Instance compressor_laws : CompressorLaws.
Proof.
  split. intros raw c [= <-]. cbn. unfold len. cbn [length]. split_and!; [lia|done| |done|done]. do 3 f_equal. lia.
Qed.

Definition file : str := lit "bin/main".
#[local] Instance entries_serde : Serde (list FileEntry) := SampleBundle.as_text "T" [].
Definition start : BundleBuilder :=
  builder_new {| config_kind := BundleKind.Application; config_id := lit "org.example.app"; config_version := lit "1.0.0";
    config_release := 1; config_channel := lit "dev"; config_target := lit "kindlehf"; config_os := lit "linux";
    config_arch := lit "arm"; config_abi := lit "gnueabihf"; config_firmware_min := None; config_firmware_max := None;
    config_required := []; config_optional := []; config_entrypoints := [(lit "main", file)];
    config_permissions := {| requested := []; optional := [] |}; config_process := None;
    config_data := {| policy := DataPolicyKind.Preserve; data_schema := 1; quota_bytes := None |};
    config_annotations := None; config_publisher := None; compression := CompressionPolicy.ZstdWhenSmaller |}.
(** A builder to which a program is added, and with it the directory above it. *)
Definition filled : BundleBuilder := (add_file SampleBundle.unchanged file (text "hello") true start).1.
#[local] Instance input_eq_dec : EqDecision InputEntry.
Proof. solve_decision. Defined.
Example filled_inputs :
  inputs filled = {[ lit "bin" := InputEntry.Directory; file := InputEntry.Regular (text "hello") true ]}.
Proof. apply (bool_decide_unpack _). vm_compute. exact I. Qed.

Definition sample_described : Envelope * bytes := Eval vm_compute in
  match describe hash filled signing_key with Ok x => x | Err _ => (SampleBundle.sample_envelope, []) end.
Definition sample_built : Envelope := sample_described.1.
#[local] Instance envelope_serde : Serde Envelope := SampleBundle.as_text "E" sample_built.
Definition sample_sigs : list SignatureEntry := signature_entries hash signing_key (hash SampleBundle.envelope_bytes).
#[local] Instance signatures_serde : Serde (list SignatureEntry) := SampleBundle.as_text "S" sample_sigs.

Lemma sample_admissible : admissible hash SampleBundle.unchanged sample_built.
Proof.
  split; [done| |done|done|vm_compute; reflexivity|vm_compute; reflexivity|done|done].
  split; [done|]. by eexists.
Qed.
Lemma sample_described_eq : describe hash filled signing_key = Ok (sample_built, sample_described.2).
Proof. vm_compute. reflexivity. Qed.
Lemma sample_envelope_eq : to_canonical_vec to_value sample_built = Ok SampleBundle.envelope_bytes.
Proof. vm_compute. reflexivity. Qed.
Lemma sample_sigs_eq : to_canonical_vec to_value sample_sigs = Ok [x61; x53].
Proof. vm_compute. reflexivity. Qed.
Lemma sample_envelope_read : from_canonical_slice to_value from_slice SampleBundle.envelope_bytes = Ok sample_built.
Proof. vm_compute. reflexivity. Qed.
Lemma sample_sigs_read : from_canonical_slice to_value from_slice [x61; x53] = Ok sample_sigs.
Proof. vm_compute. reflexivity. Qed.
Lemma sample_sizes : sizes_ok SampleBundle.envelope_bytes [x61; x53] sample_described.2.
Proof. split; vm_compute; first [split; congruence|congruence]. Qed.

Lemma built_bundle_is_verified_witness :
  ∃ f i, build hash WireFrame.crc32c SampleBundle.unchanged filled signing_key = Ok f ∧
    verify hash WireFrame.crc32c SampleBundle.unchanged f (build_options filled signing_key) = Ok i ∧ envelope i = sample_built.
Proof.
  pose proof (built_bundle_is_verified hash WireFrame.crc32c SampleBundle.unchanged filled signing_key sample_built
    sample_described.2 SampleBundle.envelope_bytes [x61; x53] hash_length WireFrame.crc32c_u32 sample_described_eq
    sample_admissible sample_envelope_eq sample_sigs_eq sample_envelope_read sample_sigs_read sample_sizes)
    as (f & i & _ & Hb & Hv & He & _).
  exact (ex_intro _ f (ex_intro _ i (conj Hb (conj Hv He)))).
Defined.
End SampleBuild.
