(* ===== verification/Activation.v ===== *)
(** * Activation records: src/crates/kindlebridge-bundle/src/activation.rs

    A generation lists what is installed, one entry per application and channel,
    and is named by a digest of its contents.  The hexadecimal names of
    generations are those of src/crates/kindlebridge-bundle/src/install.rs.
    Serialization and BLAKE3 are crates: parameters. *)

From S2P Require Import Prelude Text BundleError Paths Cbor BundleModel Verify.

Definition ACTIVATION_SCHEMA_VERSION : Z := 3.

(** [GenerationId]: 16 bytes. *)
Abbreviation GenerationId := bytes.

Record ActivationEntry : Type := {
  entry_id : str;
  entry_channel : str;
  entry_kind : BundleKind;
  entry_root : Digest;
  code_version : str;
  data_generation : option str;
  dependency_roots : list Digest;
}.

Inductive ActivationAction : Type :=
| Rollback (rollback_app : str) (next_generation : option GenerationId).

Record ActivationGeneration : Type := {
  generation_schema : Z;
  generation_id : GenerationId;
  previous_generation : option GenerationId;
  profile_id : str;
  profile_digest : Digest;
  generation_entries : list ActivationEntry;
  action : option ActivationAction;
}.

(** [GenerationIdentity] of [new_with_action]. *)
Record GenerationIdentity : Type := {
  identity_schema : Z;
  identity_previous : option GenerationId;
  identity_profile : str;
  identity_digest : Digest;
  identity_entries : list ActivationEntry;
  identity_action : option ActivationAction;
}.

Definition activation_error {A} (m : string) : bundle_result A :=
  Err (error_new ErrorCode.Activation m).

(** [validate_component]. *)
Definition validate_component (value : str) (label : string) : bundle_result unit :=
  if bool_decide (value = []) || (str_len value >? 255) || is_dots value ||
     contains SLASH value || contains BACKSLASH value || existsb is_control value
  then activation_error ("invalid relative " +:+ label) else Ok tt.

(** The order of [Digest]. *)
Definition digest_lt (a b : Digest) : bool := bytes_le a b && bool_decide (a ≠ b).

(** The order of [(&[u8], &[u8], &str)]. *)
Definition entry_lt (a b : ActivationEntry) : bool :=
  if bool_decide (entry_id a = entry_id b) then
    if bool_decide (entry_channel a = entry_channel b)
    then str_lt (BundleKind.as_str (entry_kind a)) (BundleKind.as_str (entry_kind b))
    else str_lt (entry_channel a) (entry_channel b)
  else str_lt (entry_id a) (entry_id b).

Definition kind_is_installed (k : BundleKind) : bool :=
  match k with
  | BundleKind.Application | BundleKind.Runtime | BundleKind.Agent | BundleKind.Tool => true
  | _ => false
  end.

Fixpoint validate_entries (previous : option ActivationEntry) (l : list ActivationEntry) :
    bundle_result unit :=
  match l with
  | [] => Ok tt
  | entry :: l =>
      check? validate_logical_id (entry_id entry) in
      check? validate_channel (entry_channel entry) in
      check? (if negb (kind_is_installed (entry_kind entry))
              then activation_error "activation kind must be application/runtime/agent/tool"
              else Ok tt) in
      check? validate_component (code_version entry) "code_version" in
      check? (match data_generation entry with
              | Some data_generation => validate_component data_generation "data_generation"
              | None => Ok tt
              end) in
      check? (if negb (strictly_sorted digest_lt (dependency_roots entry))
              then activation_error "dependency roots must be strictly sorted" else Ok tt) in
      check? (if match previous with Some value => negb (entry_lt value entry) | None => false end
              then activation_error "activation entries are not strictly sorted" else Ok tt) in
      validate_entries (Some entry) l
  end.

(** [ActivationGeneration::validate]. *)
Definition validate (g : ActivationGeneration) : bundle_result unit :=
  check? (if negb (generation_schema g =? ACTIVATION_SCHEMA_VERSION)
          then activation_error "activation schema must be 3" else Ok tt) in
  check? (match action g with
          | Some (Rollback app_id _) =>
              check? validate_logical_id app_id in
              match previous_generation g with
              | None => activation_error "rollback activation requires a previous generation"
              | Some _ => Ok tt
              end
          | None => Ok tt
          end) in
  check? validate_component (profile_id g) "profile_id" in
  validate_entries None (generation_entries g).

(** [generation_id_hex] and [ActivationGeneration::directory_name]. *)
Definition generation_id_hex (id : GenerationId) : bytes := bytes_hex id.
Definition directory_name (g : ActivationGeneration) : bytes := bytes_hex (generation_id g).

(** [parse_generation_id]. *)
Definition hex_value (b : byte) : option Z :=
  if in_span 48 57 b then Some (byte.unsigned b - 48)
  else if in_span 97 102 b then Some (byte.unsigned b - 87)
  else None.
Fixpoint parse_pairs (bs : bytes) : option bytes :=
  match bs with
  | [] => Some []
  | [_] => Some []
  | a :: b :: bs =>
      high ← hex_value a; low ← hex_value b; rest ← parse_pairs bs;
      Some (byte.of_Z (16 * high + low) :: rest)
  end.
Definition parse_generation_id (value : bytes) : bundle_result GenerationId :=
  if negb (len value =? 32) || negb (forallb (λ b, bool_decide (is_Some (hex_value b))) value)
  then activation_error "invalid active generation ID" else
  ok_or (parse_pairs value) (error_new ErrorCode.Activation "invalid generation ID hex").

Section generations.
Context `{Serde GenerationIdentity, Serde ActivationGeneration}.
Context `{PointerWidth} (blake3 : bytes → bytes).

(** [ActivationGeneration::new_with_action]. *)
Definition generation_name (identity : GenerationIdentity) : bundle_result GenerationId :=
  let? canonical := to_canonical_vec to_value identity in
  Ok (take 16 (blake3 (text "KINDLEBRIDGE-ACTIVATION-GENERATION-V2" ++ [x00] ++ canonical))).
Definition new_with_action (previous : option GenerationId) (profile : str) (digest : Digest)
    (entries : list ActivationEntry) (action : option ActivationAction) :
    bundle_result ActivationGeneration :=
  let? id := generation_name
    {| identity_schema := ACTIVATION_SCHEMA_VERSION; identity_previous := previous;
       identity_profile := profile; identity_digest := digest; identity_entries := entries;
       identity_action := action |} in
  let generation :=
    {| generation_schema := ACTIVATION_SCHEMA_VERSION; generation_id := id;
       previous_generation := previous; profile_id := profile; profile_digest := digest;
       generation_entries := entries; action := action |} in
  check? validate generation in
  Ok generation.
Definition generation_new previous profile digest entries : bundle_result ActivationGeneration :=
  new_with_action previous profile digest entries None.
Definition new_rollback previous profile digest entries app next :
    bundle_result ActivationGeneration :=
  new_with_action (Some previous) profile digest entries (Some (Rollback app next)).

Definition to_cbor (g : ActivationGeneration) : bundle_result bytes :=
  check? validate g in
  to_canonical_vec to_value g.
Definition from_cbor (bs : bytes) : bundle_result ActivationGeneration :=
  let? generation := from_canonical_slice to_value from_slice bs in
  check? validate generation in
  Ok generation.

(** What is read was read by serde. *)
#[local] Strategy opaque [from_canonical_slice].
Lemma from_cbor_read bs g : from_cbor bs = Ok g → from_slice bs = Ok g.
Proof.
  intros Hg. unfold from_cbor in Hg. apply result_bind_ok in Hg as (g' & Hg' & Hg).
  apply result_bind_ok in Hg as ([] & _ & Hg). injection Hg as <-.
  exact (from_canonical_slice_read _ _ _ _ Hg').
Qed.
Lemma from_cbor_valid bs g : from_cbor bs = Ok g → validate g = Ok tt.
Proof.
  intros Hg. unfold from_cbor in Hg. apply result_bind_ok in Hg as (g' & Hg' & Hg).
  apply result_bind_ok in Hg as ([] & Hv & Hg). by injection Hg as <-.
Qed.
End generations.

(** ** Facts *)

Lemma validate_component_ok value label : validate_component value label = Ok tt → safe_component value.
Proof.
  unfold validate_component, activation_error. destruct (_ || _ || _ || _ || _ || _) eqn:Hc; [done|].
  intros _. rewrite !orb_false_iff in Hc. destruct Hc as [[[[[He _] Hd] Hs] _] _].
  apply bool_decide_eq_false in He. apply is_dots_false in Hd as [Hd1 Hd2].
  split; [done..|]. intros Hin. apply not_true_iff_false in Hs. apply Hs.
  apply existsb_exists. exists SLASH. split; [by apply list_elem_of_In|apply Z.eqb_refl].
Qed.

(** An entry that names directories and files of its own only. *)
Record entry_ok (e : ActivationEntry) : Prop := {
  ok_id : safe_component (entry_id e);
  ok_kind : kind_is_installed (entry_kind e) = true;
  ok_version : safe_component (code_version e);
  ok_data : ∀ d, data_generation e = Some d → safe_component d;
  ok_roots : strictly_sorted digest_lt (dependency_roots e) = true;
}.

Definition entry_before (a b : ActivationEntry) : Prop := entry_lt a b = true.

Lemma validate_entries_ok previous l :
  validate_entries previous l = Ok tt →
  Forall entry_ok l ∧ Sorted entry_before l ∧ (∀ p e, previous = Some p → head l = Some e → entry_before p e).
Proof.
  revert previous. induction l as [|e l IH]; intros previous Hv; [done|]. cbn [validate_entries] in Hv.
  unfold activation_error in Hv.
  apply result_bind_ok in Hv as ([] & Hid%validate_logical_id_ok & Hv).
  apply result_bind_ok in Hv as ([] & _ & Hv). apply result_bind_ok in Hv as ([] & Hk & Hv).
  apply result_bind_ok in Hv as ([] & Hver%validate_component_ok & Hv).
  apply result_bind_ok in Hv as ([] & Hdat & Hv). apply result_bind_ok in Hv as ([] & Hroots & Hv).
  apply result_bind_ok in Hv as ([] & Hprev & Hv). apply IH in Hv as (Hl & Hs & Hfirst).
  destruct (kind_is_installed (entry_kind e)) eqn:Hkind; [|done].
  destruct (strictly_sorted digest_lt (dependency_roots e)) eqn:Hsort; [|done].
  split; [|split].
  - constructor; [|done]. split; [apply Hid|done|done| |done].
    intros d Hd. rewrite Hd in Hdat. by apply validate_component_ok in Hdat.
  - constructor; [done|]. destruct l as [|e' l]; constructor. by eapply Hfirst.
  - intros p e' -> [= <-]. unfold entry_before. by destruct (entry_lt p e).
Qed.

Lemma str_lt_irrefl a : str_lt a a = false.
Proof. apply bytes_lt_irrefl. Qed.
Lemma str_lt_trans a b c : str_lt a b = true → str_lt b c = true → str_lt a c = true.
Proof. apply bytes_lt_trans. Qed.

Lemma str_lt_asym a b : str_lt a b = true → str_lt b a = true → False.
Proof. intros Hab Hba. pose proof (str_lt_trans _ _ _ Hab Hba) as Haa. by rewrite str_lt_irrefl in Haa. Qed.

(** A lexicographic order: by [f] first, then by [lt]. *)
Definition lex {A} (f : A → str) (lt : A → A → bool) (a b : A) : bool :=
  if bool_decide (f a = f b) then lt a b else str_lt (f a) (f b).
Lemma lex_trans {A} (f : A → str) (lt : A → A → bool) :
  (∀ a b c, lt a b = true → lt b c = true → lt a c = true) →
  ∀ a b c, lex f lt a b = true → lex f lt b c = true → lex f lt a c = true.
Proof.
  intros Hlt a b c. unfold lex.
  destruct (decide (f a = f b)) as [Hab|Hab]; [rewrite (bool_decide_eq_true_2 (f a = f b)) by done|
    rewrite (bool_decide_eq_false_2 (f a = f b)) by done].
  - rewrite Hab. destruct (bool_decide (f b = f c)); [apply Hlt|done].
  - destruct (decide (f b = f c)) as [Hbc|Hbc].
    + rewrite Hbc in *. rewrite (bool_decide_eq_true_2 (f c = f c)) by done.
      by rewrite (bool_decide_eq_false_2 (f a = f c)) by done.
    + rewrite (bool_decide_eq_false_2 (f b = f c)) by done. intros H1 H2.
      rewrite bool_decide_eq_false_2; [by eapply str_lt_trans|].
      intros Hac. rewrite Hac in H1. by eapply str_lt_asym.
Qed.

Definition entry_key (e : ActivationEntry) : str * str * str :=
  (entry_id e, entry_channel e, BundleKind.as_str (entry_kind e)).

Lemma entry_before_trans a b c : entry_before a b → entry_before b c → entry_before a c.
Proof.
  apply (lex_trans entry_id (lex entry_channel
    (λ a b, str_lt (BundleKind.as_str (entry_kind a)) (BundleKind.as_str (entry_kind b))))).
  apply lex_trans. intros x y z. apply str_lt_trans.
Qed.
Lemma entry_before_key a b : entry_before a b → entry_key a ≠ entry_key b.
Proof.
  unfold entry_before, entry_lt, entry_key. intros Hab [= Hid Hch Hk].
  rewrite Hid, Hch, Hk, !bool_decide_eq_true_2, str_lt_irrefl in Hab by done. done.
Qed.

Lemma sorted_keys l : Sorted entry_before l → NoDup (entry_key <$> l).
Proof.
  intros Hs. apply Sorted_StronglySorted in Hs; [|intros a b c; apply entry_before_trans].
  induction Hs as [|e l _ IH Hall]; [constructor|]. rewrite fmap_cons. constructor; [|done].
  intros (e' & Hk & Hin)%list_elem_of_fmap. rewrite Forall_forall in Hall.
  by apply (entry_before_key e e'); [apply Hall|].
Qed.

(** C39: an accepted activation record names every directory it uses by a single
    safe path component, lists each bundle of a channel once, and is a rollback
    only if there is a generation before it. *)
Theorem validated_generation_is_well_formed g :
  validate g = Ok tt →
  generation_schema g = ACTIVATION_SCHEMA_VERSION ∧ safe_component (profile_id g) ∧
  Forall entry_ok (generation_entries g) ∧ NoDup (entry_key <$> generation_entries g) ∧
  (∀ app next, action g = Some (Rollback app next) →
     safe_component app ∧ is_Some (previous_generation g)).
Proof.
  unfold validate, activation_error. intros Hv.
  apply result_bind_ok in Hv as ([] & Hs & Hv). apply result_bind_ok in Hv as ([] & Ha & Hv).
  apply result_bind_ok in Hv as ([] & Hp%validate_component_ok & Hv).
  apply validate_entries_ok in Hv as (He & Hsorted & _).
  destruct (negb _) eqn:Hn; [done|]. apply negb_false_iff, Z.eqb_eq in Hn.
  split; [done|]. split; [done|]. split; [done|]. split; [by apply sorted_keys|].
  intros app next Hact. rewrite Hact in Ha.
  apply result_bind_ok in Ha as ([] & Hid%validate_logical_id_ok & Ha).
  split; [apply Hid|]. by destruct (previous_generation g).
Qed.

(** ** Names of generations *)

Lemma hex_value_digit z : 0 ≤ z < 16 → hex_value (hex_digit z) = Some z.
Proof.
  intros Hz. assert (Forall (λ z, hex_value (hex_digit z) = Some z) (seqZ 0 16)) as Hall
    by (apply (bool_decide_unpack _); by vm_compute).
  rewrite Forall_forall in Hall. apply Hall, elem_of_seqZ. lia.
Qed.
Lemma hex_digit_value b z : hex_value b = Some z → hex_digit z = b ∧ 0 ≤ z < 16.
Proof.
  assert (Hall : match hex_value b with
                 | Some z => bool_decide (hex_digit z = b) && (0 <=? z) && (z <? 16)
                 | None => true
                 end = true) by (destruct b; vm_compute; reflexivity).
  intros Hz. rewrite Hz in Hall. rewrite !andb_true_iff in Hall. destruct Hall as [[Hd Hlo] Hhi].
  apply bool_decide_eq_true in Hd. split; [done|lia].
Qed.

Lemma parse_pairs_hex bs : parse_pairs (bytes_hex bs) = Some bs.
Proof.
  induction bs as [|b bs IH]; [done|]. cbn. pose proof (byte.unsigned_range b) as Hb.
  rewrite !hex_value_digit by (Z.to_euclidean_division_equations; lia). cbn.
  unfold bytes_hex in IH. rewrite IH. cbn. do 2 f_equal.
  rewrite <-(byte.of_Z_unsigned b) at 3. f_equal. symmetry. apply Z.div_mod. lia.
Qed.

Lemma len_bytes_hex bs : len (bytes_hex bs) = 2 * len bs.
Proof. unfold len. induction bs as [|b bs IH]; [done|]. cbn. unfold bytes_hex in IH. lia. Qed.
Lemma hex_digits bs : forallb (λ b, bool_decide (is_Some (hex_value b))) (bytes_hex bs) = true.
Proof.
  induction bs as [|b bs IH]; [done|]. cbn. pose proof (byte.unsigned_range b) as Hb.
  rewrite !hex_value_digit by (Z.to_euclidean_division_equations; lia). exact IH.
Qed.

Lemma parse_pairs_canonical n bs id :
  length bs = (2 * n)%nat → parse_pairs bs = Some id → bytes_hex id = bs.
Proof.
  revert bs id. induction n as [|n IH]; intros bs id Hl Hp.
  - destruct bs; [|done]. by injection Hp as <-.
  - destruct bs as [|a [|b bs]]; [simpl in Hl; lia..|]. cbn in Hp.
    destruct (hex_value a) as [x|] eqn:Ha; [|done]. destruct (hex_value b) as [y|] eqn:Hb; [|done].
    cbn in Hp. destruct (parse_pairs bs) as [rest|] eqn:Hr; [|done]. cbn in Hp. injection Hp as <-.
    apply hex_digit_value in Ha as [Ha Hx], Hb as [Hb Hy].
    change (bytes_hex (byte.of_Z (16 * x + y) :: rest))
      with (byte_hex (byte.of_Z (16 * x + y)) ++ bytes_hex rest).
    rewrite (IH bs rest ltac:(simpl in Hl; lia) Hr). unfold byte_hex.
    rewrite byte.unsigned_of_Z. unfold byte.wrap. rewrite Z.mod_small by lia.
    replace ((16 * x + y) / 16) with x by (Z.to_euclidean_division_equations; lia).
    replace ((16 * x + y) mod 16) with y by (Z.to_euclidean_division_equations; lia).
    by rewrite Ha, Hb.
Qed.

(** The name of a generation's directory, and the contents of the pointer to
    the active one, determine its ID and are determined by it. *)
Theorem generation_name_roundtrip id value :
  len id = 16 → (parse_generation_id value = Ok id ↔ value = generation_id_hex id).
Proof.
  intros Hid. unfold parse_generation_id, activation_error, generation_id_hex. split.
  - destruct (negb (len value =? 32) || _) eqn:Hc; [done|].
    apply orb_false_iff in Hc as [Hc%negb_false_iff%Z.eqb_eq _]. intros Hp%ok_or_ok.
    symmetry. apply (parse_pairs_canonical 16); [|done]. unfold len in Hc. lia.
  - intros ->. rewrite len_bytes_hex, Hid, hex_digits, parse_pairs_hex. done.
Qed.

Section content.
Context `{Serde GenerationIdentity, PointerWidth} (blake3 : bytes → bytes).

(** Serialization tells identities apart. *)
Definition identity_serialized : Prop := ∀ i j bs,
  to_canonical_vec to_value i = Ok bs → to_canonical_vec to_value j = Ok bs → i = j.

Lemma new_with_action_inv previous profile digest entries act g :
  new_with_action blake3 previous profile digest entries act = Ok g →
  validate g = Ok tt ∧ g = {| generation_schema := ACTIVATION_SCHEMA_VERSION;
    generation_id := generation_id g; previous_generation := previous; profile_id := profile;
    profile_digest := digest; generation_entries := entries; action := act |} ∧
  ∃ bs, to_canonical_vec to_value
      {| identity_schema := ACTIVATION_SCHEMA_VERSION; identity_previous := previous;
         identity_profile := profile; identity_digest := digest; identity_entries := entries;
         identity_action := act |} = Ok bs ∧
    generation_id g = take 16 (blake3 (text "KINDLEBRIDGE-ACTIVATION-GENERATION-V2" ++ [x00] ++ bs)).
Proof.
  unfold new_with_action, generation_name. intros Hn.
  apply result_bind_ok in Hn as (id & Hid & Hn). cbv zeta in Hn.
  apply result_bind_ok in Hn as ([] & Hv & Hn). injection Hn as <-.
  apply result_bind_ok in Hid as (bs & Hbs & Hid). injection Hid as <-.
  split; [done|]. split; [done|]. by exists bs.
Qed.

(** Generations are content-addressed: two generations that were given the
    same ID are the same, or two byte strings whose digests agree in the 16 bytes
    of an ID are at hand. *)
Theorem generation_id_is_content_address p1 f1 d1 e1 a1 g1 p2 f2 d2 e2 a2 g2 :
  identity_serialized →
  new_with_action blake3 p1 f1 d1 e1 a1 = Ok g1 → new_with_action blake3 p2 f2 d2 e2 a2 = Ok g2 →
  generation_id g1 = generation_id g2 →
  g1 = g2 ∨ ∃ x y, x ≠ y ∧ take 16 (blake3 x) = take 16 (blake3 y).
Proof.
  intros Hser H1 H2 Hid.
  apply new_with_action_inv in H1 as (_ & Hg1 & bs1 & Hb1 & Hn1).
  apply new_with_action_inv in H2 as (_ & Hg2 & bs2 & Hb2 & Hn2).
  destruct (decide (bs1 = bs2)) as [->|Hne].
  - left. pose proof (Hser _ _ _ Hb1 Hb2) as [= -> -> -> -> ->]. rewrite Hg1, Hg2. by rewrite Hid.
  - right. eexists _, _. split; [|rewrite <-Hn1, <-Hn2; exact Hid].
    intros Heq. by apply app_inv_head, app_inv_head in Heq.
Qed.
End content.

(** ** A generation *)

#[export] Instance ActivationEntry_eq_dec : EqDecision ActivationEntry.
Proof. solve_decision. Defined.
#[export] Instance ActivationAction_eq_dec : EqDecision ActivationAction.
Proof. solve_decision. Defined.
#[export] Instance GenerationIdentity_eq_dec : EqDecision GenerationIdentity.
Proof. solve_decision. Defined.

Module SampleGeneration.

Definition entry : ActivationEntry :=
  {| entry_id := lit "org.example.reader"; entry_channel := lit "dev";
     entry_kind := BundleKind.Application; entry_root := replicate 32 x01;
     code_version := lit "1-abcdef12"; data_generation := Some (lit "data-1");
     dependency_roots := [] |}.
Definition identity : GenerationIdentity :=
  {| identity_schema := 3; identity_previous := Some (replicate 16 x23);
     identity_profile := lit "kt6-5.17"; identity_digest := replicate 32 x02;
     identity_entries := [entry];
     identity_action := Some (Rollback (lit "org.example.reader") None) |}.

(** A serialization that knows one value, and a digest that pads. *)
#[local] Instance serde : Serde GenerationIdentity :=
  {| to_value i := if decide (i = identity) then Ok (Value.Text (text "reader"))
                   else Err (error_new ErrorCode.CanonicalCbor "other value");
     from_slice _ := Err (error_new ErrorCode.CanonicalCbor "write only") |}.
Definition hash (bs : bytes) : bytes := take 32 (drop 38 bs ++ replicate 32 x00).

Definition generation : ActivationGeneration :=
  {| generation_schema := 3; generation_id := take 16 (hash (text "KINDLEBRIDGE-ACTIVATION-GENERATION-V2" ++
       [x00] ++ [x66; x72; x65; x61; x64; x65; x72]));
     previous_generation := Some (replicate 16 x23); profile_id := lit "kt6-5.17";
     profile_digest := replicate 32 x02; generation_entries := [entry];
     action := Some (Rollback (lit "org.example.reader") None) |}.

Lemma generation_made :
  new_with_action hash (Some (replicate 16 x23)) (lit "kt6-5.17") (replicate 32 x02) [entry]
    (Some (Rollback (lit "org.example.reader") None)) = Ok generation.
Proof. vm_compute. reflexivity. Qed.

Lemma validated_generation_is_well_formed_witness :
  generation_schema generation = ACTIVATION_SCHEMA_VERSION ∧ safe_component (profile_id generation) ∧
  Forall entry_ok (generation_entries generation) ∧
  NoDup (entry_key <$> generation_entries generation) ∧
  (∀ app next, action generation = Some (Rollback app next) →
     safe_component app ∧ is_Some (previous_generation generation)).
Proof. apply (validated_generation_is_well_formed generation). vm_compute. reflexivity. Defined.

Lemma generation_name_roundtrip_witness :
  parse_generation_id (generation_id_hex (replicate 16 x23)) = Ok (replicate 16 x23).
Proof.
  apply (generation_name_roundtrip (replicate 16 x23) (generation_id_hex (replicate 16 x23)) eq_refl).
  reflexivity.
Defined.

Lemma generation_id_is_content_address_witness :
  generation = generation ∨ ∃ x y, x ≠ y ∧ take 16 (hash x) = take 16 (hash y).
Proof.
  refine (generation_id_is_content_address hash _ _ _ _ _ generation _ _ _ _ _ generation _
    generation_made generation_made eq_refl).
  intros i j bs Hi Hj. unfold to_canonical_vec in Hi, Hj. cbn [to_value serde] in Hi, Hj.
  destruct (decide (i = identity)) as [->|]; [|done]. by destruct (decide (j = identity)).
Defined.

End SampleGeneration.
