(* ===== verification/Broker.v ===== *)
(** * The privileged broker: src/device/kindlebridge-broker/src

    [lib.rs], the authorization policy in front of the privileged operations, and the
    one-shot program of [main.rs] around it.  The JSON of a request is read by serde, a
    parameter.  A [str] is its bytes. *)

From S2P Require Import Prelude Text BundleError Paths Cbor BundleModel Verify Activation.

Definition SUPPORTED_BUNDLE_PROFILE : bytes := text "kindlebridge.bundle.v1".

Module Grant.

Inductive Grant : Type :=
| DeviceRead | FsApp | FsUser | BundleInstall | BundlePublishDev | ProcessApp | ShellUser
| NetworkForward | DebugNative | PerfRead | UiCapture | UiInspect | UiInject | DeviceAdmin
| ShellRoot.

(** The order of declaration is the order of the set. *)
Definition index (g : Grant) : Z :=
  match g with
  | DeviceRead => 0 | FsApp => 1 | FsUser => 2 | BundleInstall => 3 | BundlePublishDev => 4
  | ProcessApp => 5 | ShellUser => 6 | NetworkForward => 7 | DebugNative => 8 | PerfRead => 9
  | UiCapture => 10 | UiInspect => 11 | UiInject => 12 | DeviceAdmin => 13 | ShellRoot => 14
  end.
Definition of_index (z : Z) : option Grant :=
  match z with
  | 0 => Some DeviceRead | 1 => Some FsApp | 2 => Some FsUser | 3 => Some BundleInstall
  | 4 => Some BundlePublishDev | 5 => Some ProcessApp | 6 => Some ShellUser
  | 7 => Some NetworkForward | 8 => Some DebugNative | 9 => Some PerfRead | 10 => Some UiCapture
  | 11 => Some UiInspect | 12 => Some UiInject | 13 => Some DeviceAdmin | 14 => Some ShellRoot
  | _ => None
  end.

#[export] Instance Grant_eq_dec : EqDecision Grant.
Proof. solve_decision. Defined.
#[export, refine] Instance Grant_countable : Countable Grant :=
  inj_countable index of_index _.
Proof. by intros []. Defined.

End Grant.
Export (hints) Grant.
Abbreviation Grant := Grant.Grant.

Record AuthenticatedSession : Type := {
  host_key_id : bytes;
  session_id : bytes;
  grants : gset Grant;
}.

(** [AuthenticatedSession::has]. *)
Definition has (s : AuthenticatedSession) (g : Grant) : bool := bool_decide (g ∈ grants s).

Module BrokerOperation.

Inductive BrokerOperation : Type :=
| OpenRootShell
| CommitActivation (bundle_profile generation_id activation_relative_path : bytes)
| AddDevelopmentPublisher (publisher_key : bytes)
| RemoveDevelopmentPublisher (publisher_key : bytes)
| RestartDaemon
| RebootDevice.

End BrokerOperation.
Abbreviation BrokerOperation := BrokerOperation.BrokerOperation.

(** [BrokerOperation::required_grant] and [mutates_device]. *)
Definition required_grant (op : BrokerOperation) : Grant :=
  match op with
  | BrokerOperation.OpenRootShell => Grant.ShellRoot
  | BrokerOperation.CommitActivation _ _ _ => Grant.BundleInstall
  | BrokerOperation.AddDevelopmentPublisher _ | BrokerOperation.RemoveDevelopmentPublisher _ =>
      Grant.BundlePublishDev
  | BrokerOperation.RestartDaemon | BrokerOperation.RebootDevice => Grant.DeviceAdmin
  end.
Definition mutates_device (op : BrokerOperation) : bool := true.

Record BrokerRequest : Type := { session : AuthenticatedSession; operation : BrokerOperation }.
Record BrokerPolicy : Type := { safe_mode : bool; active_bundle_profile : bytes }.

(** [BrokerPolicy::default]. *)
Definition default_policy : BrokerPolicy :=
  {| safe_mode := false; active_bundle_profile := SUPPORTED_BUNDLE_PROFILE |}.

Module AuthorizationError.

Inductive AuthorizationError : Type :=
| SafeMode
| MissingGrant (grant : Grant)
| UnsupportedProfile (profile : bytes)
| InvalidGenerationId
| InvalidActivationPath.

End AuthorizationError.
Abbreviation AuthorizationError := AuthorizationError.AuthorizationError.

Definition is_generation_id (value : bytes) : bool :=
  (len value =? 32) && forallb (λ b, in_span 48 57 b || in_span 97 102 b) value.

(** [format!("apps/generations/{generation_id}/activation.cbor")]. *)
Definition activation_path (generation_id : bytes) : bytes :=
  text "apps/generations/" ++ generation_id ++ text "/activation.cbor".

(** [BrokerPolicy::authorize]. *)
Definition authorize (policy : BrokerPolicy) (request : BrokerRequest) :
    result AuthorizationError unit :=
  check? reject_if (safe_mode policy && mutates_device (operation request))
           AuthorizationError.SafeMode in
  let required := required_grant (operation request) in
  check? reject_if (negb (has (session request) required))
           (AuthorizationError.MissingGrant required) in
  match operation request with
  | BrokerOperation.CommitActivation bundle_profile generation_id activation_relative_path =>
      check? reject_if (negb (bool_decide (bundle_profile = SUPPORTED_BUNDLE_PROFILE))
                        || negb (bool_decide (bundle_profile = active_bundle_profile policy)))
               (AuthorizationError.UnsupportedProfile bundle_profile) in
      check? reject_if (negb (is_generation_id generation_id))
               AuthorizationError.InvalidGenerationId in
      reject_if (negb (bool_decide (activation_relative_path = activation_path generation_id)))
        AuthorizationError.InvalidActivationPath
  | _ => Ok tt
  end.

(** ** [main.rs]: what is printed ([allowed]) and the exit code.  [input] is the text on
    standard input, unless reading it fails; [from_str] is serde's reading of a request. *)
Record Response : Type := { allowed : bool; exit_code : Z }.
Definition broker_main (from_str : bytes → option BrokerRequest) (input : option bytes) : Response :=
  match input with
  | None => {| allowed := false; exit_code := 2 |}
  | Some input =>
      match from_str input with
      | None => {| allowed := false; exit_code := 2 |}
      | Some request =>
          match authorize default_policy request with
          | Ok tt => {| allowed := true; exit_code := 0 |}
          | Err _ => {| allowed := false; exit_code := 1 |}
          end
      end
  end.

(** ** The policy *)

(** What the policy means: outside the safe mode, the grant of the operation itself, and for
    an activation the one supported profile and the record of a generation, at the place
    where the install store keeps it. *)
Record permitted (policy : BrokerPolicy) (request : BrokerRequest) : Prop := {
  permitted_mode : safe_mode policy = false;
  permitted_grant : required_grant (operation request) ∈ grants (session request);
  permitted_commit profile generation path :
    operation request = BrokerOperation.CommitActivation profile generation path →
    profile = SUPPORTED_BUNDLE_PROFILE ∧ active_bundle_profile policy = SUPPORTED_BUNDLE_PROFILE ∧
    ∃ id, len id = 16 ∧ generation = generation_id_hex id ∧
      split_text x2f path = [text "apps"; text "generations"; generation_id_hex id; text "activation.cbor"];
}.

Lemma hex_value_is_digit b : is_Some (hex_value b) ↔ in_span 48 57 b || in_span 97 102 b = true.
Proof. unfold hex_value. destruct (in_span 48 57 b), (in_span 97 102 b); naive_solver. Qed.

Lemma is_generation_id_iff value :
  is_generation_id value = true ↔ ∃ id, len id = 16 ∧ value = generation_id_hex id.
Proof.
  unfold is_generation_id. split.
  - intros [Hlen Hhex]%andb_true_iff. apply Z.eqb_eq in Hlen.
    assert (∃ id, parse_pairs value = Some id ∧ length id = 16%nat) as (id & Hid & Hl).
    { assert (∀ n bs, length bs = (2 * n)%nat →
        forallb (λ b, in_span 48 57 b || in_span 97 102 b) bs = true →
        ∃ id, parse_pairs bs = Some id ∧ length id = n) as Hpairs.
      { clear. induction n as [|n IH]; intros bs Hl Hf.
        - destruct bs; [|simpl in Hl; lia]. by exists [].
        - destruct bs as [|a [|b bs]]; simpl in Hl; try lia. simpl in Hf.
          apply andb_true_iff in Hf as [Ha [Hb Hf]%andb_true_iff].
          apply hex_value_is_digit in Ha as [x Ha]. apply hex_value_is_digit in Hb as [y Hb].
          destruct (IH bs) as (id & Hid & Hlen); [lia|done|].
          cbn [parse_pairs]. rewrite Ha, Hb. cbn. rewrite Hid. cbn. eexists. split; [done|].
          simpl. by rewrite Hlen. }
      apply (Hpairs 16%nat); [unfold len in Hlen; lia|done]. }
    exists id. split; [unfold len; lia|]. symmetry.
    apply (parse_pairs_canonical 16); [unfold len in Hlen; lia|done].
  - intros (id & Hid & ->). unfold generation_id_hex. rewrite len_bytes_hex, Hid. cbn [Z.eqb].
    apply andb_true_iff. split; [done|]. rewrite forallb_forall. intros b Hb.
    apply hex_value_is_digit.
    pose proof (hex_digits id) as Hd. rewrite forallb_forall in Hd.
    specialize (Hd b Hb). by apply bool_decide_eq_true in Hd.
Qed.

Lemma hex_has_no_slash id : x2f ∉ generation_id_hex id.
Proof.
  intros Hin. pose proof (hex_digits id) as Hd. rewrite forallb_forall in Hd.
  apply list_elem_of_In, Hd in Hin. by vm_compute in Hin.
Qed.

Lemma activation_path_components id :
  split_text x2f (activation_path (generation_id_hex id)) =
    [text "apps"; text "generations"; generation_id_hex id; text "activation.cbor"].
Proof.
  unfold activation_path.
  change (text "apps/generations/") with (text "apps" ++ x2f :: text "generations" ++ [x2f]).
  change (text "/activation.cbor") with (x2f :: text "activation.cbor").
  rewrite <-app_assoc. cbn [app]. rewrite <-(app_assoc (text "generations")).
  rewrite split_text_head by (apply (bool_decide_unpack _); by vm_compute). cbn [app]. f_equal.
  rewrite split_text_head by (apply (bool_decide_unpack _); by vm_compute). f_equal.
  rewrite split_text_head by apply hex_has_no_slash. f_equal.
Qed.

(** C24: The broker allows exactly what its policy means: nothing in safe mode, no operation
    without the grant for it (whatever other grants the host has), and the activation only of
    the supported profile, of a well-formed generation name, and of the record in that
    generation's own directory: four fixed path components, so that no path leads anywhere
    else. *)
Theorem broker_allows_exactly_the_policy policy request :
  authorize policy request = Ok tt ↔ permitted policy request.
Proof.
  unfold authorize, mutates_device. rewrite andb_true_r. split.
  - intros ([] & Hsafe%reject_if_ok & Hauth)%result_bind_ok.
    apply result_bind_ok in Hauth as ([] & Hgrant%reject_if_ok%negb_false_iff & Hauth).
    apply bool_decide_eq_true in Hgrant. split; [done|done|].
    intros profile generation path Hop. rewrite Hop in Hauth.
    apply result_bind_ok in Hauth as ([] & Hp%reject_if_ok & Hauth).
    apply orb_false_iff in Hp as [Hp1%negb_false_iff%bool_decide_eq_true
      Hp2%negb_false_iff%bool_decide_eq_true].
    apply result_bind_ok in Hauth as ([] & Hid%reject_if_ok%negb_false_iff & Hpath%reject_if_ok).
    apply negb_false_iff, bool_decide_eq_true in Hpath.
    apply is_generation_id_iff in Hid as (id & Hlen & ->). subst path profile.
    split; [done|]. split; [done|]. exists id. split_and!; try done. apply activation_path_components.
  - intros [-> Hgrant Hcommit]. cbn [reject_if result_bind]. unfold has.
    rewrite bool_decide_eq_true_2 by done. cbn [negb reject_if result_bind].
    destruct (operation request) as [|profile generation path| | | |] eqn:Hop; try done.
    destruct (Hcommit profile generation path eq_refl) as (-> & -> & id & Hlen & -> & Hsplit).
    rewrite !bool_decide_eq_true_2 by done. cbn [negb orb reject_if result_bind].
    rewrite (proj2 (is_generation_id_iff _)) by eauto. cbn [negb reject_if result_bind].
    rewrite bool_decide_eq_true_2; [done|]. apply (split_text_inj x2f).
    by rewrite Hsplit, activation_path_components.
Qed.

(** The program answers [allowed] and exit code 0 for exactly the permitted requests, under
    the policy that is compiled in. *)
Theorem broker_program_follows_the_policy from_str input :
  broker_main from_str input = {| allowed := true; exit_code := 0 |} ↔
  ∃ bs request, input = Some bs ∧ from_str bs = Some request ∧ authorize default_policy request = Ok tt.
Proof.
  unfold broker_main. destruct input as [bs|]; [|by split; [|intros (? & ? & ? & _)]].
  destruct (from_str bs) as [request|] eqn:Hr;
    [|by split; [|intros (? & ? & [= <-] & ? & _); congruence]].
  destruct (authorize default_policy request) as [[]|e] eqn:Ha.
  - split; [by intros _; exists bs, request|done].
  - split; [done|]. intros (? & ? & [= <-] & ? & ?). congruence.
Qed.

(** ** Examples *)

Definition admin_session : AuthenticatedSession :=
  {| host_key_id := replicate 32 x01; session_id := replicate 32 x02;
     grants := {[Grant.DeviceRead; Grant.BundleInstall]} |}.

Example transport_trust_is_not_publisher_trust :
  authorize default_policy
    {| session := admin_session;
       operation := BrokerOperation.AddDevelopmentPublisher (replicate 32 x03) |} =
  Err (AuthorizationError.MissingGrant Grant.BundlePublishDev).
Proof. by vm_compute. Qed.

Example activation_path_is_reconstructed :
  authorize default_policy
    {| session := admin_session;
       operation := BrokerOperation.CommitActivation SUPPORTED_BUNDLE_PROFILE
         (text "0123456789abcdef0123456789abcdef") (text "../../etc/shadow") |} =
  Err AuthorizationError.InvalidActivationPath.
Proof. by vm_compute. Qed.
