(* ===== verification/Files.v ===== *)
(** * Files

    What the device code uses of [std::fs] below one directory: a tree of nodes by
    path and the system calls on it.  Every call may fail, and a call that fails is
    taken from [faults], so that a run with faults covers I/O errors and a process that
    stops between two calls.  A failed [write_all] leaves some of its bytes behind.

    The effects of the calls that were made are kept, in their order: there is one tree and
    not a volatile one beside a durable one.  So [sync_all] and [sync_dir] are calls that may
    fail and nothing more; that a file is synchronized before it is renamed is not what
    the theorems rest on, and a missing synchronization would not show in them. *)

From S2P Require Import Prelude.

(** [std::io::ErrorKind] as far as the code looks at it. *)
Inductive IoErrorKind : Type := NotFound | AlreadyExists | OtherIo.

(** [From<io::Error>], the conversion of [?]. *)
Class FromIo (E : Type) := from_io : IoErrorKind → E.
#[export] Instance io_from_io : FromIo IoErrorKind := λ e, e.

(** ** The directory tree *)

(** A path below the root, by its components. *)
Abbreviation path := (list bytes).

Inductive Node : Type :=
| Regular (content : bytes) (executable : bool)
| Directory
| Symlink (target : bytes).

#[export] Instance Node_eq_dec : EqDecision Node.
Proof. solve_decision. Defined.

Record Disk : Type := {
  tree : gmap path Node;
  (** What the next system calls do: [Some n] fails, after [n] bytes if it is a
      write. *)
  faults : list (option nat);
  temp_counter : Z;
  process_id : Z;
}.

Definition set_tree (t : gmap path Node) (d : Disk) : Disk :=
  {| tree := t; faults := faults d; temp_counter := temp_counter d;
     process_id := process_id d |}.
Definition set_faults (l : list (option nat)) (d : Disk) : Disk :=
  {| tree := tree d; faults := l; temp_counter := temp_counter d; process_id := process_id d |}.
Definition set_temp_counter (n : Z) (d : Disk) : Disk :=
  {| tree := tree d; faults := faults d; temp_counter := n; process_id := process_id d |}.

(** Looks up [rest] from the directory [here]. *)
Fixpoint walk (t : gmap path Node) (here rest : path) : result IoErrorKind Node :=
  match t !! here with
  | None => Err NotFound
  | Some n =>
      match rest with
      | [] => Ok n
      | c :: rest =>
          match n with
          | Directory => walk t (here ++ [c]) rest
          | _ => Err OtherIo
          end
      end
  end.
Definition stat (t : gmap path Node) (p : path) : result IoErrorKind Node := walk t [] p.

Definition parent (p : path) : path := take (length p - 1) p.

Section system_calls.
Context {E : Type} `{io : FromIo E}.

(** The names in the directory [p]. *)
Definition child_of (p q : path) : option bytes :=
  match last q with
  | Some name => if bool_decide (parent q = p) then Some name else None
  | None => None
  end.
Definition children (t : gmap path Node) (p : path) : list bytes :=
  omap (λ e, child_of p e.1) (map_to_list t).

(** [from] and everything below it, at [to]. *)
Definition move_path (from to q : path) : path := to ++ drop (length from) q.
Definition move_tree (from to : path) (t : gmap path Node) : gmap path Node :=
  list_to_map ((λ e, (move_path from to e.1, e.2)) <$>
               map_to_list (filter (λ e, from `prefix_of` e.1) t)) ∪
  filter (λ e, ¬ from `prefix_of` e.1) t.

(** The order in which a directory is read is up to the system. *)
Class DirOrder := {
  dir_order : list bytes → list bytes;
  dir_order_perm : ∀ l, dir_order l ≡ₚ l;
}.
#[export] Instance stored_order : DirOrder | 20 :=
  {| dir_order l := l; dir_order_perm := λ l, Permutation_refl l |}.

(** ** System calls *)

(** Whether the next call fails, and after how many bytes. *)
Definition next_fault : M Disk E (option nat) := λ d,
  match faults d with
  | [] => (d, Ok None)
  | f :: l => (set_faults l d, Ok f)
  end.
Definition gate : M Disk E unit :=
  let! f := next_fault in
  match f with
  | Some _ => mfail (from_io OtherIo)
  | None => mret tt
  end.

Definition symlink_metadata (p : path) : M Disk E Node :=
  do! gate in
  let! d := mget in
  mlift (map_err from_io (stat (tree d) p)).

(** [fs::metadata] on a path without symbolic links. *)
Definition metadata (p : path) : M Disk E Node :=
  let! n := symlink_metadata p in
  match n with
  | Symlink _ => mfail (from_io OtherIo)
  | _ => mret n
  end.

(** [File::open] and [read_to_end]. *)
Definition read_node (p : path) : M Disk E bytes :=
  let! n := metadata p in
  match n with
  | Regular content _ => mret content
  | _ => mfail (from_io OtherIo)
  end.

(** [OpenOptions::new().write(true).create_new(true).open]. *)
Definition create_new (p : path) : M Disk E unit :=
  do! gate in
  let! d := mget in
  match stat (tree d) p, stat (tree d) (parent p) with
  | Ok _, _ => mfail (from_io AlreadyExists)
  | Err NotFound, Ok Directory => mmodify (set_tree (<[p := Regular [] false]> (tree d)))
  | Err e, _ => mfail (from_io e)
  end.

(** [write_all] to the file just created. *)
Definition write_all (p : path) (data : bytes) : M Disk E unit :=
  let! f := next_fault in
  let! d := mget in
  match f with
  | Some n =>
      do! mmodify (set_tree (<[p := Regular (take n data) false]> (tree d))) in
      mfail (from_io OtherIo)
  | None => mmodify (set_tree (<[p := Regular data false]> (tree d)))
  end.

Definition sync_all : M Disk E unit := gate.

(** [fs::rename]: a file replaces a file, a directory an empty directory. *)
Definition rename (from to : path) : M Disk E unit :=
  do! gate in
  let! d := mget in
  match stat (tree d) from, stat (tree d) (parent to) with
  | Ok Directory, Ok Directory =>
      match stat (tree d) to with
      | Ok Directory =>
          if bool_decide (from = to) then mret tt
          else if bool_decide (from `prefix_of` to ∨ children (tree d) to ≠ [])
          then mfail (from_io OtherIo)
          else mmodify (set_tree (move_tree from to (tree d)))
      | Err NotFound =>
          if bool_decide (from `prefix_of` to) then mfail (from_io OtherIo)
          else mmodify (set_tree (move_tree from to (tree d)))
      | _ => mfail (from_io OtherIo)
      end
  | Ok n, Ok Directory =>
      match stat (tree d) to with
      | Ok Directory => mfail (from_io OtherIo)
      | _ => mmodify (set_tree (<[to := n]> (delete from (tree d))))
      end
  | Ok _, _ => mfail (from_io OtherIo)
  | Err e, _ => mfail (from_io e)
  end.

(** [fs::remove_file]. *)
Definition unlink (p : path) : M Disk E unit :=
  do! gate in
  let! d := mget in
  match stat (tree d) p with
  | Ok Directory => mfail (from_io OtherIo)
  | Ok _ => mmodify (set_tree (delete p (tree d)))
  | Err e => mfail (from_io e)
  end.

Definition create_dir (p : path) : M Disk E unit :=
  do! gate in
  let! d := mget in
  match stat (tree d) p, stat (tree d) (parent p) with
  | Ok _, _ => mfail (from_io AlreadyExists)
  | Err NotFound, Ok Directory => mmodify (set_tree (<[p := Directory]> (tree d)))
  | Err e, _ => mfail (from_io e)
  end.

(** [fs::read_dir], the names of the entries. *)
Definition read_dir `{DirOrder} (p : path) : M Disk E (list bytes) :=
  let! n := metadata p in
  let! d := mget in
  match n with
  | Directory => mret (dir_order (children (tree d) p))
  | _ => mfail (from_io OtherIo)
  end.

(** [fs::remove_dir]. *)
Definition remove_dir (p : path) : M Disk E unit :=
  do! gate in
  let! d := mget in
  match stat (tree d) p with
  | Ok Directory =>
      if bool_decide (children (tree d) p ≠ []) then mfail (from_io OtherIo)
      else mmodify (set_tree (delete p (tree d)))
  | Ok _ => mfail (from_io OtherIo)
  | Err e => mfail (from_io e)
  end.

(** [fs::set_permissions] to 0o755. *)
Definition set_permissions (p : path) : M Disk E unit :=
  do! gate in
  let! d := mget in
  match stat (tree d) p with
  | Ok (Regular content _) => mmodify (set_tree (<[p := Regular content true]> (tree d)))
  | Ok _ => mret tt
  | Err e => mfail (from_io e)
  end.

End system_calls.

Definition is_file (n : Node) : bool := match n with Regular _ _ => true | _ => false end.
Definition is_dir (n : Node) : bool := match n with Directory => true | _ => false end.
Definition is_symlink (n : Node) : bool := match n with Symlink _ => true | _ => false end.
Definition node_len (n : Node) : Z := match n with Regular content _ => len content | _ => 0 end.

(** ** Well-formed trees *)

(** Everything below the root lies in a directory. *)
Definition tree_ok (t : gmap path Node) : Prop :=
  ∀ p c, is_Some (t !! (p ++ [c])) → t !! p = Some Directory.

Lemma tree_ok_prefix t a b : tree_ok t → is_Some (t !! (a ++ b)) → b ≠ [] → t !! a = Some Directory.
Proof.
  intros Ht. induction b as [|c b IH] using rev_ind; intros Hs Hne; [done|].
  rewrite app_assoc in Hs. apply Ht in Hs. destruct b as [|x b].
  - by rewrite app_nil_r in Hs.
  - apply IH; [by rewrite Hs|done].
Qed.

Lemma walk_lookup t here rest n : walk t here rest = Ok n → t !! (here ++ rest) = Some n.
Proof.
  revert here. induction rest as [|c rest IH]; intros here; simpl.
  - rewrite app_nil_r. destruct (t !! here); [by intros [= ->]|done].
  - destruct (t !! here) as [[]|]; try done. intros H. apply IH in H. by rewrite <-app_assoc in H.
Qed.

Lemma walk_complete t here rest n :
  tree_ok t → t !! (here ++ rest) = Some n → walk t here rest = Ok n.
Proof.
  intros Ht. revert here. induction rest as [|c rest IH]; intros here Hl; simpl.
  - rewrite app_nil_r in Hl. by rewrite Hl.
  - rewrite (tree_ok_prefix t here (c :: rest)); [|done|by rewrite Hl|done].
    apply IH. by rewrite <-app_assoc.
Qed.

Lemma stat_lookup t p n : stat t p = Ok n → t !! p = Some n.
Proof. apply walk_lookup. Qed.
Lemma stat_complete t p n : tree_ok t → t !! p = Some n → stat t p = Ok n.
Proof. intros Ht Hp. by apply walk_complete. Qed.
Lemma stat_not_found t p e : tree_ok t → stat t p = Err e → t !! p = None.
Proof.
  intros Ht Hs. destruct (t !! p) as [n|] eqn:Hp; [|done].
  by rewrite (stat_complete t p n) in Hs.
Qed.

Lemma parent_snoc p c : parent (p ++ [c]) = p.
Proof. unfold parent. rewrite length_app. simpl. by rewrite Nat.add_sub, take_app_length. Qed.

Lemma tree_ok_insert t p n :
  tree_ok t → (p = [] ∨ t !! parent p = Some Directory) →
  (∀ m, t !! p = Some m → m = Directory → n = Directory) →
  tree_ok (<[p := n]> t).
Proof.
  intros Ht Hp Hn q c Hs. destruct (decide (q ++ [c] = p)) as [<-|Hne].
  - rewrite parent_snoc in Hp. rewrite lookup_insert_ne; [|intros Heq].
    + destruct Hp as [Hp|Hp]; [by destruct q|done].
    + apply (f_equal length) in Heq. rewrite length_app in Heq. simpl in Heq. lia.
  - rewrite lookup_insert_ne in Hs by done. apply Ht in Hs.
    destruct (decide (p = q)) as [->|]; [|by rewrite lookup_insert_ne].
    rewrite lookup_insert, decide_True by done. f_equal. by eapply Hn.
Qed.

Lemma tree_ok_delete t p n :
  tree_ok t → t !! p = Some n → n ≠ Directory → tree_ok (delete p t).
Proof.
  intros Ht Hp Hn q c Hs. destruct (decide (p = q ++ [c])) as [->|Hne].
  - rewrite lookup_delete, decide_True in Hs by done. by destruct Hs.
  - rewrite lookup_delete_ne in Hs by done. apply Ht in Hs.
    rewrite lookup_delete_ne; [done|]. intros ->. congruence.
Qed.

(** *** Directories *)

Lemma elem_of_children t p name : name ∈ children t p ↔ is_Some (t !! (p ++ [name])).
Proof.
  unfold children. rewrite list_elem_of_omap. split.
  - intros ([q n] & Hq & Hc). apply elem_of_map_to_list in Hq. unfold child_of in Hc. cbn [fst] in Hc.
    destruct q as [|c q _] using rev_ind; [done|]. rewrite last_snoc, parent_snoc in Hc.
    destruct (decide (q = p)) as [->|]; [|by rewrite bool_decide_eq_false_2 in Hc].
    rewrite bool_decide_eq_true_2 in Hc by done. injection Hc as ->. by exists n.
  - intros [n Hn]. exists (p ++ [name], n). split; [by apply elem_of_map_to_list|].
    unfold child_of. cbn [fst]. by rewrite last_snoc, parent_snoc, bool_decide_eq_true_2 by done.
Qed.

Lemma children_nil t p : children t p = [] ↔ ∀ name, t !! (p ++ [name]) = None.
Proof.
  split.
  - intros Hc name. apply eq_None_not_Some. rewrite <-elem_of_children, Hc. apply not_elem_of_nil.
  - intros Hn. destruct (children t p) as [|name l] eqn:Hc; [done|exfalso].
    assert (Hin : name ∈ children t p) by (rewrite Hc; by left).
    apply elem_of_children in Hin. rewrite Hn in Hin. by destruct Hin.
Qed.

Lemma NoDup_children t p : NoDup (children t p).
Proof.
  unfold children. pose proof (NoDup_fst_map_to_list t) as Hnd. revert Hnd.
  induction (map_to_list t) as [|[q n] l IH]; [constructor|]. cbn.
  intros [Hq Hl]%NoDup_cons. unfold child_of at 1. cbn [fst].
  destruct q as [|c q _] using rev_ind; [by apply IH|]. rewrite last_snoc, parent_snoc.
  destruct (decide (q = p)) as [->|Hne].
  - rewrite bool_decide_eq_true_2 by done. constructor; [|by apply IH].
    intros ([q' m] & Hin & Hc)%list_elem_of_omap. unfold child_of in Hc. cbn [fst] in Hc.
    destruct q' as [|c' q' _] using rev_ind; [done|]. rewrite last_snoc, parent_snoc in Hc.
    destruct (decide (q' = p)) as [->|]; [|by rewrite bool_decide_eq_false_2 in Hc].
    rewrite bool_decide_eq_true_2 in Hc by done. injection Hc as ->. apply Hq.
    apply list_elem_of_fmap. by exists (p ++ [c], m).
  - rewrite bool_decide_eq_false_2 by done. by apply IH.
Qed.

Lemma tree_ok_remove_dir t p :
  tree_ok t → (∀ name, t !! (p ++ [name]) = None) → tree_ok (delete p t).
Proof.
  intros Ht Hp q c Hs. destruct (decide (p = q ++ [c])) as [->|Hne].
  - rewrite lookup_delete, decide_True in Hs by done. by destruct Hs.
  - rewrite lookup_delete_ne in Hs by done.
    rewrite lookup_delete_ne; [by eapply Ht|]. intros ->. rewrite Hp in Hs. by destruct Hs.
Qed.

Lemma lookup_move_inside t from to r n :
  t !! (from ++ r) = Some n → move_tree from to t !! (to ++ r) = Some n.
Proof.
  intros Hn. unfold move_tree. apply lookup_union_Some_l.
  apply elem_of_list_to_map_1'.
  - intros m Hm. apply list_elem_of_fmap in Hm as ([q x] & Heq & Hin).
    apply elem_of_map_to_list, map_lookup_filter_Some in Hin as [Hq Hpre]. cbn in *.
    destruct Hpre as [r' ->]. injection Heq as Heq ->. unfold move_path in Heq.
    rewrite drop_app_length in Heq. apply app_inv_head in Heq as ->. congruence.
  - apply list_elem_of_fmap. exists (from ++ r, n). split.
    + unfold move_path. cbn. by rewrite drop_app_length.
    + apply elem_of_map_to_list, map_lookup_filter_Some. split; [done|]. by eexists.
Qed.

Lemma lookup_move_outside t from to q :
  (∀ r, q = to ++ r → t !! (from ++ r) = None) →
  move_tree from to t !! q = if decide (from `prefix_of` q) then None else t !! q.
Proof.
  intros Hout. unfold move_tree. rewrite lookup_union_r.
  - destruct (decide (from `prefix_of` q)) as [Hp|Hp].
    + apply map_lookup_filter_None_2. right. by intros n Hn Hf.
    + destruct (t !! q) as [n|] eqn:Hn.
      * by apply map_lookup_filter_Some.
      * apply map_lookup_filter_None_2. by left.
  - apply not_elem_of_list_to_map_1. rewrite <-list_fmap_compose.
    intros ([p n] & Hq & Hin)%list_elem_of_fmap.
    apply elem_of_map_to_list, map_lookup_filter_Some in Hin as [Hn Hpre]. cbn in *.
    destruct Hpre as [r ->]. unfold move_path in Hq. rewrite drop_app_length in Hq.
    rewrite (Hout r Hq) in Hn. done.
Qed.

(** A move to a name that is free. *)
Lemma free_below t p r : tree_ok t → t !! p = None → t !! (p ++ r) = None.
Proof.
  intros Ht Hp. destruct r as [|c r]; [by rewrite app_nil_r|]. apply eq_None_not_Some. intros Hs.
  apply tree_ok_prefix in Hs; [congruence|done|done].
Qed.
Lemma lookup_move_to t from to r :
  tree_ok t → t !! to = None → move_tree from to t !! (to ++ r) = t !! (from ++ r).
Proof.
  intros Ht Hto. destruct (t !! (from ++ r)) as [n|] eqn:Hn; [by apply lookup_move_inside|].
  rewrite lookup_move_outside.
  - destruct (decide _); [done|]. by apply free_below.
  - by intros r' ->%app_inv_head.
Qed.
Lemma lookup_move_other t from to q :
  ¬ to `prefix_of` q → move_tree from to t !! q = if decide (from `prefix_of` q) then None else t !! q.
Proof. intros Hq. apply lookup_move_outside. intros r ->. destruct Hq. by exists r. Qed.

Lemma prefix_snoc_cases (p q : path) c : p `prefix_of` q ++ [c] → p = q ++ [c] ∨ p `prefix_of` q.
Proof.
  intros [r Hr]. destruct r as [|x r _] using rev_ind; [left; by rewrite app_nil_r in Hr|].
  right. rewrite app_assoc in Hr. apply app_inj_2 in Hr as [-> _]; [|done]. by exists r.
Qed.

Lemma tree_ok_move t from to :
  tree_ok t → t !! to = None → t !! parent to = Some Directory → to ≠ [] →
  ¬ from `prefix_of` to → tree_ok (move_tree from to t).
Proof.
  intros Ht Hto Hpar Hne Hfrom q c Hs.
  assert (Hother : ∀ p, t !! p = Some Directory → ¬ from `prefix_of` p →
    move_tree from to t !! p = Some Directory).
  { intros p Hp Hf. rewrite lookup_move_other; [by rewrite decide_False|].
    intros [r ->]. by rewrite (free_below t to r Ht Hto) in Hp. }
  destruct (decide (to `prefix_of` q ++ [c])) as [Hpre|Hpre].
  - apply prefix_snoc_cases in Hpre as [->|[r ->]].
    + rewrite parent_snoc in Hpar. apply Hother; [done|]. intros Hf. apply Hfrom. by apply prefix_app_r.
    + rewrite <-app_assoc, lookup_move_to, app_assoc in Hs by done. rewrite lookup_move_to by done. by eapply Ht.
  - rewrite lookup_move_other in Hs by done. destruct (decide _) as [|Hf]; [by destruct Hs|].
    apply Hother; [by eapply Ht|]. intros Hq. apply Hf. by apply prefix_app_r.
Qed.

(** A move over an empty directory. *)
Definition nothing_below (t : gmap path Node) (p : path) : Prop := ∀ c r, t !! (p ++ c :: r) = None.
Lemma free_nothing_below t p : tree_ok t → t !! p = None → nothing_below t p.
Proof. intros Ht Hp c r. by apply free_below. Qed.
Lemma children_nothing_below t p : tree_ok t → children t p = [] → nothing_below t p.
Proof.
  intros Ht Hc c r. rewrite (cons_middle c p r), app_assoc. apply free_below; [done|]. by apply children_nil.
Qed.
Lemma lookup_move_over t from to r :
  is_Some (t !! from) → nothing_below t to → move_tree from to t !! (to ++ r) = t !! (from ++ r).
Proof.
  intros Hfrom Hto. destruct (t !! (from ++ r)) as [n|] eqn:Hn; [by apply lookup_move_inside|].
  destruct r as [|c r]; [rewrite app_nil_r in Hn; rewrite Hn in Hfrom; by destruct Hfrom|].
  rewrite lookup_move_outside; [by destruct (decide _)|]. intros r' Hr%app_inv_head. by rewrite <-Hr.
Qed.
Lemma tree_ok_move_over t from to :
  tree_ok t → t !! from = Some Directory → nothing_below t to → t !! parent to = Some Directory → to ≠ [] →
  ¬ from `prefix_of` to → tree_ok (move_tree from to t).
Proof.
  intros Ht Hdir Hto Hpar Hne Hfrom q c Hs.
  assert (Hsome : is_Some (t !! from)) by by rewrite Hdir.
  assert (Hother : ∀ p, t !! p = Some Directory → ¬ from `prefix_of` p →
    move_tree from to t !! p = Some Directory).
  { intros p Hp Hf. destruct (decide (to `prefix_of` p)) as [[r ->]|Hn].
    - destruct r as [|x r]; [|by rewrite Hto in Hp]. rewrite lookup_move_over by done. by rewrite app_nil_r.
    - rewrite lookup_move_other by done. by rewrite decide_False. }
  destruct (decide (to `prefix_of` q ++ [c])) as [Hpre|Hpre].
  - apply prefix_snoc_cases in Hpre as [->|[r ->]].
    + rewrite parent_snoc in Hpar. apply Hother; [done|]. intros Hf. apply Hfrom. by apply prefix_app_r.
    + rewrite <-app_assoc, lookup_move_over, app_assoc in Hs by done. rewrite lookup_move_over by done. by eapply Ht.
  - rewrite lookup_move_other in Hs by done. destruct (decide _) as [|Hf]; [by destruct Hs|].
    apply Hother; [by eapply Ht|]. intros Hq. apply Hf. by apply prefix_app_r.
Qed.

(** The tree [t] with [img] as all there is at and below [p]. *)
Definition graft (p : path) (img t : gmap path Node) : gmap path Node :=
  kmap (app p) img ∪ filter (λ e, ¬ p `prefix_of` e.1) t.
Lemma lookup_graft_inside p img t r : graft p img t !! (p ++ r) = img !! r.
Proof.
  unfold graft. rewrite lookup_union_l; [apply lookup_kmap, _|].
  apply map_lookup_filter_None_2. right. intros n _ Hp. apply Hp. by exists r.
Qed.
Lemma lookup_graft_top p img t : graft p img t !! p = img !! [].
Proof. pose proof (lookup_graft_inside p img t []) as Hp. by rewrite app_nil_r in Hp. Qed.
Lemma lookup_graft_outside p img t q : ¬ p `prefix_of` q → graft p img t !! q = t !! q.
Proof.
  intros Hq. unfold graft. rewrite lookup_union_r.
  - destruct (t !! q) as [n|] eqn:Hn; [by apply map_lookup_filter_Some|].
    apply map_lookup_filter_None_2. by left.
  - apply lookup_kmap_None; [apply _|]. intros r ->. destruct Hq. by exists r.
Qed.
Lemma graft_insert p img t r n : <[p ++ r := n]> (graft p img t) = graft p (<[r := n]> img) t.
Proof. unfold graft. by rewrite kmap_insert, insert_union_l by apply _. Qed.
Lemma graft_new p t n : nothing_below t p → <[p := n]> t = graft p {[ [] := n ]} t.
Proof.
  intros Hp. apply map_eq. intros q. destruct (decide (p `prefix_of` q)) as [[r ->]|Hq].
  - rewrite lookup_graft_inside. destruct r as [|c r].
    + rewrite app_nil_r, lookup_insert_eq. by rewrite lookup_singleton_eq.
    + rewrite lookup_insert_ne, Hp, lookup_singleton_ne; [done|done|].
      rewrite <-(app_nil_r p) at 1. by intros ?%app_inv_head.
  - rewrite lookup_graft_outside by done. apply lookup_insert_ne. by intros ->.
Qed.

Section looking.
Context {E : Type} `{io : FromIo E}.

(** ** Calls that only look

    [looks m φ]: [m] leaves the tree alone, and a result of [m] is described by
    [φ]. *)
Definition on_tree (t : gmap path Node) (d : Disk) : Prop := tree d = t.

Definition looks {A} (m : M Disk E A) (φ : gmap path Node → A → Prop) : Prop :=
  ∀ t, hoare (on_tree t) m (λ a d, on_tree t d ∧ φ t a) (on_tree t).

Lemma looks_bind {A B} (m : M Disk E A) (k : A → M Disk E B) φ ψ χ :
  looks m φ → (∀ a, looks (k a) (ψ a)) → (∀ t a b, φ t a → ψ a t b → χ t b) →
  looks (mbnd m k) χ.
Proof.
  intros Hm Hk Hχ t. eapply hoare_bind; [apply Hm|]. intros a s [Hs Hφ].
  specialize (Hk a t s Hs). destruct (k a s) as [s' [b|e]]; [|done].
  destruct Hk as [? Hψ]. split; [done|by eapply Hχ].
Qed.
Lemma looks_seq {A B} (m : M Disk E A) (k : A → M Disk E B) φ χ :
  looks m φ → (∀ a, looks (k a) χ) → looks (mbnd m k) χ.
Proof. intros Hm Hk. eapply looks_bind; [exact Hm|exact Hk|naive_solver]. Qed.
Lemma looks_conseq {A} (m : M Disk E A) φ ψ :
  looks m φ → (∀ t a, φ t a → ψ t a) → looks m ψ.
Proof.
  intros Hm Hφ t. eapply hoare_conseq; [apply (Hm t)|done| |done].
  intros a s [Hs Ha]. split; [done|by apply Hφ].
Qed.
Lemma looks_ret {A} (a : A) (φ : _ → _ → Prop) : (∀ t, φ t a) → looks (mret a) φ.
Proof. intros Hφ t. apply hoare_ret. intros s Hs. by split. Qed.
Lemma looks_fail {A} e (φ : _ → A → Prop) : looks (mfail e) φ.
Proof. intros t. by apply hoare_fail. Qed.
Lemma looks_lift {A} (r : result E A) : looks (mlift r) (λ _ a, r = Ok a).
Proof. intros t. by apply hoare_lift. Qed.
Lemma looks_foreach {A} (m : A → M Disk E unit) l :
  (∀ x, looks (m x) (λ _ _, True)) → looks (mforeach m l) (λ _ _, True).
Proof.
  intros Hm t. eapply hoare_conseq; [apply (hoare_foreach (on_tree t))| | |].
  - intros x _. eapply hoare_conseq; [apply (Hm x t)|done|by intros ? ? []|done].
  - done.
  - done.
  - done.
Qed.

Lemma looks_next_fault : looks next_fault (λ _ _, True).
Proof. intros t d Hd. unfold next_fault. by destruct (faults d). Qed.
Lemma looks_gate : looks gate (λ _ _, True).
Proof.
  eapply looks_seq; [apply looks_next_fault|].
  intros []; [apply looks_fail|by apply looks_ret].
Qed.

Lemma looks_symlink_metadata p : looks (symlink_metadata p) (λ t n, stat t p = Ok n).
Proof.
  intros t. eapply hoare_bind; [apply looks_gate|]. intros [] d [Hd _]. cbn.
  unfold on_tree in Hd. subst t. unfold mlift. by destruct (stat (tree d) p).
Qed.
Lemma looks_metadata p :
  looks (metadata p) (λ t n, stat t p = Ok n).
Proof.
  eapply looks_bind with (ψ := λ n _ n', n' = n); [apply looks_symlink_metadata| |].
  - intros n. destruct n; try apply looks_fail; by apply looks_ret.
  - by intros t a b H ->.
Qed.
Lemma looks_read_node p :
  looks (read_node p) (λ t bs, ∃ x, stat t p = Ok (Regular bs x)).
Proof.
  eapply looks_bind with (ψ := λ n _ bs, ∃ x, n = Regular bs x); [apply looks_metadata| |].
  - intros n. destruct n; try apply looks_fail. apply looks_ret. eauto.
  - intros t n bs H [x ->]. eauto.
Qed.

(** ** Calls that change the tree *)

Lemma hoare_gate t : hoare (on_tree t) gate (λ _, on_tree t) (on_tree t).
Proof. eapply hoare_conseq; [apply looks_gate|done|by intros [] s [? _]|done]. Qed.

(** A call that either fails or replaces the tree [t] by [t']. *)
Definition changes (m : M Disk E unit) (t t' : gmap path Node) : Prop :=
  hoare (on_tree t) m (λ _, on_tree t') (on_tree t).

Lemma hoare_create_new p t :
  hoare (on_tree t) (create_new p)
    (λ _ d, on_tree (<[p := Regular [] false]> t) d ∧ stat t p = Err NotFound ∧
            stat t (parent p) = Ok Directory)
    (on_tree t).
Proof.
  eapply hoare_bind; [apply hoare_gate|]. intros [] d Hd. cbn. unfold on_tree in Hd. rewrite Hd.
  destruct (stat t p) as [|[]]; cbn; try done.
  by destruct (stat t (parent p)) as [[]|]; cbn.
Qed.

Lemma hoare_write_all p data t :
  hoare (on_tree t) (write_all p data)
    (λ _, on_tree (<[p := Regular data false]> t))
    (λ d, ∃ c, on_tree (<[p := Regular c false]> t) d).
Proof.
  intros d Hd. unfold write_all, mbnd. pose proof (looks_next_fault t d Hd) as Hf.
  destruct (next_fault d) as [d' [f|e]] eqn:Hrun.
  - destruct Hf as [Hf _]. unfold on_tree in *. cbn. rewrite Hf. destruct f; cbn; eauto.
  - unfold next_fault in Hrun. by destruct (faults d).
Qed.

Lemma hoare_rename from to n t :
  stat t from = Ok n → n ≠ Directory →
  hoare (on_tree t) (rename from to)
    (λ _ d, on_tree (<[to := n]> (delete from t)) d ∧ stat t to ≠ Ok Directory) (on_tree t).
Proof.
  intros Hn Hd. eapply hoare_bind; [apply hoare_gate|]. intros [] d Hdt. cbn.
  unfold on_tree in Hdt. rewrite Hdt, Hn.
  by destruct n; [|done|]; destruct (stat t (parent to)) as [[]|]; cbn; try done;
    destruct (stat t to) as [[]|]; cbn.
Qed.

Lemma hoare_unlink p t : changes (unlink p) t (delete p t).
Proof.
  eapply hoare_bind; [apply hoare_gate|]. intros [] d Hd. cbn.
  unfold on_tree in Hd. rewrite Hd. by destruct (stat t p) as [[]|]; cbn.
Qed.

Lemma looks_read_dir `{DirOrder} p :
  looks (read_dir p) (λ t names, stat t p = Ok Directory ∧ names ≡ₚ children t p).
Proof.
  intros t. eapply hoare_bind; [apply looks_metadata|]. intros n d [Hd Hn]. cbn.
  unfold on_tree in Hd. rewrite Hd. destruct n; cbn; try done. split; [done|]. split; [done|].
  apply dir_order_perm.
Qed.

Lemma hoare_remove_dir p t :
  hoare (on_tree t) (remove_dir p)
    (λ _ d, on_tree (delete p t) d ∧ stat t p = Ok Directory ∧ ∀ name, t !! (p ++ [name]) = None)
    (on_tree t).
Proof.
  eapply hoare_bind; [apply hoare_gate|]. intros [] d Hd. cbn. unfold on_tree in Hd. rewrite Hd.
  destruct (stat t p) as [[]|] eqn:Hs; cbn; try done.
  destruct (decide (children t p = [])) as [Hc|Hc].
  - rewrite bool_decide_eq_false_2 by naive_solver. cbn. split; [done|]. split; [done|].
    by apply children_nil.
  - rewrite bool_decide_eq_true_2 by done. done.
Qed.

(** A directory is renamed to a name that is free. *)
Lemma hoare_rename_dir from to t :
  tree_ok t → stat t from = Ok Directory → stat t to = Err NotFound →
  hoare (on_tree t) (rename from to)
    (λ _ d, on_tree (move_tree from to t) d ∧ t !! parent to = Some Directory ∧
            ¬ from `prefix_of` to) (on_tree t).
Proof.
  intros Ht Hfrom Hto. eapply hoare_bind; [apply hoare_gate|]. intros [] d Hd. cbn.
  unfold on_tree in Hd. rewrite Hd, Hfrom, Hto.
  destruct (stat t (parent to)) as [[]|] eqn:Hpar; cbn; try done.
  case_bool_decide; cbn; [done|]. split; [done|]. split; [|done]. by apply stat_lookup.
Qed.

(** A directory is renamed, to a name that is free or over an empty directory. *)
Lemma hoare_rename_over from to t :
  tree_ok t → stat t from = Ok Directory → from ≠ to →
  hoare (on_tree t) (rename from to)
    (λ _ d, on_tree (move_tree from to t) d ∧ nothing_below t to ∧
            t !! parent to = Some Directory ∧ ¬ from `prefix_of` to) (on_tree t).
Proof.
  intros Ht Hfrom Hne. eapply hoare_bind; [apply hoare_gate|]. intros [] d Hd. cbn.
  unfold on_tree in Hd. rewrite Hd, Hfrom.
  destruct (stat t (parent to)) as [[]|] eqn:Hpar; cbn; try done. apply stat_lookup in Hpar.
  destruct (stat t to) as [[]|[]] eqn:Hto; cbn; try done.
  - rewrite bool_decide_eq_false_2 by done. case_bool_decide as Hc; cbn; [done|]. split; [done|].
    apply Decidable.not_or in Hc as [Hc Hempty]. split; [|done]. apply children_nothing_below; [done|].
    by destruct (children t to); [|destruct Hempty].
  - case_bool_decide; cbn; [done|]. split; [done|]. split; [|done].
    apply free_nothing_below; [done|]. by eapply stat_not_found.
Qed.

Lemma hoare_create_dir p t :
  hoare (on_tree t) (create_dir p)
    (λ _ d, on_tree (<[p := Directory]> t) d ∧ stat t p = Err NotFound ∧
            stat t (parent p) = Ok Directory)
    (on_tree t).
Proof.
  eapply hoare_bind; [apply hoare_gate|]. intros [] d Hd. cbn. unfold on_tree in Hd. rewrite Hd.
  destruct (stat t p) as [|[]]; cbn; try done.
  by destruct (stat t (parent p)) as [[]|]; cbn.
Qed.

(** A look, and what is done with its result. *)
Lemma hoare_look {A B} (m : M Disk E A) (k : A → M Disk E B) φ t Q (C : Disk → Prop) :
  looks m φ → (∀ d, on_tree t d → C d) → (∀ a, φ t a → hoare (on_tree t) (k a) Q C) →
  hoare (on_tree t) (mbnd m k) Q C.
Proof.
  intros Hm HC Hk. eapply hoare_bind; [eapply hoare_conseq; [apply (Hm t)|done| |exact HC]|].
  - intros a s H. exact H.
  - intros a s [Hs Ha]. by apply Hk.
Qed.

Lemma hoare_call {A B} (m : M Disk E A) (k : A → M Disk E B) P Q' C' Q (C : Disk → Prop) :
  hoare P m Q' C' → (∀ d, C' d → C d) → (∀ a, hoare (Q' a) (k a) Q C) → hoare P (mbnd m k) Q C.
Proof. apply hoare_step. Qed.

(** ** Atomic replacement

    A file is written under a temporary name and then renamed. *)

(** The tree while [data] is on its way to [p] through [temporary]. *)
Definition staged (temporary : path) (c : bytes) (t : gmap path Node) : gmap path Node :=
  <[temporary := Regular c false]> t.
Definition in_flight (temporary p : path) (data : bytes) (t t' : gmap path Node) : Prop :=
  t' = t ∨ (∃ c, t' = staged temporary c t ∧ t !! parent temporary = Some Directory) ∨
  (t' = <[p := Regular data false]> t ∧ t !! parent temporary = Some Directory ∧
   t !! p ≠ Some Directory).

Lemma staged_again temporary c c' t :
  <[temporary := Regular c false]> (staged temporary c' t) = staged temporary c t.
Proof. unfold staged. by rewrite insert_insert, decide_True by done. Qed.

(** Writing the temporary file, before the rename. *)
Lemma hoare_write_temporary temporary p data t (k : M Disk E unit) Q :
  tree_ok t → stat t temporary = Err NotFound →
  (t !! temporary = None → t !! parent temporary = Some Directory →
   hoare (on_tree (staged temporary data t)) k Q (λ d, in_flight temporary p data t (tree d))) →
  hoare (on_tree t) (do! create_new temporary in do! write_all temporary data in do! sync_all in k)
    Q (λ d, in_flight temporary p data t (tree d)).
Proof.
  intros Ht Htemp Hk. pose proof (stat_not_found t temporary _ Ht Htemp) as Hnone.
  eapply hoare_call; [apply hoare_create_new|intros s Hs; by left|].
  intros []. eapply hoare_any. intros s0 (Hs0 & _ & Hdir). apply stat_lookup in Hdir.
  eapply hoare_conseq with (P' := on_tree (staged temporary [] t));
    [|by intros s ->|intros a s H; exact H|intros s H; exact H].
  eapply hoare_call; [apply hoare_write_all| |].
  { intros s [c Hs]. rewrite staged_again in Hs. right; left. eauto. }
  intros []. rewrite staged_again.
  eapply hoare_call; [apply hoare_gate|intros s Hs; right; left; eauto|].
  intros []. by apply Hk.
Qed.

Lemma hoare_write_through temporary p data t (sync : M Disk E unit) :
  tree_ok t → stat t temporary = Err NotFound → looks sync (λ _ _, True) →
  hoare (on_tree t)
    (do! create_new temporary in do! write_all temporary data in do! sync_all in
     do! rename temporary p in sync)
    (λ _ d, in_flight temporary p data t (tree d) ∧ on_tree (<[p := Regular data false]> t) d)
    (λ d, in_flight temporary p data t (tree d)).
Proof.
  intros Ht Htemp Hsync. apply hoare_write_temporary; [done..|]. intros Hnone Hdir.
  assert (Hok : tree_ok (staged temporary data t))
    by (apply tree_ok_insert; [done|by right|congruence]).
  assert (Hfinal : <[p := Regular data false]> (delete temporary (staged temporary data t))
                   = <[p := Regular data false]> t) by (unfold staged; by rewrite delete_insert_id).
  eapply hoare_call; [apply (hoare_rename temporary p (Regular data false)); [|done]| |].
  { apply stat_complete; [done|]. unfold staged. by rewrite lookup_insert, decide_True by done. }
  { intros s Hs. right; left. eauto. }
  intros []. rewrite Hfinal. apply hoare_any. intros d0 [Hd0 Hto].
  assert (Hin : ∀ d, on_tree (<[p := Regular data false]> t) d →
    in_flight temporary p data t (tree d)).
  { intros d Hd. right; right. split; [done|]. split; [done|]. intros Hp. apply Hto.
    apply stat_complete; [done|]. unfold staged. destruct (decide (temporary = p)) as [->|].
    - congruence.
    - by rewrite lookup_insert_ne. }
  eapply hoare_conseq; [apply (Hsync (<[p := Regular data false]> t))|by intros s ->| |exact Hin].
  intros [] s [Hs _]. split; [by apply Hin|done].
Qed.

Lemma hoare_discard (exists_ : M Disk E bool) temporary p data t :
  tree_ok t → t !! temporary = None → temporary ≠ p →
  looks exists_ (λ t b, b = true → ∃ n, stat t temporary = Ok n) →
  hoare (λ d, in_flight temporary p data t (tree d))
    (let! r := mtry exists_ in
     match r with
     | Ok true => let! _ := mtry (unlink temporary) in mret tt
     | _ => mret tt
     end)
    (λ _ d, in_flight temporary p data t (tree d)) (λ d, in_flight temporary p data t (tree d)).
Proof.
  intros Ht Hnone Hne Hex. apply hoare_any. intros d0 Hd0.
  eapply hoare_conseq with (P' := on_tree (tree d0)); [|by intros s ->|intros a s H; exact H|intros s H; exact H].
  eapply hoare_bind with (Q := λ r d, on_tree (tree d0) d ∧
      (r = Ok true → ∃ n, stat (tree d0) temporary = Ok n)).
  { apply hoare_try. eapply hoare_conseq; [apply Hex|done|..].
    - intros a s [? Ha]. split; [done|]. intros [= ->]. by apply Ha.
    - by intros s Hs e. }
  intros [[]|e] d [Hd Hr]; cbn; unfold on_tree in Hd.
  - destruct (Hr eq_refl) as [n Hn]. apply stat_lookup in Hn.
    assert (Hin : ∃ c, tree d0 = staged temporary c t).
    { destruct Hd0 as [Hd0|[(c & Hd0 & _)|[Hd0 _]]]; [congruence|eauto|].
      rewrite Hd0, lookup_insert_ne in Hn by done. congruence. }
    destruct Hin as [c Hc].
    assert (Hdel : delete temporary (tree d0) = t) by (rewrite Hc; by apply delete_insert_id).
    pose proof (hoare_unlink temporary (tree d0) d Hd) as Hu. unfold mbnd, mtry.
    destruct (unlink temporary d) as [d' [[]|e']]; cbn in *; unfold on_tree in Hu.
    + left. congruence.
    + by rewrite Hu.
  - by rewrite Hd.
  - by rewrite Hd.
Qed.

(** Where a replacement can stop: nothing has changed, or there is one new
    temporary file beside [p], or [p] holds [data] and all else is as it was. *)
Definition stopped_at (temp_in : path → path → Prop) (t : gmap path Node) (p : path) (data : bytes)
    (t' : gmap path Node) : Prop :=
  t' = t ∨
  (∃ temporary contents, temp_in (parent p) temporary ∧ t !! temporary = None ∧
     t' = <[temporary := Regular contents false]> t) ∨
  t' = <[p := Regular data false]> t.

(** [p] holds what it held or exactly [data]; but for one temporary file beside
    it nothing else changed. *)
Record replaced_through (temp_in : path → path → Prop) (t : gmap path Node) (p : path) (data : bytes)
    (t' : gmap path Node) : Prop := {
  replaced_ok : tree_ok t';
  replaced_others : ∀ q, q ≠ p → ¬ temp_in (parent p) q → t' !! q = t !! q;
  replaced_target : t' !! p = t !! p ∨ t' !! p = Some (Regular data false);
  replaced_regular : ∀ q, t' !! q = t !! q ∨ ∃ c, t' !! q = Some (Regular c false);
  replaced_stopped : stopped_at temp_in t p data t';
}.
#[global] Arguments replaced_ok {temp_in} t p data t'.
#[global] Arguments replaced_others {temp_in} t p data t'.
#[global] Arguments replaced_target {temp_in} t p data t'.
#[global] Arguments replaced_regular {temp_in} t p data t'.
#[global] Arguments replaced_stopped {temp_in} t p data t'.

Lemma replaced_refl temp_in t p data : tree_ok t → replaced_through temp_in t p data t.
Proof. split; auto. by left. Qed.

Lemma insert_regular (t : gmap path Node) p c q :
  <[p := Regular c false]> t !! q = t !! q ∨
  ∃ c', <[p := Regular c false]> t !! q = Some (Regular c' false).
Proof.
  destruct (decide (p = q)) as [->|]; [right|left; by rewrite lookup_insert_ne].
  exists c. by rewrite lookup_insert, decide_True.
Qed.

Lemma in_flight_replaced temp_in t t' p data name :
  tree_ok t → temp_in (parent p) (parent p ++ [name]) → ¬ temp_in (parent p) p →
  t !! (parent p ++ [name]) = None →
  in_flight (parent p ++ [name]) p data t t' → replaced_through temp_in t p data t'.
Proof.
  intros Ht Htemp Hp Hnone Hin.
  assert (Hne : parent p ++ [name] ≠ p) by (intros Heq; by rewrite Heq in Htemp).
  destruct Hin as [->|[(c & -> & Hdir)|(-> & Hdir & Hfile)]].
  - by apply replaced_refl.
  - unfold staged. split.
    + apply tree_ok_insert; [done|by right|congruence].
    + intros q Hq Hqt. rewrite lookup_insert_ne; [done|]. by intros <-.
    + left. by rewrite lookup_insert_ne.
    + apply insert_regular.
    + right; left. by exists (parent p ++ [name]), c.
  - split.
    + rewrite parent_snoc in Hdir. apply tree_ok_insert; [done|by right|]. intros m Hm ->. congruence.
    + intros q Hq _. by rewrite lookup_insert_ne.
    + right. by rewrite lookup_insert, decide_True by done.
    + apply insert_regular.
    + by right; right.
Qed.

(** The whole replacement, with the name chosen by [unique]. *)
Lemma hoare_replace temp_in (unique : M Disk E path) (write discard : path → M Disk E unit) t p data :
  tree_ok t → ¬ temp_in (parent p) p →
  looks unique (λ t q, ∃ name, q = parent p ++ [name] ∧ temp_in (parent p) q ∧
                  stat t q = Err NotFound) →
  (∀ q, stat t q = Err NotFound →
     hoare (on_tree t) (write q)
       (λ _ d, in_flight q p data t (tree d) ∧ on_tree (<[p := Regular data false]> t) d)
       (λ d, in_flight q p data t (tree d))) →
  (∀ q, t !! q = None → q ≠ p →
     hoare (λ d, in_flight q p data t (tree d)) (discard q)
       (λ _ d, in_flight q p data t (tree d)) (λ d, in_flight q p data t (tree d))) →
  hoare (on_tree t)
    (let! temporary := unique in
     let! r := mtry (write temporary) in
     match r with
     | Ok _ => mret tt
     | Err e => do! discard temporary in mfail e
     end)
    (λ _ d, replaced_through temp_in t p data (tree d) ∧ on_tree (<[p := Regular data false]> t) d)
    (λ d, replaced_through temp_in t p data (tree d)).
Proof.
  intros Ht Htemp Hunique Hwrite Hdiscard.
  eapply hoare_look; [exact Hunique|intros d ->; by apply replaced_refl|].
  intros temporary (name & -> & Hist & Hfree).
  pose proof (stat_not_found t _ _ Ht Hfree) as Hnone.
  pose proof (λ t', in_flight_replaced temp_in t t' p data _ Ht Hist Htemp Hnone) as Hinf.
  eapply hoare_bind with (Q := λ r d, in_flight (parent p ++ [name]) p data t (tree d) ∧
    (is_ok r = true → on_tree (<[p := Regular data false]> t) d)).
  { apply hoare_try. eapply hoare_conseq; [by apply Hwrite|done|by intros [] s []|].
    intros s Hs e. by split. }
  intros [[]|e].
  - apply hoare_ret. intros s [Hs Hnew]. split; [by apply Hinf|by apply Hnew].
  - eapply hoare_call; [eapply hoare_pre; [|apply (Hdiscard (parent p ++ [name]) Hnone)]|exact (λ d, Hinf _)|].
    + by intros s [Hs _].
    + intros Heq. by rewrite Heq in Hist.
    + intros []. apply hoare_fail. exact (λ d, Hinf _).
Qed.

Lemma hoare_set_permissions p t :
  hoare (on_tree t) (set_permissions p)
    (λ _ d, on_tree t d ∨ ∃ c x, t !! p = Some (Regular c x) ∧
              on_tree (<[p := Regular c true]> t) d) (on_tree t).
Proof.
  eapply hoare_bind; [apply hoare_gate|]. intros [] d Hd. cbn. unfold on_tree in Hd. rewrite Hd.
  destruct (stat t p) as [[c x| |]|] eqn:Hs; cbn; auto.
  right. exists c, x. by split; [apply stat_lookup|].
Qed.

(** ** Removing a tree *)

(** Some of what is at or below [p] is gone. *)
Record pruned (p : path) (t t' : gmap path Node) : Prop := {
  pruned_ok : tree_ok t';
  pruned_others : ∀ q, ¬ p `prefix_of` q → t' !! q = t !! q;
  pruned_below : ∀ q, t' !! q = t !! q ∨ t' !! q = None;
}.

Lemma pruned_refl p t : tree_ok t → pruned p t t.
Proof. split; auto. Qed.
Lemma pruned_trans p t1 t2 t3 : pruned p t1 t2 → pruned p t2 t3 → pruned p t1 t3.
Proof.
  intros [_ Ho Hb] [H3 Ho' Hb']. split; [done| |].
  - intros q Hq. rewrite Ho' by done. by apply Ho.
  - intros q. destruct (Hb' q) as [->|?]; auto.
Qed.
Lemma pruned_child p name t t' : pruned (p ++ [name]) t t' → pruned p t t'.
Proof.
  intros [Hok Ho Hb]. split; [done| |done]. intros q Hq. apply Ho.
  intros Hpre. apply Hq. by eapply prefix_app_l.
Qed.
Lemma pruned_delete p t : tree_ok (delete p t) → pruned p t (delete p t).
Proof.
  intros Hok. split; [done| |].
  - intros q Hq. rewrite lookup_delete_ne; [done|]. by intros ->.
  - intros q. destruct (decide (p = q)) as [->|].
    + right. by rewrite lookup_delete, decide_True.
    + left. by rewrite lookup_delete_ne.
Qed.

(** [m] removes things at or below [p] only. *)
Definition prunes (p : path) (m : M Disk E unit) : Prop :=
  ∀ t, tree_ok t → hoare (on_tree t) m (λ _ d, pruned p t (tree d)) (λ d, pruned p t (tree d)).

Lemma prunes_bind p m k : prunes p m → (∀ u, prunes p (k u)) → prunes p (mbnd m k).
Proof.
  intros Hm Hk t Ht. eapply hoare_bind; [by apply Hm|]. intros u. apply hoare_any. intros d0 Hp.
  eapply hoare_conseq; [apply (Hk u (tree d0)), Hp|by intros d ->|..].
  - intros [] d Hd. by eapply pruned_trans.
  - intros d Hd. by eapply pruned_trans.
Qed.
Lemma prunes_look {B : Type} p (m : M Disk E B) (k : B → M Disk E unit) φ :
  looks m φ → (∀ t b, tree_ok t → φ t b →
    hoare (on_tree t) (k b) (λ _ d, pruned p t (tree d)) (λ d, pruned p t (tree d))) →
  prunes p (mbnd m k).
Proof.
  intros Hm Hk t Ht. eapply hoare_look; [exact Hm|intros d ->; by apply pruned_refl|].
  intros b Hb. by apply Hk.
Qed.
Lemma prunes_looks p m φ : looks m φ → prunes p m.
Proof.
  intros Hm t Ht. eapply hoare_conseq; [apply (Hm t)|done| |].
  - intros [] d [-> _]. by apply pruned_refl.
  - intros d ->. by apply pruned_refl.
Qed.
Lemma prunes_child p name m : prunes (p ++ [name]) m → prunes p m.
Proof.
  intros Hm t Ht. eapply hoare_conseq; [by apply Hm|done|..].
  - intros [] d Hd. exact (pruned_child _ _ _ _ Hd).
  - intros d Hd. exact (pruned_child _ _ _ _ Hd).
Qed.
Lemma prunes_foreach {B : Type} p (m : B → M Disk E unit) l : (∀ x, prunes p (m x)) → prunes p (mforeach m l).
Proof.
  intros Hm. induction l as [|x l IH]; cbn [mforeach].
  - apply prunes_looks with (φ := λ _ _, True). by apply looks_ret.
  - by apply prunes_bind.
Qed.

Lemma prunes_unlink_file p n t :
  tree_ok t → stat t p = Ok n → n ≠ Directory →
  hoare (on_tree t) (unlink p) (λ _ d, pruned p t (tree d)) (λ d, pruned p t (tree d)).
Proof.
  intros Ht Hn%stat_lookup Hf. eapply hoare_conseq; [apply hoare_unlink|done|..].
  - intros [] d ->. apply pruned_delete. by eapply tree_ok_delete.
  - intros d ->. by apply pruned_refl.
Qed.

Lemma prunes_remove_dir p : prunes p (remove_dir p).
Proof.
  intros t Ht. eapply hoare_conseq; [apply hoare_remove_dir|done|..].
  - intros [] d (-> & _ & Hnone). by apply pruned_delete, tree_ok_remove_dir.
  - intros d ->. by apply pruned_refl.
Qed.

(** ** Without faults *)

Lemma gate_clear d : faults d = [] → gate d = (d, Ok tt).
Proof. intros Hf. unfold gate, mbnd, next_fault. by rewrite Hf. Qed.

Lemma symlink_metadata_clear p d :
  faults d = [] → symlink_metadata p d = (d, map_err from_io (stat (tree d) p)).
Proof. intros Hf. unfold symlink_metadata, mbnd. by rewrite gate_clear. Qed.

Lemma walk_missing t here p c :
  walk t here p = Ok Directory → t !! (here ++ p ++ [c]) = None →
  walk t here (p ++ [c]) = Err NotFound.
Proof.
  revert here. induction p as [|x p IH]; intros here; simpl.
  - destruct (t !! here) as [[]|]; intros [=]. intros ->. done.
  - destruct (t !! here) as [[]|]; try done. intros Hw Hn. apply IH; [done|].
    by rewrite <-app_assoc.
Qed.

Lemma stat_missing t p :
  tree_ok t → t !! parent p = Some Directory → t !! p = None → stat t p = Err NotFound.
Proof.
  intros Ht Hdir Hn. destruct p as [|c p _] using rev_ind.
  - change (parent []) with (@nil bytes) in Hdir. congruence.
  - rewrite parent_snoc in Hdir. apply walk_missing; [by apply stat_complete|done].
Qed.

End looking.

(** How to see that a tree is well formed. *)
Lemma tree_ok_forall t :
  map_Forall (λ p _, p = [] ∨ t !! parent p = Some Directory) t → tree_ok t.
Proof.
  intros Ht p c [n Hn]. destruct (Ht _ _ Hn) as [Hnil|Hdir]; [by destruct p|].
  by rewrite parent_snoc in Hdir.
Qed.
