(* ===== verification/InstallStore.v ===== *)
(** * The install store: src/crates/kindlebridge-bundle/src/install.rs

    A store keeps content-addressed blocks, the generations that were installed,
    a journal per transaction, and a pointer to the active generation, in the
    files of one directory (Files.v).  The methods of [InstallStore] take its lock
    first, so that they run one after the other; no method panics while it holds
    the lock.  Serialization and BLAKE3 are crates: parameters. *)

From S2P Require Import Prelude Text BundleError Paths Cbor BundleModel Verify Activation Files.

Definition MAX_ACTIVATION_BYTES : Z := 16 * 1024 * 1024.
Definition MAX_JOURNAL_BYTES : Z := 64 * 1024.

Module BlockStatus.

Inductive BlockStatus : Type := Missing | Valid (size : Z) | Corrupt (size : Z).

End BlockStatus.
Abbreviation BlockStatus := BlockStatus.BlockStatus.

Module CommitOutcome.

Inductive CommitOutcome : Type := Committed | AlreadyActive | AlreadyCommitted.

End CommitOutcome.
Abbreviation CommitOutcome := CommitOutcome.CommitOutcome.

Record StagedGeneration : Type := {
  staged_transaction : bytes;
  staged_id : GenerationId;
}.

Module RecoveryAction.

Inductive RecoveryAction : Type :=
| RemovedOrphan (transaction_id : bytes)
| AbortedStaging (transaction_id : bytes)
| CompletedCommit (transaction_id : bytes)
| RecordedCommit (transaction_id : bytes)
| AlreadyCommitted (transaction_id : bytes)
| DiscardedConflict (transaction_id : bytes).

End RecoveryAction.
Abbreviation RecoveryAction := RecoveryAction.RecoveryAction.

(** The root is the directory [Files.v] is about; the lock is not kept. *)
Record InstallStore : Type := {
  block_quota_bytes : Z;
}.

Module TransactionPhase.

Inductive TransactionPhase : Type := Staged | GenerationDurable | Committed.

End TransactionPhase.
Abbreviation TransactionPhase := TransactionPhase.TransactionPhase.

Record TransactionJournal : Type := {
  journal_schema : Z;
  journal_transaction : bytes;
  journal_generation : GenerationId;
  base_generation : option GenerationId;
  phase : TransactionPhase;
}.

Module CrashPoint.

Inductive CrashPoint : Type :=
| NoCrash | AfterGenerationRename | AfterJournalDurable | AfterPointerRename.

End CrashPoint.
Abbreviation CrashPoint := CrashPoint.CrashPoint.

#[export] Instance TransactionPhase_eq_dec : EqDecision TransactionPhase.
Proof. solve_decision. Defined.
#[export] Instance CrashPoint_eq_dec : EqDecision CrashPoint.
Proof. solve_decision. Defined.
#[export] Instance ActivationGeneration_eq_dec : EqDecision ActivationGeneration.
Proof. solve_decision. Defined.
#[export] Instance TransactionJournal_eq_dec : EqDecision TransactionJournal.
Proof. solve_decision. Defined.

Definition set_phase (p : TransactionPhase) (j : TransactionJournal) : TransactionJournal :=
  {| journal_schema := journal_schema j; journal_transaction := journal_transaction j;
     journal_generation := journal_generation j; base_generation := base_generation j;
     phase := p |}.

(** ** Errors *)

Abbreviation install_op A := (M Disk BundleError A).

(** [From<io::Error> for Error]; the text of an [io::Error] is not kept. *)
#[export] Instance bundle_from_io : FromIo BundleError :=
  λ _, error_new ErrorCode.Io "I/O error".

Definition install_error {A} (c : ErrorCode) (m : string) : install_op A :=
  mfail (error_new c m).

(** The result of a system call, its [io::Error] included. *)
Definition attempt {A} (m : M Disk IoErrorKind A) : install_op (result IoErrorKind A) := λ d,
  let '(d', r) := m d in (d', Ok r).

Definition crash_if (actual expected : CrashPoint) : install_op unit :=
  if bool_decide (actual = expected)
  then install_error ErrorCode.Recovery "simulated commit crash point" else mret tt.

(** ** Paths *)

Definition BLOCKS : bytes := text "blocks".
Definition TRANSACTIONS : bytes := text "transactions".
Definition GENERATIONS : bytes := text "generations".
Definition JOURNAL : bytes := text "journal.cbor".
Definition STAGED : bytes := text "staged-generation".
Definition ACTIVATION : bytes := text "activation.cbor".

Definition blocks_dir : path := [BLOCKS].
Definition transactions_dir : path := [TRANSACTIONS].
Definition generations_dir : path := [GENERATIONS].
Definition active_pointer_path : path := [text "active-generation"].
Definition transaction_dir (transaction_id : bytes) : path := transactions_dir ++ [transaction_id].
Definition generation_dir (id : GenerationId) : path := generations_dir ++ [generation_id_hex id].

Definition digest_hex (digest : Digest) : bytes := bytes_hex digest.
Definition block_path (digest : Digest) : path :=
  let hex := digest_hex digest in
  blocks_dir ++ [take 2 hex] ++ [hex ++ text ".block"].

Definition validate_transaction_id (value : bytes) : bundle_result unit :=
  if bool_decide (value = []) || (len value >? 64) ||
     negb (forallb (λ b, in_span 48 57 b || in_span 65 90 b || in_span 97 122 b ||
                         bool_decide (b = x2d) || bool_decide (b = x5f)) value)
  then Err (error_new ErrorCode.Path "invalid transaction ID") else Ok tt.

(** ** Files *)

Definition forbidden_link {A} : install_op A :=
  install_error ErrorCode.Path "symlink/reparse point is forbidden in install root".

Definition reject_reparse (p : path) : install_op unit :=
  let! n := symlink_metadata p in
  match n with
  | Symlink _ => forbidden_link
  | _ => mret tt
  end.

Definition entry_exists (p : path) : install_op bool :=
  let! r := attempt (symlink_metadata p) in
  match r with
  | Ok (Symlink _) => forbidden_link
  | Ok _ => mret true
  | Err NotFound => mret false
  | Err e => mfail (from_io e)
  end.

(** [File::open] and [sync_all]. *)
Definition sync_dir (p : path) : install_op unit :=
  let! _ := metadata p in
  sync_all.

(** [validate_owned_path]; a path of the model is below the root. *)
Definition path_prefixes (p : path) : list path := (λ n, take n p) <$> seq 1 (length p).
Definition validate_owned_path (p : path) : install_op unit :=
  do! reject_reparse [] in
  mforeach (λ q, let! _ := entry_exists q in mret tt) (path_prefixes p).

Definition ensure_directory (p : path) : install_op unit :=
  let! exists_ := entry_exists p in
  if exists_ : bool then
    let! n := metadata p in
    if negb (is_dir n) then install_error ErrorCode.Path "owned path is not a directory"
    else mret tt
  else
    do! reject_reparse (parent p) in
    do! create_dir p in
    sync_dir (parent p).

Definition read_owned_file (p : path) (maximum : Z) : install_op bytes :=
  do! reject_reparse p in
  let! n := metadata p in
  if negb (is_file n) || (maximum <? node_len n)
  then install_error ErrorCode.Bounds "owned file type or size is invalid"
  else
    let! bs := read_node p in
    if negb (len bs =? node_len n)
    then install_error ErrorCode.Io "owned file changed while being read"
    else mret bs.

(** [unique_temp_path]. *)
Definition temp_name (pid counter : Z) : bytes :=
  text ".kbb-tmp-" ++ show_unsigned pid ++ text "-" ++ show_hex 16 counter.
Fixpoint unique_temp_attempts (n : nat) (dir : path) : install_op path :=
  match n with
  | O => install_error ErrorCode.Io "unable to allocate a unique temporary filename"
  | S n =>
      let! d := mget in
      do! mmodify (set_temp_counter ((temp_counter d + 1) mod 2 ^ 64)) in
      let candidate := dir ++ [temp_name (process_id d) (temp_counter d)] in
      let! taken := entry_exists candidate in
      if negb taken then mret candidate else unique_temp_attempts n dir
  end.
Definition unique_temp_path (dir : path) : install_op path := unique_temp_attempts 128 dir.

(** The closure in [atomic_write], and what is done when it fails. *)
Definition write_and_rename (temporary p : path) (data : bytes) : install_op unit :=
  do! create_new temporary in
  do! write_all temporary data in
  do! sync_all in
  do! rename temporary p in
  sync_dir (parent p).
Definition discard_temporary (temporary : path) : install_op unit :=
  let! r := mtry (entry_exists temporary) in
  match r with
  | Ok true => let! _ := mtry (unlink temporary) in mret tt
  | _ => mret tt
  end.

Definition atomic_write (p : path) (data : bytes) (replace : bool) : install_op unit :=
  do! reject_reparse (parent p) in
  let! n := metadata (parent p) in
  if negb (is_dir n) then install_error ErrorCode.Path "atomic-write parent is not a directory"
  else
    let! exists_ := entry_exists p in
    if exists_ && negb replace
    then install_error ErrorCode.Conflict "atomic-write destination exists"
    else
      let! temporary := unique_temp_path (parent p) in
      let! r := mtry (write_and_rename temporary p data) in
      match r with
      | Ok _ => mret tt
      | Err e => do! discard_temporary temporary in mfail e
      end.

(** How deep a tree is: the fuel of the recursive functions. *)
Definition tree_depth (t : gmap path Node) : nat :=
  foldr (λ e n, Nat.max (S (length e.1)) n) O (map_to_list t).
Definition too_deep {A} : install_op A := install_error ErrorCode.Io "directory nesting".

Section directories.
Context `{DirOrder}.

(** [directory_file_bytes]. *)
Definition add_usage (total n : Z) : install_op Z :=
  mlift (ok_or (checked_add u64_max total n) (error_new ErrorCode.Bounds "usage count overflow")).
Fixpoint add_entries (usage_of : path → install_op Z) (p : path) (names : list bytes) (total : Z) :
    install_op Z :=
  match names with
  | [] => mret total
  | name :: names =>
      do! gate in
      let child := p ++ [name] in
      do! reject_reparse child in
      let! n := symlink_metadata child in
      let! total :=
        (if is_dir n then
           let! below := usage_of child in
           add_usage total below
         else if is_file n then
           let! m := symlink_metadata child in
           add_usage total (node_len m)
         else install_error ErrorCode.Path "special file in owned directory") in
      add_entries usage_of p names total
  end.
Fixpoint usage_below (fuel : nat) (p : path) : install_op Z :=
  match fuel with
  | O => too_deep
  | S fuel =>
      do! reject_reparse p in
      let! names := read_dir p in
      add_entries (usage_below fuel) p names 0
  end.
Definition directory_file_bytes (p : path) : install_op Z :=
  let! d := mget in
  usage_below (tree_depth (tree d)) p.

(** [safe_remove_tree]. *)
Definition remove_entry (remove_tree_of : path → install_op unit) (p : path) (name : bytes) :
    install_op unit :=
  do! gate in
  let child := p ++ [name] in
  do! reject_reparse child in
  let! n := symlink_metadata child in
  if is_dir n then remove_tree_of child
  else
    let! n := symlink_metadata child in
    if is_file n then unlink child
    else install_error ErrorCode.Path "refusing to remove a special file".
Fixpoint remove_tree (fuel : nat) (p : path) : install_op unit :=
  match fuel with
  | O => too_deep
  | S fuel =>
      do! reject_reparse p in
      let! n := metadata p in
      if negb (is_dir n)
      then install_error ErrorCode.Path "refusing to recursively remove a non-directory"
      else
        let! names := read_dir p in
        do! mforeach (remove_entry (remove_tree fuel) p) names in
        do! remove_dir p in
        sync_dir (parent p)
  end.
Definition safe_remove_tree (p : path) : install_op unit :=
  let! d := mget in
  remove_tree (tree_depth (tree d)) p.

(** [validate_generation_directory]. *)
Fixpoint check_generation_entries (p : path) (names : list bytes) (seen : bool) : install_op bool :=
  match names with
  | [] => mret seen
  | name :: names =>
      do! gate in
      do! reject_reparse (p ++ [name]) in
      do! (if bool_decide (name ≠ ACTIVATION)
           then install_error ErrorCode.Activation "immutable generation contains an unexpected entry"
           else
             let! n := symlink_metadata (p ++ [name]) in
             if negb (is_file n)
             then install_error ErrorCode.Activation
                    "immutable generation contains an unexpected entry"
             else mret tt) in
      if seen then install_error ErrorCode.Activation "duplicate activation metadata"
      else check_generation_entries p names true
  end.
Definition validate_generation_directory (p : path) : install_op unit :=
  let! names := read_dir p in
  let! seen := check_generation_entries p names false in
  if negb seen then install_error ErrorCode.Activation "generation has no activation metadata"
  else mret tt.
End directories.

(** ** [InstallStore] *)

Definition ensure_layout : install_op unit :=
  do! ensure_directory [] in
  do! ensure_directory blocks_dir in
  do! ensure_directory transactions_dir in
  do! ensure_directory generations_dir in
  sync_dir [].

(** [fs::create_dir_all] of the root; what lies above it is not modelled. *)
Definition create_root : install_op unit :=
  do! gate in
  let! d := mget in
  mmodify (set_tree (<[[] := Directory]> (tree d))).

(** [InstallStore::open]; [fs::canonicalize] is one more call. *)
Definition store_open (quota : Z) : install_op InstallStore :=
  let! exists_ := entry_exists [] in
  do! (if exists_ : bool then
         let! n := metadata [] in
         if negb (is_dir n) then install_error ErrorCode.Path "install root is not a directory"
         else mret tt
       else create_root) in
  do! gate in
  do! reject_reparse [] in
  do! ensure_layout in
  mret {| block_quota_bytes := quota |}.

Section store.
Context `{DirOrder, Serde ActivationGeneration, Serde TransactionJournal, PointerWidth}.
Context (blake3 : bytes → bytes).

(** *** Blocks *)

Definition block_status_unlocked (digest : Digest) : install_op BlockStatus :=
  let p := block_path digest in
  do! validate_owned_path p in
  let! exists_ := entry_exists p in
  if negb exists_ then mret BlockStatus.Missing else
  do! reject_reparse p in
  let! n := metadata p in
  if negb (is_file n) then install_error ErrorCode.Path "block path is not a regular file" else
  let size := node_len n in
  if (size =? 0) || (BLOCK_SIZE <? size) then mret (BlockStatus.Corrupt size) else
  let! bs := read_owned_file p BLOCK_SIZE in
  if bool_decide (blake3 bs = digest) then mret (BlockStatus.Valid size)
  else mret (BlockStatus.Corrupt size).

Definition block_usage_unlocked : install_op Z :=
  do! validate_owned_path blocks_dir in
  directory_file_bytes blocks_dir.

Definition block_usage_bytes : install_op Z := block_usage_unlocked.
Definition block_status (digest : Digest) : install_op BlockStatus := block_status_unlocked digest.

Definition read_block (digest : Digest) : install_op (option bytes) :=
  let! status := block_status_unlocked digest in
  match status with
  | BlockStatus.Missing => mret None
  | BlockStatus.Corrupt _ => install_error ErrorCode.Block "content-addressed block is corrupt"
  | BlockStatus.Valid _ =>
      let! bs := read_owned_file (block_path digest) BLOCK_SIZE in
      mret (Some bs)
  end.

(** [BTreeSet::insert]. *)
Fixpoint set_insert (digest : Digest) (l : list Digest) : list Digest :=
  match l with
  | [] => [digest]
  | x :: l =>
      if bool_decide (digest = x) then x :: l
      else if bytes_le digest x then digest :: x :: l
      else x :: set_insert digest l
  end.
Fixpoint collect_missing (requested unique : list Digest) : install_op (list Digest) :=
  match requested with
  | [] => mret unique
  | digest :: requested =>
      let! status := block_status_unlocked digest in
      collect_missing requested
        match status with
        | BlockStatus.Valid _ => unique
        | _ => set_insert digest unique
        end
  end.
Definition missing_blocks (requested : list Digest) : install_op (list Digest) :=
  collect_missing requested [].

Definition put_block (store : InstallStore) (expected : Digest) (bs : bytes) : install_op bool :=
  if bool_decide (bs = []) || (BLOCK_SIZE <? len bs)
  then install_error ErrorCode.Block "block must contain 1..=65,536 bytes" else
  if bool_decide (blake3 bs ≠ expected)
  then install_error ErrorCode.Block "block does not match its BLAKE3 address" else
  let! status := block_status_unlocked expected in
  match status with
  | BlockStatus.Valid _ => mret false
  | BlockStatus.Corrupt _ =>
      install_error ErrorCode.Block "refusing to overwrite a corrupt content-addressed block"
  | BlockStatus.Missing =>
      let! usage := block_usage_unlocked in
      let! new_usage := mlift (ok_or (checked_add u64_max usage (len bs))
                                 (error_new ErrorCode.Bounds "block quota arithmetic overflow")) in
      if block_quota_bytes store <? new_usage
      then install_error ErrorCode.Quota "block store quota exceeded" else
      let p := block_path expected in
      do! validate_owned_path p in
      do! ensure_directory (parent p) in
      let! r := mtry (atomic_write p bs false) in
      match r with
      | Ok _ => mret true
      | Err e =>
          let! exists_ := entry_exists p in
          if exists_ : bool then
            let! status := block_status_unlocked expected in
            match status with
            | BlockStatus.Valid _ => mret false
            | _ => mfail e
            end
          else mfail e
      end
  end.

(** *** Generations *)

Definition active_generation_id_unlocked : install_op (option GenerationId) :=
  do! validate_owned_path active_pointer_path in
  let! exists_ := entry_exists active_pointer_path in
  if negb exists_ then mret None else
  let! bs := read_owned_file active_pointer_path 64 in
  if negb (utf8_valid bs) then install_error ErrorCode.Activation "active pointer is not UTF-8" else
  let value := match strip_last LF bs with Some value => value | None => bs end in
  let! id := mlift (parse_generation_id value) in
  mret (Some id).

Definition read_activation (p : path) : install_op ActivationGeneration :=
  let! bs := read_owned_file p MAX_ACTIVATION_BYTES in
  mlift (from_cbor bs).

Definition load_generation_unlocked (id : GenerationId) : install_op ActivationGeneration :=
  let directory := generation_dir id in
  do! validate_owned_path directory in
  do! reject_reparse directory in
  let! n := metadata directory in
  if negb (is_dir n) then install_error ErrorCode.Activation "generation path is not a directory" else
  do! validate_generation_directory directory in
  let! generation := read_activation (directory ++ [ACTIVATION]) in
  if bool_decide (generation_id generation ≠ id) ||
     bool_decide (directory_name generation ≠ generation_id_hex id)
  then install_error ErrorCode.Activation "generation directory does not match activation content"
  else mret generation.

Definition write_active_pointer (id : GenerationId) : install_op unit :=
  do! validate_owned_path active_pointer_path in
  atomic_write active_pointer_path (generation_id_hex id ++ [LF]) true.

Definition read_journal (transaction_id : bytes) : install_op TransactionJournal :=
  do! validate_owned_path (transaction_dir transaction_id) in
  let! bs := read_owned_file (transaction_dir transaction_id ++ [JOURNAL]) MAX_JOURNAL_BYTES in
  let! journal := mlift (from_canonical_slice to_value from_slice bs) in
  if negb (journal_schema journal =? 1) ||
     bool_decide (journal_transaction journal ≠ transaction_id)
  then install_error ErrorCode.Recovery "transaction journal identity mismatch"
  else mret journal.

Definition write_journal (journal : TransactionJournal) : install_op unit :=
  let directory := transaction_dir (journal_transaction journal) in
  do! validate_owned_path directory in
  let! bs := mlift (to_canonical_vec to_value journal) in
  atomic_write (directory ++ [JOURNAL]) bs true.

Definition active_generation_id : install_op (option GenerationId) := active_generation_id_unlocked.
Definition load_generation (id : GenerationId) : install_op ActivationGeneration :=
  load_generation_unlocked id.

Definition select_rollback : install_op (option ActivationGeneration) :=
  let! active := active_generation_id_unlocked in
  match active with
  | None => mret None
  | Some active =>
      let! current := load_generation_unlocked active in
      match previous_generation current with
      | None => mret None
      | Some previous =>
          let! g := load_generation_unlocked previous in
          mret (Some g)
      end
  end.

Definition activate_existing (target expected_current : GenerationId) : install_op unit :=
  let! _ := load_generation_unlocked target in
  let! active := active_generation_id_unlocked in
  if bool_decide (active ≠ Some expected_current)
  then install_error ErrorCode.Conflict "active generation changed before rollback"
  else write_active_pointer target.

(** *** Transactions *)

(** [stage_generation] when the transaction directory is there already. *)
Definition restage (transaction_id : bytes) (generation : ActivationGeneration) :
    install_op StagedGeneration :=
  let! journal := read_journal transaction_id in
  if bool_decide (journal_generation journal = generation_id generation) &&
     bool_decide (base_generation journal = previous_generation generation)
  then
    let staged := transaction_dir transaction_id ++ [STAGED] in
    let! exists_ := entry_exists staged in
    let! existing :=
      (if exists_ : bool then read_activation (staged ++ [ACTIVATION])
       else load_generation_unlocked (generation_id generation)) in
    if bool_decide (existing ≠ generation)
    then install_error ErrorCode.Conflict "transaction retry changed immutable generation content"
    else mret {| staged_transaction := transaction_id; staged_id := generation_id generation |}
  else install_error ErrorCode.Conflict "transaction ID already stages different content".

(** The writes of [stage_generation]. *)
Definition stage_new (transaction_id : bytes) (generation : ActivationGeneration) :
    install_op StagedGeneration :=
  do! create_dir (transaction_dir transaction_id) in
  do! sync_dir transactions_dir in
  let staged_dir := transaction_dir transaction_id ++ [STAGED] in
  do! create_dir staged_dir in
  let! activation := mlift (to_cbor generation) in
  do! atomic_write (staged_dir ++ [ACTIVATION]) activation false in
  do! sync_dir staged_dir in
  do! write_journal
        {| journal_schema := 1; journal_transaction := transaction_id;
           journal_generation := generation_id generation;
           base_generation := previous_generation generation;
           phase := TransactionPhase.Staged |} in
  do! sync_dir (transaction_dir transaction_id) in
  mret {| staged_transaction := transaction_id; staged_id := generation_id generation |}.

Definition stage_generation (transaction_id : bytes) (generation : ActivationGeneration) :
    install_op StagedGeneration :=
  do! mlift (validate_transaction_id transaction_id) in
  do! mlift (validate generation) in
  let! active := active_generation_id_unlocked in
  if bool_decide (active ≠ previous_generation generation)
  then install_error ErrorCode.Conflict "activation base changed before generation staging" else
  do! validate_owned_path (transaction_dir transaction_id) in
  let! exists_ := entry_exists (transaction_dir transaction_id) in
  if exists_ : bool then restage transaction_id generation else
  do! validate_owned_path (generation_dir (generation_id generation)) in
  let! exists_ := entry_exists (generation_dir (generation_id generation)) in
  if exists_ : bool
  then install_error ErrorCode.Conflict "generation ID already names immutable content"
  else stage_new transaction_id generation.

(** [commit_generation_unlocked] up to the durable generation. *)
Definition make_durable (transaction_id : bytes) (journal : TransactionJournal) : install_op unit :=
  let staged_dir := transaction_dir transaction_id ++ [STAGED] in
  let directory := generation_dir (journal_generation journal) in
  let! durable := entry_exists directory in
  if durable : bool then
    let! durable_generation := load_generation_unlocked (journal_generation journal) in
    let! exists_ := entry_exists staged_dir in
    if exists_ : bool then
      let! staged_generation := read_activation (staged_dir ++ [ACTIVATION]) in
      if bool_decide (staged_generation ≠ durable_generation) ||
         bool_decide (generation_id staged_generation ≠ journal_generation journal) ||
         bool_decide (previous_generation staged_generation ≠ base_generation journal)
      then install_error ErrorCode.Conflict
             "generation ID collision with different immutable content"
      else safe_remove_tree staged_dir
    else mret tt
  else
    let! exists_ := entry_exists staged_dir in
    if negb exists_
    then install_error ErrorCode.Recovery "transaction has neither staged nor durable generation"
    else
      let! staged_generation := read_activation (staged_dir ++ [ACTIVATION]) in
      if bool_decide (generation_id staged_generation ≠ journal_generation journal) ||
         bool_decide (previous_generation staged_generation ≠ base_generation journal)
      then install_error ErrorCode.Recovery "staged generation does not match its journal"
      else
        do! rename staged_dir directory in
        sync_dir generations_dir.

Definition commit_generation_unlocked (transaction_id : bytes) (crash_point : CrashPoint) :
    install_op CommitOutcome :=
  let! journal := read_journal transaction_id in
  if bool_decide (phase journal = TransactionPhase.Committed)
  then mret CommitOutcome.AlreadyCommitted else
  do! make_durable transaction_id journal in
  do! crash_if crash_point CrashPoint.AfterGenerationRename in
  let journal := set_phase TransactionPhase.GenerationDurable journal in
  do! write_journal journal in
  do! crash_if crash_point CrashPoint.AfterJournalDurable in
  let! active := active_generation_id_unlocked in
  if bool_decide (active = Some (journal_generation journal)) then
    do! write_journal (set_phase TransactionPhase.Committed journal) in
    mret CommitOutcome.AlreadyActive
  else if bool_decide (active ≠ base_generation journal)
  then install_error ErrorCode.Conflict "active generation changed during transaction"
  else
    do! write_active_pointer (journal_generation journal) in
    do! crash_if crash_point CrashPoint.AfterPointerRename in
    do! write_journal (set_phase TransactionPhase.Committed journal) in
    mret CommitOutcome.Committed.

Definition commit_generation (transaction_id : bytes) : install_op CommitOutcome :=
  do! mlift (validate_transaction_id transaction_id) in
  commit_generation_unlocked transaction_id CrashPoint.NoCrash.

(** *** Recovery *)

(** The loop of [recover] over the entries of the transactions directory. *)
Fixpoint transaction_names (names : list bytes) : install_op (list bytes) :=
  match names with
  | [] => mret []
  | name :: names =>
      do! gate in
      do! reject_reparse (transactions_dir ++ [name]) in
      let! n := symlink_metadata (transactions_dir ++ [name]) in
      if negb (is_dir n)
      then install_error ErrorCode.Recovery "unexpected non-directory in transactions store" else
      if negb (utf8_valid name)
      then install_error ErrorCode.Recovery "non-UTF-8 transaction name" else
      do! mlift (validate_transaction_id name) in
      let! ids := transaction_names names in
      mret (name :: ids)
  end.

(** A transaction whose generation is durable and not known to be active. *)
Definition settle (transaction_id : bytes) (journal : TransactionJournal) :
    install_op RecoveryAction :=
  let staged := transaction_dir transaction_id ++ [STAGED] in
  let! durable := load_generation_unlocked (journal_generation journal) in
  let! exists_ := entry_exists staged in
  do! (if exists_ : bool then
         let! staged_generation := read_activation (staged ++ [ACTIVATION]) in
         if bool_decide (staged_generation ≠ durable) ||
            bool_decide (generation_id staged_generation ≠ journal_generation journal) ||
            bool_decide (previous_generation staged_generation ≠ base_generation journal)
         then install_error ErrorCode.Recovery "staged and durable generations disagree"
         else mret tt
       else mret tt) in
  let! active := active_generation_id_unlocked in
  let committed := set_phase TransactionPhase.Committed journal in
  if bool_decide (active = Some (journal_generation journal)) then
    do! write_journal committed in
    mret (RecoveryAction.RecordedCommit transaction_id)
  else if bool_decide (active = base_generation journal) then
    do! write_active_pointer (journal_generation journal) in
    do! write_journal committed in
    mret (RecoveryAction.CompletedCommit transaction_id)
  else
    do! safe_remove_tree (transaction_dir transaction_id) in
    mret (RecoveryAction.DiscardedConflict transaction_id).

(** One iteration of [recover]. *)
Definition recover_transaction (transaction_id : bytes) : install_op RecoveryAction :=
  let directory := transaction_dir transaction_id in
  let staged := directory ++ [STAGED] in
  let! journaled := entry_exists (directory ++ [JOURNAL]) in
  if negb journaled then
    do! safe_remove_tree directory in
    mret (RecoveryAction.RemovedOrphan transaction_id)
  else
    let! journal := read_journal transaction_id in
    if bool_decide (phase journal = TransactionPhase.Committed) then
      let! exists_ := entry_exists staged in
      do! (if exists_ : bool then safe_remove_tree staged else mret tt) in
      mret (RecoveryAction.AlreadyCommitted transaction_id)
    else
      let! durable := entry_exists (generation_dir (journal_generation journal)) in
      if negb durable then
        let! exists_ := entry_exists staged in
        do! safe_remove_tree directory in
        mret (if exists_ : bool then RecoveryAction.AbortedStaging transaction_id
              else RecoveryAction.RemovedOrphan transaction_id)
      else settle transaction_id journal.

Fixpoint recover_all (ids : list bytes) : install_op (list RecoveryAction) :=
  match ids with
  | [] => mret []
  | id :: ids =>
      let! action := recover_transaction id in
      let! actions := recover_all ids in
      mret (action :: actions)
  end.

(** [transaction_ids.sort()]. *)
Fixpoint insert_transaction (id : bytes) (l : list bytes) : list bytes :=
  match l with
  | [] => [id]
  | x :: l => if bytes_le id x then id :: x :: l else x :: insert_transaction id l
  end.
Definition sort_ids (l : list bytes) : list bytes := foldr insert_transaction [] l.

Definition recover : install_op (list RecoveryAction) :=
  do! validate_owned_path transactions_dir in
  do! validate_owned_path generations_dir in
  let! names := read_dir transactions_dir in
  let! ids := transaction_names names in
  recover_all (sort_ids ids).
End store.
