(* ===== verification/InstallSafety.v ===== *)
(** * What the install store guarantees

    Generations are immutable and the active pointer names a complete one,
    whatever call of src/crates/kindlebridge-bundle/src/install.rs is cut short at
    whatever system call. *)

From S2P Require Import Prelude Text BundleError Paths Cbor BundleModel Verify Activation Files.
From S2P Require Import InstallStore.

(** ** Calls that only look *)

Create HintDb kb_looks.
Ltac look_on := eapply looks_seq; [solve [eauto with kb_looks]|intros ?].

Lemma looks_attempt {A} (m : M Disk IoErrorKind A) φ :
  looks m φ → looks (attempt m) (λ t r, ∀ a, r = Ok a → φ t a).
Proof.
  intros Hm t d Hd. specialize (Hm t d Hd). unfold attempt.
  destruct (m d) as [d' [a|e]]; cbn; split; try done; try apply Hm. by intros a' [= <-]; apply Hm.
Qed.

(** Whether [p] is there, by a call that can tell. *)
Definition exists_at (p : path) (t : gmap path Node) (b : bool) : Prop :=
  if b then ∃ n, stat t p = Ok n ∧ is_symlink n = false else stat t p = Err NotFound.

Lemma looks_owned_exists p : looks (entry_exists p) (exists_at p).
Proof.
  intros t d Hd. unfold entry_exists, mbnd, attempt, symlink_metadata.
  pose proof (@looks_gate IoErrorKind _ t d Hd) as Hg. unfold mbnd.
  destruct (gate d) as [d' [[]|e]] eqn:Hgate.
  - destruct Hg as [Hd' _]. cbn. unfold on_tree in Hd'. rewrite Hd'. unfold mlift.
    destruct (stat t p) as [[]|[]] eqn:Hs; cbn; try done; eauto.
  - unfold gate, mbnd, next_fault, mfail, mret in Hgate.
    destruct (faults d) as [|[] ?]; simplify_eq. cbn. exact Hg.
Qed.
Lemma looks_owned_reparse p : looks (reject_reparse p) (λ t _, ∃ n, stat t p = Ok n ∧ is_symlink n = false).
Proof.
  eapply looks_bind with (ψ := λ n _ _, is_symlink n = false); [apply looks_symlink_metadata| |].
  - intros n. destruct n; try apply looks_fail; by apply looks_ret.
  - intros t n [] Hs Hn. eauto.
Qed.
Lemma looks_sync_dir p : looks (sync_dir p) (λ _ _, True).
Proof. eapply looks_seq; [apply looks_metadata|]. intros _. apply looks_gate. Qed.
#[export] Hint Resolve looks_owned_exists looks_owned_reparse looks_sync_dir looks_gate looks_lift
  looks_metadata looks_symlink_metadata looks_read_node looks_read_dir : kb_looks.

Lemma looks_validate_owned p : looks (validate_owned_path p) (λ _ _, True).
Proof. look_on. apply looks_foreach. intros q. look_on. by apply looks_ret. Qed.
#[export] Hint Resolve looks_validate_owned : kb_looks.

Lemma looks_read_owned p maximum :
  looks (read_owned_file p maximum)
    (λ t bs, (∃ x, stat t p = Ok (Regular bs x)) ∧ len bs ≤ maximum).
Proof.
  look_on. eapply looks_bind with (ψ := λ n t bs, (∃ x, stat t p = Ok (Regular bs x)) ∧
      is_file n = true ∧ node_len n ≤ maximum); [apply looks_metadata| |].
  - intros n. destruct (is_file n) eqn:Hf; [|apply looks_fail].
    destruct (maximum <? node_len n) eqn:Hm; [apply looks_fail|]. cbn [negb orb].
    eapply looks_bind with (ψ := λ bs _ bs', bs' = bs); [apply looks_read_node| |].
    + intros bs. destruct (negb _); [apply looks_fail|by apply looks_ret].
    + intros t b b' Hb ->. split; [done|]. split; [done|lia].
  - intros t n bs Hs ([x Hx] & _ & Hl). cbn beta in Hs. rewrite Hx in Hs. simplify_eq/=. eauto.
Qed.
#[export] Hint Resolve looks_read_owned : kb_looks.

(** ** Writing a file *)

Definition temp_in (dir p : path) : Prop := ∃ pid counter, p = dir ++ [temp_name pid counter].

Lemma looks_unique_temp_path dir :
  looks (unique_temp_path dir) (λ t p, ∃ name, p = dir ++ [name] ∧ temp_in dir p ∧
    stat t p = Err NotFound).
Proof.
  unfold unique_temp_path. generalize 128%nat as n. induction n as [|n IH]; [apply looks_fail|].
  cbn [unique_temp_attempts].
  intros t. eapply hoare_bind with (Q := λ _, on_tree t); [by apply hoare_get|].
  intros d. eapply hoare_bind with (Q := λ _, on_tree t); [by apply hoare_modify|].
  intros []. eapply hoare_bind; [apply (looks_owned_exists _ t)|].
  intros [] d' [Hd' Hs]; cbn [negb].
  - by apply (IH t).
  - split; [done|]. eexists. split; [done|]. split; [by eexists _, _|done].
Qed.

Abbreviation written := (replaced_through temp_in).

Lemma hoare_owned_write p data replace t :
  tree_ok t → ¬ temp_in (parent p) p →
  hoare (on_tree t) (atomic_write p data replace)
    (λ _ d, written t p data (tree d) ∧ on_tree (<[p := Regular data false]> t) d)
    (λ d, written t p data (tree d)).
Proof.
  intros Ht Htemp.
  assert (Hrefl : ∀ d, on_tree t d → written t p data (tree d))
    by (intros d ->; by apply replaced_refl).
  eapply hoare_look; [apply looks_owned_reparse|done|]. intros [] _.
  eapply hoare_look; [apply looks_metadata|done|]. intros n _.
  destruct (is_dir n); cbn [negb]; [|by apply hoare_fail].
  eapply hoare_look; [apply looks_owned_exists|done|]. intros b _.
  destruct (b && negb replace); [by apply hoare_fail|].
  apply hoare_replace; [done..| | |].
  - apply looks_unique_temp_path.
  - intros q Hq. apply hoare_write_through; [done..|apply looks_sync_dir].
  - intros q Hnone Hne. apply hoare_discard; [done..|].
    eapply looks_conseq; [apply looks_owned_exists|]. intros t' [] Hs; [|done]. by destruct Hs as (n' & ? & _); eauto.
Qed.

(** ** What the store's files say *)

Section store_safety.
Context `{order : DirOrder, generations : Serde ActivationGeneration}.
Context `{journals : Serde TransactionJournal, width : PointerWidth}.
Implicit Types (t : gmap path Node) (A : GenerationId → Prop).

(** The activation record at [p] is [g]. *)
Definition activation_at (t : gmap path Node) (p : path) (g : ActivationGeneration) : Prop :=
  ∃ bs x, t !! p = Some (Regular bs x) ∧ len bs ≤ MAX_ACTIVATION_BYTES ∧ from_cbor bs = Ok g.

Lemma activation_at_inj t p g g' : activation_at t p g → activation_at t p g' → g = g'.
Proof. intros (bs & x & Hp & _ & Hg) (bs' & x' & Hp' & _ & Hg'). congruence. Qed.

Lemma looks_read_activation p : looks (read_activation p) (λ t g, activation_at t p g).
Proof.
  eapply looks_bind with (ψ := λ bs _ g, from_cbor bs = Ok g); [apply looks_read_owned| |].
  - intros bs. apply looks_lift.
  - intros t bs g ([x Hx%stat_lookup] & Hl) Hg. by exists bs, x.
Qed.

Lemma looks_check_entries p names seen : looks (check_generation_entries p names seen) (λ _ _, True).
Proof.
  revert seen. induction names as [|name names IH]; intros seen; [by apply looks_ret|].
  cbn [check_generation_entries]. look_on. look_on.
  eapply looks_seq with (φ := λ _ _, True).
  - destruct (bool_decide _); [apply looks_fail|]. look_on.
    destruct (negb _); [apply looks_fail|by apply looks_ret].
  - intros []. destruct seen; [apply looks_fail|apply IH].
Qed.
Lemma looks_validate_generation p : looks (validate_generation_directory p) (λ _ _, True).
Proof.
  look_on. eapply looks_seq; [apply looks_check_entries|]. intros b.
  destruct b; [by apply looks_ret|apply looks_fail].
Qed.

Lemma looks_load_generation id :
  looks (load_generation_unlocked id)
    (λ t g, t !! generation_dir id = Some Directory ∧
            activation_at t (generation_dir id ++ [ACTIVATION]) g ∧ generation_id g = id).
Proof.
  unfold load_generation_unlocked. look_on. look_on.
  eapply looks_bind with (ψ := λ n t g, n = Directory ∧
    activation_at t (generation_dir id ++ [ACTIVATION]) g ∧ generation_id g = id);
    [apply looks_metadata| |by intros t n g Hn%stat_lookup (-> & ? & ?)].
  intros n. destruct n; cbn [is_dir negb]; [apply looks_fail| |apply looks_fail].
  eapply looks_seq; [apply looks_validate_generation|]. intros [].
  eapply looks_bind with (ψ := λ g _ g', g' = g ∧ generation_id g = id);
    [apply looks_read_activation| |by intros t g g' Hg [-> ?]].
  intros g. case_bool_decide as Hid; cbn [orb]; [apply looks_fail|].
  destruct (bool_decide _); [apply looks_fail|]. apply looks_ret. intros t. split; [done|].
  by destruct (decide (generation_id g = id)).
Qed.

(** The ID in an active pointer. *)
Definition pointer_id (bs : bytes) : bundle_result GenerationId :=
  parse_generation_id match strip_last LF bs with Some value => value | None => bs end.
Definition active_is (t : gmap path Node) (o : option GenerationId) : Prop :=
  match o with
  | None => t !! active_pointer_path = None
  | Some id => ∃ bs x, t !! active_pointer_path = Some (Regular bs x) ∧ pointer_id bs = Ok id
  end.

Lemma active_is_inj t o o' : active_is t o → active_is t o' → o = o'.
Proof.
  destruct o as [id|], o' as [id'|]; cbn; try naive_solver.
  intros (bs & x & Hp & Hi) (bs' & x' & Hp' & Hi'). congruence.
Qed.

Lemma looks_active : looks active_generation_id_unlocked (λ t o, tree_ok t → active_is t o).
Proof.
  unfold active_generation_id_unlocked. look_on.
  eapply looks_bind with (ψ := λ b t o, (b = false ∧ o = None) ∨ (b = true ∧ active_is t o));
    [apply looks_owned_exists| |].
  - intros []; cbn [negb]; [|apply looks_ret; auto].
    eapply looks_bind with (ψ := λ bs _ o, ∃ id, o = Some id ∧ pointer_id bs = Ok id);
      [apply looks_read_owned| |].
    + intros bs. destruct (utf8_valid bs); cbn [negb]; [|apply looks_fail].
      eapply looks_bind; [apply looks_lift|by intros id; apply looks_ret with (φ := λ _ o, o = Some id)|].
      intros t id o Hid ->. eauto.
    + intros t bs o ([x Hx%stat_lookup] & _) (id & -> & Hid). right. split; [done|]. by exists bs, x.
  - intros t b o Hb [[-> ->]|[-> Ho]] Ht; [|done]. by eapply stat_not_found.
Qed.

Definition journal_at (t : gmap path Node) (transaction_id : bytes) (j : TransactionJournal) : Prop :=
  ∃ bs x, t !! (transaction_dir transaction_id ++ [JOURNAL]) = Some (Regular bs x) ∧
    from_canonical_slice to_value from_slice bs = Ok j ∧ journal_transaction j = transaction_id.

Lemma looks_read_journal transaction_id :
  looks (read_journal transaction_id) (λ t j, journal_at t transaction_id j).
Proof.
  unfold read_journal. look_on.
  eapply looks_bind with (ψ := λ bs _ j, from_canonical_slice to_value from_slice bs = Ok j ∧
    journal_transaction j = transaction_id); [apply looks_read_owned| |].
  - intros bs. eapply looks_bind with (ψ := λ j _ j', j' = j ∧ journal_transaction j = transaction_id);
      [apply looks_lift| |by intros t j j' Hj [-> ?]].
    intros j. destruct (negb (journal_schema j =? 1)); cbn [orb]; [apply looks_fail|].
    case_bool_decide as Hid; [apply looks_fail|]. apply looks_ret. intros t. split; [done|].
    by destruct (decide (journal_transaction j = transaction_id)).
  - intros t bs j ([x Hx%stat_lookup] & _) [Hj Hid]. by exists bs, x.
Qed.

(** ** The invariant *)

(** A generation that is all there, and nothing else in its directory. *)
Record complete (t : gmap path Node) (name : bytes) (g : ActivationGeneration) : Prop := {
  complete_name : name = directory_name g;
  complete_dir : t !! [GENERATIONS; name] = Some Directory;
  complete_record : activation_at t [GENERATIONS; name; ACTIVATION] g;
  complete_only : ∀ c rest, is_Some (t !! (GENERATIONS :: name :: c :: rest)) → c = ACTIVATION;
}.

(** Only an activation record is staged for a transaction. *)
Definition clean (t : gmap path Node) (transaction_id : bytes) : Prop :=
  ∀ c rest, is_Some (t !! (TRANSACTIONS :: transaction_id :: STAGED :: c :: rest)) → c = ACTIVATION.

Definition pointer_bytes (id : GenerationId) : bytes := generation_id_hex id ++ [LF].

(** The directories of a store. *)
Definition layout : list path := [[]; blocks_dir; transactions_dir; generations_dir].

(** The paths of the store; beside them the directory holds the images and the data of
    applications, in which there may be links. *)
Definition store_path (q : path) : Prop :=
  match q with
  | [] => True
  | c :: _ => c = BLOCKS ∨ c = TRANSACTIONS ∨ c = GENERATIONS ∨ q = active_pointer_path
  end.
Lemma store_path_take n q : store_path q → store_path (take n q).
Proof.
  destruct q as [|c q], n as [|n]; cbn; try done. intros [?|[?|[?|[= -> ->]]]]; [tauto..|].
  right; right; right. by rewrite take_nil.
Qed.

Record store_ok (t : gmap path Node) : Prop := {
  store_tree : tree_ok t;
  store_generations : ∀ name, is_Some (t !! [GENERATIONS; name]) → ∃ g, complete t name g;
  store_active : ∀ n, t !! active_pointer_path = Some n →
    ∃ g x, n = Regular (pointer_bytes (generation_id g)) x ∧ complete t (directory_name g) g;
  store_staged : ∀ transaction_id,
    is_Some (t !! [TRANSACTIONS; transaction_id; JOURNAL]) → clean t transaction_id;
  store_plain : ∀ q l, store_path q → t !! q ≠ Some (Symlink l);
  store_layout : ∀ q n, q ∈ layout → t !! q = Some n → n = Directory;
}.

(** Generations do not change. *)
Definition keeps (t t' : gmap path Node) : Prop :=
  ∀ name rest, is_Some (t !! [GENERATIONS; name]) →
    t' !! (GENERATIONS :: name :: rest) = t !! (GENERATIONS :: name :: rest).

(** The store after a call that may have made one of the generations in [A]
    active. *)
Record evolves (A : GenerationId → Prop) (t t' : gmap path Node) : Prop := {
  evolves_ok : store_ok t';
  evolves_keeps : keeps t t';
  evolves_active : t' !! active_pointer_path = t !! active_pointer_path ∨
    ∃ id x, A id ∧ t' !! active_pointer_path = Some (Regular (pointer_bytes id) x);
}.
Abbreviation quietly := (evolves (λ _, False)).

Lemma evolves_refl A t : store_ok t → evolves A t t.
Proof. split; [done|done|by left]. Qed.
Lemma evolves_trans A t1 t2 t3 : evolves A t1 t2 → evolves A t2 t3 → evolves A t1 t3.
Proof.
  intros [_ H12 Ha] [H3 H23 Hb]. split; [done| |].
  - intros name rest Hn. rewrite H23; [by apply H12|]. by rewrite H12.
  - destruct Hb as [->|Hb]; [done|by right].
Qed.
Lemma quietly_active A t t' : quietly t t' → evolves A t t'.
Proof. intros [Hs Hk Ha]. split; [done..|]. destruct Ha as [?|(id & x & [] & _)]. by left. Qed.
Lemma quietly_pointer t t' : quietly t t' → t' !! active_pointer_path = t !! active_pointer_path.
Proof. intros [_ _ [?|(id & x & [] & _)]]. done. Qed.

Lemma complete_keeps t t' name g : keeps t t' → complete t name g → complete t' name g.
Proof.
  intros Hk Hc. pose proof (λ rest, Hk name rest ltac:(by rewrite (complete_dir _ _ _ Hc))) as Hsame.
  destruct Hc as [Hname Hdir (bs & x & Hrec) Honly]. split; [done|by rewrite Hsame| |].
  - exists bs, x. by rewrite Hsame.
  - intros c rest. rewrite Hsame. apply Honly.
Qed.

(** A change outside of the generations and the pointer. *)
Lemma quietly_elsewhere t t' :
  store_ok t → tree_ok t' → (∀ rest, t' !! (GENERATIONS :: rest) = t !! (GENERATIONS :: rest)) →
  t' !! active_pointer_path = t !! active_pointer_path →
  (∀ tx, is_Some (t' !! [TRANSACTIONS; tx; JOURNAL]) → clean t' tx) →
  (∀ q l, store_path q → t' !! q ≠ Some (Symlink l)) → (∀ q n, q ∈ layout → t' !! q = Some n → n = Directory) →
  quietly t t'.
Proof.
  intros Hs Ht' Hgen Hact Hclean Hplain Hlayout. assert (Hk : keeps t t') by (intros name rest _; apply Hgen).
  split; [|done|by left]. split; [done| | |done|done|done].
  - intros name. rewrite Hgen. intros [g Hg]%(store_generations t Hs). exists g.
    by eapply complete_keeps.
  - intros n. rewrite Hact. intros (g & x & Hn & Hg)%(store_active t Hs). exists g, x.
    split; [done|]. by eapply complete_keeps.
Qed.

(** ** Calls on a store *)

Definition stable {B : Type} (A : GenerationId → Prop) (t : gmap path Node) (m : install_op B)
    (Q : B → gmap path Node → Prop) : Prop :=
  hoare (on_tree t) m (λ b d, evolves A t (tree d) ∧ Q b (tree d)) (λ d, evolves A t (tree d)).
Abbreviation quiet := (stable (λ _, False)).

Lemma stable_weaken {B : Type} A t t' (Q R : B → gmap path Node → Prop) (k : install_op B) :
  evolves A t t' → stable A t' k Q → (∀ b t2, Q b t2 → R b t2) →
  hoare (on_tree t') k (λ b d, evolves A t (tree d) ∧ R b (tree d)) (λ d, evolves A t (tree d)).
Proof.
  intros He Hk HR. eapply hoare_conseq; [exact Hk|done| |].
  - intros b d [Hd Hq]. split; [by eapply evolves_trans|by apply HR].
  - intros d Hd. by eapply evolves_trans.
Qed.

Lemma stable_bind {B C : Type} A t (m : install_op B) (k : B → install_op C) Q R :
  stable A t m Q → (∀ b t', evolves A t t' → Q b t' → stable A t' (k b) R) →
  stable A t (mbnd m k) R.
Proof.
  intros Hm Hk. eapply hoare_bind; [exact Hm|]. intros b. apply hoare_any. intros d0 [He Hq].
  eapply hoare_pre with (P' := on_tree (tree d0)); [by intros d ->|].
  eapply (stable_weaken A t (tree d0)); [done|by apply Hk|done].
Qed.
Lemma stable_quiet {B : Type} A t (m : install_op B) Q : quiet t m Q → stable A t m Q.
Proof.
  intros Hm. eapply hoare_conseq; [exact Hm|done| |].
  - intros b d [He Hq]. split; [by apply quietly_active|done].
  - intros d He. by apply quietly_active.
Qed.
(** A quiet call first: the pointer is as it was. *)
Lemma stable_after {B C : Type} A t (m : install_op B) (k : B → install_op C) Q R :
  quiet t m Q → (∀ b t', quietly t t' → Q b t' → stable A t' (k b) R) → stable A t (mbnd m k) R.
Proof.
  intros Hm Hk. eapply hoare_bind.
  - eapply hoare_conseq; [exact Hm|done|intros b d Hd; exact Hd|]. intros d He. by apply quietly_active.
  - intros b. apply hoare_any. intros d0 [He Hq].
    eapply hoare_pre with (P' := on_tree (tree d0)); [by intros d ->|].
    eapply (stable_weaken A t (tree d0)); [by apply quietly_active|by apply Hk|done].
Qed.
Lemma stable_look {B C : Type} A t (m : install_op B) (k : B → install_op C) φ R :
  store_ok t → looks m φ → (∀ b, φ t b → stable A t (k b) R) → stable A t (mbnd m k) R.
Proof.
  intros Hs Hm Hk. eapply hoare_look; [exact Hm|intros d ->; by apply evolves_refl|done].
Qed.
Lemma stable_ret {B : Type} A t (b : B) (Q : _ → _ → Prop) :
  store_ok t → Q b t → stable A t (mret b) Q.
Proof. intros Hs Hq. apply hoare_ret. intros d ->. split; [by apply evolves_refl|done]. Qed.
Lemma stable_fail {B : Type} A t e (Q : B → _ → Prop) : store_ok t → stable A t (mfail e) Q.
Proof. intros Hs. apply hoare_fail. intros d ->. by apply evolves_refl. Qed.
Lemma stable_conseq {B : Type} A t (m : install_op B) (Q R : _ → _ → Prop) :
  stable A t m Q → (∀ b t', evolves A t t' → Q b t' → R b t') → stable A t m R.
Proof.
  intros Hm HR. eapply hoare_conseq; [exact Hm|done| |done]. intros b d [He Hq].
  split; [done|by apply HR].
Qed.
Lemma stable_looks {B : Type} A t (m : install_op B) φ (Q : _ → _ → Prop) :
  store_ok t → looks m φ → (∀ b, φ t b → Q b t) → stable A t m Q.
Proof.
  intros Hs Hm HQ. eapply hoare_conseq; [apply (Hm t)|done| |].
  - intros b d [-> Hφ]. split; [by apply evolves_refl|by apply HQ].
  - intros d ->. by apply evolves_refl.
Qed.

(** ** The writes *)

Lemma temp_dot dir q : temp_in dir q → ∃ name, q = dir ++ [name] ∧ head name = Some x2e.
Proof. intros (pid & counter & ->). by eexists. Qed.

Lemma written_elsewhere t p data t' q :
  written t p data t' → q ≠ p → (∀ name, head name = Some x2e → q ≠ parent p ++ [name]) →
  t' !! q = t !! q.
Proof.
  intros Hw Hq Hn. apply (replaced_others _ _ _ _ Hw); [done|].
  intros (name & -> & Hdot)%temp_dot. by apply (Hn name).
Qed.

Lemma written_plain t p data t' :
  store_ok t → written t p data t' → ∀ q l, store_path q → t' !! q ≠ Some (Symlink l).
Proof.
  intros Hs Hw q l Hq. destruct (replaced_regular _ _ _ _ Hw q) as [->|[c ->]]; [|done].
  by apply (store_plain t Hs).
Qed.
Lemma written_layout t p data t' :
  store_ok t → written t p data t' → p ∉ layout →
  ∀ q n, q ∈ layout → t' !! q = Some n → n = Directory.
Proof.
  intros Hs Hw Hp q n Hq Hn. apply (store_layout t Hs q); [done|]. rewrite <-Hn. symmetry.
  eapply written_elsewhere; [done|by intros ->|]. intros name Hdot ->.
  unfold layout, blocks_dir, transactions_dir, generations_dir in Hq. rewrite !elem_of_cons, elem_of_nil in Hq.
  destruct Hq as [Hq|[Hq|[Hq|[Hq|[]]]]]; destruct (parent p) as [|c [|c' r]]; simplify_eq/=; done.
Qed.

Lemma written_transaction t tx name data t' :
  store_ok t → written t [TRANSACTIONS; tx; name] data t' → (name = JOURNAL → clean t tx) →
  quietly t t'.
Proof.
  intros Hs Hw Hname.
  assert (Hlong : ∀ q, length q ≠ 3%nat → t' !! q = t !! q).
  { intros q Hq. eapply written_elsewhere; [done|by intros ->|]. by intros n _ ->. }
  assert (Hclean : ∀ tx', clean t tx' → clean t' tx') by (intros tx' Hc c rest; rewrite Hlong by done; apply Hc).
  apply quietly_elsewhere; [done|apply Hw| |by apply Hlong|..].
  - intros rest. eapply written_elsewhere; [done|done|]. intros n _. done.
  - intros tx' Hj. apply Hclean. destruct (decide ([TRANSACTIONS; tx'; JOURNAL] = [TRANSACTIONS; tx; name])) as [[= -> Heq]|Hne].
    + by apply Hname.
    + apply (store_staged t Hs). revert Hj. erewrite written_elsewhere; [done|exact Hw|done|].
      intros n Hd [= -> <-]. done.
  - by eapply written_plain.
  - eapply written_layout; [done..|]. by apply (bool_decide_unpack _).
Qed.

(** The journal on the disk is the encoding of a record. *)
Definition recorded (t : gmap path Node) (j : TransactionJournal) : Prop :=
  ∃ bs x, t !! (transaction_dir (journal_transaction j) ++ [JOURNAL]) = Some (Regular bs x) ∧
    to_canonical_vec to_value j = Ok bs.

Lemma recorded_some t j : recorded t j → is_Some (t !! [TRANSACTIONS; journal_transaction j; JOURNAL]).
Proof. intros (bs & x & Hx & _). by eexists. Qed.

Lemma quiet_write_journal t j :
  store_ok t → clean t (journal_transaction j) →
  quiet t (write_journal j) (λ _ t', recorded t' j ∧
    ∀ rest, rest ≠ [JOURNAL] → t' !! (TRANSACTIONS :: journal_transaction j :: rest) =
      t !! (TRANSACTIONS :: journal_transaction j :: rest)).
Proof.
  intros Hs Hc. unfold write_journal. eapply stable_look; [done|apply looks_validate_owned|]. intros [] _.
  eapply stable_look; [done|apply looks_lift|]. intros bs Hbs.
  eapply hoare_conseq; [apply hoare_owned_write; [apply Hs|]|done|..].
  - intros (name & Heq & Hd)%temp_dot. by injection Heq as <-.
  - intros [] d [Hw Hd]. split; [exact (written_transaction t _ JOURNAL bs _ Hs Hw (λ _, Hc))|].
    rewrite Hd. split; [eexists bs, _; split; [by rewrite lookup_insert, decide_True|done]|].
    intros rest Hr. rewrite Hd, lookup_insert_ne; [done|]. intros [=]; by subst.
  - intros d Hw. exact (written_transaction t _ JOURNAL bs _ Hs Hw (λ _, Hc)).
Qed.

(** A generation that can be made active. *)
Definition ready (t : gmap path Node) (id : GenerationId) : Prop :=
  ∃ g, complete t (generation_id_hex id) g ∧ generation_id g = id.

Lemma ready_keeps t t' id : keeps t t' → ready t id → ready t' id.
Proof. intros Hk (g & Hc & Hid). exists g. split; [by eapply complete_keeps|done]. Qed.

Lemma written_pointer t id t' (A : GenerationId → Prop) :
  store_ok t → ready t id → A id → written t active_pointer_path (pointer_bytes id) t' →
  evolves A t t'.
Proof.
  intros Hs Hr HA Hw.
  assert (Hlong : ∀ q, length q ≠ 1%nat → t' !! q = t !! q).
  { intros q Hq. eapply written_elsewhere; [done|by intros ->|]. by intros n _ ->. }
  assert (Hk : keeps t t') by (intros name rest _; by apply Hlong).
  split; [|done|].
  - split; [apply Hw| | | |by eapply written_plain|].
    + intros name. rewrite Hlong by done. intros [g Hg]%(store_generations t Hs). exists g.
      by eapply complete_keeps.
    + intros n Hn. destruct (replaced_target _ _ _ _ Hw) as [Hsame|Hnew].
      * rewrite Hsame in Hn. apply (store_active t Hs) in Hn as (g & x & -> & Hg).
        exists g, x. split; [done|by eapply complete_keeps].
      * rewrite Hnew in Hn. injection Hn as <-. destruct Hr as (g & Hg & <-). exists g, false.
        split; [done|]. apply (complete_keeps t); [done|]. by rewrite <-(complete_name _ _ _ Hg).
    + intros tx. rewrite Hlong by done. intros Hj c rest. rewrite Hlong by done.
      by apply (store_staged t Hs).
    + eapply written_layout; [done..|]. by apply (bool_decide_unpack _).
  - destruct (replaced_target _ _ _ _ Hw) as [Hsame|Hnew]; [by left|right]. by exists id, false.
Qed.

Lemma stable_write_pointer A t id :
  store_ok t → ready t id → A id →
  stable A t (write_active_pointer id)
    (λ _ t', t' !! active_pointer_path = Some (Regular (pointer_bytes id) false) ∧
       ∀ q, length q ≠ 1%nat → t' !! q = t !! q).
Proof.
  intros Hs Hr HA. unfold write_active_pointer.
  eapply stable_look; [done|apply looks_validate_owned|]. intros [] _.
  eapply hoare_conseq; [apply hoare_owned_write; [apply Hs|]|done|..].
  - intros (name & Heq & Hd)%temp_dot. by injection Heq as <-.
  - intros [] d [Hw Hd]. split; [by eapply written_pointer|]. rewrite Hd.
    split; [by rewrite lookup_insert, decide_True|].
    intros q Hq. rewrite Hd, lookup_insert_ne; [done|]. by intros <-.
  - intros d Hw. by eapply written_pointer.
Qed.

(** ** Removing a tree *)

Lemma prunes_entry remove p name :
  (∀ q, prunes q (remove q)) → prunes p (remove_entry remove p name).
Proof.
  intros Hr. apply (prunes_child p name). unfold remove_entry.
  eapply prunes_look; [apply looks_gate|]. intros t [] Ht _. revert t Ht.
  eapply prunes_look; [apply looks_owned_reparse|]. intros t [] Ht _. revert t Ht.
  eapply prunes_look; [apply looks_symlink_metadata|]. intros t n Ht _.
  destruct (is_dir n); [by apply Hr|]. revert t Ht.
  eapply prunes_look; [apply looks_symlink_metadata|]. intros t m Ht Hm.
  destruct (is_file m) eqn:Hf; [apply (prunes_unlink_file _ m t Ht Hm); by intros ->|].
  apply hoare_fail. intros d ->. by apply pruned_refl.
Qed.

Lemma prunes_remove_tree fuel p : prunes p (remove_tree fuel p).
Proof.
  assert (Hfail : ∀ q e, prunes q (mfail e : install_op unit)) by (intros; eapply prunes_looks, (looks_fail _ (λ _ _, True))).
  revert p. induction fuel as [|fuel IH]; intros p; [apply Hfail|]. cbn [remove_tree].
  eapply prunes_look; [apply looks_owned_reparse|]. intros t [] Ht _. revert t Ht.
  eapply prunes_look; [apply looks_metadata|]. intros t n Ht _.
  destruct (is_dir n); cbn [negb]; [|by apply Hfail]. revert t Ht.
  eapply prunes_look; [apply looks_read_dir|]. intros t names Ht _. revert t Ht.
  apply prunes_bind; [apply prunes_foreach; intros name; by apply prunes_entry|]. intros [].
  apply prunes_bind.
  - apply prunes_remove_dir.
  - intros []. eapply prunes_looks, looks_sync_dir.
Qed.

Lemma prunes_safe_remove_tree p : prunes p (safe_remove_tree p).
Proof.
  intros t Ht d Hd. unfold safe_remove_tree, mbnd, mget.
  by apply (prunes_remove_tree (tree_depth (tree d)) p t Ht d Hd).
Qed.

Lemma pruned_quietly p t t' :
  store_ok t → head p = Some TRANSACTIONS → pruned p t t' → quietly t t'.
Proof.
  intros Hs Hp Hpr. destruct p as [|c p]; [done|]. injection Hp as ->.
  assert (Hsome : ∀ q, is_Some (t' !! q) → is_Some (t !! q)).
  { intros q [n Hn]. destruct (pruned_below _ _ _ Hpr q) as [Hq|Hq]; [|congruence].
    exists n. congruence. }
  apply quietly_elsewhere; [done|apply Hpr|..].
  - intros rest. apply (pruned_others _ _ _ Hpr). intros [r Hr]. by injection Hr as Hr.
  - apply (pruned_others _ _ _ Hpr). intros [r Hr]. by injection Hr as Hr.
  - intros tx Hj%Hsome c rest Hc%Hsome. by apply (store_staged t Hs tx Hj c rest).
  - intros q l Hown Hq. apply (store_plain t Hs q l Hown). destruct (pruned_below _ _ _ Hpr q); congruence.
  - intros q n Hq Hn. apply (store_layout t Hs q n Hq). destruct (pruned_below _ _ _ Hpr q); congruence.
Qed.

Lemma quiet_remove t p :
  store_ok t → head p = Some TRANSACTIONS → quiet t (safe_remove_tree p) (λ _ t', pruned p t t').
Proof.
  intros Hs Hp. eapply hoare_conseq; [apply prunes_safe_remove_tree, Hs|done|..].
  - intros [] d Hd. split; [by eapply pruned_quietly|done].
  - intros d Hd. by eapply pruned_quietly.
Qed.

(** ** Operations on generations *)

Lemma ready_loaded t id g :
  store_ok t → t !! generation_dir id = Some Directory →
  activation_at t (generation_dir id ++ [ACTIVATION]) g → generation_id g = id → ready t id.
Proof.
  intros Hs Hdir Hact Hid.
  destruct (store_generations t Hs (generation_id_hex id)) as [g' Hg']; [by exists Directory|].
  exists g'. split; [done|].
  by rewrite (activation_at_inj _ _ _ _ (complete_record _ _ _ Hg') Hact).
Qed.

Lemma exists_some p t : exists_at p t true → is_Some (t !! p).
Proof. intros (n & Hn%stat_lookup & _). by exists n. Qed.

(** The generation staged by [transaction_id] becomes durable. *)
Section durable.
Context (t : gmap path Node) (tx : bytes) (g : ActivationGeneration) (id : GenerationId).
Hypothesis Hs : store_ok t.
Hypothesis Hclean : clean t tx.
Hypothesis Hrec : activation_at t [TRANSACTIONS; tx; STAGED; ACTIVATION] g.
Hypothesis Hid : generation_id g = id.
Hypothesis Hfree : t !! generation_dir id = None.
Let from : path := [TRANSACTIONS; tx; STAGED].
Let t' : gmap path Node := move_tree from (generation_dir id) t.

Lemma staged_dir : t !! from = Some Directory.
Proof. destruct Hrec as (bs & x & Hx & _). apply (store_tree t Hs from ACTIVATION). by eexists. Qed.

Lemma moved_generation rest : t' !! (GENERATIONS :: generation_id_hex id :: rest) = t !! (from ++ rest).
Proof. apply (lookup_move_to t from (generation_dir id)); [apply Hs|done]. Qed.

Lemma moved_other q : ¬ generation_dir id `prefix_of` q → ¬ from `prefix_of` q → t' !! q = t !! q.
Proof. intros H1 H2. unfold t'. rewrite lookup_move_other by done. by rewrite decide_False. Qed.

Lemma moved_keeps : keeps t t'.
Proof.
  intros name rest Hn. apply moved_other; [|by intros [r [=]]].
  intros [r Hr]. injection Hr as Hname _. rewrite Hname in Hn.
  change [GENERATIONS; generation_id_hex id] with (generation_dir id) in Hn.
  rewrite Hfree in Hn. by destruct Hn.
Qed.

Lemma moved_complete : complete t' (generation_id_hex id) g.
Proof.
  split.
  - unfold directory_name. by rewrite Hid.
  - rewrite moved_generation, app_nil_r. apply staged_dir.
  - destruct Hrec as (bs & x & Hx & Hl & Hg). exists bs, x. by rewrite moved_generation.
  - intros c rest. rewrite moved_generation. apply Hclean.
Qed.

Lemma moved_clean tx' : is_Some (t' !! [TRANSACTIONS; tx'; JOURNAL]) → clean t' tx'.
Proof.
  intros Hj c rest Hc. rewrite moved_other in Hj by (by intros [r [=]]).
  unfold t' in Hc. rewrite lookup_move_other in Hc by (by intros [r [=]]).
  destruct (decide _); [by destruct Hc|]. by apply (store_staged t Hs tx' Hj c rest).
Qed.

Lemma moved_quietly : t !! generations_dir = Some Directory → quietly t t'.
Proof.
  intros Hdir. pose proof moved_keeps as Hk. split; [|done|left].
  - split.
    + apply tree_ok_move; [apply Hs|done|done|done|by intros [r [=]]].
    + intros name Hn. destruct (decide (name = generation_id_hex id)) as [->|Hne].
      * exists g. apply moved_complete.
      * rewrite moved_other in Hn; [|by intros [r [=]]|by intros [r [=]]].
        apply (store_generations t Hs) in Hn as [g' Hg']. exists g'. by eapply complete_keeps.
    + intros n Hn. rewrite moved_other in Hn by (by intros [r [=]]).
      apply (store_active t Hs) in Hn as (g' & x & -> & Hg'). exists g', x. split; [done|].
      by eapply complete_keeps.
    + apply moved_clean.
    + intros q l Hown. destruct (decide (generation_dir id `prefix_of` q)) as [[r ->]|Hq].
      * change (generation_dir id ++ r) with (GENERATIONS :: generation_id_hex id :: r).
        rewrite moved_generation. apply (store_plain t Hs). cbn. tauto.
      * unfold t'. rewrite lookup_move_other by done. destruct (decide _); [done|]. by apply (store_plain t Hs).
    + intros q n Hq Hn. apply (store_layout t Hs q n Hq). rewrite <-Hn. symmetry.
      unfold layout, blocks_dir, transactions_dir, generations_dir in Hq.
      rewrite !elem_of_cons, elem_of_nil in Hq.
      apply moved_other; intros [r ->]; by destruct Hq as [Hq|[Hq|[Hq|[Hq|[]]]]].
  - by apply moved_other; intros [r [=]].
Qed.

Lemma moved_staged rest : t' !! (from ++ rest) = None.
Proof.
  unfold t'. rewrite lookup_move_other by (by intros [r [=]]). rewrite decide_True; [done|]. by exists rest.
Qed.
End durable.

Lemma quiet_make_durable t tx j :
  store_ok t → journal_at t tx j →
  quiet t (make_durable tx j) (λ _ t', clean t' tx ∧ ready t' (journal_generation j)).
Proof.
  intros Hs Hj. assert (Hclean : clean t tx).
  { apply (store_staged t Hs). destruct Hj as (bs & x & Hx & _). by eexists. }
  unfold make_durable. eapply stable_look; [done|apply looks_owned_exists|]. intros [] Hex.
  - eapply stable_look; [done|apply looks_load_generation|]. intros g (Hdir & Hact & Hid).
    pose proof (ready_loaded t _ g Hs Hdir Hact Hid) as Hready.
    eapply stable_look; [done|apply looks_owned_exists|]. intros [] _; [|by apply stable_ret].
    eapply stable_look; [done|apply looks_read_activation|]. intros g' _.
    destruct (_ || _); [by apply stable_fail|].
    eapply stable_conseq; [by apply quiet_remove|]. intros [] t' Hq Hp. split.
    + intros c rest [n Hn]. apply (Hclean c rest). exists n.
      destruct (pruned_below _ _ _ Hp (TRANSACTIONS :: tx :: STAGED :: c :: rest)); congruence.
    + eapply ready_keeps; [apply Hq|done].
  - pose proof (stat_not_found _ _ _ (store_tree t Hs) Hex) as Hfree.
    eapply stable_look; [done|apply looks_owned_exists|]. intros [] Hst; cbn [negb]; [|by apply stable_fail].
    eapply stable_look; [done|apply looks_read_activation|]. intros g Hrec.
    case_bool_decide as Hid; cbn [orb]; [by apply stable_fail|].
    case_bool_decide; [by apply stable_fail|].
    change (transaction_dir tx ++ [STAGED]) with [TRANSACTIONS; tx; STAGED].
    eapply stable_bind with (Q := λ _ t', clean t' tx ∧ ready t' (journal_generation j)).
    + eapply hoare_conseq; [apply hoare_rename_dir; [apply Hs| |exact Hex]|done| |].
      * apply stat_complete; [apply Hs|]. exact (staged_dir t tx g Hs Hrec).
      * intros [] d (-> & Hdir & _). split; [apply (moved_quietly t tx g (journal_generation j)); done|]. split.
        { intros c rest Hc. pose proof (moved_staged t tx (journal_generation j) (c :: rest)) as Hn. cbn in Hn, Hc. rewrite Hn in Hc. by destruct Hc. }
        { exists g. split; [apply (moved_complete t tx g (journal_generation j)); done|done]. }
      * intros d ->. by apply evolves_refl.
    + intros [] t' He Hq. eapply stable_looks; [apply He|apply looks_sync_dir|done].
Qed.

(** The generation that a transaction may make active: that of its journal, if
    its base is active. *)
Definition allowed (t : gmap path Node) (tx : bytes) (id : GenerationId) : Prop :=
  ∃ j, journal_at t tx j ∧ id = journal_generation j ∧ active_is t (base_generation j).

Lemma active_is_quietly t t' o : quietly t t' → active_is t' o → active_is t o.
Proof. intros Hq%quietly_pointer. unfold active_is. by rewrite Hq. Qed.

(** What is active after a transaction that reported success. *)
Definition activated (id : GenerationId) (t : gmap path Node) : Prop :=
  active_is t (Some id) ∨ t !! active_pointer_path = Some (Regular (pointer_bytes id) false).

Lemma activated_pointer t t' id :
  t' !! active_pointer_path = t !! active_pointer_path → activated id t → activated id t'.
Proof. intros Hp. unfold activated, active_is. by rewrite Hp. Qed.

Lemma stable_finish {B : Type} A t j id (b : B) :
  store_ok t → clean t (journal_transaction j) → activated id t →
  stable A t (do! write_journal j in mret b) (λ b' t', b' = b ∧ activated id t' ∧ recorded t' j).
Proof.
  intros Hs Hc Ha. eapply stable_after; [by apply quiet_write_journal|].
  intros [] t' Hq [Hj _]. apply stable_ret; [apply Hq|]. split; [done|]. split; [|done].
  eapply activated_pointer; [by apply quietly_pointer|done].
Qed.

Lemma journal_clean t tx j : store_ok t → journal_at t tx j → clean t tx.
Proof. intros Hs (bs & x & Hx & _). apply (store_staged t Hs). by eexists. Qed.

Lemma stable_crash_if A t a b : store_ok t → stable A t (crash_if a b) (λ _ t', t' = t).
Proof.
  intros Hs. unfold crash_if. case_bool_decide; [by apply stable_fail|by apply stable_ret].
Qed.

(** What a commit that succeeded reports: the transaction was recorded as
    committed before and nothing has changed, or its generation is active and
    it is recorded as committed now. *)
Definition commit_report (t : gmap path Node) (j : TransactionJournal) (outcome : CommitOutcome)
    (t' : gmap path Node) : Prop :=
  (phase j = TransactionPhase.Committed ∧ outcome = CommitOutcome.AlreadyCommitted ∧ t' = t) ∨
  (phase j ≠ TransactionPhase.Committed ∧ outcome ≠ CommitOutcome.AlreadyCommitted ∧
   activated (journal_generation j) t' ∧ recorded t' (set_phase TransactionPhase.Committed j)).

Lemma stable_commit t tx crash_point :
  store_ok t →
  stable (allowed t tx) t (commit_generation_unlocked tx crash_point)
    (λ outcome t', ∃ j, journal_at t tx j ∧ commit_report t j outcome t').
Proof.
  intros Hs. unfold commit_generation_unlocked.
  eapply stable_look; [done|apply looks_read_journal|]. intros j Hj.
  assert (Htx : journal_transaction j = tx) by (by destruct Hj as (? & ? & ? & ? & ?)).
  case_bool_decide as Hphase.
  { apply stable_ret; [done|]. exists j. split; [done|]. by left. }
  eapply stable_after; [by apply quiet_make_durable|]. intros [] t1 Hq1 [Hc1 Hr1].
  eapply stable_after; [apply stable_crash_if, Hq1|]. intros [] ? _ ->.
  eapply stable_after; [apply quiet_write_journal; [apply Hq1|by rewrite <-Htx in Hc1]|].
  intros [] t2 Hq2 [Hj2%recorded_some _]. pose proof (store_staged _ (evolves_ok _ _ _ Hq2) _ Hj2) as Hc2.
  pose proof (ready_keeps _ _ _ (evolves_keeps _ _ _ Hq2) Hr1) as Hr2.
  eapply stable_after; [apply stable_crash_if, Hq2|]. intros [] ? _ ->.
  eapply stable_look; [apply Hq2|apply looks_active|]. intros active Hact.
  specialize (Hact (store_tree _ (evolves_ok _ _ _ Hq2))).
  case_bool_decide as Hnew.
  - eapply stable_conseq; [apply (stable_finish _ _ _ (journal_generation j));
      [apply Hq2|done|left; cbn in Hnew; by rewrite <-Hnew]|].
    intros b t' _ (-> & Ha & Hw). exists j. split; [done|]. by right.
  - case_bool_decide as Hbase; [by apply stable_fail, Hq2|].
    eapply stable_bind; [apply stable_write_pointer; [apply Hq2|done|]|].
    + exists j. split; [done|]. split; [done|]. eapply active_is_quietly; [|cbn in Hbase; rewrite <-Hbase; exact Hact].
      by eapply evolves_trans.
    + intros [] t3 He3 [Hp3 Hsame].
      eapply stable_after; [apply stable_crash_if, He3|]. intros [] ? _ ->.
      eapply stable_conseq; [apply (stable_finish _ _ _ (journal_generation j)); [apply He3| |by right]|].
      * intros c rest. rewrite Hsame by done. apply Hc2.
      * intros b t' _ (-> & Ha & Hw). exists j. split; [done|]. by right.
Qed.

Lemma stable_activate_existing t target current :
  store_ok t →
  stable (λ id, id = target ∧ active_is t (Some current)) t (activate_existing target current)
    (λ _, activated target).
Proof.
  intros Hs. unfold activate_existing.
  eapply stable_look; [done|apply looks_load_generation|]. intros g (Hdir & Hact & Hid).
  eapply stable_look; [done|apply looks_active|]. intros active Ha. specialize (Ha (store_tree t Hs)).
  case_bool_decide as Hc; [by apply stable_fail|].
  eapply stable_conseq; [apply stable_write_pointer; [done|by eapply ready_loaded|]|].
  - split; [done|]. by rewrite <-Hc.
  - intros [] t' _ [Hp _]. by right.
Qed.

(** ** Staging *)

(** A directory is made for a transaction. *)
Lemma made_quietly t p :
  store_ok t → t !! parent p = Some Directory → t !! p = None →
  (∃ tx, p = [TRANSACTIONS; tx] ∨ p = [TRANSACTIONS; tx; STAGED]) →
  quietly t (<[p := Directory]> t).
Proof.
  intros Hs Hpar Hnone [tx Hp].
  assert (Hsame : ∀ q, q ≠ p → <[p := Directory]> t !! q = t !! q)
    by (intros q Hq; by rewrite lookup_insert_ne).
  apply quietly_elsewhere; [done| | | | | |].
  - apply tree_ok_insert; [apply Hs|by right|done].
  - intros rest. apply Hsame. by destruct Hp as [->| ->].
  - apply Hsame. by destruct Hp as [->| ->].
  - intros tx' Hj c rest. rewrite Hsame in Hj by (by destruct Hp as [->| ->]).
    rewrite Hsame by (by destruct Hp as [->| ->]). by apply (store_staged t Hs).
  - intros q l Hown. destruct (decide (p = q)) as [->|]; [by rewrite lookup_insert, decide_True|].
    rewrite lookup_insert_ne by done. by apply (store_plain t Hs).
  - intros q n Hq. destruct (decide (p = q)) as [->|]; [rewrite lookup_insert, decide_True; congruence|].
    rewrite lookup_insert_ne by done. by apply (store_layout t Hs).
Qed.

Lemma quiet_create_dir t p :
  store_ok t → (∃ tx, p = [TRANSACTIONS; tx] ∨ p = [TRANSACTIONS; tx; STAGED]) →
  quiet t (create_dir p) (λ _ t', t' = <[p := Directory]> t).
Proof.
  intros Hs Hp. eapply hoare_conseq; [apply hoare_create_dir|done| |].
  - intros [] d (-> & Hnone & Hdir). split; [|done]. apply made_quietly; [done| | |done].
    + by apply stat_lookup.
    + eapply stat_not_found; [apply Hs|done].
  - intros d ->. by apply evolves_refl.
Qed.

(** An activation record is written before there is a journal. *)
Lemma written_staged t tx data t' :
  store_ok t → t !! [TRANSACTIONS; tx; JOURNAL] = None →
  written t [TRANSACTIONS; tx; STAGED; ACTIVATION] data t' → quietly t t'.
Proof.
  intros Hs Hnone Hw.
  assert (Hlong : ∀ q, length q ≠ 4%nat → t' !! q = t !! q).
  { intros q Hq. eapply written_elsewhere; [done|by intros ->|]. by intros n _ ->. }
  apply quietly_elsewhere; [done|apply Hw| |by apply Hlong| |by eapply written_plain|].
  - intros rest. by eapply written_elsewhere.
  - intros tx' Hj c rest. rewrite Hlong in Hj by done.
    assert (Hne : tx' ≠ tx) by (intros ->; rewrite Hnone in Hj; by destruct Hj).
    erewrite written_elsewhere; [by apply (store_staged t Hs)|exact Hw|by intros [= ? ?]|].
    by intros n _ [= ? ?].
  - eapply written_layout; [done..|]. by apply (bool_decide_unpack _).
Qed.

Lemma quiet_stage_new t tx g :
  store_ok t → t !! [TRANSACTIONS; tx] = None → quiet t (stage_new tx g) (λ _ _, True).
Proof.
  intros Hs Hfree.
  assert (Hempty : ∀ rest, t !! (TRANSACTIONS :: tx :: rest) = None)
    by (intros rest; exact (free_below t [TRANSACTIONS; tx] rest (store_tree t Hs) Hfree)).
  unfold stage_new. eapply stable_bind; [apply quiet_create_dir; [done|by exists tx; left]|].
  intros [] ? Hq1 ->. eapply stable_look; [apply Hq1|apply looks_sync_dir|]. intros [] _.
  eapply stable_bind; [apply quiet_create_dir; [apply Hq1|by exists tx; right]|].
  intros [] t2 Hq2 Ht2. eapply stable_look; [apply Hq2|apply looks_lift|]. intros bs _.
  assert (Hsame : ∀ q, (length q = 3%nat ∧ last q ≠ Some STAGED) ∨ (3 < length q)%nat → t2 !! q = t !! q).
  { intros q Hq. rewrite Ht2, !lookup_insert_ne; [done|..]; intros <-; destruct Hq as [[??]|?]; try done; simpl in *; lia. }
  assert (Hj2 : t2 !! [TRANSACTIONS; tx; JOURNAL] = None) by (rewrite Hsame; [done|by left]).
  eapply stable_bind with (Q := λ _ t3, clean t3 tx).
  { eapply hoare_conseq; [apply hoare_owned_write; [apply Hq2|]|done|..].
    - intros (name & Heq & Hd)%temp_dot. by injection Heq as <-.
    - intros [] d [Hw Hd]. split; [exact (written_staged t2 tx bs _ (evolves_ok _ _ _ Hq2) Hj2 Hw)|].
      rewrite Hd. intros c rest Hc. destruct (decide (c = ACTIVATION)) as [|Hne]; [done|exfalso].
      rewrite lookup_insert_ne in Hc by (intros Heq; apply Hne; by injection Heq).
      rewrite Hsame in Hc by (right; simpl; lia). rewrite Hempty in Hc. by destruct Hc.
    - intros d Hw. exact (written_staged t2 tx bs _ (evolves_ok _ _ _ Hq2) Hj2 Hw). }
  intros [] t3 Hq3 Hc3. eapply stable_look; [apply Hq3|apply looks_sync_dir|]. intros [] _.
  eapply stable_bind; [apply quiet_write_journal; [apply Hq3|done]|]. intros [] t4 Hq4 _.
  eapply stable_look; [apply Hq4|apply looks_sync_dir|]. intros [] _. by apply stable_ret; [apply Hq4|].
Qed.

Lemma looks_restage tx g : looks (restage tx g) (λ _ _, True).
Proof.
  unfold restage. eapply looks_seq; [apply looks_read_journal|]. intros j.
  destruct (_ && _); [|apply looks_fail]. look_on.
  eapply looks_seq with (φ := λ _ _, True).
  - destruct (_ : bool).
    + eapply looks_conseq; [apply looks_read_activation|done].
    + eapply looks_conseq; [apply looks_load_generation|done].
  - intros g'. destruct (bool_decide _); [apply looks_fail|by apply looks_ret].
Qed.

Lemma quiet_stage t tx g : store_ok t → quiet t (stage_generation tx g) (λ _ _, True).
Proof.
  intros Hs. unfold stage_generation.
  eapply stable_look; [done|apply looks_lift|]. intros [] _.
  eapply stable_look; [done|apply looks_lift|]. intros [] _.
  eapply stable_look; [done|apply looks_active|]. intros active _.
  case_bool_decide; [by apply stable_fail|].
  eapply stable_look; [done|apply looks_validate_owned|]. intros [] _.
  eapply stable_look; [done|apply looks_owned_exists|].
  intros [] Hex; [by eapply stable_looks; [|apply looks_restage|]|].
  eapply stable_look; [done|apply looks_validate_owned|]. intros [] _.
  eapply stable_look; [done|apply looks_owned_exists|]. intros [] _; [by apply stable_fail|].
  apply quiet_stage_new; [done|]. eapply stat_not_found; [apply Hs|exact Hex].
Qed.

(** ** Recovery *)

Lemma allowed_settle t tx j :
  journal_at t tx j → active_is t (base_generation j) → allowed t tx (journal_generation j).
Proof. intros Hj Ha. by exists j. Qed.

Lemma stable_settle t tx j :
  store_ok t → journal_at t tx j → stable (allowed t tx) t (settle tx j) (λ _ _, True).
Proof.
  intros Hs Hj. pose proof (journal_clean t tx j Hs Hj) as Hc.
  assert (Htx : journal_transaction j = tx) by (by destruct Hj as (? & ? & ? & ? & ?)).
  unfold settle. eapply stable_look; [done|apply looks_load_generation|]. intros g (Hdir & Hact & Hid).
  pose proof (ready_loaded t _ g Hs Hdir Hact Hid) as Hready.
  eapply stable_look; [done|apply looks_owned_exists|]. intros b _.
  eapply stable_look with (φ := λ _ _, True); [done| |].
  { destruct b; [|by apply looks_ret]. eapply looks_seq; [apply looks_read_activation|].
    intros g'. destruct (_ || _); [apply looks_fail|by apply looks_ret]. }
  intros [] _. eapply stable_look; [done|apply looks_active|]. intros active Ha.
  specialize (Ha (store_tree t Hs)). rewrite <-Htx in Hc. case_bool_decide as H1.
  - eapply stable_after; [by apply (quiet_write_journal t (set_phase TransactionPhase.Committed j))|].
    intros [] t' Hq _. by apply stable_ret; [apply Hq|].
  - case_bool_decide as H2.
    + eapply stable_bind; [apply stable_write_pointer; [done..|]|].
      { apply allowed_settle; [done|]. by rewrite <-H2. }
      intros [] t1 He1 [_ Hsame].
      eapply stable_after; [apply (quiet_write_journal t1 (set_phase TransactionPhase.Committed j));
        [apply He1|]|].
      * intros c rest. rewrite Hsame by done. apply Hc.
      * intros [] t' Hq _. by apply stable_ret; [apply Hq|].
    + eapply stable_after; [by apply quiet_remove|]. intros [] t' Hq _. by apply stable_ret; [apply Hq|].
Qed.

Lemma stable_recover_transaction t tx :
  store_ok t → stable (allowed t tx) t (recover_transaction tx) (λ _ _, True).
Proof.
  intros Hs. unfold recover_transaction.
  eapply stable_look; [done|apply looks_owned_exists|]. intros [] _; cbn [negb].
  - eapply stable_look; [done|apply looks_read_journal|]. intros j Hj. case_bool_decide.
    + eapply stable_look; [done|apply looks_owned_exists|]. intros [] _.
      * eapply stable_after; [by apply quiet_remove|]. intros [] t' Hq _. by apply stable_ret; [apply Hq|].
      * eapply stable_after; [by apply stable_ret with (Q := λ _ _, True)|].
        intros [] t' Hq _. by apply stable_ret; [apply Hq|].
    + eapply stable_look; [done|apply looks_owned_exists|]. intros [] _; cbn [negb]; [by apply stable_settle|].
      eapply stable_look; [done|apply looks_owned_exists|]. intros b _.
      eapply stable_after; [by apply quiet_remove|]. intros [] t' Hq _. by apply stable_ret; [apply Hq|].
  - eapply stable_after; [by apply quiet_remove|]. intros [] t' Hq _. by apply stable_ret; [apply Hq|].
Qed.

Lemma stable_any {B : Type} A t (m : install_op B) Q : stable A t m Q → stable (λ _, True) t m Q.
Proof.
  assert (Hany : ∀ t', evolves A t t' → evolves (λ _, True) t t').
  { intros t' [Ho Hk Ha]. split; [done..|]. destruct Ha as [?|(id & x & _ & Ha)]; [by left|right; eauto]. }
  intros Hm. eapply hoare_conseq; [exact Hm|done| |].
  - intros b d [He Hq]. split; [by apply Hany|done].
  - intros d He. by apply Hany.
Qed.

Lemma stable_recover_all t ids : store_ok t → stable (λ _, True) t (recover_all ids) (λ _ _, True).
Proof.
  revert t. induction ids as [|id ids IH]; intros t Hs; [by apply stable_ret|]. cbn [recover_all].
  eapply stable_bind; [by eapply stable_any, stable_recover_transaction|]. intros act t1 He1 _.
  eapply stable_bind; [apply IH, He1|]. intros acts t2 He2 _. by apply stable_ret; [apply He2|].
Qed.

Lemma looks_transaction_names names : looks (transaction_names names) (λ _ _, True).
Proof.
  induction names as [|name names IH]; [by apply looks_ret|]. cbn [transaction_names].
  look_on. look_on. look_on. destruct (negb _); [apply looks_fail|].
  destruct (negb _); [apply looks_fail|]. look_on.
  eapply looks_seq; [exact IH|]. intros ids. by apply looks_ret.
Qed.

Lemma stable_recover t : store_ok t → stable (λ _, True) t recover (λ _ _, True).
Proof.
  intros Hs. unfold recover. eapply stable_look; [done|apply looks_validate_owned|]. intros [] _.
  eapply stable_look; [done|apply looks_validate_owned|]. intros [] _.
  eapply stable_look; [done|apply looks_read_dir|]. intros names _.
  eapply stable_look; [done|apply looks_transaction_names|]. intros ids _. by apply stable_recover_all.
Qed.
End store_safety.

Abbreviation quietly := (evolves (λ _, False)).
Abbreviation quiet := (stable (λ _, False)).
