(* ===== verification/StoreRuns.v ===== *)
(** * Runs of the install store

    Calls of src/crates/kindlebridge-bundle/src/install.rs one after the other, each
    cut short anywhere, with restarts of the process in between. *)

From S2P Require Import Prelude Text BundleError Paths Cbor BundleModel Verify Activation Files.
From S2P Require Import InstallStore InstallSafety.

Section runs.
Context `{order : DirOrder, generations : Serde ActivationGeneration}.
Context `{journals : Serde TransactionJournal, width : PointerWidth}.
Context (blake3 : bytes → bytes).
Implicit Types (t : gmap path Node) (A : GenerationId → Prop).

(** ** Directories of the store *)

(** [p] is as it was or a new directory. *)
Definition made (p : path) (t t' : gmap path Node) : Prop :=
  t' = t ∨ (t' = <[p := Directory]> t ∧ t !! p = None ∧ t !! parent p = Some Directory).

Lemma hoare_owned_directory p t :
  tree_ok t →
  hoare (on_tree t) (ensure_directory p)
    (λ _ d, made p t (tree d) ∧ tree d !! p = Some Directory) (λ d, made p t (tree d)).
Proof.
  intros Ht. assert (Hrefl : ∀ d, on_tree t d → made p t (tree d)) by (intros d ->; by left).
  eapply hoare_look; [apply looks_owned_exists|done|]. intros [] Hex.
  - eapply hoare_look; [apply looks_metadata|done|]. intros n Hn%stat_lookup.
    destruct n; cbn [is_dir negb]; [by apply hoare_fail| |by apply hoare_fail].
    apply hoare_ret. intros d Hd. split; [by apply Hrefl|]. by rewrite Hd.
  - eapply hoare_look; [apply looks_owned_reparse|done|]. intros [] _.
    eapply hoare_call; [apply hoare_create_dir|done|]. intros [].
    apply hoare_any. intros d0 (Hd0 & Hnone & Hdir%stat_lookup).
    apply stat_not_found in Hnone; [|done].
    assert (Hmade : ∀ d, on_tree (<[p := Directory]> t) d → made p t (tree d)) by (intros d ->; by right).
    eapply hoare_conseq; [apply (looks_sync_dir (parent p) (<[p := Directory]> t))|by intros d ->| |done].
    intros [] d [Hd _]. split; [by apply Hmade|]. rewrite Hd. by rewrite lookup_insert, decide_True.
Qed.

Lemma inserted_directory (t : gmap path Node) p q n :
  <[p := Directory]> t !! q = Some n → n = Directory ∨ t !! q = Some n.
Proof.
  destruct (decide (p = q)) as [->|].
  - rewrite lookup_insert, decide_True by done. intros [= <-]. by left.
  - rewrite lookup_insert_ne by done. by right.
Qed.

(** A directory of the layout, or one for blocks, is added. *)
Lemma quietly_directory t p :
  store_ok t → tree_ok (<[p := Directory]> t) → p ∈ layout ∨ head p = Some BLOCKS →
  quietly t (<[p := Directory]> t).
Proof.
  intros Hs Hok Hp.
  assert (Hsame : ∀ q, q ∉ layout → head q ≠ Some BLOCKS → <[p := Directory]> t !! q = t !! q).
  { intros q Hq1 Hq2. rewrite lookup_insert_ne; [done|]. intros ->. by destruct Hp. }
  assert (Hgen : ∀ rest, <[p := Directory]> t !! (GENERATIONS :: rest) = t !! (GENERATIONS :: rest) ∨
    rest = []).
  { intros [|c rest]; [by right|left]. apply Hsame; [|done].
    unfold layout. rewrite !elem_of_cons, elem_of_nil. by intros [?|[?|[?|[?|[]]]]]. }
  assert (Hdeep : ∀ name rest, <[p := Directory]> t !! (GENERATIONS :: name :: rest) =
    t !! (GENERATIONS :: name :: rest)) by (intros name rest; by destruct (Hgen (name :: rest))).
  assert (Hk : keeps t (<[p := Directory]> t)) by (intros name rest _; apply Hdeep).
  assert (Hact : <[p := Directory]> t !! active_pointer_path = t !! active_pointer_path).
  { apply Hsame; [|done]. by apply (bool_decide_unpack _). }
  assert (Htx : ∀ tx rest, <[p := Directory]> t !! (TRANSACTIONS :: tx :: rest) =
    t !! (TRANSACTIONS :: tx :: rest)).
  { intros tx rest. apply Hsame; [|done].
    unfold layout. rewrite !elem_of_cons, elem_of_nil. by intros [?|[?|[?|[?|[]]]]]. }
  split; [|done|by left]. split; [done|..].
  - intros name. rewrite Hdeep. intros [g Hg]%(store_generations t Hs). exists g. by eapply complete_keeps.
  - intros n. rewrite Hact. intros (g & x & Hn & Hg)%(store_active t Hs). exists g, x.
    split; [done|by eapply complete_keeps].
  - intros tx. rewrite Htx. intros Hj c rest. rewrite Htx. by apply (store_staged t Hs).
  - intros q l Hown [?|Hq]%inserted_directory; [done|]. by apply (store_plain t Hs q l).
  - intros q n Hq [?|Hn]%inserted_directory; [done|]. by apply (store_layout t Hs q).
Qed.

Lemma quiet_ensure t p :
  store_ok t → p ∈ layout ∨ head p = Some BLOCKS →
  quiet t (ensure_directory p) (λ _ t', made p t t' ∧ t' !! p = Some Directory).
Proof.
  intros Hs Hp. assert (Hq : ∀ d, made p t (tree d) → quietly t (tree d)).
  { intros d [->|(-> & Hnone & Hpar)]; [by apply evolves_refl|]. apply quietly_directory; [done| |done].
    apply tree_ok_insert; [apply Hs|by right|done]. }
  eapply hoare_conseq; [apply hoare_owned_directory, Hs|done| |exact Hq].
  intros [] d [Hd Hdir]. split; [by apply Hq|done].
Qed.

Lemma quiet_create_root t : store_ok t → quiet t create_root (λ _ _, True).
Proof.
  intros Hs. eapply stable_look; [done|apply looks_gate|]. intros [] _.
  intros d Hd. unfold mbnd, mget, mmodify. cbn. unfold on_tree in Hd. rewrite Hd. split; [|done].
  apply quietly_directory; [done| |left; by left].
  apply tree_ok_insert; [apply Hs|by left|done].
Qed.

Lemma quiet_layout t : store_ok t → quiet t ensure_layout (λ _ _, True).
Proof.
  assert (Hin : ∀ p, bool_decide (p ∈ layout) = true → p ∈ layout ∨ head p = Some BLOCKS)
    by (intros p Hp%bool_decide_eq_true; by left).
  intros Hs. unfold ensure_layout.
  eapply stable_bind; [by apply quiet_ensure, Hin|]. intros [] t1 H1 _.
  eapply stable_bind; [by apply quiet_ensure, Hin; [apply H1|]|]. intros [] t2 H2 _.
  eapply stable_bind; [by apply quiet_ensure, Hin; [apply H2|]|]. intros [] t3 H3 _.
  eapply stable_bind; [by apply quiet_ensure, Hin; [apply H3|]|]. intros [] t4 H4 _.
  eapply stable_looks; [apply H4|apply looks_sync_dir|done].
Qed.

Lemma quiet_open t quota : store_ok t → quiet t (store_open quota) (λ _ _, True).
Proof.
  intros Hs. unfold store_open. eapply stable_look; [done|apply looks_owned_exists|]. intros b _.
  eapply stable_bind with (Q := λ _ _, True).
  { destruct b; [|by apply quiet_create_root]. eapply stable_look; [done|apply looks_metadata|].
    intros n _. destruct (negb _); [by apply stable_fail|by apply stable_ret]. }
  intros [] t1 H1 _. eapply stable_look; [apply H1|apply looks_gate|]. intros [] _.
  eapply stable_look; [apply H1|apply looks_owned_reparse|]. intros [] _.
  eapply stable_bind; [apply quiet_layout, H1|]. intros [] t2 H2 _. by apply stable_ret; [apply H2|].
Qed.

(** ** Blocks *)

(** What a block's status says of the file. *)
Definition block_at (digest : Digest) (t : gmap path Node) (s : BlockStatus) : Prop :=
  match s with
  | BlockStatus.Valid _ => ∃ bs x, t !! block_path digest = Some (Regular bs x) ∧
      blake3 bs = digest ∧ 0 < len bs ≤ BLOCK_SIZE
  | BlockStatus.Missing => stat t (block_path digest) = Err NotFound
  | BlockStatus.Corrupt _ => True
  end.

Lemma looks_block_status digest : looks (block_status_unlocked blake3 digest) (block_at digest).
Proof.
  intros t. assert (Hret : ∀ s, block_at digest t s →
    hoare (on_tree t) (mret s : install_op BlockStatus) (λ s d, on_tree t d ∧ block_at digest t s) (on_tree t))
    by (intros s Hb; by apply hoare_ret).
  eapply hoare_look; [apply looks_validate_owned|done|]. intros [] _.
  eapply hoare_look; [apply looks_owned_exists|done|]. intros [] Hex; cbn [negb]; [|by apply Hret].
  eapply hoare_look; [apply looks_owned_reparse|done|]. intros [] _.
  eapply hoare_look; [apply looks_metadata|done|]. intros n Hn%stat_lookup.
  destruct (is_file n) eqn:Hf; cbn [negb]; [|by apply hoare_fail].
  destruct (node_len n =? 0) eqn:H0; cbn [orb]; [by apply Hret|].
  destruct (BLOCK_SIZE <? node_len n) eqn:H1; [by apply Hret|].
  eapply hoare_look; [apply looks_read_owned|done|]. intros bs ([x Hx%stat_lookup] & _).
  case_bool_decide as Hd; [|by apply Hret]. apply Hret. exists bs, x. split; [done|]. split; [done|].
  rewrite Hx in Hn. injection Hn as <-. cbn in H0, H1. pose proof (len_nonneg bs). lia.
Qed.

Lemma looks_read_block digest :
  looks (read_block blake3 digest)
    (λ t o, ∀ bs, o = Some bs → blake3 bs = digest ∧ 0 < len bs ≤ BLOCK_SIZE).
Proof.
  intros t. eapply hoare_look; [apply looks_block_status|done|]. intros s Hs.
  destruct s; [by apply hoare_ret| |by apply hoare_fail].
  eapply hoare_look; [apply looks_read_owned|done|]. intros bs ([x Hx%stat_lookup] & _).
  apply hoare_ret. intros d Hd. split; [done|]. intros bs' [= <-].
  destruct Hs as (bs' & x' & Hp & Hb). by simplify_eq.
Qed.

Lemma looks_collect_missing l unique : looks (collect_missing blake3 l unique) (λ _ _, True).
Proof.
  revert unique. induction l as [|digest l IH]; intros unique; [by apply looks_ret|].
  eapply looks_seq; [apply looks_block_status|]. intros s. apply IH.
Qed.

Lemma looks_add_entries usage p names total :
  (∀ q, looks (usage q) (λ _ _, True)) → looks (add_entries usage p names total) (λ _ _, True).
Proof.
  intros Hu. revert total. induction names as [|name names IH]; intros total; [by apply looks_ret|].
  cbn [add_entries]. look_on. look_on. look_on. unfold add_usage.
  eapply looks_seq with (φ := λ _ _, True); [|intros total'; apply IH].
  destruct (is_dir _); [eapply looks_seq; [apply Hu|]; intros n|destruct (is_file _); [look_on|apply looks_fail]];
    eapply looks_conseq; [apply looks_lift|done|apply looks_lift|done].
Qed.
Lemma looks_usage_below fuel p : looks (usage_below fuel p) (λ _ _, True).
Proof.
  revert p. induction fuel as [|fuel IH]; intros p; [apply looks_fail|]. cbn [usage_below].
  look_on. look_on. by apply looks_add_entries.
Qed.
Lemma looks_block_usage : looks block_usage_unlocked (λ _ _, True).
Proof.
  unfold block_usage_unlocked. look_on. intros t d Hd. unfold directory_file_bytes, mbnd, mget.
  by apply (looks_usage_below _ _ t d Hd).
Qed.

Lemma block_not_temp digest : ¬ temp_in (parent (block_path digest)) (block_path digest).
Proof.
  clear blake3. intros (pid & counter & Heq). injection Heq as Heq. unfold digest_hex in Heq.
  destruct digest as [|b digest]; [done|].
  injection Heq as Heq _. pose proof (byte.unsigned_range b) as Hb.
  pose proof (hex_value_digit (byte.unsigned b / 16)) as Hh. rewrite Heq in Hh.
  discriminate Hh. Z.to_euclidean_division_equations; lia.
Qed.

(** A block is written. *)
Lemma written_block t digest data t' :
  store_ok t → written t (block_path digest) data t' → quietly t t'.
Proof.
  intros Hs Hw.
  assert (Hother : ∀ q, head q ≠ Some BLOCKS → t' !! q = t !! q).
  { intros q Hq. eapply written_elsewhere; [done|by intros ->|]. intros n _ ->. by apply Hq. }
  apply quietly_elsewhere; [done|apply Hw|intros rest; by apply Hother|by apply Hother| |
    by eapply written_plain|by eapply written_layout; [done..|apply (bool_decide_unpack _)]].
  intros tx Hj c rest. rewrite Hother in Hj by done. rewrite Hother by done. by apply (store_staged t Hs).
Qed.

Lemma quiet_put_block t store digest bs :
  store_ok t →
  quiet t (put_block blake3 store digest bs)
    (λ _ t', ∃ bs' x, t' !! block_path digest = Some (Regular bs' x) ∧ blake3 bs' = digest ∧
       0 < len bs' ≤ BLOCK_SIZE).
Proof.
  intros Hs. unfold put_block.
  destruct (decide (bs = [])) as [|Hne]; [by rewrite bool_decide_eq_true_2; [apply stable_fail|]|].
  rewrite bool_decide_eq_false_2 by done. cbn [orb].
  destruct (BLOCK_SIZE <? len bs) eqn:Hl; [by apply stable_fail|].
  case_bool_decide as Hb; [by apply stable_fail|].
  eapply stable_look; [done|apply looks_block_status|]. intros s Hst.
  destruct s as [|size|size]; [|apply stable_ret; [done|exact Hst]|by apply stable_fail].
  eapply stable_look; [done|apply looks_block_usage|]. intros usage _.
  eapply stable_look; [done|apply looks_lift|]. intros total _.
  destruct (block_quota_bytes store <? total); [by apply stable_fail|].
  eapply stable_look; [done|apply looks_validate_owned|]. intros [] _.
  eapply stable_bind; [by apply quiet_ensure; [|right]|]. intros [] t1 H1 _.
  eapply stable_bind with (Q := λ r t', is_ok r = true → t' !! block_path digest = Some (Regular bs false)).
  { apply hoare_try. eapply hoare_conseq; [apply hoare_owned_write; [apply H1|]|done|..].
    - apply block_not_temp.
    - intros [] d [Hw Hd]. split; [exact (written_block t1 digest bs _ (evolves_ok _ _ _ H1) Hw)|].
      intros _. rewrite Hd. by rewrite lookup_insert, decide_True.
    - intros d Hw e. split; [exact (written_block t1 digest bs _ (evolves_ok _ _ _ H1) Hw)|done]. }
  intros [[]|e] t2 H2 Hnew.
  - apply stable_ret; [apply H2|]. exists bs, false. split; [by apply Hnew|]. split; [done|].
    assert (len bs ≠ 0) by (unfold len; destruct bs; [done|simpl; lia]). pose proof (len_nonneg bs). lia.
  - eapply stable_look; [apply H2|apply looks_owned_exists|]. intros [] _; [|by apply stable_fail, H2].
    eapply stable_look; [apply H2|apply looks_block_status|]. intros s Hs2.
    destruct s; [by apply stable_fail, H2|apply stable_ret; [apply H2|exact Hs2]|by apply stable_fail, H2].
Qed.

(** ** Sequences of calls *)

(** The public methods of [InstallStore]. *)
Inductive StoreCall : Type :=
| Open (quota : Z)
| PutBlock (quota : Z) (digest : Digest) (bs : bytes)
| StatusOf (digest : Digest)
| ReadBlock (digest : Digest)
| MissingBlocks (requested : list Digest)
| BlockUsage
| StageGeneration (transaction_id : bytes) (g : ActivationGeneration)
| CommitGeneration (transaction_id : bytes)
| ActiveGeneration
| LoadGeneration (id : GenerationId)
| SelectRollback
| ActivateExisting (target expected_current : GenerationId)
| Recover.

Definition ignore {B : Type} (m : install_op B) : install_op unit := let! _ := m in mret tt.
Definition call (c : StoreCall) : install_op unit :=
  match c with
  | Open quota => ignore (store_open quota)
  | PutBlock quota digest bs => ignore (put_block blake3 {| block_quota_bytes := quota |} digest bs)
  | StatusOf digest => ignore (block_status blake3 digest)
  | ReadBlock digest => ignore (read_block blake3 digest)
  | MissingBlocks requested => ignore (missing_blocks blake3 requested)
  | BlockUsage => ignore block_usage_bytes
  | StageGeneration tx g => ignore (stage_generation tx g)
  | CommitGeneration tx => ignore (commit_generation tx)
  | ActiveGeneration => ignore active_generation_id
  | LoadGeneration id => ignore (load_generation id)
  | SelectRollback => ignore select_rollback
  | ActivateExisting target current => ignore (activate_existing target current)
  | Recover => ignore recover
  end.

(** The files as a process finds them: with calls to come that fail as [l] says,
    a counter and a process ID of its own. *)
Definition resume (l : list (option nat)) (counter pid : Z) (d : Disk) : Disk :=
  {| tree := tree d; faults := l; temp_counter := counter; process_id := pid |}.

Inductive store_run : Disk → Disk → Prop :=
| run_none d : store_run d d
| run_call d d' c l counter pid :
    store_run d d' → store_run d (call c (resume l counter pid d')).1.

Lemma stable_ignore {B : Type} A t (m : install_op B) Q : stable A t m Q → stable A t (ignore m) (λ _ _, True).
Proof. intros Hm. eapply stable_bind; [exact Hm|]. intros b t' He _. by apply stable_ret; [apply He|]. Qed.

Lemma looks_select_rollback : looks select_rollback (λ _ _, True).
Proof.
  unfold select_rollback. eapply looks_seq; [apply looks_active|]. intros [id|]; [|by apply looks_ret].
  eapply looks_seq; [apply looks_load_generation|]. intros g.
  destruct (previous_generation g); [|by apply looks_ret].
  eapply looks_seq; [apply looks_load_generation|]. intros g'. by apply looks_ret.
Qed.

Lemma stable_commit_generation t tx :
  store_ok t →
  stable (allowed t tx) t (commit_generation tx)
    (λ outcome t', ∃ j, journal_at t tx j ∧ commit_report t j outcome t').
Proof.
  intros Hs. eapply stable_look; [done|apply looks_lift|]. intros [] _. by apply stable_commit.
Qed.

Lemma stable_call t c : store_ok t → stable (λ _, True) t (call c) (λ _ _, True).
Proof.
  intros Hs. assert (Hlook : ∀ B (m : install_op B) φ, looks m φ → stable (λ _, True) t (ignore m) (λ _ _, True)).
  { intros B m φ Hm. apply stable_ignore with (Q := λ _ _, True). by eapply stable_looks. }
  destruct c; cbn [call].
  - by eapply stable_ignore, stable_quiet, quiet_open.
  - by eapply stable_ignore, stable_quiet, quiet_put_block.
  - eapply Hlook, looks_block_status.
  - eapply Hlook, looks_read_block.
  - eapply Hlook, looks_collect_missing.
  - eapply Hlook, looks_block_usage.
  - by eapply stable_ignore, stable_quiet, quiet_stage.
  - by eapply stable_ignore, stable_any, stable_commit_generation.
  - eapply Hlook, looks_active.
  - eapply Hlook, looks_load_generation.
  - eapply Hlook, looks_select_rollback.
  - by eapply stable_ignore, stable_any, stable_activate_existing.
  - by eapply stable_ignore, stable_recover.
Qed.

Lemma run_evolves d d' : store_run d d' → store_ok (tree d) → evolves (λ _, True) (tree d) (tree d').
Proof.
  intros Hrun Hs. induction Hrun as [d|d d' c l counter pid _ IH]; [by apply evolves_refl|].
  specialize (IH Hs). eapply evolves_trans; [exact IH|].
  pose proof (stable_call (tree d') c (evolves_ok _ _ _ IH) (resume l counter pid d') eq_refl) as Hc.
  destruct (call c (resume l counter pid d')) as [d2 [[]|e]]; cbn in Hc |- *; [apply Hc|exact Hc].
Qed.

Lemma store_ok_empty : store_ok ∅.
Proof.
  split.
  - intros p c Hp. rewrite lookup_empty in Hp. by destruct Hp.
  - intros name Hn. rewrite lookup_empty in Hn. by destruct Hn.
  - intros n Hn. by rewrite lookup_empty in Hn.
  - intros tx Hn. rewrite lookup_empty in Hn. by destruct Hn.
  - intros q l _. by rewrite lookup_empty.
  - intros q n _. by rewrite lookup_empty.
Qed.

Lemma run_ok d d' : tree d = ∅ → store_run d d' → store_ok (tree d').
Proof.
  intros Hd Hrun. apply (evolves_ok _ _ _ (run_evolves d d' Hrun ltac:(rewrite Hd; apply store_ok_empty))).
Qed.

(** ** Calls that do not fail *)

(** A call that succeeds when no system call fails. *)
Definition succeeds {B : Type} (d : Disk) (m : install_op B) (Q : B → Disk → Prop) : Prop :=
  match m d with
  | (d', Ok b) => faults d' = [] ∧ Q b d'
  | (_, Err _) => False
  end.

Lemma succeeds_bind {B C : Type} d (m : install_op B) (k : B → install_op C) Q R :
  succeeds d m Q → (∀ b d', faults d' = [] → Q b d' → succeeds d' (k b) R) → succeeds d (mbnd m k) R.
Proof.
  unfold succeeds, mbnd. intros Hm Hk. destruct (m d) as [d' [b|e]]; [|done].
  destruct Hm as [Hf Hq]. by apply Hk.
Qed.
Lemma succeeds_run {B C : Type} d (m : install_op B) (k : B → install_op C) b R :
  m d = (d, Ok b) → succeeds d (k b) R → succeeds d (mbnd m k) R.
Proof. unfold succeeds. intros Hm Hk. by rewrite (mbnd_run _ _ _ _ _ Hm). Qed.
Lemma succeeds_conseq {B : Type} d (m : install_op B) (Q R : _ → _ → Prop) :
  succeeds d m Q → (∀ b d', Q b d' → R b d') → succeeds d m R.
Proof. unfold succeeds. intros Hm HR. destruct (m d) as [d' [b|e]]; [|done]. by destruct Hm; split; [|apply HR]. Qed.
Lemma succeeds_ret {B : Type} d (b : B) (Q : _ → _ → Prop) : faults d = [] → Q b d → succeeds d (mret b) Q.
Proof. by split. Qed.

(** A tree without links at the paths in [D]. *)
Record plain_at (D : path → Prop) (t : gmap path Node) : Prop := {
  plain_ok : tree_ok t;
  plain_links : ∀ q l, D q → t !! q ≠ Some (Symlink l);
}.
Abbreviation plain_tree := (plain_at (λ _, True)).
Lemma store_files t : store_ok t → plain_at store_path t.
Proof. intros Hs. split; [apply Hs|apply (store_plain t Hs)]. Qed.


Section clear.
Context (D : path → Prop) (d : Disk) (Hf : faults d = []) (Hs : plain_at D (tree d)).

Lemma clear_stat p n : tree d !! p = Some n → stat (tree d) p = Ok n.
Proof. apply stat_complete, Hs. Qed.
Lemma clear_lstat p n : tree d !! p = Some n → symlink_metadata p d = (d, Ok n : bundle_result Node).
Proof. intros Hn. rewrite symlink_metadata_clear by done. by rewrite (clear_stat _ _ Hn). Qed.
Lemma clear_metadata p n : D p → tree d !! p = Some n → metadata p d = (d, Ok n : bundle_result Node).
Proof.
  intros Hp Hn. unfold metadata. rewrite (mbnd_run _ _ _ _ _ (clear_lstat p n Hn)).
  pose proof (λ l, plain_links _ _ Hs p l Hp) as Hplain. destruct n as [| |l]; [done..|]. by destruct (Hplain l).
Qed.
Lemma clear_reparse p n : D p → tree d !! p = Some n → reject_reparse p d = (d, Ok tt).
Proof.
  intros Hp Hn. unfold reject_reparse. rewrite (mbnd_run _ _ _ _ _ (clear_lstat p n Hn)).
  pose proof (λ l, plain_links _ _ Hs p l Hp) as Hplain. destruct n as [| |l]; [done..|]. by destruct (Hplain l).
Qed.
Lemma clear_exists p :
  D p → p = [] ∨ tree d !! parent p = Some Directory ∨ is_Some (tree d !! p) →
  entry_exists p d = (d, Ok (bool_decide (is_Some (tree d !! p)))).
Proof.
  intros HD Hp. unfold entry_exists, mbnd, attempt. rewrite symlink_metadata_clear by done.
  destruct (tree d !! p) as [n|] eqn:Hn.
  - rewrite (clear_stat _ _ Hn). pose proof (λ l, plain_links _ _ Hs p l HD) as Hplain.
    destruct n as [| |l]; [done..|]. by destruct (Hplain l).
  - assert (Hst : stat (tree d) p = Err NotFound).
    { destruct Hp as [->|[Hp|[]]]; [|by apply stat_missing; [apply Hs|..]|done].
      unfold stat. cbn. by rewrite Hn. }
    by rewrite Hst.
Qed.
Lemma clear_sync_dir p n : D p → tree d !! p = Some n → sync_dir p d = (d, Ok tt).
Proof.
  intros HD Hn. unfold sync_dir. rewrite (mbnd_run _ _ _ _ _ (clear_metadata p n HD Hn)). by apply gate_clear.
Qed.

Lemma clear_validate p : (∀ n, D (take n p)) → tree d !! parent p = Some Directory → validate_owned_path p d = (d, Ok tt).
Proof.
  intros HD Hpar. assert (Hroot : is_Some (tree d !! [])).
  { destruct (decide (parent p = [])) as [Heq|Hne]; [rewrite <-Heq; by eexists|].
    exists Directory. apply (tree_ok_prefix (tree d) [] (parent p)); [apply Hs|by eexists|done]. }
  destruct Hroot as [root Hroot]. unfold validate_owned_path.
  rewrite (mbnd_run _ _ _ _ _ (clear_reparse [] root (HD 0%nat) Hroot)). unfold path_prefixes.
  assert (Hall : ∀ n, (1 ≤ n ≤ length p)%nat → entry_exists (take n p) d =
    (d, Ok (bool_decide (is_Some (tree d !! take n p))))).
  { intros n Hn. apply clear_exists; [apply HD|]. right. unfold parent in Hpar.
    destruct (decide (n = length p)) as [->|Hne]; [left; by rewrite firstn_all|right].
    destruct (decide (n = length p - 1)%nat) as [->|]; [by eexists|].
    exists Directory. apply (tree_ok_prefix (tree d) _ (drop n (take (length p - 1) p))); [apply Hs| |].
    - replace (take n p) with (take n (take (length p - 1) p)) by (rewrite take_take; f_equal; lia).
      rewrite take_drop. by eexists.
    - intros Hnil. apply (f_equal length) in Hnil. rewrite length_drop, length_take in Hnil. simpl in Hnil. lia. }
  assert (Hseq : ∀ k n, (1 ≤ n)%nat → (n + k ≤ S (length p))%nat →
    mforeach (λ q, let! _ := entry_exists q in mret tt) ((λ n, take n p) <$> seq n k) d = (d, Ok tt)).
  { induction k as [|k IH]; intros n H1 H2; [done|]. cbn [seq fmap list_fmap mforeach].
    unfold mbnd at 1 2. rewrite Hall by lia. cbn. apply IH; lia. }
  apply Hseq; lia.
Qed.

Lemma clear_read p bs x maximum :
  D p → tree d !! p = Some (Regular bs x) → len bs ≤ maximum → read_owned_file p maximum d = (d, Ok bs).
Proof.
  intros HD Hp Hl. unfold read_owned_file.
  rewrite (mbnd_run _ _ _ _ _ (clear_reparse p _ HD Hp)), (mbnd_run _ _ _ _ _ (clear_metadata p _ HD Hp)).
  cbn [is_file node_len negb orb]. replace (maximum <? len bs) with false by lia.
  erewrite mbnd_run; [|unfold read_node; by rewrite (mbnd_run _ _ _ _ _ (clear_metadata p _ HD Hp))].
  by rewrite Z.eqb_refl.
Qed.

Lemma clear_read_dir p : D p → tree d !! p = Some Directory →
  read_dir p d = (d, Ok (dir_order (children (tree d) p)) : bundle_result _).
Proof. intros HD Hp. unfold read_dir. by rewrite (mbnd_run _ _ _ _ _ (clear_metadata p _ HD Hp)). Qed.

Lemma clear_generation_directory p bs x :
  D p → D (p ++ [ACTIVATION]) → tree d !! p = Some Directory → tree d !! (p ++ [ACTIVATION]) = Some (Regular bs x) →
  dir_order (children (tree d) p) = [ACTIVATION] → validate_generation_directory p d = (d, Ok tt).
Proof.
  intros HD HA Hdir Hrec Hnames. unfold validate_generation_directory.
  rewrite (mbnd_run _ _ _ _ _ (clear_read_dir _ HD Hdir)), Hnames.
  rewrite (mbnd_run _ _ d d true); [done|]. cbn [check_generation_entries].
  rewrite (mbnd_run _ _ _ _ _ (gate_clear d Hf)), (mbnd_run _ _ _ _ _ (clear_reparse _ _ HA Hrec)).
  rewrite (mbnd_run _ _ d d tt); [done|]. rewrite bool_decide_eq_false_2 by naive_solver.
  by rewrite (mbnd_run _ _ _ _ _ (clear_lstat _ _ Hrec)).
Qed.

Lemma clear_load g :
  (∀ rest, D (GENERATIONS :: rest)) → D [] → complete (tree d) (directory_name g) g → load_generation_unlocked (generation_id g) d = (d, Ok g).
Proof.
  intros HD Hroot Hc. pose proof (complete_dir _ _ _ Hc) as Hdir.
  destruct (complete_record _ _ _ Hc) as (bs & x & Hrec & Hl & Hg).
  change [GENERATIONS; directory_name g] with (generation_dir (generation_id g)) in Hdir.
  change [GENERATIONS; directory_name g; ACTIVATION]
    with (generation_dir (generation_id g) ++ [ACTIVATION]) in Hrec.
  assert (Hnames : dir_order (children (tree d) (generation_dir (generation_id g))) = [ACTIVATION]).
  { apply Permutation_singleton_r. rewrite dir_order_perm. apply NoDup_Permutation; [apply NoDup_children|
      apply NoDup_singleton|].
    intros c. rewrite elem_of_children, list_elem_of_singleton. split.
    - intros Hs'. by apply (complete_only _ _ _ Hc c []).
    - intros ->. by eexists. }
  unfold load_generation_unlocked.
  assert (Hpar : tree d !! parent (generation_dir (generation_id g)) = Some Directory)
    by (apply (plain_ok _ _ Hs [GENERATIONS] (directory_name g)); by eexists).
  assert (Hpre : ∀ n, D (take n (generation_dir (generation_id g)))) by (intros [|n]; [done|apply HD]).
  rewrite (mbnd_run _ _ _ _ _ (clear_validate _ Hpre Hpar)).
  rewrite (mbnd_run _ _ _ _ _ (clear_reparse _ _ (HD _) Hdir)), (mbnd_run _ _ _ _ _ (clear_metadata _ _ (HD _) Hdir)).
  cbn [is_dir negb].
  rewrite (mbnd_run _ _ _ _ _ (clear_generation_directory _ _ _ (HD _) (HD _) Hdir Hrec Hnames)).
  erewrite mbnd_run; [|unfold read_activation, mlift; rewrite (mbnd_run _ _ _ _ _ (clear_read _ _ _ _ (HD _) Hrec Hl));
    by rewrite Hg].
  rewrite !bool_decide_eq_false_2; [done|naive_solver..].
Qed.
End clear.

(** The paths of a store. *)
Section owned.
Context (d : Disk) (Hf : faults d = []) (Hs : store_ok (tree d)).

Lemma owned_validate p :
  store_path p → tree d !! parent p = Some Directory → validate_owned_path p d = (d, Ok tt).
Proof. intros Hp. apply (clear_validate store_path); [done|by apply store_files|]. intros n. by apply store_path_take. Qed.
Lemma owned_exists p :
  store_path p → p = [] ∨ tree d !! parent p = Some Directory ∨ is_Some (tree d !! p) →
  entry_exists p d = (d, Ok (bool_decide (is_Some (tree d !! p)))).
Proof. apply (clear_exists store_path); [done|by apply store_files]. Qed.
Lemma owned_metadata p n : store_path p → tree d !! p = Some n → metadata p d = (d, Ok n : bundle_result Node).
Proof. apply (clear_metadata store_path); [done|by apply store_files]. Qed.
Lemma owned_reparse p n : store_path p → tree d !! p = Some n → reject_reparse p d = (d, Ok tt).
Proof. apply (clear_reparse store_path); [done|by apply store_files]. Qed.
Lemma owned_sync p n : store_path p → tree d !! p = Some n → sync_dir p d = (d, Ok tt).
Proof. apply (clear_sync_dir store_path); [done|by apply store_files]. Qed.
Lemma owned_read p bs x maximum :
  store_path p → tree d !! p = Some (Regular bs x) → len bs ≤ maximum → read_owned_file p maximum d = (d, Ok bs).
Proof. apply (clear_read store_path); [done|by apply store_files]. Qed.
Lemma owned_load g :
  complete (tree d) (directory_name g) g → load_generation_unlocked (generation_id g) d = (d, Ok g).
Proof. apply (clear_load store_path); [done|by apply store_files|cbn; tauto|done]. Qed.
End owned.
Lemma layout_store_path p : p ∈ layout → store_path p.
Proof. unfold layout. rewrite !elem_of_cons, elem_of_nil. intros [->|[->|[->|[->|[]]]]]; cbn; tauto. Qed.
Ltac own := solve [exact I | repeat first [left; reflexivity | right]; reflexivity].

(** ** The active generation *)

(** [GenerationId] deserializes from 16 bytes only. *)
Definition ids_sized : Prop :=
  ∀ bs (g : ActivationGeneration), from_slice bs = Ok g → len (generation_id g) = 16.

Lemma from_cbor_sized bs g : ids_sized → from_cbor bs = Ok g → len (generation_id g) = 16.
Proof.
  intros Hsized Hg%from_cbor_read. by eapply Hsized.
Qed.
Lemma complete_sized t name g : ids_sized → complete t name g → len (generation_id g) = 16.
Proof. intros Hsized Hc. destruct (complete_record _ _ _ Hc) as (bs & x & _ & _ & Hg). by eapply from_cbor_sized. Qed.

Lemma pointer_roundtrip id : len id = 16 → pointer_id (pointer_bytes id) = Ok id.
Proof.
  intros Hid. unfold pointer_id, pointer_bytes. rewrite strip_last_snoc.
  by apply generation_name_roundtrip.
Qed.
Lemma pointer_utf8 id : utf8_valid (pointer_bytes id) = true.
Proof.
  apply utf8_ascii. unfold pointer_bytes. rewrite Forall_app. split; [|by repeat constructor].
  pose proof (hex_digits id) as Hh.
  apply Forall_forall. intros b Hb. apply forallb_forall with (x := b) in Hh; [|by apply list_elem_of_In].
  revert Hh. clear. by destruct b; vm_compute.
Qed.

Lemma parse_hex_inj a b : generation_id_hex a = generation_id_hex b → a = b.
Proof.
  intros Hab. pose proof (parse_pairs_hex a) as Ha. pose proof (parse_pairs_hex b) as Hb.
  unfold generation_id_hex in Hab. rewrite Hab in Ha. congruence.
Qed.

Lemma activated_active t id : ids_sized → store_ok t → activated id t → active_is t (Some id).
Proof.
  intros Hsized Hs [Ha|Hp]; [done|]. eexists _, _. split; [exact Hp|].
  destruct (store_active t Hs _ Hp) as (g & x & Heq & Hg). injection Heq as Heq _.
  apply app_inv_tail, parse_hex_inj in Heq as ->. apply pointer_roundtrip. by eapply complete_sized.
Qed.

(** A store that is open: its directories are there. *)
Definition laid_out (t : gmap path Node) : Prop := ∀ p, p ∈ layout → t !! p = Some Directory.

Lemma clear_active d :
  faults d = [] → store_ok (tree d) → laid_out (tree d) → ids_sized →
  ∃ o, active_generation_id_unlocked d = (d, Ok o) ∧ active_is (tree d) o ∧
    ∀ id, o = Some id → ∃ g, generation_id g = id ∧ complete (tree d) (directory_name g) g.
Proof.
  intros Hf Hs Hl Hsized. assert (Hroot : tree d !! parent active_pointer_path = Some Directory)
    by (apply Hl; by left).
  unfold active_generation_id_unlocked. rewrite (mbnd_run _ _ _ _ _ (owned_validate d Hf Hs active_pointer_path ltac:(own) Hroot)).
  rewrite (mbnd_run _ _ _ _ _ (owned_exists d Hf Hs active_pointer_path ltac:(own) (or_intror (or_introl Hroot)))).
  destruct (tree d !! active_pointer_path) as [n|] eqn:Hn.
  - destruct (store_active _ Hs n Hn) as (g & x & -> & Hg). pose proof (complete_sized _ _ _ Hsized Hg) as Hlen.
    rewrite bool_decide_eq_true_2 by (by eexists). cbn [negb].
    assert (Hsize : len (pointer_bytes (generation_id g)) ≤ 64).
    { unfold pointer_bytes, generation_id_hex. rewrite len_app, len_bytes_hex, Hlen. by compute. }
    rewrite (mbnd_run _ _ _ _ _ (owned_read d Hf Hs active_pointer_path _ _ _ ltac:(own) Hn Hsize)), pointer_utf8. cbn [negb].
    pose proof (pointer_roundtrip _ Hlen) as Hid. unfold pointer_id in Hid.
    exists (Some (generation_id g)). split; [unfold mbnd, mlift; by rewrite Hid|].
    split; [by eexists _, _|]. intros id [= <-]. by exists g.
  - rewrite bool_decide_eq_false_2 by (by intros []). by exists None.
Qed.

(** ** Opening a store *)

Lemma succeeds_ensure d p :
  faults d = [] → store_ok (tree d) → p ∈ layout →
  is_Some (tree d !! p) ∨ tree d !! parent p = Some Directory →
  succeeds d (ensure_directory p) (λ _ d', tree d' = <[p := Directory]> (tree d)).
Proof.
  intros Hf Hs Hp Hpar. unfold ensure_directory.
  eapply succeeds_run; [apply owned_exists; [done|done|by apply layout_store_path|right; tauto]|].
  destruct (tree d !! p) as [n|] eqn:Hn.
  - rewrite bool_decide_eq_true_2 by (by eexists). pose proof (store_layout _ Hs p n Hp Hn) as ->.
    eapply succeeds_run; [apply owned_metadata; by try apply layout_store_path|]. cbn. split; [done|]. by rewrite insert_id.
  - rewrite bool_decide_eq_false_2 by (by intros []). destruct Hpar as [[]|Hpar]; [done|].
    assert (Hown : store_path (parent p)) by (by apply store_path_take, layout_store_path).
    eapply succeeds_run; [by eapply owned_reparse|].
    eapply succeeds_bind with (Q := λ _ d', d' = set_tree (<[p := Directory]> (tree d)) d).
    + unfold succeeds, create_dir, mbnd. rewrite gate_clear by done. unfold mget.
      rewrite (stat_missing _ _ (store_tree _ Hs) Hpar Hn), (clear_stat store_path d (store_files _ Hs) _ _ Hpar). done.
    + intros [] d' Hf' ->.
      assert (Hsync : sync_dir (parent p) (set_tree (<[p := Directory]> (tree d)) d) =
        (set_tree (<[p := Directory]> (tree d)) d, Ok tt)).
      { apply owned_sync with (n := Directory); [done| |done|].
        - cbn. apply (evolves_ok (λ _, False) (tree d)). apply quietly_directory; [done| |by left].
          apply tree_ok_insert; [apply Hs|by right|done].
        - cbn. rewrite lookup_insert_ne; [done|]. intros Heq. rewrite <-Heq in Hpar. congruence. }
      unfold succeeds. by rewrite Hsync.
Qed.

Lemma store_ok_insert t p :
  store_ok t → p ∈ layout → p = [] ∨ is_Some (t !! p) ∨ t !! parent p = Some Directory →
  store_ok (<[p := Directory]> t).
Proof.
  intros Hs Hp Hpar. apply (evolves_ok (λ _, False) t). apply quietly_directory; [done| |by left].
  destruct (t !! p) as [n|] eqn:Hn.
  - pose proof (store_layout _ Hs p n Hp Hn) as ->. rewrite insert_id by done. apply Hs.
  - apply tree_ok_insert; [apply Hs| |done]. destruct Hpar as [?|[[]|?]]; [by left|done|by right].
Qed.

(** The tree of an open store. *)
Definition opened (t : gmap path Node) : gmap path Node :=
  <[generations_dir := Directory]> (<[transactions_dir := Directory]>
    (<[blocks_dir := Directory]> (<[[] := Directory]> t))).

Lemma opened_ok t : store_ok t → store_ok (opened t) ∧ laid_out (opened t).
Proof.
  intros Hs. assert (Hin : ∀ p, bool_decide (p ∈ layout) = true → p ∈ layout)
    by (intros p; apply bool_decide_eq_true).
  unfold opened. split.
  - do 3 (apply store_ok_insert; [|by apply Hin|right; right; by simplify_map_eq]).
    apply store_ok_insert; [done|by apply Hin|by left].
  - intros p Hp. unfold layout in Hp. rewrite !elem_of_cons, elem_of_nil in Hp.
    destruct Hp as [->|[->|[->|[->|[]]]]]; by simplify_map_eq.
Qed.

Lemma succeeds_layout d :
  faults d = [] → store_ok (tree d) → tree d !! [] = Some Directory →
  succeeds d ensure_layout (λ _ d', tree d' = opened (tree d)).
Proof.
  intros Hf Hs Hroot. assert (Hin : ∀ p, bool_decide (p ∈ layout) = true → p ∈ layout)
    by (intros p; apply bool_decide_eq_true).
  unfold ensure_layout.
  eapply succeeds_bind; [apply succeeds_ensure; [done|done|by apply Hin|left; by eexists]|].
  intros [] d1 Hf1 Ht1. assert (Hs1 : store_ok (tree d1))
    by (rewrite Ht1; apply store_ok_insert; [done|by apply Hin|by left]).
  eapply succeeds_bind; [apply succeeds_ensure; [done|done|by apply Hin|right; rewrite Ht1; by simplify_map_eq]|].
  intros [] d2 Hf2 Ht2. assert (Hs2 : store_ok (tree d2))
    by (rewrite Ht2; apply store_ok_insert; [done|by apply Hin|right; right; rewrite Ht1; by simplify_map_eq]).
  eapply succeeds_bind; [apply succeeds_ensure; [done|done|by apply Hin|right; rewrite Ht2, Ht1; by simplify_map_eq]|].
  intros [] d3 Hf3 Ht3. assert (Hs3 : store_ok (tree d3))
    by (rewrite Ht3; apply store_ok_insert; [done|by apply Hin|right; right; rewrite Ht2, Ht1; by simplify_map_eq]).
  eapply succeeds_bind; [apply succeeds_ensure; [done|done|by apply Hin|right; rewrite Ht3, Ht2, Ht1; by simplify_map_eq]|].
  intros [] d4 Hf4 Ht4. assert (Heq : tree d4 = opened (tree d)) by (unfold opened; congruence).
  destruct (opened_ok (tree d) Hs) as [Hso Hlo]. rewrite <-Heq in Hso, Hlo.
  unfold succeeds. rewrite (owned_sync d4 Hf4 Hso [] Directory I); [done|]. apply Hlo. by left.
Qed.

Lemma succeeds_open d quota :
  faults d = [] → store_ok (tree d) →
  succeeds d (store_open quota) (λ _ d', tree d' = opened (tree d)).
Proof.
  intros Hf Hs. unfold store_open. eapply succeeds_run; [apply owned_exists; [done|done|done|by left]|].
  eapply succeeds_bind with (Q := λ _ d', tree d' = <[[] := Directory]> (tree d)).
  { destruct (tree d !! []) as [n|] eqn:Hn.
    - rewrite bool_decide_eq_true_2 by (by eexists).
      pose proof (store_layout _ Hs [] n ltac:(by left) Hn) as ->.
      eapply succeeds_run; [by apply owned_metadata|]. cbn. split; [done|]. by rewrite insert_id.
    - rewrite bool_decide_eq_false_2 by (by intros []). unfold succeeds, create_root, mbnd.
      rewrite gate_clear by done. done. }
  intros [] d1 Hf1 Ht1. assert (Hs1 : store_ok (tree d1))
    by (rewrite Ht1; apply store_ok_insert; [done|by left|by left]).
  assert (Hroot : tree d1 !! [] = Some Directory) by (rewrite Ht1; by simplify_map_eq).
  eapply succeeds_run; [by apply gate_clear|]. eapply succeeds_run; [by eapply owned_reparse|].
  eapply succeeds_bind; [by apply succeeds_layout|]. intros [] d2 Hf2 Ht2. apply succeeds_ret; [done|].
  rewrite Ht2, Ht1. unfold opened. do 3 f_equal. by rewrite insert_insert, decide_True.
Qed.

(** ** What the store promises *)

(** A process opens the store and loads the active generation. *)
Definition load_active (quota : Z) : install_op (option ActivationGeneration) :=
  let! _ := store_open quota in
  let! active := active_generation_id in
  match active with
  | None => mret None
  | Some id => let! g := load_generation id in mret (Some g)
  end.

(** C2: whatever calls were made on a store that was empty to begin with, and
    wherever each of them was cut short, a process that then opens the store
    without failures reads the active pointer and, if there is one, loads a
    complete and valid generation. *)
Theorem active_generation_survives d d' quota counter pid :
  ids_sized → tree d = ∅ → store_run d d' →
  ∃ d2 o, load_active quota (resume [] counter pid d') = (d2, Ok o) ∧
    active_is (tree d') (generation_id <$> o) ∧ (∀ g, o = Some g → validate g = Ok tt).
Proof.
  intros Hsized Hd Hrun. pose proof (run_ok d d' Hd Hrun) as Hs.
  pose proof (succeeds_open (resume [] counter pid d') quota eq_refl Hs) as Ho.
  unfold load_active, succeeds in *.
  destruct (store_open quota (resume [] counter pid d')) as [d1 [st|e]] eqn:Hopen; [|done].
  destruct Ho as [Hf1 Ht1]. rewrite (mbnd_run _ _ _ _ _ Hopen).
  destruct (opened_ok (tree d') Hs) as [Hs1 Hl1]. change (tree (resume [] counter pid d')) with (tree d') in Ht1.
  rewrite <-Ht1 in Hs1, Hl1.
  destruct (clear_active d1 Hf1 Hs1 Hl1 Hsized) as (o & Hrun1 & Hact & Hg).
  rewrite (mbnd_run _ _ _ _ _ Hrun1).
  assert (Hsame : active_is (tree d') o).
  { revert Hact. unfold active_is. rewrite Ht1. unfold opened. by simplify_map_eq. }
  destruct o as [id|]; [|by exists d1, None].
  destruct (Hg id eq_refl) as (g & <- & Hc). exists d1, (Some g).
  rewrite (mbnd_run _ _ _ _ _ (owned_load d1 Hf1 Hs1 g Hc)). split; [done|]. split; [done|].
  intros g' [= <-]. destruct (complete_record _ _ _ Hc) as (bs & x & _ & _ & Hcbor).
  by apply from_cbor_valid in Hcbor.
Qed.

(** C30: a generation is immutable: once it can be loaded, it is loaded with the
    same contents for ever, whatever calls are made later and cut short. *)
Theorem generations_are_immutable d d1 d2 id g l1 counter1 pid1 counter2 pid2 :
  tree d = ∅ → store_run d d1 → store_run d1 d2 →
  (load_generation id (resume l1 counter1 pid1 d1)).2 = Ok g →
  (load_generation id (resume [] counter2 pid2 d2)).2 = Ok g.
Proof.
  intros Hd Hrun1 Hrun2 Hload. pose proof (run_ok d d1 Hd Hrun1) as Hs1.
  pose proof (looks_load_generation id (tree d1) (resume l1 counter1 pid1 d1) eq_refl) as Hl.
  unfold load_generation in *.
  destruct (load_generation_unlocked id (resume l1 counter1 pid1 d1)) as [d1' [g'|e]]; [|done].
  cbn [snd] in Hload. injection Hload as ->. destruct Hl as (_ & Hdir & Hact & Hid).
  destruct (store_generations _ Hs1 (generation_id_hex id)) as [g' Hc]; [by eexists|].
  pose proof (activation_at_inj _ _ _ _ (complete_record _ _ _ Hc) Hact) as ->. subst id.
  pose proof (run_evolves d1 d2 Hrun2 Hs1) as [Hs2 Hk _].
  pose proof (complete_keeps _ _ _ _ Hk Hc) as Hc2.
  by rewrite (owned_load (resume [] counter2 pid2 d2) eq_refl Hs2 g Hc2).
Qed.

(** C9: a commit is atomic, and a compare-and-swap: however it ends, the active
    generation is the one from before, or it is the transaction's and the one
    from before is the transaction's base.  If it reports success, either the
    transaction's journal said committed already, that is what is reported, and
    nothing has changed; or the journal did not, the transaction's generation
    is active now, and the journal on the disk records the commit. *)
Theorem commit_is_atomic d d1 l counter pid tx d2 r :
  ids_sized → tree d = ∅ → store_run d d1 →
  commit_generation tx (resume l counter pid d1) = (d2, r) →
  (tree d2 !! active_pointer_path = tree d1 !! active_pointer_path ∨
   ∃ j, journal_at (tree d1) tx j ∧ active_is (tree d1) (base_generation j) ∧
        active_is (tree d2) (Some (journal_generation j))) ∧
  (∀ outcome, r = Ok outcome → ∃ j, journal_at (tree d1) tx j ∧
     (phase j = TransactionPhase.Committed ∧ outcome = CommitOutcome.AlreadyCommitted ∧
        tree d2 = tree d1 ∨
      phase j ≠ TransactionPhase.Committed ∧ outcome ≠ CommitOutcome.AlreadyCommitted ∧
        active_is (tree d2) (Some (journal_generation j)) ∧
        recorded (tree d2) (set_phase TransactionPhase.Committed j))).
Proof.
  intros Hsized Hd Hrun Hcommit. pose proof (run_ok d d1 Hd Hrun) as Hs.
  pose proof (stable_commit_generation (tree d1) tx Hs (resume l counter pid d1) eq_refl) as Hc.
  rewrite Hcommit in Hc.
  assert (He : evolves (allowed (tree d1) tx) (tree d1) (tree d2)) by (destruct r; [apply Hc|exact Hc]).
  pose proof (evolves_ok _ _ _ He) as Hs2. split.
  - destruct (evolves_active _ _ _ He) as [?|(id & x & (j & Hj & -> & Hb) & Hp)]; [by left|right].
    exists j. split; [done|]. split; [done|]. eexists _, _. split; [exact Hp|].
    destruct (store_active _ Hs2 _ Hp) as (g & x' & Heq & Hg). injection Heq as Heq _.
    apply app_inv_tail, parse_hex_inj in Heq as ->. apply pointer_roundtrip. by eapply complete_sized.
  - intros outcome ->. destruct Hc as [_ (j & Hj & [Hdone|(Hp & Ho & Ha & Hw)])]; exists j; (split; [done|]).
    + by left.
    + right. split; [done|]. split; [done|]. split; [by apply activated_active|done].
Qed.

(** ** Blocks *)

Lemma clear_block d digest bs x :
  faults d = [] → store_ok (tree d) → tree d !! block_path digest = Some (Regular bs x) →
  blake3 bs = digest → 0 < len bs ≤ BLOCK_SIZE → read_block blake3 digest d = (d, Ok (Some bs)).
Proof.
  intros Hf Hs Hp Hb Hl. assert (Hpar : tree d !! parent (block_path digest) = Some Directory).
  { apply (store_tree _ Hs _ (digest_hex digest ++ text ".block")). by eexists. }
  assert (Hstatus : block_status_unlocked blake3 digest d = (d, Ok (BlockStatus.Valid (len bs)))).
  { unfold block_status_unlocked. rewrite (mbnd_run _ _ _ _ _ (owned_validate d Hf Hs (block_path digest) ltac:(own) Hpar)).
    rewrite (mbnd_run _ _ _ _ _ (owned_exists d Hf Hs (block_path digest) ltac:(own) (or_intror (or_introl Hpar)))).
    rewrite bool_decide_eq_true_2 by (by eexists). cbn [negb].
    rewrite (mbnd_run _ _ _ _ _ (owned_reparse d Hf Hs (block_path digest) _ ltac:(own) Hp)).
    rewrite (mbnd_run _ _ _ _ _ (owned_metadata d Hf Hs (block_path digest) _ ltac:(own) Hp)). cbn [is_file negb node_len].
    replace (len bs =? 0) with false by lia. replace (BLOCK_SIZE <? len bs) with false by lia. cbn [orb].
    rewrite (mbnd_run _ _ _ _ _ (owned_read d Hf Hs (block_path digest) _ _ _ ltac:(own) Hp (proj2 Hl))).
    by rewrite bool_decide_eq_true_2. }
  unfold read_block. rewrite (mbnd_run _ _ _ _ _ Hstatus).
  by rewrite (mbnd_run _ _ _ _ _ (owned_read d Hf Hs (block_path digest) _ _ _ ltac:(own) Hp (proj2 Hl))).
Qed.

(** Blocks are content-addressed: what is read under a digest has that
    digest, and what was stored is read back, or else two byte strings with the
    same digest are at hand. *)
Theorem stored_block_is_read_back d d1 quota digest bs l counter pid d2 b counter' pid' :
  tree d = ∅ → store_run d d1 →
  put_block blake3 {| block_quota_bytes := quota |} digest bs (resume l counter pid d1) = (d2, Ok b) →
  ∃ bs', (read_block blake3 digest (resume [] counter' pid' d2)).2 = Ok (Some bs') ∧
    blake3 bs' = digest ∧ blake3 bs = digest ∧ 0 < len bs' ≤ BLOCK_SIZE.
Proof.
  intros Hd Hrun Hput. pose proof (run_ok d d1 Hd Hrun) as Hs.
  pose proof (quiet_put_block (tree d1) {| block_quota_bytes := quota |} digest bs Hs
    (resume l counter pid d1) eq_refl) as Hq. rewrite Hput in Hq.
  destruct Hq as [He (bs' & x & Hp & Hb & Hl)]. exists bs'.
  rewrite (clear_block (resume [] counter' pid' d2) digest bs' x eq_refl (evolves_ok _ _ _ He) Hp Hb Hl).
  split; [done|]. split; [done|]. split; [|done].
  revert Hput. unfold put_block. destruct (_ || _); [done|].
  case_bool_decide as Hne; [done|]. by intros _.
Qed.
End runs.

Abbreviation plain_tree := (plain_at (λ _, True)).

(** ** A store with two generations *)

Module SampleStore.

(** A serialization that knows a table of values. *)
Definition table_serde {T : Type} `{EqDecision T} (l : list (T * bytes)) : Serde T :=
  {| to_value x :=
       match list_find (λ e, e.1 = x) l with
       | Some (_, (_, tag)) => Ok (Value.Text tag)
       | None => Err (error_new ErrorCode.CanonicalCbor "unknown value")
       end;
     from_slice bs :=
       match list_find (λ e, byte.of_Z (0x60 + len e.2) :: e.2 = bs) l with
       | Some (_, (x, _)) => Ok x
       | None => Err (error_new ErrorCode.CanonicalCbor "unknown bytes")
       end |}.

Definition generation (id : bytes) (previous : option bytes) : ActivationGeneration :=
  {| generation_schema := 3; generation_id := id; previous_generation := previous;
     profile_id := lit "kt6-5.17"; profile_digest := replicate 32 x02;
     generation_entries := [SampleGeneration.entry]; action := None |}.
Definition first : ActivationGeneration := generation (replicate 16 x01) None.
Definition second : ActivationGeneration := generation (replicate 16 x02) (Some (replicate 16 x01)).

Definition tx_a : bytes := text "tx-a".
Definition tx_b : bytes := text "tx-b".
Definition journal (tx : bytes) (g : ActivationGeneration) (p : TransactionPhase) : TransactionJournal :=
  {| journal_schema := 1; journal_transaction := tx; journal_generation := generation_id g;
     base_generation := previous_generation g; phase := p |}.

#[local] Instance generation_serde : Serde ActivationGeneration :=
  table_serde [(first, text "g1"); (second, text "g2")].
#[local] Instance journal_serde : Serde TransactionJournal :=
  table_serde
    (tx ← [tx_a; tx_b]; g ← [first; second];
     p ← [TransactionPhase.Staged; TransactionPhase.GenerationDurable; TransactionPhase.Committed];
     [(journal tx g p, tx ++ take 1 (generation_id g) ++
        [match p with
         | TransactionPhase.Staged => x73
         | TransactionPhase.GenerationDurable => x64
         | TransactionPhase.Committed => x63
         end])]).

Definition hash (bs : bytes) : bytes := take 32 (bs ++ replicate 32 x00).

Definition empty : Disk := {| tree := ∅; faults := []; temp_counter := 0; process_id := 7 |}.
Definition after (c : StoreCall) (l : list (option nat)) (d : Disk) : Disk :=
  (call hash c (resume l 0 7 d)).1.

(** The store is opened and both transactions stage the first generation, which
    the first commits. *)
Definition opened_store : Disk := after (Open 1000) [] empty.
Definition staged_store : Disk :=
  after (StageGeneration tx_b first) [] (after (StageGeneration tx_a first) [] opened_store).
Definition committed_store : Disk := after (CommitGeneration tx_a) [] staged_store.

(** The commit of the second is cut short at a system call. *)
Definition crash_after (n : nat) : list (option nat) := replicate n None ++ replicate 300 (Some O).
Definition interrupted_store : Disk := after (CommitGeneration tx_b) (crash_after 31) committed_store.

Lemma after_run d0 d c l : store_run hash d0 d → store_run hash d0 (after c l d).
Proof. apply run_call. Qed.
Lemma committed_run : store_run hash empty committed_store.
Proof. do 4 apply after_run. apply run_none. Qed.
Lemma interrupted_run : store_run hash empty interrupted_store.
Proof. apply after_run, committed_run. Qed.
Lemma resumed_run : store_run hash committed_store interrupted_store.
Proof. apply after_run, run_none. Qed.

Lemma sample_sized : ids_sized.
Proof.
  intros bs g. cbn [from_slice generation_serde table_serde].
  destruct (list_find _ _) as [[i [g' tag]]|] eqn:Hl; [|done]. intros [= <-].
  apply list_find_Some in Hl as (Hl%list_elem_of_lookup_2 & _).
  rewrite !elem_of_cons, elem_of_nil in Hl. by destruct Hl as [[= -> _]|[[= -> _]|[]]].
Qed.

(** The crash happened in the middle of the commit. *)
Lemma active_generation_survives_witness :
  ∃ d2 o, load_active 1000 (resume [] 0 8 interrupted_store) = (d2, Ok o) ∧
    active_is (tree interrupted_store) (generation_id <$> o) ∧
    (∀ g, o = Some g → validate g = Ok tt).
Proof.
  exact (active_generation_survives hash empty interrupted_store 1000 0 8 sample_sized eq_refl interrupted_run).
Defined.

Lemma generations_are_immutable_witness :
  (load_generation (replicate 16 x01) (resume [] 0 8 interrupted_store)).2 = Ok first.
Proof.
  apply (generations_are_immutable hash empty committed_store interrupted_store
    (replicate 16 x01) first [] 0 7 0 8 eq_refl committed_run resumed_run).
  by vm_compute.
Defined.

(** The commit of the second transaction succeeds, and is recorded. *)
Lemma commit_is_atomic_witness :
  let run := commit_generation tx_b (resume [] 0 7 committed_store) in
  run.2 = Ok CommitOutcome.AlreadyActive ∧
  ((tree run.1 !! active_pointer_path = tree committed_store !! active_pointer_path ∨
   ∃ j, journal_at (tree committed_store) tx_b j ∧ active_is (tree committed_store) (base_generation j) ∧
        active_is (tree run.1) (Some (journal_generation j))) ∧
  (∀ outcome, run.2 = Ok outcome → ∃ j, journal_at (tree committed_store) tx_b j ∧
     (phase j = TransactionPhase.Committed ∧ outcome = CommitOutcome.AlreadyCommitted ∧
        tree run.1 = tree committed_store ∨
      phase j ≠ TransactionPhase.Committed ∧ outcome ≠ CommitOutcome.AlreadyCommitted ∧
        active_is (tree run.1) (Some (journal_generation j)) ∧
        recorded (tree run.1) (set_phase TransactionPhase.Committed j)))).
Proof.
  split; [by vm_compute|].
  exact (commit_is_atomic hash empty committed_store [] 0 7 tx_b _ _ sample_sized eq_refl
    committed_run (surjective_pairing _)).
Defined.

Definition block : bytes := replicate 40 x05.
Lemma stored_block_is_read_back_witness :
  let d := (put_block hash {| block_quota_bytes := 1000 |} (hash block) block
              (resume [] 0 7 committed_store)).1 in
  ∃ bs', (read_block hash (hash block) (resume [] 0 8 d)).2 = Ok (Some bs') ∧
    hash bs' = hash block ∧ hash block = hash block ∧ 0 < len bs' ≤ BLOCK_SIZE.
Proof.
  refine (stored_block_is_read_back hash empty committed_store 1000 (hash block) block [] 0 7 _ true 0 8
    eq_refl committed_run (pair_second _ _ _)).
  by vm_compute.
Defined.

(** A crash while a redundant staged copy is removed stops recovery for
    good.  Two transactions stage the same generation, the first commits it, and
    the commit of the second is cut short after the copy's activation record was
    removed and before its directory was: the store opens and the generation is
    active, but recovery fails and leaves everything as it was, so that the next
    one fails again, and the transaction cannot be committed either. *)
Theorem interrupted_cleanup_blocks_recovery :
  (load_active 1000 (resume [] 0 8 interrupted_store)).2 = Ok (Some first) ∧
  (recover (resume [] 0 8 interrupted_store)).2 = Err (error_new ErrorCode.Io "I/O error") ∧
  tree (after Recover [] interrupted_store) = tree interrupted_store ∧
  (commit_generation tx_b (resume [] 0 8 interrupted_store)).2 =
    Err (error_new ErrorCode.Io "I/O error").
Proof.
  split; [by vm_compute|]. split; [by vm_compute|]. split; [|by vm_compute].
  apply (bool_decide_unpack _). by vm_compute.
Qed.

(** After a rollback by pointer, the generation that was rolled back is staged
    again and its commit succeeds without making it active. *)
Lemma recommit_does_not_activate :
  let d1 := after (CommitGeneration tx_b) []
              (after (StageGeneration tx_b second) [] (after (CommitGeneration tx_a) []
                (after (StageGeneration tx_a first) [] opened_store))) in
  let d2 := after (StageGeneration tx_b second) []
              (after (ActivateExisting (generation_id first) (generation_id second)) [] d1) in
  (active_generation_id (resume [] 0 7 d1)).2 = Ok (Some (generation_id second)) ∧
  (stage_generation tx_b second (resume [] 0 7 d2)).2 =
    Ok {| staged_transaction := tx_b; staged_id := generation_id second |} ∧
  (commit_generation tx_b (resume [] 0 7 d2)).2 = Ok CommitOutcome.AlreadyCommitted ∧
  (active_generation_id (commit_generation tx_b (resume [] 0 7 d2)).1).2 =
    Ok (Some (generation_id first)).
Proof. by vm_compute. Qed.

End SampleStore.
