(* ===== verification/StoreTrees.v ===== *)
(** * Directory trees of the install store

    The recursive functions of src/crates/kindlebridge-bundle/src/install.rs:
    [directory_file_bytes] counts what it should, [safe_remove_tree] removes what it
    should, both within their fuel, and the block quota is kept. *)

From S2P Require Import Prelude Text BundleError Paths Cbor BundleModel Verify Activation Files.
From S2P Require Import InstallStore InstallSafety StoreRuns.

(** ** Sums *)

Definition sum_of {A : Type} (f : A → Z) (l : list A) : Z := foldr (λ x n, f x + n) 0 l.

Lemma sum_cons {A : Type} (f : A → Z) x l : sum_of f (x :: l) = f x + sum_of f l.
Proof. done. Qed.

Section sums.
Context {A : Type}.

Lemma sum_perm (f : A → Z) l k : l ≡ₚ k → sum_of f l = sum_of f k.
Proof. induction 1; rewrite ?sum_cons; lia. Qed.
Lemma sum_ext (f g : A → Z) l : (∀ x, x ∈ l → f x = g x) → sum_of f l = sum_of g l.
Proof.
  induction l as [|x l IH]; intros Hfg; [done|]. rewrite !sum_cons, Hfg by left.
  f_equal. apply IH. intros y Hy. apply Hfg. by right.
Qed.
Lemma sum_zero (f : A → Z) l : (∀ x, x ∈ l → f x = 0) → sum_of f l = 0.
Proof.
  induction l as [|x l IH]; intros Hf; [done|]. rewrite sum_cons, Hf by left. rewrite IH; [done|].
  intros y Hy. apply Hf. by right.
Qed.
Lemma sum_plus (f g : A → Z) l : sum_of (λ x, f x + g x) l = sum_of f l + sum_of g l.
Proof. induction l; rewrite ?sum_cons; [done|lia]. Qed.
Lemma sum_single `{EqDecision A} (f : A → Z) x l :
  NoDup l → x ∈ l → (∀ y, y ∈ l → y ≠ x → f y = 0) → sum_of f l = f x.
Proof.
  induction 1 as [|y l Hy Hnd IH]; intros Hx Hz; [by apply elem_of_nil in Hx|]. rewrite sum_cons.
  destruct (decide (y = x)) as [->|Hne].
  - rewrite sum_zero; [lia|]. intros z Hz'. apply Hz; [by right|]. by intros ->.
  - rewrite (Hz y) by (done || left). apply elem_of_cons in Hx as [->|Hx]; [done|].
    rewrite IH; [lia|done|]. intros z Hz' Hn. apply Hz; [by right|done].
Qed.
End sums.

Lemma sum_exchange {A B : Type} (f : A → B → Z) l (k : list B) :
  sum_of (λ x, sum_of (f x) k) l = sum_of (λ y, sum_of (λ x, f x y) l) k.
Proof.
  induction l as [|x l IH]; [symmetry; by apply sum_zero|]. rewrite sum_cons, IH, <-sum_plus. done.
Qed.

(** ** The bytes below a directory *)

Definition below (p q : path) : Prop := p `prefix_of` q ∧ p ≠ q.
#[export] Instance below_dec p q : Decision (below p q).
Proof. unfold below. apply _. Defined.

Definition usage (t : gmap path Node) (p : path) : Z :=
  sum_of (λ e, if decide (below p e.1) then node_len e.2 else 0) (map_to_list t).
Definition len_at (t : gmap path Node) (p : path) : Z :=
  match t !! p with Some n => node_len n | None => 0 end.

Lemma usage_insert t p q n :
  t !! q = None → usage (<[q := n]> t) p = (if decide (below p q) then node_len n else 0) + usage t p.
Proof. intros Hq. unfold usage. by rewrite (sum_perm _ _ _ (map_to_list_insert t q n Hq)), sum_cons. Qed.

Lemma len_at_sum t q : len_at t q = sum_of (λ e, if decide (e.1 = q) then node_len e.2 else 0) (map_to_list t).
Proof.
  unfold len_at. destruct (t !! q) as [n|] eqn:Hn.
  - rewrite (sum_single _ (q, n)).
    + cbn. by rewrite decide_True.
    + apply NoDup_map_to_list.
    + by apply elem_of_map_to_list.
    + intros [q' n'] Hin%elem_of_map_to_list Hne. cbn. rewrite decide_False; [done|].
      intros ->. congruence.
  - symmetry. apply sum_zero. intros [q' n'] Hin%elem_of_map_to_list. cbn.
    rewrite decide_False; [done|]. intros ->. congruence.
Qed.

Lemma below_child p name q :
  (p ++ [name]) `prefix_of` q ↔ q = p ++ [name] ∨ below (p ++ [name]) q.
Proof.
  unfold below. split.
  - intros Hp. destruct (decide (q = p ++ [name])); [by left|right]. by split; [|congruence].
  - by intros [->|[? _]].
Qed.

Lemma usage_children t p :
  tree_ok t →
  usage t p = sum_of (λ name, len_at t (p ++ [name]) + usage t (p ++ [name])) (children t p).
Proof.
  intros Ht. unfold usage at 2.
  rewrite (sum_ext _ (λ name, sum_of (λ e, if decide ((p ++ [name]) `prefix_of` e.1)
    then node_len e.2 else 0) (map_to_list t))).
  2: { intros name _. rewrite len_at_sum, <-sum_plus. apply sum_ext. intros [q n] _. cbn.
    destruct (decide (q = p ++ [name])) as [->|Hne].
    - rewrite (decide_False (P := below _ _)) by (by intros []). rewrite decide_True by done. lia.
    - destruct (decide (below (p ++ [name]) q)) as [Hb|Hb].
      + rewrite decide_True by apply Hb. lia.
      + rewrite decide_False; [lia|]. by intros [?|?]%below_child. }
  rewrite sum_exchange. apply sum_ext. intros [q n] Hin%elem_of_map_to_list. cbn.
  destruct (decide (below p q)) as [[[r ->] Hne]|Hnb].
  - destruct r as [|c r]; [by rewrite app_nil_r in Hne|].
    rewrite (sum_single _ c); [|apply NoDup_children| |].
    + rewrite decide_True; [done|]. exists r. by rewrite <-app_assoc.
    + apply elem_of_children. destruct r as [|c' r]; [by eexists|]. exists Directory.
      apply (tree_ok_prefix t _ (c' :: r)); [done| |done]. rewrite <-app_assoc. by eexists.
    + intros name _ Hn. rewrite decide_False; [done|]. intros [r' Hr']. rewrite <-app_assoc in Hr'.
      apply app_inv_head in Hr'. by injection Hr' as ->.
  - symmetry. apply sum_zero. intros name _. rewrite decide_False; [done|]. intros [r ->].
    apply Hnb. rewrite <-app_assoc. split; [by eexists|]. intros Heq.
    apply (f_equal length) in Heq. rewrite length_app in Heq. cbn in Heq. lia.
Qed.

Lemma usage_file t p n : tree_ok t → t !! p = Some n → n ≠ Directory → usage t p = 0.
Proof.
  intros Ht Hp Hn. rewrite usage_children by done. apply sum_zero. intros name [m Hm]%elem_of_children.
  assert (Hd : t !! p = Some Directory) by (apply (Ht p name); by eexists). congruence.
Qed.
Lemma len_at_some t p n : t !! p = Some n → len_at t p = node_len n.
Proof. unfold len_at. by intros ->. Qed.

(** ** [directory_file_bytes] *)

Section usage.
Context `{order : DirOrder}.
Implicit Types t : gmap path Node.

(** What one entry adds. *)
Definition entry_usage (t : gmap path Node) (p : path) (name : bytes) : Z :=
  len_at t (p ++ [name]) + usage t (p ++ [name]).

Lemma looks_add_usage total n : looks (add_usage total n) (λ _ m, m = total + n).
Proof.
  eapply looks_conseq; [apply looks_lift|]. intros t m Hm%ok_or_ok. by apply checked_add_Some in Hm as [-> _].
Qed.

Lemma looks_add_entries_exact usage_of p names total :
  (∀ q, looks (usage_of q) (λ t n, tree_ok t → n = usage t q)) →
  looks (add_entries usage_of p names total)
    (λ t n, tree_ok t → n = total + sum_of (entry_usage t p) names).
Proof.
  intros Hu t0. revert total. induction names as [|name names IH]; intros total.
  { apply hoare_ret. intros d Hd. split; [done|]. intros _. cbn. lia. }
  cbn [add_entries]. eapply hoare_look; [apply looks_gate|done|]. intros [] _.
  eapply hoare_look; [apply looks_owned_reparse|done|]. intros [] _.
  eapply hoare_look; [apply looks_symlink_metadata|done|]. intros n Hn%stat_lookup.
  eapply hoare_bind with (Q := λ m d, on_tree t0 d ∧ (tree_ok t0 → m = total + entry_usage t0 p name)).
  - destruct n as [c x| |]; cbn [is_dir is_file].
    + eapply hoare_look; [apply looks_symlink_metadata|done|]. intros m Hm%stat_lookup.
      eapply hoare_conseq; [apply looks_add_usage|done| |done]. intros m' d [Hd ->]. split; [done|].
      intros Ht. unfold entry_usage. rewrite (len_at_some _ _ _ Hm), (usage_file _ _ _ Ht Hn) by done. lia.
    + eapply hoare_look; [apply Hu|done|]. intros m Hm.
      eapply hoare_conseq; [apply looks_add_usage|done| |done]. intros m' d [Hd ->]. split; [done|].
      intros Ht. unfold entry_usage. rewrite (len_at_some _ _ _ Hn), (Hm Ht). done.
    + by apply hoare_fail.
  - intros m. apply hoare_any. intros d0 [Hd0 Hm]. eapply hoare_pre; [intros d ->; exact Hd0|].
    eapply hoare_conseq; [apply (IH m)|done| |done]. intros k d [Hd Hk]. split; [done|]. intros Ht.
    rewrite (Hk Ht), (Hm Ht), sum_cons. lia.
Qed.

Lemma looks_usage_exact fuel p : looks (usage_below fuel p) (λ t n, tree_ok t → n = usage t p).
Proof.
  revert p. induction fuel as [|fuel IH]; intros p; [apply looks_fail|]. cbn [usage_below].
  eapply looks_seq; [apply looks_owned_reparse|]. intros [].
  eapply looks_bind; [apply looks_read_dir|intros names; by apply looks_add_entries_exact|].
  intros t names n [_ Hperm] Hn Ht. rewrite (Hn Ht), usage_children by done.
  rewrite (sum_perm _ _ _ Hperm). done.
Qed.

Lemma looks_block_usage_exact : looks block_usage_unlocked (λ t n, tree_ok t → n = usage t blocks_dir).
Proof.
  unfold block_usage_unlocked. eapply looks_seq; [apply looks_validate_owned|]. intros [] t d Hd.
  unfold directory_file_bytes, mbnd, mget. by apply (looks_usage_exact _ _ t d Hd).
Qed.
End usage.

(** ** [safe_remove_tree] *)

Lemma depth_bound t q : is_Some (t !! q) → (length q < tree_depth t)%nat.
Proof.
  intros [n Hn%elem_of_map_to_list]. unfold tree_depth. induction (map_to_list t) as [|e l IH].
  - by apply elem_of_nil in Hn.
  - cbn. apply elem_of_cons in Hn as [<-|Hn]; cbn; [lia|]. specialize (IH Hn). lia.
Qed.

(** A tree without [p] and what is below it. *)
Definition without (p : path) (t : gmap path Node) : gmap path Node :=
  filter (λ e, ¬ p `prefix_of` e.1) t.

Lemma lookup_without p t q :
  without p t !! q = if decide (p `prefix_of` q) then None else t !! q.
Proof.
  unfold without. destruct (decide _) as [Hp|Hp].
  - apply map_lookup_filter_None_2. right. by intros n _ Hn.
  - destruct (t !! q) as [n|] eqn:Hn; [by apply map_lookup_filter_Some|].
    apply map_lookup_filter_None_2. by left.
Qed.

Lemma plain_without p t : plain_tree t → plain_tree (without p t).
Proof.
  intros [Ht Hl]. split.
  - intros q c. rewrite !lookup_without. destruct (decide (p `prefix_of` q ++ [c])) as [|Hn]; [by intros []|].
    intros Hs. rewrite decide_False; [by eapply Ht|]. intros Hq. apply Hn. by apply prefix_app_r.
  - intros q l _. rewrite lookup_without. destruct (decide _); [done|by apply Hl].
Qed.

(** A tree without some entries of the directory [p]. *)
Definition without_all (p : path) (names : list bytes) (t : gmap path Node) : gmap path Node :=
  foldl (λ t name, without (p ++ [name]) t) t names.

Lemma lookup_without_all p names t q :
  without_all p names t !! q =
    if decide (Exists (λ name, (p ++ [name]) `prefix_of` q) names) then None else t !! q.
Proof.
  revert t. induction names as [|name names IH]; intros t; cbn.
  - rewrite decide_False; [done|]. by intros ?%Exists_nil.
  - unfold without_all in IH. rewrite IH, lookup_without.
    destruct (decide (Exists _ names)) as [He|He].
    + rewrite decide_True; [done|]. by apply Exists_cons_tl.
    + destruct (decide ((p ++ [name]) `prefix_of` q)) as [Hp|Hp].
      * rewrite decide_True; [done|]. by apply Exists_cons_hd.
      * rewrite decide_False; [done|]. by rewrite Exists_cons; intros [|].
Qed.

Lemma prefix_sibling (p : path) a b q :
  (p ++ [a]) `prefix_of` q → (p ++ [b]) `prefix_of` q → a = b.
Proof.
  intros [r ->] [r' Hr]. rewrite <-!app_assoc in Hr. apply app_inv_head in Hr. by injection Hr.
Qed.

Section removal.
Context `{order : DirOrder}.
Implicit Types t : gmap path Node.

(** All that [fuel] has to allow for. *)
Definition within (fuel : nat) (p : path) (t : gmap path Node) : Prop :=
  ∀ q, is_Some (t !! q) → p `prefix_of` q → (length q < fuel + length p)%nat.

Lemma delete_without t p :
  tree_ok t → (∀ name, t !! (p ++ [name]) = None) → delete p t = without p t.
Proof.
  intros Ht Hnone. apply map_eq. intros q. rewrite lookup_without. destruct (decide (p = q)) as [->|Hne].
  - by rewrite lookup_delete, !decide_True.
  - rewrite lookup_delete_ne by done. destruct (decide (p `prefix_of` q)) as [[r ->]|]; [|done].
    destruct r as [|c r]; [by rewrite app_nil_r in Hne|].
    replace (p ++ c :: r) with ((p ++ [c]) ++ r) by (by rewrite <-app_assoc). by apply free_below.
Qed.

Lemma succeeds_entry remove p name d :
  faults d = [] → plain_tree (tree d) → is_Some (tree d !! (p ++ [name])) →
  (tree d !! (p ++ [name]) = Some Directory →
     succeeds d (remove (p ++ [name])) (λ _ d', tree d' = without (p ++ [name]) (tree d))) →
  succeeds d (remove_entry remove p name) (λ _ d', tree d' = without (p ++ [name]) (tree d)).
Proof.
  intros Hf Hs [n Hn] Hr. unfold remove_entry.
  eapply succeeds_run; [by apply gate_clear|]. eapply succeeds_run; [by eapply (clear_reparse (λ _, True))|].
  eapply succeeds_run; [by apply (clear_lstat (λ _, True))|]. destruct n as [c x| |target]; cbn [is_dir].
  - eapply succeeds_run; [by apply (clear_lstat (λ _, True))|]. cbn [is_file].
    unfold succeeds, unlink, mbnd. rewrite gate_clear by done. unfold mget.
    rewrite (clear_stat _ d Hs _ _ Hn). cbn. split; [done|]. apply delete_without; [apply Hs|].
    intros c'. apply eq_None_not_Some. intros Hc%(plain_ok _ _ Hs). congruence.
  - by apply Hr.
  - by destruct (plain_links _ _ Hs (p ++ [name]) target).
Qed.

Lemma succeeds_entries remove p names d :
  faults d = [] → plain_tree (tree d) → NoDup names →
  (∀ name, name ∈ names → is_Some (tree d !! (p ++ [name]))) →
  (∀ name d1, name ∈ names → faults d1 = [] → plain_tree (tree d1) →
     tree d1 !! (p ++ [name]) = Some Directory →
     (∀ q, is_Some (tree d1 !! q) → is_Some (tree d !! q)) →
     succeeds d1 (remove (p ++ [name])) (λ _ d', tree d' = without (p ++ [name]) (tree d1))) →
  succeeds d (mforeach (remove_entry remove p) names) (λ _ d', tree d' = without_all p names (tree d)).
Proof.
  intros Hf Hs Hnd. revert d Hf Hs. induction Hnd as [|name names Hnew Hnd IH]; intros d Hf Hs Hin Hr.
  { by apply succeeds_ret. }
  cbn [mforeach]. eapply succeeds_bind.
  { apply succeeds_entry; [done|done|apply Hin; by left|]. intros Hd. by apply Hr; [left|..]. }
  intros [] d1 Hf1 Ht1. pose proof (plain_without (p ++ [name]) _ Hs) as Hs1. rewrite <-Ht1 in Hs1.
  assert (Hsome : ∀ q, is_Some (tree d1 !! q) → is_Some (tree d !! q)).
  { intros q. rewrite Ht1, lookup_without. destruct (decide _); [by intros []|done]. }
  eapply succeeds_conseq; [apply (IH d1 Hf1 Hs1)|intros [] d2 ->; by rewrite Ht1].
  - intros name' Hn'. rewrite Ht1, lookup_without, decide_False; [apply Hin; by right|].
    intros Hp. assert (name = name') as -> by (by eapply prefix_sibling). done.
  - intros name' d' Hn' Hf' Hs' Hdir Hsub. apply Hr; [by right|done..|]. intros q Hq. by apply Hsome, Hsub.
Qed.

(** With all entries gone the directory itself can go. *)
Lemma without_all_children t p names :
  tree_ok t → names ≡ₚ children t p → ∀ name, without_all p names t !! (p ++ [name]) = None.
Proof.
  intros Ht Hperm name. rewrite lookup_without_all. destruct (decide _) as [|Hn]; [done|].
  apply eq_None_not_Some. intros Hs. apply Hn, Exists_exists. exists name.
  split; [|done]. rewrite Hperm. by apply elem_of_children.
Qed.
Lemma without_all_dir t p names q :
  (length q ≤ length p)%nat → without_all p names t !! q = t !! q.
Proof.
  intros Hq. rewrite lookup_without_all, decide_False; [done|].
  rewrite Exists_exists. intros (name & _ & [r ->]). rewrite !length_app in Hq. cbn in Hq. lia.
Qed.
Lemma without_without_all p names t :
  without p (without_all p names t) = without p t.
Proof.
  apply map_eq. intros q. rewrite !lookup_without, lookup_without_all.
  destruct (decide (p `prefix_of` q)) as [|Hp]; [done|]. rewrite decide_False; [done|].
  rewrite Exists_exists. intros (name & _ & Hn). apply Hp. by eapply prefix_app_l.
Qed.

Lemma plain_without_all p names t : plain_tree t → plain_tree (without_all p names t).
Proof. revert t. induction names as [|name names IH]; intros t Ht; [done|]. by apply IH, plain_without. Qed.

Lemma length_parent p : (length (parent p) ≤ length p)%nat.
Proof. unfold parent. rewrite length_take. lia. Qed.

Lemma succeeds_remove_dir d p :
  faults d = [] → plain_tree (tree d) → p ≠ [] → tree d !! p = Some Directory →
  (∀ name, tree d !! (p ++ [name]) = None) →
  succeeds d (do! remove_dir p in sync_dir (parent p)) (λ _ d', tree d' = without p (tree d)).
Proof.
  intros Hf Hs Hne Hp Hnone.
  eapply succeeds_bind with (Q := λ _ d', tree d' = without p (tree d)).
  - unfold succeeds, remove_dir, mbnd. rewrite gate_clear by done. unfold mget.
    rewrite (clear_stat _ d Hs _ _ Hp), bool_decide_eq_false_2 by (rewrite children_nil; naive_solver). cbn.
    split; [done|]. apply delete_without; [apply Hs|done].
  - intros [] d1 Hf1 Ht1. pose proof (plain_without p _ Hs) as Hs1. rewrite <-Ht1 in Hs1.
    assert (Hpar : tree d1 !! parent p = Some Directory).
    { rewrite Ht1, lookup_without. destruct p as [|c p _] using rev_ind; [done|]. rewrite parent_snoc.
      rewrite decide_False; [apply (plain_ok _ _ Hs p c); by eexists|].
      intros [r Hr]. apply (f_equal length) in Hr. rewrite !length_app in Hr. cbn in Hr. lia. }
    unfold succeeds. by rewrite (clear_sync_dir _ d1 Hf1 Hs1 _ _ I Hpar).
Qed.

Lemma succeeds_remove_tree fuel p d :
  faults d = [] → plain_tree (tree d) → p ≠ [] → tree d !! p = Some Directory →
  within fuel p (tree d) →
  succeeds d (remove_tree fuel p) (λ _ d', tree d' = without p (tree d)).
Proof.
  revert p d. induction fuel as [|fuel IH]; intros p d Hf Hs Hne Hp Hw.
  { pose proof (Hw p ltac:(by eexists) ltac:(done)). lia. }
  cbn [remove_tree]. eapply succeeds_run; [by eapply (clear_reparse (λ _, True))|].
  eapply succeeds_run; [by apply (clear_metadata (λ _, True))|]. cbn [is_dir negb].
  eapply succeeds_run; [by apply (clear_read_dir (λ _, True))|].
  set (names := dir_order (children (tree d) p)).
  assert (Hperm : names ≡ₚ children (tree d) p) by apply dir_order_perm.
  eapply succeeds_bind; [apply (succeeds_entries (remove_tree fuel) p names d Hf Hs)|].
  - rewrite Hperm. apply NoDup_children.
  - intros name. rewrite Hperm. by rewrite elem_of_children.
  - intros name d1 _ Hf1 Hs1 Hdir Hsub. apply IH; [done|done|by destruct p|done|].
    intros q Hq Hpre. specialize (Hw q (Hsub q Hq)). rewrite length_app. cbn.
    specialize (Hw ltac:(by eapply prefix_app_l)). lia.
  - intros [] d1 Hf1 Ht1. pose proof (plain_without_all p names _ Hs) as Hs1.
    eapply succeeds_conseq; [apply succeeds_remove_dir; [done|by rewrite Ht1|done|..]|].
    + rewrite Ht1. by rewrite without_all_dir.
    + rewrite Ht1. apply without_all_children; [apply Hs|done].
    + intros [] d2 ->. rewrite Ht1. apply without_without_all.
Qed.

(** [safe_remove_tree] terminates and does what its name says: without
    failures it succeeds on every directory, whatever its depth, and afterwards
    the directory and everything below it is gone and nothing else. *)
Theorem safe_remove_tree_removes p d :
  faults d = [] → plain_tree (tree d) → p ≠ [] → tree d !! p = Some Directory →
  ∃ d', safe_remove_tree p d = (d', Ok tt) ∧
    ∀ q, tree d' !! q = if decide (p `prefix_of` q) then None else tree d !! q.
Proof.
  intros Hf Hs Hne Hp.
  assert (Hw : within (tree_depth (tree d)) p (tree d))
    by (intros q Hq _; pose proof (depth_bound _ _ Hq); lia).
  pose proof (succeeds_remove_tree _ p d Hf Hs Hne Hp Hw) as Hr. unfold succeeds in Hr.
  unfold safe_remove_tree, mbnd, mget. destruct (remove_tree _ p d) as [d' [[]|e]]; [|done].
  destruct Hr as [_ Ht]. exists d'. split; [done|]. intros q. by rewrite Ht, lookup_without.
Qed.
End removal.

(** ** [directory_file_bytes] succeeds *)

Lemma node_len_nonneg n : 0 ≤ node_len n.
Proof. destruct n; cbn; [apply len_nonneg|lia..]. Qed.
Lemma sum_nonneg {A : Type} (f : A → Z) l : (∀ x, 0 ≤ f x) → 0 ≤ sum_of f l.
Proof. intros Hf. induction l as [|x l IH]; [done|]. rewrite sum_cons. pose proof (Hf x). lia. Qed.
Lemma usage_nonneg t p : 0 ≤ usage t p.
Proof. apply sum_nonneg. intros [q n]. cbn. destruct (decide _); [apply node_len_nonneg|done]. Qed.
Lemma entry_usage_nonneg t p name : 0 ≤ entry_usage t p name.
Proof.
  unfold entry_usage, len_at. pose proof (usage_nonneg t (p ++ [name])).
  destruct (t !! _) as [n|]; [pose proof (node_len_nonneg n)|]; lia.
Qed.

Section counting.
Context `{order : DirOrder}.
Context (D : path → Prop) (d : Disk) (Hf : faults d = []) (Hs : plain_at D (tree d)).

Lemma clear_add_entries usage_of p names total :
  (∀ r, D (p ++ r)) → (∀ name, name ∈ names → is_Some (tree d !! (p ++ [name]))) →
  (∀ name, name ∈ names → tree d !! (p ++ [name]) = Some Directory →
     usage_of (p ++ [name]) d = (d, Ok (usage (tree d) (p ++ [name])))) →
  total + sum_of (entry_usage (tree d) p) names ≤ u64_max →
  add_entries usage_of p names total d = (d, Ok (total + sum_of (entry_usage (tree d) p) names)).
Proof.
  intros HD. revert total. induction names as [|name names IH]; intros total Hin Hu Hmax.
  { cbn. by rewrite Z.add_0_r. }
  rewrite sum_cons in Hmax |- *. pose proof (entry_usage_nonneg (tree d) p) as Hnn.
  pose proof (sum_nonneg _ names Hnn) as Hrest.
  destruct (Hin name ltac:(left)) as [n Hn]. cbn [add_entries].
  rewrite (mbnd_run _ _ _ _ _ (gate_clear d Hf)), (mbnd_run _ _ _ _ _ (clear_reparse D d Hf Hs _ _ (HD _) Hn)).
  rewrite (mbnd_run _ _ _ _ _ (clear_lstat D d Hf Hs _ _ Hn)).
  rewrite (mbnd_run _ _ d d (total + entry_usage (tree d) p name)).
  - rewrite Z.add_assoc. apply IH; [intros; apply Hin; by right|intros; apply Hu; [by right|done]|lia].
  - assert (Hadd : ∀ k, k = entry_usage (tree d) p name →
      add_usage total k d = (d, Ok (total + entry_usage (tree d) p name))).
    { intros k ->. unfold add_usage, mlift, checked_add. by replace (_ <=? _) with true by lia. }
    unfold entry_usage in *. rewrite (len_at_some _ _ _ Hn) in *. destruct n as [c x| |target]; cbn [is_dir is_file node_len] in *.
    + rewrite (mbnd_run _ _ _ _ _ (clear_lstat D d Hf Hs _ _ Hn)). apply Hadd. cbn [node_len].
      rewrite (usage_file _ _ _ (plain_ok _ _ Hs) Hn) by done. lia.
    + rewrite (mbnd_run _ _ _ _ _ (Hu name ltac:(left) Hn)). apply Hadd. lia.
    + by destruct (plain_links _ _ Hs (p ++ [name]) target).
Qed.

Lemma clear_usage fuel p :
  (∀ r, D (p ++ r)) → tree d !! p = Some Directory → within fuel p (tree d) → usage (tree d) p ≤ u64_max →
  usage_below fuel p d = (d, Ok (usage (tree d) p)).
Proof.
  revert p. induction fuel as [|fuel IH]; intros p HD Hp Hw Hmax.
  { pose proof (Hw p ltac:(by eexists) ltac:(done)). lia. }
  assert (HDp : D p) by (rewrite <-(app_nil_r p); apply HD).
  cbn [usage_below]. rewrite (mbnd_run _ _ _ _ _ (clear_reparse D d Hf Hs p _ HDp Hp)).
  rewrite (mbnd_run _ _ _ _ _ (clear_read_dir D d Hf Hs p HDp Hp)).
  set (names := dir_order (children (tree d) p)).
  assert (Hperm : names ≡ₚ children (tree d) p) by apply dir_order_perm.
  assert (Hsum : usage (tree d) p = sum_of (entry_usage (tree d) p) names)
    by (rewrite usage_children by apply Hs; by rewrite (sum_perm _ _ _ Hperm)).
  rewrite Hsum in Hmax |- *. rewrite clear_add_entries; [done|done|..|done].
  - intros name. rewrite Hperm. by rewrite elem_of_children.
  - intros name Hin Hdir. apply IH; [intros r; rewrite <-app_assoc; apply HD|done| |].
    + intros q Hq Hpre. specialize (Hw q Hq ltac:(by eapply prefix_app_l)). rewrite length_app. cbn. lia.
    + apply list_elem_of_split in Hin as (l1 & l2 & Heq). pose proof (entry_usage_nonneg (tree d) p) as Hnn.
      rewrite Heq in Hmax.
      rewrite (sum_perm _ _ (name :: l1 ++ l2)), sum_cons in Hmax by (symmetry; apply Permutation_middle).
      pose proof (sum_nonneg _ (l1 ++ l2) Hnn).
      unfold entry_usage at 1 in Hmax. rewrite (len_at_some _ _ _ Hdir) in Hmax. cbn in Hmax. lia.
Qed.

Lemma clear_block_usage :
  D [] → (∀ rest, D (BLOCKS :: rest)) → tree d !! [] = Some Directory → tree d !! blocks_dir = Some Directory →
  usage (tree d) blocks_dir ≤ u64_max → block_usage_bytes d = (d, Ok (usage (tree d) blocks_dir)).
Proof.
  intros HD0 HD Hroot Hp Hmax. unfold block_usage_bytes, block_usage_unlocked, directory_file_bytes.
  rewrite (mbnd_run _ _ _ _ _ (clear_validate D d Hf Hs blocks_dir (λ n, match n with O => HD0 | S n => HD (take n []) end) Hroot)). unfold mbnd, mget.
  apply clear_usage; [done|done| |done]. intros q Hq _. pose proof (depth_bound _ _ Hq). lia.
Qed.
End counting.

(** ** The quota *)

Section quota.
Context `{order : DirOrder, generations : Serde ActivationGeneration}.
Context `{journals : Serde TransactionJournal, width : PointerWidth}.
Context (blake3 : bytes → bytes).
Implicit Types t : gmap path Node.

Lemma usage_made t p t' q : made p t t' → usage t' q = usage t q.
Proof.
  intros [->|(-> & Hnone & _)]; [done|]. rewrite usage_insert by done. by destruct (decide _).
Qed.

Lemma hoare_put_block_usage store digest bs t :
  store_ok t →
  hoare (on_tree t) (put_block blake3 store digest bs)
    (λ b d, b = true → usage (tree d) blocks_dir = usage t blocks_dir + len bs ∧
                       usage (tree d) blocks_dir ≤ block_quota_bytes store) (λ _, True).
Proof.
  intros Hs. unfold put_block. destruct (_ || _); [by apply hoare_fail|].
  case_bool_decide as Hb; [by apply hoare_fail|].
  eapply hoare_look; [apply looks_block_status|done|]. intros s Hst.
  destruct s as [|size|size]; [|by apply hoare_ret|by apply hoare_fail].
  apply (stat_not_found _ _ _ (store_tree t Hs)) in Hst.
  eapply hoare_look; [apply looks_block_usage_exact|done|]. intros u Hu. rewrite (Hu (store_tree t Hs)).
  eapply hoare_look; [apply looks_lift|done|]. intros total [-> _]%ok_or_ok%checked_add_Some.
  destruct (_ <? _) eqn:Hq; [by apply hoare_fail|].
  eapply hoare_look; [apply looks_validate_owned|done|]. intros [] _.
  eapply hoare_call; [apply hoare_owned_directory, Hs|done|]. intros [].
  apply hoare_any. intros d1 [Hm _]. eapply hoare_pre with (P' := on_tree (tree d1)); [by intros d ->|].
  assert (Hnone : tree d1 !! block_path digest = None).
  { destruct Hm as [->|(-> & Hn & _)]; [done|]. rewrite lookup_insert_ne; [done|].
    intros Heq. apply (f_equal length) in Heq. done. }
  assert (Hok : tree_ok (tree d1)).
  { destruct Hm as [->|(-> & Hn & Hp)]; [apply Hs|]. apply tree_ok_insert; [apply Hs|by right|done]. }
  eapply hoare_bind with (Q := λ r d, is_ok r = true →
    on_tree (<[block_path digest := Regular bs false]> (tree d1)) d).
  { apply hoare_try. eapply hoare_conseq; [apply hoare_owned_write; [done|apply block_not_temp]|done|..].
    - by intros [] d [_ Hd] _.
    - by intros d _ e. }
  intros [[]|e].
  - apply hoare_ret. intros d Hd _. rewrite (Hd eq_refl), usage_insert by done.
    rewrite decide_True by (split; [by eexists|done]). rewrite (usage_made _ _ _ _ Hm).
    cbn [node_len]. lia.
  - intros d _. unfold mbnd at 1. destruct (entry_exists _ d) as [d2 [[]|]]; [|done|done].
    unfold mbnd. destruct (block_status_unlocked _ _ d2) as [d3 [[]|]]; done.
Qed.

(** The block store stays within its quota: with a block that was stored, all
    files below the blocks directory, leftovers included, take its size more and no
    more bytes than the quota allows, and [block_usage_bytes] reports exactly
    that. *)
Theorem block_quota_is_kept d d1 quota digest bs l counter pid d2 :
  tree d = ∅ → store_run blake3 d d1 → quota ≤ u64_max →
  put_block blake3 {| block_quota_bytes := quota |} digest bs (resume l counter pid d1) = (d2, Ok true) →
  usage (tree d2) blocks_dir = usage (tree d1) blocks_dir + len bs ∧
  usage (tree d2) blocks_dir ≤ quota ∧
  (block_usage_bytes (resume [] counter pid d2)).2 = Ok (usage (tree d2) blocks_dir).
Proof.
  intros Hd Hrun Hmax Hput. pose proof (run_ok blake3 d d1 Hd Hrun) as Hs.
  pose proof (quiet_put_block blake3 (tree d1) {| block_quota_bytes := quota |} digest bs Hs
    (resume l counter pid d1) eq_refl) as He.
  pose proof (hoare_put_block_usage {| block_quota_bytes := quota |} digest bs (tree d1) Hs
    (resume l counter pid d1) eq_refl) as Hq.
  rewrite Hput in Hq, He. destruct (Hq eq_refl) as [Hsum Hle]. split; [done|]. split; [done|].
  destruct He as [He (bs' & x & Hp & _)]. pose proof (evolves_ok _ _ _ He) as Hs2.
  assert (Hdir : ∀ q, below q (block_path digest) → tree d2 !! q = Some Directory).
  { intros q [[r Hr] Hne]. rewrite Hr in Hp. apply (tree_ok_prefix _ q r); [apply Hs2|by eexists|].
    intros ->. apply Hne. by rewrite app_nil_r in Hr. }
  rewrite (clear_block_usage store_path); [done|done|by apply store_files|done|cbn; tauto|..].
  - apply Hdir. by split; [apply prefix_nil|].
  - apply Hdir. by split; [eexists|].
  - cbn in Hle |- *. lia.
Qed.
End quota.

(** ** The store of StoreRuns.v *)

Module SampleTrees.

#[local] Existing Instance SampleStore.generation_serde.
#[local] Existing Instance SampleStore.journal_serde.

Definition block : bytes := replicate 40 x05.
Definition stored := put_block SampleStore.hash {| block_quota_bytes := 1000 |} (SampleStore.hash block)
  block (resume [] 0 7 SampleStore.committed_store).

Lemma block_quota_is_kept_witness :
  usage (tree stored.1) blocks_dir = usage (tree SampleStore.committed_store) blocks_dir + len block ∧
  usage (tree stored.1) blocks_dir ≤ 1000 ∧
  (block_usage_bytes (resume [] 0 7 stored.1)).2 = Ok (usage (tree stored.1) blocks_dir).
Proof.
  refine (block_quota_is_kept SampleStore.hash SampleStore.empty SampleStore.committed_store 1000
    (SampleStore.hash block) block [] 0 7 stored.1 eq_refl SampleStore.committed_run _ (pair_second _ _ _)).
  - by vm_compute.
  - by vm_compute.
Defined.

(** The transaction that was not committed. *)
Definition leftovers : path := transaction_dir SampleStore.tx_b.
Definition resumed : Disk := resume [] 0 7 SampleStore.committed_store.

Lemma safe_remove_tree_removes_witness :
  ∃ d', safe_remove_tree leftovers resumed = (d', Ok tt) ∧
    ∀ q, tree d' !! q = if decide (leftovers `prefix_of` q) then None else tree resumed !! q.
Proof.
  refine (safe_remove_tree_removes leftovers resumed eq_refl _ _ _).
  - split; [apply (store_tree _ (run_ok SampleStore.hash SampleStore.empty _ eq_refl SampleStore.committed_run))|].
    assert (Hplain : map_Forall (λ _ n, is_symlink n = false) (tree resumed))
      by (apply (bool_decide_unpack _); vm_compute; exact I).
    revert Hplain. generalize (tree resumed). intros t Hplain q l _ Hq. discriminate (Hplain q _ Hq).
  - done.
  - by vm_compute.
Defined.

End SampleTrees.
