(* ===== verification/SafeRoot.v ===== *)
(** * The launcher's files: src/device/kindlebridge-launcher/src/fs_safe.rs
      and the errors of src/device/kindlebridge-launcher/src/lib.rs

    [SafeRoot] reads and writes files below one directory, refuses symbolic
    links on the way, and replaces files atomically. *)

From S2P Require Import Prelude Text Files.

(** ** Errors *)

Module ErrorKind.

Inductive ErrorKind : Type :=
| Io | InvalidRoot | UnsafePath | InvalidManifest | InvalidState | Child.

End ErrorKind.
Abbreviation ErrorKind := ErrorKind.ErrorKind.

Record LauncherError : Type := {
  kind : ErrorKind;
  message : string;
  source : option IoErrorKind;
}.

(** [Error::new], [Error::io] and [Error::is_not_found]; the text of an
    [io::Error] is not kept. *)
Definition launcher_error (k : ErrorKind) (m : string) : LauncherError :=
  {| kind := k; message := m; source := None |}.
Definition error_io (e : IoErrorKind) : LauncherError :=
  {| kind := ErrorKind.Io; message := "I/O error"; source := Some e |}.
#[export] Instance launcher_from_io : FromIo LauncherError := error_io.

Definition is_not_found (e : LauncherError) : bool :=
  match source e with
  | Some NotFound => true
  | _ => false
  end.

Abbreviation disk_op A := (M Disk LauncherError A).
Abbreviation launcher_result A := (result LauncherError A).

(** ** [Path::components] *)

Definition SLASH_BYTE : byte := x2f.
Definition DOT_TEXT : bytes := [x2e].
Definition DOTDOT_TEXT : bytes := [x2e; x2e].

Inductive Component : Type := RootDir | CurDir | ParentDir | Normal (name : bytes).

(** The components after the first: empty ones and [.] are dropped. *)
Definition later_component (part : bytes) : list Component :=
  if bool_decide (part = [] ∨ part = DOT_TEXT) then []
  else if bool_decide (part = DOTDOT_TEXT) then [ParentDir] else [Normal part].
Definition first_component (part : bytes) : list Component :=
  if bool_decide (part = DOT_TEXT) then [CurDir] else later_component part.
Definition path_components (value : bytes) : list Component :=
  if bool_decide (head value = Some SLASH_BYTE)
  then RootDir :: (split_text SLASH_BYTE value ≫= later_component)
  else match split_text SLASH_BYTE value with
       | part :: parts => first_component part ++ (parts ≫= later_component)
       | [] => []
       end.

(** [validate_relative_path]. *)
Definition component_is_bad (c : Component) : bool :=
  match c with
  | Normal name => 255 <? len name
  | _ => true
  end.
Definition validate_relative_path (value : bytes) : launcher_result unit :=
  check? reject_if (bool_decide (value = []) || (1024 <? len value) ||
                    contains_byte x5c value || contains_byte x00 value)
           (launcher_error ErrorKind.UnsafePath "invalid relative path") in
  reject_if (bool_decide (head value = Some SLASH_BYTE) ||
             existsb component_is_bad (path_components value))
    (launcher_error ErrorKind.UnsafePath "path traversal is forbidden").

(** The path [self.canonical.join(relative)]. *)
Definition component_name (c : Component) : list bytes :=
  match c with
  | Normal name => [name]
  | _ => []
  end.
Definition relative_path (value : bytes) : path := path_components value ≫= component_name.

(** ** [SafeRoot] *)

Definition forbidden_link {A} : disk_op A :=
  mfail (launcher_error ErrorKind.UnsafePath "symlink/reparse point is forbidden").

Definition entry_exists (p : path) : disk_op bool :=
  let! r := mtry (symlink_metadata p) in
  match r with
  | Ok (Symlink _) => forbidden_link
  | Ok _ => mret true
  | Err e => if is_not_found e then mret false else mfail e
  end.

Definition reject_reparse (p : path) : disk_op unit :=
  let! n := symlink_metadata p in
  match n with
  | Symlink _ => forbidden_link
  | _ => mret tt
  end.

(** The paths of [p] and of the directories above it, the root excluded. *)
Definition prefixes_of (p : path) : list path := (λ n, take n p) <$> seq 1 (length p).

Definition validate_components (p : path) : disk_op unit :=
  do! reject_reparse [] in
  mforeach (λ q, let! _ := entry_exists q in mret tt) (prefixes_of p).

Definition resolve (relative : bytes) : disk_op path :=
  do! mlift (validate_relative_path relative) in
  let p := relative_path relative in
  do! validate_components p in
  mret p.

Definition sync_dir (p : path) : disk_op unit := sync_all.

Definition ensure_directory (relative : bytes) : disk_op path :=
  do! mlift (validate_relative_path relative) in
  let p := relative_path relative in
  do! validate_components (parent p) in
  let! exists_ := entry_exists p in
  if exists_ : bool then
    let! n := metadata p in
    if is_dir n then mret p
    else mfail (launcher_error ErrorKind.UnsafePath "owned path is not a directory")
  else
    do! create_dir p in
    do! sync_dir (parent p) in
    mret p.

Definition read_regular (p : path) (maximum : Z) : disk_op bytes :=
  do! reject_reparse p in
  let! n := metadata p in
  if negb (is_file n) || (maximum <? node_len n)
  then mfail (launcher_error ErrorKind.UnsafePath "file type or length is invalid")
  else
    let! bs := read_node p in
    if negb (len bs =? node_len n)
    then mfail (launcher_error ErrorKind.Io "file changed while being read")
    else mret bs.

Definition read_file (relative : bytes) (maximum : Z) : disk_op bytes :=
  let! p := resolve relative in
  read_regular p maximum.

Definition optional_file (relative : bytes) (maximum : Z) : disk_op (option bytes) :=
  let! p := resolve relative in
  let! exists_ := entry_exists p in
  if negb exists_ then mret None else
  let! r := mtry (read_regular p maximum) in
  match r with
  | Ok bs => mret (Some bs)
  | Err e => if is_not_found e then mret None else mfail e
  end.

(** [unique_temp]: 128 attempts at a name that is not taken. *)
Definition temp_name (pid counter : Z) : bytes :=
  text ".launcher-tmp-" ++ show_unsigned pid ++ text "-" ++ show_hex 16 counter.
Fixpoint unique_temp_attempts (n : nat) (dir : path) : disk_op path :=
  match n with
  | O => mfail (launcher_error ErrorKind.Io "cannot allocate temporary filename")
  | S n =>
      let! d := mget in
      do! mmodify (set_temp_counter ((temp_counter d + 1) mod 2 ^ 64)) in
      let candidate := dir ++ [temp_name (process_id d) (temp_counter d)] in
      let! taken := entry_exists candidate in
      if negb taken then mret candidate else unique_temp_attempts n dir
  end.
Definition unique_temp (dir : path) : disk_op path := unique_temp_attempts 128 dir.

(** The closure in [atomic_write]. *)
Definition replace_file (temporary p : path) (data : bytes) : disk_op unit :=
  do! create_new temporary in
  do! write_all temporary data in
  do! sync_all in
  do! rename temporary p in
  sync_dir (parent p).

(** [let _ = fs::remove_file(..)] if the temporary file is still there. *)
Definition discard_temp (temporary : path) : disk_op unit :=
  let! r := mtry (entry_exists temporary) in
  match r with
  | Ok true => let! _ := mtry (unlink temporary) in mret tt
  | _ => mret tt
  end.

Definition atomic_write (relative : bytes) (data : bytes) : disk_op unit :=
  let! p := resolve relative in
  do! reject_reparse (parent p) in
  let! exists_ := entry_exists p in
  do! (if exists_ : bool then
         let! n := metadata p in
         if is_file n then mret tt
         else mfail (launcher_error ErrorKind.UnsafePath
                       "atomic write destination is not a regular file")
       else mret tt) in
  let! temporary := unique_temp (parent p) in
  let! r := mtry (replace_file temporary p data) in
  match r with
  | Ok _ => mret tt
  | Err e => do! discard_temp temporary in mfail e
  end.

Definition remove_file (relative : bytes) : disk_op unit :=
  let! p := resolve relative in
  let! exists_ := entry_exists p in
  if negb exists_ then mret tt else
  let! n := metadata p in
  if negb (is_file n)
  then mfail (launcher_error ErrorKind.UnsafePath "refusing to remove a non-regular file")
  else
    do! unlink p in
    sync_dir (parent p).

(** [SafeRoot::open]; [absolute] tells whether the path given is absolute. *)
Definition safe_root_open (absolute : bool) : disk_op unit :=
  do! mlift (reject_if (negb absolute)
               (launcher_error ErrorKind.InvalidRoot "launcher root must be absolute")) in
  do! reject_reparse [] in
  let! n := metadata [] in
  do! mlift (reject_if (negb (is_dir n))
               (launcher_error ErrorKind.InvalidRoot "launcher root is not a directory")) in
  do! gate in
  do! reject_reparse [] in
  let! _ := ensure_directory (text "launcher") in
  let! _ := ensure_directory (text "run") in
  mret tt.

Lemma looks_entry_exists p :
  looks (entry_exists p)
    (λ t b, if b : bool then ∃ n, stat t p = Ok n ∧ is_symlink n = false else stat t p = Err NotFound).
Proof.
  intros t d Hd. unfold entry_exists, mbnd, mtry, symlink_metadata.
  pose proof (looks_gate t d Hd) as Hg. unfold mbnd.
  destruct (gate d) as [d' [[]|e]] eqn:Hgate.
  - destruct Hg as [Hd' _]. cbn. unfold on_tree in Hd'. rewrite Hd'. unfold mlift.
    destruct (stat t p) as [[]|[]] eqn:Hs; cbn; try done; eauto.
  - unfold gate, mbnd, next_fault, mfail, mret in Hgate.
    destruct (faults d) as [|[] ?]; simplify_eq. cbn. exact Hg.
Qed.

Lemma looks_reject_reparse p : looks (reject_reparse p) (λ t _, ∃ n, stat t p = Ok n ∧ is_symlink n = false).
Proof.
  eapply looks_bind with (ψ := λ n _ _, is_symlink n = false); [apply looks_symlink_metadata| |].
  - intros n. destruct n; try apply looks_fail; by apply looks_ret.
  - intros t n [] Hs Hn. eauto.
Qed.

Lemma looks_validate_components p : looks (validate_components p) (λ _ _, True).
Proof.
  eapply looks_seq; [apply looks_reject_reparse|].
  intros []. apply looks_foreach. intros q.
  eapply looks_seq; [apply looks_entry_exists|]. intros b. by apply looks_ret.
Qed.

Lemma looks_resolve relative :
  looks (resolve relative)
    (λ _ p, p = relative_path relative ∧ validate_relative_path relative = Ok tt).
Proof.
  eapply looks_bind with (ψ := λ _ _ p, p = relative_path relative); [apply looks_lift| |].
  - intros []. eapply looks_seq; [apply looks_validate_components|].
    intros []. by apply looks_ret.
  - intros t [] b Hv ->. done.
Qed.

Lemma looks_read_regular p maximum :
  looks (read_regular p maximum)
    (λ t bs, (∃ x, stat t p = Ok (Regular bs x)) ∧ len bs ≤ maximum).
Proof.
  eapply looks_seq; [apply looks_reject_reparse|].
  intros []. eapply looks_bind with (ψ := λ n t bs, (∃ x, stat t p = Ok (Regular bs x)) ∧
      is_file n = true ∧ node_len n ≤ maximum); [apply looks_metadata| |].
  - intros n. destruct (is_file n) eqn:Hf; [|apply looks_fail].
    destruct (maximum <? node_len n) eqn:Hm; [apply looks_fail|]. cbn [negb orb].
    eapply looks_bind with (ψ := λ bs _ bs', bs' = bs); [apply looks_read_node| |].
    + intros bs. destruct (negb _); [apply looks_fail|by apply looks_ret].
    + intros t a b Ha ->. split; [done|]. split; [done|lia].
  - intros t n bs Hs ([x Hx] & _ & Hl). cbn beta in Hs. rewrite Hx in Hs. simplify_eq/=. eauto.
Qed.

Lemma looks_read_file relative maximum :
  looks (read_file relative maximum)
    (λ t bs, (∃ x, stat t (relative_path relative) = Ok (Regular bs x)) ∧ len bs ≤ maximum).
Proof.
  eapply looks_bind; [apply looks_resolve|intros p; apply looks_read_regular|].
  by intros t p bs [-> _].
Qed.

(** [answers m p]: a failure of [m] is not "not found" while [p] exists, which
    the answer of [optional_file] depends on. *)
Definition answers {A} (p : path) (m : disk_op A) : Prop :=
  ∀ d d' e n, stat (tree d) p = Ok n → m d = (d', Err e) → is_not_found e = false.

Lemma answers_bind {A B} p (m : disk_op A) (k : A → disk_op B) φ :
  looks m φ → answers p m → (∀ a, answers p (k a)) → answers p (mbnd m k).
Proof.
  intros Hl Hm Hk d d' e n Hn. unfold mbnd. specialize (Hl _ d eq_refl).
  destruct (m d) as [d1 [a|e1]] eqn:Hr.
  - destruct Hl as [Hl _]. intros Hrun. eapply (Hk a); [|exact Hrun].
    unfold on_tree in Hl. by rewrite Hl.
  - intros [= <- <-]. by eapply Hm.
Qed.

Lemma answers_symlink_metadata p : answers p (symlink_metadata p).
Proof.
  eapply answers_bind; [apply looks_gate| |].
  - intros d d' e n _. unfold gate, mbnd, next_fault, mfail, mret.
    destruct (faults d) as [|[] ?]; intros; by simplify_eq.
  - intros [] d d' e n Hn. cbn. unfold mlift. rewrite Hn. done.
Qed.

Lemma answers_read_regular p maximum : answers p (read_regular p maximum).
Proof.
  assert (Hret : ∀ A (a : A), answers p (mret a)) by (intros A a d d' e n _; by intros [=]).
  assert (Hfail : ∀ A (e : LauncherError), is_not_found e = false → answers p (mfail e : disk_op A))
    by (intros A e He d d' e' n _; intros [= _ <-]; done).
  assert (Hmeta : answers p (metadata p)).
  { eapply answers_bind; [apply looks_symlink_metadata|apply answers_symlink_metadata|].
    intros []; auto. }
  eapply answers_bind; [apply looks_reject_reparse| |].
  - eapply answers_bind; [apply looks_symlink_metadata|apply answers_symlink_metadata|].
    intros []; auto. by apply Hfail.
  - intros []. eapply answers_bind; [apply looks_metadata|done|].
    intros n. destruct (_ || _); [by apply Hfail|].
    eapply answers_bind; [apply looks_read_node| |].
    + eapply answers_bind; [apply looks_metadata|done|]. intros []; auto.
    + intros bs. destruct (negb _); auto.
Qed.

(** What [optional_file] may answer. *)
Definition file_answer (p : path) (maximum : Z) (t : gmap path Node) (o : option bytes) : Prop :=
  match o with
  | Some bs => (∃ x, stat t p = Ok (Regular bs x)) ∧ len bs ≤ maximum
  | None => stat t p = Err NotFound
  end.

Lemma looks_optional_file relative maximum :
  looks (optional_file relative maximum) (file_answer (relative_path relative) maximum).
Proof.
  eapply looks_bind with (ψ := λ p, file_answer p maximum);
    [apply looks_resolve| |by intros t p o [-> _]].
  intros p. eapply looks_bind with (ψ := λ ex t o, ∀ n, (if ex : bool then stat t p = Ok n
      else stat t p = Err NotFound) → file_answer p maximum t o); [apply looks_entry_exists| |].
  - intros []; [|by apply looks_ret; eauto]. cbn [negb].
    intros t d Hd. unfold mbnd, mtry.
    pose proof (looks_read_regular p maximum t d Hd) as Hr.
    destruct (read_regular p maximum d) as [d' [bs|e]] eqn:Hrun; cbn.
    + destruct Hr as [? Hr]. split; [done|]. by intros _ _.
    + destruct (is_not_found e) eqn:He; [|done]. cbn. split; [done|].
      intros n Hn. exfalso. unfold on_tree in Hd. subst t.
      apply (answers_read_regular p maximum d d' e n Hn) in Hrun. congruence.
  - intros t [] o; [intros (n & Hn & _) Ho; by apply (Ho n)|].
    intros Hn Ho. by apply (Ho Directory).
Qed.

(** ** Atomic replacement *)

(** The temporary files of a directory. *)
Definition temp_in (dir p : path) : Prop := ∃ pid counter, p = dir ++ [temp_name pid counter].
Definition is_temp (p : path) : Prop := ∃ dir, temp_in dir p.

Lemma looks_unique_temp dir :
  looks (unique_temp dir) (λ t p, ∃ pid counter,
    p = dir ++ [temp_name pid counter] ∧ stat t p = Err NotFound).
Proof.
  unfold unique_temp. generalize 128%nat as n. induction n as [|n IH]; [apply looks_fail|].
  cbn [unique_temp_attempts].
  intros t. eapply hoare_bind with (Q := λ _, on_tree t); [by apply hoare_get|].
  intros d. eapply hoare_bind with (Q := λ _, on_tree t); [by apply hoare_modify|].
  intros []. eapply hoare_bind; [apply (looks_entry_exists _ t)|].
  intros [] d' [Hd' Hs]; cbn [negb].
  - by apply (IH t).
  - split; [done|]. eauto.
Qed.

Abbreviation replaced := (replaced_through temp_in).

Lemma hoare_atomic_write_exact relative data t :
  tree_ok t → ¬ is_temp (relative_path relative) →
  hoare (on_tree t) (atomic_write relative data)
    (λ _ d, replaced t (relative_path relative) data (tree d) ∧
            on_tree (<[relative_path relative := Regular data false]> t) d)
    (λ d, replaced t (relative_path relative) data (tree d)).
Proof.
  intros Ht Htemp. set (p := relative_path relative) in *.
  assert (Hrefl : ∀ d, on_tree t d → replaced t p data (tree d))
    by (intros d ->; by apply replaced_refl).
  eapply hoare_look; [apply looks_resolve|done|].
  intros q [-> _]. fold p.
  eapply hoare_look; [apply looks_reject_reparse|done|].
  intros [] _. eapply hoare_look; [apply (looks_entry_exists p)|done|].
  intros b _. eapply hoare_bind with (Q := λ _, on_tree t).
  { destruct b; [|by apply hoare_ret].
    eapply hoare_look; [apply (looks_metadata p)|done|].
    intros n _. destruct n; cbn; [by apply hoare_ret|by apply hoare_fail..]. }
  intros []. eapply hoare_conseq; [apply (hoare_replace temp_in (unique_temp (parent p))
      (λ q, replace_file q p data) discard_temp t p data); [done|intros Hp; apply Htemp; by eexists| | |]|done|done|done].
  - eapply looks_conseq; [apply looks_unique_temp|].
    intros t' q (pid & counter & -> & Hfree). eexists. split; [done|]. split; [by eexists _, _|done].
  - intros q Hq. apply hoare_write_through; [done..|apply looks_gate].
  - intros q Hnone Hne. apply hoare_discard; [done..|].
    eapply looks_conseq; [apply looks_entry_exists|]. intros t' [] Hs; [|done]. by destruct Hs as (n & ? & _); eauto.
Qed.

Lemma hoare_atomic_write relative data t :
  tree_ok t → ¬ is_temp (relative_path relative) →
  hoare (on_tree t) (atomic_write relative data)
    (λ _ d, replaced t (relative_path relative) data (tree d) ∧
            tree d !! relative_path relative = Some (Regular data false))
    (λ d, replaced t (relative_path relative) data (tree d)).
Proof.
  intros Ht Htemp. eapply hoare_conseq; [by apply hoare_atomic_write_exact|done| |done].
  intros [] s [Hr Hs]. split; [done|]. rewrite Hs. by rewrite lookup_insert, decide_True by done.
Qed.

(** [p] is gone or as it was, and nothing else changed. *)
Record removed (t : gmap path Node) (p : path) (t' : gmap path Node) : Prop := {
  removed_ok : tree_ok t';
  removed_others : ∀ q, q ≠ p → t' !! q = t !! q;
  removed_target : t' !! p = t !! p ∨ t' !! p = None;
}.

Lemma hoare_remove_file relative t :
  tree_ok t →
  hoare (on_tree t) (remove_file relative)
    (λ _ d, removed t (relative_path relative) (tree d) ∧ tree d !! relative_path relative = None)
    (λ d, removed t (relative_path relative) (tree d)).
Proof.
  intros Ht. set (p := relative_path relative) in *.
  assert (Hrefl : ∀ d, on_tree t d → removed t p (tree d)) by (intros d ->; split; auto).
  eapply hoare_look; [apply looks_resolve|done|].
  intros q [-> _]. fold p.
  eapply hoare_look; [apply (looks_entry_exists p)|done|].
  intros [] Hb; cbn [negb].
  - eapply hoare_look; [apply (looks_metadata p)|done|].
    intros n Hn. apply stat_lookup in Hn.
    destruct (is_file n) eqn:Hf; cbn [negb]; [|by apply hoare_fail].
    assert (Hdel : removed t p (delete p t)).
    { split.
      - eapply tree_ok_delete; [done|exact Hn|]. by intros ->.
      - intros q Hq. by rewrite lookup_delete_ne.
      - right. by rewrite lookup_delete, decide_True by done. }
    eapply hoare_call; [apply hoare_unlink|done|].
    intros []. eapply hoare_conseq; [apply hoare_gate|done| |].
    + intros [] s ->. split; [done|]. by rewrite lookup_delete, decide_True by done.
    + by intros s ->.
  - apply hoare_ret. intros s Hs. split; [by apply Hrefl|]. rewrite Hs. by eapply stat_not_found.
Qed.

(** [p] is as it was or a new directory, and nothing else changed. *)
Record made_directory (t : gmap path Node) (p : path) (t' : gmap path Node) : Prop := {
  made_ok : tree_ok t';
  made_others : ∀ q, q ≠ p → t' !! q = t !! q;
  made_target : t' !! p = t !! p ∨ (t !! p = None ∧ t' !! p = Some Directory);
}.

Lemma hoare_ensure_directory relative t :
  tree_ok t →
  hoare (on_tree t) (ensure_directory relative)
    (λ _ d, made_directory t (relative_path relative) (tree d))
    (λ d, made_directory t (relative_path relative) (tree d)).
Proof.
  intros Ht. set (p := relative_path relative) in *.
  assert (Hrefl : ∀ d, on_tree t d → made_directory t p (tree d)) by (intros d ->; split; auto).
  eapply hoare_look; [apply looks_lift|done|].
  intros [] _. fold p.
  eapply hoare_look; [apply looks_validate_components|done|].
  intros [] _. eapply hoare_look; [apply (looks_entry_exists p)|done|].
  intros [] _.
  - eapply hoare_look; [apply (looks_metadata p)|done|].
    intros n _. destruct (is_dir n); [by apply hoare_ret|by apply hoare_fail].
  - eapply hoare_call; [apply hoare_create_dir|done|].
    intros []. eapply hoare_any. intros s0 (Hs0 & Hnone & Hdir).
    apply stat_not_found in Hnone; [|done]. apply stat_lookup in Hdir.
    assert (Hmade : ∀ d, on_tree (<[p := Directory]> t) d → made_directory t p (tree d)).
    { intros d ->. split.
      - apply tree_ok_insert; [done|by right|done].
      - intros q Hq. by rewrite lookup_insert_ne.
      - right. by rewrite lookup_insert, decide_True by done. }
    eapply hoare_bind; [eapply hoare_conseq; [apply hoare_gate|by intros s ->|intros a s H; exact H|done]|].
    intros []. by apply hoare_ret.
Qed.

(** ** Without faults *)

Lemma entry_exists_clear p d :
  faults d = [] → tree_ok (tree d) → tree d !! parent p = Some Directory →
  (∀ l, tree d !! p ≠ Some (Symlink l)) →
  entry_exists p d = (d, Ok (bool_decide (is_Some (tree d !! p)))).
Proof.
  intros Hf Ht Hdir Hp. unfold entry_exists, mbnd, mtry. rewrite symlink_metadata_clear by done.
  destruct (tree d !! p) as [n|] eqn:Hn.
  - rewrite (stat_complete _ _ _ Ht Hn). destruct n as [| |l]; [done..|]. by destruct (Hp l).
  - by rewrite stat_missing.
Qed.

(** What [atomic_write] needs to succeed: a valid path in a directory, no
    directory or link in its place, and a fresh temporary name. *)
Record writable (d : Disk) (relative : bytes) : Prop := {
  writable_path : validate_relative_path relative = Ok tt;
  writable_dir : tree d !! parent (relative_path relative) = Some Directory;
  writable_node : ∀ n, tree d !! relative_path relative = Some n → is_file n = true;
  writable_temp :
    tree d !! (parent (relative_path relative) ++ [temp_name (process_id d) (temp_counter d)]) = None;
}.

Lemma prefix_directory t p n :
  tree_ok t → t !! parent p = Some Directory → (n < length p)%nat → t !! take n p = Some Directory.
Proof.
  intros Ht Hdir Hn. destruct (decide (n = length p - 1)%nat) as [->|]; [done|].
  apply (tree_ok_prefix t _ (drop n (parent p))); [done| |].
  - replace (take n p) with (take n (parent p)) by (unfold parent; rewrite take_take; f_equal; lia).
    rewrite take_drop. by rewrite Hdir.
  - intros Hnil. apply (f_equal length) in Hnil.
    unfold parent in Hnil. rewrite length_drop, length_take in Hnil. simpl in Hnil. lia.
Qed.

Lemma validate_components_clear p d :
  faults d = [] → tree_ok (tree d) → tree d !! parent p = Some Directory →
  (∀ l, tree d !! p ≠ Some (Symlink l)) → validate_components p d = (d, Ok tt).
Proof.
  intros Hf Ht Hdir Hp.
  assert (Hroot : tree d !! [] = Some Directory).
  { destruct p as [|c p]; [done|]. by apply (prefix_directory _ (c :: p) 0); [..|simpl; lia]. }
  unfold validate_components, reject_reparse, mbnd at 1 2. rewrite symlink_metadata_clear by done.
  rewrite (stat_complete _ _ _ Ht Hroot). cbn.
  assert (Hall : ∀ n, (0 < n ≤ length p)%nat →
    tree d !! parent (take n p) = Some Directory ∧ (∀ l, tree d !! take n p ≠ Some (Symlink l))).
  { intros n Hn. split.
    - unfold parent. rewrite length_take, take_take.
      apply prefix_directory; [done..|lia].
    - destruct (decide (n = length p)) as [->|]; [by rewrite firstn_all|].
      rewrite prefix_directory by (done || lia). done. }
  unfold prefixes_of. revert Hall.
  assert (Hseq : ∀ k n, (∀ i, (n ≤ i < n + k)%nat → tree d !! parent (take i p) = Some Directory ∧
      (∀ l, tree d !! take i p ≠ Some (Symlink l))) →
    mforeach (λ q, let! _ := entry_exists q in mret tt) ((λ n, take n p) <$> seq n k) d = (d, Ok tt)).
  { induction k as [|k IH]; intros n Hi; [done|]. cbn.
    destruct (Hi n ltac:(lia)) as [H1 H2]. unfold mbnd at 1 2.
    rewrite entry_exists_clear by done. cbn. apply IH. intros i ?. apply Hi. lia. }
  intros Hall. apply Hseq. intros i Hi. apply Hall. lia.
Qed.

Lemma resolve_clear relative d :
  faults d = [] → tree_ok (tree d) → writable d relative →
  resolve relative d = (d, Ok (relative_path relative)).
Proof.
  intros Hf Ht [Hv Hdir Hnode _]. unfold resolve, mbnd, mlift. rewrite Hv.
  rewrite validate_components_clear; [done..|].
  intros l Hs. by apply Hnode in Hs.
Qed.

Lemma unique_temp_clear dir d :
  faults d = [] → tree_ok (tree d) → tree d !! dir = Some Directory →
  tree d !! (dir ++ [temp_name (process_id d) (temp_counter d)]) = None →
  unique_temp dir d =
    (set_temp_counter ((temp_counter d + 1) mod 2 ^ 64) d,
     Ok (dir ++ [temp_name (process_id d) (temp_counter d)])).
Proof.
  intros Hf Ht Hdir Hfree. unfold unique_temp.
  change 128%nat with (S 127). cbn [unique_temp_attempts]. unfold mbnd, mget, mmodify.
  rewrite entry_exists_clear; cbn [tree faults set_temp_counter].
  - by rewrite Hfree.
  - done.
  - done.
  - by rewrite parent_snoc.
  - by rewrite Hfree.
Qed.

Lemma replace_file_clear temporary p data d :
  faults d = [] → tree_ok (tree d) → tree d !! temporary = None →
  tree d !! parent temporary = Some Directory → parent temporary = parent p →
  tree d !! p ≠ Some Directory →
  (replace_file temporary p data d).2 = Ok tt.
Proof.
  intros Hf Ht Hnone Hdir Hpar Hp. unfold replace_file, create_new, mbnd, mget.
  rewrite gate_clear by done. rewrite stat_missing by done. rewrite (stat_complete _ _ _ Ht Hdir).
  unfold mmodify, write_all, mbnd, next_fault. cbn [faults set_tree]. rewrite Hf.
  unfold mget, mmodify. cbn [tree set_tree]. rewrite insert_insert, decide_True by done.
  unfold sync_all, rename, mbnd. rewrite !gate_clear by done. unfold mget. cbn [tree set_tree].
  set (t := <[temporary := Regular data false]> (tree d)).
  assert (Hok : tree_ok t) by (apply tree_ok_insert; [done|by right|congruence]).
  assert (Hne : temporary ≠ parent p).
  { rewrite <-Hpar. intros Heq. rewrite <-Heq in Hdir. congruence. }
  rewrite (stat_complete t temporary (Regular data false));
    [|done|unfold t; by rewrite lookup_insert, decide_True by done].
  rewrite (stat_complete t (parent p) Directory);
    [|done|unfold t; rewrite lookup_insert_ne by done; by rewrite <-Hpar].
  assert (Hto : stat t p ≠ Ok Directory).
  { intros Hs%stat_lookup. unfold t in Hs. destruct (decide (temporary = p)) as [->|].
    - by rewrite lookup_insert, decide_True in Hs.
    - by rewrite lookup_insert_ne in Hs. }
  destruct (stat t p) as [[]|]; try done; unfold mmodify, sync_dir; by rewrite gate_clear.
Qed.

Lemma atomic_write_clear relative data d :
  faults d = [] → tree_ok (tree d) → writable d relative →
  (atomic_write relative data d).2 = Ok tt.
Proof.
  intros Hf Ht Hw. pose proof Hw as [Hv Hdir Hnode Htemp]. unfold atomic_write.
  rewrite (mbnd_run _ _ _ _ _ (resolve_clear _ _ Hf Ht Hw)).
  erewrite mbnd_run; [|unfold reject_reparse; erewrite mbnd_run;
    [|by rewrite symlink_metadata_clear, (stat_complete _ _ _ Ht Hdir)]; done].
  erewrite mbnd_run; [|apply entry_exists_clear; [done..|intros l Hs; by apply Hnode in Hs]].
  erewrite mbnd_run with (s' := d) (a := tt).
  2: { destruct (tree d !! relative_path relative) as [n|] eqn:Hn; [|done].
    rewrite bool_decide_eq_true_2 by eauto. pose proof (Hnode n eq_refl) as Hfile.
    erewrite mbnd_run; [|unfold metadata; erewrite mbnd_run;
      [|by rewrite symlink_metadata_clear, (stat_complete _ _ _ Ht Hn)]; by destruct n].
    by rewrite Hfile. }
  erewrite mbnd_run; [|by apply unique_temp_clear]. unfold mbnd, mtry.
  pose proof (replace_file_clear (parent (relative_path relative) ++
      [temp_name (process_id d) (temp_counter d)]) (relative_path relative) data
    (set_temp_counter ((temp_counter d + 1) mod 2 ^ 64) d)) as Hr.
  rewrite parent_snoc in Hr. specialize (Hr Hf Ht Htemp Hdir eq_refl (λ Hd, ltac:(by apply Hnode in Hd))).
  destruct (replace_file _ _ _ _) as [d' [[]|e]]; [done|]. by simpl in Hr.
Qed.

(** C15: replacing a file (not itself named like a temporary file) is atomic
    whatever system call fails: afterwards nothing at all has changed, or the
    only change is one temporary file beside the target that was not there
    before, or the only change is that the target holds exactly the new bytes;
    the last if the call succeeded; without failures the call succeeds. *)
Theorem atomic_write_is_atomic relative data d d' r :
  tree_ok (tree d) → ¬ is_temp (relative_path relative) →
  atomic_write relative data d = (d', r) →
  tree_ok (tree d') ∧
  (tree d' = tree d ∨
   (∃ temporary contents, temp_in (parent (relative_path relative)) temporary ∧
      tree d !! temporary = None ∧ tree d' = <[temporary := Regular contents false]> (tree d)) ∨
   tree d' = <[relative_path relative := Regular data false]> (tree d)) ∧
  (r = Ok tt → tree d' = <[relative_path relative := Regular data false]> (tree d)) ∧
  (faults d = [] → writable d relative → r = Ok tt).
Proof.
  intros Ht Htemp Hrun. pose proof (hoare_atomic_write_exact relative data _ Ht Htemp d eq_refl) as Hh.
  rewrite Hrun in Hh.
  assert (Hr : replaced (tree d) (relative_path relative) data (tree d'))
    by (by destruct r as [[]|]; [destruct Hh|]).
  split; [by eapply replaced_ok|]. split; [exact (replaced_stopped _ _ _ _ Hr)|]. split.
  - intros ->. by destruct Hh.
  - intros Hf Hw. pose proof (atomic_write_clear relative data d Hf Ht Hw) as Hc.
    by rewrite Hrun in Hc.
Qed.

(** How to see that a path is not temporary. *)
Lemma not_temp p :
  (match last p with Some name => head name | None => None end) ≠ Some x2e → ¬ is_temp p.
Proof.
  intros Hp (dir & pid & counter & ->). rewrite last_snoc in Hp. by apply Hp.
Qed.

(** A directory with a slot pointer, in which a write is cut short. *)
Definition sample_disk : Disk :=
  {| tree := <[[text "current"] := Regular (text "A") false]> {[ [] := Directory ]};
     faults := replicate 7 None ++ [Some 1%nat; Some O]; temp_counter := 0; process_id := 7 |}.

Lemma sample_disk_ok : tree_ok (tree sample_disk).
Proof. apply tree_ok_forall. apply (bool_decide_unpack _). by vm_compute. Qed.

Lemma atomic_write_is_atomic_witness :
  let run := atomic_write (text "current") (text "B") sample_disk in
  run.2 ≠ Ok tt ∧ tree_ok (tree run.1) ∧
  (tree run.1 = tree sample_disk ∨
   (∃ temporary contents, temp_in [] temporary ∧ tree sample_disk !! temporary = None ∧
      tree run.1 = <[temporary := Regular contents false]> (tree sample_disk)) ∨
   tree run.1 = <[[text "current"] := Regular (text "B") false]> (tree sample_disk)).
Proof.
  split; [by vm_compute|].
  destruct (atomic_write_is_atomic (text "current") (text "B") sample_disk
    (atomic_write (text "current") (text "B") sample_disk).1
    (atomic_write (text "current") (text "B") sample_disk).2 sample_disk_ok) as (Hok & Hstop & _).
  - apply not_temp. by vm_compute.
  - apply surjective_pairing.
  - split; [exact Hok|exact Hstop].
Defined.
