(* ===== verification/SlotManifest.v ===== *)
(** * Slot manifests: src/device/kindlebridge-launcher/src/manifest.rs

    The two slots of the launcher and the text file that says what to run in a
    slot and how to watch it. *)

From S2P Require Import Prelude Text Files SafeRoot.

Definition MANIFEST_HEADER : bytes := text "KINDLEBRIDGE_SLOT_V1".

Module Slot.

Inductive Slot : Type := A | B.

End Slot.
Abbreviation Slot := Slot.Slot.

#[export] Instance Slot_eq_dec : EqDecision Slot.
Proof. solve_decision. Defined.

(** [Slot::as_str], [Slot::other], [Slot::parse]. *)
Definition slot_str (s : Slot) : bytes := match s with Slot.A => text "A" | Slot.B => text "B" end.
Definition other_slot (s : Slot) : Slot := match s with Slot.A => Slot.B | Slot.B => Slot.A end.

Definition invalid {A} (m : string) : launcher_result A :=
  Err (launcher_error ErrorKind.InvalidManifest m).

Definition slot_parse (value : bytes) : launcher_result Slot :=
  if bool_decide (value = text "A") then Ok Slot.A
  else if bool_decide (value = text "B") then Ok Slot.B
  else invalid "slot must be A or B".

Record SlotManifest : Type := {
  manifest_slot : Slot;
  executable : bytes;
  heartbeat : bytes;
  startup_timeout_ms : Z;
  heartbeat_timeout_ms : Z;
  healthy_after_ms : Z;
  max_crashes : Z;
  backoff_initial_ms : Z;
  backoff_max_ms : Z;
}.

(** [SlotManifest::validate]. *)
Definition manifest_validate (m : SlotManifest) : launcher_result unit :=
  if (startup_timeout_ms m =? 0) || (startup_timeout_ms m >? 10000)
  then invalid "startup timeout must be within 1..=10,000 ms"
  else if (heartbeat_timeout_ms m =? 0) || (heartbeat_timeout_ms m >? 300000) ||
          (healthy_after_ms m <? heartbeat_timeout_ms m) || (healthy_after_ms m >? 600000)
  then invalid "invalid heartbeat/healthy timing"
  else if (max_crashes m =? 0) || (max_crashes m >? 16) || (backoff_initial_ms m =? 0) ||
          (backoff_initial_ms m >? backoff_max_ms m) || (backoff_max_ms m >? 300000)
  then invalid "invalid crash/backoff policy"
  else Ok tt.

(** The lines after the header, as a map of fields. *)
Definition key_byte_ok (b : byte) : bool := in_span 97 122 b || bool_decide (b = x5f).
Fixpoint read_fields (l : list bytes) (values : gmap bytes bytes) :
    launcher_result (gmap bytes bytes) :=
  match l with
  | [] => Ok values
  | line :: l =>
      if bool_decide (line = []) then invalid "blank manifest line is forbidden" else
      let? kv := ok_or (split_once x3d line)
                   (launcher_error ErrorKind.InvalidManifest "malformed manifest line") in
      let key := kv.1 in
      let value := kv.2 in
      if bool_decide (key = []) || bool_decide (value = []) || negb (forallb key_byte_ok key)
      then invalid "invalid manifest key or empty value"
      else match values !! key with
           | Some _ => invalid "duplicate manifest key"
           | None => read_fields l (<[key := value]> values)
           end
  end.

Definition required_fields : list bytes :=
  text <$> ["backoff_initial_ms"; "backoff_max_ms"; "executable"; "heartbeat";
            "heartbeat_timeout_ms"; "healthy_after_ms"; "max_crashes"; "slot";
            "startup_timeout_ms"].

(** [values[key]], for a key that was checked to be there. *)
Definition field (values : gmap bytes bytes) (key : string) : bytes :=
  default [] (values !! text key).

(** [parse_u64]. *)
Definition parse_u64 (values : gmap bytes bytes) (key : string) : launcher_result Z :=
  let value := field values key in
  if (20 <? len value) || ((1 <? len value) && bool_decide (head value = Some x30))
  then invalid (key +:+ " is not a canonical integer")
  else ok_or (parse_unsigned u64_max value)
         (launcher_error ErrorKind.InvalidManifest ("invalid integer " +:+ key)).

(** [SlotManifest::parse]. *)
Definition manifest_parse (bs : bytes) (expected_slot : Slot) : launcher_result SlotManifest :=
  if len bs >? 8192 then invalid "slot manifest exceeds 8 KiB" else
  if negb (utf8_valid bs) then invalid "manifest is not UTF-8" else
  if contains_byte CR bs || negb (ends_in LF bs)
  then invalid "manifest must use LF and end with a newline" else
  let ls := lines bs in
  if bool_decide (head ls ≠ Some MANIFEST_HEADER) then invalid "unknown slot manifest header" else
  let? values := read_fields (tail ls) ∅ in
  if bool_decide (size values ≠ length required_fields) ||
     existsb (λ key, bool_decide (values !! key = None)) required_fields
  then invalid "missing or unknown slot manifest field" else
  let? slot := slot_parse (field values "slot") in
  if bool_decide (slot ≠ expected_slot)
  then invalid "manifest slot does not match its directory" else
  let executable := field values "executable" in
  let heartbeat := field values "heartbeat" in
  check? validate_relative_path executable in
  check? validate_relative_path heartbeat in
  if negb (starts_with_text (text "run/") heartbeat)
  then invalid "heartbeat must live below root/run" else
  let? startup_timeout_ms := parse_u64 values "startup_timeout_ms" in
  let? heartbeat_timeout_ms := parse_u64 values "heartbeat_timeout_ms" in
  let? healthy_after_ms := parse_u64 values "healthy_after_ms" in
  let? crashes := parse_u64 values "max_crashes" in
  let? max_crashes := (if crashes <=? u32_max then Ok crashes
                       else invalid "max_crashes exceeds u32") in
  let? backoff_initial_ms := parse_u64 values "backoff_initial_ms" in
  let? backoff_max_ms := parse_u64 values "backoff_max_ms" in
  let manifest :=
    {| manifest_slot := slot; executable := executable; heartbeat := heartbeat;
       startup_timeout_ms := startup_timeout_ms; heartbeat_timeout_ms := heartbeat_timeout_ms;
       healthy_after_ms := healthy_after_ms; max_crashes := max_crashes;
       backoff_initial_ms := backoff_initial_ms; backoff_max_ms := backoff_max_ms |} in
  check? manifest_validate manifest in
  Ok manifest.

(** [SlotManifest::load]. *)
Definition slot_file (s : Slot) (file : bytes) : bytes :=
  text "slots/" ++ slot_str s ++ text "/" ++ file.
Definition manifest_load (s : Slot) : disk_op SlotManifest :=
  let! bs := read_file (slot_file s (text "slot.manifest")) 8192 in
  mlift (manifest_parse bs s).

(** ** Facts *)

(** The ranges a parsed manifest keeps to. *)
Record manifest_ok (m : SlotManifest) : Prop := {
  startup_range : 1 ≤ startup_timeout_ms m ≤ 10000;
  heartbeat_range : 1 ≤ heartbeat_timeout_ms m ≤ 300000;
  healthy_range : heartbeat_timeout_ms m ≤ healthy_after_ms m ≤ 600000;
  crashes_range : 1 ≤ max_crashes m ≤ 16;
  backoff_range : 1 ≤ backoff_initial_ms m ≤ backoff_max_ms m ∧ backoff_max_ms m ≤ 300000;
}.

Lemma parse_digits_range max v bs z : 0 ≤ v → parse_digits max v bs = Some z → 0 ≤ z.
Proof.
  revert v. induction bs as [|b bs IH]; intros v Hv; simpl; [by intros [= <-]|].
  unfold digit_value, in_span. pose proof (byte.unsigned_range b).
  destruct (48 <=? byte.unsigned b) eqn:?; simpl; [|done]. destruct (_ <=? 57); simpl; [|done].
  case_match; [|done]. apply IH. lia.
Qed.

Lemma parse_u64_nonneg values key z : parse_u64 values key = Ok z → 0 ≤ z.
Proof.
  unfold parse_u64, invalid. case_match; [done|]. intros Hz. apply ok_or_ok in Hz.
  unfold parse_unsigned in Hz.
  destruct (field values key) as [|b [|b' bs]]; [done|..]; case_bool_decide; try done;
    by apply parse_digits_range in Hz.
Qed.

Lemma manifest_validate_ok m :
  manifest_validate m = Ok tt → 0 ≤ startup_timeout_ms m → 0 ≤ heartbeat_timeout_ms m →
  0 ≤ max_crashes m → 0 ≤ backoff_initial_ms m → manifest_ok m.
Proof.
  unfold manifest_validate, invalid. intros Hv ? ? ? ?.
  repeat match type of Hv with
  | (if ?c then Err _ else _) = _ => destruct c eqn:?; [done|]
  end.
  split; lia.
Qed.

(** What the launcher may rely on once a manifest was accepted. *)
Lemma manifest_parse_ok bs s m :
  manifest_parse bs s = Ok m →
  manifest_ok m ∧ manifest_slot m = s ∧
  validate_relative_path (executable m) = Ok tt ∧ validate_relative_path (heartbeat m) = Ok tt ∧
  starts_with_text (text "run/") (heartbeat m) = true.
Proof.
  unfold manifest_parse, invalid. intros Hp.
  repeat match type of Hp with
  | (if ?c then Err _ else _) = _ => destruct c eqn:?; [done|]
  | result_bind _ _ = _ => apply result_bind_ok in Hp as (? & ? & Hp)
  | (let _ := _ in _) = _ => cbv zeta in Hp
  end.
  injection Hp as <-.
  repeat match goal with
  | H : parse_u64 _ _ = Ok _ |- _ => apply parse_u64_nonneg in H
  | H : (if _ <=? u32_max then _ else _) = Ok _ |- _ => destruct (_ <=? u32_max); [|done]; injection H as <-
  | H : bool_decide (_ ≠ _) = false |- _ => apply bool_decide_eq_false, dec_stable in H
  | H : negb _ = false |- _ => apply negb_false_iff in H
  | u : unit |- _ => destruct u
  end.
  split; [by apply manifest_validate_ok|done].
Qed.
