(* ===== verification/Watchdog.v ===== *)
(** * The launcher's watchdog: src/device/kindlebridge-launcher/src/watchdog.rs

    [Launcher] runs the daemon of the active slot, restarts it with a growing
    delay when it dies or stops beating, and falls back to the previous slot
    when a slot that was just switched to does not become healthy.  Everything
    it must remember across a restart of the launcher or of the device is in
    small files below its root ([SafeRoot]).

    Child processes, the clock and the disable flag are the traits
    [ChildRunner], [Clock] and [DisableFlag]: type classes here. *)

From S2P Require Import Prelude Text Files SafeRoot SlotManifest.

Definition POINTER_FILE : bytes := text "current".
Definition PENDING_FILE : bytes := text "launcher/pending-slot".
Definition PREVIOUS_FILE : bytes := text "launcher/previous-slot".
Definition STATE_FILE : bytes := text "launcher/watchdog-state".

Record SpawnRequest : Type := {
  request_slot_name : Slot;
  request_executable : path;
  request_heartbeat : path;
  request_instance : bytes;
}.

Module ChildStatus.

Inductive ChildStatus : Type := Running | Exited (code : option Z).

End ChildStatus.
Abbreviation ChildStatus := ChildStatus.ChildStatus.

Class Clock (C : Type) := {
  now_ms : C → C * Z;
  sleep_ms : Z → C → C;
}.
Class DisableFlag (D : Type) := { is_disabled : M D LauncherError bool }.
Class ChildRunner (R : Type) := {
  spawn : SpawnRequest → M R LauncherError Z;
  poll : Z → M R LauncherError ChildStatus;
  terminate : Z → M R LauncherError unit;
}.

Module StepOutcome.

Inductive StepOutcome : Type :=
| Started (slot : Slot) (child_id : Z)
| Running (slot : Slot) (child_id : Z)
| Healthy (slot : Slot) (child_id : Z)
| BackingOff (slot : Slot) (until_ms : Z)
| RolledBack (failed restored : Slot)
| Disabled
| Halted (slot : Slot) (crashes : Z).

End StepOutcome.
Abbreviation StepOutcome := StepOutcome.StepOutcome.

Record PendingSwitch : Type := {
  previous : Slot;
  target : Slot;
}.

Record WatchdogState : Type := {
  state_slot : Slot;
  crashes : Z;
  next_start_ms : Z;
  halted : bool;
}.

(** The state of a slot that was just selected or confirmed. *)
Definition fresh_state (s : Slot) : WatchdogState :=
  {| state_slot := s; crashes := 0; next_start_ms := 0; halted := false |}.

Record RunningChild : Type := {
  child_id : Z;
  child_slot : Slot;
  started_ms : Z;
  last_poll_ms : Z;
  instance : bytes;
  last_heartbeat_timestamp_ms : option Z;
  first_heartbeat_ms : option Z;
  last_valid_heartbeat_ms : option Z;
  healthy : bool;
}.

#[export] Instance RunningChild_eq_dec : EqDecision RunningChild.
Proof. solve_decision. Defined.

(** ** The files *)

Definition invalid_state {A} (m : string) : launcher_result A :=
  Err (launcher_error ErrorKind.InvalidState m).

(** [read_slot_pointer]. *)
Definition parse_pointer (bs : bytes) : launcher_result Slot :=
  if negb (utf8_valid bs) then invalid_state "slot pointer is not UTF-8" else
  let value := default bs (strip_last LF bs) in
  if negb (len value =? 1) then invalid_state "slot pointer is not canonical" else
  map_err (λ e, launcher_error ErrorKind.InvalidState (message e)) (slot_parse value).
Definition read_slot_pointer (relative : bytes) : disk_op Slot :=
  let! bs := read_file relative 3 in
  mlift (parse_pointer bs).

(** [write_slot_pointer]. *)
Definition encode_pointer (s : Slot) : bytes := slot_str s ++ [LF].
Definition write_slot_pointer (relative : bytes) (s : Slot) : disk_op unit :=
  atomic_write relative (encode_pointer s).

(** [encode_pending] and [read_pending]. *)
Definition encode_pending (p : PendingSwitch) : bytes :=
  text "KINDLEBRIDGE_PENDING_V1" ++ [LF] ++ text "previous=" ++ slot_str (previous p) ++ [LF] ++
  text "target=" ++ slot_str (target p) ++ [LF].

(** [lines.next().and_then(|line| line.strip_prefix(prefix))] on the lines
    left. *)
Definition next_value (prefix : bytes) (ls : list bytes) : option bytes :=
  line ← head ls; strip_prefix prefix line.

Definition parse_pending (bs : bytes) : launcher_result PendingSwitch :=
  if negb (utf8_valid bs) then invalid_state "pending switch is not UTF-8" else
  let ls := lines bs in
  if bool_decide (head ls ≠ Some (text "KINDLEBRIDGE_PENDING_V1"))
  then invalid_state "unknown pending switch format" else
  let? previous := ok_or (next_value (text "previous=") (drop 1 ls))
                     (launcher_error ErrorKind.InvalidState "missing previous slot") in
  let? target := ok_or (next_value (text "target=") (drop 2 ls))
                   (launcher_error ErrorKind.InvalidState "missing target slot") in
  if bool_decide (is_Some (head (drop 3 ls))) || negb (ends_in LF bs)
  then invalid_state "non-canonical pending switch" else
  let? previous := slot_parse previous in
  let? target := slot_parse target in
  if bool_decide (previous = target) then invalid_state "pending switch does not change slots"
  else Ok {| previous := previous; target := target |}.

Definition read_pending : disk_op (option PendingSwitch) :=
  let! o := optional_file PENDING_FILE 128 in
  match o with
  | None => mret None
  | Some bs => let! p := mlift (parse_pending bs) in mret (Some p)
  end.

(** [write_state] and [read_state]. *)
Definition encode_state (s : WatchdogState) : bytes :=
  text "KINDLEBRIDGE_WATCHDOG_V1" ++ [LF] ++
  text "slot=" ++ slot_str (state_slot s) ++ [LF] ++
  text "crashes=" ++ show_unsigned (crashes s) ++ [LF] ++
  text "next_start_ms=" ++ show_unsigned (next_start_ms s) ++ [LF] ++
  text "halted=" ++ (if halted s then text "1" else text "0") ++ [LF].
Definition write_state (s : WatchdogState) : disk_op unit :=
  atomic_write STATE_FILE (encode_state s).

Definition parse_state_value (key : string) (ls : list bytes) : launcher_result bytes :=
  ok_or (next_value (text key ++ text "=") ls)
    (launcher_error ErrorKind.InvalidState ("missing state field " +:+ key)).

Definition parse_state (bs : bytes) : launcher_result WatchdogState :=
  if negb (utf8_valid bs) then invalid_state "watchdog state is not UTF-8" else
  let ls := lines bs in
  if bool_decide (head ls ≠ Some (text "KINDLEBRIDGE_WATCHDOG_V1"))
  then invalid_state "unknown watchdog state format" else
  let? slot := parse_state_value "slot" (drop 1 ls) in
  let? crashes := parse_state_value "crashes" (drop 2 ls) in
  let? next_start_ms := parse_state_value "next_start_ms" (drop 3 ls) in
  let? halted := parse_state_value "halted" (drop 4 ls) in
  if bool_decide (is_Some (head (drop 5 ls))) || negb (ends_in LF bs)
  then invalid_state "non-canonical watchdog state" else
  let? slot := slot_parse slot in
  let? crashes := ok_or (parse_unsigned u32_max crashes)
                    (launcher_error ErrorKind.InvalidState "invalid crash count") in
  let? next_start_ms := ok_or (parse_unsigned u64_max next_start_ms)
                          (launcher_error ErrorKind.InvalidState "invalid next start time") in
  let? halted := (if bool_decide (halted = text "0") then Ok false
                  else if bool_decide (halted = text "1") then Ok true
                  else invalid_state "invalid halted state") in
  Ok {| state_slot := slot; crashes := crashes; next_start_ms := next_start_ms;
        halted := halted |}.

Definition read_state : disk_op (option WatchdogState) :=
  let! o := optional_file STATE_FILE 256 in
  match o with
  | None => mret None
  | Some bs => let! s := mlift (parse_state bs) in mret (Some s)
  end.

(** [encode_heartbeat] and [read_heartbeat]; what is not a heartbeat counts as
    none. *)
Record Heartbeat : Type := {
  heartbeat_instance : bytes;
  timestamp_ms : Z;
}.
Definition encode_heartbeat (instance : bytes) (timestamp_ms : Z) : bytes :=
  text "KINDLEBRIDGE_HEARTBEAT_V1" ++ [LF] ++ text "instance=" ++ instance ++ [LF] ++
  text "timestamp_ms=" ++ show_unsigned timestamp_ms ++ [LF].
Definition parse_heartbeat (bs : bytes) : option Heartbeat :=
  if negb (utf8_valid bs) then None else
  let ls := lines bs in
  if bool_decide (head ls ≠ Some (text "KINDLEBRIDGE_HEARTBEAT_V1")) then None else
  instance ← next_value (text "instance=") (drop 1 ls);
  value ← next_value (text "timestamp_ms=") (drop 2 ls);
  timestamp ← parse_unsigned u64_max value;
  if bool_decide (instance = []) || bool_decide (is_Some (head (drop 3 ls))) ||
     negb (ends_in LF bs)
  then None
  else Some {| heartbeat_instance := instance; timestamp_ms := timestamp |}.
Definition read_heartbeat (relative : bytes) : disk_op (option Heartbeat) :=
  let! o := optional_file relative 1024 in
  match o with
  | None => mret None
  | Some bs => mret (parse_heartbeat bs)
  end.

(** [validate_slot]. *)
Definition validate_slot (s : Slot) : disk_op SlotManifest :=
  let! manifest := manifest_load s in
  let! p := resolve (slot_file s (executable manifest)) in
  let missing := launcher_error ErrorKind.InvalidManifest
                   "slot executable is missing or not a regular file" in
  let! exists_ := entry_exists p in
  if negb exists_ then mfail missing else
  let! n := metadata p in
  if negb (is_file n) then mfail missing else
  mret manifest.

(** [recover_pending_pointer]. *)
Definition recover_pending_pointer : disk_op unit :=
  let! o := read_pending in
  match o with
  | None => mret tt
  | Some pending =>
      let! active := read_slot_pointer POINTER_FILE in
      if bool_decide (active = previous pending)
      then write_slot_pointer POINTER_FILE (target pending)
      else if bool_decide (active = target pending) then mret tt
      else mfail (launcher_error ErrorKind.InvalidState
                    "active pointer is inconsistent with pending switch")
  end.

(** ** [Launcher] *)

(** What a slot holds: the files below its directory. *)
Definition slot_dir (s : Slot) : path := [text "slots"; slot_str s].
Definition slot_image (t : gmap path Node) (s : Slot) : gmap path Node :=
  filter (λ kv, take 2 kv.1 = slot_dir s ∧ kv.2 ≠ Directory) t.

Record Launcher (R C D : Type) : Type := {
  root : Disk;
  runner : R;
  clock : C;
  disable : D;
  state : WatchdogState;
  running : option RunningChild;
  (** The static [INSTANCE_COUNTER]. *)
  instance_counter : Z;
  (** Not in the code: the slot images that passed the health check, recorded
      when [confirm_healthy] is entered. *)
  confirmed : list (gmap path Node);
}.
Arguments root {R C D} _.
Arguments runner {R C D} _.
Arguments clock {R C D} _.
Arguments disable {R C D} _.
Arguments state {R C D} _.
Arguments running {R C D} _.
Arguments instance_counter {R C D} _.
Arguments confirmed {R C D} _.

Section launcher.
Context {R C D : Type} `{ChildRunner R} `{Clock C} `{DisableFlag D}.
Abbreviation Launcher := (Launcher R C D).

Definition set_root (d : Disk) (l : Launcher) : Launcher :=
  {| root := d; runner := runner l; clock := clock l; disable := disable l; state := state l;
     running := running l; instance_counter := instance_counter l; confirmed := confirmed l |}.
Definition set_runner (r : R) (l : Launcher) : Launcher :=
  {| root := root l; runner := r; clock := clock l; disable := disable l; state := state l;
     running := running l; instance_counter := instance_counter l; confirmed := confirmed l |}.
Definition set_clock (c : C) (l : Launcher) : Launcher :=
  {| root := root l; runner := runner l; clock := c; disable := disable l; state := state l;
     running := running l; instance_counter := instance_counter l; confirmed := confirmed l |}.
Definition set_disable (d : D) (l : Launcher) : Launcher :=
  {| root := root l; runner := runner l; clock := clock l; disable := d; state := state l;
     running := running l; instance_counter := instance_counter l; confirmed := confirmed l |}.
Definition set_state (s : WatchdogState) (l : Launcher) : Launcher :=
  {| root := root l; runner := runner l; clock := clock l; disable := disable l; state := s;
     running := running l; instance_counter := instance_counter l; confirmed := confirmed l |}.
Definition set_running (r : option RunningChild) (l : Launcher) : Launcher :=
  {| root := root l; runner := runner l; clock := clock l; disable := disable l; state := state l;
     running := r; instance_counter := instance_counter l; confirmed := confirmed l |}.
Definition set_instance_counter (n : Z) (l : Launcher) : Launcher :=
  {| root := root l; runner := runner l; clock := clock l; disable := disable l; state := state l;
     running := running l; instance_counter := n; confirmed := confirmed l |}.
Definition set_confirmed (i : list (gmap path Node)) (l : Launcher) : Launcher :=
  {| root := root l; runner := runner l; clock := clock l; disable := disable l; state := state l;
     running := running l; instance_counter := instance_counter l; confirmed := i |}.

Abbreviation launcher_op A := (M Launcher LauncherError A).

Definition on_root {A} (m : disk_op A) : launcher_op A := zoom root set_root m.
Definition on_runner {A} (m : M R LauncherError A) : launcher_op A := zoom runner set_runner m.
Definition on_disable {A} (m : M D LauncherError A) : launcher_op A := zoom disable set_disable m.
Definition now : launcher_op Z := λ l, let '(c, t) := now_ms (clock l) in (set_clock c l, Ok t).

(** [self.state = s; write_state(&self.root, &self.state)]. *)
Definition save_state (s : WatchdogState) : launcher_op unit :=
  do! mmodify (set_state s) in
  on_root (write_state s).

(** [Launcher::open], on a root that [SafeRoot::open] accepted. *)
Definition launcher_open (absolute : bool) (d : Disk) (r : R) (c : C) (f : D) :
    Disk * launcher_result Launcher :=
  (do! safe_root_open absolute in
   do! recover_pending_pointer in
   let! slot := read_slot_pointer POINTER_FILE in
   let! saved := read_state in
   let! d := mget in
   mret {| root := d; runner := r; clock := c; disable := f;
           state := default (fresh_state slot) saved; running := None;
           instance_counter := 0; confirmed := [] |}) d.

(** [request_slot]. *)
Definition request_slot (to : Slot) : launcher_op unit :=
  let! current := on_root (read_slot_pointer POINTER_FILE) in
  if bool_decide (current = to) then mret tt else
  let! o := on_root read_pending in
  match o with
  | Some pending =>
      if bool_decide (target pending = to) then mret tt
      else mfail (launcher_error ErrorKind.InvalidState "another slot switch is still pending")
  | None =>
      let! _ := on_root (validate_slot to) in
      do! on_root (atomic_write PENDING_FILE
                     (encode_pending {| previous := current; target := to |})) in
      do! on_root (write_slot_pointer POINTER_FILE to) in
      save_state (fresh_state to)
  end.

(** [rollback]. *)
Definition rollback (pending : PendingSwitch) : launcher_op StepOutcome :=
  do! on_root (write_slot_pointer POINTER_FILE (previous pending)) in
  do! on_root (remove_file PENDING_FILE) in
  let! t := now in
  do! save_state {| state_slot := previous pending; crashes := 0; next_start_ms := t;
                    halted := false |} in
  mret (StepOutcome.RolledBack (target pending) (previous pending)).

(** [confirm_healthy]. *)
Definition confirm_healthy (slot : Slot) : launcher_op unit :=
  let! self := mget in
  do! mmodify (set_confirmed (slot_image (tree (root self)) slot :: confirmed self)) in
  do! save_state (fresh_state slot) in
  let! o := on_root read_pending in
  match o with
  | Some pending =>
      if bool_decide (target pending = slot) then
        do! on_root (write_slot_pointer PREVIOUS_FILE (previous pending)) in
        on_root (remove_file PENDING_FILE)
      else mret tt
  | None => mret tt
  end.

(** The delay before restart number [n] of a crash loop. *)
Definition backoff_delay (manifest : SlotManifest) (n : Z) : Z :=
  let exponent := Z.min (saturating_sub n 1) 31 in
  Z.min (saturating_mul u64_max (backoff_initial_ms manifest) (Z.shiftl 1 exponent))
    (backoff_max_ms manifest).

(** The end of [record_failure]: give up, or wait before the next start. *)
Definition halt_or_back_off (manifest : SlotManifest) : launcher_op StepOutcome :=
  let! self := mget in
  let s := state self in
  if crashes s >=? max_crashes manifest then
    do! save_state {| state_slot := state_slot s; crashes := crashes s;
                      next_start_ms := next_start_ms s; halted := true |} in
    mret (StepOutcome.Halted (state_slot s) (crashes s))
  else
    let! t := now in
    let until := saturating_add u64_max t (backoff_delay manifest (crashes s)) in
    do! save_state {| state_slot := state_slot s; crashes := crashes s;
                      next_start_ms := until; halted := halted s |} in
    mret (StepOutcome.BackingOff (state_slot s) until).

(** [record_failure]. *)
Definition record_failure (child : RunningChild) (manifest : SlotManifest) :
    launcher_op StepOutcome :=
  do! mmodify (λ l, set_state
        {| state_slot := child_slot child;
           crashes := saturating_add u32_max (crashes (state l)) 1;
           next_start_ms := next_start_ms (state l); halted := halted (state l) |} l) in
  let! o := on_root read_pending in
  let! self := mget in
  match o with
  | Some pending =>
      if bool_decide (target pending = child_slot child) &&
         (crashes (state self) >=? max_crashes manifest)
      then rollback pending
      else halt_or_back_off manifest
  | None => halt_or_back_off manifest
  end.

(** The child as the poll at [t] sees it, clock jumps forgiven. *)
Definition clock_discontinuity (child : RunningChild) (manifest : SlotManifest) (t : Z) : bool :=
  let poll_gap := saturating_sub t (last_poll_ms child) in
  (t <? last_poll_ms child) || (healthy child && (poll_gap >? heartbeat_timeout_ms manifest)).
Definition polled (child : RunningChild) (manifest : SlotManifest) (t : Z) : RunningChild :=
  let jump := clock_discontinuity child manifest t in
  let restart := jump && negb (healthy child) in
  {| child_id := child_id child; child_slot := child_slot child;
     started_ms := if restart then t else started_ms child;
     last_poll_ms := t;
     instance := instance child;
     last_heartbeat_timestamp_ms :=
       if restart then None else last_heartbeat_timestamp_ms child;
     first_heartbeat_ms := if restart then None else first_heartbeat_ms child;
     last_valid_heartbeat_ms :=
       if jump then (if healthy child then Some t else None) else last_valid_heartbeat_ms child;
     healthy := healthy child |}.

(** A heartbeat of this child that was not seen before. *)
Definition advanced_heartbeat (child : RunningChild) (h : option Heartbeat) : option Heartbeat :=
  match h with
  | Some h =>
      if bool_decide (heartbeat_instance h = instance child) &&
         bool_decide (last_heartbeat_timestamp_ms child ≠ Some (timestamp_ms h))
      then Some h else None
  | None => None
  end.
Definition beaten (child : RunningChild) (h : Heartbeat) (t : Z) : RunningChild :=
  {| child_id := child_id child; child_slot := child_slot child;
     started_ms := started_ms child; last_poll_ms := last_poll_ms child;
     instance := instance child;
     last_heartbeat_timestamp_ms := Some (timestamp_ms h);
     first_heartbeat_ms := Some (default t (first_heartbeat_ms child));
     last_valid_heartbeat_ms := Some t;
     healthy := healthy child |}.
Definition set_healthy (child : RunningChild) : RunningChild :=
  {| child_id := child_id child; child_slot := child_slot child;
     started_ms := started_ms child; last_poll_ms := last_poll_ms child;
     instance := instance child;
     last_heartbeat_timestamp_ms := last_heartbeat_timestamp_ms child;
     first_heartbeat_ms := first_heartbeat_ms child;
     last_valid_heartbeat_ms := last_valid_heartbeat_ms child;
     healthy := true |}.

Definition heartbeat_timed_out (child : RunningChild) (manifest : SlotManifest) (t : Z) : bool :=
  match last_valid_heartbeat_ms child with
  | Some last_valid => saturating_sub t last_valid >? heartbeat_timeout_ms manifest
  | None => saturating_sub t (started_ms child) >=? startup_timeout_ms manifest
  end.

(** The end of [step_running]: the child goes on. *)
Definition keep_running (child : RunningChild) : launcher_op StepOutcome :=
  do! mmodify (set_running (Some child)) in
  mret (if healthy child then StepOutcome.Healthy (child_slot child) (child_id child)
        else StepOutcome.Running (child_slot child) (child_id child)).

(** [step_running]. *)
Definition step_running (child : RunningChild) : launcher_op StepOutcome :=
  let! manifest := on_root (manifest_load (child_slot child)) in
  let! status := on_runner (poll (child_id child)) in
  match status with
  | ChildStatus.Exited _ => record_failure child manifest
  | ChildStatus.Running =>
      let! t := now in
      let child := polled child manifest t in
      let! h := on_root (read_heartbeat (heartbeat manifest)) in
      match advanced_heartbeat child h with
      | Some h =>
          let child := beaten child h t in
          let first := default t (first_heartbeat_ms child) in
          if saturating_sub t first >=? healthy_after_ms manifest then
            let! child := (if healthy child then mret child
                           else do! confirm_healthy (child_slot child) in
                                mret (set_healthy child)) in
            keep_running child
          else keep_running child
      | None =>
          if heartbeat_timed_out child manifest t then
            do! on_runner (terminate (child_id child)) in
            record_failure child manifest
          else keep_running child
      end
  end.

(** [new_instance]. *)
Definition new_instance (t : Z) : launcher_op bytes :=
  let! self := mget in
  do! mmodify (set_instance_counter ((instance_counter self + 1) mod 2 ^ 64)) in
  mret (show_hex 16 t ++ text "-" ++ show_unsigned (process_id (root self)) ++ text "-" ++
        show_hex 16 (instance_counter self)).

(** Starting the daemon of [active], the end of [step]. *)
Definition start_child (active : Slot) (t : Z) (manifest : SlotManifest) :
    launcher_op StepOutcome :=
  let! heartbeat_path := on_root (resolve (heartbeat manifest)) in
  do! on_root (remove_file (heartbeat manifest)) in
  let! executable_path := on_root (resolve (slot_file active (executable manifest))) in
  let! name := new_instance t in
  let! id := on_runner (spawn
    {| request_slot_name := active; request_executable := executable_path;
       request_heartbeat := heartbeat_path; request_instance := name |}) in
  do! mmodify (set_running (Some
    {| child_id := id; child_slot := active; started_ms := t; last_poll_ms := t;
       instance := name; last_heartbeat_timestamp_ms := None; first_heartbeat_ms := None;
       last_valid_heartbeat_ms := None; healthy := false |})) in
  mret (StepOutcome.Started active id).

(** The daemon of a slot that is not active any more is stopped. *)
Definition stop_stale (active : Slot) : launcher_op unit :=
  let! self := mget in
  match running self with
  | Some old =>
      if bool_decide (child_slot old ≠ active) then
        do! mmodify (set_running None) in
        do! on_runner (terminate (child_id old)) in
        save_state (fresh_state active)
      else mret tt
  | None => mret tt
  end.

(** Without a child: wait, or validate the slot and start it. *)
Definition step_idle (active : Slot) : launcher_op StepOutcome :=
  let! self := mget in
  let s := state self in
  if halted s then mret (StepOutcome.Halted (state_slot s) (crashes s)) else
  let! t := now in
  if t <? next_start_ms s then mret (StepOutcome.BackingOff (state_slot s) (next_start_ms s)) else
  let! r := mtry (on_root (validate_slot active)) in
  match r with
  | Ok manifest => start_child active t manifest
  | Err error =>
      let! o := on_root read_pending in
      match o with
      | Some pending =>
          if bool_decide (target pending = active) then rollback pending else mfail error
      | None => mfail error
      end
  end.

(** [step]. *)
Definition step : launcher_op StepOutcome :=
  let! off := on_disable is_disabled in
  if off : bool then
    let! self := mget in
    do! (match running self with
         | Some child =>
             do! mmodify (set_running None) in
             on_runner (terminate (child_id child))
         | None => mret tt
         end) in
    mret StepOutcome.Disabled
  else
    let! active := on_root (read_slot_pointer POINTER_FILE) in
    do! stop_stale active in
    let! self := mget in
    do! (if bool_decide (state_slot (state self) ≠ active) && bool_decide (running self = None)
         then save_state (fresh_state active) else mret tt) in
    let! self := mget in
    match running self with
    | Some child =>
        do! mmodify (set_running None) in
        step_running child
    | None => step_idle active
    end.

(** [run], for at most [n] steps: [None] if it has not ended by then. *)
Fixpoint run_launcher (n : nat) : launcher_op (option StepOutcome) :=
  match n with
  | O => mret None
  | S n =>
      let! outcome := step in
      match outcome with
      | StepOutcome.Disabled | StepOutcome.Halted _ _ => mret (Some outcome)
      | StepOutcome.BackingOff _ until_ms =>
          let! t := now in
          let delay := Z.min (saturating_sub until_ms t) 1000 in
          do! mmodify (λ l, set_clock (sleep_ms (Z.max delay 1) (clock l)) l) in
          run_launcher n
      | _ =>
          do! mmodify (λ l, set_clock (sleep_ms 100 (clock l)) l) in
          run_launcher n
      end
  end.
End launcher.

(** ** The files are read back *)

Ltac solve_ascii :=
  repeat match goal with
  | |- Forall _ (_ ++ _) => apply Forall_app; split
  | |- Forall _ (show_unsigned _) => apply ascii_number
  | |- Forall _ _ => apply (bool_decide_unpack _); by vm_compute
  end.

Lemma parse_encode_pointer s : parse_pointer (encode_pointer s) = Ok s.
Proof. by destruct s. Qed.

Lemma parse_encode_pending p : previous p ≠ target p → parse_pending (encode_pending p) = Ok p.
Proof. by destruct p as [[] []]. Qed.

(** The values a [WatchdogState] can hold in Rust. *)
Definition state_ok (s : WatchdogState) : Prop := u32 (crashes s) ∧ u64 (next_start_ms s).

Definition state_lines (s : WatchdogState) : list bytes :=
  [text "KINDLEBRIDGE_WATCHDOG_V1"; text "slot=" ++ slot_str (state_slot s);
   text "crashes=" ++ show_unsigned (crashes s);
   text "next_start_ms=" ++ show_unsigned (next_start_ms s);
   text "halted=" ++ (if halted s then text "1" else text "0")].

Lemma encode_state_lines s :
  encode_state s = concat (fmap (λ l, l ++ [LF]) (state_lines s)).
Proof. unfold state_lines. cbn [fmap list_fmap concat]. by rewrite <-!app_assoc, app_nil_r. Qed.

Lemma clean_literal l :
  bool_decide (LF ∉ l) && bool_decide (strip_last CR l = None) = true → clean_line l.
Proof.
  intros Hl. apply andb_prop in Hl as [H1 H2].
  apply bool_decide_eq_true in H1, H2. by split.
Qed.

Lemma lines_encode_state s : state_ok s → lines (encode_state s) = state_lines s.
Proof.
  intros [[Hc _] [Hn _]]. rewrite encode_state_lines. apply lines_written.
  apply Forall_cons; split; [by apply clean_literal|].
  apply Forall_cons; split; [apply clean_literal; by destruct (state_slot s)|].
  apply Forall_cons; split; [apply clean_number; [apply (bool_decide_unpack _); by vm_compute|done]|].
  apply Forall_cons; split; [apply clean_number; [apply (bool_decide_unpack _); by vm_compute|done]|].
  apply Forall_cons; split; [apply clean_literal; by destruct (halted s)|constructor].
Qed.

Lemma ascii_encode_state s :
  state_ok s → Forall (λ b, in_span 0 0x7f b = true) (encode_state s).
Proof.
  intros [[Hc _] [Hn _]]. unfold encode_state.
  destruct (state_slot s), (halted s); solve_ascii; done.
Qed.

Lemma parse_encode_state s : state_ok s → parse_state (encode_state s) = Ok s.
Proof.
  intros Hs. unfold parse_state. rewrite utf8_ascii by by apply ascii_encode_state.
  rewrite lines_encode_state by done. cbn [negb].
  assert (Hend : ends_in LF (encode_state s) = true).
  { unfold ends_in. apply bool_decide_eq_true. rewrite encode_state_lines. unfold state_lines.
    cbn [fmap list_fmap concat]. by rewrite !app_assoc, app_nil_r, last_snoc. }
  rewrite Hend. unfold state_lines. cbn [head drop negb orb].
  rewrite bool_decide_eq_false_2 by (intros Hn; by apply Hn).
  unfold parse_state_value, next_value. cbn [head mbind option_bind].
  assert (Hkey : ∀ k v, strip_prefix (text k ++ text "=") (text (k +:+ "=") ++ v) = Some v).
  { intros k v. replace (text (k +:+ "=")) with (text k ++ text "="); [apply strip_prefix_app|].
    unfold text. clear. induction k as [|c k IH]; [done|].
    change (String c k +:+ "=") with (String c (k +:+ "=")).
    unfold String.list_byte_of_string in *. cbn [String.list_ascii_of_string map app].
    f_equal. exact IH. }
  destruct Hs as [Hc Hn].
  rewrite (Hkey "slot"), (Hkey "crashes"), (Hkey "next_start_ms"), (Hkey "halted").
  cbn [ok_or result_bind]. rewrite bool_decide_eq_false_2 by (by intros []). cbn [orb].
  rewrite !parse_show_unsigned by (done || (unfold u32_max, u64_max; lia)).
  destruct s as [[] c n []]; done.
Qed.

Lemma parse_encode_heartbeat name t :
  name ≠ [] → clean_line (text "instance=" ++ name) → Forall (λ b, in_span 0 0x7f b = true) name →
  u64 t →
  parse_heartbeat (encode_heartbeat name t) = Some {| heartbeat_instance := name; timestamp_ms := t |}.
Proof.
  intros Hne Hclean Hascii Ht. unfold parse_heartbeat.
  set (ls := [text "KINDLEBRIDGE_HEARTBEAT_V1"; text "instance=" ++ name;
              text "timestamp_ms=" ++ show_unsigned t]).
  assert (Hls : encode_heartbeat name t = concat (fmap (λ l, l ++ [LF]) ls)).
  { unfold ls. cbn [fmap list_fmap concat]. unfold encode_heartbeat. by rewrite <-!app_assoc, app_nil_r. }
  assert (Hlines : lines (encode_heartbeat name t) = ls).
  { rewrite Hls. apply lines_written.
    apply Forall_cons; split; [by apply clean_literal|]. apply Forall_cons; split; [done|].
    apply Forall_cons; split; [|constructor].
    apply clean_number; [apply (bool_decide_unpack _); by vm_compute|apply Ht]. }
  rewrite utf8_ascii by (unfold encode_heartbeat; solve_ascii; done || apply Ht).
  rewrite Hlines. cbn [negb].
  assert (Hend : ends_in LF (encode_heartbeat name t) = true).
  { unfold ends_in. apply bool_decide_eq_true. rewrite Hls. unfold ls.
    cbn [fmap list_fmap concat]. by rewrite !app_assoc, app_nil_r, last_snoc. }
  rewrite Hend. unfold ls, next_value. cbn [head drop negb orb mbind option_bind].
  rewrite bool_decide_eq_false_2 by (intros Hn; by apply Hn).
  rewrite !strip_prefix_app. cbn [mbind option_bind].
  rewrite parse_show_unsigned by (done || lia). cbn [mbind option_bind].
  rewrite !bool_decide_eq_false_2; [done|by intros []|done].
Qed.

(** What the launcher writes it reads back: the slot pointers, the pending
    switch, the watchdog state with its crash count, and the heartbeat the
    daemon writes for it. *)
Theorem launcher_files_are_read_back :
  (∀ s, parse_pointer (encode_pointer s) = Ok s) ∧
  (∀ p, previous p ≠ target p → parse_pending (encode_pending p) = Ok p) ∧
  (∀ s, state_ok s → parse_state (encode_state s) = Ok s) ∧
  (∀ name t, name ≠ [] → clean_line (text "instance=" ++ name) →
     Forall (λ b, in_span 0 0x7f b = true) name → u64 t →
     parse_heartbeat (encode_heartbeat name t) =
       Some {| heartbeat_instance := name; timestamp_ms := t |}).
Proof.
  split; [exact parse_encode_pointer|]. split; [exact parse_encode_pending|].
  split; [exact parse_encode_state|exact parse_encode_heartbeat].
Qed.
