(* ===== verification/LauncherUpdate.v ===== *)
(** * Daemon updates: src/device/kindlebridge-launcher/src/update.rs and the
      command [select-staged] of src/device/kindlebridge-launcher/src/main.rs

    A new daemon is staged in the inactive slot, selected while no daemon runs,
    confirmed by the watchdog once it is healthy, and rolled back otherwise or
    on request.  The digest is the crate blake3: the function is a parameter. *)

From S2P Require Import Prelude Text Files SafeRoot SlotManifest Watchdog.

Definition NEXT_FILE : bytes := text "next".
Definition MAX_DAEMON_SIZE : Z := 32 * 1024 * 1024.

Record StagedUpdate : Type := {
  staged_slot : Slot;
  digest : bytes;
  staged_size : Z;
}.

Definition update_invalid {A} (m : string) : disk_op A :=
  mfail (launcher_error ErrorKind.InvalidState m).

(** The file to be staged, which lies outside of the launcher's root: what
    [symlink_metadata] finds and what [fs::read] then returns. *)
Record Source : Type := {
  source_is_absolute : bool;
  source_node : option Node;
  source_bytes : bytes;
}.
Definition source_metadata (s : Source) : disk_op Node :=
  do! gate in
  mlift (ok_or (source_node s) (error_io NotFound)).
Definition source_exists (s : Source) : disk_op bool :=
  let! r := mtry (source_metadata s) in
  match r with
  | Ok (Symlink _) => forbidden_link
  | Ok _ => mret true
  | Err e => if is_not_found e then mret false else mfail e
  end.

(** [validate_arm_elf]. *)
Definition byte_at (n : nat) (bs : bytes) : Z := byte.unsigned (nth n bs x00).
Definition validate_arm_elf (bs : bytes) : launcher_result unit :=
  reject_if ((len bs <? 20) || negb (bool_decide (take 4 bs = [x7f; x45; x4c; x46])) ||
             negb (byte_at 4 bs =? 1) || negb (byte_at 5 bs =? 1) ||
             negb (from_le_bytes (slice 18 20 bs) =? 40))
    (launcher_error ErrorKind.InvalidState "update is not an ELF32 little-endian ARM binary").

(** [slot_manifest]. *)
Definition slot_manifest (s : Slot) : bytes :=
  text "KINDLEBRIDGE_SLOT_V1" ++ [LF] ++ text "slot=" ++ slot_str s ++ [LF] ++
  text "executable=bin/kindlebridged" ++ [LF] ++ text "heartbeat=run/heartbeat" ++ [LF] ++
  text "startup_timeout_ms=10000" ++ [LF] ++ text "heartbeat_timeout_ms=10000" ++ [LF] ++
  text "healthy_after_ms=10000" ++ [LF] ++ text "max_crashes=3" ++ [LF] ++
  text "backoff_initial_ms=100" ++ [LF] ++ text "backoff_max_ms=1000" ++ [LF].

(** [set_executable]. *)
Definition set_executable (p : path) : disk_op unit :=
  let! _ := metadata p in
  do! set_permissions p in
  sync_all.

(** [active_slot]. *)
Definition active_slot (absolute : bool) : disk_op Slot :=
  do! safe_root_open absolute in
  read_slot_pointer POINTER_FILE.

(** [rollback_daemon]. *)
Definition rollback_daemon (absolute : bool) : disk_op Slot :=
  do! safe_root_open absolute in
  let! pid := resolve (text "run/daemon.pid") in
  let! live := entry_exists pid in
  if live : bool then update_invalid "refusing to roll back while a daemon PID exists" else
  let! pending := resolve PENDING_FILE in
  let! switching := entry_exists pending in
  if switching : bool then update_invalid "daemon slot switch is still pending" else
  let! p := resolve PREVIOUS_FILE in
  let! confirmed := entry_exists p in
  if negb confirmed then update_invalid "no confirmed daemon update to roll back" else
  let! previous := read_slot_pointer PREVIOUS_FILE in
  let! current := read_slot_pointer POINTER_FILE in
  do! (if bool_decide (previous ≠ current) then
         let! _ := validate_slot previous in
         write_slot_pointer POINTER_FILE previous
       else mret tt) in
  do! remove_file NEXT_FILE in
  do! remove_file PREVIOUS_FILE in
  mret previous.

Section staging.
(** [blake3::hash(..).to_hex()]. *)
Context (blake3_hex : bytes → bytes).

(** [stage_daemon]. *)
Definition check_source (s : Source) (expected_digest : bytes) : disk_op (bytes * Z) :=
  let bad := update_invalid "update source must be an existing absolute path" in
  do! (if negb (source_is_absolute s) then bad else
       let! exists_ := source_exists s in
       if negb exists_ then bad else mret tt) in
  let! n := source_metadata s in
  do! (match n with Symlink _ => forbidden_link | _ => mret tt end) in
  let! n := source_metadata s in
  if negb (is_file n) || (node_len n =? 0) || (node_len n >? MAX_DAEMON_SIZE)
  then update_invalid "update source size is invalid" else
  do! gate in
  let bs := source_bytes s in
  if negb (len bs =? node_len n) then update_invalid "update source changed while being read" else
  do! mlift (validate_arm_elf bs) in
  if bool_decide (blake3_hex bs ≠ expected_digest)
  then update_invalid "update digest does not match"
  else mret (bs, node_len n).

Definition slot_directory (s : Slot) : bytes := text "slots/" ++ slot_str s.

(** The part of [stage_daemon] that writes. *)
Definition write_staged (s : Slot) (bs : bytes) : disk_op unit :=
  let! _ := ensure_directory (text "slots") in
  let! _ := ensure_directory (slot_directory s) in
  let! _ := ensure_directory (slot_file s (text "bin")) in
  do! remove_file PREVIOUS_FILE in
  do! atomic_write (slot_file s (text "bin/kindlebridged")) bs in
  let! p := resolve (slot_file s (text "bin/kindlebridged")) in
  do! set_executable p in
  do! atomic_write (slot_file s (text "slot.manifest")) (slot_manifest s) in
  atomic_write NEXT_FILE (encode_pointer s).

Definition stage_daemon (absolute : bool) (source : Source) (expected_digest : bytes) :
    disk_op StagedUpdate :=
  do! safe_root_open absolute in
  let! checked := check_source source expected_digest in
  let! current := read_slot_pointer POINTER_FILE in
  let slot := other_slot current in
  do! write_staged slot checked.1 in
  mret {| staged_slot := slot; digest := blake3_hex checked.1; staged_size := checked.2 |}.
End staging.

(** ** [select-staged] *)

(** [Path::exists] and [fs::read_to_string]: errors count as absence, or are
    reported. *)
Definition path_exists (p : path) : disk_op bool :=
  let! r := mtry (metadata p) in
  mret (is_ok r).

Definition read_staged_slot : disk_op Slot :=
  let! live := path_exists (relative_path (text "run/daemon.pid")) in
  if live : bool
  then update_invalid "refusing to select a staged slot while a daemon PID exists" else
  let! value := read_node (relative_path NEXT_FILE) in
  if bool_decide (value = encode_pointer Slot.A) then mret Slot.A
  else if bool_decide (value = encode_pointer Slot.B) then mret Slot.B
  else update_invalid "staged slot pointer is not canonical".

Section selecting.
Context {R C D : Type} `{ChildRunner R} `{Clock C} `{DisableFlag D}.
Context (absolute : bool) (r : R) (c : C) (f : D).

(** [request_slot] of main.rs: a launcher that only changes the slot. *)
Definition request_slot_command (to : Slot) : disk_op unit := λ d,
  match launcher_open absolute d r c f with
  | (d, Err e) => (d, Err e)
  | (_, Ok l) => let '(l, res) := request_slot to l in (root l, res)
  end.

Definition select_staged : disk_op Slot :=
  let! slot := read_staged_slot in
  do! request_slot_command slot in
  do! unlink (relative_path NEXT_FILE) in
  mret slot.
End selecting.
