(* ===== verification/LauncherSafety.v ===== *)
(** * No unconfirmed daemon becomes the fallback

    The files of the launcher (src/device/kindlebridge-launcher/src) through any
    sequence of launcher steps, updates, selections and rollbacks, cut short by
    failures at any system call: the slot the device falls back to always holds
    a daemon that passed the health check. *)

From S2P Require Import Prelude Text Files SafeRoot SlotManifest Watchdog LauncherUpdate.

Definition current_path : path := relative_path POINTER_FILE.
Definition pending_path : path := relative_path PENDING_FILE.
Definition previous_path : path := relative_path PREVIOUS_FILE.

(** ** What the files say *)

Definition pointer_at (t : gmap path Node) (p : path) : option Slot :=
  match t !! p with
  | Some (Regular bs _) => match parse_pointer bs with Ok s => Some s | Err _ => None end
  | _ => None
  end.
Definition pending_at (t : gmap path Node) : option PendingSwitch :=
  match t !! pending_path with
  | Some (Regular bs _) => match parse_pending bs with Ok p => Some p | Err _ => None end
  | _ => None
  end.

(** The slot the device ends up in when nothing more is confirmed. *)
Definition fallback (t : gmap path Node) : option Slot :=
  match t !! pending_path with
  | None => pointer_at t current_path
  | Some _ => previous <$> pending_at t
  end.

(** [G] holds the slot images that were ever confirmed. *)
Record safe (G : list (gmap path Node)) (t : gmap path Node) : Prop := {
  safe_tree : tree_ok t;
  safe_current : is_Some (pointer_at t current_path);
  safe_pending : t !! pending_path = None ∨ is_Some (pending_at t);
  safe_fallback : ∃ s, fallback t = Some s ∧ slot_image t s ∈ G;
  safe_previous : ∀ s, pointer_at t previous_path = Some s → slot_image t s ∈ G;
}.

Lemma safe_more G G' t : safe G t → G ⊆ G' → safe G' t.
Proof. intros [? ? ? (s & ? & ?) Hp] HG. split; [done..|eauto|]. intros s' Hs'. eauto. Qed.

(** ** Changes that do not matter *)

Lemma slot_image_lookup t s q :
  slot_image t s !! q = n ← t !! q; if decide (take 2 q = slot_dir s ∧ n ≠ Directory) then Some n else None.
Proof.
  unfold slot_image. rewrite map_lookup_filter. destruct (t !! q) as [n|]; [|done]. simpl.
  by destruct (decide _); [rewrite option_guard_True|rewrite option_guard_False].
Qed.

Lemma slot_image_ext t t' s :
  (∀ q, take 2 q = slot_dir s → t' !! q = t !! q ∨ (t !! q = None ∧ t' !! q = Some Directory)) →
  slot_image t' s = slot_image t s.
Proof.
  intros Heq. apply map_eq. intros q. rewrite !slot_image_lookup.
  destruct (decide (take 2 q = slot_dir s)) as [Hq|Hq].
  - destruct (Heq q Hq) as [->|[-> ->]]; [done|]. simpl. by rewrite decide_False by naive_solver.
  - destruct (t' !! q), (t !! q); simpl; rewrite ?decide_False by naive_solver; done.
Qed.

Record quiet (t t' : gmap path Node) : Prop := {
  quiet_tree : tree_ok t';
  quiet_current : t' !! current_path = t !! current_path;
  quiet_pending : t' !! pending_path = t !! pending_path;
  quiet_previous : t' !! previous_path = t !! previous_path;
  quiet_images : ∀ s, slot_image t' s = slot_image t s;
}.

Lemma quiet_safe G t t' : safe G t → quiet t t' → safe G t'.
Proof.
  intros [Ht Hc Hp (s & Hf & Hs) Hprev] [Ht' Hqc Hqp Hqv Hqi].
  unfold fallback, pointer_at, pending_at in *.
  split; unfold fallback, pointer_at, pending_at; rewrite ?Hqc, ?Hqp, ?Hqv; [done..| |].
  - exists s. by rewrite Hqi.
  - intros s' Hs'. rewrite Hqi. by apply Hprev.
Qed.
Lemma quiet_pointer t t' : quiet t t' → pointer_at t' current_path = pointer_at t current_path.
Proof. intros Hq. unfold pointer_at. by rewrite (quiet_current _ _ Hq). Qed.
Lemma quiet_refl t : tree_ok t → quiet t t.
Proof. by split. Qed.

(** Paths the invariant does not look at. *)
Record outside (p : path) : Prop := {
  outside_current : p ≠ current_path;
  outside_pending : p ≠ pending_path;
  outside_previous : p ≠ previous_path;
  outside_temp : ¬ is_temp p;
  outside_slots : ∀ s, take 2 p ≠ slot_dir s;
  outside_parent : head (parent p) ≠ Some (text "slots");
}.

Lemma current_not_temp : ¬ is_temp current_path.
Proof. apply not_temp. by vm_compute. Qed.
Lemma pending_not_temp : ¬ is_temp pending_path.
Proof. apply not_temp. by vm_compute. Qed.
Lemma previous_not_temp : ¬ is_temp previous_path.
Proof. apply not_temp. by vm_compute. Qed.

Lemma temp_outside_slots dir q s :
  head dir ≠ Some (text "slots") → temp_in dir q → take 2 q ≠ slot_dir s.
Proof.
  intros Hd (pid & counter & ->) Heq. destruct dir as [|a dir]; [done|].
  injection Heq as -> _. done.
Qed.

(** Writing to a path changes nothing about another and its slots. *)
Lemma replaced_elsewhere t p data t' q :
  replaced t p data t' → q ≠ p → ¬ is_temp q → t' !! q = t !! q.
Proof.
  intros Hr Hq Ht. apply (replaced_others _ _ _ _ Hr); [done|].
  intros Hin. apply Ht. by eexists.
Qed.
Lemma replaced_image t p data t' s :
  replaced t p data t' → take 2 p ≠ slot_dir s → head (parent p) ≠ Some (text "slots") →
  slot_image t' s = slot_image t s.
Proof.
  intros Hr Hp Hd. apply slot_image_ext. intros q Hq. left.
  apply (replaced_others _ _ _ _ Hr); [by intros ->|].
  intros Hin. by eapply temp_outside_slots in Hin.
Qed.

Lemma replaced_quiet t p data t' : outside p → replaced t p data t' → quiet t t'.
Proof.
  intros [] Hr. split; [apply Hr|..].
  - eapply replaced_elsewhere; [done..|apply current_not_temp].
  - eapply replaced_elsewhere; [done..|apply pending_not_temp].
  - eapply replaced_elsewhere; [done..|apply previous_not_temp].
  - intros s. by eapply replaced_image.
Qed.
Lemma removed_quiet t p t' : outside p → removed t p t' → quiet t t'.
Proof.
  intros [? ? ? _ Hslots _] [Hok Ho _]. split; [done|apply Ho; congruence..|].
  intros s. apply slot_image_ext. intros q Hq. left. apply Ho. intros ->. by apply (Hslots s).
Qed.
Lemma made_quiet t p t' :
  p ≠ current_path → p ≠ pending_path → p ≠ previous_path → made_directory t p t' → quiet t t'.
Proof.
  intros ? ? ? [Hok Ho Ht]. split; [done|apply Ho; congruence..|].
  intros s. apply slot_image_ext. intros q Hq.
  destruct (decide (q = p)) as [->|Hne]; [done|]. left. by apply Ho.
Qed.

(** ** Operations that keep the invariant *)

Definition safe_at (G : list (gmap path Node)) (c : Slot) (d : Disk) : Prop :=
  safe G (tree d) ∧ pointer_at (tree d) current_path = Some c.

(** [m] makes no change that matters, whether it fails or not. *)
Definition hushed {A} (m : disk_op A) : Prop :=
  ∀ t, tree_ok t → hoare (on_tree t) m (λ _ d, quiet t (tree d)) (λ d, quiet t (tree d)).

Lemma hushed_keeps {A} (m : disk_op A) G c :
  hushed m → hoare (safe_at G c) m (λ _, safe_at G c) (safe_at G c).
Proof.
  intros Hm. apply hoare_any. intros d0 [Hs Hc].
  assert (Hq : ∀ d, quiet (tree d0) (tree d) → safe_at G c d).
  { intros d Hd. split; [by eapply quiet_safe|]. by rewrite (quiet_pointer _ _ Hd). }
  eapply hoare_conseq; [apply (Hm (tree d0)), Hs|by intros d ->|auto..].
Qed.

Lemma hushed_looks {A} (m : disk_op A) φ : looks m φ → hushed m.
Proof.
  intros Hm t Ht. assert (Hq : ∀ d, on_tree t d → quiet t (tree d))
    by (intros d ->; by apply quiet_refl).
  eapply hoare_conseq; [apply (Hm t)|done| |exact Hq]. intros a d [Hd _]. by apply Hq.
Qed.
Lemma hushed_write relative data : outside (relative_path relative) → hushed (atomic_write relative data).
Proof.
  intros Ho t Ht. eapply hoare_conseq; [apply hoare_atomic_write; [exact Ht|apply Ho]|done|..].
  - intros [] d [Hr _]. exact (replaced_quiet _ _ _ _ Ho Hr).
  - intros d Hr. exact (replaced_quiet _ _ _ _ Ho Hr).
Qed.
Lemma hushed_remove relative : outside (relative_path relative) → hushed (remove_file relative).
Proof.
  intros Ho t Ht. eapply hoare_conseq; [apply hoare_remove_file; exact Ht|done|..].
  - intros [] d [Hr _]. exact (removed_quiet _ _ _ Ho Hr).
  - intros d Hr. exact (removed_quiet _ _ _ Ho Hr).
Qed.
Lemma hushed_directory relative :
  bool_decide (relative_path relative ≠ current_path ∧ relative_path relative ≠ pending_path ∧
    relative_path relative ≠ previous_path) = true → hushed (ensure_directory relative).
Proof.
  intros Ho t Ht. apply bool_decide_eq_true in Ho as (H1 & H2 & H3). eapply hoare_conseq; [apply hoare_ensure_directory; exact Ht|done|..].
  - intros a d Hr. exact (made_quiet _ _ _ H1 H2 H3 Hr).
  - intros d Hr. exact (made_quiet _ _ _ H1 H2 H3 Hr).
Qed.

Lemma quiet_trans t1 t2 t3 : quiet t1 t2 → quiet t2 t3 → quiet t1 t3.
Proof.
  intros [? ? ? ? Hi] [? ? ? ? Hj]. split; [done|congruence..|]. intros s. by rewrite Hj.
Qed.

Lemma hushed_bind {A B} (m : disk_op A) (k : A → disk_op B) :
  hushed m → (∀ a, hushed (k a)) → hushed (mbnd m k).
Proof.
  intros Hm Hk t Ht. eapply hoare_bind; [by apply Hm|].
  intros a. apply hoare_any. intros d0 Hq.
  eapply hoare_conseq; [apply (Hk a (tree d0)), Hq|by intros d ->|..].
  - intros b d. by apply quiet_trans.
  - intros d. by apply quiet_trans.
Qed.

(** Closed paths: decided by evaluation. *)
Lemma outside_intro p :
  bool_decide (p ≠ current_path ∧ p ≠ pending_path ∧ p ≠ previous_path ∧
    (match last p with Some name => head name | None => None end) ≠ Some x2e ∧
    take 2 p ≠ slot_dir Slot.A ∧ take 2 p ≠ slot_dir Slot.B ∧
    head (parent p) ≠ Some (text "slots")) = true → outside p.
Proof.
  intros H. apply bool_decide_eq_true in H as (? & ? & ? & ? & ? & ? & ?).
  split; [done..|by apply not_temp| |done]. by intros [].
Qed.

Lemma hushed_write_state s : hushed (write_state s).
Proof. apply hushed_write, outside_intro. by vm_compute. Qed.

Lemma hushed_ret {A} (a : A) : hushed (mret a).
Proof. by apply (hushed_looks _ (λ _ _, True)), looks_ret. Qed.
Lemma hushed_fail {A} e : hushed (mfail e : disk_op A).
Proof. by apply (hushed_looks _ (λ _ _, True)), looks_fail. Qed.

Lemma hushed_open absolute : hushed (safe_root_open absolute).
Proof.
  unfold safe_root_open.
  apply hushed_bind; [eapply hushed_looks, looks_lift|intros _].
  apply hushed_bind; [eapply hushed_looks, looks_reject_reparse|intros _].
  apply hushed_bind; [eapply hushed_looks, looks_metadata|intros n].
  apply hushed_bind; [eapply hushed_looks, looks_lift|intros _].
  apply hushed_bind; [eapply hushed_looks, looks_gate|intros _].
  apply hushed_bind; [eapply hushed_looks, looks_reject_reparse|intros _].
  apply hushed_bind; [apply hushed_directory; by vm_compute|intros _].
  apply hushed_bind; [apply hushed_directory; by vm_compute|intros _].
  apply hushed_ret.
Qed.

(** ** Reading the files *)

Lemma pointer_at_stat t p bs x s :
  stat t p = Ok (Regular bs x) → parse_pointer bs = Ok s → pointer_at t p = Some s.
Proof. intros Hs Hp. unfold pointer_at. apply stat_lookup in Hs. by rewrite Hs, Hp. Qed.

Lemma looks_pointer relative :
  looks (read_slot_pointer relative) (λ t s, pointer_at t (relative_path relative) = Some s).
Proof.
  eapply looks_bind; [apply looks_read_file|intros bs; apply looks_lift|].
  intros t bs s [[x Hs] _] Hp. by eapply pointer_at_stat.
Qed.

(** What [read_pending] may answer. *)
Definition pending_answer (t : gmap path Node) (o : option PendingSwitch) : Prop :=
  match o with
  | Some p => pending_at t = Some p ∧ is_Some (t !! pending_path)
  | None => stat t pending_path = Err NotFound
  end.

Lemma looks_pending : looks read_pending pending_answer.
Proof.
  eapply looks_bind with (ψ := λ o t r, match o with
    | Some bs => ∃ p, r = Some p ∧ parse_pending bs = Ok p
    | None => r = None end); [apply looks_optional_file| |].
  - intros [bs|]; [|by apply looks_ret].
    eapply looks_bind with (ψ := λ p _ r, r = Some p);
      [apply looks_lift|intros p; by apply looks_ret|]. intros t p r Hp ->. eauto.
  - intros t [bs|] r Ha; [|by intros ->]. intros (p & -> & Hp). destruct Ha as [[x Hs] _].
    apply stat_lookup in Hs. unfold pending_answer, pending_at. fold pending_path in Hs.
    rewrite Hs, Hp. eauto.
Qed.

(** A heartbeat file lies below [run]. *)
Lemma run_path v :
  starts_with_text (text "run/") v = true → head (relative_path v) = Some (text "run").
Proof.
  unfold starts_with_text. intros Hv. apply bool_decide_eq_true in Hv as [rest Hv].
  unfold strip_prefix in Hv. case_bool_decide as Ht; [|done].
  rewrite <-(take_drop (length (text "run/")) v), Ht.
  generalize (drop (length (text "run/")) v). intros w.
  unfold relative_path, path_components.
  change (text "run/" ++ w) with (text "run" ++ SLASH_BYTE :: w).
  rewrite split_text_head by (apply (bool_decide_unpack _); by vm_compute).
  rewrite bool_decide_eq_false_2 by done. done.
Qed.

Lemma hushed_remove_run relative :
  head (relative_path relative) = Some (text "run") → hushed (remove_file relative).
Proof.
  intros Hh t Ht.
  assert (Hq : ∀ d, removed t (relative_path relative) (tree d) → quiet t (tree d)).
  { intros d [Hok Ho _]. split; [done| | | |].
    - apply Ho. intros Heq. by rewrite <-Heq in Hh.
    - apply Ho. intros Heq. by rewrite <-Heq in Hh.
    - apply Ho. intros Heq. by rewrite <-Heq in Hh.
    - intros s. apply slot_image_ext. intros q Hs. left. apply Ho. intros ->.
      destruct (relative_path relative); [done|]. injection Hh as ->. done. }
  eapply hoare_conseq; [apply hoare_remove_file; exact Ht|done| |exact Hq].
  intros [] d [Hr _]. by apply Hq.
Qed.

Lemma looks_manifest_load s :
  looks (manifest_load s) (λ _ m, manifest_ok m ∧ head (relative_path (heartbeat m)) = Some (text "run")).
Proof.
  eapply looks_bind; [apply looks_read_file|intros bs; apply looks_lift|].
  intros t bs m _ Hm. apply manifest_parse_ok in Hm as (Hok & _ & _ & _ & Hrun).
  split; [done|by apply run_path].
Qed.

Lemma looks_validate_slot s :
  looks (validate_slot s) (λ _ m, manifest_ok m ∧ head (relative_path (heartbeat m)) = Some (text "run")).
Proof.
  eapply looks_bind with (ψ := λ m _ m', m' = m); [apply looks_manifest_load| |].
  - intros m. eapply looks_seq; [apply looks_resolve|]. intros p.
    eapply looks_seq; [apply looks_entry_exists|]. intros b.
    destruct b; cbn [negb]; [|apply looks_fail].
    eapply looks_seq; [apply looks_metadata|]. intros n.
    destruct (is_file n); cbn [negb]; [by apply looks_ret|apply looks_fail].
  - by intros t m m' Hm ->.
Qed.

Lemma looks_read_heartbeat relative : looks (read_heartbeat relative) (λ _ _, True).
Proof.
  eapply looks_seq; [apply looks_optional_file|]. intros [bs|]; by apply looks_ret.
Qed.

Lemma looks_read_state : looks read_state (λ _ _, True).
Proof.
  eapply looks_seq; [apply looks_optional_file|]. intros [bs|]; [|by apply looks_ret].
  eapply looks_seq; [apply looks_lift|]. intros s. by apply looks_ret.
Qed.

(** ** Operations that change what the files say *)

Lemma write_pointer_tree t file s t' :
  replaced t (relative_path file) (encode_pointer s) t' →
  pointer_at t' (relative_path file) = pointer_at t (relative_path file) ∨
  pointer_at t' (relative_path file) = Some s.
Proof.
  intros Hr. destruct (replaced_target _ _ _ _ Hr) as [Hsame|Hnew]; unfold pointer_at.
  - left. by rewrite Hsame.
  - right. by rewrite Hnew, parse_encode_pointer.
Qed.

(** The pointer may be moved to a slot that is pending, or to a confirmed one. *)
Lemma safe_move_pointer G t t' s :
  safe G t → replaced t current_path (encode_pointer s) t' →
  (is_Some (t !! pending_path) ∨ slot_image t s ∈ G) → safe G t'.
Proof.
  intros [Ht Hc Hp (f & Hf & Hfi) Hprev] Hr Hs.
  assert (Hpend : t' !! pending_path = t !! pending_path)
    by (eapply replaced_elsewhere; [exact Hr|done|apply pending_not_temp]).
  assert (Hpv : t' !! previous_path = t !! previous_path)
    by (eapply replaced_elsewhere; [exact Hr|done|apply previous_not_temp]).
  assert (Himg : ∀ x, slot_image t' x = slot_image t x)
    by (intros x; eapply replaced_image; [exact Hr|by destruct x|done]).
  pose proof (write_pointer_tree t POINTER_FILE s t' Hr) as Hcur. fold current_path in Hcur.
  split.
  - apply Hr.
  - by destruct Hcur as [->| ->]; [|eauto].
  - unfold pending_at. by rewrite Hpend.
  - unfold fallback, pending_at in *. rewrite Hpend. destruct (t !! pending_path) as [n|] eqn:Hn.
    + exists f. by rewrite Himg.
    + destruct Hcur as [->| ->]; [exists f; by rewrite Himg|].
      exists s. rewrite Himg. split; [done|]. by destruct Hs as [[]|].
  - unfold pointer_at at 1. rewrite Hpv. intros x Hx. rewrite Himg. by apply Hprev.
Qed.

(** A switch away from the fallback may be announced. *)
Lemma safe_announce G t t' c to :
  safe G t → t !! pending_path = None → pointer_at t current_path = Some c → c ≠ to →
  replaced t pending_path (encode_pending {| previous := c; target := to |}) t' →
  safe G t' ∧ pointer_at t' current_path = Some c.
Proof.
  intros [Ht Hc Hp (f & Hf & Hfi) Hprev] Hnone Hcur Hne Hr.
  assert (Hcp : t' !! current_path = t !! current_path)
    by (eapply replaced_elsewhere; [exact Hr|done|apply current_not_temp]).
  assert (Hpv : t' !! previous_path = t !! previous_path)
    by (eapply replaced_elsewhere; [exact Hr|done|apply previous_not_temp]).
  assert (Himg : ∀ x, slot_image t' x = slot_image t x)
    by (intros x; eapply replaced_image; [exact Hr|by destruct x|done]).
  assert (Hcur' : pointer_at t' current_path = Some c) by (unfold pointer_at in *; by rewrite Hcp).
  unfold fallback in Hf. rewrite Hnone, Hcur in Hf. injection Hf as <-.
  split; [|done]. split.
  - apply Hr.
  - rewrite Hcur'. eauto.
  - destruct (replaced_target _ _ _ _ Hr) as [Hs|Hn]; [left; congruence|right].
    unfold pending_at. rewrite Hn, parse_encode_pending by done. eauto.
  - exists c. rewrite Himg. split; [|done]. unfold fallback.
    destruct (replaced_target _ _ _ _ Hr) as [Hs|Hn].
    + by rewrite Hs, Hnone.
    + unfold pending_at. by rewrite Hn, parse_encode_pending by done.
  - unfold pointer_at at 1. rewrite Hpv. intros x Hx. rewrite Himg. by apply Hprev.
Qed.

(** The announcement may be withdrawn when the current slot is confirmed. *)
Lemma safe_withdraw G t t' c :
  safe G t → pointer_at t current_path = Some c → slot_image t c ∈ G →
  removed t pending_path t' → safe G t' ∧ pointer_at t' current_path = Some c.
Proof.
  intros [Ht Hc Hp (f & Hf & Hfi) Hprev] Hcur Hci [Hok Ho Htgt].
  assert (Hcur' : pointer_at t' current_path = Some c)
    by (unfold pointer_at in *; by rewrite (Ho current_path)).
  assert (Himg : ∀ x, slot_image t' x = slot_image t x).
  { intros x. apply slot_image_ext. intros q Hq. left. apply Ho. intros ->. by destruct x. }
  split; [|done]. split; [done|by rewrite Hcur'; eauto|..].
  - destruct Htgt as [Hs|Hn]; [|by left]. unfold pending_at. by rewrite Hs.
  - unfold fallback, pending_at in *. destruct Htgt as [Hs|Hn].
    + rewrite Hs. destruct (t !! pending_path); [exists f; by rewrite Himg|].
      exists c. by rewrite Himg.
    + rewrite Hn. exists c. by rewrite Himg.
  - unfold pointer_at at 1. rewrite (Ho previous_path) by done. intros x Hx. rewrite Himg. by apply Hprev.
Qed.

(** A confirmed slot may be remembered for a later rollback. *)
Lemma safe_remember G t t' s :
  safe G t → slot_image t s ∈ G → replaced t previous_path (encode_pointer s) t' →
  safe G t' ∧ pointer_at t' current_path = pointer_at t current_path ∧
  t' !! pending_path = t !! pending_path ∧ (∀ x, slot_image t' x = slot_image t x).
Proof.
  intros [Ht Hc Hp (f & Hf & Hfi) Hprev] Hs Hr.
  assert (Hcp : t' !! current_path = t !! current_path)
    by (eapply replaced_elsewhere; [exact Hr|done|apply current_not_temp]).
  assert (Hpend : t' !! pending_path = t !! pending_path)
    by (eapply replaced_elsewhere; [exact Hr|done|apply pending_not_temp]).
  assert (Himg : ∀ x, slot_image t' x = slot_image t x)
    by (intros x; eapply replaced_image; [exact Hr|by destruct x|done]).
  split; [|by split; [unfold pointer_at; rewrite Hcp|]]. split.
  - apply Hr.
  - unfold pointer_at in *. by rewrite Hcp.
  - unfold pending_at in *. by rewrite Hpend.
  - exists f. rewrite Himg. unfold fallback, pending_at, pointer_at in *. by rewrite Hpend, Hcp.
  - intros x Hx. rewrite Himg.
    pose proof (write_pointer_tree t PREVIOUS_FILE s t' Hr) as Hpp. fold previous_path in Hpp.
    destruct Hpp as [Hpp|Hpp]; rewrite Hpp in Hx; [by apply Hprev|]. by injection Hx as <-.
Qed.

(** ** Sequences of file operations *)

Lemma hoare_from {A} (m : disk_op A) d0 Q C :
  hoare (on_tree (tree d0)) m Q C → hoare (λ d, d = d0) m Q C.
Proof. intros Hm d ->. by apply Hm. Qed.

(** A pending switch that was read. *)
Definition pends (p : PendingSwitch) (t : gmap path Node) : Prop :=
  pending_at t = Some p ∧ is_Some (t !! pending_path).

Lemma pends_fallback G p t :
  safe G t → pends p t → slot_image t (previous p) ∈ G.
Proof.
  intros Hs [Hp [n Hn]]. destruct (safe_fallback _ _ Hs) as (s & Hf & Hi).
  unfold fallback in Hf. rewrite Hn, Hp in Hf. by injection Hf as <-.
Qed.

Lemma replaced_pends p t q data t' :
  replaced t q data t' → pending_path ≠ q → pends p t → pends p t'.
Proof.
  intros Hr Hq. unfold pends, pending_at.
  by rewrite (replaced_elsewhere t q data t' pending_path Hr Hq pending_not_temp).
Qed.

(** The file operations of [rollback]. *)
Lemma hoare_rollback G p :
  hoare (λ d, safe G (tree d) ∧ pends p (tree d))
    (do! write_slot_pointer POINTER_FILE (previous p) in remove_file PENDING_FILE)
    (λ _, safe_at G (previous p)) (λ d, safe G (tree d)).
Proof.
  apply hoare_any. intros d0 [Hs Hp].
  apply hoare_from.
  assert (Hmove : ∀ t', replaced (tree d0) current_path (encode_pointer (previous p)) t' → safe G t')
    by (intros t' Hr; eapply safe_move_pointer; [exact Hs|exact Hr|left; apply Hp]).
  eapply hoare_call; [apply (hoare_atomic_write POINTER_FILE); [apply Hs|apply current_not_temp]| |].
  { intros d Hr. by apply Hmove. }
  intros []. apply hoare_any. intros d1 [Hr Hnew].
  pose proof (Hmove _ Hr) as Hs1. pose proof (replaced_pends p _ _ _ _ Hr ltac:(done) Hp) as Hp1.
  assert (Hcur : pointer_at (tree d1) current_path = Some (previous p))
    by (unfold pointer_at, current_path; by rewrite Hnew, parse_encode_pointer).
  pose proof (λ t', safe_withdraw G _ t' _ Hs1 Hcur (pends_fallback _ _ _ Hs1 Hp1)) as Hw.
  eapply hoare_conseq; [apply (hoare_remove_file PENDING_FILE), Hs1|by intros d ->|..].
  - intros [] d [Hrm _]. exact (Hw _ Hrm).
  - intros d Hrm. exact (proj1 (Hw _ Hrm)).
Qed.

(** The file operations of [confirm_healthy]. *)
Lemma hoare_confirm G c p :
  hoare (λ d, safe_at G c d ∧ slot_image (tree d) c ∈ G ∧ pends p (tree d))
    (do! write_slot_pointer PREVIOUS_FILE (previous p) in remove_file PENDING_FILE)
    (λ _, safe_at G c) (safe_at G c).
Proof.
  apply hoare_any. intros d0 ([Hs Hc] & Hi & Hp).
  apply hoare_from.
  assert (Hrem : ∀ t', replaced (tree d0) previous_path (encode_pointer (previous p)) t' →
    safe G t' ∧ pointer_at t' current_path = Some c ∧ slot_image t' c ∈ G).
  { intros t' Hr. destruct (safe_remember _ _ _ _ Hs (pends_fallback _ _ _ Hs Hp) Hr)
      as (Hs' & Hc' & _ & Himg). split; [done|]. by rewrite Hc', Himg. }
  eapply hoare_call; [apply (hoare_atomic_write PREVIOUS_FILE); [apply Hs|apply previous_not_temp]| |].
  { intros d Hr. apply Hrem in Hr as (? & ? & _). by split. }
  intros []. apply hoare_any. intros d1 [Hr _]. apply Hrem in Hr as (Hs1 & Hc1 & Hi1).
  pose proof (λ t', safe_withdraw G _ t' _ Hs1 Hc1 Hi1) as Hw.
  eapply hoare_conseq; [apply (hoare_remove_file PENDING_FILE), Hs1|by intros d ->|..].
  - intros [] d [Hrm _]. exact (Hw _ Hrm).
  - intros d Hrm. exact (Hw _ Hrm).
Qed.

(** The file operations of [request_slot]. *)
Lemma hoare_request G c to :
  c ≠ to →
  hoare (λ d, safe_at G c d ∧ tree d !! pending_path = None)
    (do! atomic_write PENDING_FILE (encode_pending {| previous := c; target := to |}) in
     write_slot_pointer POINTER_FILE to)
    (λ _ d, safe G (tree d)) (λ d, safe G (tree d)).
Proof.
  intros Hne. apply hoare_any. intros d0 ([Hs Hc] & Hnone).
  apply hoare_from.
  pose proof (λ t', safe_announce G _ t' c to Hs Hnone Hc Hne) as Hann.
  eapply hoare_call; [apply (hoare_atomic_write PENDING_FILE); [apply Hs|apply pending_not_temp]| |].
  { intros d Hr. exact (proj1 (Hann _ Hr)). }
  intros []. apply hoare_any. intros d1 [Hr Hnew]. destruct (Hann _ Hr) as [Hs1 _].
  fold pending_path in Hnew.
  assert (Hmove : ∀ t', replaced (tree d1) current_path (encode_pointer to) t' → safe G t')
    by (intros t' Hr'; eapply safe_move_pointer; [exact Hs1|exact Hr'|left; eauto]).
  eapply hoare_conseq; [apply (hoare_atomic_write POINTER_FILE); [apply Hs1|apply current_not_temp]|by intros d ->|..].
  - intros [] d [Hr' _]. exact (Hmove _ Hr').
  - intros d Hr'. exact (Hmove _ Hr').
Qed.

(** [recover_pending_pointer]. *)
Lemma hoare_recover G :
  hoare (λ d, safe G (tree d)) recover_pending_pointer
    (λ _ d, safe G (tree d)) (λ d, safe G (tree d)).
Proof.
  apply hoare_any. intros d0 Hs.
  apply hoare_from.
  assert (Hkeep : ∀ d, on_tree (tree d0) d → safe G (tree d)) by (by intros d ->).
  eapply hoare_look; [apply looks_pending|done|]. intros [p|] Hp; [|by apply hoare_ret].
  eapply hoare_look; [apply looks_pointer|done|]. intros active _.
  destruct (bool_decide (active = previous p)); [|by destruct (bool_decide _); [apply hoare_ret|apply hoare_fail]].
  assert (Hmove : ∀ t', replaced (tree d0) current_path (encode_pointer (target p)) t' → safe G t')
    by (intros t' Hr'; eapply safe_move_pointer; [exact Hs|exact Hr'|left; apply Hp]).
  eapply hoare_conseq; [apply (hoare_atomic_write POINTER_FILE); [apply Hs|apply current_not_temp]|done|..].
  - intros [] d [Hr _]. exact (Hmove _ Hr).
  - intros d Hr. exact (Hmove _ Hr).
Qed.

(** ** The launcher *)

Section launcher_safety.
Context {R C D : Type} `{ChildRunner R} `{Clock C} `{DisableFlag D}.
Abbreviation L := (Launcher R C D).
Abbreviation op A := (M L LauncherError A).
Implicit Types (l : L) (G : list (gmap path Node)).

Definition launcher_safe G l : Prop := safe (confirmed l ++ G) (tree (root l)).
Definition launcher_at G (c : Slot) l : Prop := safe_at (confirmed l ++ G) c (root l).

Lemma launcher_at_safe G c l : launcher_at G c l → launcher_safe G l.
Proof. by intros []. Qed.
Local Hint Resolve launcher_at_safe : core.

Lemma hoare_on_root {A} (m : disk_op A) P Q E k :
  hoare P m Q E →
  hoare (λ l, confirmed l = k ∧ P (root l)) (on_root m : op A)
    (λ a l, confirmed l = k ∧ Q a (root l)) (λ l, confirmed l = k ∧ E (root l)).
Proof.
  intros Hm l [Hk Hp]. specialize (Hm _ Hp). unfold on_root, zoom.
  by destruct (m (root l)) as [d [a|e]].
Qed.

(** A file operation whose assertions depend on what was confirmed so far. *)
Lemma hoare_files {A} (m : disk_op A) (P : _ → Disk → Prop) (Q : A → _ → Disk → Prop)
    (E : _ → Disk → Prop) :
  (∀ k, hoare (P k) m (λ a, Q a k) (E k)) →
  hoare (λ l, P (confirmed l) (root l)) (on_root m : op A)
    (λ a l, Q a (confirmed l) (root l)) (λ l, E (confirmed l) (root l)).
Proof.
  intros Hm l Hp.
  pose proof (hoare_on_root m _ _ _ (confirmed l) (Hm (confirmed l)) l (conj eq_refl Hp)) as Hh.
  destruct (on_root m l) as [l' [a|e]]; destruct Hh as [Hk Hh]; by rewrite Hk.
Qed.

Lemma files_hushed {A} (m : disk_op A) G c :
  hushed m → hoare (launcher_at G c) (on_root m : op A) (λ _, launcher_at G c) (launcher_at G c).
Proof.
  intros Hm. apply (hoare_files m (λ k, safe_at (k ++ G) c) (λ _ k, safe_at (k ++ G) c)
    (λ k, safe_at (k ++ G) c)). intros k. by apply hushed_keeps.
Qed.

Lemma files_look {A} (m : disk_op A) φ G c :
  looks m φ →
  hoare (launcher_at G c) (on_root m : op A)
    (λ a l, φ (tree (root l)) a ∧ launcher_at G c l) (launcher_at G c).
Proof.
  intros Hm. apply (hoare_files m (λ k, safe_at (k ++ G) c)
    (λ a k d, φ (tree d) a ∧ safe_at (k ++ G) c d) (λ k, safe_at (k ++ G) c)).
  intros k. apply hoare_any. intros d0 Hd0. apply hoare_from.
  assert (Hsame : ∀ d, on_tree (tree d0) d → safe_at (k ++ G) c d)
    by (intros d Hd; unfold safe_at, on_tree in *; by rewrite Hd).
  eapply hoare_conseq; [apply (Hm (tree d0))|done| |done].
  intros a d [Hd Ha]. split; [by rewrite Hd|by apply Hsame].
Qed.

(** What does not touch the files. *)
Definition aloof {A} (m : op A) : Prop :=
  ∀ l, root (m l).1 = root l ∧ confirmed (m l).1 = confirmed l.

Lemma aloof_hoare {A} (m : op A) (P : L → Prop) :
  aloof m → (∀ l l', root l' = root l → confirmed l' = confirmed l → P l → P l') →
  hoare P m (λ _, P) P.
Proof.
  intros Hm HP l Hl. destruct (Hm l) as [Hr Hc].
  destruct (m l) as [l' [a|e]]; simpl in *; by eapply HP.
Qed.
Lemma aloof_at {A} (m : op A) G c :
  aloof m → hoare (launcher_at G c) m (λ _, launcher_at G c) (launcher_at G c).
Proof. intros Hm. apply aloof_hoare; [done|]. unfold launcher_at. by intros l l' -> ->. Qed.

Lemma aloof_now : aloof (now : op Z).
Proof. intros l. unfold now. by destruct (now_ms (clock l)). Qed.
Lemma aloof_runner {A} (m : M R LauncherError A) : aloof (on_runner m).
Proof. intros l. unfold on_runner, zoom. by destruct (m (runner l)). Qed.
Lemma aloof_disable {A} (m : M D LauncherError A) : aloof (on_disable m).
Proof. intros l. unfold on_disable, zoom. by destruct (m (disable l)). Qed.
Lemma aloof_running r : aloof (mmodify (set_running r) : op unit).
Proof. done. Qed.
Lemma aloof_get : aloof (mget : op L).
Proof. done. Qed.
Lemma aloof_instance t : aloof (new_instance t : op bytes).
Proof. done. Qed.

Lemma safe_save_state G c s :
  hoare (launcher_at G c) (save_state s : op unit) (λ _, launcher_at G c) (launcher_at G c).
Proof.
  eapply hoare_bind; [apply (aloof_at (mmodify (set_state s))); done|].
  intros []. apply files_hushed, hushed_write_state.
Qed.

(** A look in a launcher step. *)
Lemma hoare_peek {A B} (m : disk_op A) (k : A → op B) φ G c Q :
  looks m φ →
  (∀ a, hoare (λ l, φ (tree (root l)) a ∧ launcher_at G c l) (k a) Q (launcher_safe G)) →
  hoare (launcher_at G c) (mbnd (on_root m) k) Q (launcher_safe G).
Proof.
  intros Hm Hk. eapply hoare_bind; [|exact Hk].
  eapply hoare_conseq; [by apply files_look|done|intros a l Hl; exact Hl|eauto].
Qed.

(** A step that keeps the invariant. *)
Lemma hoare_keep {A B} (m : op A) (k : A → op B) G c Q :
  hoare (launcher_at G c) m (λ _, launcher_at G c) (launcher_at G c) →
  (∀ a, hoare (launcher_at G c) (k a) Q (launcher_safe G)) →
  hoare (launcher_at G c) (mbnd m k) Q (launcher_safe G).
Proof.
  intros Hm Hk. eapply hoare_bind; [|exact Hk].
  eapply hoare_conseq; [exact Hm|done|done|eauto].
Qed.

Lemma safe_ret {A} (a : A) G c :
  hoare (launcher_at G c) (mret a : op A) (λ _, launcher_safe G) (launcher_safe G).
Proof. apply hoare_ret. eauto. Qed.
Lemma safe_fail {A} e G c :
  hoare (launcher_at G c) (mfail e : op A) (λ _, launcher_safe G) (launcher_safe G).
Proof. apply hoare_fail. eauto. Qed.

(** Two file operations in a row. *)
Lemma on_root_seq {A B} (m : disk_op unit) (k : disk_op A) (n : A → op B) l :
  (do! on_root m in let! a := on_root k in n a) l =
  (let! a := on_root (do! m in k) in n a) l.
Proof.
  unfold mbnd, on_root, zoom. destruct (m (root l)) as [d [[]|e]]; [|done].
  cbn [root set_root]. by destruct (k d) as [d' [a|e]].
Qed.
Lemma on_root_pair {A} (m : disk_op unit) (k : disk_op A) l :
  (do! on_root m in on_root k) l = on_root (do! m in k) l.
Proof.
  unfold mbnd, on_root, zoom. destruct (m (root l)) as [d [[]|e]]; [|done].
  cbn [root set_root]. by destruct (k d) as [d' [a|e]].
Qed.

Lemma safe_rollback G p :
  hoare (λ l, launcher_safe G l ∧ pends p (tree (root l))) (rollback p : op StepOutcome)
    (λ _, launcher_safe G) (launcher_safe G).
Proof.
  eapply hoare_ext; [intros l; apply on_root_seq|].
  eapply hoare_bind.
  - apply (hoare_files _ (λ k d, safe (k ++ G) (tree d) ∧ pends p (tree d))
      (λ _ k, safe_at (k ++ G) (previous p)) (λ k d, safe (k ++ G) (tree d))).
    intros k. apply hoare_rollback.
  - intros []. apply hoare_keep; [apply aloof_at, aloof_now|]. intros t.
    apply hoare_keep; [apply safe_save_state|]. intros []. apply safe_ret.
Qed.

(** The slot in which the daemon is being confirmed. *)
Definition confirming G c l : Prop :=
  launcher_at G c l ∧ slot_image (tree (root l)) c ∈ confirmed l ++ G.

Lemma confirming_hushed {A} (m : disk_op A) G c :
  hushed m → hoare (confirming G c) (on_root m : op A) (λ _, confirming G c) (launcher_at G c).
Proof.
  intros Hm. apply (hoare_files m
    (λ k d, safe_at (k ++ G) c d ∧ slot_image (tree d) c ∈ k ++ G)
    (λ _ k d, safe_at (k ++ G) c d ∧ slot_image (tree d) c ∈ k ++ G) (λ k, safe_at (k ++ G) c)).
  intros k. apply hoare_any. intros d0 [[Hs Hc] Hi]. apply hoare_from.
  assert (Hq : ∀ d, quiet (tree d0) (tree d) →
    safe_at (k ++ G) c d ∧ slot_image (tree d) c ∈ k ++ G).
  { intros d Hd. rewrite (quiet_images _ _ Hd). split; [|done]. split; [by eapply quiet_safe|].
    by rewrite (quiet_pointer _ _ Hd). }
  eapply hoare_conseq; [apply Hm, Hs|done|auto|]. intros d Hd. by apply Hq.
Qed.

Lemma safe_confirm_healthy G c :
  hoare (launcher_at G c) (confirm_healthy c : op unit) (λ _, launcher_at G c) (launcher_at G c).
Proof.
  eapply hoare_bind with (Q := λ self l, self = l ∧ launcher_at G c l); [by apply hoare_get|].
  intros self. eapply hoare_bind with (Q := λ _, confirming G c).
  { apply hoare_modify. intros l [-> [Hs Hc]]. split; [split|]; cbn [root confirmed set_confirmed].
    - eapply safe_more; [exact Hs|]. set_solver.
    - done.
    - set_solver. }
  intros []. eapply hoare_bind with (Q := λ _, confirming G c).
  { eapply hoare_bind with (Q := λ _, confirming G c).
    - apply hoare_modify. intros l Hl. exact Hl.
    - intros []. apply confirming_hushed, hushed_write_state. }
  intros []. eapply hoare_bind with (Q := λ o l, pending_answer (tree (root l)) o ∧ confirming G c l).
  { apply hoare_any. intros l0 Hl0.
    pose proof (files_look read_pending _ G c looks_pending) as Hlook.
    pose proof (confirming_hushed read_pending G c (hushed_looks _ _ looks_pending)) as Hkeep.
    intros l ->. specialize (Hlook l0 (proj1 Hl0)). specialize (Hkeep l0 Hl0).
    destruct (on_root read_pending l0) as [l' [o|e]]; [|done]. by split; [apply Hlook|]. }
  intros [p|]; [|apply hoare_ret; by intros l [_ []]].
  destruct (bool_decide (target p = c)); [|apply hoare_ret; by intros l [_ []]].
  eapply hoare_ext; [intros l; apply on_root_pair|].
  eapply hoare_conseq; [apply (hoare_files _
      (λ k d, safe_at (k ++ G) c d ∧ slot_image (tree d) c ∈ k ++ G ∧ pends p (tree d))
      (λ _ k, safe_at (k ++ G) c) (λ k, safe_at (k ++ G) c))| |done|done].
  - intros k. apply hoare_confirm.
  - intros l (Hp & Hat & Hi). done.
Qed.

Lemma safe_halt_or_back_off G c manifest :
  hoare (launcher_at G c) (halt_or_back_off manifest : op StepOutcome)
    (λ _, launcher_safe G) (launcher_safe G).
Proof.
  apply hoare_keep; [apply aloof_at, aloof_get|]. intros self. cbv zeta.
  destruct (_ >=? _).
  - apply hoare_keep; [apply safe_save_state|]. intros []. apply safe_ret.
  - apply hoare_keep; [apply aloof_at, aloof_now|]. intros t.
    apply hoare_keep; [apply safe_save_state|]. intros []. apply safe_ret.
Qed.

Lemma safe_record_failure G c child manifest :
  hoare (launcher_at G c) (record_failure child manifest : op StepOutcome)
    (λ _, launcher_safe G) (launcher_safe G).
Proof.
  apply hoare_keep; [apply aloof_at; done|]. intros [].
  eapply hoare_peek; [apply looks_pending|]. intros o.
  eapply hoare_bind with (Q := λ _ l, pending_answer (tree (root l)) o ∧ launcher_at G c l);
    [by apply hoare_get|].
  intros self. destruct o as [p|].
  - destruct (_ && _).
    + eapply hoare_pre; [|apply (safe_rollback G p)]. intros l [Hp Hl]. split; [by eapply launcher_at_safe|done].
    + eapply hoare_pre; [|apply (safe_halt_or_back_off G c)]. by intros l [].
  - eapply hoare_pre; [|apply (safe_halt_or_back_off G c)]. by intros l [].
Qed.

Lemma safe_keep_running G c child :
  hoare (launcher_at G c) (keep_running child : op StepOutcome)
    (λ _, launcher_safe G) (launcher_safe G).
Proof. apply hoare_keep; [apply aloof_at, aloof_running|]. intros []. apply safe_ret. Qed.

Lemma safe_step_running G c child :
  child_slot child = c →
  hoare (launcher_at G c) (step_running child : op StepOutcome)
    (λ _, launcher_safe G) (launcher_safe G).
Proof.
  intros Hc. eapply hoare_peek; [apply looks_manifest_load|]. intros manifest.
  apply hoare_pre with (P' := launcher_at G c); [by intros l []|].
  apply hoare_keep; [apply aloof_at, aloof_runner|]. intros []; [|apply safe_record_failure].
  apply hoare_keep; [apply aloof_at, aloof_now|]. intros t. cbv zeta.
  eapply hoare_peek; [apply looks_read_heartbeat|]. intros h.
  apply hoare_pre with (P' := launcher_at G c); [by intros l []|].
  destruct (advanced_heartbeat _ h) as [b|].
  - destruct (_ >=? _); [|apply safe_keep_running].
    eapply hoare_keep; [|intros ch; apply safe_keep_running].
    destruct (healthy _); [by apply hoare_ret|].
    eapply hoare_bind with (Q := λ _, launcher_at G c); [|intros []; by apply hoare_ret].
    change (child_slot (beaten (polled child manifest t) b t)) with (child_slot child).
    rewrite Hc. apply safe_confirm_healthy.
  - destruct (heartbeat_timed_out _ _ _); [|apply safe_keep_running].
    apply hoare_keep; [apply aloof_at, aloof_runner|]. intros []. apply safe_record_failure.
Qed.

Lemma safe_start_child G c t manifest :
  head (relative_path (heartbeat manifest)) = Some (text "run") →
  hoare (launcher_at G c) (start_child c t manifest : op StepOutcome)
    (λ _, launcher_safe G) (launcher_safe G).
Proof.
  intros Hrun.
  apply hoare_keep; [apply files_hushed; eapply hushed_looks, looks_resolve|]. intros hp.
  apply hoare_keep; [apply files_hushed; by apply hushed_remove_run|]. intros [].
  apply hoare_keep; [apply files_hushed; eapply hushed_looks, looks_resolve|]. intros ep.
  apply hoare_keep; [apply aloof_at, aloof_instance|]. intros name.
  apply hoare_keep; [apply aloof_at, aloof_runner|]. intros id.
  apply hoare_keep; [apply aloof_at, aloof_running|]. intros []. apply safe_ret.
Qed.

Lemma safe_step_idle G c :
  hoare (launcher_at G c) (step_idle c : op StepOutcome)
    (λ _, launcher_safe G) (launcher_safe G).
Proof.
  apply hoare_keep; [apply aloof_at, aloof_get|]. intros self. cbv zeta.
  destruct (halted _); [apply safe_ret|].
  apply hoare_keep; [apply aloof_at, aloof_now|]. intros t.
  destruct (_ <? _); [apply safe_ret|].
  eapply hoare_bind with (Q := λ r l, launcher_at G c l ∧ match r with
    | Ok m => head (relative_path (heartbeat m)) = Some (text "run") | Err _ => True end).
  { apply hoare_try. eapply hoare_conseq; [apply (files_look (validate_slot c)), looks_validate_slot|done|..].
    - by intros m l [[_ Hm] Hl].
    - by intros l Hl e. }
  intros [m|e].
  - apply hoare_any. intros l0 [Hl0 Hrun].
    eapply hoare_pre; [|by apply (safe_start_child G c t m)]. by intros l ->.
  - apply hoare_pre with (P' := launcher_at G c); [by intros l []|].
    eapply hoare_peek; [apply looks_pending|]. intros [p|].
    + destruct (bool_decide _).
      * eapply hoare_pre; [|apply (safe_rollback G p)]. intros l [Hp Hl]. split; [by eapply launcher_at_safe|done].
      * eapply hoare_pre; [|apply (safe_fail e G c)]. by intros l [].
    + eapply hoare_pre; [|apply (safe_fail e G c)]. by intros l [].
Qed.

(** After [stop_stale] a child that runs belongs to the active slot. *)
Definition in_step (r : option RunningChild) c : Prop :=
  match r with Some child => child_slot child = c | None => True end.

(** Saving the state leaves the child alone. *)
Lemma save_state_running s G c (P : option RunningChild → Prop) :
  hoare (λ l, launcher_at G c l ∧ P (running l)) (save_state s : op unit)
    (λ _ l, launcher_at G c l ∧ P (running l)) (launcher_safe G).
Proof.
  intros l [Hl Hp]. pose proof (safe_save_state G c s l Hl) as Hh.
  assert (Hr : running (save_state s l).1 = running l)
    by (unfold save_state, mbnd, mmodify, on_root, zoom; by destruct (write_state s _)).
  destruct (save_state s l) as [l' [a|e]]; simpl in *; [by rewrite Hr|by eapply launcher_at_safe].
Qed.

Lemma safe_stop_stale G c :
  hoare (launcher_at G c) (stop_stale c : op unit)
    (λ _ l, launcher_at G c l ∧ in_step (running l) c) (launcher_safe G).
Proof.
  eapply hoare_bind with (Q := λ self l, self = l ∧ launcher_at G c l); [by apply hoare_get|].
  intros self. destruct (running self) as [old|] eqn:Hrun.
  - case_bool_decide as Hold.
    + eapply hoare_bind with (Q := λ _ l, launcher_at G c l ∧ running l = None).
      { apply hoare_modify. intros l [_ Hl]. by split. }
      intros []. eapply hoare_bind with (Q := λ _ l, launcher_at G c l ∧ running l = None).
      { intros l [Hl Hr]. unfold on_runner, zoom. destruct (terminate (child_id old) (runner l)) as [r [a|e]].
        - by split.
        - by apply launcher_at_safe with (c := c). }
      intros []. eapply hoare_conseq; [apply (save_state_running _ G c (λ r, r = None))|done| |done].
      intros a l [Hl ->]. by split.
    + apply hoare_ret. intros l [<- Hl]. split; [done|]. by rewrite Hrun.
  - apply hoare_ret. intros l [<- Hl]. split; [done|]. by rewrite Hrun.
Qed.

(** A step from wherever the pointer is. *)
Lemma launcher_safe_at G l : launcher_safe G l → ∃ c, launcher_at G c l.
Proof. intros Hl. destruct (safe_current _ _ Hl) as [c Hc]. by exists c. Qed.

Lemma hoare_located {A} (m : op A) G Q :
  (∀ c, hoare (launcher_at G c) m Q (launcher_safe G)) →
  hoare (launcher_safe G) m Q (launcher_safe G).
Proof. intros Hm l Hl. destruct (launcher_safe_at G l Hl) as [c Hc]. by apply (Hm c). Qed.

Lemma safe_step G :
  hoare (launcher_safe G) (step : op StepOutcome) (λ _, launcher_safe G) (launcher_safe G).
Proof.
  apply hoare_located. intros c.
  apply hoare_keep; [apply aloof_at, aloof_disable|]. intros [].
  - apply hoare_keep; [apply aloof_at, aloof_get|]. intros self.
    apply hoare_keep; [|intros []; apply safe_ret].
    destruct (running self); [|by apply hoare_ret].
    eapply hoare_bind; [apply aloof_at, aloof_running|]. intros []. apply aloof_at, aloof_runner.
  - eapply hoare_peek; [apply looks_pointer|]. intros active.
    apply hoare_any. intros l0 [Hc Hl0].
    assert (active = c) as -> by (destruct Hl0 as [_ Hl0]; unfold current_path in Hl0; congruence).
    apply hoare_pre with (P' := launcher_at G c); [by intros l ->|].
    eapply hoare_bind; [apply safe_stop_stale|]. intros [].
    eapply hoare_bind with (Q := λ _ l, launcher_at G c l ∧ in_step (running l) c); [by apply hoare_get|].
    intros self. eapply hoare_bind with (Q := λ _ l, launcher_at G c l ∧ in_step (running l) c).
    { destruct (_ && _); [|by apply hoare_ret].
      apply (save_state_running _ G c (λ r, in_step r c)). }
    intros []. eapply hoare_bind with (Q := λ self l, launcher_at G c l ∧ in_step (running self) c).
    { by apply hoare_get. }
    intros self'. apply hoare_any. intros l1 [Hl1 Hin].
    apply hoare_pre with (P' := launcher_at G c); [by intros l ->|].
    destruct (running self') as [child|]; [|apply safe_step_idle].
    apply hoare_keep; [apply aloof_at, aloof_running|]. intros []. by apply safe_step_running.
Qed.

Lemma safe_request_slot G to :
  hoare (launcher_safe G) (request_slot to : op unit) (λ _, launcher_safe G) (launcher_safe G).
Proof.
  apply hoare_located. intros c.
  eapply hoare_peek; [apply looks_pointer|]. intros current.
  apply hoare_any. intros l0 [Hc Hl0].
  assert (current = c) as -> by (destruct Hl0 as [_ Hl0]; unfold current_path in Hl0; congruence).
  apply hoare_pre with (P' := launcher_at G c); [by intros l ->|].
  case_bool_decide as Hto; [apply safe_ret|].
  eapply hoare_peek; [apply looks_pending|]. intros [p|].
  - apply hoare_pre with (P' := launcher_at G c); [by intros l []|].
    destruct (bool_decide _); [apply safe_ret|apply safe_fail].
  - eapply hoare_bind with (Q := λ _ l, launcher_at G c l ∧ tree (root l) !! pending_path = None).
    { apply hoare_any. intros l1 [Hnone Hl1].
      assert (Hn : tree (root l1) !! pending_path = None)
        by (eapply stat_not_found; [apply Hl1|exact Hnone]).
      intros l ->. unfold on_root, zoom.
      pose proof (looks_validate_slot to (tree (root l1)) (root l1) eq_refl) as Hv.
      assert (Hsame : ∀ d, tree d = tree (root l1) → launcher_at G c (set_root d l1))
        by (intros d Hd; unfold launcher_at, safe_at in *; cbn; by rewrite Hd).
      destruct (validate_slot to (root l1)) as [d [m|e]].
      - destruct Hv as [Hd _]. split; [by apply Hsame|]. cbn. by rewrite Hd.
      - eapply launcher_at_safe. by apply Hsame. }
    intros _. eapply hoare_ext; [intros l; apply on_root_seq|].
    eapply hoare_bind.
    + apply (hoare_files _ (λ k d, safe_at (k ++ G) c d ∧ tree d !! pending_path = None)
        (λ _ k d, safe (k ++ G) (tree d)) (λ k d, safe (k ++ G) (tree d))).
      intros k. by apply hoare_request.
    + intros []. apply hoare_located. intros c'.
      eapply hoare_conseq; [apply (safe_save_state G c')|done|by intros _ l []|by intros l []].
Qed.
End launcher_safety.

(** ** Staging *)

(** Changes to the files of another slot. *)
Record spares (c : Slot) (t t' : gmap path Node) : Prop := {
  spares_tree : tree_ok t';
  spares_current : t' !! current_path = t !! current_path;
  spares_pending : t' !! pending_path = t !! pending_path;
  spares_previous : t' !! previous_path = t !! previous_path;
  spares_image : slot_image t' c = slot_image t c;
}.

Lemma quiet_spares c t t' : quiet t t' → spares c t t'.
Proof. intros []. by split. Qed.
Lemma spares_trans c t1 t2 t3 : spares c t1 t2 → spares c t2 t3 → spares c t1 t3.
Proof. intros [] []. split; [done|congruence..]. Qed.

Lemma in_slot_not_file s p q :
  take 2 p = slot_dir s → q ∈ [current_path; pending_path; previous_path] → q ≠ p.
Proof.
  intros Hp Hq ->. rewrite !elem_of_cons, elem_of_nil in Hq.
  destruct Hq as [->|[->|[->|[]]]]; by destruct s.
Qed.

Lemma replaced_spares c s t p data t' :
  s ≠ c → take 2 (parent p) = slot_dir s → take 2 p = slot_dir s →
  replaced t p data t' → spares c t t'.
Proof.
  intros Hne Hpar Hp Hr.
  assert (Hfile : ∀ q, q ∈ [current_path; pending_path; previous_path] → ¬ is_temp q → t' !! q = t !! q).
  { intros q Hq Ht. eapply replaced_elsewhere; [exact Hr|by eapply in_slot_not_file|done]. }
  assert (Hdirs : slot_dir s ≠ slot_dir c) by (by destruct s, c).
  split; [apply Hr|apply Hfile; [set_solver|apply current_not_temp]|
    apply Hfile; [set_solver|apply pending_not_temp]|
    apply Hfile; [set_solver|apply previous_not_temp]|].
  apply slot_image_ext. intros q Hq. left. apply (replaced_others _ _ _ _ Hr).
  - intros ->. congruence.
  - intros (pid & n & ->). rewrite take_app_le in Hq; [congruence|].
    apply (f_equal length) in Hpar. rewrite length_take in Hpar.
    change (length (slot_dir s)) with 2%nat in Hpar. lia.
Qed.

(** [m] makes changes to the files of slots other than [c] only. *)
Definition sparing {A} (c : Slot) (m : disk_op A) : Prop :=
  ∀ t, tree_ok t → hoare (on_tree t) m (λ _ d, spares c t (tree d)) (λ d, spares c t (tree d)).

Lemma sparing_hushed {A} c (m : disk_op A) : hushed m → sparing c m.
Proof.
  intros Hm t Ht. eapply hoare_conseq; [by apply Hm|done|..].
  - intros a d Hd. by apply quiet_spares.
  - intros d Hd. by apply quiet_spares.
Qed.
Lemma sparing_bind {A B} c (m : disk_op A) (k : A → disk_op B) :
  sparing c m → (∀ a, sparing c (k a)) → sparing c (mbnd m k).
Proof.
  intros Hm Hk t Ht. eapply hoare_bind; [by apply Hm|].
  intros a. apply hoare_any. intros d0 Hq. apply hoare_from.
  eapply hoare_conseq; [apply (Hk a (tree d0)), Hq|done|..].
  - intros b d. by apply spares_trans.
  - intros d. by apply spares_trans.
Qed.
Lemma sparing_write c s relative data :
  s ≠ c → take 2 (parent (relative_path relative)) = slot_dir s →
  take 2 (relative_path relative) = slot_dir s → ¬ is_temp (relative_path relative) →
  sparing c (atomic_write relative data).
Proof.
  intros Hne Hpar Hp Htemp t Ht. eapply hoare_conseq; [by apply hoare_atomic_write|done|..].
  - intros [] d [Hr _]. exact (replaced_spares c s _ _ _ _ Hne Hpar Hp Hr).
  - intros d Hr. exact (replaced_spares c s _ _ _ _ Hne Hpar Hp Hr).
Qed.
Lemma sparing_permissions c s p :
  s ≠ c → take 2 p = slot_dir s → sparing c (set_permissions p).
Proof.
  intros Hne Hp t Ht. eapply hoare_conseq; [apply hoare_set_permissions|done|..].
  - intros [] d [->|(bs & x & Hn & ->)]; [by apply quiet_spares, quiet_refl|].
    assert (Hf : ∀ q, q ∈ [current_path; pending_path; previous_path] →
      <[p := Regular bs true]> t !! q = t !! q)
      by (intros q Hq; apply lookup_insert_ne; intros ->; by eapply in_slot_not_file in Hq).
    split; [|apply Hf; set_solver..|].
    + apply tree_ok_insert; [done| |congruence].
      destruct p as [|x' p' _] using rev_ind; [by left|right]. rewrite parent_snoc.
      apply (Ht p' x'). by rewrite Hn.
    + apply slot_image_ext. intros q Hq. left. apply lookup_insert_ne. intros <-.
      rewrite Hp in Hq. by destruct s, c.
  - intros d ->. by apply quiet_spares, quiet_refl.
Qed.

(** With nothing pending or remembered, the current slot is what matters. *)
Definition staging G c (d : Disk) : Prop :=
  safe_at G c d ∧ tree d !! pending_path = None ∧ tree d !! previous_path = None.

Lemma sparing_staging {A} (m : disk_op A) G c :
  sparing c m → hoare (staging G c) m (λ _, staging G c) (staging G c).
Proof.
  intros Hm. apply hoare_any. intros d0 ([Hs Hc] & Hpe & Hpr). apply hoare_from.
  assert (Hq : ∀ d, spares c (tree d0) (tree d) → staging G c d).
  { intros d [Hok Hcur Hpend Hprev Himg].
    assert (Hcur' : pointer_at (tree d) current_path = Some c)
      by (unfold pointer_at in *; by rewrite Hcur).
    destruct Hs as [_ _ _ (f & Hf & Hfi) _]. unfold fallback in Hf. rewrite Hpe, Hc in Hf.
    injection Hf as <-. split; [|by rewrite Hpend, Hprev]. split; [|done]. split; [done|eauto|..].
    - left. congruence.
    - exists c. unfold fallback. by rewrite Hpend, Hpe, Himg.
    - unfold pointer_at. by rewrite Hprev, Hpr. }
  eapply hoare_conseq; [apply Hm, Hs|done|auto|auto].
Qed.

Lemma staged_path s file :
  file ∈ [text "bin/kindlebridged"; text "slot.manifest"] →
  take 2 (parent (relative_path (slot_file s file))) = slot_dir s ∧
  take 2 (relative_path (slot_file s file)) = slot_dir s ∧
  ¬ is_temp (relative_path (slot_file s file)).
Proof.
  rewrite !elem_of_cons, elem_of_nil. intros [->|[->|[]]]; destruct s;
    (split; [by vm_compute|split; [by vm_compute|apply not_temp; by vm_compute]]).
Qed.

(** Forgetting the remembered slot. *)
Lemma hoare_forget G c :
  hoare (λ d, safe_at G c d ∧ tree d !! pending_path = None) (remove_file PREVIOUS_FILE)
    (λ _, staging G c) (λ d, safe G (tree d)).
Proof.
  apply hoare_any. intros d0 ([Hs Hc] & Hpe). apply hoare_from.
  assert (Hq : ∀ d, removed (tree d0) previous_path (tree d) →
    safe_at G c d ∧ tree d !! pending_path = None).
  { intros d [Hok Ho Ht].
    assert (Hcur' : pointer_at (tree d) current_path = Some c)
      by (unfold pointer_at in *; by rewrite (Ho current_path)).
    assert (Himg : ∀ x, slot_image (tree d) x = slot_image (tree d0) x).
    { intros x. apply slot_image_ext. intros q Hq. left. apply Ho. intros ->. by destruct x. }
    assert (Hpe' : tree d !! pending_path = None) by (by rewrite (Ho pending_path)).
    destruct Hs as [_ _ _ (f & Hf & Hfi) Hprev]. unfold fallback in Hf. rewrite Hpe, Hc in Hf.
    injection Hf as <-. split; [|done]. split; [|done]. split; [done|eauto|by left|..].
    - exists c. unfold fallback. by rewrite Hpe', Himg.
    - intros x. rewrite Himg. unfold pointer_at. destruct Ht as [->| ->]; [|done]. apply Hprev. }
  eapply hoare_conseq; [apply (hoare_remove_file PREVIOUS_FILE), Hs|done|..].
  - intros [] d [Hr Hn]. fold previous_path in Hn. destruct (Hq d Hr). done.
  - intros d Hr. by apply Hq.
Qed.

Lemma hoare_write_staged G c bs :
  hoare (λ d, safe_at G c d ∧ tree d !! pending_path = None) (write_staged (other_slot c) bs)
    (λ _ d, safe G (tree d)) (λ d, safe G (tree d)).
Proof.
  assert (Hdir : ∀ A (m : disk_op path) (k : path → disk_op A) Q, hushed m →
    (∀ p, hoare (λ d, safe_at G c d ∧ tree d !! pending_path = None) (k p) Q (λ d, safe G (tree d))) →
    hoare (λ d, safe_at G c d ∧ tree d !! pending_path = None) (mbnd m k) Q (λ d, safe G (tree d))).
  { intros A m k Q Hm Hk. eapply hoare_bind; [|exact Hk]. apply hoare_any. intros d0 ([Hs Hc] & Hpe).
    apply hoare_from.
    assert (Hq : ∀ d, quiet (tree d0) (tree d) → safe_at G c d ∧ tree d !! pending_path = None).
    { intros d Hd. split; [split; [by eapply quiet_safe|by rewrite (quiet_pointer _ _ Hd)]|].
      by rewrite (quiet_pending _ _ Hd). }
    eapply hoare_conseq; [apply Hm, Hs|done|auto|]. intros d Hd. by apply Hq. }
  apply Hdir; [apply hushed_directory; by vm_compute|]. intros _.
  apply Hdir; [apply hushed_directory; by destruct c; vm_compute|]. intros _.
  apply Hdir; [apply hushed_directory; by destruct c; vm_compute|]. intros _.
  eapply hoare_bind; [apply hoare_forget|]. intros [].
  assert (Hne : other_slot c ≠ c) by (by destruct c).
  assert (Hw : ∀ file data, file ∈ [text "bin/kindlebridged"; text "slot.manifest"] →
    sparing c (atomic_write (slot_file (other_slot c) file) data)).
  { intros file data Hf. destruct (staged_path (other_slot c) file Hf) as (? & ? & ?).
    by eapply sparing_write. }
  eapply hoare_conseq; [apply (sparing_staging _ G c)|done|by intros a d [[? _] _]|by intros d [[? _] _]].
  apply sparing_bind; [apply Hw; set_solver|intros _].
  intros t Ht. eapply hoare_look; [apply looks_resolve|intros d ->; by apply quiet_spares, quiet_refl|].
  intros p [-> _]. apply (sparing_bind c); [|intros _|done].
  - apply sparing_bind; [eapply sparing_hushed, hushed_looks, looks_metadata|intros _].
    apply sparing_bind; [|intros _; eapply sparing_hushed, hushed_looks, looks_gate].
    eapply sparing_permissions; [exact Hne|]. apply staged_path. set_solver.
  - apply sparing_bind; [apply Hw; set_solver|intros _].
    apply sparing_hushed, hushed_write, outside_intro. by vm_compute.
Qed.

(** The remembered slot may be forgotten at any time. *)
Lemma safe_forget G t t' : safe G t → removed t previous_path t' → safe G t'.
Proof.
  intros [Ht Hc Hp (f & Hf & Hfi) Hprev] [Hok Ho Htgt].
  assert (Himg : ∀ x, slot_image t' x = slot_image t x).
  { intros x. apply slot_image_ext. intros q Hq. left. apply Ho. intros ->. by destruct x. }
  assert (Hcur : t' !! current_path = t !! current_path) by (by apply Ho).
  assert (Hpe : t' !! pending_path = t !! pending_path) by (by apply Ho).
  unfold fallback, pointer_at, pending_at in *.
  split; unfold fallback, pointer_at, pending_at; rewrite ?Hcur, ?Hpe; [done..| |].
  - exists f. by rewrite Himg.
  - intros x. rewrite Himg. destruct Htgt as [->| ->]; [|done]. apply Hprev.
Qed.

(** ** The commands *)

Definition disk_safe G (d : Disk) : Prop := safe G (tree d).

Lemma hushed_safe {A} (m : disk_op A) G :
  hushed m → hoare (disk_safe G) m (λ _, disk_safe G) (disk_safe G).
Proof.
  intros Hm d Hd. destruct (safe_current _ _ Hd) as [c Hc].
  pose proof (hushed_keeps m G c Hm d (conj Hd Hc)) as Hh.
  by destruct (m d) as [d' [a|e]]; destruct Hh.
Qed.

Lemma hoare_hush {A B} (m : disk_op A) (k : A → disk_op B) G Q :
  hushed m → (∀ a, hoare (disk_safe G) (k a) Q (disk_safe G)) →
  hoare (disk_safe G) (mbnd m k) Q (disk_safe G).
Proof. intros Hm Hk. eapply hoare_bind; [by apply hushed_safe|exact Hk]. Qed.

(** A look at a safe tree. *)
Lemma hoare_glance {A B} (m : disk_op A) (k : A → disk_op B) (φ : gmap path Node → A → Prop) (G : list (gmap path Node))
    (P : gmap path Node → Prop) Q :
  looks m φ →
  (∀ a, hoare (λ d, (φ (tree d) a ∧ P (tree d)) ∧ disk_safe G d) (k a) Q (disk_safe G)) →
  hoare (λ d, P (tree d) ∧ disk_safe G d) (mbnd m k) Q (disk_safe G).
Proof.
  intros Hm Hk. eapply hoare_bind; [|exact Hk]. intros d [HP Hd].
  specialize (Hm (tree d) d eq_refl). destruct (m d) as [d' [a|e]].
  - destruct Hm as [Ht Ha]. unfold on_tree, disk_safe in *. by rewrite Ht.
  - unfold on_tree, disk_safe in *. by rewrite Hm.
Qed.

Lemma hoare_wait {A} (m : disk_op A) G P Q :
  hoare (disk_safe G) m Q (disk_safe G) → hoare (λ d, P d ∧ disk_safe G d) m Q (disk_safe G).
Proof. intros Hm. by eapply hoare_pre; [|exact Hm]; intros d []. Qed.

Lemma safe_error {A} e G : hoare (disk_safe G) (mfail e : disk_op A) (λ _, disk_safe G) (disk_safe G).
Proof. by apply hoare_fail. Qed.

Lemma looks_source_metadata s : looks (source_metadata s) (λ _ _, True).
Proof.
  eapply looks_seq; [apply looks_gate|]. intros _.
  eapply looks_conseq; [apply looks_lift|done].
Qed.
Lemma looks_source_exists s : looks (source_exists s) (λ _ _, True).
Proof.
  intros t d Hd. unfold source_exists, mbnd, mtry.
  pose proof (looks_source_metadata s t d Hd) as Hm.
  destruct (source_metadata s d) as [d' [n|e]].
  - destruct Hm as [Hm _]. by destruct n.
  - by destruct (is_not_found e).
Qed.

Section commands.
Context (blake3_hex : bytes → bytes).

Lemma hushed_check_source s expected : hushed (check_source blake3_hex s expected).
Proof.
  unfold check_source. cbv zeta.
  apply hushed_bind; [|intros _].
  { destruct (negb _); [apply hushed_fail|].
    apply hushed_bind; [eapply hushed_looks, looks_source_exists|]. intros [];
      [apply hushed_ret|apply hushed_fail]. }
  apply hushed_bind; [eapply hushed_looks, looks_source_metadata|intros n].
  apply hushed_bind; [destruct n; first [apply hushed_ret|apply hushed_fail]|intros _].
  apply hushed_bind; [eapply hushed_looks, looks_source_metadata|intros n'].
  destruct (_ || _); [apply hushed_fail|].
  apply hushed_bind; [eapply hushed_looks, looks_gate|intros _].
  destruct (negb _); [apply hushed_fail|].
  apply hushed_bind; [eapply hushed_looks, looks_lift|intros _].
  destruct (bool_decide _); [apply hushed_fail|apply hushed_ret].
Qed.

(** Staging keeps the invariant as long as no switch is pending. *)
Lemma safe_stage_daemon G absolute source expected :
  hoare (λ d, disk_safe G d ∧ tree d !! pending_path = None)
    (stage_daemon blake3_hex absolute source expected) (λ _, disk_safe G) (disk_safe G).
Proof.
  assert (Hhush : ∀ A B (m : disk_op A) (k : A → disk_op B) Q, hushed m →
    (∀ a, hoare (λ d, disk_safe G d ∧ tree d !! pending_path = None) (k a) Q (disk_safe G)) →
    hoare (λ d, disk_safe G d ∧ tree d !! pending_path = None) (mbnd m k) Q (disk_safe G)).
  { intros A B m k Q Hm Hk. eapply hoare_bind; [|exact Hk]. intros d [Hd Hpe].
    pose proof (Hm (tree d) (safe_tree _ _ Hd) d eq_refl) as Hq. unfold disk_safe in *.
    destruct (m d) as [d' [a|e]]; [|by eapply quiet_safe].
    split; [by eapply quiet_safe|]. by rewrite (quiet_pending _ _ Hq). }
  apply Hhush; [apply hushed_open|]. intros _.
  apply Hhush; [apply hushed_check_source|]. intros [bs n].
  eapply hoare_bind with (Q := λ c d, safe_at G c d ∧ tree d !! pending_path = None).
  { intros d [Hd Hpe]. pose proof (looks_pointer POINTER_FILE (tree d) d eq_refl) as Hl.
    unfold disk_safe, safe_at in *.
    destruct (read_slot_pointer POINTER_FILE d) as [d' [c|e]]; unfold on_tree in Hl.
    - destruct Hl as [-> Hc]. by split.
    - by rewrite Hl. }
  intros c. cbv zeta. eapply hoare_bind; [apply hoare_write_staged|]. intros []. by apply hoare_ret.
Qed.

Lemma safe_rollback_daemon G absolute :
  hoare (disk_safe G) (rollback_daemon absolute) (λ _, disk_safe G) (disk_safe G).
Proof.
  apply hoare_hush; [apply hushed_open|]. intros _.
  apply hoare_hush; [eapply hushed_looks, looks_resolve|]. intros pid.
  apply hoare_hush; [eapply hushed_looks, looks_entry_exists|]. intros []; [apply safe_error|].
  apply hoare_hush; [eapply hushed_looks, looks_resolve|]. intros pending.
  apply hoare_hush; [eapply hushed_looks, looks_entry_exists|]. intros []; [apply safe_error|].
  apply hoare_hush; [eapply hushed_looks, looks_resolve|]. intros p.
  apply hoare_hush; [eapply hushed_looks, looks_entry_exists|]. intros []; [|apply safe_error].
  eapply hoare_pre with (P' := λ d, True ∧ disk_safe G d); [done|]. cbn [negb].
  apply (hoare_glance _ _ _ G (λ _, True) _ (looks_pointer PREVIOUS_FILE)). intros prev.
  apply (hoare_glance _ _ _ G (λ t, pointer_at t previous_path = Some prev ∧ True) _
    (looks_pointer POINTER_FILE)). intros cur.
  assert (Hrest : hoare (disk_safe G)
    (do! remove_file NEXT_FILE in do! remove_file PREVIOUS_FILE in mret prev)
    (λ _, disk_safe G) (disk_safe G)).
  { apply hoare_hush; [apply hushed_remove, outside_intro; by vm_compute|]. intros [].
    intros d Hd. destruct (safe_current _ _ Hd) as [c Hc].
    pose proof (hoare_remove_file PREVIOUS_FILE (tree d) (safe_tree _ _ Hd) d eq_refl) as Hr.
    assert (Hq : ∀ d', removed (tree d) previous_path (tree d') → disk_safe G d')
      by (intros d'; by eapply safe_forget).
    unfold mbnd. destruct (remove_file PREVIOUS_FILE d) as [d' [[]|e]]; [apply Hq, Hr|by apply Hq]. }
  eapply hoare_bind with (Q := λ _, disk_safe G); [|intros []; exact Hrest].
  case_bool_decide as Hne; [|apply hoare_ret; by intros d [_ Hd]].
  apply (hoare_glance _ _ _ G (λ t, pointer_at t current_path = Some cur ∧
    pointer_at t previous_path = Some prev ∧ True) _ (looks_validate_slot prev)). intros m.
  intros d [[_ [_ [Hprev _]]] Hd].
  assert (Hq : ∀ t', replaced (tree d) current_path (encode_pointer prev) t' → safe G t').
  { intros t' Hr. eapply safe_move_pointer; [exact Hd|exact Hr|right].
    by apply (safe_previous _ _ Hd). }
  pose proof (hoare_atomic_write POINTER_FILE (encode_pointer prev) (tree d)
    (safe_tree _ _ Hd) current_not_temp d eq_refl) as Hw. unfold write_slot_pointer.
  destruct (atomic_write POINTER_FILE (encode_pointer prev) d) as [d' [[]|e]]; apply Hq, Hw.
Qed.
End commands.

Section system.
Context {R C D : Type} `{ChildRunner R} `{Clock C} `{DisableFlag D}.
Context (blake3_hex : bytes → bytes).
Abbreviation L := (Launcher R C D).

Lemma safe_launcher_open G absolute (r : R) (c : C) (f : D) :
  hoare (disk_safe G) (λ d, launcher_open absolute d r c f)
    (λ l d, disk_safe G d ∧ root l = d ∧ confirmed l = []) (disk_safe G).
Proof.
  apply (hoare_hush _ _ G _ (hushed_open absolute)). intros _.
  eapply hoare_bind with (Q := λ _, disk_safe G); [apply hoare_recover|]. intros [].
  apply hoare_hush; [eapply hushed_looks, looks_pointer|]. intros slot.
  apply hoare_hush; [eapply hushed_looks, looks_read_state|]. intros saved.
  eapply hoare_bind with (Q := λ d' d, d' = d ∧ disk_safe G d); [by apply hoare_get|].
  intros d'. apply hoare_ret. by intros d [-> Hd].
Qed.

(** Operations of the launcher other than [confirm_healthy] confirm nothing. *)
Definition unconfirming {A} (m : M L LauncherError A) : Prop := ∀ l, confirmed (m l).1 = confirmed l.

Lemma unconfirming_bind {A B} (m : M L LauncherError A) (k : A → M L LauncherError B) :
  unconfirming m → (∀ a, unconfirming (k a)) → unconfirming (mbnd m k).
Proof.
  intros Hm Hk l. unfold mbnd. specialize (Hm l).
  destruct (m l) as [l' [a|e]]; simpl in *; [by rewrite Hk|done].
Qed.
Lemma unconfirming_root {A} (m : disk_op A) : unconfirming (on_root m).
Proof. intros l. unfold on_root, zoom. by destruct (m (root l)). Qed.
Lemma unconfirming_save s : unconfirming (save_state s).
Proof. by apply unconfirming_bind; [|intros; apply unconfirming_root]. Qed.

Lemma unconfirming_request to : unconfirming (request_slot to).
Proof.
  apply unconfirming_bind; [apply unconfirming_root|]. intros current.
  destruct (bool_decide _); [done|].
  apply unconfirming_bind; [apply unconfirming_root|]. intros [p|].
  - by destruct (bool_decide _).
  - apply unconfirming_bind; [apply unconfirming_root|]. intros _.
    apply unconfirming_bind; [apply unconfirming_root|]. intros [].
    apply unconfirming_bind; [apply unconfirming_root|]. intros []. apply unconfirming_save.
Qed.

Lemma safe_request_command G absolute (r : R) (c : C) (f : D) to :
  hoare (disk_safe G) (request_slot_command absolute r c f to) (λ _, disk_safe G) (disk_safe G).
Proof.
  intros d Hd. unfold request_slot_command.
  pose proof (safe_launcher_open G absolute r c f d Hd) as Ho.
  destruct (launcher_open absolute d r c f) as [d' [l|e]]; [|done].
  destruct Ho as (Hs & Hroot & Hconf).
  assert (Hl : launcher_safe G l) by (unfold launcher_safe; by rewrite Hconf, Hroot).
  pose proof (safe_request_slot G to l Hl) as Hr. pose proof (unconfirming_request to l) as Hc.
  destruct (request_slot to l) as [l' [a|e]]; simpl in Hc; unfold launcher_safe in Hr;
    rewrite Hc, Hconf in Hr; exact Hr.
Qed.

Lemma looks_path_exists p : looks (path_exists p) (λ _ _, True).
Proof.
  intros t d Hd. unfold path_exists, mbnd, mtry. pose proof (looks_metadata p t d Hd) as Hm.
  destruct (metadata p d) as [d' [n|e]]; [destruct Hm as [Hm _]|]; done.
Qed.

Lemma hushed_unlink_next : hushed (unlink (relative_path NEXT_FILE)).
Proof.
  intros t Ht. set (p := relative_path NEXT_FILE).
  eapply hoare_bind with (Q := λ _, on_tree t).
  { eapply hoare_conseq; [apply (looks_gate t)|done|by intros ? ? []|].
    intros d Hd. rewrite Hd. by apply quiet_refl. }
  intros [] d Hd. cbn. unfold on_tree in Hd. rewrite Hd.
  assert (Hrefl : quiet t (tree d)) by (rewrite Hd; by apply quiet_refl).
  destruct (stat t p) as [n|e] eqn:Hn; [|done]. apply stat_lookup in Hn.
  assert (Hdel : n ≠ Directory → quiet t (delete p t)).
  { intros Hne. eapply removed_quiet with (p := p); [apply outside_intro; by vm_compute|]. split.
    - by eapply tree_ok_delete.
    - intros q Hq. by rewrite lookup_delete_ne.
    - right. by rewrite lookup_delete, decide_True by done. }
  destruct n; cbn; auto.
Qed.

Lemma safe_select_staged G absolute (r : R) (c : C) (f : D) :
  hoare (disk_safe G) (select_staged absolute r c f) (λ _, disk_safe G) (disk_safe G).
Proof.
  apply hoare_hush.
  { apply hushed_bind; [eapply hushed_looks, looks_path_exists|]. intros []; [apply hushed_fail|].
    apply hushed_bind; [eapply hushed_looks, looks_read_node|]. intros bs.
    destruct (bool_decide _); [apply hushed_ret|].
    destruct (bool_decide _); [apply hushed_ret|apply hushed_fail]. }
  intros slot. eapply hoare_bind; [apply safe_request_command|]. intros [].
  apply hoare_hush; [apply hushed_unlink_next|]. intros []. by apply hoare_ret.
Qed.

(** ** Everything that can happen to the device *)

Record System : Type := {
  disk : Disk;
  live : option L;
  trusted : list (gmap path Node);
  (** An update was staged while a switch was pending. *)
  restaged : bool;
}.

(** A switch that was selected and not yet confirmed or undone. *)
Definition switch_pending (d : Disk) : bool := bool_decide (is_Some (tree d !! pending_path)).

(** The launcher that is running, if the operation did not end it. *)
Definition survivor {A} (l : L) (res : launcher_result A) : option L :=
  match res with Ok _ => Some l | Err _ => None end.

Inductive happens : System → System → Prop :=
| OtherProcesses d d' l G b :
    (* The daemon writes its heartbeat and process ID; [d'] also sets which
       system calls fail from here on. *)
    tree_ok (tree d') → (∀ q, head q ≠ Some (text "run") → tree d' !! q = tree d !! q) →
    happens {| disk := d; live := l; trusted := G; restaged := b |}
      {| disk := d'; live := l; trusted := G; restaged := b |}
| LauncherStarts d l G b absolute (r : R) (c : C) (f : D) d' res :
    launcher_open absolute d r c f = (d', res) →
    happens {| disk := d; live := l; trusted := G; restaged := b |}
      {| disk := d'; live := match res with Ok l' => Some l' | Err _ => None end; trusted := G; restaged := b |}
| LauncherSteps d l G b l' res :
    step (set_root d l) = (l', res) →
    happens {| disk := d; live := Some l; trusted := G; restaged := b |}
      {| disk := root l'; live := survivor l' res; trusted := confirmed l' ++ G; restaged := b |}
| LauncherSwitches d l G b to l' res :
    request_slot to (set_root d l) = (l', res) →
    happens {| disk := d; live := Some l; trusted := G; restaged := b |}
      {| disk := root l'; live := survivor l' res; trusted := confirmed l' ++ G; restaged := b |}
| LauncherStops d l G b :
    happens {| disk := d; live := Some l; trusted := G; restaged := b |}
      {| disk := d; live := None; trusted := G; restaged := b |}
| Stages d l G b absolute source expected d' res :
    stage_daemon blake3_hex absolute source expected d = (d', res) →
    happens {| disk := d; live := l; trusted := G; restaged := b |}
      {| disk := d'; live := l; trusted := G; restaged := b || switch_pending d |}
| Selects d l G b absolute (r : R) (c : C) (f : D) d' res :
    select_staged absolute r c f d = (d', res) →
    happens {| disk := d; live := l; trusted := G; restaged := b |}
      {| disk := d'; live := l; trusted := G; restaged := b |}
| RollsBack d l G b absolute d' res :
    rollback_daemon absolute d = (d', res) →
    happens {| disk := d; live := l; trusted := G; restaged := b |}
      {| disk := d'; live := l; trusted := G; restaged := b |}.

Definition system_safe (s : System) : Prop :=
  restaged s = true ∨ disk_safe (trusted s) (disk s).

Lemma run_quiet t t' :
  tree_ok t' → (∀ q, head q ≠ Some (text "run") → t' !! q = t !! q) → quiet t t'.
Proof.
  intros Ht Hq. split; [done|by apply Hq..|].
  intros s. apply slot_image_ext. intros q Hs. left. apply Hq.
  destruct q as [|a [|b q]]; [done..|]. injection Hs as -> _. done.
Qed.

Lemma run_safe {S A} (m : M S LauncherError A) P Q K (J : S → Prop) s s' res :
  hoare P m Q K → P s → m s = (s', res) → (∀ a s, Q a s → J s) → (∀ s, K s → J s) → J s'.
Proof. intros Hm Hs Hrun HQ HC. specialize (Hm s Hs). rewrite Hrun in Hm. destruct res; eauto. Qed.

Lemma happens_safe s s' : system_safe s → happens s s' → system_safe s'.
Proof.
  unfold system_safe. intros [Hb|Hs] Hstep.
  { left. destruct Hstep; cbn [restaged] in *; [done..| |done|done]. by rewrite Hb. }
  destruct Hstep as [d d' l G b Ht Hq|d l G b a r c f d' res Hrun|d l G b l' res Hrun
    |d l G b to l' res Hrun|d l G b|d l G b a src e d' res Hrun|d l G b a r c f d' res Hrun
    |d l G b a d' res Hrun];
    cbn [disk trusted restaged] in *.
  - right. eapply quiet_safe; [exact Hs|by apply run_quiet].
  - right. pose proof (safe_launcher_open G a r c f d Hs) as Ho. cbv beta in Ho. rewrite Hrun in Ho.
    destruct res; [apply Ho|done].
  - right. assert (Hl : launcher_safe G (set_root d l)) by (eapply safe_more; [exact Hs|set_solver]).
    by eapply (run_safe _ _ _ _ (launcher_safe G) _ _ _ (safe_step G) Hl Hrun).
  - right. assert (Hl : launcher_safe G (set_root d l)) by (eapply safe_more; [exact Hs|set_solver]).
    by eapply (run_safe _ _ _ _ (launcher_safe G) _ _ _ (safe_request_slot G to) Hl Hrun).
  - by right.
  - destruct (decide (is_Some (tree d !! pending_path))) as [Hp|Hp].
    { left. unfold switch_pending. rewrite (bool_decide_eq_true_2 _ Hp). apply orb_true_r. }
    right. apply eq_None_not_Some in Hp.
    by eapply (run_safe _ _ _ _ (disk_safe G) _ _ _ (safe_stage_daemon blake3_hex G a src e)
      (conj Hs Hp) Hrun).
  - right. by eapply (run_safe _ _ _ _ (disk_safe G) _ _ _ (safe_select_staged G a r c f) Hs Hrun).
  - right. by eapply (run_safe _ _ _ _ (disk_safe G) _ _ _ (safe_rollback_daemon G a) Hs Hrun).
Qed.

(** C4: whatever the launcher, updates, selections and rollbacks do and
    wherever they are cut short, unless an update was staged on the way while
    a switch was pending, the slot the device falls back to holds a daemon
    that passed the health check (or was installed to begin with), and so does
    the slot a manual rollback would restore.  [staging_replaces_fallback]
    below shows what such an update does. *)
Theorem fallback_is_confirmed s s' :
  disk_safe (trusted s) (disk s) → rtc happens s s' →
  restaged s' = true ∨
  (∃ slot, fallback (tree (disk s')) = Some slot ∧
     slot_image (tree (disk s')) slot ∈ trusted s') ∧
  (∀ slot, pointer_at (tree (disk s')) previous_path = Some slot →
     slot_image (tree (disk s')) slot ∈ trusted s').
Proof.
  intros Hs Hrun. assert (Hs' : system_safe s').
  { apply (or_intror (A := restaged s = true)) in Hs. change (system_safe s) in Hs.
    induction Hrun as [|x y z Hxy _ IH]; [done|]. apply IH. by eapply happens_safe. }
  destruct Hs' as [Hb|Hs']; [by left|right].
  split; [apply (safe_fallback _ _ Hs')|apply (safe_previous _ _ Hs')].
Qed.
End system.

(** ** A device that is updated *)

Module Sample.

#[local] Instance sample_runner : ChildRunner unit :=
  {| spawn _ := mret 1; poll _ := mret ChildStatus.Running; terminate _ := mret tt |}.
#[local] Instance sample_clock : Clock Z := {| now_ms t := (t + 6000, t); sleep_ms n t := t + n |}.
#[local] Instance sample_flag : DisableFlag unit := {| is_disabled := mret false |}.

(** The header of an ELF32 little-endian ARM binary, and one more byte. *)
Definition daemon (b : byte) : bytes :=
  [x7f; x45; x4c; x46; x01; x01; x01; x00; x00; x00; x00; x00; x00; x00; x00; x00;
   x02; x00; x28; x00; b].
(** A digest that tells the two daemons apart. *)
Definition hash (bs : bytes) : bytes := show_hex 64 (byte_at 20 bs).
Definition source (b : byte) : Source :=
  {| source_is_absolute := true; source_node := Some (Regular (daemon b) true);
     source_bytes := daemon b |}.

(** Slot A was installed with the device. *)
Definition installed : Disk :=
  {| tree := list_to_map
       [ ([], Directory); ([text "slots"], Directory);
         ([text "run"], Directory); ([text "launcher"], Directory);
         ([text "slots"; text "A"], Directory); ([text "slots"; text "A"; text "bin"], Directory);
         ([text "slots"; text "A"; text "bin"; text "kindlebridged"], Regular (daemon x00) true);
         ([text "slots"; text "A"; text "slot.manifest"], Regular (slot_manifest Slot.A) false);
         ([text "current"], Regular (encode_pointer Slot.A) false) ];
     faults := []; temp_counter := 0; process_id := 7 |}.
Definition staged : Disk := (stage_daemon hash true (source x01) (hash (daemon x01)) installed).1.
Definition selected : Disk := (select_staged true tt 0 tt staged).1.

Definition at_rest (d : Disk) : System (R := unit) (C := Z) (D := unit) :=
  {| disk := d; live := None; trusted := [slot_image (tree installed) Slot.A];
     restaged := false |}.

Lemma installed_safe :
  disk_safe [slot_image (tree installed) Slot.A] installed.
Proof.
  split.
  - apply tree_ok_forall. apply (bool_decide_unpack _). by vm_compute.
  - exists Slot.A. by vm_compute.
  - left. by vm_compute.
  - exists Slot.A. split; [by vm_compute|]. by apply list_elem_of_singleton.
  - intros s Hs. exfalso. revert Hs. by vm_compute.
Qed.

Lemma fallback_is_confirmed_witness :
  (select_staged true tt 0 tt staged).2 = Ok Slot.B ∧
  fallback (tree selected) = Some Slot.A ∧
  ((∃ slot, fallback (tree selected) = Some slot ∧
     slot_image (tree selected) slot ∈ [slot_image (tree installed) Slot.A]) ∧
  (∀ slot, pointer_at (tree selected) previous_path = Some slot →
     slot_image (tree selected) slot ∈ [slot_image (tree installed) Slot.A])).
Proof.
  split; [by vm_compute|]. split; [by vm_compute|].
  destruct (fallback_is_confirmed hash (at_rest installed) (at_rest selected) installed_safe)
    as [Hb|H]; [|discriminate Hb|exact H].
  eapply rtc_l; [|eapply rtc_l; [|apply rtc_refl]].
  - replace (at_rest staged) with {| disk := staged; live := None (A := Launcher unit Z unit);
      trusted := [slot_image (tree installed) Slot.A];
      restaged := false || switch_pending installed |} by (unfold at_rest; f_equal).
    eapply (Stages hash installed None _ false true (source x01) (hash (daemon x01)) staged).
    apply surjective_pairing.
  - eapply (Selects hash staged None _ false true tt 0 tt selected). apply surjective_pairing.
Defined.

Definition second_update : Disk * launcher_result StagedUpdate :=
  stage_daemon hash true (source x02) (hash (daemon x02)) selected.

(** Staging while a switch is pending succeeds, and replaces the daemon the
    device would fall back to by one that never ran. *)
Theorem staging_replaces_fallback :
  fallback (tree selected) = Some Slot.A ∧
  (if second_update.2 is Ok update then staged_slot update = Slot.A else False) ∧
  fallback (tree second_update.1) = Some Slot.A ∧
  tree second_update.1 !! [text "slots"; text "A"; text "bin"; text "kindlebridged"] =
    Some (Regular (daemon x02) true).
Proof. vm_compute. by repeat split. Qed.

End Sample.
