(* ===== verification/CrashLoop.v ===== *)
(** * A daemon that keeps failing is given up

    [Launcher::step] of src/device/kindlebridge-launcher/src/watchdog.rs over any
    number of polls: without a confirmed health check, a slot switch or the
    disable flag in between, the daemon of a slot is started at most as often as
    its manifest allows, crashes recorded before the launcher started included.
    A clock that jumps is not held against the daemon. *)

From S2P Require Import Prelude Text Files SafeRoot SlotManifest Watchdog LauncherUpdate LauncherSafety.

(** The manifest in a slot's image. *)
Definition manifest_path (s : Slot) : path := relative_path (slot_file s (text "slot.manifest")).
Definition manifest_at (t : gmap path Node) (s : Slot) : option SlotManifest :=
  match slot_image t s !! manifest_path s with
  | Some (Regular bs _) => match manifest_parse bs s with Ok m => Some m | Err _ => None end
  | _ => None
  end.

Lemma looks_manifest_at s : looks (manifest_load s) (λ t m, manifest_at t s = Some m).
Proof.
  eapply looks_bind; [apply looks_read_file|intros bs; apply looks_lift|].
  intros t bs m [[x Hs] _] Hm. apply stat_lookup in Hs. unfold manifest_at.
  fold (manifest_path s) in Hs. rewrite slot_image_lookup, Hs. cbn [mbind option_bind].
  rewrite decide_True by (by destruct s). by rewrite Hm.
Qed.

Section crash_loop.
Context {R C D : Type} `{ChildRunner R} `{Clock C} `{DisableFlag D}.
Abbreviation L := (Launcher R C D).
Abbreviation op A := (M L LauncherError A).
Implicit Types (l : L).

(** Slot [c] with manifest [m] stays selected. *)
Definition settled (c : Slot) (m : SlotManifest) (t : gmap path Node) : Prop :=
  tree_ok t ∧ pointer_at t current_path = Some c ∧ manifest_at t c = Some m.

Lemma quiet_settled c m t t' : quiet t t' → settled c m t → settled c m t'.
Proof.
  intros Hq (Ht & Hp & Hm). split; [apply Hq|]. rewrite (quiet_pointer _ _ Hq). split; [done|].
  unfold manifest_at. by rewrite (quiet_images _ _ Hq).
Qed.

Section slot.
Context (c : Slot) (m : SlotManifest).

Definition watching (s : WatchdogState) (r : option RunningChild) l : Prop :=
  settled c m (tree (root l)) ∧ state l = s ∧ running l = r.
Definition anything l : Prop := True.

(** File operations that change neither the pointer nor a slot. *)
Lemma watch_files {A B} (o : disk_op A) (k : A → op B) s r Q :
  hushed o → (∀ a, hoare (watching s r) (k a) Q anything) →
  hoare (watching s r) (mbnd (on_root o) k) Q anything.
Proof.
  intros Ho Hk. eapply hoare_bind; [|exact Hk]. intros l (Hs & Hst & Hr).
  specialize (Ho _ (proj1 Hs) (root l) eq_refl). unfold on_root, zoom.
  destruct (o (root l)) as [d [a|e]]; [|done]. split; [by eapply quiet_settled|done].
Qed.
Lemma watch_look {A B} (o : disk_op A) (k : A → op B) φ s r Q :
  looks o φ →
  (∀ a, hoare (λ l, φ (tree (root l)) a ∧ watching s r l) (k a) Q anything) →
  hoare (watching s r) (mbnd (on_root o) k) Q anything.
Proof.
  intros Ho Hk. eapply hoare_bind; [|exact Hk]. intros l (Hs & Hst & Hr).
  specialize (Ho _ (root l) eq_refl). unfold on_root, zoom.
  destruct (o (root l)) as [d [a|e]]; [|done]. destruct Ho as [Ht Ha]. unfold on_tree in Ht.
  unfold watching. cbn [root set_root]. by rewrite Ht.
Qed.

(** What touches neither the files nor the launcher's own state. *)
Definition detached {A} (o : op A) : Prop :=
  ∀ l, root (o l).1 = root l ∧ state (o l).1 = state l ∧ running (o l).1 = running l.
Lemma detached_now : detached (now : op Z).
Proof. intros l. unfold now. by destruct (now_ms (clock l)). Qed.
Lemma detached_runner {A} (o : M R LauncherError A) : detached (on_runner o).
Proof. intros l. unfold on_runner, zoom. by destruct (o (runner l)). Qed.
Lemma detached_disable {A} (o : M D LauncherError A) : detached (on_disable o).
Proof. intros l. unfold on_disable, zoom. by destruct (o (disable l)). Qed.
Lemma detached_instance t : detached (new_instance t : op bytes).
Proof. done. Qed.
Lemma watch_aside {A B} (o : op A) (k : A → op B) s r Q :
  detached o → (∀ a, hoare (watching s r) (k a) Q anything) →
  hoare (watching s r) (mbnd o k) Q anything.
Proof.
  intros Ho Hk. eapply hoare_bind; [|exact Hk]. intros l Hl. specialize (Ho l).
  destruct (o l) as [l' [a|e]]; [|done]. destruct Ho as (Hr & Hs & Hu). unfold watching in *.
  simpl in *. by rewrite Hr, Hs, Hu.
Qed.

Lemma watch_self {B} (k : L → op B) s r Q :
  (∀ self, state self = s → running self = r → hoare (watching s r) (k self) Q anything) →
  hoare (watching s r) (mbnd mget k) Q anything.
Proof.
  intros Hk. apply hoare_any. intros l0 Hl0. eapply hoare_bind with (Q := λ self l, self = l0 ∧ l = l0).
  { apply hoare_get. by intros l ->. }
  intros self l [-> ->]. apply Hk; [apply Hl0..|done].
Qed.
Lemma watch_save {B} (k : unit → op B) s s' r Q :
  hoare (watching s' r) (k tt) Q anything → hoare (watching s r) (mbnd (save_state s') k) Q anything.
Proof.
  intros Hk. eapply hoare_bind with (Q := λ _, watching s' r); [|by intros []].
  eapply hoare_bind with (Q := λ _, watching s' r).
  { apply hoare_modify. by intros l (Ht & _ & Hr). }
  intros [] l (Hs & Hst & Hr).
  pose proof (hushed_write_state s' _ (proj1 Hs) (root l) eq_refl) as Hq. unfold on_root, zoom.
  destruct (write_state s' (root l)) as [d [a|e]]; [|done]. split; [by eapply quiet_settled|done].
Qed.
Lemma watch_running {B} (k : unit → op B) s r r' Q :
  hoare (watching s r') (k tt) Q anything →
  hoare (watching s r) (mbnd (mmodify (set_running r')) k) Q anything.
Proof.
  intros Hk. eapply hoare_bind with (Q := λ _, watching s r'); [|by intros []].
  apply hoare_modify. by intros l (Ht & Hst & Hr).
Qed.
Lemma watch_ret {A} (a : A) s r (Q : A → L → Prop) :
  (∀ l, watching s r l → Q a l) → hoare (watching s r) (mret a : op A) Q anything.
Proof. intros HQ. by apply hoare_ret. Qed.
Lemma watch_fail {A} e s r (Q : A → L → Prop) : hoare (watching s r) (mfail e : op A) Q anything.
Proof. by apply hoare_fail. Qed.

(** ** The budget *)

(** [n] starts so far: one for each crash, and one for the daemon that runs. *)
Definition within_budget (n : Z) (s : WatchdogState) (r : option RunningChild) : Prop :=
  state_slot s = c ∧ 0 ≤ crashes s ≤ max_crashes m ∧
  (if halted s then r = None else crashes s < max_crashes m) ∧
  match r with
  | Some child => child_slot child = c ∧ healthy child = false ∧ n = crashes s + 1
  | None => n = crashes s
  end.
Definition counted (n : Z) l : Prop :=
  settled c m (tree (root l)) ∧ within_budget n (state l) (running l).

Definition starts_of (o : StepOutcome) : Z := if o is StepOutcome.Started _ _ then 1 else 0.
Definition keeps_failing (o : StepOutcome) : bool :=
  match o with
  | StepOutcome.Healthy _ _ | StepOutcome.RolledBack _ _ | StepOutcome.Disabled => false
  | _ => true
  end.
Definition after_step (n : Z) (o : StepOutcome) l : Prop :=
  keeps_failing o = true → counted (n + starts_of o) l.

Lemma hoare_whatever {A B} (o : op A) (k : A → op B) P Q :
  (∀ a, hoare anything (k a) Q anything) → hoare P (mbnd o k) Q anything.
Proof.
  intros Hk. eapply hoare_bind with (Q := λ _, anything); [|exact Hk].
  intros l _. by destruct (o l) as [l' []].
Qed.
Lemma budget_rollback n p P : hoare P (rollback p : op StepOutcome) (after_step n) anything.
Proof.
  apply hoare_whatever. intros []. apply hoare_whatever. intros []. apply hoare_whatever. intros t.
  apply hoare_whatever. intros []. by apply hoare_ret.
Qed.

Lemma budget_halt_or_back_off n s :
  state_slot s = c → n = crashes s → 1 ≤ n ≤ max_crashes m → halted s = false →
  hoare (watching s None) (halt_or_back_off m : op StepOutcome) (after_step n) anything.
Proof.
  intros Hslot Hn Hmax Hh. apply watch_self. intros self Hs _. rewrite Hs. cbv zeta.
  destruct (crashes s >=? max_crashes m) eqn:Hlim.
  - apply watch_save, watch_ret. intros l (Ht & Hst & Hr) _.
    split; [done|]. rewrite Hst, Hr. unfold within_budget, starts_of. cbn. lia || (repeat split; lia || done).
  - apply watch_aside; [apply detached_now|]. intros t.
    apply watch_save, watch_ret. intros l (Ht & Hst & Hr) _.
    split; [done|]. rewrite Hst, Hr. unfold within_budget, starts_of. cbn. rewrite Hh. repeat split; lia || done.
Qed.

Lemma budget_record_failure n s child :
  within_budget n s (Some child) → max_crashes m ≤ 16 →
  hoare (watching s None) (record_failure child m : op StepOutcome) (after_step n) anything.
Proof.
  intros (Hslot & Hcr & Hh & Hcs & _ & Hn) Hmax. destruct (halted s) eqn:Hhalt; [done|].
  set (s' := {| state_slot := child_slot child; crashes := saturating_add u32_max (crashes s) 1;
                next_start_ms := next_start_ms s; halted := halted s |}).
  assert (Hs' : crashes s' = n) by (unfold s', saturating_add, u32_max; cbn; lia).
  eapply hoare_bind with (Q := λ _, watching s' None).
  { apply hoare_modify. intros l (Ht & Hst & Hr). split; [done|]. cbn. by rewrite Hst. }
  intros []. apply watch_files; [eapply hushed_looks, looks_pending|]. intros o.
  apply watch_self. intros self Hs _. rewrite Hs.
  assert (Hend : hoare (watching s' None) (halt_or_back_off m : op StepOutcome) (after_step n) anything)
    by (apply budget_halt_or_back_off; [exact Hcs|by rewrite Hs'|lia|exact Hhalt]).
  destruct o as [p|]; [|exact Hend]. destruct (_ && _); [apply budget_rollback|exact Hend].
Qed.

Lemma budget_keep_running n s child :
  within_budget n s (Some child) →
  hoare (watching s None) (keep_running child : op StepOutcome) (after_step n) anything.
Proof.
  intros Hb. apply watch_running. destruct (healthy child); apply watch_ret; [done|].
  intros l (Ht & Hst & Hr) _. split; [done|]. rewrite Hst, Hr. by rewrite Z.add_0_r.
Qed.

Lemma budget_step_running n s child :
  within_budget n s (Some child) → max_crashes m ≤ 16 →
  hoare (watching s None) (step_running child : op StepOutcome) (after_step n) anything.
Proof.
  intros Hb Hmax. assert (Hcs : child_slot child = c) by apply Hb.
  assert (Hsame : ∀ child' : RunningChild, child_slot child' = child_slot child →
    healthy child' = healthy child → within_budget n s (Some child'))
    by (intros ch Hc Hh; unfold within_budget in *; rewrite Hc, Hh; destruct (halted s); naive_solver).
  eapply watch_look; [apply looks_manifest_at|]. intros m'.
  apply hoare_any. intros l0 [Hm' Hl0].
  assert (m' = m) as -> by (destruct Hl0 as [(_ & _ & Hm) _]; rewrite Hcs in Hm'; congruence).
  apply hoare_pre with (P' := watching s None); [by intros l ->|].
  apply watch_aside; [apply detached_runner|]. intros []; [|by apply budget_record_failure].
  apply watch_aside; [apply detached_now|]. intros t. cbv zeta.
  apply watch_files; [eapply hushed_looks, looks_read_heartbeat|]. intros h.
  destruct (advanced_heartbeat _ h) as [b|].
  - destruct (_ >=? _); [|by apply budget_keep_running, Hsame].
    set (child' := beaten (polled child m t) b t).
    assert (Hh : healthy child' = false) by apply Hb. rewrite Hh.
    eapply hoare_bind with (Q := λ ch _, healthy ch = true).
    { apply hoare_whatever. intros []. by apply hoare_ret. }
    intros ch. apply hoare_any. intros l1 Hch. unfold keep_running. rewrite Hch.
    apply hoare_whatever. intros []. by apply hoare_ret.
  - destruct (heartbeat_timed_out _ _ _); [|by apply budget_keep_running, Hsame].
    apply watch_aside; [apply detached_runner|]. intros [].
    apply budget_record_failure; [by apply Hsame|done].
Qed.

Lemma budget_idle n s o l :
  within_budget n s None → watching s None l → starts_of o = 0 → after_step n o l.
Proof. intros Hb (Ht & Hst & Hr) Ho _. split; [done|]. by rewrite Hst, Hr, Ho, Z.add_0_r. Qed.

Lemma budget_start_child n s t m' :
  within_budget n s None → halted s = false →
  head (relative_path (heartbeat m')) = Some (text "run") →
  hoare (watching s None) (start_child c t m' : op StepOutcome) (after_step n) anything.
Proof.
  intros (Hslot & Hcr & Hh & Hn) Hhalt Hrun. rewrite Hhalt in Hh.
  apply watch_files; [eapply hushed_looks, looks_resolve|]. intros hp.
  apply watch_files; [by apply hushed_remove_run|]. intros [].
  apply watch_files; [eapply hushed_looks, looks_resolve|]. intros ep.
  apply watch_aside; [apply detached_instance|]. intros name.
  apply watch_aside; [apply detached_runner|]. intros id.
  apply watch_running, watch_ret. intros l (Ht & Hst & Hr) _.
  split; [done|]. rewrite Hst, Hr. unfold within_budget. rewrite Hhalt. cbn. repeat split; done || lia.
Qed.

Lemma budget_step_idle n s :
  within_budget n s None →
  hoare (watching s None) (step_idle c : op StepOutcome) (after_step n) anything.
Proof.
  intros Hb. apply watch_self. intros self Hs _. rewrite Hs. cbv zeta.
  destruct (halted s) eqn:Hhalt; [apply watch_ret; intros l Hl; by eapply budget_idle|].
  apply watch_aside; [apply detached_now|]. intros t.
  destruct (_ <? _); [apply watch_ret; intros l Hl; by eapply budget_idle|].
  eapply hoare_bind with (Q := λ r l, watching s None l ∧ match r with
    | Ok m => head (relative_path (heartbeat m)) = Some (text "run") | Err _ => True end).
  { intros l Hl. unfold mtry, on_root, zoom.
    pose proof (looks_validate_slot c (tree (root l)) (root l) eq_refl) as Hv.
    destruct (validate_slot c (root l)) as [d [m'|e]].
    - destruct Hv as [Ht [_ Hrun]]. split; [|done]. unfold watching, on_tree in *. cbn. by rewrite Ht.
    - split; [|done]. unfold watching, on_tree in *. cbn. by rewrite Hv. }
  intros [m'|e]; apply hoare_any; intros l0 [Hl0 Hrun];
    (apply hoare_pre with (P' := watching s None); [by intros l ->|]).
  - by apply budget_start_child.
  - apply watch_files; [eapply hushed_looks, looks_pending|]. intros [p|]; [|apply watch_fail].
    destruct (bool_decide _); [apply budget_rollback|apply watch_fail].
Qed.

Lemma manifest_at_max t : settled c m t → max_crashes m ≤ 16.
Proof.
  intros (_ & _ & Hm). unfold manifest_at in Hm.
  destruct (slot_image t c !! manifest_path c) as [[bs x| |]|]; try done.
  destruct (manifest_parse bs c) as [m'|] eqn:Hp; [|done]. injection Hm as ->.
  by apply manifest_parse_ok in Hp as [[_ _ _ [_ ?] _] _].
Qed.

(** A step at an unchanged slot keeps to the budget. *)
Lemma budget_step n :
  hoare (counted n) (step : op StepOutcome) (after_step n) anything.
Proof.
  apply hoare_any. intros l0 [Ht Hb]. pose proof (manifest_at_max _ Ht) as Hmax.
  apply hoare_pre with (P' := watching (state l0) (running l0)); [by intros l ->|].
  revert Hb. generalize (state l0), (running l0). intros s r Hb.
  apply watch_aside; [apply detached_disable|]. intros [].
  { apply watch_self. intros self _ _. apply hoare_whatever. intros []. by apply hoare_ret. }
  eapply watch_look; [apply looks_pointer|]. intros active. apply hoare_any. intros l1 [Hc Hl1].
  assert (active = c) as -> by (destruct Hl1 as [(_ & Hp & _) _]; unfold current_path in Hp; congruence).
  apply hoare_pre with (P' := watching s r); [by intros l ->|]. clear l0 l1 Ht Hc Hl1.
  eapply hoare_bind with (Q := λ _, watching s r).
  { unfold stop_stale. apply watch_self. intros self _ ->.
    destruct r as [child|]; [|by apply hoare_ret].
    rewrite bool_decide_eq_false_2 by (intros Hne; apply Hne, Hb). by apply hoare_ret. }
  intros []. apply watch_self. intros self -> _.
  rewrite bool_decide_eq_false_2 by (intros Hne; apply Hne, Hb). cbn [andb].
  eapply hoare_bind with (Q := λ _, watching s r); [by apply hoare_ret|]. intros [].
  apply watch_self. intros self' _ ->. destruct r as [child|]; [|by apply budget_step_idle].
  apply watch_running. by apply budget_step_running.
Qed.
End slot.

(** ** Any number of polls *)

(** Between two polls the launcher sleeps, and other processes may change
    anything but the slots and the files that select them. *)
Definition meanwhile l l' : Prop :=
  quiet (tree (root l)) (tree (root l')) ∧ state l' = state l ∧ running l' = running l.

Inductive polls : L → list StepOutcome → L → Prop :=
| polls_none l : polls l [] l
| polls_step l o l' os l'' : step l = (l', Ok o) → polls l' os l'' → polls l (o :: os) l''
| polls_wait l l' os l'' : meanwhile l l' → polls l' os l'' → polls l os l''.

Definition starts (os : list StepOutcome) : Z := foldr (λ o n, starts_of o + n) 0 os.

Lemma polls_counted c m n l os l' :
  polls l os l' → Forall (λ o, keeps_failing o = true) os → counted c m n l →
  counted c m (n + starts os) l'.
Proof.
  intros Hrun. revert n. induction Hrun as [l|l o l1 os l' Hstep _ IH|l l1 os l' Hw _ IH];
    intros n Hos Hl.
  - by rewrite Z.add_0_r.
  - apply Forall_cons in Hos as [Ho Hos]. cbn [starts foldr]. rewrite Z.add_assoc.
    apply IH; [done|]. pose proof (budget_step c m n l Hl) as Hb. rewrite Hstep in Hb.
    by apply Hb.
  - apply IH; [done|]. destruct Hl as [Ht Hb], Hw as (Hq & Hs & Hr).
    split; [by eapply quiet_settled|]. by rewrite Hs, Hr.
Qed.

(** C31: while no health check succeeds, no switch is rolled back and the
    launcher is not disabled, the daemon of the selected slot is started at
    most [max_crashes] times, minus the crashes that were on record; once the
    last of these starts has failed the launcher is halted. *)
Theorem crash_loop_is_bounded c m l os l' :
  settled c m (tree (root l)) → running l = None → state_slot (state l) = c →
  0 ≤ crashes (state l) < max_crashes m → halted (state l) = false →
  polls l os l' → Forall (λ o, keeps_failing o = true) os →
  starts os ≤ max_crashes m - crashes (state l) ∧
  (starts os = max_crashes m - crashes (state l) → running l' = None → halted (state l') = true).
Proof.
  intros Ht Hr Hs Hc Hh Hrun Hos.
  assert (Hl : counted c m (crashes (state l)) l).
  { split; [done|]. unfold within_budget. rewrite Hr, Hh. repeat split; done || lia. }
  destruct (polls_counted c m _ _ _ _ Hrun Hos Hl) as [_ (_ & Hmax & Hhalt & Hn)].
  destruct (running l') as [child|], (halted (state l')); [done|..]; lia || (split; [lia|]); done || (intros; lia).
Qed.

(** ** Clock jumps *)

(** A daemon whose clock jumped has not timed out. *)
Lemma jump_no_timeout child m t :
  manifest_ok m → clock_discontinuity child m t = true →
  heartbeat_timed_out (polled child m t) m t = false.
Proof.
  intros [Hs Hb _ _ _] Hj. unfold heartbeat_timed_out, polled. cbn. rewrite Hj.
  unfold saturating_sub. destruct (healthy child); cbn; lia.
Qed.

(** What goes on at such a poll leaves the runner alone. *)
Definition goes_on (c : Slot) (id : Z) (r : R) (s : WatchdogState) (o : StepOutcome) l : Prop :=
  (o = StepOutcome.Running c id ∨ o = StepOutcome.Healthy c id) ∧
  runner l = r ∧ is_Some (running l) ∧ (state l = s ∨ state l = fresh_state c).

Lemma goes_on_keep c r s child l :
  child_slot child = c → runner l = r → (state l = s ∨ state l = fresh_state c) →
  ∃ l' o, keep_running child l = (l', Ok o) ∧ goes_on c (child_id child) r s o l'.
Proof.
  intros Hc Hr Hs. eexists _, _. split; [done|]. unfold goes_on. rewrite Hc.
  split; [destruct (healthy child); auto|]. by split; [|split; [eexists|]].
Qed.

(** Confirming leaves the runner alone and the state reset. *)
Lemma confirm_healthy_state c l :
  runner (confirm_healthy c l).1 = runner l ∧ state (confirm_healthy c l).1 = fresh_state c.
Proof.
  unfold confirm_healthy, save_state, mbnd, mget, mmodify, on_root, zoom. cbn [root set_root set_state set_confirmed].
  destruct (write_state _ _) as [d [[]|e]]; [|done]. cbn [root set_root set_state set_confirmed].
  destruct (read_pending d) as [d1 [[p|]|e]]; [|done..]. cbn [root set_root].
  destruct (bool_decide _); [|done].
  destruct (write_slot_pointer _ _ _) as [d2 [[]|e]]; [|done]. cbn [root set_root].
  by destruct (remove_file _ _) as [d3 [[]|e]].
Qed.

(** A poll at which the clock went backwards, or more time has passed than
    the heartbeat timeout since the last poll of a healthy daemon (the device
    slept), neither stops the daemon nor counts as a crash. *)
Theorem clock_jump_is_forgiven c m child l l' d r o :
  manifest_ok m → child_slot child = c →
  manifest_load c (root l) = (d, Ok m) →
  poll (child_id child) (runner l) = (r, Ok ChildStatus.Running) →
  clock_discontinuity child m (now_ms (clock l)).2 = true →
  step_running child l = (l', Ok o) →
  (o = StepOutcome.Running c (child_id child) ∨ o = StepOutcome.Healthy c (child_id child)) ∧
  runner l' = r ∧ is_Some (running l') ∧ (state l' = state l ∨ state l' = fresh_state c).
Proof.
  intros Hm Hc Hload Hpoll Hj. fold (goes_on c (child_id child) r (state l) o l').
  unfold step_running, mbnd at 1, on_root at 1, zoom. rewrite Hc, Hload.
  unfold mbnd at 1, on_runner at 1, zoom. cbn [runner set_root]. rewrite Hpoll.
  unfold mbnd at 1, now at 1. cbn [clock set_runner set_root].
  destruct (now_ms (clock l)) as [cl t]. cbn [snd] in Hj. cbv zeta.
  unfold mbnd at 1, on_root at 1, zoom. cbn [root set_clock set_runner set_root].
  destruct (read_heartbeat (heartbeat m) d) as [d1 [h|e]]; [|done].
  set (l1 := set_root d1 _). set (ch := polled child m t).
  assert (Hkeep : ∀ ch' l2, child_slot ch' = c → child_id ch' = child_id child → runner l2 = r →
    (state l2 = state l ∨ state l2 = fresh_state c) →
    keep_running ch' l2 = (l', Ok o) → goes_on c (child_id child) r (state l) o l').
  { intros ch' l2 Hch Hid Hr2 Hs2 Hk.
    destruct (goes_on_keep c r (state l) ch' l2 Hch Hr2 Hs2) as (l3 & o3 & Hk3 & Hg).
    rewrite Hk in Hk3. injection Hk3 as <- <-. by rewrite <-Hid. }
  destruct (advanced_heartbeat ch h) as [b|].
  - destruct (_ >=? _); [|apply Hkeep; by auto]. unfold mbnd at 1.
    destruct (healthy _); [apply Hkeep; by auto|]. unfold mbnd at 1.
    change (child_slot (beaten ch b t)) with (child_slot child). rewrite Hc.
    pose proof (confirm_healthy_state c l1) as [Hr1 Hs1].
    destruct (confirm_healthy c l1) as [l2 [[]|e]]; [|done]. apply Hkeep; [done..|by right].
  - unfold ch at 1. rewrite (jump_no_timeout child m t Hm Hj). apply Hkeep; by auto.
Qed.
End crash_loop.

(** ** The delay between two starts *)

(** Under an accepted manifest the delay before a restart starts at the
    configured delay, grows with the number of crashes and never exceeds the
    configured limit, itself at most five minutes. *)
Theorem backoff_is_bounded bs s m n :
  manifest_parse bs s = Ok m → 1 ≤ n →
  backoff_delay m 1 = backoff_initial_ms m ∧
  backoff_delay m n ≤ backoff_delay m (n + 1) ≤ backoff_max_ms m ∧
  1 ≤ backoff_delay m n ≤ 300000.
Proof.
  intros Hm Hn. apply manifest_parse_ok in Hm as [[_ _ _ _ Hb] _].
  assert (Hpow : 2 ^ Z.min (n - 1) 31 ≤ 2 ^ Z.min n 31) by (apply Z.pow_le_mono_r; lia).
  assert (Hpos : 0 < 2 ^ Z.min (n - 1) 31) by (apply Z.pow_pos_nonneg; lia).
  unfold backoff_delay, saturating_sub, saturating_mul, u64_max. cbv zeta.
  rewrite !Z.shiftl_mul_pow2, !Z.mul_1_l by lia. change (2 ^ Z.min (Z.max 0 (1 - 1)) 31) with 1.
  rewrite (Z.max_r 0 (n - 1)), (Z.max_r 0 (n + 1 - 1)), Z.add_simpl_r by lia.
  assert (Hgrow : backoff_initial_ms m * 2 ^ Z.min (n - 1) 31 ≤ backoff_initial_ms m * 2 ^ Z.min n 31)
    by (apply Z.mul_le_mono_nonneg_l; lia).
  assert (Hstart : 1 ≤ backoff_initial_ms m * 2 ^ Z.min (n - 1) 31)
    by (apply (Z.mul_le_mono_nonneg 1 _ 1); lia).
  revert Hgrow Hstart. generalize (backoff_initial_ms m * 2 ^ Z.min (n - 1) 31),
    (backoff_initial_ms m * 2 ^ Z.min n 31). lia.
Qed.

(** ** A daemon that exits at once, and one that sleeps *)

Module Loop.

#[local] Instance sample_runner : ChildRunner unit :=
  {| spawn _ := mret 1; poll id := mret (if id =? 1 then ChildStatus.Exited None else ChildStatus.Running);
     terminate _ := mret tt |}.
#[local] Instance sample_clock : Clock Z := {| now_ms t := (t + 6000, t); sleep_ms n t := t + n |}.
#[local] Instance sample_flag : DisableFlag unit := {| is_disabled := mret false |}.

Definition launcher (t : Z) : Launcher unit Z unit :=
  {| root := Sample.installed; runner := tt; clock := t; disable := tt;
     state := fresh_state Slot.A; running := None; instance_counter := 0; confirmed := [] |}.
Definition after (n : nat) : Launcher unit Z unit := Nat.iter n (λ l, (step l).1) (launcher 0).
Definition outcomes : list StepOutcome :=
  [StepOutcome.Started Slot.A 1; StepOutcome.BackingOff Slot.A 6100;
   StepOutcome.Started Slot.A 1; StepOutcome.BackingOff Slot.A 18200;
   StepOutcome.Started Slot.A 1; StepOutcome.Halted Slot.A 3].
Definition manifest : SlotManifest :=
  {| manifest_slot := Slot.A; executable := text "bin/kindlebridged";
     heartbeat := text "run/heartbeat"; startup_timeout_ms := 10000;
     heartbeat_timeout_ms := 10000; healthy_after_ms := 10000; max_crashes := 3;
     backoff_initial_ms := 100; backoff_max_ms := 1000 |}.

Lemma installed_ok : tree_ok (tree Sample.installed).
Proof. apply tree_ok_forall. apply (bool_decide_unpack _). by vm_compute. Qed.

Lemma advance n o : (step (after n)).2 = Ok o → step (after n) = (after (S n), Ok o).
Proof. apply pair_second. Qed.

Lemma polled_steps : polls (after 0) outcomes (after 6).
Proof.
  do 6 (eapply polls_step; [apply advance; by vm_compute|]).
  apply polls_none.
Qed.

Lemma crash_loop_is_bounded_witness :
  starts outcomes = 3 ∧
  (starts outcomes ≤ max_crashes manifest - 0 ∧
   (starts outcomes = max_crashes manifest - 0 → running (after 6) = None →
    halted (state (after 6)) = true)).
Proof.
  split; [by vm_compute|].
  refine (crash_loop_is_bounded Slot.A manifest (after 0) outcomes (after 6) _ eq_refl eq_refl
    _ eq_refl polled_steps _).
  - split; [exact installed_ok|]. by vm_compute.
  - by vm_compute.
  - apply (bool_decide_unpack _). by vm_compute.
Defined.

(** A healthy daemon, last polled an hour before. *)
Definition sleeper : RunningChild :=
  {| child_id := 2; child_slot := Slot.A; started_ms := 0; last_poll_ms := 0;
     instance := text "i"; last_heartbeat_timestamp_ms := Some 0; first_heartbeat_ms := Some 0;
     last_valid_heartbeat_ms := Some 0; healthy := true |}.

Lemma clock_jump_is_forgiven_witness :
  let run := step_running sleeper (launcher 3600000) in
  run.2 = Ok (StepOutcome.Healthy Slot.A 2) ∧
  ((StepOutcome.Healthy Slot.A 2 = StepOutcome.Running Slot.A 2 ∨
   StepOutcome.Healthy Slot.A 2 = StepOutcome.Healthy Slot.A 2) ∧
  runner run.1 = tt ∧ is_Some (running run.1) ∧
  (state run.1 = fresh_state Slot.A ∨ state run.1 = fresh_state Slot.A)).
Proof.
  assert (Hrun : (step_running sleeper (launcher 3600000)).2 = Ok (StepOutcome.Healthy Slot.A 2))
    by (by vm_compute).
  split; [exact Hrun|].
  refine (clock_jump_is_forgiven Slot.A manifest sleeper (launcher 3600000)
    (step_running sleeper (launcher 3600000)).1 (manifest_load Slot.A Sample.installed).1 tt
    (StepOutcome.Healthy Slot.A 2) _ eq_refl _ eq_refl _ _).
  - split; cbn; lia.
  - apply pair_second. by vm_compute.
  - by vm_compute.
  - exact (pair_second _ _ Hrun).
Defined.

Lemma backoff_is_bounded_witness :
  backoff_delay manifest 1 = 100 ∧
  backoff_delay manifest 4 ≤ backoff_delay manifest (4 + 1) ≤ 1000 ∧
  1 ≤ backoff_delay manifest 4 ≤ 300000.
Proof.
  refine (backoff_is_bounded (slot_manifest Slot.A) Slot.A manifest 4 _ _); [by vm_compute|lia].
Defined.

End Loop.
