(* ===== verification/FileHandles.v ===== *)
(** * Open files

    What the sync code uses of [std::fs::File]: reading and writing at a cursor,
    truncation, [File::create] and [fs::create_dir_all].  A handle names its file
    by its path: nobody renames or removes a file while a transfer has it open. *)

From S2P Require Import Prelude Files.
Local Open Scope Z_scope.

Record Handle : Type := {
  handle_path : path;
  cursor : nat;
}.

(** [read] may return fewer bytes than asked for, but none only at the end of the
    file; how many is up to the system. *)
Class ReadSize := {
  read_size : nat → nat → nat;
  read_size_bounds : ∀ position limit, (0 < limit)%nat →
    (0 < read_size position limit ≤ limit)%nat;
}.
#[export] Instance full_reads : ReadSize | 20 :=
  {| read_size position limit := limit; read_size_bounds _ limit H := conj H (le_n limit) |}.

Section handle_calls.
Context {E : Type} `{io : FromIo E}.

(** [File::open] and [OpenOptions::open] of a file that must exist. *)
Definition open_file (p : path) : M Disk E Handle :=
  let! n := metadata p in
  match n with
  | Regular _ _ => mret {| handle_path := p; cursor := 0 |}
  | _ => mfail (from_io OtherIo)
  end.

(** [File::create]: a file that exists is emptied. *)
Definition file_create (p : path) : M Disk E Handle :=
  do! gate in
  let! d := mget in
  match stat (tree d) p, stat (tree d) (parent p) with
  | Ok (Regular _ x), _ =>
      do! mmodify (set_tree (<[p := Regular [] x]> (tree d))) in
      mret {| handle_path := p; cursor := 0 |}
  | Ok _, _ => mfail (from_io OtherIo)
  | Err NotFound, Ok Directory =>
      do! mmodify (set_tree (<[p := Regular [] false]> (tree d))) in
      mret {| handle_path := p; cursor := 0 |}
  | Err e, _ => mfail (from_io e)
  end.

(** The file a handle refers to. *)
Definition handle_file (h : Handle) : M Disk E (bytes * bool) :=
  let! d := mget in
  match tree d !! handle_path h with
  | Some (Regular content x) => mret (content, x)
  | _ => mfail (from_io OtherIo)
  end.

(** The contents of a file after [data] is written at [at_]; a gap is filled with
    zeros. *)
Definition written (at_ : nat) (data content : bytes) : bytes :=
  take at_ content ++ replicate (at_ - length content) x00 ++ data ++
  drop (at_ + length data) content.

(** [Write::write_all]; a write that fails has written [n] bytes.  The cursor is
    behind the bytes written, whether the call fails or not. *)
Definition handle_write (h : Handle) (data : bytes) : M Disk E (Handle * bool) :=
  let! f := next_fault in
  let! file := handle_file h in
  let data := match f with Some n => take n data | None => data end in
  do! mmodify (λ d, set_tree (<[handle_path h := Regular (written (cursor h) data file.1) file.2]>
                                (tree d)) d) in
  mret ({| handle_path := handle_path h; cursor := cursor h + length data |},
        match f with Some _ => false | None => true end).

Definition handle_write_all (h : Handle) (data : bytes) : M Disk E Handle :=
  let! r := handle_write h data in
  if r.2 then mret r.1 else mfail (from_io OtherIo).

(** [Read::read] into a buffer of [limit] bytes. *)
Definition handle_read `{ReadSize} (h : Handle) (limit : nat) : M Disk E (Handle * bytes) :=
  do! gate in
  let! file := handle_file h in
  let data := take (read_size (cursor h) limit) (drop (cursor h) file.1) in
  mret ({| handle_path := handle_path h; cursor := cursor h + length data |}, data).

(** [file.metadata()?.len()]. *)
Definition handle_len (h : Handle) : M Disk E Z :=
  do! gate in
  let! file := handle_file h in
  mret (len file.1).

(** [File::set_len]; the cursor stays. *)
Definition set_len (h : Handle) (n : Z) : M Disk E unit :=
  do! gate in
  let! file := handle_file h in
  let content := take (Z.to_nat n) file.1 ++ replicate (Z.to_nat n - length file.1) x00 in
  mmodify (λ d, set_tree (<[handle_path h := Regular content file.2]> (tree d)) d).

(** [Seek::seek] from the start and to the end. *)
Definition seek_start (h : Handle) (offset : Z) : M Disk E Handle :=
  do! gate in mret {| handle_path := handle_path h; cursor := Z.to_nat offset |}.
Definition seek_end (h : Handle) : M Disk E Handle :=
  do! gate in
  let! file := handle_file h in
  mret {| handle_path := handle_path h; cursor := length file.1 |}.

(** [File::sync_data]. *)
Definition sync_data : M Disk E unit := gate.

(** [fs::create_dir_all]: [mkdir] is tried first, and a directory that exists
    already is not an error. *)
Definition mkdir_or_dir (p : path) (missing : M Disk E unit) : M Disk E unit :=
  do! gate in
  let! d := mget in
  match stat (tree d) p, stat (tree d) (parent p) with
  | Ok Directory, _ => mret tt
  | Ok _, _ => mfail (from_io AlreadyExists)
  | Err NotFound, Ok Directory => mmodify (set_tree (<[p := Directory]> (tree d)))
  | Err NotFound, _ => missing
  | Err e, _ => mfail (from_io e)
  end.
(** What lies above the root is not modelled. *)
Definition root_dir : M Disk E unit :=
  do! gate in
  let! d := mget in
  match stat (tree d) [] with
  | Ok Directory => mret tt
  | Ok _ => mfail (from_io AlreadyExists)
  | Err _ => mmodify (set_tree (<[[] := Directory]> (tree d)))
  end.
Fixpoint create_dirs (n : nat) (p : path) : M Disk E unit :=
  match p with
  | [] => root_dir
  | _ =>
      mkdir_or_dir p
        match n with
        | O => mfail (from_io NotFound)
        | S n => do! create_dirs n (parent p) in mkdir_or_dir p (mfail (from_io NotFound))
        end
  end.
Definition create_dir_all (p : path) : M Disk E unit := create_dirs (length p) p.

(** [match call { Ok(..) => .., Err(error) if error.kind() == .. => .. }]. *)
Definition catch_io {A} (m : M Disk IoErrorKind A) : M Disk E (result IoErrorKind A) := λ d,
  let '(d', r) := m d in (d', Ok r).

End handle_calls.

(** ** Triples *)

Section handle_triples.
Context {E : Type} `{io : FromIo E}.
Implicit Types (t : gmap path Node) (h : Handle).

Lemma looks_catch_io {A} (m : M Disk IoErrorKind A) φ :
  looks m φ → looks (catch_io m : M Disk E _) (λ t r, ∀ a, r = Ok a → φ t a).
Proof.
  intros Hm t d Hd. specialize (Hm t d Hd). unfold catch_io.
  destruct (m d) as [d' [a|e]]; [|done]. destruct Hm as [Hd' Ha]. split; [done|]. by intros ? [= <-].
Qed.

Lemma hoare_catch_io {A} (m : M Disk IoErrorKind A) P Q (C D : Disk → Prop) :
  hoare P m Q C →
  hoare P (catch_io m : M Disk E _) (λ r d, match r with Ok a => Q a d | Err _ => C d end) D.
Proof.
  intros Hm d Hd. specialize (Hm d Hd). unfold catch_io. by destruct (m d) as [d' [a|e]].
Qed.

Lemma looks_open_file p :
  looks (open_file p : M Disk E Handle)
    (λ t h, h = {| handle_path := p; cursor := 0 |} ∧ ∃ c x, stat t p = Ok (Regular c x)).
Proof.
  eapply looks_bind with (ψ := λ n _ h, h = {| handle_path := p; cursor := 0 |} ∧ is_file n = true).
  - apply looks_metadata.
  - intros []; [by apply looks_ret|apply looks_fail..].
  - intros t n h Hn [-> Hf]. split; [done|]. destruct n; try done. eauto.
Qed.

Lemma hoare_file_create p t :
  hoare (on_tree t) (file_create p : M Disk E Handle)
    (λ h d, h = {| handle_path := p; cursor := 0 |} ∧
       ∃ x, on_tree (<[p := Regular [] x]> t) d ∧
            ((∃ c, stat t p = Ok (Regular c x)) ∨
             stat t p = Err NotFound ∧ stat t (parent p) = Ok Directory))
    (on_tree t).
Proof.
  eapply hoare_bind; [apply hoare_gate|]. intros [] d Hd. cbn. unfold on_tree in Hd. rewrite Hd.
  destruct (stat t p) as [[c x| |]|[]], (stat t (parent p)) as [[]|]; cbn; try done;
    (split; [done|]); eexists; (split; [done|]); eauto.
Qed.

Lemma looks_handle_file h :
  looks (handle_file h : M Disk E _) (λ t f, t !! handle_path h = Some (Regular f.1 f.2)).
Proof.
  intros t d Hd. unfold handle_file, mbnd. cbn. unfold on_tree in Hd. rewrite Hd.
  by destruct (t !! handle_path h) as [[]|]; cbn.
Qed.

Lemma hoare_handle_write h data t c x :
  t !! handle_path h = Some (Regular c x) →
  hoare (on_tree t) (handle_write h data : M Disk E _)
    (λ r d, ∃ part, part `prefix_of` data ∧ (r.2 = true → part = data) ∧
       r.1 = {| handle_path := handle_path h; cursor := cursor h + length part |} ∧
       on_tree (<[handle_path h := Regular (written (cursor h) part c) x]> t) d)
    (on_tree t).
Proof.
  intros Hf. eapply hoare_look; [apply looks_next_fault|done|]. intros f _ d Hd.
  unfold handle_file, mbnd. cbn. unfold on_tree in *. rewrite Hd, Hf. cbn. rewrite Hd.
  exists (match f with Some n => take n data | None => data end). split_and!; [|by destruct f|done..].
  destruct f as [n|]; [|done]. exists (drop n data). by rewrite take_drop.
Qed.

Lemma hoare_handle_write_all h data t c x :
  t !! handle_path h = Some (Regular c x) →
  hoare (on_tree t) (handle_write_all h data : M Disk E _)
    (λ _, on_tree (<[handle_path h := Regular (written (cursor h) data c) x]> t))
    (λ d, on_tree t d ∨ ∃ c', on_tree (<[handle_path h := Regular c' x]> t) d).
Proof.
  intros Hf. eapply hoare_call; [by apply hoare_handle_write|by left|].
  intros [h' []] d (part & _ & Hall & _ & Hd); cbn.
  - by rewrite (Hall eq_refl) in Hd.
  - right. eauto.
Qed.

Lemma looks_handle_read `{ReadSize} h limit :
  looks (handle_read h limit : M Disk E _) (λ t r, ∃ c x, t !! handle_path h = Some (Regular c x) ∧
    r.2 = take (read_size (cursor h) limit) (drop (cursor h) c) ∧
    r.1 = {| handle_path := handle_path h; cursor := cursor h + length r.2 |}).
Proof.
  eapply looks_seq; [apply looks_gate|]. intros [].
  eapply looks_bind; [apply looks_handle_file| |].
  - intros f. apply (looks_ret _ (λ _ r, r.2 = take (read_size (cursor h) limit) (drop (cursor h) f.1) ∧
      r.1 = {| handle_path := handle_path h; cursor := cursor h + length r.2 |})). done.
  - intros t [c x] r Hf Hr. eauto.
Qed.

Lemma looks_handle_len h :
  looks (handle_len h : M Disk E Z)
    (λ t n, ∃ c x, t !! handle_path h = Some (Regular c x) ∧ n = len c).
Proof.
  eapply looks_seq; [apply looks_gate|]. intros [].
  eapply looks_bind; [apply looks_handle_file| |].
  - intros f. by apply (looks_ret _ (λ _ n, n = len f.1)).
  - intros t [c x] n Hf ->. eauto.
Qed.

Lemma hoare_set_len h n t c x :
  t !! handle_path h = Some (Regular c x) →
  hoare (on_tree t) (set_len h n : M Disk E unit)
    (λ _, on_tree (<[handle_path h :=
             Regular (take (Z.to_nat n) c ++ replicate (Z.to_nat n - length c) x00) x]> t))
    (on_tree t).
Proof.
  intros Hf. eapply hoare_bind; [apply hoare_gate|]. intros [] d Hd.
  unfold handle_file, mbnd. cbn. unfold on_tree in *. rewrite Hd, Hf. cbn. by rewrite Hd.
Qed.

Lemma looks_seek_start h n :
  looks (seek_start h n : M Disk E Handle)
    (λ _ h', h' = {| handle_path := handle_path h; cursor := Z.to_nat n |}).
Proof. eapply looks_seq; [apply looks_gate|]. intros []. by apply looks_ret. Qed.

Lemma looks_seek_end h :
  looks (seek_end h : M Disk E Handle)
    (λ t h', ∃ c x, t !! handle_path h = Some (Regular c x) ∧
                    h' = {| handle_path := handle_path h; cursor := length c |}).
Proof.
  eapply looks_seq; [apply looks_gate|]. intros [].
  eapply looks_bind; [apply looks_handle_file| |].
  - intros f. by apply (looks_ret _ (λ _ h', h' = {| handle_path := handle_path h; cursor := length f.1 |})).
  - intros t [c x] h' Hf ->. eauto.
Qed.

(** Appending at the end. *)
Lemma written_end (c data : bytes) : written (length c) data c = c ++ data.
Proof.
  unfold written. rewrite firstn_all, Nat.sub_diag, drop_ge by lia. simpl. by rewrite app_nil_r.
Qed.

Lemma written_empty (data : bytes) : written 0 data [] = data.
Proof. apply (written_end []). Qed.

End handle_triples.

(** ** Directories on the way *)

(** Directories above [p] were made. *)
Record dirs_made (p : path) (t t' : gmap path Node) : Prop := {
  dirs_tree : tree_ok t';
  dirs_other : ∀ q, t' !! q = t !! q ∨ (t !! q = None ∧ t' !! q = Some Directory ∧ q `prefix_of` p);
}.
Lemma dirs_made_refl p t : tree_ok t → dirs_made p t t.
Proof. intros Ht. split; auto. Qed.
Lemma dirs_made_trans p t1 t2 t3 : dirs_made p t1 t2 → dirs_made p t2 t3 → dirs_made p t1 t3.
Proof.
  intros [_ H12] [H3 H23]. split; [done|]. intros q.
  destruct (H12 q) as [Hq|(Hn & Hd & Hp)], (H23 q) as [Hq'|(Hn' & Hd' & Hp')]; [left|right|right|]; try congruence.
  - by rewrite <-Hq.
  - split_and!; [done| |done]. congruence.
Qed.
Lemma dirs_made_weaken p p' t t' : p `prefix_of` p' → dirs_made p t t' → dirs_made p' t t'.
Proof.
  intros Hpre [Ht Ho]. split; [done|]. intros q. destruct (Ho q) as [|(? & ? & ?)]; [by left|].
  right. split_and!; [done..|by etrans].
Qed.

Lemma parent_prefix p : parent p `prefix_of` p.
Proof. unfold parent. exists (drop (length p - 1) p). by rewrite take_drop. Qed.

Lemma dirs_made_insert p t :
  tree_ok t → t !! p = None → p = [] ∨ t !! parent p = Some Directory → dirs_made p t (<[p := Directory]> t).
Proof.
  intros Ht Hn Hpar. split.
  - apply tree_ok_insert; [done..|]. congruence.
  - intros q. destruct (decide (p = q)) as [<-|]; [|left; by rewrite lookup_insert_ne].
    right. by rewrite lookup_insert_eq.
Qed.

Section directories.
Context {E : Type} `{io : FromIo E}.
Lemma hoare_mkdir_or_dir p t (missing : M Disk E unit) :
  tree_ok t → hoare (on_tree t) missing (λ _ d, dirs_made p t (tree d)) (λ d, dirs_made p t (tree d)) →
  hoare (on_tree t) (mkdir_or_dir p missing) (λ _ d, dirs_made p t (tree d)) (λ d, dirs_made p t (tree d)).
Proof.
  intros Ht Hm. assert (Hsame : ∀ d, on_tree t d → dirs_made p t (tree d)) by (intros d ->; by apply dirs_made_refl).
  eapply hoare_step; [apply hoare_gate|done|]. intros [] d Hd. unfold mbnd, mget.
  specialize (Hm d Hd). pose proof (Hsame d Hd) as Hs. unfold on_tree in Hd. rewrite Hd.
  destruct (stat t p) as [[]|[]] eqn:Hst; try exact Hs; destruct (stat t (parent p)) as [[]|] eqn:Hpar;
    try exact Hm; try exact Hs.
  cbn. rewrite ?Hd. apply dirs_made_insert; [done|by eapply stat_not_found|]. right. by apply stat_lookup.
Qed.

Lemma hoare_create_dirs n p t :
  tree_ok t → hoare (on_tree t) (create_dirs n p) (λ _ d, dirs_made p t (tree d)) (λ d, dirs_made p t (tree d)).
Proof.
  revert p t. induction n as [|n IH]; intros p t Ht; (destruct p as [|name p];
    [change (hoare (on_tree t) root_dir (λ _ d, dirs_made [] t (tree d)) (λ d, dirs_made [] t (tree d)));
     eapply hoare_step; [apply hoare_gate|intros d ->; by apply dirs_made_refl|]; intros [] d Hd; unfold mbnd, mget, on_tree in *;
     rewrite Hd; destruct (stat t []) as [[]|] eqn:Hs; cbn; rewrite ?Hd; try (by apply dirs_made_refl);
     apply dirs_made_insert; [done|by eapply stat_not_found|by left]|]);
    cbn [create_dirs]; apply hoare_mkdir_or_dir; try done.
  - apply hoare_fail. intros d ->. by apply dirs_made_refl.
  - eapply hoare_step; [by apply IH|intros d Hd; eapply dirs_made_weaken, Hd; apply parent_prefix|].
    intros []. apply hoare_any. intros d0 Hd0.
    eapply (dirs_made_weaken _ (name :: p)) in Hd0; [|apply parent_prefix].
    eapply hoare_conseq; [apply (hoare_mkdir_or_dir (name :: p) (tree d0) (mfail (from_io NotFound)))| | |].
    + apply Hd0.
    + apply hoare_fail. intros d ->. apply dirs_made_refl, Hd0.
    + by intros d ->.
    + intros [] d Hd. by eapply dirs_made_trans.
    + intros d Hd. by eapply dirs_made_trans.
Qed.
Lemma hoare_create_dir_all p t :
  tree_ok t → hoare (on_tree t) (create_dir_all p) (λ _ d, dirs_made p t (tree d)) (λ d, dirs_made p t (tree d)).
Proof. apply hoare_create_dirs. Qed.
End directories.


(** ** Without faults

    [evals t m r t']: on a disk with the tree [t] and no faults to come, [m] returns
    [r] and leaves the tree [t']. *)
Definition clear (t : gmap path Node) (d : Disk) : Prop := tree d = t ∧ faults d = [].
Definition evals {E A : Type} (t : gmap path Node) (m : M Disk E A) (r : result E A) (t' : gmap path Node) :
    Prop :=
  ∀ d, clear t d → ∃ d', m d = (d', r) ∧ clear t' d'.

Section evaluation.
Context {E : Type} `{io : FromIo E}.
Implicit Types (t : gmap path Node) (h : Handle).

Lemma evals_bind {A B : Type} t t1 t2 (m : M Disk E A) (k : A → M Disk E B) a r :
  evals t m (Ok a) t1 → evals t1 (k a) r t2 → evals t (mbnd m k) r t2.
Proof.
  intros Hm Hk d Hd. destruct (Hm d Hd) as (d1 & Hrun & Hd1). unfold mbnd. rewrite Hrun. by apply Hk.
Qed.
Lemma evals_stop {A B : Type} t t1 (m : M Disk E A) (k : A → M Disk E B) e :
  evals t m (Err e) t1 → evals t (mbnd m k) (Err e) t1.
Proof.
  intros Hm d Hd. destruct (Hm d Hd) as (d1 & Hrun & Hd1). exists d1. unfold mbnd. by rewrite Hrun.
Qed.
Lemma evals_ret {A : Type} t (a : A) : evals t (mret a : M Disk E A) (Ok a) t.
Proof. intros d Hd. by exists d. Qed.
Lemma evals_fail {A : Type} t (e : E) : evals t (mfail e : M Disk E A) (Err e) t.
Proof. intros d Hd. by exists d. Qed.
Lemma evals_lift {A : Type} t (r : result E A) : evals t (mlift r) r t.
Proof. intros d Hd. by exists d. Qed.
Lemma evals_gate t : evals t (gate : M Disk E unit) (Ok tt) t.
Proof. intros d [Ht Hf]. exists d. by rewrite gate_clear. Qed.

(** Looking at the tree. *)
Lemma evals_get {A : Type} t (k : Disk → M Disk E A) r t' :
  (∀ d0, tree d0 = t → evals t (k d0) r t') → evals t (mbnd mget k) r t'.
Proof. intros Hk d Hd. unfold mbnd, mget. apply Hk; [by destruct Hd|done]. Qed.
Lemma evals_set t t' : evals t (mmodify (set_tree t') : M Disk E unit) (Ok tt) t'.
Proof. intros d [Ht Hf]. eexists. split; [done|]. by split. Qed.

Lemma evals_symlink_metadata t p :
  evals t (symlink_metadata p : M Disk E Node) (map_err from_io (stat t p)) t.
Proof.
  eapply evals_bind; [apply evals_gate|]. apply evals_get. intros d ->. apply evals_lift.
Qed.
Lemma evals_metadata t p n :
  stat t p = Ok n → is_symlink n = false → evals t (metadata p : M Disk E Node) (Ok n) t.
Proof.
  intros Hn Hs. unfold metadata. eapply evals_bind.
  - pose proof (evals_symlink_metadata t p) as Hm. rewrite Hn in Hm. exact Hm.
  - destruct n; [apply evals_ret..|done].
Qed.
Lemma evals_read_node t p c x :
  stat t p = Ok (Regular c x) → evals t (read_node p : M Disk E bytes) (Ok c) t.
Proof. intros Hn. eapply evals_bind; [by apply evals_metadata|]. apply evals_ret. Qed.
Lemma evals_open_file t p c x :
  stat t p = Ok (Regular c x) →
  evals t (open_file p : M Disk E Handle) (Ok {| handle_path := p; cursor := 0 |}) t.
Proof. intros Hn. eapply evals_bind; [by apply evals_metadata|]. apply evals_ret. Qed.
Lemma evals_catch {A : Type} t (m : M Disk IoErrorKind A) r t' :
  evals t m r t' → evals t (catch_io m : M Disk E _) (Ok r) t'.
Proof.
  intros Hm d Hd. destruct (Hm d Hd) as (d' & Hrun & Hd'). exists d'. unfold catch_io. by rewrite Hrun.
Qed.

Lemma evals_file_create t p :
  (∃ c x, stat t p = Ok (Regular c x)) ∨ (stat t p = Err NotFound ∧ stat t (parent p) = Ok Directory) →
  ∃ x, evals t (file_create p : M Disk E Handle) (Ok {| handle_path := p; cursor := 0 |})
         (<[p := Regular [] x]> t).
Proof.
  intros [(c & x & Hp)|[Hp Hpar]]; [exists x|exists false];
    (eapply evals_bind; [apply evals_gate|]); apply evals_get; intros d0 <-; rewrite Hp, ?Hpar;
    (eapply evals_bind; [by apply evals_set|]); apply evals_ret.
Qed.

Lemma evals_handle_file t h c x :
  t !! handle_path h = Some (Regular c x) → evals t (handle_file h : M Disk E _) (Ok (c, x)) t.
Proof. intros Hf. apply evals_get. intros d ->. rewrite Hf. apply evals_ret. Qed.

Lemma evals_next_fault t : evals t (next_fault : M Disk E _) (Ok None) t.
Proof. intros d [Ht Hf]. exists d. unfold next_fault. by rewrite Hf. Qed.

Lemma evals_update t (f : gmap path Node → gmap path Node) :
  evals t (mmodify (λ d, set_tree (f (tree d)) d) : M Disk E unit) (Ok tt) (f t).
Proof. intros d [Ht Hf]. eexists. split; [done|]. split; [|done]. simpl. by rewrite Ht. Qed.

Lemma evals_handle_write t h data c x :
  t !! handle_path h = Some (Regular c x) →
  evals t (handle_write h data : M Disk E _)
    (Ok ({| handle_path := handle_path h; cursor := cursor h + length data |}, true))
    (<[handle_path h := Regular (written (cursor h) data c) x]> t).
Proof.
  intros Hf. eapply evals_bind; [apply evals_next_fault|].
  eapply evals_bind; [by apply evals_handle_file|].
  eapply evals_bind; [|apply evals_ret].
  apply (evals_update _ (λ t, <[handle_path h := Regular (written (cursor h) data c) x]> t)).
Qed.
Lemma evals_handle_write_all t h data c x :
  t !! handle_path h = Some (Regular c x) →
  evals t (handle_write_all h data : M Disk E _)
    (Ok {| handle_path := handle_path h; cursor := cursor h + length data |})
    (<[handle_path h := Regular (written (cursor h) data c) x]> t).
Proof. intros Hf. eapply evals_bind; [by apply evals_handle_write|]. apply evals_ret. Qed.

Lemma evals_handle_read `{ReadSize} t h limit c x :
  t !! handle_path h = Some (Regular c x) →
  let data := take (read_size (cursor h) limit) (drop (cursor h) c) in
  evals t (handle_read h limit : M Disk E _)
    (Ok ({| handle_path := handle_path h; cursor := cursor h + length data |}, data)) t.
Proof.
  intros Hf data. eapply evals_bind; [apply evals_gate|].
  eapply evals_bind; [by apply evals_handle_file|]. apply evals_ret.
Qed.
Lemma evals_handle_len t h c x :
  t !! handle_path h = Some (Regular c x) → evals t (handle_len h : M Disk E Z) (Ok (len c)) t.
Proof.
  intros Hf. eapply evals_bind; [apply evals_gate|].
  eapply evals_bind; [by apply evals_handle_file|]. apply evals_ret.
Qed.
Lemma evals_seek_start t h n :
  evals t (seek_start h n : M Disk E Handle)
    (Ok {| handle_path := handle_path h; cursor := Z.to_nat n |}) t.
Proof. eapply evals_bind; [apply evals_gate|]. apply evals_ret. Qed.
Lemma evals_seek_end t h c x :
  t !! handle_path h = Some (Regular c x) →
  evals t (seek_end h : M Disk E Handle)
    (Ok {| handle_path := handle_path h; cursor := length c |}) t.
Proof.
  intros Hf. eapply evals_bind; [apply evals_gate|].
  eapply evals_bind; [by apply evals_handle_file|]. apply evals_ret.
Qed.

Lemma evals_rename t from to n :
  stat t from = Ok n → n ≠ Directory → stat t (parent to) = Ok Directory → stat t to ≠ Ok Directory →
  evals t (rename from to : M Disk E unit) (Ok tt) (<[to := n]> (delete from t)).
Proof.
  intros Hn Hd Hpar Hto. eapply evals_bind; [apply evals_gate|]. apply evals_get. intros d <-.
  rewrite Hn, Hpar. destruct n; [|done|]; (destruct (stat _ to) as [[]|]; [|done|..]);
    by apply evals_set.
Qed.

Lemma evals_create_dir t p :
  stat t p = Err NotFound → stat t (parent p) = Ok Directory →
  evals t (create_dir p : M Disk E unit) (Ok tt) (<[p := Directory]> t).
Proof.
  intros Hp Hpar. eapply evals_bind; [apply evals_gate|]. apply evals_get. intros d <-.
  rewrite Hp, Hpar. by apply evals_set.
Qed.

Lemma evals_read_dir `{DirOrder} t p :
  stat t p = Ok Directory → evals t (read_dir p : M Disk E _) (Ok (dir_order (children t p))) t.
Proof.
  intros Hp. eapply evals_bind; [by apply evals_metadata|]. apply evals_get. intros d ->.
  apply evals_ret.
Qed.

End evaluation.
