(* ===== verification/DeviceInstall.v ===== *)
(** * Installation of applications: src/crates/kindlebridge-bundle/src/device_install.rs

    [ingest_verified_blocks] copies the blocks of a verified bundle into the install store;
    [materialize_verified_application] rebuilds the application's files from them in
    [images/], next to the store's own directories, and [load_materialized_application]
    opens such an image again.  Files are those of [Files.v], in which any system call may
    fail; serialization and BLAKE3 are crates: parameters. *)

From S2P Require Import Prelude Text Files InstallStore InstallSafety FileHandles.
From S2P Require Import BundleError Paths Utf8 BundleHeader Cbor BundleModel Verify Activation.

Definition RUNTIME_MANIFEST_SCHEMA : Z := 1.
Definition MAX_RUNTIME_MANIFEST_BYTES : Z := 64 * 1024.

Record RuntimeManifest : Type := {
  manifest_schema : Z;
  manifest_app_id : str;
  manifest_version : str;
  manifest_bundle_root : Digest;
  main_entrypoint : str;
  main_size : Z;
  main_digest : Digest;
  manifest_process : ProcessPolicy;
  manifest_data : DataPolicy;
}.

Record MaterializedApplication : Type := {
  application_id : str;
  app_version : str;
  app_bundle_root : Digest;
  image_root : Files.path;
  main : Files.path;
  app_process : ProcessPolicy;
  app_data : DataPolicy;
}.

Abbreviation device_op A := (M Disk Fault A).

(** [From<io::Error>]; a call of the store, whose errors are the same. *)
#[export] Instance fault_from_io : FromIo Fault := λ e, Failed (from_io e).
Definition stored {A} (m : install_op A) : device_op A := λ d,
  let '(d, r) := m d in (d, map_err Failed r).
Definition device_error {A} (c : ErrorCode) (m : string) : device_op A :=
  mfail (Failed (error_new c m)).

(** ** Paths *)

Definition IMAGES : bytes := text "images".
Definition ROOT : bytes := text "root".
Definition RUNTIME : bytes := text "runtime.cbor".

Definition images_dir : Files.path := [IMAGES].
Definition image_dir (bundle_root : Digest) : Files.path := [IMAGES; digest_hex bundle_root].
Definition staging_dir (bundle_root : Digest) : Files.path :=
  [IMAGES; text ".staging-" ++ digest_hex bundle_root].

(** [Path::join] of a relative bundle path. *)
Definition components (p : str) : Files.path := utf8 <$> split SLASH p.
Definition join_path (dir : Files.path) (p : str) : Files.path := dir ++ components p.

(** ** Files *)

(** [set_file_mode] and [set_directory_mode]: the mode of a file is whether it can be
    executed.  Modes of directories are not part of the tree: of [set_directory_mode] it is
    the call, where it is made and that it may fail, that is modelled. *)
Definition set_file_mode (p : Files.path) (executable : bool) : device_op unit :=
  do! gate in
  let! d := mget in
  match stat (tree d) p with
  | Ok (Regular content _) => mmodify (set_tree (<[p := Regular content executable]> (tree d)))
  | Ok _ => mret tt
  | Err e => mfail (from_io e)
  end.
Definition set_directory_mode (p : Files.path) : device_op unit :=
  do! gate in
  let! d := mget in
  match stat (tree d) p with
  | Ok _ => mret tt
  | Err e => mfail (from_io e)
  end.

(** [create_relative_symlink]. *)
Definition create_relative_symlink (target : str) (p : Files.path) : device_op unit :=
  do! gate in
  let! d := mget in
  match stat (tree d) p, stat (tree d) (parent p) with
  | Ok _, _ => mfail (from_io AlreadyExists)
  | Err NotFound, Ok Directory => mmodify (set_tree (<[p := Symlink (utf8 target)]> (tree d)))
  | Err e, _ => mfail (from_io e)
  end.

(** [sync_directory]. *)
Definition sync_directory (p : Files.path) : device_op unit :=
  let! _ := metadata p in
  sync_all.

(** [ensure_plain_directory]. *)
Definition ensure_plain_directory (p : Files.path) : device_op unit :=
  let! r := catch_io (symlink_metadata p) in
  match r with
  | Ok Directory => mret tt
  | Ok _ => device_error ErrorCode.Path "materialization root is not a plain directory"
  | Err NotFound => create_dir p
  | Err e => mfail (from_io e)
  end.

(** [fs::remove_dir_all] of the standard library: links are removed, not followed. *)
Section removal.
Context `{DirOrder}.

Definition remove_child (remove_below : Files.path → device_op unit) (p : Files.path) (name : bytes) :
    device_op unit :=
  let! n := symlink_metadata (p ++ [name]) in
  if is_dir n then remove_below (p ++ [name]) else unlink (p ++ [name]).
Fixpoint remove_all_below (fuel : nat) (p : Files.path) : device_op unit :=
  match fuel with
  | O => mfail (from_io OtherIo)
  | S fuel =>
      let! names := read_dir p in
      do! mforeach (remove_child (remove_all_below fuel) p) names in
      remove_dir p
  end.
Definition remove_dir_all (p : Files.path) : device_op unit :=
  let! n := symlink_metadata p in
  if is_symlink n then unlink p else
  let! d := mget in
  remove_all_below (tree_depth (tree d)) p.
End removal.

Section device_install.
Context `{DirOrder, PointerWidth, Ed25519, Zstd, Semver}.
Context `{Serde ActivationGeneration, Serde TransactionJournal, Serde RuntimeManifest}.
Context (blake3 : bytes → bytes) (nfc : str → str).
(** Whether a symbolic link leads somewhere. *)
Context (link_resolves : Files.path → bool).

(** [Path::exists]. *)
Definition path_exists (p : Files.path) : device_op bool :=
  let! r := catch_io (symlink_metadata p) in
  mret match r with
       | Ok (Symlink _) => link_resolves p
       | Ok _ => true
       | Err _ => false
       end.

(** ** [ingest_verified_blocks]: the count of blocks that were new *)

Fixpoint ingest_blocks (file : bytes) (payload_offset : Z) (store : InstallStore)
    (descriptors : list BlockDescriptor) (inserted : Z) : device_op Z :=
  match descriptors with
  | [] => mret inserted
  | descriptor :: descriptors =>
      let! raw := mlift (read_raw_block blake3 file payload_offset descriptor) in
      if bool_decide (blake3 raw ≠ block_digest descriptor)
      then device_error ErrorCode.Block "raw block digest changed after bundle verification" else
      let! new := stored (put_block blake3 store (block_digest descriptor) raw) in
      let! inserted :=
        (if new : bool then
           mlift (ok_or (checked_add usize_max inserted 1)
                    (Failed (error_new ErrorCode.Bounds "inserted block count overflow")))
         else mret inserted) in
      ingest_blocks file payload_offset store descriptors inserted
  end.
Definition ingest_verified_blocks (file : bytes) (verified : Inspection) (store : InstallStore) :
    device_op Z :=
  ingest_blocks file (payload_offset (inspected_header verified)) store
    (blocks (envelope verified)) 0.

(** ** [runtime_from_manifest] and [load_materialized_application] *)

(** [hash_file]: the loop reads the whole file. *)
Definition hash_file (p : Files.path) : device_op Digest :=
  let! content := read_node p in
  mret (blake3 content).

Definition runtime_from_manifest (dir : Files.path) (manifest : RuntimeManifest) :
    device_op MaterializedApplication :=
  do! mlift (Verify.attempt (validate_bundle_path nfc (main_entrypoint manifest))) in
  let root := dir ++ [ROOT] in
  let main := join_path root (main_entrypoint manifest) in
  let! n := symlink_metadata main in
  if negb (is_file n)
  then device_error ErrorCode.Activation "materialized main entrypoint is not a regular file" else
  let! same :=
    (if negb (node_len n =? main_size manifest) then mret false else
     let! digest := hash_file main in
     mret (bool_decide (digest = main_digest manifest))) in
  if negb same
  then device_error ErrorCode.Block "materialized main entrypoint failed its integrity check" else
  do! (match working_dir (manifest_process manifest) with
       | None => mret tt
       | Some dir =>
           do! mlift (Verify.attempt (validate_bundle_path nfc dir)) in
           let! n := symlink_metadata (join_path root dir) in
           if negb (is_dir n)
           then device_error ErrorCode.Activation
                  "materialized working directory is not a plain directory"
           else mret tt
       end) in
  mret {| application_id := manifest_app_id manifest; app_version := manifest_version manifest;
          app_bundle_root := manifest_bundle_root manifest; image_root := root; main := main;
          app_process := manifest_process manifest; app_data := manifest_data manifest |}.

(** [from_canonical_slice] of the manifest. *)
Definition read_manifest (bs : bytes) : outcome RuntimeManifest :=
  Verify.attempt (from_canonical_slice to_value from_slice bs).

Definition load_materialized_application (bundle_root : Digest) : device_op MaterializedApplication :=
  let dir := image_dir bundle_root in
  let! n := symlink_metadata dir in
  if negb (is_dir n)
  then device_error ErrorCode.Path "materialized application image is not a plain directory" else
  let manifest_path := dir ++ [RUNTIME] in
  let! n := symlink_metadata manifest_path in
  if negb (is_file n) || (MAX_RUNTIME_MANIFEST_BYTES <? node_len n)
  then device_error ErrorCode.Bounds "materialized application manifest is unsafe or too large" else
  let! bs := read_node manifest_path in
  let! manifest := mlift (read_manifest bs) in
  if negb (manifest_schema manifest =? RUNTIME_MANIFEST_SCHEMA)
     || bool_decide (manifest_bundle_root manifest ≠ bundle_root)
  then device_error ErrorCode.Activation
         "materialized application identity does not match its directory" else
  runtime_from_manifest dir manifest.

(** ** [materialize_into] *)

(** The blocks of one file: what was written to it, and its size.  [content] is what the
    hasher has seen. *)
Fixpoint write_blocks (h : Handle) (refs : list (Digest * Z)) (content : bytes) (written : Z) :
    device_op (bytes * Z) :=
  match refs with
  | [] => mret (content, written)
  | (digest, expected_size) :: refs =>
      let! found := stored (read_block blake3 digest) in
      let! block := mlift (ok_or found (Failed (error_new ErrorCode.Block
                              "materialization block is missing"))) in
      if negb (len block =? expected_size) || bool_decide (blake3 block ≠ digest)
      then device_error ErrorCode.Block "materialization block does not match its file reference"
      else
        let! h := handle_write_all h block in
        let! written := mlift (ok_or (checked_add u64_max written expected_size)
                                 (Failed (error_new ErrorCode.Bounds "file size overflow"))) in
        write_blocks h refs (content ++ block) written
  end.

Definition ZERO : Digest := replicate 32 x00.

Definition materialize_file (root : Files.path) (entry : FileEntry) : device_op unit :=
  let p := join_path root (path entry) in
  do! create_new p in
  let! r := write_blocks {| handle_path := p; cursor := 0 |} (default [] (block_refs entry)) [] 0 in
  if negb (r.2 =? default 0 (size entry))
     || bool_decide (blake3 r.1 ≠ default ZERO (file_digest entry))
  then device_error ErrorCode.Block "materialized file digest or size mismatch" else
  do! sync_all in
  set_file_mode p (bool_decide (mode entry = Some 1)).

Definition of_type (t : FileType) (l : list FileEntry) : list FileEntry :=
  filter (λ entry, file_type entry = t) l.

Definition materialize_entries (root : Files.path) (l : list FileEntry) : device_op unit :=
  do! mforeach (λ entry, create_dir (join_path root (path entry))) (of_type FileType.Directory l) in
  do! mforeach (materialize_file root) (of_type FileType.Regular l) in
  do! mforeach (λ entry,
         let! target := mlift (expect (target entry)) in
         create_relative_symlink target (join_path root (path entry)))
       (of_type FileType.SymlinkRelative l) in
  do! mforeach (λ entry, set_directory_mode (join_path root (path entry)))
       (reverse (of_type FileType.Directory l)) in
  set_directory_mode root.

(** The process policy of an application without one. *)
Definition default_process : ProcessPolicy :=
  {| restart := RestartPolicy.Never; stop_timeout_ms := 3000; working_dir := None; environment := None |}.

(** [BTreeMap::get]. *)
Definition lookup_key (key : str) (l : list (str * str)) : option str :=
  snd <$> find (λ kv, bool_decide (kv.1 = key)) l.

(** The manifest; [expect] and indexing panic. *)
Definition runtime_manifest (verified : Inspection) : outcome RuntimeManifest :=
  let e := envelope verified in
  let? variant := expect (head (variants e)) in
  let? tree := expect (head (trees e)) in
  let? main_entrypoint := expect (lookup_key (lit "main") (entrypoints variant)) in
  let? main_entry := expect (find (λ entry, bool_decide (path entry = main_entrypoint)) (entries tree)) in
  let? size := expect (size main_entry) in
  let? digest := expect (file_digest main_entry) in
  Ok {| manifest_schema := RUNTIME_MANIFEST_SCHEMA; manifest_app_id := bundle_id e;
        manifest_version := version e; manifest_bundle_root := bundle_root (inspected_header verified);
        main_entrypoint := main_entrypoint; main_size := size; main_digest := digest;
        manifest_process := default default_process (process e); manifest_data := data e |}.

Definition materialize_into (verified : Inspection) (staging : Files.path) :
    device_op RuntimeManifest :=
  let! _ := mlift (expect (head (variants (envelope verified)))) in
  let! tree := mlift (expect (head (trees (envelope verified)))) in
  let root := staging ++ [ROOT] in
  do! create_dir root in
  do! materialize_entries root (entries tree) in
  let! manifest := mlift (runtime_manifest verified) in
  let! bs := mlift (Verify.attempt (to_canonical_vec to_value manifest)) in
  if MAX_RUNTIME_MANIFEST_BYTES <? len bs
  then device_error ErrorCode.Bounds "materialized application manifest is too large" else
  let manifest_path := staging ++ [RUNTIME] in
  do! create_new manifest_path in
  do! write_all manifest_path bs in
  do! sync_all in
  do! set_file_mode manifest_path false in
  mret manifest.

(** ** [materialize_verified_application] *)

(** What follows when the staging directory is complete. *)
Definition publish (root : Digest) (manifest : RuntimeManifest) : device_op MaterializedApplication :=
  do! sync_directory (staging_dir root) in
  let! r := catch_io (rename (staging_dir root) (image_dir root)) in
  match r with
  | Ok tt =>
      do! sync_directory images_dir in
      runtime_from_manifest (image_dir root) manifest
  | Err e =>
      let! present := path_exists (image_dir root) in
      if present : bool then
        do! remove_dir_all (staging_dir root) in
        load_materialized_application root
      else mfail (from_io e)
  end.

Definition materialize_verified_application (verified : Inspection) :
    device_op MaterializedApplication :=
  if bool_decide (bundle_kind (envelope verified) ≠ BundleKind.Application)
  then device_error ErrorCode.ProfilePolicy
         "only application bundles can be materialized as applications" else
  let root := bundle_root (inspected_header verified) in
  do! ensure_plain_directory images_dir in
  let! present := path_exists (image_dir root) in
  if present : bool then load_materialized_application root else
  let staging := staging_dir root in
  let! r := catch_io (symlink_metadata staging) in
  do! (match r with
       | Ok _ => remove_dir_all staging
       | Err _ => mret tt
       end) in
  do! create_dir staging in
  let! result := mtry (let! manifest := materialize_into verified staging in
                       publish root manifest) in
  match result with
  | Ok app => mret app
  | Err Panic => mfail Panic
  | Err e =>
      let! left := path_exists staging in
      do! (if left : bool then let! _ := mtry (remove_dir_all staging) in mret tt else mret tt) in
      mfail e
  end.
End device_install.
