(* ===== verification/ImageSafety.v ===== *)
(** * Application images are built atomically

    Whatever system call fails or the device stops at, the image directory of a
    bundle is as it was or holds exactly the files of the bundle, with the contents,
    modes and link targets that were signed; nothing else changes but the staging
    directory. *)

From S2P Require Import Prelude Text Files InstallStore InstallSafety StoreRuns FileHandles.
From S2P Require Import BundleError Paths Utf8 BundleHeader Cbor BundleModel Verify Activation.
From S2P Require Import Authenticity DeviceInstall.

Lemma hex_not_dot digest : head (digest_hex digest) ≠ Some x2e.
Proof.
  unfold digest_hex. destruct digest as [|b digest]; [done|]. intros [= Heq].
  pose proof (byte.unsigned_range b) as Hb. pose proof (hex_value_digit (byte.unsigned b / 16)) as Hh.
  rewrite Heq in Hh. discriminate Hh. Z.to_euclidean_division_equations; lia.
Qed.

Section image_safety.
Context (blake3 : bytes → bytes).
Implicit Types (t img : gmap Files.path Node) (e : FileEntry) (d : Disk).

(** ** What an image holds, by path below its directory *)

Definition image_path (e : FileEntry) : Files.path := ROOT :: components (path e).

Definition made_of (refs : list (Digest * Z)) (content : bytes) : Prop :=
  ∃ parts, content = concat parts ∧
    Forall2 (λ ref part, blake3 part = ref.1 ∧ len part = ref.2) refs parts.

Definition node_for (e : FileEntry) (n : Node) : Prop :=
  match file_type e with
  | FileType.Directory => n = Directory
  | FileType.Regular =>
      ∃ c, n = Regular c (bool_decide (mode e = Some 1)) ∧ made_of (default [] (block_refs e)) c ∧
           len c = default 0 (size e) ∧ blake3 c = default ZERO (file_digest e)
  | FileType.SymlinkRelative => ∃ link, target e = Some link ∧ n = Symlink (utf8 link)
  end.

Record built (es : list FileEntry) (img : gmap Files.path Node) : Prop := {
  built_top : img !! [] = Some Directory;
  built_root : img !! [ROOT] = Some Directory;
  built_entries : ∀ e, e ∈ es → ∃ n, img !! image_path e = Some n ∧ node_for e n;
  built_only : ∀ q, is_Some (img !! q) → q = [] ∨ q = [ROOT] ∨ ∃ e, e ∈ es ∧ q = image_path e;
}.

Lemma join_image p e : join_path (p ++ [ROOT]) (path e) = p ++ image_path e.
Proof. unfold join_path, image_path. by rewrite <-app_assoc. Qed.

Lemma built_add es img e n :
  built es img → img !! image_path e = None → node_for e n → built (es ++ [e]) (<[image_path e := n]> img).
Proof.
  intros [Htop Hroot Hes Honly] Hnew Hn. split.
  - by rewrite lookup_insert_ne.
  - rewrite lookup_insert_ne; [done|]. intros Heq. congruence.
  - intros e' [He|He%list_elem_of_singleton]%elem_of_app; [|subst e'].
    2: { exists n. by rewrite lookup_insert_eq. }
    destruct (Hes e' He) as (n' & Hn' & Hfor). exists n'. split; [|done].
    rewrite lookup_insert_ne; [done|]. intros Heq. congruence.
  - intros q [Hq|Hq]%lookup_insert_is_Some'.
    + subst. right; right. exists e. split; [|done]. apply elem_of_app. right. by left.
    + destruct (Honly q Hq) as [?|[?|(e' & He' & ?)]]; [by left|by right; left|]. right; right.
      exists e'. split; [|done]. apply elem_of_app. by left.
Qed.

(** ** The staging directory *)

Section staging.
Context (t0 : gmap Files.path Node) (staging : Files.path).

Definition staged_as (img : gmap Files.path Node) (d : Disk) : Prop :=
  on_tree (graft staging img t0) d ∧ tree_ok (graft staging img t0).
Definition in_staging (d : Disk) : Prop := ∃ img, staged_as img d.
Definition building (es : list FileEntry) (d : Disk) : Prop :=
  ∃ img, staged_as img d ∧ built es img.

Lemma staged_in_staging img d : staged_as img d → in_staging d.
Proof. intros Hd. by exists img. Qed.

(** A call that only looks. *)
Lemma staged_look {A : Type} (m : device_op A) φ (Q : A → Disk → Prop) img :
  looks m φ → (∀ a d, staged_as img d → φ (graft staging img t0) a → Q a d) →
  hoare (staged_as img) m Q in_staging.
Proof.
  intros Hm HQ d [Hd Hok]. specialize (Hm _ d Hd). destruct (m d) as [d' [a|e]].
  - destruct Hm as [Hd' Ha]. by apply HQ.
  - by exists img.
Qed.

(** A call that makes the node [n] at the free path [q]. *)
Definition creates (q : Files.path) (n : Node) (m : device_op unit) : Prop :=
  ∀ t, hoare (on_tree t) m
         (λ _ d, on_tree (<[q := n]> t) d ∧ stat t q = Err NotFound ∧ stat t (parent q) = Ok Directory)
         (on_tree t).

Lemma staged_create r n m img :
  creates (staging ++ r) n m →
  hoare (staged_as img) m (λ _ d, staged_as (<[r := n]> img) d ∧ img !! r = None) in_staging.
Proof.
  intros Hm d [Hd Hok]. specialize (Hm _ d Hd). destruct (m d) as [d' [[]|e]]; [|by exists img].
  destruct Hm as (Hd' & Hnew & Hpar). apply stat_lookup in Hpar. apply stat_not_found in Hnew; [|done].
  rewrite graft_insert in Hd'. split.
  - split; [done|]. rewrite <-graft_insert. apply tree_ok_insert; [done|by right|]. congruence.
  - by rewrite lookup_graft_inside in Hnew.
Qed.

(** The node at a path that is taken is replaced by another of its kind. *)
Lemma staged_replace r n n' img d :
  on_tree (<[staging ++ r := n']> (graft staging img t0)) d → tree_ok (graft staging img t0) →
  img !! r = Some n → is_file n = true → is_file n' = true → staged_as (<[r := n']> img) d.
Proof.
  intros Hd Hok Hn Hf Hf'. rewrite graft_insert in Hd. split; [done|].
  rewrite <-graft_insert. apply tree_ok_insert; [done| |].
  - destruct (staging ++ r) as [|c q _] eqn:Hq using rev_ind; [by left|right]. rewrite parent_snoc.
    apply (Hok q c). rewrite <-Hq, lookup_graft_inside. by rewrite Hn.
  - intros m Hm ->. rewrite lookup_graft_inside in Hm. destruct n; [|done..]. by rewrite Hn in Hm.
Qed.

(** ** Files *)

Lemma looks_stored {A : Type} (m : install_op A) φ : looks m φ → looks (stored m : device_op A) φ.
Proof.
  intros Hm t d Hd. specialize (Hm t d Hd). unfold stored. by destruct (m d) as [d' [a|e]].
Qed.

Lemma staged_write_all r h data img c x :
  img !! r = Some (Regular c x) → handle_path h = staging ++ r →
  hoare (staged_as img) (handle_write_all h data : device_op Handle)
    (λ h' d, staged_as (<[r := Regular (FileHandles.written (cursor h) data c) x]> img) d ∧
       h' = {| handle_path := staging ++ r; cursor := cursor h + length data |}) in_staging.
Proof.
  intros Hr Hh. eapply hoare_bind with (Q := λ res d, ∃ part,
    (res.2 = true → part = data) ∧
    res.1 = {| handle_path := staging ++ r; cursor := cursor h + length part |} ∧
    staged_as (<[r := Regular (FileHandles.written (cursor h) part c) x]> img) d).
  - intros d [Hd Hok]. pose proof (hoare_handle_write (E := Fault) h data (graft staging img t0) c x) as Hw.
    rewrite Hh, lookup_graft_inside in Hw. specialize (Hw Hr d Hd).
    destruct (handle_write h data d) as [d' [res|e]]; [|by exists img].
    destruct Hw as (part & _ & Hall & Hres & Hd'). exists part.
    split_and!; [done..|]. by eapply staged_replace.
  - intros [h' []] d (part & Hall & Hh' & Hd); cbn in *.
    + by rewrite (Hall eq_refl) in *.
    + by eexists.
Qed.

Lemma staged_write_blocks r refs h content written img :
  img !! r = Some (Regular content false) →
  h = {| handle_path := staging ++ r; cursor := length content |} →
  hoare (staged_as img) (write_blocks blake3 h refs content written)
    (λ res d, ∃ more, res.1 = content ++ more ∧ made_of refs more ∧ res.2 = written + len more ∧
       staged_as (<[r := Regular res.1 false]> img) d) in_staging.
Proof.
  revert h content written img. induction refs as [|[digest expected] refs IH];
    intros h content written img Hr Hh; cbn [write_blocks].
  - apply hoare_ret. intros d Hd. exists []. cbn. rewrite app_nil_r, Z.add_0_r, insert_id by done.
    split_and!; [done| |done..]. by exists [].
  - eapply hoare_bind; [eapply staged_look; [apply looks_stored, looks_read_block|]|].
    { intros a d Hd _. exact Hd. }
    intros found. apply hoare_lift_at; [by intros d Hd; exists img|]. intros block _.
    destruct (negb _ || _) eqn:Hcheck; [apply hoare_fail; by intros d Hd; exists img|].
    apply orb_false_iff in Hcheck as [Hlen%negb_false_iff%Z.eqb_eq Hdigest%bool_decide_eq_false].
    apply dec_stable in Hdigest.
    eapply hoare_bind; [by apply (staged_write_all r h block img content false); [|subst]|].
    intros h'. apply hoare_any. intros d0 [Hd0 Hh'].
    eapply hoare_pre; [intros d ->; exact Hd0|].
    apply hoare_lift_at; [by intros d Hd; eexists|]. intros written' Hw.
    apply ok_or_ok, checked_add_Some in Hw as [-> _].
    subst h. cbn [cursor] in *. rewrite written_end in *.
    eapply hoare_conseq; [apply IH|intros d Hd; exact Hd| |by intros d Hd].
    + apply lookup_insert_eq.
    + rewrite Hh', length_app. done.
    + intros res d (more & Hres & (parts & -> & Hparts) & Hsize & Hd).
      exists (block ++ concat parts). rewrite insert_insert_eq in Hd. split_and!; [by rewrite Hres, <-app_assoc| |..].
      * exists (block :: parts). split; [done|]. by constructor.
      * rewrite Hsize, len_app. lia.
      * done.
Qed.

Lemma staged_set_mode r x img c y :
  img !! r = Some (Regular c y) →
  hoare (staged_as img) (set_file_mode (staging ++ r) x) (λ _, staged_as (<[r := Regular c x]> img)) in_staging.
Proof.
  intros Hr. eapply hoare_bind; [eapply staged_look; [apply looks_gate|intros a d Hd _; exact Hd]|].
  intros [] d [Hd Hok]. unfold on_tree in Hd. cbn. rewrite Hd.
  assert (Hs : stat (graft staging img t0) (staging ++ r) = Ok (Regular c y))
    by (apply stat_complete; [done|by rewrite lookup_graft_inside]).
  rewrite Hs. cbn. by eapply staged_replace.
Qed.

Lemma creates_symlink link q : creates q (Symlink (utf8 link)) (create_relative_symlink link q).
Proof.
  intros t. eapply hoare_bind; [apply hoare_gate|]. intros [] d Hd. cbn. unfold on_tree in Hd. rewrite Hd.
  destruct (stat t q) as [|[]]; cbn; try done. by destruct (stat t (parent q)) as [[]|]; cbn.
Qed.

Lemma looks_set_directory_mode q : looks (set_directory_mode q) (λ _ _, True).
Proof.
  intros t. eapply hoare_bind; [apply hoare_gate|]. intros [] d Hd. cbn. unfold on_tree in Hd. rewrite Hd.
  by destruct (stat t q) as [|[]].
Qed.

Lemma building_look {A : Type} es (m : device_op A) φ :
  looks m φ → hoare (building es) m (λ _, building es) in_staging.
Proof.
  intros Hm d (img & Hd & Hb). eapply (staged_look m φ (λ _, building es) img Hm); [|exact Hd].
  intros a d' Hd' _. by exists img.
Qed.

Lemma building_add es e n m :
  creates (staging ++ image_path e) n m → node_for e n →
  hoare (building es) m (λ _, building (es ++ [e])) in_staging.
Proof.
  intros Hm Hn d (img & Hd & Hb). pose proof (staged_create _ n m img Hm d Hd) as Hc.
  destruct (m d) as [d' [[]|]]; [|done]. destruct Hc as [Hd' Hnew]. exists (<[image_path e := n]> img).
  split; [done|]. by apply built_add.
Qed.

Lemma building_file es e :
  file_type e = FileType.Regular →
  hoare (building es) (materialize_file blake3 (staging ++ [ROOT]) e) (λ _, building (es ++ [e])) in_staging.
Proof.
  intros Htype. apply hoare_any. intros d0 (img & Hd0 & Hb).
  eapply hoare_pre; [intros d ->; exact Hd0|]. unfold materialize_file. rewrite join_image.
  set (r := image_path e).
  eapply hoare_bind; [apply (staged_create r (Regular [] false)); exact (hoare_create_new _)|].
  intros []. apply hoare_any. intros d1 [Hd1 Hnew]. eapply hoare_pre; [intros d ->; exact Hd1|].
  eapply hoare_bind; [apply (staged_write_blocks r); [apply lookup_insert_eq|done]|].
  intros [c written]. apply hoare_any. intros d2 (more & Hc & Hmade & Hw & Hd2).
  cbn [fst snd app] in *. subst more. rewrite insert_insert_eq in Hd2.
  eapply hoare_pre; [intros d ->; exact Hd2|].
  destruct (negb _ || _) eqn:Hcheck; [apply hoare_fail; by intros d Hd; eexists|].
  apply orb_false_iff in Hcheck as [Hsize%negb_false_iff%Z.eqb_eq Hdigest%bool_decide_eq_false].
  apply dec_stable in Hdigest.
  eapply hoare_bind; [eapply staged_look; [apply looks_gate|intros a d Hd _; exact Hd]|]. intros [].
  eapply hoare_conseq; [eapply (staged_set_mode r); apply lookup_insert_eq|done| |done].
  intros [] d Hd. rewrite insert_insert_eq in Hd. eexists. split; [exact Hd|].
  apply built_add; [done|done|]. unfold node_for. rewrite Htype. exists c. split; [done|].
  split; [done|]. split; [lia|done].
Qed.

Lemma elem_of_type ty e l : e ∈ of_type ty l ↔ file_type e = ty ∧ e ∈ l.
Proof. unfold of_type. by rewrite list_elem_of_filter. Qed.

(** One loop over the entries of a type. *)
Lemma building_each (m : FileEntry → device_op unit) ty l es :
  (∀ es e, file_type e = ty → hoare (building es) (m e) (λ _, building (es ++ [e])) in_staging) →
  hoare (building es) (mforeach m (of_type ty l)) (λ _, building (es ++ of_type ty l)) in_staging.
Proof.
  intros Hm. rewrite <-(app_nil_r es) at 1.
  apply (hoare_foreach_done (λ done, building (es ++ done))). intros l1 e l2 Hl.
  rewrite app_assoc. apply Hm. apply (elem_of_type ty e l). rewrite Hl. set_solver.
Qed.

(** ** The whole image *)

(** The order in which the entries are made. *)
Definition in_order (l : list FileEntry) : list FileEntry :=
  of_type FileType.Directory l ++ of_type FileType.Regular l ++ of_type FileType.SymlinkRelative l.

Lemma elem_of_in_order e l : e ∈ in_order l ↔ e ∈ l.
Proof. unfold in_order. rewrite !elem_of_app, !elem_of_type. destruct (file_type e) eqn:?; naive_solver. Qed.

Lemma building_entries l :
  hoare (building []) (materialize_entries blake3 (staging ++ [ROOT]) l) (λ _, building (in_order l)) in_staging.
Proof.
  unfold materialize_entries, in_order.
  eapply hoare_bind; [apply (building_each _ FileType.Directory)|].
  { intros es e Htype. rewrite join_image. apply (building_add es e Directory); [exact (hoare_create_dir _)|].
    unfold node_for. by rewrite Htype. }
  intros []. eapply hoare_bind; [apply (building_each _ FileType.Regular)|].
  { intros es e Htype. by apply building_file. }
  intros []. eapply hoare_bind; [apply (building_each _ FileType.SymlinkRelative)|].
  { intros es e Htype. apply hoare_lift_at; [intros d (img & Hd & _); by exists img|]. intros link Hlink.
    apply ok_or_ok in Hlink. rewrite join_image. apply (building_add es e (Symlink (utf8 link))); [apply creates_symlink|].
    unfold node_for. rewrite Htype. by exists link. }
  intros []. cbn [app]. rewrite <-app_assoc.
  eapply hoare_bind; [eapply building_look, looks_foreach; intros e; apply looks_set_directory_mode|].
  intros []. eapply building_look, looks_set_directory_mode.
Qed.

(** The image of a bundle: its entries, and the manifest [bs] beside them. *)
Record complete_image (es : list FileEntry) (bs : bytes) (img : gmap Files.path Node) : Prop := {
  image_top : img !! [] = Some Directory;
  image_entries_root : img !! [ROOT] = Some Directory;
  image_runtime : img !! [RUNTIME] = Some (Regular bs false);
  image_entries : ∀ e, e ∈ es → ∃ n, img !! image_path e = Some n ∧ node_for e n;
  image_only : ∀ q, is_Some (img !! q) →
    q = [] ∨ q = [ROOT] ∨ q = [RUNTIME] ∨ ∃ e, e ∈ es ∧ q = image_path e;
}.

Lemma built_complete l img bs :
  built (in_order l) img → complete_image l bs (<[[RUNTIME] := Regular bs false]> img).
Proof.
  intros [Htop Hroot Hes Honly]. split.
  - by rewrite lookup_insert_ne.
  - by rewrite lookup_insert_ne.
  - apply lookup_insert_eq.
  - intros e He%elem_of_in_order. rewrite lookup_insert_ne by (by intros [=]). by apply Hes.
  - intros q [Hq|Hq]%lookup_insert_is_Some'; [by right; right; left|].
    destruct (Honly q Hq) as [?|[?|(e & He & ?)]]; [by left|by right; left|].
    right; right; right. exists e. by rewrite elem_of_in_order in He.
Qed.

Lemma staged_new t :
  tree_ok t → hoare (on_tree t) (create_dir staging : device_op unit)
    (λ _ d, t !! staging = None ∧ on_tree (graft staging {[ [] := Directory ]} t) d ∧
            tree_ok (graft staging {[ [] := Directory ]} t)) (on_tree t).
Proof.
  intros Ht. eapply hoare_conseq; [apply hoare_create_dir|done| |done].
  intros [] d (Hd & Hnew & Hpar). apply stat_lookup in Hpar. apply stat_not_found in Hnew; [|done].
  pose proof (free_nothing_below t staging Ht Hnew) as Hfree. rewrite <-graft_new by done.
  split_and!; [done..|]. apply tree_ok_insert; [done|by right|congruence].
Qed.
End staging.

(** ** [materialize_into] *)

Context `{DirOrder, PointerWidth, Serde RuntimeManifest}.
Context (nfc : str → str) (link_resolves : Files.path → bool).

(** [img] is the image of the bundle [verified], whose manifest is [manifest]. *)
Definition image_of (verified : Inspection) (manifest : RuntimeManifest) (img : gmap Files.path Node) :
    Prop :=
  ∃ es bs, head (trees (envelope verified)) = Some es ∧ runtime_manifest verified = Ok manifest ∧
    to_canonical_vec to_value manifest = Ok bs ∧ len bs ≤ MAX_RUNTIME_MANIFEST_BYTES ∧
    complete_image (entries es) bs img.

Lemma staged_materialize t0 staging verified :
  hoare (staged_as t0 staging {[ [] := Directory ]}) (materialize_into blake3 verified staging)
    (λ manifest d, ∃ img, staged_as t0 staging img d ∧ image_of verified manifest img)
    (in_staging t0 staging).
Proof.
  assert (Hlift : ∀ img d, staged_as t0 staging img d → in_staging t0 staging d) by (intros img d; by exists img).
  assert (Hbuilding : ∀ es d, building t0 staging es d → in_staging t0 staging d)
    by (intros es d (img & Hd & _); by exists img).
  unfold materialize_into. apply hoare_lift_at; [apply Hlift|]. intros variant _.
  apply hoare_lift_at; [apply Hlift|]. intros es Hes%ok_or_ok.
  eapply hoare_bind; [apply (staged_create t0 staging [ROOT] Directory); exact (hoare_create_dir _)|].
  intros []. eapply hoare_bind with (Q := λ _, building t0 staging (in_order (entries es))).
  { eapply hoare_pre; [|apply building_entries]. intros d [Hd _]. eexists. split; [exact Hd|]. split; [done|done|..].
    - intros e He. by apply not_elem_of_nil in He.
    - intros q [Hq|[n [Hq _]%lookup_singleton_Some]]%lookup_insert_is_Some'; [by right; left|by left]. }
  intros []. apply hoare_lift_at; [apply Hbuilding|]. intros manifest Hmanifest.
  apply hoare_lift_at; [apply Hbuilding|]. intros bs Hbs.
  destruct (_ <? _) eqn:Hmax; [apply hoare_fail; apply Hbuilding|]. apply Z.ltb_ge in Hmax.
  apply hoare_any. intros d0 (img & Hd0 & Hb). eapply hoare_pre; [intros d ->; exact Hd0|].
  eapply hoare_bind; [apply (staged_create t0 staging [RUNTIME] (Regular [] false)); exact (hoare_create_new _)|].
  intros []. eapply hoare_bind with (Q := λ _, staged_as t0 staging (<[[RUNTIME] := Regular bs false]> img)).
  { intros d [[Hd Hok] _].
    pose proof (hoare_write_all (E := Fault) (staging ++ [RUNTIME]) bs _ d Hd) as Hw.
    assert (Hgo : ∀ c d', on_tree (<[staging ++ [RUNTIME] := Regular c false]>
        (graft staging (<[[RUNTIME] := Regular [] false]> img) t0)) d' →
      staged_as t0 staging (<[[RUNTIME] := Regular c false]> img) d').
    { intros c d' Hd'. eapply staged_replace in Hd'; [|done|apply lookup_insert_eq|done|done].
      by rewrite insert_insert_eq in Hd'. }
    destruct (write_all _ bs d) as [d' [[]|e]]; [by apply Hgo|]. destruct Hw as [c Hc]. by eapply Hlift, Hgo. }
  intros []. eapply hoare_bind; [eapply staged_look; [apply looks_gate|intros a d Hd _; exact Hd]|].
  intros []. eapply hoare_bind; [eapply staged_set_mode; apply lookup_insert_eq|].
  intros []. apply hoare_ret. intros d Hd. rewrite insert_insert_eq in Hd. eexists. split; [exact Hd|].
  exists es, bs. split_and!; [done..| |done|by apply built_complete].
  unfold Verify.attempt in Hbs. by apply map_err_ok in Hbs.
Qed.

(** ** Opening an image *)

(** What [app] runs is the file that [manifest] describes. *)
Record runs (t : gmap Files.path Node) (dir : Files.path) (manifest : RuntimeManifest)
    (app : MaterializedApplication) : Prop := {
  runs_app : app = {| application_id := manifest_app_id manifest; app_version := manifest_version manifest;
                      app_bundle_root := manifest_bundle_root manifest; image_root := dir ++ [ROOT];
                      main := join_path (dir ++ [ROOT]) (main_entrypoint manifest);
                      app_process := manifest_process manifest; app_data := manifest_data manifest |};
  runs_entrypoint : validate_bundle_path nfc (main_entrypoint manifest) = Ok tt;
  runs_directory : ∀ wd, working_dir (manifest_process manifest) = Some wd →
    validate_bundle_path nfc wd = Ok tt ∧ t !! join_path (dir ++ [ROOT]) wd = Some Directory;
  runs_main : ∃ c x, t !! main app = Some (Regular c x) ∧ len c = main_size manifest ∧
                     blake3 c = main_digest manifest;
}.

Lemma looks_image_hash q :
  looks (hash_file blake3 q) (λ t digest, ∃ c x, t !! q = Some (Regular c x) ∧ digest = blake3 c).
Proof.
  eapply looks_bind; [apply looks_read_node| |].
  - intros c. by apply (looks_ret _ (λ _ digest, digest = blake3 c)).
  - intros t c digest [x Hx%stat_lookup] ->. by exists c, x.
Qed.

Lemma looks_runtime_from_manifest dir manifest :
  looks (runtime_from_manifest blake3 nfc dir manifest) (λ t app, runs t dir manifest app).
Proof.
  intros t. unfold runtime_from_manifest. eapply hoare_look; [apply looks_lift|done|]. intros [] Hentry.
  apply map_err_ok in Hentry.
  eapply hoare_look; [apply looks_symlink_metadata|done|]. intros n Hn%stat_lookup.
  destruct n as [c x| |]; cbn [is_file negb]; [|by apply hoare_fail..].
  eapply hoare_look with (φ := λ t same, same = true → len c = main_size manifest ∧ ∃ c' x',
      t !! join_path (dir ++ [ROOT]) (main_entrypoint manifest) = Some (Regular c' x') ∧
      blake3 c' = main_digest manifest); [|done|].
  { cbn [node_len]. destruct (Z.eqb_spec (len c) (main_size manifest)) as [Hlen|]; cbn [negb]; [|by apply looks_ret].
    eapply looks_bind; [apply looks_image_hash| |].
    - intros digest. by apply (looks_ret _ (λ _ same, same = bool_decide (digest = main_digest manifest))).
    - intros t' digest same (c' & x' & Hc' & ->) -> Heq%bool_decide_eq_true. eauto. }
  intros same Hsame. destruct same; cbn [negb]; [|by apply hoare_fail].
  destruct (Hsame eq_refl) as (Hlen & c' & x' & Hc' & Hmain). simplify_eq.
  eapply hoare_look with (φ := λ t _, ∀ wd, working_dir (manifest_process manifest) = Some wd →
    validate_bundle_path nfc wd = Ok tt ∧ t !! join_path (dir ++ [ROOT]) wd = Some Directory); [|done|].
  - destruct (working_dir _) as [wd|]; [|by apply looks_ret]. intros t'.
    eapply hoare_look; [apply looks_lift|done|]. intros [] Hwd%map_err_ok.
    eapply hoare_look; [apply looks_symlink_metadata|done|]. intros n Hwn%stat_lookup.
    destruct n; cbn [is_dir negb]; [by apply hoare_fail| |by apply hoare_fail].
    apply hoare_ret. intros d Hd. split; [done|]. by intros wd' [= <-].
  - intros [] Hdir. apply hoare_ret. intros d Hd. split; [done|]. split; [done..|]. by exists c, x.
Qed.

(** The manifest in the image directory of [root]. *)
Definition manifest_at (t : gmap Files.path Node) (root : Digest) (manifest : RuntimeManifest) : Prop :=
  ∃ bs x, t !! (image_dir root ++ [RUNTIME]) = Some (Regular bs x) ∧ len bs ≤ MAX_RUNTIME_MANIFEST_BYTES ∧
    read_manifest bs = Ok manifest ∧ manifest_schema manifest = RUNTIME_MANIFEST_SCHEMA ∧
    manifest_bundle_root manifest = root.

Lemma looks_load root :
  looks (load_materialized_application blake3 nfc root)
    (λ t app, t !! image_dir root = Some Directory ∧
       ∃ manifest, manifest_at t root manifest ∧ runs t (image_dir root) manifest app).
Proof.
  intros t. unfold load_materialized_application.
  eapply hoare_look; [apply looks_symlink_metadata|done|]. intros n Hn%stat_lookup.
  destruct n as [| |]; cbn [is_dir negb]; [by apply hoare_fail| |by apply hoare_fail].
  eapply hoare_look; [apply looks_symlink_metadata|done|]. intros n Hm%stat_lookup.
  destruct (negb _ || _) eqn:Hcheck; [by apply hoare_fail|].
  apply orb_false_iff in Hcheck as [_ Hmax%Z.ltb_ge].
  eapply hoare_look; [apply looks_read_node|done|]. intros bs [x Hx%stat_lookup].
  rewrite Hx in Hm. injection Hm as <-.
  eapply hoare_look; [apply looks_lift|done|]. intros manifest Hmanifest.
  destruct (negb _ || _) eqn:Hid; [by apply hoare_fail|].
  apply orb_false_iff in Hid as [Hschema%negb_false_iff%Z.eqb_eq Hroot%bool_decide_eq_false].
  apply dec_stable in Hroot.
  eapply hoare_conseq; [apply looks_runtime_from_manifest|done| |done].
  intros app d [Hd Hruns]. split; [done|]. split; [done|]. exists manifest. split; [|done]. by exists bs, x.
Qed.

(** ** Removing the staging directory *)

Lemma prunes_remove_child remove p name :
  (∀ q, prunes q (remove q)) → prunes p (remove_child remove p name).
Proof.
  intros Hr. apply (prunes_child p name). unfold remove_child.
  eapply prunes_look; [apply looks_symlink_metadata|]. intros t n Ht Hn.
  destruct (is_dir n) eqn:Hdir; [by apply Hr|]. apply (prunes_unlink_file _ n); [done|done|]. by intros ->.
Qed.
Lemma prunes_remove_all fuel p : prunes p (remove_all_below fuel p).
Proof.
  revert p. induction fuel as [|fuel IH]; intros p; cbn [remove_all_below].
  - eapply prunes_looks, (looks_fail _ (λ _ _, True)).
  - eapply prunes_look; [apply looks_read_dir|]. intros t names Ht _. revert t Ht.
    apply prunes_bind; [apply prunes_foreach; intros name; by apply prunes_remove_child|]. intros [].
    apply prunes_remove_dir.
Qed.
Lemma prunes_remove_dir_all p : prunes p (remove_dir_all p).
Proof.
  unfold remove_dir_all. eapply prunes_look; [apply looks_symlink_metadata|]. intros t n Ht Hn.
  destruct (is_symlink n) eqn:Hlink; [apply (prunes_unlink_file _ n); [done|done|]; by intros ->|].
  intros d Hd. unfold mbnd, mget. by apply (prunes_remove_all _ p t Ht).
Qed.

(** ** Publication *)

Lemma staging_not_below_image root root' r : ¬ staging_dir root `prefix_of` image_dir root' ++ r.
Proof. intros [k Hk]. injection Hk as Hk _. apply (hex_not_dot root'). by rewrite Hk. Qed.
Lemma staging_not_image root : ¬ staging_dir root `prefix_of` image_dir root.
Proof. rewrite <-(app_nil_r (image_dir root)). apply staging_not_below_image. Qed.

Section publication.
Context (verified : Inspection) (t1 : gmap Files.path Node).
Let root : Digest := bundle_root (inspected_header verified).

(** Nothing has changed but the staging directory. *)
Definition aside (t : gmap Files.path Node) : Prop :=
  tree_ok t ∧ ∀ q, ¬ staging_dir root `prefix_of` q → t !! q = t1 !! q.
(** The image of the bundle is in its place. *)
Record published (manifest : RuntimeManifest) (t : gmap Files.path Node) : Prop := {
  published_ok : tree_ok t;
  published_over : nothing_below t1 (image_dir root);
  published_others : ∀ q, ¬ staging_dir root `prefix_of` q → ¬ image_dir root `prefix_of` q → t !! q = t1 !! q;
  published_image : ∃ img, image_of verified manifest img ∧ ∀ r, t !! (image_dir root ++ r) = img !! r;
}.
Definition concluded (t : gmap Files.path Node) : Prop := aside t ∨ ∃ manifest, published manifest t.
Definition concludes (d : Disk) : Prop := concluded (tree d).

Lemma in_staging_aside d : in_staging t1 (staging_dir root) d → aside (tree d).
Proof.
  intros (img & Hd & Hok). unfold on_tree in Hd. rewrite Hd. split; [done|]. intros q Hq. by apply lookup_graft_outside.
Qed.

Lemma concluded_pruned t t' : concluded t → pruned (staging_dir root) t t' → concluded t'.
Proof.
  intros Hc [Hok Ho _]. destruct Hc as [[_ Hs]|[manifest [_ Hover Hs (img & Himg & Hat)]]].
  - left. split; [done|]. intros q Hq. rewrite Ho by done. by apply Hs.
  - right. exists manifest. split; [done|done|..].
    + intros q Hq Hq'. rewrite Ho by done. by apply Hs.
    + exists img. split; [done|]. intros r. rewrite Ho by apply staging_not_below_image. apply Hat.
Qed.
Lemma concluded_ok t : concluded t → tree_ok t.
Proof. by intros [[? _]|[manifest []]]. Qed.

Lemma concluded_look {A : Type} (m : device_op A) φ :
  looks m φ → hoare concludes m (λ a d, concludes d ∧ φ (tree d) a) concludes.
Proof.
  intros Hm d Hd. specialize (Hm (tree d) d eq_refl). unfold concludes, on_tree in *.
  destruct (m d) as [d' [a|e]]; [destruct Hm as [-> ?]; done|by rewrite Hm].
Qed.
Lemma concluded_remove :
  hoare concludes (remove_dir_all (staging_dir root)) (λ _, concludes) concludes.
Proof.
  intros d Hd. pose proof (prunes_remove_dir_all (staging_dir root) (tree d) (concluded_ok _ Hd) d eq_refl) as Hp.
  unfold concludes in *. destruct (remove_dir_all _ d) as [d' [[]|e]]; by eapply concluded_pruned.
Qed.

Lemma looks_image_exists q : looks (path_exists link_resolves q) (λ _ _, True).
Proof.
  eapply looks_seq; [apply looks_catch_io, looks_symlink_metadata|]. intros r. by apply looks_ret.
Qed.

(** The application that is returned can be run. *)
Definition launchable (t : gmap Files.path Node) (app : MaterializedApplication) : Prop :=
  ∃ manifest, runs t (image_dir root) manifest app ∧
    (manifest_at t root manifest ∨ published manifest t).

Lemma published_move img manifest :
  tree_ok (graft (staging_dir root) img t1) → image_of verified manifest img →
  nothing_below (graft (staging_dir root) img t1) (image_dir root) →
  graft (staging_dir root) img t1 !! images_dir = Some Directory →
  published manifest (move_tree (staging_dir root) (image_dir root) (graft (staging_dir root) img t1)).
Proof.
  intros Hok Himg Hover Hpar.
  assert (Htop : graft (staging_dir root) img t1 !! staging_dir root = Some Directory).
  { rewrite lookup_graft_top. destruct Himg as (es & bs & _ & _ & _ & _ & Hc). apply Hc. }
  split.
  - apply tree_ok_move_over; try done. apply staging_not_image.
  - intros c r. rewrite <-(lookup_graft_outside (staging_dir root) img t1); [apply Hover|].
    apply staging_not_below_image.
  - intros q Hq Hq'. rewrite lookup_move_other by done. rewrite decide_False by done.
    by apply lookup_graft_outside.
  - exists img. split; [done|]. intros r. rewrite lookup_move_over; [apply lookup_graft_inside|by rewrite Htop|done].
Qed.

Lemma hoare_publish img manifest :
  image_of verified manifest img →
  hoare (staged_as t1 (staging_dir root) img) (publish blake3 nfc link_resolves root manifest)
    (λ app d, concludes d ∧ launchable (tree d) app) concludes.
Proof.
  intros Himg. unfold publish.
  assert (Haside : ∀ d, in_staging t1 (staging_dir root) d → concludes d)
    by (intros d Hd; left; by apply in_staging_aside).
  eapply hoare_step; [eapply (staged_look _ _ (sync_directory _) _ (λ _, staged_as t1 (staging_dir root) img))|exact Haside|].
  { eapply looks_seq; [apply looks_metadata|]. intros n. apply looks_gate. }
  { intros a d Hd _. exact Hd. }
  intros []. apply hoare_any. intros d0 [Hd0 Hok]. eapply hoare_pre; [intros d ->; exact Hd0|].
  set (t := graft (staging_dir root) img t1) in *.
  assert (Htop : t !! staging_dir root = Some Directory).
  { unfold t. rewrite lookup_graft_top. destruct Himg as (es & bs & _ & _ & _ & _ & Hc). apply Hc. }
  eapply hoare_bind; [eapply hoare_catch_io, (hoare_rename_over _ _ t Hok)|].
  { by apply stat_complete. }
  { intros Heq. apply (staging_not_image root). by rewrite Heq. }
  intros [[]|e].
  - apply hoare_any. intros d1 (Hd1 & Hover & Hpar & _).
    assert (Hp : published manifest (tree d1)) by (rewrite Hd1; by apply published_move).
    apply (hoare_pre _ (on_tree (tree d1))); [by intros d ->|].
    eapply hoare_look; [eapply looks_seq; [apply looks_metadata|]; intros n; apply looks_gate|..].
    + intros d Hd. right. exists manifest. by rewrite Hd.
    + intros [] _. eapply hoare_conseq; [apply looks_runtime_from_manifest|done|..].
      * intros app d [Hd Hruns]. unfold on_tree in Hd. split; [right; exists manifest; by rewrite Hd|].
        exists manifest. rewrite Hd. split; [done|by right].
      * intros d Hd. right. exists manifest. by rewrite Hd.
  - eapply hoare_pre with (P' := concludes).
    { intros d Hd. apply Haside. exists img. by split. }
    eapply hoare_bind; [apply (concluded_look _ _ (looks_image_exists _))|]. intros present.
    destruct present; [|apply hoare_fail; by intros d [Hd _]].
    eapply hoare_bind; [eapply hoare_pre; [|apply concluded_remove]; by intros d [Hd _]|]. intros [].
    eapply hoare_conseq; [apply (concluded_look _ _ (looks_load root))|done| |done].
    intros app d (Hd & _ & m & Hm & Hruns). split; [done|]. exists m. split; [done|by left].
Qed.
End publication.

(** ** [materialize_verified_application] *)

Section materialization.
Context (verified : Inspection).
Let root : Digest := bundle_root (inspected_header verified).

(** The tree at the image directory is [img]. *)
Definition image_is (t img : gmap Files.path Node) : Prop :=
  ∀ r, t !! (image_dir root ++ r) = img !! r.

(** What a run may have changed. *)
Record undamaged (t t' : gmap Files.path Node) : Prop := {
  undamaged_ok : tree_ok t';
  undamaged_others : ∀ q, q ≠ images_dir → ¬ staging_dir root `prefix_of` q →
    ¬ image_dir root `prefix_of` q → t' !! q = t !! q;
  undamaged_images : t' !! images_dir = t !! images_dir ∨
    t !! images_dir = None ∧ t' !! images_dir = Some Directory;
  undamaged_image : (∀ r, t' !! (image_dir root ++ r) = t !! (image_dir root ++ r)) ∨
    nothing_below t (image_dir root) ∧ ∃ manifest img, image_of verified manifest img ∧ image_is t' img;
}.

(** The application that is returned is the one of the image. *)
Definition ready_to_run (t : gmap Files.path Node) (app : MaterializedApplication) : Prop :=
  ∃ manifest, runs t (image_dir root) manifest app ∧
    (manifest_at t root manifest ∨ ∃ img, image_of verified manifest img ∧ image_is t img).

(** The images directory is there. *)
Definition prepared (t t1 : gmap Files.path Node) : Prop :=
  t1 = t ∨ t !! images_dir = None ∧ t1 = <[images_dir := Directory]> t.

Lemma concluded_undamaged t t1 t' :
  prepared t t1 → concluded verified t1 t' → undamaged t t'.
Proof.
  intros Hprep Hc. assert (Hsame : ∀ q, q ≠ images_dir → t1 !! q = t !! q).
  { intros q Hq. destruct Hprep as [->|[_ ->]]; [done|by rewrite lookup_insert_ne]. }
  assert (Himages : t1 !! images_dir = t !! images_dir ∨ t !! images_dir = None ∧ t1 !! images_dir = Some Directory).
  { destruct Hprep as [->|[Hnone ->]]; [by left|]. right. by rewrite lookup_insert_eq. }
  assert (Hout : ¬ staging_dir root `prefix_of` images_dir) by by intros [k [=]].
  assert (Hout' : ¬ image_dir root `prefix_of` images_dir) by by intros [k [=]].
  assert (Hin : ∀ r, t1 !! (image_dir root ++ r) = t !! (image_dir root ++ r)) by (intros r; by apply Hsame).
  destruct Hc as [[Hok Hs]|[manifest [Hok Hover Hs (img & Himg & Hat)]]].
  - split; [done| | |left].
    + intros q Hq Hq1 _. rewrite Hs by done. by apply Hsame.
    + by rewrite Hs.
    + intros r. rewrite Hs by apply staging_not_below_image. apply Hin.
  - split; [done| | |right].
    + intros q Hq Hq1 Hq2. rewrite Hs by done. by apply Hsame.
    + by rewrite Hs.
    + split; [intros c r; rewrite <-Hin; apply Hover|]. by exists manifest, img.
Qed.

Lemma hoare_ensure_images t :
  tree_ok t → hoare (on_tree t) (ensure_plain_directory images_dir)
    (λ _ d, prepared t (tree d) ∧ tree_ok (tree d)) (on_tree t).
Proof.
  intros Ht. unfold ensure_plain_directory.
  eapply hoare_look; [apply looks_catch_io, looks_symlink_metadata|done|]. intros r _.
  destruct r as [[]|[]]; [by apply hoare_fail| |by apply hoare_fail| |by apply hoare_fail..].
  - apply hoare_ret. intros d ->. split; [by left|done].
  - eapply hoare_conseq; [apply hoare_create_dir|done| |done].
    intros [] d (-> & Hnew & Hpar). apply stat_not_found in Hnew; [|done]. apply stat_lookup in Hpar.
    split; [by right|]. apply tree_ok_insert; [done|by right|congruence].
Qed.

Lemma published_rebase t1 t2 manifest t :
  aside verified t1 t2 → published verified t2 manifest t → published verified t1 manifest t.
Proof.
  intros [_ Hs] [Hok Hover Ho Himg]. split; [done| | |done].
  - intros c r. rewrite <-Hs by apply staging_not_below_image. apply Hover.
  - intros q Hq Hq'. rewrite Ho by done. by apply Hs.
Qed.
Lemma concluded_rebase t1 t2 t :
  aside verified t1 t2 → concluded verified t2 t → concluded verified t1 t.
Proof.
  intros Ha [[Hok Ho]|[manifest Hp]].
  - left. split; [done|]. intros q Hq. rewrite Ho by done. by apply Ha.
  - right. exists manifest. by eapply published_rebase.
Qed.
Lemma launchable_ready t1 t app : launchable verified t1 t app → ready_to_run t app.
Proof.
  intros (manifest & Hruns & Hm). exists manifest. split; [done|].
  destruct Hm as [Hm|[_ _ _ Himg]]; [by left|by right].
Qed.

(** The staging directory is made, filled and renamed. *)
Lemma hoare_build t1 t2 :
  tree_ok t2 → aside verified t1 t2 →
  hoare (on_tree t2)
    (do! create_dir (staging_dir root) in
     mtry (let! manifest := materialize_into blake3 verified (staging_dir root) in
           publish blake3 nfc link_resolves root manifest))
    (λ res d, concludes verified t1 d ∧ ∀ app, res = Ok app → ready_to_run (tree d) app)
    (concludes verified t1).
Proof.
  intros Ht2 Ha. eapply hoare_step; [by apply staged_new|intros d <-; by left|].
  intros []. eapply hoare_pre with (P' := staged_as t2 (staging_dir root) {[ [] := Directory ]});
    [by intros d (_ & Hd & Hok)|].
  apply hoare_try. eapply hoare_step; [apply staged_materialize|..].
  { intros d Hd e. split; [|done]. eapply concluded_rebase; [done|]. left. by apply in_staging_aside. }
  intros manifest. apply hoare_any. intros d0 (img & Hd0 & Himg). eapply hoare_pre; [intros d ->; exact Hd0|].
  eapply hoare_conseq; [by eapply (hoare_publish verified t2)|done|..].
  - intros app d [Hc Hl]. split; [by eapply concluded_rebase|]. intros app' [= <-]. by eapply launchable_ready.
  - intros d Hc e. split; [by eapply concluded_rebase|done].
Qed.

(** A panic aside, what is left of the staging directory is removed after an error. *)
Lemma hoare_cleanup t1 (res : outcome MaterializedApplication) :
  hoare (λ d, concludes verified t1 d ∧ ∀ app, res = Ok app → ready_to_run (tree d) app)
    match res with
    | Ok app => mret app
    | Err Panic => mfail Panic
    | Err e =>
        let! left := path_exists link_resolves (staging_dir root) in
        do! (if left : bool then let! _ := mtry (remove_dir_all (staging_dir root)) in mret tt else mret tt) in
        mfail e
    end
    (λ app d, concludes verified t1 d ∧ ready_to_run (tree d) app) (concludes verified t1).
Proof.
  destruct res as [app|[|e]].
  - apply hoare_ret. intros d [Hd Happ]. split; [done|by apply Happ].
  - apply hoare_fail. by intros d [Hd _].
  - eapply hoare_pre with (P' := concludes verified t1); [by intros d [Hd _]|].
    eapply hoare_bind; [apply (concluded_look verified t1 _ _ (looks_image_exists _))|]. intros left.
    eapply hoare_bind with (Q := λ _, concludes verified t1); [|intros []; by apply hoare_fail].
    eapply hoare_pre with (P' := concludes verified t1); [by intros d [Hd _]|].
    destruct left; [|by apply hoare_ret].
    eapply hoare_bind with (Q := λ _, concludes verified t1); [|intros r; by apply hoare_ret].
    apply hoare_try. eapply hoare_conseq; [apply concluded_remove|done|done|by intros d Hd e'].
Qed.

Lemma hoare_materialize t :
  tree_ok t →
  hoare (on_tree t) (materialize_verified_application blake3 nfc link_resolves verified)
    (λ app d, undamaged t (tree d) ∧ ready_to_run (tree d) app) (λ d, undamaged t (tree d)).
Proof.
  intros Ht. assert (Hsame : ∀ t', tree_ok t' → prepared t t' → undamaged t t').
  { intros t' Hok Hp. eapply concluded_undamaged; [exact Hp|]. by left. }
  assert (Hstart : ∀ d, on_tree t d → undamaged t (tree d)) by (intros d ->; apply Hsame; [done|by left]).
  unfold materialize_verified_application. case_bool_decide; [by apply hoare_fail|].
  eapply hoare_step; [by apply hoare_ensure_images|exact Hstart|].
  intros []. apply hoare_any. intros d0 [Hprep Hok]. set (t1 := tree d0) in *.
  assert (Hdone : ∀ d, concludes verified t1 d → undamaged t (tree d)) by (intros d Hd; by eapply concluded_undamaged).
  apply (hoare_pre _ (on_tree t1)); [by intros d ->|].
  assert (Ha : aside verified t1 t1) by by split.
  eapply hoare_look; [apply looks_image_exists|intros d ->; by apply Hsame|]. intros present _.
  destruct present.
  { eapply hoare_conseq; [apply looks_load|done|..].
    - intros app d (-> & _ & manifest & Hm & Hruns). split; [by apply Hsame|]. exists manifest. split; [done|by left].
    - intros d ->. by apply Hsame. }
  eapply hoare_look; [apply looks_catch_io, looks_symlink_metadata|intros d ->; by apply Hsame|]. intros r _.
  eapply hoare_bind with (Q := λ _ d, aside verified t1 (tree d)).
  { destruct r; [|apply hoare_ret; by intros d ->].
    eapply hoare_conseq; [apply (prunes_remove_dir_all (staging_dir root) t1 Hok)|done|..].
    - intros [] d [Hok' Ho _]. by split.
    - intros d [Hok' Ho _]. apply Hdone. left. by split. }
  intros []. apply hoare_any. intros d2 Ha2. apply (hoare_pre _ (on_tree (tree d2))); [by intros d ->|].
  apply hoare_assoc.
  eapply hoare_step; [by apply (hoare_build t1 (tree d2)); [apply Ha2|]|exact Hdone|].
  intros res. eapply hoare_conseq; [apply (hoare_cleanup t1 res)|done|..].
  - intros app d [Hd Happ]. split; [by apply Hdone|done].
  - exact Hdone.
Qed.
End materialization.
End image_safety.

(** ** Blocks are ingested *)

Section ingestion.
Context `{DirOrder, PointerWidth, Zstd}.
Context (blake3 : bytes → bytes).
Implicit Types (t : gmap Files.path Node) (digest : Digest).

Definition block_stored (t : gmap Files.path Node) (digest : Digest) : Prop :=
  ∃ bs x, t !! block_path digest = Some (Regular bs x) ∧ blake3 bs = digest.

(** Only blocks were added. *)
Record adds_blocks (t t' : gmap Files.path Node) : Prop := {
  adds_ok : tree_ok t';
  adds_others : ∀ q, head q ≠ Some BLOCKS → t' !! q = t !! q;
  adds_keeps : ∀ digest n, t !! block_path digest = Some n → t' !! block_path digest = Some n;
}.

Lemma adds_refl t : tree_ok t → adds_blocks t t.
Proof. by split. Qed.
Lemma adds_trans t1 t2 t3 : adds_blocks t1 t2 → adds_blocks t2 t3 → adds_blocks t1 t3.
Proof.
  intros [_ Ho Hk] [Hok Ho' Hk']. split; [done| |].
  - intros q Hq. rewrite Ho' by done. by apply Ho.
  - intros digest n Hn. by apply Hk', Hk.
Qed.
Lemma adds_stored t t' digest : adds_blocks t t' → block_stored t digest → block_stored t' digest.
Proof. intros [_ _ Hk] (bs & x & Hp & Hb). exists bs, x. split; [by apply Hk|done]. Qed.

Lemma block_never_temp dir digest : ¬ temp_in dir (block_path digest).
Proof.
  clear blake3. intros (pid & counter & Heq). unfold block_path in Heq. rewrite app_assoc in Heq.
  apply app_inj_2 in Heq as [_ Heq]; [|done]. injection Heq as Heq.
  destruct (digest_hex digest) as [|b hex] eqn:Hhex; [done|]. apply (hex_not_dot digest). rewrite Hhex.
  by injection Heq as -> _.
Qed.

Lemma made_adds t digest t' : tree_ok t → made (parent (block_path digest)) t t' → adds_blocks t t'.
Proof.
  intros Ht [->|(-> & Hnone & Hdir)]; [by apply adds_refl|]. split.
  - apply tree_ok_insert; [done|by right|done].
  - intros q Hq. rewrite lookup_insert_ne; [done|]. intros <-. by apply Hq.
  - intros digest' n Hn. rewrite lookup_insert_ne; [done|]. intros Heq. by apply (f_equal length) in Heq.
Qed.
Lemma written_adds t digest data t' :
  tree_ok t → t !! block_path digest = None → InstallSafety.written t (block_path digest) data t' → adds_blocks t t'.
Proof.
  intros Ht Hnone Hw. split; [apply Hw| |].
  - intros q Hq. apply (replaced_others _ _ _ _ Hw); [by intros ->|]. intros (pid & counter & ->). by apply Hq.
  - intros digest' n Hn. rewrite <-Hn. apply (replaced_others _ _ _ _ Hw); [|apply block_never_temp].
    intros Heq. rewrite Heq in Hn. congruence.
Qed.

Lemma hoare_put_block store digest bs t :
  tree_ok t →
  hoare (on_tree t) (put_block blake3 store digest bs)
    (λ _ d, adds_blocks t (tree d) ∧ block_stored (tree d) digest) (λ d, adds_blocks t (tree d)).
Proof.
  intros Ht. assert (Hrefl : ∀ d, on_tree t d → adds_blocks t (tree d)) by (intros d ->; by apply adds_refl).
  unfold put_block. destruct (_ || _); [by apply hoare_fail|]. case_bool_decide as Hb; [by apply hoare_fail|].
  eapply hoare_look; [apply looks_block_status|done|]. intros s Hst.
  destruct s as [|size|size]; [| |by apply hoare_fail].
  2: { destruct Hst as (bs' & x & Hp & Hb' & _). apply hoare_ret. intros d ->. split; [by apply adds_refl|by exists bs', x]. }
  apply (stat_not_found _ _ _ Ht) in Hst.
  eapply hoare_look; [apply looks_block_usage|done|]. intros u _.
  eapply hoare_look; [apply looks_lift|done|]. intros total _.
  destruct (_ <? _) eqn:Hq; [by apply hoare_fail|].
  eapply hoare_look; [apply looks_validate_owned|done|]. intros [] _.
  eapply hoare_call; [by apply hoare_owned_directory|intros d Hm; by apply (made_adds t digest)|]. intros [].
  apply hoare_any. intros d1 [Hm _]. set (t1 := tree d1) in *.
  apply (hoare_pre _ (on_tree t1)); [by intros d ->|].
  pose proof (made_adds t digest t1 Ht Hm) as Hadd.
  assert (Hnone : t1 !! block_path digest = None).
  { destruct Hm as [->|(-> & Hn & _)]; [done|]. rewrite lookup_insert_ne; [done|].
    intros Heq. by apply (f_equal length) in Heq. }
  assert (Hwritten : ∀ t', InstallSafety.written t1 (block_path digest) bs t' → adds_blocks t t').
  { intros t' Hw. eapply adds_trans; [exact Hadd|]. by apply (written_adds t1 digest bs); [apply Hadd|..]. }
  eapply hoare_bind with (Q := λ r d, adds_blocks t (tree d) ∧
    (is_ok r = true → tree d !! block_path digest = Some (Regular bs false))).
  { apply hoare_try. eapply hoare_conseq; [apply hoare_owned_write; [apply Hadd|apply block_not_temp]|done|..].
    - intros [] d [Hw Hd]. split; [by apply Hwritten|]. intros _. rewrite Hd. apply lookup_insert_eq.
    - intros d Hw e. split; [by apply Hwritten|done]. }
  intros [[]|e].
  - apply hoare_ret. intros d [Hd Hnew]. split; [done|]. exists bs, false. split; [by apply Hnew|done].
  - apply hoare_any. intros d2 [Hd2 _]. apply (hoare_pre _ (on_tree (tree d2))); [by intros d ->|].
    eapply hoare_look; [apply looks_owned_exists|by intros d ->|]. intros [] _; [|apply hoare_fail; by intros d ->].
    eapply hoare_look; [apply looks_block_status|by intros d ->|]. intros s Hs.
    destruct s; [apply hoare_fail; by intros d ->| |apply hoare_fail; by intros d ->].
    apply hoare_ret. intros d ->. split; [done|]. destruct Hs as (bs' & x & Hp & Hb' & _). by exists bs', x.
Qed.

Lemma hoare_ingest_blocks file offset store l n t :
  tree_ok t →
  hoare (on_tree t) (ingest_blocks blake3 file offset store l n)
    (λ _ d, adds_blocks t (tree d) ∧ Forall (λ b, block_stored (tree d) (block_digest b)) l)
    (λ d, adds_blocks t (tree d)).
Proof.
  revert n t. induction l as [|b l IH]; intros n t Ht; cbn [ingest_blocks].
  - apply hoare_ret. intros d ->. split; [by apply adds_refl|done].
  - assert (Hrefl : ∀ d, on_tree t d → adds_blocks t (tree d)) by (intros d ->; by apply adds_refl).
    apply hoare_lift_at; [done|]. intros raw _. case_bool_decide; [by apply hoare_fail|].
    eapply hoare_bind with (Q := λ _ d, adds_blocks t (tree d) ∧ block_stored (tree d) (block_digest b)).
    { intros d Hd. pose proof (hoare_put_block store (block_digest b) raw t Ht d Hd) as Hp.
      unfold stored. by destruct (put_block _ _ _ _ d) as [d' [x|e]]. }
    intros new. apply hoare_any. intros d1 [Ha Hb]. apply (hoare_pre _ (on_tree (tree d1))); [by intros d ->|].
    eapply hoare_look with (φ := λ _ _, True); [|by intros d ->|].
    { destruct new; [|by apply looks_ret]. eapply looks_conseq; [apply looks_lift|done]. }
    intros n' _. eapply hoare_conseq; [apply (IH n' (tree d1)), Ha|done|..].
    + intros m d [Ha' Hl]. split; [by eapply adds_trans|]. constructor; [by eapply adds_stored|done].
    + intros d Ha'. by eapply adds_trans.
Qed.

(** Ingestion stores the blocks of a bundle: it changes nothing but the block directory and
    no block that was there, whatever call fails, and when it succeeds every block of the
    bundle is stored under its digest. *)
Theorem ingestion_stores_every_block file verified store d d' r :
  tree_ok (tree d) → ingest_verified_blocks blake3 file verified store d = (d', r) →
  adds_blocks (tree d) (tree d') ∧
  (is_ok r = true → Forall (λ b, block_stored (tree d') (block_digest b)) (blocks (envelope verified))).
Proof.
  intros Hok Hrun. unfold ingest_verified_blocks in Hrun.
  pose proof (hoare_ingest_blocks file (payload_offset (inspected_header verified)) store
    (blocks (envelope verified)) 0 (tree d) Hok d eq_refl) as Hi.
  rewrite Hrun in Hi. destruct r as [n|e]; [|by split]. destruct Hi as [Ha Hf]. by split.
Qed.
End ingestion.

(** ** The theorem *)

Section theorem.
Context `{DirOrder, PointerWidth, Serde RuntimeManifest}.
Context (blake3 : bytes → bytes) (nfc : str → str) (link_resolves : Files.path → bool).

(** C10: Materialization is atomic.  Whatever system calls fail during
    [materialize_verified_application], from whatever state of the disk: the tree is as it
    was outside of the directory [images] itself, the staging directory and the image
    directory of the bundle; the image directory is as it was, or it was absent or empty and
    now holds exactly the directories, files and links of the bundle (every file the blocks
    the bundle lists, with its size, digest and mode) and the manifest.  When the call
    returns an application, the image is one that describes it, and its main file has the
    size and the digest that the manifest records. *)
Theorem materialization_is_atomic verified d d' r :
  tree_ok (tree d) →
  materialize_verified_application blake3 nfc link_resolves verified d = (d', r) →
  undamaged blake3 verified (tree d) (tree d') ∧
  (∀ app, r = Ok app → ready_to_run blake3 nfc verified (tree d') app).
Proof.
  intros Hok Hrun. pose proof (hoare_materialize blake3 nfc link_resolves verified (tree d) Hok d eq_refl) as Hm.
  rewrite Hrun in Hm. destruct r as [app|e]; [|by split]. destruct Hm as [Hu Happ]. split; [done|].
  by intros app' [= <-].
Qed.

(** An image that [load_materialized_application] opens is one whose manifest names the
    bundle and whose main file has the size and digest that the manifest records. *)
Theorem loaded_application_is_intact root d d' app :
  load_materialized_application blake3 nfc root d = (d', Ok app) →
  tree d' = tree d ∧ ∃ manifest, manifest_at (tree d) root manifest ∧
    runs blake3 nfc (tree d) (image_dir root) manifest app.
Proof.
  intros Hrun. pose proof (looks_load blake3 nfc root (tree d) d eq_refl) as Hl. rewrite Hrun in Hl.
  by destruct Hl as (Hd & _ & Hm).
Qed.
End theorem.

(** ** A bundle is verified, ingested and materialized *)

Module SampleImage.

#[local] Existing Instance SampleBundle.zstd.
#[local] Existing Instance SampleStore.generation_serde.
#[local] Existing Instance SampleStore.journal_serde.

Definition verified : Inspection := SampleBundle.sample_inspection.
Definition root : Digest := bundle_root (inspected_header verified).
Definition sample_manifest : RuntimeManifest :=
  match runtime_manifest verified with
  | Ok manifest => manifest
  | Err _ => {| manifest_schema := 0; manifest_app_id := []; manifest_version := []; manifest_bundle_root := [];
                main_entrypoint := []; main_size := 0; main_digest := [];
                manifest_process := default_process; manifest_data := data (envelope verified) |}
  end.
#[local] Instance manifest_serde : Serde RuntimeManifest := SampleBundle.as_text "M" sample_manifest.

Definition store_disk : Disk := (store_open 1000 SampleStore.empty).1.
Definition ingested : Disk :=
  (ingest_verified_blocks SampleBundle.hash SampleBundle.sample_file verified {| block_quota_bytes := 1000 |} store_disk).1.
Definition no_links (p : Files.path) : bool := true.
Definition materialize (d : Disk) : Disk * result Fault MaterializedApplication :=
  materialize_verified_application SampleBundle.hash SampleBundle.unchanged no_links verified d.
(** The same with the system call number [n] and all behind it failing. *)
Definition cut_short (n : nat) : Disk := set_faults (SampleStore.crash_after n) ingested.

(** The main file of the image, when there is one. *)
Definition main_file (d : Disk) : option Node := tree d !! (image_dir root ++ [ROOT; text "main"]).

Lemma undisturbed_materialization :
  match (materialize ingested).2 with Ok app => main app = image_dir root ++ [ROOT; text "main"] | Err _ => False end ∧
  main_file (materialize ingested).1 = Some (Regular (text "hi") true).
Proof. vm_compute. by split. Qed.

Lemma tree_ok_ingested : tree_ok (tree ingested).
Proof. apply tree_ok_forall. apply (bool_decide_unpack _). by vm_compute. Qed.

(** The daemon stops while the staging directory is being filled, and the bundle is
    materialized again afterwards. *)
Definition again : Disk := set_faults [] (materialize (cut_short 28)).1.
Lemma tree_ok_again : tree_ok (tree again).
Proof. apply tree_ok_forall. apply (bool_decide_unpack _). by vm_compute. Qed.

Lemma materialization_is_atomic_witness :
  tree again !! staging_dir root = Some Directory ∧ main_file again = None ∧
  undamaged SampleBundle.hash verified (tree again) (tree (materialize again).1) ∧
  main_file (materialize again).1 = Some (Regular (text "hi") true).
Proof.
  split; [by vm_compute|]. split; [by vm_compute|]. split; [|by vm_compute].
  refine (proj1 (materialization_is_atomic SampleBundle.hash SampleBundle.unchanged no_links verified again
    (materialize again).1 (materialize again).2 tree_ok_again _)).
  apply surjective_pairing.
Defined.
End SampleImage.
