(* ===== verification/Supervisor.v ===== *)
(** * Application processes: src/device/kindlebridged/src/app.rs

    [AppInstance], the life cycle of an application as a state machine; [AppSupervisor],
    whose actor owns the processes of the applications; the runner process that restarts
    an application and copies its output to capped logs.  Requests to the supervisor are
    answered one at a time by its actor, so that a request is a function on its state; the
    processes, their signals and the clock are the interface [Processes]. *)

From S2P Require Import Prelude Text Files InstallStore FileHandles.
From S2P Require Import BundleError Paths Utf8 BundleHeader Cbor BundleModel Verify Activation DeviceInstall.

(** ** [AppInstance] *)

Module AppState.

Inductive AppState : Type := Installed | Starting | Running | Stopping | Stopped | Crashed.

End AppState.
Abbreviation AppState := AppState.AppState.

#[export] Instance AppState_eq_dec : EqDecision AppState.
Proof. solve_decision. Defined.
#[export] Instance RestartPolicy_eq_dec : EqDecision RestartPolicy.
Proof. solve_decision. Defined.

Module AppError.

Inductive AppError : Type :=
| InvalidLogicalId
| InvalidChannel
| InvalidTransition (from : AppState) (action : string).

End AppError.
Abbreviation AppError := AppError.AppError.

Record AppInstance : Type := {
  logical_id : bytes;
  instance_channel : bytes;
  instance_generation : bytes;
  restart_policy : RestartPolicy;
  app_state : AppState;
  restart_count : Z;
}.
Definition set_app_state (s : AppState) (a : AppInstance) : AppInstance :=
  {| logical_id := logical_id a; instance_channel := instance_channel a;
     instance_generation := instance_generation a; restart_policy := restart_policy a;
     app_state := s; restart_count := restart_count a |}.
Definition set_restart_count (n : Z) (a : AppInstance) : AppInstance :=
  {| logical_id := logical_id a; instance_channel := instance_channel a;
     instance_generation := instance_generation a; restart_policy := restart_policy a;
     app_state := app_state a; restart_count := n |}.

Definition lower (b : byte) : bool := in_span 97 122 b.
Definition digit (b : byte) : bool := in_span 48 57 b.

Definition valid_identifier_component (value : bytes) : bool :=
  negb (bool_decide (value = [])) && (len value <=? 63) &&
  forallb (λ b, lower b || digit b || bool_decide (b = x2d)) value &&
  match head value with Some b => lower b | None => false end &&
  match last value with Some b => lower b || digit b | None => false end.
Definition valid_logical_id (value : bytes) : bool :=
  let components := split_text x2e value in
  forallb valid_identifier_component components && (2 <=? len components) && (len value <=? 255).
Definition valid_channel (value : bytes) : bool :=
  negb (bool_decide (value = [])) && (len value <=? 64) &&
  forallb (λ b, lower b || digit b || bool_decide (b = x2d) || bool_decide (b = x5f)) value.

Definition instance_new (id channel generation : bytes) (policy : RestartPolicy) :
    result AppError AppInstance :=
  if negb (valid_logical_id id) then Err AppError.InvalidLogicalId else
  if negb (valid_channel channel) then Err AppError.InvalidChannel else
  Ok {| logical_id := id; instance_channel := channel; instance_generation := generation;
        restart_policy := policy; app_state := AppState.Installed; restart_count := 0 |}.

Definition transition (expected target : AppState) (action : string) : M AppInstance AppError unit :=
  let! a := mget in
  if bool_decide (app_state a ≠ expected)
  then mfail (AppError.InvalidTransition (app_state a) action) else
  mmodify (set_app_state target).

Definition request_start : M AppInstance AppError unit :=
  let! a := mget in
  if bool_decide (app_state a ∈ [AppState.Installed; AppState.Stopped; AppState.Crashed])
  then mmodify (set_app_state AppState.Starting)
  else mfail (AppError.InvalidTransition (app_state a) "start").
Definition mark_started : M AppInstance AppError unit :=
  transition AppState.Starting AppState.Running "mark-started".
Definition request_stop : M AppInstance AppError unit :=
  transition AppState.Running AppState.Stopping "stop".
Definition mark_stopped : M AppInstance AppError unit :=
  transition AppState.Stopping AppState.Stopped "mark-stopped".
(** [true]: the process is to be started again. *)
Definition mark_exited (successful : bool) : M AppInstance AppError bool :=
  let! a := mget in
  if negb (bool_decide (app_state a ∈ [AppState.Starting; AppState.Running]))
  then mfail (AppError.InvalidTransition (app_state a) "process-exit") else
  if successful then
    do! mmodify (set_app_state AppState.Stopped) in mret false
  else
    do! mmodify (set_app_state AppState.Crashed) in
    if bool_decide (restart_policy a = RestartPolicy.OnFailure) then
      do! mmodify (λ a, set_restart_count (saturating_add u32_max (restart_count a) 1) a) in
      mret true
    else mret false.

(** ** Processes *)

Module Signal.

Inductive Signal : Type := SIGTERM | SIGKILL.

End Signal.
Abbreviation Signal := Signal.Signal.

Inductive KillError : Type := ESRCH | OtherKillError (kind : IoErrorKind).

(** An argument or variable of a command: text, or a path below the activation root. *)
Inductive Word : Type := Literal (text : bytes) | PathWord (p : Files.path).

Record Launch : Type := {
  arguments : list Word;
  current_dir : Files.path;
  variables : gmap bytes Word;
}.

(** [std::process], [killpg] and the clock.  A process is known by its PID; whether it exited
    with success is all that is looked at.  [polls_left pid timeout]: how often the clock is
    read before a deadline [timeout] milliseconds ahead. *)
Class Processes (P : Type) := {
  spawn : Launch → P → P * result IoErrorKind Z;
  try_wait : Z → P → P * result IoErrorKind (option bool);
  wait : Z → P → P * result IoErrorKind unit;
  killpg : Z → Signal → P → P * result KillError unit;
  polls_left : Z → P → nat;
  (** The process ID of the daemon and the nanoseconds since the epoch, in hexadecimal. *)
  run_stamp : P → P * result IoErrorKind bytes;
  (** [std::env::var_os]. *)
  device_variable : bytes → option bytes;
}.

(** ** [AppSupervisor] *)

Module RuntimeError.

Inductive RuntimeError : Type :=
| Unavailable
| DifferentGenerationRunning
| Filesystem (source : IoErrorKind)
| Spawn (source : IoErrorKind)
| Status (source : IoErrorKind)
| Stop (source : IoErrorKind).

End RuntimeError.
Abbreviation RuntimeError := RuntimeError.RuntimeError.

Module RuntimeStatus.

Inductive RuntimeStatus : Type := Stopped | Running (pid : Z) | Failed.

End RuntimeStatus.
Abbreviation RuntimeStatus := RuntimeStatus.RuntimeStatus.

#[export] Instance runtime_from_io : FromIo RuntimeError := RuntimeError.Filesystem.

Record ManagedApplication : Type := { managed_root : Digest; child : Z }.
#[export] Instance ManagedApplication_eq_dec : EqDecision ManagedApplication.
Proof. solve_decision. Defined.
Record TerminalApplication : Type := { terminal_root : Digest; failed : bool }.

(** The state of the actor, with the files and the processes it works on. *)
Record Supervisor (P : Type) : Type := {
  children : gmap bytes ManagedApplication;
  terminal : gmap bytes TerminalApplication;
  disk : Disk;
  processes : P;
}.
Arguments children {P}. Arguments terminal {P}. Arguments disk {P}. Arguments processes {P}.

Definition DATA : bytes := text "data".
Definition LOGS : bytes := text ".kindlebridge-logs".
Definition APP_STDOUT_LOG : bytes := text "stdout.log".
Definition APP_STDERR_LOG : bytes := text "stderr.log".
Definition APP_RUN_ID : bytes := text "run-id".

Section supervisor.
Context {P : Type} `{Processes P}.

Definition set_children (m : gmap bytes ManagedApplication) (s : Supervisor P) : Supervisor P :=
  {| children := m; terminal := terminal s; disk := disk s; processes := processes s |}.
Definition set_terminal (m : gmap bytes TerminalApplication) (s : Supervisor P) : Supervisor P :=
  {| children := children s; terminal := m; disk := disk s; processes := processes s |}.
Definition set_disk (d : Disk) (s : Supervisor P) : Supervisor P :=
  {| children := children s; terminal := terminal s; disk := d; processes := processes s |}.
Definition set_processes (p : P) (s : Supervisor P) : Supervisor P :=
  {| children := children s; terminal := terminal s; disk := disk s; processes := p |}.

Abbreviation supervisor_op A := (M (Supervisor P) RuntimeError A).
Definition on_disk {A} (m : M Disk RuntimeError A) : supervisor_op A := zoom disk set_disk m.
Definition on_processes {A} (f : IoErrorKind → RuntimeError) (m : P → P * result IoErrorKind A) :
    supervisor_op A := zoom_err processes set_processes f m.

(** [reap_one]. *)
Definition reap_one (app_id : bytes) : supervisor_op unit :=
  let! s := mget in
  match children s !! app_id with
  | None => mret tt
  | Some managed =>
      let! status := on_processes RuntimeError.Status (try_wait (child managed)) in
      match status with
      | None => mret tt
      | Some success =>
          do! mmodify (λ s, set_children (delete app_id (children s)) s) in
          mmodify (λ s, set_terminal (<[app_id := {| terminal_root := managed_root managed;
                                                     failed := negb success |}]> (terminal s)) s)
      end
  end.

(** [ensure_plain_directory] of app.rs. *)
Definition ensure_data_directory (p : Files.path) : M Disk RuntimeError unit :=
  let! r := catch_io (symlink_metadata p) in
  match r with
  | Ok Directory => mret tt
  | Ok _ => mfail (from_io OtherIo)
  | Err NotFound => create_dir_all p
  | Err e => mfail (from_io e)
  end.

(** [fs::write]. *)
Definition write_file (p : Files.path) (content : bytes) : M Disk RuntimeError unit :=
  let! h := file_create p in
  let! _ := handle_write_all h content in
  mret tt.

Definition data_dir (app_id : bytes) : Files.path := [DATA; app_id].
Definition log_dir (app_id : bytes) : Files.path := data_dir app_id ++ [LOGS].

(** [application_command] and what [start_application] adds to it. *)
Definition application_command (app : MaterializedApplication) : list Word :=
  [Literal (text "run-app-supervisor"); Literal (text "--entrypoint"); PathWord (main app);
   Literal (text "--stop-timeout-ms"); Literal (show_unsigned (stop_timeout_ms (app_process app)))] ++
  match restart (app_process app) with
  | RestartPolicy.OnFailure => [Literal (text "--restart-on-failure")]
  | RestartPolicy.Never => []
  end.
Definition copy_device_environment (name : string) (env : gmap bytes Word) : gmap bytes Word :=
  match device_variable (text name) with
  | Some value => <[text name := Literal value]> env
  | None => env
  end.
Definition base_environment (app : MaterializedApplication) : gmap bytes Word :=
  let id := utf8 (application_id app) in
  list_to_map
    [(text "PATH", Literal (text "/usr/local/bin:/usr/bin:/bin:/usr/sbin:/sbin"));
     (text "HOME", PathWord (data_dir id)); (text "TMPDIR", Literal (text "/tmp"));
     (text "SHELL", Literal (text "/bin/sh")); (text "KINDLEBRIDGE_APP_ID", Literal id);
     (text "KINDLEBRIDGE_APP_ROOT", PathWord (image_root app));
     (text "KINDLEBRIDGE_DATA", PathWord (data_dir id));
     (text "KINDLEBRIDGE_STDOUT_LOG", PathWord (log_dir id ++ [APP_STDOUT_LOG]));
     (text "KINDLEBRIDGE_STDERR_LOG", PathWord (log_dir id ++ [APP_STDERR_LOG]))].
Definition launch (app : MaterializedApplication) : Launch :=
  {| arguments := application_command app;
     current_dir := match working_dir (app_process app) with
                    | None => image_root app
                    | Some dir => join_path (image_root app) dir
                    end;
     variables :=
       let env := copy_device_environment "LC_ALL" (copy_device_environment "LANG"
                    (copy_device_environment "DISPLAY" (base_environment app))) in
       foldl (λ env kv, <[utf8 kv.1 := Literal (utf8 kv.2)]> env) env
         (default [] (environment (app_process app))) |}.

(** [start_application]. *)
Definition prepare_logs (app_id run_id : bytes) : M Disk RuntimeError unit :=
  let! _ := file_create (log_dir app_id ++ [APP_STDOUT_LOG]) in
  let! _ := file_create (log_dir app_id ++ [APP_STDERR_LOG]) in
  write_file (log_dir app_id ++ [APP_RUN_ID]) (run_id ++ [LF]).
Definition start_application (app : MaterializedApplication) : supervisor_op Z :=
  let id := utf8 (application_id app) in
  do! reap_one id in
  let! s := mget in
  match children s !! id with
  | Some managed =>
      if bool_decide (managed_root managed = app_bundle_root app) then mret (child managed)
      else mfail RuntimeError.DifferentGenerationRunning
  | None =>
      do! mmodify (λ s, set_terminal (delete id (terminal s)) s) in
      do! on_disk (ensure_data_directory [DATA]) in
      do! on_disk (ensure_data_directory (data_dir id)) in
      do! on_disk (ensure_data_directory (log_dir id)) in
      let! run_id := on_processes RuntimeError.Filesystem run_stamp in
      do! on_disk (prepare_logs id run_id) in
      let! pid := on_processes RuntimeError.Spawn (spawn (launch app)) in
      do! mmodify (λ s, set_children (<[id := {| managed_root := app_bundle_root app; child := pid |}]>
                                        (children s)) s) in
      mret pid
  end.

(** [application_status]. *)
Definition application_status (app_id : bytes) (bundle_root : Digest) : supervisor_op RuntimeStatus :=
  do! reap_one app_id in
  let! s := mget in
  match children s !! app_id with
  | Some managed =>
      if bool_decide (managed_root managed = bundle_root) then mret (RuntimeStatus.Running (child managed))
      else mfail RuntimeError.DifferentGenerationRunning
  | None =>
      mret match terminal s !! app_id with
           | Some t => if bool_decide (terminal_root t = bundle_root) && failed t
                       then RuntimeStatus.Failed else RuntimeStatus.Stopped
           | None => RuntimeStatus.Stopped
           end
  end.

(** [managed_processes]; the keys of a [BTreeMap] are in the order of their bytes. *)
Definition application_ids (s : Supervisor P) : list bytes :=
  foldr set_insert [] ((map_to_list (children s)).*1).
Definition managed_processes : supervisor_op (gmap Z bytes) :=
  let! s := mget in
  do! mforeach reap_one (application_ids s) in
  let! s := mget in
  mret (list_to_map (reverse ((λ id, (default 0 (child <$> children s !! id), id)) <$> application_ids s))).

(** [signal_process_group]. *)
Definition signal_process_group (pid : Z) (signal : Signal) : supervisor_op unit :=
  if 2 ^ 31 - 1 <? pid then mfail (RuntimeError.Stop OtherIo) else
  λ s, match killpg pid signal (processes s) with
       | (p, Ok tt) | (p, Err ESRCH) => (set_processes p s, Ok tt)
       | (p, Err (OtherKillError e)) => (set_processes p s, Err (RuntimeError.Stop e))
       end.

(** [terminate]. *)
Definition exited (pid : Z) : supervisor_op bool :=
  let! status := on_processes RuntimeError.Status (try_wait pid) in
  mret (bool_decide (is_Some status)).
Fixpoint poll_exit (n : nat) (pid : Z) : supervisor_op bool :=
  match n with
  | O => mret false
  | S n =>
      let! gone := exited pid in
      if gone : bool then mret true else poll_exit n pid
  end.
Definition terminate (pid timeout : Z) : supervisor_op unit :=
  let! gone := exited pid in
  if gone : bool then mret tt else
  do! signal_process_group pid Signal.SIGTERM in
  let! s := mget in
  let! gone := poll_exit (polls_left (timeout + 500) (processes s)) pid in
  if gone : bool then mret tt else
  do! signal_process_group pid Signal.SIGKILL in
  on_processes RuntimeError.Stop (wait pid).

(** [stop_application]. *)
Definition stop_application (app_id : bytes) (timeout : Z) : supervisor_op unit :=
  do! mmodify (λ s, set_terminal (delete app_id (terminal s)) s) in
  let! s := mget in
  match children s !! app_id with
  | None => mret tt
  | Some managed =>
      do! mmodify (λ s, set_children (delete app_id (children s)) s) in
      terminate (child managed) timeout
  end.

(** [app_id_for_pid]. *)
Definition app_id_for_pid (pid : Z) : supervisor_op (option bytes) :=
  let! m := managed_processes in
  mret (m !! pid).

(** [supervise_applications]: the requests of the channel, and the end of the actor.  A
    failure to stop an application is ignored there. *)
Inductive SupervisorRequest : Type :=
| Start (app : MaterializedApplication)
| StatusOf (app_id : bytes) (bundle_root : Digest)
| ManagedProcesses
| StopApp (app_id : bytes) (timeout : Z)
| Shutdown.
Inductive SupervisorReply : Type :=
| Started (r : result RuntimeError Z)
| StatusIs (r : result RuntimeError RuntimeStatus)
| Managed (r : result RuntimeError (gmap Z bytes))
| StoppedReply (r : result RuntimeError unit).
Definition answer {A} (reply : result RuntimeError A → SupervisorReply) (m : supervisor_op A)
    (s : Supervisor P) : Supervisor P * list SupervisorReply :=
  let '(s, r) := m s in (s, [reply r]).
Definition shut_down (s : Supervisor P) : Supervisor P :=
  foldl (λ s id, match children s !! id with
                 | Some managed => (terminate (child managed) 2000 (set_children (delete id (children s)) s)).1
                 | None => s
                 end) s (application_ids s).
Definition respond (request : SupervisorRequest) (s : Supervisor P) : Supervisor P * list SupervisorReply :=
  match request with
  | Start app => answer Started (start_application app) s
  | StatusOf app_id bundle_root => answer StatusIs (application_status app_id bundle_root) s
  | ManagedProcesses => answer Managed managed_processes s
  | StopApp app_id timeout => answer StoppedReply (stop_application app_id timeout) s
  | Shutdown => (s, [])
  end.
Fixpoint supervise_applications (requests : list SupervisorRequest) (s : Supervisor P) :
    Supervisor P * list SupervisorReply :=
  match requests with
  | [] | Shutdown :: _ => (shut_down s, [])
  | request :: requests =>
      let '(s, replies) := respond request s in
      let '(s, more) := supervise_applications requests s in
      (s, replies ++ more)
  end.
End supervisor.

(** ** The runner: [run_application_supervisor]

    The runner starts the application and waits for it to exit or for a signal that asks it
    to stop. *)

Definition MAX_CONSECUTIVE_RESTARTS : Z := 3.
Definition RESTART_STABLE_WINDOW : Z := 60000.
Definition RESTART_BACKOFFS : list Z := [50; 100; 200].

(** What the runner waits for: a SIGCHLD that finds the application ended [elapsed]
    milliseconds after its start, or still running; another signal; or the failure of a
    system call (the start of the process, the wait, the join of the log pumps or the
    signals to what is left of the process group), which ends it. *)
Inductive RunnerEvent : Type :=
| ChildExited (elapsed : Z) (success : bool)
| ChildStillRunning
| StopSignal
| CallFailed.
Module RunnerEnd.

Inductive RunnerEnd : Type :=
| Finished | ExitedWithFailure | BudgetExhausted | Stopped | SystemError | Panicked.

End RunnerEnd.
Abbreviation RunnerEnd := RunnerEnd.RunnerEnd.

(** Both loops: how often the application was started, and how the runner ended; [None]:
    it is still at it when there are no more events. *)
Fixpoint run_application_supervisor (restart_on_failure : bool) (count : Z) (events : list RunnerEvent) :
    nat * option RunnerEnd :=
  match events with
  | [] => (1%nat, None)
  | CallFailed :: _ => (1%nat, Some RunnerEnd.SystemError)
  | StopSignal :: _ => (1%nat, Some RunnerEnd.Stopped)
  | ChildStillRunning :: events => run_application_supervisor restart_on_failure count events
  | ChildExited elapsed success :: events =>
      if success then (1%nat, Some RunnerEnd.Finished) else
      if negb restart_on_failure then (1%nat, Some RunnerEnd.ExitedWithFailure) else
      let count := if RESTART_STABLE_WINDOW <=? elapsed then 0 else count in
      if MAX_CONSECUTIVE_RESTARTS <=? count then (1%nat, Some RunnerEnd.BudgetExhausted) else
      match RESTART_BACKOFFS !! Z.to_nat count with
      | None => (1%nat, Some RunnerEnd.Panicked)
      | Some _ =>
          let '(starts, r) := run_application_supervisor restart_on_failure (count + 1) events in
          (S starts, r)
      end
  end.

(** ** Logs: [copy_capped_log_with_limit] *)

Definition MAX_APP_LOG_BYTES : Z := 4 * 1024 * 1024.

(** [OpenOptions::new().create(true).append(true)]. *)
Definition open_append (p : Files.path) : M Disk IoErrorKind unit :=
  do! gate in
  let! d := mget in
  match stat (tree d) p, stat (tree d) (parent p) with
  | Ok (Regular _ _), _ => mret tt
  | Ok _, _ => mfail OtherIo
  | Err NotFound, Ok Directory => mmodify (set_tree (<[p := Regular [] false]> (tree d)))
  | Err e, _ => mfail e
  end.
Definition append_all (p : Files.path) (data : bytes) : M Disk IoErrorKind unit :=
  let! file := handle_file {| handle_path := p; cursor := 0 |} in
  let! _ := handle_write_all {| handle_path := p; cursor := length file.1 |} data in
  mret tt.

(** [chunks] is what the reads of the pipe return; the end of it is the end of the pipe. *)
Fixpoint copy_chunks (chunks : list (result IoErrorKind bytes)) (p : Files.path) (limit written : Z) :
    M Disk IoErrorKind unit :=
  match chunks with
  | [] | Ok [] :: _ => gate
  | Err e :: _ => mfail e
  | Ok buffer :: chunks =>
      if written <? limit then
        let accepted := Z.min (len buffer) (limit - written) in
        do! append_all p (take (Z.to_nat accepted) buffer) in
        copy_chunks chunks p limit (written + accepted)
      else copy_chunks chunks p limit written
  end.
Definition copy_capped_log_with_limit (chunks : list (result IoErrorKind bytes)) (p : Files.path) (limit : Z) :
    M Disk IoErrorKind unit :=
  do! open_append p in
  let! length := handle_len {| handle_path := p; cursor := 0 |} in
  copy_chunks chunks p limit (Z.min length limit).
Definition copy_capped_log (chunks : list (result IoErrorKind bytes)) (p : Files.path) : M Disk IoErrorKind unit :=
  copy_capped_log_with_limit chunks p MAX_APP_LOG_BYTES.

(** ** The life cycle *)

Inductive lifecycle : AppState → AppState → Prop :=
| starts_installed : lifecycle AppState.Installed AppState.Starting
| starts_stopped : lifecycle AppState.Stopped AppState.Starting
| starts_crashed : lifecycle AppState.Crashed AppState.Starting
| comes_up : lifecycle AppState.Starting AppState.Running
| is_asked_to_stop : lifecycle AppState.Running AppState.Stopping
| has_stopped : lifecycle AppState.Stopping AppState.Stopped
| ends_while_starting : lifecycle AppState.Starting AppState.Stopped
| ends : lifecycle AppState.Running AppState.Stopped
| crashes_while_starting : lifecycle AppState.Starting AppState.Crashed
| crashes : lifecycle AppState.Running AppState.Crashed.

Inductive InstanceCall : Type :=
| RequestStart | MarkStarted | RequestStop | MarkStopped | MarkExited (successful : bool).
Definition instance_call (c : InstanceCall) : M AppInstance AppError bool :=
  match c with
  | RequestStart => do! request_start in mret false
  | MarkStarted => do! mark_started in mret false
  | RequestStop => do! request_stop in mret false
  | MarkStopped => do! mark_stopped in mret false
  | MarkExited successful => mark_exited successful
  end.

(** An application goes through its life cycle only: a call either is refused and leaves the
    instance as it was, or it makes a step of the life cycle; it asks for a restart exactly
    when the application crashed and its policy is to restart it, and counts it. *)
Theorem instance_follows_the_life_cycle c a a' r :
  instance_call c a = (a', r) →
  match r with
  | Err _ => a' = a
  | Ok again =>
      lifecycle (app_state a) (app_state a') ∧ logical_id a' = logical_id a ∧ restart_policy a' = restart_policy a ∧
      (again = true ↔ app_state a' = AppState.Crashed ∧ restart_policy a = RestartPolicy.OnFailure) ∧
      restart_count a' = if again then saturating_add u32_max (restart_count a) 1 else restart_count a
  end.
Proof.
  destruct c, a as [id ch g [] [] n]; cbn; try (intros [= <- <-]; cbn; repeat split; (constructor || done || naive_solver));
    destruct successful; intros [= <- <-]; cbn; repeat split; (constructor || done || naive_solver).
Qed.

(** ** The restart budget *)

Definition is_stable (e : RunnerEvent) : bool :=
  match e with ChildExited elapsed _ => RESTART_STABLE_WINDOW <=? elapsed | _ => false end.
Definition stable_runs (events : list RunnerEvent) : nat := length (filter (λ e, is_stable e = true) events).

Lemma starts_bounded restart_on_failure count events :
  0 ≤ count ≤ MAX_CONSECUTIVE_RESTARTS →
  let r := run_application_supervisor restart_on_failure count events in
  Z.of_nat r.1 ≤ 1 + (MAX_CONSECUTIVE_RESTARTS - count) + MAX_CONSECUTIVE_RESTARTS * Z.of_nat (stable_runs events) ∧
  r.2 ≠ Some RunnerEnd.Panicked.
Proof.
  revert count. induction events as [|[elapsed success| | |] events IH]; intros count Hc; cbn [run_application_supervisor];
    [| |exact (IH count Hc)|..]; try by unfold MAX_CONSECUTIVE_RESTARTS in *; split; [cbn; lia|].
  assert (Hstable : stable_runs (ChildExited elapsed success :: events) =
    ((if (RESTART_STABLE_WINDOW <=? elapsed)%Z then 1 else 0) + stable_runs events)%nat).
  { unfold stable_runs. cbn [filter list_filter is_stable]. destruct (RESTART_STABLE_WINDOW <=? elapsed) eqn:He; cbn;
      by rewrite ?He; cbn. }
  rewrite Hstable. unfold MAX_CONSECUTIVE_RESTARTS in *.
  destruct success; [split; [cbn; lia|done]|]. destruct restart_on_failure; cbn [negb]; [|split; [cbn; lia|done]].
  set (count' := if RESTART_STABLE_WINDOW <=? elapsed then 0 else count).
  assert (Hc' : 0 ≤ count' ≤ 3) by (unfold count'; destruct (_ <=? _); lia).
  destruct (3 <=? count') eqn:Hmax; [split; [cbn; lia|done]|]. apply Z.leb_gt in Hmax.
  assert (Hb : ∃ b, RESTART_BACKOFFS !! Z.to_nat count' = Some b).
  { apply lookup_lt_is_Some. cbn. lia. }
  destruct Hb as [b ->]. destruct (IH (count' + 1)) as [Hn Hr]; [lia|].
  destruct (run_application_supervisor true (count' + 1) events) as [starts r]. cbn [fst snd] in *.
  split; [|done]. unfold count' in *. destruct (RESTART_STABLE_WINDOW <=? elapsed); lia.
Qed.

(** The runner starts an application at most once more than three times per failure that
    came after a minute or more of running, and it never indexes beyond its back-offs: an
    application that fails at once is started four times. *)
Theorem restarts_are_bounded restart_on_failure events :
  let r := run_application_supervisor restart_on_failure 0 events in
  Z.of_nat r.1 ≤ 4 + 3 * Z.of_nat (stable_runs events) ∧ r.2 ≠ Some RunnerEnd.Panicked.
Proof.
  pose proof (starts_bounded restart_on_failure 0 events) as Hb. unfold MAX_CONSECUTIVE_RESTARTS in Hb.
  cbv zeta in *. destruct Hb as [Hb Hp]; [lia|]. split; [lia|done].
Qed.

(** ** Logs are capped *)

(** What the pipe delivers before it ends or fails. *)
Fixpoint piped (chunks : list (result IoErrorKind bytes)) : bytes :=
  match chunks with
  | [] | Ok [] :: _ | Err _ :: _ => []
  | Ok buffer :: chunks => buffer ++ piped chunks
  end.
(** What of [input] still fits into a log that holds [c]. *)
Definition fitting (limit : Z) (c input : bytes) : bytes := take (Z.to_nat (limit - len c)) input.

Section logs.
Context (p : Files.path) (limit : Z) (x : bool).
Implicit Types (t : gmap Files.path Node) (c : bytes).

Definition log_is t c (d : Disk) : Prop := on_tree (<[p := Regular c x]> t) d.

Lemma hoare_append_all t c data :
  hoare (log_is t c) (append_all p data) (λ _, log_is t (c ++ data))
    (λ d, ∃ part, part `prefix_of` data ∧ log_is t (c ++ part) d).
Proof.
  unfold append_all. set (t' := <[p := Regular c x]> t).
  assert (Hp : t' !! p = Some (Regular c x)) by apply lookup_insert_eq.
  assert (Hnone : ∀ d, on_tree t' d → ∃ part, part `prefix_of` data ∧ log_is t (c ++ part) d).
  { intros d Hd. exists []. split; [apply prefix_nil|]. by rewrite app_nil_r. }
  eapply hoare_look; [apply looks_handle_file|exact Hnone|]. intros [c' x'] Hf.
  cbn [handle_path fst snd] in Hf. rewrite lookup_insert_eq in Hf. injection Hf as <- <-.
  eapply hoare_bind with (Q := λ _, log_is t (c ++ data)); [|intros h; by apply hoare_ret].
  unfold handle_write_all. eapply hoare_call; [by apply (hoare_handle_write _ _ t' c x)|exact Hnone|].
  intros [h' ok] d (part & Hpre & Hall & _ & Hd). cbn [handle_path cursor] in Hd.
  unfold t' in Hd. rewrite written_end, insert_insert_eq in Hd. destruct ok; cbn.
  - by rewrite <-(Hall eq_refl).
  - by exists part.
Qed.

Lemma hoare_copy_chunks t c chunks :
  hoare (log_is t c) (copy_chunks chunks p limit (Z.min (len c) limit))
    (λ _, log_is t (c ++ fitting limit c (piped chunks)))
    (λ d, ∃ part, part `prefix_of` fitting limit c (piped chunks) ∧ log_is t (c ++ part) d).
Proof.
  assert (Hstay : ∀ c input d, log_is t c d → ∃ part, part `prefix_of` fitting limit c input ∧ log_is t (c ++ part) d).
  { intros c' input d Hd. exists []. split; [apply prefix_nil|]. by rewrite app_nil_r. }
  assert (Hend : ∀ c, hoare (log_is t c) (gate : M Disk IoErrorKind unit) (λ _, log_is t (c ++ fitting limit c []))
    (λ d, ∃ part, part `prefix_of` fitting limit c [] ∧ log_is t (c ++ part) d)).
  { intros c'. eapply hoare_conseq; [apply (hoare_gate (<[p := Regular c' x]> t))|done| |].
    - intros [] d Hd. unfold fitting. by rewrite take_nil, app_nil_r.
    - intros d Hd. by apply Hstay. }
  revert c. induction chunks as [|[[|b buffer]|e] chunks IH]; intros c; cbn [copy_chunks piped];
    [apply (Hend c)|apply (Hend c)| |by apply hoare_fail; intros d; apply (Hstay c [])].
  set (data := b :: buffer). destruct (Z.min (len c) limit <? limit) eqn:Hfull.
  - apply Z.ltb_lt in Hfull. assert (Hc : Z.min (len c) limit = len c) by lia. rewrite Hc.
    set (taken := take (Z.to_nat (Z.min (len data) (limit - len c))) data).
    assert (Htaken : taken = take (Z.to_nat (limit - len c)) data).
    { unfold taken. destruct (Z.min_spec (len data) (limit - len c)) as [[Hl ->]|[_ ->]]; [|done].
      rewrite take_ge by (unfold len; lia). rewrite take_ge by (unfold len in *; lia). done. }
    assert (Hlen : len (c ++ taken) = len c + Z.min (len data) (limit - len c)).
    { rewrite len_app. unfold taken, len. rewrite length_take. unfold len in *. lia. }
    assert (Hfit : ∀ rest, fitting limit c (data ++ rest) = taken ++ fitting limit (c ++ taken) rest).
    { intros rest. unfold fitting. rewrite take_app, <-Htaken. f_equal. f_equal. rewrite Hlen. unfold len. lia. }
    rewrite Hfit. eapply hoare_call; [apply hoare_append_all|..].
    + intros d (part & Hpre & Hd). exists part. split; [by apply prefix_app_r|done].
    + intros []. replace (len c + Z.min (len data) (limit - len c)) with (Z.min (len (c ++ taken)) limit)
        by (rewrite Hlen; lia).
      eapply hoare_conseq; [apply IH|done|by intros [] d; rewrite app_assoc|].
      intros d (part & Hpre & Hd). exists (taken ++ part). split; [by apply prefix_app|]. by rewrite app_assoc.
  - apply Z.ltb_ge in Hfull. assert (Hz : ∀ input, fitting limit c input = []).
    { intros input. unfold fitting. replace (Z.to_nat (limit - len c)) with O by lia. done. }
    specialize (IH c). rewrite !Hz in *. exact IH.
Qed.
End logs.

(** A log is capped: whatever the application writes and whatever call fails, what is appended
    to its log is the beginning of its output, up to the limit; when the copy succeeds it is
    all of the output that fits. *)
Theorem log_is_capped p limit chunks d d' r c x :
  tree_ok (tree d) → tree d !! p = Some (Regular c x) → copy_capped_log_with_limit chunks p limit d = (d', r) →
  ∃ part, tree d' = <[p := Regular (c ++ part) x]> (tree d) ∧
    part `prefix_of` fitting limit c (piped chunks) ∧ (r = Ok tt → part = fitting limit c (piped chunks)) ∧
    len (c ++ part) ≤ Z.max (len c) limit.
Proof.
  intros Hok Hp Hrun. set (t := tree d) in *.
  assert (Hh : hoare (on_tree t) (copy_capped_log_with_limit chunks p limit)
    (λ _, log_is p x t (c ++ fitting limit c (piped chunks)))
    (λ d, ∃ part, part `prefix_of` fitting limit c (piped chunks) ∧ log_is p x t (c ++ part) d)).
  { assert (Hstay : ∀ d, on_tree t d → ∃ part, part `prefix_of` fitting limit c (piped chunks) ∧ log_is p x t (c ++ part) d).
    { intros d0 Hd. exists []. split; [apply prefix_nil|]. unfold log_is. by rewrite app_nil_r, insert_id. }
    unfold copy_capped_log_with_limit. eapply hoare_call with (Q' := λ _, on_tree t) (C' := on_tree t); [|exact Hstay|].
    - eapply hoare_bind; [apply hoare_gate|]. intros [] d0 Hd. cbn. unfold on_tree in Hd. rewrite Hd.
      by rewrite (stat_complete t p _ Hok Hp).
    - intros []. eapply hoare_look; [apply looks_handle_len|exact Hstay|]. intros n (c' & x' & Hc & ->).
      cbn [handle_path] in Hc. rewrite Hp in Hc. injection Hc as <- <-.
      eapply hoare_pre; [|apply hoare_copy_chunks]. intros d0 Hd. unfold log_is. by rewrite insert_id. }
  specialize (Hh d eq_refl). rewrite Hrun in Hh.
  assert (Hbound : ∀ part, part `prefix_of` fitting limit c (piped chunks) → len (c ++ part) ≤ Z.max (len c) limit).
  { intros part Hpre%prefix_length. unfold fitting in Hpre. rewrite length_take in Hpre. rewrite len_app.
    unfold len in *. lia. }
  destruct r as [[]|e].
  - eexists. split; [exact Hh|]. split; [done|]. split; [done|]. by apply Hbound.
  - destruct Hh as (part & Hpre & Hd). exists part. split; [done|]. split; [done|]. split; [done|by apply Hbound].
Qed.

(** ** Processes are owned *)

(** What the system promises: a process exists from its start until its parent has seen its
    exit. *)
Class ProcessLaws (P : Type) `{Processes P} := {
  existing : P → gset Z;
  spawn_exists l p p' r : spawn l p = (p', r) →
    match r with
    | Ok pid => (pid ∉ existing p) ∧ existing p' = {[pid]} ∪ existing p
    | Err _ => existing p' = existing p
    end;
  try_wait_reaps pid p p' r : try_wait pid p = (p', r) →
    existing p' = match r with Ok (Some _) => existing p ∖ {[pid]} | _ => existing p end;
  wait_reaps pid p p' r : wait pid p = (p', r) →
    existing p' = match r with Ok tt => existing p ∖ {[pid]} | Err _ => existing p end;
  kill_reaps_none pid signal p p' r : killpg pid signal p = (p', r) → existing p' = existing p;
  stamp_reaps_none p p' r : run_stamp p = (p', r) → existing p' = existing p;
}.

Section ownership.
Context {P : Type} `{ProcessLaws P}.
Implicit Types s : Supervisor P.

Abbreviation supervisor_op A := (M (Supervisor P) RuntimeError A).

(** The processes that exist are those of the managed applications, one each. *)
Definition owns_all (m : gmap bytes ManagedApplication) (pids : gset Z) : Prop :=
  (∀ pid, pid ∈ pids ↔ ∃ id a, m !! id = Some a ∧ child a = pid) ∧
  (∀ id id' a a', m !! id = Some a → m !! id' = Some a' → child a = child a' → id = id').
Definition owned s : Prop := owns_all (children s) (existing (processes s)).

Lemma owns_delete m pids id a :
  owns_all m pids → m !! id = Some a → owns_all (delete id m) (pids ∖ {[child a]}).
Proof.
  intros [Hall Hinj] Ha. split.
  - intros pid. rewrite elem_of_difference, elem_of_singleton, Hall. split.
    + intros [(id' & a' & Ha' & <-) Hne]. exists id', a'. split; [|done].
      rewrite lookup_delete_ne; [done|]. intros <-. apply Hne. congruence.
    + intros (id' & a' & [Hne Ha']%lookup_delete_Some & <-). split; [by exists id', a'|].
      intros Heq. apply Hne. by eapply Hinj.
  - intros i j ai aj [_ Hi]%lookup_delete_Some [_ Hj]%lookup_delete_Some. by apply Hinj.
Qed.
Lemma owns_insert m pids id a :
  owns_all m pids → m !! id = None → child a ∉ pids → owns_all (<[id := a]> m) ({[child a]} ∪ pids).
Proof.
  intros [Hall Hinj] Hnone Hnew. split.
  - intros pid. rewrite elem_of_union, elem_of_singleton, Hall. split.
    + intros [->|(id' & a' & Ha' & <-)]; [exists id, a; by rewrite lookup_insert_eq|].
      exists id', a'. split; [|done]. rewrite lookup_insert_ne; [done|]. intros <-. congruence.
    + intros (id' & a' & [[<- <-]|[_ Ha']]%lookup_insert_Some & <-); [by left|right; by exists id', a'].
  - assert (Hfresh : ∀ i ai, m !! i = Some ai → child ai ≠ child a).
    { intros i ai Hi Heq. apply Hnew, Hall. by exists i, ai. }
    intros i j ai aj [[<- <-]|[_ Hi]]%lookup_insert_Some [[<- <-]|[_ Hj]]%lookup_insert_Some Heq;
      [done|by apply Hfresh in Hj|by apply Hfresh in Hi|by eapply Hinj].
Qed.

(** A call that keeps the processes owned. *)
Definition keeps_owned {A} (m : supervisor_op A) : Prop := hoare owned m (λ _, owned) owned.

Lemma keeps_bind {A B} (m : supervisor_op A) (k : A → supervisor_op B) :
  keeps_owned m → (∀ a, keeps_owned (k a)) → keeps_owned (mbnd m k).
Proof. intros Hm Hk. eapply hoare_bind; [exact Hm|exact Hk]. Qed.
Lemma keeps_disk {A} (m : M Disk RuntimeError A) : keeps_owned (on_disk m).
Proof. intros s Hs. unfold on_disk, zoom. by destruct (m (disk s)) as [d [a|e]]. Qed.

Lemma hoare_try_wait id a f :
  hoare (λ s, owned s ∧ children s !! id = Some a) (on_processes f (try_wait (child a)))
    (λ r s, match r with
            | Some _ => owned (set_children (delete id (children s)) s)
            | None => owned s
            end ∧ children s !! id = Some a) owned.
Proof.
  intros s [Hs Ha]. unfold on_processes, zoom_err. destruct (try_wait (child a) (processes s)) as [p r] eqn:Hw.
  apply try_wait_reaps in Hw. destruct r as [[b|]|e]; cbn [map_err]; unfold owned in *; cbn; rewrite Hw; [|done|done].
  split; [by apply owns_delete|done].
Qed.

Lemma reap_keeps id : keeps_owned (reap_one id).
Proof.
  apply hoare_any. intros s0 Hs0. apply hoare_get_at. destruct (children s0 !! id) as [a|] eqn:Ha; [|apply hoare_ret; by intros s ->].
  eapply hoare_bind; [eapply hoare_pre; [|apply (hoare_try_wait id a)]; by intros s ->|].
  intros [b|]; [|apply hoare_ret; by intros s [Hs _]].
  eapply hoare_bind with (Q := λ _, owned); [apply hoare_modify; by intros s [Hs _]|].
  intros []. apply hoare_modify. by intros s Hs.
Qed.

Lemma start_keeps app : keeps_owned (start_application app).
Proof.
  unfold start_application. apply keeps_bind; [apply reap_keeps|]. intros [].
  apply hoare_any. intros s0 Hs0. apply hoare_get_at. set (id := utf8 (application_id app)).
  destruct (children s0 !! id) as [a|] eqn:Ha.
  { case_bool_decide; [apply hoare_ret|apply hoare_fail]; by intros s ->. }
  set (I := λ s, owned s ∧ children s !! id = None).
  assert (Hstep : ∀ A (m : M Disk RuntimeError A), hoare I (on_disk m) (λ _, I) owned).
  { intros A m s [Hs Hn]. unfold on_disk, zoom. by destruct (m (disk s)) as [d [x|e]]. }
  eapply hoare_bind with (Q := λ _, I); [apply hoare_modify; by intros s ->|]. intros [].
  do 3 (eapply hoare_bind; [apply Hstep|]; intros []).
  eapply hoare_bind with (Q := λ _, I).
  { intros s [Hs Hn]. unfold on_processes, zoom_err. destruct (run_stamp (processes s)) as [p r] eqn:Hw.
    apply stamp_reaps_none in Hw. unfold I, owned in *. destruct r; cbn; by rewrite Hw. }
  intros run_id. eapply hoare_bind; [apply Hstep|]. intros [].
  eapply hoare_bind with (Q := λ pid s, owned (set_children (<[id := {| managed_root := app_bundle_root app; child := pid |}]>
                                                  (children s)) s)).
  { intros s [Hs Hn]. unfold on_processes, zoom_err. destruct (spawn (launch app) (processes s)) as [p r] eqn:Hw.
    apply spawn_exists in Hw. unfold owned in *. destruct r as [pid|e]; cbn; [|by rewrite Hw].
    destruct Hw as [Hnew ->]. by apply (owns_insert _ _ id {| managed_root := app_bundle_root app; child := pid |}). }
  intros pid. eapply hoare_bind with (Q := λ _, owned); [by apply hoare_modify|]. intros []. by apply hoare_ret.
Qed.

Lemma status_keeps id root : keeps_owned (application_status id root).
Proof.
  unfold application_status. apply keeps_bind; [apply reap_keeps|]. intros [].
  apply hoare_any. intros s0 Hs0. apply hoare_get_at. destruct (children s0 !! id).
  - case_bool_decide; [apply hoare_ret|apply hoare_fail]; by intros s ->.
  - apply hoare_ret. by intros s ->.
Qed.
Lemma managed_keeps : keeps_owned managed_processes.
Proof.
  apply hoare_any. intros s0 Hs0. apply hoare_get_at. eapply hoare_bind with (Q := λ _, owned).
  - eapply hoare_pre; [intros s ->; exact Hs0|]. apply hoare_foreach. intros id _. apply reap_keeps.
  - intros []. apply hoare_any. intros s1 Hs1. apply hoare_get_at. apply hoare_ret. by intros s ->.
Qed.

(** [terminate] reaps the process unless it fails. *)
Definition gone_or s0 pid s : Prop :=
  children s = children s0 ∧ existing (processes s) = existing (processes s0) ∖ {[pid]}.
Definition as_before s0 s : Prop :=
  children s = children s0 ∧ existing (processes s) = existing (processes s0).

Lemma hoare_exited s0 pid :
  hoare (as_before s0) (exited pid) (λ b s, if b : bool then gone_or s0 pid s else as_before s0 s) (as_before s0).
Proof.
  intros s [Hc He]. unfold exited, on_processes, zoom_err, mbnd.
  destruct (try_wait pid (processes s)) as [p r] eqn:Hw. apply try_wait_reaps in Hw.
  destruct r as [[b|]|e]; cbn; unfold gone_or, as_before; cbn; by rewrite Hw, He.
Qed.
Lemma hoare_poll s0 pid n :
  hoare (as_before s0) (poll_exit n pid) (λ b s, if b : bool then gone_or s0 pid s else as_before s0 s) (as_before s0).
Proof.
  induction n as [|n IH]; cbn [poll_exit]; [by apply hoare_ret|].
  eapply hoare_bind; [apply hoare_exited|]. intros []; [by apply hoare_ret|exact IH].
Qed.
Lemma hoare_signal s0 pid signal :
  hoare (as_before s0) (signal_process_group pid signal) (λ _, as_before s0) (as_before s0).
Proof.
  unfold signal_process_group. destruct (_ <? _); [by apply hoare_fail|]. intros s [Hc He].
  destruct (killpg pid signal (processes s)) as [p r] eqn:Hk. apply kill_reaps_none in Hk.
  destruct r as [[]|[]]; unfold as_before; cbn; by rewrite Hk.
Qed.
Lemma hoare_terminate s0 pid timeout :
  hoare (as_before s0) (terminate pid timeout) (λ _, gone_or s0 pid) (as_before s0).
Proof.
  unfold terminate. eapply hoare_bind; [apply hoare_exited|]. intros []; [by apply hoare_ret|].
  eapply hoare_bind; [apply hoare_signal|]. intros [].
  apply hoare_any. intros s1 Hs1. apply hoare_get_at.
  eapply hoare_bind; [eapply hoare_pre; [|apply (hoare_poll s0)]; by intros s ->|]. intros []; [by apply hoare_ret|].
  eapply hoare_bind; [apply hoare_signal|]. intros []. intros s [Hc He]. unfold on_processes, zoom_err.
  destruct (wait pid (processes s)) as [p r] eqn:Hw. apply wait_reaps in Hw.
  destruct r as [[]|e]; cbn; unfold gone_or, as_before; cbn; by rewrite Hw, He.
Qed.

Lemma stop_keeps id timeout s s' :
  owned s → stop_application id timeout s = (s', Ok tt) → owned s'.
Proof.
  intros Hs Hrun. set (s1 := set_terminal (delete id (terminal s)) s).
  assert (Heq : stop_application id timeout s =
    match children s !! id with
    | None => (s1, Ok tt)
    | Some a => terminate (child a) timeout (set_children (delete id (children s)) s1)
    end) by (unfold stop_application, mbnd, mmodify, mget; cbn; by destruct (children s !! id)).
  rewrite Heq in Hrun. clear Heq. destruct (children s !! id) as [a|] eqn:Ha; [|by injection Hrun as <-].
  set (s0 := set_children (delete id (children s)) s1) in Hrun.
  pose proof (hoare_terminate s0 (child a) timeout s0 (conj eq_refl eq_refl)) as Ht. rewrite Hrun in Ht.
  destruct Ht as [Hc He]. unfold owned. rewrite Hc, He. by apply owns_delete.
Qed.

(** A session with the supervisor in which no stop fails. *)
Definition stopped_cleanly (reply : SupervisorReply) : Prop :=
  match reply with StoppedReply r => r = Ok tt | _ => True end.

(** The state behind the last reply, before the actor ends. *)
Fixpoint supervised (requests : list SupervisorRequest) (s : Supervisor P) : Supervisor P * list SupervisorReply :=
  match requests with
  | [] => (s, [])
  | request :: requests =>
      let '(s, replies) := respond request s in
      let '(s, more) := supervised requests s in
      (s, replies ++ more)
  end.

(** C25: Every process that the supervisor has started is managed until its exit was seen: after
    any requests, of which no stop failed, the processes that exist are exactly those of the
    managed applications, and no two of them share a process; so that an application has at
    most one process. *)
Theorem processes_are_managed requests s s' replies :
  owned s → supervised requests s = (s', replies) → Forall stopped_cleanly replies → owned s'.
Proof.
  revert s replies. induction requests as [|request requests IH]; intros s replies Hs; cbn [supervised].
  { by intros [= <- _]. }
  destruct (respond request s) as [s1 first] eqn:Hr. destruct (supervised requests s1) as [s2 more] eqn:Hm.
  intros [= <- <-] [Hfirst Hmore]%Forall_app. apply (IH s1 more); [|done|done].
  assert (Hkeep : ∀ A (m : supervisor_op A) reply, keeps_owned m → answer reply m s = (s1, first) → owned s1).
  { intros A m reply Hk. specialize (Hk s Hs). unfold answer. by destruct (m s) as [s3 [a|e]]; intros [= <- _]. }
  destruct request as [app|id root| |id timeout|]; cbn [respond] in Hr.
  - by eapply Hkeep, Hr; apply start_keeps.
  - by eapply Hkeep, Hr; apply status_keeps.
  - by eapply Hkeep, Hr; apply managed_keeps.
  - unfold answer in Hr. destruct (stop_application id timeout s) as [s3 r] eqn:Hstop. injection Hr as <- <-.
    apply Forall_inv in Hfirst. cbn in Hfirst. subst r. by eapply stop_keeps.
  - by injection Hr as <- _.
Qed.
End ownership.

(** ** A table of processes *)

Module SampleProcesses.

(** A process runs until it is killed; [protected]: signals are refused. *)
Record Table : Type := { next : Z; alive : gset Z; killed : gset Z; protected : bool }.

#[export] Instance table_processes : Processes Table := {|
  spawn _ p :=
    if bool_decide (next p ∈ alive p) then (p, Err OtherIo) else
    ({| next := next p + 1; alive := {[next p]} ∪ alive p; killed := killed p; protected := protected p |},
     Ok (next p));
  try_wait pid p :=
    if bool_decide (pid ∈ killed p) then
      ({| next := next p; alive := alive p ∖ {[pid]}; killed := killed p; protected := protected p |}, Ok (Some true))
    else (p, Ok None);
  wait pid p :=
    ({| next := next p; alive := alive p ∖ {[pid]}; killed := killed p; protected := protected p |}, Ok tt);
  killpg pid _ p :=
    if protected p then (p, Err (OtherKillError OtherIo)) else
    ({| next := next p; alive := alive p; killed := {[pid]} ∪ killed p; protected := protected p |}, Ok tt);
  polls_left _ _ := 3%nat;
  run_stamp p := (p, Ok (text "7-1"));
  device_variable _ := None;
|}.
#[export, refine] Instance table_laws : ProcessLaws Table := {| existing := alive |}.
Proof.
  - intros l p p' r. cbn. case_bool_decide; intros [= <- <-]; [done|]. cbn. by split.
  - intros pid p p' r. cbn. by case_bool_decide; intros [= <- <-].
  - by intros pid p p' r [= <- <-].
  - intros pid signal p p' r. cbn. by destruct (protected p); intros [= <- <-].
  - by intros p p' r [= <- <-].
Defined.

Definition reader : MaterializedApplication :=
  {| application_id := lit "org.example.reader"; app_version := lit "1.0.0"; app_bundle_root := replicate 32 x01;
     image_root := image_dir (replicate 32 x01) ++ [ROOT];
     main := image_dir (replicate 32 x01) ++ [ROOT; text "main"]; app_process := default_process;
     app_data := {| policy := DataPolicyKind.Preserve; data_schema := 1; quota_bytes := None |} |}.
Definition reader_id : bytes := utf8 (application_id reader).
Definition booted (protected : bool) : Supervisor Table :=
  {| children := ∅; terminal := ∅;
     disk := {| tree := {[ [] := Directory ]}; faults := []; temp_counter := 0; process_id := 7 |};
     processes := {| next := 1; alive := ∅; killed := ∅; protected := protected |} |}.

Definition session : list SupervisorRequest :=
  [Start reader; StatusOf reader_id (app_bundle_root reader); StopApp reader_id 3000; Start reader].

Lemma booted_owned protected : owned (booted protected).
Proof. split; [|done]. intros pid. cbn. split; [set_solver|]. intros (id & a & Ha & _). by rewrite lookup_empty in Ha. Qed.

Lemma processes_are_managed_witness :
  owned (supervised session (booted false)).1 ∧ alive (processes (supervised session (booted false)).1) = {[2]}.
Proof.
  split; [|by vm_compute].
  refine (processes_are_managed session (booted false) _ (supervised session (booted false)).2 (booted_owned false) _ _).
  - apply surjective_pairing.
  - replace (supervised session (booted false)).2 with
      [Started (Ok 1); StatusIs (Ok (RuntimeStatus.Running 1)); StoppedReply (Ok tt); Started (Ok 2)] by by vm_compute.
    repeat constructor.
Defined.

(** A stop that fails loses the process: the application is taken off the supervisor's books
    before it is signalled, so that when the signal is refused the process runs on
    unmanaged, it is reported as stopped, and the next start gives the application a second
    process. *)
Theorem failed_stop_orphans_the_process :
  let r := supervised session (booted true) in
  r.2 = [Started (Ok 1); StatusIs (Ok (RuntimeStatus.Running 1));
         StoppedReply (Err (RuntimeError.Stop OtherIo)); Started (Ok 2)] ∧
  alive (processes r.1) = {[1; 2]} ∧ (child <$> children r.1 !! reader_id) = Some 2 ∧ ¬ owned r.1.
Proof.
  assert (Hrun : (supervised session (booted true)).2 = [Started (Ok 1); StatusIs (Ok (RuntimeStatus.Running 1));
         StoppedReply (Err (RuntimeError.Stop OtherIo)); Started (Ok 2)]) by by vm_compute.
  assert (Hchildren : children (supervised session (booted true)).1 =
    {[reader_id := {| managed_root := app_bundle_root reader; child := 2 |}]})
    by (apply (bool_decide_unpack _); vm_compute; exact I).
  assert (Halive : alive (processes (supervised session (booted true)).1) = {[1; 2]}) by by vm_compute.
  cbv zeta. split; [exact Hrun|]. split; [exact Halive|].
  unfold owned. rewrite Hchildren. change (existing (processes (supervised session (booted true)).1)) with
    (alive (processes (supervised session (booted true)).1)). rewrite Halive. split; [by rewrite lookup_singleton_eq|].
  intros [Hall _]. destruct (proj1 (Hall 1)) as (id & a & [_ <-]%lookup_singleton_Some & Ha); [set_solver|done].
Qed.
End SampleProcesses.
