(* ===== verification/Applications.v ===== *)
(** * Applications: src/device/kindlebridged/src/application.rs and application/backend.rs

    [ApplicationManager], the one place where the daemon changes what is installed and what
    runs: it verifies and installs bundles, makes generations active, rolls applications
    back, removes them, and starts and stops them through the supervisor.  An operation
    works on the install store (InstallStore.v), the images (DeviceInstall.v) and the
    supervisor (Supervisor.v), which share the disk of [Supervisor]; the operation lock makes
    the operations follow one another.  The bundle is an open file of its own, given by its
    contents. *)

From S2P Require Import Prelude Text Files InstallStore FileHandles Rpc.
From S2P Require Import BundleError Paths Utf8 BundleHeader Cbor BundleModel Verify Activation DeviceInstall Supervisor.

Definition APP_BLOCK_QUOTA_BYTES : Z := 2 * 1024 * 1024 * 1024.
Definition MAX_ACTIVATION_HISTORY : Z := 4096.
Definition DEFAULT_APP_STOP_TIMEOUT_MS : Z := 3000.
Definition MAX_APP_LOG_READ : Z := 64 * 1024.

(** ** The types of the calls, of src/crates/kindlebridge-schema/src/lib.rs *)

Module SummaryState.

Inductive AppState : Type := Stopped | Running | Failed.

End SummaryState.

Record AppSummary : Type := {
  summary_app : str;
  summary_version : str;
  summary_state : SummaryState.AppState;
  rollback_available : bool;
  summary_pid : option Z;
}.
Record AppLogParams : Type := {
  log_app : str;
  log_run : option str;
  stdout_cursor : Z;
  stderr_cursor : Z;
  max_bytes : option Z;
}.
Record AppLogChunk : Type := {
  chunk_cursor : Z;
  next_cursor : Z;
  data_base64 : bytes;
  capped : bool;
}.
Record AppLogSnapshot : Type := {
  snapshot_app : str;
  snapshot_run : str;
  reset : bool;
  snapshot_state : SummaryState.AppState;
  snapshot_pid : option Z;
  stdout : AppLogChunk;
  stderr : AppLogChunk;
}.
Record ProcessSummary : Type := {
  process_pid : Z;
  process_name : bytes;
  process_app : option bytes;
}.

(** ** Errors *)

(** An operation is refused with an error for the caller, or panics. *)
Inductive AppFault : Type := Refused (error : RpcError) | Panicked.

(** The texts of the standard library, and base64. *)
Class Texts := {
  show_io_error : IoErrorKind → bytes;
  debug_io_kind : IoErrorKind → bytes;
  show_path : Files.path → bytes;
  base64_encode : bytes → bytes;
}.

(** [{:?}] of an [ErrorCode], and the [Display] of an [Error]. *)
Definition debug_code (c : ErrorCode) : bytes :=
  text match c with
       | ErrorCode.Io => "Io" | ErrorCode.Header => "Header" | ErrorCode.Bounds => "Bounds"
       | ErrorCode.CanonicalCbor => "CanonicalCbor" | ErrorCode.Schema => "Schema"
       | ErrorCode.ProfilePolicy => "ProfilePolicy" | ErrorCode.Path => "Path" | ErrorCode.Tree => "Tree"
       | ErrorCode.Block => "Block" | ErrorCode.Signature => "Signature" | ErrorCode.Publisher => "Publisher"
       | ErrorCode.Target => "Target" | ErrorCode.Activation => "Activation" | ErrorCode.Quota => "Quota"
       | ErrorCode.Conflict => "Conflict" | ErrorCode.Recovery => "Recovery"
       end.
Definition show_bundle_error (e : BundleError) : bytes :=
  debug_code (BundleError.code e) ++ text ": " ++ text (BundleError.message e).

Section errors.
Context `{Texts}.

Definition show_runtime_error (e : RuntimeError) : bytes :=
  match e with
  | RuntimeError.Unavailable => text "application supervisor state is unavailable"
  | RuntimeError.DifferentGenerationRunning => text "another application generation is still running"
  | RuntimeError.Filesystem e => text "application filesystem setup failed: " ++ show_io_error e
  | RuntimeError.Spawn e => text "application process could not be started: " ++ show_io_error e
  | RuntimeError.Status e => text "application process status could not be read: " ++ show_io_error e
  | RuntimeError.Stop e => text "application process could not be stopped: " ++ show_io_error e
  end.

Definition app_install_failure (stage : string) (reason detail : bytes) : RpcError :=
  with_fields [("stage", text stage); ("reason", reason); ("detail", detail)]
    (rpc_new error_codes.APP_INSTALL_FAILED "Application install failed").
Definition app_install_bundle_error (stage : string) (e : BundleError) : RpcError :=
  app_install_failure stage (debug_code (BundleError.code e)) (text (BundleError.message e)).
Definition app_install_io (stage : string) (e : IoErrorKind) : RpcError :=
  app_install_failure stage (text "io_" ++ debug_io_kind e) (show_io_error e).
Definition app_log_io (operation : string) (e : IoErrorKind) : RpcError :=
  with_fields [("operation", text operation); ("reason", text "io_" ++ debug_io_kind e);
               ("detail", show_io_error e)]
    (rpc_new error_codes.INVALID_STATE "Application log is unavailable").
Definition app_activation_error (operation : string) (app_id : str) (e : BundleError) : RpcError :=
  with_fields [("operation", text operation); ("app_id", utf8 app_id);
               ("reason", debug_code (BundleError.code e)); ("detail", text (BundleError.message e))]
    (rpc_new error_codes.INVALID_STATE "Application activation failed").
Definition app_runtime_error (operation : string) (app_id : str) (e : RuntimeError) : RpcError :=
  with_fields [("operation", text operation); ("app_id", utf8 app_id); ("detail", show_runtime_error e)]
    (rpc_new error_codes.INVALID_STATE "Application lifecycle operation failed").
Definition invalid_device_state (detail : bytes) : RpcError :=
  with_data "detail" detail (rpc_new error_codes.INVALID_STATE "Invalid device state").
Definition app_not_found (app_id : str) : RpcError :=
  with_data "app_id" (utf8 app_id) (rpc_new error_codes.APP_NOT_FOUND "App not found").
Definition device_read_error (operation : string) (p : Files.path) (e : IoErrorKind) : RpcError :=
  with_fields [("operation", text operation); ("path", show_path p); ("kind", debug_io_kind e)]
    (rpc_new error_codes.INTERNAL_ERROR "Device read failed").
Definition supervisor_unavailable (e : RuntimeError) : RpcError :=
  with_data "detail" (show_runtime_error e)
    (rpc_new error_codes.INVALID_STATE "Application supervisor unavailable").
Definition invalid_operation_lock : RpcError :=
  with_data "detail" (text "application operation lock is unavailable")
    (rpc_new error_codes.INVALID_STATE "Invalid device state").
Definition install_lock_error : RpcError :=
  app_install_failure "lock" (text "internal_state") (text "application install lock is unavailable").
End errors.

(** ** Entries *)

Definition is_application (app_id : str) (e : ActivationEntry) : bool :=
  bool_decide (entry_kind e = BundleKind.Application) && bool_decide (entry_id e = app_id).
Definition find_application (app_id : str) (g : ActivationGeneration) : option ActivationEntry :=
  find (is_application app_id) (generation_entries g).

(** [sort_by] on ID, channel and kind: it is stable. *)
Fixpoint insert_entry (e : ActivationEntry) (l : list ActivationEntry) : list ActivationEntry :=
  match l with
  | [] => [e]
  | x :: l => if entry_lt x e then x :: insert_entry e l else e :: x :: l
  end.
Definition sort_activation (l : list ActivationEntry) : list ActivationEntry := foldr insert_entry [] l.

(** [*target = replacement], of the first entry of the application. *)
Fixpoint replace_application (app_id : str) (replacement : ActivationEntry) (l : list ActivationEntry) :
    list ActivationEntry :=
  match l with
  | [] => []
  | x :: l => if is_application app_id x then replacement :: l else x :: replace_application app_id replacement l
  end.

Definition history_predecessor (g : ActivationGeneration) (app_id : str) : option GenerationId :=
  match action g with
  | Some (Rollback rolled_back next) =>
      if bool_decide (rolled_back = app_id) then next else previous_generation g
  | None => previous_generation g
  end.
Record RollbackCandidate : Type := {
  candidate : ActivationEntry;
  candidate_next : option GenerationId;
}.

(** [str::trim]: the characters of the property White_Space. *)
Definition is_white_space (c : Z) : bool :=
  (9 <=? c) && (c <=? 13) || (c =? 0x20) || (c =? 0x85) || (c =? 0xa0) || (c =? 0x1680) ||
  (0x2000 <=? c) && (c <=? 0x200a) || (c =? 0x2028) || (c =? 0x2029) || (c =? 0x202f) || (c =? 0x205f) ||
  (c =? 0x3000).
Fixpoint trim_start (s : str) : str :=
  match s with
  | c :: s' => if is_white_space c then trim_start s' else s
  | [] => []
  end.
Definition trim (s : str) : str := reverse (trim_start (reverse (trim_start s))).

(** ** The operations *)

Section backend.
Context {P : Type} `{Processes P, DirOrder, ReadSize, PointerWidth, Ed25519, Zstd, Semver, Texts}.
Context `{Serde Envelope, Serde (list SignatureEntry), Serde (list FileEntry), Serde RotationProofSignedData}.
Context `{Serde GenerationIdentity, Serde ActivationGeneration, Serde TransactionJournal, Serde RuntimeManifest}.
Context (blake3 : bytes → bytes) (crc32c : bytes → Z) (nfc : str → str) (link_resolves : Files.path → bool).

Abbreviation app_op A := (M (Supervisor P) AppFault A).

Definition refuse {A} (e : RpcError) : app_op A := mfail (Refused e).
Definition lift_fault (f : BundleError → RpcError) (fault : Fault) : AppFault :=
  match fault with Panic => Panicked | Failed e => Refused (f e) end.

(** Calls of the other components, with what becomes of their errors. *)
Definition on_files {A} (f : IoErrorKind → RpcError) (m : M Disk IoErrorKind A) : app_op A :=
  zoom_err disk set_disk (λ e, Refused (f e)) m.
Definition on_store {A} (f : BundleError → RpcError) (m : install_op A) : app_op A :=
  zoom_err disk set_disk (λ e, Refused (f e)) m.
Definition on_device {A} (f : BundleError → RpcError) (m : device_op A) : app_op A :=
  zoom_err disk set_disk (lift_fault f) m.
Definition on_runtime {A} (f : RuntimeError → RpcError) (m : M (Supervisor P) RuntimeError A) : app_op A := λ s,
  let '(s, r) := m s in (s, map_err (λ e, Refused (f e)) r).

(** *** Reading what is active *)

Definition read_bounded_regular_file (p : Files.path) (limit : Z) : app_op (option bytes) :=
  let unsafe := invalid_device_state (text "device state file is unsafe or exceeds its size limit") in
  let! r := on_files (device_read_error "stat device state" p) (catch_io (symlink_metadata p)) in
  match r with
  | Err NotFound => mret None
  | Err e => refuse (device_read_error "stat device state" p e)
  | Ok n =>
      if negb (is_file n) || (limit <? node_len n) then refuse unsafe else
      let! h := on_files (device_read_error "open device state" p) (open_file p) in
      let! content := on_files (device_read_error "read device state" p) (read_node (handle_path h)) in
      let bs := take (Z.to_nat (saturating_add u64_max limit 1)) content in
      if limit <? len bs then refuse unsafe else mret (Some bs)
  end.

(** [parse_generation_id] of the backend. *)
Definition parse_active_id (value : bytes) : result RpcError GenerationId :=
  let invalid := invalid_device_state (text "active generation pointer is invalid") in
  if negb (len value =? 32) || negb (forallb (λ b, bool_decide (is_Some (hex_value b))) value)
  then Err invalid else ok_or (parse_pairs value) invalid.

(** [load_generation] of the backend. *)
Definition load_record (id : GenerationId) : app_op ActivationGeneration :=
  let! found := read_bounded_regular_file (generations_dir ++ [generation_id_hex id; ACTIVATION]) MAX_ACTIVATION_BYTES in
  match found with
  | None => refuse (invalid_device_state (text "activation generation is missing"))
  | Some bs =>
      match from_cbor bs with
      | Err _ => refuse (invalid_device_state (text "activation generation is invalid"))
      | Ok generation =>
          if bool_decide (generation_id generation ≠ id)
          then refuse (invalid_device_state (text "activation generation identity does not match its directory"))
          else mret generation
      end
  end.
Definition load_active_generation : app_op (option ActivationGeneration) :=
  let! found := read_bounded_regular_file active_pointer_path 64 in
  match found with
  | None => mret None
  | Some bs =>
      if negb (utf8_valid bs) then refuse (invalid_device_state (text "active generation pointer is not UTF-8")) else
      let value := match strip_last LF bs with Some value => value | None => bs end in
      let! id := mlift (map_err Refused (parse_active_id value)) in
      let! generation := load_record id in
      mret (Some generation)
  end.
Definition active_application_entry (app_id : str) : app_op (ActivationGeneration * ActivationEntry) :=
  let! active := load_active_generation in
  match active with
  | None => refuse (app_not_found app_id)
  | Some active =>
      match find_application app_id active with
      | None => refuse (app_not_found app_id)
      | Some entry => mret (active, entry)
      end
  end.

(** The store with the errors of a device in a bad state. *)
Definition open_store : app_op InstallStore :=
  on_store (λ e, invalid_device_state (show_bundle_error e)) (store_open APP_BLOCK_QUOTA_BYTES).
Definition load_image (context : bytes) (root : Digest) : app_op MaterializedApplication :=
  on_device (λ e, invalid_device_state (context ++ show_bundle_error e))
    (load_materialized_application blake3 nfc root).

Definition active_materialized_application (app_id : str) :
    app_op (ActivationGeneration * ActivationEntry * MaterializedApplication) :=
  let! found := active_application_entry app_id in
  let entry := found.2 in
  let! _ := open_store in
  let! materialized :=
    load_image (text "application image is unavailable; reinstall its KBB bundle: ") (entry_root entry) in
  if bool_decide (application_id materialized ≠ entry_id entry)
     || bool_decide (app_version materialized ≠ code_version entry)
  then refuse (invalid_device_state (text "materialized application identity does not match active activation"))
  else mret (found, materialized).

(** *** Summaries *)

Definition application_runtime_state (entry : ActivationEntry) : app_op (SummaryState.AppState * option Z) :=
  let! status := on_runtime (app_runtime_error "status" (entry_id entry))
                   (application_status (utf8 (entry_id entry)) (entry_root entry)) in
  mret match status with
       | RuntimeStatus.Stopped => (SummaryState.Stopped, None)
       | RuntimeStatus.Running pid => (SummaryState.Running, Some pid)
       | RuntimeStatus.Failed => (SummaryState.Failed, None)
       end.

(** [find_rollback_entry]: [fuel] rounds of its loop. *)
Fixpoint walk_history (fuel : nat) (current : ActivationEntry) (visited : list GenerationId)
    (generation_id : option GenerationId) : app_op (option RollbackCandidate) :=
  match fuel with
  | O => refuse (invalid_device_state (text "activation history exceeds the device traversal limit"))
  | S fuel =>
      match generation_id with
      | None => mret None
      | Some id =>
          if bool_decide (id ∈ visited)
          then refuse (invalid_device_state (text "activation history contains a cycle")) else
          let! generation := on_store (λ e, invalid_device_state (show_bundle_error e)) (load_generation id) in
          let next_generation := history_predecessor generation (entry_id current) in
          match find (λ e, is_application (entry_id current) e && bool_decide (e ≠ current))
                  (generation_entries generation) with
          | Some entry => mret (Some {| candidate := entry; candidate_next := next_generation |})
          | None => walk_history fuel current (id :: visited) next_generation
          end
      end
  end.
Definition find_rollback_entry (active : ActivationGeneration) (current : ActivationEntry) :
    app_op (option RollbackCandidate) :=
  walk_history (Z.to_nat MAX_ACTIVATION_HISTORY) current [] (history_predecessor active (entry_id current)).

Definition summarize (active : ActivationGeneration) (entry : ActivationEntry)
    (state : SummaryState.AppState * option Z) : app_op AppSummary :=
  let! rollback := find_rollback_entry active entry in
  mret {| summary_app := entry_id entry; summary_version := code_version entry; summary_state := state.1;
          rollback_available := bool_decide (is_Some rollback); summary_pid := state.2 |}.
Definition app_summary_from_generation (generation : ActivationGeneration) (app_id : str) : app_op AppSummary :=
  match find_application app_id generation with
  | None => refuse (app_install_failure "commit_activation" (text "internal_state")
                      (text "committed activation does not contain the installed app"))
  | Some entry =>
      let! state := application_runtime_state entry in
      let! _ := open_store in
      summarize generation entry state
  end.

(** *** [app_install] *)

Definition validate_file_hash (value : bytes) : result RpcError unit :=
  if (len value =? 64) && forallb (λ b, in_span 48 57 b || in_span 97 102 b) value then Ok tt
  else Err (invalid_params (text "file_hash must be a 64-character lowercase BLAKE3 digest")).

(** [bundle.seek]; the reads of [hash_open_file] see the whole file, or one of them fails. *)
Definition seek_bundle : app_op unit := on_files (app_install_io "seek_bundle") gate.
Definition hash_open_file (bundle : bytes) : app_op bytes :=
  do! seek_bundle in
  do! on_files (app_install_io "hash_bundle") gate in
  mret (bytes_hex (blake3 bundle)).

(** [sort_unstable] and [dedup]: equal strings cannot be told apart. *)
Fixpoint insert_feature (s : str) (l : list str) : list str :=
  match l with
  | [] => [s]
  | x :: l => if bool_decide (s = x) then x :: l else if str_lt s x then s :: x :: l else x :: insert_feature s l
  end.
Definition device_profile_digest (target : str) (firmware : bytes) (available_features : list str) : Digest :=
  let components := utf8 target :: firmware :: (utf8 <$> foldr insert_feature [] available_features) in
  blake3 (text "KINDLEBRIDGE-DEVICE-PROFILE-V1" ++ [x00] ++
          (components ≫= λ component, to_le_bytes 8 (len component) ++ component)).

Definition is_installed (verified : Inspection) (e : ActivationEntry) : bool :=
  is_application (bundle_id (envelope verified)) e &&
  bool_decide (entry_channel e = channel (envelope verified)) &&
  bool_decide (code_version e = version (envelope verified)) &&
  bool_decide (entry_root e = bundle_root (inspected_header verified)).
Definition installed_entry (verified : Inspection) : ActivationEntry :=
  {| entry_id := bundle_id (envelope verified); entry_channel := channel (envelope verified);
     entry_kind := BundleKind.Application; entry_root := bundle_root (inspected_header verified);
     code_version := version (envelope verified); data_generation := None; dependency_roots := [] |}.
Definition with_application (verified : Inspection) (active : option ActivationGeneration) : list ActivationEntry :=
  let entries := match active with Some generation => generation_entries generation | None => [] end in
  sort_activation (filter (λ e, is_application (bundle_id (envelope verified)) e = false) entries
                     ++ [installed_entry verified]).

(** The time an application is given to stop: that of its image, if it can be loaded. *)
Definition stop_timeout_of (image : option Digest) : app_op Z :=
  match image with
  | None => mret DEFAULT_APP_STOP_TIMEOUT_MS
  | Some root => λ s,
      match load_materialized_application blake3 nfc root (disk s) with
      | (d, Ok app) => (set_disk d s, Ok (stop_timeout_ms (app_process app)))
      | (d, Err Panic) => (set_disk d s, Err Panicked)
      | (d, Err (Failed _)) => (set_disk d s, Ok DEFAULT_APP_STOP_TIMEOUT_MS)
      end
  end.

Definition transaction_name (prefix : string) (generation : ActivationGeneration) : bytes :=
  text prefix ++ text "-" ++ directory_name generation.

(** The bundle is what was announced, is verified and can run here. *)
Definition check_bundle (bundle expected_file_hash : bytes) (target : str) (firmware : bytes)
    (available_features : list str) : app_op Inspection :=
  do! mlift (map_err Refused (validate_file_hash expected_file_hash)) in
  let! actual_file_hash := hash_open_file bundle in
  if bool_decide (actual_file_hash ≠ expected_file_hash)
  then refuse (with_fields [("expected", expected_file_hash); ("actual", actual_file_hash)]
                 (rpc_new error_codes.CHECKSUM_MISMATCH "Bundle checksum mismatch")) else
  do! seek_bundle in
  let! verified := mlift (map_err (lift_fault (app_install_bundle_error "verify"))
    (verify blake3 crc32c nfc bundle
       {| expected_publisher := None; option_target := Some target; firmware := Some firmware |})) in
  if bool_decide (bundle_kind (envelope verified) ≠ BundleKind.Application)
  then refuse (app_install_failure "verify" (text "bundle_kind") (text "app install accepts application bundles only")) else
  let! variant := mlift (ok_or (head (variants (envelope verified))) Panicked) in
  match find (λ feature, negb (bool_decide (feature ∈ available_features))) (required_features variant) with
  | Some feature =>
      refuse (app_install_failure "compatibility" (text "required_feature")
                (text "device does not provide required feature " ++ utf8 feature))
  | None => mret verified
  end.

(** The active generation of a store that was opened and recovered. *)
Definition active_generation (failed : BundleError → RpcError) :
    app_op (option GenerationId * option ActivationGeneration) :=
  let! active_id := on_store failed active_generation_id in
  match active_id with
  | None => mret (None, None)
  | Some id =>
      let! generation := on_store failed (load_generation id) in
      mret (Some id, Some generation)
  end.

(** A generation is staged, the application stopped and the generation made active. *)
Definition replace_generation (prefix : string) (app_id : str) (generation : ActivationGeneration)
    (previous : option Digest) (staged committed : BundleError → RpcError) (stopping : string) : app_op unit :=
  let transaction_id := transaction_name prefix generation in
  let! _ := on_store staged (stage_generation transaction_id generation) in
  let! stop_timeout := stop_timeout_of previous in
  do! on_runtime (app_runtime_error stopping app_id) (stop_application (utf8 app_id) stop_timeout) in
  let! _ := on_store committed (commit_generation transaction_id) in
  mret tt.

Definition install_generation (verified : Inspection) (target : str) (firmware : bytes) (available_features : list str)
    (active_id : option GenerationId) (active : option ActivationGeneration) : app_op AppSummary :=
  let app_id := bundle_id (envelope verified) in
  let profile_digest := device_profile_digest target firmware available_features in
  let! generation := mlift (map_err (λ e, Refused (app_install_bundle_error "build_activation" e))
    (generation_new blake3 active_id target profile_digest (with_application verified active))) in
  do! replace_generation "app" app_id generation (entry_root <$> (active ≫= find_application app_id))
        (app_install_bundle_error "stage_activation") (app_install_bundle_error "commit_activation")
        "stop_previous" in
  app_summary_from_generation generation app_id.

Definition app_install (bundle expected_file_hash : bytes) (target : str) (firmware : bytes)
    (available_features : list str) : app_op AppSummary :=
  let! verified := check_bundle bundle expected_file_hash target firmware available_features in
  let! store := on_store (app_install_bundle_error "open_store") (store_open APP_BLOCK_QUOTA_BYTES) in
  let! _ := on_store (app_install_bundle_error "recover") recover in
  let! found := active_generation (app_install_bundle_error "read_activation") in
  do! seek_bundle in
  let! _ := on_device (app_install_bundle_error "ingest_blocks") (ingest_verified_blocks blake3 bundle verified store) in
  let! _ := on_device (app_install_bundle_error "materialize")
              (materialize_verified_application blake3 nfc link_resolves verified) in
  match found.2 with
  | Some generation =>
      if existsb (is_installed verified) (generation_entries generation)
      then app_summary_from_generation generation (bundle_id (envelope verified))
      else install_generation verified target firmware available_features found.1 found.2
  | None => install_generation verified target firmware available_features found.1 found.2
  end.

(** *** [app_list] *)

(** The [BTreeMap] of summaries, in the order of the IDs. *)
Fixpoint insert_summary (s : AppSummary) (l : list AppSummary) : list AppSummary :=
  match l with
  | [] => [s]
  | x :: l => if str_lt (summary_app s) (summary_app x) then s :: x :: l else x :: insert_summary s l
  end.
Fixpoint list_entries (active : ActivationGeneration) (entries : list ActivationEntry) (apps : list AppSummary) :
    app_op (list AppSummary) :=
  match entries with
  | [] => mret apps
  | entry :: entries =>
      let! _ := load_image (text "application " ++ utf8 (entry_id entry) ++
                            text " runtime image is unavailable or corrupt: ") (entry_root entry) in
      let! state := application_runtime_state entry in
      let! summary := summarize active entry state in
      if bool_decide (entry_id entry ∈ (summary_app <$> apps))
      then refuse (invalid_device_state
                     (text "active generation contains multiple application channels for one app_id"))
      else list_entries active entries (insert_summary summary apps)
  end.
Definition app_list : app_op (list AppSummary) :=
  let! active := load_active_generation in
  match active with
  | None => mret []
  | Some active =>
      let! _ := open_store in
      list_entries active (filter (λ e, entry_kind e = BundleKind.Application) (generation_entries active)) []
  end.

(** *** [app_log] *)

Definition read_app_log_chunk (p : Files.path) (cursor limit : Z) : app_op AppLogChunk :=
  let! file := on_files (app_log_io "open") (open_file p) in
  let! length := on_files (app_log_io "stat") (handle_len file) in
  let cursor := Z.min cursor length in
  let! file := on_files (app_log_io "seek") (seek_start file cursor) in
  let! read := on_files (app_log_io "read") (handle_read file (Z.to_nat limit)) in
  mret {| chunk_cursor := cursor; next_cursor := cursor + len read.2; data_base64 := base64_encode read.2;
          capped := MAX_APP_LOG_BYTES <=? length |}.
Definition empty_app_log_chunk : AppLogChunk :=
  {| chunk_cursor := 0; next_cursor := 0; data_base64 := []; capped := false |}.

(** [fs::read_to_string]: contents that are not UTF-8 are an error, too. *)
Definition read_run_id (app_id : bytes) : app_op (result IoErrorKind str) := λ s,
  match read_node (log_dir app_id ++ [APP_RUN_ID]) (disk s) with
  | (d, Ok bs) => (set_disk d s, Ok (ok_or (from_utf8 bs) OtherIo))
  | (d, Err e) => (set_disk d s, Ok (Err e))
  end.
Definition app_log (params : AppLogParams) : app_op AppLogSnapshot :=
  let! found := active_application_entry (log_app params) in
  let! state := application_runtime_state found.2 in
  let limit := default (16 * 1024) (max_bytes params) in
  if (limit =? 0) || (MAX_APP_LOG_READ <? limit)
  then refuse (invalid_params (text "max_bytes must be between 1 and 65536")) else
  let root := log_dir (utf8 (log_app params)) in
  let! r := read_run_id (utf8 (log_app params)) in
  match r with
  | Err NotFound =>
      mret {| snapshot_app := log_app params; snapshot_run := lit "not-started";
              reset := negb (bool_decide (log_run params = Some (lit "not-started")));
              snapshot_state := state.1; snapshot_pid := state.2;
              stdout := empty_app_log_chunk; stderr := empty_app_log_chunk |}
  | Err e => refuse (app_log_io "read_run_id" e)
  | Ok content =>
      let run_id := trim content in
      if bool_decide (run_id = []) then refuse (invalid_device_state (text "application log run ID is empty")) else
      let reset := negb (bool_decide (log_run params = Some run_id)) in
      let! out := read_app_log_chunk (root ++ [APP_STDOUT_LOG]) (if reset then 0 else stdout_cursor params) limit in
      let! err := read_app_log_chunk (root ++ [APP_STDERR_LOG]) (if reset then 0 else stderr_cursor params) limit in
      mret {| snapshot_app := log_app params; snapshot_run := run_id; reset := reset;
              snapshot_state := state.1; snapshot_pid := state.2; stdout := out; stderr := err |}
  end.

(** *** Starting and stopping *)

Definition app_start (app_id : str) : app_op AppSummary :=
  let! found := active_materialized_application app_id in
  let! pid := on_runtime (app_runtime_error "start" app_id) (start_application found.2) in
  let! summary := app_summary_from_generation found.1.1 app_id in
  mret {| summary_app := summary_app summary; summary_version := summary_version summary;
          summary_state := SummaryState.Running; rollback_available := rollback_available summary;
          summary_pid := Some pid |}.
Definition app_stop (app_id : str) : app_op AppSummary :=
  let! found := active_materialized_application app_id in
  do! on_runtime (app_runtime_error "stop" app_id)
        (stop_application (utf8 app_id) (stop_timeout_ms (app_process found.2))) in
  app_summary_from_generation found.1.1 app_id.
Definition app_restart (app_id : str) : app_op AppSummary :=
  let! found := active_materialized_application app_id in
  do! on_runtime (app_runtime_error "restart_stop" app_id)
        (stop_application (utf8 app_id) (stop_timeout_ms (app_process found.2))) in
  app_start app_id.

(** *** [app_rollback] and [app_uninstall] *)

Definition open_recovered_store (operation : string) (app_id : str) : app_op InstallStore :=
  let! store := on_store (app_activation_error operation app_id) (store_open APP_BLOCK_QUOTA_BYTES) in
  let! _ := on_store (app_activation_error operation app_id) recover in
  mret store.

(** The application in the active generation, which there must be. *)
Definition current_application (operation : string) (app_id : str) :
    app_op (GenerationId * ActivationGeneration * ActivationEntry) :=
  let! _ := open_recovered_store operation app_id in
  let! found := active_generation (app_activation_error operation app_id) in
  match found with
  | (Some active_id, Some active) =>
      match find_application app_id active with
      | None => refuse (app_not_found app_id)
      | Some current => mret (active_id, active, current)
      end
  | _ => refuse (app_not_found app_id)
  end.

Definition app_rollback (app_id : str) : app_op AppSummary :=
  let! found := current_application "rollback" app_id in
  let '(active_id, active, current) := found in
  let! rollback := find_rollback_entry active current in
  let! rollback := mlift (ok_or rollback (Refused (with_data "app_id" (utf8 app_id)
                            (rpc_new error_codes.NO_ROLLBACK_AVAILABLE "No rollback available")))) in
  let replacement := candidate rollback in
  let! image := load_image (text "rollback application image is unavailable or corrupt: ") (entry_root replacement) in
  if bool_decide (application_id image ≠ entry_id replacement)
     || bool_decide (app_version image ≠ code_version replacement)
  then refuse (invalid_device_state (text "rollback application image does not match activation identity")) else
  let entries := sort_activation (replace_application app_id replacement (generation_entries active)) in
  let! generation := mlift (map_err (λ e, Refused (app_activation_error "rollback" app_id e))
    (new_rollback blake3 active_id (profile_id active) (profile_digest active) entries app_id
       (candidate_next rollback))) in
  do! replace_generation "rollback" app_id generation (Some (entry_root current))
        (app_activation_error "rollback" app_id) (app_activation_error "rollback" app_id) "rollback_stop" in
  app_summary_from_generation generation app_id.

Definition app_uninstall (app_id : str) : app_op AppSummary :=
  let! found := current_application "uninstall" app_id in
  let '(active_id, active, removed) := found in
  let entries := filter (λ e, is_application app_id e = false) (generation_entries active) in
  let! generation := mlift (map_err (λ e, Refused (app_activation_error "uninstall" app_id e))
    (generation_new blake3 (Some active_id) (profile_id active) (profile_digest active) entries)) in
  do! replace_generation "uninstall" app_id generation (Some (entry_root removed))
        (app_activation_error "uninstall" app_id) (app_activation_error "uninstall" app_id) "uninstall_stop" in
  mret {| summary_app := entry_id removed; summary_version := code_version removed;
          summary_state := SummaryState.Stopped; rollback_available := false; summary_pid := None |}.

(** ** [ApplicationManager] *)

Record ApplicationProfile : Type := {
  profile_target : str;
  profile_firmware : bytes;
  profile_features : list str;
}.
(** The operation lock is poisoned when an operation panics. *)
Record ApplicationManager : Type := {
  poisoned : bool;
  supervisor : Supervisor P;
}.

Definition locked {A} (unavailable : RpcError) (op : app_op A) : M ApplicationManager AppFault A := λ m,
  if poisoned m then (m, Err (Refused unavailable)) else
  let '(s, r) := op (supervisor m) in
  ({| poisoned := match r with Err Panicked => true | _ => false end; supervisor := s |}, r).

Inductive AppCall : Type :=
| Install (bundle expected_file_hash : bytes)
| ListApps
| Log (params : AppLogParams)
| StartApplication (app_id : str)
| StopApplication (app_id : str)
| Restart (app_id : str)
| RollbackApplication (app_id : str)
| Uninstall (app_id : str).
Inductive AppReply : Type :=
| Summary (s : AppSummary)
| Apps (l : list AppSummary)
| Snapshot (s : AppLogSnapshot).

Definition replies {A} (f : A → AppReply) (op : app_op A) : app_op AppReply := let! a := op in mret (f a).

(** The methods [install] to [uninstall]. *)
Definition manager_call (profile : ApplicationProfile) (c : AppCall) : M ApplicationManager AppFault AppReply :=
  match c with
  | Install bundle hash =>
      locked install_lock_error (replies Summary
        (app_install bundle hash (profile_target profile) (profile_firmware profile) (profile_features profile)))
  | ListApps => locked invalid_operation_lock (replies Apps app_list)
  | Log params => locked invalid_operation_lock (replies Snapshot (app_log params))
  | StartApplication app_id => locked invalid_operation_lock (replies Summary (app_start app_id))
  | StopApplication app_id => locked invalid_operation_lock (replies Summary (app_stop app_id))
  | Restart app_id => locked invalid_operation_lock (replies Summary (app_restart app_id))
  | RollbackApplication app_id => locked invalid_operation_lock (replies Summary (app_rollback app_id))
  | Uninstall app_id => locked invalid_operation_lock (replies Summary (app_uninstall app_id))
  end.

(** These two ask the supervisor only and do not take the lock. *)
Definition annotate_processes (processes : list ProcessSummary) : app_op (list ProcessSummary) :=
  let! managed := on_runtime supervisor_unavailable managed_processes in
  mret ((λ p, {| process_pid := process_pid p; process_name := process_name p;
                 process_app := managed !! process_pid p |}) <$> processes).
Definition reject_managed_process_signal (pid : Z) : app_op unit :=
  let! app_id := on_runtime supervisor_unavailable (app_id_for_pid pid) in
  match app_id with
  | Some app_id =>
      refuse (invalid_params (text "PID " ++ show_unsigned pid ++ text " is managed by " ++ app_id ++
                              text "; use app stop or app restart"))
  | None => mret tt
  end.
End backend.
