(* ===== verification/StoreRecords.v ===== *)
(** * What the install store leaves alone

    Calls of src/crates/kindlebridge-bundle/src/install.rs change nothing in the images and
    the data of applications, which lie beside the store, and no activation record appears
    but the one that is staged; whatever system call fails, and whatever the store holds. *)

From S2P Require Import Prelude Text BundleError Paths Cbor BundleModel Verify Activation Files.
From S2P Require Import InstallStore InstallSafety StoreRuns DeviceInstall Supervisor.

Section records.
Context `{order : DirOrder, generations : Serde ActivationGeneration}.
Context `{journals : Serde TransactionJournal, width : PointerWidth}.
Context (blake3 : bytes → bytes).
Implicit Types (t : gmap path Node) (G : ActivationGeneration → Prop).

(** Where the store keeps activation records: in a generation and staged for one. *)
Definition record_path (q : path) : Prop :=
  (∃ name, q = [GENERATIONS; name; ACTIVATION]) ∨ (∃ tx, q = [TRANSACTIONS; tx; STAGED; ACTIVATION]).
Definition recorded (t : gmap path Node) (g : ActivationGeneration) : Prop :=
  ∃ q, record_path q ∧ activation_at t q g.

(** Only a record in [G] may be new. *)
Record leaves (G : ActivationGeneration → Prop) (t t' : gmap path Node) : Prop := {
  leaves_ok : tree_ok t';
  leaves_foreign : ∀ c rest, c = IMAGES ∨ c = DATA → t' !! (c :: rest) = t !! (c :: rest);
  leaves_records : ∀ g, recorded t' g → recorded t g ∨ G g;
}.

Lemma leaves_refl G t : tree_ok t → leaves G t t.
Proof. split; auto. Qed.
Lemma leaves_trans G t1 t2 t3 : leaves G t1 t2 → leaves G t2 t3 → leaves G t1 t3.
Proof.
  intros [_ Ho Hr] [Hok Ho' Hr']. split; [done| |].
  - intros c rest Hc. rewrite Ho' by done. by apply Ho.
  - intros g [Hg|Hg]%Hr'; [by apply Hr|by right].
Qed.

(** A change under which every record path keeps its file or loses it. *)
Lemma leaves_same G t t' :
  tree_ok t' → (∀ c rest, c = IMAGES ∨ c = DATA → t' !! (c :: rest) = t !! (c :: rest)) →
  (∀ q bs x, record_path q → t' !! q = Some (Regular bs x) → t !! q = Some (Regular bs x)) → leaves G t t'.
Proof.
  intros Hok Hf Hr. split; [done|done|]. intros g (q & Hq & bs & x & Hx & Hg). left.
  exists q. split; [done|]. exists bs, x. split; [by apply Hr|done].
Qed.

Definition tame {B : Type} (G : ActivationGeneration → Prop) (m : install_op B) : Prop :=
  ∀ t, tree_ok t → hoare (on_tree t) m (λ _ d, leaves G t (tree d)) (λ d, leaves G t (tree d)).

Lemma tame_bind {B C : Type} G (m : install_op B) (k : B → install_op C) :
  tame G m → (∀ b, tame G (k b)) → tame G (mbnd m k).
Proof.
  intros Hm Hk t Ht. eapply hoare_bind; [by apply Hm|]. intros b. apply hoare_any. intros d0 Hl.
  apply (hoare_pre _ (on_tree (tree d0))); [by intros d ->|].
  eapply hoare_conseq; [apply (Hk b _ (leaves_ok _ _ _ Hl))|done|..].
  - intros c d Hd. by eapply leaves_trans.
  - intros d Hd. by eapply leaves_trans.
Qed.
Lemma tame_look {B C : Type} G (m : install_op B) (k : B → install_op C) φ :
  looks m φ →
  (∀ b t, tree_ok t → φ t b → hoare (on_tree t) (k b) (λ _ d, leaves G t (tree d)) (λ d, leaves G t (tree d))) →
  tame G (mbnd m k).
Proof. intros Hm Hk t Ht. eapply hoare_look; [exact Hm|intros d ->; by apply leaves_refl|]. intros b Hb. by apply Hk. Qed.
Lemma tame_looks {B : Type} G (m : install_op B) φ : looks m φ → tame G m.
Proof.
  intros Hm t Ht. eapply hoare_conseq; [apply (Hm t)|done|intros b d [-> _]|intros d ->]; by apply leaves_refl.
Qed.
Lemma tame_ret {B : Type} G (b : B) : tame G (mret b).
Proof. intros t Ht. apply hoare_ret. intros d ->. by apply leaves_refl. Qed.
Lemma tame_fail {B : Type} G e : tame G (mfail e : install_op B).
Proof. intros t Ht. apply hoare_fail. intros d ->. by apply leaves_refl. Qed.
Lemma tame_any {B : Type} G (m : install_op B) : tame (λ _, False) m → tame G m.
Proof.
  intros Hm t Ht. assert (Hw : ∀ t', leaves (λ _, False) t t' → leaves G t t').
  { intros t' [Hok Hf Hr]. split; [done..|]. intros g [?|[]]%Hr. by left. }
  eapply hoare_conseq; [by apply Hm|done|intros b d|intros d]; apply Hw.
Qed.

(** The names of the store are not those of the directories beside it. *)
Lemma foreign_store c rest : c = IMAGES ∨ c = DATA → ¬ store_path (c :: rest).
Proof. intros [-> | ->] [Hq|[Hq|[Hq|Hq]]]; discriminate Hq. Qed.

Lemma tame_made G p t t' : tree_ok t → store_path p → made p t t' → leaves G t t'.
Proof.
  intros Ht Hp [->|(-> & Hnone & Hdir)]; [by apply leaves_refl|]. apply leaves_same.
  - apply tree_ok_insert; [done|by right|done].
  - intros c rest Hc. apply lookup_insert_ne. intros ->. by eapply foreign_store.
  - intros q bs x _ [?|Hq]%inserted_directory; [done|exact Hq].
Qed.
Lemma tame_ensure p : store_path p → tame (λ _, False) (ensure_directory p).
Proof.
  intros Hp t Ht. eapply hoare_conseq; [by apply hoare_owned_directory|done|..].
  - intros [] d [Hm _]. by eapply tame_made.
  - intros d Hm. by eapply tame_made.
Qed.
Lemma tame_create_root : tame (λ _, False) create_root.
Proof.
  unfold create_root. eapply tame_look; [apply looks_gate|]. intros [] t Ht _ d Hd. cbn. unfold on_tree in Hd. rewrite Hd.
  apply leaves_same.
  - apply tree_ok_insert; [done|by left|done].
  - intros c rest Hc. by apply lookup_insert_ne.
  - intros q bs x _ [?|Hq]%inserted_directory; [done|exact Hq].
Qed.
Lemma tame_open quota : tame (λ _, False) (store_open quota).
Proof.
  unfold store_open. apply tame_bind; [eapply tame_looks, looks_owned_exists|]. intros b.
  apply tame_bind.
  { destruct b; [|apply tame_create_root]. apply tame_bind; [eapply tame_looks, looks_metadata|].
    intros n. destruct (negb _); [apply tame_fail|apply tame_ret]. }
  intros []. apply tame_bind; [eapply tame_looks, looks_gate|]. intros [].
  apply tame_bind; [eapply tame_looks, looks_owned_reparse|]. intros [].
  apply tame_bind; [|intros []; apply tame_ret]. unfold ensure_layout.
  apply tame_bind; [by apply tame_ensure|]. intros [].
  do 3 (apply tame_bind; [apply tame_ensure; cbn; tauto|]; intros []).
  eapply tame_looks, looks_sync_dir.
Qed.

(** ** Writes *)

Lemma record_not_temp dir q : record_path q → ¬ temp_in dir q.
Proof.
  intros Hq (name & Heq & Hdot)%temp_dot. apply (f_equal last) in Heq. rewrite last_snoc in Heq.
  destruct Hq as [[n ->]|[tx ->]]; injection Heq as <-; discriminate Hdot.
Qed.

Lemma tame_write G p data replace :
  store_path p → p ≠ [] → ¬ temp_in (parent p) p → (record_path p → ∀ g, from_cbor data = Ok g → G g) →
  tame G (atomic_write p data replace).
Proof.
  intros Hp Hne Htemp HG t Ht.
  assert (Hw : ∀ t', written t p data t' → leaves G t t').
  { intros t' Hw. split; [apply Hw| |].
    - intros c rest Hc. apply (replaced_others _ _ _ _ Hw); [intros <-; by eapply foreign_store|].
      intros (name & Heq & Hdot)%temp_dot. destruct p as [|a [|b p]]; [done| |].
      + injection Heq as -> ->. destruct Hc as [-> | ->]; discriminate Hdot.
      + injection Heq as -> _. destruct Hp as [->|[->|[->|[=]]]]; destruct Hc as [Hc|Hc]; discriminate Hc.
    - intros g (q & Hq & bs & x & Hx & Hl & Hg). destruct (decide (q = p)) as [->|Hqp].
      + destruct (replaced_target _ _ _ _ Hw) as [Hsame|Hnew].
        * left. exists p. split; [done|]. exists bs, x. by rewrite <-Hsame.
        * right. rewrite Hnew in Hx. injection Hx as <- _. by apply HG.
      + left. exists q. split; [done|]. exists bs, x. split; [|done]. rewrite <-Hx. symmetry.
        apply (replaced_others _ _ _ _ Hw); [done|by apply record_not_temp]. }
  eapply hoare_conseq; [by apply hoare_owned_write|done|..].
  - intros [] d [Hd _]. by apply Hw.
  - intros d Hd. by apply Hw.
Qed.

Lemma not_temp_name dir name : head name ≠ Some x2e → ¬ temp_in dir (dir ++ [name]).
Proof. intros Hn (name' & Heq & Hdot)%temp_dot. apply app_inj_2 in Heq as [_ [= ->]]; done. Qed.

Lemma tame_write_journal j : tame (λ _, False) (write_journal j).
Proof.
  unfold write_journal. apply tame_bind; [eapply tame_looks, looks_validate_owned|]. intros [].
  apply tame_bind; [eapply tame_looks, looks_lift|]. intros bs.
  apply tame_write; [cbn; tauto|done|by apply (not_temp_name (transaction_dir _))|].
  by intros [[name [=]]|[tx [=]]].
Qed.
Lemma tame_write_pointer id : tame (λ _, False) (write_active_pointer id).
Proof.
  unfold write_active_pointer. apply tame_bind; [eapply tame_looks, looks_validate_owned|]. intros [].
  apply tame_write; [cbn; tauto|done|by apply (not_temp_name [])|]. by intros [[name [=]]|[tx [=]]].
Qed.

Lemma tame_remove tx rest : tame (λ _, False) (safe_remove_tree (TRANSACTIONS :: tx :: rest)).
Proof.
  intros t Ht. assert (Hw : ∀ t', pruned (TRANSACTIONS :: tx :: rest) t t' → leaves (λ _, False) t t').
  { intros t' [Hok Ho Hb]. apply leaves_same; [done| |].
    - intros c r Hc. apply Ho. intros [k [= -> _]]. by destruct Hc.
    - intros q bs x _ Hq. destruct (Hb q); congruence. }
  eapply hoare_conseq; [by apply prunes_safe_remove_tree|done|intros [] d|intros d]; apply Hw.
Qed.

(** ** Operations *)

Lemma moved_leaves t tx g id :
  tree_ok t → activation_at t [TRANSACTIONS; tx; STAGED; ACTIVATION] g → t !! generation_dir id = None →
  t !! generations_dir = Some Directory →
  leaves (λ _, False) t (move_tree [TRANSACTIONS; tx; STAGED] (generation_dir id) t).
Proof.
  intros Ht (bs & x & Hx & _) Hfree Hpar. set (from := [TRANSACTIONS; tx; STAGED]).
  assert (Hdir : t !! from = Some Directory) by (apply (Ht from ACTIVATION); by eexists).
  split.
  - apply tree_ok_move; [done|done|done|done|by intros [r [=]]].
  - intros c rest Hc. rewrite lookup_move_other by (intros [r [= -> _]]; by destruct Hc).
    rewrite decide_False; [done|]. intros [r [= -> _]]. by destruct Hc.
  - intros g' (q & Hq & bs' & x' & Hx' & Hg'). left.
    destruct (decide (generation_dir id `prefix_of` q)) as [[r ->]|Hout].
    + rewrite lookup_move_to in Hx' by done. destruct Hq as [[name Hq]|[tx' Hq]]; [|done].
      injection Hq as _ ->. exists (from ++ [ACTIVATION]). split; [right; by exists tx|]. by exists bs', x'.
    + rewrite lookup_move_other in Hx' by done. destruct (decide _); [done|].
      exists q. split; [done|]. by exists bs', x'.
Qed.

Lemma tame_make_durable tx j : tame (λ _, False) (make_durable tx j).
Proof.
  assert (Hrefl : ∀ t d, tree_ok t → on_tree t d → leaves (λ _, False) t (tree d)) by (intros t d Ht ->; by apply leaves_refl).
  unfold make_durable. eapply tame_look; [apply looks_owned_exists|]. intros [] t Ht Hex; [revert t Ht Hex|].
  { intros t Ht _. revert t Ht. apply tame_bind; [eapply tame_looks, looks_load_generation|]. intros g.
    apply tame_bind; [eapply tame_looks, looks_owned_exists|]. intros [].
    - apply tame_bind; [eapply tame_looks, looks_read_activation|]. intros g'.
      destruct (_ || _); [apply tame_fail|apply (tame_remove tx [STAGED])].
    - apply tame_ret. }
  apply stat_not_found in Hex as Hfree; [|done].
  eapply hoare_look; [apply looks_owned_exists|intros d; by apply Hrefl|]. intros b _.
  destruct b; cbn [negb]; [|apply hoare_fail; intros d; by apply Hrefl].
  eapply hoare_look; [apply looks_read_activation|intros d; by apply Hrefl|]. intros g Hg.
  destruct (_ || _); [apply hoare_fail; intros d; by apply Hrefl|].
  eapply hoare_bind with (Q := λ _ d, leaves (λ _, False) t (tree d)).
  - eapply hoare_conseq; [apply (hoare_rename_dir [TRANSACTIONS; tx; STAGED]); [done| |exact Hex]|done|..].
    + destruct Hg as (bs & x & Hx & _). apply stat_complete; [done|].
      apply (Ht [TRANSACTIONS; tx; STAGED] ACTIVATION). by eexists.
    + intros [] d (-> & Hpar & _). exact (moved_leaves t tx g (journal_generation j) Ht Hg Hfree Hpar).
    + intros d. by apply Hrefl.
  - intros []. apply hoare_any. intros d0 Hl. apply (hoare_pre _ (on_tree (tree d0))); [by intros d ->|].
    eapply hoare_conseq; [apply (looks_sync_dir generations_dir)|done|intros [] d [-> _]|intros d ->]; exact Hl.
Qed.

Lemma tame_crash_if a b : tame (λ _, False) (crash_if a b).
Proof. unfold crash_if. case_bool_decide; [apply tame_fail|apply tame_ret]. Qed.

Lemma tame_commit tx : tame (λ _, False) (commit_generation tx).
Proof.
  apply tame_bind; [eapply tame_looks, looks_lift|]. intros []. unfold commit_generation_unlocked.
  apply tame_bind; [eapply tame_looks, looks_read_journal|]. intros j. case_bool_decide; [apply tame_ret|].
  apply tame_bind; [apply tame_make_durable|]. intros []. apply tame_bind; [apply tame_crash_if|]. intros [].
  apply tame_bind; [apply tame_write_journal|]. intros []. apply tame_bind; [apply tame_crash_if|]. intros [].
  apply tame_bind; [eapply tame_looks, looks_active|]. intros active. case_bool_decide.
  { apply tame_bind; [apply tame_write_journal|intros []; apply tame_ret]. }
  case_bool_decide; [apply tame_fail|]. apply tame_bind; [apply tame_write_pointer|]. intros [].
  apply tame_bind; [apply tame_crash_if|]. intros [].
  apply tame_bind; [apply tame_write_journal|intros []; apply tame_ret].
Qed.

Lemma tame_settle tx j : tame (λ _, False) (settle tx j).
Proof.
  unfold settle. apply tame_bind; [eapply tame_looks, looks_load_generation|]. intros g.
  apply tame_bind; [eapply tame_looks, looks_owned_exists|]. intros b. apply tame_bind.
  { destruct b; [|apply tame_ret]. apply tame_bind; [eapply tame_looks, looks_read_activation|].
    intros g'. destruct (_ || _); [apply tame_fail|apply tame_ret]. }
  intros []. apply tame_bind; [eapply tame_looks, looks_active|]. intros active. case_bool_decide.
  { apply tame_bind; [apply tame_write_journal|intros []; apply tame_ret]. }
  case_bool_decide.
  - apply tame_bind; [apply tame_write_pointer|]. intros [].
    apply tame_bind; [apply tame_write_journal|intros []; apply tame_ret].
  - apply tame_bind; [apply (tame_remove tx [])|intros []; apply tame_ret].
Qed.
Lemma tame_recover_transaction tx : tame (λ _, False) (recover_transaction tx).
Proof.
  assert (Hremove : ∀ B rest (b : B), tame (λ _, False) (do! safe_remove_tree (TRANSACTIONS :: tx :: rest) in mret b)).
  { intros B rest b. apply tame_bind; [apply tame_remove|intros []; apply tame_ret]. }
  unfold recover_transaction. apply tame_bind; [eapply tame_looks, looks_owned_exists|]. intros [].
  - cbn [negb]. apply tame_bind; [eapply tame_looks, looks_read_journal|]. intros j. case_bool_decide.
    + apply tame_bind; [eapply tame_looks, looks_owned_exists|]. intros b.
      apply tame_bind; [|intros []; apply tame_ret]. destruct b; [apply (tame_remove tx [STAGED])|apply tame_ret].
    + apply tame_bind; [eapply tame_looks, looks_owned_exists|]. intros []; cbn [negb]; [apply tame_settle|].
      apply tame_bind; [eapply tame_looks, looks_owned_exists|]. intros b. apply (Hremove _ []).
  - apply (Hremove _ []).
Qed.
Lemma tame_recover : tame (λ _, False) recover.
Proof.
  unfold recover. do 2 (apply tame_bind; [eapply tame_looks, looks_validate_owned|]; intros []).
  apply tame_bind; [eapply tame_looks, looks_read_dir|]. intros names.
  apply tame_bind; [eapply tame_looks, looks_transaction_names|]. intros ids. generalize (sort_ids ids). clear ids.
  intros ids. induction ids as [|id ids IH]; cbn [recover_all]; [apply tame_ret|].
  apply tame_bind; [apply tame_recover_transaction|]. intros a.
  apply tame_bind; [exact IH|intros l; apply tame_ret].
Qed.

(** A block that is put. *)
Lemma tame_put_block store digest bs : tame (λ _, False) (put_block blake3 store digest bs).
Proof.
  unfold put_block. destruct (_ || _); [apply tame_fail|]. case_bool_decide; [apply tame_fail|].
  apply tame_bind; [eapply tame_looks, looks_block_status|]. intros [| |]; [|apply tame_ret|apply tame_fail].
  apply tame_bind; [eapply tame_looks, looks_block_usage|]. intros u.
  apply tame_bind; [eapply tame_looks, looks_lift|]. intros total. destruct (_ <? _); [apply tame_fail|].
  apply tame_bind; [eapply tame_looks, looks_validate_owned|]. intros [].
  apply tame_bind; [apply tame_ensure; cbn; tauto|]. intros [].
  apply tame_bind.
  - intros t Ht. apply hoare_try. eapply hoare_conseq; [apply (tame_write (λ _, False) (block_path digest)), Ht|done|done|by intros d Hd].
    + cbn. tauto.
    + done.
    + apply block_not_temp.
    + by intros [[name [=]]|[tx [=]]].
  - intros [[]|e]; [apply tame_ret|]. apply tame_bind; [eapply tame_looks, looks_owned_exists|].
    intros []; [|apply tame_fail]. apply tame_bind; [eapply tame_looks, looks_block_status|].
    intros [| |]; [apply tame_fail|apply tame_ret|apply tame_fail].
Qed.

(** ** Staging: the record that is new is the one that was given, as it is read back *)

Definition written_as (g g' : ActivationGeneration) : Prop := ∃ bs, to_cbor g = Ok bs ∧ from_cbor bs = Ok g'.

Lemma tame_create_dir p : store_path p → tame (λ _, False) (create_dir p).
Proof.
  intros Hp t Ht. eapply hoare_conseq; [apply hoare_create_dir|done| |intros d ->; by apply leaves_refl].
  intros [] d (-> & Hnone & Hdir). apply (tame_made _ p t); [done|done|]. right. split; [done|].
  split; [by eapply stat_not_found|by apply stat_lookup].
Qed.
Lemma tame_stage tx g : tame (written_as g) (stage_generation tx g).
Proof.
  unfold stage_generation. do 2 (apply tame_bind; [eapply tame_looks, looks_lift|]; intros []).
  apply tame_bind; [eapply tame_looks, looks_active|]. intros active. case_bool_decide; [apply tame_fail|].
  apply tame_bind; [eapply tame_looks, looks_validate_owned|]. intros [].
  apply tame_bind; [eapply tame_looks, looks_owned_exists|]. intros []; [eapply tame_looks, looks_restage|].
  apply tame_bind; [eapply tame_looks, looks_validate_owned|]. intros [].
  apply tame_bind; [eapply tame_looks, looks_owned_exists|]. intros []; [apply tame_fail|]. unfold stage_new.
  apply tame_bind; [apply tame_any, tame_create_dir; cbn; tauto|]. intros [].
  apply tame_bind; [eapply tame_looks, looks_sync_dir|]. intros [].
  apply tame_bind; [apply tame_any, tame_create_dir; cbn; tauto|]. intros [].
  intros t Ht. eapply hoare_look; [apply looks_lift|intros d ->; by apply leaves_refl|]. intros bs Hbs. cbv beta in Hbs. revert t Ht.
  apply tame_bind.
  { apply tame_write; [cbn; tauto|done|by apply (not_temp_name (transaction_dir tx ++ [STAGED]))|].
    intros _ g' Hg'. by exists bs. }
  intros []. apply tame_bind; [eapply tame_looks, looks_sync_dir|]. intros [].
  apply tame_bind; [apply tame_any, tame_write_journal|]. intros [].
  apply tame_bind; [eapply tame_looks, looks_sync_dir|]. intros []. apply tame_ret.
Qed.
End records.
