(* ===== verification/ApplicationSafety.v ===== *)
(** * What installing applications guarantees

    The composition of the install store, the images, the supervisor and the manager
    (src/device/kindlebridged/src/application.rs and application/backend.rs): whatever
    operations are cut short wherever, an application that a generation of the store names
    has a complete image of its bundle, so that the active applications can be opened. *)

From S2P Require Import Prelude Text Files InstallStore InstallSafety StoreRuns FileHandles Rpc.
From S2P Require Import BundleError Paths Utf8 BundleHeader Cbor BundleModel Verify Authenticity Activation.
From S2P Require Import DeviceInstall ImageSafety Supervisor Applications StoreRecords.

Section safety.
Context {P : Type} `{Processes P, DirOrder, ReadSize, PointerWidth, Ed25519, Zstd, Semver, Texts}.
Context `{Serde Envelope, Serde (list SignatureEntry), Serde (list FileEntry), Serde RotationProofSignedData}.
Context `{Serde GenerationIdentity, Serde ActivationGeneration, Serde TransactionJournal, Serde RuntimeManifest}.
Context (blake3 : bytes → bytes) (crc32c : bytes → Z) (nfc : str → str) (link_resolves : Files.path → bool).
Implicit Types (t : gmap Files.path Node) (e : ActivationEntry) (g : ActivationGeneration).

(** Serialization reads back what it has written. *)
Definition records_read_back : Prop := ∀ g bs g', to_cbor g = Ok bs → from_cbor bs = Ok g' → g' = g.
Definition manifests_read_back : Prop := ∀ (m : RuntimeManifest) bs,
  to_canonical_vec to_value m = Ok bs → read_manifest bs = Ok m.

(** ** Images *)

(** The application [e] can be opened: its image has a manifest and the files that the
    manifest promises, and it is the application that [e] names, or two byte strings have
    the same digest. *)
Definition ready t e : Prop := ∃ manifest app,
  manifest_at t (entry_root e) manifest ∧ runs blake3 nfc t (image_dir (entry_root e)) manifest app ∧
  (application_id app = entry_id e ∧ app_version app = code_version e ∨ collision blake3).

(** An image directory is empty, or it holds the image of a bundle that was verified. *)
Definition verified_bundle (v : Inspection) : Prop := ∃ file o, verify blake3 crc32c nfc file o = Ok v.
Definition intact t (root : Digest) : Prop :=
  nothing_below t (image_dir root) ∨
  ∃ v manifest img, verified_bundle v ∧ bundle_root (inspected_header v) = root ∧
    image_of blake3 v manifest img ∧ ∀ r, t !! (image_dir root ++ r) = img !! r.

(** What lies in an image decides. *)
Definition same_image (root : Digest) t t' : Prop := ∀ r, t' !! (image_dir root ++ r) = t !! (image_dir root ++ r).

Lemma manifest_same t t' root manifest : same_image root t t' → manifest_at t root manifest → manifest_at t' root manifest.
Proof. intros Hsame (bs & x & Hbs & Hm). exists bs, x. by rewrite Hsame. Qed.
Lemma runs_same t t' root manifest app :
  same_image root t t' → runs blake3 nfc t (image_dir root) manifest app → runs blake3 nfc t' (image_dir root) manifest app.
Proof.
  intros Hsame [Happ Hentry Hdir (c & y & Hc & Hmain)]. split; [done|done|..].
  - intros wd Hwd. destruct (Hdir wd Hwd) as [Hv Hw]. split; [done|].
    unfold join_path in *. rewrite <-app_assoc in *. by rewrite Hsame.
  - exists c, y. rewrite Happ in *. cbn [main] in *. unfold join_path in *. rewrite <-app_assoc in *. by rewrite Hsame.
Qed.
Lemma ready_same t t' e : same_image (entry_root e) t t' → ready t e → ready t' e.
Proof.
  intros Hsame (manifest & app & Hm & Hr & Hid). exists manifest, app.
  split; [by eapply manifest_same|]. split; [by eapply runs_same|done].
Qed.
Lemma intact_same t t' root : same_image root t t' → intact t root → intact t' root.
Proof.
  intros Hsame [Hempty|(v & manifest & img & Hv & Hroot & Himg & Hat)].
  - left. intros c r. rewrite Hsame. apply Hempty.
  - right. exists v, manifest, img. split_and!; [done..|]. intros r. by rewrite Hsame.
Qed.
Lemma ready_not_empty t e : ready t e → ¬ nothing_below t (image_dir (entry_root e)).
Proof. intros (manifest & app & (bs & x & Hbs & _) & _) Hn. specialize (Hn RUNTIME []). congruence. Qed.

(** ** The state of the disk *)

Definition applications_ready t g : Prop :=
  ∀ e, e ∈ generation_entries g → entry_kind e = BundleKind.Application → ready t e.

Record healthy t : Prop := {
  healthy_store : store_ok t;
  healthy_images : ∀ root, intact t root;
  healthy_records : ∀ g, recorded t g → applications_ready t g;
}.
(** What an operation does to a healthy disk. *)
Record later t t' : Prop := {
  later_healthy : healthy t';
  later_ready : ∀ e, ready t e → ready t' e;
}.

Lemma later_refl t : healthy t → later t t.
Proof. by split. Qed.
Lemma later_trans t1 t2 t3 : later t1 t2 → later t2 t3 → later t1 t3.
Proof. intros [_ Hab] [Hc Hbc]. split; [done|]. intros e He. by apply Hbc, Hab. Qed.

(** Changes beside the images. *)
Lemma later_beside t t' :
  healthy t → store_ok t' → (∀ root, same_image root t t') →
  (∀ g, recorded t' g → recorded t g ∨ applications_ready t g) → later t t'.
Proof.
  intros [Hs Hi Hr] Hs' Hsame Hrec.
  assert (Hready : ∀ e, ready t e → ready t' e) by (intros e; by apply ready_same).
  split; [|done]. split; [done| |].
  - intros root. by eapply intact_same.
  - intros g [Hg|Hg]%Hrec e He Hk; apply Hready; [by apply (Hr g)|by apply Hg].
Qed.

(** Changes beside the store: the root may appear. *)
Lemma store_ok_beside t t' :
  store_ok t → tree_ok t' →
  (∀ q, store_path q → t' !! q = t !! q ∨ q = [] ∧ t' !! q = Some Directory) → store_ok t'.
Proof.
  intros Hs Ht' Hsame.
  assert (Heq : ∀ q, store_path q → q ≠ [] → t' !! q = t !! q).
  { intros q Hq Hne. by destruct (Hsame q Hq) as [|[? _]]. }
  assert (Hgen : ∀ rest, t' !! (GENERATIONS :: rest) = t !! (GENERATIONS :: rest)) by (intros rest; apply Heq; [cbn; tauto|done]).
  assert (Htx : ∀ rest, t' !! (TRANSACTIONS :: rest) = t !! (TRANSACTIONS :: rest)) by (intros rest; apply Heq; [cbn; tauto|done]).
  assert (Hk : keeps t t') by (intros name rest _; apply Hgen).
  split; [done|..].
  - intros name. rewrite Hgen. intros [g Hg]%(store_generations t Hs). exists g. by eapply complete_keeps.
  - intros n. rewrite Heq by (cbn; tauto || done). intros (g & x & Hn & Hg)%(store_active t Hs). exists g, x.
    split; [done|by eapply complete_keeps].
  - intros tx. rewrite Htx. intros Hj c rest. rewrite Htx. by apply (store_staged t Hs).
  - intros q l Hq. destruct (Hsame q Hq) as [->|[_ ->]]; [by apply (store_plain t Hs)|done].
  - intros q n Hq. destruct (Hsame q (layout_store_path q Hq)) as [->|[_ ->]]; [by apply (store_layout t Hs)|congruence].
Qed.

Lemma recorded_same t t' g :
  (∀ q, store_path q → q ≠ [] → t' !! q = t !! q) → recorded t' g → recorded t g.
Proof.
  intros Hsame (q & Hq & bs & x & Hx & Hg). exists q. split; [done|]. exists bs, x. split; [|done].
  rewrite <-Hx. symmetry. apply Hsame; destruct Hq as [[name ->]|[tx ->]]; [cbn; tauto|cbn; tauto|done|done].
Qed.

(** A call of the store. *)
Lemma later_store G A t t' :
  healthy t → evolves A t t' → leaves G t t' → (∀ g, G g → applications_ready t g) → later t t'.
Proof.
  intros Ht He Hl HG. apply later_beside; [done|apply He| |].
  - intros root r. apply (leaves_foreign _ _ _ Hl). by left.
  - intros g [Hg|Hg]%(leaves_records _ _ _ Hl); [by left|right; by apply HG].
Qed.

(** Files of the applications. *)
Definition data_only t t' : Prop :=
  tree_ok t' ∧ ∀ q, t' !! q = t !! q ∨ head q = Some DATA ∨ (q = [] ∧ t' !! q = Some Directory).
Lemma data_only_refl t : tree_ok t → data_only t t.
Proof. split; auto. Qed.
Lemma data_only_trans t1 t2 t3 : data_only t1 t2 → data_only t2 t3 → data_only t1 t3.
Proof.
  intros [_ Hab] [Ht Hbc]. split; [done|]. intros q.
  destruct (Hbc q) as [->|[?|?]]; [apply Hab|by right; left|by right; right].
Qed.
Lemma later_data t t' : healthy t → data_only t t' → later t t'.
Proof.
  intros Ht [Hok Hd].
  assert (Hstore : ∀ q, store_path q → t' !! q = t !! q ∨ q = [] ∧ t' !! q = Some Directory).
  { intros q Hq. destruct (Hd q) as [?|[Hhead|?]]; [by left| |by right].
    destruct q as [|c q]; [done|]. injection Hhead as ->. exfalso. by eapply (foreign_store DATA); [right|]. }
  apply later_beside; [done| | |].
  - by eapply store_ok_beside; [apply Ht|..].
  - intros root r. by destruct (Hd (image_dir root ++ r)) as [|[[=]|[[=] _]]].
  - intros g Hg. left. eapply recorded_same, Hg. intros q Hq Hne. by destruct (Hstore q Hq) as [|[? _]].
Qed.

(** Materialization. *)
Lemma image_dir_inj root root' r : image_dir root `prefix_of` image_dir root' ++ r → root = root'.
Proof. intros [k Hk]. injection Hk as Hk _. by apply parse_hex_inj. Qed.

Lemma later_images v t t' : healthy t → verified_bundle v → undamaged blake3 v t t' → later t t'.
Proof.
  intros Ht Hv [Hok Ho Himages Himage]. set (root := bundle_root (inspected_header v)) in *.
  assert (Hstore : ∀ q, store_path q → t' !! q = t !! q).
  { intros q Hq. destruct q as [|c q]; [by apply Ho; [|intros [k [=]]..]|].
    assert (Hc : c ≠ IMAGES) by (intros ->; by eapply (foreign_store IMAGES); [left|]).
    apply Ho; [by intros [= -> _]|by intros [k [= ? _]]..]. }
  assert (Hother : ∀ root', root' ≠ root → same_image root' t t').
  { intros root' Hne r. apply Ho; [done|apply staging_not_below_image|].
    intros Hpre. apply Hne. symmetry. by eapply image_dir_inj. }
  assert (Hready : ∀ e, ready t e → ready t' e).
  { intros e He. eapply ready_same; [|exact He]. destruct (decide (entry_root e = root)) as [Heq|Hne]; [|by apply Hother].
    destruct Himage as [Hsame|[Hempty _]]; [by rewrite Heq|]. rewrite <-Heq in Hempty.
    by destruct (ready_not_empty t e He). }
  split; [|done]. split.
  - eapply store_ok_beside; [apply Ht|done|]. intros q Hq. left. by apply Hstore.
  - intros root'. destruct (decide (root' = root)) as [->|Hne]; [|eapply intact_same; [by apply Hother|apply Ht]].
    destruct Himage as [Hsame|[_ (manifest & img & Himg & Hat)]]; [eapply intact_same; [exact Hsame|apply Ht]|].
    right. by exists v, manifest, img.
  - intros g Hg e He Hk. apply Hready, (healthy_records _ Ht g); [|done..].
    eapply recorded_same, Hg. intros q Hq _. by apply Hstore.
Qed.

(** The application of a bundle that was materialized. *)
Lemma manifest_names v manifest :
  runtime_manifest v = Ok manifest →
  manifest_schema manifest = RUNTIME_MANIFEST_SCHEMA ∧
  manifest_bundle_root manifest = bundle_root (inspected_header v) ∧
  manifest_app_id manifest = bundle_id (envelope v) ∧ manifest_version manifest = version (envelope v).
Proof.
  unfold runtime_manifest. intros Hm. do 6 (apply result_bind_ok in Hm as (? & _ & Hm)). by injection Hm as <-.
Qed.

Lemma image_manifest v manifest img t :
  manifests_read_back → image_of blake3 v manifest img →
  (∀ r, t !! (image_dir (bundle_root (inspected_header v)) ++ r) = img !! r) →
  manifest_at t (bundle_root (inspected_header v)) manifest.
Proof.
  intros Hback (es & bs & _ & Hm & Hbs & Hlen & Hc) Hat.
  destruct (manifest_names v manifest Hm) as (Hschema & Hroot & _).
  exists bs, false. rewrite Hat. split_and!; [apply Hc|done|by apply Hback|done|done].
Qed.
Lemma manifest_at_inj t root m m' : manifest_at t root m → manifest_at t root m' → m = m'.
Proof. intros (bs & x & Hp & _ & Hm & _) (bs' & x' & Hp' & _ & Hm' & _). congruence. Qed.

Lemma installed_ready v t app :
  manifests_read_back → healthy t → verified_bundle v → ready_to_run blake3 nfc v t app → ready t (installed_entry v).
Proof.
  intros Hback Ht (file & o & Hv) (manifest & Hruns & Hm). set (root := bundle_root (inspected_header v)) in *.
  assert (Hat : manifest_at t root manifest).
  { destruct Hm as [Hm|(img & Himg & His)]; [done|]. by eapply image_manifest. }
  assert (Hid : manifest_app_id manifest = bundle_id (envelope v) ∧ manifest_version manifest = version (envelope v) ∨
                collision blake3).
  { destruct (healthy_images t Ht root) as [Hempty|(v' & m & img & (file' & o' & Hv') & Hroot & Himg & His)].
    - destruct Hat as (bs & x & Hbs & _). specialize (Hempty RUNTIME []). congruence.
    - rewrite <-Hroot in His. pose proof (image_manifest v' m img t Hback Himg His) as Hat'. rewrite Hroot in Hat'.
      pose proof (manifest_at_inj _ _ _ _ Hat Hat') as <-. destruct Himg as (es & bs & _ & Hman & _).
      destruct (manifest_names v' manifest Hman) as (_ & _ & -> & ->).
      apply verify_inv in Hv as [Iv%inspect_inv _ _ _]. apply verify_inv in Hv' as [Iv'%inspect_inv _ _ _].
      destruct (same_envelope blake3 _ _ _ _ _ _ Iv' Iv Hroot) as [[_ ->]|?]; [by left|by right]. }
  exists manifest, app. split; [done|]. split; [done|]. destruct Hruns as [-> _ _ _]. cbn. exact Hid.
Qed.

(** ** Operations on the state of the supervisor *)

Definition safe {E A : Type} t (m : M (Supervisor P) E A) (Q : A → gmap Files.path Node → Prop) : Prop :=
  hoare (λ s, on_tree t (disk s)) m (λ a s, later t (tree (disk s)) ∧ Q a (tree (disk s)))
    (λ s, later t (tree (disk s))).

Lemma safe_bind {E A B : Type} t (m : M (Supervisor P) E A) (k : A → M (Supervisor P) E B) Q R :
  safe t m Q → (∀ a t', later t t' → Q a t' → safe t' (k a) R) → safe t (mbnd m k) R.
Proof.
  intros Hm Hk. eapply hoare_bind; [exact Hm|]. intros a. apply hoare_any. intros s0 [Hl Hq].
  eapply hoare_conseq; [apply (Hk a _ Hl Hq)|by intros s ->|..].
  - intros b s [Hb Hr]. split; [by eapply later_trans|done].
  - intros s Hb. by eapply later_trans.
Qed.
Lemma safe_return {E A : Type} t (a : A) (Q : A → _ → Prop) : healthy t → Q a t → safe t (mret a : M _ E A) Q.
Proof. intros Ht Hq. apply hoare_ret. intros s Hs. unfold on_tree in Hs. rewrite Hs. split; [by apply later_refl|done]. Qed.
Lemma safe_refuse {E A : Type} t (e : E) (Q : A → _ → Prop) : healthy t → safe t (mfail e) Q.
Proof. intros Ht. apply hoare_fail. intros s Hs. unfold on_tree in Hs. rewrite Hs. by apply later_refl. Qed.
Lemma safe_lift {E A : Type} t (r : result E A) : healthy t → safe t (mlift r) (λ a t', r = Ok a ∧ t' = t).
Proof. intros Ht. destruct r; [by apply safe_return|by apply safe_refuse]. Qed.
Lemma safe_conseq {E A : Type} t (m : M (Supervisor P) E A) (Q R : A → _ → Prop) :
  safe t m Q → (∀ a t', later t t' → Q a t' → R a t') → safe t m R.
Proof. intros Hm HR. eapply hoare_conseq; [exact Hm|done| |done]. intros a s [Hl Hq]. split; [done|by apply HR]. Qed.

(** Calls on the disk. *)
Lemma safe_disk {E F A : Type} t (f : E → F) (m : M Disk E A) Q :
  hoare (on_tree t) m (λ a d, later t (tree d) ∧ Q a (tree d)) (λ d, later t (tree d)) →
  safe t (zoom_err disk set_disk f m : M (Supervisor P) F A) Q.
Proof. intros Hm s Hs. specialize (Hm (disk s) Hs). unfold zoom_err. by destruct (m (disk s)) as [d [a|e]]. Qed.
Lemma safe_looks {E F A : Type} `{FromIo E} t (f : E → F) (m : M Disk E A) φ :
  healthy t → looks m φ → safe t (zoom_err disk set_disk f m : M (Supervisor P) F A) (λ a t', φ t a ∧ t' = t).
Proof.
  intros Ht Hm. apply safe_disk. eapply hoare_conseq; [apply (Hm t)|done|..].
  - intros a d [-> Ha]. split; [by apply later_refl|done].
  - intros d ->. by apply later_refl.
Qed.
Lemma safe_store {A : Type} t (f : BundleError → RpcError) (m : install_op A) Gs A' Q :
  healthy t → stable A' t m Q → tame Gs m → (∀ g, Gs g → applications_ready t g) → safe t (on_store f m : M (Supervisor P) _ _) Q.
Proof.
  intros Ht Hst Htame HG. apply safe_disk. intros d Hd.
  specialize (Hst d Hd). specialize (Htame t (store_tree _ (healthy_store _ Ht)) d Hd).
  destruct (m d) as [d' [a|e]].
  - destruct Hst as [He Hq]. split; [by eapply later_store|done].
  - by eapply later_store.
Qed.

(** Calls that do not touch the disk. *)
Definition off_disk {E A : Type} (m : M (Supervisor P) E A) : Prop := ∀ s, disk (m s).1 = disk s.
Lemma off_disk_bind {E A B : Type} (m : M (Supervisor P) E A) (k : A → M (Supervisor P) E B) :
  off_disk m → (∀ a, off_disk (k a)) → off_disk (mbnd m k).
Proof. intros Hm Hk s. specialize (Hm s). unfold mbnd. destruct (m s) as [s' [a|e]]; [|done]. by rewrite Hk. Qed.
Lemma off_disk_processes {A : Type} f (m : P → P * result IoErrorKind A) : off_disk (on_processes f m).
Proof. intros s. unfold on_processes, zoom_err. by destruct (m (processes s)). Qed.
Lemma off_disk_reap id : off_disk (reap_one id).
Proof.
  unfold reap_one. intros s. cbn. destruct (Supervisor.children s !! id) as [a|]; [|done].
  apply off_disk_bind; [apply off_disk_processes|]. intros [b|]; [|done]. by apply off_disk_bind.
Qed.
Lemma off_disk_status id root : off_disk (application_status id root).
Proof.
  unfold application_status. apply off_disk_bind; [apply off_disk_reap|]. intros [] s. cbn.
  destruct (Supervisor.children s !! id); [|done]. by case_bool_decide.
Qed.
Lemma off_disk_exited pid : off_disk (exited pid).
Proof. apply off_disk_bind; [apply off_disk_processes|done]. Qed.
Lemma off_disk_signal pid signal : off_disk (signal_process_group pid signal).
Proof.
  unfold signal_process_group. destruct (_ <? _); [done|]. intros s. by destruct (killpg pid signal (processes s)) as [p [[]|[]]].
Qed.
Lemma off_disk_stop id timeout : off_disk (stop_application id timeout).
Proof.
  unfold stop_application. apply off_disk_bind; [done|]. intros [] s. cbn.
  destruct (Supervisor.children s !! id) as [a|]; [|done]. apply off_disk_bind; [done|]. intros [].
  unfold terminate. apply off_disk_bind; [apply off_disk_exited|]. intros []; [done|].
  apply off_disk_bind; [apply off_disk_signal|]. intros [] s'. cbn. apply off_disk_bind.
  - generalize (polls_left (timeout + 500) (processes s')). intros n. induction n as [|n IH]; [done|]. cbn [poll_exit].
    apply off_disk_bind; [apply off_disk_exited|]. by intros [].
  - intros []; [done|]. apply off_disk_bind; [apply off_disk_signal|]. intros []. apply off_disk_processes.
Qed.
Lemma safe_off_disk {A : Type} t f (m : M (Supervisor P) RuntimeError A) :
  healthy t → off_disk m → safe t (on_runtime f m) (λ _ t', t' = t).
Proof.
  intros Ht Hm s Hs. specialize (Hm s). unfold on_runtime. destruct (m s) as [s' [a|e]]; cbn in *; rewrite Hm;
    unfold on_tree in Hs; rewrite Hs; [split; [|done]|]; by apply later_refl.
Qed.

(** The files of an application. *)
Definition writes_data {E A : Type} (m : M Disk E A) : Prop :=
  ∀ t, tree_ok t → hoare (on_tree t) m (λ _ d, data_only t (tree d)) (λ d, data_only t (tree d)).
Lemma writes_bind {E A B : Type} (m : M Disk E A) (k : A → M Disk E B) :
  writes_data m → (∀ a, writes_data (k a)) → writes_data (mbnd m k).
Proof.
  intros Hm Hk t Ht. eapply hoare_bind; [by apply Hm|]. intros a. apply hoare_any. intros d0 Hd0.
  apply (hoare_pre _ (on_tree (tree d0))); [by intros d ->|].
  eapply hoare_conseq; [apply (Hk a (tree d0)), Hd0|done|intros b d Hd|intros d Hd]; by eapply data_only_trans.
Qed.
Lemma writes_ret {E A : Type} (a : A) : writes_data (mret a : M Disk E A).
Proof. intros t Ht. apply hoare_ret. intros d ->. by apply data_only_refl. Qed.

Lemma data_only_insert t p n :
  tree_ok t → head p = Some DATA → is_Some (t !! p) ∨ t !! parent p = Some Directory → t !! p ≠ Some Directory →
  data_only t (<[p := n]> t).
Proof.
  intros Ht Hp Hpar Hnd. split.
  - apply tree_ok_insert; [done| |congruence]. right. destruct Hpar as [Hs|?]; [|done].
    destruct p as [|c p] using rev_ind; [done|]. rewrite parent_snoc. by eapply Ht.
  - intros q. destruct (decide (p = q)) as [<-|]; [by right; left|left; by rewrite lookup_insert_ne].
Qed.

Lemma writes_ensure p : head p = Some DATA → writes_data (ensure_data_directory p).
Proof.
  intros Hp t Ht. assert (Hrefl : ∀ d, on_tree t d → data_only t (tree d)) by (intros d ->; by apply data_only_refl).
  unfold ensure_data_directory. eapply hoare_look; [apply looks_catch_io, looks_symlink_metadata|done|]. intros r _.
  assert (Hdirs : ∀ t', dirs_made p t t' → data_only t t').
  { intros t' [Hok Ho]. split; [done|]. intros q. destruct (Ho q) as [?|(_ & Hd & [k ->])]; [by left|]. right.
    destruct q as [|c q]; [by right|left]. by injection Hp as ->. }
  destruct r as [[]|[]]; [by apply hoare_fail|by apply hoare_ret|by apply hoare_fail| |by apply hoare_fail..].
  eapply hoare_conseq; [by apply hoare_create_dir_all|done|intros [] d|intros d]; apply Hdirs.
Qed.
Lemma writes_create {E : Type} `{FromIo E} p : head p = Some DATA → writes_data (file_create p : M Disk E Handle).
Proof.
  intros Hp t Ht. eapply hoare_conseq; [apply hoare_file_create|done| |intros d ->; by apply data_only_refl].
  intros h d (_ & x & -> & [[c Hc%stat_lookup]|[Hn Hd%stat_lookup]]); apply data_only_insert; try done.
  - left. by eexists.
  - congruence.
  - by right.
  - apply stat_not_found in Hn; [congruence|done].
Qed.
Lemma writes_file p content : head p = Some DATA → writes_data (write_file p content).
Proof.
  intros Hp t Ht. unfold write_file.
  eapply hoare_step; [apply hoare_file_create|intros d ->; by apply data_only_refl|]. intros h.
  apply hoare_any. intros d0 (-> & x & Hd0 & Hold). set (t1 := <[p := Regular [] x]> t).
  assert (Hnd : t !! p ≠ Some Directory).
  { destruct Hold as [[c Hc%stat_lookup]|[Hn _]]; [congruence|]. apply stat_not_found in Hn; [congruence|done]. }
  assert (Hpar : is_Some (t !! p) ∨ t !! parent p = Some Directory).
  { destruct Hold as [[c Hc%stat_lookup]|[_ Hd%stat_lookup]]; [left; by eexists|by right]. }
  assert (Hins : ∀ c d, on_tree (<[p := Regular c x]> t1) d → data_only t (tree d)).
  { intros c d ->. unfold t1. rewrite insert_insert_eq. by apply data_only_insert. }
  apply (hoare_pre _ (on_tree t1)); [by intros d ->|].
  eapply hoare_bind with (Q := λ _ d, data_only t (tree d)); [|intros h; by apply hoare_ret].
  eapply hoare_conseq; [apply (hoare_handle_write_all {| handle_path := p; cursor := 0 |} content t1 [] x), lookup_insert_eq|
    done|..].
  - intros h d. apply Hins.
  - intros d [->|[c Hd]]; [by apply data_only_insert|by eapply Hins].
Qed.
Lemma safe_data {A : Type} t (m : M Disk RuntimeError A) :
  healthy t → writes_data m → safe t (on_disk m : M (Supervisor P) RuntimeError A) (λ _ _, True).
Proof.
  intros Ht Hm s Hs. specialize (Hm t (store_tree _ (healthy_store _ Ht)) (disk s) Hs). unfold on_disk, zoom.
  destruct (m (disk s)) as [d [a|e]]; [split; [|done]|]; by apply later_data.
Qed.
Lemma safe_off {E A : Type} t (m : M (Supervisor P) E A) :
  healthy t → off_disk m → safe t m (λ _ t', t' = t).
Proof.
  intros Ht Hm s Hs. specialize (Hm s). destruct (m s) as [s' [a|e]]; cbn in *; rewrite Hm;
    unfold on_tree in Hs; rewrite Hs; [split; [|done]|]; by apply later_refl.
Qed.

Lemma safe_start_application t app : healthy t → safe t (start_application app) (λ _ _, True).
Proof.
  intros Ht. unfold start_application. eapply safe_bind; [by apply safe_off, off_disk_reap|]. intros [] ? _ ->.
  eapply safe_bind; [by apply safe_off|]. intros s ? _ ->.
  destruct (Supervisor.children s !! _); [case_bool_decide; [by apply safe_return|by apply safe_refuse]|].
  eapply safe_bind; [by apply safe_off|]. intros [] ? _ ->.
  eapply safe_bind; [by apply safe_data, writes_ensure|]. intros [] t1 [H1' _] _.
  eapply safe_bind; [by apply safe_data, writes_ensure|]. intros [] t2 [H2' _] _.
  eapply safe_bind; [by apply safe_data, writes_ensure|]. intros [] t3 [H3' _] _.
  eapply safe_bind; [by apply safe_off, off_disk_processes|]. intros run_id ? _ ->.
  eapply safe_bind.
  { apply safe_data; [done|]. unfold prepare_logs. apply writes_bind; [by apply writes_create|]. intros _.
    apply writes_bind; [by apply writes_create|]. intros _. by apply writes_file. }
  intros [] t4 [H4' _] _. eapply safe_bind; [by apply safe_off, off_disk_processes|]. intros pid ? _ ->.
  eapply safe_bind; [by apply safe_off|]. intros [] ? _ ->. by apply safe_return.
Qed.
Lemma safe_start t f app : healthy t → safe t (on_runtime f (start_application app)) (λ _ _, True).
Proof.
  intros Ht s Hs. pose proof (safe_start_application t app Ht s Hs) as Hstart. unfold on_runtime.
  by destruct (start_application app s) as [s' [a|e]].
Qed.

(** ** Operations of the manager *)

Lemma safe_read_bounded t p limit :
  healthy t → limit < u64_max → safe t (read_bounded_regular_file p limit : M (Supervisor P) _ _)
    (λ r t', t' = t ∧ ∀ bs, r = Some bs → ∃ c x, t !! p = Some (Regular c x) ∧ len c ≤ limit ∧ bs = c).
Proof.
  intros Ht Hmax. unfold read_bounded_regular_file.
  eapply safe_bind; [apply safe_looks; [done|apply looks_catch_io, looks_symlink_metadata]|].
  intros r ? _ [Hr ->]. destruct r as [n|[]]; [|by apply safe_return|by apply safe_refuse..].
  specialize (Hr n eq_refl). apply stat_lookup in Hr.
  destruct (negb (is_file n) || (limit <? node_len n)) eqn:Hn; [by apply safe_refuse|].
  apply orb_false_iff in Hn as [Hf Hl%Z.ltb_ge]. apply negb_false_iff in Hf. destruct n as [c x| |]; [|done..].
  eapply safe_bind; [apply safe_looks; [done|apply looks_open_file]|]. intros h ? _ [[-> _] ->].
  eapply safe_bind; [apply safe_looks; [done|apply looks_read_node]|]. intros content ? _ [[y Hy] ->].
  apply stat_lookup in Hy. cbn [handle_path] in Hy. rewrite Hr in Hy. injection Hy as <- _. cbn [node_len] in Hl.
  destruct (_ <? len _) eqn:Hlen; [by apply safe_refuse|]. apply safe_return; [done|]. split; [done|].
  intros bs [= <-]. exists c, x. split; [done|]. split; [done|].
  apply Z.ltb_ge in Hlen. unfold saturating_add in *. apply take_ge. unfold len in *.
  rewrite length_take in Hlen. lia.
Qed.
Lemma safe_load_record t id : healthy t → safe t (load_record id : M (Supervisor P) _ _) (λ g t', t' = t ∧ recorded t g).
Proof.
  intros Ht. unfold load_record. eapply safe_bind; [by apply safe_read_bounded; [|vm_compute]|]. intros [bs|] ? _ [-> Hbs]; [|by apply safe_refuse].
  destruct (Hbs bs eq_refl) as (c & x & Hc & Hl & ->). destruct (from_cbor c) as [g|] eqn:Hg; [|by apply safe_refuse].
  case_bool_decide; [by apply safe_refuse|]. apply safe_return; [done|]. split; [done|].
  exists [GENERATIONS; generation_id_hex id; ACTIVATION]. split; [left; by eexists|]. by exists c, x.
Qed.
Lemma safe_load_active t :
  healthy t → safe t (load_active_generation : M (Supervisor P) _ _) (λ o t', t' = t ∧ ∀ g, o = Some g → recorded t g).
Proof.
  intros Ht. unfold load_active_generation. eapply safe_bind; [by apply safe_read_bounded; [|vm_compute]|].
  intros [bs|] ? _ [-> _]; [|by apply safe_return]. destruct (negb _); [by apply safe_refuse|].
  eapply safe_bind; [by apply safe_lift|]. intros id ? _ [_ ->].
  eapply safe_bind; [by apply safe_load_record|]. intros g ? _ [-> Hg]. apply safe_return; [done|]. split; [done|].
  by intros g' [= <-].
Qed.

Lemma safe_entry t app_id :
  healthy t → safe t (active_application_entry app_id : M (Supervisor P) _ _) (λ _ t', t' = t).
Proof.
  intros Ht. unfold active_application_entry. eapply safe_bind; [by apply safe_load_active|].
  intros [g|] ? _ [-> _]; [|by apply safe_refuse]. destruct (find_application app_id g); [by apply safe_return|by apply safe_refuse].
Qed.
Lemma safe_open t f quota : healthy t → safe t (on_store f (store_open quota) : M (Supervisor P) _ _) (λ _ _, True).
Proof.
  intros Ht. eapply safe_store; [done|apply quiet_open, Ht|apply tame_open|]. by intros g [].
Qed.
Lemma safe_recover t f : healthy t → safe t (on_store f recover : M (Supervisor P) _ _) (λ _ _, True).
Proof. intros Ht. eapply safe_store; [done|apply stable_recover, Ht|apply (tame_recover blake3)|]. by intros g []. Qed.
Lemma safe_load_image t context root :
  healthy t → safe t (load_image blake3 nfc context root : M (Supervisor P) _ _) (λ _ t', t' = t).
Proof.
  intros Ht. eapply safe_conseq; [apply safe_looks; [done|apply looks_load]|]. by intros app t' _ [_ ->].
Qed.
Lemma safe_materialized t app_id :
  healthy t → safe t (active_materialized_application blake3 nfc app_id : M (Supervisor P) _ _) (λ _ _, True).
Proof.
  intros Ht. unfold active_materialized_application. eapply safe_bind; [by apply safe_entry|]. intros found ? _ ->.
  eapply safe_bind; [by apply safe_open|]. intros _ t1 [Ht1 _] _.
  eapply safe_bind; [by apply safe_load_image|]. intros app ? _ ->.
  destruct (_ || _); [by apply safe_refuse|by apply safe_return].
Qed.

(** A candidate for a rollback is an entry of a record. *)
Definition of_record t (o : option RollbackCandidate) : Prop :=
  ∀ c, o = Some c → ∃ g, recorded t g ∧ candidate c ∈ generation_entries g ∧
                         entry_kind (candidate c) = BundleKind.Application.
Lemma safe_history t fuel current visited id :
  healthy t → safe t (walk_history fuel current visited id : M (Supervisor P) _ _) (λ o t', t' = t ∧ of_record t o).
Proof.
  intros Ht. revert visited id. induction fuel as [|fuel IH]; intros visited id; cbn [walk_history]; [by apply safe_refuse|].
  destruct id as [id|]; [|by apply safe_return]. case_bool_decide; [by apply safe_refuse|].
  eapply safe_bind; [apply safe_looks; [done|apply looks_load_generation]|]. intros g ? _ [(_ & Hact & _) ->].
  destruct (find _ (generation_entries g)) as [e|] eqn:Hfind; [|apply IH].
  apply find_some in Hfind as [Hin Hsel]. apply andb_prop in Hsel as [Happ _].
  apply andb_prop in Happ as [Hkind%bool_decide_eq_true _].
  apply safe_return; [done|]. split; [done|]. intros c [= <-]. exists g. split; [|by rewrite list_elem_of_In].
  exists (generation_dir id ++ [ACTIVATION]). split; [left; by eexists|done].
Qed.
Lemma safe_state t e : healthy t → safe t (application_runtime_state e : M (Supervisor P) _ _) (λ _ t', t' = t).
Proof.
  intros Ht. unfold application_runtime_state. eapply safe_bind; [by apply safe_off_disk, off_disk_status|].
  intros st ? _ ->. by apply safe_return.
Qed.
Lemma safe_summarize t g e state : healthy t → safe t (summarize g e state : M (Supervisor P) _ _) (λ _ t', t' = t).
Proof.
  intros Ht. unfold summarize. eapply safe_bind; [by apply safe_history|]. intros o ? _ [-> _]. by apply safe_return.
Qed.
Lemma safe_summary t g app_id :
  healthy t → safe t (app_summary_from_generation g app_id : M (Supervisor P) _ _) (λ _ _, True).
Proof.
  intros Ht. unfold app_summary_from_generation. destruct (find_application app_id g); [|by apply safe_refuse].
  eapply safe_bind; [by apply safe_state|]. intros st ? _ ->.
  eapply safe_bind; [by apply safe_open|]. intros _ t1 [Ht1 _] _.
  eapply safe_conseq; [by apply safe_summarize|done].
Qed.

(** *** Operations that only look, start and stop *)

Lemma safe_list t : healthy t → safe t (app_list blake3 nfc : M (Supervisor P) _ _) (λ _ _, True).
Proof.
  intros Ht. unfold app_list. eapply safe_bind; [by apply safe_load_active|]. intros [g|] ? _ [-> _]; [|by apply safe_return].
  eapply safe_bind; [by apply safe_open|]. intros _ t1 [Ht1 _] _.
  generalize (@nil AppSummary). generalize (filter (λ e, entry_kind e = BundleKind.Application) (generation_entries g)).
  intros l. induction l as [|e l IH]; intros apps; cbn [list_entries]; [by apply safe_return|].
  eapply safe_bind; [by apply safe_load_image|]. intros app ? _ ->.
  eapply safe_bind; [by apply safe_state|]. intros st ? _ ->.
  eapply safe_bind; [by apply safe_summarize|]. intros s ? _ ->. case_bool_decide; [by apply safe_refuse|apply IH].
Qed.
Lemma safe_chunk t p cursor limit : healthy t → safe t (read_app_log_chunk p cursor limit : M (Supervisor P) _ _) (λ _ t', t' = t).
Proof.
  intros Ht. unfold read_app_log_chunk.
  eapply safe_bind; [apply safe_looks; [done|apply looks_open_file]|]. intros h ? _ [_ ->].
  eapply safe_bind; [apply safe_looks; [done|apply looks_handle_len]|]. intros n ? _ [_ ->].
  eapply safe_bind; [apply safe_looks; [done|apply looks_seek_start]|]. intros h' ? _ [_ ->].
  eapply safe_bind; [apply safe_looks; [done|apply looks_handle_read]|]. intros r ? _ [_ ->]. by apply safe_return.
Qed.
Lemma safe_run_id t app_id : healthy t → safe t (read_run_id app_id : M (Supervisor P) _ _) (λ _ t', t' = t).
Proof.
  intros Ht s Hs. unfold read_run_id.
  pose proof (looks_read_node (E := IoErrorKind) (log_dir app_id ++ [APP_RUN_ID]) t (disk s) Hs) as Hr.
  destruct (read_node _ (disk s)) as [d [bs|e]]; cbn [disk set_disk]; [destruct Hr as [Hr _]|];
    unfold on_tree in Hr; rewrite Hr; split; [by apply later_refl|done|by apply later_refl|done].
Qed.
Lemma safe_log t params : healthy t → safe t (app_log params : M (Supervisor P) _ _) (λ _ _, True).
Proof.
  intros Ht. unfold app_log. eapply safe_bind; [by apply safe_entry|]. intros found ? _ ->.
  eapply safe_bind; [by apply safe_state|]. intros st ? _ ->. destruct (_ || _); [by apply safe_refuse|].
  eapply safe_bind; [by apply safe_run_id|]. intros [content|[]] ? _ ->; [|by apply safe_return|by apply safe_refuse..].
  case_bool_decide; [by apply safe_refuse|].
  eapply safe_bind; [by apply safe_chunk|]. intros out ? _ ->.
  eapply safe_bind; [by apply safe_chunk|]. intros err ? _ ->. by apply safe_return.
Qed.
Lemma safe_app_start t app_id : healthy t → safe t (app_start blake3 nfc app_id : M (Supervisor P) _ _) (λ _ _, True).
Proof.
  intros Ht. unfold app_start. eapply safe_bind; [by apply safe_materialized|]. intros found t1 [Ht1 _] _.
  eapply safe_bind; [by apply safe_start|]. intros pid t2 [Ht2 _] _.
  eapply safe_bind; [by apply safe_summary|]. intros s t3 [Ht3 _] _. by apply safe_return.
Qed.
Lemma safe_app_stop t app_id : healthy t → safe t (app_stop blake3 nfc app_id : M (Supervisor P) _ _) (λ _ _, True).
Proof.
  intros Ht. unfold app_stop. eapply safe_bind; [by apply safe_materialized|]. intros found t1 [Ht1 _] _.
  eapply safe_bind; [by apply safe_off_disk, off_disk_stop|]. intros [] ? _ ->. by apply safe_summary.
Qed.
Lemma safe_app_restart t app_id : healthy t → safe t (app_restart blake3 nfc app_id : M (Supervisor P) _ _) (λ _ _, True).
Proof.
  intros Ht. unfold app_restart. eapply safe_bind; [by apply safe_materialized|]. intros found t1 [Ht1 _] _.
  eapply safe_bind; [by apply safe_off_disk, off_disk_stop|]. intros [] ? _ ->. by apply safe_app_start.
Qed.

(** *** Operations that change what is installed *)

Lemma later_put_block t store digest bs :
  healthy t → hoare (on_tree t) (put_block blake3 store digest bs) (λ _ d, later t (tree d)) (λ d, later t (tree d)).
Proof.
  intros Ht d Hd. pose proof (quiet_put_block blake3 t store digest bs (healthy_store _ Ht) d Hd) as Hst.
  pose proof (tame_put_block blake3 store digest bs t (store_tree _ (healthy_store _ Ht)) d Hd) as Htame.
  destruct (put_block blake3 store digest bs d) as [d' [b|e]].
  - destruct Hst as [He _]. eapply later_store; [done|done|done|]. by intros g [].
  - eapply later_store; [done|done|done|]. by intros g [].
Qed.
Lemma later_ingest t file offset store l n :
  healthy t → hoare (on_tree t) (ingest_blocks blake3 file offset store l n) (λ _ d, later t (tree d)) (λ d, later t (tree d)).
Proof.
  revert n t. induction l as [|b l IH]; intros n t Ht; cbn [ingest_blocks].
  { apply hoare_ret. intros d ->. by apply later_refl. }
  assert (Hrefl : ∀ d, on_tree t d → later t (tree d)) by (intros d ->; by apply later_refl).
  apply hoare_lift_at; [done|]. intros raw _. case_bool_decide; [by apply hoare_fail|].
  eapply hoare_bind with (Q := λ _ d, later t (tree d)).
  { intros d Hd. pose proof (later_put_block t store (block_digest b) raw Ht d Hd) as Hp.
    unfold stored. by destruct (put_block _ _ _ _ d) as [d' [x|e]]. }
  intros new. apply hoare_any. intros d1 Hl. apply (hoare_pre _ (on_tree (tree d1))); [by intros d ->|].
  eapply hoare_look with (φ := λ _ _, True); [|by intros d ->|].
  { destruct new; [|by apply looks_ret]. eapply looks_conseq; [apply looks_lift|done]. }
  intros n' _. eapply hoare_conseq; [apply (IH n' (tree d1)), Hl|done|intros m d Hd|intros d Hd]; by eapply later_trans.
Qed.
Lemma safe_ingest t f file v store :
  healthy t → safe t (on_device f (ingest_verified_blocks blake3 file v store) : M (Supervisor P) _ _) (λ _ _, True).
Proof.
  intros Ht. apply safe_disk. eapply hoare_conseq; [by apply later_ingest|done| |done]. intros n d Hd. by split.
Qed.
Lemma safe_materialize t f v :
  healthy t → manifests_read_back → verified_bundle v →
  safe t (on_device f (materialize_verified_application blake3 nfc link_resolves v) : M (Supervisor P) _ _)
    (λ _ t', ready t' (installed_entry v)).
Proof.
  intros Ht Hback Hv. apply safe_disk.
  eapply hoare_conseq; [apply (hoare_materialize blake3 nfc link_resolves v t), (store_tree _ (healthy_store _ Ht))|done|..].
  - intros app d [Hu Hr]. pose proof (later_images v t _ Ht Hv Hu) as Hl. split; [done|].
    eapply installed_ready; [done|apply Hl|done|exact Hr].
  - intros d Hu. by eapply later_images.
Qed.

Lemma safe_gate t (f : IoErrorKind → RpcError) : healthy t → safe t (on_files f gate : M (Supervisor P) _ _) (λ _ t', t' = t).
Proof. intros Ht. eapply safe_conseq; [apply safe_looks; [done|apply looks_gate]|]. by intros [] t' _ [_ ->]. Qed.
Lemma safe_check t bundle hash target firmware features :
  healthy t → safe t (check_bundle blake3 crc32c nfc bundle hash target firmware features : M (Supervisor P) _ _)
    (λ v t', t' = t ∧ verified_bundle v).
Proof.
  intros Ht. unfold check_bundle, hash_open_file, seek_bundle.
  eapply safe_bind; [by apply safe_lift|]. intros [] ? _ [_ ->].
  eapply safe_bind with (Q := λ _ t', t' = t).
  { eapply safe_bind; [by apply safe_gate|]. intros [] ? _ ->.
    eapply safe_bind; [by apply safe_gate|]. intros [] ? _ ->. by apply safe_return. }
  intros actual ? _ ->. case_bool_decide; [by apply safe_refuse|].
  eapply safe_bind; [by apply safe_gate|]. intros [] ? _ ->.
  eapply safe_bind; [by apply safe_lift|]. intros v ? _ [Hv ->]. apply map_err_ok in Hv.
  case_bool_decide; [by apply safe_refuse|].
  eapply safe_bind; [by apply safe_lift|]. intros variant ? _ [_ ->].
  destruct (find _ _); [by apply safe_refuse|]. apply safe_return; [done|]. split; [done|]. by eexists _, _.
Qed.
Lemma safe_active t f :
  healthy t → safe t (active_generation f : M (Supervisor P) _ _)
    (λ found t', t' = t ∧ ∀ g, found.2 = Some g → recorded t g).
Proof.
  intros Ht. unfold active_generation. eapply safe_bind; [apply safe_looks; [done|apply looks_active]|].
  intros [id|] ? _ [_ ->]; [|by apply safe_return].
  eapply safe_bind; [apply safe_looks; [done|apply looks_load_generation]|]. intros g ? _ [(_ & Hact & _) ->].
  apply safe_return; [done|]. split; [done|]. intros g' [= <-].
  exists (generation_dir id ++ [ACTIVATION]). split; [left; by eexists|done].
Qed.

Lemma safe_timeout t image : healthy t → safe t (stop_timeout_of blake3 nfc image : M (Supervisor P) _ _) (λ _ t', t' = t).
Proof.
  intros Ht. destruct image as [root|]; [|by apply safe_return]. intros s Hs. unfold stop_timeout_of.
  pose proof (looks_load blake3 nfc root t (disk s) Hs) as Hl.
  destruct (load_materialized_application blake3 nfc root (disk s)) as [d [app|[|e]]];
    cbn [disk set_disk]; [destruct Hl as [Hl _]|..]; unfold on_tree in Hl; rewrite Hl; try split; by try apply later_refl.
Qed.
Lemma safe_replace t prefix app_id g image staged committed stopping :
  healthy t → records_read_back → applications_ready t g →
  safe t (replace_generation blake3 nfc prefix app_id g image staged committed stopping : M (Supervisor P) _ _) (λ _ _, True).
Proof.
  intros Ht Hback Hg. unfold replace_generation. eapply safe_bind.
  { eapply safe_store; [done|apply quiet_stage, Ht|apply (tame_stage blake3)|].
    intros g' (bs & Hbs & Hg'). by rewrite (Hback g bs g' Hbs Hg'). }
  intros _ t1 [Ht1 _] _. eapply safe_bind; [by apply safe_timeout|]. intros timeout ? _ ->.
  eapply safe_bind; [by apply safe_off_disk, off_disk_stop|]. intros [] ? _ ->.
  eapply safe_bind; [|intros _ t2 [Ht2 _] _; by apply safe_return].
  eapply safe_store; [done|apply stable_commit_generation, Ht1|apply (tame_commit blake3)|]. by intros g' [].
Qed.

Lemma elem_of_insert_entry x e l : x ∈ insert_entry e l ↔ x = e ∨ x ∈ l.
Proof.
  induction l as [|y l IH]; cbn [insert_entry]; [by rewrite elem_of_cons|].
  destruct (entry_lt y e); rewrite !elem_of_cons, ?IH; naive_solver.
Qed.
Lemma elem_of_sort x l : x ∈ sort_activation l ↔ x ∈ l.
Proof. induction l as [|y l IH]; [done|]. cbn. by rewrite elem_of_insert_entry, IH, elem_of_cons. Qed.
Lemma elem_of_replace x app_id e l : x ∈ replace_application app_id e l → x = e ∨ x ∈ l.
Proof.
  induction l as [|y l IH]; cbn [replace_application]; [by rewrite elem_of_nil|].
  destruct (is_application app_id y); rewrite !elem_of_cons; naive_solver.
Qed.
Lemma entries_of previous profile digest entries act g :
  new_with_action blake3 previous profile digest entries act = Ok g → generation_entries g = entries.
Proof. intros (_ & -> & _)%new_with_action_inv. done. Qed.

Lemma recorded_later t t' g : healthy t → later t t' → recorded t g → applications_ready t' g.
Proof. intros Ht Hl Hg e He Hk. by apply (later_ready _ _ Hl), (healthy_records _ Ht g). Qed.

Lemma safe_install_generation t v target firmware features id active :
  healthy t → records_read_back → ready t (installed_entry v) → (∀ g, active = Some g → applications_ready t g) →
  safe t (install_generation blake3 nfc v target firmware features id active : M (Supervisor P) _ _) (λ _ _, True).
Proof.
  intros Ht Hback Hv Hactive. unfold install_generation. eapply safe_bind; [by apply safe_lift|].
  intros g ? _ [Hg ->]. apply map_err_ok, entries_of in Hg.
  eapply safe_bind; [apply safe_replace; [done|done|]|].
  - intros e He Hk. rewrite Hg in He. unfold with_application in He. rewrite elem_of_sort, elem_of_app in He.
    destruct He as [[_ He]%list_elem_of_filter|He%list_elem_of_singleton]; [|by subst].
    destruct active as [g'|]; [by apply (Hactive g')|by apply elem_of_nil in He].
  - intros [] t1 [Ht1 _] _. by apply safe_summary.
Qed.
Lemma safe_install t bundle hash target firmware features :
  healthy t → records_read_back → manifests_read_back →
  safe t (app_install blake3 crc32c nfc link_resolves bundle hash target firmware features : M (Supervisor P) _ _) (λ _ _, True).
Proof.
  intros Ht Hrecords Hmanifests. unfold app_install, seek_bundle.
  eapply safe_bind; [by apply safe_check|]. intros v ? _ [-> Hv].
  eapply safe_bind; [by apply safe_open|]. intros store t1 [Ht1 _] _.
  eapply safe_bind; [by apply safe_recover|]. intros _ t2 [Ht2 _] _.
  eapply safe_bind; [by apply safe_active|]. intros found ? _ [-> Hfound].
  eapply safe_bind; [by apply safe_gate|]. intros [] ? _ ->.
  eapply safe_bind; [by apply safe_ingest|]. intros _ t3 Hl3 _.
  eapply safe_bind; [by apply safe_materialize; [apply Hl3|..]|]. intros ? t4 Hl4 Hready.
  assert (Hactive : ∀ g, found.2 = Some g → applications_ready t4 g).
  { intros g Hg. eapply recorded_later; [exact Ht2|by eapply later_trans|by apply Hfound]. }
  assert (Ht4 : healthy t4) by apply Hl4.
  destruct found.2 as [g|]; [destruct (existsb _ _); [by apply safe_summary|]|]; by apply safe_install_generation.
Qed.

Lemma safe_current t operation app_id :
  healthy t → safe t (current_application operation app_id : M (Supervisor P) _ _)
    (λ found t', recorded t' found.1.2).
Proof.
  intros Ht. unfold current_application, open_recovered_store.
  eapply safe_bind with (Q := λ _ _, True).
  { eapply safe_bind; [by apply safe_open|]. intros store t1 [Ht1 _] _.
    eapply safe_bind; [by apply safe_recover|]. intros _ t2 [Ht2 _] _. by apply safe_return. }
  intros _ t2 [Ht2 _] _. eapply safe_bind; [by apply safe_active|]. intros [[id|] [g|]] ? _ [-> Hfound]; try by apply safe_refuse.
  destruct (find_application app_id g); [|by apply safe_refuse]. apply safe_return; [done|]. by apply Hfound.
Qed.
Lemma safe_roll_back t app_id :
  healthy t → records_read_back → safe t (app_rollback blake3 nfc app_id : M (Supervisor P) _ _) (λ _ _, True).
Proof.
  intros Ht Hback. unfold app_rollback. eapply safe_bind; [by apply safe_current|].
  intros [[id active] current] t1 [Ht1 _] Hactive. cbn [fst snd] in Hactive.
  eapply safe_bind; [by apply safe_history|]. intros o ? _ [-> Ho].
  eapply safe_bind; [by apply safe_lift|]. intros c ? _ [Hc%ok_or_ok ->].
  eapply safe_bind; [by apply safe_load_image|]. intros image ? _ ->.
  destruct (_ || _); [by apply safe_refuse|].
  eapply safe_bind; [by apply safe_lift|]. intros g ? _ [Hg ->]. apply map_err_ok, entries_of in Hg.
  eapply safe_bind; [apply safe_replace; [done|done|]|intros [] t2 [Ht2 _] _; by apply safe_summary].
  intros e He Hk. rewrite Hg, elem_of_sort in He. apply elem_of_replace in He as [->|He].
  - destruct (Ho c Hc) as (g' & Hg' & Hin & Hkind). by apply (healthy_records _ Ht1 g').
  - by apply (healthy_records _ Ht1 active).
Qed.
Lemma safe_uninstall t app_id :
  healthy t → records_read_back → safe t (app_uninstall blake3 nfc app_id : M (Supervisor P) _ _) (λ _ _, True).
Proof.
  intros Ht Hback. unfold app_uninstall. eapply safe_bind; [by apply safe_current|].
  intros [[id active] removed] t1 [Ht1 _] Hactive. cbn [fst snd] in Hactive.
  eapply safe_bind; [by apply safe_lift|]. intros g ? _ [Hg ->]. apply map_err_ok, entries_of in Hg.
  eapply safe_bind; [apply safe_replace; [done|done|]|intros [] t2 [Ht2 _] _; by apply safe_return].
  intros e He Hk. rewrite Hg in He. apply list_elem_of_filter in He as [_ He]. by apply (healthy_records _ Ht1 active).
Qed.

Lemma safe_locked {A : Type} t unavailable (op : M (Supervisor P) AppFault A) m :
  healthy t → safe t op (λ _ _, True) → tree (disk (supervisor m)) = t →
  healthy (tree (disk (supervisor (locked unavailable op m).1))).
Proof.
  intros Ht Hop Hm. unfold locked. destruct (poisoned m); cbn [fst]; [by rewrite Hm|].
  specialize (Hop (supervisor m) Hm). destruct (op (supervisor m)) as [s [a|e]]; cbn [fst supervisor]; apply Hop.
Qed.
Lemma safe_replies {A : Type} t f (op : M (Supervisor P) AppFault A) :
  safe t op (λ _ _, True) → safe t (replies f op) (λ _ _, True).
Proof. intros Hop. eapply safe_bind; [exact Hop|]. intros a t' [Ht' _] _. by apply safe_return. Qed.

Lemma manager_healthy profile c m :
  records_read_back → manifests_read_back → healthy (tree (disk (supervisor m))) →
  healthy (tree (disk (supervisor (manager_call blake3 crc32c nfc link_resolves profile c m).1))).
Proof.
  intros Hrecords Hmanifests Ht.
  destruct c; cbn [manager_call]; (eapply safe_locked; [exact Ht|apply safe_replies|done]).
  - by apply safe_install.
  - by apply safe_list.
  - by apply safe_log.
  - by apply safe_app_start.
  - by apply safe_app_stop.
  - by apply safe_app_restart.
  - by apply safe_roll_back.
  - by apply safe_uninstall.
Qed.
End safety.
