(* ===== verification/ApplicationRuns.v ===== *)
(** * Runs of the application manager

    Operations of src/device/kindlebridged/src/application.rs one after the other, each cut
    short anywhere, with restarts of the daemon in between and applications that write their
    own data. *)

From S2P Require Import Prelude Text Files InstallStore InstallSafety StoreRuns FileHandles Rpc.
From S2P Require Import BundleError Paths Utf8 BundleHeader Cbor BundleModel Verify Authenticity Activation.
From S2P Require Import DeviceInstall ImageSafety Supervisor Applications StoreRecords ApplicationSafety.

Section runs.
Context {P : Type} `{Processes P, DirOrder, ReadSize, PointerWidth, Ed25519, Zstd, Semver, Texts}.
Context `{Serde Envelope, Serde (list SignatureEntry), Serde (list FileEntry), Serde RotationProofSignedData}.
Context `{Serde GenerationIdentity, Serde ActivationGeneration, Serde TransactionJournal, Serde RuntimeManifest}.
Context (blake3 : bytes → bytes) (crc32c : bytes → Z) (nfc : str → str) (link_resolves : Files.path → bool).
Implicit Types (t : gmap Files.path Node) (e : ActivationEntry) (g : ActivationGeneration) (s : Supervisor P).

(** A daemon finds the files as they were left, with calls to come that fail as [l] says; the
    state of its supervisor and its profile are its own. *)
Inductive app_run : Disk → Disk → Prop :=
| run_nothing d : app_run d d
| run_operation d d' profile c (m : ApplicationManager) l counter pid :
    app_run d d' → disk (supervisor m) = resume l counter pid d' →
    app_run d (disk (supervisor (manager_call blake3 crc32c nfc link_resolves profile c m).1))
| run_application d d' t' :
    app_run d d' → data_only (tree d') t' → app_run d (set_tree t' d').

Lemma healthy_empty : healthy blake3 crc32c nfc ∅.
Proof.
  split; [apply store_ok_empty|..].
  - intros root. left. intros c r. apply lookup_empty.
  - intros g (q & _ & bs & x & Hq & _). by rewrite lookup_empty in Hq.
Qed.
Lemma run_healthy d d' :
  records_read_back → manifests_read_back → tree d = ∅ → app_run d d' → healthy blake3 crc32c nfc (tree d').
Proof.
  intros Hrecords Hmanifests Hd Hrun. induction Hrun as [d|d d' profile c m l counter pid _ IH Hm|d d' t' _ IH Hdata].
  - rewrite Hd. apply healthy_empty.
  - apply manager_healthy; [done|done|]. rewrite Hm. by apply IH.
  - by eapply later_healthy, later_data, Hdata; [|apply IH].
Qed.

(** ** Calls that do not fail *)

Definition app_evals {A : Type} t (m : M (Supervisor P) AppFault A) (r : result AppFault A) t' : Prop :=
  ∀ s, clear t (disk s) → ∃ s', m s = (s', r) ∧ clear t' (disk s').

Lemma app_evals_bind {A B : Type} t t1 t2 (m : M (Supervisor P) AppFault A) k a (r : result AppFault B) :
  app_evals t m (Ok a) t1 → app_evals t1 (k a) r t2 → app_evals t (mbnd m k) r t2.
Proof. intros Hm Hk s Hs. destruct (Hm s Hs) as (s1 & Hrun & Hs1). unfold mbnd. rewrite Hrun. by apply Hk. Qed.
Lemma app_evals_ret {A : Type} t (a : A) : app_evals t (mret a) (Ok a) t.
Proof. intros s Hs. by exists s. Qed.
Lemma app_evals_fail {A : Type} t (e : AppFault) : app_evals t (mfail e : M _ _ A) (Err e) t.
Proof. intros s Hs. by exists s. Qed.
Lemma app_evals_stop {A B : Type} t t1 (m : M (Supervisor P) AppFault A) (k : A → M (Supervisor P) AppFault B) (e : AppFault) :
  app_evals t m (Err e) t1 → app_evals t (mbnd m k) (Err e) t1.
Proof. intros Hm s Hs. destruct (Hm s Hs) as (s1 & Hrun & Hs1). exists s1. unfold mbnd. by rewrite Hrun. Qed.
Lemma app_evals_disk {E A : Type} t t' (f : E → AppFault) (m : M Disk E A) r :
  evals t m r t' → app_evals t (zoom_err disk set_disk f m) (map_err f r) t'.
Proof.
  intros Hm s Hs. destruct (Hm (disk s) Hs) as (d' & Hrun & Hd'). exists (set_disk d' s).
  unfold zoom_err. rewrite Hrun. by destruct r.
Qed.

Lemma evals_read_bounded t p c x limit :
  tree_ok t → t !! p = Some (Regular c x) → len c ≤ limit → limit < u64_max →
  app_evals t (read_bounded_regular_file p limit) (Ok (Some c)) t.
Proof.
  intros Ht Hp Hl Hmax. pose proof (stat_complete _ _ _ Ht Hp) as Hst. unfold read_bounded_regular_file.
  eapply app_evals_bind; [eapply (app_evals_disk _ _ _ _ (Ok _)), evals_catch, evals_symlink_metadata|].
  rewrite Hst. cbn [map_err is_file node_len negb orb]. replace (limit <? len c) with false by lia.
  eapply app_evals_bind; [by eapply (app_evals_disk _ _ _ _ (Ok _)), evals_open_file|].
  eapply app_evals_bind; [by eapply (app_evals_disk _ _ _ _ (Ok _)), evals_read_node|].
  rewrite take_ge by (unfold saturating_add, len in *; lia). replace (limit <? len c) with false by lia.
  apply app_evals_ret.
Qed.
Lemma evals_read_nothing t p limit :
  stat t p = Err NotFound → app_evals t (read_bounded_regular_file p limit) (Ok None) t.
Proof.
  intros Hst. unfold read_bounded_regular_file.
  eapply app_evals_bind; [eapply (app_evals_disk _ _ _ _ (Ok _)), evals_catch, evals_symlink_metadata|].
  rewrite Hst. apply app_evals_ret.
Qed.

(** The active generation of a store. *)
Definition active_in t g : Prop := active_is t (Some (generation_id g)) ∧ complete t (directory_name g) g.

Lemma evals_load_active t :
  store_ok t → ids_sized →
  (∃ g, active_in t g ∧ app_evals t load_active_generation (Ok (Some g)) t) ∨
  ((∀ g, ¬ active_in t g) ∧ app_evals t load_active_generation (Ok None) t).
Proof.
  intros Hs Hsized. destruct (t !! active_pointer_path) as [n|] eqn:Hn.
  - left. destruct (store_active _ Hs n Hn) as (g & x & -> & Hg). pose proof (complete_sized _ _ _ Hsized Hg) as Hlen.
    exists g. pose proof (pointer_roundtrip _ Hlen) as Hid.
    split; [split; [by eexists _, _|done]|]. unfold load_active_generation.
    eapply app_evals_bind; [apply (evals_read_bounded t _ _ _ 64 (store_tree _ Hs) Hn)|].
    { unfold pointer_bytes, generation_id_hex. rewrite len_app, len_bytes_hex, Hlen. by compute. }
    { by compute. }
    cbv beta iota. rewrite pointer_utf8. cbn [negb]. unfold pointer_id in Hid. unfold pointer_bytes in *.
    rewrite strip_last_snoc in Hid |- *. unfold parse_generation_id in Hid. unfold parse_active_id.
    destruct (_ || _) in Hid |- *; [done|]. apply ok_or_ok in Hid. rewrite Hid. cbn [ok_or map_err].
    eapply app_evals_bind; [intros s Hs'; by exists s|].
    eapply app_evals_bind with (a := g) (t1 := t); [|apply app_evals_ret]. unfold load_record.
    destruct (complete_record _ _ _ Hg) as (bs & y & Hrec & Hl & Hcbor).
    eapply app_evals_bind; [by apply (evals_read_bounded t [GENERATIONS; directory_name g; ACTIVATION] bs y); [apply Hs|..]|].
    cbv beta iota. rewrite Hcbor, bool_decide_eq_false_2 by naive_solver. apply app_evals_ret.
  - right. split; [intros g [(bs & x & Hp & _) _]; congruence|]. unfold load_active_generation.
    eapply app_evals_bind; [apply evals_read_nothing|apply app_evals_ret].
    unfold stat. cbn. destruct (t !! []) as [n|] eqn:Hroot; [|done].
    rewrite (store_layout _ Hs [] n ltac:(by left) Hroot). by change (t !! _) with (t !! active_pointer_path); rewrite Hn.
Qed.

(** An image that is there is opened. *)
Lemma evals_load_image t root manifest app :
  tree_ok t → manifest_at t root manifest → runs blake3 nfc t (image_dir root) manifest app →
  evals t (load_materialized_application blake3 nfc root) (Ok app) t.
Proof.
  intros Ht (bs & x & Hbs & Hl & Hread & Hschema & Hroot) [Happ Hentry Hdir (c & y & Hc & Hlen & Hdigest)].
  assert (Hst : ∀ p n, t !! p = Some n → evals t (symlink_metadata p : device_op Node) (Ok n) t).
  { intros p n Hp. pose proof (evals_symlink_metadata (E := Fault) t p) as Hm. by rewrite (stat_complete _ _ _ Ht Hp) in Hm. }
  unfold load_materialized_application.
  eapply evals_bind; [apply Hst, (Ht (image_dir root) RUNTIME); by eexists|]. cbn [is_dir negb].
  eapply evals_bind; [by apply Hst|]. cbn [is_file node_len negb orb].
  replace (MAX_RUNTIME_MANIFEST_BYTES <? len bs) with false by lia.
  eapply evals_bind; [by eapply evals_read_node, stat_complete|].
  eapply evals_bind; [rewrite Hread; apply evals_lift|].
  rewrite Hschema, Z.eqb_refl, bool_decide_eq_false_2 by naive_solver. cbn [negb orb].
  unfold runtime_from_manifest. unfold Verify.attempt. rewrite Hentry. cbn [map_err].
  eapply evals_bind; [apply evals_lift|]. rewrite Happ in Hc. cbn [main] in Hc.
  eapply evals_bind; [by apply Hst|]. cbn [is_file node_len negb]. rewrite Hlen, Z.eqb_refl. cbn [negb].
  eapply evals_bind with (a := true) (t1 := t).
  { eapply evals_bind; [eapply evals_bind; [by eapply evals_read_node, stat_complete|apply evals_ret]|].
    rewrite Hdigest, bool_decide_eq_true_2 by done. apply evals_ret. }
  cbn [negb]. eapply evals_bind with (a := tt) (t1 := t); [|rewrite <-Happ; apply evals_ret].
  destruct (working_dir (manifest_process manifest)) as [wd|]; [|apply evals_ret].
  destruct (Hdir wd eq_refl) as [Hwd Hwn]. rewrite Hwd. eapply evals_bind; [apply evals_lift|].
  eapply evals_bind; [by apply Hst|]. apply evals_ret.
Qed.

(** Opening the store leaves the images as they are. *)
Lemma store_open_value quota d d' store : store_open quota d = (d', Ok store) → store = {| block_quota_bytes := quota |}.
Proof. unfold store_open, mbnd, mret. intros Hrun. repeat (case_match; simplify_eq; try done). Qed.
Lemma evals_open t :
  store_ok t → app_evals t open_store (Ok {| block_quota_bytes := APP_BLOCK_QUOTA_BYTES |}) (opened t).
Proof.
  intros Hs. eapply (app_evals_disk _ _ _ _ (Ok _)). intros d [Ht Hf].
  pose proof (succeeds_open d APP_BLOCK_QUOTA_BYTES Hf) as Ho. unfold succeeds in Ho. rewrite Ht in Ho. specialize (Ho Hs).
  destruct (store_open APP_BLOCK_QUOTA_BYTES d) as [d' [store|e]] eqn:Hrun; [|done].
  apply store_open_value in Hrun as ->. by exists d'; destruct Ho.
Qed.
Lemma opened_image t root : same_image root t (opened t).
Proof. intros r. unfold opened. by rewrite !lookup_insert_ne. Qed.

(** C3: An installed application can be opened.  Whatever operations were made on a device that
    was empty to begin with (installations, rollbacks, removals, starts and stops), wherever
    each of them was cut short, and whatever the applications wrote: an application that the
    active generation names is opened by the next operation that finds a working disk, with
    the identity that was installed, its main file of the size and digest that its manifest
    records; or two byte strings with the same digest are at hand.  An application that the
    active generation does not name is reported as not found, and no other error occurs. *)
Theorem installed_application_can_be_opened d d' s app_id counter pid :
  ids_sized → records_read_back → manifests_read_back → tree d = ∅ → app_run d d' →
  disk s = resume [] counter pid d' →
  (∃ g e, active_in (tree d') g ∧ find_application app_id g = Some e ∧
     (collision blake3 ∨ ∃ s' app manifest,
        active_materialized_application blake3 nfc app_id s = (s', Ok (g, e, app)) ∧
        application_id app = app_id ∧ app_version app = code_version e ∧
        manifest_at (tree d') (entry_root e) manifest ∧
        runs blake3 nfc (tree d') (image_dir (entry_root e)) manifest app)) ∨
  ((∀ g, active_in (tree d') g → find_application app_id g = None) ∧
   (active_materialized_application blake3 nfc app_id s).2 = Err (Refused (app_not_found app_id))).
Proof.
  intros Hsized Hrecords Hmanifests Hd Hrun Hdisk. pose proof (run_healthy d d' Hrecords Hmanifests Hd Hrun) as Ht.
  set (t := tree d') in *. assert (Hs : clear t (disk s)) by (rewrite Hdisk; by split).
  assert (Hnone : app_evals t (active_materialized_application blake3 nfc app_id) (Err (Refused (app_not_found app_id))) t →
    (active_materialized_application blake3 nfc app_id s).2 = Err (Refused (app_not_found app_id))).
  { intros Hev. by destruct (Hev s Hs) as (s' & -> & _). }
  assert (Huniq : ∀ g g', active_in t g → active_in t g' → g = g').
  { intros g g' [Ha Hc] [Ha' Hc']. pose proof (active_is_inj _ _ _ Ha Ha') as Hid. injection Hid as Hid.
    pose proof (complete_record _ _ _ Hc) as Hrec. pose proof (complete_record _ _ _ Hc') as Hrec'.
    unfold directory_name in Hrec, Hrec'. rewrite <-Hid in Hrec'. by eapply activation_at_inj. }
  destruct (evals_load_active t (healthy_store _ _ _ _ Ht) Hsized) as [(g & Hg & Hload)|[Hno Hload]].
  - destruct (find_application app_id g) as [e|] eqn:Hfind.
    + left. exists g, e. split; [done|]. split; [done|].
      assert (Hready : ready blake3 nfc t e).
      { apply find_some in Hfind as [Hin Hsel]. apply andb_prop in Hsel as [Hkind%bool_decide_eq_true _].
        apply (healthy_records _ _ _ _ Ht g); [|by rewrite list_elem_of_In|done].
        exists [GENERATIONS; directory_name g; ACTIVATION]. split; [left; by eexists|].
        apply (complete_record _ _ _ (proj2 Hg)). }
      assert (Hname : entry_id e = app_id).
      { apply find_some in Hfind as [_ Hsel]. by apply andb_prop in Hsel as [_ ?%bool_decide_eq_true]. }
      destruct Hready as (manifest & app & Hm & Hr & [[Hid Hver]|]); [right|by left].
      assert (Hopen : app_evals t (active_materialized_application blake3 nfc app_id) (Ok (g, e, app)) (opened t)).
      { unfold active_materialized_application. eapply app_evals_bind with (a := (g, e)) (t1 := t).
        - unfold active_application_entry. eapply app_evals_bind; [exact Hload|]. cbv beta iota. rewrite Hfind. apply app_evals_ret.
        - eapply app_evals_bind with (a := {| block_quota_bytes := APP_BLOCK_QUOTA_BYTES |}) (t1 := opened t).
          + apply evals_open. apply Ht.
          + cbv zeta. cbn [fst snd]. eapply app_evals_bind with (a := app) (t1 := opened t).
            * eapply (app_evals_disk _ _ _ _ (Ok app)), evals_load_image; [|eapply manifest_same, Hm; apply opened_image|eapply runs_same, Hr; apply opened_image].
              apply opened_ok, Ht.
            * rewrite Hid, Hver, !bool_decide_eq_false_2 by naive_solver. apply app_evals_ret. }
      destruct (Hopen s Hs) as (s' & Hrun' & _). exists s', app, manifest. by rewrite Hid.
    + right. split; [intros g' Hg'; by rewrite (Huniq g' g)|]. apply Hnone. apply app_evals_stop.
      eapply app_evals_bind; [exact Hload|]. cbv beta iota. rewrite Hfind. apply app_evals_fail.
  - right. split; [intros g Hg; by destruct (Hno g)|]. apply Hnone. apply app_evals_stop.
    eapply app_evals_bind; [exact Hload|]. apply app_evals_fail.
Qed.
End runs.

(** ** An installation, and its witness *)

Module SampleInstallation.

#[local] Existing Instance SampleProcesses.table_processes.
#[local] Existing Instance SampleBundle.ed25519.
#[local] Existing Instance SampleBundle.zstd.
#[local] Existing Instance SampleBundle.semver.
#[local] Existing Instance SampleBundle.entries_serde.
#[local] Existing Instance SampleBundle.envelope_serde.
#[local] Existing Instance SampleBundle.signatures_serde.
#[local] Existing Instance SampleBundle.proofs_serde.
#[local] Instance texts : Texts :=
  {| show_io_error _ := text "error"; debug_io_kind _ := text "Error"; show_path _ := text "path"; base64_encode bs := bs |}.

Definition verified : Inspection := SampleBundle.sample_inspection.
Definition kindle : ApplicationProfile :=
  {| profile_target := lit "kindlehf"; profile_firmware := text "5.17.1"; profile_features := [] |}.

#[local] Instance identity_serde : Serde GenerationIdentity :=
  {| to_value _ := Ok (Value.Text (text "I"));
     from_slice _ := Err (error_new ErrorCode.CanonicalCbor "write only") |}.
Definition installed : ActivationGeneration := Eval vm_compute in
  match generation_new SampleBundle.hash None (profile_target kindle)
          (device_profile_digest SampleBundle.hash (profile_target kindle) (profile_firmware kindle) [])
          (with_application verified None) with
  | Ok g => g
  | Err _ => SampleGeneration.generation
  end.
#[local] Instance generation_serde : Serde ActivationGeneration := SampleStore.table_serde [(installed, text "g")].
#[local] Instance journal_serde : Serde TransactionJournal :=
  SampleStore.table_serde ((λ p : TransactionPhase * bytes,
     ({| journal_schema := 1; journal_transaction := transaction_name "app" installed;
         journal_generation := generation_id installed; base_generation := None; phase := p.1 |}, p.2)) <$>
    [(TransactionPhase.Staged, text "s"); (TransactionPhase.GenerationDurable, text "d"); (TransactionPhase.Committed, text "c")]).
#[local] Instance process_eq_dec : EqDecision ProcessPolicy.
Proof. solve_decision. Defined.
#[local] Instance data_eq_dec : EqDecision DataPolicy.
Proof. solve_decision. Defined.
#[local] Instance manifest_eq_dec : EqDecision RuntimeManifest.
Proof. solve_decision. Defined.
#[local] Instance manifest_serde : Serde RuntimeManifest :=
  SampleStore.table_serde [(SampleImage.sample_manifest, text "m")].

Definition no_links (p : Files.path) : bool := true.
(** A daemon that starts on the disk [d], whose calls fail as [l] says. *)
Definition daemon (l : list (option nat)) (d : Disk) : Supervisor SampleProcesses.Table :=
  {| children := ∅; terminal := ∅; disk := resume l 0 7 d;
     processes := {| SampleProcesses.next := 1; SampleProcesses.alive := ∅; SampleProcesses.killed := ∅;
                     SampleProcesses.protected := false |} |}.
Definition install (l : list (option nat)) (d : Disk) : ApplicationManager * result AppFault AppReply :=
  manager_call SampleBundle.hash WireFrame.crc32c SampleBundle.unchanged no_links kindle
    (Install SampleBundle.sample_file (bytes_hex (SampleBundle.hash SampleBundle.sample_file)))
    {| poisoned := false; supervisor := daemon l d |}.
Definition disk_after (l : list (option nat)) (d : Disk) : Disk := disk (supervisor (install l d).1).
Definition opens_sample (s : Supervisor SampleProcesses.Table) :=
  active_materialized_application SampleBundle.hash SampleBundle.unchanged (bundle_id (envelope verified)) s.

(** The daemon is cut short when the generation is written and not yet active, and installs
    the bundle again. *)
Definition interrupted : Disk := disk_after (SampleStore.crash_after 160) SampleStore.empty.
Definition again : Disk := disk_after [] interrupted.

Lemma interrupted_install :
  tree interrupted !! active_pointer_path = None ∧
  is_Some (tree interrupted !! [GENERATIONS; directory_name installed; ACTIVATION]) ∧
  is_Some (tree again !! active_pointer_path) ∧
  match (opens_sample (daemon [] again)).2 with
  | Ok (g, e, app) => g = installed ∧ entry_root e = SampleImage.root
  | Err _ => False
  end.
Proof.
  split; [by vm_compute|]. split; [apply (bool_decide_unpack _); vm_compute; exact I|].
  split; [apply (bool_decide_unpack _); vm_compute; exact I|]. by vm_compute.
Qed.

Lemma install_run d0 d l :
  app_run SampleBundle.hash WireFrame.crc32c SampleBundle.unchanged no_links d0 d →
  app_run SampleBundle.hash WireFrame.crc32c SampleBundle.unchanged no_links d0 (disk_after l d).
Proof. intros Hd. unfold disk_after, install. by apply (run_operation _ _ _ _ d0 d kindle _ _ l 0 7 Hd). Qed.
Lemma again_run : app_run SampleBundle.hash WireFrame.crc32c SampleBundle.unchanged no_links SampleStore.empty again.
Proof. apply install_run, install_run. constructor. Qed.

Lemma table_inv {T : Type} `{EqDecision T} (x y : T) tag bs :
  from_slice (Serde := SampleStore.table_serde [(x, tag)]) bs = Ok y → y = x.
Proof. cbn. repeat case_decide; cbn; congruence. Qed.
Lemma table_known {T : Type} `{EqDecision T} (x y : T) tag v :
  to_value (Serde := SampleStore.table_serde [(x, tag)]) y = Ok v → y = x.
Proof. cbn. repeat case_decide; cbn; congruence. Qed.

Lemma installed_sized : ids_sized.
Proof. intros bs g ->%table_inv. done. Qed.
Lemma sample_records : records_read_back.
Proof.
  intros g bs g' Hbs Hg. unfold to_cbor, to_canonical_vec in Hbs.
  apply result_bind_ok in Hbs as (_ & _ & (v & ->%table_known & _)%result_bind_ok).
  by apply from_cbor_read, table_inv in Hg.
Qed.
Lemma sample_manifests : manifests_read_back.
Proof.
  intros m bs Hbs. unfold to_canonical_vec in Hbs. apply result_bind_ok in Hbs as (v & Hv & Hbs).
  pose proof Hv as Hm. apply table_known in Hm as ->. injection Hv as <-. injection Hbs as <-. by vm_compute.
Qed.

Lemma installed_application_can_be_opened_witness :
  ∃ g e, active_in (tree again) g ∧ find_application (bundle_id (envelope verified)) g = Some e ∧
     (collision SampleBundle.hash ∨ ∃ s' app manifest,
        opens_sample (daemon [] again) = (s', Ok (g, e, app)) ∧
        application_id app = bundle_id (envelope verified) ∧ app_version app = code_version e ∧
        manifest_at (tree again) (entry_root e) manifest ∧
        runs SampleBundle.hash SampleBundle.unchanged (tree again) (image_dir (entry_root e)) manifest app).
Proof.
  destruct (installed_application_can_be_opened SampleBundle.hash WireFrame.crc32c SampleBundle.unchanged no_links
    SampleStore.empty again (daemon [] again) (bundle_id (envelope verified)) 0 7
    installed_sized sample_records sample_manifests eq_refl again_run eq_refl) as [Hopen|[_ Hno]]; [exact Hopen|].
  destruct interrupted_install as (_ & _ & _ & Hok). unfold opens_sample in Hok. rewrite Hno in Hok. destruct Hok.
Defined.
End SampleInstallation.
