(* ===== verification/SyncStore.v ===== *)
(** * File sync: src/device/kindlebridged/src/sync.rs, [SyncStore]

    The daemon's file store: pushes that survive a disconnect, pulls, directory
    creation and listing, all below one root.  The root is the empty path of the
    tree in [Files.v].  A push writes [.kindlebridge-sync/<id>.part] and renames it
    to its target; [.kindlebridge-sync/<id>.json] says how far it came.

    BLAKE3, the JSON codec (serde_json), Unicode normalization and where symbolic
    links lead are parameters.  A hasher is the list of the bytes it has absorbed.
    [blake3::Hash::from_hex] is the parameter [hash_from_hex].  The device runs Linux:
    code under [cfg(windows)] is left out. *)

From S2P Require Import Prelude Text BundleError Paths Utf8 Files FileHandles.
Local Open Scope Z_scope.

Definition CHECKPOINT_INTERVAL : Z := 256 * 1024 * 1024.
Definition METADATA_VERSION : Z := 1.
Definition MAX_DIRECTORY_ENTRIES : Z := 65536.

(** ** Data *)

Module TransferDirection.
Inductive TransferDirection : Type := Push | Pull.
#[export] Instance TransferDirection_eq_dec : EqDecision TransferDirection.
Proof. solve_decision. Defined.
End TransferDirection.
Import (hints) TransferDirection.
Abbreviation TransferDirection := TransferDirection.TransferDirection.

Module TransferState.
Inductive TransferState : Type := InProgress | Complete.
#[export] Instance TransferState_eq_dec : EqDecision TransferState.
Proof. solve_decision. Defined.
End TransferState.
Import (hints) TransferState.
Abbreviation TransferState := TransferState.TransferState.

Record TransferMetadata : Type := {
  version : Z;
  transfer_id : bytes;
  direction : TransferDirection;
  remote_path : str;
  total_size : Z;
  file_hash : bytes;
  next_offset : Z;
  state : TransferState;
}.
#[export] Instance TransferMetadata_eq_dec : EqDecision TransferMetadata.
Proof. solve_decision. Defined.

Definition set_next_offset (n : Z) (m : TransferMetadata) : TransferMetadata :=
  {| version := version m; transfer_id := transfer_id m; direction := direction m;
     remote_path := remote_path m; total_size := total_size m; file_hash := file_hash m;
     next_offset := n; state := state m |}.
Definition set_state (s : TransferState) (m : TransferMetadata) : TransferMetadata :=
  {| version := version m; transfer_id := transfer_id m; direction := direction m;
     remote_path := remote_path m; total_size := total_size m; file_hash := file_hash m;
     next_offset := next_offset m; state := s |}.

Record PushTransfer : Type := {
  push_metadata : TransferMetadata;
  push_file : option Handle;
  hasher : bytes;
  push_next_checkpoint : Z;
}.

Record PullTransfer : Type := {
  pull_metadata : TransferMetadata;
  pull_file : Handle;
  pull_next_checkpoint : Z;
}.

Record SyncStatus : Type := {
  status_transfer_id : bytes;
  status_direction : TransferDirection;
  status_remote_path : str;
  status_next_offset : Z;
  status_total_size : Z;
  status_state : TransferState;
}.

Module SyncEntryKind.
Inductive SyncEntryKind : Type := File | Directory.
End SyncEntryKind.

Record SyncEntry : Type := {
  entry_name : str;
  entry_kind : SyncEntryKind.SyncEntryKind;
  entry_size : Z;
}.

Record SyncListResult : Type := {
  list_remote_path : str;
  entries : list SyncEntry;
  next_cursor : option str;
}.

Record SyncMkdirResult : Type := {
  mkdir_remote_path : str;
  created : bool;
}.

Module StoreError.
Inductive StoreError : Type :=
| Path (error : LogicalSyncPathError)
| Io (error : IoErrorKind)
| Json
| InvalidHash
| InvalidTransferId
| TransferNotFound (transfer_id : bytes)
| FileNotFound (remote_path : str)
| MetadataMismatch
| UnsafePath
| ChecksumMismatch
| SizeOverflow
| InvalidState (message : string)
| InvalidListLimit
| DirectoryTooLarge.
End StoreError.
Abbreviation StoreError := StoreError.StoreError.
#[export] Instance store_from_io : FromIo StoreError := StoreError.Io.

Abbreviation store_op A := (M Disk StoreError A).
(** Methods on a transfer and the disk. *)
Abbreviation push_op A := (M (Disk * PushTransfer) StoreError A).
Abbreviation pull_op A := (M (Disk * PullTransfer) StoreError A).

(** [serde_json::to_vec] and [from_slice] on [TransferMetadata]. *)
Class MetadataJson := {
  to_vec : TransferMetadata → option bytes;
  from_slice : bytes → option TransferMetadata;
}.

(** ** Names *)

(** [is_valid_transfer_id]. *)
Definition is_ascii_alphanumeric (b : byte) : bool :=
  in_span 48 57 b || in_span 65 90 b || in_span 97 122 b.
Definition is_valid_transfer_id (value : bytes) : bool :=
  negb (bool_decide (value = [])) && (len value <=? 128)
  && forallb (λ b, is_ascii_alphanumeric b || bool_decide (b = x2d) || bool_decide (b = x5f)) value.

Definition validate_transfer_id (value : bytes) : store_op unit :=
  if is_valid_transfer_id value then mret tt else mfail StoreError.InvalidTransferId.

Definition stage_root : path := [text ".kindlebridge-sync"].
Definition part_path (transfer_id : bytes) : path := stage_root ++ [transfer_id ++ text ".part"].
Definition metadata_path (transfer_id : bytes) : path := stage_root ++ [transfer_id ++ text ".json"].
(** [path.with_extension("json.tmp")] of a metadata path. *)
Definition metadata_temporary (transfer_id : bytes) : path :=
  stage_root ++ [transfer_id ++ text ".json.tmp"].

Definition validate_metadata (m : TransferMetadata) (dir : TransferDirection) (path : str)
    (size : Z) (hash : bytes) : store_op unit :=
  if bool_decide (direction m = dir) && bool_decide (remote_path m = path)
     && (total_size m =? size) && bool_decide (file_hash m = hash)
  then mret tt else mfail StoreError.MetadataMismatch.

(** [for component in logical.as_str().split('/')]: the names on the way. *)
Definition component_names (logical : str) : path := utf8 <$> split SLASH logical.

Section sync_store.
Context `{PointerWidth, DirOrder, ReadSize, MetadataJson}.
Context (blake3 : bytes → bytes) (hash_from_hex : bytes → option bytes) (nfc : str → str).
(** Whether the symbolic link at a path leads to something. *)
Context (link_resolves : path → bool).

(** [LogicalSyncPath::parse(..)?]. *)
Definition parse_path (value : str) : store_op str :=
  mlift (map_err StoreError.Path (parse_sync_path nfc value)).

Definition parse_hash (value : bytes) : store_op bytes :=
  mlift (ok_or (hash_from_hex value) StoreError.InvalidHash).

Definition ensure_layout : store_op unit :=
  do! create_dir_all [] in
  create_dir_all stage_root.

(** ** Metadata files *)

Definition read_metadata (id : bytes) : store_op TransferMetadata :=
  let! r := catch_io (read_node (metadata_path id)) in
  let! bs := match r with
             | Ok bs => mret bs
             | Err NotFound => mfail (StoreError.TransferNotFound id)
             | Err e => mfail (StoreError.Io e)
             end in
  let! m := mlift (ok_or (from_slice bs) StoreError.Json) in
  if negb (version m =? METADATA_VERSION) || bool_decide (transfer_id m ≠ id)
  then mfail (StoreError.InvalidState "invalid transfer metadata")
  else mret m.

Definition write_metadata (m : TransferMetadata) : store_op unit :=
  let temporary := metadata_temporary (transfer_id m) in
  let! file := file_create temporary in
  let! bs := mlift (ok_or (to_vec m) StoreError.Json) in
  let! _ := handle_write_all file bs in
  do! sync_all in
  rename temporary (metadata_path (transfer_id m)).

Definition status (id : bytes) : store_op SyncStatus :=
  do! validate_transfer_id id in
  let! m := read_metadata id in
  mret {| status_transfer_id := transfer_id m; status_direction := direction m;
          status_remote_path := remote_path m; status_next_offset := next_offset m;
          status_total_size := total_size m; status_state := state m |}.

(** [allocate_transfer_id]: the clock in nanoseconds is read by the caller; the
    counter [NEXT_TRANSFER] is the process's [temp_counter]. *)
Definition allocate_transfer_id (now : Z) (prefix : bytes) : store_op bytes :=
  let! d := mget in
  do! mmodify (set_temp_counter ((temp_counter d + 1) mod 2 ^ 64)) in
  let seed := prefix ++ text ":" ++ show_unsigned (process_id d) ++ text ":" ++
              show_digits 39 now ++ text ":" ++ show_unsigned (temp_counter d) in
  mret (prefix ++ text "-" ++ take 24 (bytes_hex (blake3 seed))).

(** ** Paths below the root *)

(** A directory on the way: it exists, or it is made. *)
Definition enter_directory (current : path) : store_op bool :=
  let! r := catch_io (symlink_metadata current) in
  match r with
  | Ok Directory => mret false
  | Ok _ => mfail StoreError.UnsafePath
  | Err NotFound => do! create_dir current in mret true
  | Err e => mfail (StoreError.Io e)
  end.

(** The loop of [prepare_target]: the last component is left alone. *)
Fixpoint prepare_components (current components : path) : store_op path :=
  match components with
  | [] => mret current
  | [component] => mret (current ++ [component])
  | component :: components =>
      let! _ := enter_directory (current ++ [component]) in
      prepare_components (current ++ [component]) components
  end.
Definition prepare_target (logical : str) : store_op path :=
  prepare_components [] (component_names logical).

(** [symlink_metadata] on the way to a file that must exist. *)
Definition existing (logical : str) (current : path) : store_op Node :=
  let! r := catch_io (symlink_metadata current) in
  match r with
  | Ok n => mret n
  | Err NotFound => mfail (StoreError.FileNotFound logical)
  | Err e => mfail (StoreError.Io e)
  end.

Fixpoint target_components (logical : str) (current components : path) : store_op path :=
  match components with
  | [] => mret current
  | component :: components =>
      let! n := existing logical (current ++ [component]) in
      if is_symlink n then mfail StoreError.UnsafePath
      else target_components logical (current ++ [component]) components
  end.
Definition open_existing_target (logical : str) : store_op path :=
  let! current := target_components logical [] (component_names logical) in
  let! n := metadata current in
  if negb (is_file n) then mfail (StoreError.FileNotFound logical) else mret current.

Fixpoint directory_components (logical : str) (current components : path) : store_op path :=
  match components with
  | [] => mret current
  | component :: components =>
      let! n := existing logical (current ++ [component]) in
      if is_symlink n || negb (is_dir n) then mfail StoreError.UnsafePath
      else directory_components logical (current ++ [component]) components
  end.
Definition open_existing_directory (logical : str) : store_op path :=
  directory_components logical [] (component_names logical).

(** [Path::exists]: a symbolic link counts when it leads somewhere. *)
Definition path_exists (p : path) : store_op bool :=
  let! r := catch_io (symlink_metadata p) in
  mret match r with
       | Ok (Symlink _) => link_resolves p
       | Ok _ => true
       | Err _ => false
       end.

Definition commit_target (logical : str) (staging : path) : store_op unit :=
  let! target := prepare_target logical in
  let! present := path_exists target in
  do! (if present : bool then
         let! n := symlink_metadata target in
         if is_symlink n || negb (is_file n) then mfail StoreError.UnsafePath
         else mret tt
       else mret tt) in
  rename staging target.

Definition open_committed (path : str) : store_op Handle :=
  let! logical := parse_path path in
  do! ensure_layout in
  let! target := open_existing_target logical in
  open_file target.

(** ** Directories *)

Fixpoint create_components (current components : path) (made : bool) : store_op bool :=
  match components with
  | [] => mret made
  | component :: components =>
      let! new := enter_directory (current ++ [component]) in
      create_components (current ++ [component]) components (made || new)
  end.
Definition create_directory (path : str) : store_op SyncMkdirResult :=
  let! logical := parse_path path in
  do! ensure_layout in
  let! made := create_components [] (component_names logical) false in
  mret {| mkdir_remote_path := logical; created := made |}.

(** The body of the loop over the directory, up to the cursor. *)
Definition describe_entry (directory : path) (file_name : bytes) : store_op SyncEntry :=
  let! name := mlift (ok_or (from_utf8 file_name) StoreError.UnsafePath) in
  let! name := parse_path name in
  let! n := symlink_metadata (directory ++ [file_name]) in
  match n with
  | Symlink _ => mfail StoreError.UnsafePath
  | Regular _ _ => mret {| entry_name := name; entry_kind := SyncEntryKind.File; entry_size := node_len n |}
  | Directory => mret {| entry_name := name; entry_kind := SyncEntryKind.Directory; entry_size := 0 |}
  end.

(** [&name > cursor] on strings: the order of their bytes. *)
Definition name_lt (a b : str) : bool := bytes_lt (as_bytes a) (as_bytes b).
Definition after_cursor (cursor : option str) (name : str) : bool :=
  match cursor with
  | None => true
  | Some c => name_lt c name
  end.

Fixpoint collect_entries (directory : path) (cursor : option str) (names : list bytes)
    (acc : list SyncEntry) : store_op (list SyncEntry) :=
  match names with
  | [] => mret acc
  | name :: names =>
      if MAX_DIRECTORY_ENTRIES <=? len acc then mfail StoreError.DirectoryTooLarge
      else
        let! e := describe_entry directory name in
        collect_entries directory cursor names
          (if after_cursor cursor (entry_name e) then acc ++ [e] else acc)
  end.

Definition entry_le (a b : SyncEntry) : Prop := name_lt (entry_name b) (entry_name a) = false.
#[local] Instance entry_le_dec : RelDecision entry_le.
Proof. intros a b. unfold entry_le. apply _. Defined.

(** The cursor is the name of an entry. *)
Definition parse_cursor (cursor : option str) : store_op (option str) :=
  match cursor with
  | None => mret None
  | Some value =>
      let! parsed := parse_path value in
      if contains SLASH parsed then mfail (StoreError.Path InvalidComponent) else mret (Some parsed)
  end.

Definition list_directory (path : str) (cursor : option str) (limit : Z) : store_op SyncListResult :=
  if (limit =? 0) || (1024 <? limit) then mfail StoreError.InvalidListLimit
  else
    let! logical := parse_path path in
    let! cursor := parse_cursor cursor in
    do! ensure_layout in
    let! directory := open_existing_directory logical in
    let! names := read_dir directory in
    let! found := collect_entries directory cursor names [] in
    let sorted := merge_sort entry_le found in
    mret {| list_remote_path := logical;
            entries := take (Z.to_nat limit) sorted;
            next_cursor := if limit <? len sorted
                           then entry_name <$> sorted !! (Z.to_nat limit - 1)%nat else None |}.

(** ** Hashing a file *)

(** The loop of [hash_prefix]; every [read] returns at least one byte before the
    end, so [remaining] many rounds are enough. *)
Fixpoint hash_rounds (fuel : nat) (h : Handle) (remaining : Z) (absorbed : bytes) :
    store_op (Handle * bytes) :=
  if remaining =? 0 then mret (h, absorbed)
  else
    match fuel with
    | O => mfail (StoreError.InvalidState "unreachable")
    | S fuel =>
        let limit := Z.min remaining (64 * 1024) in
        let! r := handle_read h (Z.to_nat limit) in
        if bool_decide (r.2 = []) then mfail (StoreError.InvalidState "staging file was truncated")
        else hash_rounds fuel r.1 (remaining - len r.2) (absorbed ++ r.2)
    end.
Definition hash_prefix (h : Handle) (length : Z) : store_op (Handle * bytes) :=
  let! h := seek_start h 0 in
  hash_rounds (Z.to_nat length) h length [].

Definition hash_file (h : Handle) : store_op (Handle * bytes) :=
  let! length := handle_len h in
  let! r := hash_prefix h length in
  mret (r.1, bytes_hex (blake3 r.2)).

(** ** Beginning a push *)

(** The metadata of a push that is resumed, or of a new one. *)
Definition push_begun (now : Z) (id : option bytes) (logical : str) (size : Z) (hash : bytes) :
    store_op TransferMetadata :=
  match id with
  | Some id =>
      do! validate_transfer_id id in
      let! m := read_metadata id in
      do! validate_metadata m TransferDirection.Push logical size hash in
      mret m
  | None =>
      let! id := allocate_transfer_id now (text "push") in
      let m := {| version := METADATA_VERSION; transfer_id := id; direction := TransferDirection.Push;
                  remote_path := logical; total_size := size; file_hash := hash; next_offset := 0;
                  state := TransferState.InProgress |} in
      let! _ := file_create (part_path id) in
      do! write_metadata m in
      mret m
  end.

(** The staging file is opened, its size is where the push goes on. *)
Definition push_resumed (m : TransferMetadata) (size : Z) : store_op PushTransfer :=
  let! file := open_file (part_path (transfer_id m)) in
  let! actual_size := handle_len file in
  if size <? actual_size then mfail (StoreError.InvalidState "staging file exceeds total_size")
  else
    let m := set_next_offset actual_size m in
    let! r := hash_prefix file actual_size in
    let! file := seek_end r.1 in
    do! write_metadata m in
    mret {| push_metadata := m; push_file := Some file; hasher := r.2;
            push_next_checkpoint := Z.min (saturating_add u64_max actual_size CHECKPOINT_INTERVAL) size |}.

Definition begin_push (now : Z) (id : option bytes) (path : str) (size : Z) (hash : bytes) :
    store_op PushTransfer :=
  let! logical := parse_path path in
  let! _ := parse_hash hash in
  do! ensure_layout in
  let! m := push_begun now id logical size hash in
  if bool_decide (state m = TransferState.Complete) then
    mret {| push_metadata := m; push_file := None; hasher := []; push_next_checkpoint := u64_max |}
  else push_resumed m size.

(** ** Beginning a pull *)

(** The metadata of a pull that is resumed, or of a new one. *)
Definition pull_begun (now : Z) (id : option bytes) (logical : str) (offset size : Z) (hash : bytes) :
    store_op TransferMetadata :=
  match id with
  | Some id =>
      do! validate_transfer_id id in
      let! m := read_metadata id in
      do! validate_metadata m TransferDirection.Pull logical size hash in
      mret (set_next_offset offset m)
  | None =>
      let! id := allocate_transfer_id now (text "pull") in
      mret {| version := METADATA_VERSION; transfer_id := id; direction := TransferDirection.Pull;
              remote_path := logical; total_size := size; file_hash := hash; next_offset := offset;
              state := TransferState.InProgress |}
  end.

Definition begin_pull (now : Z) (id : option bytes) (path : str) (offset : Z) : store_op PullTransfer :=
  let! logical := parse_path path in
  do! ensure_layout in
  let! target := open_existing_target logical in
  let! file := open_file target in
  let! size := handle_len file in
  if size <? offset then mfail (StoreError.InvalidState "resume offset exceeds file size")
  else
    let! r := hash_file file in
    let! m := pull_begun now id logical offset size r.2 in
    let m := set_state (if offset =? size then TransferState.Complete else TransferState.InProgress) m in
    let! file := seek_start r.1 offset in
    do! write_metadata m in
    mret {| pull_metadata := m; pull_file := file;
            pull_next_checkpoint := saturating_add u64_max offset CHECKPOINT_INTERVAL |}.

(** ** [PushTransfer]

    Its methods work on the transfer and the disk. *)

Definition push_disk {A} (m : store_op A) : push_op A := zoom fst (λ d s, (d, s.2)) m.
Definition push_modify (f : PushTransfer → PushTransfer) : push_op unit :=
  mmodify (λ s, (s.1, f s.2)).

Definition set_push_file (h : option Handle) (t : PushTransfer) : PushTransfer :=
  {| push_metadata := push_metadata t; push_file := h; hasher := hasher t;
     push_next_checkpoint := push_next_checkpoint t |}.
Definition set_push_metadata (f : TransferMetadata → TransferMetadata) (t : PushTransfer) : PushTransfer :=
  {| push_metadata := f (push_metadata t); push_file := push_file t; hasher := hasher t;
     push_next_checkpoint := push_next_checkpoint t |}.
Definition hasher_update (data : bytes) (t : PushTransfer) : PushTransfer :=
  {| push_metadata := push_metadata t; push_file := push_file t; hasher := hasher t ++ data;
     push_next_checkpoint := push_next_checkpoint t |}.
Definition set_push_checkpoint (n : Z) (t : PushTransfer) : PushTransfer :=
  {| push_metadata := push_metadata t; push_file := push_file t; hasher := hasher t;
     push_next_checkpoint := n |}.

Definition push_offset (t : PushTransfer) : Z := next_offset (push_metadata t).
Definition is_complete (t : PushTransfer) : bool :=
  bool_decide (state (push_metadata t) = TransferState.Complete).

(** [File::flush] does nothing. *)
Definition push_checkpoint : push_op unit :=
  let! s := mget in
  match push_file s.2 with
  | Some _ =>
      do! push_disk sync_data in
      push_disk (write_metadata (push_metadata s.2))
  | None => mret tt
  end.

Definition write_chunk_without_hash (data : bytes) : push_op unit :=
  let! s := mget in
  let m := push_metadata s.2 in
  let! end_ := mlift (ok_or (checked_add u64_max (next_offset m) (len data)) StoreError.SizeOverflow) in
  match push_file s.2 with
  | Some h =>
      if total_size m <? end_ then mfail (StoreError.InvalidState "push exceeds declared size")
      else
        let! r := push_disk (handle_write h data) in
        do! push_modify (set_push_file (Some r.1)) in
        if negb r.2 then mfail (StoreError.Io OtherIo)
        else
          do! push_modify (set_push_metadata (set_next_offset end_)) in
          if (push_next_checkpoint s.2 <=? end_) && (end_ <? total_size m) then
            do! push_checkpoint in
            push_modify (set_push_checkpoint (saturating_add u64_max end_ CHECKPOINT_INTERVAL))
          else mret tt
  | None => mfail (StoreError.InvalidState "push exceeds declared size")
  end.

Definition write_chunk (data : bytes) : push_op unit :=
  do! write_chunk_without_hash data in
  push_modify (hasher_update data).

Definition rollback_for_resume (offset : Z) : push_op unit :=
  let! s := mget in
  if next_offset (push_metadata s.2) <? offset
  then mfail (StoreError.InvalidState "rollback offset exceeds the received data")
  else
    match push_file s.2 with
    | None => mfail (StoreError.InvalidState "completed push has no staging file")
    | Some h =>
        do! push_disk (set_len h offset) in
        do! push_disk sync_data in
        do! push_modify (set_push_metadata (set_next_offset offset)) in
        let! s := mget in
        push_disk (write_metadata (push_metadata s.2))
    end.

(** A wrong digest empties the staging file. *)
Definition restart_push (h : Handle) : push_op unit :=
  do! push_disk (set_len h 0) in
  do! push_disk sync_all in
  do! push_modify (set_push_metadata (set_next_offset 0)) in
  let! s := mget in
  push_disk (write_metadata (push_metadata s.2)).

Definition finish_with_digest (digest : bytes) : push_op SyncStatus :=
  let! s := mget in
  let m := push_metadata s.2 in
  if is_complete s.2 then push_disk (status (transfer_id m))
  else if negb (next_offset m =? total_size m) then
    do! push_checkpoint in
    mfail (StoreError.InvalidState "push ended before total_size")
  else
    match push_file s.2 with
    | None => mfail (StoreError.InvalidState "completed push has no staging file")
    | Some h =>
        do! push_modify (set_push_file None) in
        do! push_disk sync_all in
        if bool_decide (bytes_hex digest ≠ file_hash m) then
          do! restart_push h in
          mfail StoreError.ChecksumMismatch
        else
          let! logical := push_disk (parse_path (remote_path m)) in
          do! push_disk (commit_target logical (part_path (transfer_id m))) in
          do! push_modify (set_push_metadata (set_state TransferState.Complete)) in
          let! s := mget in
          do! push_disk (write_metadata (push_metadata s.2)) in
          push_disk (status (transfer_id m))
    end.

Definition push_finish : push_op SyncStatus :=
  let! s := mget in
  finish_with_digest (blake3 (hasher s.2)).

(** ** [PullTransfer] *)

Definition pull_disk {A} (m : store_op A) : pull_op A := zoom fst (λ d s, (d, s.2)) m.

Definition set_pull (m : TransferMetadata) (h : Handle) (checkpoint : Z) (s : Disk * PullTransfer) :
    Disk * PullTransfer :=
  (s.1, {| pull_metadata := m; pull_file := h; pull_next_checkpoint := checkpoint |}).

Definition pull_offset (t : PullTransfer) : Z := next_offset (pull_metadata t).

(** Returns the part of the buffer that was filled. *)
Definition read_chunk (buffer : nat) : pull_op bytes :=
  let! s := mget in
  let m := pull_metadata s.2 in
  let! r := pull_disk (handle_read (pull_file s.2) buffer) in
  do! mmodify (set_pull m r.1 (pull_next_checkpoint s.2)) in
  let! next := mlift (ok_or (checked_add u64_max (next_offset m) (len r.2)) StoreError.SizeOverflow) in
  do! mmodify (set_pull (set_next_offset next m) r.1 (pull_next_checkpoint s.2)) in
  mret r.2.

Definition pull_checkpoint : pull_op unit :=
  let! s := mget in
  pull_disk (write_metadata (pull_metadata s.2)).

Definition checkpoint_if_due : pull_op unit :=
  let! s := mget in
  let m := pull_metadata s.2 in
  if (pull_next_checkpoint s.2 <=? next_offset m) && (next_offset m <? total_size m) then
    do! pull_checkpoint in
    mmodify (set_pull m (pull_file s.2) (saturating_add u64_max (next_offset m) CHECKPOINT_INTERVAL))
  else mret tt.

Definition pull_finish : pull_op SyncStatus :=
  let! s := mget in
  let m := pull_metadata s.2 in
  if negb (next_offset m =? total_size m)
  then mfail (StoreError.InvalidState "pull ended before total_size")
  else
    do! mmodify (set_pull (set_state TransferState.Complete m) (pull_file s.2)
                   (pull_next_checkpoint s.2)) in
    do! pull_disk (write_metadata (set_state TransferState.Complete m)) in
    pull_disk (status (transfer_id m)).

End sync_store.
