(* ===== verification/SyncPush.v ===== *)
(** * Pushes: what the methods of [PushTransfer] do to the disk

    Triples and evaluations for the calls of [SyncStore.v] that a push makes, for one
    transfer.  [in_progress c t]: the tree [t] holds the metadata of the transfer and a
    staging file with the contents [c]. *)

From S2P Require Import Prelude Text BundleError Paths Utf8 Files FileHandles SyncStore.
Local Open Scope Z_scope.

(** The values of the machine types. *)
Definition metadata_typed (m : TransferMetadata) : Prop :=
  u32 (version m) ∧ u64 (total_size m) ∧ u64 (next_offset m).

(** What the code relies on of serde_json: the metadata can be written, and is read
    back as it was. *)
Class JsonLaws `{MetadataJson} : Prop := {
  to_vec_total : ∀ m, metadata_typed m → is_Some (to_vec m);
  from_to_vec : ∀ m bs, metadata_typed m → to_vec m = Some bs → from_slice bs = Some m;
}.

(** ** Names in the staging directory *)

Definition STAGE : bytes := text ".kindlebridge-sync".

(** A path that is neither the root nor in the staging directory. *)
Definition outside (q : path) : Prop := ∃ name rest, q = name :: rest ∧ name ≠ STAGE.

Lemma stage_not_outside rest : ¬ outside (stage_root ++ rest).
Proof. intros (name & r & Heq & Hne). injection Heq as <- _. by apply Hne. Qed.
Lemma root_not_outside : ¬ outside [].
Proof. by intros (name & r & Heq & _). Qed.
Lemma outside_prefix p q : outside p → p `prefix_of` q → outside q.
Proof. intros (name & rest & -> & Hne) [k ->]. by exists name, (rest ++ k). Qed.
Lemma prefix_outside p q : outside q → p `prefix_of` q → p ≠ [] → outside p.
Proof.
  intros (name & rest & -> & Hne) [k Hk] Hp. destruct p as [|n p]; [done|].
  injection Hk as -> _. by exists n, p.
Qed.

Lemma part_not_metadata id id' : part_path id ≠ metadata_path id'.
Proof.
  unfold part_path, metadata_path. intros [= Heq]. apply (f_equal last) in Heq.
  by rewrite !last_app in Heq.
Qed.
Lemma part_not_temporary id id' : part_path id ≠ metadata_temporary id'.
Proof.
  unfold part_path, metadata_temporary. intros [= Heq]. apply (f_equal last) in Heq.
  by rewrite !last_app in Heq.
Qed.
Lemma metadata_not_temporary id id' : metadata_path id ≠ metadata_temporary id'.
Proof.
  unfold metadata_path, metadata_temporary. intros [= Heq]. apply (f_equal last) in Heq.
  by rewrite !last_app in Heq.
Qed.

(** Into a state whose tree is known. *)
Ltac at_tree := let Hd := fresh in intros ? Hd; unfold on_tree in Hd; rewrite Hd.

(** ** One transfer *)

Section one_push.
Context `{PointerWidth, DirOrder, ReadSize, MetadataJson, !JsonLaws}.
Context (blake3 : bytes → bytes) (hash_from_hex : bytes → option bytes) (nfc : str → str).
Context (link_resolves : path → bool).
(** The transfer, and the tree before it began. *)
Context (id : bytes) (logical : str) (size : Z) (hash : bytes) (t0 : gmap path Node).
Implicit Types (t : gmap path Node) (m : TransferMetadata) (c : bytes).

Definition laid_out t : Prop := t !! [] = Some Directory ∧ t !! stage_root = Some Directory.

Definition meta_at t m : Prop :=
  ∃ bs x, t !! metadata_path id = Some (Regular bs x) ∧ from_slice bs = Some m.

(** The metadata of this transfer, in the given state. *)
Record describes (s : TransferState) m : Prop := {
  describes_version : version m = METADATA_VERSION;
  describes_id : transfer_id m = id;
  describes_direction : direction m = TransferDirection.Push;
  describes_path : remote_path m = logical;
  describes_size : total_size m = size;
  describes_hash : file_hash m = hash;
  describes_offset : 0 ≤ next_offset m ≤ size;
  describes_state : state m = s;
}.

Lemma describes_typed s m : describes s m → u64 size → metadata_typed m.
Proof.
  intros [Hv _ _ _ Hs _ Ho _] [? ?]. unfold metadata_typed, METADATA_VERSION in *. rewrite Hv, Hs.
  unfold in_range, u32_max, u64_max in *. lia.
Qed.
Lemma describes_set_offset s m n : describes s m → 0 ≤ n ≤ size → describes s (set_next_offset n m).
Proof. by intros [] ?. Qed.
Lemma describes_set_state s s' m : describes s m → describes s' (set_state s' m).
Proof. by intros []. Qed.

Definition target : path := component_names logical.

(** The transfer's own files aside, nothing but directories above the target is new. *)
Definition own_path (q : path) : Prop :=
  q = part_path id ∨ q = metadata_path id ∨ q = metadata_temporary id ∨ q = target.
Definition framed t : Prop :=
  ∀ q, ¬ own_path q →
    t !! q = t0 !! q ∨ (t0 !! q = None ∧ t !! q = Some Directory ∧ q `prefix_of` target).

Record in_progress c t : Prop := {
  progress_tree : tree_ok t;
  progress_layout : laid_out t;
  progress_meta : ∃ m, meta_at t m ∧ describes TransferState.InProgress m;
  progress_part : ∃ x, t !! part_path id = Some (Regular c x);
  progress_temporary : ∀ n, t !! metadata_temporary id = Some n → is_file n = true;
  progress_target : t !! target = t0 !! target;
  progress_frame : framed t;
}.

(** *** Metadata *)

(** What writing [m] may do to the tree. *)
Record meta_step m t t' : Prop := {
  step_tree : tree_ok t';
  step_other : ∀ q, q ≠ metadata_path id → q ≠ metadata_temporary id → t' !! q = t !! q;
  step_meta : t' !! metadata_path id = t !! metadata_path id ∨ meta_at t' m;
  step_temporary : ∀ n, t' !! metadata_temporary id = Some n →
    t !! metadata_temporary id = Some n ∨ is_file n = true;
}.

Lemma meta_step_refl m t : tree_ok t → meta_step m t t.
Proof. intros Ht. split; auto. Qed.

Lemma laid_out_meta_step m t t' : laid_out t → meta_step m t t' → laid_out t'.
Proof.
  intros [Hr Hs] [_ Ho _ _]. split; rewrite Ho; try done; unfold metadata_path, metadata_temporary;
    intros Heq; apply (f_equal length) in Heq; by rewrite length_app in Heq.
Qed.

Hypothesis target_outside : outside target.

Lemma target_not_staged name : target ≠ stage_root ++ [name].
Proof. intros Heq. apply (stage_not_outside [name]). by rewrite <-Heq. Qed.
Lemma framed_meta_step m t t' : framed t → meta_step m t t' → framed t'.
Proof.
  intros Hf Hs q Hq. rewrite (step_other _ _ _ Hs); [by apply Hf| |]; intros ->; apply Hq;
    unfold own_path; auto.
Qed.

Lemma in_progress_meta_step m c t t' :
  in_progress c t → describes TransferState.InProgress m → meta_step m t t' → in_progress c t'.
Proof.
  intros [Ht Hl (m0 & Hm0 & Hd0) [x Hp] Htmp Htar Hfr] Hd Hstep. split.
  - apply Hstep.
  - by eapply laid_out_meta_step.
  - destruct (step_meta _ _ _ Hstep) as [Heq|Hm]; [|by exists m].
    exists m0. split; [|done]. destruct Hm0 as (bs & y & Hf & Hbs). exists bs, y. by rewrite Heq.
  - exists x. rewrite (step_other _ _ _ Hstep); [done|apply part_not_metadata|apply part_not_temporary].
  - intros n Hn. destruct (step_temporary _ _ _ Hstep n Hn) as [Hn'|Hn']; [by apply Htmp|done].
  - rewrite (step_other _ _ _ Hstep); [done|apply target_not_staged..].
  - by eapply framed_meta_step.
Qed.

(** Writing the temporary file. *)
Lemma meta_step_temporary m t bs x :
  tree_ok t → laid_out t → (∀ n, t !! metadata_temporary id = Some n → is_file n = true) →
  meta_step m t (<[metadata_temporary id := Regular bs x]> t).
Proof.
  intros Ht [_ Hs] Htmp. split.
  - apply tree_ok_insert; [done|by right|].
    intros n Hn ->. by apply Htmp in Hn.
  - intros q _ Hq. by rewrite lookup_insert_ne.
  - left. rewrite lookup_insert_ne; [done|]. apply not_eq_sym, metadata_not_temporary.
  - intros n Hn. rewrite lookup_insert_eq in Hn. injection Hn as <-. by right.
Qed.

Lemma meta_step_renamed m t bs x :
  tree_ok t → laid_out t → from_slice bs = Some m →
  t !! metadata_temporary id ≠ Some Directory → t !! metadata_path id ≠ Some Directory →
  let t' := <[metadata_path id := Regular bs x]> (delete (metadata_temporary id) t) in
  meta_step m t t' ∧ meta_at t' m ∧ t' !! metadata_temporary id = None.
Proof.
  intros Ht [_ Hs] Hbs Htmp Hmeta t'. subst t'.
  pose proof (metadata_not_temporary id id) as Hne.
  assert (Hat : meta_at (<[metadata_path id := Regular bs x]> (delete (metadata_temporary id) t)) m).
  { exists bs, x. by rewrite lookup_insert_eq. }
  assert (Hgone : <[metadata_path id := Regular bs x]> (delete (metadata_temporary id) t) !! metadata_temporary id = None)
    by (rewrite lookup_insert_ne, lookup_delete_eq by done; done).
  split; [|done]. split.
  - apply tree_ok_insert.
    + destruct (t !! metadata_temporary id) as [n|] eqn:Hn; [|by rewrite delete_id].
      eapply tree_ok_delete; [done..|]. congruence.
    + right. change (parent (metadata_path id)) with stage_root. by rewrite lookup_delete_ne.
    + intros n Hn ->. rewrite lookup_delete_ne in Hn by done. done.
  - intros q Hq Hq'. by rewrite lookup_insert_ne, lookup_delete_ne.
  - by right.
  - intros n Hn. rewrite lookup_insert_ne, lookup_delete_eq in Hn by done. done.
Qed.

Lemma hoare_write_metadata m t :
  tree_ok t → laid_out t → transfer_id m = id → metadata_typed m →
  hoare (on_tree t) (write_metadata m) (λ _ d, meta_step m t (tree d) ∧ meta_at (tree d) m ∧ tree d !! metadata_temporary id = None)
    (λ d, meta_step m t (tree d)).
Proof.
  intros Ht Hl Hid Hty. unfold write_metadata. rewrite Hid.
  set (tmp := metadata_temporary id).
  eapply hoare_call; [apply hoare_file_create|at_tree; by apply meta_step_refl|].
  intros h. apply hoare_any. intros d0 (-> & x & Hd0 & Hold). cbn [handle_path cursor].
  assert (Htmp : ∀ n, t !! tmp = Some n → is_file n = true).
  { intros n Hn. apply (stat_complete _ _ _ Ht) in Hn. destruct Hold as [[c Hc]|[Hc _]]; [|congruence].
    by replace n with (Regular c x) by congruence. }
  pose proof (λ bs, meta_step_temporary m t bs x Ht Hl Htmp) as Hstep.
  set (t1 := <[tmp := Regular [] x]> t) in *.
  assert (Hw : ∀ bs, <[tmp := Regular bs x]> t1 = <[tmp := Regular bs x]> t)
    by (intros bs; apply insert_insert_eq).
  eapply hoare_pre with (P' := on_tree t1); [by intros d ->|].
  eapply hoare_look; [apply looks_lift|at_tree; apply Hstep|].
  intros bs Hbs. apply ok_or_ok, (from_to_vec m bs Hty) in Hbs.
  eapply hoare_call; [apply hoare_handle_write_all; apply lookup_insert_eq| |].
  { intros d [Hd|[c Hd]]; unfold on_tree in Hd; rewrite Hd; [apply Hstep|]. cbn [handle_path]. rewrite Hw. apply Hstep. }
  intros h'. cbn [handle_path cursor]. rewrite Hw, written_empty.
  eapply hoare_call; [apply hoare_gate|at_tree; apply Hstep|]. intros [].
  assert (Hok : tree_ok (<[tmp := Regular bs x]> t)) by apply (Hstep bs).
  eapply hoare_conseq; [apply hoare_rename with (n := Regular bs x)| | |]; [|done|done| |].
  - apply stat_complete; [done|apply lookup_insert_eq].
  - intros [] d [Hd Hto]. unfold on_tree in Hd. rewrite Hd. rewrite delete_insert_eq. apply meta_step_renamed; [done..| |].
    + intros Hdir. by apply Htmp in Hdir.
    + intros Hdir. apply Hto, stat_complete; [done|].
      rewrite lookup_insert_ne; [done|]. apply not_eq_sym, metadata_not_temporary.
  - at_tree. apply Hstep.
Qed.

Lemma evals_write_metadata m t :
  tree_ok t → laid_out t → transfer_id m = id → metadata_typed m →
  (∀ n, t !! metadata_temporary id = Some n → is_file n = true) →
  (∀ n, t !! metadata_path id = Some n → is_file n = true) →
  ∃ t', evals t (write_metadata m) (Ok tt) t' ∧ meta_step m t t' ∧ meta_at t' m ∧
    t' !! metadata_temporary id = None.
Proof.
  intros Ht Hl Hid Hty Htmp Hmeta. set (tmp := metadata_temporary id).
  destruct (to_vec_total m Hty) as [bs Hbs].
  destruct (evals_file_create t tmp (E := StoreError)) as [x Hcreate].
  { destruct (t !! tmp) as [n|] eqn:Hn.
    - pose proof (Htmp n Hn). apply stat_complete in Hn; [|done]. left. destruct n; try done. eauto.
    - right. split; [|apply stat_complete; [done|apply Hl]]. apply stat_missing; [done|apply Hl|done]. }
  assert (Hok : tree_ok (<[tmp := Regular bs x]> t)) by by apply meta_step_temporary with (m := m).
  exists (<[metadata_path id := Regular bs x]> (delete tmp t)). split.
  - unfold write_metadata. rewrite Hid. eapply evals_bind; [exact Hcreate|].
    rewrite Hbs. eapply evals_bind; [apply evals_lift|].
    eapply evals_bind; [apply evals_handle_write_all; apply lookup_insert_eq|].
    cbn [handle_path cursor]. rewrite insert_insert_eq, written_empty.
    eapply evals_bind; [apply evals_gate|]. rewrite <-(delete_insert_eq t tmp (Regular bs x)).
    apply evals_rename; [apply stat_complete; [done|apply lookup_insert_eq]|done| |].
    + apply stat_complete; [done|]. rewrite lookup_insert_ne by done. apply Hl.
    + intros Hd%stat_lookup. rewrite lookup_insert_ne in Hd by apply not_eq_sym, metadata_not_temporary.
      by apply Hmeta in Hd.
  - apply meta_step_renamed; [done..| | |].
    + by apply from_to_vec.
    + intros Hd. by apply Htmp in Hd.
    + intros Hd. by apply Hmeta in Hd.
Qed.

(** Writing the staging file. *)
Lemma in_progress_part c c' x t :
  in_progress c t → t !! part_path id = Some (Regular c x) →
  in_progress c' (<[part_path id := Regular c' x]> t).
Proof.
  intros [Ht [Hr Hs] (m & (bs & y & Hm & Hbs) & Hd) _ Htmp Htar Hfr] Hp. split.
  - apply tree_ok_insert; [done|by right|]. intros n Hn ->. congruence.
  - split; by rewrite lookup_insert_ne.
  - exists m. split; [|done]. exists bs, y.
    rewrite lookup_insert_ne by apply part_not_metadata. done.
  - exists x. by rewrite lookup_insert_eq.
  - intros n Hn. rewrite lookup_insert_ne in Hn by apply part_not_temporary. by apply Htmp.
  - rewrite lookup_insert_ne; [done|]. apply not_eq_sym, target_not_staged.
  - intros q Hq. rewrite lookup_insert_ne; [by apply Hfr|]. intros <-. apply Hq. by left.
Qed.

Lemma meta_at_inj t m m' : meta_at t m → meta_at t m' → m = m'.
Proof. intros (bs & x & Hp & Hm) (bs' & x' & Hp' & Hm'). congruence. Qed.

Lemma looks_read_metadata :
  looks (read_metadata id) (λ t m, meta_at t m ∧ version m = METADATA_VERSION ∧ transfer_id m = id).
Proof.
  intros t. eapply hoare_look; [apply looks_catch_io, looks_read_node|done|].
  intros [bs|[]] Hr; [|by intros d Hd..]. destruct (Hr bs eq_refl) as [x Hx].
  apply (hoare_look (mret bs) _ (λ _ b, b = bs)); [by apply looks_ret|done|]. intros ? ->.
  eapply hoare_look; [apply looks_lift|done|]. intros m Hm%ok_or_ok.
  destruct (Z.eqb_spec (version m) METADATA_VERSION); simpl; [|by apply hoare_fail].
  case_bool_decide; [by apply hoare_fail|]. apply hoare_ret. intros d Hd. split; [done|].
  split_and!; [|done..]. exists bs, x. by apply stat_lookup in Hx.
Qed.

Lemma evals_read_metadata t m :
  tree_ok t → meta_at t m → version m = METADATA_VERSION → transfer_id m = id →
  evals t (read_metadata id) (Ok m) t.
Proof.
  intros Ht (bs & x & Hp & Hm) Hv Hid. unfold read_metadata.
  eapply evals_bind; [by eapply evals_catch, evals_read_node, stat_complete|]. simpl.
  eapply evals_bind; [apply evals_ret|]. rewrite Hm. eapply evals_bind; [apply evals_lift|].
  rewrite Hv, Z.eqb_refl, Hid, bool_decide_eq_false_2 by auto. apply evals_ret.
Qed.

(** *** Hashing *)

Lemma take_round (n k : nat) (l : bytes) :
  (k ≤ n)%nat → take n l = take k l ++ take (n - length (take k l)) (drop (length (take k l)) l).
Proof.
  intros Hk. rewrite length_take. destruct (decide (k ≤ length l)%nat).
  - rewrite Nat.min_l by done. rewrite <-(take_drop k l) at 1. rewrite take_app_ge by (rewrite length_take; lia).
    f_equal. f_equal. rewrite length_take. lia.
  - rewrite Nat.min_r, drop_all, take_nil, app_nil_r, !take_ge by lia. done.
Qed.

Lemma hash_round_step (block : Z) (h : Handle) rem c :
  0 < block → 0 < rem → let limit := Z.to_nat (Z.min rem block) in
  let data := take (read_size (cursor h) limit) (drop (cursor h) c) in
  0 ≤ rem - len data ∧
  take (Z.to_nat rem) (drop (cursor h) c) =
    data ++ take (Z.to_nat (rem - len data)) (drop (cursor h + length data) c).
Proof.
  intros Hblock Hrem limit data.
  assert (Hlim : (0 < limit)%nat) by (unfold limit; lia).
  pose proof (read_size_bounds (cursor h) limit Hlim) as Hrs.
  assert (Hk : (read_size (cursor h) limit ≤ Z.to_nat rem)%nat) by (unfold limit in *; lia).
  assert (Hd : (length data ≤ Z.to_nat rem)%nat) by (unfold data; rewrite length_take; lia).
  split; [unfold len; lia|].
  rewrite (take_round (Z.to_nat rem) (read_size (cursor h) limit)) by done. fold data.
  f_equal. rewrite drop_drop. f_equal. unfold len. lia.
Qed.

Lemma looks_hash_rounds fuel h rem absorbed :
  0 ≤ rem →
  looks (hash_rounds fuel h rem absorbed)
    (λ t r, ∀ c x, t !! handle_path h = Some (Regular c x) →
       handle_path r.1 = handle_path h ∧
       r.2 = absorbed ++ take (Z.to_nat rem) (drop (cursor h) c)).
Proof.
  revert h rem absorbed. induction fuel as [|fuel IH]; intros h rem absorbed Hrem; simpl;
    (destruct (Z.eqb_spec rem 0) as [->|Hne];
     [apply looks_ret; intros t c x _; simpl; by rewrite app_nil_r|]); [apply looks_fail|].
  intros t. eapply hoare_look; [apply looks_handle_read|done|].
  intros [h' data] (c & x & Hf & Hdata & Hh'). simpl in *.
  destruct (hash_round_step (64 * 1024) h rem c ltac:(lia) ltac:(lia)) as [Hle Hsplit]. rewrite <-Hdata in Hle, Hsplit.
  case_bool_decide; [by apply hoare_fail|].
  eapply hoare_conseq; [apply (IH h' (rem - len data) (absorbed ++ data) Hle t)|done| |done].
  intros r d [Hd Hr]. split; [done|]. intros c' x' Hf'. assert (c' = c) as -> by congruence.
  subst h'. simpl in Hr. destruct (Hr c x Hf) as [-> ->]. split; [done|].
  by rewrite <-app_assoc, Hsplit.
Qed.

Lemma evals_hash_rounds fuel t h rem absorbed c x :
  0 ≤ rem ≤ Z.of_nat fuel → t !! handle_path h = Some (Regular c x) →
  Z.of_nat (cursor h) + rem ≤ len c →
  ∃ h', handle_path h' = handle_path h ∧
    evals t (hash_rounds fuel h rem absorbed)
      (Ok (h', absorbed ++ take (Z.to_nat rem) (drop (cursor h) c))) t.
Proof.
  revert h rem absorbed. induction fuel as [|fuel IH]; intros h rem absorbed Hrem Hf Hlen; simpl;
    (destruct (Z.eqb_spec rem 0) as [->|Hne];
     [exists h; split; [done|]; simpl; rewrite app_nil_r; apply evals_ret|]); [lia|].
  destruct (hash_round_step (64 * 1024) h rem c ltac:(lia) ltac:(lia)) as [Hle Hsplit].
  set (data := take _ (drop (cursor h) c)) in Hle, Hsplit.
  assert (Hdata : 0 < len data).
  { unfold data, len. rewrite length_take, length_drop.
    pose proof (read_size_bounds (cursor h) (Z.to_nat (Z.min rem (64 * 1024))) ltac:(lia)).
    unfold len in Hlen. lia. }
  destruct (IH {| handle_path := handle_path h; cursor := cursor h + length data |} (rem - len data)
    (absorbed ++ data)) as (h' & Hh' & Hev); [lia|done|unfold len in *; simpl; lia|].
  exists h'. split; [done|]. eapply evals_bind; [by eapply evals_handle_read|].
  fold data. simpl. rewrite bool_decide_eq_false_2 by (intros Hnil; by rewrite Hnil in Hdata).
  rewrite Hsplit, app_assoc. exact Hev.
Qed.

Lemma looks_hash_prefix h n :
  0 ≤ n →
  looks (hash_prefix h n)
    (λ t r, ∀ c x, t !! handle_path h = Some (Regular c x) →
       handle_path r.1 = handle_path h ∧ r.2 = take (Z.to_nat n) c).
Proof.
  intros Hn. eapply looks_bind; [apply looks_seek_start|intros h'; by apply looks_hash_rounds|].
  intros t h' r -> Hr. apply Hr.
Qed.
Lemma evals_hash_prefix t h n c x :
  0 ≤ n ≤ len c → t !! handle_path h = Some (Regular c x) →
  ∃ h', handle_path h' = handle_path h ∧ evals t (hash_prefix h n) (Ok (h', take (Z.to_nat n) c)) t.
Proof.
  intros Hn Hf.
  destruct (evals_hash_rounds (Z.to_nat n) t {| handle_path := handle_path h; cursor := 0 |} n [] c x)
    as (h' & Hh' & Hev); [lia|done|simpl; lia|].
  exists h'. split; [done|]. eapply evals_bind; [apply evals_seek_start|]. exact Hev.
Qed.

Lemma take_len c : take (Z.to_nat (len c)) c = c.
Proof. unfold len. rewrite Nat2Z.id. apply firstn_all. Qed.

(** *** Beginning *)

(** An open transfer whose staging file holds [c], so far. *)
Record open_push c (tr : PushTransfer) : Prop := {
  open_file_at : push_file tr = Some {| handle_path := part_path id; cursor := length c |};
  open_describes : describes TransferState.InProgress (push_metadata tr);
  open_offset : next_offset (push_metadata tr) = len c;
}.

Lemma in_progress_stat c t : in_progress c t → ∃ x, stat t (part_path id) = Ok (Regular c x).
Proof. intros Hp. destruct (progress_part _ _ Hp) as [x Hx]. exists x. by apply stat_complete, Hx; apply Hp. Qed.

Lemma hoare_ensure_layout t :
  tree_ok t → laid_out t → hoare (on_tree t) ensure_layout (λ _, on_tree t) (on_tree t).
Proof.
  intros Ht [Hr Hs]. apply (stat_complete _ _ _ Ht) in Hr, Hs.
  eapply hoare_call with (Q' := λ _, on_tree t); [|done|].
  - eapply hoare_bind; [apply hoare_gate|]. intros [] d Hd.
    unfold mbnd, mget, on_tree in *. by rewrite Hd, Hr.
  - intros []. eapply hoare_bind; [apply hoare_gate|]. intros [] d Hd.
    unfold mbnd, mget, on_tree in *. by rewrite Hd, Hs.
Qed.
Lemma evals_ensure_layout t : tree_ok t → laid_out t → evals t ensure_layout (Ok tt) t.
Proof.
  intros Ht [Hr Hs]. apply (stat_complete _ _ _ Ht) in Hr, Hs.
  eapply evals_bind; [|]; (eapply evals_bind; [apply evals_gate|]; apply evals_get; intros d ->);
    rewrite ?Hr, ?Hs; apply evals_ret.
Qed.

Lemma hoare_push_resumed c t m :
  u64 size → in_progress c t → describes TransferState.InProgress m →
  hoare (on_tree t) (push_resumed m size)
    (λ tr d, in_progress c (tree d) ∧ open_push c tr ∧ hasher tr = c)
    (λ d, in_progress c (tree d)).
Proof.
  intros Hsize Hp Hm. destruct (progress_part _ _ Hp) as [x Hx].
  assert (Hkeep : ∀ d, on_tree t d → in_progress c (tree d)) by (at_tree; done).
  unfold push_resumed. rewrite (describes_id _ _ Hm).
  eapply hoare_look; [apply looks_open_file|done|]. intros h [-> _].
  eapply hoare_look; [apply looks_handle_len|done|]. intros n (c' & x' & Hf & ->).
  cbn [handle_path] in Hf. assert (c' = c) as -> by congruence.
  destruct (Z.ltb_spec size (len c)); [by apply hoare_fail|].
  eapply hoare_look; [apply looks_hash_prefix, len_nonneg|done|].
  intros [h absorbed] Hr. destruct (Hr c x Hx) as [Hh ->]. cbn [fst snd handle_path] in *. clear Hr.
  eapply hoare_look; [apply looks_seek_end|done|]. intros h' (c'' & x'' & Hf' & ->).
  rewrite Hh in *. assert (c'' = c) as -> by congruence.
  pose proof (len_nonneg c) as Hlen.
  assert (Hm' : describes TransferState.InProgress (set_next_offset (len c) m))
    by (apply describes_set_offset; [done|lia]).
  eapply hoare_call.
  { apply (hoare_write_metadata (set_next_offset (len c) m)); try apply Hp; [by destruct Hm'|].
    by eapply describes_typed. }
  { intros d Hstep. by eapply in_progress_meta_step. }
  intros []. apply hoare_ret. intros d [Hstep _]. split; [by eapply in_progress_meta_step|].
  split; [by split|]. apply take_len.
Qed.

Lemma evals_push_resumed c t m :
  u64 size → in_progress c t → describes TransferState.InProgress m → len c ≤ size →
  ∃ tr t', evals t (push_resumed m size) (Ok tr) t' ∧
    in_progress c t' ∧ open_push c tr ∧ hasher tr = c.
Proof.
  intros Hsize Hp Hm Hlen. destruct (progress_part _ _ Hp) as [x Hx]. pose proof (len_nonneg c) as Hc.
  destruct (evals_hash_prefix t {| handle_path := part_path id; cursor := 0 |} (len c) c x)
    as (h & Hh & Hhash); [lia|done|]. rewrite take_len in Hhash. simpl in Hh.
  assert (Hm' : describes TransferState.InProgress (set_next_offset (len c) m))
    by (apply describes_set_offset; [done|lia]).
  destruct (evals_write_metadata (set_next_offset (len c) m) t) as (t' & Hw & Hstep & _).
  - apply Hp.
  - apply Hp.
  - by destruct Hm'.
  - by eapply describes_typed.
  - apply Hp.
  - destruct (progress_meta _ _ Hp) as (m0 & (bs & y & Hf & _) & _). intros n Hn.
    by replace n with (Regular bs y) by congruence.
  - eexists _, t'. split; [|split; [by eapply in_progress_meta_step|]].
    + unfold push_resumed. rewrite (describes_id _ _ Hm).
      eapply evals_bind; [eapply evals_open_file, stat_complete; [apply Hp|done]|].
      eapply evals_bind; [by eapply evals_handle_len|].
      rewrite (proj2 (Z.ltb_ge _ _)) by done.
      eapply evals_bind; [exact Hhash|]. eapply evals_bind; [eapply evals_seek_end; cbn [fst]; by rewrite Hh|].
      eapply evals_bind; [exact Hw|]. apply evals_ret.
    + simpl. rewrite Hh. split; [|done]. by split.
Qed.

(** The metadata of a push that is resumed. *)
Lemma looks_push_begun now :
  looks (push_begun blake3 now (Some id) logical size hash) (λ t m, meta_at t m).
Proof.
  unfold push_begun. eapply looks_seq with (φ := λ _ _, True).
  - unfold validate_transfer_id. case_match; [by apply looks_ret|apply looks_fail].
  - intros []. eapply looks_bind with (ψ := λ m _ m', m' = m); [apply looks_read_metadata| |].
    + intros m'. eapply looks_seq with (φ := λ _ _, True); [|intros []; by apply looks_ret].
      unfold validate_metadata. case_match; [by apply looks_ret|apply looks_fail].
    + by intros t' m1 m2 [Hm1 _] ->.
Qed.

(** [begin_push] with the ID of a transfer in progress. *)
Lemma hoare_begin_push now c :
  u64 size →
  hoare (λ d, in_progress c (tree d)) (begin_push blake3 hash_from_hex nfc now (Some id) logical size hash)
    (λ tr d, in_progress c (tree d) ∧ open_push c tr ∧ hasher tr = c)
    (λ d, in_progress c (tree d)).
Proof.
  intros Hsize. apply hoare_any. intros d0 Hp. set (t := tree d0) in *.
  apply hoare_pre with (P' := on_tree t); [by intros d ->|].
  assert (Hkeep : ∀ d, on_tree t d → in_progress c (tree d)) by (at_tree; done).
  eapply hoare_look; [apply looks_lift|done|]. intros l Hparse%map_err_ok.
  apply parse_sync_path_inv in Hparse as [-> _].
  eapply hoare_look; [apply looks_lift|done|]. intros bs _.
  eapply hoare_call; [apply hoare_ensure_layout; apply Hp|done|]. intros [].
  destruct (progress_meta _ _ Hp) as (m & Hm & Hd).
  eapply hoare_look; [apply looks_push_begun|done|].
  intros m' Hm'. assert (m' = m) as -> by by eapply meta_at_inj.
  rewrite bool_decide_eq_false_2 by (rewrite (describes_state _ _ Hd); done).
  by apply hoare_push_resumed.
Qed.

(** *** Beginning with an ID, whatever is known of it *)

(** The metadata is of this transfer, in some state. *)
Record of_transfer m : Prop := {
  of_version : version m = METADATA_VERSION;
  of_id : transfer_id m = id;
  of_direction : direction m = TransferDirection.Push;
  of_path : remote_path m = logical;
  of_size : total_size m = size;
  of_hash : file_hash m = hash;
}.

Lemma looks_validate_metadata m dir path sz h :
  looks (validate_metadata m dir path sz h)
    (λ _ _, direction m = dir ∧ remote_path m = path ∧ total_size m = sz ∧ file_hash m = h).
Proof.
  unfold validate_metadata. case_match eqn:Hv; [apply looks_ret|apply looks_fail]. intros t.
  apply andb_true_iff in Hv as [Hv ?%bool_decide_eq_true]. apply andb_true_iff in Hv as [Hv ?%Z.eqb_eq].
  by apply andb_true_iff in Hv as [?%bool_decide_eq_true ?%bool_decide_eq_true].
Qed.

Lemma looks_push_resumable now :
  looks (push_begun blake3 now (Some id) logical size hash) (λ t m, meta_at t m ∧ of_transfer m).
Proof.
  unfold push_begun. eapply looks_seq with (φ := λ _ _, True).
  - unfold validate_transfer_id. case_match; [by apply looks_ret|apply looks_fail].
  - intros []. eapply looks_bind with (ψ := λ m _ m', m' = m ∧ direction m = TransferDirection.Push ∧
        remote_path m = logical ∧ total_size m = size ∧ file_hash m = hash); [apply looks_read_metadata| |].
    + intros m'. eapply looks_bind with (ψ := λ _ _ m, m = m'); [apply looks_validate_metadata|intros []; by apply looks_ret|].
      naive_solver.
    + intros t' m1 m2 (Hm1 & Hv & Hi) (-> & ? & ? & ? & ?). by split.
Qed.

(** The transfer as it is once its metadata was written over [t0]. *)
Lemma in_progress_written m c x t' :
  laid_out t0 → t0 !! part_path id = Some (Regular c x) → describes TransferState.InProgress m →
  meta_step m t0 t' → meta_at t' m → t' !! metadata_temporary id = None → in_progress c t'.
Proof.
  intros Hl Hx Hd Hstep Hm Htmp. split.
  - apply Hstep.
  - by eapply laid_out_meta_step.
  - by exists m.
  - exists x. rewrite (step_other _ _ _ Hstep); [done|apply part_not_metadata|apply part_not_temporary].
  - intros n. by rewrite Htmp.
  - rewrite (step_other _ _ _ Hstep); [done|apply target_not_staged..].
  - intros q Hq. left. apply (step_other _ _ _ Hstep); intros ->; apply Hq; unfold own_path; auto.
Qed.

Lemma hoare_push_resumed_any m :
  u64 size → tree_ok t0 → laid_out t0 → of_transfer m → state m = TransferState.InProgress →
  hoare (on_tree t0) (push_resumed m size)
    (λ tr d, ∃ c x, t0 !! part_path id = Some (Regular c x) ∧ in_progress c (tree d) ∧ open_push c tr ∧ hasher tr = c)
    (λ _, True).
Proof.
  intros Hsize Ht Hl Hm Hst. unfold push_resumed. rewrite (of_id _ Hm).
  eapply hoare_look; [apply looks_open_file|done|]. intros h [-> _].
  eapply hoare_look; [apply looks_handle_len|done|]. intros n (c & x & Hx & ->). cbn [handle_path] in Hx.
  destruct (Z.ltb_spec size (len c)); [by apply hoare_fail|].
  eapply hoare_look; [apply looks_hash_prefix, len_nonneg|done|].
  intros [h absorbed] Hr. destruct (Hr c x Hx) as [Hh ->]. cbn [fst snd handle_path] in *. clear Hr.
  eapply hoare_look; [apply looks_seek_end|done|]. intros h' (c'' & x'' & Hf' & ->).
  rewrite Hh in *. assert (c'' = c) as -> by congruence.
  pose proof (len_nonneg c) as Hlen.
  assert (Hd : describes TransferState.InProgress (set_next_offset (len c) m)) by (destruct Hm; by split).
  eapply hoare_call.
  { apply (hoare_write_metadata (set_next_offset (len c) m)); [done|done|apply Hd|by eapply describes_typed]. }
  { done. }
  intros []. apply hoare_ret. intros d (Hstep & Hat & Htmp). exists c, x. split; [done|].
  split; [by eapply in_progress_written|]. split; [by split|]. apply take_len.
Qed.

Lemma hoare_begin_push_any now :
  u64 size → tree_ok t0 → laid_out t0 →
  hoare (on_tree t0) (begin_push blake3 hash_from_hex nfc now (Some id) logical size hash)
    (λ tr d,
      (∃ c x, t0 !! part_path id = Some (Regular c x) ∧ in_progress c (tree d) ∧ open_push c tr ∧ hasher tr = c) ∨
      (∃ m, meta_at t0 m ∧ of_transfer m ∧ state m = TransferState.Complete ∧ push_metadata tr = m ∧ on_tree t0 d))
    (λ _, True).
Proof.
  intros Hsize Ht Hl.
  eapply hoare_look; [apply looks_lift|done|]. intros l Hparse%map_err_ok.
  apply parse_sync_path_inv in Hparse as [-> _].
  eapply hoare_look; [apply looks_lift|done|]. intros bs _.
  eapply hoare_call; [by apply hoare_ensure_layout|done|]. intros [].
  eapply hoare_look; [apply looks_push_resumable|done|]. intros m [Hm Hof].
  case_bool_decide as Hst.
  - apply hoare_ret. intros d Hd. right. by exists m.
  - eapply hoare_conseq; [apply (hoare_push_resumed_any m Hsize Ht Hl Hof); by destruct (state m)|done| |done].
    intros tr d Hp. by left.
Qed.

(** The arguments a caller gives when it goes on with the transfer. *)
Record accepted : Prop := {
  accepted_id : is_valid_transfer_id id = true;
  accepted_path : parse_sync_path nfc logical = Ok logical;
  accepted_hash : is_Some (hash_from_hex hash);
  accepted_size : u64 size;
}.

Lemma evals_push_begun now s m t :
  accepted → tree_ok t → meta_at t m → describes s m →
  evals t (push_begun blake3 now (Some id) logical size hash) (Ok m) t.
Proof.
  intros [Hid _ _ _] Ht Hm [Hv Hi Hdir Hpa Hsi Hha _ _].
  unfold push_begun, validate_transfer_id, validate_metadata. rewrite Hid.
  eapply evals_bind; [apply evals_ret|]. eapply evals_bind; [by apply evals_read_metadata|].
  eapply evals_bind; [|apply evals_ret].
  rewrite Hdir, Hpa, Hsi, Hha, Z.eqb_refl, !bool_decide_eq_true_2 by done. apply evals_ret.
Qed.

(** [begin_push] up to the staging file. *)
Lemma evals_begin now m t r t' :
  accepted → tree_ok t → laid_out t → meta_at t m → describes TransferState.InProgress m →
  evals t (push_resumed m size) r t' →
  evals t (begin_push blake3 hash_from_hex nfc now (Some id) logical size hash) r t'.
Proof.
  intros Hacc Ht Hl Hm Hd Hev. pose proof Hacc as [Hid Hpath [dg Hhash] Hsize].
  unfold begin_push, parse_path, parse_hash. rewrite Hpath, Hhash.
  eapply evals_bind; [apply evals_lift|]. eapply evals_bind; [apply evals_lift|].
  eapply evals_bind; [by apply evals_ensure_layout|].
  eapply evals_bind; [by eapply evals_push_begun|].
  rewrite bool_decide_eq_false_2 by (rewrite (describes_state _ _ Hd); done). exact Hev.
Qed.

Lemma evals_begin_push now c t :
  accepted → in_progress c t → len c ≤ size →
  ∃ tr t', evals t (begin_push blake3 hash_from_hex nfc now (Some id) logical size hash) (Ok tr) t' ∧
    in_progress c t' ∧ open_push c tr ∧ hasher tr = c.
Proof.
  intros Hacc Hp Hlen. destruct (progress_meta _ _ Hp) as (m & Hm & Hd).
  destruct (evals_push_resumed c t m (accepted_size Hacc) Hp Hd Hlen) as (tr & t' & Hev & Hres).
  exists tr, t'. split; [|done]. by eapply evals_begin; try apply Hp.
Qed.

(** *** Writing *)

(** What is left of a transfer after a call failed: at least [n] bytes were written. *)
Record still_open (n : Z) (tr : PushTransfer) : Prop := {
  still_file : ∃ k, push_file tr = Some {| handle_path := part_path id; cursor := k |};
  still_describes : describes TransferState.InProgress (push_metadata tr);
  still_offset : n ≤ next_offset (push_metadata tr);
}.

Lemma open_still_open c tr : open_push c tr → still_open (len c) tr.
Proof. intros [Hf Hd Ho]. split; [by eexists|done|lia]. Qed.

Lemma push_disk_run {A} (m : store_op A) d tr :
  push_disk m (d, tr) = (((m d).1, tr), (m d).2).
Proof. unfold push_disk, zoom. simpl. by destruct (m d). Qed.

Lemma hoare_push_disk {A} (m : store_op A) P Q C tr :
  hoare P m Q C →
  hoare (λ s, P s.1 ∧ s.2 = tr) (push_disk m) (λ a s, Q a s.1 ∧ s.2 = tr) (λ s, C s.1 ∧ s.2 = tr).
Proof.
  intros Hm [d tr'] [Hd Htr]. simpl in Hd, Htr. subst tr'. rewrite push_disk_run. specialize (Hm d Hd).
  by destruct (m d) as [d' [a|e]].
Qed.

Lemma in_progress_write_metadata m c :
  u64 size → describes TransferState.InProgress m →
  hoare (λ d, in_progress c (tree d)) (write_metadata m) (λ _ d, in_progress c (tree d))
    (λ d, in_progress c (tree d)).
Proof.
  intros Hsize Hm. apply hoare_any. intros d0 Hp.
  eapply hoare_conseq with (P' := on_tree (tree d0)).
  - apply hoare_write_metadata; [apply Hp..|by destruct Hm|by eapply describes_typed].
  - by intros d ->.
  - intros [] d [Hs _]. by eapply in_progress_meta_step.
  - intros d Hs. by eapply in_progress_meta_step.
Qed.

Lemma in_progress_gate c :
  hoare (λ d, in_progress c (tree d)) (gate : store_op unit) (λ _ d, in_progress c (tree d))
    (λ d, in_progress c (tree d)).
Proof.
  apply hoare_any. intros d0 Hp. eapply hoare_conseq; [apply (hoare_gate (tree d0))|by intros d ->|..].
  - intros [] d Hd. by rewrite Hd.
  - at_tree. done.
Qed.

Lemma hoare_push_checkpoint c n tr :
  u64 size → still_open n tr →
  hoare (λ s, in_progress c (tree s.1) ∧ s.2 = tr) push_checkpoint
    (λ _ s, in_progress c (tree s.1) ∧ s.2 = tr) (λ s, in_progress c (tree s.1) ∧ s.2 = tr).
Proof.
  intros Hsize Ho. apply hoare_any. intros [d0 tr0] Hs. apply hoare_get_at.
  destruct Hs as [Hp Htr]. simpl in Hp, Htr. subst tr0.
  destruct (still_file _ _ Ho) as [k Hk]. cbn [snd]. rewrite Hk.
  eapply hoare_pre with (P' := λ s, in_progress c (tree s.1) ∧ s.2 = tr); [by intros s ->|].
  eapply hoare_bind; [apply (hoare_push_disk _ _ _ _ tr (in_progress_gate c))|].
  intros []. apply (hoare_push_disk _ _ _ _ tr (in_progress_write_metadata _ _ Hsize (still_describes _ _ Ho))).
Qed.

Lemma hoare_write_chunk_without_hash c hs data :
  u64 size →
  hoare (λ s, in_progress c (tree s.1) ∧ open_push c s.2 ∧ hasher s.2 = hs)
    (write_chunk_without_hash data)
    (λ _ s, in_progress (c ++ data) (tree s.1) ∧ open_push (c ++ data) s.2 ∧ hasher s.2 = hs)
    (λ s, ∃ part, part `prefix_of` data ∧ in_progress (c ++ part) (tree s.1) ∧
                  still_open (len c) s.2).
Proof.
  intros Hsize. apply hoare_any. intros [d tr] (Hp & Ho & Hh). simpl in Hp, Ho, Hh. apply hoare_get_at.
  destruct (progress_part _ _ Hp) as [x Hx]. pose proof (open_still_open _ _ Ho) as Hso.
  assert (Hnow : ∀ s, on_tree (tree d) s.1 ∧ s.2 = tr → ∃ part, part `prefix_of` data ∧
    in_progress (c ++ part) (tree s.1) ∧ still_open (len c) s.2).
  { intros s [Hd ->]. rewrite Hd. exists []. split; [apply prefix_nil|]. by rewrite app_nil_r. }
  assert (Hnow' : ∀ s, s = (d, tr) → on_tree (tree d) s.1 ∧ s.2 = tr) by by intros s ->.
  cbn [snd]. apply hoare_lift_at; [auto|]. intros end_ [Hend Hmax]%ok_or_ok%checked_add_Some.
  rewrite (open_offset _ _ Ho) in Hend. rewrite (open_file_at _ _ Ho).
  destruct (Z.ltb_spec (total_size (push_metadata tr)) end_) as [|Hle]; [apply hoare_fail; auto|].
  rewrite (describes_size _ _ (open_describes _ _ Ho)) in *.
  assert (Hnew : ∀ part, in_progress (c ++ part)
    (<[part_path id := Regular (written (length c) part c) x]> (tree d))).
  { intros part. rewrite written_end. by eapply in_progress_part. }
  eapply hoare_bind with (Q := λ r s, ∃ part, part `prefix_of` data ∧ (r.2 = true → part = data) ∧
    r.1 = {| handle_path := part_path id; cursor := length (c ++ part) |} ∧
    in_progress (c ++ part) (tree s.1) ∧ s.2 = tr).
  { eapply hoare_conseq; [apply (hoare_push_disk _ _ _ _ tr (hoare_handle_write
      {| handle_path := part_path id; cursor := length c |} data _ _ _ Hx))|done| |done].
    intros r s [(part & Hpre & Hall & Hr & Hd) Htr]. exists part. rewrite Hr, Hd. cbn [handle_path cursor].
    rewrite length_app. split_and!; auto. }
  intros [h ok]. apply hoare_any. intros [d1 tr1] (part & Hpre & Hall & Hr & Hp1 & Htr).
  simpl in Hall, Hr, Hp1, Htr. subst h tr1. apply hoare_modify_at. cbn [fst snd].
  assert (Hopen : ∀ n, 0 ≤ n ≤ size → describes TransferState.InProgress
    (set_next_offset n (push_metadata tr))) by (intros; apply describes_set_offset; [apply Ho|done]).
  destruct ok; cbn [negb]; [|apply hoare_fail; intros s ->; exists part; split_and!; [done..|];
    destruct Hso as [_ Hd Hn]; split; [by eexists|done|done]].
  rewrite (Hall eq_refl) in *. clear Hall Hpre. apply hoare_modify_at. cbn [fst snd].
  pose proof (len_nonneg data) as Hdata. pose proof (len_nonneg c) as Hc.
  set (tr2 := set_push_metadata _ _).
  assert (Ho2 : open_push (c ++ data) tr2).
  { split; [done| |]; simpl; [apply Hopen; lia|]. rewrite len_app. lia. }
  assert (Hso2 : still_open (len c) tr2).
  { destruct (open_still_open _ _ Ho2) as [Hf Hd Hn]. split; [done..|]. rewrite len_app in Hn. lia. }
  destruct (_ && _); [|apply hoare_ret; by intros s ->].
  eapply hoare_step with (Q' := λ _ s, in_progress (c ++ data) (tree s.1) ∧ s.2 = tr2).
  - eapply hoare_pre; [|by eapply (hoare_push_checkpoint (c ++ data) _ tr2)]. by intros s ->.
  - intros s [Hs ->]. by exists data.
  - intros []. apply hoare_modify. intros s [Hs ->]. simpl. split; [done|]. split; [|done].
    destruct Ho2 as [Hf Hd Hn]. by split.
Qed.

Lemma hoare_push_rollback c n tr offset :
  u64 size → still_open n tr → 0 ≤ offset ≤ n → offset ≤ len c →
  let short := take (Z.to_nat offset) c in
  hoare (λ s, in_progress c (tree s.1) ∧ s.2 = tr) (rollback_for_resume offset)
    (λ _ s, in_progress short (tree s.1))
    (λ s, in_progress c (tree s.1) ∨ in_progress short (tree s.1)).
Proof.
  intros Hsize Ho Hoff Hlen short. apply hoare_any. intros [d tr'] [Hp Htr]. simpl in Hp, Htr. subst tr'.
  destruct (progress_part _ _ Hp) as [x Hx]. destruct (still_file _ _ Ho) as [k Hk].
  pose proof (still_offset _ _ Ho). apply hoare_get_at. cbn [snd].
  rewrite (proj2 (Z.ltb_ge _ _)) by lia. rewrite Hk.
  eapply hoare_pre with (P' := λ s, on_tree (tree d) s.1 ∧ s.2 = tr); [by intros s ->|].
  eapply hoare_step with (Q' := λ _ s, in_progress short (tree s.1) ∧ s.2 = tr).
  { eapply hoare_conseq; [apply (hoare_push_disk _ _ _ _ tr (hoare_set_len
      {| handle_path := part_path id; cursor := k |} offset _ _ _ Hx))|done| |].
    - intros [] s [Hs Htr]. rewrite Hs. split; [|done]. cbn [handle_path].
      replace (Z.to_nat offset - length c)%nat with O by (unfold len in Hlen; lia).
      simpl. rewrite app_nil_r. by eapply in_progress_part.
    - intros s Hs. exact Hs. }
  { intros s [Hs _]. left. by rewrite Hs. }
  intros []. eapply hoare_step; [apply (hoare_push_disk _ _ _ _ tr (in_progress_gate short))| |].
  { intros s [Hs _]. by right. }
  intros []. apply hoare_any. intros [d1 tr'] [Hp1 Htr]. simpl in Hp1, Htr. subst tr'.
  apply hoare_modify_at, hoare_get_at. cbn [fst snd].
  pose proof (describes_offset _ _ (still_describes _ _ Ho)) as Hrange.
  assert (Hd' : describes TransferState.InProgress (set_next_offset offset (push_metadata tr)))
    by (apply describes_set_offset; [apply Ho|lia]).
  eapply hoare_conseq; [apply (hoare_push_disk _ _ _ _ (set_push_metadata (set_next_offset offset) tr)
    (in_progress_write_metadata _ short Hsize Hd'))| | |].
  - by intros s ->.
  - by intros [] s [Hs _].
  - intros s [Hs _]. by right.
Qed.

(** *** The way to the target *)

(** Directories above the target were made. *)
Record paved t t' : Prop := {
  paved_tree : tree_ok t';
  paved_others : ∀ q, t' !! q = t !! q ∨
    (t !! q = None ∧ t' !! q = Some Directory ∧ q ≠ [] ∧ q `prefix_of` target ∧ q ≠ target);
}.

Lemma paved_refl t : tree_ok t → paved t t.
Proof. split; auto. Qed.
Lemma paved_trans t1 t2 t3 : paved t1 t2 → paved t2 t3 → paved t1 t3.
Proof.
  intros [_ H12] [Ht H23]. split; [done|]. intros q.
  destruct (H23 q) as [->|(Hn & Hd & Hrest)]; [apply H12|].
  destruct (H12 q) as [Heq|(Hn' & Hd' & Hrest')]; [|congruence]. right. by rewrite <-Heq.
Qed.
Lemma paved_directory t t' p : paved t t' → t !! p = Some Directory → t' !! p = Some Directory.
Proof. intros [_ Hp] Hd. destruct (Hp p) as [->|(Hn & _)]; [done|congruence]. Qed.
Lemma paved_elsewhere t t' q : paved t t' → ¬ (q ≠ [] ∧ q `prefix_of` target ∧ q ≠ target) → t' !! q = t !! q.
Proof. intros [_ Hp] Hq. destruct (Hp q) as [?|(_ & _ & ?)]; [done|by destruct Hq]. Qed.
Lemma paved_staging t t' name : paved t t' → t' !! (stage_root ++ [name]) = t !! (stage_root ++ [name]).
Proof.
  intros Hp. apply (paved_elsewhere _ _ _ Hp). intros (Hne & Hpre & _).
  apply (stage_not_outside [name]). by eapply prefix_outside.
Qed.

Lemma in_progress_paved c t t' : in_progress c t → paved t t' → in_progress c t'.
Proof.
  intros [Ht [Hr Hs] (m & (bs & y & Hm & Hbs) & Hd) [x Hp] Htmp Htar Hfr] Hpav. split.
  - apply Hpav.
  - split; by eapply paved_directory.
  - exists m. split; [|done]. exists bs, y. unfold metadata_path. by rewrite (paved_staging _ _ _ Hpav).
  - exists x. unfold part_path. by rewrite (paved_staging _ _ _ Hpav).
  - intros n Hn. apply Htmp. unfold metadata_temporary in *. by rewrite (paved_staging _ _ _ Hpav) in Hn.
  - rewrite (paved_elsewhere _ _ _ Hpav); [done|]. by intros (_ & _ & ?).
  - intros q Hq. destruct (paved_others _ _ Hpav q) as [->|(Hn & Hdir & _ & Hpre & _)]; [by apply Hfr|].
    right. destruct (Hfr q Hq) as [Heq|(_ & Hdir' & _)]; [|congruence]. by rewrite <-Heq.
Qed.

Lemma prefix_of_target current component components :
  current ++ component :: components = target → components ≠ [] →
  current ++ [component] ≠ [] ∧ current ++ [component] `prefix_of` target ∧ current ++ [component] ≠ target.
Proof.
  intros Heq Hne. split; [by destruct current|]. rewrite <-Heq. split.
  - exists components. by rewrite <-app_assoc.
  - rewrite cons_middle, app_assoc. intros Happ. apply Hne.
    apply (f_equal length) in Happ. rewrite !length_app in Happ. destruct components; simpl in *; [done|lia].
Qed.

Lemma hoare_enter_directory current component components t :
  tree_ok t → current ++ component :: components = target → components ≠ [] →
  hoare (on_tree t) (enter_directory (current ++ [component]))
    (λ _ d, paved t (tree d) ∧ tree d !! (current ++ [component]) = Some Directory)
    (λ d, paved t (tree d)).
Proof.
  intros Ht Heq Hne. set (p := current ++ [component]).
  assert (Hsame : ∀ d, on_tree t d → paved t (tree d)) by (at_tree; by apply paved_refl).
  eapply hoare_look; [apply looks_catch_io, looks_symlink_metadata|done|].
  intros [[]|[]] Hr; try by apply hoare_fail.
  - apply hoare_ret. intros d Hd. split; [by apply Hsame|]. rewrite Hd. by apply stat_lookup, Hr.
  - eapply hoare_call; [apply hoare_create_dir|done|]. intros []. apply hoare_ret.
    intros d (Hd & Hn & Hpar). unfold on_tree in Hd. rewrite Hd. split; [|apply lookup_insert_eq].
    pose proof (stat_not_found _ _ _ Ht Hn) as Hnone. apply stat_lookup in Hpar. split.
    + apply tree_ok_insert; [done|by right|]. congruence.
    + intros q. destruct (decide (p = q)) as [<-|]; [|left; by rewrite lookup_insert_ne].
      right. rewrite lookup_insert_eq. split; [done|]. split; [done|]. by eapply prefix_of_target.
Qed.

Lemma hoare_prepare current components t :
  tree_ok t → current ++ components = target → components ≠ [] → t !! current = Some Directory →
  hoare (on_tree t) (prepare_components current components)
    (λ p d, p = target ∧ paved t (tree d) ∧ tree d !! parent target = Some Directory)
    (λ d, paved t (tree d)).
Proof.
  revert current t. induction components as [|component components IH]; intros current t Ht Heq Hne Hdir; [done|].
  destruct components as [|next components].
  - simpl. rewrite <-Heq. apply hoare_ret. intros d Hd. rewrite Hd, parent_snoc.
    split; [done|]. split; [by apply paved_refl|done].
  - change (prepare_components current (component :: next :: components)) with
      (let! _ := enter_directory (current ++ [component]) in
       prepare_components (current ++ [component]) (next :: components)).
    eapply hoare_call; [by apply (hoare_enter_directory _ _ _ _ Ht Heq)|done|].
    intros made. apply hoare_any. intros d0 [Hpav Hd0].
    eapply hoare_conseq; [apply (IH (current ++ [component]) (tree d0))| | |].
    + apply Hpav.
    + by rewrite <-app_assoc.
    + done.
    + done.
    + by intros d ->.
    + intros p d (-> & Hpav' & Hpar). split; [done|]. split; [by eapply paved_trans|done].
    + intros d Hpav'. by eapply paved_trans.
Qed.

(** *** Finishing *)

(** The staging file has become the target; [s] is what the metadata says. *)
Record committed (s : TransferState) c t : Prop := {
  committed_tree : tree_ok t;
  committed_layout : laid_out t;
  committed_meta : ∃ m, meta_at t m ∧ describes s m;
  committed_part : t !! part_path id = None;
  committed_temporary : ∀ n, t !! metadata_temporary id = Some n → is_file n = true;
  committed_target : ∃ x, t !! target = Some (Regular c x);
  committed_frame : framed t;
}.

Lemma target_nonempty : target ≠ [].
Proof. intros Heq. apply root_not_outside. by rewrite <-Heq. Qed.

Lemma committed_rename c x t :
  in_progress c t → t !! part_path id = Some (Regular c x) → t !! target ≠ Some Directory →
  t !! parent target = Some Directory →
  committed TransferState.InProgress c (<[target := Regular c x]> (delete (part_path id) t)).
Proof.
  intros [Ht [Hr Hs] (m & (bs & y & Hm & Hbs) & Hd) _ Htmp Htar Hfr] Hp Hdir Hpar.
  pose proof target_not_staged as Hns.
  assert (Hother : ∀ q, q ≠ target → q ≠ part_path id →
    <[target := Regular c x]> (delete (part_path id) t) !! q = t !! q).
  { intros q Hq Hq'. rewrite lookup_insert_ne by done. by rewrite lookup_delete_ne. }
  assert (Hroot : [] ≠ target) by apply not_eq_sym, target_nonempty.
  assert (Hstage : stage_root ≠ target).
  { intros Heq. apply (stage_not_outside []). by rewrite app_nil_r, Heq. }
  split.
  - apply tree_ok_insert; [by eapply tree_ok_delete| |].
    + right. rewrite lookup_delete_ne; [done|]. intros Heq. rewrite <-Heq in Hpar. congruence.
    + intros n Hn ->. rewrite lookup_delete_ne in Hn by apply not_eq_sym, Hns. done.
  - split; rewrite Hother; done.
  - exists m. split; [|done]. exists bs, y. rewrite Hother; [done| |apply not_eq_sym, part_not_metadata].
    apply not_eq_sym, Hns.
  - rewrite lookup_insert_ne by apply Hns. apply lookup_delete_eq.
  - intros n Hn. rewrite Hother in Hn; [by apply Htmp|apply not_eq_sym, Hns|].
    apply not_eq_sym, part_not_temporary.
  - exists x. apply lookup_insert_eq.
  - intros q Hq. rewrite Hother; [by apply Hfr| |]; intros ->; apply Hq; unfold own_path; auto.
Qed.

Lemma hoare_commit_target c :
  hoare (λ d, in_progress c (tree d)) (commit_target link_resolves logical (part_path id))
    (λ _ d, committed TransferState.InProgress c (tree d)) (λ d, in_progress c (tree d)).
Proof.
  apply hoare_any. intros d0 Hp. set (t := tree d0) in *.
  apply hoare_pre with (P' := on_tree t); [by intros d ->|].
  eapply hoare_call; [apply (hoare_prepare [] target t)| |].
  - apply Hp.
  - done.
  - apply target_nonempty.
  - apply Hp.
  - intros d Hpav. by eapply in_progress_paved.
  - intros p. apply hoare_any. intros d1 (-> & Hpav & Hpar).
    eapply in_progress_paved in Hp; [|exact Hpav]. clear Hpav. set (t1 := tree d1) in *.
    apply hoare_pre with (P' := on_tree t1); [by intros d ->|].
    assert (Hkeep : ∀ d, on_tree t1 d → in_progress c (tree d)) by (at_tree; done).
    eapply hoare_look with (φ := λ _ _, True); [|done|].
    { eapply looks_seq; [apply looks_catch_io, looks_symlink_metadata|]. intros r. by apply looks_ret. }
    intros present _. eapply hoare_look with (φ := λ _ _, True); [|done|].
    { destruct present; [|by apply looks_ret].
      eapply looks_seq; [apply looks_symlink_metadata|]. intros n.
      case_match; [apply looks_fail|by apply looks_ret]. }
    intros [] _. destruct (in_progress_stat _ _ Hp) as [x Hx].
    eapply hoare_conseq; [by apply (hoare_rename _ _ _ _ Hx)|done| |done].
    intros [] d [Hd Hto]. rewrite Hd. apply stat_lookup in Hx. apply committed_rename; [done..| |done].
    intros Hdir. apply Hto. apply stat_complete; [apply Hp|done].
Qed.

Lemma committed_meta_step s s' m c t t' :
  committed s c t → describes s' m → meta_step m t t' →
  committed s c t' ∨ committed s' c t'.
Proof.
  intros [Ht Hl (m0 & Hm0 & Hd0) Hp Htmp [x Htar] Hfr] Hd Hstep.
  assert (Hall : ∀ s m, meta_at t' m → describes s m → committed s c t').
  { intros s1 m1 Hm1 Hd1. split.
    - apply Hstep.
    - by eapply laid_out_meta_step.
    - by exists m1.
    - rewrite (step_other _ _ _ Hstep); [done|apply part_not_metadata|apply part_not_temporary].
    - intros n Hn. destruct (step_temporary _ _ _ Hstep n Hn) as [Hn'|Hn']; [by apply Htmp|done].
    - exists x. rewrite (step_other _ _ _ Hstep); [done|apply target_not_staged..].
    - by eapply framed_meta_step. }
  destruct (step_meta _ _ _ Hstep) as [Heq|Hm]; [left; eapply Hall; [|done]|right; by eapply Hall].
  destruct Hm0 as (bs & y & Hf & Hbs). exists bs, y. by rewrite Heq.
Qed.

Lemma committed_meta_at s s' m c t : committed s c t → meta_at t m → describes s' m → s = s'.
Proof.
  intros Hc Hm Hd. destruct (committed_meta _ _ _ Hc) as (m' & Hm' & Hd').
  rewrite <-(describes_state _ _ Hd), <-(describes_state _ _ Hd'). by rewrite (meta_at_inj _ _ _ Hm Hm').
Qed.

(** Recording the end of the transfer. *)
Lemma hoare_record_complete m c :
  u64 size → describes TransferState.Complete m →
  hoare (λ d, committed TransferState.InProgress c (tree d)) (write_metadata m)
    (λ _ d, committed TransferState.Complete c (tree d))
    (λ d, ∃ s, committed s c (tree d)).
Proof.
  intros Hsize Hm. apply hoare_any. intros d0 Hc.
  eapply hoare_conseq with (P' := on_tree (tree d0)).
  - apply hoare_write_metadata; [apply Hc..|by destruct Hm|by eapply describes_typed].
  - by intros d ->.
  - intros [] d (Hs & Hat & _). destruct (committed_meta_step _ _ _ _ _ _ Hc Hm Hs) as [Hc'|Hc']; [|done].
    pose proof (committed_meta_at _ _ _ _ _ Hc' Hat Hm). done.
  - intros d Hs. destruct (committed_meta_step _ _ _ _ _ _ Hc Hm Hs); eauto.
Qed.

(** [status] looks. *)
Lemma looks_status : looks (status id) (λ t s, ∃ m, meta_at t m ∧ status_next_offset s = next_offset m ∧
  status_state s = state m ∧ status_total_size s = total_size m).
Proof.
  eapply looks_seq with (φ := λ _ _, True).
  { unfold validate_transfer_id. case_match; [by apply looks_ret|apply looks_fail]. }
  intros []. eapply looks_bind; [apply looks_read_metadata| |].
  - intros m. apply (looks_ret _ (λ _ s, status_next_offset s = next_offset m ∧
      status_state s = state m ∧ status_total_size s = total_size m)). done.
  - intros t m s [Hm _] Hs. eauto.
Qed.

(** What a finished or failed [finish] leaves behind. *)
Definition settled c digest t : Prop :=
  in_progress c t ∨ in_progress [] t ∨
  ∃ s, committed s c t ∧ len c = size ∧ bytes_hex digest = hash.

Lemma hoare_restart_push c tr n h :
  u64 size → still_open n (set_push_file (Some h) tr) → handle_path h = part_path id →
  hoare (λ s, in_progress c (tree s.1) ∧ s.2 = tr) (restart_push h)
    (λ _ s, in_progress [] (tree s.1)) (λ s, in_progress c (tree s.1) ∨ in_progress [] (tree s.1)).
Proof.
  intros Hsize [_ Hd Hn] Hh. apply hoare_any. intros [d tr'] [Hp Htr]. simpl in Hp, Htr. subst tr'.
  destruct (progress_part _ _ Hp) as [x Hx]. rewrite <-Hh in Hx.
  eapply hoare_pre with (P' := λ s, on_tree (tree d) s.1 ∧ s.2 = tr); [by intros s ->|].
  eapply hoare_step with (Q' := λ _ s, in_progress [] (tree s.1) ∧ s.2 = tr).
  { eapply hoare_conseq; [apply (hoare_push_disk _ _ _ _ tr (hoare_set_len h 0 _ _ _ Hx))|done| |].
    - intros [] s [Hs Htr]. rewrite Hs, Hh. split; [|done]. simpl. eapply in_progress_part; [done|].
      by rewrite <-Hh.
    - intros s Hs. exact Hs. }
  { intros s [Hs _]. left. by rewrite Hs. }
  intros []. eapply hoare_step; [apply (hoare_push_disk _ _ _ _ tr (in_progress_gate []))| |].
  { intros s [Hs _]. by right. }
  intros []. apply hoare_any. intros [d1 tr'] [Hp1 Htr]. simpl in Hp1, Htr. subst tr'.
  apply hoare_modify_at, hoare_get_at. cbn [fst snd].
  assert (Hd' : describes TransferState.InProgress (set_next_offset 0 (push_metadata tr))).
  { apply describes_set_offset; [done|]. destruct Hsize. lia. }
  eapply hoare_conseq; [apply (hoare_push_disk _ _ _ _ (set_push_metadata (set_next_offset 0) tr)
    (in_progress_write_metadata _ [] Hsize Hd'))| | |].
  - by intros s ->.
  - by intros [] s [Hs _].
  - intros s [Hs _]. by right.
Qed.

Lemma hoare_push_parse c tr :
  hoare (λ s, in_progress c (tree s.1) ∧ s.2 = tr) (push_disk (parse_path nfc logical))
    (λ l s, l = logical ∧ in_progress c (tree s.1) ∧ s.2 = tr) (λ s, in_progress c (tree s.1)).
Proof.
  intros [d tr'] [Hp Htr]. rewrite push_disk_run. unfold parse_path, mlift. simpl in *.
  destruct (parse_sync_path nfc logical) as [l|e] eqn:Hl; simpl; [|exact Hp].
  by apply parse_sync_path_inv in Hl as [-> _].
Qed.

(** The end of [finish_with_digest], after the rename. *)
Lemma hoare_push_record c tr :
  u64 size → describes TransferState.InProgress (push_metadata tr) →
  hoare (λ s, committed TransferState.InProgress c (tree s.1) ∧ s.2 = tr)
    (do! push_modify (set_push_metadata (set_state TransferState.Complete)) in
     let! s := mget in
     do! push_disk (write_metadata (push_metadata s.2)) in
     push_disk (status id))
    (λ st s, committed TransferState.Complete c (tree s.1) ∧ status_state st = TransferState.Complete)
    (λ s, ∃ s', committed s' c (tree s.1)).
Proof.
  intros Hsize Hdesc. apply hoare_any. intros [d tr'] [Hc Htr]. simpl in Hc, Htr. subst tr'.
  apply hoare_modify_at, hoare_get_at. cbn [fst snd].
  set (tr2 := set_push_metadata (set_state TransferState.Complete) tr).
  assert (Hd2 : describes TransferState.Complete (push_metadata tr2)) by by eapply describes_set_state.
  eapply hoare_pre with (P' := λ s, committed TransferState.InProgress c (tree s.1) ∧ s.2 = tr2);
    [by intros s ->|].
  eapply hoare_step; [apply (hoare_push_disk _ _ _ _ tr2 (hoare_record_complete _ c Hsize Hd2))| |].
  { intros s [Hs _]. exact Hs. }
  intros []. apply hoare_any. intros [d3 tr'] [Hc3 Htr]. simpl in Hc3, Htr. subst tr'.
  eapply hoare_conseq; [apply (hoare_push_disk _ _ _ _ tr2 (looks_status (tree d3)))|by intros s ->| |].
  - intros st s [[Hs (m & Hm & _ & Hst & _)] _]. rewrite Hs, Hst. split; [done|].
    destruct (committed_meta _ _ _ Hc3) as (m' & Hm' & Hd'). rewrite (meta_at_inj _ _ _ Hm Hm').
    apply Hd'.
  - intros s [Hs _]. rewrite Hs. eauto.
Qed.

Lemma hoare_finish_with_digest c digest :
  u64 size →
  hoare (λ s, in_progress c (tree s.1) ∧ open_push c s.2) (finish_with_digest nfc link_resolves digest)
    (λ st s, committed TransferState.Complete c (tree s.1) ∧ bytes_hex digest = hash ∧ len c = size ∧
             status_state st = TransferState.Complete)
    (λ s, settled c digest (tree s.1)).
Proof.
  intros Hsize. apply hoare_any. intros [d tr] [Hp Ho]. simpl in Hp, Ho. apply hoare_get_at. cbn [snd].
  pose proof (open_still_open _ _ Ho) as Hso. destruct Ho as [Hfile Hdesc Hoff].
  unfold is_complete. rewrite (describes_state _ _ Hdesc), bool_decide_eq_false_2 by done.
  rewrite Hoff, (describes_size _ _ Hdesc), (describes_id _ _ Hdesc), (describes_hash _ _ Hdesc),
    (describes_path _ _ Hdesc).
  destruct (Z.eqb_spec (len c) size) as [Hlen|Hlen]; cbn [negb].
  2:{ eapply hoare_step with (Q' := λ _ s, in_progress c (tree s.1) ∧ s.2 = tr);
        [eapply hoare_pre; [|by eapply (hoare_push_checkpoint c _ tr)]; by intros s ->| |].
      - intros s [Hs _]. by left.
      - intros []. apply hoare_fail. intros s [Hs _]. by left. }
  rewrite Hfile. apply hoare_modify_at. cbn [fst snd]. set (tr1 := set_push_file None tr).
  eapply hoare_pre with (P' := λ s, in_progress c (tree s.1) ∧ s.2 = tr1); [by intros s ->|].
  eapply hoare_step; [apply (hoare_push_disk _ _ _ _ tr1 (in_progress_gate c))|intros s [Hs _]; by left|].
  intros []. case_bool_decide as Hdig.
  - eapply hoare_step; [eapply (hoare_restart_push c tr1 (len c)); [done| |done]| |].
    + by destruct Hso as [_ ? ?]; split; [eexists|..].
    + intros s [Hs|Hs]; [by left|by right; left].
    + intros []. apply hoare_fail. intros s Hs. by right; left.
  - eapply hoare_step; [apply hoare_push_parse|intros s Hs; by left|].
    intros l. apply hoare_any. intros s0 (-> & Hs0).
    eapply hoare_pre with (P' := λ s, in_progress c (tree s.1) ∧ s.2 = tr1); [by intros s ->|].
    eapply hoare_step; [apply (hoare_push_disk _ _ _ _ tr1 (hoare_commit_target c))|intros s [Hs _]; by left|].
    intros []. eapply hoare_conseq; [apply (hoare_push_record c tr1 Hsize Hdesc)|done| |].
    + by intros st s [Hs Hst].
    + intros s [s' Hs]. right; right. by exists s'.
Qed.

(** ** Without faults *)

(** [evals] for the methods of a transfer. *)
Definition push_evals {A} t (tr : PushTransfer) (m : push_op A) (r : result StoreError A) t'
    (tr' : PushTransfer) : Prop :=
  ∀ d, clear t d → ∃ d', m (d, tr) = ((d', tr'), r) ∧ clear t' d'.

Lemma push_evals_bind {A B} t tr t1 tr1 t2 tr2 (m : push_op A) (k : A → push_op B) a r :
  push_evals t tr m (Ok a) t1 tr1 → push_evals t1 tr1 (k a) r t2 tr2 →
  push_evals t tr (mbnd m k) r t2 tr2.
Proof.
  intros Hm Hk d Hd. destruct (Hm d Hd) as (d1 & Hrun & Hd1). unfold mbnd. rewrite Hrun. by apply Hk.
Qed.
Lemma push_evals_ret {A} t tr (a : A) : push_evals t tr (mret a) (Ok a) t tr.
Proof. intros d Hd. by exists d. Qed.
Lemma push_evals_lift {A} t tr (r : result StoreError A) : push_evals t tr (mlift r) r t tr.
Proof. intros d Hd. by exists d. Qed.
Lemma push_evals_modify t tr f : push_evals t tr (push_modify f) (Ok tt) t (f tr).
Proof. intros d Hd. by exists d. Qed.
Lemma push_evals_disk {A} t tr (m : store_op A) r t' :
  evals t m r t' → push_evals t tr (push_disk m) r t' tr.
Proof.
  intros Hm d Hd. destruct (Hm d Hd) as (d' & Hrun & Hd'). exists d'. rewrite push_disk_run.
  by rewrite Hrun.
Qed.
Lemma push_evals_get {A} t tr (k : Disk * PushTransfer → push_op A) r t' tr' :
  (∀ d, push_evals t tr (k (d, tr)) r t' tr') → push_evals t tr (mbnd mget k) r t' tr'.
Proof. intros Hk d Hd. by apply Hk. Qed.

Lemma progress_meta_file c t :
  in_progress c t → ∀ n, t !! metadata_path id = Some n → is_file n = true.
Proof.
  intros Hp n Hn. destruct (progress_meta _ _ Hp) as (m & (bs & y & Hf & _) & _).
  by replace n with (Regular bs y) by congruence.
Qed.

Lemma push_evals_write_metadata c t tr m :
  u64 size → in_progress c t → describes TransferState.InProgress m →
  ∃ t', push_evals t tr (push_disk (write_metadata m)) (Ok tt) t' tr ∧ in_progress c t'.
Proof.
  intros Hsize Hp Hm. destruct (evals_write_metadata m t) as (t' & Hw & Hstep & _).
  - apply Hp.
  - apply Hp.
  - by destruct Hm.
  - by eapply describes_typed.
  - apply Hp.
  - by eapply progress_meta_file.
  - exists t'. split; [by apply push_evals_disk|]. by eapply in_progress_meta_step.
Qed.

Lemma push_evals_checkpoint c t tr :
  u64 size → in_progress c t → open_push c tr →
  ∃ t', push_evals t tr push_checkpoint (Ok tt) t' tr ∧ in_progress c t'.
Proof.
  intros Hsize Hp [Hf Hd Ho].
  destruct (push_evals_write_metadata c t tr (push_metadata tr) Hsize Hp Hd) as (t' & Hw & Hp').
  exists t'. split; [|done]. apply push_evals_get. intros d. cbn [snd]. rewrite Hf.
  eapply push_evals_bind; [apply push_evals_disk, evals_gate|]. exact Hw.
Qed.

Lemma push_evals_write c data t tr :
  u64 size → in_progress c t → open_push c tr → len (c ++ data) ≤ size →
  ∃ t' tr', push_evals t tr (write_chunk_without_hash data) (Ok tt) t' tr' ∧
    in_progress (c ++ data) t' ∧ open_push (c ++ data) tr' ∧ hasher tr' = hasher tr.
Proof.
  intros Hsize Hp Ho Hlen. destruct (progress_part _ _ Hp) as [x Hx]. rewrite len_app in Hlen.
  pose proof (len_nonneg c). pose proof (len_nonneg data).
  set (t1 := <[part_path id := Regular (c ++ data) x]> t).
  assert (Hp1 : in_progress (c ++ data) t1) by by eapply in_progress_part.
  set (end_ := len c + len data).
  set (tr1 := set_push_metadata (set_next_offset end_) (set_push_file
     (Some {| handle_path := part_path id; cursor := length (c ++ data) |}) tr)).
  assert (Ho1 : open_push (c ++ data) tr1).
  { split; [done| |]; simpl; [apply describes_set_offset; [apply Ho|]; unfold end_; lia|].
    by rewrite len_app. }
  assert (Hwrite : ∀ (k : push_op unit) r t' tr', push_evals t1 tr1 k r t' tr' →
    push_evals t tr (let! r := push_disk (handle_write {| handle_path := part_path id; cursor := length c |} data) in
      do! push_modify (set_push_file (Some r.1)) in
      if negb r.2 then mfail (StoreError.Io OtherIo)
      else do! push_modify (set_push_metadata (set_next_offset end_)) in k) r t' tr').
  { intros k r t' tr' Hk. eapply push_evals_bind.
    { apply push_evals_disk. by eapply evals_handle_write. }
    cbn [handle_path cursor]. rewrite written_end. eapply push_evals_bind; [apply push_evals_modify|]. cbn [negb snd].
    eapply push_evals_bind; [apply push_evals_modify|]. cbn [fst]. rewrite <-length_app. exact Hk. }
  assert (Hgo : ∀ r t' tr', push_evals t1 tr1
    (if (push_next_checkpoint tr <=? end_) && (end_ <? size) then
       do! push_checkpoint in
       push_modify (set_push_checkpoint (saturating_add u64_max end_ CHECKPOINT_INTERVAL))
     else mret tt) r t' tr' → push_evals t tr (write_chunk_without_hash data) r t' tr').
  { intros r t' tr' Hk. apply push_evals_get. intros d. cbn [snd].
    rewrite (open_offset _ _ Ho), (describes_size _ _ (open_describes _ _ Ho)).
    eapply push_evals_bind.
    { unfold checked_add. fold end_. destruct Hsize. rewrite (proj2 (Z.leb_le end_ u64_max)) by (unfold end_; lia).
      apply push_evals_lift. }
    rewrite (open_file_at _ _ Ho), (proj2 (Z.ltb_ge size end_)) by (unfold end_; lia). by apply Hwrite. }
  destruct (_ && _) in Hgo.
  - destruct (push_evals_checkpoint (c ++ data) t1 tr1 Hsize Hp1 Ho1) as (t2 & Hc & Hp2).
    exists t2. eexists. split; [apply Hgo; eapply push_evals_bind; [exact Hc|apply push_evals_modify]|].
    split; [done|]. split; [|done]. destruct Ho1 as [? ? ?]. by split.
  - exists t1, tr1. split; [|done]. apply Hgo, push_evals_ret.
Qed.

Lemma push_evals_frames c frames t tr :
  u64 size → in_progress c t → open_push c tr → len (c ++ concat frames) ≤ size →
  ∃ t' tr', push_evals t tr (mforeach write_chunk_without_hash frames) (Ok tt) t' tr' ∧
    in_progress (c ++ concat frames) t' ∧ open_push (c ++ concat frames) tr' ∧ hasher tr' = hasher tr.
Proof.
  intros Hsize. revert c t tr. induction frames as [|data frames IH]; intros c t tr Hp Ho Hlen; simpl in *.
  - exists t, tr. rewrite app_nil_r. split; [apply push_evals_ret|done].
  - rewrite app_assoc in *.
    destruct (push_evals_write c data t tr Hsize Hp Ho) as (t1 & tr1 & Hev1 & Hp1 & Ho1 & Hh1).
    { rewrite len_app in Hlen. pose proof (len_nonneg (concat frames)). lia. }
    destruct (IH (c ++ data) t1 tr1 Hp1 Ho1 Hlen) as (t2 & tr2 & Hev2 & Hp2 & Ho2 & Hh2).
    exists t2, tr2. split; [by eapply push_evals_bind|]. split; [done|]. split; [done|congruence].
Qed.

(** The way to the target is free: directories or nothing above it, and no directory
    or link in its place. *)
Definition way_clear t : Prop :=
  (∀ q, q `prefix_of` target → q ≠ target → t !! q = None ∨ t !! q = Some Directory) ∧
  (∀ n, t !! target = Some n → is_file n = true).

Lemma way_clear_paved t t' : way_clear t → paved t t' → way_clear t'.
Proof.
  intros [Hw Htar] Hp. split.
  - intros q Hq Hne. destruct (paved_others _ _ Hp q) as [->|(_ & Hd & _)]; [by apply Hw|by right].
  - intros n Hn. apply Htar. rewrite (paved_elsewhere _ _ _ Hp) in Hn; [done|]. by intros (_ & _ & ?).
Qed.

Lemma evals_enter_directory current component components t :
  tree_ok t → way_clear t → current ++ component :: components = target → components ≠ [] →
  t !! current = Some Directory →
  ∃ b t', evals t (enter_directory (current ++ [component])) (Ok b) t' ∧
          paved t t' ∧ t' !! (current ++ [component]) = Some Directory.
Proof.
  intros Ht [Hw _] Heq Hne Hcur. set (p := current ++ [component]).
  destruct (prefix_of_target _ _ _ Heq Hne) as (Hnil & Hpre & Htar).
  pose proof (evals_catch (E := StoreError) t _ _ _ (evals_symlink_metadata (E := IoErrorKind) t p)) as Hlook.
  destruct (Hw p Hpre Htar) as [Hn|Hd].
  - assert (Hs : stat t p = Err NotFound) by (apply stat_missing; [done|by (unfold p; rewrite parent_snoc)|done]).
    exists true, (<[p := Directory]> t). rewrite Hs in Hlook. split.
    + eapply evals_bind; [exact Hlook|]. simpl. eapply evals_bind; [|apply evals_ret].
      apply evals_create_dir; [done|]. apply stat_complete; [done|by (unfold p; rewrite parent_snoc)].
    + split; [|apply lookup_insert_eq]. split.
      * apply tree_ok_insert; [done|right; by (unfold p; rewrite parent_snoc)|congruence].
      * intros q. destruct (decide (p = q)) as [<-|]; [|left; by rewrite lookup_insert_ne].
        right. by rewrite lookup_insert_eq.
  - exists false, t. rewrite (stat_complete _ _ _ Ht Hd) in Hlook. split.
    + eapply evals_bind; [exact Hlook|]. apply evals_ret.
    + split; [by apply paved_refl|done].
Qed.

Lemma evals_prepare current components t :
  tree_ok t → way_clear t → current ++ components = target → components ≠ [] →
  t !! current = Some Directory →
  ∃ t', evals t (prepare_components current components) (Ok target) t' ∧
        paved t t' ∧ t' !! parent target = Some Directory.
Proof.
  revert current t. induction components as [|component components IH];
    intros current t Ht Hw Heq Hne Hcur; [done|].
  destruct components as [|next components].
  - exists t. simpl. rewrite <-Heq, parent_snoc. split; [apply evals_ret|]. split; [by apply paved_refl|done].
  - destruct (evals_enter_directory current component (next :: components) t)
      as (b & t1 & Hev1 & Hpav1 & Hdir1); [done..|].
    destruct (IH (current ++ [component]) t1) as (t2 & Hev2 & Hpav2 & Hpar).
    + apply Hpav1.
    + by eapply way_clear_paved.
    + by rewrite <-app_assoc.
    + done.
    + done.
    + exists t2. split; [|split; [by eapply paved_trans|done]]. eapply evals_bind; [exact Hev1|]. exact Hev2.
Qed.

Lemma evals_commit_target c t :
  in_progress c t → way_clear t →
  ∃ t', evals t (commit_target link_resolves logical (part_path id)) (Ok tt) t' ∧
        committed TransferState.InProgress c t'.
Proof.
  intros Hp Hw. destruct (evals_prepare [] target t) as (t1 & Hev & Hpav & Hpar).
  - apply Hp.
  - done.
  - done.
  - apply target_nonempty.
  - apply Hp.
  - eapply way_clear_paved in Hw; [|exact Hpav]. eapply in_progress_paved in Hp; [|exact Hpav].
    pose proof (progress_tree _ _ Hp) as Ht1. destruct (progress_part _ _ Hp) as [x Hx].
    destruct Hw as [_ Htar].
    assert (Hdir : t1 !! target ≠ Some Directory) by (intros Hd; by apply Htar in Hd).
    eexists. split; [|by eapply committed_rename].
    eapply evals_bind; [exact Hev|].
    pose proof (evals_symlink_metadata (E := StoreError) t1 target) as Hstat.
    pose proof (evals_catch (E := StoreError) t1 _ _ _ (evals_symlink_metadata (E := IoErrorKind) t1 target)) as Hlook.
    eapply evals_bind; [eapply evals_bind; [exact Hlook|apply evals_ret]|].
    assert (Hren : evals t1 (rename (part_path id) target : store_op unit) (Ok tt)
      (<[target := Regular c x]> (delete (part_path id) t1))).
    { apply evals_rename; [by apply stat_complete|done|by apply stat_complete|].
      intros Hd%stat_lookup. done. }
    eapply evals_bind; [|exact Hren].
    destruct (stat t1 target) as [n|e] eqn:Hs; simpl in *; [|apply evals_ret].
    pose proof (Htar n (stat_lookup _ _ _ Hs)) as Hfile. destruct n; try done.
    eapply evals_bind; [exact Hstat|]. apply evals_ret.
Qed.

Lemma push_evals_finish c digest t tr :
  accepted → in_progress c t → open_push c tr → way_clear t →
  len c = size → bytes_hex digest = hash →
  ∃ st t' tr', push_evals t tr (finish_with_digest nfc link_resolves digest) (Ok st) t' tr' ∧
    committed TransferState.Complete c t'.
Proof.
  intros [Hid Hpath _ Hsize] Hp [Hf Hd Ho] Hw Hlen Hdig.
  destruct (evals_commit_target c t Hp Hw) as (t1 & Hcommit & Hc1).
  set (m := set_state TransferState.Complete (push_metadata tr)).
  assert (Hd1 : describes TransferState.Complete m) by by eapply describes_set_state.
  destruct (evals_write_metadata m t1) as (t2 & Hw2 & Hstep & Hat & _).
  - apply Hc1.
  - apply Hc1.
  - by destruct Hd1.
  - by eapply describes_typed.
  - apply Hc1.
  - intros n Hn. destruct (committed_meta _ _ _ Hc1) as (m0 & (bs & y & Hfile & _) & _).
    by replace n with (Regular bs y) by congruence.
  - assert (Hc2 : committed TransferState.Complete c t2).
    { destruct (committed_meta_step _ _ _ _ _ _ Hc1 Hd1 Hstep) as [Hc'|Hc']; [|done].
      pose proof (committed_meta_at _ _ _ _ _ Hc' Hat Hd1). done. }
    eexists _, t2, _. split; [|done]. apply push_evals_get. intros d. cbn [snd]. unfold is_complete.
    rewrite (describes_state _ _ Hd), bool_decide_eq_false_2 by done.
    rewrite Ho, (describes_size _ _ Hd), (describes_id _ _ Hd), (describes_hash _ _ Hd), (describes_path _ _ Hd).
    rewrite (proj2 (Z.eqb_eq _ _) Hlen), Hf. cbn [negb].
    eapply push_evals_bind; [apply push_evals_modify|].
    eapply push_evals_bind; [apply push_evals_disk, evals_gate|].
    rewrite bool_decide_eq_false_2 by (rewrite Hdig; auto).
    eapply push_evals_bind.
    { apply push_evals_disk. unfold parse_path. rewrite Hpath. apply evals_lift. }
    eapply push_evals_bind; [apply push_evals_disk; exact Hcommit|].
    eapply push_evals_bind; [apply push_evals_modify|].
    apply push_evals_get. intros d1. cbn [snd].
    eapply push_evals_bind; [apply push_evals_disk; exact Hw2|].
    apply push_evals_disk. unfold status, validate_transfer_id. rewrite Hid.
    eapply evals_bind; [apply evals_ret|]. destruct Hd1 as [Hv1 Hi1 _ _ _ _ _ _].
    eapply evals_bind; [by apply (evals_read_metadata t2 m); [apply Hc2|..]|]. apply evals_ret.
Qed.

(** *** A push whose end was not recorded

    The file is in place and the metadata still says [InProgress]: there is no staging
    file to go on with. *)
Lemma evals_begin_stranded now c t :
  accepted → committed TransferState.InProgress c t →
  evals t (begin_push blake3 hash_from_hex nfc now (Some id) logical size hash)
    (Err (StoreError.Io NotFound)) t.
Proof.
  intros Hacc Hc. destruct (committed_meta _ _ _ Hc) as (m & Hm & Hd).
  eapply evals_begin; [done|apply Hc|apply Hc|done..|].
  unfold push_resumed. rewrite (describes_id _ _ Hd). do 3 eapply evals_stop.
  pose proof (evals_symlink_metadata (E := StoreError) t (part_path id)) as Hs.
  rewrite (stat_missing t (part_path id) (committed_tree _ _ _ Hc)) in Hs; [exact Hs| |apply Hc].
  apply (committed_layout _ _ _ Hc).
Qed.

End one_push.

(** ** A new push *)

Section new_push.
Context `{PointerWidth, DirOrder, ReadSize, MetadataJson, !JsonLaws}.
Context (blake3 : bytes → bytes) (hash_from_hex : bytes → option bytes) (nfc : str → str).
Context (logical : str) (size : Z) (hash : bytes).
Hypothesis target_outside : outside (target logical).
Implicit Types (t : gmap path Node) (id : bytes).

Lemma looks_allocate now prefix : looks (allocate_transfer_id blake3 now prefix) (λ _ _, True).
Proof. intros t d Hd. by split. Qed.

(** The staging file was made, and then the metadata written. *)
Lemma in_progress_new id t x m t' :
  laid_out t → meta_at id t' m → describes id logical size hash TransferState.InProgress m →
  meta_step id m (<[part_path id := Regular [] x]> t) t' → t' !! metadata_temporary id = None →
  in_progress id logical size hash t [] t'.
Proof.
  intros Hl Hm Hd Hstep Hgone. pose proof (target_not_staged _ target_outside) as Hns. split.
  - apply Hstep.
  - eapply laid_out_meta_step; [|exact Hstep]. destruct Hl. split; by rewrite lookup_insert_ne.
  - by exists m.
  - exists x. rewrite (step_other _ _ _ _ Hstep); [apply lookup_insert_eq|apply part_not_metadata|
      apply part_not_temporary].
  - intros n Hn. congruence.
  - rewrite (step_other _ _ _ _ Hstep) by apply Hns. rewrite lookup_insert_ne; [done|]. apply not_eq_sym, Hns.
  - intros q Hq. unfold own_path in Hq. left.
    rewrite (step_other _ _ _ _ Hstep) by (intros ->; apply Hq; auto).
    rewrite lookup_insert_ne; [done|]. intros <-. apply Hq; auto.
Qed.

Lemma hoare_begin_new now t :
  u64 size → tree_ok t → laid_out t →
  hoare (on_tree t) (begin_push blake3 hash_from_hex nfc now None logical size hash)
    (λ tr d, let id := transfer_id (push_metadata tr) in
       in_progress id logical size hash t [] (tree d) ∧ open_push id logical size hash [] tr ∧ hasher tr = [])
    (λ _, True).
Proof.
  intros Hsize Ht Hl. eapply hoare_look; [apply looks_lift|done|]. intros l Hparse%map_err_ok.
  apply parse_sync_path_inv in Hparse as [-> _].
  eapply hoare_look; [apply looks_lift|done|]. intros bs _.
  eapply hoare_call; [by apply hoare_ensure_layout|done|]. intros [].
  eapply hoare_bind with (Q := λ m d, let id := transfer_id m in
    describes id logical size hash TransferState.InProgress m ∧ in_progress id logical size hash t [] (tree d)).
  - eapply hoare_look; [apply looks_allocate|done|]. intros id _. set (m := {| transfer_id := id |}).
    assert (Hd : describes id logical size hash TransferState.InProgress m) by (destruct Hsize; by split).
    eapply hoare_call; [apply hoare_file_create|done|]. intros h. apply hoare_any.
    intros d0 (_ & x & Hd0 & Hold).
    apply hoare_pre with (P' := on_tree (<[part_path id := Regular [] x]> t)); [by intros d ->|].
    assert (Hnd : t !! part_path id ≠ Some Directory).
    { intros Hdir. apply (stat_complete _ _ _ Ht) in Hdir. destruct Hold as [[c Hc]|[Hc _]]; congruence. }
    eapply hoare_call; [apply (hoare_write_metadata id)|done|].
    + apply tree_ok_insert; [done|right; apply Hl|]. by intros n Hn ->.
    + destruct Hl. split; by rewrite lookup_insert_ne.
    + done.
    + by eapply describes_typed.
    + intros []. apply hoare_ret. intros d (Hstep & Hm & Hgone). split; [done|]. by eapply in_progress_new.
  - intros m. apply hoare_any. intros d0 [Hd Hp]. rewrite bool_decide_eq_false_2 by (by rewrite (describes_state _ _ _ _ _ _ Hd)).
    eapply hoare_conseq; [apply (hoare_push_resumed _ _ _ _ _ target_outside [] (tree d0) m Hsize Hp Hd)|by intros d ->| |done].
    intros tr d (Hp1 & Ho & Hh). cbv zeta.
    rewrite (describes_id _ _ _ _ _ _ (open_describes _ _ _ _ _ _ Ho)). done.
Qed.
End new_push.
