(* ===== verification/Pipeline.v ===== *)
(** * The bounded pipeline: src/device/kindlebridged/src/sync_stream.rs,
      [run_bounded_pipeline]

    Two threads and two bounded channels: the producer reads items and hands them to
    a writer, which acknowledges each one it has written.  The closures are arguments,
    as in the code; the state of the writer's closure is [W].  Each thread is a program
    counter and a deterministic step; a run interleaves the steps of both in any order.
    A closure does not panic ([WorkerPanicked] is not reached). *)

From S2P Require Import Prelude.
From stdpp Require Import relations.
Local Open Scope Z_scope.

Definition SYNC_PIPELINE_QUEUE_DEPTH : nat := 3.

Module PipelineFailure.
Inductive PipelineFailure (E : Type) : Type :=
| Stage (error : E)
| WorkerStopped
| WorkerPanicked.
Arguments Stage {E} error.
Arguments WorkerStopped {E}.
Arguments WorkerPanicked {E}.
End PipelineFailure.
Abbreviation PipelineFailure := PipelineFailure.PipelineFailure.

Record PipelineOutcome (A E : Type) : Type := {
  outcome : result (PipelineFailure E) unit;
  last_written : option A;
}.
Arguments outcome {A E} p.
Arguments last_written {A E} p.

(** Where the writer is; [last] is its variable [last_written]. *)
Module Writer.
Inductive pc (T A E : Type) : Type :=
| Recv (last : option A)
| Write (item : T) (last : option A)
| SendOk (acknowledgement : A)
| SendErr (error : E) (last : option A)
| Done (last : option A).
Arguments Recv {T A E} last.
Arguments Write {T A E} item last.
Arguments SendOk {T A E} acknowledgement.
Arguments SendErr {T A E} error last.
Arguments Done {T A E} last.
End Writer.

(** Where the producer is. *)
Module Producer.
Inductive pc (T A E : Type) : Type :=
| Collect
| Read
| TrySend (pending : T)
| Full (pending : T)
| CheckDrain
| Drain
| Disconnected
| Break (r : result (PipelineFailure E) unit)
| Flush
| DropAcks (r : result (PipelineFailure E) unit)
| Join (r : result (PipelineFailure E) unit)
| Return (o : PipelineOutcome A E).
Arguments Collect {T A E}.
Arguments Read {T A E}.
Arguments TrySend {T A E} pending.
Arguments Full {T A E} pending.
Arguments CheckDrain {T A E}.
Arguments Drain {T A E}.
Arguments Disconnected {T A E}.
Arguments Break {T A E} r.
Arguments Flush {T A E}.
Arguments DropAcks {T A E} r.
Arguments Join {T A E} r.
Arguments Return {T A E} o.
End Producer.

Section pipeline.
Context {C T A E W : Type}.
Context (read : C → C * result E (option T)) (write : W → T → W * result E A).
Context (stored : C → A → C * result E unit) (must_drain : C → bool).

Record Pipe : Type := {
  context : C;
  writer_state : W;
  (** [work_tx]/[work_rx]; the sender is alive. *)
  work : list T;
  work_open : bool;
  (** [ack_tx]/[ack_rx]; the receiver is alive. *)
  acks : list (result E A);
  acks_open : bool;
  producer : Producer.pc T A E;
  writer : Writer.pc T A E;
  (** What happened: the items read, the items given to [write], the
      acknowledgements given to [stored], and whether [read] has returned [None]. *)
  was_read : list T;
  was_written : list T;
  was_stored : list A;
  ended : bool;
}.

Definition writer_done (s : Pipe) : bool :=
  match writer s with Writer.Done _ => true | _ => false end.

Definition start (c : C) (w : W) : Pipe :=
  {| context := c; writer_state := w; work := []; work_open := true; acks := []; acks_open := true;
     producer := Producer.Collect; writer := Writer.Recv None;
     was_read := []; was_written := []; was_stored := []; ended := false |}.

(** ** The writer *)

Definition set_writer (pc : Writer.pc T A E) (s : Pipe) : Pipe :=
  {| context := context s; writer_state := writer_state s; work := work s; work_open := work_open s;
     acks := acks s; acks_open := acks_open s; producer := producer s; writer := pc;
     was_read := was_read s; was_written := was_written s; was_stored := was_stored s;
     ended := ended s |}.
Definition set_work (l : list T) (s : Pipe) : Pipe :=
  {| context := context s; writer_state := writer_state s; work := l; work_open := work_open s;
     acks := acks s; acks_open := acks_open s; producer := producer s; writer := writer s;
     was_read := was_read s; was_written := was_written s; was_stored := was_stored s;
     ended := ended s |}.
Definition set_acks (l : list (result E A)) (s : Pipe) : Pipe :=
  {| context := context s; writer_state := writer_state s; work := work s; work_open := work_open s;
     acks := l; acks_open := acks_open s; producer := producer s; writer := writer s;
     was_read := was_read s; was_written := was_written s; was_stored := was_stored s;
     ended := ended s |}.
(** [write(item)]. *)
Definition call_write (item : T) (s : Pipe) : Pipe * result E A :=
  let '(w, r) := write (writer_state s) item in
  ({| context := context s; writer_state := w; work := work s; work_open := work_open s;
      acks := acks s; acks_open := acks_open s; producer := producer s; writer := writer s;
      was_read := was_read s; was_written := was_written s ++ [item]; was_stored := was_stored s;
      ended := ended s |}, r).

(** [ack_tx.send(r)]: blocks while the channel is full, fails when the receiver is
    gone. *)
Definition send_ack (r : result E A) (sent gone : Writer.pc T A E) (s : Pipe) : option Pipe :=
  if negb (acks_open s) then Some (set_writer gone s)
  else if bool_decide (length (acks s) < SYNC_PIPELINE_QUEUE_DEPTH)%nat
  then Some (set_writer sent (set_acks (acks s ++ [r]) s))
  else None.

Definition writer_step (s : Pipe) : option Pipe :=
  match writer s with
  | Writer.Recv last =>
      match work s with
      | item :: l => Some (set_writer (Writer.Write item last) (set_work l s))
      | [] => if work_open s then None else Some (set_writer (Writer.Done last) s)
      end
  | Writer.Write item last =>
      let '(s', r) := call_write item s in
      Some (match r with
            | Ok a => set_writer (Writer.SendOk a) s'
            | Err e => set_writer (Writer.SendErr e last) s'
            end)
  | Writer.SendOk a => send_ack (Ok a) (Writer.Recv (Some a)) (Writer.Done (Some a)) s
  | Writer.SendErr e last => send_ack (Err e) (Writer.Done last) (Writer.Done last) s
  | Writer.Done _ => None
  end.

(** ** The producer *)

Definition set_producer (pc : Producer.pc T A E) (s : Pipe) : Pipe :=
  {| context := context s; writer_state := writer_state s; work := work s; work_open := work_open s;
     acks := acks s; acks_open := acks_open s; producer := pc; writer := writer s;
     was_read := was_read s; was_written := was_written s; was_stored := was_stored s;
     ended := ended s |}.
Definition call_stored (a : A) (s : Pipe) : Pipe * result E unit :=
  let '(c, r) := stored (context s) a in
  ({| context := c; writer_state := writer_state s; work := work s; work_open := work_open s;
      acks := acks s; acks_open := acks_open s; producer := producer s; writer := writer s;
      was_read := was_read s; was_written := was_written s; was_stored := was_stored s ++ [a];
      ended := ended s |}, r).
Definition call_read (s : Pipe) : Pipe * result E (option T) :=
  let '(c, r) := read (context s) in
  ({| context := c; writer_state := writer_state s; work := work s; work_open := work_open s;
      acks := acks s; acks_open := acks_open s; producer := producer s; writer := writer s;
      was_read := was_read s ++ match r with Ok (Some x) => [x] | _ => [] end;
      was_written := was_written s; was_stored := was_stored s;
      ended := match r with Ok None => true | _ => ended s end |}, r).
Definition drop_work (s : Pipe) : Pipe :=
  {| context := context s; writer_state := writer_state s; work := work s; work_open := false;
     acks := acks s; acks_open := acks_open s; producer := producer s; writer := writer s;
     was_read := was_read s; was_written := was_written s; was_stored := was_stored s;
     ended := ended s |}.
Definition drop_acks (s : Pipe) : Pipe :=
  {| context := context s; writer_state := writer_state s; work := work s; work_open := work_open s;
     acks := []; acks_open := false; producer := producer s; writer := writer s;
     was_read := was_read s; was_written := was_written s; was_stored := was_stored s;
     ended := ended s |}.

(** An acknowledgement was received: [stored] is called, and the producer goes on at
    [next] or gives up at [fail]. *)
Definition receive (r : result E A) (next : Producer.pc T A E)
    (fail : result (PipelineFailure E) unit → Producer.pc T A E) (s : Pipe) : Pipe :=
  match r with
  | Ok a =>
      let '(s', r) := call_stored a s in
      match r with
      | Ok _ => set_producer next s'
      | Err e => set_producer (fail (Err (PipelineFailure.Stage e))) s'
      end
  | Err e => set_producer (fail (Err (PipelineFailure.Stage e))) s
  end.
(** [ack_rx.recv()]: blocks while the channel is empty and the sender alive; [empty]
    is where the producer goes when the sender is gone. *)
Definition recv_ack (next : Producer.pc T A E)
    (fail : result (PipelineFailure E) unit → Producer.pc T A E) (empty : Producer.pc T A E)
    (s : Pipe) : option Pipe :=
  match acks s with
  | r :: l => Some (receive r next fail (set_acks l s))
  | [] => if writer_done s then Some (set_producer empty s) else None
  end.

Definition stopped : Producer.pc T A E := Producer.Break (Err PipelineFailure.WorkerStopped).

Definition producer_step (s : Pipe) : option Pipe :=
  match producer s with
  | Producer.Collect =>
      match acks s with
      | r :: l => Some (receive r Producer.Collect Producer.Break (set_acks l s))
      | [] => Some (set_producer (if writer_done s then stopped else Producer.Read) s)
      end
  | Producer.Read =>
      let '(s', r) := call_read s in
      Some (set_producer
              match r with
              | Ok (Some item) => Producer.TrySend item
              | Ok None => Producer.Break (Ok tt)
              | Err e => Producer.Break (Err (PipelineFailure.Stage e))
              end s')
  | Producer.TrySend item =>
      Some (if writer_done s then set_producer Producer.Disconnected s
            else if bool_decide (length (work s) < SYNC_PIPELINE_QUEUE_DEPTH)%nat
            then set_producer Producer.CheckDrain (set_work (work s ++ [item]) s)
            else set_producer (Producer.Full item) s)
  | Producer.Full item => recv_ack (Producer.TrySend item) Producer.Break stopped s
  | Producer.CheckDrain =>
      Some (set_producer (if must_drain (context s) then Producer.Drain else Producer.Collect) s)
  | Producer.Drain => recv_ack Producer.CheckDrain Producer.Break stopped s
  | Producer.Disconnected => recv_ack Producer.Disconnected Producer.Break stopped s
  | Producer.Break r =>
      Some (drop_work (set_producer (if is_ok r then Producer.Flush else Producer.DropAcks r) s))
  | Producer.Flush => recv_ack Producer.Flush Producer.DropAcks (Producer.DropAcks (Ok tt)) s
  | Producer.DropAcks r => Some (drop_acks (set_producer (Producer.Join r) s))
  | Producer.Join r =>
      match writer s with
      | Writer.Done last =>
          Some (set_producer (Producer.Return {| outcome := r; last_written := last |}) s)
      | _ => None
      end
  | Producer.Return _ => None
  end.

(** One of the threads takes a step. *)
Inductive step (s s' : Pipe) : Prop :=
| step_producer : producer_step s = Some s' → step s s'
| step_writer : writer_step s = Some s' → step s s'.

Definition reachable (c : C) (w : W) (s : Pipe) : Prop := rtc step (start c w) s.

(** A run under a schedule: [true] is a step of the producer. *)
Fixpoint run_schedule (schedule : list bool) (s : Pipe) : Pipe :=
  match schedule with
  | [] => s
  | b :: schedule =>
      run_schedule schedule (default s (if b : bool then producer_step s else writer_step s))
  end.

Lemma run_schedule_steps schedule s : rtc step s (run_schedule schedule s).
Proof.
  revert s. induction schedule as [|[] schedule IH]; intros s; simpl; [done|..].
  - destruct (producer_step s) eqn:Hs; simpl; [|apply IH]. eapply rtc_l; [by left|apply IH].
  - destruct (writer_step s) eqn:Hs; simpl; [|apply IH]. eapply rtc_l; [by right|apply IH].
Qed.

(** ** What a run has done *)

(** The writes one after the other: the reference for what the writer does. *)
Fixpoint write_all (w : W) (items : list T) : W * list (result E A) :=
  match items with
  | [] => (w, [])
  | item :: items =>
      let '(w1, r) := write w item in
      let '(w2, rs) := write_all w1 items in
      (w2, r :: rs)
  end.

Lemma write_all_length w items : length (write_all w items).2 = length items.
Proof.
  revert w. induction items as [|x items IH]; intros w; simpl; [done|].
  destruct (write w x) as [w1 r]. specialize (IH w1). destruct (write_all w1 items) as [w2 rs].
  simpl in *. by rewrite IH.
Qed.

Lemma write_all_snoc w items item :
  write_all w (items ++ [item]) =
  let '(w1, rs) := write_all w items in
  let '(w2, r) := write w1 item in (w2, rs ++ [r]).
Proof.
  revert w. induction items as [|x items IH]; intros w; simpl.
  - by destruct (write w item).
  - destruct (write w x) as [w1 r]. rewrite IH. destruct (write_all w1 items) as [w2 rs].
    by destruct (write w2 item).
Qed.

(** The item being written, the result being sent and [last_written]. *)
Definition writing (pc : Writer.pc T A E) : list T :=
  match pc with Writer.Write item _ => [item] | _ => [] end.
Definition sending (pc : Writer.pc T A E) : list (result E A) :=
  match pc with
  | Writer.SendOk a => [Ok a]
  | Writer.SendErr e _ => [Err e]
  | _ => []
  end.
Definition writer_last (pc : Writer.pc T A E) : option A :=
  match pc with
  | Writer.Recv last | Writer.Write _ last | Writer.SendErr _ last | Writer.Done last => last
  | Writer.SendOk a => Some a
  end.
(** The writer has met an error, or was stopped. *)
Definition writer_over (pc : Writer.pc T A E) : bool :=
  match pc with Writer.SendErr _ _ | Writer.Done _ => true | _ => false end.

(** The item the producer holds, and what it is about to return. *)
Definition pending (pc : Producer.pc T A E) : list T :=
  match pc with Producer.TrySend item | Producer.Full item => [item] | _ => [] end.
Definition verdict (pc : Producer.pc T A E) : option (result (PipelineFailure E) unit) :=
  match pc with
  | Producer.Break r | Producer.DropAcks r | Producer.Join r => Some r
  | Producer.Return o => Some (outcome o)
  | Producer.Flush => Some (Ok tt)
  | _ => None
  end.
Definition failing (pc : Producer.pc T A E) : Prop := ∃ f, verdict pc = Some (Err f).
(** The channels the producer has dropped. *)
Definition holds_acks (pc : Producer.pc T A E) : bool :=
  match pc with Producer.Join _ | Producer.Return _ => false | _ => true end.
Definition holds_work (pc : Producer.pc T A E) : bool :=
  match pc with
  | Producer.Flush | Producer.DropAcks _ | Producer.Join _ | Producer.Return _ => false
  | _ => true
  end.
(** The writer has returned, and the producer has seen that it has. *)
Definition flushed (pc : Producer.pc T A E) : bool :=
  match pc with
  | Producer.DropAcks (Ok _) | Producer.Join (Ok _) => true
  | Producer.Return o => is_ok (outcome o)
  | _ => false
  end.

Record invariant (w0 : W) (s : Pipe) : Prop := {
  inv_fifo : ∃ lost,
    was_read s = was_written s ++ writing (writer s) ++ work s ++ pending (producer s) ++ lost ∧
    (lost ≠ [] → producer s = Producer.Disconnected ∨ failing (producer s));
  inv_state : (write_all w0 (was_written s)).1 = writer_state s;
  inv_results : ∃ gone,
    (write_all w0 (was_written s)).2 = (Ok <$> was_stored s) ++ gone ++ acks s ++ sending (writer s) ∧
    (gone ≠ [] → failing (producer s));
  inv_successes : ∃ good bad,
    (write_all w0 (was_written s)).2 = (Ok <$> good) ++ bad ∧ writer_last (writer s) = last good ∧
    (bad = [] ∨ (∃ e, bad = [Err e]) ∧ writer_over (writer s) = true);
  inv_ended : verdict (producer s) = Some (Ok tt) → ended s = true;
  inv_acks_open : acks_open s = holds_acks (producer s);
  inv_work_open : work_open s = holds_work (producer s);
  inv_done : ∀ last, writer s = Writer.Done last → acks_open s = true →
    (∃ e, Err e ∈ (write_all w0 (was_written s)).2) ∨ work s = [] ∧ work_open s = false;
  inv_flushed : flushed (producer s) = true →
    writer_done s = true ∧ acks s = [] ∧ work s = [] ∧
    (write_all w0 (was_written s)).2 = Ok <$> was_stored s;
  inv_closed : acks_open s = false → acks s = [];
  inv_disconnected : producer s = Producer.Disconnected → writer_done s = true;
  inv_bound : (length (work s) ≤ SYNC_PIPELINE_QUEUE_DEPTH ∧ length (acks s) ≤ SYNC_PIPELINE_QUEUE_DEPTH)%nat;
}.

Lemma invariant_start c w : invariant w (start c w).
Proof.
  split; simpl; try done.
  - by exists [].
  - by exists [].
  - exists [], []. auto.
  - unfold SYNC_PIPELINE_QUEUE_DEPTH. lia.
Qed.

(** While the writer is at work, the producer has not seen it return. *)
Lemma at_work_not_flushed w0 s :
  invariant w0 s → writer_done s = false → flushed (producer s) = false.
Proof.
  intros Hi Hd. destruct (flushed (producer s)) eqn:Hf; [|done].
  destruct (inv_flushed _ _ Hi Hf) as [Hd' _]. congruence.
Qed.
Lemma closed_failing w0 s :
  invariant w0 s → writer_done s = false → acks_open s = false → failing (producer s).
Proof.
  intros Hi Hd Ho. pose proof (at_work_not_flushed _ _ Hi Hd) as Hf.
  rewrite (inv_acks_open _ _ Hi) in Ho. unfold failing.
  destruct (producer s) as [| | | | | | | | | |r|[r l]]; try done; simpl in *; destruct r; try done; eauto.
Qed.

(** Sending the result [r] of the last write. *)
Lemma invariant_send_ack w0 s r sent gone_ s' :
  invariant w0 s → writer_done s = false → writing (writer s) = [] → sending (writer s) = [r] →
  (∀ pc, pc = sent ∨ pc = gone_ → writing pc = [] ∧ sending pc = [] ∧
     writer_last pc = writer_last (writer s) ∧ (writer_over (writer s) = true → writer_over pc = true)) →
  (∀ last, sent = Writer.Done last → ∃ e, r = Err e) →
  send_ack r sent gone_ s = Some s' → invariant w0 s'.
Proof.
  intros Hi Hnd Hwr Hse Hpc Hsent. pose proof (at_work_not_flushed _ _ Hi Hnd) as Hfl.
  pose proof (closed_failing _ _ Hi Hnd) as Hclosed.
  destruct Hi as [(lost & Hfifo & Hlost) Hstate (gone & Hres & Hgone) (good & bad & Hgood & Hlast & Hbad)
    Hend Hao Hwo Hdone Hflu Hcl Hdis [Hb1 Hb2]].
  assert (Hsucc : ∀ pc, pc = sent ∨ pc = gone_ →
    writer_last pc = last good ∧ (bad = [] ∨ (∃ e, bad = [Err e]) ∧ writer_over pc = true)).
  { intros pc Hin. destruct (Hpc pc Hin) as (_ & _ & -> & Hov). split; [done|].
    destruct Hbad as [Hbad|[Hbad Hov']]; [by left|right]. auto. }
  unfold send_ack. destruct (acks_open s) eqn:Hopen; simpl.
  - case_bool_decide as Hroom; [|done]. intros [= <-].
    destruct (Hpc sent) as (Hw1 & Hs1 & _); [by left|]. split; simpl; try done; rewrite ?Hw1, ?Hs1.
    + exists lost. by rewrite Hwr in Hfifo.
    + exists gone. rewrite Hse in Hres. rewrite app_nil_r. done.
    + exists good, bad. destruct (Hsucc sent) as [Hl Hb]; [by left|]. done.
    + by rewrite Hopen.
    + intros last Hd _. left. destruct (Hsent last Hd) as [e ->]. exists e.
      rewrite Hres, Hse. rewrite !elem_of_app. do 3 right. by left.
    + by rewrite Hfl.
    + congruence.
    + intros Hd. apply Hdis in Hd. congruence.
    + rewrite length_app. simpl. lia.
  - intros [= <-]. specialize (Hclosed eq_refl). specialize (Hcl eq_refl).
    destruct (Hpc gone_) as (Hw1 & Hs1 & _); [by right|]. split; simpl; try done; rewrite ?Hw1, ?Hs1.
    + exists lost. by rewrite Hwr in Hfifo.
    + exists (gone ++ [r]). rewrite Hres, Hse, Hcl. simpl. by rewrite app_nil_r.
    + exists good, bad. destruct (Hsucc gone_) as [Hl Hb]; [by right|]. done.
    + by rewrite Hopen.
    + by rewrite Hopen.
    + by rewrite Hfl.
    + intros Hd. apply Hdis in Hd. congruence.
Qed.

Lemma invariant_call_write w0 s item last s' r :
  invariant w0 s → writer s = Writer.Write item last → call_write item s = (s', r) →
  invariant w0 (set_writer match r with
                           | Ok a => Writer.SendOk a
                           | Err e => Writer.SendErr e last
                           end s').
Proof.
  intros Hi Hw Hcall.
  assert (Hfl : flushed (producer s) = false)
    by (apply (at_work_not_flushed w0); [done|]; unfold writer_done; by rewrite Hw).
  destruct Hi as [(lost & Hfifo & Hlost) Hstate (gone & Hres & Hgone) (good & bad & Hgood & Hlast & Hbad)
    Hend Hao Hwo Hdone Hflu Hcl Hdis Hb]. rewrite Hw in *. simpl in *.
  destruct Hbad as [->|[_ ?]]; [|done]. rewrite app_nil_r in *.
  unfold call_write in Hcall. destruct (write (writer_state s) item) as [w1 r1] eqn:Hwrite.
  injection Hcall as <- <-.
  pose proof (write_all_snoc w0 (was_written s) item) as Hsnoc.
  destruct (write_all w0 (was_written s)) as [w2 rs]. simpl in *. subst w2. rewrite Hwrite in Hsnoc.
  split; simpl; rewrite ?Hsnoc; simpl; try done.
  - exists lost. destruct r1; simpl; by rewrite <-app_assoc.
  - exists gone. rewrite Hres, <-!app_assoc. split; [|done]. by destruct r1.
  - destruct r1 as [a|e]; simpl.
    + exists (good ++ [a]), []. rewrite Hgood, fmap_app, app_nil_r, last_snoc. auto.
    + exists good, [Err e]. rewrite Hgood. split; [done|]. split; [done|]. eauto.
  - intros last' Hd. by destruct r1.
  - by rewrite Hfl.
  - intros Hd. apply Hdis in Hd. unfold writer_done in Hd. by rewrite Hw in Hd.
Qed.

Lemma invariant_writer w0 s s' : invariant w0 s → writer_step s = Some s' → invariant w0 s'.
Proof.
  intros Hi. unfold writer_step. destruct (writer s) as [last|item last|a|e last|last] eqn:Hw; [..|done].
  - assert (Hnd : writer_done s = false) by (unfold writer_done; by rewrite Hw).
    pose proof (at_work_not_flushed _ _ Hi Hnd) as Hfl.
    destruct Hi as [(lost & Hfifo & Hlost) Hstate (gone & Hres & Hgone) (good & bad & Hgood & Hlast & Hbad)
      Hend Hao Hwo Hdone Hflu Hcl Hdis Hb]. rewrite Hw in *. simpl in *.
    assert (Hdis' : producer s ≠ Producer.Disconnected) by (intros Hd; apply Hdis in Hd; congruence).
    destruct (work s) as [|item l] eqn:Hwk.
    + destruct (work_open s) eqn:Hopen; [done|]. intros [= <-]. split; simpl; rewrite ?Hwk; try done.
      * by exists lost.
      * by exists gone.
      * exists good, bad. naive_solver.
      * by rewrite Hopen.
      * intros. right. done.
      * by rewrite Hfl.
    + intros [= <-]. split; simpl; try done.
      * by exists lost.
      * by exists gone.
      * exists good, bad. naive_solver.
      * by rewrite Hfl.
      * simpl in Hb. lia.
  - destruct (call_write item s) as [s1 r] eqn:Hcall. intros [= <-].
    pose proof (invariant_call_write _ _ _ _ _ _ Hi Hw Hcall). by destruct r.
  - apply invariant_send_ack; rewrite ?Hw; [done| |done|done| |done].
    + unfold writer_done. by rewrite Hw.
    + intros pc [->| ->]; simpl; auto.
  - apply invariant_send_ack; rewrite ?Hw; [done| |done|done| |eauto].
    + unfold writer_done. by rewrite Hw.
    + intros pc [->| ->]; simpl; auto.
Qed.

(** The producer goes to [pc] and nothing else changes. *)
Lemma invariant_goto w0 s pc :
  invariant w0 s →
  (pending pc = pending (producer s) ∨ pending pc = [] ∧ (pc = Producer.Disconnected ∨ failing pc)) →
  (producer s = Producer.Disconnected ∨ failing (producer s) → pc = Producer.Disconnected ∨ failing pc) →
  (failing (producer s) → failing pc) →
  (verdict pc = Some (Ok tt) → ended s = true) →
  holds_acks pc = holds_acks (producer s) → holds_work pc = holds_work (producer s) →
  (flushed pc = true → writer_done s = true ∧ acks s = [] ∧ work s = [] ∧
     (write_all w0 (was_written s)).2 = Ok <$> was_stored s) →
  (pc = Producer.Disconnected → writer_done s = true) →
  invariant w0 (set_producer pc s).
Proof.
  intros [(lost & Hfifo & Hlost) Hstate (gone & Hres & Hgone) Hsucc Hend Hao Hwo Hdone Hflu Hcl Hdis Hb]
    Hpend Hkeep Hfail Hend' Ha Hw Hflu' Hdis'.
  split; simpl; try done; rewrite ?Ha, ?Hw; try done.
  - destruct Hpend as [Hpend|[Hpend Hbad]].
    + exists lost. rewrite Hpend. split; [done|]. intros Hl. by apply Hkeep, Hlost.
    + exists (pending (producer s) ++ lost). rewrite Hpend. split; [done|]. done.
  - exists gone. split; [done|]. intros Hg. by apply Hfail, Hgone.
Qed.

(** An acknowledgement is received. *)
Lemma invariant_receive w0 s r l next fail :
  invariant w0 s → acks s = r :: l → ¬ failing (producer s) →
  pending next = pending (producer s) → verdict next = verdict (producer s) →
  (producer s = Producer.Disconnected ↔ next = Producer.Disconnected) →
  holds_acks next = holds_acks (producer s) → holds_work next = holds_work (producer s) →
  flushed next = false →
  (∀ f, pending (fail (Err f)) = [] ∧ verdict (fail (Err f)) = Some (Err f) ∧
        holds_acks (fail (Err f)) = holds_acks (producer s) ∧
        holds_work (fail (Err f)) = holds_work (producer s) ∧ flushed (fail (Err f)) = false ∧
        fail (Err f) ≠ Producer.Disconnected) →
  invariant w0 (receive r next fail (set_acks l s)).
Proof.
  intros Hi Hacks Hnf Hpend Hver Hdisc Ha Hw Hfl Hfail.
  destruct (inv_results _ _ Hi) as (gone & Hres & Hgone).
  assert (gone = []) as -> by (destruct gone; [done|]; by destruct Hnf; apply Hgone).
  rewrite Hacks in Hres. simpl in Hres. clear Hgone.
  destruct Hi as [Hfifo Hstate _ Hsucc Hend Hao Hwo Hdone Hflu Hcl Hdis [Hb1 Hb2]].
  rewrite Hacks in Hb2. simpl in Hb2.
  (* the state after the message is taken, and after [stored] *)
  assert (Htaken : ∀ s1 gone, writer s1 = writer s → writer_state s1 = writer_state s → work s1 = work s →
    work_open s1 = work_open s → acks s1 = l → acks_open s1 = acks_open s →
    was_read s1 = was_read s → was_written s1 = was_written s → ended s1 = ended s →
    producer s1 = producer s →
    (write_all w0 (was_written s)).2 = (Ok <$> was_stored s1) ++ gone ++ l ++ sending (writer s) →
    (gone = [] → invariant w0 (set_producer next s1)) ∧
    (∀ f, invariant w0 (set_producer (fail (Err f)) s1))).
  { intros s1 gone H1 H2 H3 H4 H5 H6 H7 H8 H9 H10 Hres1.
    assert (Hwd : writer_done s1 = writer_done s) by (unfold writer_done; by rewrite H1).
    split.
    - intros ->. split; simpl; rewrite ?H1, ?H2, ?H3, ?H4, ?H5, ?H6, ?H7, ?H8, ?H9, ?Ha, ?Hw, ?Hpend; try done.
      + destruct Hfifo as (lost & Hf & Hlost). exists lost. split; [done|]. intros Hl.
        destruct (Hlost Hl) as [Hd|Hd]; [|done]. left. by apply Hdisc.
      + by exists [].
      + by rewrite Hver.
      + by rewrite Hfl.
      + intros Hc. apply Hcl in Hc. congruence.
      + intros Hd. unfold writer_done in *. simpl. rewrite H1. by apply Hdis, Hdisc.
      + split; lia.
    - intros f. destruct (Hfail f) as (Hp & Hv & Hha & Hhw & Hff & Hnd).
      split; simpl; rewrite ?H1, ?H2, ?H3, ?H4, ?H5, ?H6, ?H7, ?H8, ?H9, ?Hha, ?Hhw, ?Hp; try done.
      + destruct Hfifo as (lost & Hf & _). exists (pending (producer s) ++ lost). split; [done|].
        intros _. right. by exists f.
      + exists gone. split; [done|]. intros _. by exists f.
      + by rewrite Hv.
      + by rewrite Hff.
      + intros Hc. apply Hcl in Hc. congruence.
      + split; lia. }
  unfold receive. destruct r as [a|e].
  - unfold call_stored. simpl. destruct (stored (context s) a) as [c r].
    assert (Hres' : (write_all w0 (was_written s)).2 =
      (Ok <$> (was_stored s ++ [a])) ++ [] ++ l ++ sending (writer s))
      by (rewrite Hres, fmap_app, <-app_assoc; done).
    destruct r as [u|e]; eapply Htaken; done.
  - eapply (Htaken _ [Err e]); done.
Qed.

Lemma not_failing pc : verdict pc = None ∨ verdict pc = Some (Ok tt) → ¬ failing pc.
Proof. unfold failing. intros [->| ->] [f Hf]; congruence. Qed.

(** A blocking receive before the end. *)
Lemma invariant_recv_ack w0 s s' next :
  invariant w0 s → verdict (producer s) = None → flushed next = false →
  pending next = pending (producer s) → verdict next = None →
  (producer s = Producer.Disconnected ↔ next = Producer.Disconnected) →
  holds_acks next = true → holds_work next = true →
  holds_acks (producer s) = true → holds_work (producer s) = true →
  recv_ack next Producer.Break stopped s = Some s' → invariant w0 s'.
Proof.
  intros Hi Hv Hfl Hp Hvn Hd Ha Hw Ha' Hw'. unfold recv_ack.
  destruct (acks s) as [|r l] eqn:Hacks.
  - destruct (writer_done s) eqn:Hwd; [|done]. intros [= <-]. apply invariant_goto; try done.
    + right. split; [done|]. right. by eexists.
    + intros _. right. by eexists.
    + intros _. by eexists.
  - intros [= <-]. apply invariant_receive; try done.
    + apply not_failing. by left.
    + by rewrite Hv.
    + congruence.
    + congruence.
Qed.

(** A step that only changes fields the invariant reads in one way. *)
Lemma invariant_drop_work w0 s r :
  invariant w0 s → producer s = Producer.Break r →
  invariant w0 (drop_work (set_producer (if is_ok r then Producer.Flush else Producer.DropAcks r) s)).
Proof.
  intros [(lost & Hfifo & Hlost) Hstate (gone & Hres & Hgone) Hsucc Hend Hao Hwo Hdone Hflu Hcl Hdis Hb] Hp.
  rewrite Hp in *.
  assert (Hfail : failing (Producer.Break r) →
    failing (if is_ok r then Producer.Flush else Producer.DropAcks r)).
  { intros [f Hf]. destruct r; [done|]. by eexists. }
  split; simpl; try done.
  - exists lost. split; [by destruct r|]. intros Hl. right. destruct (Hlost Hl) as [?|?]; [done|auto].
  - exists gone. split; [done|]. auto.
  - destruct r as [[]|]; [done|]. done.
  - by destruct r.
  - by destruct r.
  - intros last Hd Ho. destruct (Hdone last Hd Ho) as [He|[Hw _]]; [by left|by right].
  - by destruct r.
  - by destruct r.
Qed.

Lemma invariant_drop_acks w0 s r :
  invariant w0 s → producer s = Producer.DropAcks r → invariant w0 (drop_acks (set_producer (Producer.Join r) s)).
Proof.
  intros Hi Hp. pose proof (inv_flushed _ _ Hi) as Hflu'.
  destruct Hi as [(lost & Hfifo & Hlost) Hstate (gone & Hres & Hgone) Hsucc Hend Hao Hwo Hdone Hflu Hcl Hdis [Hb1 Hb2]].
  rewrite Hp in *. split; simpl; try done.
  - exists lost. split; [done|]. intros Hl. right. destruct (Hlost Hl) as [?|?]; done.
  - destruct r as [u|f].
    + destruct (Hflu' eq_refl) as (_ & Hacks & _). rewrite Hacks in Hres. exists gone. done.
    + exists (gone ++ acks s). rewrite Hres, <-app_assoc. split; [done|]. intros _. by eexists.
  - intros Hf. destruct (Hflu Hf) as (? & ? & ? & ?). done.
  - split; [done|lia].
Qed.

Lemma invariant_call_read w0 s s' r :
  invariant w0 s → producer s = Producer.Read → call_read s = (s', r) →
  invariant w0 (set_producer match r with
                             | Ok (Some item) => Producer.TrySend item
                             | Ok None => Producer.Break (Ok tt)
                             | Err e => Producer.Break (Err (PipelineFailure.Stage e))
                             end s').
Proof.
  intros [(lost & Hfifo & Hlost) Hstate (gone & Hres & Hgone) Hsucc Hend Hao Hwo Hdone Hflu Hcl Hdis Hb] Hp.
  rewrite Hp in *. unfold call_read. destruct (read (context s)) as [c r1]. intros [= <- <-].
  assert (lost = []) as -> by (destruct lost; [done|]; destruct (Hlost ltac:(done)) as [?|[f ?]]; done).
  assert (gone = []) as -> by (destruct gone; [done|]; destruct (Hgone ltac:(done)) as [f ?]; done).
  split; simpl; try done; try (by destruct r1 as [[]|]).
  - exists []. rewrite Hfifo. simpl. rewrite app_nil_r, <-!app_assoc.
    split; [|done]. by destruct r1 as [[item|]|e]; simpl; rewrite ?app_nil_r.
  - by exists [].
Qed.

Lemma invariant_try_send w0 s item :
  invariant w0 s → producer s = Producer.TrySend item → writer_done s = false →
  (length (work s) < SYNC_PIPELINE_QUEUE_DEPTH)%nat →
  invariant w0 (set_producer Producer.CheckDrain (set_work (work s ++ [item]) s)).
Proof.
  intros [(lost & Hfifo & Hlost) Hstate (gone & Hres & Hgone) Hsucc Hend Hao Hwo Hdone Hflu Hcl Hdis [Hb1 Hb2]] Hp Hwd Hroom.
  rewrite Hp in *. split; simpl; try done.
  - exists lost. rewrite Hfifo. simpl. rewrite <-!app_assoc. split; [done|]. intros Hl.
    destruct (Hlost Hl) as [?|[f ?]]; done.
  - exists gone. split; [done|]. intros Hg. destruct (Hgone Hg) as [f ?]. done.
  - intros last Hd. unfold writer_done in Hwd. by rewrite Hd in Hwd.
  - rewrite length_app. simpl. lia.
Qed.

(** The end of the last loop: everything was written and stored. *)
Lemma invariant_flush w0 s :
  invariant w0 s → producer s = Producer.Flush → acks s = [] → writer_done s = true →
  work s = [] ∧ (write_all w0 (was_written s)).2 = Ok <$> was_stored s.
Proof.
  intros [_ _ (gone & Hres & Hgone) _ _ Hao _ Hdone _ _ _ _] Hp Hacks Hwd. rewrite Hp in *.
  unfold writer_done in Hwd. destruct (writer s) as [| | | |last] eqn:Hw; try done.
  assert (gone = []) as -> by (destruct gone; [done|]; destruct (Hgone ltac:(done)) as [f ?]; done).
  rewrite Hacks in Hres. simpl in Hres. rewrite app_nil_r in Hres. split; [|done].
  destruct (Hdone last eq_refl Hao) as [[e He]|[? _]]; [|done].
  rewrite Hres in He. by apply list_elem_of_fmap in He as (a & ? & _).
Qed.

Ltac not_failing := (by intros [?|[? ?]]) || (by intros [? ?]).

Lemma invariant_producer w0 s s' : invariant w0 s → producer_step s = Some s' → invariant w0 s'.
Proof.
  intros Hi. unfold producer_step. destruct (producer s) as [| |item|item| | | |r| |r|r|o] eqn:Hp; [..|done].
  - destruct (acks s) as [|r l] eqn:Hacks; intros [= <-].
    + destruct (writer_done s); apply invariant_goto; rewrite ?Hp; try done; try (by left); not_failing.
    + apply invariant_receive; rewrite ?Hp; try done. apply not_failing. by left.
  - destruct (call_read s) as [s1 r] eqn:Hr. intros [= <-]. by eapply invariant_call_read.
  - intros [= <-]. destruct (writer_done s) eqn:Hwd; [|case_bool_decide; [by apply invariant_try_send|]].
    all: apply invariant_goto; rewrite ?Hp; auto; try done; not_failing.
  - apply invariant_recv_ack; rewrite ?Hp; done.
  - intros [= <-]. destruct (must_drain (context s)); apply invariant_goto; rewrite ?Hp; try done;
      try (by left); not_failing.
  - apply invariant_recv_ack; rewrite ?Hp; done.
  - apply invariant_recv_ack; rewrite ?Hp; done.
  - intros [= <-]. by apply invariant_drop_work.
  - unfold recv_ack. destruct (acks s) as [|r l] eqn:Hacks.
    + destruct (writer_done s) eqn:Hwd; [|done]. intros [= <-].
      destruct (invariant_flush _ _ Hi Hp Hacks Hwd) as [Hwk Hres].
      apply invariant_goto; rewrite ?Hp; auto; try done; try not_failing.
      intros _. apply (inv_ended _ _ Hi). by rewrite Hp.
    + intros [= <-]. apply invariant_receive; rewrite ?Hp; try done. apply not_failing. by right.
  - intros [= <-]. by apply invariant_drop_acks.
  - destruct (writer s) as [| | | |last] eqn:Hw; try done. intros [= <-].
    apply invariant_goto; rewrite ?Hp; auto.
    + intros [?|[f Hf]]; [done|]. right. by exists f.
    + intros Hv. apply (inv_ended _ _ Hi). by rewrite Hp.
    + intros Hf. apply (inv_flushed _ _ Hi). by rewrite Hp.
    + done.
Qed.

Lemma pipeline_invariant c w s : reachable c w s → invariant w s.
Proof.
  revert s. apply rtc_ind_r; [apply invariant_start|].
  intros s s' _ [Hs|Hs] Hi; [by eapply invariant_producer|by eapply invariant_writer].
Qed.

(** The producer returns only when it has joined the writer. *)
Lemma receive_producer r next fail s :
  producer (receive r next fail s) = next ∨ ∃ f, producer (receive r next fail s) = fail (Err f).
Proof.
  unfold receive, call_stored. destruct r as [a|e]; [|right; by eexists].
  destruct (stored (context s) a) as [c [u|e]]; [by left|right; by eexists].
Qed.
Lemma recv_ack_producer next fail empty s s' :
  recv_ack next fail empty s = Some s' →
  producer s' = next ∨ producer s' = empty ∨ ∃ f, producer s' = fail (Err f).
Proof.
  unfold recv_ack. destruct (acks s) as [|r l].
  - destruct (writer_done s); [|done]. intros [= <-]. auto.
  - intros [= <-]. destruct (receive_producer r next fail (set_acks l s)); auto.
Qed.

(** Where a step of the producer leads. *)
Definition follows (s s' : Pipe) : Prop :=
  let pc' := producer s' in
  let breaks := ∃ r, pc' = Producer.Break r in
  match producer s with
  | Producer.Collect => pc' = Producer.Collect ∨ pc' = Producer.Read ∨ breaks
  | Producer.Read => (∃ item, pc' = Producer.TrySend item) ∨ breaks
  | Producer.TrySend item =>
      pc' = Producer.Disconnected ∨ pc' = Producer.CheckDrain ∨
      pc' = Producer.Full item ∧ work s' = work s ∧ (SYNC_PIPELINE_QUEUE_DEPTH ≤ length (work s))%nat
  | Producer.Full item => pc' = Producer.TrySend item ∨ breaks
  | Producer.CheckDrain =>
      pc' = Producer.Collect ∨ pc' = Producer.Drain ∧ must_drain (context s) = true
  | Producer.Drain => pc' = Producer.CheckDrain ∨ breaks
  | Producer.Disconnected => pc' = Producer.Disconnected ∨ breaks
  | Producer.Break _ => pc' = Producer.Flush ∨ ∃ r, pc' = Producer.DropAcks r
  | Producer.Flush => pc' = Producer.Flush ∨ ∃ r, pc' = Producer.DropAcks r
  | Producer.DropAcks r => pc' = Producer.Join r
  | Producer.Join r => ∃ last, writer s' = Writer.Done last ∧
                       pc' = Producer.Return {| outcome := r; last_written := last |}
  | Producer.Return _ => False
  end.

Lemma producer_follows s s' : producer_step s = Some s' → follows s s'.
Proof.
  unfold producer_step, follows. intros Hs.
  destruct (producer s) as [| |item|item| | | |r| |r|r|o'] eqn:Hp; [..|done].
  - destruct (acks s) as [|r l]; injection Hs as <-.
    + simpl. destruct (writer_done s); [right; right; by eexists|by right; left].
    + destruct (receive_producer r Producer.Collect Producer.Break (set_acks l s)) as [Hr|[f Hr]]; eauto.
  - destruct (call_read s) as [s1 r]. injection Hs as <-. destruct r as [[]|]; simpl; eauto.
  - injection Hs as <-. destruct (writer_done s); [by left|]. case_bool_decide; [by right; left|].
    right; right. split; [done|]. split; [done|lia].
  - apply recv_ack_producer in Hs as [Hr|[Hr|[f Hr]]]; unfold stopped in *; eauto.
  - injection Hs as <-. simpl. destruct (must_drain (context s)); auto.
  - apply recv_ack_producer in Hs as [Hr|[Hr|[f Hr]]]; unfold stopped in *; eauto.
  - apply recv_ack_producer in Hs as [Hr|[Hr|[f Hr]]]; unfold stopped in *; eauto.
  - injection Hs as <-. simpl. destruct r; simpl; eauto.
  - apply recv_ack_producer in Hs as [Hr|[Hr|[f Hr]]]; eauto.
  - by injection Hs as <-.
  - destruct (writer s) as [| | | |last] eqn:Hw; try done. injection Hs as <-. eauto.
Qed.

Lemma writer_step_producer s s' : writer_step s = Some s' → producer s' = producer s ∧ writer_done s = false.
Proof.
  unfold writer_step, writer_done, send_ack, call_write.
  destruct (writer s) as [last|item last|a|e last|last]; [| | | |done].
  - destruct (work s); [destruct (work_open s)|]; by intros [= <-].
  - destruct (write (writer_state s) item) as [w [a|e]]; by intros [= <-].
  - destruct (acks_open s); simpl; [case_bool_decide|]; by intros [= <-].
  - destruct (acks_open s); simpl; [case_bool_decide|]; by intros [= <-].
Qed.

Lemma returned_last c w s o :
  reachable c w s → producer s = Producer.Return o → writer s = Writer.Done (last_written o).
Proof.
  intros Hr. revert o. revert s Hr. apply (rtc_ind_r (λ s, ∀ o, producer s = Producer.Return o → _)); [done|].
  intros s s' _ [Hs|Hs] IH o Ho.
  { apply producer_follows in Hs. unfold follows in Hs. rewrite Ho in Hs.
    destruct (producer s); simpl in Hs; try naive_solver. }
  apply writer_step_producer in Hs as [Hp Hd]. rewrite Hp in Ho. apply IH in Ho.
  unfold writer_done in Hd. by rewrite Ho in Hd.
Qed.

(** The verdict is final. *)
Lemma follows_verdict s s' :
  follows s s' → verdict (producer s') = None → verdict (producer s) = None.
Proof.
  unfold follows. destruct (producer s) as [| |item|item| | | |r| |r|r|o]; simpl; try done.
  - by intros [->|[r' ->]].
  - by intros [->|[r' ->]].
  - by intros ->.
  - by intros (last & _ & ->).
Qed.

(** Only a call of [read] changes what was read. *)
Lemma receive_frame r next fail s :
  let s' := receive r next fail s in
  was_read s' = was_read s ∧ ended s' = ended s ∧
  (context s' = context s ∨ ∃ a x, stored (context s) a = (context s', x)).
Proof.
  unfold receive, call_stored. destruct r as [a|e]; [|by auto].
  destruct (stored (context s) a) as [c [u|e]] eqn:Hs; simpl; eauto 6.
Qed.
Lemma recv_ack_frame next fail empty s s' :
  recv_ack next fail empty s = Some s' →
  was_read s' = was_read s ∧ ended s' = ended s ∧
  (context s' = context s ∨ ∃ a x, stored (context s) a = (context s', x)).
Proof.
  unfold recv_ack. destruct (acks s) as [|r l].
  - destruct (writer_done s); [|done]. intros [= <-]. auto.
  - intros [= <-]. apply (receive_frame r next fail (set_acks l s)).
Qed.
Lemma producer_step_frame s s' :
  producer_step s = Some s' → producer s ≠ Producer.Read →
  was_read s' = was_read s ∧ ended s' = ended s ∧
  (context s' = context s ∨ ∃ a x, stored (context s) a = (context s', x)).
Proof.
  unfold producer_step. intros Hs Hnr.
  destruct (producer s) as [| |item|item| | | |r| |r|r|o]; try done; try (by eapply recv_ack_frame);
    try (injection Hs as <-; by auto).
  - destruct (acks s) as [|r l]; injection Hs as <-; [by auto|].
    apply (receive_frame r Producer.Collect Producer.Break (set_acks l s)).
  - injection Hs as <-. destruct (writer_done s); [by auto|]. case_bool_decide; by auto.
  - destruct (writer s); try done. injection Hs as <-. by auto.
Qed.
Lemma writer_step_frame s s' :
  writer_step s = Some s' →
  was_read s' = was_read s ∧ ended s' = ended s ∧ context s' = context s.
Proof.
  unfold writer_step, send_ack, call_write.
  destruct (writer s) as [last|item last|a|e last|last]; [| | | |done].
  - destruct (work s); [destruct (work_open s)|]; by intros [= <-].
  - destruct (write (writer_state s) item) as [w [a|e]]; by intros [= <-].
  - destruct (acks_open s); simpl; [case_bool_decide|]; by intros [= <-].
  - destruct (acks_open s); simpl; [case_bool_decide|]; by intros [= <-].
Qed.

Lemma writer_step_stored s s' : writer_step s = Some s' → was_stored s' = was_stored s.
Proof.
  unfold writer_step, send_ack, call_write.
  destruct (writer s) as [last|item last|a|e last|last]; [| | | |done].
  - destruct (work s); [destruct (work_open s)|]; by intros [= <-].
  - destruct (write (writer_state s) item) as [w [a|e]]; by intros [= <-].
  - destruct (acks_open s); simpl; [case_bool_decide|]; by intros [= <-].
  - destruct (acks_open s); simpl; [case_bool_decide|]; by intros [= <-].
Qed.

(** The items read are what successive calls of [read] returned; a call that returned
    anything but an item was the last one. *)
Lemma reachable_reads (R : list T → C → Prop) c w s :
  R [] c →
  (∀ l c c' item, R l c → read c = (c', Ok (Some item)) → R (l ++ [item]) c') →
  (∀ l c c' a r, R l c → stored c a = (c', r) → R l c') →
  reachable c w s →
  (verdict (producer s) = None → R (was_read s) (context s) ∧ ended s = false) ∧
  ∃ c0, R (was_read s) c0 ∧ (ended s = true → ∃ c1, read c0 = (c1, Ok None)).
Proof.
  intros Hstart Hread Hstored. revert s.
  apply (rtc_ind_r (λ s, (verdict (producer s) = None → R (was_read s) (context s) ∧ ended s = false) ∧
    ∃ c0, R (was_read s) c0 ∧ (ended s = true → ∃ c1, read c0 = (c1, Ok None)))).
  { split; [done|]. by exists c. }
  intros s s' _ [Hs|Hs] [Hrun Hpast].
  - assert (Hcase : producer s = Producer.Read ∨ producer s ≠ Producer.Read)
      by (destruct (producer s); auto).
    destruct Hcase as [Hp|Hp].
    + unfold producer_step, call_read in Hs. rewrite Hp in Hs.
      destruct Hrun as [HR He]; [by rewrite Hp|].
      destruct (read (context s)) as [c' r] eqn:Hr. injection Hs as <-. simpl.
      destruct r as [[item|]|e]; simpl; rewrite ?app_nil_r.
      * split; [intros _; split; [by eapply Hread|done]|]. exists c'. split; [by eapply Hread|]. congruence.
      * split; [done|]. exists (context s). eauto.
      * split; [done|]. exists (context s). split; [done|]. congruence.
    + pose proof (follows_verdict _ _ (producer_follows _ _ Hs)) as Hv.
      destruct (producer_step_frame _ _ Hs Hp) as (-> & -> & Hctx). split; [|done].
      intros Hn. destruct (Hrun (Hv Hn)) as [HR He]. split; [|done].
      destruct Hctx as [->|(a & x & Hst)]; [done|]. by eapply Hstored.
  - destruct (writer_step_frame _ _ Hs) as (-> & -> & ->).
    destruct (writer_step_producer _ _ Hs) as [-> _]. done.
Qed.

(** What [read] and [stored] keep holds of the context. *)
Lemma reachable_context (Q : C → Prop) c w s :
  Q c → (∀ c c' r, Q c → read c = (c', r) → Q c') → (∀ c c' a r, Q c → stored c a = (c', r) → Q c') →
  reachable c w s → Q (context s).
Proof.
  intros Hstart Hread Hstored. revert s. apply (rtc_ind_r (λ s, Q (context s))); [done|].
  intros s s' _ [Hs|Hs] IH; [|by destruct (writer_step_frame _ _ Hs) as (_ & _ & ->)].
  assert (Hcase : producer s = Producer.Read ∨ producer s ≠ Producer.Read) by (destruct (producer s); auto).
  destruct Hcase as [Hp|Hp].
  - unfold producer_step, call_read in Hs. rewrite Hp in Hs.
    destruct (read (context s)) as [c' r] eqn:Hr. injection Hs as <-. by eapply Hread.
  - destruct (producer_step_frame _ _ Hs Hp) as (_ & _ & [->|(a & x & Hst)]); [done|]. by eapply Hstored.
Qed.

(** ** Progress *)

(** Items whose acknowledgement the producer can still receive. *)
Definition outstanding (s : Pipe) : nat :=
  length (work s) + length (writing (writer s)) + length (sending (writer s)) + length (acks s).

(** A producer that found the channel full waits for an acknowledgement to come. *)
Lemma full_outstanding c w s :
  reachable c w s → ∀ item, producer s = Producer.Full item →
  writer_done s = true ∨ (0 < outstanding s)%nat.
Proof.
  intros Hr. revert s Hr.
  apply (rtc_ind_r (λ s, ∀ item, producer s = Producer.Full item → writer_done s = true ∨ (0 < outstanding s)%nat));
    [done|].
  intros s s' _ [Hs|Hs] IH item Hp.
  - apply producer_follows in Hs. unfold follows in Hs. rewrite Hp in Hs.
    assert (Hwk : (SYNC_PIPELINE_QUEUE_DEPTH ≤ length (work s'))%nat).
    { destruct (producer s) as [| |x|x| | | |r| |r|r|o]; cbv zeta in Hs; try naive_solver.
      destruct Hs as [?|[?|(_ & -> & ?)]]; done. }
    right. unfold outstanding, SYNC_PIPELINE_QUEUE_DEPTH in *. lia.
  - pose proof (writer_step_producer _ _ Hs) as [Hps _]. rewrite Hps in Hp.
    destruct (IH item Hp) as [Hd|Ho].
    { unfold writer_done, writer_step in *. by destruct (writer s). }
    unfold writer_step, send_ack, call_write, outstanding, writer_done in *.
    destruct (writer s) as [last|x last|a|e last|last]; [| | | |done].
    + destruct (work s) as [|x l] eqn:Hwk; simpl in *; [destruct (work_open s)|]; simplify_eq; simpl;
        rewrite ?Hwk; simpl; auto; right; lia.
    + destruct (write (writer_state s) x) as [w1 [a|e]]; simplify_eq; simpl; right; lia.
    + destruct (acks_open s); simpl in Hs; [case_bool_decide|]; simplify_eq; simpl; auto.
      right. rewrite length_app. simpl. lia.
    + destruct (acks_open s); simpl in Hs; [case_bool_decide|]; simplify_eq; simpl; auto.
Qed.

(** A writer that cannot move waits for work, or for room in the channel. *)
Lemma writer_blocked s :
  writer_step s = None → writer_done s = false →
  (∃ last, writer s = Writer.Recv last ∧ work s = [] ∧ work_open s = true) ∨
  (acks_open s = true ∧ acks s ≠ []).
Proof.
  unfold writer_step, writer_done, send_ack.
  destruct (writer s) as [last|item last|a|e last|last]; [..|done].
  - destruct (work s); [|done]. destruct (work_open s); [|done]. eauto.
  - destruct (call_write item s) as [s1 r]. done.
  - destruct (acks_open s); [|done]. simpl. case_bool_decide as Hroom; [done|]. intros _ _. right.
    split; [done|]. intros Ha. rewrite Ha in Hroom. unfold SYNC_PIPELINE_QUEUE_DEPTH in Hroom. simpl in Hroom. lia.
  - destruct (acks_open s); [|done]. simpl. case_bool_decide as Hroom; [done|]. intros _ _. right.
    split; [done|]. intros Ha. rewrite Ha in Hroom. unfold SYNC_PIPELINE_QUEUE_DEPTH in Hroom. simpl in Hroom. lia.
Qed.

(** A blocking receive is stuck only when the writer waits as well. *)
Lemma recv_ack_blocked next fail empty s :
  recv_ack next fail empty s = None → acks s = [] ∧ writer_done s = false.
Proof. unfold recv_ack. destruct (acks s); [|done]. by destruct (writer_done s). Qed.

(** [must_drain] asks for an acknowledgement only while one is owed. *)
Definition drains_what_is_owed (c : C) (w : W) : Prop :=
  ∀ s, reachable c w s → producer s = Producer.CheckDrain → must_drain (context s) = true →
    (length (was_stored s) < length (was_read s))%nat.

Lemma drain_owed c w s :
  drains_what_is_owed c w → reachable c w s → producer s = Producer.Drain →
  (length (was_stored s) < length (was_read s))%nat.
Proof.
  intros Hd Hr. revert s Hr.
  apply (rtc_ind_r (λ s, producer s = Producer.Drain → (length (was_stored s) < length (was_read s))%nat));
    [done|].
  intros s s' Hr [Hs|Hs] IH Hp.
  - pose proof (producer_follows _ _ Hs) as Hf. unfold follows in Hf. rewrite Hp in Hf.
    assert (Hc : producer s = Producer.CheckDrain).
    { destruct (producer s) eqn:Hps; simpl in Hf; naive_solver. }
    rewrite Hc in Hf. destruct Hf as [?|[_ Hm]]; [done|]. specialize (Hd s Hr Hc Hm).
    unfold producer_step in Hs. rewrite Hc in Hs. by injection Hs as <-.
  - destruct (writer_step_producer _ _ Hs) as [Hps _]. rewrite Hps in Hp.
    destruct (writer_step_frame _ _ Hs) as (-> & _). rewrite (writer_step_stored _ _ Hs). auto.
Qed.

(** Where every item and every result is, while the producer is at work and waits for
    nothing in its own hands. *)
Lemma accounts w s :
  invariant w s → producer s ≠ Producer.Disconnected → verdict (producer s) = None →
  pending (producer s) = [] →
  length (was_read s) =
    (length (was_stored s) + length (acks s) + length (sending (writer s)) +
     length (writing (writer s)) + length (work s))%nat.
Proof.
  intros Hi Hnd Hv Hp. destruct (inv_fifo _ _ Hi) as (lost & Hfifo & Hlost).
  destruct (inv_results _ _ Hi) as (gone & Hres & Hgone).
  assert (Hnf : ¬ failing (producer s)) by (apply not_failing; by left).
  assert (lost = []) as -> by (destruct lost; [done|]; by destruct (Hlost ltac:(done))).
  assert (gone = []) as -> by (destruct gone; [done|]; by destruct Hnf; apply Hgone).
  pose proof (write_all_length w (was_written s)) as Hlen. rewrite Hres in Hlen.
  rewrite Hfifo, Hp. rewrite !length_app in *. rewrite length_fmap in Hlen. simpl in *. lia.
Qed.

Lemma no_deadlock c w s :
  drains_what_is_owed c w → reachable c w s →
  (∃ o, producer s = Producer.Return o) ∨ ∃ s', step s s'.
Proof.
  intros Hnd Hr. pose proof (pipeline_invariant _ _ _ Hr) as Hi.
  pose proof (drain_owed _ _ _ Hnd Hr) as Hdr.
  destruct (producer_step s) as [s'|] eqn:Hps; [right; exists s'; by left|].
  destruct (writer_step s) as [s'|] eqn:Hws; [right; exists s'; by right|].
  pose proof (writer_blocked _ Hws) as Hb. pose proof (inv_acks_open _ _ Hi) as Hao.
  pose proof (inv_work_open _ _ Hi) as Hwo.
  unfold producer_step in Hps. destruct (producer s) as [| |x|x| | | |r| |r|r|o] eqn:Hp; simpl in *; try done.
  - by destruct (acks s).
  - by destruct (call_read s).
  - apply recv_ack_blocked in Hps as [Ha Hd]. destruct (Hb Hd) as [(last & Hw & Hwk & _)|[_ ?]]; [|done].
    destruct (full_outstanding _ _ _ Hr _ Hp) as [?|Ho]; [congruence|].
    unfold outstanding in Ho. rewrite Hw, Hwk, Ha in Ho. simpl in Ho. lia.
  - apply recv_ack_blocked in Hps as [Ha Hd]. destruct (Hb Hd) as [(last & Hw & Hwk & _)|[_ ?]]; [|done].
    pose proof (accounts w s Hi) as Hacc. rewrite Hp, Hw, Hwk, Ha in Hacc. specialize (Hdr eq_refl).
    specialize (Hacc ltac:(done) eq_refl eq_refl). simpl in Hacc. lia.
  - apply recv_ack_blocked in Hps as [_ Hd]. rewrite (inv_disconnected _ _ Hi Hp) in Hd. done.
  - apply recv_ack_blocked in Hps as [Ha Hd]. destruct (Hb Hd) as [(last & Hw & Hwk & ?)|[_ ?]]; congruence.
  - destruct (writer s) as [last|item last|a|e last|last] eqn:Hw; try done.
    all: destruct Hb as [(l & ? & ? & ?)|[? ?]]; [unfold writer_done; by rewrite Hw|congruence..].
  - left. by exists o.
Qed.

(** Draining when nothing is owed leaves both threads waiting for each other. *)
Lemma overdrawn_deadlocks c w s :
  reachable c w s → producer s = Producer.CheckDrain → must_drain (context s) = true →
  (length (was_read s) ≤ length (was_stored s))%nat →
  reachable c w (set_producer Producer.Drain s) ∧ ¬ ∃ s', step (set_producer Producer.Drain s) s'.
Proof.
  intros Hr Hp Hm Hle. pose proof (pipeline_invariant _ _ _ Hr) as Hi.
  pose proof (accounts w s Hi) as Hacc. rewrite Hp in Hacc. specialize (Hacc ltac:(done) eq_refl eq_refl).
  assert (Hacks : acks s = []) by (apply nil_length_inv; lia).
  assert (Hwork : work s = []) by (apply nil_length_inv; lia).
  assert (Hrecv : ∃ last, writer s = Writer.Recv last).
  { destruct (writer s) as [last|x last|a|e last|last] eqn:Hw; simpl in Hacc; [by exists last|lia..|exfalso].
    pose proof (inv_acks_open _ _ Hi) as Hao. rewrite Hp in Hao.
    pose proof (inv_work_open _ _ Hi) as Hwo. rewrite Hp in Hwo. simpl in *.
    destruct (inv_done _ _ Hi last Hw Hao) as [[e He]|[_ ?]]; [|congruence].
    destruct (inv_results _ _ Hi) as (gone & Hres & Hgone).
    assert (gone = []) as ->.
    { destruct gone; [done|]. exfalso. destruct (Hgone ltac:(done)) as [f Hf]. by rewrite Hp in Hf. }
    rewrite Hres, Hacks, Hw in He. simpl in He. rewrite app_nil_r in He.
    by apply list_elem_of_fmap in He as (a & ? & _). }
  destruct Hrecv as [last Hw]. pose proof (inv_work_open _ _ Hi) as Hwo. rewrite Hp in Hwo. split.
  - eapply rtc_r; [exact Hr|]. left. unfold producer_step. by rewrite Hp, Hm.
  - intros [s' [Hs|Hs]].
    + unfold producer_step, recv_ack, writer_done in Hs. simpl in Hs. by rewrite Hacks, Hw in Hs.
    + unfold writer_step in Hs. simpl in Hs. by rewrite Hw, Hwork, Hwo in Hs.
Qed.

(** ** Termination

    Every step brings some item closer to its end. *)
Section termination.
Context (rank : C → nat).
Hypothesis rank_read : ∀ c c' item, read c = (c', Ok (Some item)) → (rank c' < rank c)%nat.
Hypothesis rank_read_end : ∀ c c' r, read c = (c', r) → (rank c' ≤ rank c)%nat.
Hypothesis rank_stored : ∀ c c' a r, stored c a = (c', r) → (rank c' ≤ rank c)%nat.

Definition producer_weight (pc : Producer.pc T A E) : nat :=
  match pc with
  | Producer.Collect => 8
  | Producer.Read => 7
  | Producer.TrySend _ => 88
  | Producer.Full _ => 87
  | Producer.CheckDrain => 10
  | Producer.Drain => 9
  | Producer.Disconnected => 6
  | Producer.Break _ => 5
  | Producer.Flush => 4
  | Producer.DropAcks _ => 3
  | Producer.Join _ => 2
  | Producer.Return _ => 0
  end.
Definition writer_weight (pc : Writer.pc T A E) : nat :=
  match pc with
  | Writer.Recv _ => 1
  | Writer.Write _ _ => 35
  | Writer.SendOk _ | Writer.SendErr _ _ => 25
  | Writer.Done _ => 0
  end.
Definition weight (s : Pipe) : nat :=
  100 * rank (context s) + producer_weight (producer s) + 40 * length (work s) +
  writer_weight (writer s) + 10 * length (acks s).

Lemma weight_writer s s' : writer_step s = Some s' → (weight s' < weight s)%nat.
Proof.
  unfold writer_step, send_ack, call_write, weight.
  destruct (writer s) as [last|item last|a|e last|last]; [| | | |done].
  - destruct (work s) as [|x l] eqn:Hwk; [destruct (work_open s); [done|]|]; intros [= <-]; simpl;
      rewrite ?Hwk; simpl; lia.
  - destruct (write (writer_state s) item) as [w [a|e]]; intros [= <-]; simpl; lia.
  - destruct (acks_open s); simpl; [case_bool_decide; [|done]|]; intros [= <-]; simpl; rewrite ?length_app; simpl; lia.
  - destruct (acks_open s); simpl; [case_bool_decide; [|done]|]; intros [= <-]; simpl; rewrite ?length_app; simpl; lia.
Qed.

Lemma weight_receive s r l next fail n :
  acks s = r :: l → (producer_weight next ≤ n)%nat → (∀ f, producer_weight (fail (Err f)) ≤ n)%nat →
  (weight (receive r next fail (set_acks l s)) + 10 + producer_weight (producer s) ≤ weight s + n)%nat.
Proof.
  intros Ha Hn Hf. unfold receive, call_stored, weight. rewrite Ha. simpl.
  destruct r as [a|e]; [|simpl; specialize (Hf (PipelineFailure.Stage e)); lia].
  destruct (stored (context s) a) as [c [u|e]] eqn:Hs; apply rank_stored in Hs; simpl; [lia|].
  specialize (Hf (PipelineFailure.Stage e)). lia.
Qed.

Lemma weight_recv_ack s s' next fail empty n :
  (producer_weight next ≤ n)%nat → (∀ f, producer_weight (fail (Err f)) ≤ n)%nat →
  (n < producer_weight (producer s) + 10)%nat → (producer_weight empty < producer_weight (producer s))%nat →
  recv_ack next fail empty s = Some s' → (weight s' < weight s)%nat.
Proof.
  intros Hn Hf Hlt He. unfold recv_ack. destruct (acks s) as [|r l] eqn:Ha.
  - destruct (writer_done s); [|done]. intros [= <-]. unfold weight. simpl. lia.
  - intros [= <-]. pose proof (weight_receive s r l next fail n Ha Hn Hf). lia.
Qed.

Lemma weight_producer s s' : producer_step s = Some s' → (weight s' < weight s)%nat.
Proof.
  unfold producer_step. destruct (producer s) as [| |item|item| | | |r| |r|r|o] eqn:Hp; [..|done].
  - destruct (acks s) as [|r l] eqn:Ha; intros [= <-].
    + unfold weight. simpl. rewrite Hp. destruct (writer_done s); simpl; lia.
    + pose proof (weight_receive s r l Producer.Collect Producer.Break 8 Ha) as Hw. rewrite Hp in Hw.
      simpl in Hw. specialize (Hw ltac:(lia) ltac:(lia)). lia.
  - unfold call_read. destruct (read (context s)) as [c r] eqn:Hr. intros [= <-]. unfold weight. simpl. rewrite Hp.
    pose proof (rank_read_end _ _ _ Hr). destruct r as [[item|]|e]; simpl; [|lia..].
    apply rank_read in Hr. lia.
  - intros [= <-]. unfold weight. destruct (writer_done s); [simpl; rewrite Hp; simpl; lia|].
    case_bool_decide; simpl; rewrite Hp, ?length_app; simpl; lia.
  - apply weight_recv_ack with (n := 88%nat); rewrite ?Hp; simpl; lia.
  - intros [= <-]. unfold weight. simpl. rewrite Hp. destruct (must_drain (context s)); simpl; lia.
  - apply weight_recv_ack with (n := 10%nat); rewrite ?Hp; simpl; lia.
  - apply weight_recv_ack with (n := 6%nat); rewrite ?Hp; simpl; lia.
  - intros [= <-]. unfold weight. simpl. rewrite Hp. destruct r; simpl; lia.
  - apply weight_recv_ack with (n := 4%nat); rewrite ?Hp; simpl; lia.
  - intros [= <-]. unfold weight. simpl. rewrite Hp. simpl. lia.
  - destruct (writer s) eqn:Hw; try done. intros [= <-]. unfold weight. simpl. rewrite Hp, Hw. simpl. lia.
Qed.

Lemma all_runs_end s : sn step s.
Proof.
  induction s as [s IH] using (induction_ltof1 _ weight). constructor. intros s' Hs. apply IH.
  unfold ltof. destruct Hs; [by apply weight_producer|by apply weight_writer].
Qed.
(** So some run returns. *)
Lemma some_run_returns c w :
  (∀ c, must_drain c = false) → ∃ s o, reachable c w s ∧ producer s = Producer.Return o.
Proof.
  intros Hnever. assert (Hnd : drains_what_is_owed c w).
  { intros s _ _ Hm. by rewrite Hnever in Hm. }
  assert (Hgo : ∀ s, sn step s → reachable c w s → ∃ s o, reachable c w s ∧ producer s = Producer.Return o).
  { intros s Hsn. induction Hsn as [s _ IH]. intros Hr.
    destruct (no_deadlock _ _ _ Hnd Hr) as [[o Ho]|[s' Hs]]; [by eauto|].
    apply (IH s' Hs). by eapply rtc_r. }
  apply (Hgo (start c w)); [apply all_runs_end|apply rtc_refl].
Qed.
End termination.

(** ** Runs without errors *)
Section without_errors.
Context (R : list T → C → Prop) (c0 : C) (w0 : W).
Hypothesis reads_start : R [] c0.
Hypothesis reads_item : ∀ l c c' item, R l c → read c = (c', Ok (Some item)) → R (l ++ [item]) c'.
Hypothesis reads_stored : ∀ l c c' a r, R l c → stored c a = (c', r) → R l c'.
Hypothesis read_succeeds : ∀ l c c' e, R l c → read c ≠ (c', Err e).
Hypothesis stored_succeeds : ∀ c c' a e, stored c a ≠ (c', Err e).
Hypothesis writes_succeed : ∀ l c items e, R l c → items `prefix_of` l → Err e ∉ (write_all w0 items).2.

Lemma results_succeed s e : reachable c0 w0 s → Err e ∉ (write_all w0 (was_written s)).2.
Proof.
  intros Hr. destruct (reachable_reads R _ _ _ reads_start reads_item reads_stored Hr) as (_ & c1 & HR & _).
  destruct (inv_fifo _ _ (pipeline_invariant _ _ _ Hr)) as (lost & Hfifo & _).
  eapply writes_succeed; [exact HR|]. rewrite Hfifo. by eexists.
Qed.

Lemma acks_succeed s r l : reachable c0 w0 s → acks s = r :: l → ∃ a, r = Ok a.
Proof.
  intros Hr Ha. destruct r as [a|e]; [by eexists|]. destruct (results_succeed _ e Hr).
  destruct (inv_results _ _ (pipeline_invariant _ _ _ Hr)) as (gone & -> & _). rewrite Ha.
  apply elem_of_app. right. apply elem_of_app. right. by left.
Qed.

Lemma receive_succeeds a next fail s : producer (receive (Ok a) next fail s) = next.
Proof.
  unfold receive, call_stored. destruct (stored (context s) a) as [c [u|e]] eqn:Hs; [done|].
  by apply stored_succeeds in Hs.
Qed.

(** While the producer holds the channel of the work, the writer goes on. *)
Lemma writer_goes_on s :
  reachable c0 w0 s → holds_work (producer s) = true → writer_done s = false.
Proof.
  intros Hr Hh. pose proof (pipeline_invariant _ _ _ Hr) as Hi.
  destruct (writer_done s) eqn:Hd; [|done]. unfold writer_done in Hd.
  destruct (writer s) as [| | | |last] eqn:Hw; try done.
  destruct (inv_done _ _ Hi last Hw) as [[e He]|[_ Hwo]].
  - rewrite (inv_acks_open _ _ Hi). by destruct (producer s).
  - by apply results_succeed in He.
  - rewrite (inv_work_open _ _ Hi) in Hwo. congruence.
Qed.

Lemma recv_ack_succeeds next fail empty s s' :
  reachable c0 w0 s → recv_ack next fail empty s = Some s' →
  producer s' = next ∨ producer s' = empty ∧ writer_done s = true.
Proof.
  intros Hr. unfold recv_ack. destruct (acks s) as [|r l] eqn:Ha.
  - destruct (writer_done s); [|done]. intros [= <-]. by right.
  - destruct (acks_succeed _ _ _ Hr Ha) as [a ->]. intros [= <-]. left. apply receive_succeeds.
Qed.

Lemma never_fails s : reachable c0 w0 s → ¬ failing (producer s).
Proof.
  intros Hr. revert s Hr. apply (rtc_ind_r (λ s, ¬ failing (producer s))); [by intros [f Hf]|].
  intros s s' Hr [Hs|Hs] IH; [|apply writer_step_producer in Hs as [-> _]; done].
  pose proof (writer_goes_on _ Hr) as Hgo. intros [f Hf]. apply IH. clear IH.
  unfold producer_step in Hs. destruct (producer s) as [| |item|item| | | |r| |r|r|o] eqn:Hp; simpl in Hgo;
    [..|done]; try (apply (recv_ack_succeeds _ _ _ _ _ Hr) in Hs as [Hs|[Hs Hd]]; rewrite Hs in Hf; simpl in Hf;
                    [done|rewrite ?Hgo in Hd by done; done]).
  - destruct (acks s) as [|r l] eqn:Ha.
    + injection Hs as <-. rewrite Hgo in Hf by done. done.
    + destruct (acks_succeed _ _ _ Hr Ha) as [a ->].
      assert (s' = receive (Ok a) Producer.Collect Producer.Break (set_acks l s)) as -> by congruence.
      by rewrite receive_succeeds in Hf.
  - destruct (reachable_reads R _ _ _ reads_start reads_item reads_stored Hr) as [HR _].
    destruct HR as [HR _]; [by rewrite Hp|]. unfold call_read in Hs.
    destruct (read (context s)) as [c' [[item|]|e]] eqn:Hread; injection Hs as <-; simpl in Hf; try done.
    by apply (read_succeeds _ _ _ _ HR) in Hread.
  - injection Hs as <-. rewrite Hgo in Hf by done. by case_bool_decide.
  - injection Hs as <-. by destruct (must_drain (context s)).
  - injection Hs as <-. destruct r as [[]|e]; [done|by exists f].
  - injection Hs as <-. by exists f.
  - destruct (writer s); try done. injection Hs as <-. by exists f.
Qed.
End without_errors.

End pipeline.

(** ** Claims *)

#[local] Instance ok_inj {E A : Type} : Inj (=) (=) (@Ok E A).
Proof. by intros a b [= ->]. Qed.

(** What the writer has done when the pipeline has returned. *)
Lemma returned_writes {C T A E W : Type} (read : C → C * result E (option T))
    (write : W → T → W * result E A) stored must_drain c w s o :
  reachable read write stored must_drain c w s → producer s = Producer.Return o →
  was_written s `prefix_of` was_read s ∧
  ∃ good bad,
    write_all write w (was_written s) = (writer_state s, (Ok <$> good) ++ bad) ∧
    (bad = [] ∨ ∃ e, bad = [Err e]) ∧ last_written o = last good ∧
    (outcome o = Ok tt →
       ended s = true ∧ was_written s = was_read s ∧ bad = [] ∧ was_stored s = good).
Proof.
  intros Hr Ho. pose proof (pipeline_invariant _ _ _ _ _ _ _ Hr) as Hi.
  pose proof (returned_last _ _ _ _ _ _ _ _ Hr Ho) as Hdone.
  destruct (inv_fifo _ _ _ Hi) as (lost & Hfifo & Hlost).
  destruct (inv_successes _ _ _ Hi) as (good & bad & Hgood & Hlast & Hbad).
  rewrite Hdone in Hfifo, Hlast. rewrite Ho in Hfifo. simpl in Hfifo, Hlast.
  split; [rewrite Hfifo; by eexists|]. exists good, bad.
  split; [rewrite <-(inv_state _ _ _ Hi), <-Hgood; apply surjective_pairing|].
  split; [naive_solver|]. split; [done|]. intros Hok.
  destruct (inv_flushed _ _ _ Hi) as (_ & _ & Hwork & Hres); [by rewrite Ho; simpl; rewrite Hok|].
  split; [apply (inv_ended _ _ _ Hi); rewrite Ho; simpl; by rewrite Hok|].
  split.
  - destruct lost as [|x lost]; [by rewrite Hfifo, Hwork, !app_nil_r|].
    destruct (Hlost ltac:(done)) as [Hd|[f Hf]]; [congruence|]. rewrite Ho in Hf. simpl in Hf. congruence.
  - rewrite Hgood in Hres. destruct Hbad as [->|[[e ->] _]].
    + rewrite app_nil_r in Hres. split; [done|]. symmetry. by apply (inj (fmap (@Ok E A))) in Hres.
    + exfalso. assert (Hin : (Err e : result E A) ∈ (Ok <$> was_stored s : list (result E A)))
        by (rewrite <-Hres; apply elem_of_app; right; by left).
      by apply list_elem_of_fmap in Hin as (a & ? & _).
Qed.

(** C20: The two threads of the bounded pipeline do what one thread would do that
    writes the items it has read one after the other: whatever the interleaving, when
    the pipeline has returned, the writes are the sequential writes of a prefix of the
    items read, all of them successful but possibly the last; [last_written] is the
    acknowledgement of the last success.  If the result is [Ok], [read] came to its end,
    every item read was written, and every acknowledgement was stored, in order. *)
Theorem pipeline_refines_sequential_writes {C T A E W : Type} (read : C → C * result E (option T))
    (write : W → T → W * result E A) stored must_drain c w s o :
  reachable read write stored must_drain c w s → producer s = Producer.Return o →
  was_written s `prefix_of` was_read s ∧
  ∃ good bad,
    write_all write w (was_written s) = (writer_state s, (Ok <$> good) ++ bad) ∧
    (bad = [] ∨ ∃ e, bad = [Err e]) ∧ last_written o = last good ∧
    (outcome o = Ok tt →
       ended s = true ∧ was_written s = was_read s ∧ bad = [] ∧ was_stored s = good).
Proof. apply returned_writes. Qed.

(** C36: The pipeline returns.  When [read] can return only finitely many more items,
    every interleaving of the two threads is finite; and no state in which the pipeline
    has not returned is stuck if and only if [must_drain] is true, where the producer
    looks at it, only while an item that was read has not been stored.  (The caller in
    this file passes a [must_drain] that is always false.) *)
Theorem pipeline_always_returns {C T A E W : Type} (read : C → C * result E (option T))
    (write : W → T → W * result E A) stored must_drain (rank : C → nat) c w :
  (∀ c c' item, read c = (c', Ok (Some item)) → (rank c' < rank c)%nat) →
  (∀ c c' r, read c = (c', r) → (rank c' ≤ rank c)%nat) →
  (∀ c c' a r, stored c a = (c', r) → (rank c' ≤ rank c)%nat) →
  sn (step read write stored must_drain) (start c w) ∧
  ((∀ s, reachable read write stored must_drain c w s →
      (∃ o, producer s = Producer.Return o) ∨ ∃ s', step read write stored must_drain s s') ↔
   (∀ s, reachable read write stored must_drain c w s → producer s = Producer.CheckDrain →
      must_drain (context s) = true → (length (was_stored s) < length (was_read s))%nat)).
Proof.
  intros H1 H2 H3. split; [by eapply all_runs_end|]. split; [|intros Hd s; by apply no_deadlock].
  intros Hgo s Hr Hp Hm. destruct (decide (length (was_stored s) < length (was_read s))%nat) as [|Hge]; [done|].
  destruct (overdrawn_deadlocks _ _ _ _ _ _ _ Hr Hp Hm ltac:(lia)) as [Hr' Hstuck].
  by destruct (Hgo _ Hr') as [[o ?]|?].
Qed.

(** The pipeline holds at most [SYNC_PIPELINE_QUEUE_DEPTH + 2] items at any time, in
    the channel, in the hands of the producer and in those of the writer, and at most
    [SYNC_PIPELINE_QUEUE_DEPTH] acknowledgements wait. *)
Theorem pipeline_is_bounded {C T A E W : Type} (read : C → C * result E (option T))
    (write : W → T → W * result E A) stored must_drain c w s :
  reachable read write stored must_drain c w s →
  (length (work s ++ writing (writer s) ++ pending (producer s)) ≤ SYNC_PIPELINE_QUEUE_DEPTH + 2)%nat ∧
  (length (acks s) ≤ SYNC_PIPELINE_QUEUE_DEPTH)%nat.
Proof.
  intros Hr. destruct (inv_bound _ _ _ (pipeline_invariant _ _ _ _ _ _ _ Hr)) as [Hw Ha].
  rewrite !length_app.
  assert (length (writing (writer s)) ≤ 1)%nat by (by destruct (writer s); simpl; lia).
  assert (length (pending (producer s)) ≤ 1)%nat by (by destruct (producer s); simpl; lia).
  lia.
Qed.

Module SamplePipeline.
(** Numbers are read from a list and added up; a negative number cannot be written. *)
Definition read (c : list Z) : list Z * result string (option Z) :=
  match c with
  | [] => ([], Ok None)
  | x :: c => (c, Ok (Some x))
  end.
Definition write (w x : Z) : Z * result string Z :=
  if x <? 0 then (w, Err "negative"%string) else (w + x, Ok (w + x)).
Definition stored (c : list Z) (a : Z) : list Z * result string unit := (c, Ok tt).
Definition must_drain (c : list Z) : bool := false.

Abbreviation run := (run_schedule read write stored must_drain).
(** The producer takes ten steps, then the threads take turns. *)
Definition schedule : list bool := replicate 10 true ++ concat (replicate 60 [false; true]).
Definition final : Pipe := run schedule (start [1; 2; 3; 4; 5; 6] 0).
Definition final_failed : Pipe := run schedule (start [1; 2; -3; 4; 5; 6] 0).

Lemma final_reachable : reachable read write stored must_drain [1; 2; 3; 4; 5; 6] 0 final.
Proof. apply run_schedule_steps. Qed.

Lemma pipeline_refines_sequential_writes_witness :
  was_written final `prefix_of` was_read final ∧
  ∃ good bad,
    write_all write 0 (was_written final) = (writer_state final, (Ok <$> good) ++ bad) ∧
    (bad = [] ∨ ∃ e, bad = [Err e]) ∧ Some 21 = last good ∧
    ((Ok tt : result (PipelineFailure string) unit) = Ok tt →
       ended final = true ∧ was_written final = was_read final ∧ bad = [] ∧ was_stored final = good).
Proof.
  exact (pipeline_refines_sequential_writes read write stored must_drain [1; 2; 3; 4; 5; 6] 0 final
    {| outcome := Ok tt; last_written := Some 21 |} final_reachable eq_refl).
Defined.

(** The third write fails: two were acknowledged, the fourth item was read in vain. *)
Example failed_run :
  producer final_failed = Producer.Return
    {| outcome := Err (PipelineFailure.Stage "negative"%string); last_written := Some 3 |} ∧
  was_written final_failed = [1; 2; -3] ∧ was_read final_failed = [1; 2; -3; 4].
Proof. by vm_compute. Qed.

(** As the caller uses it, the pipeline always returns. *)
Lemma pipeline_always_returns_witness :
  sn (step read write stored must_drain) (start [1; 2; 3; 4; 5; 6] 0) ∧
  ∀ s, reachable read write stored must_drain [1; 2; 3; 4; 5; 6] 0 s →
    (∃ o, producer s = Producer.Return o) ∨ ∃ s', step read write stored must_drain s s'.
Proof.
  destruct (pipeline_always_returns read write stored must_drain (@length Z) [1; 2; 3; 4; 5; 6] 0)
    as [Hsn Hiff].
  - intros [|x c] c' item [=]; subst; simpl. lia.
  - intros [|x c] c' r [=]; subst; simpl; lia.
  - by intros c c' a r [=]; subst.
  - split; [exact Hsn|]. apply Hiff. by intros s _ _ [=].
Defined.

(** A caller that always asks for an acknowledgement stops both threads for good. *)
Example overdrawn_run :
  let s := run_schedule read write stored (λ _, true)
             [true; true; true; true; false; false; false; true; true] (start [1; 2] 0) in
  producer s = Producer.Drain ∧ writer s = Writer.Recv (Some 1) ∧
  producer_step read stored (λ _, true) s = None ∧ writer_step write s = None.
Proof. by vm_compute. Qed.

Lemma pipeline_is_bounded_witness :
  (length (work final ++ writing (writer final) ++ pending (producer final)) ≤ 5)%nat ∧
  (length (acks final) ≤ 3)%nat.
Proof.
  exact (pipeline_is_bounded read write stored must_drain [1; 2; 3; 4; 5; 6] 0 final final_reachable).
Defined.
End SamplePipeline.
