(* ===== verification/SyncStream.v ===== *)
(** * Sync streams: src/device/kindlebridged/src/sync_stream.rs

    One [sync.v1] stream from its opening metadata to its end.  A push runs the bounded
    pipeline of [Pipeline.v] between the stream and the staging file of
    [SyncStore.v]; because the pipeline's threads interleave, what a push does is a
    relation ([push_outcome]) and the rest are functions.

    The stream is the connection actor's [Stream]: the answers to the calls on it are
    given by a script.  serde_json is a parameter.  The hash worker takes each payload
    from the writer by rendezvous and does nothing else: it is the bytes it has
    absorbed. *)

From S2P Require Import Prelude Text WireFrame Actor BundleError Paths Utf8 Files FileHandles Rpc SyncStore Pipeline.
Local Open Scope Z_scope.

Definition MAX_SYNC_BLOCK_SIZE : Z := 1024 * 1024.

(** ** Errors *)

(** [Display] of the errors that are sent to the host. *)
Definition show_path_error (e : LogicalSyncPathError) : bytes :=
  text match e with
       | NotRelative => "path must be non-empty, relative, and use forward slashes"
       | TooLong => "path exceeds 1024 UTF-8 bytes"
       | ComponentTooLong => "path component exceeds 255 UTF-8 bytes"
       | InvalidComponent => "path contains an empty, dot, or dot-dot component"
       | ControlCharacter => "path contains a control character"
       | NotNfc => "path is not Unicode NFC"
       end.

(** [StoreError::into_rpc]. *)
Definition into_rpc (e : StoreError) : RpcError :=
  match e with
  | StoreError.Path e => invalid_params (show_path_error e)
  | StoreError.InvalidHash => invalid_params (text "invalid BLAKE3 digest")
  | StoreError.InvalidTransferId => invalid_params (text "invalid transfer id")
  | StoreError.InvalidListLimit =>
      invalid_params (text "directory list limit must be between 1 and 1024")
  | StoreError.TransferNotFound id =>
      with_data "transfer_id" id (rpc_new error_codes.TRANSFER_NOT_FOUND "Transfer not found")
  | StoreError.FileNotFound path =>
      with_data "remote_path" (utf8 path) (rpc_new error_codes.FILE_NOT_FOUND "File not found")
  | StoreError.ChecksumMismatch => rpc_new error_codes.CHECKSUM_MISMATCH "Checksum mismatch"
  | StoreError.MetadataMismatch =>
      with_data "detail" (text "transfer metadata does not match")
        (rpc_new error_codes.INVALID_STATE "Invalid sync state")
  | StoreError.UnsafePath =>
      with_data "detail" (text "unsafe path component")
        (rpc_new error_codes.INVALID_STATE "Invalid sync state")
  | StoreError.InvalidState m =>
      with_data "detail" (text "invalid state: " ++ text m)
        (rpc_new error_codes.INVALID_STATE "Invalid sync state")
  | StoreError.DirectoryTooLarge =>
      rpc_new error_codes.INVALID_STATE "Directory exceeds the supported entry limit"
  | StoreError.Io _ | StoreError.Json | StoreError.SizeOverflow => internal_error
  end.

(** The part of [ServerError] a sync stream returns. *)
Module ServerError.
Inductive ServerError : Type :=
| Json
| Sync (error : StoreError)
| Connection (error : ConnectionError)
| InvalidPayload (label : string)
| UnexpectedFrame (message : string).
End ServerError.
Abbreviation ServerError := ServerError.ServerError.

(** ** Messages *)

Inductive SyncRequest : Type :=
| Push (transfer_id : option bytes) (remote_path : str) (total_size : Z) (file_hash : bytes)
    (block_size : Z)
| Pull (transfer_id : option bytes) (remote_path : str) (offset : Z) (block_size : Z).

Inductive SyncReply : Type :=
| Ready (transfer_id : bytes) (offset total_size : Z) (file_hash : bytes)
| Complete (transfer_id : bytes) (next_offset total_size : Z)
| Failure (error : RpcError).

(** [serde_json] on the messages. *)
Class SyncJson := {
  encode_reply : SyncReply → option bytes;
  decode_request : bytes → option SyncRequest;
}.

(** ** The stream *)

Record ServiceStream : Type := {
  (** What [recv] returns next; after that the connection is gone. *)
  incoming : list (result ConnectionError Frame);
  (** What the next calls of [send_data], [close] and [reset] return; [None] is [Ok]. *)
  answers : list (option ConnectionError);
  (** What was sent: DATA with its END_STREAM flag, then the end of the stream. *)
  outgoing : list (bytes * bool);
  closed : bool;
  reset_with : option bytes;
}.

Definition set_incoming (l : list (result ConnectionError Frame)) (s : ServiceStream) : ServiceStream :=
  {| incoming := l; answers := answers s; outgoing := outgoing s; closed := closed s;
     reset_with := reset_with s |}.
Definition set_answers (l : list (option ConnectionError)) (s : ServiceStream) : ServiceStream :=
  {| incoming := incoming s; answers := l; outgoing := outgoing s; closed := closed s;
     reset_with := reset_with s |}.
Definition add_outgoing (p : bytes * bool) (s : ServiceStream) : ServiceStream :=
  {| incoming := incoming s; answers := answers s; outgoing := outgoing s ++ [p]; closed := closed s;
     reset_with := reset_with s |}.
Definition set_closed (s : ServiceStream) : ServiceStream :=
  {| incoming := incoming s; answers := answers s; outgoing := outgoing s; closed := true;
     reset_with := reset_with s |}.
Definition set_reset (reason : bytes) (s : ServiceStream) : ServiceStream :=
  {| incoming := incoming s; answers := answers s; outgoing := outgoing s; closed := closed s;
     reset_with := Some reason |}.

Abbreviation stream_op A := (M ServiceStream ServerError A).

(** The errors of the calls become errors of the caller. *)
Class FromConnection (E : Type) := from_connection : ConnectionError → E.
#[export] Instance server_from_connection : FromConnection ServerError := ServerError.Connection.

Section stream_calls.
Context {E : Type} `{FromConnection E}.
Definition recv : M ServiceStream E Frame := λ s,
  match incoming s with
  | [] => (s, Err (from_connection ConnectionError.Disconnected))
  | Ok f :: l => (set_incoming l s, Ok f)
  | Err e :: l => (set_incoming l s, Err (from_connection e))
  end.
Definition answer (f : ServiceStream → ServiceStream) : M ServiceStream E unit := λ s,
  match answers s with
  | Some e :: l => (set_answers l s, Err (from_connection e))
  | None :: l => (f (set_answers l s), Ok tt)
  | [] => (f s, Ok tt)
  end.
Definition send_data (payload : bytes) (end_stream : bool) : M ServiceStream E unit :=
  answer (add_outgoing (payload, end_stream)).
Definition close : M ServiceStream E unit := answer set_closed.
Definition reset (reason : string) : M ServiceStream E unit := answer (set_reset (text reason)).
End stream_calls.

(** [actor_data]. *)
Definition actor_data : stream_op Frame :=
  let! f := recv in
  if bool_decide (command (header f) ≠ Command.Data)
  then mfail (ServerError.UnexpectedFrame "expected DATA on actor service stream")
  else mret f.

Section sync_stream.
Context `{PointerWidth, DirOrder, ReadSize, MetadataJson, SyncJson}.
Context (blake3 : bytes → bytes) (hash_from_hex : bytes → option bytes) (nfc : str → str).
Context (link_resolves : path → bool).

(** [stream.send_data(encode(&reply)?, ..)?]. *)
Definition send_reply (r : SyncReply) (end_stream : bool) : stream_op unit :=
  let! bs := mlift (ok_or (encode_reply r) ServerError.Json) in
  send_data bs end_stream.

Definition fail (e : RpcError) : stream_op unit :=
  do! send_reply (Failure e) true in
  close.

(** ** Push *)

Record ReceiveContext : Type := {
  receive_stream : ServiceStream;
  receive_block_size : Z;
  end_stream_received : bool;
}.

(** The closures given to the pipeline. *)
Definition push_read (c : ReceiveContext) : ReceiveContext * result ServerError (option bytes) :=
  if end_stream_received c then (c, Ok None)
  else
    let '(stream, r) := actor_data (receive_stream c) in
    let c' last := {| receive_stream := stream; receive_block_size := receive_block_size c;
                      end_stream_received := last |} in
    match r with
    | Err e => (c' false, Err e)
    | Ok f =>
        if receive_block_size c <? len (payload f)
        then (c' false, Err (ServerError.UnexpectedFrame "sync DATA exceeds negotiated block size"))
        else (c' (has_end_stream (header f)), Ok (Some (payload f)))
    end.

(** What the writer owns: the disk and the transfer, and the hash worker. *)
Record PushWriter : Type := {
  written_to : Disk * PushTransfer;
  hashed : bytes;
}.
Definition push_write (w : PushWriter) (payload : bytes) : PushWriter * result ServerError Z :=
  let frame_start := push_offset (written_to w).2 in
  let '(s, r) := write_chunk_without_hash payload (written_to w) in
  ({| written_to := s; hashed := hashed w ++ payload |},
   match r with
   | Ok _ => Ok frame_start
   | Err e => Err (ServerError.Sync e)
   end).
Definition push_stored (c : ReceiveContext) (a : Z) : ReceiveContext * result ServerError unit := (c, Ok tt).
Definition push_must_drain (c : ReceiveContext) : bool := false.

Abbreviation push_pipe := (Pipe (C := ReceiveContext) (T := bytes) (A := Z) (E := ServerError) (W := PushWriter)).
(** A run of the pipeline that has returned. *)
Definition received (block_size : Z) (s : Disk * PushTransfer) (stream : ServiceStream)
    (p : push_pipe) (o : PipelineOutcome Z ServerError) : Prop :=
  reachable push_read push_write push_stored push_must_drain
    {| receive_stream := stream; receive_block_size := block_size; end_stream_received := false |}
    {| written_to := s; hashed := hasher s.2 |} p ∧
  producer p = Producer.Return o.

Definition receive_error (f : PipelineFailure ServerError) : ServerError :=
  match f with
  | PipelineFailure.Stage e => e
  | PipelineFailure.WorkerStopped =>
      ServerError.UnexpectedFrame "sync storage worker stopped before the transfer completed"
  | PipelineFailure.WorkerPanicked => ServerError.UnexpectedFrame "sync storage worker panicked"
  end.

(** The state of a stream that is served: the disk and the stream. *)
Abbreviation served := (Disk * ServiceStream)%type.
Abbreviation serve_op A := (M served ServerError A).
Definition on_stream {A} (m : stream_op A) : serve_op A := zoom snd (λ st s, (s.1, st)) m.

(** What is done with the status of [finish]. *)
Definition push_reply (r : result StoreError SyncStatus) : stream_op unit :=
  match r with
  | Err e => fail (into_rpc e)
  | Ok st =>
      do! send_reply (Complete (status_transfer_id st) (status_next_offset st) (status_total_size st)) true in
      close
  end.

(** After the pipeline has returned: finish the transfer, or leave it where it can be
    resumed. *)
Definition push_received (p : push_pipe) (o : PipelineOutcome Z ServerError) :
    served * result ServerError unit :=
  let stream := receive_stream (context p) in
  match outcome o with
  | Ok _ =>
      let '(s, r) := finish_with_digest nfc link_resolves (blake3 (hashed (writer_state p)))
                       (written_to (writer_state p)) in
      let '(stream, r) := push_reply r stream in
      ((s.1, stream), r)
  | Err f =>
      let '(s, r) := (match last_written o with
                      | Some offset => rollback_for_resume offset
                      | None => push_checkpoint
                      end) (written_to (writer_state p)) in
      ((s.1, stream), Err (match r with
                           | Ok _ => receive_error f
                           | Err e => ServerError.Sync e
                           end))
  end.

(** A push of a file that is complete already: only an empty last frame is accepted.
    [Ok true] is the end of the stream, [Ok false] a reset. *)
Fixpoint await_end (n : nat) (block_size : Z) : stream_op bool :=
  match n with
  | O => mfail (ServerError.Connection ConnectionError.Disconnected)
  | S n =>
      let! f := actor_data in
      if block_size <? len (payload f) then
        do! reset "sync DATA exceeds negotiated block size" in mret false
      else if negb (bool_decide (payload f = [])) then
        do! reset "completed sync push accepts only an empty final DATA" in mret false
      else if has_end_stream (header f) then mret true
      else await_end n block_size
  end.

Definition push_ready (tr : PushTransfer) : SyncReply :=
  let m := push_metadata tr in
  Ready (transfer_id m) (next_offset m) (total_size m) (file_hash m).

Definition push_outcome (block_size : Z) (tr : PushTransfer) (s : served)
    (result : served * result ServerError unit) : Prop :=
  match send_reply (push_ready tr) false s.2 with
  | (stream, Err e) => result = ((s.1, stream), Err e)
  | (stream, Ok _) =>
      if is_complete tr then
        match await_end (S (length (incoming stream))) block_size stream with
        | (stream, Err e) => result = ((s.1, stream), Err e)
        | (stream, Ok false) => result = ((s.1, stream), Ok tt)
        | (stream, Ok true) =>
            let '(d, r) := push_finish blake3 nfc link_resolves (s.1, tr) in
            let '(stream, r) := push_reply r stream in
            result = ((d.1, stream), r)
        end
      else
        ∃ p o, received block_size (s.1, tr) stream p o ∧ result = push_received p o
  end.

(** ** Pull

    A reader thread fills a bounded channel of chunks, which are sent as they come. *)

(** One round of the reader: a chunk and whether it is the last one. *)
Definition next_chunk (block_size : nat) (s : Disk * PullTransfer) :
    (Disk * PullTransfer) * result ServerError (bytes * bool) :=
  let '(s, r) := read_chunk block_size s in
  match r with
  | Err e => (s, Err (ServerError.Sync e))
  | Ok data =>
      if bool_decide (data = [])
      then (s, Err (ServerError.UnexpectedFrame "sync source ended before declared size"))
      else
        let is_last := pull_offset s.2 =? total_size (pull_metadata s.2) in
        let '(s, r) := if is_last
                       then (let! _ := pull_finish in mret tt) s
                       else checkpoint_if_due s in
        (s, match r with
            | Ok _ => Ok (data, is_last)
            | Err e => Err (ServerError.Sync e)
            end)
  end.

Inductive ReaderPc : Type :=
| ReadNext
| SendChunk (item : result ServerError (bytes * bool))
| ReaderDone.
Inductive SenderPc : Type :=
| RecvChunk
| SendFrame (chunk : bytes * bool)
| DropChunks (r : result ServerError unit)
| JoinReader (r : result ServerError unit)
| PullReturn (r : result ServerError unit).

Record PullPipe : Type := {
  pull_source : Disk * PullTransfer;
  chunks : list (result ServerError (bytes * bool));
  chunks_open : bool;
  reader : ReaderPc;
  sender : SenderPc;
  pull_stream : ServiceStream;
}.

Definition set_reader (pc : ReaderPc) (p : PullPipe) : PullPipe :=
  {| pull_source := pull_source p; chunks := chunks p; chunks_open := chunks_open p; reader := pc;
     sender := sender p; pull_stream := pull_stream p |}.
Definition set_sender (pc : SenderPc) (p : PullPipe) : PullPipe :=
  {| pull_source := pull_source p; chunks := chunks p; chunks_open := chunks_open p;
     reader := reader p; sender := pc; pull_stream := pull_stream p |}.
Definition set_chunks (l : list (result ServerError (bytes * bool))) (p : PullPipe) : PullPipe :=
  {| pull_source := pull_source p; chunks := l; chunks_open := chunks_open p;
     reader := reader p; sender := sender p; pull_stream := pull_stream p |}.

(** After a chunk that is the last one, or an error, the reader returns. *)
Definition is_final (item : result ServerError (bytes * bool)) : bool :=
  match item with
  | Ok (_, is_last) => is_last
  | Err _ => true
  end.

Definition reader_step (block_size : nat) (p : PullPipe) : option PullPipe :=
  match reader p with
  | ReadNext =>
      let '(s, item) := next_chunk block_size (pull_source p) in
      Some {| pull_source := s; chunks := chunks p; chunks_open := chunks_open p;
              reader := SendChunk item; sender := sender p; pull_stream := pull_stream p |}
  | SendChunk item =>
      if negb (chunks_open p) then Some (set_reader ReaderDone p)
      else if bool_decide (length (chunks p) < SYNC_PIPELINE_QUEUE_DEPTH)%nat
      then Some (set_reader (if is_final item then ReaderDone else ReadNext)
                   (set_chunks (chunks p ++ [item]) p))
      else None
  | ReaderDone => None
  end.

Definition sender_step (p : PullPipe) : option PullPipe :=
  match sender p with
  | RecvChunk =>
      match chunks p with
      | Ok chunk :: l => Some (set_sender (SendFrame chunk) (set_chunks l p))
      | Err e :: l => Some (set_sender (DropChunks (Err e)) (set_chunks l p))
      | [] =>
          match reader p with
          | ReaderDone =>
              Some (set_sender (DropChunks (Err (ServerError.UnexpectedFrame
                "sync storage reader stopped before the transfer completed"))) p)
          | _ => None
          end
      end
  | SendFrame chunk =>
      let '(stream, r) := send_data chunk.1 chunk.2 (pull_stream p) in
      Some {| pull_source := pull_source p; chunks := chunks p; chunks_open := chunks_open p;
              reader := reader p;
              sender := match r with
                        | Err e => DropChunks (Err e)
                        | Ok _ => if chunk.2 then DropChunks (Ok tt) else RecvChunk
                        end;
              pull_stream := stream |}
  | DropChunks r =>
      Some {| pull_source := pull_source p; chunks := []; chunks_open := false; reader := reader p;
              sender := JoinReader r; pull_stream := pull_stream p |}
  | JoinReader r =>
      match reader p with
      | ReaderDone => Some (set_sender (PullReturn r) p)
      | _ => None
      end
  | PullReturn _ => None
  end.

Inductive pull_step (block_size : nat) (p p' : PullPipe) : Prop :=
| pull_step_reader : reader_step block_size p = Some p' → pull_step block_size p p'
| pull_step_sender : sender_step p = Some p' → pull_step block_size p p'.

Definition pull_start (s : Disk * PullTransfer) (stream : ServiceStream) : PullPipe :=
  {| pull_source := s; chunks := []; chunks_open := true; reader := ReadNext; sender := RecvChunk;
     pull_stream := stream |}.
(** A run that has returned. *)
Definition pulled (block_size : nat) (s : Disk * PullTransfer) (stream : ServiceStream) (p : PullPipe)
    (r : result ServerError unit) : Prop :=
  rtc (pull_step block_size) (pull_start s stream) p ∧ sender p = PullReturn r.

Definition pull_ready (tr : PullTransfer) : SyncReply :=
  let m := pull_metadata tr in
  Ready (transfer_id m) (next_offset m) (total_size m) (file_hash m).

(** [stream.close()?; Ok(())] after the data. *)
Definition pull_closed (d : Disk) (r : result ServerError unit) (stream : ServiceStream) :
    served * result ServerError unit :=
  match r with
  | Ok _ => let '(stream, r) := close stream in ((d, stream), r)
  | Err e => ((d, stream), Err e)
  end.

Definition pull_outcome (block_size : Z) (tr : PullTransfer) (s : served)
    (result : served * result ServerError unit) : Prop :=
  match send_reply (pull_ready tr) false s.2 with
  | (stream, Err e) => result = ((s.1, stream), Err e)
  | (stream, Ok _) =>
      if pull_offset tr =? total_size (pull_metadata tr) then
        match pull_finish (s.1, tr) with
        | (d, Err e) => result = ((d.1, stream), Err (ServerError.Sync e))
        | (d, Ok _) =>
            let '(stream, r) := send_data [] true stream in
            result = pull_closed d.1 r stream
        end
      else
        ∃ p r, pulled (Z.to_nat block_size) (s.1, tr) stream p r ∧
               result = pull_closed (pull_source p).1 r (pull_stream p)
  end.

(** ** [serve], from the stream that was accepted on *)

Definition request_block_size (r : SyncRequest) : Z :=
  match r with
  | Push _ _ _ _ block_size | Pull _ _ _ block_size => block_size
  end.

(** [fail(&stream, error)]. *)
Definition failed (e : RpcError) (s : served) : served * result ServerError unit :=
  on_stream (fail e) s.

Definition serve_request (now : Z) (end_stream : bool) (request : SyncRequest) (s : served)
    (result : served * result ServerError unit) : Prop :=
  if (request_block_size request =? 0) || (MAX_SYNC_BLOCK_SIZE <? request_block_size request)
  then result = failed (invalid_params (text "block_size must be between 1 and 1048576")) s
  else
    match request with
    | Push id path size hash block_size =>
        if end_stream
        then result = failed (invalid_params (text "push metadata must not end the stream")) s
        else
          match begin_push blake3 hash_from_hex nfc now id path size hash s.1 with
          | (d, Ok tr) => push_outcome block_size tr (d, s.2) result
          | (d, Err e) => result = failed (into_rpc e) (d, s.2)
          end
    | Pull id path offset block_size =>
        if negb end_stream
        then result = failed (invalid_params (text "pull metadata must end the stream")) s
        else
          match begin_pull blake3 nfc now id path offset s.1 with
          | (d, Ok tr) => pull_outcome block_size tr (d, s.2) result
          | (d, Err e) => result = failed (into_rpc e) (d, s.2)
          end
    end.

Definition serve (now : Z) (s : served) (result : served * result ServerError unit) : Prop :=
  match on_stream actor_data s with
  | (s, Err e) => result = (s, Err e)
  | (s, Ok f) =>
      match decode_request (payload f) with
      | None => result = (s, Err (ServerError.InvalidPayload "sync request"))
      | Some request => serve_request now (has_end_stream (header f)) request s result
      end
  end.

End sync_stream.
