(* ===== verification/SyncResume.v ===== *)
(** * Pushes that are interrupted

    A push goes through any number of sync streams, each of which may be cut short at any
    point: by a connection that fails, a frame that is not accepted, an I/O error or a
    stop of the daemon.  The staging file always holds a beginning of the file, and a stream
    that is not disturbed completes the push. *)

From S2P Require Import Prelude Text WireFrame Actor BundleError Paths Utf8 Files FileHandles Rpc SyncStore SyncPush Pipeline SyncStream.
Local Open Scope Z_scope.

(** The file bytes of the frames that a stream will deliver. *)
Definition data_of (l : list (result ConnectionError Frame)) : list bytes :=
  omap (λ r, match r with Ok f => Some (payload f) | Err _ => None end) l.

(** Where the frames [l] begin in a file, the first one at [n]. *)
Fixpoint starts (n : Z) (l : list bytes) : list Z :=
  match l with
  | [] => []
  | f :: l => n :: starts (n + len f) l
  end.

Lemma last_starts n l off : last (starts n l) = Some off → n ≤ off ≤ n + len (concat l).
Proof.
  revert n. induction l as [|f l IH]; intros n; [done|]. simpl.
  pose proof (len_nonneg f). pose proof (len_nonneg (concat l)). rewrite len_app.
  destruct (starts (n + len f) l) as [|x k] eqn:Hs.
  - intros [= <-]. lia.
  - intros Hl. specialize (IH (n + len f)). rewrite Hs in IH. specialize (IH Hl). lia.
Qed.

Section one_transfer.
Context `{PointerWidth, DirOrder, ReadSize, MetadataJson, !JsonLaws, SyncJson}.
Context (blake3 : bytes → bytes) (hash_from_hex : bytes → option bytes) (nfc : str → str).
Context (link_resolves : path → bool).
(** The transfer, and the tree before it began. *)
Context (id : bytes) (logical : str) (size : Z) (hash : bytes) (t0 : gmap path Node).
Implicit Types (t : gmap path Node) (c : bytes).

Hypothesis target_outside : outside (target logical).
Hypothesis size_u64 : u64 size.

Abbreviation progress := (in_progress id logical size hash t0).
Abbreviation finished := (committed id logical size hash t0).
Abbreviation opened := (open_push id logical size hash).
Abbreviation usable := (still_open id logical size hash).

(** ** The writer *)

(** The frames given to the writer, one after the other. *)
Lemma push_writes frames c w w' rs good bad :
  progress c (tree (written_to w).1) → opened c (written_to w).2 →
  write_all push_write w frames = (w', rs) →
  rs = (Ok <$> good) ++ bad → bad = [] ∨ (∃ e, bad = [Err e]) →
  let kept := take (length good) frames in
  hashed w' = hashed w ++ concat frames ∧ good = starts (len c) kept ∧
  usable (len (c ++ concat kept)) (written_to w').2 ∧
  ∃ part, part `prefix_of` concat (drop (length good) frames) ∧
    progress (c ++ concat kept ++ part) (tree (written_to w').1) ∧
    (bad = [] → kept = frames ∧ part = [] ∧ opened (c ++ concat frames) (written_to w').2).
Proof.
  revert c w good rs. induction frames as [|f frames IH]; intros c w good rs Hp Ho Hrun Hrs Hbad kept.
  - simpl in Hrun. injection Hrun as <- <-. destruct good; [|done]. simpl in Hrs. subst bad kept.
    simpl. rewrite !app_nil_r. split_and!; try done.
    + by eapply open_still_open.
    + exists []. rewrite app_nil_r. done.
  - simpl in Hrun. unfold push_write at 1 in Hrun.
    pose proof (hoare_write_chunk_without_hash id logical size hash t0 target_outside c
      (hasher (written_to w).2) f size_u64 (written_to w) (conj Hp (conj Ho eq_refl))) as Hw.
    destruct (write_chunk_without_hash f (written_to w)) as [s [[]|e]].
    + destruct Hw as (Hp1 & Ho1 & _).
      destruct (write_all push_write _ frames) as [w2 rs2] eqn:Hrest. injection Hrun as <- <-.
      destruct good as [|g good]; simpl in Hrs.
      { destruct Hbad as [->|[e ->]]; [done|]. by destruct rs2. }
      injection Hrs as Hg Hrs.
      destruct (IH (c ++ f) {| written_to := s; hashed := hashed w ++ f |} good rs2 Hp1 Ho1 Hrest Hrs Hbad)
        as (Hh & Hgood & Hus & part & Hpart & Hp2 & Hok).
      subst kept. simpl in *. rewrite <-!app_assoc in *. rewrite len_app in Hgood.
      unfold push_offset in Hg. rewrite (open_offset _ _ _ _ _ _ Ho) in Hg. split_and!; try done.
      * rewrite <-Hg. by f_equal.
      * exists part. rewrite <-app_assoc. split_and!; [done..|]. intros Hb.
        destruct (Hok Hb) as (-> & -> & ?). done.
    + destruct Hw as (part & Hpart & Hp1 & Hus).
      destruct (write_all push_write _ frames) as [w2 rs2] eqn:Hrest. injection Hrun as <- <-.
      destruct good as [|g good]; simpl in Hrs; [|done].
      destruct Hbad as [->|[e' ->]]; [done|]. injection Hrs as _ ->.
      destruct frames as [|f' frames]; [|simpl in Hrest; repeat case_match; congruence].
      simpl in Hrest. injection Hrest as <-. subst kept. simpl. rewrite !app_nil_r in *.
      split_and!; try done. exists part. done.
Qed.

(** ** The reader *)

Lemma push_read_item (k k' : ReceiveContext) item :
  push_read k = (k', Ok (Some item)) →
  data_of (incoming (receive_stream k)) = item :: data_of (incoming (receive_stream k')).
Proof.
  unfold push_read, actor_data, recv, mbnd. destruct (end_stream_received k); [done|].
  destruct (incoming (receive_stream k)) as [|[f|e] l]; simpl; [done| |done].
  case_bool_decide; simpl; [done|]. case_match; [done|]. by intros [= <- <-].
Qed.

Lemma received_reads block_size s stream p o :
  received block_size s stream p o → ∃ rest, data_of (incoming stream) = was_read p ++ rest.
Proof.
  intros [Hr _]. eapply (reachable_reads _ _ _ _
    (λ l (k : ReceiveContext), data_of (incoming stream) = l ++ data_of (incoming (receive_stream k)))) in Hr
    as (_ & c0 & Hc0 & _).
  - by eexists.
  - done.
  - intros l k k' item Hl Hread. rewrite Hl, (push_read_item _ _ _ Hread), <-app_assoc. done.
  - by intros l k k' a r Hl [= <- _].
Qed.

(** ** One stream *)

(** What the staging file may hold: a property of contents that goes over to every
    beginning of them. *)
Context (Good : bytes → Prop).
Hypothesis good_prefix : ∀ c c', c `prefix_of` c' → Good c' → Good c.

(** The transfer is in progress, or its file is in place with the digest and the size
    announced. *)
Definition kept t : Prop :=
  (∃ c, Good c ∧ progress c t) ∨
  (∃ s c, Good c ∧ finished s c t ∧ len c = size ∧ bytes_hex (blake3 c) = hash).

Lemma take_prefix (n : nat) c : take n c `prefix_of` c.
Proof. exists (drop n c). by rewrite take_drop. Qed.

Lemma push_received_keeps block_size c d tr stream p o :
  progress c (tree d) → opened c tr → hasher tr = c → Good (c ++ concat (data_of (incoming stream))) →
  received block_size (d, tr) stream p o →
  kept (tree (push_received blake3 nfc link_resolves p o).1.1).
Proof.
  intros Hp Ho Hh Hgood Hrec. destruct (received_reads _ _ _ _ _ Hrec) as [rest Hrest].
  destruct Hrec as [Hr Hret].
  destruct (returned_writes _ _ _ _ _ _ _ _ Hr Hret)
    as ([unwritten Hw] & good & bad & Hall & Hbad & Hlast & Hok).
  destruct (push_writes _ c {| written_to := (d, tr); hashed := hasher tr |} _ _ good bad Hp Ho Hall eq_refl Hbad)
    as (Hhash & Hstarts & Hus & part & Hpart & Hprog & Hdone). simpl in Hhash. rewrite Hh in Hhash.
  set (frames := was_written p) in *.
  assert (Hall_good : ∀ x, x `prefix_of` c ++ concat frames → Good x).
  { intros x Hx. eapply good_prefix; [|exact Hgood]. etrans; [exact Hx|].
    rewrite Hrest, Hw, !concat_app. apply prefix_app, prefix_app_r, prefix_app_r. done. }
  assert (Hsplit : concat (take (length good) frames) ++ part `prefix_of` concat frames).
  { rewrite <-(take_drop (length good) frames) at 2. rewrite concat_app. by apply prefix_app. }
  set (content := c ++ concat (take (length good) frames) ++ part) in *.
  assert (Hcontent : Good content) by (by apply Hall_good, prefix_app).
  unfold push_received. destruct (outcome o) as [[]|f] eqn:Hout.
  - destruct (Hok eq_refl) as (_ & _ & -> & _). destruct (Hdone eq_refl) as (Hk & -> & Hopen).
    unfold content in *. rewrite Hk, app_nil_r in *. rewrite Hhash.
    pose proof (hoare_finish_with_digest nfc link_resolves id logical size hash t0 target_outside
      (c ++ concat frames) (blake3 (c ++ concat frames)) size_u64 _ (conj Hprog Hopen)) as Hf.
    destruct (finish_with_digest _ _ _ _) as [s [st|e]].
    + destruct Hf as (Hc & Hx & Hl & _). destruct (push_reply (Ok st) _) as [stream' r]. simpl.
      right. eexists _, _. done.
    + destruct (push_reply (Err e) _) as [stream' r]. simpl.
      destruct Hf as [Hf|[Hf|(s' & Hf & Hl & Hx)]].
      * left. by eexists.
      * left. exists []. split; [|done]. apply Hall_good, prefix_nil.
      * right. by eexists _, _.
  - pose proof (len_nonneg c) as Hc0. destruct (last_written o) as [off|].
    + symmetry in Hlast. rewrite Hstarts in Hlast. apply last_starts in Hlast.
      rewrite <-len_app in Hlast.
      pose proof (hoare_push_rollback id logical size hash t0 target_outside content _ _ off size_u64 Hus
        ltac:(lia) ltac:(unfold content; rewrite app_assoc, len_app; pose proof (len_nonneg part); lia)
        _ (conj Hprog eq_refl)) as Hroll.
      destruct (rollback_for_resume off _) as [s [[]|e]]; simpl.
      * left. eexists. split; [|exact Hroll]. eapply good_prefix; [apply take_prefix|done].
      * left. destruct Hroll as [Hroll|Hroll]; eexists; (split; [|exact Hroll]); [done|].
        eapply good_prefix; [apply take_prefix|done].
    + pose proof (hoare_push_checkpoint id logical size hash t0 target_outside content _ _ size_u64 Hus
        _ (conj Hprog eq_refl)) as Hcp.
      destruct (push_checkpoint _) as [s [[]|e]]; simpl; left; exists content; by destruct Hcp.
Qed.

(** Beginning a push whose file is in place: it is complete, or cannot go on. *)
Lemma hoare_begin_finished now s c :
  hoare (λ d, finished s c (tree d)) (begin_push blake3 hash_from_hex nfc now (Some id) logical size hash)
    (λ tr d, finished s c (tree d) ∧ is_complete tr = true ∧ transfer_id (push_metadata tr) = id)
    (λ d, finished s c (tree d)).
Proof.
  apply hoare_any. intros d0 Hc. set (t := tree d0) in *.
  apply hoare_pre with (P' := on_tree t); [by intros d ->|].
  assert (Hkeep : ∀ d, on_tree t d → finished s c (tree d)) by (at_tree; done).
  eapply hoare_look; [apply looks_lift|done|]. intros l Hparse%map_err_ok.
  apply parse_sync_path_inv in Hparse as [-> _].
  eapply hoare_look; [apply looks_lift|done|]. intros bs _.
  eapply hoare_call; [apply hoare_ensure_layout; apply Hc|done|]. intros [].
  destruct (committed_meta _ _ _ _ _ _ _ _ Hc) as (m & Hm & Hd).
  eapply hoare_look; [apply looks_push_begun|done|].
  intros m' Hm'. assert (m' = m) as -> by by eapply meta_at_inj.
  case_bool_decide as Hst.
  - apply hoare_ret. intros d ->. split; [done|]. unfold is_complete. simpl.
    split; [by rewrite bool_decide_eq_true_2|]. by destruct Hd.
  - unfold push_resumed. rewrite (describes_id _ _ _ _ _ _ Hd).
    eapply hoare_look; [apply looks_open_file|done|]. intros h [_ (c' & x & Hstat)].
    apply stat_lookup in Hstat. rewrite (committed_part _ _ _ _ _ _ _ _ Hc) in Hstat. done.
Qed.

(** A stream that pushes this file, in one process: what the process's system calls do
    ([l]) and its counters are its own. *)
Definition in_process (l : list (option nat)) (counter pid : Z) (d : Disk) : Disk :=
  {| tree := tree d; faults := l; temp_counter := counter; process_id := pid |}.

(** The calls on the stream leave the disk alone. *)
Lemma failed_disk e d stream : (failed e (d, stream)).1.1 = d.
Proof. unfold failed, on_stream, zoom. simpl. by destruct (fail e stream). Qed.

Lemma open_not_complete c tr : opened c tr → is_complete tr = false.
Proof.
  intros [_ Hd _]. unfold is_complete. rewrite (describes_state _ _ _ _ _ _ Hd).
  by apply bool_decide_eq_false_2.
Qed.

Lemma push_outcome_keeps block_size c d tr stream r :
  progress c (tree d) → opened c tr → hasher tr = c → Good (c ++ concat (data_of (incoming stream))) →
  push_outcome blake3 nfc link_resolves block_size tr (d, stream) r → kept (tree r.1.1).
Proof.
  intros Hp Ho Hh Hg. unfold push_outcome. simpl.
  assert (Hsame : data_of (incoming (send_reply (push_ready tr) false stream).1) = data_of (incoming stream)).
  { unfold send_reply, mbnd, mlift, send_data, answer. destruct (encode_reply _); simpl; [|done].
    by destruct (answers stream) as [|[]]. }
  assert (Hk : kept (tree d)).
  { left. exists c. split; [|done]. eapply good_prefix; [|exact Hg]. by apply prefix_app_r. }
  destruct (send_reply (push_ready tr) false stream) as [stream1 [[]|e]]; simpl in *; [|by intros ->].
  rewrite (open_not_complete _ _ Ho).
  intros (p & o & Hrec & ->). eapply push_received_keeps; [done..| |done]. by rewrite Hsame.
Qed.

(** A push that is complete: the disk is only read. *)
Lemma push_outcome_complete block_size d tr stream r :
  is_complete tr = true → transfer_id (push_metadata tr) = id →
  push_outcome blake3 nfc link_resolves block_size tr (d, stream) r → tree r.1.1 = tree d.
Proof.
  intros Hc Hid. unfold push_outcome. cbn [fst snd].
  destruct (send_reply (push_ready tr) false stream) as [stream1 [[]|e]]; [|by intros ->].
  rewrite Hc. destruct (await_end _ _ _) as [stream2 [[]|e]]; [|by intros ->..].
  unfold push_finish, finish_with_digest, mbnd, mget. cbn [fst snd]. rewrite Hc, push_disk_run, Hid.
  pose proof (looks_status id (tree d) d eq_refl) as Hs.
  destruct (status id d) as [d' r1]. assert (Hd : tree d' = tree d) by (destruct r1; [apply Hs|exact Hs]).
  cbn [fst snd]. destruct (push_reply r1 stream2) as [stream3 r'] eqn:Hr. intros Heq.
  by destruct r1; rewrite Heq.
Qed.

Lemma serve_request_keeps now end_stream block_size d stream r :
  kept (tree d) → (∀ c, progress c (tree d) → Good (c ++ concat (data_of (incoming stream)))) →
  serve_request blake3 hash_from_hex nfc link_resolves now end_stream
    (Push (Some id) logical size hash block_size) (d, stream) r →
  kept (tree r.1.1).
Proof.
  intros Hk Hg. unfold serve_request. case_match; [intros ->; by rewrite failed_disk|].
  case_match; [intros ->; by rewrite failed_disk|]. simpl.
  destruct Hk as [(c & _ & Hp)|(s & c & Hc & Hf & Hlen & Hhash)].
  - pose proof (hoare_begin_push blake3 hash_from_hex nfc id logical size hash t0 target_outside now c
      size_u64 d Hp) as Hb.
    destruct (begin_push _ _ _ _ _ _ _ _ _) as [d1 [tr|e]].
    + destruct Hb as (Hp1 & Ho & Hh). apply (push_outcome_keeps _ c); auto.
    + intros ->. rewrite failed_disk. left. exists c. split; [|done].
      eapply good_prefix; [|by apply Hg]. by apply prefix_app_r.
  - assert (Hfin : ∀ t, finished s c t → kept t) by (intros t Ht; right; by exists s, c).
    pose proof (hoare_begin_finished now s c d Hf) as Hb.
    destruct (begin_push _ _ _ _ _ _ _ _ _) as [d1 [tr|e]].
    + destruct Hb as (Hf1 & Hcomp & Hid). intros Hr.
      rewrite (push_outcome_complete _ _ _ _ _ Hcomp Hid Hr). by apply Hfin.
    + intros ->. rewrite failed_disk. by apply Hfin.
Qed.

(** One more stream for the transfer, whose frames go on where the staging file ends. *)
Definition resumed (d d' : Disk) : Prop :=
  ∃ l counter pid now end_stream block_size stream r,
    (∀ c, progress c (tree d) → Good (c ++ concat (data_of (incoming stream)))) ∧
    serve_request blake3 hash_from_hex nfc link_resolves now end_stream
      (Push (Some id) logical size hash block_size) (in_process l counter pid d, stream) r ∧
    d' = r.1.1.

Lemma resumed_keeps d d' : rtc resumed d d' → kept (tree d) → kept (tree d').
Proof.
  induction 1 as [d|d d1 d2 (l & counter & pid & now & b & bs & stream & r & Hg & Hs & ->) _ IH]; [done|].
  intros Hk. apply IH. by apply (serve_request_keeps now b bs (in_process l counter pid d) stream r).
Qed.

(** ** A stream that is not disturbed *)

Lemma way_clear_progress c t : way_clear logical t0 → progress c t → way_clear logical t.
Proof.
  intros [Hw Htar] Hp. split; [|by rewrite (progress_target _ _ _ _ _ _ _ Hp)].
  intros q Hq Hne. destruct (decide (q = [])) as [->|Hnil]; [right; apply Hp|].
  assert (Hout : outside q) by by eapply prefix_outside.
  destruct (progress_frame _ _ _ _ _ _ _ Hp q) as [->|(_ & Hd & _)]; [|by apply Hw|by right].
  intros Hown. destruct Hown as [->|[->|[->|?]]]; [by eapply stage_not_outside..|done].
Qed.

Lemma push_writes_clear items c w :
  progress c (tree (written_to w).1) → opened c (written_to w).2 → faults (written_to w).1 = [] →
  len (c ++ concat items) ≤ size →
  ∃ good w', write_all push_write w items = (w', Ok <$> good) ∧ faults (written_to w').1 = [].
Proof.
  revert c w. induction items as [|f items IH]; intros c w Hp Ho Hf Hlen; [by exists [], w|].
  simpl in *. rewrite app_assoc in Hlen.
  destruct (push_evals_write id logical size hash t0 target_outside c f (tree (written_to w).1)
    (written_to w).2 size_u64 Hp Ho) as (t' & tr' & Hev & Hp1 & Ho1 & _).
  { rewrite len_app in Hlen. pose proof (len_nonneg (concat items)). lia. }
  destruct (Hev (written_to w).1 (conj eq_refl Hf)) as (d' & Hrun & Hd').
  destruct Hd' as [Hd' Hf']. unfold push_write at 1. rewrite <-surjective_pairing in Hrun. rewrite Hrun.
  destruct (IH (c ++ f) {| written_to := (d', tr'); hashed := hashed w ++ f |}) as (good & w' & Hall & Hw');
    [simpl; by rewrite Hd'|done..|].
  rewrite Hall. by eexists (_ :: good), w'.
Qed.

(** Frames that a push accepts: the last one, and only it, ends the stream. *)
Record delivers (block_size : Z) (frames : list Frame) : Prop := {
  delivered_frames : ∃ init final, frames = init ++ [final] ∧
    Forall (λ f, has_end_stream (header f) = false) init ∧ has_end_stream (header final) = true;
  delivered_data : Forall (λ f, command (header f) = Command.Data ∧ len (payload f) ≤ block_size) frames;
}.

(** The receiver after the payloads [l]. *)
Definition reads_frames (block_size : Z) (frames : list Frame) (l : list bytes) (k : ReceiveContext) : Prop :=
  ∃ seen todo, frames = seen ++ todo ∧ l = payload <$> seen ∧
    incoming (receive_stream k) = Ok <$> todo ∧ receive_block_size k = block_size ∧
    (end_stream_received k = true ↔ todo = []).

Lemma has_end_last block_size frames seen f todo :
  delivers block_size frames → frames = seen ++ f :: todo → (has_end_stream (header f) = true ↔ todo = []).
Proof.
  intros [(init & final & -> & Hinit & Hfinal) _] Heq.
  destruct (decide (todo = [])) as [->|Hne].
  - apply app_inj_tail in Heq as [_ <-]. done.
  - destruct todo as [|x todo _] using rev_ind; [done|]. split; [|done]. intros Hend.
    rewrite app_comm_cons, app_assoc in Heq. apply app_inj_tail in Heq as [-> _].
    apply Forall_app in Hinit as [_ Hinit]. inversion Hinit; congruence.
Qed.

Lemma push_read_frames block_size frames l k :
  delivers block_size frames → reads_frames block_size frames l k →
  (∃ item k', push_read k = (k', Ok (Some item)) ∧ reads_frames block_size frames (l ++ [item]) k') ∨
  (push_read k = (k, Ok None) ∧ l = payload <$> frames).
Proof.
  intros Hd (seen & todo & Hfr & -> & Hin & Hbs & Hend). unfold push_read.
  destruct (end_stream_received k) eqn:He.
  { right. split; [done|]. rewrite Hfr, (proj1 Hend eq_refl), app_nil_r. done. }
  destruct todo as [|f todo]; [by specialize (proj2 Hend eq_refl)|]. left.
  pose proof (has_end_last _ _ _ _ _ Hd Hfr) as Hlast.
  destruct Hd as [_ Hd]. rewrite Hfr in Hd. apply Forall_app in Hd as [_ Hd].
  inversion Hd as [|? ? [Hcmd Hlen] _]; subst.
  unfold actor_data, recv, mbnd. rewrite Hin. simpl. rewrite Hcmd, bool_decide_eq_false_2 by auto. simpl.
  rewrite (proj2 (Z.ltb_ge _ _)) by done. eexists _, _. split; [done|].
  exists (seen ++ [f]), todo. simpl. rewrite <-app_assoc, fmap_app. split_and!; try done; apply Hlast.
Qed.

Lemma push_read_ranked (k k' : ReceiveContext) r :
  push_read k = (k', r) →
  (length (incoming (receive_stream k')) ≤ length (incoming (receive_stream k)))%nat ∧
  (∀ item, r = Ok (Some item) →
     (length (incoming (receive_stream k')) < length (incoming (receive_stream k)))%nat) ∧
  answers (receive_stream k') = answers (receive_stream k).
Proof.
  unfold push_read, actor_data, recv, mbnd. destruct (end_stream_received k); [by intros [= <- <-]|].
  destruct (incoming (receive_stream k)) as [|[f|e] l] eqn:Hin; simpl.
  - intros [= <- <-]. simpl. by rewrite Hin.
  - case_bool_decide; simpl; [|case_match]; intros [= <- <-]; simpl; split_and!; auto; intros ? ?; lia.
  - intros [= <- <-]. simpl. split_and!; auto.
Qed.

Section undisturbed.
Context (block_size : Z) (frames : list Frame) (stream : ServiceStream) (c : bytes) (d : Disk) (tr : PushTransfer).
Hypothesis frames_delivered : delivers block_size frames.
Hypothesis stream_frames : incoming stream = Ok <$> frames.
Hypothesis open_transfer : progress c (tree d) ∧ opened c tr ∧ hasher tr = c.
Hypothesis no_faults : faults d = [].

Let content := c ++ concat (payload <$> frames).
Hypothesis content_size : len content = size.

Lemma reads_frames_start :
  reads_frames block_size frames []
    {| receive_stream := stream; receive_block_size := block_size; end_stream_received := false |}.
Proof.
  exists [], frames. split_and!; try done. split; [done|]. intros ->.
  destruct (delivered_frames _ _ frames_delivered) as (init & final & Heq & _). by destruct init.
Qed.

(** No interleaving fails. *)
Lemma received_clear p o :
  received block_size (d, tr) stream p o →
  outcome o = Ok tt ∧ was_read p = payload <$> frames.
Proof.
  intros [Hr Ho].
  assert (Hitem : ∀ l (k k' : ReceiveContext) item, reads_frames block_size frames l k →
    push_read k = (k', Ok (Some item)) → reads_frames block_size frames (l ++ [item]) k').
  { intros l k k' item HR Hread.
    destruct (push_read_frames _ _ _ _ frames_delivered HR) as [(i & k1 & Hk & Hi)|[Hk _]]; congruence. }
  assert (Hstored : ∀ l (k k' : ReceiveContext) a r, reads_frames block_size frames l k →
    push_stored k a = (k', r) → reads_frames block_size frames l k') by (by intros l k k' a r HR [= <- <-]).
  assert (Hok : ¬ failing (producer p)).
  { refine (never_fails _ _ _ _ (reads_frames block_size frames) _ _ reads_frames_start Hitem Hstored _ _ _ _ Hr).
    - intros l k k' e HR Hread.
      destruct (push_read_frames _ _ _ _ frames_delivered HR) as [(i & k1 & Hk & Hi)|[Hk _]]; congruence.
    - by intros k k' a e [= <-].
    - intros l k items e (seen & todo & Hfr & -> & _) [rest Hpre].
      destruct open_transfer as (Hp & Hopen & _).
      destruct (push_writes_clear items c {| written_to := (d, tr); hashed := hasher tr |})
        as (good & w' & Hall & _); [done..| |].
      + unfold content in content_size. rewrite Hfr, fmap_app, Hpre, !concat_app, !len_app in content_size.
        rewrite len_app. pose proof (len_nonneg (concat rest)).
        pose proof (len_nonneg (concat (payload <$> todo))). lia.
      + cbn [snd]. rewrite Hall. simpl. intros Hin. by apply list_elem_of_fmap in Hin as (a & ? & _). }
  rewrite Ho in Hok. simpl in Hok.
  destruct (outcome o) as [[]|f] eqn:Hout; [|destruct Hok; exists f; simpl; by rewrite Hout].
  split; [done|].
  destruct (returned_writes _ _ _ _ _ _ _ _ Hr Ho) as (_ & good & bad & _ & _ & _ & Hend).
  destruct (Hend Hout) as (He & _).
  destruct (reachable_reads _ _ _ _ (reads_frames block_size frames) _ _ _ reads_frames_start Hitem Hstored Hr)
    as (_ & k & HR & Hk).
  destruct (Hk He) as [k1 Hnone].
  destruct (push_read_frames _ _ _ _ frames_delivered HR) as [(i & k2 & Hsome & _)|[_ Hl]]; congruence.
Qed.

Hypothesis replies : ∀ r, is_Some (encode_reply r).
Hypothesis stream_accepts : answers stream = [].

Lemma send_reply_accepted r b (s : ServiceStream) :
  answers s = [] → ∃ bs, send_reply r b s = (add_outgoing (bs, b) s, Ok tt).
Proof.
  intros Ha. destruct (replies r) as [bs Hbs]. exists bs.
  unfold send_reply, mbnd, mlift, send_data, answer. rewrite Hbs. simpl. by rewrite Ha.
Qed.

Lemma push_received_clear p o :
  accepted hash_from_hex nfc id logical size hash → way_clear logical t0 →
  bytes_hex (blake3 content) = hash → received block_size (d, tr) stream p o →
  let r := push_received blake3 nfc link_resolves p o in
  r.2 = Ok tt ∧ finished TransferState.Complete content (tree r.1.1).
Proof.
  intros Hacc Hway Hhash Hrec. destruct (received_clear p o Hrec) as [Hout Hread]. destruct Hrec as [Hr Ho].
  destruct (returned_writes _ _ _ _ _ _ _ _ Hr Ho) as (_ & good & bad & Hall & Hbad & _ & Hend).
  destruct (Hend Hout) as (_ & Hw & -> & _). destruct open_transfer as (Hp & Hopen & Hh).
  rewrite Hw, Hread in Hall. cbn [snd] in Hall.
  destruct (push_writes_clear (payload <$> frames) c {| written_to := (d, tr); hashed := hasher tr |})
    as (good' & w' & Hall' & Hclear); [done..|unfold content in content_size; lia|].
  rewrite Hall in Hall'. injection Hall' as <- _.
  destruct (push_writes _ c {| written_to := (d, tr); hashed := hasher tr |} _ _ good [] Hp Hopen Hall eq_refl (or_introl eq_refl))
    as (Hhashed & _ & _ & part & _ & Hprog & Hdone).
  destruct (Hdone eq_refl) as (Hk & -> & Ho2). rewrite Hk, app_nil_r in Hprog. simpl in Hhashed.
  rewrite Hh in Hhashed. fold content in Hhashed, Hprog, Ho2.
  assert (Hans : answers (receive_stream (context p)) = []).
  { eapply (reachable_context _ _ _ _ (λ k : ReceiveContext, answers (receive_stream k) = [])); [| | |exact Hr];
      [exact stream_accepts|..].
    - intros k k' r Hk' Hread'. by rewrite (proj2 (proj2 (push_read_ranked _ _ _ Hread'))).
    - by intros k k' a r Hk' [= <- _]. }
  destruct (push_evals_finish hash_from_hex nfc link_resolves id logical size hash t0 target_outside content
    (blake3 content) _ _ Hacc Hprog Ho2 (way_clear_progress _ _ Hway Hprog) content_size Hhash)
    as (st & t' & tr' & Hev & Hfin).
  destruct (Hev _ (conj eq_refl Hclear)) as (d' & Hrun & Hd' & _). rewrite <-surjective_pairing in Hrun.
  unfold push_received. rewrite Hout, Hhashed, Hrun.
  destruct (send_reply_accepted (Complete (status_transfer_id st) (status_next_offset st) (status_total_size st))
    true _ Hans) as [bs Hsend].
  unfold push_reply, close, answer, mbnd. rewrite Hsend. simpl. rewrite Hans. simpl. by rewrite Hd'.
Qed.
End undisturbed.

(** The whole stream, and that it comes to an end. *)
Lemma serve_undisturbed now block_size frames stream c d :
  accepted hash_from_hex nfc id logical size hash → way_clear logical t0 → progress c (tree d) →
  faults d = [] → 1 ≤ block_size ≤ MAX_SYNC_BLOCK_SIZE → delivers block_size frames →
  incoming stream = Ok <$> frames → answers stream = [] → (∀ r, is_Some (encode_reply r)) →
  let content := c ++ concat (payload <$> frames) in
  len content = size → bytes_hex (blake3 content) = hash →
  let run := serve_request blake3 hash_from_hex nfc link_resolves now false
               (Push (Some id) logical size hash block_size) (d, stream) in
  (∃ r, run r) ∧ ∀ r, run r → r.2 = Ok tt ∧ finished TransferState.Complete content (tree r.1.1).
Proof.
  intros Hacc Hway Hp Hf Hbs Hdel Hin Hans Henc content Hsize Hhash run. subst run.
  unfold serve_request. cbn [request_block_size fst snd].
  rewrite (proj2 (Z.eqb_neq _ _)), (proj2 (Z.ltb_ge _ _)) by lia. cbn [orb].
  destruct (evals_begin_push blake3 hash_from_hex nfc id logical size hash t0 target_outside now c (tree d) Hacc Hp)
    as (tr & t' & Hev & Hp1 & Ho & Hh).
  { unfold content in Hsize. rewrite len_app in Hsize. pose proof (len_nonneg (concat (payload <$> frames))). lia. }
  destruct (Hev d (conj eq_refl Hf)) as (d1 & Hrun & Hd1 & Hf1). rewrite Hrun. rewrite <-Hd1 in Hp1.
  unfold push_outcome. cbn [fst snd].
  destruct (send_reply_accepted Henc (push_ready tr) false stream Hans) as [bs ->].
  rewrite (open_not_complete _ _ Ho). set (stream1 := add_outgoing _ stream).
  split.
  - destruct (some_run_returns push_read push_write push_stored push_must_drain
      (λ k, length (incoming (receive_stream k)))
      ltac:(intros k k' item Hk; by eapply push_read_ranked)
      ltac:(intros k k' r Hk; by eapply push_read_ranked)
      ltac:(intros k k' a r [= <- _]; done)
      {| receive_stream := stream1; receive_block_size := block_size; end_stream_received := false |}
      {| written_to := (d1, tr); hashed := hasher tr |} ltac:(done)) as (p & o & Hrec).
    eexists. exists p, o. split; [exact Hrec|done].
  - intros r (p & o & Hrec & ->).
    apply (push_received_clear block_size frames stream1 c d1 tr); done.
Qed.

End one_transfer.

(** ** Claims *)

Section claims.
Context `{PointerWidth, DirOrder, ReadSize, MetadataJson, !JsonLaws, SyncJson}.
Context (blake3 : bytes → bytes) (hash_from_hex : bytes → option bytes) (nfc : str → str).
Context (link_resolves : path → bool).

(** A push and the streams that go on with it, from the tree [tree d]; [Good] is what the
    staging file and a stream's frames after it may be together. *)
Definition push_session (logical : str) (size : Z) (hash : bytes) (Good : bytes → Prop)
    (d : Disk) (id : bytes) (d' : Disk) : Prop :=
  ∃ now block_size d1 tr stream r,
    begin_push blake3 hash_from_hex nfc now None logical size hash d = (d1, Ok tr) ∧
    transfer_id (push_metadata tr) = id ∧
    Good (concat (data_of (incoming stream))) ∧
    push_outcome blake3 nfc link_resolves block_size tr (d1, stream) r ∧
    rtc (resumed blake3 hash_from_hex nfc link_resolves id logical size hash (tree d) Good) r.1.1 d'.

Lemma push_session_keeps logical size hash (Good : bytes → Prop) d id d' :
  outside (target logical) → u64 size → tree_ok (tree d) → laid_out (tree d) →
  (∀ c c', c `prefix_of` c' → Good c' → Good c) →
  push_session logical size hash Good d id d' →
  kept blake3 id logical size hash (tree d) Good (tree d').
Proof.
  intros Hout Hsize Ht Hl Hgood (now & bs & d1 & tr & stream & r & Hbegin & Hid & Hg & Hrun & Hrest).
  pose proof (hoare_begin_new blake3 hash_from_hex nfc logical size hash Hout now (tree d) Hsize Ht Hl d eq_refl)
    as Hb. rewrite Hbegin, Hid in Hb. cbv zeta in Hb. destruct Hb as (Hp & Ho & Hh).
  eapply resumed_keeps; [done..|exact Hrest|]. by eapply push_outcome_keeps.
Qed.

(** C7: A push that is interrupted any number of times, at any point, by I/O errors, lost
    connections, refused frames and restarts of the process, and that the host goes on
    with from the offset it is told, leaves either the target as it was and a staging
    file that is a beginning of the file, or the whole file [P] in place; no other path
    changes, directories above the target apart. *)
Theorem interrupted_push_keeps_a_prefix logical (P : bytes) d id d' :
  let hash := bytes_hex (blake3 P) in
  outside (target logical) → u64 (len P) → tree_ok (tree d) → laid_out (tree d) →
  push_session logical (len P) hash (λ c, c `prefix_of` P) d id d' →
  (∃ c, c `prefix_of` P ∧ in_progress id logical (len P) hash (tree d) c (tree d')) ∨
  (∃ s, committed id logical (len P) hash (tree d) s P (tree d')).
Proof.
  intros hash Hout Hsize Ht Hl Hsession. apply push_session_keeps in Hsession; [|done..|].
  - destruct Hsession as [Hp|(s & c & [k HP] & Hc & Hlen & _)]; [by left|]. right. exists s.
    assert (k = []) as -> by (apply nil_length_inv; unfold len in Hlen; rewrite HP, length_app in Hlen; lia).
    rewrite app_nil_r in HP. by subst c.
  - intros c c' Hc Hc'. by etrans.
Qed.

(** C22: Whatever a host sends in the streams of a push, the target is not touched, or it
    becomes a regular file with exactly the announced size and digest; outside the
    transfer's own files only directories above the target are made. *)
Theorem push_commits_only_the_announced_file logical size hash d id d' :
  outside (target logical) → u64 size → tree_ok (tree d) → laid_out (tree d) →
  push_session logical size hash (λ _, True) d id d' →
  (tree d' !! target logical = tree d !! target logical ∨
   ∃ c x, tree d' !! target logical = Some (Regular c x) ∧ len c = size ∧ bytes_hex (blake3 c) = hash) ∧
  framed id logical (tree d) (tree d').
Proof.
  intros Hout Hsize Ht Hl Hsession. apply push_session_keeps in Hsession; [|done..].
  destruct Hsession as [(c & _ & [])|(s & c & _ & [] & Hlen & Hhash)]; [by split; [left|]|].
  split; [|done]. right. destruct committed_target as [x Hx]. eauto 6.
Qed.

(** C21: Going on with an interrupted push succeeds: when the disk has no faults, the way to
    the target is free, the host sends the rest of the file in frames of at most
    [block_size] bytes of which the last ends the stream, and the connection accepts the
    replies, then every interleaving of the two threads ends with [Ok] and the file in
    place, its metadata [Complete]; and there is such an interleaving. *)
Theorem undisturbed_stream_completes_the_push now logical (P c : bytes) t0 id block_size frames stream d :
  let hash := bytes_hex (blake3 P) in
  accepted hash_from_hex nfc id logical (len P) hash → outside (target logical) → way_clear logical t0 →
  in_progress id logical (len P) hash t0 c (tree d) → faults d = [] →
  c ++ concat (payload <$> frames) = P →
  1 ≤ block_size ≤ MAX_SYNC_BLOCK_SIZE → delivers block_size frames →
  incoming stream = Ok <$> frames → answers stream = [] → (∀ r, is_Some (encode_reply r)) →
  let run := serve_request blake3 hash_from_hex nfc link_resolves now false
               (Push (Some id) logical (len P) hash block_size) (d, stream) in
  (∃ r, run r) ∧
  ∀ r, run r → r.2 = Ok tt ∧ committed id logical (len P) hash t0 TransferState.Complete P (tree r.1.1).
Proof.
  intros hash Hacc Hout Hway Hp Hf HP Hbs Hdel Hin Hans Henc.
  pose proof (accepted_size _ _ _ _ _ _ Hacc) as Hsize. subst hash P.
  by eapply serve_undisturbed.
Qed.

(** C40: A transfer whose end was not recorded is stranded: when the process stops, or an I/O
    error occurs, after the file was renamed into place and before the metadata says so,
    no later call can go on with it or complete it.  Beginning again with its ID returns
    [Io(NotFound)] on a disk that works, and changes nothing, so it does so forever,
    although the whole file is at the target. *)
Theorem unrecorded_commit_strands_the_transfer now logical size hash t0 id c t :
  accepted hash_from_hex nfc id logical size hash → outside (target logical) →
  committed id logical size hash t0 TransferState.InProgress c t →
  (∃ x, t !! target logical = Some (Regular c x)) ∧
  evals t (begin_push blake3 hash_from_hex nfc now (Some id) logical size hash)
    (Err (StoreError.Io NotFound)) t.
Proof. intros Hacc Hout Hc. split; [apply Hc|]. by eapply evals_begin_stranded. Qed.
End claims.
