(* ===== verification/SyncPull.v ===== *)
(** * Pulls: what a stream sends of a file

    The reader thread and the sending thread of a pull: whatever the interleaving, what
    is sent is the file from the offset on. *)

From S2P Require Import Prelude Text WireFrame Actor BundleError Paths Utf8 Files FileHandles Rpc SyncStore SyncPush Pipeline SyncStream.
Local Open Scope Z_scope.

Lemma pull_disk_run {A} (m : store_op A) d tr :
  pull_disk m (d, tr) = (((m d).1, tr), (m d).2).
Proof. unfold pull_disk, zoom. simpl. by destruct (m d). Qed.

Section one_pull.
Context `{PointerWidth, DirOrder, ReadSize, MetadataJson, !JsonLaws}.
(** The transfer, the file and its contents, and the tree when the transfer began. *)
Context (id : bytes) (file : path) (content : bytes) (x : bool) (t0 : gmap path Node).
Hypothesis file_content : t0 !! file = Some (Regular content x).
Hypothesis file_outside : outside file.
Hypothesis content_u64 : u64 (len content).
Implicit Types (t : gmap path Node) (m : TransferMetadata).

(** ** The disk *)

(** Only the transfer's metadata has changed. *)
Record undisturbed t : Prop := {
  undisturbed_tree : tree_ok t;
  undisturbed_layout : laid_out t;
  undisturbed_frame : ∀ q, q ≠ metadata_path id → q ≠ metadata_temporary id → t !! q = t0 !! q;
}.

Lemma undisturbed_file t : undisturbed t → t !! file = Some (Regular content x).
Proof.
  intros Ht. rewrite (undisturbed_frame _ Ht); [done|..]; intros Heq; rewrite Heq in file_outside;
    by eapply stage_not_outside.
Qed.
Lemma undisturbed_step m t t' : undisturbed t → meta_step id m t t' → undisturbed t'.
Proof.
  intros [Ht Hl Hf] Hstep. split; [apply Hstep|by eapply laid_out_meta_step|].
  intros q Hq Hq'. rewrite (step_other _ _ _ _ Hstep) by done. by apply Hf.
Qed.

(** The metadata and its temporary file can be written. *)
Definition writable t : Prop :=
  (∀ n, t !! metadata_temporary id = Some n → is_file n = true) ∧
  (∀ n, t !! metadata_path id = Some n → is_file n = true).

Lemma written_writable t m : meta_at id t m → t !! metadata_temporary id = None → writable t.
Proof.
  intros (bs & y & Hm & _) Hn. split; intros n Hx; [congruence|].
  by replace n with (Regular bs y) by congruence.
Qed.

(** ** The transfer *)

Record describes_pull m : Prop := {
  pull_version : version m = METADATA_VERSION;
  pull_id : transfer_id m = id;
  pull_size : total_size m = len content;
  pull_range : 0 ≤ next_offset m ≤ len content;
}.
Lemma describes_pull_typed m : describes_pull m → metadata_typed m.
Proof.
  intros [Hv _ Hs Ho]. destruct content_u64. unfold metadata_typed, METADATA_VERSION in *. rewrite Hv, Hs.
  unfold in_range, u32_max, u64_max in *. lia.
Qed.

Record pulling (tr : PullTransfer) : Prop := {
  pulling_meta : describes_pull (pull_metadata tr);
  pulling_handle : handle_path (pull_file tr) = file;
  pulling_cursor : Z.of_nat (cursor (pull_file tr)) = pull_offset tr;
}.

(** What is left of the file. *)
Definition rest (tr : PullTransfer) : bytes := drop (Z.to_nat (pull_offset tr)) content.

Lemma hoare_pull_metadata m tr :
  describes_pull m →
  hoare (λ s, undisturbed (tree s.1) ∧ s.2 = tr) (pull_disk (write_metadata m))
    (λ _ s, undisturbed (tree s.1) ∧ writable (tree s.1) ∧ s.2 = tr) (λ s, undisturbed (tree s.1)).
Proof.
  intros Hm [d tr'] [Hu Htr]. simpl in Hu, Htr. subst tr'. rewrite pull_disk_run.
  pose proof (hoare_write_metadata id m (tree d) (undisturbed_tree _ Hu) (undisturbed_layout _ Hu)
    (pull_id _ Hm) (describes_pull_typed _ Hm) d eq_refl) as Hw.
  destruct (write_metadata m d) as [d' [[]|e]]; simpl.
  - destruct Hw as (Hstep & Hat & Hn). split; [by eapply undisturbed_step|]. split; [|done].
    by eapply written_writable.
  - by eapply undisturbed_step.
Qed.

Lemma pull_metadata_clear m d tr :
  describes_pull m → undisturbed (tree d) → writable (tree d) → faults d = [] →
  ∃ d', pull_disk (write_metadata m) (d, tr) = ((d', tr), Ok tt) ∧
    undisturbed (tree d') ∧ writable (tree d') ∧ meta_at id (tree d') m ∧ faults d' = [].
Proof.
  intros Hm Hu [Htmp Hmeta] Hf. destruct (evals_write_metadata id m (tree d)) as (t' & Hev & Hstep & Hat & Hn).
  - apply Hu.
  - apply Hu.
  - apply Hm.
  - by apply describes_pull_typed.
  - done.
  - done.
  - destruct (Hev d (conj eq_refl Hf)) as (d' & Hrun & <- & Hf'). exists d'.
    rewrite pull_disk_run, Hrun. split; [done|]. split; [by eapply undisturbed_step|].
    split; [by eapply written_writable|done].
Qed.

(** ** A chunk *)

(** [tr'] is [tr] after [data] was read. *)
Record advanced (block_size : nat) (tr tr' : PullTransfer) (data : bytes) : Prop := {
  advanced_pulling : pulling tr';
  advanced_rest : rest tr = data ++ rest tr';
  advanced_length : (length data ≤ block_size)%nat;
  advanced_nonempty : rest tr ≠ [] → data ≠ [];
}.

Lemma read_advances (block_size : nat) tr :
  (0 < block_size)%nat → pulling tr →
  let data := take (read_size (cursor (pull_file tr)) block_size) (drop (cursor (pull_file tr)) content) in
  let next := next_offset (pull_metadata tr) + len data in
  checked_add u64_max (next_offset (pull_metadata tr)) (len data) = Some next ∧
  advanced block_size tr
    {| pull_metadata := set_next_offset next (pull_metadata tr);
       pull_file := {| handle_path := file; cursor := cursor (pull_file tr) + length data |};
       pull_next_checkpoint := pull_next_checkpoint tr |} data.
Proof.
  intros Hbs [Hm Hh Hc] data next. subst next.
  pose proof (read_size_bounds (cursor (pull_file tr)) block_size Hbs) as Hrs.
  pose proof (pull_range _ Hm) as Hr. unfold pull_offset in Hc.
  assert (Hlen : next_offset (pull_metadata tr) + len data ≤ len content).
  { unfold data, len in *. rewrite length_take, length_drop. lia. }
  pose proof (len_nonneg data) as Hd. destruct content_u64 as [_ Hmax]. split.
  { unfold checked_add. rewrite (proj2 (Z.leb_le _ _)) by lia. done. }
  split; simpl.
  - split; [|done|]; simpl.
    + destruct Hm as [? ? ? ?]. split; simpl; try done. lia.
    + unfold pull_offset, len in *. simpl. lia.
  - unfold rest, pull_offset. simpl. rewrite <-Hc, Nat2Z.id.
    rewrite <-(take_drop (read_size (cursor (pull_file tr)) block_size) (drop (cursor (pull_file tr)) content)) at 1.
    fold data. f_equal. rewrite drop_drop. unfold data, len. rewrite length_take, length_drop.
    destruct (decide (read_size (cursor (pull_file tr)) block_size ≤ length content - cursor (pull_file tr))%nat).
    + f_equal. lia.
    + rewrite !drop_ge by lia. done.
  - unfold data. rewrite length_take. lia.
  - unfold rest, pull_offset. rewrite <-Hc, Nat2Z.id. unfold data. intros Hne Hnil. apply Hne.
    apply (f_equal length) in Hnil. rewrite length_take in Hnil. apply nil_length_inv. simpl in *. lia.
Qed.

Lemma rest_nil tr : pulling tr → rest tr = [] ↔ pull_offset tr = total_size (pull_metadata tr).
Proof.
  intros [[_ _ Hs Hr] _ _]. unfold rest, pull_offset. rewrite Hs. unfold len in *. split.
  - intros Hn. apply (f_equal length) in Hn. rewrite length_drop in Hn. simpl in Hn. lia.
  - intros ->. apply drop_ge. lia.
Qed.

(** The end of a round: the metadata is written when it is due, or at the end. *)
Definition round_end (is_last : bool) : pull_op unit :=
  if is_last then let! _ := pull_finish in mret tt else checkpoint_if_due.

Lemma pulling_state s tr h n :
  pulling tr → h = pull_file tr →
  pulling {| pull_metadata := set_state s (pull_metadata tr); pull_file := h; pull_next_checkpoint := n |}.
Proof. by intros [[] ? ?] ->. Qed.

Lemma round_end_keeps is_last d tr :
  undisturbed (tree d) → pulling tr →
  let s := (round_end is_last (d, tr)).1 in
  undisturbed (tree s.1) ∧ pulling s.2 ∧ rest s.2 = rest tr.
Proof.
  intros Hu Hp. unfold round_end. destruct is_last.
  - unfold pull_finish, mbnd, mget. cbn [fst snd].
    destruct (negb _); [done|]. unfold mmodify, set_pull. cbn [fst snd].
    set (m := set_state TransferState.Complete (pull_metadata tr)).
    set (tr1 := {| pull_metadata := m |}).
    assert (Hp1 : pulling tr1) by by apply pulling_state.
    assert (Hm1 : describes_pull m) by apply Hp1.
    pose proof (hoare_pull_metadata m tr1 Hm1 (d, tr1) (conj Hu eq_refl)) as Hw.
    rewrite pull_disk_run in *. destruct (write_metadata m d) as [d1 [[]|e]]; cbn [fst snd] in *; [|done].
    destruct Hw as (Hu1 & _ & _). rewrite pull_disk_run.
    pose proof (looks_status (transfer_id (pull_metadata tr)) (tree d1) d1 eq_refl) as Hst.
    destruct (status _ d1) as [d2 [st|e]]; cbn [fst snd]; (split; [|done]).
    + destruct Hst as [Hd2 _]. by rewrite Hd2.
    + by rewrite Hst.
  - unfold checkpoint_if_due, mbnd, mget. cbn [fst snd].
    destruct (_ && _); [|done]. unfold pull_checkpoint, mbnd, mget. cbn [fst snd].
    pose proof (hoare_pull_metadata (pull_metadata tr) tr (pulling_meta _ Hp) (d, tr) (conj Hu eq_refl)) as Hw.
    rewrite pull_disk_run in *. destruct (write_metadata _ d) as [d1 [[]|e]]; cbn [fst snd] in *; [|done].
    destruct Hw as (Hu1 & _ & _). split; [done|]. split; [|done]. by destruct Hp.
Qed.

Lemma round_end_clear is_last d tr :
  is_valid_transfer_id id = true →
  undisturbed (tree d) → pulling tr → writable (tree d) → faults d = [] →
  (is_last = true → rest tr = []) →
  ∃ s, round_end is_last (d, tr) = (s, Ok tt) ∧ writable (tree s.1) ∧ faults s.1 = [].
Proof.
  intros Hid Hu Hp Hw Hf Hlast. unfold round_end. destruct is_last.
  - unfold pull_finish, mbnd, mget. cbn [fst snd].
    rewrite (proj2 (Z.eqb_eq _ _)) by (by apply (rest_nil _ Hp), Hlast). cbn [negb].
    unfold mmodify, set_pull. cbn [fst snd].
    set (m := set_state TransferState.Complete (pull_metadata tr)).
    set (tr1 := {| pull_metadata := m |}).
    assert (Hp1 : pulling tr1) by by apply pulling_state.
    assert (Hm1 : describes_pull m) by apply Hp1.
    destruct (pull_metadata_clear m d tr1 Hm1 Hu Hw Hf) as (d1 & Hrun & Hu1 & Hw1 & Hat & Hf1). rewrite Hrun.
    rewrite pull_disk_run, (pull_id _ (pulling_meta _ Hp)).
    assert (Hst : evals (tree d1) (status id) (Ok {| status_transfer_id := transfer_id m;
      status_direction := direction m; status_remote_path := remote_path m; status_next_offset := next_offset m;
      status_total_size := total_size m; status_state := state m |}) (tree d1)).
    { unfold status, validate_transfer_id. rewrite Hid. eapply evals_bind; [apply evals_ret|].
      eapply evals_bind; [|apply evals_ret]. apply evals_read_metadata; [apply Hu1|done|apply Hm1..]. }
    destruct (Hst d1 (conj eq_refl Hf1)) as (d2 & Hrun2 & Ht2 & Hf2). rewrite Hrun2. eexists. split; [done|].
    simpl. by rewrite Ht2.
  - unfold checkpoint_if_due, mbnd, mget. cbn [fst snd].
    destruct (_ && _); [|by eexists]. unfold pull_checkpoint, mbnd, mget. cbn [fst snd].
    destruct (pull_metadata_clear (pull_metadata tr) d tr (pulling_meta _ Hp) Hu Hw Hf)
      as (d1 & Hrun & Hu1 & Hw1 & Hat & Hf1). rewrite Hrun. by eexists.
Qed.

Section chunks.
Context (block_size : nat).
Hypothesis block_size_positive : (0 < block_size)%nat.

Lemma read_chunk_advances d tr :
  undisturbed (tree d) → pulling tr →
  match read_chunk block_size (d, tr) with
  | (s, Ok data) => tree s.1 = tree d ∧ advanced block_size tr s.2 data
  | (s, Err _) => tree s.1 = tree d ∧ faults d ≠ []
  end ∧ (faults d = [] → faults (read_chunk block_size (d, tr)).1.1 = []).
Proof.
  intros Hu Hp. pose proof (undisturbed_file _ Hu) as Hfile. rewrite <-(pulling_handle _ Hp) in Hfile.
  destruct (read_advances block_size tr block_size_positive Hp) as [Hadd Hadv].
  unfold read_chunk, mbnd, mget. cbn [fst snd]. rewrite pull_disk_run.
  pose proof (looks_handle_read (E := StoreError) (pull_file tr) block_size (tree d) d eq_refl) as Hr.
  pose proof (evals_handle_read (E := StoreError) (tree d) (pull_file tr) block_size _ _ Hfile d) as Hev.
  destruct (handle_read (pull_file tr) block_size d) as [d' [[h data]|e]]; cbn [fst snd].
  - destruct Hr as [Hd (c & y & Hf & Hdata & Hh)]. cbn [fst snd] in *.
    assert (c = content) as -> by congruence. rewrite <-Hdata in Hadd, Hadv.
    unfold mmodify, mlift, mret. rewrite Hadd. simpl. rewrite Hh, (pulling_handle _ Hp).
    split; [by split|]. intros Hclear. destruct (Hev (conj eq_refl Hclear)) as (d1 & Heq & Hd1).
    injection Heq as -> _. apply Hd1.
  - split; [|intros Hclear; by destruct (Hev (conj eq_refl Hclear)) as (d1 & Heq & Hd1)].
    split; [done|]. intros Hclear. by destruct (Hev (conj eq_refl Hclear)) as (d1 & Heq & Hd1).
Qed.

(** What one round of the reader yields. *)
Definition chunk_of (tr tr' : PullTransfer) (item : result ServerError (bytes * bool)) : Prop :=
  match item with
  | Ok (data, is_last) =>
      pulling tr' ∧ rest tr = data ++ rest tr' ∧ data ≠ [] ∧ (length data ≤ block_size)%nat ∧
      (is_last = true ↔ rest tr' = [])
  | Err _ => True
  end.

Lemma next_chunk_run s :
  next_chunk block_size s =
  match read_chunk block_size s with
  | (s, Err e) => (s, Err (ServerError.Sync e))
  | (s, Ok data) =>
      if bool_decide (data = [])
      then (s, Err (ServerError.UnexpectedFrame "sync source ended before declared size"))
      else
        let is_last := pull_offset s.2 =? total_size (pull_metadata s.2) in
        let '(s, r) := round_end is_last s in
        (s, match r with Ok _ => Ok (data, is_last) | Err e => Err (ServerError.Sync e) end)
  end.
Proof.
  unfold next_chunk, round_end. destruct (read_chunk _ s) as [s1 [data|e]]; [|done].
  case_bool_decide; [done|]. by destruct (_ =? _).
Qed.

Lemma next_chunk_keeps d tr s item :
  undisturbed (tree d) → pulling tr → next_chunk block_size (d, tr) = (s, item) →
  undisturbed (tree s.1) ∧ chunk_of tr s.2 item.
Proof.
  intros Hu Hp. rewrite next_chunk_run. destruct (read_chunk_advances d tr Hu Hp) as [Hread _].
  destruct (read_chunk block_size (d, tr)) as [[d1 tr1] [data|e]]; cbn [fst snd] in *.
  2:{ intros [= <- <-]. simpl. by rewrite (proj1 Hread). }
  destruct Hread as [Hd1 Hadv]. rewrite <-Hd1 in Hu.
  case_bool_decide as Hdata; [by intros [= <- <-]|].
  destruct Hadv as [Hp1 Hrest Hlen _].
  pose proof (round_end_keeps (pull_offset tr1 =? total_size (pull_metadata tr1)) d1 tr1 Hu Hp1) as Hr.
  destruct (round_end _ (d1, tr1)) as [s2 r]. cbn [fst] in Hr. destruct Hr as (Hu2 & Hp2 & Hrest2).
  intros [= <- <-]. split; [done|]. destruct r; [|done]. unfold chunk_of. rewrite Hrest2.
  split_and!; try done. rewrite Z.eqb_eq. symmetry. by apply rest_nil.
Qed.

Lemma next_chunk_clear d tr :
  is_valid_transfer_id id = true →
  undisturbed (tree d) → pulling tr → writable (tree d) → faults d = [] → rest tr ≠ [] →
  ∃ s data is_last, next_chunk block_size (d, tr) = (s, Ok (data, is_last)) ∧
    writable (tree s.1) ∧ faults s.1 = [].
Proof.
  intros Hid Hu Hp Hw Hf Hne. rewrite next_chunk_run.
  destruct (read_chunk_advances d tr Hu Hp) as [Hread Hclear].
  destruct (read_chunk block_size (d, tr)) as [[d1 tr1] [data|e]]; cbn [fst snd] in *; [|by destruct Hread].
  destruct Hread as [Hd1 [Hp1 Hrest Hlen Hdata]]. rewrite bool_decide_eq_false_2 by auto.
  destruct (round_end_clear (pull_offset tr1 =? total_size (pull_metadata tr1)) d1 tr1)
    as (s & Hrun & Hws & Hfs); rewrite ?Hd1; auto.
  { intros Heq%Z.eqb_eq. by apply rest_nil. }
  cbv zeta. rewrite Hrun. by eexists s, data, _.
Qed.

(** ** The two threads *)

Abbreviation chunk_item := (result ServerError (bytes * bool)).

(** The items that are on their way, for the bytes that are still to be sent; the flag
    says whether the reader is at its end. *)
Inductive feeds (tr : PullTransfer) : bytes → list chunk_item → bool → Prop :=
| feeds_open : pulling tr → rest tr ≠ [] → feeds tr (rest tr) [] false
| feeds_more data l items b :
    data ≠ [] → (length data ≤ block_size)%nat → feeds tr l items b →
    feeds tr (data ++ l) (Ok (data, false) :: items) b
| feeds_last data :
    data ≠ [] → (length data ≤ block_size)%nat → feeds tr data [Ok (data, true)] true
| feeds_error l e : feeds tr l [Err e] true.

Lemma feeds_next tr tr' l items item :
  feeds tr l items false → chunk_of tr tr' item → feeds tr' l (items ++ [item]) (is_final item).
Proof.
  intros Hf Hc. remember false as b eqn:Hb. induction Hf as [Hp Hne|data l items b Hd Hlen Hf IH| |]; try done.
  - destruct item as [[data is_last]|e]; [|constructor].
    destruct Hc as (Hp' & Hrest & Hd & Hlen & Hlast). rewrite Hrest. simpl. destruct is_last.
    + rewrite (proj1 Hlast eq_refl), app_nil_r. by constructor.
    + constructor; [done..|]. constructor; [done|]. intros Hn. by apply Hlast in Hn.
  - simpl. constructor; auto.
Qed.
Lemma feeds_not_nil tr l : ¬ feeds tr l [] true.
Proof. inversion 1. Qed.

Definition reader_item (pc : ReaderPc) : list chunk_item :=
  match pc with SendChunk item => [item] | _ => [] end.
Definition reader_final (pc : ReaderPc) : bool :=
  match pc with ReadNext => false | SendChunk item => is_final item | ReaderDone => true end.
Definition sender_item (pc : SenderPc) : list chunk_item :=
  match pc with SendFrame chunk => [Ok chunk] | _ => [] end.
Definition on_the_way (p : PullPipe) : list chunk_item :=
  sender_item (sender p) ++ chunks p ++ reader_item (reader p).

(** The verdict of the sender. *)
Definition sender_verdict (pc : SenderPc) : option (result ServerError unit) :=
  match pc with
  | RecvChunk | SendFrame _ => None
  | DropChunks r | JoinReader r | PullReturn r => Some r
  end.

Context (tr0 : PullTransfer) (stream0 : ServiceStream).

(** The frames sent so far are a beginning of the file, or all of it. *)
Definition open_frames (l : list (bytes * bool)) : Prop :=
  ∃ datas left, l = ((., false) <$> datas) ∧ rest tr0 = concat datas ++ left ∧
    Forall (λ d, d ≠ [] ∧ (length d ≤ block_size)%nat) datas.
Definition all_frames (l : list (bytes * bool)) : Prop :=
  ∃ datas data, l = ((., false) <$> datas) ++ [(data, true)] ∧ rest tr0 = concat datas ++ data ∧
    Forall (λ d, d ≠ [] ∧ (length d ≤ block_size)%nat) (datas ++ [data]).

Record pull_invariant (p : PullPipe) : Prop := {
  pull_inv_disk : undisturbed (tree (pull_source p).1);
  pull_inv_reader : reader_final (reader p) = false →
    pulling (pull_source p).2 ∧ rest (pull_source p).2 ≠ [];
  pull_inv_sent : ∃ sent, outgoing (pull_stream p) = outgoing stream0 ++ sent ∧
    match sender_verdict (sender p) with
    | None =>
        chunks_open p = true ∧
        ∃ datas left, sent = ((., false) <$> datas) ∧ rest tr0 = concat datas ++ left ∧
          Forall (λ d, d ≠ [] ∧ (length d ≤ block_size)%nat) datas ∧
          feeds (pull_source p).2 left (on_the_way p) (reader_final (reader p))
    | Some r =>
        (open_frames sent ∧ is_ok r = false) ∨ (all_frames sent ∧ reader p = ReaderDone)
    end;
  pull_inv_open : (∃ r, sender p = JoinReader r ∨ sender p = PullReturn r) → chunks_open p = false;
}.

Hypothesis begun_pulling : pulling tr0.
Hypothesis begun_rest : rest tr0 ≠ [].

Lemma pull_invariant_start d : undisturbed (tree d) → pull_invariant (pull_start (d, tr0) stream0).
Proof.
  intros Hu. split; [done|done| |by intros [r [?|?]]]. exists []. split; [by rewrite app_nil_r|]. simpl. split; [done|].
  exists [], (rest tr0). split_and!; [done..|]. by constructor.
Qed.

Lemma pull_invariant_reader p p' :
  pull_invariant p → reader_step block_size p = Some p' → pull_invariant p'.
Proof.
  intros [Hd Hr (sent & Hsent & Hv) Ho]. unfold reader_step.
  destruct (reader p) as [|item|] eqn:Hpc; [..|done]; simpl in Hr.
  - destruct (Hr eq_refl) as [Hpull _]. destruct (next_chunk block_size (pull_source p)) as [s item] eqn:Hn.
    rewrite (surjective_pairing (pull_source p)) in Hn.
    apply next_chunk_keeps in Hn as [Hu Hc]; [|done..]. intros [= <-]. split; simpl; [done| |..].
    + destruct item as [[data []]|e]; try done. destruct Hc as (? & _ & _ & _ & Hlast). split; [done|].
      intros Hn. by apply Hlast in Hn.
    + exists sent. split; [done|]. destruct (sender_verdict (sender p)) as [r|].
      * destruct Hv as [Hv|[_ Hv]]; [by left|done].
      * destruct Hv as [Hopen (datas & left & -> & Hrest & Hall & Hf)]. split; [done|].
        exists datas, left. split_and!; [done..|]. unfold on_the_way in *. rewrite Hpc in Hf. simpl in *.
        rewrite app_nil_r in Hf. rewrite app_assoc. by eapply feeds_next.
    + done.
  - destruct (chunks_open p) eqn:Hopen; simpl; [case_bool_decide as Hroom|]; [|done|]; intros [= <-].
    + split; simpl; [done| | |by rewrite Hopen].
      * intros Hfin. apply Hr. by destruct (is_final item).
      * exists sent. split; [done|]. destruct (sender_verdict (sender p)) as [r|].
        { destruct Hv as [Hv|[_ Hv]]; [by left|done]. }
        destruct Hv as [_ (datas & left & -> & Hrest & Hall & Hf)]. split; [done|].
        exists datas, left. split_and!; [done..|]. unfold on_the_way in *. rewrite Hpc in Hf. simpl in *.
        destruct (is_final item); simpl; by rewrite app_nil_r.
    + split; simpl; [done|done| |by rewrite Hopen].
      exists sent. split; [done|]. destruct (sender_verdict (sender p)) as [r|].
      { destruct Hv as [Hv|[_ Hv]]; [by left|done]. }
      by destruct Hv as [? _].
Qed.

Lemma send_data_run data b (s : ServiceStream) :
  (∃ s', send_data data b s = (s', Ok tt) ∧ outgoing s' = outgoing s ++ [(data, b)] ∧
         (answers s = [] → answers s' = [])) ∨
  (∃ s' e, send_data data b s = (s', Err e) ∧ outgoing s' = outgoing s ∧ answers s ≠ []).
Proof.
  unfold send_data, answer. destruct (answers s) as [|[e|] l] eqn:Ha.
  - left. eexists. split; [done|]. split; [done|]. by simpl.
  - right. by eexists _, _.
  - left. eexists. split; [done|]. split; [done|]. by simpl.
Qed.

(** A chunk was taken from the head of what is on the way, and sent. *)
Lemma feeds_sent tr left data is_last items b :
  feeds tr left (Ok (data, is_last) :: items) b →
  data ≠ [] ∧ (length data ≤ block_size)%nat ∧
  if is_last then left = data ∧ items = [] ∧ b = true
  else ∃ left', left = data ++ left' ∧ feeds tr left' items b.
Proof. inversion 1; subst; eauto 6. Qed.

Lemma open_frames_intro datas left :
  rest tr0 = concat datas ++ left → Forall (λ d, d ≠ [] ∧ (length d ≤ block_size)%nat) datas →
  open_frames ((., false) <$> datas).
Proof. intros Hr Hall. by exists datas, left. Qed.

Lemma pull_invariant_sender p p' :
  pull_invariant p → sender_step p = Some p' → pull_invariant p'.
Proof.
  intros [Hd Hr (sent & Hsent & Hv) Ho]. unfold sender_step.
  destruct (sender p) as [|[data is_last]|r|r|r] eqn:Hpc; [..|done]; simpl in Hv.
  - destruct Hv as [Hopen (datas & left & -> & Hrest & Hall & Hf)].
    unfold on_the_way in Hf. rewrite Hpc in Hf. simpl in Hf.
    destruct (chunks p) as [|[chunk|e] l] eqn:Hch.
    + destruct (reader p) eqn:Hrd; try done. simpl in Hf. by apply feeds_not_nil in Hf.
    + intros [= <-]. split; [done|done| |by intros [r [?|?]]]. simpl.
      exists ((., false) <$> datas). split; [done|]. split; [done|]. by exists datas, left.
    + intros [= <-]. split; [done|done| |by intros [r [?|?]]]. simpl.
      eexists. split; [done|]. left. split; [by eapply open_frames_intro|done].
  - destruct Hv as [Hopen (datas & left & -> & Hrest & Hall & Hf)].
    unfold on_the_way in Hf. rewrite Hpc in Hf. simpl in Hf.
    apply feeds_sent in Hf as (Hne & Hlen & Hf). simpl.
    destruct (send_data_run data is_last (pull_stream p)) as [(s' & -> & Hout & _)|(s' & e & -> & Hout & _)];
      intros [= <-]; (split; [done|done| |by destruct is_last; intros [r [?|?]]]); simpl;
      rewrite Hout, Hsent.
    + destruct is_last; simpl.
      * destruct Hf as (-> & Hnil & Hfin). apply app_eq_nil in Hnil as [Hch Hri].
        rewrite <-app_assoc. eexists. split; [done|]. right. split.
        { exists datas, data. split_and!; [done..|]. apply Forall_app. by rewrite Forall_singleton. }
        by destruct (reader p).
      * destruct Hf as (left' & -> & Hf). rewrite <-app_assoc. eexists. split; [done|]. split; [done|].
        exists (datas ++ [data]), left'. rewrite fmap_app, concat_app. simpl. rewrite app_nil_r, <-app_assoc.
        split_and!; [done..|apply Forall_app; by rewrite Forall_singleton|done].
    + eexists. split; [done|]. left. split; [by eapply open_frames_intro|done].
  - intros [= <-]. split; [done|done| |done]. by exists sent.
  - destruct (reader p) eqn:Hrd; try done. intros [= <-]. split; simpl; rewrite ?Hrd; [done|done| |].
    + by exists sent.
    + intros _. apply Ho. by exists r; left.
Qed.

Lemma pull_reachable d p :
  undisturbed (tree d) → rtc (pull_step block_size) (pull_start (d, tr0) stream0) p → pull_invariant p.
Proof.
  intros Hu. revert p. apply rtc_ind_r; [by apply pull_invariant_start|].
  intros p p' _ [Hs|Hs] IH; [by eapply pull_invariant_reader|by eapply pull_invariant_sender].
Qed.

(** ** Progress and termination *)

Lemma pull_no_deadlock p :
  pull_invariant p → (∃ r, sender p = PullReturn r) ∨ ∃ p', pull_step block_size p p'.
Proof.
  intros Hi. destruct (sender_step p) as [p'|] eqn:Hs; [right; exists p'; by right|].
  destruct (reader_step block_size p) as [p'|] eqn:Hr; [right; exists p'; by left|]. left.
  unfold sender_step, reader_step in *.
  destruct (sender p) as [|[data b]|r|r|r] eqn:Hpc; try done.
  - destruct (chunks p) as [|[]]; try done. destruct (reader p) as [|item|]; [|simpl in Hr|done].
    + by destruct (next_chunk _ _).
    + by destruct (chunks_open p).
  - by destruct (send_data _ _ _).
  - assert (Hc : chunks_open p = false) by (apply (pull_inv_open _ Hi); by exists r; left).
    rewrite Hc in Hr. destruct (reader p); [by destruct (next_chunk _ _)|done..].
  - by exists r.
Qed.

Definition reader_weight (p : PullPipe) : nat :=
  match reader p with
  | ReadNext => 4 * length (rest (pull_source p).2) + 3
  | SendChunk item => (if is_final item then 0 else 4 * length (rest (pull_source p).2)) + 6
  | ReaderDone => 0
  end.
Definition sender_weight (pc : SenderPc) : nat :=
  match pc with
  | RecvChunk => 3
  | SendFrame _ => 4
  | DropChunks _ => 2
  | JoinReader _ => 1
  | PullReturn _ => 0
  end.
Definition pull_weight (p : PullPipe) : nat := reader_weight p + 2 * length (chunks p) + sender_weight (sender p).

Lemma pull_weight_step p p' :
  pull_invariant p → pull_step block_size p p' → (pull_weight p' < pull_weight p)%nat.
Proof.
  intros Hi [Hs|Hs]; unfold pull_weight, reader_weight, reader_step, sender_step in *.
  - pose proof (pull_inv_reader _ Hi) as Hr.
    destruct (reader p) as [|item|] eqn:Hpc; [..|done]; simpl in Hr.
    + destruct (Hr eq_refl) as [Hp Hne]. destruct (next_chunk block_size (pull_source p)) as [s item] eqn:Hn.
      rewrite (surjective_pairing (pull_source p)) in Hn.
      apply next_chunk_keeps in Hn as [_ Hc]; [|apply Hi|done]. injection Hs as <-. simpl.
      assert (0 < length (rest (pull_source p).2))%nat by (by destruct (rest (pull_source p).2); simpl; [|lia]).
      destruct item as [[data is_last]|e]; simpl; [|lia].
      destruct Hc as (_ & -> & Hd & _). rewrite length_app in *.
      assert (0 < length data)%nat by (by destruct data; simpl; [|lia]). destruct is_last; simpl; lia.
    + destruct (chunks_open p); simpl in Hs; [case_bool_decide|]; simplify_eq; simpl.
      * rewrite length_app. simpl. destruct (is_final item); simpl; lia.
      * destruct (is_final item); lia.
  - destruct (sender p) as [|[data b]|r|r|r] eqn:Hpc; [..|done].
    + destruct (chunks p) as [|[chunk|e] l] eqn:Hch; [destruct (reader p) eqn:Hrd|..]; simplify_eq; simpl;
        rewrite ?Hrd, ?Hch; simpl; try lia; destruct (reader p); lia.
    + destruct (send_data _ _ _) as [s' [[]|e]]; simplify_eq; simpl; [destruct b; simpl|]; lia.
    + simplify_eq. simpl. destruct (reader p); lia.
    + destruct (reader p) eqn:Hrd; simplify_eq. simpl. rewrite Hrd. lia.
Qed.

Lemma pull_runs_end p : pull_invariant p → sn (pull_step block_size) p.
Proof.
  induction p as [p IH] using (induction_ltof1 _ pull_weight). intros Hi. constructor. intros p' Hs. apply IH.
  - unfold ltof. by apply pull_weight_step.
  - destruct Hs; [by eapply pull_invariant_reader|by eapply pull_invariant_sender].
Qed.

Lemma some_pull_returns d :
  undisturbed (tree d) → ∃ p r, pulled block_size (d, tr0) stream0 p r.
Proof.
  intros Hu. assert (Hgo : ∀ p, sn (pull_step block_size) p →
    rtc (pull_step block_size) (pull_start (d, tr0) stream0) p → ∃ p r, pulled block_size (d, tr0) stream0 p r).
  { intros p Hsn. induction Hsn as [p _ IH]. intros Hr.
    destruct (pull_no_deadlock _ (pull_reachable _ _ Hu Hr)) as [[r Ho]|[p' Hs]]; [by exists p, r|].
    apply (IH p' Hs). by eapply rtc_r. }
  eapply Hgo; [|apply rtc_refl]. by apply pull_runs_end, pull_invariant_start.
Qed.

Lemma pulled_frames d p r :
  undisturbed (tree d) → pulled block_size (d, tr0) stream0 p r →
  undisturbed (tree (pull_source p).1) ∧
  ∃ sent, outgoing (pull_stream p) = outgoing stream0 ++ sent ∧
    ((open_frames sent ∧ is_ok r = false) ∨ all_frames sent).
Proof.
  intros Hu [Hr Ho]. destruct (pull_reachable _ _ Hu Hr) as [Hd _ (sent & Hs & Hv) _].
  split; [done|]. exists sent. split; [done|]. rewrite Ho in Hv. simpl in Hv. destruct Hv as [Hv|[Hv _]]; auto.
Qed.

(** ** Without faults *)

Record pull_clear (p : PullPipe) : Prop := {
  clear_faults : faults (pull_source p).1 = [];
  clear_writable : writable (tree (pull_source p).1);
  clear_answers : answers (pull_stream p) = [];
  clear_items : Forall (λ item : chunk_item, is_ok item = true) (on_the_way p);
  clear_verdict : ∀ r, sender_verdict (sender p) = Some r → r = Ok tt;
}.

Lemma pull_clear_reader p p' :
  is_valid_transfer_id id = true →
  pull_invariant p → pull_clear p → reader_step block_size p = Some p' → pull_clear p'.
Proof.
  intros Hid Hi [Hf Hw Ha Hit Hv]. unfold reader_step, on_the_way in *.
  pose proof (pull_inv_reader _ Hi) as Hr.
  destruct (reader p) as [|item|] eqn:Hpc; [..|done]; simpl in *.
  - destruct (Hr eq_refl) as [Hp Hne].
    destruct (next_chunk_clear (pull_source p).1 (pull_source p).2) as (s & data & b & Hn & Hw' & Hf');
      [done|apply Hi|done..|].
    rewrite <-surjective_pairing in Hn. rewrite Hn. intros [= <-]. split; simpl; try done.
    unfold on_the_way. simpl. rewrite app_nil_r in Hit. rewrite app_assoc. apply Forall_app. by rewrite Forall_singleton.
  - destruct (chunks_open p); simpl; [case_bool_decide|]; [|done|]; intros [= <-]; split; simpl; try done;
      unfold on_the_way; simpl.
    + destruct (is_final item); simpl; by rewrite app_nil_r.
    + rewrite app_nil_r. rewrite app_assoc in Hit. by apply Forall_app in Hit as [? _].
Qed.

Lemma pull_clear_sender p p' :
  pull_invariant p → pull_clear p → sender_step p = Some p' → pull_clear p'.
Proof.
  intros Hi [Hf Hw Ha Hit Hv]. unfold sender_step. pose proof (pull_inv_sent _ Hi) as (sent & _ & Hsent).
  unfold on_the_way in Hit.
  destruct (sender p) as [|[data b]|r|r|r] eqn:Hpc; [..|done]; simpl in Hit, Hsent.
  - destruct Hsent as (_ & datas & left & _ & _ & _ & Hfeeds). unfold on_the_way in Hfeeds. rewrite Hpc in Hfeeds.
    destruct (chunks p) as [|[chunk|e] l] eqn:Hch; simpl in *.
    + destruct (reader p) eqn:Hrd; try done. by apply feeds_not_nil in Hfeeds.
    + intros [= <-]. by split.
    + apply Forall_cons in Hit as [? _]. done.
  - apply Forall_cons in Hit as [_ Hit]. simpl.
    destruct (send_data_run data b (pull_stream p)) as [(s' & -> & _ & Hans)|(s' & e & _ & _ & ?)]; [|done].
    intros [= <-]. destruct b; split; simpl; auto; by intros r [= <-].
  - intros [= <-]. split; simpl; try done. unfold on_the_way. simpl. by apply Forall_app in Hit as [_ ?].
  - destruct (reader p) eqn:Hrd; try done. intros [= <-]. split; simpl; try done.
    unfold on_the_way. simpl. by rewrite Hrd.
Qed.

Lemma pulled_clear d p r :
  is_valid_transfer_id id = true → undisturbed (tree d) → writable (tree d) → faults d = [] →
  answers stream0 = [] → pulled block_size (d, tr0) stream0 p r → r = Ok tt ∧ answers (pull_stream p) = [].
Proof.
  intros Hid Hu Hw Hf Ha [Hr Ho]. assert (Hc : pull_clear p).
  { clear Ho. revert p Hr. apply (rtc_ind_r pull_clear); [by split; [..|constructor|]|].
    intros p p' Hr [Hs|Hs] IH; pose proof (pull_reachable _ _ Hu Hr) as Hi;
      [by eapply pull_clear_reader|by eapply pull_clear_sender]. }
  split; [|apply Hc]. apply (clear_verdict _ Hc). by rewrite Ho.
Qed.
End chunks.
End one_pull.

(** ** Beginning a pull *)

Section begin.
Context `{PointerWidth, DirOrder, ReadSize, MetadataJson, !JsonLaws}.
Context (blake3 : bytes → bytes) (nfc : str → str).
Context (logical : str) (content : bytes) (x : bool) (t : gmap path Node).
Hypothesis target_outside : outside (target logical).
Hypothesis tree_valid : tree_ok t.
Hypothesis tree_layout : laid_out t.
Hypothesis target_file : t !! target logical = Some (Regular content x).
Hypothesis content_u64 : u64 (len content).

Lemma looks_existing current : looks (existing logical current) (λ _ _, True).
Proof.
  eapply looks_seq; [apply looks_catch_io, looks_symlink_metadata|]. intros [n|[]];
    [by apply looks_ret|apply looks_fail..].
Qed.

Lemma looks_target_components current components :
  looks (target_components logical current components) (λ _ p, p = current ++ components).
Proof.
  revert current. induction components as [|name components IH]; intros current; simpl.
  - apply looks_ret. intros _. by rewrite app_nil_r.
  - eapply looks_seq; [apply looks_existing|]. intros n. destruct (is_symlink n); [apply looks_fail|].
    eapply looks_conseq; [apply IH|]. intros t' p ->. by rewrite <-app_assoc.
Qed.

Lemma looks_open_existing_target : looks (open_existing_target logical) (λ _ p, p = target logical).
Proof.
  eapply looks_bind; [apply looks_target_components| |].
  - intros p. eapply looks_seq; [apply looks_metadata|]. intros n.
    case_match; [apply looks_fail|]. by apply (looks_ret _ (λ _ q, q = p)).
  - by intros t' p q -> ->.
Qed.

Lemma looks_hash_file h :
  looks (hash_file blake3 h) (λ t r, ∀ c y, t !! handle_path h = Some (Regular c y) →
    handle_path r.1 = handle_path h ∧ r.2 = bytes_hex (blake3 c)).
Proof.
  intros t'. eapply hoare_look; [apply looks_handle_len|done|]. intros n (c & y & Hf & ->).
  eapply hoare_look; [apply looks_hash_prefix, len_nonneg|done|]. intros [h' absorbed] Hr.
  apply hoare_ret. intros d Hd. split; [done|]. intros c' y' Hf'. destruct (Hr c' y' Hf') as [Hh Ha].
  assert (c' = c) as -> by congruence. cbn [fst snd] in *. by rewrite Ha, take_len.
Qed.

Lemma looks_pull_begun now oid offset size hash :
  looks (pull_begun blake3 now oid logical offset size hash)
    (λ _ m, version m = METADATA_VERSION ∧ total_size m = size ∧ file_hash m = hash ∧ next_offset m = offset).
Proof.
  destruct oid as [id|].
  - eapply looks_seq with (φ := λ _ _, True).
    { unfold validate_transfer_id. case_match; [by apply looks_ret|apply looks_fail]. }
    intros []. intros t'. eapply hoare_look; [apply looks_read_metadata|done|]. intros m (_ & Hv & _).
    eapply hoare_look with (φ := λ _ _, total_size m = size ∧ file_hash m = hash); [|done|].
    { unfold validate_metadata. destruct (_ && _) eqn:Hb; [|apply looks_fail]. apply looks_ret. intros _.
      apply andb_true_iff in Hb as [Hb Hhash%bool_decide_eq_true].
      apply andb_true_iff in Hb as [_ Hs%Z.eqb_eq]. done. }
    intros [] [Hs Hh]. by apply hoare_ret.
  - eapply looks_seq; [apply looks_allocate|]. intros id. by apply looks_ret.
Qed.

Lemma hoare_begin_pull now oid offset :
  0 ≤ offset →
  hoare (on_tree t) (begin_pull blake3 nfc now oid logical offset)
    (λ tr d, let id := transfer_id (pull_metadata tr) in
       undisturbed id t (tree d) ∧ writable id (tree d) ∧ pulling id (target logical) content tr ∧
       pull_offset tr = offset ∧ file_hash (pull_metadata tr) = bytes_hex (blake3 content))
    (λ _, True).
Proof.
  intros Hoff. eapply hoare_look; [apply looks_lift|done|]. intros l Hparse%map_err_ok.
  apply parse_sync_path_inv in Hparse as [-> _].
  eapply hoare_call; [by apply hoare_ensure_layout|done|]. intros [].
  eapply hoare_look; [apply looks_open_existing_target|done|]. intros p ->.
  eapply hoare_look; [apply looks_open_file|done|]. intros h [-> _].
  eapply hoare_look; [apply looks_handle_len|done|]. intros n (c & y & Hf & ->). cbn [handle_path] in Hf.
  assert (c = content) as -> by congruence. destruct (Z.ltb_spec (len content) offset); [by apply hoare_fail|].
  eapply hoare_look; [apply looks_hash_file|done|]. intros [h hash] Hr.
  destruct (Hr content x target_file) as [Hh Hhash]. cbn [fst snd] in *. clear Hr.
  eapply hoare_look; [apply looks_pull_begun|done|]. intros m0 (Hv & Hs & Hfh & Ho).
  eapply hoare_look; [apply looks_seek_start|done|]. intros h' ->.
  set (m := set_state _ m0). set (id := transfer_id m0).
  assert (Hm : describes_pull id content m) by (split; simpl; [done..|lia]).
  eapply hoare_call; [apply (hoare_write_metadata id m t tree_valid tree_layout)|done|].
  - done.
  - by eapply describes_pull_typed.
  - intros []. apply hoare_ret. intros d (Hstep & Hat & Hgone). cbv zeta. simpl. fold id. split_and!.
    + eapply undisturbed_step; [|exact Hstep]. by split.
    + by eapply written_writable.
    + split; [done|done|]. simpl. unfold pull_offset. simpl. lia.
    + done.
    + by rewrite Hfh.
Qed.
End begin.

(** ** Claims *)

(** The frames of the bytes [l]: the last one, and only it, ends the stream. *)
Definition whole_file (block_size : Z) (l : bytes) (sent : list (bytes * bool)) : Prop :=
  ∃ datas data, sent = ((., false) <$> datas) ++ [(data, true)] ∧ l = concat datas ++ data ∧
    Forall (λ d, len d ≤ block_size) (datas ++ [data]).
(** The first frames of them. *)
Definition part_of_file (block_size : Z) (l : bytes) (sent : list (bytes * bool)) : Prop :=
  ∃ datas left, sent = ((., false) <$> datas) ∧ l = concat datas ++ left ∧
    Forall (λ d, len d ≤ block_size) datas.

Section claims.
Context `{PointerWidth, DirOrder, ReadSize, MetadataJson, !JsonLaws, SyncJson}.
Context (blake3 : bytes → bytes) (nfc : str → str).

Lemma frames_of_rest (block_size : Z) tr content sent offset :
  0 < block_size → pull_offset tr = offset →
  (open_frames content (Z.to_nat block_size) tr sent → part_of_file block_size (drop (Z.to_nat offset) content) sent) ∧
  (all_frames content (Z.to_nat block_size) tr sent → whole_file block_size (drop (Z.to_nat offset) content) sent).
Proof.
  intros Hbs <-. assert (Hw : ∀ l : list bytes, Forall (λ d, d ≠ [] ∧ (length d ≤ Z.to_nat block_size)%nat) l →
    Forall (λ d, len d ≤ block_size) l).
  { intros l Hl. eapply Forall_impl; [exact Hl|]. intros d [_ Hd]. unfold len. lia. }
  split.
  - intros (datas & left & -> & Hr & Hall). exists datas, left. auto.
  - intros (datas & data & -> & Hr & Hall). exists datas, data. auto.
Qed.

Lemma send_reply_run r b (s : ServiceStream) :
  (∃ s' e, send_reply r b s = (s', Err e) ∧ outgoing s' = outgoing s) ∨
  (∃ s' bs, send_reply r b s = (s', Ok tt) ∧ encode_reply r = Some bs ∧ outgoing s' = outgoing s ++ [(bs, b)]).
Proof.
  unfold send_reply, mbnd, mlift. destruct (encode_reply r) as [bs|]; simpl; [|left; by eexists _, _].
  destruct (send_data_run bs b s) as [(s' & -> & Ho & _)|(s' & e & -> & Ho & _)]; eauto 8.
Qed.

Lemma close_outgoing (s : ServiceStream) : outgoing (close s).1 = outgoing s.
Proof. unfold close, answer. by destruct (answers s) as [|[]]. Qed.

Lemma pull_closed_run d r (s : ServiceStream) :
  let e := pull_closed d r s in
  e.1.1 = d ∧ outgoing e.1.2 = outgoing s ∧ (is_ok r = false → is_ok e.2 = false) ∧
  (r = Ok tt → answers s = [] → e.2 = Ok tt ∧ closed e.1.2 = true).
Proof.
  unfold pull_closed. destruct r as [[]|e]; [|done]. pose proof (close_outgoing s) as Hc.
  unfold close, answer in *. destruct (answers s) as [|[e|] l]; by simpl in *.
Qed.

(** What is sent after the reply. *)
Definition pull_sent (block_size : Z) (l : bytes) (sent : list (bytes * bool)) (r : result ServerError unit) : Prop :=
  whole_file block_size l sent ∨ (part_of_file block_size l sent ∧ is_ok r = false).

Lemma pull_outcome_sends id file content x t0 block_size tr d stream r :
  t0 !! file = Some (Regular content x) → outside file → u64 (len content) → 0 < block_size →
  undisturbed id t0 (tree d) → pulling id file content tr →
  pull_outcome block_size tr (d, stream) r →
  undisturbed id t0 (tree r.1.1) ∧
  (outgoing r.1.2 = outgoing stream ∧ is_ok r.2 = false ∨
   ∃ bs sent, encode_reply (pull_ready tr) = Some bs ∧ outgoing r.1.2 = outgoing stream ++ (bs, false) :: sent ∧
     pull_sent block_size (rest content tr) sent r.2).
Proof.
  intros Hfile Hout Hsize Hbs Hu Hp. unfold pull_outcome. cbn [fst snd].
  destruct (send_reply_run (pull_ready tr) false stream) as [(s' & e & -> & Ho)|(s' & bs & -> & Henc & Ho)].
  { intros ->. split; [done|]. by left. }
  assert (Hgo : ∀ sent o, o = outgoing s' ++ sent → o = outgoing stream ++ (bs, false) :: sent).
  { intros sent o ->. by rewrite Ho, <-app_assoc. }
  assert (Hnone : part_of_file block_size (rest content tr) []) by (by eexists [], _).
  destruct (pull_offset tr =? total_size (pull_metadata tr)) eqn:Hend.
  - apply Z.eqb_eq, (rest_nil id file content) in Hend; [|done].
    pose proof (round_end_keeps id file content t0 Hsize true d tr Hu Hp) as Hround.
    unfold round_end, mbnd in Hround. destruct (pull_finish (d, tr)) as [s1 [st|e]]; cbn [fst snd] in *.
    2:{ intros ->. destruct Hround as [Hu1 _]. split; [done|]. right. exists bs, []. split; [done|].
        split; [apply Hgo; by rewrite app_nil_r|]. by right. }
    destruct Hround as [Hu1 _]. destruct (send_data_run [] true s') as [(s2 & -> & Ho2 & _)|(s2 & e & -> & Ho2 & _)];
      intros ->; pose proof (pull_closed_run s1.1) as Hclose.
    + destruct (Hclose (Ok tt) s2) as (-> & -> & _). split; [done|]. right. exists bs, [([], true)].
      split; [done|]. split; [by apply Hgo|]. left. exists [], []. rewrite Hend. split_and!; [done..|].
      apply Forall_singleton. unfold len. simpl. lia.
    + destruct (Hclose (Err e) s2) as (-> & -> & Herr & _). split; [done|]. right. exists bs, [].
      split; [done|]. split; [apply Hgo; by rewrite Ho2, app_nil_r|]. right. auto.
  - intros (p & q & Hpulled & ->). pose proof (pull_closed_run (pull_source p).1 q (pull_stream p)) as (-> & -> & Herr & _).
    assert (Hne : rest content tr ≠ []) by (intros Hn; apply (rest_nil id file content) in Hn; [|done]; lia).
    destruct (pulled_frames id file content x t0 Hfile Hout Hsize (Z.to_nat block_size) ltac:(lia) tr s' Hp Hne d p q Hu Hpulled)
      as (Hu1 & sent & Hsent & Hcase). split; [done|]. right. exists bs, sent. split; [done|].
    split; [by apply Hgo|]. destruct (frames_of_rest block_size tr content sent _ Hbs eq_refl) as [Hopen Hall].
    destruct Hcase as [[Hf Hq]|Hf]; [right; auto|left; auto].
Qed.

Lemma pull_outcome_clear id file content x t0 block_size tr d stream :
  t0 !! file = Some (Regular content x) → outside file → u64 (len content) → 0 < block_size →
  undisturbed id t0 (tree d) → pulling id file content tr →
  is_valid_transfer_id id = true → writable id (tree d) → faults d = [] → answers stream = [] →
  is_Some (encode_reply (pull_ready tr)) →
  (∃ r, pull_outcome block_size tr (d, stream) r) ∧
  ∀ r, pull_outcome block_size tr (d, stream) r → r.2 = Ok tt ∧ closed r.1.2 = true.
Proof.
  intros Hfile Hout Hsize Hbs Hu Hp Hid Hw Hf Ha [bs Henc]. unfold pull_outcome. cbn [fst snd].
  assert (Hsend : send_reply (pull_ready tr) false stream = (add_outgoing (bs, false) stream, Ok tt)).
  { unfold send_reply, mbnd, mlift, send_data, answer. rewrite Henc. simpl. by rewrite Ha. }
  rewrite Hsend. set (s' := add_outgoing _ stream). assert (Ha' : answers s' = []) by done.
  destruct (pull_offset tr =? total_size (pull_metadata tr)) eqn:Hend.
  - apply Z.eqb_eq, (rest_nil id file content) in Hend; [|done].
    destruct (round_end_clear id file content t0 Hsize true d tr Hid Hu Hp Hw Hf ltac:(done)) as (s1 & Hround & _).
    unfold round_end, mbnd in Hround. destruct (pull_finish (d, tr)) as [s2 [st|e]]; [|done].
    destruct (send_data_run [] true s') as [(s3 & -> & _ & Ha3)|(s3 & e & _ & _ & ?)]; [|done].
    split; [by eexists|]. intros r ->. by apply (pull_closed_run s2.1 (Ok tt) s3); auto.
  - assert (Hne : rest content tr ≠ []) by (intros Hn; apply (rest_nil id file content) in Hn; [|done]; lia).
    assert (Hb : (0 < Z.to_nat block_size)%nat) by lia. split.
    + destruct (some_pull_returns id file content x t0 Hfile Hout Hsize _ Hb tr s' Hp Hne d Hu) as (p & r & Hr).
      eexists. exists p, r. done.
    + intros r (p & q & Hpulled & ->).
      destruct (pulled_clear id file content x t0 Hfile Hout Hsize _ Hb tr s' Hp Hne d p q Hid Hu Hw Hf Ha' Hpulled)
        as [-> Hap]. by apply (pull_closed_run (pull_source p).1 (Ok tt) (pull_stream p)).
Qed.

(** A pull sends the file and nothing else: after the reply, which tells the host the
    size and the digest of the contents, come frames of at most [block_size] bytes that
    are a beginning of the file from the offset on; when the stream is served without an
    error they are all of it, the last one and only it with END_STREAM.  This holds for
    every interleaving of the reader and the sender, with I/O errors and refused frames at
    any point, and the disk changes in nothing but the transfer's metadata. *)
Theorem pull_sends_the_file now oid logical offset block_size content x d d1 tr stream r :
  outside (target logical) → tree_ok (tree d) → laid_out (tree d) →
  tree d !! target logical = Some (Regular content x) → u64 (len content) → 0 ≤ offset → 0 < block_size →
  begin_pull blake3 nfc now oid logical offset d = (d1, Ok tr) →
  pull_outcome block_size tr (d1, stream) r →
  let id := transfer_id (pull_metadata tr) in
  total_size (pull_metadata tr) = len content ∧ file_hash (pull_metadata tr) = bytes_hex (blake3 content) ∧
  (∀ q, q ≠ metadata_path id → q ≠ metadata_temporary id → tree r.1.1 !! q = tree d !! q) ∧
  (outgoing r.1.2 = outgoing stream ∧ is_ok r.2 = false ∨
   ∃ bs sent, encode_reply (pull_ready tr) = Some bs ∧ outgoing r.1.2 = outgoing stream ++ (bs, false) :: sent ∧
     pull_sent block_size (drop (Z.to_nat offset) content) sent r.2).
Proof.
  intros Hout Ht Hl Hfile Hsize Hoff Hbs Hbegin Hrun id.
  pose proof (hoare_begin_pull blake3 nfc logical content x (tree d) Ht Hl Hfile Hsize now oid offset Hoff d eq_refl)
    as Hb. rewrite Hbegin in Hb. cbv zeta in Hb. fold id in Hb. destruct Hb as (Hu & _ & Hp & <- & Hhash).
  destruct (pull_outcome_sends id _ content x (tree d) block_size tr d1 stream r Hfile Hout Hsize Hbs Hu Hp Hrun)
    as [Hu1 Hsent]. split; [apply Hp|]. split; [done|]. split; [apply Hu1|]. exact Hsent.
Qed.

(** A pull comes to an end and succeeds when the disk has no faults and the connection
    accepts the frames: every interleaving returns [Ok] with the stream closed, and there is
    one. *)
Theorem undisturbed_pull_succeeds now oid logical offset block_size content x d d1 tr stream :
  outside (target logical) → tree_ok (tree d) → laid_out (tree d) →
  tree d !! target logical = Some (Regular content x) → u64 (len content) → 0 ≤ offset → 0 < block_size →
  begin_pull blake3 nfc now oid logical offset d = (d1, Ok tr) →
  is_valid_transfer_id (transfer_id (pull_metadata tr)) = true → faults d1 = [] → answers stream = [] →
  is_Some (encode_reply (pull_ready tr)) →
  (∃ r, pull_outcome block_size tr (d1, stream) r) ∧
  ∀ r, pull_outcome block_size tr (d1, stream) r → r.2 = Ok tt ∧ closed r.1.2 = true.
Proof.
  intros Hout Ht Hl Hfile Hsize Hoff Hbs Hbegin Hid Hf Ha Henc.
  pose proof (hoare_begin_pull blake3 nfc logical content x (tree d) Ht Hl Hfile Hsize now oid offset Hoff d eq_refl)
    as Hb. rewrite Hbegin in Hb. cbv zeta in Hb. destruct Hb as (Hu & Hw & Hp & _ & _).
  by eapply pull_outcome_clear.
Qed.
End claims.
