(* ===== verification/SyncListing.v ===== *)
(** * Listing a directory page by page

    [list_directory] returns at most [limit] entries after a cursor, in the order of their
    names.  A client that follows the cursors sees every entry once, in order. *)

From stdpp Require Import sorting.
From S2P Require Import Prelude Text BundleError Paths Utf8 Files FileHandles Rpc SyncStore SyncPush.
Local Open Scope Z_scope.
#[local] Existing Instance entry_le_dec.

(** ** The order of entries *)

Definition entry_lt (a b : SyncEntry) : Prop := name_lt (entry_name a) (entry_name b) = true.

Lemma name_lt_total a b :
  Forall scalar a → Forall scalar b → name_lt a b = false → name_lt b a = false → a = b.
Proof. intros Ha Hb H1 H2. apply as_bytes_inj; [done..|]. by apply bytes_lt_total. Qed.
Lemma name_lt_asym a b : name_lt a b = true → name_lt b a = false.
Proof.
  unfold name_lt. intros Hab. destruct (bytes_lt (as_bytes b) (as_bytes a)) eqn:Hba; [|done].
  pose proof (bytes_lt_trans _ _ _ Hab Hba) as Haa. by rewrite bytes_lt_irrefl in Haa.
Qed.

#[local] Instance entry_le_total : Total entry_le.
Proof.
  intros a b. unfold entry_le.
  destruct (name_lt (entry_name b) (entry_name a)) eqn:Hba; [right; by apply name_lt_asym|by left].
Qed.

(** ** Pages of a sorted list *)

Section pages.
Context (l : list SyncEntry).
Hypothesis names_valid : Forall (λ e, Forall scalar (entry_name e)) l.
Hypothesis names_distinct : NoDup (entry_name <$> l).

Lemma name_inj a b : a ∈ l → b ∈ l → entry_name a = entry_name b → a = b.
Proof.
  intros Ha Hb Heq. apply list_elem_of_lookup in Ha as [i Hi], Hb as [j Hj].
  assert (i = j) as ->; [|congruence].
  eapply NoDup_lookup; [exact names_distinct|..]; rewrite list_lookup_fmap; [by rewrite Hi|rewrite Hj; simpl; by rewrite Heq].
Qed.

Lemma le_or_lt a b : a ∈ l → b ∈ l → entry_le a b → a = b ∨ entry_lt a b.
Proof.
  intros Ha Hb Hle. rewrite Forall_forall in names_valid. unfold entry_lt.
  destruct (name_lt (entry_name a) (entry_name b)) eqn:Hlt; [by right|left].
  apply name_inj; [done..|]. apply name_lt_total; auto.
Qed.

Definition full : list SyncEntry := merge_sort entry_le l.
Lemma full_perm : full ≡ₚ l.
Proof. apply merge_sort_Permutation. Qed.

(** Sorting gives names that increase strictly. *)
Lemma sorted_increasing k :
  Sorted entry_le k → (∀ e, e ∈ k → e ∈ l) → NoDup k → StronglySorted entry_lt k.
Proof.
  intros Hs Hin Hnd. apply Sorted_StronglySorted.
  { intros a b c. unfold entry_lt, name_lt. apply bytes_lt_trans. }
  induction Hs as [|a k Hs IH Hhd]; [constructor|]. apply NoDup_cons in Hnd as [Ha Hnd].
  constructor; [apply IH; [|done]; intros e He; apply Hin; by right|].
  destruct Hhd as [|b k Hle]; constructor.
  destruct (le_or_lt a b) as [->|]; [apply Hin; by left|apply Hin; right; by left|done| |done].
  destruct Ha. by left.
Qed.
Lemma l_NoDup : NoDup l.
Proof. by eapply NoDup_fmap_1. Qed.
Lemma full_increasing : StronglySorted entry_lt full.
Proof.
  apply sorted_increasing; [apply Sorted_merge_sort, _|intros e; by rewrite full_perm|].
  rewrite full_perm. apply l_NoDup.
Qed.

Abbreviation after c := (λ e : SyncEntry, after_cursor (Some c) (entry_name e) = true).

Lemma filter_after e k :
  StronglySorted entry_lt k → ∀ i, k !! i = Some e → filter (after (entry_name e)) k = drop (S i) k.
Proof.
  induction 1 as [|a k Hs IH Hall]; [done|]. intros [|i] Hi.
  - injection Hi as ->. rewrite filter_cons_False by (simpl; unfold name_lt; by rewrite bytes_lt_irrefl).
    simpl. rewrite drop_0. clear -Hall. induction Hall as [|b k Hb _ IH]; [done|].
    by rewrite filter_cons_True, IH.
  - simpl in Hi. rewrite filter_cons_False; [by rewrite (IH i Hi)|].
    rewrite Forall_forall in Hall. simpl. rewrite name_lt_asym; [done|].
    apply Hall. by eapply list_elem_of_lookup_2.
Qed.

(** What comes after the entry at [i]. *)
Lemma page_after i e :
  full !! i = Some e → merge_sort entry_le (filter (after (entry_name e)) l) = drop (S i) full.
Proof.
  intros Hi. apply (StronglySorted_unique_strong entry_lt).
  - intros a b _ _ Hab Hba. unfold entry_lt in *. rewrite (name_lt_asym _ _ Hab) in Hba. done.
  - apply sorted_increasing; [apply Sorted_merge_sort, _|..].
    + intros x. rewrite merge_sort_Permutation. by intros [_ ?]%list_elem_of_filter.
    + rewrite merge_sort_Permutation. apply NoDup_filter, l_NoDup.
  - pose proof full_increasing as Hs. rewrite <-(take_drop (S i) full) in Hs.
    by apply StronglySorted_app in Hs as (_ & _ & Hs).
  - rewrite merge_sort_Permutation, <-full_perm at 1. by rewrite (filter_after e full full_increasing i Hi).
Qed.
End pages.

(** ** What is listed *)

Section listing.
Context `{PointerWidth, DirOrder, ReadSize, MetadataJson}.
Context (nfc : str → str) (t : gmap path Node).
Hypothesis tree_valid : tree_ok t.
Hypothesis tree_layout : laid_out t.

(** The entry of a name in a directory. *)
Definition entry_of (directory : path) (file_name : bytes) : option SyncEntry :=
  name ← from_utf8 file_name;
  match t !! (directory ++ [file_name]) with
  | Some (Regular c x) =>
      Some {| entry_name := name; entry_kind := SyncEntryKind.File; entry_size := len c |}
  | Some Directory =>
      Some {| entry_name := name; entry_kind := SyncEntryKind.Directory; entry_size := 0 |}
  | _ => None
  end.

(** A directory that can be listed: names that are logical paths of one component, no
    symbolic links, and not too many entries. *)
Record listable (directory : path) : Prop := {
  listable_names : ∀ file_name, file_name ∈ children t directory →
    ∃ name, from_utf8 file_name = Some name ∧ parse_sync_path nfc name = Ok name ∧
            contains SLASH name = false ∧ (∀ l, t !! (directory ++ [file_name]) ≠ Some (Symlink l));
  listable_size : len (children t directory) ≤ MAX_DIRECTORY_ENTRIES;
}.

Section one_directory.
Context (directory : path).
Hypothesis directory_listable : listable directory.

Lemma evals_describe file_name :
  file_name ∈ children t directory →
  ∃ e, entry_of directory file_name = Some e ∧ evals t (describe_entry nfc directory file_name) (Ok e) t ∧
    from_utf8 file_name = Some (entry_name e).
Proof.
  intros Hin. destruct (listable_names _ directory_listable _ Hin) as (name & Hu & Hp & _ & Hns).
  apply elem_of_children in Hin as [n Hn]. unfold entry_of. rewrite Hu, Hn. simpl.
  assert (Hev : ∀ e, (match n with
      | Symlink _ => mfail StoreError.UnsafePath
      | Regular _ _ => mret {| entry_name := name; entry_kind := SyncEntryKind.File; entry_size := node_len n |}
      | Directory => mret {| entry_name := name; entry_kind := SyncEntryKind.Directory; entry_size := 0 |}
      end : store_op SyncEntry) = mret e → evals t (describe_entry nfc directory file_name) (Ok e) t).
  { intros e He. unfold describe_entry, parse_path. rewrite Hu.
    eapply evals_bind; [apply evals_lift|]. rewrite Hp. eapply evals_bind; [apply evals_lift|].
    eapply evals_bind.
    - pose proof (evals_symlink_metadata (E := StoreError) t (directory ++ [file_name])) as Hs.
      rewrite (stat_complete _ _ _ tree_valid Hn) in Hs. exact Hs.
    - rewrite He. apply evals_ret. }
  destruct n as [c x| |target]; [..|by destruct (Hns target)]; eexists; (split; [done|]); (split; [by apply Hev|done]).
Qed.

Definition page (cursor : option str) (names : list bytes) : list SyncEntry :=
  filter (λ e, after_cursor cursor (entry_name e) = true) (omap (entry_of directory) names).

Lemma evals_collect cursor names acc :
  (∀ name, name ∈ names → name ∈ children t directory) →
  len acc + len names ≤ MAX_DIRECTORY_ENTRIES →
  evals t (collect_entries nfc directory cursor names acc) (Ok (acc ++ page cursor names)) t.
Proof.
  revert acc. induction names as [|name names IH]; intros acc Hin Hlen; simpl.
  { rewrite app_nil_r. apply evals_ret. }
  assert (Hcons : len (name :: names) = 1 + len names) by (unfold len; simpl; lia).
  rewrite Hcons in Hlen. pose proof (len_nonneg names). rewrite (proj2 (Z.leb_gt _ _)) by lia.
  destruct (evals_describe name) as (e & He & Hev & _); [apply Hin; by left|].
  eapply evals_bind; [exact Hev|]. unfold page. simpl. rewrite He.
  assert (Hrest : ∀ acc', len acc' ≤ len acc + 1 →
    evals t (collect_entries nfc directory cursor names acc') (Ok (acc' ++ page cursor names)) t).
  { intros acc' Hacc. apply IH; [intros n Hn; apply Hin; by right|lia]. }
  destruct (after_cursor cursor (entry_name e)) eqn:Ha.
  - rewrite filter_cons_True by done. specialize (Hrest (acc ++ [e])). rewrite <-app_assoc in Hrest.
    apply Hrest. rewrite len_app. unfold len. simpl. lia.
  - rewrite filter_cons_False by congruence. apply Hrest. lia.
Qed.

Definition all_entries : list SyncEntry := omap (entry_of directory) (dir_order (children t directory)).

Lemma entries_names l :
  (∀ name, name ∈ l → name ∈ children t directory) →
  Forall2 (λ name e, from_utf8 name = Some (entry_name e)) l (omap (entry_of directory) l).
Proof.
  induction l as [|name l IH]; intros Hin; simpl; [constructor|].
  destruct (evals_describe name) as (e & He & _ & Hu); [apply Hin; by left|]. rewrite He.
  constructor; [done|]. apply IH. intros n Hn. apply Hin. by right.
Qed.
Lemma listed_names name : name ∈ dir_order (children t directory) → name ∈ children t directory.
Proof. by rewrite dir_order_perm. Qed.

Lemma all_entries_valid : Forall (λ e, Forall scalar (entry_name e)) all_entries.
Proof.
  pose proof (entries_names _ listed_names) as Hf. unfold all_entries. rewrite Forall_forall. intros e He.
  apply list_elem_of_lookup in He as [i Hi]. destruct (Forall2_lookup_r _ _ _ _ _ Hf Hi) as (name & _ & Hn).
  by apply from_utf8_Some in Hn as [_ ?].
Qed.
Lemma all_entries_distinct : NoDup (entry_name <$> all_entries).
Proof.
  pose proof (entries_names _ listed_names) as Hf.
  assert (Hnd : NoDup (dir_order (children t directory))) by (rewrite dir_order_perm; apply NoDup_children).
  unfold all_entries. apply NoDup_alt. intros i j name Hi Hj.
  rewrite list_lookup_fmap in Hi, Hj. apply fmap_Some in Hi as (e1 & Hi & ->), Hj as (e2 & Hj & Heq).
  destruct (Forall2_lookup_r _ _ _ _ _ Hf Hi) as (n1 & H1' & Hn1), (Forall2_lookup_r _ _ _ _ _ Hf Hj) as (n2 & H2' & Hn2).
  eapply (NoDup_lookup _ _ _ n1); [exact Hnd|done|]. rewrite H2'. f_equal. eapply from_utf8_inj; [exact Hn2|].
  by rewrite <-Heq.
Qed.

(** The names of the entries can be used as cursors. *)
Lemma all_entries_cursors e :
  e ∈ all_entries → evals t (parse_cursor nfc (Some (entry_name e))) (Ok (Some (entry_name e))) t.
Proof.
  intros He. pose proof (entries_names _ listed_names) as Hf.
  apply list_elem_of_lookup in He as [i Hi]. destruct (Forall2_lookup_r _ _ _ _ _ Hf Hi) as (fn & Hl & Hn).
  apply list_elem_of_lookup_2, listed_names in Hl.
  destruct (listable_names _ directory_listable _ Hl) as (name & Hu & Hp & Hc & _).
  assert (name = entry_name e) as -> by congruence. unfold parse_cursor, parse_path. rewrite Hp.
  eapply evals_bind; [apply evals_lift|]. rewrite Hc. apply evals_ret.
Qed.
End one_directory.

Lemma evals_directory_components logical current components :
  t !! (current ++ components) = Some Directory →
  evals t (directory_components logical current components) (Ok (current ++ components)) t.
Proof.
  revert current. induction components as [|name components IH]; intros current Hd; simpl.
  { rewrite app_nil_r. apply evals_ret. }
  replace (current ++ name :: components) with ((current ++ [name]) ++ components) in *
    by (by rewrite <-app_assoc).
  assert (Hn : t !! (current ++ [name]) = Some Directory).
  { destruct components; [by rewrite app_nil_r in Hd|]. eapply tree_ok_prefix; [exact tree_valid|by eexists|done]. }
  eapply evals_bind with (a := Directory).
  - pose proof (evals_catch (E := StoreError) t _ _ _
      (evals_symlink_metadata (E := IoErrorKind) t (current ++ [name]))) as Hs.
    rewrite (stat_complete _ _ _ tree_valid Hn) in Hs. eapply evals_bind; [exact Hs|]. apply evals_ret.
  - simpl. by apply IH.
Qed.

(** ** Pages *)

Section pages_of.
Context (logical : str).
Let directory : path := component_names logical.
Hypothesis logical_path : parse_sync_path nfc logical = Ok logical.
Hypothesis is_directory : t !! directory = Some Directory.
Hypothesis directory_listable : listable directory.

Definition listing : list SyncEntry := full (all_entries directory).

(** One call, with what remains to be listed after the cursor. *)
Lemma evals_list_directory cursor limit remaining :
  1 ≤ limit ≤ 1024 → evals t (parse_cursor nfc cursor) (Ok cursor) t →
  merge_sort entry_le (page directory cursor (dir_order (children t directory))) = remaining →
  evals t (list_directory nfc logical cursor limit)
    (Ok {| list_remote_path := logical; entries := take (Z.to_nat limit) remaining;
           next_cursor := if limit <? len remaining
                          then entry_name <$> remaining !! (Z.to_nat limit - 1)%nat else None |}) t.
Proof.
  intros Hlim Hcur <-. unfold list_directory, parse_path.
  rewrite (proj2 (Z.eqb_neq _ _)), (proj2 (Z.ltb_ge _ _)) by lia. cbn [orb]. rewrite logical_path.
  eapply evals_bind; [apply evals_lift|]. eapply evals_bind; [exact Hcur|].
  eapply evals_bind; [by apply evals_ensure_layout|].
  eapply evals_bind; [by apply (evals_directory_components logical [])|].
  eapply evals_bind; [apply evals_read_dir; by apply stat_complete|].
  eapply evals_bind; [apply (evals_collect directory directory_listable)|apply evals_ret].
  - apply listed_names.
  - pose proof (listable_size _ directory_listable) as Hs. unfold len in *. simpl.
    by rewrite (Permutation_length (dir_order_perm (children t directory))).
Qed.

(** A client that follows the cursors. *)
Fixpoint list_all (fuel : nat) (cursor : option str) (limit : Z) : store_op (list SyncEntry) :=
  match fuel with
  | O => mret []
  | S fuel =>
      let! r := list_directory nfc logical cursor limit in
      match next_cursor r with
      | None => mret (entries r)
      | Some c =>
          let! l := list_all fuel (Some c) limit in
          mret (entries r ++ l)
      end
  end.

Lemma evals_list_all fuel i cursor limit :
  1 ≤ limit ≤ 1024 → (length (drop i listing) < fuel)%nat →
  evals t (parse_cursor nfc cursor) (Ok cursor) t →
  merge_sort entry_le (page directory cursor (dir_order (children t directory))) = drop i listing →
  evals t (list_all fuel cursor limit) (Ok (drop i listing)) t.
Proof.
  intros Hlim. revert i cursor. induction fuel as [|fuel IH]; intros i cursor Hfuel Hcur Hrest; [lia|].
  simpl. eapply evals_bind; [by apply evals_list_directory|]. cbn [next_cursor entries].
  destruct (Z.ltb_spec limit (len (drop i listing))) as [Hmore|Hend].
  2:{ rewrite take_ge by (unfold len in *; lia). apply evals_ret. }
  destruct (lookup_lt_is_Some_2 (drop i listing) (Z.to_nat limit - 1)) as [e He]; [unfold len in *; lia|].
  rewrite He. simpl. eapply evals_bind with (a := drop (Z.to_nat limit) (drop i listing));
    [|rewrite take_drop; apply evals_ret].
  rewrite lookup_drop in He. rewrite drop_drop. replace (i + Z.to_nat limit)%nat with (S (i + (Z.to_nat limit - 1))) by lia.
  apply IH.
  - unfold len in Hmore. rewrite length_drop in *. lia.
  - apply (all_entries_cursors directory directory_listable). apply list_elem_of_lookup_2 in He.
    unfold listing in He. by rewrite full_perm in He.
  - apply page_after; [by apply all_entries_valid|by apply all_entries_distinct|exact He].
Qed.
End pages_of.
End listing.

(** C35: A client that lists a directory page by page, giving each call the cursor the last one
    returned, gets every entry of the directory exactly once, with its kind and size, in
    strictly increasing order of the names' bytes, for every [limit] between 1 and 1024 and
    every order in which the system reads the directory; the listing ends after at most one
    call per entry. *)
Theorem pages_list_the_directory `{PointerWidth, DirOrder, ReadSize, MetadataJson} nfc t logical limit :
  let directory := component_names logical in
  tree_ok t → laid_out t → parse_sync_path nfc logical = Ok logical → t !! directory = Some Directory →
  listable nfc t directory → 1 ≤ limit ≤ 1024 →
  ∃ l, evals t (list_all nfc logical (S (length (children t directory))) None limit) (Ok l) t ∧
    l ≡ₚ omap (entry_of t directory) (children t directory) ∧
    length l = length (children t directory) ∧ StronglySorted entry_lt l.
Proof.
  intros directory Ht Hl Hpath Hdir Hlist Hlim. exists (listing t logical).
  assert (Hperm : listing t logical ≡ₚ omap (entry_of t directory) (children t directory)).
  { unfold listing. rewrite full_perm. unfold all_entries. by rewrite dir_order_perm. }
  assert (Hlen : length (listing t logical) = length (children t directory)).
  { rewrite (Permutation_length Hperm).
    by rewrite <-(Forall2_length _ _ _ (entries_names nfc t Ht directory Hlist (children t directory) (λ _ H, H))). }
  split_and!; [|done..|].
  - rewrite <-(drop_0 (listing t logical)). apply evals_list_all; try done.
    + rewrite drop_0, Hlen. lia.
    + apply evals_ret.
    + rewrite drop_0. unfold page, listing, full, all_entries. f_equal. simpl.
      generalize (omap (entry_of t (component_names logical)) (dir_order (children t (component_names logical)))).
      intros k. induction k as [|e k IH]; [done|]. by rewrite filter_cons_True, IH.
  - apply full_increasing; [by eapply all_entries_valid|by eapply all_entries_distinct].
Qed.
