(* ===== verification/SyncSamples.v ===== *)
(** * Runs of the sync store

    A store with a concrete codec and digest, on which the claims of [SyncResume.v] are
    applied, and runs that show what the code does in corners. *)

From S2P Require Import Prelude Text WireFrame Actor BundleError Paths Utf8 Files FileHandles Rpc SyncStore SyncPush Pipeline SyncStream SyncResume SyncPull SyncListing.
Local Open Scope Z_scope.

(** A codec: the digits of a number that stands for the record. *)
Fixpoint digits (p : positive) : bytes :=
  match p with
  | xH => []
  | xO p => x30 :: digits p
  | xI p => x31 :: digits p
  end.
Fixpoint number (l : bytes) : positive :=
  match l with
  | [] => xH
  | x30 :: l => xO (number l)
  | _ :: l => xI (number l)
  end.
Lemma number_digits p : number (digits p) = p.
Proof. induction p; simpl; congruence. Qed.

Abbreviation field := (Z + (bytes + str))%type.
Definition to_fields (m : TransferMetadata) : list field :=
  [inl (version m); inr (inl (transfer_id m));
   inl match direction m with TransferDirection.Push => 1 | TransferDirection.Pull => 0 end;
   inr (inr (remote_path m)); inl (total_size m); inr (inl (file_hash m)); inl (next_offset m);
   inl match state m with TransferState.Complete => 1 | TransferState.InProgress => 0 end].
Definition of_fields (l : list field) : option TransferMetadata :=
  match l with
  | [inl ver; inr (inl id); inl dir; inr (inr path); inl size; inr (inl hash); inl offset; inl st] =>
      Some {| version := ver; transfer_id := id;
              direction := if dir =? 1 then TransferDirection.Push else TransferDirection.Pull;
              remote_path := path; total_size := size; file_hash := hash; next_offset := offset;
              state := if st =? 1 then TransferState.Complete else TransferState.InProgress |}
  | _ => None
  end.
Lemma of_to_fields m : of_fields (to_fields m) = Some m.
Proof. by destruct m as [? ? [] ? ? ? ? []]. Qed.

#[local] Instance number_json : MetadataJson := {|
  to_vec m := Some (digits (encode (to_fields m)));
  from_slice l := decode (number l) ≫= of_fields;
|}.
#[local] Instance number_json_laws : JsonLaws.
Proof.
  split; [by eexists|]. intros m bs _ [= <-]. unfold from_slice, number_json. rewrite number_digits, decode_encode.
  apply of_to_fields.
Qed.
#[local] Instance silent_replies : SyncJson := {|
  encode_reply _ := Some [];
  decode_request _ := None;
|}.

(** A digest: the file's first 32 bytes. *)
Definition first_bytes (l : bytes) : bytes := take 32 (l ++ replicate 32 x00).
Definition any_hash (l : bytes) : option bytes := Some l.
Definition no_links (p : path) : bool := false.
Definition same_form (s : str) : str := s.

Definition new_disk : Disk :=
  {| tree := {[ [] := Directory; stage_root := Directory ]}; faults := []; temp_counter := 0; process_id := 7 |}.
Definition document : bytes := text "hello".
Definition document_path : str := [98; 47; 97].
Definition document_hash : bytes := bytes_hex (first_bytes document).

Definition begun : Disk * result StoreError PushTransfer :=
  begin_push first_bytes any_hash same_form 5 None document_path (len document) document_hash new_disk.
Definition begun_id : bytes := match begun.2 with Ok tr => transfer_id (push_metadata tr) | Err _ => [] end.
Definition begun_transfer : PushTransfer :=
  match begun.2 with
  | Ok tr => tr
  | Err _ => {| push_metadata := {| version := 0; transfer_id := []; direction := TransferDirection.Pull;
                  remote_path := []; total_size := 0; file_hash := []; next_offset := 0;
                  state := TransferState.InProgress |};
                push_file := None; hasher := []; push_next_checkpoint := 0 |}
  end.
Lemma begun_ok : begun = (begun.1, Ok begun_transfer).
Proof.
  assert (Hok : is_ok begun.2 = true) by (vm_compute; reflexivity).
  unfold begun_transfer. destruct begun as [d r]. simpl in *. by destruct r.
Qed.

Definition data_frame (payload : bytes) (last : bool) : Frame :=
  {| header := {| major := 1; minor := 0; command := Command.Data; flags := if last then 1 else 0; stream_id := 1;
                  sequence := 0; payload_length := len payload; credit_delta := 0; reserved := 0 |};
     payload := payload |}.
Definition stream_of (l : list (result ConnectionError Frame)) : ServiceStream :=
  {| incoming := l; answers := []; outgoing := []; closed := false; reset_with := None |}.
(** The connection is lost after three bytes. *)
Definition broken_stream : ServiceStream :=
  stream_of [Ok (data_frame (text "hel") false); Err ConnectionError.Disconnected].

Definition ready_stream : ServiceStream := (send_reply (push_ready begun_transfer) false broken_stream).1.
Definition broken_run : Pipe :=
  run_schedule push_read push_write push_stored push_must_drain (concat (replicate 40 [true; false]))
    (start {| receive_stream := ready_stream; receive_block_size := 4; end_stream_received := false |}
       {| written_to := (begun.1, begun_transfer); hashed := hasher begun_transfer |}).

Definition broken_outcome : PipelineOutcome Z ServerError :=
  match producer broken_run with
  | Producer.Return o => o
  | _ => {| outcome := Ok tt; last_written := None |}
  end.
Definition broken_end : (Disk * ServiceStream) * result ServerError unit :=
  push_received first_bytes same_form no_links broken_run broken_outcome.

Lemma new_disk_ok : tree_ok (tree new_disk) ∧ laid_out (tree new_disk).
Proof.
  split; [apply tree_ok_forall, (bool_decide_unpack _); vm_compute; done|].
  split; vm_compute; reflexivity.
Qed.
Lemma document_outside : outside (target document_path).
Proof. by exists (text "b"), [text "a"]. Qed.
Lemma document_size : u64 (len document).
Proof. by split. Qed.

Lemma broken_received :
  push_outcome first_bytes same_form no_links 4 begun_transfer (begun.1, broken_stream) broken_end.
Proof.
  unfold push_outcome. cbn [fst snd]. change (send_reply _ _ _) with (ready_stream, Ok tt : result ServerError unit).
  assert (is_complete begun_transfer = false) as -> by (vm_compute; reflexivity).
  exists broken_run, broken_outcome. split; [|done]. split; [apply run_schedule_steps|].
  vm_compute. reflexivity.
Qed.

(** The frames of [broken_stream] are a beginning of the document. *)
Lemma broken_session (Good : bytes → Prop) :
  Good (text "hel") →
  push_session first_bytes any_hash same_form no_links document_path (len document) document_hash Good
    new_disk begun_id broken_end.1.1.
Proof.
  intros Hg. exists 5, 4, begun.1, begun_transfer, broken_stream, broken_end. split; [apply begun_ok|].
  split; [unfold begun_id; by rewrite begun_ok|]. split; [done|]. split; [apply broken_received|apply rtc_refl].
Qed.

Lemma interrupted_push_keeps_a_prefix_witness :
  broken_end.2 = Err (ServerError.Connection ConnectionError.Disconnected) ∧
  ((∃ c, c `prefix_of` document ∧
     in_progress begun_id document_path (len document) document_hash (tree new_disk) c (tree broken_end.1.1)) ∨
   (∃ s, committed begun_id document_path (len document) document_hash (tree new_disk) s document
           (tree broken_end.1.1))).
Proof.
  split; [vm_compute; reflexivity|].
  apply (interrupted_push_keeps_a_prefix first_bytes any_hash same_form no_links document_path document new_disk).
  - exact document_outside.
  - exact document_size.
  - apply new_disk_ok.
  - apply new_disk_ok.
  - apply broken_session. by exists (text "lo").
Defined.

Lemma push_commits_only_the_announced_file_witness :
  (tree broken_end.1.1 !! target document_path = tree new_disk !! target document_path ∨
   ∃ c x, tree broken_end.1.1 !! target document_path = Some (Regular c x) ∧ len c = len document ∧
          bytes_hex (first_bytes c) = document_hash) ∧
  framed begun_id document_path (tree new_disk) (tree broken_end.1.1).
Proof.
  apply (push_commits_only_the_announced_file first_bytes any_hash same_form no_links document_path
    (len document) document_hash new_disk).
  - exact document_outside.
  - exact document_size.
  - apply new_disk_ok.
  - apply new_disk_ok.
  - by apply broken_session.
Defined.

(** The push that was begun, before any data. *)
Lemma begun_progress :
  in_progress begun_id document_path (len document) document_hash (tree new_disk) [] (tree begun.1).
Proof.
  destruct new_disk_ok as [Ht Hl].
  pose proof (hoare_begin_new first_bytes any_hash same_form document_path (len document) document_hash
    document_outside 5 _ document_size Ht Hl new_disk eq_refl) as Hb.
  unfold begun_id. fold begun in Hb.
  assert (Hok : is_ok begun.2 = true) by (rewrite begun_ok; reflexivity).
  destruct begun as [d [tr|e]]; [|done]. apply Hb.
Qed.
Lemma document_accepted : accepted any_hash same_form begun_id document_path (len document) document_hash.
Proof. split; [vm_compute; reflexivity..|by eexists|exact document_size]. Qed.

Definition whole_frames : list Frame := [data_frame (text "hell") false; data_frame (text "o") true].

Lemma undisturbed_stream_completes_the_push_witness :
  let run := serve_request first_bytes any_hash same_form no_links 9 false
               (Push (Some begun_id) document_path (len document) document_hash 4)
               (begun.1, stream_of (Ok <$> whole_frames)) in
  (∃ r, run r) ∧
  ∀ r, run r → r.2 = Ok tt ∧
    committed begun_id document_path (len document) document_hash (tree new_disk) TransferState.Complete
      document (tree r.1.1).
Proof.
  apply (undisturbed_stream_completes_the_push first_bytes any_hash same_form no_links 9 document_path
    document [] (tree new_disk) begun_id 4 whole_frames).
  - exact document_accepted.
  - exact document_outside.
  - split; [|done]. intros q [k Hk] Hne. change (target document_path) with [text "b"; text "a"] in *.
    destruct q as [|x q]; [by right|]. injection Hk as <- Hk.
    destruct q as [|y q]; [by left|]. injection Hk as <- Hk. by destruct q.
  - exact begun_progress.
  - vm_compute. reflexivity.
  - reflexivity.
  - by vm_compute.
  - split; [|repeat constructor; done].
    exists [data_frame (text "hell") false], (data_frame (text "o") true).
    split; [done|]. split; [repeat constructor|]; reflexivity.
  - reflexivity.
  - reflexivity.
  - intros r. by eexists.
Defined.

(** The whole file was received and renamed, and the process stopped there. *)
Definition received_disk : Disk :=
  set_tree (<[part_path begun_id := Regular document false]> (tree begun.1)) begun.1.
Definition stranded : Disk :=
  (commit_target no_links document_path (part_path begun_id) received_disk).1.

Lemma stranded_committed :
  committed begun_id document_path (len document) document_hash (tree new_disk) TransferState.InProgress
    document (tree stranded).
Proof.
  assert (Hx : tree begun.1 !! part_path begun_id = Some (Regular [] false)) by (vm_compute; reflexivity).
  assert (Hp : in_progress begun_id document_path (len document) document_hash (tree new_disk) document
    (tree received_disk)) by (eapply in_progress_part; [exact document_outside|exact begun_progress|exact Hx]).
  pose proof (hoare_commit_target no_links _ _ _ _ _ document_outside document received_disk Hp) as Hc.
  assert (Hok : is_ok (commit_target no_links document_path (part_path begun_id) received_disk).2 = true)
    by (vm_compute; reflexivity).
  unfold stranded. destruct (commit_target _ _ _ received_disk) as [d [[]|e]]; [exact Hc|done].
Qed.

Lemma unrecorded_commit_strands_the_transfer_witness :
  (∃ x, tree stranded !! target document_path = Some (Regular document x)) ∧
  evals (tree stranded)
    (begin_push first_bytes any_hash same_form 9 (Some begun_id) document_path (len document) document_hash)
    (Err (StoreError.Io NotFound)) (tree stranded).
Proof.
  apply (unrecorded_commit_strands_the_transfer first_bytes any_hash same_form 9 document_path (len document)
    document_hash (tree new_disk)).
  - exact document_accepted.
  - exact document_outside.
  - exact stranded_committed.
Defined.

(** ** Pulling and listing *)

(** A store with a directory [b] that holds the files [a] and [c] and a directory [b]. *)
Definition stocked_disk : Disk :=
  {| tree := {[ [] := Directory; stage_root := Directory; [text "b"] := Directory;
                [text "b"; text "a"] := Regular document false;
                [text "b"; text "c"] := Regular (text "x") false;
                [text "b"; text "b"] := Directory ]};
     faults := []; temp_counter := 0; process_id := 7 |}.
Lemma stocked_disk_ok : tree_ok (tree stocked_disk) ∧ laid_out (tree stocked_disk).
Proof.
  split; [apply tree_ok_forall, (bool_decide_unpack _); vm_compute; done|].
  split; vm_compute; reflexivity.
Qed.

Definition pull_begun_run : Disk * result StoreError PullTransfer :=
  begin_pull first_bytes same_form 5 None document_path 2 stocked_disk.
Definition pull_begun_transfer : PullTransfer :=
  match pull_begun_run.2 with
  | Ok tr => tr
  | Err _ => {| pull_metadata := push_metadata begun_transfer;
                pull_file := {| handle_path := []; cursor := 0 |}; pull_next_checkpoint := 0 |}
  end.
Lemma pull_begun_ok : pull_begun_run = (pull_begun_run.1, Ok pull_begun_transfer).
Proof.
  assert (Hok : is_ok pull_begun_run.2 = true) by (vm_compute; reflexivity).
  unfold pull_begun_transfer. destruct pull_begun_run as [d r]. simpl in *. by destruct r.
Qed.

Lemma undisturbed_pull_succeeds_witness :
  (∃ r, pull_outcome 2 pull_begun_transfer (pull_begun_run.1, stream_of []) r) ∧
  ∀ r, pull_outcome 2 pull_begun_transfer (pull_begun_run.1, stream_of []) r →
    r.2 = Ok tt ∧ closed r.1.2 = true.
Proof.
  apply (undisturbed_pull_succeeds first_bytes same_form 5 None document_path 2 2 document false stocked_disk).
  - exact document_outside.
  - apply stocked_disk_ok.
  - apply stocked_disk_ok.
  - vm_compute. reflexivity.
  - exact document_size.
  - done.
  - done.
  - exact pull_begun_ok.
  - vm_compute. reflexivity.
  - vm_compute. reflexivity.
  - reflexivity.
  - by eexists.
Defined.

(** A pull whose connection is lost when the first chunk is sent. *)
Definition broken_pull_stream : ServiceStream :=
  set_answers [None; Some ConnectionError.Disconnected] (stream_of []).
Fixpoint run_pull (schedule : list bool) (p : PullPipe) : PullPipe :=
  match schedule with
  | [] => p
  | b :: schedule =>
      run_pull schedule (default p (if b : bool then reader_step 2 p else sender_step p))
  end.
Lemma run_pull_steps schedule p : rtc (pull_step 2) p (run_pull schedule p).
Proof.
  revert p. induction schedule as [|[] schedule IH]; intros p; simpl; [done|..].
  - destruct (reader_step 2 p) eqn:Hs; simpl; [|apply IH]. eapply rtc_l; [by left|apply IH].
  - destruct (sender_step p) eqn:Hs; simpl; [|apply IH]. eapply rtc_l; [by right|apply IH].
Qed.
Definition ready_pull_stream : ServiceStream :=
  (send_reply (pull_ready pull_begun_transfer) false broken_pull_stream).1.
Definition broken_pull : PullPipe :=
  run_pull (concat (replicate 20 [true; false])) (pull_start (pull_begun_run.1, pull_begun_transfer) ready_pull_stream).
Definition broken_pull_end : (Disk * ServiceStream) * result ServerError unit :=
  pull_closed (pull_source broken_pull).1 (Err (ServerError.Connection ConnectionError.Disconnected))
    (pull_stream broken_pull).

Lemma broken_pulled : pull_outcome 2 pull_begun_transfer (pull_begun_run.1, broken_pull_stream) broken_pull_end.
Proof.
  unfold pull_outcome. cbn [fst snd].
  change (send_reply _ _ broken_pull_stream) with (ready_pull_stream, Ok tt : result ServerError unit).
  assert ((pull_offset pull_begun_transfer =? total_size (pull_metadata pull_begun_transfer)) = false) as ->
    by (vm_compute; reflexivity).
  exists broken_pull, (Err (ServerError.Connection ConnectionError.Disconnected)).
  split; [|done]. split; [apply run_pull_steps|]. vm_compute. reflexivity.
Qed.

Lemma pull_sends_the_file_witness :
  let id := transfer_id (pull_metadata pull_begun_transfer) in
  total_size (pull_metadata pull_begun_transfer) = len document ∧
  file_hash (pull_metadata pull_begun_transfer) = bytes_hex (first_bytes document) ∧
  (∀ q, q ≠ metadata_path id → q ≠ metadata_temporary id →
     tree broken_pull_end.1.1 !! q = tree stocked_disk !! q) ∧
  (outgoing broken_pull_end.1.2 = outgoing broken_pull_stream ∧ is_ok broken_pull_end.2 = false ∨
   ∃ bs sent, encode_reply (pull_ready pull_begun_transfer) = Some bs ∧
     outgoing broken_pull_end.1.2 = outgoing broken_pull_stream ++ (bs, false) :: sent ∧
     pull_sent 2 (drop 2 document) sent broken_pull_end.2).
Proof.
  apply (pull_sends_the_file first_bytes same_form 5 None document_path 2 2 document false stocked_disk
    pull_begun_run.1).
  - exact document_outside.
  - apply stocked_disk_ok.
  - apply stocked_disk_ok.
  - vm_compute. reflexivity.
  - exact document_size.
  - done.
  - done.
  - exact pull_begun_ok.
  - exact broken_pulled.
Defined.

Definition listable_name (t : gmap path Node) (directory : path) (file_name : bytes) : bool :=
  match from_utf8 file_name with
  | None => false
  | Some name =>
      (match parse_sync_path same_form name with
       | Ok l => bool_decide (l = name)
       | Err _ => false
       end) && negb (contains SLASH name) &&
      match t !! (directory ++ [file_name]) with Some n => negb (is_symlink n) | None => true end
  end.
Lemma stocked_listable : listable same_form (tree stocked_disk) [text "b"].
Proof.
  assert (Hall : forallb (listable_name (tree stocked_disk) [text "b"]) (children (tree stocked_disk) [text "b"]) = true)
    by (vm_compute; reflexivity).
  split; [|by vm_compute]. rewrite forallb_forall in Hall. intros fn Hin.
  apply list_elem_of_In, Hall in Hin. unfold listable_name in Hin. destruct (from_utf8 fn) as [name|]; [|done].
  exists name. apply andb_true_iff in Hin as [Hin Hs].
  apply andb_true_iff in Hin as [Hp Hc%negb_true_iff].
  destruct (parse_sync_path same_form name) as [l|]; [|done]. apply bool_decide_eq_true in Hp as ->.
  split_and!; try done. intros target Ht. by rewrite Ht in Hs.
Qed.

Lemma pages_list_the_directory_witness :
  ∃ l, evals (tree stocked_disk)
         (list_all same_form [98] (S (length (children (tree stocked_disk) [text "b"]))) None 2) (Ok l)
         (tree stocked_disk) ∧
    l ≡ₚ omap (entry_of (tree stocked_disk) [text "b"]) (children (tree stocked_disk) [text "b"]) ∧
    length l = length (children (tree stocked_disk) [text "b"]) ∧ Sorting.Sorted.StronglySorted entry_lt l.
Proof.
  apply (pages_list_the_directory same_form (tree stocked_disk) [98] 2).
  - apply stocked_disk_ok.
  - apply stocked_disk_ok.
  - vm_compute. reflexivity.
  - vm_compute. reflexivity.
  - exact stocked_listable.
  - done.
Defined.

(** ** Corners *)

(** [open_committed] opens a staging file: the staging directory's name is a path like any
    other. *)
Definition staging_name : str :=
  default [] (from_utf8 (text ".kindlebridge-sync/" ++ begun_id ++ text ".part")).
Example staging_file_is_reachable :
  (open_committed same_form staging_name broken_end.1.1).2 =
    Ok {| handle_path := part_path begun_id; cursor := 0 |}.
Proof. vm_compute. reflexivity. Qed.
