(* ===== verification/SyncOperation.v ===== *)
(** * Cancelling a transfer: src/host/kindlebridge-server/src/sync_operation.rs

    [HostSyncOperation::cancel] and [on_cancel] may be called by several threads at once.
    A step of a thread is an access to the flag, taking the mutex of the hooks, using them
    and leaving it, or running a hook.  Nothing that can panic runs under the mutex, so it
    is never poisoned. *)

From S2P Require Import Prelude.

Section operation.
Context {Hook : Type}.

(** Where a call of [cancel] ([StoreFlag] to [RunHooks]) or of [on_cancel] is. *)
Inductive HookPc : Type :=
| StoreFlag
| TakeHooks
| RunHooks (hooks : list Hook)
| CheckFlag (hook : Hook)
| LockHooks (hook : Hook)
| CheckAgain (hook : Hook)
| PushHook (hook : Hook)
| RunHook (hook : Hook)
| Returned.

Record Operation : Type := {
  cancelled : bool;
  cancel_hooks : list Hook;
  (** The thread that has the mutex. *)
  hooks_locked : option nat;
  threads : list HookPc;
  (** The hooks that were run, in order. *)
  hooks_run : list Hook;
}.

Definition set_thread (n : nat) (pc : HookPc) (o : Operation) : Operation :=
  {| cancelled := cancelled o; cancel_hooks := cancel_hooks o; hooks_locked := hooks_locked o;
     threads := <[n := pc]> (threads o); hooks_run := hooks_run o |}.
Definition set_cancelled (o : Operation) : Operation :=
  {| cancelled := true; cancel_hooks := cancel_hooks o; hooks_locked := hooks_locked o;
     threads := threads o; hooks_run := hooks_run o |}.
Definition set_cancel_hooks (l : list Hook) (o : Operation) : Operation :=
  {| cancelled := cancelled o; cancel_hooks := l; hooks_locked := hooks_locked o;
     threads := threads o; hooks_run := hooks_run o |}.
Definition set_hooks_locked (l : option nat) (o : Operation) : Operation :=
  {| cancelled := cancelled o; cancel_hooks := cancel_hooks o; hooks_locked := l;
     threads := threads o; hooks_run := hooks_run o |}.
Definition add_hook_run (h : Hook) (o : Operation) : Operation :=
  {| cancelled := cancelled o; cancel_hooks := cancel_hooks o; hooks_locked := hooks_locked o;
     threads := threads o; hooks_run := hooks_run o ++ [h] |}.

(** One step of the thread [n]; [None]: it waits for the mutex or has returned. *)
Definition operation_step (n : nat) (o : Operation) : option Operation :=
  match threads o !! n with
  | Some StoreFlag => Some (set_thread n TakeHooks (set_cancelled o))
  | Some TakeHooks =>
      match hooks_locked o with
      | Some _ => None
      | None => Some (set_thread n (RunHooks (cancel_hooks o)) (set_cancel_hooks [] o))
      end
  | Some (RunHooks []) => Some (set_thread n Returned o)
  | Some (RunHooks (h :: l)) => Some (set_thread n (RunHooks l) (add_hook_run h o))
  | Some (CheckFlag h) => Some (set_thread n (if cancelled o then RunHook h else LockHooks h) o)
  | Some (LockHooks h) =>
      match hooks_locked o with
      | Some _ => None
      | None => Some (set_thread n (CheckAgain h) (set_hooks_locked (Some n) o))
      end
  | Some (CheckAgain h) =>
      Some (if cancelled o then set_thread n (RunHook h) (set_hooks_locked None o)
            else set_thread n (PushHook h) o)
  | Some (PushHook h) =>
      Some (set_thread n Returned (set_hooks_locked None (set_cancel_hooks (cancel_hooks o ++ [h]) o)))
  | Some (RunHook h) => Some (set_thread n Returned (add_hook_run h o))
  | Some Returned | None => None
  end.
Definition operation_moves (o o' : Operation) : Prop := ∃ n, operation_step n o = Some o'.

(** The calls that are made: [cancel] some number of times and [on_cancel] with each hook. *)
Definition operation_calls (cancels : nat) (hooks : list Hook) : Operation :=
  {| cancelled := false; cancel_hooks := []; hooks_locked := None;
     threads := replicate cancels StoreFlag ++ (CheckFlag <$> hooks); hooks_run := [] |}.

(** ** Invariant *)

(** The hooks a thread still has to run or to leave. *)
Definition carried (pc : HookPc) : list Hook :=
  match pc with
  | RunHooks l => l
  | CheckFlag h | LockHooks h | CheckAgain h | PushHook h | RunHook h => [h]
  | StoreFlag | TakeHooks | Returned => []
  end.
Definition has_lock (pc : HookPc) : bool :=
  match pc with CheckAgain _ | PushHook _ => true | _ => false end.
Definition will_push (pc : HookPc) : bool :=
  match pc with PushHook _ => true | _ => false end.
(** A call of [cancel] that has set the flag. *)
Definition has_cancelled (pc : HookPc) : bool :=
  match pc with TakeHooks | RunHooks _ => true | _ => false end.

Record operation_ok (all : list Hook) (o : Operation) : Prop := {
  hooks_conserved : hooks_run o ++ cancel_hooks o ++ concat (carried <$> threads o) ≡ₚ all;
  lock_owner : ∀ n pc, threads o !! n = Some pc → has_lock pc = true → hooks_locked o = Some n;
  lock_owned : ∀ n, hooks_locked o = Some n → ∃ pc, threads o !! n = Some pc ∧ has_lock pc = true;
  (** A hook that is left after the flag was set is taken by a call of [cancel]. *)
  hooks_awaited : cancelled o = true →
    cancel_hooks o ≠ [] ∨ (∃ n pc, threads o !! n = Some pc ∧ will_push pc = true) →
    ∃ n, threads o !! n = Some TakeHooks;
  flag_set : ∀ n pc, threads o !! n = Some pc → has_cancelled pc = true → cancelled o = true;
}.

Lemma carried_update (l : list HookPc) n pc pc' :
  l !! n = Some pc → concat (carried <$> <[n := pc']> l) ++ carried pc ≡ₚ concat (carried <$> l) ++ carried pc'.
Proof.
  intros Hn. pose proof (lookup_lt_Some _ _ _ Hn) as Hlt.
  rewrite insert_take_drop by done. rewrite <-(take_drop_middle l n pc) at 3 by done.
  rewrite !fmap_app, !fmap_cons, !concat_app. cbn [concat].
  generalize (concat (carried <$> take n l)) (concat (carried <$> drop (S n) l)). intros a b.
  solve_Permutation.
Qed.

Lemma thread_update (l : list HookPc) n pc' m pc :
  <[n := pc']> l !! m = Some pc → (m = n ∧ pc = pc') ∨ (m ≠ n ∧ l !! m = Some pc).
Proof.
  intros Hm. destruct (decide (m = n)) as [->|Hne].
  - left. apply list_lookup_insert_Some in Hm as [(_ & ? & _)|[? _]]; done.
  - right. by rewrite list_lookup_insert_ne in Hm.
Qed.
Lemma thread_same (l : list HookPc) n pc pc' : l !! n = Some pc → <[n := pc']> l !! n = Some pc'.
Proof. intros Hn. apply list_lookup_insert_eq. by eapply lookup_lt_Some. Qed.

Lemma conserve (run0 run hooks hooks' x x' c c' : list Hook) :
  x' ++ c ≡ₚ x ++ c' → run ++ hooks' ++ c' ≡ₚ hooks ++ c → (run0 ++ run) ++ hooks' ++ x' ≡ₚ run0 ++ hooks ++ x.
Proof.
  intros Hx Hc. apply (Permutation_app_inv_r c).
  trans (run0 ++ run ++ hooks' ++ (x' ++ c)); [solve_Permutation|]. rewrite Hx.
  trans (run0 ++ (run ++ hooks' ++ c') ++ x); [solve_Permutation|]. rewrite Hc. solve_Permutation.
Qed.

Ltac thread_cases :=
  repeat match goal with
  | H : <[_ := _]> _ !! _ = Some _ |- _ => apply thread_update in H as [[-> ->]|[? H]]
  end.

Section step.
Context (all : list Hook) (o : Operation) (n : nat) (pc : HookPc).
Hypothesis ok : operation_ok all o.
Hypothesis here : threads o !! n = Some pc.

Lemma conserved pc' (run hooks' : list Hook) :
  run ++ hooks' ++ carried pc' ≡ₚ cancel_hooks o ++ carried pc →
  (hooks_run o ++ run) ++ hooks' ++ concat (carried <$> <[n := pc']> (threads o)) ≡ₚ all.
Proof.
  intros Hc. rewrite <-(hooks_conserved _ _ ok). eapply conserve; [by apply carried_update|done].
Qed.
Lemma owner_same pc' :
  has_lock pc' = has_lock pc →
  (∀ m q, <[n := pc']> (threads o) !! m = Some q → has_lock q = true → hooks_locked o = Some m) ∧
  (∀ m, hooks_locked o = Some m → ∃ q, <[n := pc']> (threads o) !! m = Some q ∧ has_lock q = true).
Proof.
  intros Hl. split.
  - intros m q Hm Hq. thread_cases; [|by eapply lock_owner]. eapply lock_owner; [done..|congruence].
  - intros m Hm. destruct (lock_owned _ _ ok m Hm) as (q & Hq & Hlock). destruct (decide (m = n)) as [->|Hne].
    + exists pc'. split; [by eapply thread_same|]. congruence.
    + exists q. by rewrite list_lookup_insert_ne.
Qed.
(** The thread leaves or takes the mutex. *)
Lemma owner_left pc' :
  has_lock pc = true → has_lock pc' = false →
  (∀ m q, <[n := pc']> (threads o) !! m = Some q → has_lock q = true → None = Some m).
Proof.
  intros Hl Hl' m q Hm Hq. pose proof (lock_owner _ _ ok n pc here Hl) as Hn. thread_cases; [congruence|].
  pose proof (lock_owner _ _ ok m q Hm Hq). congruence.
Qed.
(** Other threads that wait for the hooks still do. *)
Lemma awaited pc' (b : bool) (hooks' : list Hook) :
  (b = true → cancelled o = true) → pc ≠ TakeHooks → will_push pc' = false →
  (hooks' ≠ [] → cancel_hooks o ≠ [] ∨ will_push pc = true) →
  b = true → hooks' ≠ [] ∨ (∃ m q, <[n := pc']> (threads o) !! m = Some q ∧ will_push q = true) →
  ∃ m, <[n := pc']> (threads o) !! m = Some TakeHooks.
Proof.
  intros Hb Hpc Hw Hh Hset Hleft. destruct (hooks_awaited _ _ ok (Hb Hset)) as [m Hm].
  - destruct Hleft as [Hne|(m & q & Hm & Hq)].
    + destruct (Hh Hne); [by left|right; eauto].
    + thread_cases; [congruence|right; eauto].
  - exists m. rewrite list_lookup_insert_ne; [done|]. intros ->. congruence.
Qed.
Lemma flag_kept pc' (b : bool) :
  (cancelled o = true → b = true) → (has_cancelled pc' = true → b = true) →
  ∀ m q, <[n := pc']> (threads o) !! m = Some q → has_cancelled q = true → b = true.
Proof. intros Hb Hpc m q Hm Hq. thread_cases; [auto|]. apply Hb. by eapply flag_set. Qed.
End step.

Lemma operation_step_ok all (o o' : Operation) n :
  operation_ok all o → operation_step n o = Some o' → operation_ok all o'.
Proof.
  intros Hok. unfold operation_step. destruct (threads o !! n) as [pc|] eqn:Hn; [|done].
  pose proof (λ pc' hooks', conserved all o n pc Hok Hn pc' [] hooks') as Hcons. rewrite app_nil_r in Hcons.
  pose proof (λ pc', owner_same all o n pc Hok Hn pc') as Hsame.
  pose proof (λ pc', awaited all o n pc Hok Hn pc') as Hwait.
  pose proof (λ pc', flag_kept all o n Hok pc') as Hflag.
  destruct pc as [| |[|h l]|h|h|h|h|h|].
  - intros [= <-]. split; simpl; [by apply Hcons|by apply Hsame..| |apply Hflag; simpl; auto; congruence].
    intros _ _. exists n. by eapply thread_same.
  - destruct (hooks_locked o) as [|] eqn:Hlock; [done|]. intros [= <-].
    split; simpl; [apply (Hcons _ []); simpl; by rewrite app_nil_r|rewrite Hlock; by apply Hsame..| |].
    + intros _ [?|(m & q & Hm & Hq)]; [done|]. thread_cases; [done|].
      pose proof (lock_owner _ _ Hok m q Hm ltac:(by destruct q)). congruence.
    + apply Hflag; [done|]. intros _. by eapply (flag_set _ _ Hok n).
  - intros [= <-]. split; simpl; [by apply Hcons|by apply Hsame..| |apply Hflag; simpl; auto; congruence].
    apply Hwait; auto; congruence.
  - intros [= <-]. split; simpl; [|by apply Hsame..|apply Hwait; auto; congruence|apply Hflag; [done|]].
    + eapply conserved; [done..|]. simpl. solve_Permutation.
    + intros _. by eapply (flag_set _ _ Hok n).
  - destruct (cancelled o) eqn:Hc; intros [= <-]; (split; simpl; [by apply Hcons|by apply Hsame..|apply Hwait; auto; congruence|apply Hflag; simpl; auto; congruence]).
  - destruct (hooks_locked o) as [|] eqn:Hlock; [done|]. intros [= <-].
    split; simpl; [by apply Hcons| | |apply Hwait; auto; congruence|apply Hflag; simpl; auto; congruence].
    + intros m q Hm Hq. thread_cases; [done|]. pose proof (lock_owner _ _ Hok m q Hm Hq). congruence.
    + intros m [= <-]. exists (CheckAgain h). split; [by eapply thread_same|done].
  - destruct (cancelled o) eqn:Hc; intros [= <-].
    + split; simpl; [by apply Hcons|by apply (owner_left all o n (CheckAgain h))|done|apply Hwait; auto; congruence|apply Hflag; simpl; auto; congruence].
    + split; simpl; [by apply Hcons|by apply Hsame..| |apply Hflag; simpl; auto; congruence]. congruence.
  - intros [= <-]. split; simpl; [|by apply (owner_left all o n (PushHook h))|done|apply Hwait; auto; congruence|apply Hflag; simpl; auto; congruence].
    apply (Hcons _ (cancel_hooks o ++ [h])). simpl. by rewrite app_nil_r.
  - intros [= <-]. split; simpl; [|by apply Hsame..|apply Hwait; auto; congruence|apply Hflag; simpl; auto; congruence].
    eapply conserved; [done..|]. simpl. solve_Permutation.
  - done.
Qed.

(** ** Runs *)

Lemma operation_calls_ok cancels hooks : operation_ok hooks (operation_calls cancels hooks).
Proof.
  assert (Hstart : ∀ n pc, threads (operation_calls cancels hooks) !! n = Some pc → pc = StoreFlag ∨ ∃ h, pc = CheckFlag h).
  { intros n pc Hn. apply list_elem_of_lookup_2 in Hn. simpl in Hn. apply elem_of_app in Hn as [Hn|Hn].
    - apply elem_of_replicate in Hn as [-> _]. by left.
    - apply list_elem_of_fmap in Hn as (h & -> & _). right. by exists h. }
  split; simpl.
  - rewrite fmap_app, concat_app. replace (concat (carried <$> replicate cancels StoreFlag)) with (@nil Hook).
    + clear Hstart. simpl. induction hooks as [|h hooks IH]; [done|]. simpl. by apply perm_skip.
    + clear Hstart. induction cancels as [|n IH]; [done|]. simpl. exact IH.
  - intros n pc Hn. destruct (Hstart n pc Hn) as [->|[h ->]]; done.
  - done.
  - done.
  - intros n pc Hn. destruct (Hstart n pc Hn) as [->|[h ->]]; done.
Qed.

Lemma operation_reachable_ok cancels hooks o :
  rtc operation_moves (operation_calls cancels hooks) o → operation_ok hooks o.
Proof.
  revert o. apply (rtc_ind_r (λ o, operation_ok hooks o)); [apply operation_calls_ok|].
  intros o o' _ [n Hn] IH. by eapply operation_step_ok.
Qed.

(** What a thread still does at most. *)
Definition pc_weight (pc : HookPc) : nat :=
  match pc with
  | StoreFlag => 3
  | TakeHooks => 2
  | RunHooks l => 1 + length l
  | CheckFlag _ => 5
  | LockHooks _ => 4
  | CheckAgain _ => 3
  | PushHook _ => 2
  | RunHook _ => 1
  | Returned => 0
  end.
Definition operation_weight (o : Operation) : nat :=
  sum_list (pc_weight <$> threads o) + length (cancel_hooks o).

Lemma weight_update (l : list HookPc) n pc pc' :
  l !! n = Some pc →
  (sum_list (pc_weight <$> <[n := pc']> l) + pc_weight pc = sum_list (pc_weight <$> l) + pc_weight pc')%nat.
Proof.
  intros Hn. pose proof (lookup_lt_Some _ _ _ Hn) as Hlt.
  rewrite insert_take_drop by done. rewrite <-(take_drop_middle l n pc) at 3 by done.
  rewrite !fmap_app, !fmap_cons, !sum_list_with_app. simpl. lia.
Qed.

Lemma operation_weight_step (o o' : Operation) : operation_moves o o' → (operation_weight o' < operation_weight o)%nat.
Proof.
  intros [n Hs]. unfold operation_step, operation_weight in *. destruct (threads o !! n) as [pc|] eqn:Hn; [|done].
  pose proof (λ pc', weight_update (threads o) n pc pc' Hn) as Hw.
  destruct pc as [| |[|h l]|h|h|h|h|h|]; try destruct (hooks_locked o); try destruct (cancelled o); try done;
    injection Hs as <-; simpl; rewrite ?length_app;
    repeat match goal with |- context [<[n := ?pc']> _] => pose proof (Hw pc'); clear Hw end; simpl in *; lia.
Qed.

Lemma operation_runs_end (o : Operation) : sn operation_moves o.
Proof.
  induction o as [o IH] using (induction_ltof1 _ operation_weight). constructor. intros o' Hs.
  apply IH. unfold ltof. by apply operation_weight_step.
Qed.

(** The thread that has the mutex can go on, so nothing waits forever. *)
Lemma operation_stops all (o : Operation) :
  operation_ok all o → (∀ o', ¬ operation_moves o o') → ∀ n pc, threads o !! n = Some pc → pc = Returned.
Proof.
  intros Hok Hstop n pc Hn. assert (Hnone : ∀ m, operation_step m o = None).
  { intros m. destruct (operation_step m o) as [o'|] eqn:Hm; [|done]. exfalso. apply (Hstop o'). by exists m. }
  assert (Hfree : hooks_locked o = None).
  { destruct (hooks_locked o) as [m|] eqn:Hl; [|done]. destruct (lock_owned _ _ Hok m Hl) as (q & Hq & Hlock).
    specialize (Hnone m). unfold operation_step in Hnone. rewrite Hq in Hnone. by destruct q. }
  specialize (Hnone n). unfold operation_step in Hnone. rewrite Hn, Hfree in Hnone. by destruct pc as [| |[]| | | | | |].
Qed.

(** A call of [cancel] that has not set the flag is about to. *)
Lemma cancel_pending cancels hooks o :
  rtc operation_moves (operation_calls cancels hooks) o → (0 < cancels)%nat →
  cancelled o = true ∨ threads o !! 0%nat = Some StoreFlag.
Proof.
  intros Hr Hc. revert o Hr. apply (rtc_ind_r (λ o, cancelled o = true ∨ threads o !! 0%nat = Some StoreFlag)).
  { right. by destruct cancels; [lia|]. }
  intros o o' _ [n Hs] IH. unfold operation_step in Hs. destruct (threads o !! n) as [pc|] eqn:Hn; [|done].
  destruct IH as [Hset|H0].
  - left. destruct pc as [| |[|h l]|h|h|h|h|h|]; try destruct (hooks_locked o); try destruct (cancelled o) eqn:?;
      try done; by injection Hs as <-.
  - destruct (decide (n = 0%nat)) as [->|Hne].
    + rewrite H0 in Hn. injection Hn as <-. injection Hs as <-. by left.
    + right. destruct pc as [| |[|h l]|h|h|h|h|h|]; try destruct (hooks_locked o); try destruct (cancelled o); try done;
        injection Hs as <-; simpl; by rewrite list_lookup_insert_ne.
Qed.

Lemma concat_returned (l : list HookPc) :
  (∀ n pc, l !! n = Some pc → pc = Returned) → concat (carried <$> l) = [].
Proof.
  induction l as [|pc l IH]; intros Hl; [done|]. rewrite (Hl 0%nat pc eq_refl). simpl. apply IH.
  intros n q Hn. by apply (Hl (S n)).
Qed.

(** C26: Every hook runs exactly once.  When [cancel] is called at least once and [on_cancel]
    with each of the hooks, in any number of threads, then whatever the interleaving, all
    calls return (no run is infinite and none gets stuck), and then every hook has run
    once, whether it was left before the flag was set, after it, or in between; at no point
    of a run has a hook run twice. *)
Theorem cancel_runs_every_hook_once cancels hooks :
  (0 < cancels)%nat →
  sn operation_moves (operation_calls cancels hooks) ∧
  ∀ o, rtc operation_moves (operation_calls cancels hooks) o →
    (∃ rest, hooks_run o ++ rest ≡ₚ hooks) ∧
    ((∀ o', ¬ operation_moves o o') →
     (∀ n pc, threads o !! n = Some pc → pc = Returned) ∧ hooks_run o ≡ₚ hooks).
Proof.
  intros Hc. split; [apply operation_runs_end|]. intros o Hr.
  pose proof (operation_reachable_ok _ _ _ Hr) as Hok. split; [eexists; apply Hok|]. intros Hstop.
  pose proof (operation_stops _ _ Hok Hstop) as Hall. split; [done|].
  rewrite <-(hooks_conserved _ _ Hok), (concat_returned _ Hall). rewrite !app_nil_r.
  destruct (cancel_hooks o) as [|h l] eqn:Hh; [by rewrite app_nil_r|]. exfalso.
  destruct (cancel_pending _ _ _ Hr Hc) as [Hset|H0]; [|by apply Hall in H0].
  destruct (hooks_awaited _ _ Hok Hset) as [m Hm]; [left; by rewrite Hh|]. by apply Hall in Hm.
Qed.
End operation.

Lemma cancel_runs_every_hook_once_witness :
  (0 < 2)%nat ∧ sn operation_moves (operation_calls 2 [1; 2; 3]%nat).
Proof. split; [lia|]. apply (cancel_runs_every_hook_once 2 [1; 2; 3]%nat). lia. Defined.
