(* ===== verification/SyncClient.v ===== *)
(** * The host's side of file sync:
    src/host/kindlebridge-server/src/device_session/sync_client.rs and sync_operation.rs

    [SyncClient] pushes a file of the host to the device and pulls one from it, over one
    stream.  The file system of the host is a tree as that of the device; the calls on the
    stream are answered by a script as in [SyncStream.v]. *)

From S2P Require Import Prelude Text WireFrame Actor BundleError Paths Utf8 Files FileHandles Rpc SyncStore SyncStream.
Local Open Scope Z_scope.

Definition DEFAULT_SYNC_BLOCK_SIZE : Z := 256 * 1024.
Definition TRANSFER_CANCELLED : Z := -32014.
Definition SERVER_NOT_READY : Z := -32001.

(** ** [HostSyncOperation] *)

Module SyncProgressPhase.
Inductive SyncProgressPhase : Type := Hashing | Transferring.
End SyncProgressPhase.
Abbreviation SyncProgressPhase := SyncProgressPhase.SyncProgressPhase.

(** Another thread may set the flag at any time: [cancellations] is what [is_cancelled]
    returns next, and [false] after that.  The hooks run in that thread; how they are left
    and run is in [SyncOperation.v]. *)
Record HostSyncOperation : Type := {
  cancellations : list bool;
  op_transferred : Z;
  op_total : Z;
  op_phase : SyncProgressPhase;
  op_transfer_id : option bytes;
}.
Definition operation_new : HostSyncOperation :=
  {| cancellations := []; op_transferred := 0; op_total := 0; op_phase := SyncProgressPhase.Hashing;
     op_transfer_id := None |}.

Section operation.
Context {E : Type}.
Definition is_cancelled : M HostSyncOperation E bool := λ o,
  match cancellations o with
  | [] => (o, Ok false)
  | b :: l => ({| cancellations := l; op_transferred := op_transferred o; op_total := op_total o;
                  op_phase := op_phase o; op_transfer_id := op_transfer_id o |}, Ok b)
  end.
Definition set_phase (phase : SyncProgressPhase) (transferred total : Z) : M HostSyncOperation E unit :=
  mmodify (λ o, {| cancellations := cancellations o; op_transferred := transferred; op_total := total;
                   op_phase := phase; op_transfer_id := op_transfer_id o |}).
Definition set_transferred (transferred : Z) : M HostSyncOperation E unit :=
  mmodify (λ o, {| cancellations := cancellations o; op_transferred := transferred; op_total := op_total o;
                   op_phase := op_phase o; op_transfer_id := op_transfer_id o |}).
Definition set_transfer_id (id : bytes) : M HostSyncOperation E unit :=
  mmodify (λ o, {| cancellations := cancellations o; op_transferred := op_transferred o;
                   op_total := op_total o; op_phase := op_phase o; op_transfer_id := Some id |}).
End operation.

Record SyncProgress : Type := {
  progress_operation_id : bytes;
  progress_transfer_id : option bytes;
  progress_direction : TransferDirection;
  progress_remote_path : str;
  progress_phase : SyncProgressPhase;
  progress_transferred : Z;
  progress_total : Z;
}.
Definition snapshot (operation_id : bytes) (direction : TransferDirection) (remote_path : str)
    (o : HostSyncOperation) : SyncProgress :=
  {| progress_operation_id := operation_id; progress_transfer_id := op_transfer_id o;
     progress_direction := direction; progress_remote_path := remote_path; progress_phase := op_phase o;
     progress_transferred := op_transferred o; progress_total := op_total o |}.

(** ** Errors *)

(** The part of [LinkError] that file sync returns. *)
Module LinkError.
Inductive LinkError : Type :=
| Connection (error : ConnectionError)
| Io (error : IoErrorKind)
| Json
| InvalidPayload (label : string)
| UnexpectedFrame (message : string)
| SequenceExhausted
| Remote (error : RpcError).
End LinkError.
Abbreviation LinkError := LinkError.LinkError.
#[export] Instance link_from_io : FromIo LinkError := LinkError.Io.
#[export] Instance link_from_connection : FromConnection LinkError := LinkError.Connection.

Definition link_rpc_error (e : LinkError) : RpcError :=
  match e with
  | LinkError.Remote e => e
  | _ => rpc_new SERVER_NOT_READY "Device link is unavailable"
  end.
Definition cancelled_rpc_error : RpcError := rpc_new TRANSFER_CANCELLED "Transfer cancelled".
Definition sync_cancelled_error : LinkError := LinkError.Remote cancelled_rpc_error.

(** ** Parameters and results *)

Record SyncPushParams : Type := {
  push_local_path : bytes;
  push_remote_path : str;
  push_transfer_id : option bytes;
  push_block_size : Z;
}.
Record SyncPullParams : Type := {
  pull_local_path : bytes;
  pull_remote_path : str;
  pull_transfer_id : option bytes;
  pull_block_size : Z;
}.
Record SyncPushResult : Type := {
  pushed_transfer_id : bytes;
  accepted_offset : Z;
  pushed_state : TransferState;
}.
Record SyncPullResult : Type := {
  pulled_transfer_id : bytes;
  pulled_total_size : Z;
  received_size : Z;
  pulled_state : TransferState;
}.

(** [serde_json] on the messages, the other way round. *)
Class ClientJson := {
  encode_request : SyncRequest → option bytes;
  decode_reply : bytes → option SyncReply;
}.

(** ** Paths of the host *)

(** The names of a path without dot components. *)
Definition host_path (p : bytes) : path := filter (λ name, name ≠ []) (split_text x2f p).
Definition is_absolute (p : bytes) : bool := bool_decide (head p = Some x2f).

Definition staging_path (destination transfer_id : bytes) : result LinkError bytes :=
  if is_valid_transfer_id transfer_id
  then Ok (destination ++ text ".kindlebridge." ++ transfer_id ++ text ".part")
  else Err (LinkError.UnexpectedFrame "invalid sync transfer ID").

(** ** What a transfer works on *)

Record HostSync : Type := {
  host_disk : Disk;
  host_stream : ServiceStream;
  operation : HostSyncOperation;
}.
Definition set_host_disk (d : Disk) (s : HostSync) : HostSync :=
  {| host_disk := d; host_stream := host_stream s; operation := operation s |}.
Definition set_host_stream (st : ServiceStream) (s : HostSync) : HostSync :=
  {| host_disk := host_disk s; host_stream := st; operation := operation s |}.
Definition set_operation (o : HostSyncOperation) (s : HostSync) : HostSync :=
  {| host_disk := host_disk s; host_stream := host_stream s; operation := o |}.

Definition on_disk {E A} (m : M Disk E A) : M HostSync E A := zoom host_disk set_host_disk m.
Definition on_link {E A} (m : M ServiceStream E A) : M HostSync E A := zoom host_stream set_host_stream m.
Definition on_operation {E A} (m : M HostSyncOperation E A) : M HostSync E A :=
  zoom operation set_operation m.
Abbreviation link_op A := (M HostSync LinkError A).
Abbreviation rpc_op A := (M HostSync RpcError A).
Definition map_error {E F A} (f : E → F) (m : M HostSync E A) : M HostSync F A := λ s,
  let '(s', r) := m s in (s', map_err f r).

(** ** The client *)

Module Client.
Section client.
Context `{PointerWidth, ReadSize, ClientJson}.
Context (blake3 : bytes → bytes).
(** Whether the symbolic link at a path leads to something; [Display] of an I/O error. *)
Context (link_resolves : path → bool) (show_io_error : IoErrorKind → bytes).
(** The identifier the connection gave to the stream. *)
Context (id : Z).

Definition expect (f : Frame) (c : Command) : link_op unit :=
  if bool_decide (command (header f) = c) && (stream_id (header f) =? id) then mret tt
  else mfail (LinkError.UnexpectedFrame "unexpected command or stream identifier").
Definition actor_data : link_op Frame :=
  let! f := on_link recv in
  do! expect f Command.Data in
  mret f.
Definition actor_close : link_op unit :=
  let! f := on_link recv in
  expect f Command.Close.

(** [decode(&actor_data(&mut stream)?.payload, label)?]. *)
Definition recv_reply (label : string) : link_op SyncReply :=
  let! f := actor_data in
  mlift (ok_or (decode_reply (payload f)) (LinkError.InvalidPayload label)).
(** [stream.send_data(encode(&request)?, end_stream)?]. *)
Definition send_request (r : SyncRequest) (end_stream : bool) : link_op unit :=
  let! bs := mlift (ok_or (encode_request r) LinkError.Json) in
  on_link (send_data bs end_stream).

(** [self.connection.open(..)?]; the hook that [register_cancel] leaves runs in the thread
    that cancels. *)
Definition open_stream : link_op unit := on_link (answer (λ s, s)).
(** [let _ = stream.reset("sync cancelled"); return Err(sync_cancelled_error())]. *)
Definition stop_cancelled {A} : link_op A :=
  let! _ := on_link (mtry (reset "sync cancelled" : M ServiceStream LinkError unit)) in
  mfail sync_cancelled_error.

Definition validate_host_path (p : bytes) : rpc_op unit :=
  if is_absolute p then mret tt else mfail (invalid_params (text "host paths must be absolute")).
Definition validate_block_size (block_size : Z) : rpc_op unit :=
  if (block_size =? 0) || (MAX_SYNC_BLOCK_SIZE <? block_size)
  then mfail (invalid_params (text "block_size must be between 1 and 1048576"))
  else mret tt.
Definition validate_requested_transfer_id (transfer_id : option bytes) : rpc_op unit :=
  match transfer_id with
  | Some value =>
      if is_valid_transfer_id value then mret tt else mfail (invalid_params (text "invalid transfer_id"))
  | None => mret tt
  end.

Definition host_file_error (operation : string) (path : bytes) (error : IoErrorKind) : RpcError :=
  {| code := error_codes.INVALID_PARAMS;
     message := text "Unable to " ++ text operation ++ text " host file";
     data := Some [(text "path", path); (text "detail", show_io_error error)] |}.
Definition host_call {A} (operation : string) (path : bytes) (m : M Disk IoErrorKind A) : rpc_op A :=
  map_error (host_file_error operation path) (on_disk m).

(** *** Hashing *)

(** The loops run at most once per byte: [read] returns nothing only at the end. *)
Fixpoint hash_file_rounds (fuel : nat) (h : Handle) (length hashed : Z) (absorbed : bytes) :
    rpc_op (Handle * bytes) :=
  if length <=? hashed then mret (h, absorbed)
  else
    match fuel with
    | O => mfail internal_error
    | S fuel =>
        let! stop := on_operation is_cancelled in
        if stop : bool then mfail cancelled_rpc_error
        else
          let limit := Z.min (Z.min (length - hashed) usize_max) DEFAULT_SYNC_BLOCK_SIZE in
          let! r := host_call "read" (text "source") (handle_read h (Z.to_nat limit)) in
          if bool_decide (r.2 = []) then mfail (invalid_params (text "local file ended while hashing"))
          else
            do! on_operation (set_transferred (hashed + len r.2)) in
            hash_file_rounds fuel r.1 length (hashed + len r.2) (absorbed ++ r.2)
    end.
Definition hash_file_with_operation (h : Handle) (length : Z) : rpc_op (Handle * bytes) :=
  let! h := host_call "seek" (text "source") (seek_start h 0) in
  let! r := hash_file_rounds (Z.to_nat length) h length 0 [] in
  mret (r.1, bytes_hex (blake3 r.2)).

Fixpoint hash_prefix_rounds (fuel : nat) (h : Handle) (remaining : Z) (absorbed : bytes) :
    M Disk LinkError (Handle * bytes) :=
  if remaining =? 0 then mret (h, absorbed)
  else
    match fuel with
    | O => mfail (LinkError.UnexpectedFrame "unreachable")
    | S fuel =>
        if usize_max <? remaining then mfail (LinkError.UnexpectedFrame "host file is too large")
        else
          let limit := Z.min remaining DEFAULT_SYNC_BLOCK_SIZE in
          let! r := handle_read h (Z.to_nat limit) in
          if bool_decide (r.2 = []) then mfail (LinkError.UnexpectedFrame "host staging file was truncated")
          else hash_prefix_rounds fuel r.1 (remaining - len r.2) (absorbed ++ r.2)
    end.
Definition hash_prefix (h : Handle) (length : Z) : M Disk LinkError (Handle * bytes) :=
  let! h := seek_start h 0 in
  hash_prefix_rounds (Z.to_nat length) h length [].

Definition hash_file (h : Handle) (length : Z) : rpc_op (Handle * bytes) :=
  let! r := map_error link_rpc_error (on_disk (hash_prefix h length)) in
  mret (r.1, bytes_hex (blake3 r.2)).

(** *** Files *)

(** [OpenOptions::new().create(true).read(true).write(true)], with [truncate]. *)
Definition open_or_create (p : path) (truncate : bool) : M Disk LinkError Handle :=
  do! gate in
  let! d := mget in
  match stat (tree d) p, stat (tree d) (parent p) with
  | Ok (Regular content x), _ =>
      do! mmodify (set_tree (<[p := Regular (if truncate then [] else content) x]> (tree d))) in
      mret {| handle_path := p; cursor := 0 |}
  | Ok _, _ => mfail (from_io OtherIo)
  | Err NotFound, Ok Directory =>
      do! mmodify (set_tree (<[p := Regular [] false]> (tree d))) in
      mret {| handle_path := p; cursor := 0 |}
  | Err e, _ => mfail (from_io e)
  end.

Definition open_staging (p : path) (offset : Z) : M Disk LinkError Handle :=
  if bool_decide (p = []) then mfail (LinkError.UnexpectedFrame "host destination has no parent")
  else
    do! create_dir_all (parent p) in
    let! file := open_or_create p (offset =? 0) in
    let! length := handle_len file in
    if negb (length =? offset)
    then mfail (LinkError.UnexpectedFrame "host staging size changed before resume")
    else mret file.

(** [destination.exists()]. *)
Definition path_exists (p : path) : M Disk LinkError bool :=
  let! r := catch_io (symlink_metadata p) in
  mret match r with
       | Ok (Symlink _) => link_resolves p
       | Ok _ => true
       | Err _ => false
       end.

Definition commit_host_file (staging destination : path) : M Disk LinkError unit :=
  let! present := path_exists destination in
  do! (if present : bool then
         let! n := symlink_metadata destination in
         if negb (is_file n)
         then mfail (LinkError.UnexpectedFrame "host destination must be a regular file")
         else unlink destination
       else mret tt) in
  rename staging destination.

(** [File::open], which opens a directory too, and [file.metadata()?.is_file()]. *)
Definition open_source (p : bytes) : rpc_op Handle :=
  let! n := host_call "read" p (metadata (host_path p)) in
  do! host_call "stat" p gate in
  if is_file n then mret {| handle_path := host_path p; cursor := 0 |}
  else mfail (invalid_params (text "local_path must name a file")).

(** *** Push *)

(** The [READY] of a push: where to go on. *)
Definition push_ready_reply (params : SyncPushParams) (total_size : Z) (file_hash : bytes) (r : SyncReply) :
    result LinkError (bytes * Z) :=
  match r with
  | Ready transfer_id offset remote_size remote_hash =>
      if (remote_size =? total_size) && bool_decide (remote_hash = file_hash)
      then if negb (is_valid_transfer_id transfer_id)
              || match push_transfer_id params with
                 | Some expected => bool_decide (expected ≠ transfer_id)
                 | None => false
                 end
              || (total_size <? offset)
           then Err (LinkError.UnexpectedFrame "sync push resume mismatch")
           else Ok (transfer_id, offset)
      else Err (LinkError.UnexpectedFrame "invalid sync push READY")
  | Failure error => Err (LinkError.Remote error)
  | _ => Err (LinkError.UnexpectedFrame "invalid sync push READY")
  end.

(** The loop that sends the file. *)
Fixpoint send_file (fuel : nat) (h : Handle) (block_size total_size sent : Z) : link_op unit :=
  match fuel with
  | O => mfail (LinkError.UnexpectedFrame "unreachable")
  | S fuel =>
      let! stop := on_operation is_cancelled in
      if stop : bool then stop_cancelled
      else
        let! r := on_disk (handle_read h (Z.to_nat block_size)) in
        if bool_decide (r.2 = [])
        then mfail (LinkError.UnexpectedFrame "local file ended before its declared size")
        else
          let! sent := mlift (ok_or (checked_add u64_max sent (len r.2)) LinkError.SequenceExhausted) in
          if total_size <? sent then mfail (LinkError.UnexpectedFrame "local file grew during sync")
          else
            let last := sent =? total_size in
            do! on_link (send_data r.2 last) in
            do! on_operation (set_transferred sent) in
            if last then mret tt else send_file fuel r.1 block_size total_size sent
  end.

Definition push_completion (transfer_id : bytes) (total_size : Z) (r : SyncReply) :
    result LinkError SyncPushResult :=
  match r with
  | Complete completed_id next_offset completed_size =>
      if bool_decide (completed_id = transfer_id) && (next_offset =? total_size) && (completed_size =? total_size)
      then Ok {| pushed_transfer_id := transfer_id; accepted_offset := next_offset;
                 pushed_state := TransferState.Complete |}
      else Err (LinkError.UnexpectedFrame "invalid sync push completion")
  | Failure error => Err (LinkError.Remote error)
  | _ => Err (LinkError.UnexpectedFrame "invalid sync push completion")
  end.

Definition push_open_file (params : SyncPushParams) (file : Handle) (total_size : Z) (file_hash : bytes) :
    link_op SyncPushResult :=
  do! open_stream in
  let! stop := on_operation is_cancelled in
  if stop : bool then mfail sync_cancelled_error
  else
    do! send_request (Push (push_transfer_id params) (push_remote_path params) total_size file_hash
                        (push_block_size params)) false in
    let! ready := recv_reply "sync reply" in
    let! at_ := mlift (push_ready_reply params total_size file_hash ready) in
    let '(transfer_id, offset) := at_ in
    do! on_operation (set_transfer_id transfer_id) in
    do! on_operation (set_phase SyncProgressPhase.Transferring offset total_size) in
    let! file := on_disk (seek_start file offset) in
    do! (if offset =? total_size then
           do! on_link (send_data [] true) in
           on_operation (set_transferred offset)
         else send_file (Z.to_nat (total_size - offset)) file (push_block_size params) total_size offset) in
    let! completion := recv_reply "sync completion" in
    let! result := mlift (push_completion transfer_id total_size completion) in
    do! actor_close in
    mret result.

Definition push_with_operation (params : SyncPushParams) : rpc_op SyncPushResult :=
  do! validate_host_path (push_local_path params) in
  do! validate_block_size (push_block_size params) in
  do! validate_requested_transfer_id (push_transfer_id params) in
  let! file := open_source (push_local_path params) in
  let! total_size := host_call "stat" (push_local_path params) (handle_len file) in
  do! on_operation (set_phase SyncProgressPhase.Hashing 0 total_size) in
  let! r := hash_file_with_operation file total_size in
  do! on_operation (set_phase SyncProgressPhase.Transferring 0 total_size) in
  map_error link_rpc_error (push_open_file params r.1 total_size r.2).

(** *** Pull *)

Record PullReady : Type := {
  ready_transfer_id : bytes;
  ready_total_size : Z;
  ready_file_hash : bytes;
}.
Definition pull_ready_reply (params : SyncPullParams) (offset : Z) (r : SyncReply) : result LinkError PullReady :=
  match r with
  | Ready transfer_id remote_offset total_size file_hash =>
      if negb (is_valid_transfer_id transfer_id)
         || match pull_transfer_id params with
            | Some expected => bool_decide (expected ≠ transfer_id)
            | None => false
            end
         || negb (remote_offset =? offset) || (total_size <? remote_offset)
      then Err (LinkError.UnexpectedFrame "sync pull resume mismatch")
      else Ok {| ready_transfer_id := transfer_id; ready_total_size := total_size;
                 ready_file_hash := file_hash |}
  | Failure error => Err (LinkError.Remote error)
  | _ => Err (LinkError.UnexpectedFrame "invalid sync pull READY")
  end.

(** The loop that receives the file: every round takes an answer of [recv]. *)
Fixpoint receive_file (fuel : nat) (output : Handle) (hasher : bytes) (total_size received : Z) :
    link_op (Handle * bytes * Z) :=
  match fuel with
  | O => mfail (LinkError.UnexpectedFrame "unreachable")
  | S fuel =>
      let! stop := on_operation is_cancelled in
      if stop : bool then stop_cancelled
      else
        let! f := actor_data in
        let! output := on_disk (handle_write_all output (payload f)) in
        let hasher := hasher ++ payload f in
        let! received := mlift (ok_or (checked_add u64_max received (len (payload f))) LinkError.SequenceExhausted) in
        do! on_operation (set_transferred received) in
        if total_size <? received then mfail (LinkError.UnexpectedFrame "sync pull exceeded declared size")
        else if has_end_stream (header f) then mret (output, hasher, received)
        else receive_file fuel output hasher total_size received
  end.

(** From the end of the data to the file in place. *)
Definition pull_commit (staging destination : path) (ready : PullReady) (output : Handle) (hasher : bytes)
    (received : Z) : M Disk LinkError unit :=
  if negb (received =? ready_total_size ready)
     || bool_decide (bytes_hex (blake3 hasher) ≠ ready_file_hash ready)
  then
    do! set_len output 0 in
    do! sync_all in
    mfail (LinkError.Remote (rpc_new error_codes.CHECKSUM_MISMATCH "Checksum mismatch"))
  else
    do! sync_all in
    commit_host_file staging destination.

Definition pull_received (params : SyncPullParams) (staging : path) (ready : PullReady) (offset : Z) :
    link_op SyncPullResult :=
  let! output := on_disk (open_staging staging offset) in
  let! r := on_disk (hash_prefix output offset) in
  let! output := on_disk (seek_start r.1 offset) in
  let! s := mget in
  let! e := receive_file (S (length (incoming (host_stream s)))) output r.2 (ready_total_size ready) offset in
  let '(output, hasher, received) := e in
  do! on_disk (pull_commit staging (host_path (pull_local_path params)) ready output hasher received) in
  do! on_operation (set_transferred received) in
  do! actor_close in
  mret {| pulled_transfer_id := ready_transfer_id ready; pulled_total_size := ready_total_size ready;
          received_size := received; pulled_state := TransferState.Complete |}.

(** The file of a transfer that goes on, and how much of it there is.  The length of
    something else than a file is up to the system; it cannot be opened later. *)
Definition resume_offset (staging : option bytes) : link_op Z :=
  match staging with
  | None => mret 0
  | Some p =>
      let! r := on_disk (catch_io (metadata (host_path p))) in
      mret match r with Ok n => node_len n | Err _ => 0 end
  end.

Definition pull_stream (params : SyncPullParams) : link_op SyncPullResult :=
  do! open_stream in
  let! stop := on_operation is_cancelled in
  if stop : bool then mfail sync_cancelled_error
  else
    let! staging := mlift match pull_transfer_id params with
                          | Some transfer_id =>
                              match staging_path (pull_local_path params) transfer_id with
                              | Ok p => Ok (Some p)
                              | Err e => Err e
                              end
                          | None => Ok None
                          end in
    let! offset := resume_offset staging in
    do! send_request (Pull (pull_transfer_id params) (pull_remote_path params) offset (pull_block_size params))
          true in
    let! reply := recv_reply "sync reply" in
    let! ready := mlift (pull_ready_reply params offset reply) in
    do! on_operation (set_transfer_id (ready_transfer_id ready)) in
    do! on_operation (set_phase SyncProgressPhase.Transferring offset (ready_total_size ready)) in
    let! staging := mlift match staging with
                          | Some p => Ok p
                          | None => staging_path (pull_local_path params) (ready_transfer_id ready)
                          end in
    pull_received params (host_path staging) ready offset.

Definition pull_with_operation (params : SyncPullParams) : rpc_op SyncPullResult :=
  do! validate_host_path (pull_local_path params) in
  do! validate_block_size (pull_block_size params) in
  do! validate_requested_transfer_id (pull_transfer_id params) in
  map_error link_rpc_error (pull_stream params).
End client.
End Client.
