(* ===== verification/SyncHost.v ===== *)
(** * What the host's sync client does to the host's files and sends to the device

    The triples of this file are for a run with any device at the other end: [at_ t i o]
    says that the files of the host are [t], that [i] is still to be received on the
    stream and that [o] was sent on it. *)

From S2P Require Import Prelude Text WireFrame Actor BundleError Paths Utf8 Files FileHandles Rpc SyncStore SyncPush SyncStream SyncPull SyncClient.
Local Open Scope Z_scope.

(** ** Staging files *)

Lemma split_text_app c (p s : bytes) :
  c ∉ s → ∃ init l, split_text c p = init ++ [l] ∧ split_text c (p ++ s) = init ++ [l ++ s].
Proof.
  intros Hs. induction p as [|b p (init & l & Hp & Hps)]; simpl.
  - exists [], []. split; [done|]. induction s as [|b s IH]; [done|]. apply not_elem_of_cons in Hs as [Hb Hs].
    simpl. rewrite bool_decide_eq_false_2 by auto. by rewrite (IH Hs).
  - case_bool_decide.
    + exists ([] :: init), l. by rewrite Hp, Hps.
    + destruct init as [|a init]; rewrite Hp, Hps; simpl.
      * by exists [], (b :: l).
      * by exists ((b :: a) :: init), l.
Qed.

Lemma valid_id_no_slash id : is_valid_transfer_id id = true → x2f ∉ id.
Proof.
  intros [_ Hall]%andb_true_iff Hin. rewrite forallb_forall in Hall.
  by specialize (Hall x2f (proj1 (list_elem_of_In _ _) Hin)).
Qed.

Definition staging_of (local id : bytes) : path :=
  host_path (local ++ text ".kindlebridge." ++ id ++ text ".part").

(** The staging file is in the directory of the destination, under another name. *)
Lemma staging_of_shape local id :
  is_valid_transfer_id id = true →
  ∃ base name, staging_of local id = base ++ [name] ∧ staging_of local id ≠ host_path local ∧
    (host_path local = base ∨ ∃ last, host_path local = base ++ [last]).
Proof.
  intros Hid. set (s := text ".kindlebridge." ++ id ++ text ".part").
  assert (Hs : x2f ∉ s).
  { unfold s. rewrite !not_elem_of_app. split_and!; [|by apply valid_id_no_slash|];
      apply (bool_decide_unpack _); by vm_compute. }
  destruct (split_text_app x2f local s Hs) as (init & l & Hp & Hps).
  set (base := filter (λ name : bytes, name ≠ []) init). exists base, (l ++ s).
  assert (Hne : l ++ s ≠ []) by (unfold s; by destruct l).
  assert (Hstage : staging_of local id = base ++ [l ++ s]).
  { unfold staging_of, host_path. fold s. by rewrite Hps, filter_app, filter_cons_True. }
  assert (Hdest : host_path local = base ++ (if decide (l = []) then [] else [l])).
  { unfold host_path. rewrite Hp, filter_app. destruct (decide (l = [])) as [->|Hl]; [done|].
    by rewrite filter_cons_True. }
  split; [done|]. rewrite Hstage, Hdest. destruct (decide (l = [])) as [->|Hl].
  - rewrite app_nil_r. split; [|by left]. intros Heq%(f_equal length). rewrite length_app in Heq. simpl in Heq. lia.
  - split; [|right; by exists l]. intros Heq%app_inv_head. injection Heq as Heq%(f_equal length).
    rewrite length_app in Heq. unfold s in Heq. simpl in Heq. lia.
Qed.

Lemma staging_path_ok local id p :
  staging_path local id = Ok p → is_valid_transfer_id id = true ∧ host_path p = staging_of local id.
Proof. unfold staging_path. case_match; [|done]. by intros [= <-]. Qed.

(** ** Rules *)

Definition at_ (t : gmap path Node) (i : list (result ConnectionError Frame)) (o : list (bytes * bool))
    (s : HostSync) : Prop :=
  tree (host_disk s) = t ∧ incoming (host_stream s) = i ∧ outgoing (host_stream s) = o.
(** What a call that fails leaves alone. *)
Definition still (t : gmap path Node) (o : list (bytes * bool)) (s : HostSync) : Prop :=
  tree (host_disk s) = t ∧ outgoing (host_stream s) = o.
Lemma at_still t i o s : at_ t i o s → still t o s.
Proof. by intros (? & _ & ?). Qed.
#[export] Hint Resolve at_still : kb.

Section rules.
Context {E : Type}.
Implicit Types (t : gmap path Node) (i : list (result ConnectionError Frame)) (o : list (bytes * bool)).

Lemma host_disk_call {A} (m : M Disk E A) t i o Q C :
  hoare (on_tree t) m Q C →
  hoare (at_ t i o) (on_disk m) (λ a s, Q a (host_disk s) ∧ at_ (tree (host_disk s)) i o s)
    (λ s, C (host_disk s) ∧ outgoing (host_stream s) = o).
Proof.
  intros Hm s (Ht & Hi & Ho). specialize (Hm (host_disk s) Ht). unfold on_disk, zoom.
  by destruct (m (host_disk s)) as [d [a|e]].
Qed.
Lemma host_look {A B} (m : M Disk E A) (k : A → M HostSync E B) φ t i o Q (C : HostSync → Prop) :
  looks m φ → (∀ s, still t o s → C s) → (∀ a, φ t a → hoare (at_ t i o) (k a) Q C) →
  hoare (at_ t i o) (mbnd (on_disk m) k) Q C.
Proof.
  intros Hm HC Hk. eapply hoare_step; [apply host_disk_call, (Hm t)|intros s [Hs Ho]; by apply HC|].
  intros a s [[Hs Ha] Hat]. unfold on_tree in Hs. rewrite Hs in Hat. by apply Hk.
Qed.
Lemma host_operation {A B} (m : M HostSyncOperation E A) (k : A → M HostSync E B) t i o Q C :
  (∀ op, is_ok (m op).2 = true) → (∀ a, hoare (at_ t i o) (k a) Q C) →
  hoare (at_ t i o) (mbnd (on_operation m) k) Q C.
Proof.
  intros Hm Hk. eapply hoare_bind with (Q := λ _, at_ t i o); [|exact Hk].
  intros s Hs. unfold on_operation, zoom. specialize (Hm (operation s)).
  by destruct (m (operation s)) as [op [a|e]].
Qed.
Lemma is_cancelled_ok op : is_ok (is_cancelled (E := E) op).2 = true.
Proof. unfold is_cancelled. by destruct (cancellations op). Qed.
Lemma host_lift {A B} (r : result E A) (k : A → M HostSync E B) t i o Q (C : HostSync → Prop) :
  (∀ s, still t o s → C s) → (∀ a, r = Ok a → hoare (at_ t i o) (k a) Q C) →
  hoare (at_ t i o) (mbnd (mlift r) k) Q C.
Proof. intros HC Hk. apply hoare_lift_at; [|done]. intros s Hs%at_still. auto. Qed.
Lemma host_fail {A} (e : E) t i o (Q : A → HostSync → Prop) (C : HostSync → Prop) :
  (∀ s, still t o s → C s) → hoare (at_ t i o) (mfail e) Q C.
Proof. intros HC. apply hoare_fail. intros s Hs%at_still. auto. Qed.
Lemma hoare_map_error {F A} (f : E → F) (m : M HostSync E A) P Q C :
  hoare P m Q C → hoare P (map_error f m) Q C.
Proof. intros Hm s Hs. specialize (Hm s Hs). unfold map_error. by destruct (m s) as [s' []]. Qed.

Context `{FromConnection E}.
Lemma host_recv {B} (k : Frame → M HostSync E B) t i o Q (C : HostSync → Prop) :
  (∀ s, still t o s → C s) → (∀ f l, i = Ok f :: l → hoare (at_ t l o) (k f) Q C) →
  hoare (at_ t i o) (mbnd (on_link recv) k) Q C.
Proof.
  intros HC Hk s (Ht & Hi & Ho). unfold mbnd, on_link, zoom, recv. rewrite Hi.
  destruct i as [|[f|e] l]; [by apply HC| |by apply HC]. by apply (Hk f l).
Qed.
Lemma answer_run (f : ServiceStream → ServiceStream) (st : ServiceStream) :
  (∃ st' e, answer (E := E) f st = (st', Err e) ∧ incoming st' = incoming st ∧ outgoing st' = outgoing st) ∨
  (∃ st', answer (E := E) f st = (f st', Ok tt) ∧ incoming st' = incoming st ∧ outgoing st' = outgoing st).
Proof. unfold answer. destruct (answers st) as [|[e|] l]; [right|left|right]; eauto 6. Qed.
Lemma host_send {B} data b (k : unit → M HostSync E B) t i o Q (C : HostSync → Prop) :
  (∀ s, still t o s → C s) → hoare (at_ t i (o ++ [(data, b)])) (k tt) Q C →
  hoare (at_ t i o) (mbnd (on_link (send_data data b)) k) Q C.
Proof.
  intros HC Hk s (Ht & Hi & Ho). unfold mbnd, on_link, zoom, send_data.
  destruct (answer_run (add_outgoing (data, b)) (host_stream s)) as [(st & e & -> & ? & ?)|(st & -> & Hi' & Ho')].
  - apply HC. split; [done|]. simpl. congruence.
  - apply Hk. split; [done|]. simpl. by rewrite Hi', Ho', Hi, Ho.
Qed.
Lemma host_answer {B} (f : ServiceStream → ServiceStream) (k : unit → M HostSync E B) t i o Q (C : HostSync → Prop) :
  (∀ st, incoming (f st) = incoming st ∧ outgoing (f st) = outgoing st) →
  (∀ s, still t o s → C s) → hoare (at_ t i o) (k tt) Q C → hoare (at_ t i o) (mbnd (on_link (answer f)) k) Q C.
Proof.
  intros Hf HC Hk s (Ht & Hi & Ho). unfold mbnd, on_link, zoom.
  destruct (answer_run f (host_stream s)) as [(st & e & -> & ? & ?)|(st & -> & Hi' & Ho')].
  - apply HC. split; [done|]. simpl. congruence.
  - apply Hk. destruct (Hf st) as [Hfi Hfo]. split; [done|]. simpl. by rewrite Hfi, Hfo, Hi', Ho', Hi, Ho.
Qed.
End rules.

(** ** Receiving a file *)

(** Frames of which the last one, and only it, ends the stream. *)
Definition frames_to_end (frames : list Frame) : Prop :=
  ∃ init final, frames = init ++ [final] ∧
    Forall (λ f, has_end_stream (header f) = false) init ∧ has_end_stream (header final) = true.

Lemma frames_to_end_cons f frames :
  has_end_stream (header f) = false → frames_to_end frames → frames_to_end (f :: frames).
Proof. intros Hf (init & final & -> & Hinit & Hfinal). exists (f :: init), final. auto. Qed.

Section client.
Context `{PointerWidth, ReadSize, ClientJson}.
Context (blake3 : bytes → bytes) (link_resolves : path → bool) (show_io_error : IoErrorKind → bytes) (id : Z).
Implicit Types (t : gmap path Node) (i : list (result ConnectionError Frame)) (o : list (bytes * bool)).

Abbreviation data_frame f := (command (header f) = Command.Data).

Lemma host_expect {B} f c (k : unit → link_op B) t i o Q (C : HostSync → Prop) :
  (∀ s, still t o s → C s) → (command (header f) = c → hoare (at_ t i o) (k tt) Q C) →
  hoare (at_ t i o) (mbnd (Client.expect id f c) k) Q C.
Proof.
  intros HC Hk. unfold Client.expect. destruct (_ && _) eqn:Hb.
  - apply andb_true_iff in Hb as [Hc%bool_decide_eq_true _]. intros s Hs. by apply Hk.
  - intros s Hs%at_still. by apply HC.
Qed.
Lemma host_data {B} (k : Frame → link_op B) t i o Q (C : HostSync → Prop) :
  (∀ s, still t o s → C s) →
  (∀ f l, i = Ok f :: l → data_frame f → hoare (at_ t l o) (k f) Q C) →
  hoare (at_ t i o) (mbnd (Client.actor_data id) k) Q C.
Proof.
  intros HC Hk. eapply hoare_ext with (m' := mbnd (on_link recv) (λ f, mbnd (Client.expect id f Command.Data) (λ _, k f))).
  { intros s. unfold Client.actor_data, mbnd. destruct (on_link recv s) as [s1 [f|e]]; [|done].
    by destruct (Client.expect id f Command.Data s1) as [s2 [[]|e]]. }
  apply host_recv; [done|]. intros f l Hi. apply host_expect; [done|]. intros Hc. by apply (Hk f l).
Qed.
Lemma host_reply {B} label (k : SyncReply → link_op B) t i o Q (C : HostSync → Prop) :
  (∀ s, still t o s → C s) →
  (∀ f l r, i = Ok f :: l → data_frame f → decode_reply (payload f) = Some r → hoare (at_ t l o) (k r) Q C) →
  hoare (at_ t i o) (mbnd (Client.recv_reply id label) k) Q C.
Proof.
  intros HC Hk. eapply hoare_ext with
    (m' := mbnd (Client.actor_data id) (λ f, mbnd (mlift (ok_or (decode_reply (payload f)) (LinkError.InvalidPayload label))) k)).
  { intros s. unfold Client.recv_reply, mbnd. by destruct (Client.actor_data id s) as [s1 [f|e]]. }
  apply host_data; [done|]. intros f l Hi Hc. apply host_lift; [done|]. intros r Hr%ok_or_ok. by eapply Hk.
Qed.
Lemma host_close {B} (k : unit → link_op B) t i o Q (C : HostSync → Prop) :
  (∀ s, still t o s → C s) →
  (∀ f l, i = Ok f :: l → command (header f) = Command.Close → hoare (at_ t l o) (k tt) Q C) →
  hoare (at_ t i o) (mbnd (Client.actor_close id) k) Q C.
Proof.
  intros HC Hk. eapply hoare_ext with
    (m' := mbnd (on_link recv) (λ f, mbnd (Client.expect id f Command.Close) k)).
  { intros s. unfold Client.actor_close, mbnd. by destruct (on_link recv s) as [s1 [f|e]]. }
  apply host_recv; [done|]. intros f l Hi. apply host_expect; [done|]. intros Hc. by eapply Hk.
Qed.
Lemma host_request {B} r b (k : unit → link_op B) t i o Q (C : HostSync → Prop) :
  (∀ s, still t o s → C s) →
  (∀ bs, encode_request r = Some bs → hoare (at_ t i (o ++ [(bs, b)])) (k tt) Q C) →
  hoare (at_ t i o) (mbnd (Client.send_request r b) k) Q C.
Proof.
  intros HC Hk. eapply hoare_ext with
    (m' := mbnd (mlift (ok_or (encode_request r) LinkError.Json)) (λ bs, mbnd (on_link (send_data bs b)) k)).
  { intros s. unfold Client.send_request, mbnd, mlift. by destruct (encode_request r). }
  apply host_lift; [done|]. intros bs Hbs%ok_or_ok. apply host_send; [done|]. by apply Hk.
Qed.
Lemma host_cancelled {A} t i o (Q : A → HostSync → Prop) (C : HostSync → Prop) :
  (∀ s, still t o s → C s) → hoare (at_ t i o) Client.stop_cancelled Q C.
Proof.
  intros HC s (Ht & Hi & Ho). unfold Client.stop_cancelled, mbnd, on_link, zoom, mtry, reset.
  destruct (answer_run (E := LinkError) (set_reset (text "sync cancelled")) (host_stream s))
    as [(st & e & -> & ? & ?)|(st & -> & Hi' & Ho')]; apply HC; (split; [done|]); simpl; congruence.
Qed.
(** The check of the flag at the top of a loop. *)
Lemma host_loop {A} (k : link_op A) t i o Q (C : HostSync → Prop) :
  (∀ s, still t o s → C s) → hoare (at_ t i o) k Q C →
  hoare (at_ t i o) (let! stop := on_operation is_cancelled in if stop : bool then Client.stop_cancelled else k) Q C.
Proof.
  intros HC Hk. apply host_operation; [apply is_cancelled_ok|]. intros []; [by apply host_cancelled|done].
Qed.

(** *** The staging file *)

Lemma hoare_open_or_create p truncate t :
  tree_ok t → p ≠ [] →
  hoare (on_tree t) (Client.open_or_create p truncate)
    (λ h d, h = {| handle_path := p; cursor := 0 |} ∧ t !! p ≠ Some Directory ∧ t !! parent p = Some Directory ∧
       ∃ c x, on_tree (<[p := Regular c x]> t) d ∧
              (c = [] ∨ truncate = false ∧ t !! p = Some (Regular c x)))
    (on_tree t).
Proof.
  intros Ht Hp. assert (Hpar : ∀ n, stat t p = Ok n → t !! parent p = Some Directory).
  { intros n Hn%stat_lookup. destruct p as [|a p _] using rev_ind; [done|].
    rewrite parent_snoc. apply (Ht p a). by rewrite Hn. }
  eapply hoare_bind; [apply hoare_gate|]. intros [] d Hd. cbn. unfold on_tree in Hd. rewrite Hd.
  destruct (stat t p) as [[c x| |]|[]] eqn:Hs; try exact Hd.
  - cbn. pose proof (Hpar _ eq_refl) as Hdir. apply stat_lookup in Hs. split_and!; [done|congruence|done|].
    exists (if truncate then [] else c), x. split; [done|]. destruct truncate; auto.
  - destruct (stat t (parent p)) as [[]|] eqn:Hdir; try exact Hd. cbn. apply stat_lookup in Hdir.
    apply (stat_not_found _ _ _ Ht) in Hs. split_and!; [done|congruence|done|].
    exists [], false. split; [done|by left].
Qed.

Lemma looks_hash_prefix_rounds fuel h rem absorbed :
  0 ≤ rem →
  looks (Client.hash_prefix_rounds fuel h rem absorbed)
    (λ t r, ∀ c x, t !! handle_path h = Some (Regular c x) →
       handle_path r.1 = handle_path h ∧ r.2 = absorbed ++ take (Z.to_nat rem) (drop (cursor h) c)).
Proof.
  revert h rem absorbed. induction fuel as [|fuel IH]; intros h rem absorbed Hrem; simpl;
    (destruct (Z.eqb_spec rem 0) as [->|Hne];
     [apply looks_ret; intros t c x _; simpl; by rewrite app_nil_r|]); [apply looks_fail|].
  case_match; [apply looks_fail|].
  intros t. eapply hoare_look; [apply looks_handle_read|done|].
  intros [h' data] (c & x & Hf & Hdata & Hh'). simpl in *.
  destruct (hash_round_step DEFAULT_SYNC_BLOCK_SIZE h rem c ltac:(done) ltac:(lia)) as [Hle Hsplit]. rewrite <-Hdata in Hle, Hsplit.
  case_bool_decide; [by apply hoare_fail|].
  eapply hoare_conseq; [apply (IH h' (rem - len data) (absorbed ++ data) Hle t)|done| |done].
  intros r d [Hd Hr]. split; [done|]. intros c' x' Hf'. assert (c' = c) as -> by congruence.
  subst h'. simpl in Hr. destruct (Hr c x Hf) as [-> ->]. split; [done|].
  by rewrite <-app_assoc, Hsplit.
Qed.
Lemma looks_host_hash_prefix h n :
  0 ≤ n →
  looks (Client.hash_prefix h n)
    (λ t r, ∀ c x, t !! handle_path h = Some (Regular c x) →
       handle_path r.1 = handle_path h ∧ r.2 = take (Z.to_nat n) c).
Proof.
  intros Hn. eapply looks_bind; [apply looks_seek_start|intros h'; by apply looks_hash_prefix_rounds|].
  intros t h' r -> Hr. apply Hr.
Qed.

Lemma hoare_append {E} `{FromIo E} h bs t c x :
  t !! handle_path h = Some (Regular c x) →
  hoare (on_tree t) (handle_write_all h bs : M Disk E _)
    (λ h' d, h' = {| handle_path := handle_path h; cursor := cursor h + length bs |} ∧
             on_tree (<[handle_path h := Regular (written (cursor h) bs c) x]> t) d)
    (λ d, ∃ c', on_tree (<[handle_path h := Regular c' x]> t) d).
Proof.
  intros Hf. eapply hoare_step; [by apply hoare_handle_write| |].
  - intros d Hd. exists c. by rewrite insert_id.
  - intros [h' []] d (part & _ & Hall & Hh & Hd); cbn in *; [|by eexists].
    by rewrite (Hall eq_refl) in Hh, Hd.
Qed.

(** What the loop has taken from the stream, and where it went. *)
Lemma hoare_receive_file fuel sp t x c hs total received i o (C : HostSync → Prop) :
  (∀ c' s, still (<[sp := Regular c' x]> t) o s → C s) →
  hoare (at_ (<[sp := Regular c x]> t) i o)
    (Client.receive_file id fuel {| handle_path := sp; cursor := length c |} hs total received)
    (λ e s, ∃ frames rest, let data := concat (payload <$> frames) in
       i = (Ok <$> frames) ++ rest ∧ Forall (λ f, data_frame f) frames ∧ frames_to_end frames ∧
       e = ({| handle_path := sp; cursor := length (c ++ data) |}, hs ++ data, received + len data) ∧
       at_ (<[sp := Regular (c ++ data) x]> t) rest o s) C.
Proof.
  intros HC. revert c hs received i. induction fuel as [|fuel IH]; intros c hs received i; simpl;
    [by apply host_fail, HC|].
  apply host_loop; [apply HC|]. apply host_data; [apply HC|]. intros f l -> Hcmd.
  eapply hoare_step; [apply host_disk_call, hoare_append, lookup_insert_eq| |].
  { intros s [[c' Hd] Ho]. unfold on_tree in Hd. cbn [handle_path] in Hd. rewrite insert_insert_eq in Hd. by eapply HC. }
  intros h. apply hoare_any. intros s0 [[-> Hd] Hat]. unfold on_tree in Hd. rewrite Hd in Hat.
  cbn [handle_path cursor] in *. rewrite insert_insert_eq, written_end in Hat.
  eapply hoare_pre; [intros s ->; exact Hat|].
  apply host_lift; [apply HC|]. intros n (-> & _)%ok_or_ok%checked_add_Some.
  apply host_operation; [done|]. intros []. case_match; [apply host_fail, HC|].
  destruct (has_end_stream (header f)) eqn:Hend.
  - apply hoare_ret. intros s Hs. exists [f], l. simpl. rewrite app_nil_r, length_app.
    split_and!; [done|auto| |done..]. by exists [], f.
  - rewrite <-length_app. eapply hoare_conseq; [apply IH|done| |done].
    intros e s (frames & rest & -> & Hall & Hto & -> & Hs). exists (f :: frames), rest. simpl.
    rewrite <-!app_assoc in *. split_and!; [done|by constructor|by apply frames_to_end_cons| |done].
    by rewrite len_app, Z.add_assoc.
Qed.

(** *** Committing *)

Lemma hoare_commit_host_file sp dest c x t :
  tree_ok t → t !! sp = Some (Regular c x) → sp ≠ dest →
  hoare (on_tree t) (Client.commit_host_file link_resolves sp dest)
    (λ _ d, tree d !! dest = Some (Regular c x) ∧ ∀ q, q ≠ sp → q ≠ dest → tree d !! q = t !! q)
    (λ d, on_tree t d ∨ on_tree (delete dest t) d).
Proof.
  intros Ht Hsp Hne.
  assert (Hrename : ∀ t1, stat t1 sp = Ok (Regular c x) → (∀ q, q ≠ sp → q ≠ dest → t1 !! q = t !! q) →
    hoare (on_tree t1) (rename sp dest : M Disk LinkError unit)
      (λ _ d, tree d !! dest = Some (Regular c x) ∧ ∀ q, q ≠ sp → q ≠ dest → tree d !! q = t !! q) (on_tree t1)).
  { intros t1 Hst Hother. eapply hoare_conseq; [by apply (hoare_rename sp dest (Regular c x))|done| |done].
    intros [] d [Hd _]. unfold on_tree in Hd. rewrite Hd, lookup_insert_eq. split; [done|].
    intros q Hq Hq'. rewrite lookup_insert_ne, lookup_delete_ne by done. auto. }
  eapply hoare_look with (φ := λ _ _, True); [|by left|].
  { eapply looks_seq; [apply looks_catch_io, looks_symlink_metadata|]. intros r. by apply looks_ret. }
  intros present _. destruct present.
  - eapply hoare_bind with (Q := λ _ d, on_tree (delete dest t) d ∧ tree_ok (delete dest t)).
    + eapply hoare_look; [apply looks_symlink_metadata|by left|]. intros n Hn%stat_lookup.
      destruct n; cbn [is_file negb]; try (apply hoare_fail; by left).
      eapply hoare_conseq; [apply hoare_unlink|done|intros [] d Hd; split; [done|]|by left].
      by eapply tree_ok_delete.
    + intros []. apply hoare_any. intros d0 [Hd Hok]. apply hoare_pre with (P' := on_tree (delete dest t)); [by intros d ->|].
      eapply hoare_conseq; [apply Hrename|done|done|by right].
      * apply stat_complete; [done|]. by rewrite lookup_delete_ne.
      * intros q _ Hq. by rewrite lookup_delete_ne.
  - eapply hoare_bind with (Q := λ _, on_tree t); [by apply hoare_ret|]. intros [].
    eapply hoare_conseq; [apply Hrename; [by apply stat_complete|done]|done|done|by left].
Qed.

Section one_pull.
Context (sp dest : path) (t : gmap path Node).
Hypothesis tree_valid : tree_ok t.
Hypothesis staging_elsewhere : sp ≠ dest.
Hypothesis staging_below : sp ≠ [].
Context (ready : Client.PullReady).

Definition genuine (c : bytes) : Prop :=
  len c = Client.ready_total_size ready ∧ bytes_hex (blake3 c) = Client.ready_file_hash ready.

(** Nothing but the staging file, the destination and directories above them changes. *)
Definition others_kept t' : Prop :=
  ∀ q, q ≠ sp → q ≠ dest →
    t' !! q = t !! q ∨ (t !! q = None ∧ t' !! q = Some Directory ∧ q `prefix_of` parent sp).
(** What a pull that fails may leave at the destination: what was there; a new directory,
    when there was nothing and the staging file lies below the destination (whose path then
    ends in a separator); the announced file; or nothing, with the announced file complete
    in the staging file. *)
Definition destination_safe t' : Prop :=
  t' !! dest = t !! dest ∨
  (t !! dest = None ∧ t' !! dest = Some Directory ∧ dest `prefix_of` parent sp) ∨
  ∃ c x, genuine c ∧ (t' !! dest = Some (Regular c x) ∨ (t' !! dest = None ∧ t' !! sp = Some (Regular c x))).

(** While the staging file is filled. *)
Record staging t1 : Prop := {
  staging_dirs : dirs_made (parent sp) t t1;
  staging_free : t1 !! sp ≠ Some Directory;
  staging_parent : t1 !! parent sp = Some Directory;
}.

Lemma staging_others t1 n : staging t1 → others_kept (<[sp := n]> t1).
Proof.
  intros [Hd _ _] q Hq _. rewrite lookup_insert_ne by done. apply (dirs_other _ _ _ Hd).
Qed.
Lemma dirs_safe t1 : dirs_made (parent sp) t t1 → others_kept t1 ∧ destination_safe t1.
Proof.
  intros Hd. split; [intros q _ _; apply (dirs_other _ _ _ Hd)|].
  destruct (dirs_other _ _ _ Hd dest) as [Hs|(? & ? & ?)]; [by left|by right; left].
Qed.
Lemma staging_safe t1 n : staging t1 → others_kept (<[sp := n]> t1) ∧ destination_safe (<[sp := n]> t1).
Proof.
  intros Hs. split; [by apply staging_others|]. unfold destination_safe. rewrite lookup_insert_ne by done.
  destruct (dirs_other _ _ _ (staging_dirs _ Hs) dest) as [?|(? & ? & ?)]; [by left|by right; left].
Qed.
Lemma staging_tree t1 c x : staging t1 → tree_ok (<[sp := Regular c x]> t1).
Proof.
  intros [Hd Hf Hp]. apply tree_ok_insert; [apply Hd|by right|]. intros m Hm ->. done.
Qed.

Lemma hoare_open_staging offset :
  0 ≤ offset →
  hoare (on_tree t) (Client.open_staging sp offset)
    (λ h d, h = {| handle_path := sp; cursor := 0 |} ∧ ∃ t1 c x, staging t1 ∧ on_tree (<[sp := Regular c x]> t1) d ∧
       len c = offset ∧ (offset ≠ 0 → t !! sp = Some (Regular c x)))
    (λ d, others_kept (tree d) ∧ destination_safe (tree d)).
Proof.
  intros Hoff. unfold Client.open_staging. rewrite bool_decide_eq_false_2 by done.
  eapply hoare_step; [by apply hoare_create_dir_all|intros d Hd; by apply dirs_safe|].
  intros []. apply hoare_any. intros d0 Hd0. set (t1 := tree d0) in *.
  apply hoare_pre with (P' := on_tree t1); [by intros d ->|].
  eapply hoare_step; [apply hoare_open_or_create; [apply Hd0|done]|at_tree; by apply dirs_safe|].
  intros h. apply hoare_any. intros d1 (-> & Hf & Hpar & c & x & Hd1 & Hc).
  assert (Hst : staging t1) by by split.
  apply hoare_pre with (P' := on_tree (<[sp := Regular c x]> t1)); [by intros d ->|].
  eapply hoare_look; [apply looks_handle_len|at_tree; by apply staging_safe|].
  intros n (c' & x' & Hf' & ->). cbn [handle_path] in Hf'. rewrite lookup_insert_eq in Hf'. injection Hf' as <- <-.
  destruct (Z.eqb_spec (len c) offset) as [Hlen|]; cbn [negb]; [|apply hoare_fail; at_tree; by apply staging_safe].
  apply hoare_ret. intros d Hd. split; [done|]. exists t1, c, x. split_and!; [done..|]. intros Hne.
  destruct Hc as [->|[_ Hc]]; [by rewrite <-Hlen in Hne|].
  destruct (dirs_other _ _ _ Hd0 sp) as [Heq|(_ & Hdir & _)]; congruence.
Qed.

Lemma hoare_pull_commit t1 c x h received :
  staging t1 → received = len c → handle_path h = sp →
  hoare (on_tree (<[sp := Regular c x]> t1)) (Client.pull_commit blake3 link_resolves sp dest ready h c received)
    (λ _ d, received = Client.ready_total_size ready ∧ genuine c ∧ others_kept (tree d) ∧ tree d !! dest = Some (Regular c x))
    (λ d, others_kept (tree d) ∧ destination_safe (tree d)).
Proof.
  intros Hst -> Hh. unfold Client.pull_commit.
  destruct (Z.eqb_spec (len c) (Client.ready_total_size ready)) as [Hlen|]; cbn [negb orb]; [case_bool_decide as Hhash|];
    cbn [orb]; try (eapply hoare_step; [apply hoare_set_len; rewrite Hh; apply lookup_insert_eq|at_tree; by apply staging_safe|];
      intros []; rewrite Hh, insert_insert_eq; eapply hoare_step; [apply hoare_gate|at_tree; by apply staging_safe|];
      intros []; apply hoare_fail; at_tree; by apply staging_safe).
  assert (Hg : genuine c) by done.
  eapply hoare_step; [apply hoare_gate|at_tree; by apply staging_safe|]. intros [].
  eapply hoare_conseq; [apply (hoare_commit_host_file sp dest c x)|done| |].
  - by apply staging_tree.
  - apply lookup_insert_eq.
  - done.
  - intros [] d [Hd Ho]. split_and!; [done|done| |done]. intros q Hq Hq'. rewrite Ho by done.
    by apply (staging_others _ (Regular c x) Hst).
  - intros d [Hd|Hd]; unfold on_tree in Hd; rewrite Hd; [by apply staging_safe|]. split.
    + intros q Hq Hq'. rewrite lookup_delete_ne by done. by apply (staging_others _ (Regular c x) Hst).
    + right; right. exists c, x. split; [done|]. right. rewrite lookup_delete_eq, lookup_delete_ne by done.
      by rewrite lookup_insert_eq.
Qed.
End one_pull.

(** *** The whole pull *)

(** The frames [i] bring the rest of a file after [c0], then the end of the stream. *)
Record brings (i : list (result ConnectionError Frame)) (c0 c : bytes) : Prop := {
  brought : ∃ frames f rest, i = (Ok <$> frames) ++ Ok f :: rest ∧ Forall (λ f, data_frame f) frames ∧
    frames_to_end frames ∧ command (header f) = Command.Close ∧ c = c0 ++ concat (payload <$> frames);
}.

Lemma hoare_pull_received params sp ready offset t i o :
  tree_ok t → sp ≠ [] → sp ≠ host_path (pull_local_path params) → 0 ≤ offset →
  let dest := host_path (pull_local_path params) in
  hoare (at_ t i o) (Client.pull_received blake3 link_resolves id params sp ready offset)
    (λ res s, res = {| pulled_transfer_id := Client.ready_transfer_id ready;
                       pulled_total_size := Client.ready_total_size ready;
                       received_size := Client.ready_total_size ready; pulled_state := TransferState.Complete |} ∧
       ∃ c0 c x, len c0 = offset ∧ (offset ≠ 0 → t !! sp = Some (Regular c0 x)) ∧ brings i c0 c ∧ genuine ready c ∧
         others_kept sp dest t (tree (host_disk s)) ∧ tree (host_disk s) !! dest = Some (Regular c x) ∧
         outgoing (host_stream s) = o)
    (λ s, others_kept sp dest t (tree (host_disk s)) ∧ destination_safe sp dest t ready (tree (host_disk s))).
Proof.
  intros Ht Hsp Hne Hoff dest. unfold Client.pull_received.
  eapply hoare_step; [by apply host_disk_call, (hoare_open_staging sp dest t Ht Hne Hsp ready)|by intros s [? _]|].
  intros h. apply hoare_any. intros s0 [(-> & t1 & c0 & x & Hst & Hd & Hlen & Hold) Hat].
  unfold on_tree in Hd. rewrite Hd in Hat. apply hoare_pre with (P' := at_ (<[sp := Regular c0 x]> t1) i o); [by intros s ->|].
  assert (Hsafe : ∀ n (o' : list (bytes * bool)) s, still (<[sp := n]> t1) o' s →
    others_kept sp dest t (tree (host_disk s)) ∧ destination_safe sp dest t ready (tree (host_disk s)))
    by (intros n o' s [-> _]; by apply staging_safe).
  eapply host_look; [by apply looks_host_hash_prefix|apply Hsafe|]. intros [h hs] Hr.
  destruct (Hr c0 x (lookup_insert_eq _ _ _)) as [Hh Hhs]. cbn [fst snd handle_path] in *. clear Hr.
  rewrite <-Hlen, take_len in Hhs. subst hs.
  eapply host_look; [apply looks_seek_start|apply Hsafe|]. intros h' ->. rewrite Hh.
  apply hoare_any. intros s1 Hs1. apply hoare_get_at. eapply hoare_pre; [intros s ->; exact Hs1|].
  replace (Z.to_nat offset) with (length c0) by (unfold len in Hlen; lia).
  eapply hoare_step; [by apply (hoare_receive_file _ sp t1 x c0 c0 _ offset i o), (λ c', Hsafe (Regular c' x) o)|done|].
  intros e. apply hoare_any. intros s2 (frames & rest & -> & Hall & Hto & -> & Hat2).
  eapply hoare_pre; [intros s ->; exact Hat2|]. set (c := c0 ++ concat (payload <$> frames)) in *.
  eapply hoare_step; [apply host_disk_call, (hoare_pull_commit sp dest t Hne ready t1 c x); try done|by intros s [? _]|].
  { unfold c. rewrite len_app. lia. }
  intros []. apply hoare_any. intros s3 [(Hrec & Hg & Hoth & Hdest) Hat3]. rewrite Hrec.
  eapply hoare_pre; [intros s ->; exact Hat3|].
  assert (Hdone : ∀ s, still (tree (host_disk s3)) o s →
    others_kept sp dest t (tree (host_disk s)) ∧ destination_safe sp dest t ready (tree (host_disk s))).
  { intros s [-> _]. split; [done|]. right; right. eauto. }
  apply host_operation; [done|]. intros []. apply host_close; [done|]. intros f l -> Hclose.
  apply hoare_ret. intros s (-> & _ & ->). split; [done|]. exists c0, c, x. split_and!; try done.
  split. by exists frames, f, l.
Qed.

(** The reply with which the device announces the file. *)
Definition announces i (ready : Client.PullReady) (offset : Z) : Prop :=
  ∃ f l, i = Ok f :: l ∧ data_frame f ∧ decode_reply (payload f) =
    Some (Ready (Client.ready_transfer_id ready) offset (Client.ready_total_size ready) (Client.ready_file_hash ready)).

Lemma pull_ready_reply_ok params offset r ready :
  Client.pull_ready_reply params offset r = Ok ready →
  r = Ready (Client.ready_transfer_id ready) offset (Client.ready_total_size ready) (Client.ready_file_hash ready) ∧
  is_valid_transfer_id (Client.ready_transfer_id ready) = true ∧
  (∀ tid, pull_transfer_id params = Some tid → Client.ready_transfer_id ready = tid) ∧
  offset ≤ Client.ready_total_size ready.
Proof.
  unfold Client.pull_ready_reply. destruct r as [tid off size hash| |]; try done.
  destruct (is_valid_transfer_id tid) eqn:Hv; [|done]. cbn [negb orb].
  destruct (match pull_transfer_id params with Some expected => _ | None => _ end) eqn:Hid; [done|]. cbn [orb].
  destruct (Z.eqb_spec off offset) as [->|]; [|done]. cbn [negb orb].
  destruct (Z.ltb_spec size offset) as [|Hle]; [done|]. intros [= <-]. split_and!; try done.
  intros tid' Heq. rewrite Heq in Hid. case_bool_decide; [done|]. simpl. by apply dec_stable; auto.
Qed.

Definition pull_request (params : SyncPullParams) (offset : Z) : SyncRequest :=
  Pull (pull_transfer_id params) (pull_remote_path params) offset (pull_block_size params).

(** What a pull that succeeds has done, from the tree [t] with [i] to receive: [c0] was in
    the staging file. *)
Record pull_result (params : SyncPullParams) (t : gmap path Node) (i : list (result ConnectionError Frame))
    (o : list (bytes * bool)) (res : SyncPullResult) (s : HostSync) (ready : Client.PullReady) (c0 c : bytes) : Prop := {
  pulled_announced : announces i ready (len c0);
  pulled_sent : ∃ bs, encode_request (pull_request params (len c0)) = Some bs ∧ outgoing (host_stream s) = o ++ [(bs, true)];
  pulled_valid : is_valid_transfer_id (Client.ready_transfer_id ready) = true;
  pulled_value : res = {| pulled_transfer_id := Client.ready_transfer_id ready;
    pulled_total_size := Client.ready_total_size ready; received_size := Client.ready_total_size ready;
    pulled_state := TransferState.Complete |};
  pulled_before : c0 ≠ [] → ∃ x, t !! staging_of (pull_local_path params) (Client.ready_transfer_id ready) = Some (Regular c0 x);
  pulled_fresh : pull_transfer_id params = None → c0 = [];
  pulled_frames_brought : brings (tail i) c0 c;
  pulled_genuine : genuine ready c;
  pulled_others : others_kept (staging_of (pull_local_path params) (Client.ready_transfer_id ready))
    (host_path (pull_local_path params)) t (tree (host_disk s));
  pulled_file : ∃ x, tree (host_disk s) !! host_path (pull_local_path params) = Some (Regular c x);
}.
(** A pull that fails before the device has announced a file changes nothing. *)
Definition pull_failure (local : bytes) (t : gmap path Node) (i : list (result ConnectionError Frame)) t' : Prop :=
  t' = t ∨ ∃ ready offset, announces i ready offset ∧ is_valid_transfer_id (Client.ready_transfer_id ready) = true ∧
    let sp := staging_of local (Client.ready_transfer_id ready) in
    others_kept sp (host_path local) t t' ∧ destination_safe sp (host_path local) t ready t'.

Lemma looks_resume_offset p :
  looks (let! r := catch_io (metadata p) in mret match r with Ok n => node_len n | Err _ => 0 end : M Disk LinkError Z)
    (λ _ n, 0 ≤ n).
Proof.
  eapply looks_seq; [apply looks_catch_io, looks_metadata|]. intros r. apply looks_ret. intros t.
  destruct r as [[]|]; simpl; try done. apply len_nonneg.
Qed.
Lemma host_resume_offset {B} staging (k : Z → link_op B) t i o Q (C : HostSync → Prop) :
  (∀ s, still t o s → C s) → (∀ n, 0 ≤ n → (staging = None → n = 0) → hoare (at_ t i o) (k n) Q C) →
  hoare (at_ t i o) (mbnd (Client.resume_offset staging) k) Q C.
Proof.
  intros HC Hk. destruct staging as [p|]; simpl; [|intros s Hs; by apply (Hk 0)].
  eapply hoare_ext with (m' := mbnd (on_disk (let! r := catch_io (metadata (host_path p)) in
    mret match r with Ok n => node_len n | Err _ => 0 end)) k).
  { intros s. unfold mbnd, on_disk, zoom, mret. by destruct (catch_io _ (host_disk s)) as [d []]. }
  eapply host_look; [apply looks_resume_offset|done|]. intros n Hn. by apply Hk.
Qed.

Lemma hoare_pull_stream params t i o :
  tree_ok t →
  hoare (at_ t i o) (Client.pull_stream blake3 link_resolves id params)
    (λ res s, ∃ ready c0 c, pull_result params t i o res s ready c0 c)
    (λ s, pull_failure (pull_local_path params) t i (tree (host_disk s))).
Proof.
  intros Ht. set (local := pull_local_path params).
  assert (HC : ∀ (o' : list (bytes * bool)) s, still t o' s → pull_failure local t i (tree (host_disk s))) by (intros o' s [-> _]; by left).
  apply host_answer; [done|apply HC|]. apply host_operation; [apply is_cancelled_ok|]. intros []; [apply host_fail, HC|].
  apply host_lift; [apply HC|]. intros st Hst. apply host_resume_offset; [apply HC|]. intros offset Hoff Hfresh.
  apply host_request; [apply HC|]. intros bs Hbs. apply host_reply; [apply HC|]. intros f l r -> Hf Hr.
  apply host_lift; [apply HC|]. intros ready (-> & Hv & Hid & _)%pull_ready_reply_ok.
  assert (Hann : announces (Ok f :: l) ready offset) by (by exists f, l).
  apply host_operation; [done|]. intros []. apply host_operation; [done|]. intros [].
  apply host_lift; [apply HC|]. intros p Hp.
  assert (Hsp : host_path p = staging_of local (Client.ready_transfer_id ready)).
  { destruct st as [p'|].
    - injection Hp as <-. destruct (pull_transfer_id params) as [tid|]; [|done].
      destruct (staging_path _ tid) as [p''|] eqn:Htid; [|done]. injection Hst as ->.
      apply staging_path_ok in Htid as [_ ->]. by rewrite (Hid _ eq_refl).
    - by apply staging_path_ok in Hp as [_ ->]. }
  rewrite Hsp. destruct (staging_of_shape local _ Hv) as (base & name & Hshape & Hne & _).
  assert (Hnil : staging_of local (Client.ready_transfer_id ready) ≠ []) by (rewrite Hshape; by destruct base).
  eapply hoare_conseq; [by apply (hoare_pull_received params _ ready offset t l)|done| |].
  - intros res s (-> & c0 & c & x & Hlen & Hold & Hb & Hg & Ho & Hd & Hout). exists ready, c0, c. subst offset.
    assert (Hz : len c0 = 0 → c0 = []) by (destruct c0; [done|unfold len; simpl; lia]).
    split; try done; [by exists bs|..].
    + intros Hne'. exists x. apply Hold. auto.
    + intros Hnone. rewrite Hnone in Hst. injection Hst as <-. auto.
    + by exists x.
  - intros s [Ho Hd]. right. eauto 8.
Qed.

Lemma host_check {A} (m : rpc_op unit) (k : unit → rpc_op A) t i o Q (C : HostSync → Prop) :
  (∀ s, (m s).1 = s) → (∀ s, still t o s → C s) → hoare (at_ t i o) (k tt) Q C →
  hoare (at_ t i o) (mbnd m k) Q C.
Proof.
  intros Hm HC Hk s Hs. specialize (Hm s). unfold mbnd. destruct (m s) as [s' [[]|e]]; simpl in Hm; subst s'.
  - by apply Hk.
  - apply HC. by apply at_still in Hs.
Qed.
Lemma validate_host_path_same p s : (Client.validate_host_path p s).1 = s.
Proof. unfold Client.validate_host_path. by case_match. Qed.
Lemma validate_block_size_same n s : (Client.validate_block_size n s).1 = s.
Proof. unfold Client.validate_block_size. by case_match. Qed.
Lemma validate_id_same tid s : (Client.validate_requested_transfer_id tid s).1 = s.
Proof. unfold Client.validate_requested_transfer_id. by repeat case_match. Qed.

Lemma hoare_pull_with_operation params t i o :
  tree_ok t →
  hoare (at_ t i o) (Client.pull_with_operation blake3 link_resolves id params)
    (λ res s, ∃ ready c0 c, pull_result params t i o res s ready c0 c)
    (λ s, pull_failure (pull_local_path params) t i (tree (host_disk s))).
Proof.
  intros Ht. assert (HC : ∀ s, still t o s → pull_failure (pull_local_path params) t i (tree (host_disk s)))
    by (intros s [-> _]; by left).
  apply host_check; [apply validate_host_path_same|done|].
  apply host_check; [apply validate_block_size_same|done|].
  apply host_check; [apply validate_id_same|done|].
  by apply hoare_map_error, hoare_pull_stream.
Qed.

(** ** Sending a file *)

Lemma host_call_look {A B} op p (m : M Disk IoErrorKind A) (k : A → rpc_op B) φ t i o Q (C : HostSync → Prop) :
  looks m φ → (∀ s, still t o s → C s) → (∀ a, φ t a → hoare (at_ t i o) (k a) Q C) →
  hoare (at_ t i o) (mbnd (Client.host_call show_io_error op p m) k) Q C.
Proof.
  intros Hm HC Hk. eapply hoare_step; [apply hoare_map_error, host_disk_call, (Hm t)|intros s [Hs Ho]; by apply HC|].
  intros a s [[Hs Ha] Hat]. unfold on_tree in Hs. rewrite Hs in Hat. by apply Hk.
Qed.

Lemma part_of_file_cons block_size n (data content : bytes) sent :
  take (length data) (drop n content) = data → len data ≤ block_size →
  part_of_file block_size (drop (n + length data) content) sent →
  part_of_file block_size (drop n content) ((data, false) :: sent).
Proof.
  intros Hd Hlen (datas & left & -> & Hl & Hall). exists (data :: datas), left. split_and!; [done| |by constructor].
  simpl. by rewrite <-app_assoc, <-Hl, <-drop_drop, <-Hd at 1; rewrite take_drop.
Qed.
Lemma whole_file_cons block_size n (data content : bytes) sent :
  take (length data) (drop n content) = data → len data ≤ block_size →
  whole_file block_size (drop (n + length data) content) sent →
  whole_file block_size (drop n content) ((data, false) :: sent).
Proof.
  intros Hd Hlen (datas & last & -> & Hl & Hall). exists (data :: datas), last. split_and!; [done| |by constructor].
  simpl. by rewrite <-app_assoc, <-Hl, <-drop_drop, <-Hd at 1; rewrite take_drop.
Qed.

Section one_push.
Context (lp : path) (content : bytes) (x : bool) (t : gmap path Node).
Hypothesis source_file : t !! lp = Some (Regular content x).

Lemma hoare_hash_file_rounds fuel h hashed absorbed i o (C : HostSync → Prop) :
  (∀ s, still t o s → C s) → handle_path h = lp → 0 ≤ hashed ≤ len content →
  hoare (at_ t i o) (Client.hash_file_rounds show_io_error fuel h (len content) hashed absorbed)
    (λ r s, handle_path r.1 = lp ∧ r.2 = absorbed ++ take (Z.to_nat (len content - hashed)) (drop (cursor h) content) ∧
            at_ t i o s) C.
Proof.
  intros HC. revert h hashed absorbed. induction fuel as [|fuel IH]; intros h hashed absorbed Hh Hle; simpl;
    (destruct (Z.leb_spec (len content) hashed);
     [apply hoare_ret; intros s Hs; replace (len content - hashed) with 0 by lia; simpl; by rewrite app_nil_r|]);
    [by apply host_fail|].
  apply host_operation; [apply is_cancelled_ok|]. intros []; [by apply host_fail|].
  eapply host_call_look; [apply looks_handle_read|done|]. intros [h' data] (c & y & Hf & Hdata & Hh').
  cbn [fst snd] in *. rewrite Hh in Hf. assert (c = content) as -> by congruence.
  rewrite <-Z.min_assoc in Hdata. pose proof usize_max_lb as Hus. unfold u32_max in Hus.
  assert (Hblock : 0 < Z.min usize_max DEFAULT_SYNC_BLOCK_SIZE) by (unfold DEFAULT_SYNC_BLOCK_SIZE; lia).
  destruct (hash_round_step _ h (len content - hashed) content Hblock ltac:(lia)) as [Hrem Hsplit]. rewrite <-Hdata in Hrem, Hsplit.
  case_bool_decide; [by apply host_fail|]. apply host_operation; [done|]. intros [].
  pose proof (len_nonneg data). rewrite Hh' in *.
  eapply hoare_conseq; [apply IH; [done|lia]|done| |done]. intros r s (Hr & -> & Hs). split; [done|]. split; [|done].
  cbn [cursor]. rewrite <-app_assoc, Hsplit. by replace (len content - (hashed + len data)) with (len content - hashed - len data) by lia.
Qed.

Lemma hoare_send_file fuel h block_size n i o (C : HostSync → Prop) :
  (∀ sent s, part_of_file block_size (drop n content) sent → still t (o ++ sent) s → C s) →
  0 < block_size → handle_path h = lp → cursor h = n →
  hoare (at_ t i o) (Client.send_file fuel h block_size (len content) (Z.of_nat n))
    (λ _ s, ∃ sent, whole_file block_size (drop n content) sent ∧ at_ t i (o ++ sent) s) C.
Proof.
  intros HC Hb. revert h n o HC. induction fuel as [|fuel IH]; intros h n o HC Hh Hn; simpl;
    (assert (H0C : ∀ s, still t o s → C s)
      by (intros s Hs; apply (HC []); [by eexists [], _|by rewrite app_nil_r])); [by apply host_fail|].
  apply host_loop; [done|]. eapply host_look; [apply looks_handle_read|done|].
  intros [h' data] (c & y & Hf & Hdata & Hh'). cbn [fst snd] in *. rewrite Hh in Hf, Hh'. rewrite Hn in Hdata, Hh'.
  assert (c = content) as -> by congruence. case_bool_decide as Hnil; [by apply host_fail|].
  apply host_lift; [done|]. intros m (-> & _)%ok_or_ok%checked_add_Some.
  destruct (Z.ltb_spec (len content) (Z.of_nat n + len data)); [by apply host_fail|].
  pose proof (read_size_bounds n (Z.to_nat block_size) ltac:(lia)) as Hrs.
  assert (Hlen : len data ≤ block_size) by (rewrite Hdata; unfold len; rewrite length_take; lia).
  assert (Htake : take (length data) (drop n content) = data).
  { rewrite Hdata at 2. rewrite Hdata, length_take. destruct (decide (read_size n (Z.to_nat block_size) ≤ length (drop n content))%nat).
    - by rewrite Nat.min_l.
    - rewrite Nat.min_r, !take_ge by lia. done. }
  apply host_send; [done|]. apply host_operation; [done|]. intros [].
  destruct (Z.eqb_spec (Z.of_nat n + len data) (len content)) as [Hend|Hend].
  - apply hoare_ret. intros s Hs. exists [(data, true)]. split; [|done]. exists [], data. split_and!; [done| |by constructor].
    simpl. rewrite <-Htake. rewrite take_ge; [done|]. rewrite length_drop. unfold len in Hend. lia.
  - replace (Z.of_nat n + len data) with (Z.of_nat (n + length data)) by (unfold len; lia). subst h'.
    eapply hoare_conseq; [apply (IH _ (n + length data)%nat (o ++ [(data, false)])); [|done..]|done| |done].
    + intros sent s Hp Hs. rewrite <-app_assoc in Hs. by eapply HC, Hs; apply part_of_file_cons.
    + intros [] s (sent & Hw & Hs). exists ((data, false) :: sent). rewrite <-app_assoc in Hs.
      split; [by apply whole_file_cons|done].
Qed.

(** What a push sends: the request, and after it frames of the file from the offset on. *)
Context (params : SyncPushParams).
Definition push_request : SyncRequest :=
  Push (push_transfer_id params) (push_remote_path params) (len content) (bytes_hex (blake3 content))
    (push_block_size params).
Definition push_sends (complete : bool) (offset : Z) (o o' : list (bytes * bool)) : Prop :=
  ∃ bs sent, encode_request push_request = Some bs ∧ o' = o ++ (bs, false) :: sent ∧
    let file := drop (Z.to_nat offset) content in
    if complete then whole_file (push_block_size params) file sent
    else part_of_file (push_block_size params) file sent ∨ whole_file (push_block_size params) file sent.

(** What a push that succeeds has received. *)
Definition push_answered i (tid : bytes) (offset : Z) : Prop :=
  ∃ f1 f2 f3 l, i = Ok f1 :: Ok f2 :: Ok f3 :: l ∧ data_frame f1 ∧ data_frame f2 ∧ command (header f3) = Command.Close ∧
    decode_reply (payload f1) = Some (Ready tid offset (len content) (bytes_hex (blake3 content))) ∧
    decode_reply (payload f2) = Some (Complete tid (len content) (len content)) ∧
    is_valid_transfer_id tid = true ∧ (∀ expected, push_transfer_id params = Some expected → tid = expected) ∧
    offset ≤ len content.
Definition push_failure o (s : HostSync) : Prop :=
  tree (host_disk s) = t ∧ (outgoing (host_stream s) = o ∨ ∃ offset, push_sends false offset o (outgoing (host_stream s))).

Lemma push_ready_reply_ok r tid offset :
  Client.push_ready_reply params (len content) (bytes_hex (blake3 content)) r = Ok (tid, offset) →
  r = Ready tid offset (len content) (bytes_hex (blake3 content)) ∧ is_valid_transfer_id tid = true ∧
  (∀ expected, push_transfer_id params = Some expected → tid = expected) ∧ offset ≤ len content.
Proof.
  unfold Client.push_ready_reply. destruct r as [tid' off size hash| |]; try done.
  destruct (Z.eqb_spec size (len content)) as [->|]; [|done]. simpl. case_bool_decide as Hhash; [|done].
  destruct (is_valid_transfer_id tid') eqn:Hv; [|done]. cbn [negb orb].
  destruct (match push_transfer_id params with Some expected => _ | None => _ end) eqn:Hid; [done|]. cbn [orb].
  destruct (Z.ltb_spec (len content) off); [done|]. intros [= <- <-]. subst hash. split_and!; try done.
  intros tid Heq. rewrite Heq in Hid. case_bool_decide; [done|]. by apply dec_stable; auto.
Qed.

Lemma push_completion_ok tid r res :
  Client.push_completion tid (len content) r = Ok res →
  r = Complete tid (len content) (len content) ∧
  res = {| pushed_transfer_id := tid; accepted_offset := len content; pushed_state := TransferState.Complete |}.
Proof.
  unfold Client.push_completion. destruct r as [|cid no cs|]; try done. case_bool_decide as Hc; [|done]. simpl.
  destruct (Z.eqb_spec no (len content)) as [->|]; [|done]. simpl.
  destruct (Z.eqb_spec cs (len content)) as [->|]; [|done]. intros [= <-]. by subst cid.
Qed.

(** The data of a push, from the offset the device asked for. *)
Lemma hoare_push_data (h : Handle) offset i o (C : HostSync → Prop) :
  0 < push_block_size params → handle_path h = lp → cursor h = Z.to_nat offset → 0 ≤ offset →
  (∀ sent s, part_of_file (push_block_size params) (drop (Z.to_nat offset) content) sent ∨
             whole_file (push_block_size params) (drop (Z.to_nat offset) content) sent →
             still t (o ++ sent) s → C s) →
  hoare (at_ t i o)
    (if offset =? len content then
       do! on_link (send_data [] true) in on_operation (set_transferred offset)
     else Client.send_file (Z.to_nat (len content - offset)) h (push_block_size params) (len content) offset)
    (λ _ s, ∃ sent, whole_file (push_block_size params) (drop (Z.to_nat offset) content) sent ∧ at_ t i (o ++ sent) s) C.
Proof.
  intros Hb Hh Hcur Hoff HC.
  assert (H0C : ∀ s, still t o s → C s)
    by (intros s Hs; apply (HC []); [left; by eexists [], _|by rewrite app_nil_r]).
  destruct (Z.eqb_spec offset (len content)) as [->|Hne].
  - apply host_send; [done|]. intros s Hs. exists [([], true)]. split; [|done]. exists [], [].
    split_and!; [done| |].
    + simpl. rewrite drop_ge; [done|]. unfold len. lia.
    + constructor; [|constructor]. unfold len. simpl. lia.
  - rewrite <-(Z2Nat.id offset) at 2 by done. apply hoare_send_file; [|done..].
    intros sent s Hp. by apply HC; left.
Qed.

Lemma hoare_push_open_file h i o :
  0 < push_block_size params → handle_path h = lp →
  (∀ f l tid off size hash, i = Ok f :: l → decode_reply (payload f) = Some (Ready tid off size hash) → 0 ≤ off) →
  hoare (at_ t i o) (Client.push_open_file id params h (len content) (bytes_hex (blake3 content)))
    (λ res s, ∃ tid offset, push_answered i tid offset ∧ tree (host_disk s) = t ∧
       push_sends true offset o (outgoing (host_stream s)) ∧
       res = {| pushed_transfer_id := tid; accepted_offset := len content; pushed_state := TransferState.Complete |})
    (push_failure o).
Proof.
  intros Hb Hh Hoff.
  assert (HC : ∀ s, still t o s → push_failure o s) by (intros s [Ht Ho]; split; [done|by left]).
  apply host_answer; [done|done|]. apply host_operation; [apply is_cancelled_ok|]. intros []; [by apply host_fail|].
  apply host_request; [done|]. intros bs Hbs. fold push_request in Hbs.
  assert (HC1 : ∀ off sent s, part_of_file (push_block_size params) (drop (Z.to_nat off) content) sent ∨
    whole_file (push_block_size params) (drop (Z.to_nat off) content) sent →
    still t ((o ++ [(bs, false)]) ++ sent) s → push_failure o s).
  { intros off sent s Hp [Ht Ho]. split; [done|]. right. exists off, bs, sent. by rewrite Ho, <-app_assoc. }
  assert (HC2 : ∀ s, still t (o ++ [(bs, false)]) s → push_failure o s).
  { intros s Hs. apply (HC1 0 []); [left; by eexists [], _|by rewrite app_nil_r]. }
  apply host_reply; [done|]. intros f1 l1 r1 -> Hf1 Hr1. apply host_lift; [done|].
  intros [tid offset] (-> & Hv & Hid & Hle)%push_ready_reply_ok. pose proof (Hoff _ _ _ _ _ _ eq_refl Hr1) as Hpos.
  apply host_operation; [done|]. intros []. apply host_operation; [done|]. intros [].
  eapply host_look; [apply looks_seek_start|done|]. intros h' ->.
  eapply hoare_bind; [by apply hoare_push_data; [..|apply HC1]|].
  intros []. apply hoare_any. intros s1 (sent & Hw & Hat). eapply hoare_pre; [intros s ->; exact Hat|].
  assert (HC3 : ∀ s, still t ((o ++ [(bs, false)]) ++ sent) s → push_failure o s)
    by (intros s; apply (HC1 offset); by right).
  apply host_reply; [done|]. intros f2 l2 r2 -> Hf2 Hr2.
  apply host_lift; [done|]. intros res [-> ->]%push_completion_ok.
  apply host_close; [done|]. intros f3 l3 -> Hf3. apply hoare_ret. intros s (Ht & Hi & Ho).
  exists tid, offset. split_and!; [|done| |done].
  - by exists f1, f2, f3, l3.
  - exists bs, sent. by rewrite Ho, <-app_assoc.
Qed.
End one_push.

Lemma host_open_source {A} p (k : Handle → rpc_op A) t i o Q (C : HostSync → Prop) :
  (∀ s, still t o s → C s) →
  (∀ content x, t !! host_path p = Some (Regular content x) →
     hoare (at_ t i o) (k {| handle_path := host_path p; cursor := 0 |}) Q C) →
  hoare (at_ t i o) (mbnd (Client.open_source show_io_error p) k) Q C.
Proof.
  intros HC Hk. set (lp := host_path p).
  eapply hoare_ext with (m' := let! n := Client.host_call show_io_error "read" p (metadata lp) in
    let! _ := Client.host_call show_io_error "stat" p gate in
    if is_file n then k {| handle_path := lp; cursor := 0 |} else mfail (invalid_params (text "local_path must name a file"))).
  { intros s. unfold Client.open_source, mbnd. fold lp.
    destruct (Client.host_call show_io_error "read" p (metadata lp) s) as [s1 [n|e]]; [|done].
    destruct (Client.host_call show_io_error "stat" p gate s1) as [s2 [[]|e]]; [|done]. by destruct n. }
  eapply host_call_look; [apply looks_metadata|done|]. intros n Hn%stat_lookup.
  eapply host_call_look; [apply looks_gate|done|]. intros [] _.
  destruct n as [content x| |]; cbn [is_file]; [|by apply host_fail..]. by eapply Hk.
Qed.

Lemma host_hash_file {A} lp content x (k : Handle * bytes → rpc_op A) t i o Q (C : HostSync → Prop) :
  (∀ s, still t o s → C s) → t !! lp = Some (Regular content x) →
  (∀ h, handle_path h = lp → hoare (at_ t i o) (k (h, bytes_hex (blake3 content))) Q C) →
  hoare (at_ t i o)
    (mbnd (Client.hash_file_with_operation blake3 show_io_error {| handle_path := lp; cursor := 0 |} (len content)) k) Q C.
Proof.
  intros HC Hf Hk. eapply hoare_bind with (Q := λ r s, handle_path r.1 = lp ∧ r.2 = bytes_hex (blake3 content) ∧ at_ t i o s).
  - eapply host_call_look; [apply looks_seek_start|done|]. intros h ->. cbn [handle_path].
    eapply hoare_bind.
    + apply (hoare_hash_file_rounds lp content x t Hf); [done..|]. pose proof (len_nonneg content). lia.
    + intros [h bs]. apply hoare_ret. cbn [fst snd cursor]. intros s (Hh & -> & Hs). split_and!; [done| |done].
      rewrite Z.sub_0_r. change (drop (Z.to_nat 0) content) with content. by rewrite take_len.
  - intros [h hash]. apply hoare_any. cbn [fst snd]. intros s (Hh & -> & Hs).
    eapply hoare_pre; [intros s' ->; exact Hs|]. by apply Hk.
Qed.

(** Integers of a message are not negative. *)
Definition replies_typed : Prop :=
  ∀ bs tid off size hash, decode_reply bs = Some (Ready tid off size hash) → 0 ≤ off.

Lemma hoare_push_with_operation params t i o :
  replies_typed → 0 ≤ push_block_size params → tree_ok t →
  let lp := host_path (push_local_path params) in
  hoare (at_ t i o) (Client.push_with_operation blake3 show_io_error id params)
    (λ res s, ∃ content x tid offset, t !! lp = Some (Regular content x) ∧
       push_answered content params i tid offset ∧ tree (host_disk s) = t ∧
       push_sends content params true offset o (outgoing (host_stream s)) ∧
       res = {| pushed_transfer_id := tid; accepted_offset := len content; pushed_state := TransferState.Complete |})
    (λ s, tree (host_disk s) = t ∧ (outgoing (host_stream s) = o ∨
       ∃ content x offset, t !! lp = Some (Regular content x) ∧
         push_sends content params false offset o (outgoing (host_stream s)))).
Proof.
  intros Hty Hbs Ht lp.
  assert (HC : ∀ s, still t o s → tree (host_disk s) = t ∧ (outgoing (host_stream s) = o ∨
       ∃ content x offset, t !! lp = Some (Regular content x) ∧
         push_sends content params false offset o (outgoing (host_stream s))))
    by (intros s [-> ->]; auto).
  apply host_check; [apply validate_host_path_same|done|].
  unfold Client.validate_block_size at 1. destruct (Z.eqb_spec (push_block_size params) 0) as [|Hnz]; [by apply host_fail|].
  cbn [orb]. case_match; [by apply host_fail|]. apply host_check; [done..|].
  apply host_check; [apply validate_id_same|done|].
  apply host_open_source; [done|]. fold lp. intros content x Hsource.
  eapply host_call_look; [apply looks_handle_len|done|]. intros n (c & y & Hf & ->). cbn [handle_path] in Hf.
  assert (c = content) as -> by congruence.
  apply host_operation; [done|]. intros [].
  eapply host_hash_file; [done..|]. intros h Hh. apply host_operation; [done|]. intros [].
  eapply hoare_map_error, hoare_conseq; [apply (hoare_push_open_file lp content x t Hsource params h i o)|done| |].
  - lia.
  - done.
  - intros f l tid off size hash _ Hr. by eapply Hty.
  - intros res s (tid & offset & Hr). by exists content, x, tid, offset.
  - intros s [Hs [Ho|[offset Ho]]]; [by apply HC|]. split; [done|]. right. eauto.
Qed.
End client.

(** ** Claims *)

Section claims.
Context `{PointerWidth, ReadSize, ClientJson}.
Context (blake3 : bytes → bytes) (link_resolves : path → bool) (show_io_error : IoErrorKind → bytes) (id : Z).

(** C23: A pull puts no file at the host's destination but the one the device announced.
    Whatever the device sends, with I/O errors, cancellation and a lost connection at any
    point: when the pull succeeds, the destination is a regular file with the size and the
    BLAKE3 digest of the READY reply, the old contents of the staging file followed by the
    payloads of the frames up to END_STREAM; when it fails, the destination is what it was,
    or it is that announced file, or it is gone and the announced file is complete in the
    staging file (an old file is removed before the rename, see
    [host_commit_can_lose_the_destination]), or there was nothing and the destination's path
    ends in a separator, so that it is the directory the staging file was put into.  Apart
    from the staging file and the destination only directories above the staging file are
    new. *)
Theorem host_pull_installs_only_the_announced_file params s s' r :
  let t := tree (host_disk s) in let i := incoming (host_stream s) in
  tree_ok t → Client.pull_with_operation blake3 link_resolves id params s = (s', r) →
  match r with
  | Ok res => ∃ ready c0 c, pull_result blake3 params t i (outgoing (host_stream s)) res s' ready c0 c
  | Err _ => pull_failure blake3 (pull_local_path params) t i (tree (host_disk s'))
  end.
Proof.
  intros t i Ht Hrun. pose proof (hoare_pull_with_operation blake3 link_resolves id params t i
    (outgoing (host_stream s)) Ht s (conj eq_refl (conj eq_refl eq_refl))) as Hp. by rewrite Hrun in Hp.
Qed.

(** A push sends the host's file and nothing else, and changes no file of the host.
    The request has the size and the digest of the contents; after it come frames of at
    most [block_size] bytes that are the file from the offset the device asked for, or a
    beginning of it when the push fails.  A push succeeds only when the device has accepted
    this size and digest, the whole rest was sent, the last frame with END_STREAM, and the
    device has answered that the transfer is complete. *)
Theorem host_push_sends_the_file params s s' r :
  let t := tree (host_disk s) in let i := incoming (host_stream s) in
  let o := outgoing (host_stream s) in let o' := outgoing (host_stream s') in
  let lp := host_path (push_local_path params) in
  replies_typed → 0 ≤ push_block_size params → tree_ok t →
  Client.push_with_operation blake3 show_io_error id params s = (s', r) →
  tree (host_disk s') = t ∧
  match r with
  | Ok res => ∃ content x tid offset, t !! lp = Some (Regular content x) ∧
      push_answered blake3 content params i tid offset ∧ push_sends blake3 content params true offset o o' ∧
      res = {| pushed_transfer_id := tid; accepted_offset := len content; pushed_state := TransferState.Complete |}
  | Err _ => o' = o ∨ ∃ content x offset, t !! lp = Some (Regular content x) ∧
      push_sends blake3 content params false offset o o'
  end.
Proof.
  intros t i o o' lp Hty Hb Ht Hrun. pose proof (hoare_push_with_operation blake3 show_io_error id params t i o
    Hty Hb Ht s (conj eq_refl (conj eq_refl eq_refl))) as Hp. rewrite Hrun in Hp.
  destruct r as [res|e]; [|done]. destruct Hp as (content & x & tid & offset & ? & ? & ? & ? & ?). eauto 12.
Qed.

(** Putting a pulled file in place is not atomic: a destination that exists is removed
    first, and when the rename after it fails, the old file is gone and the new one is only
    in the staging file. *)
Theorem host_commit_can_lose_the_destination sp dest c x c' y n d :
  tree_ok (tree d) → sp ≠ dest → tree d !! sp = Some (Regular c x) → tree d !! dest = Some (Regular c' y) →
  faults d = [None; None; None; Some n] →
  ∃ d', Client.commit_host_file link_resolves sp dest d = (d', Err (LinkError.Io OtherIo)) ∧
    tree d' !! dest = None ∧ tree d' !! sp = Some (Regular c x).
Proof.
  intros Ht Hne Hsp Hdest Hf.
  unfold Client.commit_host_file, Client.path_exists, catch_io, symlink_metadata, unlink, rename, gate, next_fault,
    mbnd, mlift, mret, mfail, mget, mmodify.
  rewrite Hf. cbn [set_faults faults tree]. rewrite (stat_complete _ _ _ Ht Hdest). cbn [map_err set_faults faults tree].
  rewrite (stat_complete _ _ _ Ht Hdest). cbn [map_err is_file negb set_faults faults tree].
  rewrite (stat_complete _ _ _ Ht Hdest). cbn [set_tree faults tree set_faults].
  eexists. split; [reflexivity|]. simpl. by rewrite lookup_delete_eq, lookup_delete_ne.
Qed.
End claims.
