(* ===== verification/SyncHostRuns.v ===== *)
(** * Transfers of the host that are not disturbed

    The loops of the host's client come to an end, and a transfer that meets no I/O error,
    no cancellation and no refused frame, with a device that answers as it should,
    succeeds. *)

From S2P Require Import Prelude Text WireFrame Actor BundleError Paths Utf8 Files FileHandles Rpc SyncStore SyncPush SyncStream SyncPull SyncClient SyncHost.
Local Open Scope Z_scope.

(** No call fails and nobody cancels. *)
Record calm (s : HostSync) : Prop := {
  calm_disk : faults (host_disk s) = [];
  calm_stream : answers (host_stream s) = [];
  calm_operation : cancellations (operation s) = [];
}.

(** [host_evals t i o m r t' i' o']: [m] returns [r], and the files, what is to be received
    and what was sent change as given. *)
Definition host_evals {E A : Type} t i o (m : M HostSync E A) (r : result E A) t' i' o' : Prop :=
  ∀ s, at_ t i o s → calm s → ∃ s', m s = (s', r) ∧ at_ t' i' o' s' ∧ calm s'.

Section rules.
Context {E : Type}.
Implicit Types (t : gmap path Node) (i : list (result ConnectionError Frame)) (o : list (bytes * bool)).

Lemma host_evals_bind {A B} t i o t1 i1 o1 t2 i2 o2 (m : M HostSync E A) (k : A → M HostSync E B) a r :
  host_evals t i o m (Ok a) t1 i1 o1 → host_evals t1 i1 o1 (k a) r t2 i2 o2 → host_evals t i o (mbnd m k) r t2 i2 o2.
Proof.
  intros Hm Hk s Hs Hc. destruct (Hm s Hs Hc) as (s1 & Hrun & Hs1 & Hc1). unfold mbnd. rewrite Hrun. by apply Hk.
Qed.
Lemma host_evals_ret {A} t i o (a : A) : host_evals t i o (mret a : M HostSync E A) (Ok a) t i o.
Proof. intros s Hs Hc. by exists s. Qed.
Lemma host_evals_lift {A} t i o (r : result E A) : host_evals t i o (mlift r) r t i o.
Proof. intros s Hs Hc. by exists s. Qed.
Lemma host_evals_disk {A} t t' i o (m : M Disk E A) r :
  evals t m r t' → host_evals t i o (on_disk m) r t' i o.
Proof.
  intros Hm s (Ht & Hi & Ho) [Hf Ha Hn]. destruct (Hm (host_disk s) (conj Ht Hf)) as (d & Hrun & Ht' & Hf').
  eexists. unfold on_disk, zoom. rewrite Hrun. split; [done|]. by split.
Qed.
Lemma host_evals_not_cancelled t i o : host_evals t i o (on_operation (is_cancelled : M _ E bool)) (Ok false) t i o.
Proof.
  intros s Hs [Hf Ha Hn]. exists s. unfold on_operation, zoom, is_cancelled. rewrite Hn. split; [|done].
  by destruct s.
Qed.
Lemma host_evals_modify t i o (f : HostSyncOperation → HostSyncOperation) :
  (∀ op, cancellations (f op) = cancellations op) →
  host_evals t i o (on_operation (mmodify f : M _ E unit)) (Ok tt) t i o.
Proof. intros Hop s Hs [Hf Ha Hn]. eexists. split; [done|]. split; [done|]. split; [done..|]. simpl. by rewrite Hop. Qed.
Lemma host_evals_map_error {F A} t i o t' i' o' (f : E → F) (m : M HostSync E A) a :
  host_evals t i o m (Ok a) t' i' o' → host_evals t i o (map_error f m) (Ok a) t' i' o'.
Proof.
  intros Hm s Hs Hc. destruct (Hm s Hs Hc) as (s' & Hrun & ?). exists s'. unfold map_error. by rewrite Hrun.
Qed.
Context `{FromConnection E}.
Lemma host_evals_recv t i o f : host_evals t (Ok f :: i) o (on_link (recv : M _ E Frame)) (Ok f) t i o.
Proof.
  intros s (Ht & Hi & Ho) [Hf Ha Hn]. eexists. unfold on_link, zoom, recv. rewrite Hi. split; [done|]. by split.
Qed.
Lemma host_evals_send t i o data b :
  host_evals t i o (on_link (send_data data b : M _ E unit)) (Ok tt) t i (o ++ [(data, b)]).
Proof.
  intros s (Ht & Hi & Ho) [Hf Ha Hn]. eexists. unfold on_link, zoom, send_data, answer. rewrite Ha. split; [done|].
  split; [|done]. split_and!; [done..|]. simpl. by rewrite Ho.
Qed.
Lemma host_evals_open t i o : host_evals t i o (on_link (answer (λ s, s) : M _ E unit)) (Ok tt) t i o.
Proof.
  intros s (Ht & Hi & Ho) [Hf Ha Hn]. eexists. unfold on_link, zoom, answer. rewrite Ha. split; [done|]. done.
Qed.
End rules.

(** A frame of the stream [id]. *)
Definition of_stream (id : Z) (c : Command) (f : Frame) : Prop :=
  command (header f) = c ∧ stream_id (header f) = id.

Section client.
Context `{PointerWidth, ReadSize, ClientJson}.
Context (blake3 : bytes → bytes) (link_resolves : path → bool) (show_io_error : IoErrorKind → bytes) (id : Z).
Implicit Types (t : gmap path Node) (i : list (result ConnectionError Frame)) (o : list (bytes * bool)).

Lemma host_evals_expect t i o c f : of_stream id c f → host_evals t i o (Client.expect id f c) (Ok tt) t i o.
Proof.
  intros [Hc Hid]. unfold Client.expect. rewrite bool_decide_eq_true_2, Hid, Z.eqb_refl by done. apply host_evals_ret.
Qed.
Lemma host_evals_data t i o f :
  of_stream id Command.Data f → host_evals t (Ok f :: i) o (Client.actor_data id) (Ok f) t i o.
Proof.
  intros Hf. eapply host_evals_bind; [apply host_evals_recv|]. eapply host_evals_bind; [by apply host_evals_expect|].
  apply host_evals_ret.
Qed.
Lemma host_evals_close t i o f :
  of_stream id Command.Close f → host_evals t (Ok f :: i) o (Client.actor_close id) (Ok tt) t i o.
Proof. intros Hf. eapply host_evals_bind; [apply host_evals_recv|]. by apply host_evals_expect. Qed.
Lemma host_evals_reply t i o f label r :
  of_stream id Command.Data f → decode_reply (payload f) = Some r →
  host_evals t (Ok f :: i) o (Client.recv_reply id label) (Ok r) t i o.
Proof.
  intros Hf Hr. eapply host_evals_bind; [by apply host_evals_data|]. rewrite Hr. apply host_evals_lift.
Qed.
Lemma host_evals_request t i o r bs b :
  encode_request r = Some bs → host_evals t i o (Client.send_request r b) (Ok tt) t i (o ++ [(bs, b)]).
Proof.
  intros Hr. unfold Client.send_request. rewrite Hr. eapply host_evals_bind; [apply host_evals_lift|].
  apply host_evals_send.
Qed.
Lemma host_evals_call {A} t i o op p (m : M Disk IoErrorKind A) a :
  evals t m (Ok a) t → host_evals t i o (Client.host_call show_io_error op p m) (Ok a) t i o.
Proof. intros Hm. by apply host_evals_map_error, host_evals_disk. Qed.

(** ** Push *)

Section one_push.
Context (lp : path) (content : bytes) (x : bool) (t : gmap path Node).
Hypothesis source_file : t !! lp = Some (Regular content x).
Hypothesis content_u64 : u64 (len content).

(** A read in the middle of the file returns something of it. *)
Lemma read_some (h : Handle) (limit : nat) :
  (0 < limit)%nat → (cursor h < length content)%nat →
  let data := take (read_size (cursor h) limit) (drop (cursor h) content) in
  data ≠ [] ∧ (cursor h + length data ≤ length content)%nat ∧ (length data ≤ limit)%nat.
Proof.
  intros Hl Hc data. pose proof (read_size_bounds (cursor h) limit Hl).
  assert (Hd : length data = Nat.min (read_size (cursor h) limit) (length content - cursor h))
    by (unfold data; by rewrite length_take, length_drop).
  split_and!; [|lia..]. intros Hnil. rewrite Hnil in Hd. simpl in Hd. lia.
Qed.

Lemma host_evals_hash fuel h i o absorbed :
  handle_path h = lp → (cursor h ≤ length content)%nat → (length content - cursor h ≤ fuel)%nat →
  ∃ r, handle_path r.1 = lp ∧ r.2 = absorbed ++ drop (cursor h) content ∧
    host_evals t i o (Client.hash_file_rounds show_io_error fuel h (len content) (Z.of_nat (cursor h)) absorbed) (Ok r) t i o.
Proof.
  revert h absorbed. induction fuel as [|fuel IH]; intros h absorbed Hh Hcur Hfuel; simpl;
    (destruct (Z.leb_spec (len content) (Z.of_nat (cursor h))) as [Hle|Hlt]; unfold len in *;
     [exists (h, absorbed); split_and!; [done|simpl; rewrite drop_ge, app_nil_r by lia; done|apply host_evals_ret]|]); [lia|].
  pose proof usize_max_lb as Hus. unfold u32_max in Hus.
  set (limit := Z.to_nat _). assert (Hlimit : (0 < limit)%nat) by (unfold limit, DEFAULT_SYNC_BLOCK_SIZE; lia).
  destruct (read_some h limit Hlimit ltac:(lia)) as (Hne & Hend & _).
  set (data := take _ (drop (cursor h) content)) in *.
  assert (Hpos : (0 < length data)%nat) by (by destruct data; [|simpl; lia]).
  destruct (IH {| handle_path := lp; cursor := cursor h + length data |} (absorbed ++ data)) as (r & Hr1 & Hr2 & Hev);
    [done|done|simpl; lia|]. exists r. split; [done|]. split.
  - rewrite Hr2. cbn [cursor]. rewrite <-app_assoc, <-drop_drop. f_equal.
    rewrite <-(take_drop (length data) (drop (cursor h) content)) at 2. f_equal. unfold data.
    rewrite length_take. destruct (decide (read_size (cursor h) limit ≤ length (drop (cursor h) content))%nat).
    + by rewrite Nat.min_l.
    + rewrite Nat.min_r, !take_ge by lia. done.
  - eapply host_evals_bind; [apply host_evals_not_cancelled|]. cbn iota.
    eapply host_evals_bind; [apply host_evals_call; eapply evals_handle_read; by rewrite Hh|].
    cbn [snd fst]. fold limit data. rewrite bool_decide_eq_false_2 by done.
    eapply host_evals_bind; [by apply host_evals_modify|]. rewrite Hh.
    cbn [cursor] in Hev. unfold len. rewrite <-Nat2Z.inj_add. exact Hev.
Qed.

Lemma host_evals_send_file fuel h block_size i o :
  0 < block_size → handle_path h = lp → (cursor h < length content)%nat → (length content - cursor h ≤ fuel)%nat →
  ∃ sent, host_evals t i o (Client.send_file fuel h block_size (len content) (Z.of_nat (cursor h))) (Ok tt) t i (o ++ sent).
Proof.
  intros Hb. revert h o. induction fuel as [|fuel IH]; intros h o Hh Hcur Hfuel; [lia|].
  destruct (read_some h (Z.to_nat block_size) ltac:(lia) Hcur) as (Hne & Hend & _).
  set (data := take _ (drop (cursor h) content)) in *.
  assert (Hpos : (0 < length data)%nat) by (by destruct data; [|simpl; lia]).
  assert (Hgo : ∀ r t' i' o', host_evals t i (o ++ [(data, Z.of_nat (cursor h) + len data =? len content)])
    (if Z.of_nat (cursor h) + len data =? len content then mret tt
     else Client.send_file fuel {| handle_path := lp; cursor := cursor h + length data |} block_size (len content)
            (Z.of_nat (cursor h) + len data)) r t' i' o' →
    host_evals t i o (Client.send_file (S fuel) h block_size (len content) (Z.of_nat (cursor h))) r t' i' o').
  { intros r t' i' o' Hk. eapply host_evals_bind; [apply host_evals_not_cancelled|]. cbn iota.
    eapply host_evals_bind; [apply host_evals_disk; eapply evals_handle_read; by rewrite Hh|].
    cbn [snd fst]. fold data. rewrite bool_decide_eq_false_2 by done. rewrite Hh. destruct content_u64.
    eapply host_evals_bind.
    { unfold checked_add. rewrite (proj2 (Z.leb_le _ u64_max)) by (unfold len in *; lia). apply host_evals_lift. }
    cbn beta. rewrite (proj2 (Z.ltb_ge _ _)) by (unfold len; lia).
    eapply host_evals_bind; [apply host_evals_send|]. eapply host_evals_bind; [by apply host_evals_modify|]. exact Hk. }
  destruct (Z.eqb_spec (Z.of_nat (cursor h) + len data) (len content)) as [Heq|Hneq].
  - eexists. apply Hgo, host_evals_ret.
  - destruct (IH {| handle_path := lp; cursor := cursor h + length data |} (o ++ [(data, false)])) as [sent Hev];
      [done|unfold len in *; simpl; lia|simpl; lia|].
    exists ((data, false) :: sent). apply Hgo.
    rewrite <-app_assoc in Hev. cbn [cursor app] in Hev. unfold len. by rewrite <-Nat2Z.inj_add.
Qed.
End one_push.

(** The checks of the parameters. *)
Lemma host_evals_validated {A} local block_size oid (k : rpc_op A) r t i o t' i' o' :
  is_absolute local = true → 1 ≤ block_size ≤ MAX_SYNC_BLOCK_SIZE →
  (∀ tid, oid = Some tid → is_valid_transfer_id tid = true) → host_evals t i o k r t' i' o' →
  host_evals t i o (do! Client.validate_host_path local in do! Client.validate_block_size block_size in
                    do! Client.validate_requested_transfer_id oid in k) r t' i' o'.
Proof.
  intros Habs Hbs Hid Hk. unfold Client.validate_host_path, Client.validate_block_size.
  rewrite Habs, (proj2 (Z.eqb_neq _ _)), (proj2 (Z.ltb_ge _ _)) by lia. cbn [orb].
  eapply host_evals_bind; [apply host_evals_ret|]. eapply host_evals_bind; [apply host_evals_ret|].
  eapply host_evals_bind; [|exact Hk]. unfold Client.validate_requested_transfer_id.
  destruct oid as [e|]; [|apply host_evals_ret]. rewrite (Hid e eq_refl). apply host_evals_ret.
Qed.

(** The identifier in the reply is the one that was asked for. *)
Lemma same_transfer (oid : option bytes) tid :
  (∀ expected, oid = Some expected → expected = tid) →
  match oid with Some e => bool_decide (e ≠ tid) | None => false end = false.
Proof.
  intros Hid. destruct oid as [e|]; [|done]. apply bool_decide_eq_false_2. intros Hne. by apply Hne, Hid.
Qed.

Section push.
Context (params : SyncPushParams) (content : bytes) (x : bool) (t : gmap path Node).
Context (tid : bytes) (offset : Z) (f1 f2 f3 : Frame) (bs : bytes).
Let lp := host_path (push_local_path params).
Let hash := bytes_hex (blake3 content).
Hypothesis source : t !! lp = Some (Regular content x).
Hypothesis content_u64 : u64 (len content).
Hypothesis block_positive : 1 ≤ push_block_size params.
Hypothesis offset_within : 0 ≤ offset ≤ len content.
Hypothesis transfer_valid : is_valid_transfer_id tid = true.
Hypothesis transfer_expected : ∀ expected, push_transfer_id params = Some expected → expected = tid.
Hypothesis request : encode_request (push_request blake3 content params) = Some bs.
Hypothesis ready_frame : of_stream id Command.Data f1.
Hypothesis ready_reply : decode_reply (payload f1) = Some (Ready tid offset (len content) hash).
Hypothesis complete_frame : of_stream id Command.Data f2.
Hypothesis complete_reply : decode_reply (payload f2) = Some (Complete tid (len content) (len content)).
Hypothesis close_frame : of_stream id Command.Close f3.

Lemma host_evals_push_data i o :
  ∃ sent, host_evals t i o
    (if offset =? len content then do! on_link (send_data [] true) in on_operation (set_transferred offset)
     else Client.send_file (Z.to_nat (len content - offset)) {| handle_path := lp; cursor := Z.to_nat offset |}
            (push_block_size params) (len content) offset)
    (Ok tt) t i (o ++ sent).
Proof.
  destruct (Z.eqb_spec offset (len content)).
  - eexists. eapply host_evals_bind; [apply host_evals_send|]. by apply host_evals_modify.
  - destruct (host_evals_send_file lp content x t source content_u64 (Z.to_nat (len content - offset))
      {| handle_path := lp; cursor := Z.to_nat offset |} (push_block_size params) i o) as [sent Hs];
      simpl; unfold len in *; [lia|done|lia|lia|].
    exists sent. simpl in Hs. by rewrite Z2Nat.id in Hs by lia.
Qed.

Lemma host_evals_push_open_file h i o :
  handle_path h = lp →
  ∃ sent, host_evals t (Ok f1 :: Ok f2 :: Ok f3 :: i) o (Client.push_open_file id params h (len content) hash)
    (Ok {| pushed_transfer_id := tid; accepted_offset := len content; pushed_state := TransferState.Complete |})
    t i (o ++ (bs, false) :: sent).
Proof.
  intros Hh. destruct (host_evals_push_data (Ok f2 :: Ok f3 :: i) (o ++ [(bs, false)])) as [sent Hdata]. exists sent.
  eapply host_evals_bind; [apply host_evals_open|].
  eapply host_evals_bind; [apply host_evals_not_cancelled|]. cbn iota.
  eapply host_evals_bind; [by apply host_evals_request|].
  eapply host_evals_bind; [by apply host_evals_reply|].
  eapply host_evals_bind with (a := (tid, offset)).
  { unfold Client.push_ready_reply.
    rewrite Z.eqb_refl, bool_decide_eq_true_2, transfer_valid, (same_transfer _ _ transfer_expected) by done.
    cbn [negb orb andb]. rewrite (proj2 (Z.ltb_ge _ _)) by lia. apply host_evals_lift. }
  cbn iota. do 2 (eapply host_evals_bind; [by apply host_evals_modify|]).
  eapply host_evals_bind; [apply host_evals_disk, evals_seek_start|]. rewrite Hh.
  eapply host_evals_bind; [exact Hdata|]. eapply host_evals_bind; [by apply host_evals_reply|].
  eapply host_evals_bind.
  { unfold Client.push_completion. rewrite bool_decide_eq_true_2, Z.eqb_refl by done. apply host_evals_lift. }
  eapply host_evals_bind; [by apply host_evals_close|]. rewrite <-app_assoc. apply host_evals_ret.
Qed.

Lemma host_evals_push i o :
  is_absolute (push_local_path params) = true → push_block_size params ≤ MAX_SYNC_BLOCK_SIZE → tree_ok t →
  ∃ sent, host_evals t (Ok f1 :: Ok f2 :: Ok f3 :: i) o (Client.push_with_operation blake3 show_io_error id params)
    (Ok {| pushed_transfer_id := tid; accepted_offset := len content; pushed_state := TransferState.Complete |})
    t i (o ++ (bs, false) :: sent).
Proof.
  intros Habs Hmax Ht.
  destruct (host_evals_hash lp content x t source (Z.to_nat (len content)) {| handle_path := lp; cursor := 0 |}
    (Ok f1 :: Ok f2 :: Ok f3 :: i) o []) as ([h absorbed] & Hh & Ha & Hhash);
    [done|simpl; lia|unfold len; simpl; lia|]. cbn [fst snd cursor] in *. rewrite drop_0 in Ha. simpl in Ha. subst absorbed.
  destruct (host_evals_push_open_file h i o Hh) as [sent Hopen]. exists sent.
  apply host_evals_validated; [done|lia|intros e He; by rewrite (transfer_expected e He)|].
  eapply host_evals_bind.
  { eapply host_evals_bind; [apply host_evals_call, evals_metadata; [by apply stat_complete|done]|].
    eapply host_evals_bind; [apply host_evals_call, evals_gate|]. apply host_evals_ret. }
  eapply host_evals_bind; [apply host_evals_call; by eapply evals_handle_len|].
  eapply host_evals_bind; [by apply host_evals_modify|].
  eapply host_evals_bind.
  { eapply host_evals_bind; [apply host_evals_call, evals_seek_start|].
    eapply host_evals_bind; [exact Hhash|]. apply host_evals_ret. }
  eapply host_evals_bind; [by apply host_evals_modify|]. cbn [fst snd]. by apply host_evals_map_error.
Qed.
End push.

(** ** Pull *)

Lemma evals_create_dir_all {E} `{FromIo E} t p : stat t p = Ok Directory → evals t (create_dir_all p : M Disk E unit) (Ok tt) t.
Proof.
  intros Hp. unfold create_dir_all. destruct p as [|a p]; simpl;
    (eapply evals_bind; [apply evals_gate|]; apply evals_get; intros d ->; rewrite Hp; apply evals_ret).
Qed.

Lemma evals_unlink {E} `{FromIo E} t p c x :
  stat t p = Ok (Regular c x) → evals t (unlink p : M Disk E unit) (Ok tt) (delete p t).
Proof.
  intros Hp. eapply evals_bind; [apply evals_gate|]. apply evals_get. intros d <-. rewrite Hp. apply evals_set.
Qed.

Section pull_files.
Context (sp dest : path) (t : gmap path Node).
Hypothesis tree_valid : tree_ok t.
Hypothesis staging_elsewhere : sp ≠ dest.
Hypothesis staging_below : sp ≠ [].
Hypothesis directory_exists : t !! parent sp = Some Directory.

Lemma evals_open_staging c0 :
  (t !! sp = None ∧ c0 = [] ∨ ∃ c y, t !! sp = Some (Regular c y) ∧ (c0 = [] ∨ c0 = c)) →
  ∃ y, evals t (Client.open_staging sp (len c0)) (Ok {| handle_path := sp; cursor := 0 |}) (<[sp := Regular c0 y]> t).
Proof.
  intros Hsp. assert (Hcreate : ∃ y, evals t (Client.open_or_create sp (len c0 =? 0))
    (Ok {| handle_path := sp; cursor := 0 |}) (<[sp := Regular c0 y]> t)).
  { destruct Hsp as [[Hn ->]|(c & y & Hf & Hc)].
    - exists false. eapply evals_bind; [apply evals_gate|]. apply evals_get. intros d <-.
      rewrite (stat_missing (tree d) sp), (stat_complete (tree d) (parent sp) Directory) by done.
      eapply evals_bind; [by apply evals_set|]. apply evals_ret.
    - exists y. eapply evals_bind; [apply evals_gate|]. apply evals_get. intros d <-.
      rewrite (stat_complete (tree d) sp (Regular c y)) by done.
      assert ((if len c0 =? 0 then [] else c) = c0) as ->.
      { destruct Hc as [->| ->]; [done|]. destruct (Z.eqb_spec (len c) 0) as [Hz|]; [|done].
        destruct c; [done|]. unfold len in Hz. simpl in Hz. lia. }
      eapply evals_bind; [by apply evals_set|]. apply evals_ret. }
  destruct Hcreate as [y Hy]. exists y. unfold Client.open_staging. rewrite bool_decide_eq_false_2 by done.
  eapply evals_bind; [by apply evals_create_dir_all, stat_complete|]. eapply evals_bind; [exact Hy|].
  eapply evals_bind; [eapply evals_handle_len, lookup_insert_eq|]. rewrite Z.eqb_refl. apply evals_ret.
Qed.

Lemma evals_host_hash_rounds fuel t1 h rem absorbed c y :
  0 ≤ rem ≤ Z.of_nat fuel → rem ≤ usize_max → t1 !! handle_path h = Some (Regular c y) →
  Z.of_nat (cursor h) + rem ≤ len c →
  ∃ h', handle_path h' = handle_path h ∧
    evals t1 (Client.hash_prefix_rounds fuel h rem absorbed)
      (Ok (h', absorbed ++ take (Z.to_nat rem) (drop (cursor h) c))) t1.
Proof.
  revert h rem absorbed. induction fuel as [|fuel IH]; intros h rem absorbed Hrem Hus Hf Hlen; simpl;
    (destruct (Z.eqb_spec rem 0) as [->|Hne];
     [exists h; split; [done|]; simpl; rewrite app_nil_r; apply evals_ret|]); [lia|].
  rewrite (proj2 (Z.ltb_ge _ _)) by done.
  destruct (hash_round_step DEFAULT_SYNC_BLOCK_SIZE h rem c ltac:(done) ltac:(lia)) as [Hle Hsplit].
  set (data := take _ (drop (cursor h) c)) in Hle, Hsplit.
  assert (Hdata : 0 < len data).
  { unfold data, len. rewrite length_take, length_drop.
    pose proof (read_size_bounds (cursor h) (Z.to_nat (Z.min rem DEFAULT_SYNC_BLOCK_SIZE))
      ltac:(unfold DEFAULT_SYNC_BLOCK_SIZE; lia)).
    unfold len in Hlen. lia. }
  destruct (IH {| handle_path := handle_path h; cursor := cursor h + length data |} (rem - len data)
    (absorbed ++ data)) as (h' & Hh' & Hev); [lia|lia|done|unfold len in *; simpl; lia|].
  exists h'. split; [done|]. eapply evals_bind; [by eapply evals_handle_read|].
  fold data. simpl. rewrite bool_decide_eq_false_2 by (intros Hnil; by rewrite Hnil in Hdata).
  rewrite Hsplit, app_assoc. exact Hev.
Qed.
Lemma evals_host_hash_prefix t1 c y :
  len c ≤ usize_max → t1 !! sp = Some (Regular c y) →
  ∃ h', handle_path h' = sp ∧
    evals t1 (Client.hash_prefix {| handle_path := sp; cursor := 0 |} (len c)) (Ok (h', c)) t1.
Proof.
  intros Hus Hf. pose proof (len_nonneg c).
  destruct (evals_host_hash_rounds (Z.to_nat (len c)) t1 {| handle_path := sp; cursor := 0 |} (len c) [] c y)
    as (h' & Hh' & Hev); [lia|done|done|simpl; lia|].
  cbn [app cursor] in Hev. rewrite drop_0, take_len in Hev.
  exists h'. split; [done|]. eapply evals_bind; [apply evals_seek_start|]. exact Hev.
Qed.

Lemma host_evals_receive_file frames fuel c hs total y i o :
  Forall (of_stream id Command.Data) frames → frames_to_end frames → (length frames ≤ fuel)%nat →
  u64 total → len (c ++ concat (payload <$> frames)) ≤ total →
  let all := c ++ concat (payload <$> frames) in
  host_evals (<[sp := Regular c y]> t) ((Ok <$> frames) ++ i) o
    (Client.receive_file id fuel {| handle_path := sp; cursor := length c |} hs total (len c))
    (Ok ({| handle_path := sp; cursor := length all |}, hs ++ concat (payload <$> frames), len all))
    (<[sp := Regular all y]> t) i o.
Proof.
  intros Hall Hend Hfuel Hu Hle all. subst all. revert frames c hs Hall Hend Hfuel Hle.
  induction fuel as [|fuel IH]; intros frames c hs Hall Hend Hfuel Hle;
    (destruct frames as [|f frames]; [by destruct Hend as (init & final & Heq & _); destruct init|]); simpl in Hfuel; [lia|].
  apply Forall_cons in Hall as [Hf Hall]. rewrite fmap_cons in Hle. cbn [concat] in Hle. rewrite app_assoc, len_app in Hle.
  pose proof (len_nonneg (concat (payload <$> frames))). rewrite len_app in Hle. destruct Hu as [? Hu].
  cbn [Client.receive_file].
  eapply host_evals_bind; [apply host_evals_not_cancelled|]. cbn iota. rewrite fmap_cons, <-app_comm_cons.
  eapply host_evals_bind; [by apply host_evals_data|].
  eapply host_evals_bind; [apply host_evals_disk; eapply evals_handle_write_all, lookup_insert_eq|].
  cbn [handle_path cursor]. rewrite written_end, insert_insert_eq, <-length_app. eapply host_evals_bind.
  { unfold checked_add. rewrite (proj2 (Z.leb_le _ u64_max)) by lia. apply host_evals_lift. }
  cbn beta. eapply host_evals_bind; [by apply host_evals_modify|]. rewrite (proj2 (Z.ltb_ge _ _)) by lia.
  destruct Hend as (init & final & Heq & Hinit & Hfinal). destruct init as [|g init]; injection Heq as -> ->.
  - rewrite Hfinal. simpl. rewrite app_nil_r, <-len_app. apply host_evals_ret.
  - apply Forall_cons in Hinit as [Hg Hinit]. rewrite Hg. rewrite <-len_app, fmap_cons. cbn [concat].
    rewrite !app_assoc. apply IH; [done|by exists init, final|lia|]. rewrite !len_app in *. lia.
Qed.

Lemma evals_commit_host_file c y t1 :
  tree_ok t1 → t1 !! sp = Some (Regular c y) → t1 !! parent dest = Some Directory → dest ≠ parent dest →
  (∀ n, t1 !! dest = Some n → is_file n = true) →
  ∃ t', evals t1 (Client.commit_host_file link_resolves sp dest) (Ok tt) t' ∧ t' !! dest = Some (Regular c y).
Proof.
  intros Ht1 Hsp Hpar Hne Hdest.
  pose proof (evals_catch (E := LinkError) t1 _ _ _ (evals_symlink_metadata (E := IoErrorKind) t1 dest)) as Hlook.
  pose proof (evals_symlink_metadata (E := LinkError) t1 dest) as Hstat.
  destruct (t1 !! dest) as [n|] eqn:Hn.
  - pose proof (Hdest n eq_refl) as Hfile. destruct n as [c' z| |]; try done.
    pose proof (stat_complete _ _ _ Ht1 Hn) as Hst. rewrite Hst in Hlook, Hstat.
    assert (Hok : tree_ok (delete dest t1)) by by eapply tree_ok_delete.
    eexists. split; [|apply lookup_insert_eq]. unfold Client.commit_host_file.
    eapply evals_bind; [eapply evals_bind; [exact Hlook|apply evals_ret]|]. cbn iota.
    eapply evals_bind; [eapply evals_bind; [exact Hstat|]; by eapply evals_unlink|].
    apply evals_rename; [apply stat_complete; [done|by rewrite lookup_delete_ne]|done| |].
    + apply stat_complete; [done|]. by rewrite lookup_delete_ne.
    + intros Hd%stat_lookup. by rewrite lookup_delete_eq in Hd.
  - rewrite (stat_missing t1 dest Ht1 Hpar Hn) in Hlook.
    eexists. split; [|apply lookup_insert_eq]. unfold Client.commit_host_file.
    eapply evals_bind; [eapply evals_bind; [exact Hlook|apply evals_ret]|]. cbn iota.
    eapply evals_bind; [apply evals_ret|].
    apply evals_rename; [by apply stat_complete|done|by apply stat_complete|].
    intros Hd%stat_lookup. congruence.
Qed.
End pull_files.

(** What a pull goes on with. *)
Definition held (params : SyncPullParams) (tid : bytes) (t : gmap path Node) : bytes :=
  match pull_transfer_id params, t !! staging_of (pull_local_path params) tid with
  | Some _, Some (Regular c _) => c
  | _, _ => []
  end.

Section pull.
Context (params : SyncPullParams) (content : bytes) (t : gmap path Node) (tid : bytes) (f1 f3 : Frame)
  (frames : list Frame) (bs : bytes).
Let local := pull_local_path params.
Let sp := staging_of local tid.
Let dest := host_path local.
Let c0 := held params tid t.
Hypothesis tree_valid : tree_ok t.
Hypothesis transfer_valid : is_valid_transfer_id tid = true.
Hypothesis transfer_expected : ∀ expected, pull_transfer_id params = Some expected → expected = tid.
Hypothesis directory_exists : t !! parent sp = Some Directory.
Hypothesis staging_file : ∀ n, t !! sp = Some n → is_file n = true.
Hypothesis destination_file : ∀ n, t !! dest = Some n → is_file n = true.
Hypothesis content_u64 : u64 (len content).
Hypothesis held_usize : len c0 ≤ usize_max.
Hypothesis rest_sent : content = c0 ++ concat (payload <$> frames).
Hypothesis request : encode_request (pull_request params (len c0)) = Some bs.
Hypothesis ready_frame : of_stream id Command.Data f1.
Hypothesis ready_reply :
  decode_reply (payload f1) = Some (Ready tid (len c0) (len content) (bytes_hex (blake3 content))).
Hypothesis data_frames : Forall (of_stream id Command.Data) frames.
Hypothesis data_end : frames_to_end frames.
Hypothesis close_frame : of_stream id Command.Close f3.

Let ready : Client.PullReady :=
  {| Client.ready_transfer_id := tid; Client.ready_total_size := len content;
     Client.ready_file_hash := bytes_hex (blake3 content) |}.

Lemma staging_state :
  t !! sp = None ∧ c0 = [] ∨ ∃ c y, t !! sp = Some (Regular c y) ∧ (c0 = [] ∨ c0 = c).
Proof.
  unfold c0, held. fold local sp. destruct (t !! sp) as [n|] eqn:Hn.
  - right. pose proof (staging_file n eq_refl) as Hf. destruct n as [c y| |]; try done. exists c, y.
    split; [done|]. destruct (pull_transfer_id params); auto.
  - left. split; [done|]. by destruct (pull_transfer_id params).
Qed.

Lemma host_evals_resume p i o :
  (p = None ∧ pull_transfer_id params = None) ∨ (∃ q, p = Some q ∧ host_path q = sp ∧ is_Some (pull_transfer_id params)) →
  host_evals t i o (Client.resume_offset p) (Ok (len c0)) t i o.
Proof.
  intros [[-> Hn]|(q & -> & Hq & [e Hn])]; unfold c0, held; rewrite Hn; [apply host_evals_ret|].
  fold local sp. simpl. rewrite Hq. destruct (t !! sp) as [n|] eqn:Hsp.
  - pose proof (staging_file n eq_refl) as Hf. destruct n as [c y| |]; try done.
    eapply host_evals_bind; [apply host_evals_disk, evals_catch, evals_metadata; [by apply stat_complete|done]|].
    apply host_evals_ret.
  - eapply host_evals_bind; [apply host_evals_disk, evals_catch|].
    + unfold metadata. apply evals_stop. pose proof (evals_symlink_metadata (E := IoErrorKind) t sp) as Hs.
      rewrite (stat_missing t sp tree_valid directory_exists Hsp) in Hs. exact Hs.
    + apply host_evals_ret.
Qed.

(** Both files are in one directory. *)
Lemma pull_paths :
  ∃ base name final, sp = base ++ [name] ∧ dest = base ++ [final] ∧ sp ≠ dest ∧ t !! base = Some Directory.
Proof.
  destruct (staging_of_shape local tid transfer_valid) as (base & name & Hsp & Hne & Hdest). fold sp dest in Hsp, Hne, Hdest.
  rewrite Hsp, parent_snoc in directory_exists.
  destruct Hdest as [Hd|[final Hd]]; [rewrite <-Hd in directory_exists; by apply destination_file in directory_exists|].
  by exists base, name, final.
Qed.

Lemma evals_pull_commit y h :
  ∃ t', evals (<[sp := Regular content y]> t)
    (Client.pull_commit blake3 link_resolves sp dest ready h content (len content)) (Ok tt) t' ∧
    t' !! dest = Some (Regular content y).
Proof.
  destruct pull_paths as (base & name & final & Hsp & Hd & Hne & Hdir).
  assert (Hbase : base ≠ sp) by (rewrite Hsp; intros Heq%(f_equal length); rewrite length_app in Heq; simpl in Heq; lia).
  destruct (evals_commit_host_file sp dest Hne content y (<[sp := Regular content y]> t)) as (t' & Hcommit & Hfile).
  - apply tree_ok_insert; [done|by right|]. intros m Hm ->. by apply staging_file in Hm.
  - apply lookup_insert_eq.
  - by rewrite Hd, parent_snoc, lookup_insert_ne.
  - rewrite Hd, parent_snoc. intros Heq%(f_equal length). rewrite length_app in Heq. simpl in Heq. lia.
  - intros n. rewrite lookup_insert_ne by done. apply destination_file.
  - exists t'. split; [|done]. unfold Client.pull_commit. cbn [Client.ready_total_size Client.ready_file_hash ready].
    rewrite Z.eqb_refl, bool_decide_eq_false_2 by auto. cbn [negb orb].
    eapply evals_bind; [apply evals_gate|]. exact Hcommit.
Qed.

Lemma host_evals_pull_received i o :
  ∃ t' y, t' !! dest = Some (Regular content y) ∧
    host_evals t ((Ok <$> frames) ++ Ok f3 :: i) o
      (Client.pull_received blake3 link_resolves id params sp ready (len c0))
      (Ok {| pulled_transfer_id := tid; pulled_total_size := len content; received_size := len content;
             pulled_state := TransferState.Complete |}) t' i o.
Proof.
  destruct pull_paths as (base & name & final & Hsp & _).
  assert (Hnil : sp ≠ []) by (rewrite Hsp; by destruct base).
  destruct (evals_open_staging sp t tree_valid Hnil) with (c0 := c0) as [y Hopen];
    [done|apply staging_state|].
  destruct (evals_host_hash_prefix sp (<[sp := Regular c0 y]> t) c0 y held_usize (lookup_insert_eq _ _ _)) as (h & Hh & Hhash).
  pose proof (host_evals_receive_file sp t frames (S (length ((Ok <$> frames) ++ Ok f3 :: i))) c0 c0 (len content) y
    (Ok f3 :: i) o data_frames data_end ltac:(rewrite length_app, length_fmap; simpl; lia) content_u64
    ltac:(rewrite <-rest_sent; lia)) as Hrecv. rewrite <-rest_sent in Hrecv.
  destruct (evals_pull_commit y {| handle_path := sp; cursor := length content |}) as (t' & Hcommit & Hfile).
  exists t', y. split; [done|].
  eapply host_evals_bind; [apply host_evals_disk, Hopen|]. eapply host_evals_bind; [apply host_evals_disk, Hhash|].
  eapply host_evals_bind; [apply host_evals_disk, evals_seek_start|]. cbn [fst snd]. rewrite Hh.
  replace (Z.to_nat (len c0)) with (length c0) by (unfold len; lia).
  intros s Hs Hc. unfold mbnd at 1, mget. destruct Hs as (Hs1 & Hs2 & Hs3). rewrite Hs2. revert s Hs1 Hs2 Hs3 Hc.
  enough (Hgo : host_evals (<[sp := Regular c0 y]> t) ((Ok <$> frames) ++ Ok f3 :: i) o _ _ t' i o)
    by (intros s Hs1 Hs2 Hs3 Hc; by apply (Hgo s (conj Hs1 (conj Hs2 Hs3)) Hc)).
  eapply host_evals_bind; [exact Hrecv|]. cbn iota.
  eapply host_evals_bind; [apply host_evals_disk, Hcommit|].
  eapply host_evals_bind; [by apply host_evals_modify|]. eapply host_evals_bind; [by apply host_evals_close|].
  apply host_evals_ret.
Qed.

Lemma host_evals_pull i o :
  is_absolute local = true → 1 ≤ pull_block_size params ≤ MAX_SYNC_BLOCK_SIZE →
  ∃ t' y, t' !! dest = Some (Regular content y) ∧
    host_evals t (Ok f1 :: (Ok <$> frames) ++ Ok f3 :: i) o
      (Client.pull_with_operation blake3 link_resolves id params)
      (Ok {| pulled_transfer_id := tid; pulled_total_size := len content; received_size := len content;
             pulled_state := TransferState.Complete |}) t' i (o ++ [(bs, true)]).
Proof.
  intros Habs Hbs. destruct (host_evals_pull_received i (o ++ [(bs, true)])) as (t' & y & Hfile & Hrest).
  exists t', y. split; [done|]. apply host_evals_validated; [done|done|intros e He; by rewrite (transfer_expected e He)|].
  apply host_evals_map_error.
  eapply host_evals_bind; [apply host_evals_open|]. eapply host_evals_bind; [apply host_evals_not_cancelled|]. cbn iota.
  set (p := local ++ text ".kindlebridge." ++ tid ++ text ".part").
  set (st := match pull_transfer_id params with Some _ => Some p | None => None end).
  eapply host_evals_bind with (a := st).
  { unfold st, staging_path. destruct (pull_transfer_id params) as [e|]; [|apply host_evals_lift].
    rewrite (transfer_expected e eq_refl), transfer_valid. apply host_evals_lift. }
  eapply host_evals_bind; [apply host_evals_resume|].
  { unfold st. destruct (pull_transfer_id params) as [e|]; [right|by left]. exists p. split_and!; [done..|by eexists]. }
  eapply host_evals_bind; [by apply host_evals_request|]. eapply host_evals_bind; [by apply host_evals_reply|].
  eapply host_evals_bind with (a := ready).
  { unfold Client.pull_ready_reply. rewrite transfer_valid, (same_transfer _ _ transfer_expected), Z.eqb_refl.
    cbn [negb orb]. rewrite (proj2 (Z.ltb_ge _ _)); [apply host_evals_lift|]. rewrite rest_sent, len_app.
    pose proof (len_nonneg (concat (payload <$> frames))). lia. }
  do 2 (eapply host_evals_bind; [by apply host_evals_modify|]).
  eapply host_evals_bind with (a := p).
  { unfold st, staging_path. destruct (pull_transfer_id params); [apply host_evals_lift|].
    cbn [Client.ready_transfer_id ready]. rewrite transfer_valid. apply host_evals_lift. }
  exact Hrest.
Qed.
End pull.
End client.

(** ** Claims *)

Section claims.
Context `{PointerWidth, ReadSize, ClientJson}.
Context (blake3 : bytes → bytes) (link_resolves : path → bool) (show_io_error : IoErrorKind → bytes) (id : Z).

(** A push comes to an end and succeeds when no call fails, nobody cancels, and the device
    answers with READY for this size and digest at an offset within the file, then with
    COMPLETE, then closes the stream. *)
Theorem undisturbed_host_push_succeeds params content x t i o bs tid offset f1 f2 f3 :
  is_absolute (push_local_path params) = true → 1 ≤ push_block_size params ≤ MAX_SYNC_BLOCK_SIZE →
  (∀ expected, push_transfer_id params = Some expected → expected = tid) → is_valid_transfer_id tid = true →
  tree_ok t → t !! host_path (push_local_path params) = Some (Regular content x) → u64 (len content) →
  0 ≤ offset ≤ len content → encode_request (push_request blake3 content params) = Some bs →
  of_stream id Command.Data f1 →
  decode_reply (payload f1) = Some (Ready tid offset (len content) (bytes_hex (blake3 content))) →
  of_stream id Command.Data f2 → decode_reply (payload f2) = Some (Complete tid (len content) (len content)) →
  of_stream id Command.Close f3 →
  ∃ sent, host_evals t (Ok f1 :: Ok f2 :: Ok f3 :: i) o (Client.push_with_operation blake3 show_io_error id params)
    (Ok {| pushed_transfer_id := tid; accepted_offset := len content; pushed_state := TransferState.Complete |})
    t i (o ++ (bs, false) :: sent).
Proof. intros Habs [Hb Hmax] Hid Hv Ht Hf Hu Hoff Hreq Hf1 Hr1 Hf2 Hr2 Hf3. by eapply host_evals_push. Qed.

(** A pull comes to an end and puts the file in place when no call fails, nobody cancels,
    the directory of the destination exists and neither the destination nor the staging
    file is a directory or a link, and the device announces the file at the offset where
    the staging file ends, sends the rest in frames of which the last ends the stream, and
    closes it. *)
Theorem undisturbed_host_pull_succeeds params content t i o bs tid f1 frames f3 :
  let local := pull_local_path params in let sp := staging_of local tid in let c0 := held params tid t in
  is_absolute local = true → 1 ≤ pull_block_size params ≤ MAX_SYNC_BLOCK_SIZE →
  (∀ expected, pull_transfer_id params = Some expected → expected = tid) → is_valid_transfer_id tid = true →
  tree_ok t → t !! parent sp = Some Directory → (∀ n, t !! sp = Some n → is_file n = true) →
  (∀ n, t !! host_path local = Some n → is_file n = true) → u64 (len content) → len c0 ≤ usize_max →
  content = c0 ++ concat (payload <$> frames) → encode_request (pull_request params (len c0)) = Some bs →
  of_stream id Command.Data f1 →
  decode_reply (payload f1) = Some (Ready tid (len c0) (len content) (bytes_hex (blake3 content))) →
  Forall (of_stream id Command.Data) frames → frames_to_end frames → of_stream id Command.Close f3 →
  ∃ t' y, t' !! host_path local = Some (Regular content y) ∧
    host_evals t (Ok f1 :: (Ok <$> frames) ++ Ok f3 :: i) o
      (Client.pull_with_operation blake3 link_resolves id params)
      (Ok {| pulled_transfer_id := tid; pulled_total_size := len content; received_size := len content;
             pulled_state := TransferState.Complete |}) t' i (o ++ [(bs, true)]).
Proof.
  intros local sp c0 Habs Hb Hid Hv Ht Hpar Hsp Hd Hu Hus Hc Hreq Hf1 Hr1 Hall Hend Hf3. by eapply host_evals_pull.
Qed.
End claims.
