(* ===== verification/SyncEndToEnd.v ===== *)
(** * File sync from end to end

    The host's client of [SyncClient.v] and the device's server of [SyncStream.v] at the
    two ends of one stream.  The connection delivers in order what was sent, perhaps not
    all of it: the DATA that one side receives are a beginning of those the other side has
    sent. *)

From S2P Require Import Prelude Text WireFrame Actor BundleError Paths Utf8 Files FileHandles Rpc SyncStore SyncPush Pipeline SyncStream SyncResume SyncPull SyncClient SyncHost.
Local Open Scope Z_scope.

(** The DATA among what [recv] returns: the payload, and whether it ends the stream. *)
Definition data_frames (l : list (result ConnectionError Frame)) : list (bytes * bool) :=
  omap (λ r, match r with
             | Ok f => if bool_decide (command (header f) = Command.Data)
                       then Some (payload f, has_end_stream (header f)) else None
             | Err _ => None
             end) l.

(** The stream between a host that ran from [s] to [s'] and a device that ran from
    [stream] to [stream']. *)
Record connected (s s' : HostSync) (stream stream' : ServiceStream) : Prop := {
  host_starts : outgoing (host_stream s) = [];
  device_starts : outgoing stream = [];
  to_device : data_frames (incoming stream) `prefix_of` outgoing (host_stream s');
  to_host : data_frames (incoming (host_stream s)) `prefix_of` outgoing stream';
}.

(** What both sides rely on of serde_json: a message is read back as it was, and an
    unsigned integer is not negative. *)
Class MessageLaws `{SyncJson, ClientJson} : Prop := {
  request_back : ∀ r bs, encode_request r = Some bs → decode_request bs = Some r;
  reply_back : ∀ r bs, encode_reply r = Some bs → decode_reply bs = Some r;
  reply_offsets : replies_typed;
}.

Lemma data_frames_cons f l :
  command (header f) = Command.Data →
  data_frames (Ok f :: l) = (payload f, has_end_stream (header f)) :: data_frames l.
Proof. intros Hf. unfold data_frames. simpl. by rewrite bool_decide_eq_true_2. Qed.

Section end_to_end.
Context `{PointerWidth, DirOrder, ReadSize, MetadataJson, !JsonLaws, SyncJson, ClientJson, !MessageLaws}.
Context (blake3 : bytes → bytes) (hash_from_hex : bytes → option bytes) (nfc : str → str).
Context (link_resolves host_links : path → bool) (show_io_error : IoErrorKind → bytes).

(** ** What the device sends for a push *)

Lemma failed_sends e d stream :
  outgoing (failed e (d, stream)).1.2 = outgoing stream ∨
  ∃ bs, encode_reply (Failure e) = Some bs ∧ outgoing (failed e (d, stream)).1.2 = outgoing stream ++ [(bs, true)].
Proof.
  unfold failed, on_stream, zoom. cbn [fst snd]. unfold fail, mbnd.
  destruct (send_reply_run (Failure e) true stream) as [(s' & e' & -> & Ho)|(s' & bs & -> & Hbs & Ho)]; cbn [fst snd].
  - by left.
  - right. exists bs. split; [done|]. pose proof (close_outgoing s') as Hc. destruct (close s') as [s2 r]. simpl in *. congruence.
Qed.

(** The reply to the end of a push. *)
Definition final_reply (r : result StoreError SyncStatus) : SyncReply :=
  match r with
  | Err e => Failure (into_rpc e)
  | Ok st => Complete (status_transfer_id st) (status_next_offset st) (status_total_size st)
  end.
Lemma push_reply_sends r stream :
  outgoing (push_reply r stream).1 = outgoing stream ∨
  ∃ bs, encode_reply (final_reply r) = Some bs ∧ outgoing (push_reply r stream).1 = outgoing stream ++ [(bs, true)].
Proof.
  assert (push_reply r stream = mbnd (send_reply (final_reply r) true) (λ _, close) stream) as -> by (by destruct r).
  unfold mbnd. destruct (send_reply_run (final_reply r) true stream) as [(s' & e' & -> & Ho)|(s' & bs & -> & Hbs & Ho)].
  - by left.
  - right. exists bs. by rewrite close_outgoing.
Qed.

Lemma push_read_outgoing (k k' : ReceiveContext) r :
  push_read k = (k', r) → outgoing (receive_stream k') = outgoing (receive_stream k).
Proof.
  unfold push_read, SyncStream.actor_data, recv, mbnd. destruct (end_stream_received k); [by intros [= <- _]|].
  destruct (incoming (receive_stream k)) as [|[f|e] l]; simpl; [by intros [= <- _]| |by intros [= <- _]].
  case_bool_decide; simpl; [by intros [= <- _]|]. case_match; by intros [= <- _].
Qed.
Lemma push_read_data (k k' : ReceiveContext) item :
  push_read k = (k', Ok (Some item)) →
  fst <$> data_frames (incoming (receive_stream k)) = item :: (fst <$> data_frames (incoming (receive_stream k'))).
Proof.
  unfold push_read, SyncStream.actor_data, recv, mbnd. destruct (end_stream_received k); [done|].
  destruct (incoming (receive_stream k)) as [|[f|e] l]; simpl; [done| |done].
  case_bool_decide as Hcmd; simpl; [done|]. case_match; [done|]. intros [= <- <-]. simpl.
  by rewrite bool_decide_eq_true_2.
Qed.

Lemma received_data block_size s stream p o :
  received block_size s stream p o →
  was_read p `prefix_of` fst <$> data_frames (incoming stream) ∧
  outgoing (receive_stream (context p)) = outgoing stream.
Proof.
  intros [Hr _]. split.
  - eapply (reachable_reads _ _ _ _ (λ l (k : ReceiveContext),
      fst <$> data_frames (incoming stream) = l ++ (fst <$> data_frames (incoming (receive_stream k))))) in Hr
      as (_ & c0 & Hc0 & _).
    + by eexists.
    + done.
    + intros l k k' item Hl Hread. rewrite Hl, (push_read_data _ _ _ Hread), <-app_assoc. done.
    + by intros l k k' a r Hl [= <- _].
  - eapply (reachable_context _ _ _ _ (λ k : ReceiveContext, outgoing (receive_stream k) = outgoing stream)); [| | |exact Hr];
      [done| |].
    + intros k k' r Hk Hread. by rewrite (push_read_outgoing _ _ _ Hread).
    + by intros k k' a r Hk [= <- _].
Qed.

Section one_transfer.
Context (id : bytes) (logical : str) (size : Z) (hash : bytes) (t0 : gmap path Node).
Hypothesis target_outside : outside (target logical).
Hypothesis size_u64 : u64 size.

(** Only a file that is in place is reported as complete. *)
Definition completes (stream : ServiceStream) (c : bytes) (t : gmap path Node) : Prop :=
  ∃ frames, frames `prefix_of` fst <$> data_frames (incoming stream) ∧
    committed id logical size hash t0 TransferState.Complete (c ++ concat frames) t ∧ len (c ++ concat frames) = size ∧
    bytes_hex (blake3 (c ++ concat frames)) = hash.

Lemma push_received_sends block_size c d tr stream p o :
  in_progress id logical size hash t0 c (tree d) → open_push id logical size hash c tr → hasher tr = c →
  received block_size (d, tr) stream p o →
  let r := push_received blake3 nfc link_resolves p o in
  outgoing r.1.2 = outgoing stream ∨
  ∃ bs rep, encode_reply rep = Some bs ∧ outgoing r.1.2 = outgoing stream ++ [(bs, true)] ∧
    ((∃ e, rep = Failure e) ∨ completes stream c (tree r.1.1)).
Proof.
  intros Hp Ho Hh Hrec. destruct (received_data _ _ _ _ _ Hrec) as [Hread Hout]. destruct Hrec as [Hr Hret].
  destruct (returned_writes _ _ _ _ _ _ _ _ Hr Hret) as (_ & good & bad & Hall & Hbad & _ & Hok).
  destruct (push_writes id logical size hash t0 target_outside size_u64 _ c {| written_to := (d, tr); hashed := hasher tr |}
    _ _ good bad Hp Ho Hall eq_refl Hbad) as (Hhashed & _ & _ & part & _ & Hprog & Hdone).
  cbn [hashed] in Hhashed. rewrite Hh in Hhashed. unfold push_received. destruct (outcome o) as [[]|f].
  2:{ left. by destruct (last_written o) as [off|]; [destruct (rollback_for_resume off _)|destruct (push_checkpoint _)]. }
  destruct (Hok eq_refl) as (_ & Hw & -> & _). destruct (Hdone eq_refl) as (Hk & -> & Hopen).
  rewrite Hk, app_nil_r in Hprog. set (frames := was_written p) in *.
  pose proof (hoare_finish_with_digest nfc link_resolves id logical size hash t0 target_outside
    (c ++ concat frames) (blake3 (hashed (writer_state p))) size_u64 _ (conj Hprog Hopen)) as Hf.
  destruct (finish_with_digest _ _ _ _) as [s rf].
  destruct (push_reply_sends rf (receive_stream (context p))) as [Hs|(bs & Hbs & Hs)];
    destruct (push_reply rf _) as [stream' rr]; cbn [fst snd] in *; rewrite Hs, Hout; [by left|right].
  exists bs, (final_reply rf). split_and!; [done..|]. destruct rf as [st|e]; [|left; by eexists]. right.
  destruct Hf as (Hc & Hdig & Hl & _). rewrite <-Hw in Hread. rewrite Hhashed in Hdig. by exists frames.
Qed.

Lemma push_outcome_sends block_size c d tr stream r :
  in_progress id logical size hash t0 c (tree d) → open_push id logical size hash c tr → hasher tr = c →
  push_outcome blake3 nfc link_resolves block_size tr (d, stream) r →
  ∃ l, outgoing r.1.2 = outgoing stream ++ l ∧
    (l = [] ∨ ∃ bs, encode_reply (push_ready tr) = Some bs ∧
      (l = [(bs, false)] ∨ ∃ bs' rep, encode_reply rep = Some bs' ∧ l = [(bs, false); (bs', true)] ∧
        ((∃ e, rep = Failure e) ∨ completes stream c (tree r.1.1)))).
Proof.
  intros Hp Ho Hh. unfold push_outcome. cbn [fst snd].
  assert (Hin : incoming (send_reply (push_ready tr) false stream).1 = incoming stream).
  { unfold send_reply, mbnd, mlift, send_data, answer. destruct (encode_reply _); simpl; [|done].
    by destruct (answers stream) as [|[]]. }
  destruct (send_reply_run (push_ready tr) false stream) as [(s' & e & Hrun & Hs)|(s' & bs & Hrun & Hbs & Hs)];
    rewrite Hrun in *; cbn [fst] in Hin.
  { intros ->. exists []. rewrite app_nil_r. auto. }
  rewrite (open_not_complete id logical size hash c tr Ho). intros (p & o & Hrec & ->).
  destruct (push_received_sends block_size c d tr s' p o Hp Ho Hh Hrec) as [Hn|(bs' & rep & Hbs' & Hn & Hrep)]; rewrite Hn, Hs.
  - exists [(bs, false)]. split; [done|]. right. exists bs. auto.
  - exists [(bs, false); (bs', true)]. rewrite <-app_assoc. split; [done|]. right. exists bs. split; [done|]. right.
    exists bs', rep. split_and!; [done..|]. destruct Hrep as [Hf|(frames & Hpre & Hc)]; [by left|right].
    exists frames. by rewrite Hin in Hpre.
Qed.
End one_transfer.

(** ** Push *)

(** What the device's staging file holds when a push begins: nothing, when it is new. *)
Definition push_from (oid : option bytes) (c : bytes) (t : gmap path Node) : Prop :=
  match oid with
  | None => c = []
  | Some id => ∃ x, t !! part_path id = Some (Regular c x)
  end.
(** The device has the transfer as complete. *)
Definition push_was_complete (oid : option bytes) (logical : str) (size : Z) (hash : bytes)
    (t : gmap path Node) : Prop :=
  ∃ id m, oid = Some id ∧ meta_at id t m ∧ of_transfer id logical size hash m ∧ state m = TransferState.Complete.

Lemma push_begins now oid logical size hash d d1 tr :
  outside (target logical) → u64 size → tree_ok (tree d) → laid_out (tree d) →
  begin_push blake3 hash_from_hex nfc now oid logical size hash d = (d1, Ok tr) →
  (∃ id t0 c, push_from oid c (tree d) ∧
     in_progress id logical size hash t0 c (tree d1) ∧ open_push id logical size hash c tr ∧ hasher tr = c) ∨
  (push_was_complete oid logical size hash (tree d) ∧ is_complete tr = true ∧ tree d1 = tree d).
Proof.
  intros Hout Hsize Ht Hl Hb. destruct oid as [id|].
  - pose proof (hoare_begin_push_any blake3 hash_from_hex nfc id logical size hash (tree d) Hout now Hsize Ht Hl
      d eq_refl) as Hn. rewrite Hb in Hn.
    destruct Hn as [(c & x & Hx & Hp & Ho & Hh)|(m & Hm & Hof & Hst & Htr & Hd1)].
    + left. exists id, (tree d), c. split; [by exists x|]. done.
    + right. split; [by exists id, m|]. split; [|done]. unfold is_complete. by rewrite Htr, bool_decide_eq_true_2.
  - pose proof (hoare_begin_new blake3 hash_from_hex nfc logical size hash Hout now (tree d) Hsize Ht Hl d eq_refl)
      as Hn. rewrite Hb in Hn. cbv zeta in Hn. left. eexists _, _, []. split; [done|]. exact Hn.
Qed.

(** A push that was complete changes nothing. *)
Lemma complete_outcome block_size tr d stream r :
  is_complete tr = true → push_outcome blake3 nfc link_resolves block_size tr (d, stream) r → tree r.1.1 = tree d.
Proof.
  intros Hc. unfold push_outcome. cbn [fst snd]. destruct (send_reply _ _ _) as [s1 [[]|e]]; [|by intros ->].
  rewrite Hc. destruct (await_end _ _ s1) as [s2 [[]|e]]; [|by intros ->..].
  assert (push_finish blake3 nfc link_resolves (d, tr) = push_disk (status (transfer_id (push_metadata tr))) (d, tr)) as ->.
  { unfold push_finish, mbnd, mget. cbn [fst snd]. unfold finish_with_digest, mbnd, mget. cbn [fst snd]. by rewrite Hc. }
  rewrite push_disk_run. pose proof (looks_status (transfer_id (push_metadata tr)) (tree d) d eq_refl) as Hs.
  destruct (status _ d) as [d1 rs]. cbn [fst snd]. destruct (push_reply rs s2) as [s3 r3]. intros ->. cbn [fst].
  by destruct rs; [destruct Hs|].
Qed.

(** What the device sends after a request to push, when the second message reports the
    transfer as complete. *)
Lemma push_served now oid logical size hash block_size d stream r f1 f2 (l : list (bytes * bool)) tid off :
  outside (target logical) → u64 size → tree_ok (tree d) → laid_out (tree d) → outgoing stream = [] →
  serve_request blake3 hash_from_hex nfc link_resolves now false (Push oid logical size hash block_size) (d, stream) r →
  outgoing r.1.2 = f1 :: f2 :: l → decode_reply f1.1 = Some (Ready tid off size hash) →
  (∀ e, decode_reply f2.1 ≠ Some (Failure e)) →
  (∃ c frames x, push_from oid c (tree d) ∧ off = len c ∧ frames `prefix_of` fst <$> data_frames (incoming stream) ∧
     len (c ++ concat frames) = size ∧ bytes_hex (blake3 (c ++ concat frames)) = hash ∧
     tree r.1.1 !! target logical = Some (Regular (c ++ concat frames) x)) ∨
  (push_was_complete oid logical size hash (tree d) ∧ tree r.1.1 = tree d).
Proof.
  intros Hout Hsize Ht Hl Hempty Hserve Hsent Hf1 Hf2.
  assert (Hfail : ∀ e (d' : Disk), outgoing (failed e (d', stream)).1.2 = outgoing r.1.2 → False).
  { intros e d' Heq. destruct (failed_sends e d' stream) as [Ho|(bs & _ & Ho)]; rewrite Heq, Hsent, Hempty in Ho; done. }
  unfold serve_request in Hserve. case_match; [subst r; exfalso; by eapply Hfail|]. cbn [fst snd] in Hserve.
  destruct (begin_push _ _ _ _ _ _ _ _ d) as [d1 [tr|e]] eqn:Hb; [|subst r; exfalso; by eapply Hfail].
  destruct (push_begins _ _ _ _ _ _ _ _ Hout Hsize Ht Hl Hb) as [(id & t0 & c & Hfrom & Hp & Ho & Hh)|(Hc & His & Hd1)].
  2:{ right. split; [done|]. by rewrite (complete_outcome _ _ _ _ _ His Hserve). }
  left. exists c.
  destruct (push_outcome_sends id logical size hash t0 Hout Hsize _ _ _ _ _ _ Hp Ho Hh Hserve)
    as (k & Hk & Hcase). rewrite Hempty, Hsent in Hk. simpl in Hk. subst k.
  destruct Hcase as [?|(bs & Hbs & [?|(bs' & rep & Hbs' & Heq & Hrep)])]; [done..|].
  injection Heq as -> -> ->. cbn [fst] in *. apply reply_back in Hbs, Hbs'.
  unfold push_ready in Hbs. rewrite Hf1 in Hbs. injection Hbs as _ -> _ _.
  destruct Hrep as [[e ->]|(frames & Hpre & Hc & Hlen & Hdig)]; [by destruct (Hf2 e)|].
  destruct (committed_target _ _ _ _ _ _ _ _ Hc) as [x Hx]. exists frames, x.
  split; [done|]. split; [apply Ho|]. done.
Qed.

Lemma whole_file_concat block_size l sent : whole_file block_size l sent → concat (fst <$> sent) = l.
Proof.
  intros (datas & final & -> & -> & _). rewrite fmap_app, concat_app. simpl. rewrite app_nil_r. f_equal.
  induction datas as [|data datas IH]; [done|]. simpl. by f_equal.
Qed.

Lemma prefix_concat (l k : list bytes) : l `prefix_of` k → concat l `prefix_of` concat k.
Proof. intros [m ->]. rewrite concat_app. by apply prefix_app_r. Qed.

(** The first message a side receives, when it was sent only one. *)
Lemma serve_first now d stream r :
  serve blake3 hash_from_hex nfc link_resolves now (d, stream) r → outgoing stream = [] →
  outgoing r.1.2 = [] ∨
  ∃ f l, incoming stream = Ok f :: l ∧ command (header f) = Command.Data ∧
    ∀ request, decode_request (payload f) = Some request →
      serve_request blake3 hash_from_hex nfc link_resolves now (has_end_stream (header f)) request
        (d, set_incoming l stream) r.
Proof.
  intros Hs Hempty. unfold serve, on_stream, zoom, SyncStream.actor_data, recv, mbnd in Hs. cbn [fst snd] in Hs.
  destruct (incoming stream) as [|[f|e] l]; [subst r; by left| |subst r; by left]. case_bool_decide as Hc; simpl in Hs.
  - subst r. by left.
  - right. exists f, l. split_and!; [done..|]. intros request Hreq. by rewrite Hreq in Hs.
Qed.

(** C5: A push that the host reports as complete has arrived: whatever happened on the way,
    on either disk and between the threads of the device, when the host's client returns
    [Ok], the device's target is a regular file that consists of what the device's staging
    file held when the push began (nothing, when it is new) and the rest of the host's
    file, and has the digest of the host's file; so it is the host's file when the push is
    new or the staging file held a beginning of it, as an interrupted push leaves it.  The
    one other case is a push by the ID of a transfer that the device has recorded as complete,
    with this path, size and digest: then the device changes nothing, and does not look at
    the target. *)
Theorem completed_push_has_arrived now id params s s' res content x d stream r :
  let hash := bytes_hex (blake3 content) in let logical := push_remote_path params in
  tree_ok (tree (host_disk s)) → tree (host_disk s) !! host_path (push_local_path params) = Some (Regular content x) →
  u64 (len content) → 0 ≤ push_block_size params → outside (target logical) →
  tree_ok (tree d) → laid_out (tree d) →
  Client.push_with_operation blake3 show_io_error id params s = (s', Ok res) →
  serve blake3 hash_from_hex nfc link_resolves now (d, stream) r → connected s s' stream r.1.2 →
  (∃ c y, push_from (push_transfer_id params) c (tree d) ∧
     tree r.1.1 !! target logical = Some (Regular (c ++ drop (length c) content) y) ∧
     bytes_hex (blake3 (c ++ drop (length c) content)) = hash ∧
     (c `prefix_of` content → c ++ drop (length c) content = content)) ∨
  (push_was_complete (push_transfer_id params) logical (len content) hash (tree d) ∧ tree r.1.1 = tree d).
Proof.
  intros hash logical Ht Hsource Hsize Hb Hout Htd Hld Hpush Hserve [Hs0 Hd0 Hto Hfrom].
  pose proof (hoare_push_with_operation blake3 show_io_error id params (tree (host_disk s)) (incoming (host_stream s))
    (outgoing (host_stream s)) reply_offsets Hb Ht s (conj eq_refl (conj eq_refl eq_refl))) as Hp. rewrite Hpush in Hp.
  destruct Hp as (content' & x' & tid & off & Hsource' & Hans & _ & (bs & sent & Hbs & Hsent & Hw) & _).
  assert (content' = content) as -> by congruence. cbv zeta in Hw. rewrite Hs0 in Hsent. simpl in Hsent.
  destruct Hans as (f1 & f2 & f3 & l & Hi & Hf1 & Hf2 & _ & Hr1 & Hr2 & _).
  rewrite Hi, !data_frames_cons in Hfrom by done. destruct Hfrom as [rest Hfrom].
  destruct (serve_first _ _ _ _ Hserve Hd0) as [Hnone|(f & k & Hk & Hf & Hrun)]; [by rewrite Hnone in Hfrom|].
  rewrite Hk, data_frames_cons, Hsent in Hto by done. destruct Hto as [rest' Hto]. injection Hto as -> Hend ->.
  specialize (Hrun _ (request_back _ _ Hbs)). rewrite <-Hend in Hrun.
  destruct (push_served now _ logical (len content) hash _ d (set_incoming k stream) r _ _ _ tid off
    Hout Hsize Htd Hld Hd0 Hrun Hfrom Hr1 ltac:(intros e; cbn [fst]; congruence))
    as [(c & frames & y & Hc & -> & Hfr & Hlen & Hdig & Hx)|Hc]; [left|by right].
  apply whole_file_concat in Hw. rewrite fmap_app, concat_app in Hw.
  apply prefix_concat in Hfr as [u Hu]. simpl in Hu. rewrite Hu in Hw. unfold len in Hw. rewrite Nat2Z.id in Hw.
  assert (Hrest : concat frames = drop (length c) content).
  { apply (f_equal length) in Hw as Hl. rewrite !length_app, length_drop in Hl.
    rewrite len_app in Hlen. unfold len in Hlen.
    assert (u ++ concat (fst <$> rest') = []) as Hnil by (apply nil_length_inv; rewrite length_app; lia).
    by rewrite <-app_assoc, Hnil, app_nil_r in Hw. }
  rewrite Hrest in *. exists c, y. split_and!; [done..|]. intros [more ->]. by rewrite drop_app_length.
Qed.

(** ** Pull *)



End end_to_end.
