(* ===== verification/SyncHostSamples.v ===== *)
(** * Runs of the host's sync client, alone and with a device

    A codec for the messages, on which the claims of [SyncHost.v], [SyncHostRuns.v] and
    [SyncEndToEnd.v] are applied. *)

From S2P Require Import Prelude Text WireFrame Actor BundleError Paths Utf8 Files FileHandles Rpc SyncStore SyncPush Pipeline SyncStream SyncResume SyncPull SyncClient SyncHost SyncHostRuns SyncEndToEnd SyncSamples.
Local Open Scope Z_scope.

(** ** A codec *)

Definition option_field (o : option bytes) : field :=
  match o with Some b => inr (inl b) | None => inl 0 end.
Definition of_option_field (f : field) : option (option bytes) :=
  match f with inr (inl b) => Some (Some b) | inl _ => Some None | _ => None end.
Fixpoint pair_fields (l : list (bytes * bytes)) : list field :=
  match l with
  | [] => []
  | (a, b) :: l => inr (inl a) :: inr (inl b) :: pair_fields l
  end.
Fixpoint of_pair_fields (l : list field) : list (bytes * bytes) :=
  match l with
  | inr (inl a) :: inr (inl b) :: l => (a, b) :: of_pair_fields l
  | _ => []
  end.
Lemma of_to_pair_fields l : of_pair_fields (pair_fields l) = l.
Proof. induction l as [|[a b] l IH]; simpl; congruence. Qed.

Definition request_fields (r : SyncRequest) : list field :=
  match r with
  | Push o p size hash block => [inl 0; option_field o; inr (inr p); inl size; inr (inl hash); inl block]
  | Pull o p offset block => [inl 1; option_field o; inr (inr p); inl offset; inl block]
  end.
Definition of_request_fields (l : list field) : option SyncRequest :=
  match l with
  | [inl 0; o; inr (inr p); inl size; inr (inl hash); inl block] =>
      (λ o, Push o p size hash block) <$> of_option_field o
  | [inl 1; o; inr (inr p); inl offset; inl block] => (λ o, Pull o p offset block) <$> of_option_field o
  | _ => None
  end.
Definition reply_fields (r : SyncReply) : list field :=
  match r with
  | Ready id offset size hash => [inl 0; inr (inl id); inl offset; inl size; inr (inl hash)]
  | Complete id offset size => [inl 1; inr (inl id); inl offset; inl size]
  | Failure e => inl 2 :: inl (code e) :: inr (inl (message e)) ::
      match data e with None => [inl 0] | Some l => inl 1 :: pair_fields l end
  end.
Definition of_reply_fields (l : list field) : option SyncReply :=
  match l with
  | [inl 0; inr (inl id); inl offset; inl size; inr (inl hash)] =>
      if 0 <=? offset then Some (Ready id offset size hash) else None
  | [inl 1; inr (inl id); inl offset; inl size] => Some (Complete id offset size)
  | inl 2 :: inl c :: inr (inl m) :: inl 0 :: _ => Some (Failure {| code := c; message := m; data := None |})
  | inl 2 :: inl c :: inr (inl m) :: inl 1 :: l =>
      Some (Failure {| code := c; message := m; data := Some (of_pair_fields l) |})
  | _ => None
  end.
Definition writes_reply (r : SyncReply) : bool :=
  match r with Ready _ offset _ _ => 0 <=? offset | _ => true end.

#[local] Existing Instance number_json.
#[local] Existing Instance number_json_laws.
#[local] Instance number_replies : SyncJson := {|
  encode_reply r := if writes_reply r then Some (digits (encode (reply_fields r))) else None;
  decode_request l := decode (number l) ≫= of_request_fields;
|}.
#[local] Instance number_requests : ClientJson := {|
  encode_request r := Some (digits (encode (request_fields r)));
  decode_reply l := decode (number l) ≫= of_reply_fields;
|}.
#[local] Instance number_messages : MessageLaws.
Proof.
  split.
  - intros r bs [= <-]. simpl. rewrite number_digits, decode_encode. by destruct r as [[] ? ? ? ?|[] ? ? ?].
  - intros r bs. simpl. destruct (writes_reply r) eqn:Hw; [|done]. intros [= <-]. rewrite number_digits, decode_encode.
    destruct r as [id off size hash| |[c m [l|]]]; simpl in *; try done; [by rewrite Hw|by rewrite of_to_pair_fields].
  - intros bs tid off size hash. simpl. destruct (decode (number bs)) as [l|]; simpl; [|done].
    unfold of_reply_fields. intros Hr. repeat case_match; simplify_eq; try done. lia.
Qed.

Definition reply_bytes (r : SyncReply) : bytes := default [] (encode_reply r).
Definition request_bytes (r : SyncRequest) : bytes := default [] (encode_request r).

(** ** A push *)

Definition close_frame : Frame :=
  {| header := {| major := 1; minor := 0; command := Command.Close; flags := 0; stream_id := 1;
                  sequence := 0; payload_length := 0; credit_delta := 0; reserved := 0 |};
     payload := [] |}.
Definition no_detail (e : IoErrorKind) : bytes := [].

Definition host_disk_with (t : gmap path Node) : Disk :=
  {| tree := t; faults := []; temp_counter := 0; process_id := 3 |}.
Definition host_with (t : gmap path Node) (l : list (result ConnectionError Frame)) : HostSync :=
  {| host_disk := host_disk_with t; host_stream := stream_of l; operation := operation_new |}.
Definition host_tree : gmap path Node := {[ [] := Directory; [text "doc"] := Regular document false ]}.

Definition push_params : SyncPushParams :=
  {| push_local_path := text "/doc"; push_remote_path := document_path; push_transfer_id := None; push_block_size := 4 |}.
Definition push_replies : list Frame :=
  [data_frame (reply_bytes (Ready begun_id 0 (len document) document_hash)) false;
   data_frame (reply_bytes (Complete begun_id (len document) (len document))) true; close_frame].
Definition pushing_host : HostSync := host_with host_tree (Ok <$> push_replies).
Definition host_push := Client.push_with_operation first_bytes no_detail 1 push_params pushing_host.

Lemma host_tree_ok : tree_ok host_tree.
Proof. apply tree_ok_forall, (bool_decide_unpack _); vm_compute; done. Qed.

Definition host_push_result : SyncPushResult :=
  {| pushed_transfer_id := begun_id; accepted_offset := len document; pushed_state := TransferState.Complete |}.
Lemma host_push_ok : host_push = (host_push.1, Ok host_push_result).
Proof.
  assert (Hr : host_push.2 = Ok host_push_result) by (vm_compute; reflexivity).
  destruct host_push as [s r]. simpl in *. by rewrite Hr.
Qed.

Lemma host_push_sends_the_file_witness :
  tree (host_disk host_push.1) = host_tree ∧
  ∃ content x tid offset, host_tree !! [text "doc"] = Some (Regular content x) ∧
    push_answered first_bytes content push_params (Ok <$> push_replies) tid offset ∧
    push_sends first_bytes content push_params true offset [] (outgoing (host_stream host_push.1)) ∧
    host_push_result = {| pushed_transfer_id := tid; accepted_offset := len content; pushed_state := TransferState.Complete |}.
Proof.
  apply (host_push_sends_the_file first_bytes no_detail 1 push_params pushing_host host_push.1 (Ok host_push_result)).
  - exact reply_offsets.
  - done.
  - exact host_tree_ok.
  - exact host_push_ok.
Defined.

Lemma begun_id_valid : is_valid_transfer_id begun_id = true.
Proof. vm_compute. reflexivity. Qed.

Lemma undisturbed_host_push_succeeds_witness :
  ∃ sent, host_evals host_tree (Ok <$> push_replies) []
    (Client.push_with_operation first_bytes no_detail 1 push_params) (Ok host_push_result) host_tree []
    ([] ++ (request_bytes (push_request first_bytes document push_params), false) :: sent).
Proof.
  eapply (undisturbed_host_push_succeeds first_bytes no_detail 1 push_params document false host_tree [] [] _ begun_id 0).
  - reflexivity.
  - by vm_compute.
  - done.
  - exact begun_id_valid.
  - exact host_tree_ok.
  - reflexivity.
  - exact document_size.
  - by vm_compute.
  - reflexivity.
  - by split.
  - by vm_compute.
  - by split.
  - by vm_compute.
  - by split.
Defined.

(** The device at the other end. *)
Definition pushed_stream : ServiceStream :=
  stream_of [Ok (data_frame (request_bytes (push_request first_bytes document push_params)) false);
             Ok (data_frame (text "hell") false); Ok (data_frame (text "o") true)].
Definition announced_stream : ServiceStream :=
  (send_reply (push_ready begun_transfer) false (set_incoming (Ok <$> whole_frames) pushed_stream)).1.
Definition device_run : Pipe :=
  run_schedule push_read push_write push_stored push_must_drain (concat (replicate 40 [true; false]))
    (start {| receive_stream := announced_stream; receive_block_size := 4; end_stream_received := false |}
       {| written_to := (begun.1, begun_transfer); hashed := hasher begun_transfer |}).
Definition device_outcome : PipelineOutcome Z ServerError :=
  match producer device_run with
  | Producer.Return o => o
  | _ => {| outcome := Ok tt; last_written := None |}
  end.
Definition device_end : (Disk * ServiceStream) * result ServerError unit :=
  push_received first_bytes same_form no_links device_run device_outcome.

Lemma device_served : serve first_bytes any_hash same_form no_links 5 (new_disk, pushed_stream) device_end.
Proof.
  unfold serve. change (on_stream SyncStream.actor_data (new_disk, pushed_stream)) with
    ((new_disk, set_incoming (Ok <$> whole_frames) pushed_stream),
     Ok (data_frame (request_bytes (push_request first_bytes document push_params)) false) : result ServerError Frame).
  cbv iota. assert (decode_request (payload (data_frame (request_bytes (push_request first_bytes document push_params)) false))
    = Some (push_request first_bytes document push_params)) as -> by (by apply request_back).
  unfold serve_request. cbn [request_block_size push_request fst snd]. cbv iota.
  change (begin_push _ _ _ _ _ _ _ _ new_disk) with begun. rewrite begun_ok.
  unfold push_outcome. cbn [fst snd].
  change (send_reply _ _ _) with (announced_stream, Ok tt : result ServerError unit).
  assert (is_complete begun_transfer = false) as -> by (vm_compute; reflexivity).
  exists device_run, device_outcome. split; [|done]. split; [apply run_schedule_steps|].
  vm_compute. reflexivity.
Qed.

Lemma push_connected : connected pushing_host host_push.1 pushed_stream device_end.1.2.
Proof. split; [done|done|apply (bool_decide_unpack _); vm_compute; done..]. Qed.

Lemma completed_push_has_arrived_witness :
  ∃ y, tree device_end.1.1 !! target document_path = Some (Regular document y).
Proof.
  destruct (completed_push_has_arrived first_bytes any_hash same_form no_links no_detail 5 1 push_params pushing_host
    host_push.1 host_push_result document false new_disk pushed_stream device_end)
    as [(c & y & Hfrom & Hfile & _)|[(tid & m & Hid & _) _]].
  - exact host_tree_ok.
  - reflexivity.
  - exact document_size.
  - done.
  - exact document_outside.
  - exact (proj1 new_disk_ok).
  - exact (proj2 new_disk_ok).
  - exact host_push_ok.
  - exact device_served.
  - exact push_connected.
  - exists y. cbn in Hfrom. subst c. exact Hfile.
  - discriminate Hid.
Defined.

(** ** A pull *)

Definition fresh_pull : Disk * result StoreError PullTransfer :=
  begin_pull first_bytes same_form 5 None document_path 0 stocked_disk.
Definition fresh_transfer : PullTransfer :=
  match fresh_pull.2 with Ok tr => tr | Err _ => pull_begun_transfer end.
Definition fresh_id : bytes := transfer_id (pull_metadata fresh_transfer).

Definition pull_params : SyncPullParams :=
  {| pull_local_path := text "/copy"; pull_remote_path := document_path; pull_transfer_id := None; pull_block_size := 2 |}.
Definition pull_announcement : Frame :=
  data_frame (reply_bytes (Ready fresh_id 0 (len document) document_hash)) false.
Definition pull_frames : list Frame :=
  [data_frame (text "he") false; data_frame (text "ll") false; data_frame (text "o") true].
Definition pull_incoming : list (result ConnectionError Frame) :=
  Ok pull_announcement :: (Ok <$> pull_frames) ++ [Ok close_frame].
Definition pulling_host : HostSync := host_with host_tree pull_incoming.
Definition host_pull := Client.pull_with_operation first_bytes no_links 1 pull_params pulling_host.
Definition host_pull_result : SyncPullResult :=
  {| pulled_transfer_id := fresh_id; pulled_total_size := len document; received_size := len document;
     pulled_state := TransferState.Complete |}.
Lemma host_pull_ok : host_pull = (host_pull.1, Ok host_pull_result).
Proof.
  assert (Hr : host_pull.2 = Ok host_pull_result) by (vm_compute; reflexivity).
  destruct host_pull as [s r]. simpl in *. by rewrite Hr.
Qed.

Lemma host_pull_installs_only_the_announced_file_witness :
  ∃ ready c0 c, pull_result first_bytes pull_params host_tree pull_incoming [] host_pull_result host_pull.1 ready c0 c.
Proof.
  apply (host_pull_installs_only_the_announced_file first_bytes no_links 1 pull_params pulling_host host_pull.1
    (Ok host_pull_result)).
  - exact host_tree_ok.
  - exact host_pull_ok.
Defined.

Lemma undisturbed_host_pull_succeeds_witness :
  ∃ t' y, t' !! [text "copy"] = Some (Regular document y) ∧
    host_evals host_tree pull_incoming [] (Client.pull_with_operation first_bytes no_links 1 pull_params)
      (Ok host_pull_result) t' [] ([] ++ [(request_bytes (pull_request pull_params 0), true)]).
Proof.
  apply (undisturbed_host_pull_succeeds first_bytes no_links 1 pull_params document host_tree [] []
    (request_bytes (pull_request pull_params 0)) fresh_id pull_announcement pull_frames close_frame).
  - reflexivity.
  - by vm_compute.
  - done.
  - vm_compute. reflexivity.
  - exact host_tree_ok.
  - vm_compute. reflexivity.
  - intros n. vm_compute. done.
  - intros n. vm_compute. done.
  - exact document_size.
  - by vm_compute.
  - reflexivity.
  - reflexivity.
  - by split.
  - by vm_compute.
  - repeat constructor.
  - exists [data_frame (text "he") false; data_frame (text "ll") false], (data_frame (text "o") true).
    split; [done|]. split; [repeat constructor|done].
  - by split.
Defined.





(** The rename fails after the old file was removed. *)
Definition replacing_disk : Disk :=
  {| tree := {[ [] := Directory; [text "copy"] := Regular (text "old") false;
                [text "copy.kindlebridge.t.part"] := Regular document false ]};
     faults := [None; None; None; Some 0%nat]; temp_counter := 0; process_id := 3 |}.
Lemma host_commit_can_lose_the_destination_witness :
  ∃ d', Client.commit_host_file no_links [text "copy.kindlebridge.t.part"] [text "copy"] replacing_disk =
      (d', Err (LinkError.Io OtherIo)) ∧
    tree d' !! [text "copy"] = None ∧
    tree d' !! [text "copy.kindlebridge.t.part"] = Some (Regular document false).
Proof.
  eapply (host_commit_can_lose_the_destination no_links _ _ document false (text "old") false 0%nat replacing_disk).
  - apply tree_ok_forall, (bool_decide_unpack _); vm_compute; done.
  - done.
  - vm_compute. reflexivity.
  - vm_compute. reflexivity.
  - reflexivity.
Defined.
